(* ===== verification/_CoqProject ===== *)
-Q . S2P
Prelude.v
Words.v
Bytes.v
Anyint.v
AnyintArith.v
AnyintDiv.v
AnyintBits.v
AnyintSpec.v
Span.v
VirtDynArray.v
VirtDynArrayInv.v
VirtDynArraySpec.v
HashIndex.v
IndexMap.v
ShardedMap.v
ShardedSpec.v
Value.v
ValueStore.v
ValueLayout.v
ValueSpec.v
Token.v
Lexer.v
LexerInv.v
LexerStep.v
LexerIdent.v
LexerLit.v
LexerSpec.v
Diagnostic.v
Render.v
Ast.v
ParserCursor.v
ParserStmt.v
ParserDecl.v
ParserExpr.v
ParserInv.v
ParserCursorSpec.v
ParserDeclSpec.v
ParserExprSpec.v
ParserPrec.v
ParserSpec.v
Vuir.v
Vtir.v
StoreLogic.v
VtirSpec.v
Float128.v
SemaState.v
SemaAccess.v
SemaFold.v
SemaInit.v
SemaDecl.v
SemaCall.v
SemaInst.v
SemaTypeInfo.v
SemaJobs.v
SemaKeep.v
SemaKeepOps.v
SemaSystem.v
SemaLogic.v
SemaIntSpec.v
SemaExample.v
SemaDeclSpec.v
SemaFoldSpec.v
SemaLinearSpec.v
SemaInitSpec.v
SemaCoerceSpec.v
LowerState.v
Lower.v
LowerSyntax.v
LowerLogic.v
LowerScopes.v
LowerSteps.v
LowerDeclSpec.v
LowerTypeSpec.v
LowerFlowSpec.v
LowerSpec.v
LowerWalkSpec.v
Llvm.v
LlvmSpec.v
Compile.v
CompileExample.v
