(* ===== verification/Prelude.v ===== *)
(** * A verification development for the Vif compiler

    Vif is a compiler written in Rust: a front end (lexer, parser, lowering to
    an untyped instruction list), a semantic analysis that evaluates and types
    those instructions over a store of interned types and values, and an LLVM
    back end.  This library models, as executable definitions, the parts whose
    behaviour the rest of the compiler builds on, and proves what makes them
    correct.  All paths below are under [src/src/].

    ** The parts and how they fit

    - [Prelude], [Words], [Bytes]: what the Rust language and its standard
      library give (outcomes of code, loops, machine words, slices, UTF-8) and
      the interface of the [memx] byte-search crate.
    - Big integers ([int.rs]): [Anyint] has every operation of the file;
      [AnyintArith], [AnyintDiv] and [AnyintBits] prove that each computes on
      limbs what its name says on [Z]; [AnyintSpec] has the text of numbers and
      the properties.  The lexer's literals become such integers, and so do the
      integer values of the value store.
    - Source positions ([common/non_max_u32.rs], [common/span.rs]):
      [Span].  The lexer's tokens carry spans.
    - Lexer ([frontend/lexer.rs], [Radix] and [IdentKind] of [frontend.rs]):
      [Token] has the token kinds, their tags, the keyword tables and the
      character classes; [Lexer] has one definition per state of the state
      machine ([st_...]), the loop of [next], and the routines for escapes,
      numbers and identifiers.  [LexerInv] and [LexerStep] carry the invariant
      through every state; [LexerIdent] and [LexerLit] give the
      meaning of operators and words, numbers and strings; [LexerSpec] runs a
      whole file and has the properties.
    - Parser ([frontend/parser.rs], [frontend/ast.rs]): [Diagnostic] has the
      diagnostics and the orders they are sorted by; [Ast] every node of the tree;
      [ParserCursor] the state
      of the parser, the monad its functions run in, the cursor, the errors and
      the recovery; [ParserStmt], [ParserDecl] and [ParserExpr] one definition
      per function, with [Expr_knot] closing the recursion.  [ParserInv] is the
      invariant and the Hoare rules, against which [ParserCursorSpec],
      [ParserDeclSpec] (statements and declarations) and [ParserExprSpec] specify
      every function; [ParserPrec] has big-step rules for runs on known tokens and
      the grammar of operator expressions; [ParserSpec] runs a whole module and
      has the properties.
    - Concurrent arena ([common/containers/virtual_dyn_array.rs], with the
      commit of [common/os/alloc/unix.rs]): [VirtDynArray] models a push as a
      per-thread state machine, one atomic access per step, and the interleaving
      of any number of threads; [VirtDynArrayInv] is its invariant and
      [VirtDynArraySpec] the properties, with the refinement of a push that runs
      alone to the append of a list.
    - Index maps ([common/containers.rs], [common/containers/index_map.rs],
      [common/containers/sharded_index_map.rs] and their [entry.rs]):
      [HashIndex] is the interface of the [hashbrown] table, of hashing and of
      key equality; [IndexMap] has the index vector and the index map;
      [ShardedMap] has the encoding of indices and the sharded map, against the
      interface [ArenaLaws] of its slot arrays, which the arena implements;
      [ShardedSpec] has the refinement and what it means for interning.
    - Value store ([value.rs]): [Value] has the keys (types and compile-time
      values) with their equality and hashing, which discharge the interface of
      the map; [ValueStore] has the store and its queries; [ValueLayout] the
      sizes and alignments of types, as the code computes them and as
      declarative rules; [ValueSpec] the properties.

    - Instructions ([ir/id.rs], [ir/vuir/opcodes.rs], [ir/vtir/opcodes.rs]):
      [Vuir] has the references to instructions and values and the untyped
      instructions, [Vtir] the typed ones with the type of an operand, whose
      properties are in [VtirSpec].
    - Lowering ([ir/vuir/from_ast.rs], [Import] and [Vuir] of [ir/vuir.rs]):
      [Float128] has the float parser of the standard library; [LowerState] the
      scopes, the state with its monad, the emission of instructions, names and
      captures; [Lower] one definition per method of [Lowerer], with [knot]
      closing the recursion, up to [to_vuir].  [LowerSyntax] has the size of a
      syntax tree and the constructs that are supported; [LowerLogic] the
      invariant of the state and the rules for its operations, [LowerScopes] what
      the walks over the scopes compute, [LowerSteps] the rules that follow a
      scope from its opening to its end; against these [LowerDeclSpec]
      (statements and declarations), [LowerTypeSpec] and [LowerFlowSpec]
      (expressions and control flow) specify every method.  [LowerSpec] closes the
      induction, parses and lowers a program, and has the properties of modules;
      [LowerWalkSpec] those of names, [defer]s and jumps.
    - Semantic analysis ([compile_unit/sema.rs], [compile_unit/sema/call.rs],
      what it reads of [compile_unit.rs]): [Float128] is the arithmetic of
      constants; [SemaState] has the state, errors, blocks and operands;
      [SemaAccess] loads, linear values, declarations and fields; [SemaFold]
      coercions and operators; [SemaInit] indexing, initialisers, exhaustiveness,
      captures and bodies; [SemaDecl] structs, enums, unions and functions as
      they are declared; [SemaCall] calls, generic instances and builtins;
      [SemaInst] one definition per arm of [analyze_inst]; [SemaTypeInfo] the
      run-time type information.  The recursion between instructions, jobs and
      type information is open in these files (an argument, or the classes
      [Workers] and [TypeInfo]); [SemaJobs] closes it in [system].
    - What the analysis keeps: [SemaKeep] relates the states of a compile unit
      before and after a step (what is published stays, a unit is queued once)
      with the rules for programs of the monad and the tactic [within];
      [SemaKeepOps] proves it of every operation, [SemaSystem] of the whole
      [system] and of a program.
    - [StoreLogic] and [SemaLogic] have the rules for the store and the state,
      [SemaIntSpec] the integers of constants, [SemaExample] a concrete state;
      [SemaFoldSpec], [SemaLinearSpec], [SemaInitSpec], [SemaCoerceSpec]
      and [SemaDeclSpec] the properties of operators, linear
      values, initialisers, coercions, declarations and calls.
    - Compilation ([compile_unit.rs], [compile_unit/module.rs]): [SemaJobs] has
      the analysis of modules, declarations and functions and the queue of jobs;
      [Compile] the target, the parsing jobs with the modules they discover, and
      [compile] from the files to the functions handed to code generation and the
      text of the errors; [CompileExample] compiles programs of two modules.
    - Diagnostics ([common/diagnostic.rs]): [Diagnostic] has the data, which the
      parser already needs, and [Render] the writer of a diagnostic with the lines
      of source it points to.
    - Code generation ([codegen/llvm.rs], [codegen/abi.rs]): [Llvm] has the
      classification of types for calls, the representation of types, constants
      and functions as objects of LLVM, and the table of type information;
      [LlvmSpec] compares the layouts of types on both sides.

    ** How code is modelled

    A function that can fail returns a [res]: a value, or a [fault] that tells a
    panic from undefined behaviour, from a [str] that is not UTF-8, and from
    fuel that ran out.  Arithmetic that Rust checks is checked (the profile with
    overflow checks and debug assertions); casts truncate.  [usize] positions in
    the source text are [nat]; everything else that is a machine integer is a
    [Z] with its width written out.  Mutation is state passing.  A reference
    into the bump allocator, and an interned string or number, is what it points
    to.  Code of other crates is a class of functions ([Memx], [HashTable],
    [Hashify], [FxHasher], [SortedInsert]) with a class of laws that state its documentation,
    and each such class has a concrete instance that the examples use.

    ** What the theorems show

    - Exactness of big integers: the arithmetic, comparison, bitwise, shift and
      range operations, the conversions, and the round trip of printing and
      parsing, all against [Z].
    - Safety of the lexer: on every admissible source (its sentinel at the end,
      no lone carriage return) [next] terminates, reads inside the buffer and
      moves on; its one fault is an escaped identifier that is not UTF-8; the
      token stream of a file covers it in order.  Its meaning: the
      longest operator, words and keywords, string bodies with their escapes,
      and integer literals.  The exceptions are theorems of their own (a lone
      carriage return in a comment or string never ends, an operator that is
      never produced, a comment at the end of the file read as code).
    - The parser: on any token stream of the lexer it executes no undefined
      behaviour, and when it returns no error is lost; on a stream that ends with
      a brace and has no stray dot it terminates, with fuel and node identifiers
      linear in the tokens.  An operator expression printed with the parentheses
      its precedences ask for parses back to itself.  The exceptions are again
      theorems: a group that starts with a group, a stray dot, blocks left open at
      the end of the file.
    - Concurrency: under every interleaving the pushes of the arena get distinct
      slots, publish what they wrote, never overwrite it and never touch memory
      that is not committed; they do not deadlock unless one fails; and they can
      fail, by a race that is exhibited.
    - Refinement of the maps: the index map is an insertion-ordered association
      list, the sharded map a family of them; an index stands for one key for
      the life of the map, and encodes its place.
    - Value store: common values and pointers to values have the types and
      indices they should; layouts follow the rules, structs have room for their
      fields, unions for tag and payload; the query on compile-time types
      terminates and is reachability.

    - Lowering: on every module without unsupported constructs it ends without a
      fault, gives instructions exactly when it reports no error, and these are
      well formed (operands come before their uses, bodies are made of
      instructions of the module, jumps name what can be their target).  A name
      means what the innermost scope that binds it says, a captured one is found
      through the captures of the namespaces in between, [append_defers] emits
      the pending bodies, positions are right.  The exceptions are theorems: [&x]
      and captured names are not stored, [break] leaves functions and forgets the
      [defer]s, a float with an underscore panics.
    - Semantic analysis: folding of constants is the arithmetic of [Z] brought
      into the range of the type, with the cases where it is not; an operator on
      run-time operands emits its one instruction; coercions are well typed;
      linear values are used once or reported; a switch is exhaustive exactly when
      it covers every variant; a struct initialiser is accepted exactly when it
      gives every field; the layout of a packed struct, the width of an automatic
      tag and the values of an enum are what they should be; a call gives every
      parameter one argument and tells compile-time arguments from the others.
    - The whole analysis: whatever an instruction, a job or a program does, what
      was published (errors, values of declarations and modules, functions, type
      information) is not taken back; a unit of analysis runs once; when a program
      ends nothing is left over.  The exception: a global that is not known at
      compile time is never settled, and who waits for it hangs.
    - Compilation: the modules that the imports reach are discovered and parsed;
      the tags of the target are those the standard library declares.
    - Code generation: regular types are lowered to LLVM types of the size and
      alignment that the analysis computes.  The exception is a constant of a union
      that is laid out differently from its type.
    - Rendering: a diagnostic is written without a fault, with every line its
      labels cover; labels are drawn in order and none is lost; marks are under
      the columns of their labels when these do not overlap.

    ** Fuel and bounds

    Loops over a counter or a list are structural ([for_range], [for_enum]).
    The lexer's inner loops have the length of the text as fuel ([loop_fuel]);
    each iteration consumes a byte, and [LexerStep] proves that the fuel is
    enough, except for the loop that does diverge.  The division of big integers
    runs once per bit.  The recursive queries of the value store follow indices
    and get enough fuel from the well-foundedness of the type they start from:
    their theorems say that some fuel, and every larger one, gives the result.
    A push that runs alone takes at most seven accesses.  In the parser one fuel
    bounds the depth of the recursion between types and expressions and the turns
    of each loop; twice the number of tokens and two is enough for a stream that
    ends with a brace ([ParserRun.run_total]), and on other streams the parser may
    indeed not terminate.  The lowering takes a bound on the depth of its recursion: twice the number of
    nodes of the module is enough, and the [(n + 64) * n] instructions and values
    that a module of [n] nodes needs ([LowerSpec.budget]) must fit in 32 bits.
    Walks over the scopes have their number as fuel, which is enough because a
    parent comes before its children.  In the semantic analysis the fuel of the
    queries on types is the parameter [query_fuel] of its setting; a coercion calls
    itself once, so [coerce] has the fuel two.  The depth of the recursion of the
    analysis is the argument of [system]; a wait runs at most [query_fuel] jobs
    before it gives up.  The theorems about them hold for every fuel, of runs
    that return, because an analysis may not end (a recursion at compile time);
    that programs do end is shown on examples.  [parse_modules] takes a bound on
    the number of modules.

    ** What is not modelled

    The memory model of the arena is sequential consistency: the orderings of
    the atomic accesses are not weakened.  The sharded map's operations are
    atomic per shard, as its lock makes them.  Of the syntax tree its arena is
    left out, and of the instructions their printers.  The jobs of a compilation run on worker threads in the code; here
    one worker runs them, and a wait runs the oldest job of the queue.  Files,
    paths, hashing and the host triple are parameters.  Of the back
    end the bodies of functions, which drive the instruction builder of LLVM, debug
    information and the passes are left out; the driver does input and output
    (command line, linker, test runner). *)

From Stdlib Require Export ZArith Lia.
From stdpp Require Export base tactics list numbers option strings.

(** ** Outcomes of Rust code

    A Rust function returns a value, panics (assertion, bounds check, division
    by zero, [unreachable!]), or executes undefined behaviour (an unchecked
    read out of bounds, [unreachable_unchecked], a [str] made of bytes that are
    not UTF-8, kept apart as [Invalid_str]).  A loop modelled with fuel
    that runs out of it is an outcome of its own, never hidden in the others. *)

Inductive fault : Set := Panic | Undefined_behaviour | Invalid_str | Out_of_fuel.

Inductive res (A : Type) : Type :=
  | Ret (a : A)
  | Fault (f : fault).
Arguments Ret {A} a.
Arguments Fault {A} f.

#[export] Instance res_ret : MRet res := @Ret.
#[export] Instance res_bind : MBind res := fun A B k m =>
  match m with Ret a => k a | Fault f => Fault f end.
#[export] Instance res_fmap : FMap res := fun A B f m =>
  match m with Ret a => Ret (f a) | Fault e => Fault e end.

Lemma res_bind_inv {A B} (m : res A) (k : A -> res B) b : (m ≫= k) = Ret b -> exists a, m = Ret a /\ k a = Ret b.
Proof. destruct m as [a|]; [by exists a|done]. Qed.

Definition panic {A} : res A := Fault Panic.
Definition ub {A} : res A := Fault Undefined_behaviour.
Definition diverge {A} : res A := Fault Out_of_fuel.

(** [assert!(b)]. *)
Definition assert_ (b : bool) : res unit := if b then Ret tt else panic.

(** [v[i]] and [v[i] = x] with Rust's bounds check. *)
Definition get_idx {A} (l : list A) (i : nat) : res A :=
  match l !! i with Some x => Ret x | None => panic end.
Definition set_idx {A} (l : list A) (i : nat) (x : A) : res (list A) :=
  if decide (i < length l)%nat then Ret (<[i := x]> l) else panic.

(** ** Loops

    [for i in 0..n], [for i in (0..n).rev()] and
    [for (i, a) in l.iter().enumerate()], with the loop-carried variables as
    the state [S]. *)
Section loops.
Context {A S : Type}.

Fixpoint for_range (n : nat) (body : nat -> S -> S) (s : S) : S :=
  match n with
  | O => s
  | Datatypes.S n' => body n' (for_range n' body s)
  end.

Fixpoint for_rangeM (n : nat) (body : nat -> S -> res S) (s : S) : res S :=
  match n with
  | O => Ret s
  | Datatypes.S n' => s' ← for_rangeM n' body s; body n' s'
  end.

Fixpoint for_range_revM (n : nat) (body : nat -> S -> res S) (s : S) : res S :=
  match n with
  | O => Ret s
  | Datatypes.S n' => s' ← body n' s; for_range_revM n' body s'
  end.

Fixpoint for_enum_from (k : nat) (l : list A) (body : nat -> A -> S -> S) (s : S) : S :=
  match l with
  | [] => s
  | a :: l => for_enum_from (Datatypes.S k) l body (body k a s)
  end.
Definition for_enum := for_enum_from 0.

Fixpoint for_enumM_from (k : nat) (l : list A) (body : nat -> A -> S -> res S) (s : S) : res S :=
  match l with
  | [] => Ret s
  | a :: l => s' ← body k a s; for_enumM_from (Datatypes.S k) l body s'
  end.
Definition for_enumM := for_enumM_from 0.

(** Invariant rules: one per loop form. *)
Lemma for_range_ind (P : nat -> S -> Prop) n body s :
  P O s ->
  (forall i s, (i < n)%nat -> P i s -> P (Datatypes.S i) (body i s)) ->
  P n (for_range n body s).
Proof.
  intros H0. revert P H0. induction n as [|n IH]; intros P H0 Hs; simpl; [done|].
  apply Hs; [lia|]. apply IH; [done|]. intros; apply Hs; [lia|done].
Qed.

Lemma for_rangeM_ind (P : nat -> S -> Prop) n body s :
  P O s ->
  (forall i s, (i < n)%nat -> P i s -> exists s', body i s = Ret s' /\ P (Datatypes.S i) s') ->
  exists s', for_rangeM n body s = Ret s' /\ P n s'.
Proof.
  intros H0 Hs. induction n as [|n IH]; simpl; [eauto|].
  destruct IH as (s' & -> & HP); [intros; apply Hs; [lia|done]|]. simpl.
  apply Hs; [lia|done].
Qed.

Lemma for_range_revM_ind (P : nat -> S -> Prop) n body s :
  P n s ->
  (forall i s, (i < n)%nat -> P (Datatypes.S i) s -> exists s', body i s = Ret s' /\ P i s') ->
  exists s', for_range_revM n body s = Ret s' /\ P O s'.
Proof.
  revert s. induction n as [|n IH]; intros s H0 Hs; simpl; [eauto|].
  destruct (Hs n s) as (s' & -> & HP); [lia|done|]. simpl.
  apply IH; [done|]. intros; apply Hs; [lia|done].
Qed.

Lemma for_enum_from_ind (P : nat -> S -> Prop) k l body s :
  P k s ->
  (forall i a s, l !! i = Some a -> P (k + i)%nat s -> P (Datatypes.S (k + i)) (body (k + i)%nat a s)) ->
  P (k + length l)%nat (for_enum_from k l body s).
Proof.
  revert k s. induction l as [|a l IH]; intros k s H0 Hs; simpl.
  { by rewrite Nat.add_0_r. }
  replace (k + Datatypes.S (length l))%nat with (Datatypes.S k + length l)%nat by lia.
  apply IH.
  - specialize (Hs O a s). rewrite Nat.add_0_r in Hs. by apply Hs.
  - intros i b s' Hi HP. replace (Datatypes.S k + i)%nat with (k + Datatypes.S i)%nat in * by lia.
    by apply Hs.
Qed.

Lemma for_enum_ind (P : nat -> S -> Prop) l body s :
  P O s ->
  (forall i a s, l !! i = Some a -> P i s -> P (Datatypes.S i) (body i a s)) ->
  P (length l) (for_enum l body s).
Proof. intros. by apply (for_enum_from_ind P 0). Qed.

Lemma for_enumM_from_ind (P : nat -> S -> Prop) k l body s :
  P k s ->
  (forall i a s, l !! i = Some a -> P (k + i)%nat s ->
     exists s', body (k + i)%nat a s = Ret s' /\ P (Datatypes.S (k + i)) s') ->
  exists s', for_enumM_from k l body s = Ret s' /\ P (k + length l)%nat s'.
Proof.
  revert k s. induction l as [|a l IH]; intros k s H0 Hs; simpl.
  { rewrite Nat.add_0_r. eauto. }
  destruct (Hs O a s) as (s' & Hb & HP); [done|by rewrite Nat.add_0_r|].
  rewrite Nat.add_0_r in Hb, HP. rewrite Hb. simpl.
  replace (k + Datatypes.S (length l))%nat with (Datatypes.S k + length l)%nat by lia.
  apply IH; [done|]. intros i b s1 Hi HP1.
  replace (Datatypes.S k + i)%nat with (k + Datatypes.S i)%nat in * by lia.
  by apply Hs.
Qed.

Lemma for_enumM_from_app k l1 l2 body s :
  for_enumM_from k (l1 ++ l2) body s =
  (for_enumM_from k l1 body s ≫= for_enumM_from (k + length l1)%nat l2 body).
Proof.
  revert k s. induction l1 as [|a l1 IH]; intros k s; simpl; [by rewrite Nat.add_0_r|].
  destruct (body k a s); simpl; [|done]. rewrite IH. by rewrite Nat.add_succ_r.
Qed.

Lemma for_enumM_ind (P : nat -> S -> Prop) l body s :
  P O s ->
  (forall i a s, l !! i = Some a -> P i s -> exists s', body i a s = Ret s' /\ P (Datatypes.S i) s') ->
  exists s', for_enumM l body s = Ret s' /\ P (length l) s'.
Proof. intros. by apply (for_enumM_from_ind P 0). Qed.
End loops.

(** ** Weakest preconditions

    [wp m E Q]: [m] returns a value that satisfies [Q], or faults with a fault
    that satisfies [E]. *)
Definition wp {A} (m : res A) (E : fault -> Prop) (Q : A -> Prop) : Prop :=
  match m with Ret a => Q a | Fault f => E f end.

Lemma wp_ret {A} (a : A) E Q : Q a -> wp (Ret a) E Q.
Proof. done. Qed.

Lemma wp_bind {A B} (m : res A) (k : A -> res B) E Q :
  wp m E (fun a => wp (k a) E Q) -> wp (m ≫= k) E Q.
Proof. by destruct m. Qed.

Lemma wp_mono {A} (m : res A) (E E' : fault -> Prop) (Q Q' : A -> Prop) :
  (forall f, E f -> E' f) -> (forall a, Q a -> Q' a) -> wp m E Q -> wp m E' Q'.
Proof. intros HE HQ. destruct m; simpl; auto. Qed.

Lemma wp_elim {A} (m : res A) E Q :
  wp m E Q -> (exists a, m = Ret a /\ Q a) \/ (exists f, m = Fault f /\ E f).
Proof. destruct m; simpl; eauto. Qed.

Lemma wp_if {A} (b : bool) (m1 m2 : res A) E Q :
  (b = true -> wp m1 E Q) -> (b = false -> wp m2 E Q) -> wp (if b then m1 else m2) E Q.
Proof. destruct b; auto. Qed.

(** No fault is tolerated. *)
Definition no_fault (f : fault) : Prop := False.

Lemma wp_total {A} (m : res A) Q : wp m no_fault Q <-> exists a, m = Ret a /\ Q a.
Proof.
  destruct m; simpl; split; [eauto|by intros (? & [= ->] & ?)|done|by intros (? & ? & ?)].
Qed.
