(* ===== verification/Words.v ===== *)
(** * Machine words and little-endian limb vectors

    The truncating casts of Rust ([as u64], [as u128], ...), the value of a
    [Vec<u64>] of limbs, least significant first, and the arithmetic facts
    about reading, overwriting and splitting such a vector that the proofs on
    the arbitrary-precision integers share. *)

From S2P Require Import Prelude.

Declare Scope vif_scope.
Delimit Scope vif_scope with vif.
#[local] Open Scope Z_scope.

(** The casts [as u8], [as u16], [as u32], [as u64], [as u128]. *)
Definition u8 (z : Z) : Z := z mod 2^8.
Definition u16 (z : Z) : Z := z mod 2^16.
Definition u32 (z : Z) : Z := z mod 2^32.
Definition u64 (z : Z) : Z := z mod 2^64.
Definition u128 (z : Z) : Z := z mod 2^128.

(** [!x] on a [u64]. *)
Definition not64 (x : Z) : Z := 2^64 - 1 - x.

(** The bit offset of limb [n]. *)
Notation "n '⋅64'" := (64 * Z.of_nat n) (at level 1, left associativity, format "n ⋅64") : vif_scope.
#[local] Open Scope vif_scope.

Definition limb_ok (x : Z) : Prop := 0 <= x < 2^64.
Abbreviation limbs_ok := (Forall limb_ok).

(** The natural number a limb vector stands for. *)
Fixpoint limbs_val (l : list Z) : Z :=
  match l with
  | [] => 0
  | x :: l => x + 2^64 * limbs_val l
  end.

Create HintDb limbs.

Lemma pow64_pos n : 0 < 2^(n⋅64).
Proof. apply Z.pow_pos_nonneg; lia. Qed.

Lemma pow64_S n : 2^((S n)⋅64) = 2^64 * 2^(n⋅64).
Proof. rewrite <- Z.pow_add_r by lia. f_equal. lia. Qed.

Lemma pow64_add n m : 2^((n + m)⋅64) = 2^(n⋅64) * 2^(m⋅64).
Proof. rewrite <- Z.pow_add_r by lia. f_equal. lia. Qed.

Lemma u64_ok z : limb_ok (u64 z).
Proof. apply Z.mod_pos_bound; lia. Qed.

Lemma u64_small z : limb_ok z -> u64 z = z.
Proof. apply Z.mod_small. Qed.

Lemma u128_small z : 0 <= z < 2^128 -> u128 z = z.
Proof. apply Z.mod_small. Qed.

Lemma shr64 z : z ≫ 64 = z / 2^64.
Proof. by rewrite Z.shiftr_div_pow2 by lia. Qed.

Lemma not64_ok x : limb_ok x -> limb_ok (not64 x).
Proof. unfold limb_ok, not64. lia. Qed.

Lemma u64_split z : z = u64 z + 2^64 * (z ≫ 64).
Proof. rewrite shr64. unfold u64. rewrite Z.add_comm. apply Z.div_mod. lia. Qed.

#[export] Hint Resolve u64_ok not64_ok : limbs.

(** ** The value of a limb vector *)

Lemma limbs_val_app l1 l2 :
  limbs_val (l1 ++ l2) = limbs_val l1 + 2^((length l1)⋅64) * limbs_val l2.
Proof.
  induction l1 as [|x l1 IH]; [simpl; lia|].
  cbn [app limbs_val length]. rewrite IH, pow64_S. ring.
Qed.

Lemma limbs_val_snoc l x :
  limbs_val (l ++ [x]) = limbs_val l + 2^((length l)⋅64) * x.
Proof. rewrite limbs_val_app. simpl. ring. Qed.

Lemma limbs_val_bounds l :
  limbs_ok l -> 0 <= limbs_val l < 2^((length l)⋅64).
Proof.
  induction 1 as [|x l Hx Hl IH]; [simpl; lia|].
  cbn [limbs_val length]. rewrite pow64_S. unfold limb_ok in Hx. nia.
Qed.

Lemma limbs_val_nonneg l : limbs_ok l -> 0 <= limbs_val l.
Proof. intros. by apply limbs_val_bounds. Qed.

Lemma limbs_val_replicate n : limbs_val (replicate n 0) = 0.
Proof. induction n; simpl; lia. Qed.

Lemma limbs_ok_replicate n : limbs_ok (replicate n 0).
Proof. apply Forall_replicate. unfold limb_ok. lia. Qed.

Lemma limbs_ok_default l i : limbs_ok l -> limb_ok (default 0 (l !! i)).
Proof.
  intros Hl. destruct (l !! i) as [x|] eqn:E; simpl.
  - by eapply Forall_lookup_1.
  - unfold limb_ok. lia.
Qed.

Lemma limbs_val_take_S l i :
  limbs_val (take (S i) l) = limbs_val (take i l) + default 0 (l !! i) * 2^(i⋅64).
Proof.
  destruct (l !! i) as [x|] eqn:E; simpl.
  - rewrite (take_S_r _ _ _ E), limbs_val_snoc, length_take, Nat.min_l; [ring|].
    apply lookup_lt_Some in E. lia.
  - apply lookup_ge_None in E. rewrite !take_ge by lia. lia.
Qed.

Lemma limbs_val_drop l i x :
  l !! i = Some x -> limbs_val (drop i l) = x + 2^64 * limbs_val (drop (S i) l).
Proof. intros E. by rewrite (drop_S _ _ _ E). Qed.

Lemma limbs_val_take_drop l i :
  (i <= length l)%nat ->
  limbs_val l = limbs_val (take i l) + 2^(i⋅64) * limbs_val (drop i l).
Proof.
  intros. rewrite <- (take_drop i l) at 1.
  by rewrite limbs_val_app, length_take, Nat.min_l by lia.
Qed.

Lemma limbs_val_insert l i x y :
  l !! i = Some x ->
  limbs_val (<[i := y]> l) = limbs_val l + (y - x) * 2^(i⋅64).
Proof.
  revert i. induction l as [|z l IH]; intros [|i] E; simplify_eq/=.
  - lia.
  - rewrite (IH _ E), pow64_S. ring.
Qed.

Lemma limbs_ok_insert l i y : limbs_ok l -> limb_ok y -> limbs_ok (<[i := y]> l).
Proof. intros. by apply Forall_insert. Qed.

Lemma limbs_ok_lookup l i x : limbs_ok l -> l !! i = Some x -> limb_ok x.
Proof. intros. by eapply Forall_lookup_1. Qed.

Lemma limbs_ok_snoc l x : limbs_ok l -> limb_ok x -> limbs_ok (l ++ [x]).
Proof. intros. apply Forall_app_2; [done|]. by constructor. Qed.

Lemma limbs_ok_nil : limbs_ok [].
Proof. constructor. Qed.

Lemma limbs_ok_cons x l : limb_ok x -> limbs_ok l -> limbs_ok (x :: l).
Proof. by constructor. Qed.

#[export] Hint Resolve limbs_ok_nil limbs_ok_cons limbs_ok_snoc limbs_ok_replicate limbs_ok_default limbs_ok_insert
  limbs_ok_lookup limbs_val_nonneg pow64_pos : limbs.
#[export] Hint Resolve Forall_take Forall_drop Forall_app_2 : limbs.

(** Dividing by a power of the radix drops limbs. *)
Lemma limbs_val_div l i :
  limbs_ok l -> limbs_val l / 2^(i⋅64) = limbs_val (drop i l).
Proof.
  intros Hl. destruct (decide (i <= length l)%nat).
  - rewrite (limbs_val_take_drop l i) by lia.
    assert (0 <= limbs_val (take i l) < 2^(i⋅64)) as Ht.
    { pose proof (limbs_val_bounds (take i l) (Forall_take _ _ _ Hl)) as Hb.
      by rewrite length_take, Nat.min_l in Hb by lia. }
    rewrite Z.mul_comm, Z.div_add by lia. rewrite Z.div_small by lia. lia.
  - rewrite drop_ge by lia. apply Z.div_small.
    destruct (limbs_val_bounds l Hl). split; [lia|].
    eapply Z.lt_le_trans; [done|]. apply Z.pow_le_mono_r; lia.
Qed.

Lemma limbs_val_mod l i :
  limbs_ok l -> limbs_val l mod 2^(i⋅64) = limbs_val (take i l).
Proof.
  intros Hl. pose proof (limbs_val_div l i Hl) as Hd.
  pose proof (pow64_pos i). rewrite Z.mod_eq by lia. rewrite Hd.
  destruct (decide (i <= length l)%nat).
  - rewrite (limbs_val_take_drop l i) at 1 by lia. lia.
  - rewrite drop_ge, take_ge by lia. simpl. lia.
Qed.

(** Overwriting the lowest limb kept by [drop]. *)
Lemma drop_insert_eq {A} (l : list A) i y :
  (i < length l)%nat -> drop i (<[i := y]> l) = y :: drop (S i) l.
Proof.
  intros. rewrite (drop_S _ y) by (by apply list_lookup_insert_eq).
  by rewrite drop_insert_lt by lia.
Qed.

Lemma get_idx_lt {A} (l : list A) i : (i < length l)%nat -> exists x, l !! i = Some x /\ get_idx l i = Ret x.
Proof.
  intros Hi. apply lookup_lt_is_Some_2 in Hi as [x Hx]. exists x.
  unfold get_idx. by rewrite Hx.
Qed.

Lemma get_idx_Some {A} (l : list A) i x : l !! i = Some x -> get_idx l i = Ret x.
Proof. unfold get_idx. by intros ->. Qed.
Lemma get_idx_inv {A} (l : list A) i x : get_idx l i = Ret x -> l !! i = Some x.
Proof. unfold get_idx. by destruct (l !! i); intros [= ->]. Qed.

Lemma set_idx_inv {A} (l l' : list A) i x : set_idx l i x = Ret l' -> l' = <[i := x]> l /\ (i < length l)%nat.
Proof. unfold set_idx. case_decide; by intros [= <-]. Qed.
Lemma set_idx_lt {A} (l : list A) i x : (i < length l)%nat -> set_idx l i x = Ret (<[i := x]> l).
Proof. intros. unfold set_idx. by rewrite decide_True. Qed.

(** Overwriting a limb [x] by the low half of [x + s] and carrying the high
    half into the next column adds [s] in this one. *)
Lemma carry_step P x s : (u64 (x + s) - x) * P + (x + s) / 2^64 * (2^64 * P) = s * P.
Proof.
  pose proof (u64_split (x + s)) as H. rewrite shr64 in H.
  revert H. generalize (u64 (x + s)), ((x + s) / 2^64). intros lo hi H.
  replace s with (lo + 2^64 * hi - x) by lia. ring.
Qed.

Lemma carry_bound z n : 0 <= z < 2^64 * n -> 0 <= z / 2^64 < n.
Proof. intros. split; [apply Z.div_pos; lia|]. apply Z.div_lt_upper_bound; lia. Qed.

(** Disjoint [|] is [+]. *)
Lemma lor_disjoint_add a b n :
  0 <= n -> 0 <= a < 2^n -> Z.lor a (b * 2^n) = a + b * 2^n.
Proof.
  intros Hn Ha. rewrite Z.add_nocarry_lxor.
  - symmetry. apply Z.lxor_lor. apply Z.bits_inj'. intros i Hi.
    rewrite Z.land_spec, Z.bits_0. destruct (decide (i < n)).
    + rewrite Z.mul_pow2_bits_low by lia. by rewrite andb_false_r.
    + rewrite <- (Z.mod_small a (2^n)) by lia.
      rewrite Z.mod_pow2_bits_high by lia. done.
  - apply Z.bits_inj'. intros i Hi.
    rewrite Z.land_spec, Z.bits_0. destruct (decide (i < n)).
    + rewrite Z.mul_pow2_bits_low by lia. by rewrite andb_false_r.
    + rewrite <- (Z.mod_small a (2^n)) by lia.
      rewrite Z.mod_pow2_bits_high by lia. done.
Qed.

(** [x << s] truncated to 64 bits keeps the low [64 - s] bits. *)
Lemma shl64 x s : 0 <= s <= 64 -> u64 (x ≪ s) = (x mod 2^(64 - s)) * 2^s.
Proof.
  intros. unfold u64. rewrite Z.shiftl_mul_pow2 by lia.
  replace (2^64) with (2^(64 - s) * 2^s) by (rewrite <- Z.pow_add_r by lia; f_equal; lia).
  apply Zmult_mod_distr_r.
Qed.
