(* ===== verification/Bytes.v ===== *)
(** * Bytes, slices, UTF-8 and the byte-search library

    The Rust standard-library operations on byte slices and characters that the
    front end uses, and the interface of the [memx] crate (vectorised byte
    search): its functions are the fields of the class [Memx], what their
    documentation promises are the laws of [MemxLaws], and [memx_scalar] is a
    plain implementation of both. *)

From S2P Require Import Prelude.
From Stdlib Require Export Ascii.
From stdpp Require Export list_numbers.

#[local] Open Scope Z_scope.

(** A byte is an integer in [0, 256). *)
Definition byte_ok (b : Z) : Prop := 0 <= b < 256.

(** [b'c'] and [b"..."]. *)
Definition byte (c : ascii) : Z := Z.of_N (N_of_ascii c).
Arguments byte c%_char_scope.
Definition bytes_of (s : string) : list Z := map byte (String.list_ascii_of_string s).
Arguments bytes_of s%_string_scope.

(** Evaluates the byte literals of a goal and its hypotheses. *)
Ltac byte_lits :=
  repeat match goal with
    | |- context [byte ?c] => let v := eval vm_compute in (byte c) in change (byte c) with v
    | H : context [byte ?c] |- _ => let v := eval vm_compute in (byte c) in change (byte c) with v in H
    end.

(** [&v[a..b]] and [&v[a..]], with Rust's checks. *)
Definition slice {A} (v : list A) (a b : nat) : res (list A) :=
  if decide (a <= b <= length v)%nat then Ret (take (b - a) (drop a v)) else panic.
Definition slice_from {A} (v : list A) (a : nat) : res (list A) :=
  if decide (a <= length v)%nat then Ret (drop a v) else panic.

(** [n - k] on [usize]. *)
Definition usize_sub (n k : nat) : res nat :=
  if decide (k <= n)%nat then Ret (n - k)%nat else panic.

(** [u8::is_ascii_digit], [u8::is_ascii_hexdigit]. *)
Definition is_ascii_digit (b : Z) : bool := (48 <=? b) && (b <=? 57).
Definition is_ascii_hexdigit (b : Z) : bool :=
  is_ascii_digit b || ((97 <=? b) && (b <=? 102)) || ((65 <=? b) && (b <=? 70)).

(** ** UTF-8 *)

(** [char::from_u32]: the scalar values. *)
Definition is_scalar (c : Z) : bool :=
  ((0 <=? c) && (c <? 55296)) || ((57344 <=? c) && (c <=? 1114111)).
Definition char_from_u32 (c : Z) : option Z := if is_scalar c then Some c else None.

(** [char::encode_utf8]. *)
Definition encode_utf8 (c : Z) : list Z :=
  if c <? 128 then [c]
  else if c <? 2048 then [192 + c / 64; 128 + c mod 64]
  else if c <? 65536 then [224 + c / 4096; 128 + c / 64 mod 64; 128 + c mod 64]
  else [240 + c / 262144; 128 + c / 4096 mod 64; 128 + c / 64 mod 64; 128 + c mod 64].

Definition cont (b : Z) : bool := (128 <=? b) && (b <=? 191).
Definition within (lo hi b : Z) : bool := (lo <=? b) && (b <=? hi).

(** [str::from_utf8] succeeds: the well-formed byte sequences of the Unicode
    standard (table 3-7). *)
Fixpoint utf8_valid (s : list Z) : bool :=
  match s with
  | [] => true
  | b0 :: s0 =>
      if within 0 127 b0 then utf8_valid s0
      else
        match s0 with
        | [] => false
        | b1 :: s1 =>
            if within 194 223 b0 then cont b1 && utf8_valid s1
            else
              match s1 with
              | [] => false
              | b2 :: s2 =>
                  if b0 =? 224 then within 160 191 b1 && cont b2 && utf8_valid s2
                  else if within 225 236 b0 || within 238 239 b0 then
                    cont b1 && cont b2 && utf8_valid s2
                  else if b0 =? 237 then within 128 159 b1 && cont b2 && utf8_valid s2
                  else
                    match s2 with
                    | [] => false
                    | b3 :: s3 =>
                        if b0 =? 240 then within 144 191 b1 && cont b2 && cont b3 && utf8_valid s3
                        else if within 241 243 b0 then
                          cont b1 && cont b2 && cont b3 && utf8_valid s3
                        else if b0 =? 244 then
                          within 128 143 b1 && cont b2 && cont b3 && utf8_valid s3
                        else false
                    end
              end
        end
  end.

(** ** Searching *)

(** The first position of a byte that satisfies [f]. *)
Fixpoint position (f : Z -> bool) (s : list Z) : option nat :=
  match s with
  | [] => None
  | b :: s => if f b then Some O else S <$> position f s
  end.

(** The functions of the [memx] crate. *)
Class Memx := {
  memchr : list Z -> Z -> option nat;
  memchr_dbl : list Z -> Z -> Z -> option nat;
  memchr_tpl : list Z -> Z -> Z -> Z -> option nat;
  memnechr_qpl : list Z -> Z -> Z -> Z -> Z -> option nat;
}.

(** What their documentation promises: the position of the first byte equal to
    one of the needles ([memchr*]), or different from all ([memnechr_qpl]). *)
Class MemxLaws `{!Memx} : Prop := {
  memchr_first s x : memchr s x = position (fun b => b =? x) s;
  memchr_dbl_first s x y : memchr_dbl s x y = position (fun b => (b =? x) || (b =? y)) s;
  memchr_tpl_first s x y z :
    memchr_tpl s x y z = position (fun b => (b =? x) || (b =? y) || (b =? z)) s;
  memnechr_qpl_first s x y z w :
    memnechr_qpl s x y z w =
      position (fun b => negb ((b =? x) || (b =? y) || (b =? z) || (b =? w))) s;
}.

Definition memx_scalar : Memx := {|
  memchr s x := position (fun b => b =? x) s;
  memchr_dbl s x y := position (fun b => (b =? x) || (b =? y)) s;
  memchr_tpl s x y z := position (fun b => (b =? x) || (b =? y) || (b =? z)) s;
  memnechr_qpl s x y z w := position (fun b => negb ((b =? x) || (b =? y) || (b =? z) || (b =? w))) s;
|}.

Lemma memx_scalar_laws : @MemxLaws memx_scalar.
Proof. by split. Qed.

(** ** Lemmas *)

Lemma position_Some f s n :
  position f s = Some n ->
  exists b, s !! n = Some b /\ f b = true /\ forall i c, (i < n)%nat -> s !! i = Some c -> f c = false.
Proof.
  revert n. induction s as [|a s IH]; intros n; simpl; [done|].
  destruct (f a) eqn:E; [intros [= <-]; exists a; split_and!; [done|done|lia]|].
  destruct (position f s) as [m|]; simpl; [|done]. intros [= <-].
  destruct (IH m eq_refl) as (b & Hb & Hf & Hlt). exists b. split_and!; [done|done|].
  intros [|i] c Hi Hc; simplify_eq/=; [done|]. apply (Hlt i); [lia|done].
Qed.

Lemma position_None f s : position f s = None <-> Forall (fun b => f b = false) s.
Proof.
  induction s as [|a s IH]; simpl; [split; [constructor|done]|].
  rewrite Forall_cons. destruct (f a) eqn:E; [split; [done|by intros []]|].
  destruct (position f s); simpl; [|split; [intros _; split; [done|by apply IH]|done]].
  split; [done|]. intros [_ H]. apply IH in H. done.
Qed.

Lemma position_split f s n :
  position f s = Some n ->
  exists b s2, s = take n s ++ b :: s2 /\ f b = true /\ Forall (fun c => f c = false) (take n s).
Proof.
  revert n. induction s as [|a s IH]; intros n; simpl; [done|].
  destruct (f a) eqn:E; [intros [= <-]; exists a, s; done|].
  destruct (position f s) as [m|]; simpl; [|done]. intros [= <-].
  destruct (IH m eq_refl) as (b & s2 & Hs & Hb & Hf). exists b, s2. simpl.
  rewrite <- Hs. split_and!; [done|done|by constructor].
Qed.

Lemma position_lt f s n : position f s = Some n -> (n < length s)%nat.
Proof. intros (b & Hb & _)%position_Some. by eapply lookup_lt_Some. Qed.

Lemma position_ext f g s : (forall b, f b = g b) -> position f s = position g s.
Proof. intros H. induction s as [|a s IH]; simpl; [done|]. by rewrite H, IH. Qed.

(** A run of bytes on which [f] fails, then one on which it holds. *)
Lemma position_app f s1 b s2 :
  Forall (fun c => f c = false) s1 -> f b = true -> position f (s1 ++ b :: s2) = Some (length s1).
Proof.
  intros Hs Hb. induction Hs as [|a s1 Ha Hs IH]; simpl; [by rewrite Hb|].
  by rewrite Ha, IH.
Qed.

Lemma slice_ok {A} (v : list A) a b :
  (a <= b <= length v)%nat -> slice v a b = Ret (take (b - a) (drop a v)).
Proof. intros. unfold slice. by rewrite decide_True. Qed.

Lemma slice_from_ok {A} (v : list A) a : (a <= length v)%nat -> slice_from v a = Ret (drop a v).
Proof. intros. unfold slice_from. by rewrite decide_True. Qed.

Lemma slice_middle {A} (l m r : list A) :
  slice (l ++ m ++ r) (length l) (length l + length m) = Ret m.
Proof.
  rewrite slice_ok by (rewrite !length_app; lia). f_equal.
  rewrite drop_app_length, Nat.add_sub_swap, Nat.sub_diag by lia. simpl. apply take_app_length.
Qed.

Lemma usize_sub_ok n k : (k <= n)%nat -> usize_sub n k = Ret (n - k)%nat.
Proof. intros. unfold usize_sub. by rewrite decide_True. Qed.

Lemma utf8_valid_ascii s : Forall (fun b => 0 <= b < 128) s -> utf8_valid s = true.
Proof.
  induction 1 as [|b s Hb Hs IH]; simpl; [done|].
  unfold within. destruct (Z.leb_spec 0 b), (Z.leb_spec b 127); try lia. done.
Qed.

(** Checking a property of every byte by evaluation. *)
Lemma forall_bytes (f : Z -> bool) :
  forallb f (seqZ 0 256) = true -> forall b, byte_ok b -> f b = true.
Proof.
  intros H b Hb. rewrite forallb_forall in H. apply H.
  apply list_elem_of_In, elem_of_seqZ. unfold byte_ok in Hb. lia.
Qed.
