(* ===== verification/Anyint.v ===== *)
(** * Arbitrary-precision integers ([src/int.rs]): data and operations

    [Anyint.t] is the struct [Anyint]: a sign flag and a little-endian vector
    of [u64] limbs.  Every associated function and trait implementation of the
    file is a definition of the same name; operations that assert, index a
    vector or loop on a condition return a [res].  [to_Z] and [wf] (the
    abstraction function and the representation invariant) are the
    specification side; the theorems are in [AnyintArith], [AnyintBits] and
    [AnyintText]. *)

From S2P Require Import Prelude Words.

#[local] Open Scope Z_scope.

Module Anyint.

Record t : Set := mk { negative : bool; limbs : list Z }.

Definition ZERO : t := mk false [].

(** ** Inspection *)

Definition is_negative (self : t) : bool := negative self.

Definition to_u64 (self : t) : option Z :=
  if negative self || (1 <? Z.of_nat (length (limbs self))) then None
  else Some (default 0 (head (limbs self))).

(** [u64::leading_zeros]. *)
Definition leading_zeros (x : Z) : Z := if x =? 0 then 64 else 63 - Z.log2 x.

Definition significant_bits (self : t) : Z :=
  match last (limbs self) with
  | None => 0
  | Some last => (Z.of_nat (length (limbs self)) - 1) * 64 + (64 - leading_zeros last)
  end.

Definition is_zero (self : t) : bool := match limbs self with [] => true | _ => false end.

(** [while self.limbs.last() == Some(&0) { self.limbs.pop(); }]: at most
    [length] iterations. *)
Fixpoint pop_zeros (fuel : nat) (ls : list Z) : list Z :=
  match fuel with
  | O => ls
  | S fuel =>
      match last ls with
      | Some 0 => pop_zeros fuel (removelast ls)
      | _ => ls
      end
  end.

Definition normalize (self : t) : t :=
  let ls := pop_zeros (length (limbs self)) (limbs self) in
  mk (match ls with [] => false | _ => negative self end) ls.

(** Lexicographic [Iterator::cmp]. *)
Fixpoint iter_cmp (l r : list Z) : comparison :=
  match l, r with
  | [], [] => Eq
  | [], _ :: _ => Lt
  | _ :: _, [] => Gt
  | x :: l, y :: r => match x ?= y with Eq => iter_cmp l r | order => order end
  end.

Definition abs_cmp (self other : t) : comparison :=
  match Nat.compare (length (limbs self)) (length (limbs other)) with
  | Eq => iter_cmp (reverse (limbs self)) (reverse (limbs other))
  | order => order
  end.

Definition abs_cmp_pow2 (self : t) (bit : Z) : res comparison :=
  let limb := Z.to_nat (bit / 64) in
  let bit_in_limb := bit mod 64 in
  let needed_len := S limb in
  match Nat.compare (length (limbs self)) needed_len with
  | Lt => Ret Lt
  | Gt => Ret Gt
  | Eq =>
      let top := u64 (1 ≪ bit_in_limb) in
      x ← get_idx (limbs self) limb;
      match x ?= top with
      | Eq => Ret (if existsb (fun x => negb (x =? 0)) (take limb (limbs self)) then Gt else Eq)
      | order => Ret order
      end
  end.

Definition fits_unsigned_bits (self : t) (bits : Z) : bool :=
  negb (negative self) && (significant_bits self <=? bits).

Definition fits_signed_bits (self : t) (bits : Z) : res bool :=
  _ ← assert_ (0 <? bits);
  if negative self then
    c ← abs_cmp_pow2 self (bits - 1);
    Ret (match c with Gt => false | _ => true end)
  else Ret (significant_bits self <? bits).

(** ** Magnitude arithmetic on limb vectors *)

Definition add_abs (lhs rhs : list Z) : list Z :=
  let len := Nat.max (length lhs) (length rhs) in
  let '(out, carry) :=
    for_range len (fun i '(out, carry) =>
      let a := default 0 (lhs !! i) in
      let b := default 0 (rhs !! i) in
      let sum := u128 (a + b + carry) in
      (out ++ [u64 sum], sum ≫ 64)) ([], 0) in
  if negb (carry =? 0) then out ++ [u64 carry] else out.

Definition sub_abs (lhs rhs : list Z) : list Z :=
  fst (for_enum lhs (fun i a '(out, borrow) =>
    let b := default 0 (rhs !! i) in
    let sub := u128 (b + borrow) in
    if sub <=? a then (out ++ [u64 (u128 (a - sub))], 0)
    else (out ++ [u64 (u128 (1 ≪ 64 + a - sub))], 1)) ([], 0)).

(** The [while carry != 0] loop of [add_small_assign], from limb [i]. *)
Fixpoint add_small_loop (fuel : nat) (ls : list Z) (i : nat) (carry : Z) : res (list Z) :=
  match fuel with
  | O => diverge
  | S fuel =>
      if carry =? 0 then Ret ls
      else
        let ls := if (i =? length ls)%nat then ls ++ [0] else ls in
        x ← get_idx ls i;
        let sum := u128 (x + carry) in
        ls ← set_idx ls i (u64 sum);
        add_small_loop fuel ls (S i) (sum ≫ 64)
  end.

Definition add_small_assign (self : t) (rhs : Z) : res t :=
  if rhs =? 0 then Ret self
  else mk (negative self) <$> add_small_loop (length (limbs self) + 2) (limbs self) 0 rhs.

(** [for limb in &mut self.limbs]: the updated limbs and the final carry. *)
Fixpoint mul_small_loop (ls : list Z) (rhs carry : Z) : list Z * Z :=
  match ls with
  | [] => ([], carry)
  | limb :: ls =>
      let prod := u128 (limb * rhs + carry) in
      let '(ls, carry) := mul_small_loop ls rhs (prod ≫ 64) in
      (u64 prod :: ls, carry)
  end.

Definition mul_small_assign (self : t) (rhs : Z) : t :=
  if (rhs =? 0) || is_zero self then ZERO
  else
    let '(ls, carry) := mul_small_loop (limbs self) rhs 0 in
    mk (negative self) (if negb (carry =? 0) then ls ++ [u64 carry] else ls).

Definition div_rem_small (self : t) (rhs : Z) : res (t * Z) :=
  _ ← assert_ (negb (rhs =? 0));
  '(out, rem) ←
    for_range_revM (length (limbs self)) (fun i '(out, rem) =>
      x ← get_idx (limbs self) i;
      let cur := Z.lor (u128 (rem ≪ 64)) x in
      out ← set_idx out i (u64 (cur / rhs));
      Ret (out, cur mod rhs)) (replicate (length (limbs self)) 0, 0);
  Ret (normalize (mk false out), u64 rem).

Definition set_bit (self : t) (bit : Z) : res t :=
  let limb := Z.to_nat (bit / 64) in
  let bit := bit mod 64 in
  let ls := limbs self in
  let ls := if (length ls <=? limb)%nat then resize (S limb) 0 ls else ls in
  x ← get_idx ls limb;
  mk (negative self) <$> set_idx ls limb (Z.lor x (u64 (1 ≪ bit))).

Definition abs_shl (self : t) (shift : Z) : res t :=
  if is_zero self then Ret ZERO
  else
    let limb_shift := Z.to_nat (shift / 64) in
    let bit_shift := shift mod 64 in
    out ←
      for_enumM (limbs self) (fun i limb out =>
        let idx := (i + limb_shift)%nat in
        x ← get_idx out idx;
        out ← set_idx out idx (Z.lor x (u64 (limb ≪ bit_shift)));
        if negb (bit_shift =? 0) then
          y ← get_idx out (idx + 1)%nat;
          set_idx out (idx + 1)%nat (Z.lor y (limb ≫ (64 - bit_shift)))
        else Ret out) (replicate (limb_shift + length (limbs self) + 1)%nat 0);
    Ret (normalize (mk (negative self) out)).

Definition abs_shr (self : t) (shift : Z) : res t :=
  let limb_shift := Z.to_nat (shift / 64) in
  let bit_shift := shift mod 64 in
  let n := length (limbs self) in
  if (n <=? limb_shift)%nat then Ret ZERO
  else
    out ←
      for_rangeM (n - limb_shift) (fun dst out =>
        let i := (limb_shift + dst)%nat in
        x ← get_idx (limbs self) i;
        y ← get_idx out dst;
        out ← set_idx out dst (Z.lor y (x ≫ bit_shift));
        if negb (bit_shift =? 0) && (i + 1 <? n)%nat then
          x' ← get_idx (limbs self) (i + 1)%nat;
          y ← get_idx out dst;
          set_idx out dst (Z.lor y (u64 (x' ≪ (64 - bit_shift))))
        else Ret out) (replicate (n - limb_shift) 0);
    Ret (normalize (mk false out)).

(** ** Comparison, sign, addition and subtraction *)

Definition eq (self other : t) : bool :=
  Bool.eqb (negative self) (negative other) && bool_decide (limbs self = limbs other).

Definition cmp (self other : t) : comparison :=
  match negative self, negative other with
  | true, false => Lt
  | false, true => Gt
  | false, false => abs_cmp self other
  | true, true => abs_cmp other self
  end.

Definition neg (self : t) : t :=
  if negb (is_zero self) then mk (negb (negative self)) (limbs self) else self.

Definition add (self rhs : t) : t :=
  normalize
    (if Bool.eqb (negative self) (negative rhs) then
       mk (negative self) (add_abs (limbs self) (limbs rhs))
     else
       match abs_cmp self rhs with
       | Gt | Eq => mk (negative self) (sub_abs (limbs self) (limbs rhs))
       | Lt => mk (negative rhs) (sub_abs (limbs rhs) (limbs self))
       end).

Definition sub (self rhs : t) : t := add self (neg rhs).

(** ** Conversions *)

(** [From<u8 | u16 | u32 | u64 | usize>] (at most 8 bytes wide) and
    [From<u128>]. *)
Definition from_unsigned (value : Z) : t := normalize (mk false [u64 value]).
Definition from_u128 (value : Z) : t := normalize (mk false [u64 value; u64 (value ≫ 64)]).

(** [From<i8 | ... | i64 | i128 | isize>]; [as u128] of an [i128] is [u128]. *)
Definition from_signed (value : Z) : t :=
  let negative := value <? 0 in
  let abs := if negative then u128 (- value) else u128 value in
  let high := u64 (abs ≫ 64) in
  normalize (mk negative (if negb (high =? 0) then [u64 abs; high] else [u64 abs])).

(** ** Multiplication and division *)

(** [while carry != 0] of the schoolbook product, from column [idx]. *)
Fixpoint mul_carry_loop (fuel : nat) (out : list Z) (idx : nat) (carry : Z) : res (list Z) :=
  match fuel with
  | O => diverge
  | S fuel =>
      if carry =? 0 then Ret out
      else
        x ← get_idx out idx;
        let cur := u128 (x + carry) in
        out ← set_idx out idx (u64 cur);
        mul_carry_loop fuel out (S idx) (cur ≫ 64)
  end.

Definition mul_row (rhs : list Z) (i : nat) (a : Z) (out : list Z) : res (list Z) :=
  '(out, carry) ←
    for_enumM rhs (fun j b '(out, carry) =>
      let idx := (i + j)%nat in
      x ← get_idx out idx;
      let cur := u128 (x + a * b + carry) in
      out ← set_idx out idx (u64 cur);
      Ret (out, cur ≫ 64)) (out, 0);
  mul_carry_loop (length out + 1) out (i + length rhs)%nat carry.

Definition mul (self rhs : t) : res t :=
  if is_zero self || is_zero rhs then Ret ZERO
  else
    out ← for_enumM (limbs self) (mul_row (limbs rhs))
            (replicate (length (limbs self) + length (limbs rhs)) 0);
    Ret (normalize (mk (xorb (negative self) (negative rhs)) out)).

(** One step of the shift-and-subtract division, at bit [bit] of [lhs]. *)
Definition div_rem_step (lhs rhs : t) (bit : nat) (qr : t * t) : res (t * t) :=
  let '(quotient, remainder) := qr in
  remainder ← abs_shl remainder 1;
  let limb := Z.to_nat (Z.of_nat bit / 64) in
  let bit_in_limb := Z.of_nat bit mod 64 in
  x ← get_idx (limbs lhs) limb;
  remainder ←
    (if negb (Z.land (x ≫ bit_in_limb) 1 =? 0) then add_small_assign remainder 1
     else Ret remainder);
  match abs_cmp remainder rhs with
  | Lt => Ret (quotient, remainder)
  | _ =>
      quotient ← set_bit quotient (Z.of_nat bit);
      Ret (quotient, sub remainder rhs)
  end.

Definition div_rem_abs (lhs rhs : t) : res (t * t) :=
  _ ← assert_ (negb (is_zero rhs));
  match abs_cmp lhs rhs with
  | Lt => Ret (ZERO, lhs)
  | _ =>
      if (length (limbs rhs) =? 1)%nat then
        x ← get_idx (limbs rhs) 0;
        '(q, r) ← div_rem_small lhs x;
        Ret (q, from_unsigned r)
      else
        for_range_revM (Z.to_nat (significant_bits lhs)) (div_rem_step lhs rhs) (ZERO, ZERO)
  end.

Definition div (self rhs : t) : res t :=
  _ ← assert_ (negb (is_zero rhs));
  '(q, _) ← div_rem_abs (mk false (limbs self)) (mk false (limbs rhs));
  Ret (mk (negb (is_zero q) && xorb (negative self) (negative rhs)) (limbs q)).

Definition rem (self rhs : t) : res t :=
  _ ← assert_ (negb (is_zero rhs));
  '(_, r) ← div_rem_abs (mk false (limbs self)) (mk false (limbs rhs));
  Ret (mk (negb (is_zero r) && negative self) (limbs r)).

(** ** Two's complement and bitwise operators *)

(** [for limb in &mut out { sum = limb + carry; ...; if carry == 0 { break } }]. *)
Fixpoint carry_loop (ls : list Z) (carry : Z) : list Z :=
  match ls with
  | [] => []
  | limb :: ls =>
      let sum := u128 (limb + carry) in
      let carry := sum ≫ 64 in
      u64 sum :: (if carry =? 0 then ls else carry_loop ls carry)
  end.

Definition twos_complement_limbs (self : t) (len : nat) : list Z :=
  let out := take len (limbs self) ++ replicate (len - length (limbs self)) 0 in
  if negative self then carry_loop (not64 <$> out) 1 else out.

Definition from_twos_complement_limbs (ls : list Z) : t :=
  let negative := match last ls with Some limb => negb (limb ≫ 63 =? 0) | None => false end in
  normalize (mk negative (if negative then carry_loop (not64 <$> ls) 1 else ls)).

(** [u64::div_ceil]. *)
Definition div_ceil (a b : Z) : Z := a / b + (if a mod b =? 0 then 0 else 1).

Definition bitwise (lhs rhs : t) (op : Z -> Z -> Z) : t :=
  let bits := Z.max (significant_bits lhs) (significant_bits rhs) + 2 in
  let len := Nat.max (Z.to_nat (div_ceil bits 64)) 1 in
  from_twos_complement_limbs
    (zip_with op (twos_complement_limbs lhs len) (twos_complement_limbs rhs len)).

Definition bitand (self rhs : t) : t := bitwise self rhs Z.land.
Definition bitor (self rhs : t) : t := bitwise self rhs Z.lor.
Definition bitxor (self rhs : t) : t := bitwise self rhs Z.lxor.
Definition not (self : t) : t := neg (add self (from_unsigned 1)).

Definition shl (self : t) (rhs : Z) : res t := abs_shl self rhs.

Definition shr (self : t) (rhs : Z) : res t :=
  if negb (negative self) then abs_shr self rhs
  else
    let abs := neg self in
    abs ←
      (if 0 <? rhs then
         let one := from_unsigned 1 in
         m ← shl one rhs;
         let mask := sub m one in
         Ret (add abs mask)
       else Ret abs);
    neg <$> abs_shr abs rhs.

(** ** Text *)

(** The value of an ASCII digit or letter. *)
Inductive digit_class : Set := Digit (d : Z) | Separator | Not_a_digit.

Definition digit_of_byte (b : Z) : digit_class :=
  if (48 <=? b) && (b <=? 57) then Digit (b - 48)
  else if (97 <=? b) && (b <=? 122) then Digit (b - 97 + 10)
  else if (65 <=? b) && (b <=? 90) then Digit (b - 65 + 10)
  else if b =? 95 then Separator
  else Not_a_digit.

Fixpoint parse_radix_loop (radix : Z) (digits : list Z) (result : t) : res (option t) :=
  match digits with
  | [] => Ret (Some result)
  | b :: digits =>
      match digit_of_byte b with
      | Separator => parse_radix_loop radix digits result
      | Not_a_digit => Ret None
      | Digit digit =>
          if radix <=? digit then Ret None
          else
            result ← add_small_assign (mul_small_assign result radix) digit;
            parse_radix_loop radix digits result
      end
  end.

Definition parse_radix (radix : Z) (digits : list Z) : res (option t) :=
  _ ← assert_ ((2 <=? radix) && (radix <=? 36));
  parse_radix_loop radix digits ZERO.

(** The [while !n.is_zero()] loop of [Display::fmt]; digits least significant
    first. *)
Fixpoint fmt_loop (fuel : nat) (n : t) (digits : list Z) : res (list Z) :=
  match fuel with
  | O => diverge
  | S fuel =>
      if is_zero n then Ret digits
      else
        '(q, r) ← div_rem_small n 10;
        fmt_loop fuel q (digits ++ [48 + r])
  end.

Definition fmt (self : t) : res (list Z) :=
  if is_zero self then Ret [48]
  else
    digits ← fmt_loop (S (Z.to_nat (significant_bits self))) (mk false (limbs self)) [];
    Ret ((if negative self then [45] else []) ++ reverse digits).

(** ** Specification side: abstraction and representation invariant *)

Definition to_Z (self : t) : Z :=
  if negative self then - limbs_val (limbs self) else limbs_val (limbs self).

Definition wf (self : t) : Prop :=
  limbs_ok (limbs self) /\ last (limbs self) <> Some 0 /\
  (limbs self = [] -> negative self = false).

End Anyint.
