(* ===== verification/AnyintArith.v ===== *)
(** * Arbitrary-precision integers: the arithmetic theorems

    Every arithmetic operation of [src/int.rs] preserves the representation
    invariant and computes the integer operation on the abstraction [to_Z],
    without panicking and within the fuel of its loops. *)

From S2P Require Import Prelude Words Anyint.

#[local] Open Scope Z_scope.
#[local] Open Scope vif_scope.

Module AnyintArith.
Import Anyint.

(** The result of a fallible operation is a well-formed integer [z]. *)
Definition repr (a : t) (z : Z) : Prop := wf a /\ to_Z a = z.
Definition computes (r : res t) (z : Z) : Prop := exists a, r = Ret a /\ repr a z.

(** ** Normalisation *)

Lemma last_Some_snoc {A} (l : list A) x : last l = Some x -> l = removelast l ++ [x].
Proof.
  intros H. apply last_Some in H as [l' ->]. by rewrite removelast_last.
Qed.

Lemma pop_zeros_spec fuel ls :
  (length ls <= fuel)%nat -> limbs_ok ls ->
  limbs_ok (pop_zeros fuel ls) /\ last (pop_zeros fuel ls) <> Some 0 /\
  limbs_val (pop_zeros fuel ls) = limbs_val ls.
Proof.
  revert ls. induction fuel as [|fuel IH]; intros ls Hlen Hok; simpl.
  { destruct ls; [done|simpl in Hlen; lia]. }
  destruct (last ls) as [x|] eqn:E; [|by rewrite E].
  destruct (decide (x = 0)) as [->|Hx].
  - pose proof (last_Some_snoc _ _ E) as Hl.
    assert (limbs_ok (removelast ls)) as Hok'.
    { rewrite Hl in Hok. by apply Forall_app in Hok as [? _]. }
    destruct (IH (removelast ls)) as (? & ? & Hv); [|done|].
    { apply (f_equal length) in Hl. rewrite length_app in Hl. simpl in Hl. lia. }
    split_and!; try done. rewrite Hv. rewrite Hl at 2. rewrite limbs_val_snoc. lia.
  - assert (match x with 0 => pop_zeros fuel (removelast ls) | _ => ls end = ls) as ->
      by (destruct x; congruence).
    rewrite E. split_and!; [done|congruence|done].
Qed.

Lemma normalize_spec a :
  limbs_ok (limbs a) ->
  repr (normalize a) (to_Z a).
Proof.
  intros Hok. unfold normalize, repr, wf, to_Z.
  destruct (pop_zeros_spec (length (limbs a)) (limbs a)) as (Hok' & Hlast & Hv); [lia|done|].
  rewrite <- Hv. destruct (pop_zeros _ _) as [|x l] eqn:E; simpl in *.
  - split; [|by destruct (negative a)]. split_and!; by auto.
  - split; [|done]. by split_and!.
Qed.

Lemma last_limb_ok ls x : limbs_ok ls -> last ls = Some x -> limb_ok x.
Proof.
  intros Hok Hl. rewrite (last_Some_snoc _ _ Hl) in Hok.
  apply Forall_app in Hok as [_ Hok]. by inversion Hok.
Qed.

(** A normalised non-empty vector is bounded below by its top limb. *)
Lemma limbs_val_lower ls x :
  limbs_ok ls -> last ls = Some x -> x <> 0 ->
  2^((length ls - 1)%nat⋅64) * x <= limbs_val ls < 2^((length ls - 1)%nat⋅64) * (x + 1).
Proof.
  intros Hok Hl Hx. rewrite (last_Some_snoc _ _ Hl) in *.
  set (l := removelast ls) in *. clearbody l. apply Forall_app in Hok as [Hok _].
  rewrite limbs_val_snoc, length_app. simpl.
  replace (length l + 1 - 1)%nat with (length l) by lia.
  pose proof (limbs_val_bounds l Hok). lia.
Qed.

Lemma wf_limbs_ok a : wf a -> limbs_ok (limbs a).
Proof. by intros []. Qed.
#[export] Hint Resolve wf_limbs_ok : limbs.

Lemma is_zero_spec a : wf a -> is_zero a = true <-> to_Z a = 0.
Proof.
  intros (Hok & Hl & Hn). unfold is_zero, to_Z. destruct (limbs a) as [|x l] eqn:E.
  - split; [|done]. destruct (negative a); done.
  - split; [done|]. intros Hz. exfalso.
    destruct (last (x :: l)) as [y|] eqn:El; [|by apply last_None in El].
    assert (y <> 0) as Hy by congruence.
    pose proof (limbs_val_lower _ _ Hok El Hy).
    pose proof (last_limb_ok _ _ Hok El).
    unfold limb_ok in *. pose proof (pow64_pos (length (x :: l) - 1)).
    destruct (negative a); nia.
Qed.

Lemma is_zero_false a : wf a -> is_zero a = false <-> to_Z a <> 0.
Proof. intros Hw. rewrite <- (is_zero_spec a Hw). by rewrite not_true_iff_false. Qed.

Lemma wf_ZERO : wf ZERO.
Proof. by split_and!. Qed.

Lemma repr_ZERO : repr ZERO 0.
Proof. split; [apply wf_ZERO|done]. Qed.

(** The magnitude of [a]. *)
Definition mag (a : t) : Z := limbs_val (limbs a).

Lemma to_Z_mag a : to_Z a = if negative a then - mag a else mag a.
Proof. done. Qed.

Lemma mag_nonneg a : wf a -> 0 <= mag a.
Proof. unfold mag. eauto with limbs. Qed.

Lemma mag_abs a : wf a -> mag a = Z.abs (to_Z a).
Proof. intros Hw. pose proof (mag_nonneg a Hw). rewrite to_Z_mag. destruct (negative a); lia. Qed.

Lemma wf_negative_neg a : wf a -> negative a = true <-> to_Z a < 0.
Proof.
  intros Hw. pose proof (is_zero_spec a Hw) as Hz. destruct Hw as (Hok & Hl & Hn).
  rewrite to_Z_mag in *. assert (0 <= mag a) by (unfold mag; eauto with limbs).
  destruct (negative a) eqn:E; [|split; [done|lia]]. split; [intros _|done].
  assert (mag a <> 0); [|lia]. intros H0. rewrite H0 in Hz. destruct Hz as [_ Hz].
  unfold is_zero in Hz. destruct (limbs a); [by specialize (Hn eq_refl)|by discriminate Hz].
Qed.

(** ** Comparison *)

Lemma iter_cmp_reverse l r :
  length l = length r -> limbs_ok l -> limbs_ok r ->
  iter_cmp (reverse l) (reverse r) = (limbs_val l ?= limbs_val r).
Proof.
  revert r. induction l as [|x l IH] using rev_ind; intros r Hlen Hl Hr.
  { destruct r; [done|discriminate]. }
  destruct r as [|y r _] using rev_ind.
  { rewrite length_app in Hlen. simpl in Hlen. lia. }
  rewrite !length_app in Hlen. simpl in Hlen. assert (length l = length r) as Hlen' by lia.
  apply Forall_app in Hl as [Hl Hx], Hr as [Hr Hy].
  rewrite !reverse_snoc. simpl. rewrite IH by done.
  rewrite !limbs_val_snoc, <- Hlen'.
  pose proof (limbs_val_bounds l Hl). pose proof (limbs_val_bounds r Hr) as Hb.
  rewrite <- Hlen' in Hb. pose proof (pow64_pos (length l)).
  destruct (Z.compare_spec x y) as [->|Hxy|Hxy]; symmetry.
  - destruct (Z.compare_spec (limbs_val l) (limbs_val r)).
    + apply Z.compare_eq_iff. lia.
    + apply Z.compare_lt_iff. lia.
    + apply Z.compare_gt_iff. lia.
  - apply Z.compare_lt_iff. nia.
  - apply Z.compare_gt_iff. nia.
Qed.

Lemma shorter_smaller a b :
  wf a -> wf b -> (length (limbs a) < length (limbs b))%nat -> mag a < mag b.
Proof.
  intros (Ha & _ & _) (Hb & Hlb & _) Hlen. unfold mag.
  destruct (last (limbs b)) as [y|] eqn:El.
  2: { apply last_None in El. rewrite El in Hlen. simpl in Hlen. lia. }
  assert (y <> 0) as Hy by congruence.
  pose proof (limbs_val_lower _ _ Hb El Hy). pose proof (limbs_val_bounds _ Ha).
  pose proof (last_limb_ok _ _ Hb El).
  assert (2^((length (limbs a))⋅64) <= 2^((length (limbs b) - 1)%nat⋅64)).
  { apply Z.pow_le_mono_r; lia. }
  unfold limb_ok in *. nia.
Qed.

Lemma abs_cmp_spec a b : wf a -> wf b -> abs_cmp a b = (mag a ?= mag b).
Proof.
  intros Ha Hb. unfold abs_cmp.
  destruct (Nat.compare_spec (length (limbs a)) (length (limbs b))) as [Hl|Hl|Hl].
  - apply iter_cmp_reverse; eauto with limbs.
  - symmetry. apply Z.compare_lt_iff. by apply shorter_smaller.
  - symmetry. apply Z.compare_gt_iff. by apply shorter_smaller.
Qed.

Lemma mag_inj a b : wf a -> wf b -> mag a = mag b -> limbs a = limbs b.
Proof.
  intros Ha Hb Hm.
  assert (length (limbs a) = length (limbs b)) as Hlen.
  { destruct (Nat.lt_trichotomy (length (limbs a)) (length (limbs b))) as [H|[H|H]]; [|done|];
      [pose proof (shorter_smaller a b Ha Hb H)|pose proof (shorter_smaller b a Hb Ha H)]; lia. }
  destruct Ha as (Ha & _ & _), Hb as (Hb & _ & _). unfold mag in Hm.
  revert Hm Hlen Ha Hb. generalize (limbs a), (limbs b). intros l.
  induction l as [|x l IH]; intros [|y r] Hm Hlen Hl Hr; try discriminate; [done|].
  apply Forall_cons in Hl as [Hx Hl], Hr as [Hy Hr]. unfold limb_ok in *. cbn [limbs_val] in Hm.
  assert (x = y) as -> by lia. f_equal. apply IH; try done; [lia|]. by injection Hlen.
Qed.

(** ** Addition, subtraction and negation *)

Lemma add_abs_spec l r :
  limbs_ok l -> limbs_ok r ->
  limbs_ok (add_abs l r) /\ limbs_val (add_abs l r) = limbs_val l + limbs_val r.
Proof.
  intros Hl Hr. unfold add_abs. set (len := Nat.max _ _).
  set (body := fun i '(out, carry) => _).
  assert (let '(out, carry) := for_range len body ([], 0) in
    length out = len /\ limbs_ok out /\ 0 <= carry <= 1 /\
    limbs_val out + carry * 2^(len⋅64) = limbs_val (take len l) + limbs_val (take len r)) as Hinv.
  { apply (for_range_ind (fun i '(out, carry) =>
      length out = i /\ limbs_ok out /\ 0 <= carry <= 1 /\
      limbs_val out + carry * 2^(i⋅64) = limbs_val (take i l) + limbs_val (take i r))).
    { split_and!; by (constructor || lia || reflexivity). }
    intros i [out carry] _ (Hlen & Hok & Hc & Hv). unfold body.
    pose proof (limbs_ok_default l i Hl) as Ha. pose proof (limbs_ok_default r i Hr) as Hb.
    unfold limb_ok in Ha, Hb. rewrite u128_small by lia.
    set (sum := default 0 (l !! i) + default 0 (r !! i) + carry) in *.
    pose proof (u64_split sum) as Hs. rewrite shr64 in *.
    split_and!.
    - rewrite length_app. simpl. lia.
    - auto with limbs.
    - apply Z.div_pos; lia.
    - apply Z.lt_succ_r, Z.div_lt_upper_bound; lia.
    - rewrite limbs_val_snoc, !limbs_val_take_S, Hlen, pow64_S. subst sum. nia. }
  destruct (for_range len body ([], 0)) as [out carry].
  destruct Hinv as (Hlen & Hok & Hc & Hv). rewrite !take_ge in Hv by lia.
  destruct (Z.eqb_spec carry 0) as [->|Hc0]; simpl.
  - split; [done|lia].
  - split.
    + auto with limbs.
    + rewrite limbs_val_snoc, u64_small, Hlen by (unfold limb_ok; lia). lia.
Qed.

Lemma sub_abs_spec l r :
  limbs_ok l -> limbs_ok r -> (length r <= length l)%nat -> limbs_val r <= limbs_val l ->
  limbs_ok (sub_abs l r) /\ limbs_val (sub_abs l r) = limbs_val l - limbs_val r.
Proof.
  intros Hl Hr Hlen Hle. unfold sub_abs. set (body := fun i a '(out, borrow) => _).
  assert (let '(out, borrow) := for_enum l body ([], 0) in
    length out = length l /\ limbs_ok out /\ 0 <= borrow <= 1 /\
    limbs_val out - borrow * 2^((length l)⋅64)
      = limbs_val (take (length l) l) - limbs_val (take (length l) r)) as Hinv.
  { apply (for_enum_ind (fun i '(out, borrow) =>
      length out = i /\ limbs_ok out /\ 0 <= borrow <= 1 /\
      limbs_val out - borrow * 2^(i⋅64) = limbs_val (take i l) - limbs_val (take i r))).
    { split_and!; by (constructor || lia || reflexivity). }
    intros i a [out borrow] Hi (Hlo & Hok & Hb & Hv). unfold body.
    pose proof (limbs_ok_lookup l i a Hl Hi) as Ha. pose proof (limbs_ok_default r i Hr) as Hbb.
    unfold limb_ok in Ha, Hbb. set (b := default 0 (r !! i)) in *.
    rewrite (u128_small (b + borrow)) by lia.
    change (1 ≪ 64) with (2^64).
    destruct (Z.leb_spec (b + borrow) a); rewrite u128_small by lia;
      (split_and!; [rewrite length_app; simpl; lia|auto with limbs|lia|lia|]);
      rewrite limbs_val_snoc, u64_small, !limbs_val_take_S, Hlo, ?pow64_S by (unfold limb_ok; lia);
      fold b; rewrite Hi; simpl; nia. }
  destruct (for_enum l body ([], 0)) as [out borrow].
  destruct Hinv as (Hlo & Hok & Hb & Hv). simpl. split; [done|].
  rewrite !take_ge in Hv by lia. pose proof (limbs_val_bounds out Hok) as Hbd.
  rewrite Hlo in Hbd. assert (borrow = 0 \/ borrow = 1) as [-> | ->] by lia; lia.
Qed.

Lemma abs_cmp_length a b :
  wf a -> wf b -> mag b <= mag a -> (length (limbs b) <= length (limbs a))%nat.
Proof.
  intros Ha Hb Hle. destruct (le_lt_dec (length (limbs b)) (length (limbs a))) as [|Hlt]; [done|].
  pose proof (shorter_smaller a b Ha Hb Hlt). lia.
Qed.

Lemma neg_repr a : wf a -> repr (neg a) (- to_Z a).
Proof.
  intros Hw. unfold neg. destruct (is_zero a) eqn:E; simpl.
  - apply is_zero_spec in E; [|done]. split; [done|lia].
  - unfold is_zero in E. destruct Hw as (Hok & Hl & Hn). split.
    + split_and!; simpl; try done. intros H0. by rewrite H0 in E.
    + unfold to_Z. simpl. destruct (negative a); simpl; lia.
Qed.

Lemma add_repr a b : wf a -> wf b -> repr (add a b) (to_Z a + to_Z b).
Proof.
  intros Ha Hb. unfold add.
  pose proof (wf_limbs_ok a Ha) as Hla. pose proof (wf_limbs_ok b Hb) as Hlb.
  enough (forall r, limbs_ok (limbs r) -> to_Z r = to_Z a + to_Z b ->
            repr (normalize r) (to_Z a + to_Z b)) as Hfin.
  { destruct (Bool.eqb (negative a) (negative b)) eqn:En.
    - apply Bool.eqb_prop in En. destruct (add_abs_spec _ _ Hla Hlb) as [Hok Hv].
      apply Hfin; [done|]. unfold to_Z. simpl. rewrite Hv, <- En. destruct (negative a); lia.
    - apply Bool.eqb_false_iff in En. rewrite abs_cmp_spec by done.
      assert (mag b <= mag a -> repr (normalize (mk (negative a) (sub_abs (limbs a) (limbs b))))
                (to_Z a + to_Z b)) as Hge.
      { intros Hle. destruct (sub_abs_spec (limbs a) (limbs b)) as [Hok Hv]; try done.
        { by apply abs_cmp_length. }
        apply Hfin; [done|]. unfold to_Z. simpl. rewrite Hv.
        destruct (negative a), (negative b); try congruence; lia. }
      destruct (Z.compare_spec (mag a) (mag b)) as [H|H|H]; [apply Hge; lia| |apply Hge; lia].
      destruct (sub_abs_spec (limbs b) (limbs a)) as [Hok Hv]; try done.
      { apply abs_cmp_length; [done..|lia]. }
      { unfold mag in H; lia. }
      apply Hfin; [done|]. unfold to_Z. simpl. rewrite Hv.
      destruct (negative a), (negative b); try congruence; lia. }
  intros r Hok <-. by apply normalize_spec.
Qed.

Lemma sub_repr a b : wf a -> wf b -> repr (sub a b) (to_Z a - to_Z b).
Proof.
  intros Ha Hb. unfold sub. destruct (neg_repr b Hb) as [Hw Hv].
  replace (to_Z a - to_Z b) with (to_Z a + to_Z (neg b)) by lia. by apply add_repr.
Qed.

Lemma cmp_repr a b : wf a -> wf b -> cmp a b = (to_Z a ?= to_Z b).
Proof.
  intros Ha Hb. unfold cmp. rewrite !abs_cmp_spec by done.
  pose proof (wf_negative_neg a Ha). pose proof (wf_negative_neg b Hb).
  rewrite !to_Z_mag in *. pose proof (mag_nonneg a Ha). pose proof (mag_nonneg b Hb).
  destruct (negative a), (negative b); symmetry.
  - apply Z.compare_opp.
  - apply Z.compare_lt_iff. lia.
  - apply Z.compare_gt_iff. lia.
  - done.
Qed.

Lemma to_Z_inj a b : wf a -> wf b -> to_Z a = to_Z b -> a = b.
Proof.
  intros Ha Hb Hv. assert (negative a = negative b) as Hn.
  { apply Bool.eq_iff_eq_true. rewrite !wf_negative_neg by done. by rewrite Hv. }
  assert (limbs a = limbs b) as Hl.
  { apply mag_inj; [done..|]. rewrite !mag_abs by done. by rewrite Hv. }
  destruct a, b; simpl in *; congruence.
Qed.

Lemma eq_spec a b : wf a -> wf b -> eq a b = (to_Z a =? to_Z b).
Proof.
  intros Ha Hb. unfold eq. apply Bool.eq_iff_eq_true.
  rewrite andb_true_iff, Z.eqb_eq, Bool.eqb_true_iff, bool_decide_eq_true. split.
  - intros [Hn Hl]. unfold to_Z. by rewrite Hn, Hl.
  - intros Hv. by rewrite (to_Z_inj a b Ha Hb Hv).
Qed.

(** ** Conversions from primitive integers *)

Lemma from_unsigned_repr v : 0 <= v < 2^64 -> repr (from_unsigned v) v.
Proof.
  intros Hv. unfold from_unsigned. rewrite u64_small by done.
  replace v with (to_Z (mk false [v])) at 2 by (unfold to_Z; simpl; lia).
  apply normalize_spec. simpl. auto with limbs.
Qed.

Lemma limbs_val_two v : 0 <= v < 2^128 ->
  limbs_ok [u64 v; u64 (v ≫ 64)] /\ limbs_val [u64 v; u64 (v ≫ 64)] = v.
Proof.
  intros Hv. split; [auto with limbs|]. cbn [limbs_val].
  rewrite (u64_small (v ≫ 64)); [pose proof (u64_split v); lia|].
  rewrite shr64. split; [apply Z.div_pos; lia|]. apply Z.div_lt_upper_bound; lia.
Qed.

Lemma from_u128_repr v : 0 <= v < 2^128 -> repr (from_u128 v) v.
Proof.
  intros Hv. destruct (limbs_val_two v Hv) as [Hok Hval].
  unfold from_u128. rewrite <- Hval at 3.
  apply (normalize_spec (mk false [u64 v; u64 (v ≫ 64)])). done.
Qed.

Lemma from_signed_repr v : - 2^127 <= v < 2^127 -> repr (from_signed v) v.
Proof.
  intros Hv. unfold from_signed.
  set (abs := if v <? 0 then u128 (- v) else u128 v).
  assert (abs = Z.abs v) as Habs.
  { unfold abs. destruct (Z.ltb_spec v 0); rewrite u128_small; lia. }
  assert (0 <= abs < 2^128) as Hb by lia. destruct (limbs_val_two abs Hb) as [Hok Hval].
  set (ls := if negb _ then _ else _).
  assert (limbs_ok ls /\ limbs_val ls = abs) as [Hok' Hval'].
  { unfold ls. destruct (Z.eqb_spec (u64 (abs ≫ 64)) 0) as [E|E]; simpl; [|by split].
    rewrite E in Hval. cbn [limbs_val] in *. split; [|lia].
    auto with limbs. }
  pose proof (normalize_spec (mk (v <? 0) ls) Hok') as Hn.
  assert (to_Z (mk (v <? 0) ls) = v) as Hz.
  { unfold to_Z. cbn [negative limbs]. rewrite Hval', Habs. destruct (Z.ltb_spec v 0); lia. }
  rewrite Hz in Hn. exact Hn.
Qed.

(** ** Multiplication *)

(** A carry into a column past the end of a vector that does not overflow is 0. *)
Lemma carry_out_zero v c p q : 0 <= v -> 0 <= c -> 0 < q <= p -> v + c * p < q -> c = 0.
Proof. nia. Qed.

Lemma mul_carry_loop_spec fuel out idx carry :
  limbs_ok out -> limb_ok carry -> (length out - idx < fuel)%nat ->
  limbs_val out + carry * 2^(idx⋅64) < 2^((length out)⋅64) ->
  exists out', mul_carry_loop fuel out idx carry = Ret out' /\
    length out' = length out /\ limbs_ok out' /\
    limbs_val out' = limbs_val out + carry * 2^(idx⋅64).
Proof.
  revert out idx carry. induction fuel as [|fuel IH]; intros out idx carry Hok Hc Hf Hlt;
    unfold limb_ok in Hc; pose proof (limbs_val_nonneg out Hok) as Hnn; simpl.
  { lia. }
  destruct (Z.eqb_spec carry 0) as [->|Hc0].
  { exists out. split_and!; by (done || lia). }
  destruct (decide (idx < length out)%nat) as [Hi|Hi].
  2: { exfalso. apply Hc0. eapply carry_out_zero; [exact Hnn|lia| |exact Hlt].
       split; [apply pow64_pos|]. apply Z.pow_le_mono_r; lia. }
  destruct (get_idx_lt out idx Hi) as (x & Hx & ->). simpl. rewrite set_idx_lt by done. simpl.
  pose proof (limbs_ok_lookup _ _ _ Hok Hx) as Hxok. unfold limb_ok in Hxok.
  rewrite u128_small, shr64 by lia. set (c' := (x + carry) / 2^64) in *.
  assert (limb_ok c') by (apply carry_bound; lia).
  assert (limbs_val (<[idx := u64 (x + carry)]> out) + c' * 2^((S idx)⋅64)
            = limbs_val out + carry * 2^(idx⋅64)) as Hv.
  { rewrite (limbs_val_insert _ _ _ _ Hx), pow64_S.
    pose proof (carry_step (2^(idx⋅64)) x carry). lia. }
  destruct (IH (<[idx := u64 (x + carry)]> out) (S idx) c') as (out' & -> & Hl & Hok' & Hv').
  - auto with limbs.
  - done.
  - rewrite length_insert. lia.
  - rewrite length_insert, Hv. done.
  - exists out'. rewrite length_insert in Hl. split_and!; try done. lia.
Qed.

Lemma mul_row_spec rhs i a out :
  limbs_ok rhs -> limb_ok a -> limbs_ok out -> (i + length rhs <= length out)%nat ->
  limbs_val out + a * limbs_val rhs * 2^(i⋅64) < 2^((length out)⋅64) ->
  exists out', mul_row rhs i a out = Ret out' /\
    length out' = length out /\ limbs_ok out' /\
    limbs_val out' = limbs_val out + a * limbs_val rhs * 2^(i⋅64).
Proof.
  intros Hr Ha Hok Hlen Hlt. unfold mul_row. unfold limb_ok in Ha.
  set (body := fun j b '(out, carry) => _).
  destruct (for_enumM_ind (fun j '(out1, carry) =>
    length out1 = length out /\ limbs_ok out1 /\ limb_ok carry /\
    limbs_val out1 + carry * 2^((i + j)%nat⋅64)
      = limbs_val out + a * limbs_val (take j rhs) * 2^(i⋅64)) rhs body (out, 0))
    as ([out1 carry] & -> & Hl1 & Hok1 & Hc1 & Hv1).
  - split_and!; try done; simpl; lia.
  - intros j b [out1 carry] Hj (Hl1 & Hok1 & Hc1 & Hv1). unfold body. unfold limb_ok in Hc1.
    pose proof (lookup_lt_Some _ _ _ Hj) as Hjl.
    pose proof (limbs_ok_lookup _ _ _ Hr Hj) as Hb. unfold limb_ok in Hb.
    destruct (get_idx_lt out1 (i + j)) as (x & Hx & ->); [lia|]. simpl.
    pose proof (limbs_ok_lookup _ _ _ Hok1 Hx) as Hxok. unfold limb_ok in Hxok.
    rewrite u128_small by nia. rewrite set_idx_lt by lia. simpl.
    rewrite shr64, <- Z.add_assoc. set (c := a * b + carry).
    assert (0 <= x + c < 2^64 * 2^64) as Hcur by (subst c; nia).
    apply carry_bound in Hcur.
    eexists (_, _). split; [reflexivity|]. split_and!.
    + by rewrite length_insert.
    + auto with limbs.
    + apply Hcur.
    + rewrite (limbs_val_insert _ _ _ _ Hx), limbs_val_take_S, Hj.
      replace (i + S j)%nat with (S (i + j)) by lia. rewrite pow64_S. cbn [from_option id].
      pose proof (carry_step (2^((i + j)%nat⋅64)) x c) as Hs.
      transitivity (limbs_val out1 + c * 2^((i + j)%nat⋅64)); [lia|].
      replace (limbs_val out1) with (limbs_val out + a * limbs_val (take j rhs) * 2^(i⋅64)
        - carry * 2^((i + j)%nat⋅64)) by lia.
      subst c. rewrite pow64_add. ring.
  - simpl. rewrite (firstn_all2 (n := length rhs)) in Hv1 by lia. rewrite <- Hv1 in Hlt |- *.
    rewrite <- Hl1. rewrite <- Hl1 in Hlt. apply mul_carry_loop_spec; try done. lia.
Qed.

Lemma mul_repr a b : wf a -> wf b -> computes (mul a b) (to_Z a * to_Z b).
Proof.
  intros Ha Hb. unfold mul. destruct (is_zero a) eqn:Ea; simpl.
  { apply is_zero_spec in Ea; [|done]. rewrite Ea. exists ZERO. split; [done|apply repr_ZERO]. }
  destruct (is_zero b) eqn:Eb; simpl.
  { apply is_zero_spec in Eb; [|done]. rewrite Eb, Z.mul_0_r.
    exists ZERO. split; [done|apply repr_ZERO]. }
  pose proof (wf_limbs_ok a Ha) as Hla. pose proof (wf_limbs_ok b Hb) as Hlb.
  set (n := (length (limbs a) + length (limbs b))%nat).
  destruct (for_enumM_ind (fun i out => length out = n /\ limbs_ok out /\
    limbs_val out = limbs_val (take i (limbs a)) * limbs_val (limbs b))
    (limbs a) (mul_row (limbs b)) (replicate n 0)) as (out & -> & Hl & Hok & Hv).
  - split_and!; [apply length_replicate|auto with limbs|]. rewrite limbs_val_replicate. simpl. lia.
  - intros i x out Hi (Hl & Hok & Hv). pose proof (lookup_lt_Some _ _ _ Hi) as Hil.
    pose proof (limbs_ok_lookup _ _ _ Hla Hi) as Hx.
    assert (limbs_val out + x * limbs_val (limbs b) * 2^(i⋅64)
              = limbs_val (take (S i) (limbs a)) * limbs_val (limbs b)) as Hv'.
    { rewrite Hv, limbs_val_take_S, Hi. simpl. ring. }
    destruct (mul_row_spec (limbs b) i x out) as (out' & -> & Hl' & Hok' & Hv1); try done; [lia| |].
    + rewrite Hv', Hl. unfold n. rewrite pow64_add.
      pose proof (limbs_val_bounds _ (Forall_take _ (S i) _ Hla)) as Hb1.
      pose proof (limbs_val_bounds _ Hlb) as Hb2. rewrite length_take in Hb1.
      assert (2^((S i `min` length (limbs a))%nat⋅64) <= 2^((length (limbs a))⋅64)).
      { apply Z.pow_le_mono_r; lia. }
      apply Z.mul_lt_mono_nonneg; lia.
    + exists out'. split_and!; [done|lia|done|lia].
  - simpl. eexists. split; [reflexivity|].
    rewrite firstn_all in Hv.
    replace (to_Z a * to_Z b) with (to_Z (mk (xorb (negative a) (negative b)) out)).
    + by apply normalize_spec.
    + unfold to_Z. simpl. rewrite Hv. destruct (negative a), (negative b); simpl; lia.
Qed.

End AnyintArith.
