(* ===== verification/AnyintDiv.v ===== *)
(** * Arbitrary-precision integers: word operations, left shift and division

    The single-limb helpers ([add_small_assign], [mul_small_assign],
    [div_rem_small], [set_bit]), the left shift, and both division algorithms
    (single-limb and shift-and-subtract), which compute the truncating
    quotient and remainder. *)

From S2P Require Import Prelude Words Anyint AnyintArith.

#[local] Open Scope Z_scope.
#[local] Open Scope vif_scope.

Module AnyintDiv.
Import Anyint AnyintArith.

(** ** Canonical length *)

(** The top limb is not zero exactly when the value reaches the top column. *)
Lemma last_nonzero_iff ls :
  limbs_ok ls ->
  last ls <> Some 0 <-> ls = [] \/ 2^((length ls - 1)%nat⋅64) <= limbs_val ls.
Proof.
  intros Hok. destruct (last ls) as [x|] eqn:E.
  - rewrite (last_Some_snoc _ _ E) in *. set (l := removelast ls) in *. clearbody l.
    apply Forall_app in Hok as [Hok Hx]. apply Forall_inv in Hx. unfold limb_ok in Hx.
    rewrite limbs_val_snoc, length_app. cbn [length].
    replace (length l + 1 - 1)%nat with (length l) by lia.
    pose proof (limbs_val_bounds l Hok). pose proof (pow64_pos (length l)).
    split.
    + intros Hne. right. assert (x <> 0) by congruence. nia.
    + intros [Hnil|Hle] Hx0; [by destruct l|]. injection Hx0 as ->. lia.
  - apply last_None in E as ->. split; [by left|done].
Qed.

Lemma wf_intro n ls :
  limbs_ok ls -> last ls <> Some 0 -> (ls = [] -> n = false) -> wf (mk n ls).
Proof. by intros. Qed.

(** ** Single-limb operations *)

Lemma add_small_loop_spec fuel ls i carry :
  limbs_ok ls -> limb_ok carry -> (i <= length ls)%nat -> (length ls - i + 2 <= fuel)%nat ->
  exists out, add_small_loop fuel ls i carry = Ret out /\
    limbs_ok out /\ limbs_val out = limbs_val ls + carry * 2^(i⋅64) /\
    (length out = length ls \/
     length out = S (length ls) /\ 2^((length ls)⋅64) <= limbs_val out).
Proof.
  revert ls i carry. induction fuel as [|fuel IH]; intros ls i carry Hok Hc Hi Hf; [lia|].
  cbn [add_small_loop]. destruct (Z.eqb_spec carry 0) as [->|Hc0].
  { exists ls. split_and!; [done|done|lia|by left]. }
  unfold limb_ok in Hc. destruct (Nat.eqb_spec i (length ls)) as [->|Hne].
  - rewrite (get_idx_Some _ _ 0) by (rewrite lookup_app_r, Nat.sub_diag by lia; done).
    cbn [mbind res_bind]. rewrite u128_small by lia.
    rewrite set_idx_lt by (rewrite length_app; simpl; lia). cbn [mbind res_bind].
    rewrite shr64, Z.add_0_l, Z.div_small, u64_small by (done || lia).
    rewrite insert_app_r_alt, Nat.sub_diag by lia. cbn [insert list_insert].
    exists (ls ++ [carry]).
    assert (limbs_val (ls ++ [carry]) = limbs_val ls + carry * 2^((length ls)⋅64)) as Hv
      by (rewrite limbs_val_snoc; lia).
    pose proof (limbs_val_nonneg ls Hok). pose proof (pow64_pos (length ls)).
    split_and!; [by destruct fuel; [lia|]|auto with limbs|done|].
    right. rewrite length_app, Hv. simpl. split; [lia|nia].
  - destruct (get_idx_lt ls i) as (x & Hx & ->); [lia|]. cbn [mbind res_bind].
    pose proof (limbs_ok_lookup _ _ _ Hok Hx) as Hxok. unfold limb_ok in Hxok.
    rewrite u128_small, set_idx_lt, shr64 by lia. cbn [mbind res_bind].
    assert (limb_ok ((x + carry) / 2^64)) as Hc' by (apply carry_bound; lia).
    assert (limbs_val (<[i := u64 (x + carry)]> ls) + (x + carry) / 2^64 * 2^((S i)⋅64)
              = limbs_val ls + carry * 2^(i⋅64)) as Hv.
    { rewrite (limbs_val_insert _ _ _ _ Hx), pow64_S.
      pose proof (carry_step (2^(i⋅64)) x carry). lia. }
    rewrite <- Hv. rewrite <- (length_insert ls i (u64 (x + carry))).
    apply IH; [auto with limbs|done|rewrite length_insert; lia..].
Qed.

Lemma add_small_repr a rhs :
  wf a -> negative a = false -> limb_ok rhs ->
  computes (add_small_assign a rhs) (to_Z a + rhs).
Proof.
  intros Hw Hn Hr. unfold add_small_assign. destruct (Z.eqb_spec rhs 0) as [->|Hr0].
  { exists a. split; [done|]. split; [done|lia]. }
  destruct Hw as (Hok & Hl & _).
  destruct (add_small_loop_spec (length (limbs a) + 2) (limbs a) 0 rhs)
    as (out & -> & Hok' & Hv & Hlen); [done|done|lia|lia|].
  eexists. split; [reflexivity|]. rewrite to_Z_mag, Hn. unfold repr, to_Z, mag.
  cbn [limbs negative]. simpl in Hv. split; [|lia]. apply wf_intro; [done| |done].
  apply last_nonzero_iff; [done|]. apply last_nonzero_iff in Hl; [|done].
  pose proof (limbs_val_nonneg _ Hok). unfold limb_ok in Hr. right.
  destruct Hlen as [->|[-> Hle]].
  - destruct Hl as [->|Hl]; simpl in *; lia.
  - by replace (S (length (limbs a)) - 1)%nat with (length (limbs a)) by lia.
Qed.

Lemma mul_small_loop_spec ls rhs carry :
  limbs_ok ls -> limb_ok rhs -> limb_ok carry ->
  let '(out, c) := mul_small_loop ls rhs carry in
  length out = length ls /\ limbs_ok out /\ limb_ok c /\
  limbs_val out + c * 2^((length ls)⋅64) = limbs_val ls * rhs + carry.
Proof.
  revert carry. induction ls as [|x ls IH]; intros carry Hok Hr Hc.
  { simpl. split_and!; by (done || lia || auto with limbs). }
  apply Forall_cons in Hok as [Hx Hok]. cbn [mul_small_loop limbs_val length].
  unfold limb_ok in Hx, Hr, Hc. rewrite u128_small, shr64 by nia.
  assert (limb_ok ((x * rhs + carry) / 2^64)) as Hc' by (apply carry_bound; nia).
  specialize (IH _ Hok Hr Hc').
  destruct (mul_small_loop ls rhs ((x * rhs + carry) / 2^64)) as [out c].
  destruct IH as (Hl & Hok' & Hc1 & Hv). cbn [length limbs_val].
  pose proof (u64_split (x * rhs + carry)) as Hs. rewrite shr64 in Hs.
  split_and!; [lia|auto with limbs|done|].
  rewrite pow64_S. lia.
Qed.

Lemma mul_small_repr a rhs :
  wf a -> limb_ok rhs -> repr (mul_small_assign a rhs) (to_Z a * rhs).
Proof.
  intros Hw Hr. unfold mul_small_assign. destruct (Z.eqb_spec rhs 0) as [->|Hr0]; simpl.
  { rewrite Z.mul_0_r. apply repr_ZERO. }
  destruct (is_zero a) eqn:Ez.
  { apply is_zero_spec in Ez as ->; [|done]. apply repr_ZERO. }
  pose proof (mul_small_loop_spec (limbs a) rhs 0 (wf_limbs_ok a Hw) Hr) as Hm.
  destruct (mul_small_loop (limbs a) rhs 0) as [out c].
  destruct Hm as (Hlen & Hok & Hc & Hv); [unfold limb_ok; lia|].
  destruct Hw as (Hoka & Hla & _). apply last_nonzero_iff in Hla; [|done].
  unfold is_zero in Ez. destruct Hla as [Hnil|Hla]; [by rewrite Hnil in Ez|].
  unfold limb_ok in *. rewrite (u64_small c) by done.
  assert (limbs a <> []) as Hne by (intros H0; by rewrite H0 in Ez).
  assert (forall ls, limbs_ok ls -> limbs_val ls = limbs_val (limbs a) * rhs ->
    2^((length ls - 1)%nat⋅64) <= limbs_val ls -> ls <> [] ->
    repr (mk (negative a) ls) (to_Z a * rhs)) as Hfin.
  { intros ls Hokl Hvl Hll Hnel. split.
    - apply wf_intro; [done| |done]. apply last_nonzero_iff; auto.
    - unfold to_Z. cbn [negative limbs]. rewrite Hvl. destruct (negative a); lia. }
  pose proof (limbs_val_bounds out Hok) as Hb.
  destruct (Z.eqb_spec c 0) as [->|Hc0]; simpl; apply Hfin.
  - done.
  - lia.
  - rewrite Hlen. pose proof (pow64_pos (length (limbs a) - 1)). nia.
  - destruct out; [|done]. destruct (limbs a); [done|discriminate].
  - auto with limbs.
  - rewrite limbs_val_snoc, Hlen. lia.
  - rewrite limbs_val_snoc, length_app. simpl.
    replace (length out + 1 - 1)%nat with (length out) by lia.
    pose proof (pow64_pos (length out)). nia.
  - by destruct out.
Qed.

Lemma div_rem_small_spec a rhs :
  wf a -> limb_ok rhs -> rhs <> 0 ->
  exists q, div_rem_small a rhs = Ret (q, mag a mod rhs) /\ repr q (mag a / rhs).
Proof.
  intros Hw Hr Hr0. unfold div_rem_small. destruct (Z.eqb_spec rhs 0) as [|_]; [done|]. simpl.
  pose proof (wf_limbs_ok a Hw) as Hok. unfold limb_ok in Hr.
  set (n := length (limbs a)). set (body := fun i '(out, rem) => _).
  destruct (for_range_revM_ind (fun i '(out, rem) =>
    length out = n /\ limbs_ok out /\ 0 <= rem < rhs /\
    limbs_val (drop i (limbs a)) = limbs_val (drop i out) * rhs + rem)
    n body (replicate n 0, 0)) as ([out r] & -> & Hl & Hoko & Hrm & Hv).
  - rewrite length_replicate. split_and!; [done|auto with limbs|lia|lia|].
    rewrite !drop_ge by (rewrite ?length_replicate; unfold n; lia). simpl. lia.
  - intros i [out r] Hi (Hl & Hoko & Hrm & Hv). unfold body.
    destruct (get_idx_lt (limbs a) i Hi) as (x & Hx & ->). cbn [mbind res_bind].
    pose proof (limbs_ok_lookup _ _ _ Hok Hx) as Hxok. unfold limb_ok in Hxok.
    rewrite Z.shiftl_mul_pow2, u128_small by lia.
    rewrite Z.lor_comm, lor_disjoint_add by lia.
    set (cur := x + r * 2^64). pose proof (Z.div_mod cur rhs Hr0) as Hdm.
    pose proof (Z.mod_pos_bound cur rhs ltac:(lia)) as Hmb.
    assert (limb_ok (cur / rhs)) as Hq.
    { split; [apply Z.div_pos; unfold cur; lia|].
      apply Z.div_lt_upper_bound; [lia|]. unfold cur. nia. }
    rewrite u64_small by done. rewrite set_idx_lt by lia. cbn [mbind res_bind].
    eexists (_, _). split; [reflexivity|].
    split_and!; [by rewrite length_insert|auto with limbs|lia|lia|].
    rewrite (limbs_val_drop _ _ _ Hx), Hv, drop_insert_eq by lia. cbn [limbs_val].
    unfold cur in *. lia.
  - simpl. rewrite u64_small by (unfold limb_ok; lia). exists (normalize (mk false out)).
    rewrite !drop_0 in Hv. fold (mag a) in Hv.
    assert (mag a / rhs = limbs_val out) as Hdiv.
    { symmetry. apply Z.div_unique_pos with r; lia. }
    assert (mag a mod rhs = r) as Hmod.
    { symmetry. apply Z.mod_unique_pos with (limbs_val out); lia. }
    rewrite Hdiv, Hmod. split; [done|]. by apply (normalize_spec (mk false out)).
Qed.

(** ** Left shift *)

(** A [u64] shifted left by [s] bits across two columns. *)
Lemma shl_columns x s : limb_ok x -> 0 < s < 64 ->
  (x mod 2^(64 - s)) * 2^s + 2^64 * (x ≫ (64 - s)) = x * 2^s /\ 0 <= x ≫ (64 - s) < 2^s.
Proof.
  intros Hx Hs. rewrite Z.shiftr_div_pow2 by lia.
  assert (2^64 = 2^(64 - s) * 2^s) as H64 by (rewrite <- Z.pow_add_r by lia; f_equal; lia).
  assert (0 < 2^(64 - s)) by (apply Z.pow_pos_nonneg; lia).
  pose proof (Z.div_mod x (2^(64 - s)) ltac:(lia)) as Hdm. unfold limb_ok in Hx. split.
  - rewrite H64. rewrite Hdm at 3. ring.
  - split; [apply Z.div_pos; lia|]. apply Z.div_lt_upper_bound; lia.
Qed.

Section abs_shl.
Variables (ls : list Z) (k : nat) (s : Z).
Hypotheses (Hls : limbs_ok ls) (Hs : 0 <= s < 64).

(** After [i] limbs: the columns above the current one are still zero, and
    only the low [s] bits of the current one are in use. *)
Definition shl_inv (i : nat) (out : list Z) : Prop :=
  length out = (k + length ls + 1)%nat /\ limbs_ok out /\
  limbs_val out = limbs_val (take i ls) * 2^s * 2^(k⋅64) /\
  (exists y, out !! (i + k)%nat = Some y /\ 0 <= y < 2^s) /\
  (forall j, (i + k < j < length out)%nat -> out !! j = Some 0).

Lemma shl_inv_init : shl_inv 0 (replicate (k + length ls + 1)%nat 0).
Proof.
  assert (0 < 2^s) by (apply Z.pow_pos_nonneg; lia).
  split_and!.
  - apply length_replicate.
  - auto with limbs.
  - by rewrite limbs_val_replicate.
  - exists 0. split; [apply lookup_replicate_2; lia|lia].
  - intros j Hj. rewrite length_replicate in Hj. apply lookup_replicate_2. lia.
Qed.

Lemma shl_inv_step i x out :
  ls !! i = Some x -> shl_inv i out ->
  exists out',
    (let idx := (i + k)%nat in
     x0 ← get_idx out idx;
     out ← set_idx out idx (Z.lor x0 (u64 (x ≪ s)));
     if negb (s =? 0) then
       y ← get_idx out (idx + 1)%nat;
       set_idx out (idx + 1)%nat (Z.lor y (x ≫ (64 - s)))
     else Ret out) = Ret out' /\ shl_inv (S i) out'.
Proof.
  intros Hx (Hl & Hok & Hv & (y & Hy & Hyb) & Hz). cbn zeta.
  pose proof (lookup_lt_Some _ _ _ Hx) as Hi.
  pose proof (limbs_ok_lookup _ _ _ Hls Hx) as Hxok.
  assert (0 < 2^s) by (apply Z.pow_pos_nonneg; lia).
  assert (0 < 2^(64 - s)) by (apply Z.pow_pos_nonneg; lia).
  rewrite (get_idx_Some _ _ _ Hy). cbn [mbind res_bind].
  rewrite set_idx_lt by lia. cbn [mbind res_bind].
  rewrite shl64, lor_disjoint_add by lia.
  set (lo := y + x mod 2^(64 - s) * 2^s).
  assert (limb_ok lo) as Hlo.
  { unfold limb_ok, lo. pose proof (Z.mod_pos_bound x (2^(64 - s)) ltac:(lia)).
    assert (2^64 = 2^(64 - s) * 2^s) as -> by (rewrite <- Z.pow_add_r by lia; f_equal; lia).
    nia. }
  assert (out !! (i + k + 1)%nat = Some 0) as Hnext by (apply Hz; lia).
  assert (limbs_val (take (S i) ls) * 2^s * 2^(k⋅64)
          = limbs_val out + x * 2^s * 2^((i + k)%nat⋅64)) as Hgoal.
  { rewrite limbs_val_take_S, Hx, Hv, pow64_add. cbn [from_option id]. ring. }
  destruct (Z.eqb_spec s 0) as [Hs0|Hs0]; cbn [negb].
  - eexists. split; [reflexivity|]. split_and!.
    + by rewrite length_insert.
    + auto with limbs.
    + rewrite (limbs_val_insert _ _ _ _ Hy), Hgoal. unfold lo. rewrite Hs0.
      rewrite Z.mod_small by (apply Hxok). ring.
    + exists 0. rewrite list_lookup_insert_ne by lia.
      replace (S i + k)%nat with (i + k + 1)%nat by lia. split; [done|lia].
    + intros j Hj. rewrite length_insert in Hj. rewrite list_lookup_insert_ne by lia.
      apply Hz. lia.
  - rewrite (get_idx_Some _ _ 0) by (by rewrite list_lookup_insert_ne by lia).
    cbn [mbind res_bind]. rewrite set_idx_lt by (rewrite length_insert; lia).
    rewrite Z.lor_0_l. destruct (shl_columns x s Hxok ltac:(lia)) as [Hcol Hhib].
    set (hi := x ≫ (64 - s)) in *.
    assert (2^s <= 2^64) by (apply Z.pow_le_mono_r; lia).
    eexists. split; [reflexivity|]. split_and!.
    + by rewrite !length_insert.
    + assert (limb_ok hi) by (unfold limb_ok; lia). auto with limbs.
    + rewrite (limbs_val_insert _ _ 0) by (by rewrite list_lookup_insert_ne by lia).
      rewrite (limbs_val_insert _ _ _ _ Hy), Hgoal. unfold lo.
      rewrite Nat.add_1_r, pow64_S, <- Hcol. ring.
    + exists hi. replace (S i + k)%nat with (i + k + 1)%nat by lia.
      rewrite list_lookup_insert_eq by (rewrite length_insert; lia). by split.
    + intros j Hj. rewrite !length_insert in Hj. rewrite !list_lookup_insert_ne by lia.
      apply Hz. lia.
Qed.
End abs_shl.

Lemma abs_shl_repr a n : wf a -> 0 <= n -> computes (abs_shl a n) (to_Z a * 2^n).
Proof.
  intros Hw Hn. unfold abs_shl. destruct (is_zero a) eqn:Ez.
  { apply is_zero_spec in Ez as ->; [|done]. exists ZERO. split; [done|apply repr_ZERO]. }
  pose proof (wf_limbs_ok a Hw) as Hok. pose proof (Z.mod_pos_bound n 64 ltac:(lia)) as Hs.
  destruct (for_enumM_ind (shl_inv (limbs a) (Z.to_nat (n / 64)) (n mod 64)) (limbs a)
    (fun i limb out => let idx := (i + Z.to_nat (n / 64))%nat in
       x ← get_idx out idx;
       out ← set_idx out idx (Z.lor x (u64 (limb ≪ (n mod 64))));
       if negb (n mod 64 =? 0) then
         y ← get_idx out (idx + 1)%nat;
         set_idx out (idx + 1)%nat (Z.lor y (limb ≫ (64 - n mod 64)))
       else Ret out)
    (replicate (Z.to_nat (n / 64) + length (limbs a) + 1)%nat 0)) as (out & Heq & Hinv).
  - by apply shl_inv_init.
  - intros. by apply shl_inv_step.
  - cbn zeta in Heq. rewrite Heq. cbn [mbind res_bind]. eexists. split; [reflexivity|].
    destruct Hinv as (_ & Hoko & Hv & _). rewrite firstn_all in Hv.
    assert (limbs_val out = mag a * 2^n) as Hv'.
    { rewrite Hv. unfold mag. rewrite <- Z.mul_assoc, <- Z.pow_add_r by lia.
      f_equal. f_equal. rewrite Z2Nat.id by (apply Z.div_pos; lia).
      rewrite Z.add_comm. symmetry. apply Z.div_mod. lia. }
    replace (to_Z a * 2^n) with (to_Z (mk (negative a) out)); [by apply normalize_spec|].
    unfold to_Z. cbn [negative limbs]. rewrite Hv'. unfold mag. destruct (negative a); lia.
Qed.

(** ** Single bits *)

Lemma resize_zeros_val ls n :
  limbs_ok ls -> (length ls <= n)%nat ->
  limbs_ok (resize n 0 ls) /\ limbs_val (resize n 0 ls) = limbs_val ls.
Proof.
  intros Hok Hn. rewrite resize_ge by done. split; [auto with limbs|].
  rewrite limbs_val_app, limbs_val_replicate. lia.
Qed.

(** Bit [b] of limb [k] is bit [64 k + b] of the number. *)
Lemma limb_bit ls k x b :
  limbs_ok ls -> ls !! k = Some x -> 0 <= b < 64 ->
  Z.land (x ≫ b) 1 = (limbs_val ls / 2^(k⋅64 + b)) mod 2.
Proof.
  intros Hok Hx Hb. rewrite Z.pow_add_r, <- Z.div_div by lia.
  rewrite limbs_val_div, (limbs_val_drop _ _ _ Hx) by done.
  change 1 with (Z.ones 1). rewrite Z.land_ones, Z.shiftr_div_pow2 by lia.
  change (2^1) with 2.
  replace (2^64) with (2^(64 - b - 1) * 2 * 2^b)
    by (change 2 with (2^1) at 2; rewrite <- !Z.pow_add_r by lia; f_equal; lia).
  replace (x + _) with (x + (limbs_val (drop (S k) ls) * 2^(64 - b - 1) * 2) * 2^b) by ring.
  rewrite Z.div_add by (apply Z.pow_nonzero; lia). by rewrite Z_mod_plus_full.
Qed.

Lemma bit_position bit : (Z.to_nat (Z.of_nat bit / 64))⋅64 + Z.of_nat bit mod 64 = Z.of_nat bit.
Proof.
  rewrite Z2Nat.id by (apply Z.div_pos; lia). symmetry. apply Z.div_mod. lia.
Qed.

Lemma pow64_split b : 0 <= b < 64 -> 2^64 = 2^(63 - b) * 2^(b + 1).
Proof. intros. rewrite <- Z.pow_add_r by lia. f_equal. lia. Qed.

(** A multiple of [2^(64 k + b + 1)] has a limb [k] multiple of [2^(b + 1)]. *)
Lemma limb_mod_of_val ls k x b :
  limbs_ok ls -> ls !! k = Some x -> 0 <= b < 64 ->
  limbs_val ls mod 2^(k⋅64 + (b + 1)) = 0 -> x mod 2^(b + 1) = 0.
Proof.
  intros Hok Hx Hb Hmod. rewrite Z.pow_add_r in Hmod by lia.
  assert (0 < 2^(b + 1)) by (apply Z.pow_pos_nonneg; lia). pose proof (pow64_pos k).
  rewrite Z.rem_mul_r, limbs_val_div, (limbs_val_drop _ _ _ Hx), (pow64_split b) in Hmod by (done || lia).
  pose proof (Z.mod_pos_bound (limbs_val ls) (2^(k⋅64)) ltac:(lia)).
  replace (x + _) with (x + (2^(63 - b) * limbs_val (drop (S k) ls)) * 2^(b + 1)) in Hmod by ring.
  rewrite Z_mod_plus_full in Hmod.
  pose proof (Z.mod_pos_bound x (2^(b + 1)) ltac:(lia)). nia.
Qed.

Lemma set_bit_room x b :
  0 <= b < 64 -> 0 <= x < 2^64 -> x mod 2^(b + 1) = 0 ->
  Z.lor x (2^b) = x + 2^b /\ x + 2^b < 2^64.
Proof.
  intros Hb Hx Hx0. apply Z.mod_divide in Hx0 as [y Hy]; [|apply Z.pow_nonzero; lia].
  assert (0 < 2^b) by (apply Z.pow_pos_nonneg; lia). split.
  - rewrite Z.lor_comm. rewrite Hy at 1. rewrite lor_disjoint_add, <- Hy; [lia|lia|].
    rewrite Z.pow_add_r by lia. lia.
  - assert (y < 2^(63 - b)) as Hyb.
    { apply (Z.mul_lt_mono_pos_r (2^(b + 1))); [apply Z.pow_pos_nonneg; lia|].
      rewrite <- Hy, <- (pow64_split b) by lia. lia. }
    rewrite (pow64_split b) by lia. rewrite Hy, Z.pow_add_r by lia. nia.
Qed.

(** Setting a bit of a number that is a multiple of twice its weight. *)
Lemma set_bit_repr a bit :
  wf a -> negative a = false -> to_Z a mod 2^(Z.of_nat (S bit)) = 0 ->
  computes (set_bit a (Z.of_nat bit)) (to_Z a + 2^(Z.of_nat bit)) /\
  forall r, set_bit a (Z.of_nat bit) = Ret r -> negative r = false.
Proof.
  intros Hw Hn Hmod. unfold set_bit. pose proof (bit_position bit) as Hpos.
  set (k := Z.to_nat _) in *. set (b := Z.of_nat bit mod 64) in *.
  assert (0 <= b < 64) as Hb by (apply Z.mod_pos_bound; lia).
  set (ls := if (length (limbs a) <=? k)%nat then _ else _).
  assert (limbs_ok ls /\ limbs_val ls = mag a /\ (k < length ls)%nat /\
          (ls = limbs a \/ length ls = S k)) as (Hok & Hv & Hk & Hlen).
  { unfold ls. destruct (Nat.leb_spec (length (limbs a)) k).
    - destruct (resize_zeros_val (limbs a) (S k) (wf_limbs_ok a Hw)) as [? Hv]; [lia|].
      rewrite Hv, length_resize. split_and!; [done|done|lia|by right].
    - split_and!; [by apply wf_limbs_ok|done|lia|by left]. }
  destruct (get_idx_lt ls k Hk) as (x & Hx & ->). cbn [mbind res_bind].
  rewrite set_idx_lt by done. cbn [fmap res_fmap].
  pose proof (limbs_ok_lookup _ _ _ Hok Hx) as Hxok. unfold limb_ok in Hxok.
  assert (0 < 2^b < 2^64) as Hpb.
  { split; [apply Z.pow_pos_nonneg; lia|]. apply Z.pow_lt_mono_r; lia. }
  rewrite Z.shiftl_mul_pow2, Z.mul_1_l, u64_small by (unfold limb_ok; lia).
  rewrite to_Z_mag, Hn in *. cbn [negb] in *.
  destruct (set_bit_room x b Hb Hxok) as [-> Hub].
  { apply (limb_mod_of_val ls k); [done..|]. rewrite Hv.
    by replace (k⋅64 + (b + 1)) with (Z.of_nat (S bit)) by lia. }
  assert (limbs_val (<[k := x + 2^b]> ls) = mag a + 2^(Z.of_nat bit)) as Hv'.
  { rewrite (limbs_val_insert _ _ _ _ Hx), Hv, <- Hpos, Z.pow_add_r by lia. ring. }
  assert (limbs_ok (<[k := x + 2^b]> ls)) as Hok'.
  { assert (limb_ok (x + 2^b)) by (unfold limb_ok; lia). auto with limbs. }
  split; [|by intros r [= <-]]. eexists. split; [reflexivity|]. split.
  - apply wf_intro; [done| |done]. apply last_nonzero_iff; [done|]. right.
    rewrite Hv', length_insert. pose proof (mag_nonneg a Hw).
    assert (0 < 2^(Z.of_nat bit)) by (apply Z.pow_pos_nonneg; lia).
    destruct Hlen as [Hls| ->].
    + destruct Hw as (Hoka & Hla & _). apply last_nonzero_iff in Hla; [|done].
      rewrite Hls. unfold mag. destruct Hla as [Hnil|Hla]; [|lia].
      rewrite Hls, Hnil in Hk. simpl in Hk. lia.
    + replace (S k - 1)%nat with k by lia.
      assert (2^(k⋅64) <= 2^(Z.of_nat bit)); [apply Z.pow_le_mono_r; lia|lia].
  - done.
Qed.

(** ** Bit length *)

Lemma significant_bits_log2 a :
  wf a -> significant_bits a = if mag a =? 0 then 0 else Z.log2 (mag a) + 1.
Proof.
  intros (Hok & Hl & _). unfold significant_bits, mag.
  destruct (last (limbs a)) as [x|] eqn:E.
  2: { apply last_None in E as ->. done. }
  assert (x <> 0) as Hx0 by congruence.
  pose proof (limbs_val_lower _ _ Hok E Hx0) as Hb.
  pose proof (last_limb_ok _ _ Hok E) as Hx. unfold limb_ok in Hx.
  assert (length (limbs a) <> 0%nat) as Hlen.
  { intros H0. apply length_zero_iff_nil in H0. by rewrite H0 in E. }
  assert (Z.of_nat (length (limbs a)) - 1 = Z.of_nat (length (limbs a) - 1)) as -> by lia.
  set (k := (length (limbs a) - 1)%nat) in *. pose proof (pow64_pos k) as Hp.
  unfold leading_zeros. destruct (Z.eqb_spec x 0); [lia|].
  destruct (Z.eqb_spec (limbs_val (limbs a)) 0); [nia|].
  pose proof (Z.log2_spec x ltac:(lia)) as Hlog. pose proof (Z.log2_nonneg x).
  rewrite (Z.log2_unique (limbs_val (limbs a)) (k⋅64 + Z.log2 x)); [lia|lia|].
  rewrite <- Z.add_succ_r, !Z.pow_add_r by lia. split; [nia|].
  eapply Z.lt_le_trans; [apply Hb|]. apply Z.mul_le_mono_nonneg_l; lia.
Qed.

Lemma significant_bits_le a : wf a -> significant_bits a <= (length (limbs a))⋅64.
Proof.
  intros (Hok & _). unfold significant_bits. destruct (last (limbs a)) as [x|] eqn:E; [|lia].
  pose proof (last_limb_ok _ _ Hok E) as Hx. unfold limb_ok, leading_zeros in *.
  destruct (Z.eqb_spec x 0); [lia|].
  assert (Z.log2 x < 64) by (apply Z.log2_lt_pow2; lia). lia.
Qed.

Lemma significant_bits_nonneg a : wf a -> 0 <= significant_bits a.
Proof.
  intros Hw. rewrite significant_bits_log2 by done. destruct (Z.eqb_spec (mag a) 0); [lia|].
  pose proof (Z.log2_nonneg (mag a)). lia.
Qed.

(** [a] has at most [n] significant bits exactly when its magnitude is below [2^n]. *)
Lemma significant_bits_le_iff a n :
  wf a -> 0 <= n -> significant_bits a <= n <-> mag a < 2^n.
Proof.
  intros Hw Hn. rewrite significant_bits_log2 by done. pose proof (mag_nonneg a Hw).
  assert (0 < 2^n) by (apply Z.pow_pos_nonneg; lia).
  destruct (Z.eqb_spec (mag a) 0) as [->|Hne]; [lia|].
  rewrite Z.log2_lt_pow2 by lia. lia.
Qed.

(** ** Division *)

(** The loop state when the bits below [i] are still to be brought down:
    the bits above give quotient [q / 2^i] and remainder [r]. *)
Definition div_inv (lhs rhs : t) (i : nat) (qr : t * t) : Prop :=
  let '(q, r) := qr in
  wf q /\ wf r /\ negative q = false /\ negative r = false /\
  to_Z q mod 2^(Z.of_nat i) = 0 /\ 0 <= to_Z r < mag rhs /\
  mag lhs / 2^(Z.of_nat i) = to_Z q / 2^(Z.of_nat i) * mag rhs + to_Z r.

Lemma sub_nonneg_sign a b : wf a -> wf b -> to_Z b <= to_Z a -> negative (sub a b) = false.
Proof.
  intros Ha Hb Hle. destruct (sub_repr a b Ha Hb) as [Hw Hv].
  destruct (negative (sub a b)) eqn:E; [|done]. apply wf_negative_neg in E; [|done]. lia.
Qed.

Lemma computes_nonneg_sign r z : computes r z -> 0 <= z ->
  exists a, r = Ret a /\ repr a z /\ negative a = false.
Proof.
  intros (a & Ha & [Hw Hz]) Hle. exists a. split_and!; [done|by split|].
  destruct (negative a) eqn:E; [|done]. apply wf_negative_neg in E; [|done]. lia.
Qed.

(** Bringing down bit [i]. *)
Lemma bring_down n i :
  0 <= n -> n / 2^(Z.of_nat i) = 2 * (n / 2^(Z.of_nat (S i))) + (n / 2^(Z.of_nat i)) mod 2.
Proof.
  intros Hn. rewrite Nat2Z.inj_succ, Z.pow_succ_r, (Z.mul_comm 2 (2^_)), <- Z.div_div by lia.
  apply Z.div_mod. lia.
Qed.

(** The bit read from the dividend by one step. *)
Lemma div_rem_bit lhs i :
  wf lhs -> Z.of_nat i < significant_bits lhs ->
  exists x, get_idx (limbs lhs) (Z.to_nat (Z.of_nat i / 64)) = Ret x /\
    Z.land (x ≫ (Z.of_nat i mod 64)) 1 = (mag lhs / 2^(Z.of_nat i)) mod 2.
Proof.
  intros Hw Hi. pose proof (wf_limbs_ok _ Hw) as Hok.
  assert (Z.to_nat (Z.of_nat i / 64) < length (limbs lhs))%nat as Hlt.
  { pose proof (significant_bits_le lhs Hw).
    apply Nat2Z.inj_lt. rewrite Z2Nat.id by (apply Z.div_pos; lia).
    apply Z.div_lt_upper_bound; lia. }
  destruct (get_idx_lt _ _ Hlt) as (x & Hx & Hget). exists x. split; [done|].
  rewrite (limb_bit _ _ _ _ Hok Hx) by (apply Z.mod_pos_bound; lia).
  by rewrite bit_position.
Qed.

(** Arithmetic of one step: the brought-down remainder [2 r + b] either stays
    below the divisor or gives one more quotient bit. *)
Lemma div_step_arith L d q r b i :
  0 <= L -> 0 <= b < 2 -> 0 <= r < d ->
  q mod 2^(Z.of_nat (S i)) = 0 ->
  L / 2^(Z.of_nat (S i)) = q / 2^(Z.of_nat (S i)) * d + r ->
  b = (L / 2^(Z.of_nat i)) mod 2 ->
  let r1 := r * 2 + b in
  q mod 2^(Z.of_nat i) = 0 /\ (q + 2^(Z.of_nat i)) mod 2^(Z.of_nat i) = 0 /\
  L / 2^(Z.of_nat i) = q / 2^(Z.of_nat i) * d + r1 /\
  L / 2^(Z.of_nat i) = (q + 2^(Z.of_nat i)) / 2^(Z.of_nat i) * d + (r1 - d) /\
  r1 - d < d.
Proof.
  intros HL Hb Hr Hq Hinv Hbit r1. pose proof (bring_down L i HL) as Hbd.
  rewrite <- Hbit, Hinv in Hbd.
  assert (0 < 2^(Z.of_nat i)) as Hp by (apply Z.pow_pos_nonneg; lia).
  apply Z.mod_divide in Hq as [k Hk]; [|apply Z.pow_nonzero; lia].
  rewrite Nat2Z.inj_succ, Z.pow_succ_r in Hk by lia.
  assert (q / 2^(Z.of_nat (S i)) = k) as Hqk.
  { rewrite Nat2Z.inj_succ, Z.pow_succ_r, Hk by lia. apply Z.div_mul. lia. }
  assert (q = (2 * k) * 2^(Z.of_nat i)) as Hq2 by lia.
  assert (q + 2^(Z.of_nat i) = (2 * k + 1) * 2^(Z.of_nat i)) as Hq3 by lia.
  rewrite Hq3, Hq2, !Z_mod_mult, !Z.div_mul by lia.
  rewrite Hqk in Hbd. subst r1. split_and!; [done|done|lia|lia|lia].
Qed.

Lemma div_rem_step_spec lhs rhs i qr :
  wf lhs -> wf rhs -> negative rhs = false -> Z.of_nat i < significant_bits lhs ->
  div_inv lhs rhs (S i) qr ->
  exists qr', div_rem_step lhs rhs i qr = Ret qr' /\ div_inv lhs rhs i qr'.
Proof.
  intros Hwl Hwr Hnr0 Hi. destruct qr as [q r].
  intros (Hwq & Hwr' & Hnq & Hnr & Hqm & Hrb & Hinv). unfold div_rem_step.
  destruct (computes_nonneg_sign _ _ (abs_shl_repr r 1 Hwr' ltac:(lia))) as (r2 & -> & [Hw2 Hv2] & Hn2);
    [change (2^1) with 2; lia|]. change (2^1) with 2 in Hv2. cbn [mbind res_bind].
  destruct (div_rem_bit lhs i Hwl Hi) as (x & -> & Hbit). cbn [mbind res_bind].
  set (b := Z.land _ 1) in *.
  assert (0 <= b < 2) as Hb by (rewrite Hbit; apply Z.mod_pos_bound; lia).
  destruct (div_step_arith (mag lhs) (mag rhs) (to_Z q) (to_Z r) b i)
    as (Hm1 & Hm2 & He1 & He2 & Hlt); try done; [by apply mag_nonneg|].
  assert (exists r1, (if negb (b =? 0) then add_small_assign r2 1 else Ret r2) = Ret r1 /\
    repr r1 (to_Z r * 2 + b) /\ negative r1 = false) as (r1 & -> & [Hw1 Hv1] & Hn1).
  { destruct (Z.eqb_spec b 0) as [->|Hb0]; cbn [negb].
    - exists r2. by rewrite Z.add_0_r.
    - replace b with 1 by lia. rewrite <- Hv2. apply computes_nonneg_sign; [|lia].
      apply add_small_repr; [done|done|unfold limb_ok; lia]. }
  cbn [mbind res_bind]. rewrite abs_cmp_spec by done.
  assert (mag r1 = to_Z r * 2 + b) as Hm by (rewrite to_Z_mag, Hn1 in Hv1; lia).
  destruct (set_bit_repr q i Hwq Hnq Hqm) as [(q' & Hsb & [Hwq' Hvq']) Hsn].
  specialize (Hsn _ Hsb). rewrite Hsb. cbn [mbind res_bind].
  assert (mag rhs <= mag r1 -> div_inv lhs rhs i (q', sub r1 rhs)) as Hge.
  { intros Hle. assert (to_Z rhs = mag rhs) as Hs by (by rewrite to_Z_mag, Hnr0).
    destruct (sub_repr r1 rhs Hw1 Hwr) as [Hws Hvs].
    pose proof (sub_nonneg_sign r1 rhs Hw1 Hwr ltac:(lia)).
    split_and!; try done; rewrite ?Hvq', ?Hvs, ?Hs, ?Hv1; by (done || lia). }
  destruct (Z.compare_spec (mag r1) (mag rhs)) as [H|H|H].
  - eexists. split; [reflexivity|]. apply Hge. lia.
  - eexists. split; [reflexivity|]. split_and!; by (done || lia).
  - eexists. split; [reflexivity|]. apply Hge. lia.
Qed.

(** The general algorithm. *)
Lemma div_loop_spec lhs rhs :
  wf lhs -> wf rhs -> negative rhs = false -> 0 < mag rhs ->
  exists q r,
    for_range_revM (Z.to_nat (significant_bits lhs)) (div_rem_step lhs rhs) (ZERO, ZERO)
      = Ret (q, r) /\
    repr q (mag lhs / mag rhs) /\ repr r (mag lhs mod mag rhs).
Proof.
  intros Hwl Hwr Hnr Hr0. pose proof (significant_bits_nonneg lhs Hwl) as Hsn.
  pose proof (mag_nonneg lhs Hwl) as Hl0.
  destruct (for_range_revM_ind (div_inv lhs rhs) (Z.to_nat (significant_bits lhs))
    (div_rem_step lhs rhs) (ZERO, ZERO)) as ([q r] & -> & Hinv).
  - split_and!; try done; change (to_Z ZERO) with 0;
      rewrite ?Z.mod_0_l by (apply Z.pow_nonzero; lia); try (done || lia).
    rewrite Z2Nat.id by done. rewrite Z.div_small; [reflexivity|split; [done|]].
    by apply significant_bits_le_iff.
  - intros i s Hi. apply div_rem_step_spec; try done. lia.
  - destruct Hinv as (Hwq & Hwr' & Hnq & Hnr' & _ & Hrb & Hinv).
    rewrite !Z.div_1_r in Hinv. exists q, r. split_and!; [done|split; [done|]|split; [done|]].
    + apply Z.div_unique_pos with (to_Z r); lia.
    + apply Z.mod_unique_pos with (to_Z q); lia.
Qed.

(** The single-limb algorithm. *)
Lemma div_single_spec lhs rhs :
  wf lhs -> wf rhs -> length (limbs rhs) = 1%nat -> 0 < mag rhs ->
  exists q r,
    (x ← get_idx (limbs rhs) 0; '(q, r) ← div_rem_small lhs x; Ret (q, from_unsigned r))
      = Ret (q, r) /\
    repr q (mag lhs / mag rhs) /\ repr r (mag lhs mod mag rhs).
Proof.
  intros Hwl Hwr H1 Hr0. pose proof (wf_limbs_ok rhs Hwr) as Hok. unfold mag in Hr0.
  destruct (limbs rhs) as [|x [|]] eqn:E; try discriminate. apply Forall_inv in Hok.
  assert (mag rhs = x) as -> by (unfold mag; rewrite E; simpl; lia).
  cbn [get_idx lookup list_lookup mbind res_bind limbs_val] in *.
  destruct (div_rem_small_spec lhs x Hwl Hok ltac:(lia)) as (q & -> & Hq).
  eexists q, _. split_and!; [reflexivity|exact Hq|].
  apply from_unsigned_repr. unfold limb_ok in Hok.
  pose proof (Z.mod_pos_bound (mag lhs) x ltac:(lia)). lia.
Qed.

Lemma div_rem_abs_spec lhs rhs :
  wf lhs -> wf rhs -> negative lhs = false -> negative rhs = false -> 0 < mag rhs ->
  exists q r, div_rem_abs lhs rhs = Ret (q, r) /\
    repr q (mag lhs / mag rhs) /\ repr r (mag lhs mod mag rhs).
Proof.
  intros Hwl Hwr Hnl Hnr Hr0. unfold div_rem_abs.
  assert (to_Z rhs <> 0) as Hrz by (rewrite to_Z_mag, Hnr; lia).
  rewrite (proj2 (is_zero_false rhs Hwr) Hrz). cbn [assert_ negb mbind res_bind].
  rewrite abs_cmp_spec by done. pose proof (mag_nonneg lhs Hwl).
  pose proof (div_loop_spec lhs rhs Hwl Hwr Hnr Hr0) as Hloop.
  pose proof (div_single_spec lhs rhs Hwl Hwr) as Hsingle.
  destruct (Z.compare_spec (mag lhs) (mag rhs)) as [Heq|Hlt|Hgt].
  2: { exists ZERO, lhs. rewrite Z.div_small, Z.mod_small by lia.
       split_and!; [done|apply repr_ZERO|split; [done|]]. by rewrite to_Z_mag, Hnl. }
  all: destruct (Nat.eqb_spec (length (limbs rhs)) 1) as [H1|H1]; auto.
Qed.

(** ** The operators [/] and [%] *)

Lemma wf_abs a : wf a -> wf (mk false (limbs a)).
Proof. intros (Hok & Hl & _). by split_and!. Qed.

(** Giving a sign to a non-negative result. *)
Lemma signed_repr a n z :
  repr a z -> 0 <= z -> repr (mk (negb (is_zero a) && n) (limbs a)) (if n then - z else z).
Proof.
  intros [Hw Hz] Hz0. assert (mag a = z) as Hm by (rewrite mag_abs by done; lia).
  pose proof (is_zero_spec a Hw) as Hzero. destruct Hw as (Hok & Hl & Hn). split.
  - apply wf_intro; [done|done|]. unfold is_zero. by intros ->.
  - rewrite to_Z_mag. unfold mag in *. cbn [negative limbs]. rewrite Hm.
    destruct (is_zero a), n; simpl; try lia.
Qed.

Lemma div_rem_parts a b :
  wf a -> wf b -> to_Z b <> 0 ->
  exists q r, div_rem_abs (mk false (limbs a)) (mk false (limbs b)) = Ret (q, r) /\
    repr q (Z.abs (to_Z a) / Z.abs (to_Z b)) /\ repr r (Z.abs (to_Z a) mod Z.abs (to_Z b)).
Proof.
  intros Ha Hb Hb0. rewrite <- !mag_abs by done.
  apply (div_rem_abs_spec (mk false (limbs a)) (mk false (limbs b)));
    try done; [by apply wf_abs..|].
  change (0 < mag b). pose proof (mag_nonneg b Hb). rewrite mag_abs in * by done. lia.
Qed.

Lemma quot_sign x y : y <> 0 ->
  Z.quot x y = if xorb (x <? 0) (y <? 0) then - (Z.abs x / Z.abs y) else Z.abs x / Z.abs y.
Proof.
  intros Hy. rewrite Z.quot_div by done.
  destruct (Z.ltb_spec x 0), (Z.ltb_spec y 0); simpl; rewrite ?(Z.sgn_neg x), ?(Z.sgn_neg y) by lia;
    try rewrite (Z.sgn_pos y) by lia; try lia;
    (destruct (Z.eq_dec x 0) as [->|]; [simpl; rewrite ?Z.div_0_l by lia; lia|rewrite (Z.sgn_pos x) by lia; lia]).
Qed.

Lemma rem_sign x y : y <> 0 ->
  Z.rem x y = if x <? 0 then - (Z.abs x mod Z.abs y) else Z.abs x mod Z.abs y.
Proof.
  intros Hy. rewrite Z.rem_mod by done. destruct (Z.ltb_spec x 0).
  - rewrite Z.sgn_neg by lia. lia.
  - destruct (Z.eq_dec x 0) as [->|]; [simpl; rewrite ?Z.mod_0_l by lia; lia|].
    rewrite Z.sgn_pos by lia. lia.
Qed.

Lemma negative_ltb a : wf a -> negative a = (to_Z a <? 0).
Proof.
  intros Hw. apply Bool.eq_iff_eq_true. by rewrite Z.ltb_lt, wf_negative_neg.
Qed.

Lemma div_repr a b : wf a -> wf b -> to_Z b <> 0 -> computes (div a b) (Z.quot (to_Z a) (to_Z b)).
Proof.
  intros Ha Hb Hb0. unfold div. rewrite (proj2 (is_zero_false b Hb) Hb0).
  destruct (div_rem_parts a b Ha Hb Hb0) as (q & r & Heq & Hq & _). cbn [assert_ negb mbind res_bind].
  rewrite Heq. cbn [mbind res_bind]. eexists. split; [reflexivity|].
  rewrite quot_sign, <- !negative_ltb by done. apply signed_repr; [done|]. apply Z.div_pos; lia.
Qed.

Lemma rem_repr a b : wf a -> wf b -> to_Z b <> 0 -> computes (rem a b) (Z.rem (to_Z a) (to_Z b)).
Proof.
  intros Ha Hb Hb0. unfold rem. rewrite (proj2 (is_zero_false b Hb) Hb0).
  destruct (div_rem_parts a b Ha Hb Hb0) as (q & r & Heq & _ & Hr). cbn [assert_ negb mbind res_bind].
  rewrite Heq. cbn [mbind res_bind]. eexists. split; [reflexivity|].
  rewrite rem_sign, <- negative_ltb by done. apply signed_repr; [done|]. apply Z.mod_pos_bound. lia.
Qed.

Lemma div_zero_panics a b : wf b -> to_Z b = 0 -> div a b = panic /\ rem a b = panic.
Proof. intros Hb Hz. unfold div, rem. by rewrite (proj2 (is_zero_spec b Hb) Hz). Qed.

End AnyintDiv.
