(* ===== verification/AnyintBits.v ===== *)
(** * Arbitrary-precision integers: right shift, two's complement, bit widths

    The arithmetic right shift is floor division by a power of two, the
    bitwise operators agree with the infinite two's complement of [Z], and the
    [fits_*] tests decide exactly the ranges of the machine integers. *)

From S2P Require Import Prelude Words Anyint AnyintArith AnyintDiv.

#[local] Open Scope Z_scope.
#[local] Open Scope vif_scope.

(** ** Bitwise operators as a class

    What [Anyint::bitwise] needs from its closure argument. *)
Class BitOp (op : Z -> Z -> Z) := {
  bop : bool -> bool -> bool;
  bop_spec a b i : 0 <= i -> Z.testbit (op a b) i = bop (Z.testbit a i) (Z.testbit b i);
  bop_false : bop false false = false;
}.

Arguments bop op {_} _ _.
Arguments bop_spec op {_} _ _ _ _.
Arguments bop_false op {_}.

#[export] Program Instance BitOp_land : BitOp Z.land := {| bop := andb |}.
Next Obligation. intros. apply Z.land_spec. Qed.
Next Obligation. done. Qed.
#[export] Program Instance BitOp_lor : BitOp Z.lor := {| bop := orb |}.
Next Obligation. intros. apply Z.lor_spec. Qed.
Next Obligation. done. Qed.
#[export] Program Instance BitOp_lxor : BitOp Z.lxor := {| bop := xorb |}.
Next Obligation. intros. apply Z.lxor_spec. Qed.
Next Obligation. done. Qed.

Section bitop.
Context (op : Z -> Z -> Z) `{!BitOp op}.

Lemma bitop_mod a b n : 0 <= n -> op (a mod 2^n) (b mod 2^n) = op a b mod 2^n.
Proof.
  intros Hn. apply Z.bits_inj'. intros i Hi.
  rewrite (bop_spec op), !Z.testbit_mod_pow2, (bop_spec op) by done.
  destruct (i <? n); simpl; [done|apply (bop_false op)].
Qed.

Lemma bitop_bound a b n : 0 <= n -> 0 <= a < 2^n -> 0 <= b < 2^n -> 0 <= op a b < 2^n.
Proof.
  intros Hn Ha Hb. rewrite <- (Z.mod_small a (2^n)), <- (Z.mod_small b (2^n)) by done.
  rewrite bitop_mod by done. apply Z.mod_pos_bound, Z.pow_pos_nonneg; lia.
Qed.

Lemma bitop_shiftr a b n : 0 <= n -> op a b ≫ n = op (a ≫ n) (b ≫ n).
Proof.
  intros Hn. apply Z.bits_inj'. intros i Hi.
  by rewrite (bop_spec op), !Z.shiftr_spec, (bop_spec op) by lia.
Qed.

Lemma bitop_limb x y a b :
  limb_ok x -> limb_ok y -> op (x + 2^64 * a) (y + 2^64 * b) = op x y + 2^64 * op a b.
Proof.
  intros Hx Hy. unfold limb_ok in *.
  rewrite (Z.div_mod (op (x + 2^64 * a) (y + 2^64 * b)) (2^64)) by lia.
  rewrite <- bitop_mod, <- Z.shiftr_div_pow2, bitop_shiftr by lia.
  rewrite !Z.shiftr_div_pow2 by lia. rewrite !(Z.mul_comm (2^64)).
  rewrite !Z_mod_plus_full, !Z.mod_small, !Z.div_add, !Z.div_small by lia.
  rewrite !Z.add_0_l. lia.
Qed.

(** A number in the signed range [[-2^m, 2^m)] is all sign bits above [m]. *)
Lemma signed_range_shiftr z m : 0 <= m ->
  (- 2^m <= z < 2^m) <-> (z ≫ m = 0 \/ z ≫ m = -1).
Proof.
  intros Hm. rewrite Z.shiftr_div_pow2 by done.
  assert (0 < 2^m) by (apply Z.pow_pos_nonneg; lia).
  pose proof (Z.div_mod z (2^m) ltac:(lia)). pose proof (Z.mod_pos_bound z (2^m) ltac:(lia)).
  split; [|intros [Hz|Hz]; rewrite Hz in *; lia].
  intros Hz. assert (-1 <= z / 2^m < 1); [|lia].
  split; [apply Z.div_le_lower_bound; lia|apply Z.div_lt_upper_bound; lia].
Qed.

Lemma bitop_signed_range a b m : 0 <= m ->
  - 2^m <= a < 2^m -> - 2^m <= b < 2^m -> - 2^m <= op a b < 2^m.
Proof.
  intros Hm Ha Hb. apply signed_range_shiftr in Ha, Hb; [|done..].
  apply signed_range_shiftr; [done|]. rewrite bitop_shiftr by done.
  set (s := a ≫ m) in *. set (t := b ≫ m) in *.
  assert (forall z, z = 0 \/ z = -1 -> forall i, 0 <= i -> Z.testbit z i = Z.testbit z 0) as Hc.
  { intros z [->| ->] i Hi; [by rewrite !Z.bits_0|by rewrite !Z.bits_m1 by lia]. }
  destruct (bop op (Z.testbit s 0) (Z.testbit t 0)) eqn:E; [right|left];
    apply Z.bits_inj'; intros i Hi; rewrite (bop_spec op), (Hc s), (Hc t), E by done.
  - by rewrite Z.bits_m1.
  - by rewrite Z.bits_0.
Qed.

Lemma zip_with_bitop l r :
  length l = length r -> limbs_ok l -> limbs_ok r ->
  limbs_ok (zip_with op l r) /\
  limbs_val (zip_with op l r) = op (limbs_val l) (limbs_val r).
Proof.
  revert r. induction l as [|x l IH]; intros [|y r] Hlen Hl Hr; try discriminate.
  - split; [apply limbs_ok_nil|]. simpl. symmetry. apply Z.bits_inj'. intros i Hi.
    rewrite (bop_spec op), Z.bits_0 by done. apply (bop_false op).
  - apply Forall_cons in Hl as [Hx Hl], Hr as [Hy Hr].
    destruct (IH r) as [Hok Hv]; [by injection Hlen|done..|].
    cbn [zip_with limbs_val]. rewrite bitop_limb, Hv by done. split; [|done].
    apply limbs_ok_cons; [|done]. apply bitop_bound; by (done || lia).
Qed.
End bitop.

Module AnyintBits.
Import Anyint AnyintArith AnyintDiv.

(** ** Two's complement *)

Lemma carry_loop_spec ls c :
  limbs_ok ls -> 0 <= c <= 1 ->
  length (carry_loop ls c) = length ls /\ limbs_ok (carry_loop ls c) /\
  exists k, 0 <= k <= 1 /\ limbs_val (carry_loop ls c) + k * 2^((length ls)⋅64) = limbs_val ls + c.
Proof.
  revert c. induction ls as [|x ls IH]; intros c Hok Hc.
  { simpl. split_and!; [done|done|]. exists c. lia. }
  apply Forall_cons in Hok as [Hx Hok]. unfold limb_ok in Hx. cbn [carry_loop limbs_val length].
  rewrite u128_small, shr64, pow64_S by lia.
  pose proof (u64_split (x + c)) as Hs. rewrite shr64 in Hs.
  assert (0 <= (x + c) / 2^64 <= 1) as Hq.
  { split; [apply Z.div_pos; lia|]. apply Z.lt_succ_r, Z.div_lt_upper_bound; lia. }
  destruct (Z.eqb_spec ((x + c) / 2^64) 0) as [H0|H0].
  - split_and!; [done|auto with limbs|]. exists 0. rewrite H0 in Hs. cbn [limbs_val]. lia.
  - destruct (IH _ Hok Hq) as (Hl & Hok' & k & Hk & Hv).
    cbn [length limbs_val]. split_and!; [by rewrite Hl|auto with limbs|]. exists k. lia.
Qed.

Lemma not64_val ls :
  limbs_ok ls -> limbs_ok (not64 <$> ls) /\
  limbs_val (not64 <$> ls) = 2^((length ls)⋅64) - 1 - limbs_val ls.
Proof.
  induction 1 as [|x ls Hx Hok [IHok IH]]; [split; [apply limbs_ok_nil|done]|].
  cbn [fmap list_fmap limbs_val length]. rewrite IH, pow64_S. split.
  - apply limbs_ok_cons; [auto with limbs|done].
  - unfold not64. lia.
Qed.

(** Negating a vector in two's complement. *)
Lemma negate_limbs_spec ls :
  limbs_ok ls ->
  length (carry_loop (not64 <$> ls) 1) = length ls /\
  limbs_ok (carry_loop (not64 <$> ls) 1) /\
  limbs_val (carry_loop (not64 <$> ls) 1) = (- limbs_val ls) mod 2^((length ls)⋅64).
Proof.
  intros Hok. destruct (not64_val ls Hok) as [Hok1 Hv1].
  destruct (carry_loop_spec (not64 <$> ls) 1 Hok1) as (Hl & Hok2 & k & Hk & Hv); [lia|].
  rewrite length_fmap in *. rewrite Hv1 in Hv. split_and!; [done|done|].
  pose proof (limbs_val_bounds _ Hok2) as Hb. rewrite Hl in Hb.
  apply Z.mod_unique_pos with (k - 1); lia.
Qed.

Lemma twos_complement_spec a len :
  wf a ->
  length (twos_complement_limbs a len) = len /\ limbs_ok (twos_complement_limbs a len) /\
  limbs_val (twos_complement_limbs a len) = to_Z a mod 2^(len⋅64).
Proof.
  intros Hw. pose proof (wf_limbs_ok a Hw) as Hok. unfold twos_complement_limbs.
  set (out := take len (limbs a) ++ _).
  assert (length out = len /\ limbs_ok out /\ limbs_val out = mag a mod 2^(len⋅64)) as (Hl & Hoko & Hv).
  { unfold out. split_and!.
    - rewrite length_app, length_take, length_replicate. lia.
    - auto with limbs.
    - rewrite limbs_val_app, limbs_val_replicate. unfold mag. rewrite limbs_val_mod by done. lia. }
  rewrite to_Z_mag. destruct (negative a); [|done].
  destruct (negate_limbs_spec out Hoko) as (Hl' & Hok' & Hv'). rewrite Hl in *.
  split_and!; [done|done|]. rewrite Hv', Hv. rewrite <- Z.sub_0_l, Zminus_mod_idemp_r.
  by rewrite Z.sub_0_l.
Qed.

(** The signed reading of an [n]-bit pattern. *)
Definition sint (n z : Z) : Z := if z <? 2^(n - 1) then z else z - 2^n.

Lemma pow2_half n : 0 < n -> 2^n = 2 * 2^(n - 1).
Proof. intros. rewrite <- Z.pow_succ_r by lia. f_equal. lia. Qed.

Lemma sint_mod n z : 0 < n -> - 2^(n - 1) <= z < 2^(n - 1) -> sint n (z mod 2^n) = z.
Proof.
  intros Hn Hz. unfold sint. pose proof (pow2_half n Hn) as Hp.
  destruct (decide (0 <= z)).
  - rewrite Z.mod_small by lia. destruct (Z.ltb_spec z (2^(n - 1))); lia.
  - assert (z mod 2^n = z + 2^n) as ->.
    { symmetry. apply Z.mod_unique_pos with (-1); lia. }
    destruct (Z.ltb_spec (z + 2^n) (2^(n - 1))); lia.
Qed.

Lemma top_bit_spec ls x :
  limbs_ok ls -> last ls = Some x ->
  (x ≫ 63 =? 0) = (limbs_val ls <? 2^((length ls)⋅64 - 1)).
Proof.
  intros Hok E. pose proof (last_limb_ok _ _ Hok E) as Hx. rewrite (last_Some_snoc _ _ E) in *.
  set (l := removelast ls) in *. clearbody l. apply Forall_app in Hok as [Hok _].
  rewrite limbs_val_snoc, length_app. cbn [length]. unfold limb_ok in Hx.
  replace ((length l + 1)%nat⋅64 - 1) with ((length l)⋅64 + 63) by lia.
  rewrite Z.pow_add_r, Z.shiftr_div_pow2 by lia.
  pose proof (limbs_val_bounds l Hok). pose proof (pow64_pos (length l)).
  apply Bool.eq_iff_eq_true. rewrite Z.eqb_eq, Z.ltb_lt, Z.div_small_iff by lia. split.
  - intros [?|?]; [|lia]. nia.
  - intros Hlt. left. split; [lia|]. nia.
Qed.

Lemma from_twos_complement_spec ls :
  limbs_ok ls -> ls <> [] ->
  repr (from_twos_complement_limbs ls) (sint ((length ls)⋅64) (limbs_val ls)).
Proof.
  intros Hok Hne. unfold from_twos_complement_limbs, sint.
  destruct (last ls) as [x|] eqn:E; [|by apply last_None in E].
  rewrite (top_bit_spec _ _ Hok E).
  assert (length ls <> 0%nat) by (by destruct ls).
  pose proof (pow2_half ((length ls)⋅64) ltac:(lia)) as Hp.
  destruct (Z.ltb_spec (limbs_val ls) (2^((length ls)⋅64 - 1))) as [Hlt|Hge]; cbn [negb].
  - by apply (normalize_spec (mk false ls)).
  - destruct (negate_limbs_spec ls Hok) as (Hl & Hok' & Hv).
    pose proof (limbs_val_bounds ls Hok).
    assert ((- limbs_val ls) mod 2^((length ls)⋅64) = 2^((length ls)⋅64) - limbs_val ls) as Hm.
    { symmetry. apply Z.mod_unique_pos with (-1); lia. }
    replace (limbs_val ls - _) with (to_Z (mk true (carry_loop (not64 <$> ls) 1))).
    + by apply normalize_spec.
    + unfold to_Z. cbn [negative limbs]. lia.
Qed.

(** ** Bitwise operators *)

Lemma div_ceil_ge a b : 0 < b -> a <= b * div_ceil a b.
Proof.
  intros Hb. unfold div_ceil. pose proof (Z.div_mod a b ltac:(lia)).
  pose proof (Z.mod_pos_bound a b Hb). destruct (Z.eqb_spec (a mod b) 0); lia.
Qed.

Lemma to_Z_bits a n : wf a -> significant_bits a <= n -> - 2^n < to_Z a < 2^n.
Proof.
  intros Hw Hn. pose proof (significant_bits_nonneg a Hw).
  apply significant_bits_le_iff in Hn; [|done|lia]. rewrite mag_abs in Hn by done. lia.
Qed.

Lemma bitwise_repr op `{!BitOp op} a b :
  wf a -> wf b -> repr (bitwise a b op) (op (to_Z a) (to_Z b)).
Proof.
  intros Ha Hb. unfold bitwise. set (bits := Z.max _ _ + 2).
  set (len := Nat.max _ 1).
  assert (bits <= len⋅64) as Hlen.
  { pose proof (div_ceil_ge bits 64 ltac:(lia)). unfold len. lia. }
  assert (0 < len)%nat by (unfold len; lia).
  destruct (twos_complement_spec a len Ha) as (Hla & Hoka & Hva).
  destruct (twos_complement_spec b len Hb) as (Hlb & Hokb & Hvb).
  destruct (zip_with_bitop op _ _ (eq_trans Hla (eq_sym Hlb)) Hoka Hokb) as [Hok Hv].
  set (l := zip_with op _ _) in *.
  assert (length l = len) as Hl by (unfold l; rewrite length_zip_with; lia).
  destruct (from_twos_complement_spec l Hok) as [Hw Hz]; [intros ->; simpl in Hl; lia|].
  split; [done|]. rewrite Hz, Hl, Hv, Hva, Hvb, (bitop_mod op) by lia.
  pose proof (significant_bits_nonneg a Ha). pose proof (significant_bits_nonneg b Hb).
  apply sint_mod; [lia|]. apply bitop_signed_range; [done|lia|..].
  - pose proof (to_Z_bits a (len⋅64 - 1) Ha ltac:(unfold bits in *; lia)). lia.
  - pose proof (to_Z_bits b (len⋅64 - 1) Hb ltac:(unfold bits in *; lia)). lia.
Qed.

Lemma not_repr a : wf a -> repr (not a) (Z.lnot (to_Z a)).
Proof.
  intros Ha. unfold not. destruct (from_unsigned_repr 1 ltac:(lia)) as [H1 Hv1].
  destruct (add_repr a (from_unsigned 1) Ha H1) as [Hs Hvs].
  destruct (neg_repr _ Hs) as [Hw Hv]. split; [done|]. rewrite Hv, Hvs, Hv1.
  unfold Z.lnot. lia.
Qed.

(** ** Right shift *)

Section abs_shr.
Variables (ls : list Z) (k : nat) (s : Z).
Hypotheses (Hls : limbs_ok ls) (Hs : 0 <= s < 64) (Hk : (k < length ls)%nat).

(** The limbs that survive the shift by whole limbs. *)
Let L := drop k ls.

(** After [d] limbs: what is left of the value is the low [s] bits of the
    next source limb, still to be moved down. *)
Definition shr_inv (d : nat) (out : list Z) : Prop :=
  length out = (length ls - k)%nat /\ limbs_ok out /\
  (forall j, (d <= j < length out)%nat -> out !! j = Some 0) /\
  limbs_val out * 2^s + default 0 (L !! 0%nat) mod 2^s
    = limbs_val (take d L) + default 0 (L !! d) mod 2^s * 2^(d⋅64).

Lemma shr_inv_init : shr_inv 0 (replicate (length ls - k) 0).
Proof.
  split_and!.
  - apply length_replicate.
  - auto with limbs.
  - intros j Hj. rewrite length_replicate in Hj. apply lookup_replicate_2. lia.
  - rewrite limbs_val_replicate. simpl. lia.
Qed.

(** The two source limbs of one destination limb. *)
Lemma shr_columns x x' : limb_ok x -> limb_ok x' ->
  limb_ok (Z.lor (x ≫ s) (u64 (x' ≪ (64 - s)))) /\
  (0 < s -> Z.lor (x ≫ s) (u64 (x' ≪ (64 - s))) * 2^s + x mod 2^s = x + x' mod 2^s * 2^64).
Proof.
  intros Hx Hx'. unfold limb_ok in *. rewrite shl64, Z.shiftr_div_pow2 by lia.
  replace (64 - (64 - s)) with s by lia.
  assert (0 < 2^s) by (apply Z.pow_pos_nonneg; lia).
  assert (2^64 = 2^(64 - s) * 2^s) as H64 by (rewrite <- Z.pow_add_r by lia; f_equal; lia).
  assert (0 <= x / 2^s < 2^(64 - s)) as Hq.
  { split; [apply Z.div_pos; lia|]. apply Z.div_lt_upper_bound; lia. }
  pose proof (Z.mod_pos_bound x' (2^s) ltac:(lia)).
  rewrite lor_disjoint_add by lia. split.
  - rewrite H64. nia.
  - intros Hs0. rewrite H64. pose proof (Z.div_mod x (2^s) ltac:(lia)). lia.
Qed.

(** The quotient and remainder of a limb by the shift within a limb. *)
Lemma shr_limb x : limb_ok x -> limb_ok (x ≫ s) /\ x mod 2^s + (x ≫ s) * 2^s = x.
Proof.
  intros Hxok. assert (0 < 2^s) by (apply Z.pow_pos_nonneg; lia). unfold limb_ok in *.
  rewrite Z.shiftr_div_pow2 by lia. pose proof (Z.div_mod x (2^s) ltac:(lia)). split; [|lia].
  split; [apply Z.div_pos; lia|]. apply Z.div_lt_upper_bound; [lia|].
  eapply Z.lt_le_trans; [apply Hxok|]. rewrite <- (Z.mul_1_l (2^64)) at 1.
  apply Z.mul_le_mono_nonneg_r; lia.
Qed.

(** The second half of an iteration: the bits that come from the next limb. *)
Lemma shr_cell d out x :
  (d < length ls - k)%nat -> length out = (length ls - k)%nat -> ls !! (k + d)%nat = Some x ->
  let x' := default 0 (L !! S d) in
  exists v, (if negb (s =? 0) && (k + d + 1 <? length ls)%nat then
       x' ← get_idx ls (k + d + 1)%nat;
       y ← get_idx (<[d := x ≫ s]> out) d;
       set_idx (<[d := x ≫ s]> out) d (Z.lor y (u64 (x' ≪ (64 - s))))
     else Ret (<[d := x ≫ s]> out)) = Ret (<[d := v]> out) /\ limb_ok v /\
     v * 2^s + x mod 2^s = x + x' mod 2^s * 2^64.
Proof.
  intros Hd Hl Hx x'. pose proof (limbs_ok_lookup _ _ _ Hls Hx) as Hxok.
  assert (limb_ok x') as Hxok' by (apply limbs_ok_default, Forall_drop, Hls).
  destruct (shr_columns x x' Hxok Hxok') as [Hcok Hcol].
  destruct (shr_limb x Hxok) as [Hsok Hdm].
  destruct (Z.eqb_spec s 0) as [Hs0|Hs0]; cbn [negb andb].
  { exists (x ≫ s). split_and!; [done|apply Hsok|].
    rewrite Hs0 in Hdm |- *. change (2^0) with 1 in *. rewrite !Z.mod_1_r. rewrite Z.mod_1_r in Hdm. lia. }
  destruct (Nat.ltb_spec (k + d + 1) (length ls)) as [Hlt|Hge].
  - destruct (get_idx_lt ls (k + d + 1) Hlt) as (x1 & Hx1 & ->). cbn [mbind res_bind].
    rewrite (get_idx_Some _ _ (x ≫ s)) by (rewrite list_lookup_insert_eq by lia; done).
    cbn [mbind res_bind]. rewrite set_idx_lt by (rewrite length_insert; lia).
    rewrite list_insert_insert_eq.
    assert (x' = x1) as <-.
    { unfold x', L. rewrite lookup_drop. replace (k + S d)%nat with (k + d + 1)%nat by lia.
      by rewrite Hx1. }
    eexists. split_and!; [reflexivity|apply Hcok|]. apply Hcol. lia.
  - exists (x ≫ s). split_and!; [done|apply Hsok|].
    assert (x' = 0) as ->; [|rewrite Z.mod_0_l by (apply Z.pow_nonzero; lia); lia].
    unfold x', L. by rewrite lookup_ge_None_2 by (rewrite length_drop; lia).
Qed.

Lemma shr_inv_step d out :
  (d < length ls - k)%nat -> shr_inv d out ->
  exists out',
    (let i := (k + d)%nat in
     x ← get_idx ls i;
     y ← get_idx out d;
     out ← set_idx out d (Z.lor y (x ≫ s));
     if negb (s =? 0) && (i + 1 <? length ls)%nat then
       x' ← get_idx ls (i + 1)%nat;
       y ← get_idx out d;
       set_idx out d (Z.lor y (u64 (x' ≪ (64 - s))))
     else Ret out) = Ret out' /\ shr_inv (S d) out'.
Proof.
  intros Hd (Hl & Hok & Hz & Hv). cbn zeta.
  destruct (get_idx_lt ls (k + d)) as (x & Hx & ->); [lia|]. cbn [mbind res_bind].
  assert (out !! d = Some 0) as Hd0 by (apply Hz; lia).
  rewrite (get_idx_Some _ _ _ Hd0). cbn [mbind res_bind]. rewrite Z.lor_0_l.
  rewrite set_idx_lt by lia. cbn [mbind res_bind].
  assert (L !! d = Some x) as HLd by (unfold L; by rewrite lookup_drop).
  destruct (shr_cell d out x Hd) as (v & -> & Hvok & Hvv); [lia|done|].
  set (x' := default 0 (L !! S d)) in *.
  eexists. split; [reflexivity|]. split_and!.
  - by rewrite length_insert.
  - auto with limbs.
  - intros j Hj. rewrite length_insert in Hj. rewrite list_lookup_insert_ne by lia.
    apply Hz. lia.
  - rewrite (limbs_val_insert _ _ _ _ Hd0), limbs_val_take_S, pow64_S. fold x'.
    rewrite HLd in *. cbn [from_option id] in *.
    transitivity (limbs_val out * 2^s + default 0 (L !! 0%nat) mod 2^s
      + (v * 2^s) * 2^(d⋅64)); [ring|].
    rewrite Hv. replace (v * 2^s) with (x + x' mod 2^s * 2^64 - x mod 2^s) by lia. ring.
Qed.

Lemma shr_inv_final out :
  shr_inv (length ls - k) out -> limbs_val out = limbs_val ls / 2^(k⋅64 + s).
Proof.
  intros (Hl & Hok & _ & Hv). rewrite Z.pow_add_r, <- Z.div_div, limbs_val_div by (done || lia).
  fold L. assert (length L = (length ls - k)%nat) as HL by apply length_drop.
  rewrite take_ge, (lookup_ge_None_2 L (length ls - k)) in Hv by lia.
  assert (0 < 2^s) by (apply Z.pow_pos_nonneg; lia).
  cbn [from_option id] in Hv. rewrite Z.mod_0_l in Hv by lia.
  apply Z.div_unique_pos with (default 0 (L !! 0%nat) mod 2^s); [|lia].
  apply Z.mod_pos_bound. lia.
Qed.
End abs_shr.

Lemma abs_shr_repr a n : wf a -> 0 <= n -> computes (abs_shr a n) (mag a / 2^n).
Proof.
  intros Hw Hn. unfold abs_shr. pose proof (wf_limbs_ok a Hw) as Hok.
  pose proof (Z.mod_pos_bound n 64 ltac:(lia)) as Hs.
  set (k := Z.to_nat (n / 64)). set (s := n mod 64) in *.
  assert (k⋅64 + s = n) as Hks.
  { unfold k, s. rewrite Z2Nat.id by (apply Z.div_pos; lia). symmetry. apply Z.div_mod. lia. }
  destruct (Nat.leb_spec (length (limbs a)) k) as [Hle|Hlt].
  - exists ZERO. split; [done|]. rewrite Z.div_small; [apply repr_ZERO|].
    split; [by apply mag_nonneg|]. eapply Z.lt_le_trans; [apply limbs_val_bounds, Hok|].
    apply Z.pow_le_mono_r; lia.
  - destruct (for_rangeM_ind (shr_inv (limbs a) k s) (length (limbs a) - k)
      (fun dst out => let i := (k + dst)%nat in
       x ← get_idx (limbs a) i;
       y ← get_idx out dst;
       out ← set_idx out dst (Z.lor y (x ≫ s));
       if negb (s =? 0) && (i + 1 <? length (limbs a))%nat then
         x' ← get_idx (limbs a) (i + 1)%nat;
         y ← get_idx out dst;
         set_idx out dst (Z.lor y (u64 (x' ≪ (64 - s))))
       else Ret out) (replicate (length (limbs a) - k) 0)) as (out & Heq & Hinv).
    + by apply shr_inv_init.
    + intros. by apply shr_inv_step.
    + cbn zeta in Heq. rewrite Heq. cbn [mbind res_bind]. eexists. split; [reflexivity|].
      pose proof (shr_inv_final (limbs a) k s Hok Hs Hlt out Hinv) as Hv.
      rewrite Hks in Hv. fold (mag a) in Hv. rewrite <- Hv.
      apply (normalize_spec (mk false out)), Hinv.
Qed.

(** Rounding towards minus infinity on the negated magnitude. *)
Lemma div_neg_round m p : 0 < p -> - ((m + (p - 1)) / p) = (- m) / p.
Proof.
  intros Hp. pose proof (Z.div_mod (m + (p - 1)) p ltac:(lia)).
  pose proof (Z.mod_pos_bound (m + (p - 1)) p Hp).
  apply Z.div_unique_pos with (p - 1 - (m + (p - 1)) mod p); lia.
Qed.

Lemma shr_repr a n : wf a -> 0 <= n -> computes (shr a n) (to_Z a ≫ n).
Proof.
  intros Hw Hn. unfold shr. rewrite Z.shiftr_div_pow2 by done.
  assert (0 < 2^n) as Hp by (apply Z.pow_pos_nonneg; lia).
  destruct (negative a) eqn:E; cbn [negb].
  2: { rewrite to_Z_mag, E. by apply abs_shr_repr. }
  apply wf_negative_neg in E; [|done]. destruct (neg_repr a Hw) as [Hwn Hvn].
  assert (exists b, (if 0 <? n then
       m ← shl (from_unsigned 1) n; Ret (add (neg a) (sub m (from_unsigned 1)))
     else Ret (neg a)) = Ret b /\ repr b (- to_Z a + (2^n - 1))) as (b & Hb & [Hwb Hvb]).
  { destruct (Z.ltb_spec 0 n) as [H0|H0].
    - destruct (from_unsigned_repr 1 ltac:(lia)) as [H1 Hv1].
      destruct (abs_shl_repr (from_unsigned 1) n H1 Hn) as (m & Hm & [Hwm Hvm]).
      unfold shl. rewrite Hm. cbn [mbind res_bind].
      destruct (sub_repr m _ Hwm H1) as [Hws Hvs]. eexists. split; [reflexivity|].
      replace (- to_Z a + (2^n - 1)) with (to_Z (neg a) + to_Z (sub m (from_unsigned 1)))
        by (rewrite Hvn, Hvs, Hvm, Hv1; lia).
      by apply add_repr.
    - assert (n = 0) as -> by lia. exists (neg a). split; [done|]. split; [done|].
      change (2^0) with 1. lia. }
  cbn zeta. rewrite Hb. cbn [mbind res_bind].
  destruct (abs_shr_repr b n Hwb Hn) as (q & -> & [Hwq Hvq]). cbn [fmap res_fmap].
  destruct (neg_repr q Hwq) as [Hwf Hvf]. eexists. split; [reflexivity|]. split; [done|].
  rewrite Hvf, Hvq, mag_abs, Hvb, Z.abs_eq by (done || lia).
  rewrite div_neg_round by done. f_equal. lia.
Qed.

(** ** Range tests *)

Lemma fits_unsigned_spec a bits :
  wf a -> 0 <= bits -> fits_unsigned_bits a bits = true <-> 0 <= to_Z a < 2^bits.
Proof.
  intros Hw Hb. unfold fits_unsigned_bits.
  rewrite andb_true_iff, negb_true_iff, Z.leb_le, significant_bits_le_iff by done.
  rewrite negative_ltb, Z.ltb_ge, mag_abs by done. lia.
Qed.

Lemma existsb_nonzero ls :
  limbs_ok ls -> existsb (fun x => negb (x =? 0)) ls = negb (limbs_val ls =? 0).
Proof.
  induction 1 as [|x ls Hx Hok IH]; [done|]. cbn [existsb limbs_val]. rewrite IH.
  unfold limb_ok in Hx. pose proof (limbs_val_nonneg ls Hok).
  destruct (Z.eqb_spec x 0), (Z.eqb_spec (limbs_val ls) 0), (Z.eqb_spec (x + 2^64 * limbs_val ls) 0);
    simpl; try done; nia.
Qed.

Lemma abs_cmp_pow2_spec a bit :
  wf a -> 0 <= bit -> abs_cmp_pow2 a bit = Ret (mag a ?= 2^bit).
Proof.
  intros Hw Hbit. unfold abs_cmp_pow2. pose proof (wf_limbs_ok a Hw) as Hok.
  pose proof (Z.mod_pos_bound bit 64 ltac:(lia)) as Hb.
  set (k := Z.to_nat (bit / 64)). set (b := bit mod 64) in *.
  assert (bit = k⋅64 + b) as Hkb.
  { unfold k, b. rewrite Z2Nat.id by (apply Z.div_pos; lia). apply Z.div_mod. lia. }
  clearbody k b. subst bit. rewrite Z.pow_add_r by lia. pose proof (pow64_pos k) as Hp.
  assert (0 < 2^b < 2^64) as Hpb.
  { split; [apply Z.pow_pos_nonneg; lia|]. apply Z.pow_lt_mono_r; lia. }
  destruct (Nat.compare_spec (length (limbs a)) (S k)) as [Hl|Hl|Hl].
  - destruct (get_idx_lt (limbs a) k) as (x & Hx & ->); [lia|]. cbn [mbind res_bind].
    rewrite Z.shiftl_mul_pow2, Z.mul_1_l, u64_small by (unfold limb_ok; lia).
    assert (mag a = limbs_val (take k (limbs a)) + 2^(k⋅64) * x) as Hm.
    { unfold mag. rewrite (limbs_val_take_drop _ k) by lia.
      rewrite (limbs_val_drop _ _ _ Hx), (drop_ge _ (S k)) by lia. simpl. lia. }
    pose proof (limbs_val_bounds _ (Forall_take _ k _ Hok)) as Hlow.
    rewrite length_take, Nat.min_l in Hlow by lia. rewrite Hm.
    destruct (Z.compare_spec x (2^b)) as [Heq|Hlt|Hgt].
    + rewrite existsb_nonzero by (by apply Forall_take). rewrite Heq.
      destruct (Z.eqb_spec (limbs_val (take k (limbs a))) 0) as [H0|H0]; simpl; f_equal; symmetry.
      * apply Z.compare_eq_iff. lia.
      * apply Z.compare_gt_iff. lia.
    + f_equal. symmetry. apply Z.compare_lt_iff. nia.
    + f_equal. symmetry. apply Z.compare_gt_iff. nia.
  - f_equal. symmetry. apply Z.compare_lt_iff.
    pose proof (limbs_val_bounds _ Hok) as Hbd. unfold mag.
    assert (2^((length (limbs a))⋅64) <= 2^(k⋅64)) by (apply Z.pow_le_mono_r; lia). nia.
  - f_equal. symmetry. apply Z.compare_gt_iff. destruct Hw as (_ & Hla & _).
    apply last_nonzero_iff in Hla as [Hnil|Hla]; [rewrite Hnil in Hl; simpl in Hl; lia| |done].
    assert (2^((S k)⋅64) <= 2^((length (limbs a) - 1)%nat⋅64)) by (apply Z.pow_le_mono_r; lia).
    rewrite pow64_S in *. unfold mag. nia.
Qed.

Lemma fits_signed_spec a bits :
  wf a -> 0 < bits ->
  exists b, fits_signed_bits a bits = Ret b /\
    (b = true <-> - 2^(bits - 1) <= to_Z a < 2^(bits - 1)).
Proof.
  intros Hw Hb. unfold fits_signed_bits. destruct (Z.ltb_spec 0 bits); [|lia].
  cbn [assert_ mbind res_bind]. rewrite negative_ltb by done.
  assert (0 < 2^(bits - 1)) as Hp by (apply Z.pow_pos_nonneg; lia).
  destruct (Z.ltb_spec (to_Z a) 0).
  - rewrite abs_cmp_pow2_spec, mag_abs by (done || lia). cbn [mbind res_bind].
    eexists. split; [reflexivity|].
    destruct (Z.compare_spec (Z.abs (to_Z a)) (2^(bits - 1))); split; by (done || lia).
  - eexists. split; [reflexivity|]. rewrite Z.ltb_lt, <- Z.le_succ_l.
    rewrite <- (Z.add_1_r (significant_bits a)).
    assert (significant_bits a + 1 <= bits <-> significant_bits a <= bits - 1) as -> by lia.
    rewrite significant_bits_le_iff, mag_abs by (done || lia). lia.
Qed.

(** ** Conversion to [u64] *)

Lemma to_u64_spec a :
  wf a -> to_u64 a = if (0 <=? to_Z a) && (to_Z a <? 2^64) then Some (to_Z a) else None.
Proof.
  intros Hw. unfold to_u64. rewrite (negative_ltb a Hw). pose proof (mag_abs a Hw) as Hm. unfold mag in Hm.
  destruct (Z.ltb_spec (to_Z a) 0); [by rewrite (proj2 (Z.leb_gt _ _))|].
  rewrite (proj2 (Z.leb_le _ _)) by done. cbn [orb andb]. rewrite Z.abs_eq in Hm by done.
  pose proof Hw as (Hok & Hl & _). destruct (limbs a) as [|x [|y l]] eqn:E.
  - simpl in *. by rewrite <- Hm.
  - simpl in *. pose proof (Forall_inv Hok) as Hx. unfold limb_ok in Hx. rewrite Z.add_0_r in Hm.
    rewrite (proj2 (Z.ltb_lt _ _)) by lia. f_equal. lia.
  - destruct (last (x :: y :: l)) as [z|] eqn:Hz; [|by apply last_None in Hz].
    pose proof (last_limb_ok _ _ Hok Hz) as Hzok. unfold limb_ok in Hzok.
    assert (z <> 0) by congruence. pose proof (limbs_val_lower _ _ Hok Hz ltac:(done)) as [Hlow _].
    rewrite Hm in Hlow. cbn [length] in *. rewrite (proj2 (Z.ltb_lt 1 _)) by lia.
    assert (2^64 <= 2^((S (S (length l)) - 1)%nat⋅64)) by (apply Z.pow_le_mono_r; lia).
    rewrite (proj2 (Z.ltb_ge _ _)) by nia. done.
Qed.

End AnyintBits.
