(* ===== verification/AnyintSpec.v ===== *)
(** * Arbitrary-precision integers: the contract

    The properties of [src/int.rs] as its clients (constant folding and
    literal coercion in semantic analysis) rely on them, each with a witness
    at a concrete input.

    The module [AnyintText] has the conversions and texts. *)

From S2P Require Import Prelude Words Anyint AnyintArith AnyintDiv AnyintBits.

#[local] Open Scope Z_scope.

Module AnyintText.
Import Anyint AnyintArith AnyintDiv.

(** The number a digit string denotes, read from the most significant digit. *)
Fixpoint numeral (radix : Z) (digits : list Z) (acc : Z) : option Z :=
  match digits with
  | [] => Some acc
  | b :: digits =>
      match digit_of_byte b with
      | Separator => numeral radix digits acc
      | Not_a_digit => None
      | Digit d => if radix <=? d then None else numeral radix digits (acc * radix + d)
      end
  end.

Lemma digit_of_byte_range b d : digit_of_byte b = Digit d -> 0 <= d < 36.
Proof.
  unfold digit_of_byte. intros H.
  repeat match type of H with context [if ?c then _ else _] => destruct c eqn:?; simplify_eq end;
    lia.
Qed.

Lemma parse_radix_loop_spec radix digits a :
  2 <= radix <= 36 -> wf a -> negative a = false ->
  match numeral radix digits (to_Z a) with
  | Some z => exists r, parse_radix_loop radix digits a = Ret (Some r) /\ repr r z
  | None => parse_radix_loop radix digits a = Ret None
  end.
Proof.
  intros Hr. revert a. induction digits as [|b digits IH]; intros a Hw Hn; simpl.
  { exists a. split; [done|by split]. }
  destruct (digit_of_byte b) as [d| |] eqn:Ed; [|by apply IH|done].
  apply digit_of_byte_range in Ed. destruct (Z.leb_spec radix d); [done|].
  assert (limb_ok radix /\ limb_ok d) as [Hlr Hld] by (unfold limb_ok; lia).
  destruct (mul_small_repr a radix Hw Hlr) as [Hwm Hvm].
  assert (0 <= to_Z a) as Ha0.
  { rewrite to_Z_mag, Hn. by apply mag_nonneg. }
  assert (negative (mul_small_assign a radix) = false) as Hnm.
  { destruct (negative (mul_small_assign a radix)) eqn:E; [|done].
    apply wf_negative_neg in E; [nia|done]. }
  destruct (computes_nonneg_sign _ _ (add_small_repr _ d Hwm Hnm Hld))
    as (r & -> & [Hwr Hvr] & Hnr); [nia|].
  cbn [mbind res_bind]. specialize (IH r Hwr Hnr). rewrite Hvr, Hvm in IH. exact IH.
Qed.

(** ** Printing *)

Definition is_decimal (b : Z) : Prop := 48 <= b <= 57.

(** The value of decimal digits, least significant first. *)
Definition decimal_val (ds : list Z) : Z := foldr (fun b acc => (b - 48) + 10 * acc) 0 ds.

Lemma digit_of_decimal b : is_decimal b -> digit_of_byte b = Digit (b - 48).
Proof.
  intros Hb. unfold is_decimal, digit_of_byte in *.
  destruct (Z.leb_spec 48 b), (Z.leb_spec b 57); simpl; by (done || lia).
Qed.

Lemma numeral_app radix l1 l2 acc :
  numeral radix (l1 ++ l2) acc = (z ← numeral radix l1 acc; numeral radix l2 z).
Proof.
  revert acc. induction l1 as [|b l1 IH]; intros acc; simpl; [done|].
  destruct (digit_of_byte b) as [d| |]; [|done|done]. by destruct (radix <=? d).
Qed.

Lemma numeral_reverse ds :
  Forall is_decimal ds -> numeral 10 (reverse ds) 0 = Some (decimal_val ds).
Proof.
  induction 1 as [|b ds Hb Hds IH]; [done|].
  rewrite reverse_cons, numeral_app, IH. simpl. rewrite digit_of_decimal by done.
  unfold is_decimal in Hb. destruct (Z.leb_spec 10 (b - 48)); [lia|]. f_equal. lia.
Qed.

Lemma significant_bits_div10 n q :
  wf n -> wf q -> 0 < mag n -> mag q = mag n / 10 -> significant_bits q < significant_bits n.
Proof.
  intros Hn Hq Hpos Hm. pose proof (significant_bits_nonneg n Hn) as Hs.
  assert (mag n < 2^(significant_bits n)) as Hub by (apply significant_bits_le_iff; done).
  assert (significant_bits n <> 0) as Hs0 by (intros H0; rewrite H0 in Hub; simpl in Hub; lia).
  apply Z.lt_le_pred, significant_bits_le_iff; [done|lia|]. rewrite Hm.
  apply Z.div_lt_upper_bound; [lia|].
  replace (significant_bits n) with (Z.succ (Z.pred (significant_bits n))) in Hub by lia.
  rewrite Z.pow_succ_r in Hub by lia. lia.
Qed.

Lemma fmt_loop_spec fuel n digits :
  wf n -> negative n = false -> significant_bits n < Z.of_nat fuel ->
  exists ds, fmt_loop fuel n digits = Ret (digits ++ ds) /\
    Forall is_decimal ds /\ decimal_val ds = mag n.
Proof.
  revert n digits. induction fuel as [|fuel IH]; intros n digits Hw Hn Hf.
  { pose proof (significant_bits_nonneg n Hw). lia. }
  cbn [fmt_loop]. destruct (is_zero n) eqn:Ez.
  { exists []. rewrite app_nil_r. apply is_zero_spec in Ez; [|done].
    split_and!; [done|done|]. rewrite mag_abs, Ez by done. done. }
  assert (0 < mag n) as Hpos.
  { apply is_zero_false in Ez; [|done]. rewrite mag_abs by done. lia. }
  destruct (div_rem_small_spec n 10 Hw) as (q & -> & [Hwq Hvq]); [unfold limb_ok; lia|done|].
  cbn [mbind res_bind].
  assert (0 <= to_Z q) as Hq0 by (rewrite Hvq; apply Z.div_pos; lia).
  assert (mag q = mag n / 10) as Hmq by (rewrite mag_abs by done; lia).
  assert (negative q = false) as Hnq.
  { destruct (negative q) eqn:E; [|done]. apply wf_negative_neg in E; [lia|done]. }
  pose proof (significant_bits_div10 n q Hw Hwq Hpos Hmq).
  destruct (IH q (digits ++ [48 + mag n mod 10]) Hwq Hnq ltac:(lia)) as (ds & -> & Hds & Hv).
  exists ((48 + mag n mod 10) :: ds). split_and!.
  - by rewrite <- app_assoc.
  - constructor; [|done]. unfold is_decimal. pose proof (Z.mod_pos_bound (mag n) 10). lia.
  - unfold decimal_val in *. simpl. rewrite Hv, Hmq. pose proof (Z.div_mod (mag n) 10). lia.
Qed.

Lemma fmt_spec a :
  wf a ->
  exists ds, fmt a = Ret ((if negative a then [45] else []) ++ ds) /\
    ds <> [] /\ Forall is_decimal ds /\ numeral 10 ds 0 = Some (Z.abs (to_Z a)).
Proof.
  intros Hw. unfold fmt. destruct (is_zero a) eqn:Ez.
  { exists [48]. assert (negative a = false) as ->.
    { destruct Hw as (_ & _ & Hn). apply Hn. unfold is_zero in Ez. by destruct (limbs a). }
    apply is_zero_spec in Ez; [|done]. rewrite Ez.
    split_and!; [done|done| |done]. repeat constructor; lia. }
  destruct (fmt_loop_spec (S (Z.to_nat (significant_bits a))) (mk false (limbs a)) [])
    as (ds & Hf & Hds & Hv); [by apply wf_abs|done| |].
  { change (significant_bits (mk false (limbs a))) with (significant_bits a).
    pose proof (significant_bits_nonneg a Hw). lia. }
  rewrite Hf. cbn [mbind res_bind]. rewrite app_nil_l. exists (reverse ds).
  change (mag (mk false (limbs a))) with (mag a) in Hv.
  split_and!; [done| |by apply Forall_reverse|].
  - intros H0. apply (f_equal reverse) in H0. rewrite reverse_involutive in H0. subst ds.
    apply is_zero_false in Ez; [|done]. rewrite mag_abs in Hv by done. simpl in Hv. lia.
  - rewrite numeral_reverse, Hv, mag_abs by done. done.
Qed.

End AnyintText.

Module AnyintSpec.
Import Anyint AnyintArith AnyintDiv AnyintBits AnyintText.

(** Concrete numbers for the witnesses: [2^128] and [-97]. *)
Definition big : t := mk false [0; 0; 1].
Definition m97 : t := mk true [97].

Lemma wf_big : wf big.
Proof. split_and!; simpl; [|done|done]. repeat constructor; done. Qed.
Lemma wf_m97 : wf m97.
Proof. split_and!; simpl; [|done|done]. repeat constructor; done. Qed.

(** Addition, subtraction and negation of arbitrary-precision integers
    are exact and return normalised numbers, whatever the signs and lengths
    of the operands. *)
Theorem anyint_add_sub_neg_exact a b :
  wf a -> wf b ->
  (wf (add a b) /\ to_Z (add a b) = to_Z a + to_Z b) /\
  (wf (sub a b) /\ to_Z (sub a b) = to_Z a - to_Z b) /\
  (wf (neg a) /\ to_Z (neg a) = - to_Z a).
Proof.
  intros Ha Hb. split_and!; [apply add_repr|apply add_repr|apply sub_repr|apply sub_repr|
    apply neg_repr|apply neg_repr]; done.
Qed.

Lemma anyint_add_sub_neg_exact_witness :
  to_Z (add big m97) = 340282366920938463463374607431768211359.
Proof. rewrite (proj2 (proj1 (anyint_add_sub_neg_exact big m97 wf_big wf_m97))). reflexivity. Defined.

(** The schoolbook product never indexes out of bounds, its carry loop
    terminates, and it computes the exact product as a normalised number. *)
Theorem anyint_mul_exact a b :
  wf a -> wf b ->
  exists r, mul a b = Ret r /\ wf r /\ to_Z r = to_Z a * to_Z b.
Proof. exact (mul_repr a b). Qed.

Lemma anyint_mul_exact_witness :
  exists r, mul big m97 = Ret r /\ wf r /\ to_Z r = -33007389591331030955947336920881516511232.
Proof. exact (anyint_mul_exact big m97 wf_big wf_m97). Defined.

(** C30: [/] and [%] are the truncating quotient and remainder: they panic
    exactly on a zero divisor, and otherwise both division algorithms
    terminate with normalised results. *)
Theorem anyint_div_rem_truncates a b :
  wf a -> wf b ->
  if to_Z b =? 0 then div a b = panic /\ rem a b = panic
  else (exists q, div a b = Ret q /\ wf q /\ to_Z q = Z.quot (to_Z a) (to_Z b)) /\
       (exists r, rem a b = Ret r /\ wf r /\ to_Z r = Z.rem (to_Z a) (to_Z b)).
Proof.
  intros Ha Hb. destruct (Z.eqb_spec (to_Z b) 0) as [Hz|Hz].
  - by apply div_zero_panics.
  - split; [by apply div_repr|by apply rem_repr].
Qed.

Lemma anyint_div_rem_truncates_witness :
  exists q, div big m97 = Ret q /\ wf q /\ to_Z q = -3508065638360190344983243375585239293.
Proof. exact (proj1 (anyint_div_rem_truncates big m97 wf_big wf_m97)). Defined.

(** Comparison is the order of the integers, and, normal forms being
    unique, structural equality is equality of the integers. *)
Theorem anyint_order_and_equality a b :
  wf a -> wf b ->
  cmp a b = (to_Z a ?= to_Z b) /\ eq a b = (to_Z a =? to_Z b) /\
  (to_Z a = to_Z b -> a = b).
Proof. intros Ha Hb. split_and!; [by apply cmp_repr|by apply eq_spec|by apply to_Z_inj]. Qed.

Lemma anyint_order_and_equality_witness : cmp big m97 = Gt.
Proof. rewrite (proj1 (anyint_order_and_equality big m97 wf_big wf_m97)). reflexivity. Defined.

(** [&], [|], [^] and [!] agree with the infinite two's complement
    reading of the integers, negative operands included. *)
Theorem anyint_bitwise_twos_complement a b :
  wf a -> wf b ->
  (wf (bitand a b) /\ to_Z (bitand a b) = Z.land (to_Z a) (to_Z b)) /\
  (wf (bitor a b) /\ to_Z (bitor a b) = Z.lor (to_Z a) (to_Z b)) /\
  (wf (bitxor a b) /\ to_Z (bitxor a b) = Z.lxor (to_Z a) (to_Z b)) /\
  (wf (not a) /\ to_Z (not a) = Z.lnot (to_Z a)).
Proof.
  intros Ha Hb. split; [|split; [|split]].
  - exact (bitwise_repr Z.land a b Ha Hb).
  - exact (bitwise_repr Z.lor a b Ha Hb).
  - exact (bitwise_repr Z.lxor a b Ha Hb).
  - exact (not_repr a Ha).
Qed.

Lemma anyint_bitwise_twos_complement_witness :
  to_Z (bitand m97 big) = 340282366920938463463374607431768211456.
Proof.
  rewrite (proj2 (proj1 (anyint_bitwise_twos_complement m97 big wf_m97 wf_big))). reflexivity.
Defined.

(** The left shift multiplies by a power of two and the right shift is
    floor division by one, for negative numbers too. *)
Theorem anyint_shifts_exact a n :
  wf a -> 0 <= n ->
  (exists r, shl a n = Ret r /\ wf r /\ to_Z r = to_Z a * 2^n) /\
  (exists r, shr a n = Ret r /\ wf r /\ to_Z r = to_Z a / 2^n).
Proof.
  intros Ha Hn. split; [by apply abs_shl_repr|].
  rewrite <- Z.shiftr_div_pow2 by done. by apply shr_repr.
Qed.

Lemma anyint_shifts_exact_witness :
  exists r, shr m97 3 = Ret r /\ wf r /\ to_Z r = -13.
Proof. exact (proj2 (anyint_shifts_exact m97 3 wf_m97 ltac:(lia))). Defined.

(** [fits_unsigned_bits] and [fits_signed_bits] decide exactly the ranges
    of the [bits]-wide machine integers; the signed test panics only for a
    zero width. *)
Theorem anyint_fits_exact a bits :
  wf a -> 0 <= bits ->
  (fits_unsigned_bits a bits = true <-> 0 <= to_Z a < 2^bits) /\
  (if bits =? 0 then fits_signed_bits a bits = panic
   else exists b, fits_signed_bits a bits = Ret b /\
     (b = true <-> - 2^(bits - 1) <= to_Z a < 2^(bits - 1))).
Proof.
  intros Ha Hb. split; [by apply fits_unsigned_spec|].
  destruct (Z.eqb_spec bits 0) as [->|Hne]; [done|]. apply fits_signed_spec; [done|lia].
Qed.

Lemma anyint_fits_exact_witness :
  exists b, fits_signed_bits m97 8 = Ret b /\ (b = true <-> - 2^7 <= -97 < 2^7).
Proof. exact (proj2 (anyint_fits_exact m97 8 wf_m97 ltac:(lia))). Defined.

(** [parse_radix] panics exactly on a radix outside 2..=36; otherwise it
    returns the number the digit string denotes, skipping [_], and [None]
    exactly when some byte is not a digit of the radix. *)
Theorem anyint_parse_radix_correct radix digits :
  if (2 <=? radix) && (radix <=? 36) then
    match numeral radix digits 0 with
    | Some z => exists r, parse_radix radix digits = Ret (Some r) /\ wf r /\ to_Z r = z
    | None => parse_radix radix digits = Ret None
    end
  else parse_radix radix digits = panic.
Proof.
  unfold parse_radix. destruct (Z.leb_spec 2 radix), (Z.leb_spec radix 36); try done.
  exact (parse_radix_loop_spec radix digits ZERO ltac:(lia) wf_ZERO eq_refl).
Qed.

(** C31: printing terminates, prints a sign exactly for negative numbers, and
    parsing the printed digits gives the absolute value back. *)
Theorem anyint_print_parse_roundtrip a :
  wf a ->
  exists ds, fmt a = Ret ((if to_Z a <? 0 then [45] else []) ++ ds) /\ ds <> [] /\
    exists r, parse_radix 10 ds = Ret (Some r) /\ wf r /\ to_Z r = Z.abs (to_Z a).
Proof.
  intros Ha. destruct (fmt_spec a Ha) as (ds & Hf & Hne & _ & Hn). exists ds.
  rewrite <- negative_ltb by done. split_and!; [done|done|].
  pose proof (parse_radix_loop_spec 10 ds ZERO ltac:(lia) wf_ZERO eq_refl) as Hp.
  change (to_Z ZERO) with 0 in Hp. by rewrite Hn in Hp.
Qed.

Lemma anyint_print_parse_roundtrip_witness :
  exists ds, fmt m97 = Ret ([45] ++ ds) /\ ds <> [] /\
    exists r, parse_radix 10 ds = Ret (Some r) /\ wf r /\ to_Z r = 97.
Proof. exact (anyint_print_parse_roundtrip m97 wf_m97). Defined.

(** The [From] conversions of every primitive width are exact and
    normalised, [i128::MIN] included. *)
Theorem anyint_from_primitives_exact v :
  (0 <= v < 2^64 -> wf (from_unsigned v) /\ to_Z (from_unsigned v) = v) /\
  (0 <= v < 2^128 -> wf (from_u128 v) /\ to_Z (from_u128 v) = v) /\
  (- 2^127 <= v < 2^127 -> wf (from_signed v) /\ to_Z (from_signed v) = v).
Proof.
  split_and!; [apply from_unsigned_repr|apply from_u128_repr|apply from_signed_repr].
Qed.

Lemma anyint_from_primitives_exact_witness : to_Z (from_signed (- 2^127)) = - 2^127.
Proof.
  exact (proj2 (proj2 (proj2 (anyint_from_primitives_exact (- 2^127))) ltac:(lia))).
Defined.

End AnyintSpec.
