(* ===== verification/Span.v ===== *)
(** * Source positions ([src/common/span.rs], [src/common/non_max_u32.rs])

    The 32-bit indices with a niche that positions and identifiers are; source regions, their union and the line/column computation used by
    diagnostics. *)

From S2P Require Import Prelude Words Bytes.

#[local] Open Scope Z_scope.

(** The integer type that reserves [u32::MAX]. *)
Module NonMaxU32.

(** A [NonMaxU32] is its [u32]. *)
Definition wf (n : Z) : Prop := 0 <= n <= 0xfffffffe.

(** [assume!(index <= 0xfffffffe)] is an [assert_unchecked]. *)
Definition from_u32 (index : Z) : res Z := if index <=? 0xfffffffe then Ret index else ub.
Definition as_usize (self : Z) : nat := Z.to_nat self.
Definition as_u32 (self : Z) : Z := self.
Definition default : res Z := from_u32 0.
Definition from_usize (value : nat) : res Z := from_u32 (u32 (Z.of_nat value)).

Definition add_assign (self rhs : Z) : res Z :=
  if self + rhs <? 2^32 - 1 then Ret (self + rhs) else ub.

(** The subtraction is a checked [u32] one. *)
Definition sub (self rhs : Z) : res Z :=
  if self <? rhs then panic else from_u32 (self - rhs).

Lemma from_u32_ok n : wf n -> from_u32 n = Ret n.
Proof. unfold wf, from_u32. intros. destruct (Z.leb_spec n 0xfffffffe); [done|lia]. Qed.

Lemma from_usize_ok n : Z.of_nat n <= 0xfffffffe -> from_usize n = Ret (Z.of_nat n).
Proof.
  intros. unfold from_usize, u32. rewrite Z.mod_small by lia. apply from_u32_ok. unfold wf. lia.
Qed.

Lemma from_usize_wf n i : from_usize n = Ret i -> wf i.
Proof.
  unfold from_usize, from_u32, wf, u32. pose proof (Z.mod_pos_bound (Z.of_nat n) (2^32)).
  destruct (Z.leb_spec (Z.of_nat n mod 2 ^ 32) 0xfffffffe); intros [= <-]; lia.
Qed.

End NonMaxU32.

Module Span.

Record Span : Set := mk { start_ : Z; end_ : Z }.

Definition wf (s : Span) : Prop :=
  NonMaxU32.wf (start_ s) /\ NonMaxU32.wf (end_ s) /\ start_ s <= end_ s.

Definition new (start end_ : nat) : res Span :=
  s ← NonMaxU32.from_usize start;
  e ← NonMaxU32.from_usize end_;
  Ret (mk s e).

Definition start (self : Span) : nat := NonMaxU32.as_usize (start_ self).
Definition stop (self : Span) : nat := NonMaxU32.as_usize (end_ self).
Definition len (self : Span) : res nat := usize_sub (stop self) (start self).

Section LineCol.
Context `{!Memx}.

(** The [loop] of [line_col], from line [line] that starts at [slice_offset]. *)
Fixpoint line_col_loop (fuel : nat) (bytes : list Z) (offset slice_offset line : nat) : res (nat * nat) :=
  match fuel with
  | O => diverge
  | S fuel =>
      let start := slice_offset in
      s ← slice bytes slice_offset offset;
      match memchr s (byte "010") with
      | Some pos => line_col_loop fuel bytes offset (slice_offset + (pos + 1)) (line + 1)
      | None => col ← usize_sub offset start; Ret (line, col)
      end
  end.

Definition line_col (bytes : list Z) (offset : nat) : res (nat * nat) :=
  line_col_loop (S offset) bytes offset 0 1.
Definition start_line_col (self : Span) (bytes : list Z) : res (nat * nat) := line_col bytes (start self).
Definition end_line_col (self : Span) (bytes : list Z) : res (nat * nat) := line_col bytes (stop self).
End LineCol.

Definition default : res Span := s ← NonMaxU32.default; e ← NonMaxU32.default; Ret (mk s e).

(** [Index<Span>]. *)
Definition index {A} (v : list A) (span : Span) : res (list A) := slice v (start span) (stop span).

(** [From<(Span, Span)>]: the smallest region that covers both. *)
Definition merge (lhs rhs : Span) : Span :=
  mk (if start_ rhs <? start_ lhs then start_ rhs else start_ lhs)
     (if end_ lhs >? end_ rhs then end_ lhs else end_ rhs).

Definition eqb (a b : Span) : bool := (start_ a =? start_ b) && (end_ a =? end_ b).

#[export] Instance Span_eq_dec : EqDecision Span.
Proof. solve_decision. Defined.

Lemma new_ok a b :
  (a <= b)%nat -> Z.of_nat b <= 0xfffffffe -> new a b = Ret (mk (Z.of_nat a) (Z.of_nat b)).
Proof. intros. unfold new. rewrite !NonMaxU32.from_usize_ok by lia. done. Qed.

Lemma merge_min_max a b : merge a b = mk (Z.min (start_ a) (start_ b)) (Z.max (end_ a) (end_ b)).
Proof.
  unfold merge. f_equal.
  - destruct (Z.ltb_spec (start_ b) (start_ a)); lia.
  - rewrite Z.gtb_ltb. destruct (Z.ltb_spec (end_ b) (end_ a)); lia.
Qed.

(** ** Line and column, stated on the text before the offset *)

Definition newline : Z := byte "010".

Fixpoint count_newlines (s : list Z) : nat :=
  match s with
  | [] => O
  | b :: s => (if b =? newline then 1 else 0) + count_newlines s
  end.

(** The text after the last newline. *)
Fixpoint last_line (s : list Z) : list Z :=
  match s with
  | [] => []
  | b :: s' => if (count_newlines s =? 0)%nat then s else last_line s'
  end.

Lemma no_newlines s : count_newlines s = 0%nat -> last_line s = s.
Proof. intros H. destruct s as [|b s]; [done|]. cbn [last_line]. by rewrite H. Qed.

Lemma count_newlines_skip s1 s2 :
  count_newlines (s1 ++ newline :: s2) =
    (count_newlines s1 + S (count_newlines s2))%nat.
Proof. induction s1 as [|b s1 IH]; [done|]. cbn [app count_newlines]. rewrite IH. lia. Qed.

Lemma last_line_skip s1 s2 : last_line (s1 ++ newline :: s2) = last_line s2.
Proof.
  induction s1 as [|b s1 IH]; [done|]. cbn [app last_line].
  change (count_newlines (b :: s1 ++ newline :: s2)) with
    (count_newlines ((b :: s1) ++ newline :: s2)).
  rewrite count_newlines_skip. destruct (_ =? 0)%nat eqn:E; [apply Nat.eqb_eq in E; lia|].
  exact IH.
Qed.

Lemma count_newlines_none s :
  Forall (fun b => (b =? newline) = false) s -> count_newlines s = 0%nat.
Proof. induction 1 as [|b s Hb Hs IH]; simpl; [done|]. by rewrite Hb. Qed.

Lemma line_col_loop_spec `{!Memx, !MemxLaws} bytes offset fuel so line :
  (so <= offset <= length bytes)%nat -> (offset - so < fuel)%nat ->
  line_col_loop fuel bytes offset so line =
    Ret ((line + count_newlines (drop so (take offset bytes)))%nat,
         length (last_line (drop so (take offset bytes)))).
Proof.
  revert so line. induction fuel as [|fuel IH]; intros so line Hso Hf; [lia|].
  cbn [line_col_loop]. rewrite slice_ok by lia. simpl. rewrite take_drop_commute.
  replace (so + (offset - so))%nat with offset by lia.
  set (s := drop so (take offset bytes)).
  assert (length s = offset - so)%nat as Hl.
  { subst s. rewrite length_drop, length_take. lia. }
  rewrite memchr_first. change (byte "010") with newline.
  destruct (position _ s) as [pos|] eqn:E.
  - pose proof (position_lt _ _ _ E) as Hlt.
    apply position_split in E as (b & s2 & Hs & Hn & Hnone). apply Z.eqb_eq in Hn as ->.
    rewrite IH by lia.
    replace (drop (so + (pos + 1)) (take offset bytes)) with s2.
    2: { replace (drop (so + (pos + 1)) _) with (drop (S pos) s) by (subst s; rewrite drop_drop; f_equal; lia).
         rewrite Hs. rewrite drop_app_ge by (rewrite length_take; lia). rewrite length_take.
         by replace (S pos - pos `min` length s)%nat with 1%nat by lia. }
    rewrite Hs, count_newlines_skip, last_line_skip, (count_newlines_none _ Hnone).
    f_equal. f_equal. lia.
  - apply position_None, count_newlines_none in E. rewrite usize_sub_ok by lia. simpl.
    rewrite E, no_newlines by done. f_equal. f_equal; lia.
Qed.

Lemma line_col_spec `{!Memx, !MemxLaws} bytes offset :
  (offset <= length bytes)%nat ->
  line_col bytes offset =
    Ret ((1 + count_newlines (take offset bytes))%nat, length (last_line (take offset bytes))).
Proof. intros. unfold line_col. by rewrite line_col_loop_spec, drop_0 by lia. Qed.

(** [merge] computes the least upper bound of two regions for inclusion. *)
Definition covers (outer inner : Span) : Prop :=
  start_ outer <= start_ inner /\ end_ inner <= end_ outer.

(** [From<(Span, Span)>] returns the smallest region that covers both
    arguments, whatever their order, and it is a valid region. *)
Theorem span_merge_least_cover a b :
  wf a -> wf b ->
  wf (merge a b) /\
  (forall c, covers c (merge a b) <-> covers c a /\ covers c b) /\
  merge a b = merge b a.
Proof.
  unfold wf, NonMaxU32.wf, covers. intros Ha Hb. rewrite !merge_min_max. simpl.
  split; [lia|]. split; [intros c; lia|]. f_equal; lia.
Qed.

Lemma span_merge_least_cover_witness :
  covers (merge (mk 5 9) (mk 2 4)) (mk 2 4).
Proof.
  apply (proj1 (proj2 (span_merge_least_cover (mk 5 9) (mk 2 4)
    ltac:(unfold wf, NonMaxU32.wf; simpl; lia) ltac:(unfold wf, NonMaxU32.wf; simpl; lia)))
    (merge (mk 5 9) (mk 2 4))). unfold covers. lia.
Defined.

(** The line/column loop terminates for every offset of the text; the line
    is one more than the number of newlines before the offset, and the column
    the number of bytes since the last of them. *)
Theorem span_line_col_correct (M : Memx) (L : MemxLaws) self bytes :
  wf self -> (stop self <= length bytes)%nat ->
  start_line_col self bytes =
    Ret ((1 + count_newlines (take (start self) bytes))%nat,
         length (last_line (take (start self) bytes))) /\
  end_line_col self bytes =
    Ret ((1 + count_newlines (take (stop self) bytes))%nat,
         length (last_line (take (stop self) bytes))).
Proof.
  unfold wf, NonMaxU32.wf. intros (H1 & H2 & H3) Hb. split; apply line_col_spec; [|done].
  unfold start, stop, NonMaxU32.as_usize in *. lia.
Qed.

Lemma span_line_col_correct_witness :
  @end_line_col memx_scalar (mk 1 6) (bytes_of "ab" ++ [10] ++ bytes_of "cdef") = Ret (2%nat, 3%nat).
Proof.
  exact (proj2 (span_line_col_correct memx_scalar memx_scalar_laws (mk 1 6)
    (bytes_of "ab" ++ [10] ++ bytes_of "cdef") ltac:(unfold wf, NonMaxU32.wf; simpl; lia)
    ltac:(cbv; lia))).
Defined.

End Span.
