(* ===== verification/VirtDynArray.v ===== *)
(** * The concurrent arena ([src/common/containers/virtual_dyn_array.rs])

    [VirtMemArenaDynArray]: an append-only array in reserved virtual memory that
    many threads push to without a lock.  A thread that executes [push] is the
    small state machine [pc]; [pc_step] performs one atomic access of the code
    (one load, store, read-modify-write, system call or memory write) on the
    shared state, and [step] interleaves the threads in any order (sequentially
    consistent interleavings).  [push] is the same state machine run alone. *)

From S2P Require Import Prelude Words.
From stdpp Require Import gmap.

#[local] Open Scope Z_scope.

Module VirtDynArray.

(** [std::mem::size_of::<T>()]. *)
Class SizeOf (T : Type) := size_of : Z.

Section Arena.
Context {T : Type} `{SizeOf T}.

(** The reserved region is seen as its slots ([memory]) and the element ranges
    made accessible so far ([committed_ranges], first element and count). *)
Record Arena := mk {
  reserved_len : Z;
  len_ : Z;
  initialized : Z;
  committed_elements : Z;
  committed_ranges : list (Z * Z);
  memory : gmap Z T;
}.

Definition COMMIT_GRANULARITY_IN_BYTES : Z := 65536.
Definition COMMIT_GRANULARITY_IN_ELEMENTS : Z :=
  (COMMIT_GRANULARITY_IN_BYTES + size_of - 1) / size_of.

(** The reservation of no byte fails ([virtmem_reserve] asserts it). *)
Definition with_capacity (capacity : Z) : res Arena :=
  assert_ (0 <? size_of) ;;
  assert_ (capacity * size_of <? 2^64) ;;
  assert_ (0 <? capacity * size_of) ;;
  Ret (mk capacity 0 0 0 [] ∅).

(** An access to a page that is not committed faults. *)
Definition accessible (self : Arena) (i : Z) : bool :=
  existsb (fun '(a, n) => (a <=? i) && (i <? a + n)) (committed_ranges self).

(** [virtmem_commit] of [n] elements from [a]. *)
Definition virtmem_commit (self : Arena) (a n : Z) : res Arena :=
  assert_ (0 <? n * size_of) ;;
  Ret (mk (reserved_len self) (len_ self) (initialized self) (committed_elements self)
          ((a, n) :: committed_ranges self) (memory self)).

Definition set_len (self : Arena) n :=
  mk (reserved_len self) n (initialized self) (committed_elements self) (committed_ranges self) (memory self).
Definition set_initialized (self : Arena) n :=
  mk (reserved_len self) (len_ self) n (committed_elements self) (committed_ranges self) (memory self).
Definition set_committed (self : Arena) n :=
  mk (reserved_len self) (len_ self) (initialized self) n (committed_ranges self) (memory self).

(** [elem_ptr(index).write(value)]. *)
Definition write (self : Arena) (i : Z) (v : T) : res Arena :=
  if accessible self i then
    Ret (mk (reserved_len self) (len_ self) (initialized self) (committed_elements self)
            (committed_ranges self) (<[i := v]> (memory self)))
  else ub.

(** Where a thread is inside [push(value)]; [Fetched], [Load2], [Commit] and
    [Store] are inside [ensure_committed_for_index]. *)
Inductive pc : Type :=
  | Start (value : T)
  | Fetched (value : T) (index : Z)
  | Load2 (value : T) (index : Z)
  | Commit (value : T) (index current_committed new_committed : Z)
  | Store (value : T) (index new_committed : Z)
  | Write (value : T) (index : Z)
  | Cas (value : T) (index : Z)
  | Done (value : T) (index : Z)
  | Failed (value : T) (index : Z) (f : fault).

(** The end of the granule of [index], at most the capacity; the product is a
    [checked_mul]. *)
Definition granule_end (self : Arena) (index : Z) : res Z :=
  let n := (index / COMMIT_GRANULARITY_IN_ELEMENTS + 1) * COMMIT_GRANULARITY_IN_ELEMENTS in
  assert_ (n <? 2^64) ;;
  Ret (Z.min n (reserved_len self)).

(** A thread whose step panics or faults is [Failed]. *)
Definition or_failed (v : T) (i : Z) (self : Arena) (r : res (Arena * pc)) : Arena * pc :=
  match r with Ret x => x | Fault f => (self, Failed v i f) end.

Definition pc_step (self : Arena) (p : pc) : Arena * pc :=
  match p with
  | Start v =>
      let index := len_ self in
      let self := set_len self (len_ self + 1) in
      (self, if index <? reserved_len self then Fetched v index else Failed v index Panic)
  | Fetched v i => (self, if i <? committed_elements self then Write v i else Load2 v i)
  | Load2 v i =>
      or_failed v i self (
        new_committed ← granule_end self i;
        let current_committed := committed_elements self in
        assert_ (current_committed <=? new_committed) ;;
        Ret (self, Commit v i current_committed new_committed))
  | Commit v i current_committed new_committed =>
      or_failed v i self (
        self ← virtmem_commit self current_committed (new_committed - current_committed);
        Ret (self, Store v i new_committed))
  | Store v i new_committed => (set_committed self new_committed, Write v i)
  | Write v i => or_failed v i self (self ← write self i v; Ret (self, Cas v i))
  | Cas v i =>
      if initialized self =? i then (set_initialized self (i + 1), Done v i) else (self, p)
  | Done _ _ | Failed _ _ _ => (self, p)
  end.

(** [get], [get_unchecked] (the debug assertion is the safety condition) and
    [len]. *)
Definition get (self : Arena) (index : Z) : res T :=
  if index <? initialized self then
    match memory self !! index with
    | Some v => if accessible self index then Ret v else ub
    | None => ub
    end
  else panic.

Definition get_unchecked (self : Arena) (index : Z) : res T :=
  match memory self !! index with
  | Some v => if (index <? initialized self) && accessible self index then Ret v else ub
  | None => ub
  end.

Definition len (self : Arena) : Z := initialized self.

(** [replace]: the value found there, and the arena with the new one. *)
Definition replace (self : Arena) (index : Z) (value : T) : res (T * Arena) :=
  old ← get self index;
  self ← write self index value;
  Ret (old, self).

(** ** Interleavings *)

Record Config := cfg { shared : Arena; threads : list pc }.

(** Thread [t] performs its next access. *)
Definition run_thread (c : Config) (t : nat) : Config :=
  match threads c !! t with
  | Some p =>
      let '(s, p') := pc_step (shared c) p in
      cfg s (<[t := p']> (threads c))
  | None => c
  end.

Inductive step (c : Config) : Config -> Prop :=
  | step_thread t : step c (run_thread c t).

Definition start (capacity : Z) (values : list T) : res Config :=
  self ← with_capacity capacity;
  Ret (cfg self (Start <$> values)).

(** A schedule is the list of the threads that take the successive steps. *)
Definition run (c : Config) (schedule : list nat) : Config := foldl run_thread c schedule.

(** ** A thread alone *)

(** A push that no other thread interrupts takes at most seven accesses; the
    compare-and-swap loop, the only one, spins only on other threads. *)
Fixpoint run_alone (fuel : nat) (self : Arena) (p : pc) : res (Z * Arena) :=
  match p with
  | Done _ i => Ret (i, self)
  | Failed _ _ f => Fault f
  | _ =>
      match fuel with
      | O => diverge
      | S fuel => let '(self, p) := pc_step self p in run_alone fuel self p
      end
  end.

Definition push (self : Arena) (value : T) : res (Z * Arena) := run_alone 7 self (Start value).

End Arena.
Arguments Arena : clear implicits.
Arguments pc : clear implicits.
Arguments Config : clear implicits.

End VirtDynArray.
