(* ===== verification/VirtDynArrayInv.v ===== *)
(** * The arena's invariant

    The invariant of the concurrent arena, one step at a time: what a single
    access preserves for the shared state and its own thread ([pc_step_ok]),
    what it leaves alone for the others ([frame]), and the two put together
    ([run_thread_inv]). *)

From S2P Require Import Prelude Words VirtDynArray.
From stdpp Require Import gmap.

#[local] Open Scope Z_scope.

Module VirtDynArrayInv.
Import VirtDynArray.

Section Inv.
Context {T : Type} `{SizeOf T}.
Implicit Types (s : Arena T) (p : pc T) (c : Config T).

(** The slot a thread has reserved. *)
Definition idx_of p : option Z :=
  match p with
  | Start _ => None
  | Fetched _ i | Load2 _ i | Commit _ i _ _ | Store _ i _ | Write _ i | Cas _ i | Done _ i
  | Failed _ i _ => Some i
  end.

Definition prefix_accessible s (n : Z) : Prop := forall j, 0 <= j < n -> accessible s j = true.

Record shared_ok s : Prop := {
  ok_len : initialized s <= len_ s;
  ok_init : 0 <= initialized s <= reserved_len s;
  ok_committed : 0 <= committed_elements s /\ prefix_accessible s (committed_elements s);
  ok_slots : forall j, 0 <= j < initialized s ->
    accessible s j = true /\ is_Some (memory s !! j);
}.

(** A reserved slot not yet published. *)
Definition pending s (i : Z) : Prop := initialized s <= i < len_ s /\ i < reserved_len s.

Definition pc_ok s p : Prop :=
  match p with
  | Start _ => True
  | Fetched _ i | Load2 _ i => pending s i
  | Commit _ i cur new => pending s i /\ i < new /\ 0 <= cur <= new /\ prefix_accessible s cur
  | Store _ i new => pending s i /\ i < new /\ prefix_accessible s new
  | Write _ i => pending s i /\ accessible s i = true
  | Cas v i => pending s i /\ accessible s i = true /\ memory s !! i = Some v
  | Done v i => 0 <= i < initialized s /\ memory s !! i = Some v
  | Failed _ i f => initialized s <= i < len_ s /\ f = Panic
  end.

(** What the step of a thread that owns slot [j] may change. *)
Record frame (j : option Z) s s' : Prop := {
  fr_cap : reserved_len s' = reserved_len s;
  fr_len : len_ s <= len_ s';
  fr_init : initialized s' = initialized s \/ (j = Some (initialized s) /\ initialized s' = initialized s + 1);
  fr_acc : forall k, accessible s k = true -> accessible s' k = true;
  fr_mem : forall k, j <> Some k -> memory s' !! k = memory s !! k;
}.

Lemma frame_refl j s : frame j s s.
Proof. split; auto; lia. Qed.

(** The pages of a prefix, after a commit of what follows it. *)
Lemma commit_prefix s cur new s' :
  prefix_accessible s cur -> virtmem_commit s cur (new - cur) = Ret s' -> prefix_accessible s' new.
Proof.
  unfold virtmem_commit, prefix_accessible, accessible. intros Hp.
  destruct (0 <? _); simpl; [|done]. intros [= <-] j Hj. simpl.
  destruct (Z.ltb_spec j cur).
  - rewrite Hp by lia. apply orb_true_r.
  - apply orb_true_iff. left. lia.
Qed.

Lemma virtmem_commit_frame s a n s' j : virtmem_commit s a n = Ret s' -> frame j s s'.
Proof.
  unfold virtmem_commit. destruct (0 <? _); simpl; [|done]. intros [= <-].
  split; simpl; auto; try lia. intros k Hk. unfold accessible in *; simpl.
  by rewrite Hk, orb_true_r.
Qed.

Lemma granule_end_gt s i n :
  0 < size_of -> 0 <= i < reserved_len s -> granule_end s i = Ret n -> i < n <= reserved_len s.
Proof.
  unfold granule_end. intros Hs Hi. destruct (_ <? 2 ^ 64); simpl; [|done]. intros [= <-].
  set (g := COMMIT_GRANULARITY_IN_ELEMENTS).
  assert (0 < g).
  { subst g. unfold COMMIT_GRANULARITY_IN_ELEMENTS, COMMIT_GRANULARITY_IN_BYTES.
    apply Z.div_str_pos. lia. }
  pose proof (Z.mul_succ_div_gt i g). lia.
Qed.

(** Invariants a frame keeps. *)
Lemma frame_prefix j s s' n : frame j s s' -> prefix_accessible s n -> prefix_accessible s' n.
Proof. intros Hf Hp k Hk. apply (fr_acc _ _ _ Hf), Hp, Hk. Qed.

Lemma frame_pending j s s' i :
  frame j s s' -> j <> Some i -> pending s i -> pending s' i.
Proof.
  intros [Hc Hl Hi _ _] Hj [? ?]. split; [|lia]. split; [|lia].
  destruct Hi as [->|[-> Hi]]; [lia|]. enough (i <> initialized s) by lia. congruence.
Qed.

Lemma frame_pc_ok j s s' p :
  frame j s s' -> (forall i, idx_of p = Some i -> j <> Some i) -> pc_ok s p -> pc_ok s' p.
Proof.
  intros Hf Hj. destruct p; simpl in *; try specialize (Hj index eq_refl);
    intros; destruct_and?; repeat split;
    try (rewrite (fr_mem _ _ _ Hf) by done);
    eauto using frame_pending, frame_prefix, fr_acc.
  all: pose proof (fr_len _ _ _ Hf); pose proof (fr_cap _ _ _ Hf);
    destruct (fr_init _ _ _ Hf) as [Hi|[Hij Hi]]; unfold pending in *; try lia.
  all: enough (index <> initialized s) by lia; congruence.
Qed.

(** ** One access *)

Ltac same := split_and!; [done|done|apply frame_refl|done|done].

Lemma start_ok s v s' p' :
  shared_ok s -> pc_step s (Start v) = (s', p') ->
  shared_ok s' /\ pc_ok s' p' /\ frame None s s' /\
  idx_of p' = Some (len_ s) /\ len_ s' = len_ s + 1.
Proof.
  intros [Hl Hi Hc Hs] [= <- <-]. split_and!.
  - split; simpl; [lia|done|done|done].
  - destruct (Z.ltb_spec (len_ s) (reserved_len s)); simpl; unfold pending; simpl; split_and!; (done || lia).
  - split; simpl; auto; lia.
  - by destruct (_ <? _).
  - done.
Qed.

Lemma write_ok s v i s' :
  shared_ok s -> pending s i -> write s i v = Ret s' ->
  shared_ok s' /\ frame (Some i) s s' /\ memory s' !! i = Some v.
Proof.
  unfold write, pending. intros [Hl Hi Hc Hs] Hp. destruct (accessible s i) eqn:Ha; [|done].
  intros [= <-]. split_and!.
  - split; simpl; [done|done|done|]. intros j Hj. unfold accessible in *. simpl.
    rewrite lookup_insert_ne by lia. by apply Hs.
  - split; simpl; auto; try lia. intros k Hk. apply lookup_insert_ne. congruence.
  - apply lookup_insert_eq.
Qed.

(** The step that commits memory. *)
Lemma commit_step_ok s v i cur new s' p' :
  shared_ok s -> pc_ok s (Commit v i cur new) -> pc_step s (Commit v i cur new) = (s', p') ->
  shared_ok s' /\ pc_ok s' p' /\ frame (Some i) s s' /\ idx_of p' = Some i /\ len_ s' = len_ s.
Proof.
  intros Hok Hp. pose proof (ok_init _ Hok) as Hini. unfold pc_step.
  destruct (virtmem_commit s _ _) as [s1|f] eqn:Hc; simpl; intros [= <- <-].
  - destruct Hp as (Hp & Hn & Hcur & Hpre).
    pose proof (virtmem_commit_frame _ _ _ _ None Hc) as Hf.
    assert (len_ s1 = len_ s /\ initialized s1 = initialized s /\ memory s1 = memory s
            /\ committed_elements s1 = committed_elements s) as (El & Ei & Em & Ec).
    { unfold virtmem_commit in Hc. destruct (0 <? _); simpl in Hc; simplify_eq. done. }
    split_and!.
    + destruct Hok as [Hl Hi [Hc0 Hc1] Hs]. split; rewrite ?El, ?Ei, ?Em, ?Ec, ?(fr_cap _ _ _ Hf);
        [done|done|split; [done|by eapply frame_prefix]|].
      intros j Hj. destruct (Hs j Hj). split; [by apply (fr_acc _ _ _ Hf)|done].
    + split_and!; [by eapply frame_pending|done|by eapply commit_prefix].
    + eapply virtmem_commit_frame, Hc.
    + done.
    + done.
  - unfold virtmem_commit in Hc. destruct (0 <? _); simpl in Hc; simplify_eq.
    split_and!; [done| |apply frame_refl|done|done].
    destruct Hp as [Hp _]. unfold pending in Hp. simpl. split; [lia|done].
Qed.

(** A thread that holds slot [i] steps: the shared state and the thread stay
    well formed, the slot stays its own, and the frame is kept. *)
Lemma pc_step_ok s p i s' p' :
  0 < size_of -> shared_ok s -> pc_ok s p -> idx_of p = Some i -> pc_step s p = (s', p') ->
  shared_ok s' /\ pc_ok s' p' /\ frame (Some i) s s' /\ idx_of p' = Some i /\ len_ s' = len_ s.
Proof.
  intros Hsz Hok Hp Hidx. pose proof (ok_init _ Hok) as Hini.
  destruct p; simpl in Hidx; simplify_eq; simpl in Hp; unfold pc_step.
  - (* Fetched *) intros [= <- <-]. destruct (Z.ltb_spec i (committed_elements s)); [|same].
    split_and!; [done| |apply frame_refl|done|done]. split; [done|].
    apply (ok_committed _ Hok). unfold pending in Hp. lia.
  - (* Load2 *) destruct (granule_end s i) as [n|f] eqn:Hg; simpl.
    2:{ intros [= <- <-]. unfold granule_end in Hg. destruct (_ <? 2 ^ 64); simpl in Hg; [done|].
        injection Hg as <-. split_and!; [done| |apply frame_refl|done|done].
        unfold pending in Hp. simpl. split; [lia|done]. }
    apply granule_end_gt in Hg; [|done|unfold pending in Hp; lia].
    destruct (ok_committed _ Hok) as [? ?].
    destruct (Z.leb_spec (committed_elements s) n); intros [= <- <-];
      (split_and!; [done| |apply frame_refl|done|done]); simpl; unfold pending in *;
      split_and!; auto; lia.
  - (* Commit *) by apply commit_step_ok.
  - (* Store *) intros [= <- <-]. destruct Hp as (Hp & Hn & Hpre). unfold pending in Hp.
    split_and!; [|split; [done|apply Hpre; lia]|split; simpl; auto; lia|done|done].
    destruct Hok as [Hl Hi Hc Hs]. split; simpl; [done|done|split; [lia|done]|done].
  - (* Write *) destruct Hp as [Hp Ha].
    destruct (write s i value) as [s1|] eqn:Hw; [|unfold write in Hw; by rewrite Ha in Hw].
    simpl. intros [= <- <-]. pose proof Hw as Hw'.
    apply write_ok in Hw as (Hs1 & Hf & Hm); [|done..].
    unfold write in Hw'. rewrite Ha in Hw'. injection Hw' as <-. done.
  - (* Cas *) destruct Hp as (Hp & Ha & Hm). unfold pending in Hp.
    destruct (Z.eqb_spec (initialized s) i) as [Ei|]; intros [= <- <-]; [|same].
    split_and!; [| |split; simpl; auto; [lia|right; rewrite Ei; split; [done|lia]]|done|done].
    + destruct Hok as [Hl Hi Hc Hs]. split; simpl; [lia|lia|done|].
      intros j Hj. destruct (decide (j = i)) as [->|]; [by rewrite Hm|apply Hs; lia].
    + simpl. split; [lia|done].
  - intros [= <- <-]. same.
  - intros [= <- <-]. same.
Qed.

(** ** The interleaved system *)

Record inv c : Prop := {
  inv_shared : shared_ok (shared c);
  inv_threads : forall t p, threads c !! t = Some p -> pc_ok (shared c) p;
  inv_distinct : forall t1 t2 p1 p2 i,
    threads c !! t1 = Some p1 -> threads c !! t2 = Some p2 ->
    idx_of p1 = Some i -> idx_of p2 = Some i -> t1 = t2;
  inv_owned : forall i, 0 <= i < len_ (shared c) ->
    exists t p, threads c !! t = Some p /\ idx_of p = Some i;
}.

Lemma pc_ok_lt s p i : shared_ok s -> pc_ok s p -> idx_of p = Some i -> 0 <= i < len_ s.
Proof.
  intros [Hl Hi _ _]. destruct p; simpl; unfold pending; intros; simplify_eq; lia.
Qed.

(** The step of a thread, whichever it is. *)
Lemma thread_step_ok s p s' p' :
  0 < size_of -> shared_ok s -> pc_ok s p -> pc_step s p = (s', p') ->
  shared_ok s' /\ pc_ok s' p' /\ frame (idx_of p) s s' /\
  (idx_of p' = idx_of p /\ len_ s' = len_ s \/
   idx_of p = None /\ idx_of p' = Some (len_ s) /\ len_ s' = len_ s + 1).
Proof.
  intros Hsz Hs Hp Hst. destruct (idx_of p) as [i|] eqn:Hi.
  - eapply pc_step_ok in Hst as (? & ? & ? & ? & ?); eauto 10.
  - destruct p; try done. apply start_ok in Hst as (? & ? & ? & ? & ?); eauto 10.
Qed.

Lemma run_thread_inv c t : 0 < size_of -> inv c -> inv (run_thread c t).
Proof.
  intros Hsz Hinv. unfold run_thread. destruct (threads c !! t) as [p|] eqn:Ht; [|done].
  destruct Hinv as [Hs Hth Hd Ho]. destruct (pc_step (shared c) p) as [s' p'] eqn:Hst.
  pose proof (lookup_lt_Some _ _ _ Ht) as Hlt.
  destruct (thread_step_ok _ _ _ _ Hsz Hs (Hth _ _ Ht) Hst) as (Hs' & Hp' & Hf & Hi).
  assert (Hidx : forall u q i, u <> t -> threads c !! u = Some q -> idx_of q = Some i ->
            idx_of p' <> Some i /\ idx_of p <> Some i).
  { intros u q i Hu Hq Hqi. split; intros Heq.
    - destruct Hi as [[Hi _]|(_ & Hi & _)]; rewrite Hi in Heq.
      + apply Hu. by eapply Hd.
      + injection Heq as <-. pose proof (pc_ok_lt _ _ _ Hs (Hth _ _ Hq) Hqi). lia.
    - apply Hu. by eapply Hd. }
  split; simpl.
  - done.
  - intros u q Hq. destruct (decide (u = t)) as [->|Hu].
    + rewrite list_lookup_insert_eq in Hq by done. by injection Hq as <-.
    + rewrite list_lookup_insert_ne in Hq by done.
      eapply frame_pc_ok; [done| |by eapply Hth]. intros i Hqi. by eapply Hidx.
  - intros t1 t2 p1 p2 i H1 H2 Hi1 Hi2.
    destruct (decide (t1 = t)) as [->|Hn1], (decide (t2 = t)) as [->|Hn2]; [done| | |].
    + rewrite list_lookup_insert_eq in H1 by done. rewrite list_lookup_insert_ne in H2 by done.
      injection H1 as <-. by destruct (Hidx _ _ _ Hn2 H2 Hi2).
    + rewrite list_lookup_insert_eq in H2 by done. rewrite list_lookup_insert_ne in H1 by done.
      injection H2 as <-. by destruct (Hidx _ _ _ Hn1 H1 Hi1).
    + rewrite list_lookup_insert_ne in H1, H2 by done. by eapply Hd.
  - intros i Hlen.
    assert (Hown : 0 <= i < len_ (shared c) \/ idx_of p' = Some i).
    { destruct Hi as [[_ El]|(_ & Hi & El)]; rewrite El in Hlen; [by left|].
      destruct (decide (i = len_ (shared c))) as [->|]; [by right|left; lia]. }
    destruct Hown as [Hold|Hnew].
    + destruct (Ho i Hold) as (u & q & Hq & Hqi). destruct (decide (u = t)) as [->|Hu].
      * exists t, p'. rewrite list_lookup_insert_eq by done. split; [done|].
        simplify_eq. destruct Hi as [[-> _]|(Hnone & _)]; [done|congruence].
      * exists u, q. by rewrite list_lookup_insert_ne.
    + exists t, p'. by rewrite list_lookup_insert_eq.
Qed.

Lemma step_inv c c' : 0 < size_of -> inv c -> step c c' -> inv c'.
Proof. intros ? ? [t]. by apply run_thread_inv. Qed.

Lemma with_capacity_ok capacity s :
  with_capacity capacity = Ret s ->
  0 < size_of /\ shared_ok s /\ len_ s = 0 /\ initialized s = 0 /\ reserved_len s = capacity
  /\ memory s = ∅ /\ 0 < capacity.
Proof.
  unfold with_capacity. destruct (Z.ltb_spec 0 size_of); simpl; [|done].
  destruct (_ <? 2 ^ 64); simpl; [|done]. destruct (Z.ltb_spec 0 (capacity * size_of)); simpl; [|done].
  intros [= <-]. assert (0 < capacity) by nia. split_and!; try done.
  split; simpl; try lia. split; [lia|]. intros j Hj. lia.
Qed.

Lemma start_inv capacity vs c : start capacity vs = Ret c -> 0 < size_of /\ inv c.
Proof.
  unfold start. destruct (with_capacity capacity) as [s|] eqn:Hc; simpl; [|done]. intros [= <-].
  apply with_capacity_ok in Hc as (Hsz & Hs & Hl & _). split; [done|].
  split; simpl; [done|..].
  - intros t p. rewrite list_lookup_fmap. by intros (v & _ & ->)%fmap_Some.
  - intros t1 t2 p1 p2 i. rewrite !list_lookup_fmap.
    by intros (v & _ & ->)%fmap_Some _ ? _.
  - intros i Hi. lia.
Qed.

Lemma reachable_inv capacity vs c c' :
  start capacity vs = Ret c -> rtc step c c' -> 0 < size_of /\ inv c'.
Proof.
  intros [Hsz Hinv]%start_inv Hr. split; [done|]. revert Hinv.
  induction Hr; [done|]. intros. eauto using step_inv.
Qed.

(** ** What readers see *)

Lemma get_published s i :
  shared_ok s -> 0 <= i < initialized s ->
  exists v, memory s !! i = Some v /\ get s i = Ret v /\ get_unchecked s i = Ret v.
Proof.
  intros Hs Hi. destruct (ok_slots _ Hs i Hi) as [Ha [v Hv]]. exists v. split; [done|].
  unfold get, get_unchecked. rewrite Hv, Ha. destruct (Z.ltb_spec i (initialized s)); [done|lia].
Qed.

(** A published slot is left alone by every step. *)
Lemma published_stable c t i v :
  0 < size_of -> inv c -> 0 <= i < initialized (shared c) -> memory (shared c) !! i = Some v ->
  i < initialized (shared (run_thread c t)) /\ memory (shared (run_thread c t)) !! i = Some v.
Proof.
  intros Hsz Hinv Hi Hm. unfold run_thread. destruct (threads c !! t) as [p|] eqn:Ht; [|split; [lia|done]].
  destruct (pc_step (shared c) p) as [s' p'] eqn:Hst. simpl.
  pose proof (inv_threads _ Hinv _ _ Ht) as Hp.
  destruct (thread_step_ok _ _ _ _ Hsz (inv_shared _ Hinv) Hp Hst) as (_ & _ & Hf & _).
  destruct (decide (idx_of p = Some i)) as [Hpi|Hpi].
  - (* the owner of a published slot is done *)
    destruct p; simpl in Hpi, Hp; simplify_eq; unfold pending in Hp; try lia.
    simpl in Hst. simplify_eq. split; [lia|done].
  - rewrite (fr_mem _ _ _ Hf) by done. split; [|done].
    destruct (fr_init _ _ _ Hf) as [->|[_ ->]]; lia.
Qed.

End Inv.
End VirtDynArrayInv.
