(* ===== verification/VirtDynArraySpec.v ===== *)
(** * What the arena promises

    The interleaving theorems of the concurrent arena (what a completed push
    guarantees, stability, progress, the two ways it goes wrong), and its
    refinement: a push that runs alone appends to a list. *)

From S2P Require Import Prelude Words VirtDynArray VirtDynArrayInv.
From stdpp Require Import gmap.

#[local] Open Scope Z_scope.

Module VirtDynArraySpec.
Import VirtDynArray VirtDynArrayInv.

Section Spec.
Context {T : Type} `{SizeOf T}.
Implicit Types (s : Arena T) (p : pc T) (c : Config T).

(** ** Progress *)

(** The accesses a thread has left, its compare-and-swap loop counted once. *)
Definition remaining p : nat :=
  match p with
  | Start _ => 7 | Fetched _ _ => 6 | Load2 _ _ => 5 | Commit _ _ _ _ => 4 | Store _ _ _ => 3
  | Write _ _ => 2 | Cas _ _ => 1 | Done _ _ | Failed _ _ _ => 0
  end.

Definition is_done p : bool := match p with Done _ _ => true | _ => false end.
Definition is_failed p : bool := match p with Failed _ _ _ => true | _ => false end.

Definition total c : nat := sum_list_with remaining (threads c).

Lemma step_remaining s p s' p' :
  pc_step s p = (s', p') -> remaining p <> 0%nat ->
  (forall v i, p = Cas v i -> initialized s = i) -> (remaining p' < remaining p)%nat.
Proof.
  intros Hst Hr Hc. destruct p; simpl in Hst, Hr; try done.
  - injection Hst as <- <-. destruct (_ <? _); simpl; lia.
  - injection Hst as <- <-. destruct (_ <? _); simpl; lia.
  - destruct (granule_end s index); simpl in Hst; [|simplify_eq; simpl; lia].
    destruct (_ <=? _); simpl in Hst; simplify_eq; simpl; lia.
  - destruct (virtmem_commit s _ _); simpl in Hst; simplify_eq; simpl; lia.
  - injection Hst as <- <-. simpl. lia.
  - destruct (write s index value); simpl in Hst; simplify_eq; simpl; lia.
  - rewrite (Hc _ _ eq_refl), Z.eqb_refl in Hst. simplify_eq. simpl. lia.
Qed.

Lemma sum_insert (l : list (pc T)) t p p' :
  l !! t = Some p -> (remaining p' < remaining p)%nat ->
  (sum_list_with remaining (<[t := p']> l) < sum_list_with remaining l)%nat.
Proof.
  revert t. induction l as [|q l IH]; intros [|t]; simpl; try done.
  - intros [= ->] ?. lia.
  - intros Ht Hlt. specialize (IH _ Ht Hlt). lia.
Qed.

Lemma run_thread_total c t p :
  threads c !! t = Some p -> remaining p <> 0%nat ->
  (forall v i, p = Cas v i -> initialized (shared c) = i) ->
  (total (run_thread c t) < total c)%nat.
Proof.
  intros Ht Hr Hc. unfold run_thread, total. rewrite Ht.
  destruct (pc_step (shared c) p) as [s' p'] eqn:Hst. simpl.
  eapply sum_insert; [done|]. by eapply step_remaining.
Qed.

(** When no thread has failed, a thread that is not done, or the one it waits
    for, can take a step that brings the system closer to the end. *)
Lemma can_step c t p :
  inv c -> Forall (fun q => is_failed q = false) (threads c) ->
  threads c !! t = Some p -> is_done p = false ->
  exists u, (total (run_thread c u) < total c)%nat.
Proof.
  intros Hinv Hnf Ht Hd. pose proof (inv_threads _ Hinv _ _ Ht) as Hp.
  pose proof (proj1 (Forall_lookup _ _) Hnf) as Hnf'. pose proof (Hnf' _ _ Ht) as Hfp.
  assert (Hr : remaining p <> 0%nat) by (destruct p; done).
  assert ((exists v i, p = Cas v i) \/ (forall v i, p <> Cas v i)) as [(v & i & ->)|Hnc]
    by (destruct p; eauto).
  2:{ exists t. eapply run_thread_total; [done|done|]. intros v i Hcas. by destruct (Hnc v i). }
  destruct Hp as [[Hi _] _]. pose proof (ok_init _ (inv_shared _ Hinv)).
  destruct (inv_owned _ Hinv (initialized (shared c))) as (u & q & Hu & Hq); [lia|].
  pose proof (inv_threads _ Hinv _ _ Hu) as Hqok. exists u.
  pose proof (Hnf' _ _ Hu) as Hfq.
  destruct q; simpl in *; simplify_eq; eapply run_thread_total; eauto; simpl; try done; try lia.
  intros ? ? [= -> <-]. done.
Qed.

(** ** A push that runs alone *)

(** No push is under way and the arena holds the elements of [l]. *)
Record repr s (l : list T) : Prop := {
  repr_size : 0 < size_of;
  repr_ok : shared_ok s;
  repr_len : len_ s = Z.of_nat (length l);
  repr_init : initialized s = Z.of_nat (length l);
  repr_slots : forall k, (k < length l)%nat -> memory s !! Z.of_nat k = l !! k;
  repr_cap : reserved_len s + COMMIT_GRANULARITY_IN_BYTES <= 2^64;
}.

Lemma granule_end_ok s i :
  0 < size_of -> 0 <= i < reserved_len s ->
  reserved_len s + COMMIT_GRANULARITY_IN_BYTES <= 2^64 ->
  exists n, granule_end s i = Ret n /\ i < n.
Proof.
  intros Hs Hi Hc. assert (Hg : exists n, granule_end s i = Ret n).
  2:{ destruct Hg as [n Hg]. exists n. split; [done|]. by eapply granule_end_gt in Hg as [? _]. }
  unfold granule_end. set (g := COMMIT_GRANULARITY_IN_ELEMENTS).
  assert (0 < g <= COMMIT_GRANULARITY_IN_BYTES).
  { subst g. unfold COMMIT_GRANULARITY_IN_ELEMENTS, COMMIT_GRANULARITY_IN_BYTES. split.
    - apply Z.div_str_pos. lia.
    - apply Z.div_le_upper_bound; nia. }
  pose proof (Z.mul_div_le i g). destruct (Z.ltb_spec ((i / g + 1) * g) (2 ^ 64)); simpl; [eauto|nia].
Qed.

Lemma run_alone_step n s p s' p' :
  remaining p <> 0%nat -> pc_step s p = (s', p') -> run_alone (S n) s p = run_alone n s' p'.
Proof. intros Hr Hst. destruct p; try done; cbn [run_alone]; by rewrite Hst. Qed.

Lemma run_alone_done n s v i : run_alone n s (Done v i) = Ret (i, s).
Proof. by destruct n. Qed.

(** Two steps of the owner of the slot about to be published. *)
Lemma frame_trans i s s1 s2 :
  frame (Some i) s s1 -> initialized s1 = initialized s -> frame (Some i) s1 s2 -> frame (Some i) s s2.
Proof.
  intros [H1 H2 H3 H4 H5] Hi [G1 G2 G3 G4 G5]. rewrite Hi in G3.
  split; [congruence|lia|done|auto|]. intros k Hk. by rewrite G5, H5.
Qed.

(** [s'] is [s] after the value of slot [i] was published. *)
Definition published (i : Z) (v : T) s s' : Prop :=
  shared_ok s' /\ frame (Some i) s s' /\ initialized s' = i + 1 /\ len_ s' = len_ s /\
  memory s' !! i = Some v.

Lemma run_alone_write n s v i :
  0 < size_of -> shared_ok s -> pending s i -> initialized s = i -> accessible s i = true ->
  exists s', run_alone (S (S n)) s (Write v i) = Ret (i, s') /\ published i v s s'.
Proof.
  intros Hsz Hok Hp Hi Ha.
  assert (exists s1, write s i v = Ret s1) as [s1 Hw] by (unfold write; rewrite Ha; eauto).
  destruct (write_ok _ _ _ _ Hok Hp Hw) as (Hok1 & Hf1 & Hm1).
  assert (initialized s1 = i /\ len_ s1 = len_ s) as [Hi1 Hl1].
  { unfold write in Hw. rewrite Ha in Hw. by simplify_eq. }
  rewrite (run_alone_step _ _ (Write v i) s1 (Cas v i)); [|done|simpl; by rewrite Hw].
  rewrite (run_alone_step _ _ (Cas v i) (set_initialized s1 (i + 1)) (Done v i));
    [|done|simpl; by rewrite Hi1, Z.eqb_refl].
  rewrite run_alone_done. eexists. split; [done|].
  destruct (pc_step_ok s1 (Cas v i) i (set_initialized s1 (i + 1)) (Done v i))
    as (Hok2 & Hp2 & Hf2 & _ & Hl2); try done.
  { simpl. split_and!; [|by apply (fr_acc _ _ _ Hf1)|done].
    pose proof (fr_cap _ _ _ Hf1). unfold pending in *. lia. }
  { simpl. by rewrite Hi1, Z.eqb_refl. }
  split_and!; [done|eapply frame_trans; [done|congruence|done]|done|done|apply Hp2].
Qed.

(** From the reservation of the slot on, with or without a commit. *)
Lemma run_alone_commit n s v i :
  0 < size_of -> shared_ok s -> pending s i -> initialized s = i -> committed_elements s <= i ->
  reserved_len s + COMMIT_GRANULARITY_IN_BYTES <= 2^64 ->
  exists s', run_alone (5 + n) s (Load2 v i) = Ret (i, s') /\ published i v s s'.
Proof.
  intros Hsz Hok Hp Hi Hge Hcap. pose proof (ok_init _ Hok) as Hini.
  destruct (granule_end_ok s i) as (e & Hg & He); [done|unfold pending in Hp; lia|done|].
  destruct (ok_committed _ Hok) as [Hc0 Hc1].
  destruct (virtmem_commit s (committed_elements s) (e - committed_elements s)) as [s1|] eqn:Hc.
  2:{ unfold virtmem_commit in Hc. destruct (Z.ltb_spec 0 ((e - committed_elements s) * size_of)); [done|nia]. }
  assert (initialized s1 = initialized s) as Hi1.
  { unfold virtmem_commit in Hc. destruct (0 <? _); simpl in Hc; by simplify_eq. }
  assert (Hcm : pc_step s (Commit v i (committed_elements s) e) = (s1, Store v i e)) by (simpl; by rewrite Hc).
  cbn [Nat.add]. rewrite (run_alone_step _ s (Load2 v i) s (Commit v i (committed_elements s) e)); [|done|].
  2:{ simpl. rewrite Hg. simpl. destruct (Z.leb_spec (committed_elements s) e); [done|lia]. }
  rewrite (run_alone_step _ _ (Commit v i (committed_elements s) e) s1 (Store v i e)) by done.
  rewrite (run_alone_step _ s1 (Store v i e) (set_committed s1 e) (Write v i)) by done.
  assert (Hpc : pc_ok s (Commit v i (committed_elements s) e)) by (simpl; split_and!; (done || lia)).
  destruct (pc_step_ok _ _ i _ _ Hsz Hok Hpc eq_refl Hcm)
    as (Hok1 & Hp1 & Hf1 & _ & Hl1).
  destruct (pc_step_ok s1 (Store v i e) i (set_committed s1 e) (Write v i))
    as (Hok2 & [Hp2 Ha2] & Hf2 & _ & Hl2); try done.
  destruct (run_alone_write n _ v i Hsz Hok2 Hp2) as (s' & -> & Hok' & Hf' & Hi' & Hl' & Hm'); [simpl; congruence|done|].
  exists s'. split; [done|]. split_and!; [done| |done|congruence|done].
  eapply frame_trans; [exact Hf1|done|]. eapply frame_trans; [exact Hf2|done|done].
Qed.

Lemma run_alone_fetched s v i :
  0 < size_of -> shared_ok s -> pending s i -> initialized s = i ->
  reserved_len s + COMMIT_GRANULARITY_IN_BYTES <= 2^64 ->
  exists s', run_alone 6 s (Fetched v i) = Ret (i, s') /\ published i v s s'.
Proof.
  intros Hsz Hok Hp Hi Hcap.
  destruct (Z.ltb_spec i (committed_elements s)) as [Hlt|Hge].
  - rewrite (run_alone_step _ s (Fetched v i) s (Write v i)); [|done|].
    2:{ simpl. by rewrite (proj2 (Z.ltb_lt _ _) Hlt). }
    apply run_alone_write; auto. apply (ok_committed _ Hok).
    pose proof (ok_init _ Hok). unfold pending in Hp. lia.
  - rewrite (run_alone_step _ s (Fetched v i) s (Load2 v i)); [|done|].
    2:{ simpl. by rewrite (proj2 (Z.ltb_ge _ _) Hge). }
    by apply (run_alone_commit 0).
Qed.

Lemma push_room s l v :
  repr s l -> Z.of_nat (length l) < reserved_len s ->
  exists s', push s v = Ret (Z.of_nat (length l), s') /\ repr s' (l ++ [v]) /\
    reserved_len s' = reserved_len s.
Proof.
  intros [Hsz Hok Hl Hi Hm Hc] Hroom. unfold push.
  assert (Hst : pc_step s (Start v) = (set_len s (len_ s + 1), Fetched v (Z.of_nat (length l)))).
  { simpl. rewrite Hl. destruct (Z.ltb_spec (Z.of_nat (length l)) (reserved_len s)); [done|lia]. }
  rewrite (run_alone_step _ _ (Start v) _ _ ltac:(done) Hst).
  destruct (start_ok _ _ _ _ Hok Hst) as (Hok0 & _ & Hf0 & _ & Hl0).
  destruct (run_alone_fetched (set_len s (len_ s + 1)) v (Z.of_nat (length l)))
    as (s' & -> & Hok' & Hf & Hi' & Hl' & Hm'); simpl; try done; try (unfold pending; simpl; lia).
  exists s'. split; [done|]. pose proof (fr_cap _ _ _ Hf) as Hcap. simpl in Hcap, Hl'.
  split; [|done]. split; try done; try (rewrite length_app; simpl; lia); [|lia].
  intros k Hk. rewrite length_app in Hk. simpl in Hk. destruct (decide (k = length l)) as [->|].
  - by rewrite list_lookup_middle.
  - rewrite lookup_app_l, <- Hm by lia. rewrite (fr_mem _ _ _ Hf); [done|]. intros [= ?]. lia.
Qed.

Lemma push_full s l v :
  repr s l -> reserved_len s <= Z.of_nat (length l) -> push s v = Fault Panic.
Proof.
  intros [Hsz Hok Hl Hi Hm Hc] Hfull. unfold push.
  rewrite (run_alone_step 6 s (Start v) (set_len s (len_ s + 1)) (Failed v (len_ s) Panic)); [done|done|].
  simpl. by rewrite (proj2 (Z.ltb_ge _ _)) by lia.
Qed.

Lemma repr_get s l k v :
  repr s l -> l !! k = Some v -> get s (Z.of_nat k) = Ret v /\ get_unchecked s (Z.of_nat k) = Ret v.
Proof.
  intros [Hsz Hok Hl Hi Hm Hc] Hk. pose proof (lookup_lt_Some _ _ _ Hk) as Hlt.
  destruct (get_published s (Z.of_nat k) Hok) as (w & Hw & Hg & Hu); [lia|].
  rewrite Hm in Hw by done. rewrite Hk in Hw. by injection Hw as <-.
Qed.

(** A store through a reference to a published element. *)
Lemma repr_write s l k v :
  repr s l -> (k < length l)%nat ->
  exists s', write s (Z.of_nat k) v = Ret s' /\ repr s' (<[k := v]> l) /\
    reserved_len s' = reserved_len s.
Proof.
  intros [Hsz Hok Hl Hi Hm Hc] Hk.
  destruct (ok_slots _ Hok (Z.of_nat k)) as [Ha _]; [lia|]. unfold write. rewrite Ha.
  eexists. split; [done|]. split; [|done]. split; simpl; try rewrite length_insert; try done.
  - destruct Hok as [H1 H2 H3 H4]. split; simpl; [done|done|done|].
    intros j Hj. destruct (H4 j Hj) as [Ha' Hs']. split; [done|].
    destruct (decide (j = Z.of_nat k)) as [->|]; [by rewrite lookup_insert_eq|].
    by rewrite lookup_insert_ne.
  - intros j Hj. destruct (decide (j = k)) as [->|].
    + by rewrite lookup_insert_eq, list_lookup_insert_eq by done.
    + rewrite lookup_insert_ne, list_lookup_insert_ne by lia. by apply Hm.
Qed.

Lemma repr_new capacity s :
  with_capacity capacity = Ret s -> capacity + COMMIT_GRANULARITY_IN_BYTES <= 2^64 -> repr s [].
Proof.
  intros Hw Hc. apply with_capacity_ok in Hw as (Hsz & Hok & Hl & Hi & Hr & _ & _).
  split; simpl; try done; [|lia]. intros; lia.
Qed.

(** ** Properties *)

(** C19: pushes that interleave in any order are safe.  In every reachable state,
    a push that returned [i] has published its value there, and both readers
    find it; no two pushes were given the same slot; a push that failed panicked,
    without an access to memory that is not committed. *)
Theorem arena_push_safe capacity vs c c' :
  start capacity vs = Ret c -> rtc step c c' ->
  (forall t v i, threads c' !! t = Some (Done v i) ->
     0 <= i < len (shared c') /\ get (shared c') i = Ret v /\ get_unchecked (shared c') i = Ret v) /\
  (forall t u p q i, threads c' !! t = Some p -> threads c' !! u = Some q ->
     idx_of p = Some i -> idx_of q = Some i -> t = u) /\
  (forall t v i f, threads c' !! t = Some (Failed v i f) -> f = Panic).
Proof.
  intros Hst Hr. destruct (reachable_inv _ _ _ _ Hst Hr) as [Hsz Hinv]. split_and!.
  - intros t v i Ht. destruct (inv_threads _ Hinv _ _ Ht) as [Hi Hm]. unfold len.
    destruct (get_published (shared c') i (inv_shared _ Hinv) Hi) as (w & Hw & ? & ?).
    rewrite Hm in Hw. injection Hw as <-. done.
  - apply (inv_distinct _ Hinv).
  - intros t v i f Ht. apply (inv_threads _ Hinv _ _ Ht).
Qed.

(** An element, once readable, is never moved or overwritten by a push. *)
Theorem arena_get_stable capacity vs c c1 c2 i v :
  start capacity vs = Ret c -> rtc step c c1 -> rtc step c1 c2 ->
  0 <= i -> get (shared c1) i = Ret v -> get (shared c2) i = Ret v.
Proof.
  intros Hst Hr1 Hr2 Hi Hg. destruct (reachable_inv _ _ _ _ Hst Hr1) as [Hsz Hinv].
  assert (Hpub : forall c, get (shared c) i = Ret v ->
    i < initialized (shared c) /\ memory (shared c) !! i = Some v).
  { intros d. unfold get. destruct (Z.ltb_spec i (initialized (shared d))); [|done].
    destruct (memory (shared d) !! i); [|done]. destruct (accessible _ _); [|done]. by intros [= ->]. }
  apply Hpub in Hg. clear Hpub Hst Hr1. induction Hr2 as [d|d1 d2 d3 [t] _ IH].
  - destruct (get_published (shared d) i (inv_shared _ Hinv)) as (w & Hw & ? & _); [lia|].
    destruct Hg as [_ Hm]. congruence.
  - apply IH; [|by apply run_thread_inv]. destruct Hg. by apply published_stable.
Qed.

(** C35: the arena does not deadlock.  From every reachable state there is a
    schedule that completes all the pushes, unless one of them fails on the way. *)
Theorem arena_completes capacity vs c c' :
  start capacity vs = Ret c -> rtc step c c' ->
  exists schedule, let d := run c' schedule in
    Forall (fun p => is_done p = true) (threads d) \/ Exists (fun p => is_failed p = true) (threads d).
Proof.
  intros Hst Hr. destruct (reachable_inv _ _ _ _ Hst Hr) as [Hsz Hinv]. clear Hst Hr.
  remember (total c') as n eqn:Hn. revert c' Hinv Hn.
  induction (lt_wf n) as [n _ IH]. intros c' Hinv ->.
  destruct (decide (Exists (fun p => is_failed p = true) (threads c'))) as [Hf|Hf];
    [by exists []; right|].
  destruct (decide (Forall (fun p => is_done p = true) (threads c'))) as [Hd|Hd];
    [by exists []; left|].
  apply not_Forall_Exists in Hd; [|solve_decision].
  apply Exists_exists in Hd as (p & [t Ht]%list_elem_of_lookup & Hd%not_true_is_false).
  destruct (can_step c' t p) as [u Hu]; auto.
  { apply Forall_forall. intros q Hq. apply not_true_is_false. intros ?. apply Hf, Exists_exists. eauto. }
  destruct (IH _ Hu (run_thread c' u)) as [schedule Hs]; [by apply run_thread_inv|done|].
  by exists (u :: schedule).
Qed.

Lemma failed_stays c c' t v i f :
  rtc step c c' -> threads c !! t = Some (Failed v i f) -> threads c' !! t = Some (Failed v i f).
Proof.
  induction 1 as [|c1 c2 c3 [u] _ IH]; [done|]. intros Ht. apply IH. unfold run_thread.
  destruct (threads c1 !! u) as [p|] eqn:Hu; [|done]. destruct (pc_step _ p) as [s' p'] eqn:Hst. simpl.
  pose proof (lookup_lt_Some _ _ _ Hu). destruct (decide (u = t)) as [->|].
  - rewrite list_lookup_insert_eq by done. simplify_eq. simpl in Hst. by simplify_eq.
  - by rewrite list_lookup_insert_ne.
Qed.

(** A push that panics after it reserved a slot blocks the arena: no push
    that was given a later slot ever returns, whatever the threads do next. *)
Theorem arena_failure_blocks capacity vs c c1 c2 t v i f :
  start capacity vs = Ret c -> rtc step c c1 -> threads c1 !! t = Some (Failed v i f) ->
  rtc step c1 c2 ->
  forall u w j, threads c2 !! u = Some (Done w j) -> j < i.
Proof.
  intros Hst Hr1 Ht Hr2 u w j Hu. pose proof (failed_stays _ _ _ _ _ _ Hr2 Ht) as Ht2.
  destruct (reachable_inv _ _ _ c2 Hst) as [_ Hinv]; [by transitivity c1|].
  destruct (inv_threads _ Hinv _ _ Ht2) as [[Hle _] _].
  destruct (inv_threads _ Hinv _ _ Hu) as [[_ Hlt] _]. lia.
Qed.

(** A push that no other thread interrupts refines the append of a list:
    with room left it returns the old length and the arena holds the value at
    the end, and it panics when the arena is full. *)
Theorem arena_push_appends s l v :
  repr s l ->
  (Z.of_nat (length l) < reserved_len s ->
     exists s', push s v = Ret (Z.of_nat (length l), s') /\ repr s' (l ++ [v]) /\
                reserved_len s' = reserved_len s) /\
  (reserved_len s <= Z.of_nat (length l) -> push s v = Fault Panic).
Proof. split; [by apply push_room|by apply push_full]. Qed.

End Spec.

(** ** Concrete runs *)

#[local] Instance size_32k : SizeOf nat := 32768.

(** Two threads push to an empty arena with room for four. *)
Definition race : res (Config nat) := start 4 [10; 20]%nat.

(** Thread 1 looks at the committed size before thread 0 commits the granule
    they share, and looks again after. *)
Definition race_schedule : list nat := [0; 1; 0; 1; 0; 0; 0; 1; 1; 0; 0]%nat.

(** Two first pushes can race on the commit: with room left, the second
    asks to commit zero elements and the assertion of [virtmem_commit] panics. *)
Theorem arena_commit_race :
  exists c, race = Ret c /\
    threads (run c race_schedule) = [Done 10%nat 0; Failed 20%nat 1 Panic].
Proof. eexists. split; [vm_compute; reflexivity|]. vm_compute. reflexivity. Qed.

Lemma run_rtc {T} `{SizeOf T} (c : Config T) schedule : rtc step c (run c schedule).
Proof.
  revert c. induction schedule as [|t schedule IH]; intros c; [constructor|].
  eapply rtc_l; [by constructor|apply IH].
Qed.

(** Thread 0 completes its push and thread 1 follows. *)
Definition calm_schedule : list nat := (repeat 0 7 ++ repeat 1 7)%nat.

Definition two : Config nat := cfg (mk 4 0 0 0 [] ∅) [Start 10; Start 20]%nat.
Definition three : Config nat := cfg (mk 4 0 0 0 [] ∅) [Start 10; Start 20; Start 30]%nat.

Lemma arena_push_safe_witness :
  threads (run two calm_schedule) = [Done 10%nat 0; Done 20%nat 1] /\
  get (shared (run two calm_schedule)) 1 = Ret 20%nat.
Proof.
  assert (Hd : threads (run two calm_schedule) = [Done 10%nat 0; Done 20%nat 1]) by (vm_compute; reflexivity).
  split; [exact Hd|].
  destruct (arena_push_safe 4 [10; 20]%nat two (run two calm_schedule)) as (Hs & _).
  - vm_compute. reflexivity.
  - exact (run_rtc two calm_schedule).
  - apply (Hs 1%nat 20%nat 1). rewrite Hd. reflexivity.
Defined.

Lemma arena_get_stable_witness : get (shared (run (run two (repeat 0 7)%nat) (repeat 1 3)%nat)) 0 = Ret 10%nat.
Proof.
  apply (arena_get_stable 4 [10; 20]%nat two (run two (repeat 0 7)%nat)).
  - vm_compute. reflexivity.
  - exact (run_rtc two _).
  - exact (run_rtc (run two (repeat 0 7)%nat) _).
  - lia.
  - vm_compute. reflexivity.
Defined.

Lemma arena_completes_witness :
  exists schedule, let d := run two schedule in
    Forall (fun p => is_done p = true) (threads d) \/ Exists (fun p => is_failed p = true) (threads d).
Proof. apply (arena_completes 4 [10; 20]%nat two); [vm_compute; reflexivity|constructor]. Defined.

Lemma arena_failure_blocks_witness :
  ~ exists w, threads (run (run three race_schedule) (repeat 2 9)%nat) !! 2%nat = Some (Done w 2).
Proof.
  intros [w Hw]. enough (2 < 1) by lia. revert Hw.
  apply (arena_failure_blocks 4 [10; 20; 30]%nat three (run three race_schedule) _ 1%nat 20%nat 1 Panic).
  - vm_compute. reflexivity.
  - exact (run_rtc three _).
  - vm_compute. reflexivity.
  - exact (run_rtc (run three race_schedule) _).
Defined.

Lemma arena_push_appends_witness :
  exists s s', with_capacity 4 = Ret s /\ push s 10%nat = Ret (0, s') /\ repr s' [10%nat].
Proof.
  exists (mk 4 0 0 0 [] ∅).
  destruct (arena_push_appends (mk 4 0 0 0 [] ∅) [] 10%nat) as [Hp _].
  - apply (repr_new 4); [reflexivity|]. vm_compute. discriminate.
  - destruct Hp as (s' & Hp & Hr & _); [vm_compute; reflexivity|]. exists s'. done.
Defined.

End VirtDynArraySpec.
