(* ===== verification/HashIndex.v ===== *)
(** * Hash tables of indices

    The interface of [hashbrown::HashTable] (a third-party crate, so its
    functions and what its documentation promises of them are the classes
    [HashTable] and [HashTableLaws], with a list as an instance), of the hasher
    and of key equality, and the lemmas that the two index maps share: a table
    of indices into an insertion-ordered list of keys finds the position of a
    key, and stays so when a key is appended. *)

From S2P Require Import Prelude Words.

#[local] Open Scope Z_scope.

(** ** Keys *)

(** [PartialEq::eq] and [BuildHasher::hash_one] of the key type. *)
Class PartialEq (K : Type) := eqb : K -> K -> bool.
Class BuildHasher (K : Type) := hash_one : K -> Z.

Definition key_equiv {K} `{PartialEq K} (a b : K) : Prop := eqb a b = true.

(** What [PartialEq] promises of every key, and [Eq] and [Hash] of the keys that
    are lawful: reflexivity, and equal keys hash alike. *)
Class KeyLaws (K : Type) `{PartialEq K, BuildHasher K} := {
  lawful : K -> Prop;
  key_per :: RelationClasses.PER (@key_equiv K _);
  key_refl k : lawful k -> key_equiv k k;
  key_hash a b : lawful a -> lawful b -> key_equiv a b -> hash_one a = hash_one b;
  key_hash_u64 k : 0 <= hash_one k < 2^64;
}.

(** A key type whose equality is Leibniz equality. *)
Lemma leibniz_keys {K} `{EqDecision K} (h : K -> Z) :
  (forall k, 0 <= h k < 2^64) -> @KeyLaws K (fun a b => bool_decide (a = b)) h.
Proof.
  intros Hh. unshelve refine (@Build_KeyLaws K _ _ (fun _ => True) _ _ _ Hh).
  - split; unfold key_equiv, eqb; intros ?; intros;
      repeat match goal with H : bool_decide _ = true |- _ => apply bool_decide_eq_true in H end;
      apply bool_decide_eq_true; congruence.
  - intros k _. unfold key_equiv, eqb. by apply bool_decide_eq_true.
  - intros a b _ _. unfold key_equiv, eqb, hash_one. rewrite bool_decide_eq_true. by intros ->.
Defined.

(** ** The hash table *)

(** [find] and [insert_unique] with the closures they are given, which index
    into the map and so may panic. *)
Class HashTable := {
  table : Type;
  table_default : table;
  table_find : table -> Z -> (Z -> res bool) -> res (option Z);
  table_insert_unique : table -> Z -> Z -> (Z -> res Z) -> res table;
}.

(** [find]: a reference to an entry of the table with the given hash that the
    closure accepts.  [insert_unique]: one more entry; the hasher must agree
    with the hashes the entries were inserted with, since the table may rehash. *)
Class HashTableLaws `{HashTable} := {
  entries : table -> list (Z * Z);
  entries_default : entries table_default = [];
  table_find_ok t h eq :
    (forall h' i, (h', i) ∈ entries t -> exists b, eq i = Ret b) ->
    exists r, table_find t h eq = Ret r /\
      match r with
      | Some i => eq i = Ret true /\ exists h', (h', i) ∈ entries t
      | None => forall i, (h, i) ∈ entries t -> eq i = Ret false
      end;
  table_insert_ok t h i hasher :
    (forall h' j, (h', j) ∈ (h, i) :: entries t -> hasher j = Ret h') ->
    exists t', table_insert_unique t h i hasher = Ret t' /\ entries t' ≡ₚ (h, i) :: entries t;
}.

(** An instance: the entries in a list, searched in order. *)
Fixpoint list_find_entry (l : list (Z * Z)) (h : Z) (eq : Z -> res bool) : res (option Z) :=
  match l with
  | [] => Ret None
  | (h', i) :: l =>
      if h' =? h then b ← eq i; if b : bool then Ret (Some i) else list_find_entry l h eq
      else list_find_entry l h eq
  end.

#[export] Instance list_table : HashTable := {
  table := list (Z * Z);
  table_default := [];
  table_find := list_find_entry;
  table_insert_unique := fun t h i _ => Ret ((h, i) :: t);
}.

#[export] Instance list_table_laws : @HashTableLaws list_table.
Proof.
  refine (@Build_HashTableLaws list_table (fun l => l) eq_refl _ _).
  - intros t h eq. simpl. induction t as [|[h' i] t IH]; intros Heq; simpl.
    + exists None. split; [done|]. intros i. by intros ?%not_elem_of_nil.
    + destruct IH as (r & Hr & Hspec); [intros; eapply Heq; by right|].
      destruct (Z.eqb_spec h' h) as [->|Hne].
      * destruct (Heq h i) as [[] Hb]; [by left| |]; rewrite Hb; simpl.
        -- exists (Some i). split; [done|]. split; [done|]. exists h. by left.
        -- exists r. split; [done|]. destruct r as [j|].
           ++ destruct Hspec as [? [h' ?]]. split; [done|]. exists h'. by right.
           ++ intros j [[= ->]|]%elem_of_cons; [done|by apply Hspec].
      * exists r. split; [done|]. destruct r as [j|].
        -- destruct Hspec as [? [h2 ?]]. split; [done|]. exists h2. by right.
        -- intros j [[= -> _]|]%elem_of_cons; [done|by apply Hspec].
  - intros t h i hasher _. simpl. eauto.
Defined.

(** ** Positions of keys *)

Section Positions.
Context {K : Type} `{KeyLaws K} `{HashTableLaws}.
Implicit Types (ks : list K) (k : K).

(** The position of the first key equal to [k]. *)
Fixpoint key_pos ks k : option nat :=
  match ks with
  | [] => None
  | k' :: ks => if eqb k' k then Some O else S <$> key_pos ks k
  end.

(** Keys are lawful and pairwise different. *)
Definition distinct_keys ks : Prop :=
  Forall lawful ks /\
  forall i j a b, ks !! i = Some a -> ks !! j = Some b -> key_equiv a b -> i = j.

(** The table holds every position of [ks] once, under the hash of its key. *)
Definition indexes (t : table) ks : Prop :=
  entries t ≡ₚ imap (fun n k => (hash_one k, Z.of_nat n)) ks.

Lemma key_pos_Some ks k n :
  key_pos ks k = Some n -> exists k', ks !! n = Some k' /\ key_equiv k' k.
Proof.
  revert n. induction ks as [|k0 ks IH]; intros n; simpl; [done|].
  destruct (eqb k0 k) eqn:He.
  - intros [= <-]. eauto.
  - intros (m & Hm & ->)%fmap_Some. destruct (IH m Hm) as (k' & ? & ?). eauto.
Qed.

Lemma key_pos_None ks k n k' : key_pos ks k = None -> ks !! n = Some k' -> eqb k' k = false.
Proof.
  revert n. induction ks as [|k0 ks IH]; intros n; simpl; [done|].
  destruct (eqb k0 k) eqn:He; [done|]. intros Hn%fmap_None. destruct n; simpl; [by intros [= <-]|eauto].
Qed.

Lemma key_pos_unique ks k n k' :
  distinct_keys ks -> ks !! n = Some k' -> key_equiv k' k -> key_pos ks k = Some n.
Proof.
  intros [_ Hd] Hn He. destruct (key_pos ks k) as [m|] eqn:Hm.
  - apply key_pos_Some in Hm as (k2 & Hm & He2). f_equal. eapply Hd; [done..|].
    transitivity k; [done|by symmetry].
  - pose proof (key_pos_None _ _ _ _ Hm Hn) as Hf. unfold key_equiv in He. congruence.
Qed.

(** Equal keys have the same position. *)
#[export] Instance key_pos_proper ks : Proper (key_equiv ==> eq) (key_pos ks).
Proof.
  intros a b Hab. induction ks as [|k ks IH]; simpl; [done|]. rewrite IH.
  assert (eqb k a = eqb k b) as ->; [|done].
  destruct (eqb k a) eqn:Ha, (eqb k b) eqn:Hb; try done; exfalso.
  - enough (key_equiv k b) as Hkb by (unfold key_equiv in Hkb; congruence). by transitivity a.
  - enough (key_equiv k a) as Hka by (unfold key_equiv in Hka; congruence).
    transitivity b; [done|by symmetry].
Qed.

Lemma distinct_keys_nil : distinct_keys [].
Proof. split; [done|]. intros i j a b. by rewrite lookup_nil. Qed.

Lemma distinct_keys_snoc ks k :
  distinct_keys ks -> lawful k -> key_pos ks k = None -> distinct_keys (ks ++ [k]).
Proof.
  intros [Hl Hd] Hk Hn. split; [by apply Forall_app_2; [|apply Forall_singleton]|].
  assert (Hnew : forall i a, ks !! i = Some a -> ~ key_equiv a k).
  { intros i a Hi He. pose proof (key_pos_None _ _ _ _ Hn Hi). unfold key_equiv in He. congruence. }
  intros i j a b Hi Hj He.
  apply lookup_app_Some in Hi as [Hi|[Hi Hi']], Hj as [Hj|[Hj Hj']].
  - eauto.
  - apply list_lookup_singleton_Some in Hj' as [? <-]. by destruct (Hnew _ _ Hi).
  - apply list_lookup_singleton_Some in Hi' as [? <-]. destruct (Hnew _ _ Hj). by symmetry.
  - apply list_lookup_singleton_Some in Hi' as [? _], Hj' as [? _]. lia.
Qed.

Lemma indexes_nil : indexes table_default [].
Proof. unfold indexes. by rewrite entries_default. Qed.

Lemma indexes_elem t ks h i :
  indexes t ks -> (h, i) ∈ entries t -> exists n k, ks !! n = Some k /\ i = Z.of_nat n /\ h = hash_one k.
Proof.
  intros Hi. rewrite Hi. intros [n Hn]%list_elem_of_lookup. rewrite list_lookup_imap in Hn.
  apply fmap_Some in Hn as (k & Hk & [= -> ->]). eauto.
Qed.

Lemma indexes_elem_of t ks n k :
  indexes t ks -> ks !! n = Some k -> (hash_one k, Z.of_nat n) ∈ entries t.
Proof.
  intros Hi Hn. rewrite Hi. apply list_elem_of_lookup. exists n. by rewrite list_lookup_imap, Hn.
Qed.

(** Looking a key up with a closure that compares with the key at an index. *)
Lemma table_find_pos t ks k eq :
  indexes t ks -> distinct_keys ks -> lawful k ->
  (forall n k', ks !! n = Some k' -> eq (Z.of_nat n) = Ret (eqb k' k)) ->
  table_find t (hash_one k) eq = Ret (Z.of_nat <$> key_pos ks k).
Proof.
  intros Hi Hd Hk Heq. destruct (table_find_ok t (hash_one k) eq) as (r & -> & Hr).
  { intros h i (n & k' & Hn & -> & _)%(indexes_elem _ _ _ _ Hi). eauto. }
  f_equal. destruct r as [i|].
  - destruct Hr as [Ht [h Hin]]. apply (indexes_elem _ _ _ _ Hi) in Hin as (n & k' & Hn & -> & _).
    rewrite (Heq _ _ Hn) in Ht. injection Ht as Ht. by rewrite (key_pos_unique ks k n k').
  - destruct (key_pos ks k) as [n|] eqn:Hp; [|done].
    apply key_pos_Some in Hp as (k' & Hn & He).
    assert (Hh : hash_one k' = hash_one k).
    { apply key_hash; [|done..]. destruct Hd as [Hl _]. by eapply Forall_lookup_1. }
    specialize (Hr (Z.of_nat n)). rewrite <- Hh in Hr. specialize (Hr (indexes_elem_of _ _ _ _ Hi Hn)).
    rewrite (Heq _ _ Hn) in Hr. unfold key_equiv in He. congruence.
Qed.

(** Appending a key that is not there. *)
Lemma table_insert_pos t ks k hasher :
  indexes t ks -> 
  (forall n k', (ks ++ [k]) !! n = Some k' -> hasher (Z.of_nat n) = Ret (hash_one k')) ->
  exists t', table_insert_unique t (hash_one k) (Z.of_nat (length ks)) hasher = Ret t' /\
    indexes t' (ks ++ [k]).
Proof.
  intros Hi Hh. destruct (table_insert_ok t (hash_one k) (Z.of_nat (length ks)) hasher) as (t' & -> & Ht).
  { intros h j [[= -> ->]|Hin]%elem_of_cons.
    - apply Hh. by rewrite list_lookup_middle.
    - apply (indexes_elem _ _ _ _ Hi) in Hin as (n & k' & Hn & -> & ->). apply Hh.
      apply lookup_app_l_Some. done. }
  exists t'. split; [done|]. unfold indexes in *. rewrite Ht, Hi, imap_app. simpl.
  rewrite Nat.add_0_r. apply Permutation_cons_append.
Qed.

End Positions.
