(* ===== verification/IndexMap.v ===== *)
(** * Index vectors and the index map
    ([src/common/containers.rs], [src/common/containers/index_map.rs],
    [src/common/containers/index_map/entry.rs])

    A vector with an index type of its own, and the insertion-ordered hash map
    whose entries are numbered, with its entry API. *)

From S2P Require Import Prelude Words Bytes HashIndex.

#[local] Open Scope Z_scope.

(** [I: Copy + From<usize> + Into<usize>]; [from] may panic. *)
Class IndexLike (I : Type) := {
  from_usize : Z -> res I;
  to_usize : I -> Z;
}.

#[export] Instance usize_index : IndexLike Z := { from_usize := Ret; to_usize := fun i => i }.

Module IndexVec.
Section IndexVec.
Context {I T : Type} `{IndexLike I}.

Record IndexVec := mk { vec : list T }.

Definition new : IndexVec := mk [].
Definition with_capacity (capacity : Z) : IndexVec := mk [].
Definition default : IndexVec := mk [].
Definition pos (index : I) : nat := Z.to_nat (to_usize index).

Definition get (self : IndexVec) (index : I) : option T := vec self !! pos index.

Definition push (self : IndexVec) (elem : T) : res (I * IndexVec) :=
  let v := vec self ++ [elem] in
  i ← from_usize (Z.of_nat (length v) - 1);
  Ret (i, mk v).

Definition pop (self : IndexVec) : option T * IndexVec :=
  match list.last (vec self) with
  | Some x => (Some x, mk (take (length (vec self) - 1) (vec self)))
  | None => (None, self)
  end.

(** [Vec::remove] panics out of bounds and shifts what follows. *)
Definition remove (self : IndexVec) (index : I) : res (T * IndexVec) :=
  x ← get_idx (vec self) (pos index);
  Ret (x, mk (delete (pos index) (vec self))).

Definition last (self : IndexVec) : option T := list.last (vec self).
Definition len (self : IndexVec) : nat := length (vec self).
Definition is_empty (self : IndexVec) : bool := Nat.eqb (len self) 0.
Definition iter (self : IndexVec) : list T := vec self.

(** [Index<I>], [Index<&I>], and a store through [IndexMut<I>]. *)
Definition index (self : IndexVec) (index : I) : res T := get_idx (vec self) (pos index).
Definition index_set (self : IndexVec) (index : I) (x : T) : res IndexVec :=
  v ← set_idx (vec self) (pos index) x;
  Ret (mk v).

(** [Index<Range<I>>]. *)
Definition index_range (self : IndexVec) (a b : I) : res (list T) := slice (vec self) (pos a) (pos b).

End IndexVec.
Arguments IndexVec : clear implicits.
End IndexVec.

Module IndexMap.
Section IndexMap.
Context {K V : Type} `{KeyLaws K} `{HashTableLaws}.

Record IndexMap := mk {
  hash_table : table;
  slots : IndexVec.IndexVec (K * V);
}.

Definition new : IndexMap := mk table_default IndexVec.default.

(** An entry holds the map mutably. *)
Inductive Entry : Type :=
  | Occupied (map : IndexMap) (index : Z)
  | Vacant (map : IndexMap) (key : K) (hash : Z).

(** [|idx| &self.slots[idx].0 == key]. *)
Definition eq_at (slots : IndexVec.IndexVec (K * V)) (key : K) (idx : Z) : res bool :=
  kv ← IndexVec.index slots idx;
  Ret (eqb kv.1 key).

Definition entry (self : IndexMap) (key : K) : res Entry :=
  let hash := hash_one key in
  index ← table_find (hash_table self) hash (eq_at (slots self) key);
  match index with
  | Some index => Ret (Occupied self index)
  | None => Ret (Vacant self key hash)
  end.

Definition find (self : IndexMap) (key : K) : res (option Z) :=
  table_find (hash_table self) (hash_one key) (eq_at (slots self) key).

Definition kv (self : IndexMap) (index : Z) : res (K * V) := IndexVec.index (slots self) index.
Definition key (self : IndexMap) (index : Z) : res K := kv ← IndexVec.index (slots self) index; Ret kv.1.
Definition kvs (self : IndexMap) : list (K * V) := IndexVec.vec (slots self).

(** [kv_mut(index)] and a store of [x] through it. *)
Definition kv_mut (self : IndexMap) (index : Z) (x : K * V) : res IndexMap :=
  s ← IndexVec.index_set (slots self) index x;
  Ret (mk (hash_table self) s).

(** [VacantEntry::insert_by_ref]. *)
Definition insert_by_ref (map : IndexMap) (key : K) (hash : Z) (value : V) : res (Z * IndexMap) :=
  '(index, slots) ← IndexVec.push (slots map) (key, value);
  t ← table_insert_unique (hash_table map) hash index
        (fun index => kv ← IndexVec.index slots index; Ret (hash_one kv.1));
  Ret (index, mk t slots).

(** [Entry::insert_entry]: the index of the occupied entry, the previous value. *)
Definition insert_entry (self : Entry) (value : V) : res (Z * option V * IndexMap) :=
  match self with
  | Occupied map index =>
      '(k, prev) ← kv map index;
      map ← kv_mut map index (k, value);
      Ret (index, Some prev, map)
  | Vacant map key hash =>
      '(index, map) ← insert_by_ref map key hash value;
      Ret (index, None, map)
  end.

Definition or_insert_with (self : Entry) (default : unit -> V) : res (Z * IndexMap) :=
  match self with
  | Occupied map index => Ret (index, map)
  | Vacant map key hash => insert_by_ref map key hash (default tt)
  end.

(** [OccupiedEntry::insert] is [todo!()]. *)
Definition occupied_insert (map : IndexMap) (index : Z) (value : V) : res (Z * option V) := panic.

Definition insert (self : IndexMap) (key : K) (value : V) : res (Z * option V * IndexMap) :=
  e ← entry self key;
  insert_entry e value.

(** ** The list of pairs a map holds *)

Record repr (self : IndexMap) (l : list (K * V)) : Prop := {
  repr_kvs : kvs self = l;
  repr_table : indexes (hash_table self) l.*1;
  repr_keys : distinct_keys l.*1;
}.

Lemma index_map_new : repr new [].
Proof. split; [done|apply indexes_nil|apply distinct_keys_nil]. Qed.

Lemma find_pos self l k : repr self l -> lawful k -> find self k = Ret (Z.of_nat <$> key_pos l.*1 k).
Proof.
  intros [Hl Ht Hk] Hlk. apply table_find_pos; [done..|]. intros n k' Hn.
  apply list_lookup_fmap_Some in Hn as ((k2 & v) & -> & Hn).
  unfold eq_at, IndexVec.index, IndexVec.pos, get_idx. simpl. rewrite Nat2Z.id.
  unfold kvs in Hl. by rewrite Hl, Hn.
Qed.

Lemma entry_find self l k :
  repr self l -> lawful k ->
  entry self k = Ret (match key_pos l.*1 k with
                      | Some n => Occupied self (Z.of_nat n)
                      | None => Vacant self k (hash_one k)
                      end).
Proof.
  intros Hr Hk. pose proof (find_pos _ _ _ Hr Hk) as Hf. unfold find in Hf. unfold entry.
  rewrite Hf. simpl. by destruct (key_pos l.*1 k).
Qed.

Lemma index_map_insert_new self l k v :
  repr self l -> lawful k -> key_pos l.*1 k = None ->
  exists m, insert_by_ref self k (hash_one k) v = Ret (Z.of_nat (length l), m) /\ repr m (l ++ [(k, v)]).
Proof.
  intros [Hl Ht Hd] Hk Hn. unfold insert_by_ref, IndexVec.push. unfold kvs in Hl.
  rewrite Hl, length_app. simpl.
  replace (Z.of_nat (length l + 1) - 1) with (Z.of_nat (length l)) by lia.
  destruct (table_insert_pos (hash_table self) l.*1 k
              (fun index => kv ← IndexVec.index (IndexVec.mk (l ++ [(k, v)])) index; Ret (hash_one kv.1)))
    as (t' & Ht' & Hi'); [done| |].
  { intros n k' Hn'. unfold IndexVec.index, IndexVec.pos, get_idx. simpl. rewrite Nat2Z.id.
    change [k] with ([(k, v)].*1) in Hn'. rewrite <- fmap_app in Hn'.
    apply list_lookup_fmap_Some in Hn' as ((k2 & v2) & -> & Hn'). by rewrite Hn'. }
  rewrite length_fmap in Ht'. rewrite Ht'. simpl. eexists. split; [done|].
  split; simpl; [done| |]; rewrite fmap_app; [done|]. by apply distinct_keys_snoc.
Qed.

(** A new value under a key of the map. *)
Lemma repr_store self l n k v v' :
  repr self l -> l !! n = Some (k, v) ->
  exists m, kv_mut self (Z.of_nat n) (k, v') = Ret m /\ repr m (<[n := (k, v')]> l).
Proof.
  intros [Hl Ht Hd] Hn. unfold kv_mut, IndexVec.index_set, IndexVec.pos, set_idx. simpl.
  rewrite Nat2Z.id. unfold kvs in Hl. rewrite Hl.
  rewrite decide_True by (by eapply lookup_lt_Some). simpl. eexists. split; [done|].
  assert (Hk : (<[n := (k, v')]> l).*1 = l.*1).
  { rewrite list_fmap_insert. apply list_insert_id. by rewrite list_lookup_fmap, Hn. }
  split; simpl; [done|by rewrite Hk..].
Qed.

Lemma kv_repr self l n : repr self l -> kv self (Z.of_nat n) = match l !! n with Some x => Ret x | None => panic end.
Proof.
  intros [Hl _ _]. unfold kv, IndexVec.index, IndexVec.pos, get_idx. simpl. rewrite Nat2Z.id.
  unfold kvs in Hl. by rewrite Hl.
Qed.

Definition value_at (l : list (K * V)) (k : K) : option V :=
  n ← key_pos l.*1 k; snd <$> l !! n.

(** The index map is an insertion-ordered association list.  [insert] of a key that
    is there replaces its value, keeps its index and returns the old value; of a
    new key, it appends the pair and returns its position and no value;
    [or_insert_with] gives the same index, and changes nothing when the key is
    there. *)
Theorem index_map_insert self l k v :
  repr self l -> lawful k ->
  exists m m',
    insert self k v = Ret (Z.of_nat (default (length l) (key_pos l.*1 k)), value_at l k, m) /\
    (e ← entry self k; or_insert_with e (fun _ => v))
      = Ret (Z.of_nat (default (length l) (key_pos l.*1 k)), m') /\
    match key_pos l.*1 k with
    | Some n => m' = self /\ exists k', k' ∈ l.*1 /\ key_equiv k' k /\ repr m (<[n := (k', v)]> l)
    | None => m' = m /\ repr m (l ++ [(k, v)])
    end.
Proof.
  intros Hr Hk. unfold insert. rewrite (entry_find _ _ _ Hr Hk). simpl. unfold value_at.
  destruct (key_pos l.*1 k) as [n|] eqn:Hp; simpl.
  - apply key_pos_Some in Hp as (k' & Hn & He).
    assert (Hin : k' ∈ l.*1) by (by eapply list_elem_of_lookup_2).
    apply list_lookup_fmap_Some in Hn as ([k2 v2] & Hk' & Hn). simpl in Hk'. subst k'.
    rewrite (kv_repr _ _ n Hr), Hn. simpl.
    destruct (repr_store _ _ _ _ _ v Hr Hn) as (m & -> & Hm). simpl.
    exists m, self. split_and!; [done..|]. by exists k2.
  - destruct (index_map_insert_new _ _ _ v Hr Hk Hp) as (m & -> & Hm). simpl. exists m, m. done.
Qed.

End IndexMap.
Arguments IndexMap K V {_} : rename.
End IndexMap.

(** ** A concrete map: boolean keys *)

Module IndexMapExample.
Import IndexMap.

#[local] Instance bool_eq : PartialEq bool := fun a b => bool_decide (a = b).
#[local] Instance bool_hasher : BuildHasher bool := Z.b2z.
#[local] Instance bool_laws : KeyLaws bool.
Proof. apply leibniz_keys. intros []; simpl; lia. Defined.

Definition one_entry : IndexMap bool bool :=
  match insert new true true with Ret (_, _, m) => m | Fault _ => new end.

Lemma one_entry_repr : repr one_entry [(true, true)].
Proof.
  split; [reflexivity|unfold indexes; reflexivity|]. split; [by repeat constructor|].
  intros i j a b Hi%list_lookup_singleton_Some Hj%list_lookup_singleton_Some _. lia.
Qed.

Lemma index_map_insert_witness :
  exists m, insert one_entry true false = Ret (0, Some true, m) /\ kvs m = [(true, false)].
Proof.
  destruct (index_map_insert one_entry [(true, true)] true false one_entry_repr I)
    as (m & m' & Hi & _ & _ & k & Hin & He & Hm).
  exists m. split; [exact Hi|]. rewrite (repr_kvs _ _ Hm). simpl.
  apply list_elem_of_singleton in Hin as ->. reflexivity.
Defined.

End IndexMapExample.
