(* ===== verification/ShardedMap.v ===== *)
(** * The sharded index map
    ([src/common/containers/sharded_index_map.rs],
    [src/common/containers/sharded_index_map/entry.rs])

    The concurrent interning map of the compiler: the encoding of its indices,
    its shards, and its entry API.  An operation locks its shard's hash table
    until it is done, so the operations on one shard follow one another and
    those on different shards touch different state: the model is the
    sequential map.  What a shard needs of its slot array is the interface
    [ArenaLaws], which the arena of VirtDynArray implements. *)

From S2P Require Import Prelude Words HashIndex VirtDynArray VirtDynArrayInv VirtDynArraySpec.

#[local] Open Scope Z_scope.

(** ** The slot array of a shard *)

Class ArenaOps (A T : Type) := {
  arena_with_capacity : Z -> res A;
  arena_push : A -> T -> res (Z * A);
  arena_get : A -> Z -> res T;
  arena_get_unchecked : A -> Z -> res T;
  (** a store through a reference to the element *)
  arena_store : A -> Z -> T -> res A;
}.

(** [arena_holds a c l]: [a] holds the elements of [l] and has room for [c]. *)
Class ArenaLaws (A T : Type) `{ArenaOps A T} := {
  arena_holds : A -> Z -> list T -> Prop;
  arena_max : Z;
  arena_new c a : arena_with_capacity c = Ret a -> c <= arena_max -> arena_holds a c [];
  arena_push_room a c l x :
    arena_holds a c l -> Z.of_nat (length l) < c ->
    exists a', arena_push a x = Ret (Z.of_nat (length l), a') /\ arena_holds a' c (l ++ [x]);
  arena_push_full a c l x :
    arena_holds a c l -> c <= Z.of_nat (length l) -> arena_push a x = Fault Panic;
  arena_get_ok a c l k x :
    arena_holds a c l -> l !! k = Some x ->
    arena_get a (Z.of_nat k) = Ret x /\ arena_get_unchecked a (Z.of_nat k) = Ret x;
  arena_store_ok a c l k x :
    arena_holds a c l -> (k < length l)%nat ->
    exists a', arena_store a (Z.of_nat k) x = Ret a' /\ arena_holds a' c (<[k := x]> l);
}.

#[export] Instance virt_arena_ops {T} `{VirtDynArray.SizeOf T} : ArenaOps (VirtDynArray.Arena T) T := {
  arena_with_capacity := VirtDynArray.with_capacity;
  arena_push := VirtDynArray.push;
  arena_get := VirtDynArray.get;
  arena_get_unchecked := VirtDynArray.get_unchecked;
  arena_store := VirtDynArray.write;
}.

(** The lock-free arena, used by one thread at a time, is such an array. *)
#[export] Instance virt_arena_laws {T} `{VirtDynArray.SizeOf T} : ArenaLaws (VirtDynArray.Arena T) T.
Proof.
  refine (@Build_ArenaLaws (VirtDynArray.Arena T) T _
    (fun a c l => VirtDynArraySpec.repr a l /\ VirtDynArray.reserved_len a = c)
    (2^64 - VirtDynArray.COMMIT_GRANULARITY_IN_BYTES) _ _ _ _ _); simpl.
  - intros c a Ha Hc. split; [eapply VirtDynArraySpec.repr_new; [done|lia]|].
    by apply VirtDynArrayInv.with_capacity_ok in Ha as (_ & _ & _ & _ & ? & _).
  - intros a c l x [Hr <-] Hl. destruct (VirtDynArraySpec.push_room a l x Hr Hl) as (s & ? & ? & ?). eauto.
  - intros a c l x [Hr <-]. by apply VirtDynArraySpec.push_full.
  - intros a c l k x [Hr _]. by apply VirtDynArraySpec.repr_get.
  - intros a c l k x [Hr <-] Hk. destruct (VirtDynArraySpec.repr_write a l k x Hr Hk) as (s & ? & ? & ?). eauto.
Defined.

(** ** Indices *)

Module Index.

Definition NONE : Z := 2^32 - 1.
Definition SHARD_BITS : Z := 6.
Definition SHARD_SHIFT : Z := 32 - SHARD_BITS.
Definition LOCAL_MASK : Z := Z.shiftl 1 SHARD_SHIFT - 1.

Definition new (shard local_index : Z) : res Z :=
  assert_ (shard <? Z.shiftl 1 SHARD_BITS) ;;
  assert_ (local_index <=? LOCAL_MASK) ;;
  Ret (Z.lor (u32 (Z.shiftl (u32 shard) SHARD_SHIFT)) local_index).

Definition shard (self : Z) : Z := Z.shiftr self SHARD_SHIFT.
Definition local_index (self : Z) : Z := Z.land self LOCAL_MASK.
Definition is_none (self : Z) : bool := self =? NONE.
Definition as_u32 (self : Z) : Z := self.

(** [From<usize> for ShardLocalIndex]. *)
Definition local_from_usize (value : Z) : res Z := assert_ (value <=? 2^32 - 1) ;; Ret (u32 value).

Lemma index_new_ok s l :
  0 <= s < 64 -> 0 <= l < 2^26 -> new s l = Ret (s * 2^26 + l).
Proof.
  intros Hs Hl. unfold new, LOCAL_MASK, SHARD_SHIFT, SHARD_BITS.
  change (Z.shiftl 1 6) with 64. change (Z.shiftl 1 (32 - 6) - 1) with 67108863. change (2^26) with 67108864 in *.
  rewrite (proj2 (Z.ltb_lt _ _)) by lia. simpl. rewrite (proj2 (Z.leb_le _ _)) by lia. simpl. f_equal.
  change (32 - 6) with 26. rewrite Z.shiftl_mul_pow2 by lia. change (2^26) with 67108864.
  unfold u32. rewrite (Z.mod_small s) by lia. rewrite Z.mod_small by lia.
  assert (Hland : Z.land (s * 67108864) l = 0).
  { replace l with (Z.land l (Z.ones 26)) by (rewrite Z.land_ones by lia; apply Z.mod_small; lia).
    rewrite (Z.land_comm l), Z.land_assoc, Z.land_ones by lia.
    change 67108864 with (2^26). by rewrite Z.mod_mul, Z.land_0_l. }
  pose proof (Z.add_lor_land (s * 67108864) l). lia.
Qed.

Lemma shard_new s l : 0 <= s -> 0 <= l < 2^26 -> shard (s * 2^26 + l) = s.
Proof.
  intros. unfold shard, SHARD_SHIFT, SHARD_BITS. rewrite Z.shiftr_div_pow2 by lia.
  change (32 - 6) with 26. rewrite Z.div_add_l by lia. rewrite Z.div_small; lia.
Qed.

Lemma local_new s l : 0 <= l < 2^26 -> local_index (s * 2^26 + l) = l.
Proof.
  intros. unfold local_index, LOCAL_MASK, SHARD_SHIFT, SHARD_BITS.
  change (Z.shiftl 1 (32 - 6) - 1) with (Z.ones 26). rewrite Z.land_ones by lia.
  rewrite Z.add_comm, Z.mod_add by lia. apply Z.mod_small. lia.
Qed.

End Index.

(** ** The map *)

Module ShardedIndexMap.
Section Map.
Context {K V A : Type} `{PartialEq K, BuildHasher K} `{HashTable} `{ArenaOps A (K * V)}.

Record Shard := mk_shard {
  key_to_index : table;
  slots : A;
}.

Record ShardedIndexMap := mk { shards : list Shard }.

(** [usize::is_power_of_two]. *)
Definition is_power_of_two (n : Z) : bool := (0 <? n) && (Z.land n (n - 1) =? 0).

(** A list of [n] independent results. *)
Fixpoint collect {B} (n : nat) (f : res B) : res (list B) :=
  match n with
  | O => Ret []
  | S n => x ← f; xs ← collect n f; Ret (x :: xs)
  end.

Definition new (shard_count key_value_pair_capacity : Z) : res ShardedIndexMap :=
  assert_ (is_power_of_two shard_count) ;;
  shards ← collect (Z.to_nat shard_count)
    (slots ← arena_with_capacity key_value_pair_capacity; Ret (mk_shard table_default slots));
  Ret (mk shards).

Definition hash_and_shard (self : ShardedIndexMap) (key : K) : Z * Z :=
  let hash := hash_one key in
  (hash, Z.land hash (Z.of_nat (length (shards self)) - 1)).

(** [&self.shards[i]], and the shard after its state changed. *)
Definition shard_at (self : ShardedIndexMap) (i : Z) : res Shard := get_idx (shards self) (Z.to_nat i).
Definition set_shard (self : ShardedIndexMap) (i : Z) (s : Shard) : res ShardedIndexMap :=
  l ← set_idx (shards self) (Z.to_nat i) s;
  Ret (mk l).

(** An entry; both kinds hold the lock of the key's shard. *)
Inductive Entry : Type :=
  | Occupied (map : ShardedIndexMap) (index : Z)
  | Vacant (map : ShardedIndexMap) (key : K) (shard_idx hash : Z).

(** The closure that compares the key of a slot. *)
Definition eq_at (slots : A) (key : K) (idx : Z) : res bool :=
  kv ← arena_get_unchecked slots idx;
  Ret (eqb kv.1 key).

Definition find (self : ShardedIndexMap) (key : K) : res (option Z) :=
  let '(hash, shard_idx) := hash_and_shard self key in
  shard ← shard_at self shard_idx;
  i ← table_find (key_to_index shard) hash (eq_at (slots shard) key);
  match i with
  | Some local_idx => index ← Index.new shard_idx local_idx; Ret (Some index)
  | None => Ret None
  end.

Definition entry (self : ShardedIndexMap) (key : K) : res Entry :=
  let '(hash, shard_idx) := hash_and_shard self key in
  shard ← shard_at self shard_idx;
  i ← table_find (key_to_index shard) hash (eq_at (slots shard) key);
  match i with
  | Some local_idx => index ← Index.new shard_idx local_idx; Ret (Occupied self index)
  | None => Ret (Vacant self key shard_idx hash)
  end.

Definition kv (self : ShardedIndexMap) (index : Z) : res (K * V) :=
  shard ← shard_at self (Index.shard index);
  arena_get (slots shard) (Index.local_index index).

Definition kv_unchecked (self : ShardedIndexMap) (index : Z) : res (K * V) :=
  shard ← shard_at self (Index.shard index);
  arena_get_unchecked (slots shard) (Index.local_index index).

Definition key (self : ShardedIndexMap) (index : Z) : res K := kv ← kv self index; Ret kv.1.

(** The shard is not bounds-checked either. *)
Definition key_unchecked (self : ShardedIndexMap) (index : Z) : res K :=
  match shards self !! Z.to_nat (Index.shard index) with
  | Some shard => kv ← arena_get_unchecked (slots shard) (Index.local_index index); Ret kv.1
  | None => ub
  end.

(** [kv.1.swap(value)] on the slot of [index]. *)
Definition swap (self : ShardedIndexMap) (index : Z) (k : K) (value : V) : res ShardedIndexMap :=
  shard ← shard_at self (Index.shard index);
  a ← arena_store (slots shard) (Index.local_index index) (k, value);
  set_shard self (Index.shard index) (mk_shard (key_to_index shard) a).

(** [VacantEntry::insert_by_ref]. *)
Definition insert_by_ref (map : ShardedIndexMap) (key : K) (shard_idx hash : Z) (value : V)
    : res (Z * ShardedIndexMap) :=
  shard ← shard_at map shard_idx;
  '(i, a) ← arena_push (slots shard) (key, value);
  local_index ← Index.local_from_usize i;
  t ← table_insert_unique (key_to_index shard) hash local_index
        (fun index => kv ← arena_get_unchecked a index; Ret (hash_one kv.1));
  map ← set_shard map shard_idx (mk_shard t a);
  index ← Index.new shard_idx local_index;
  Ret (index, map).

(** [Entry::insert_entry]: the index of the occupied entry, the previous value. *)
Definition insert_entry (self : Entry) (value : V) : res (Z * option V * ShardedIndexMap) :=
  match self with
  | Occupied map index =>
      '(k, prev) ← kv_unchecked map index;
      map ← swap map index k value;
      Ret (index, Some prev, map)
  | Vacant map key shard_idx hash =>
      '(index, map) ← insert_by_ref map key shard_idx hash value;
      Ret (index, None, map)
  end.

Definition or_insert_with (self : Entry) (default : unit -> V) : res (Z * ShardedIndexMap) :=
  match self with
  | Occupied map index => Ret (index, map)
  | Vacant map key shard_idx hash => insert_by_ref map key shard_idx hash (default tt)
  end.

(** [OccupiedEntry::insert] and [VacantEntry::insert]. *)
Definition occupied_insert (map : ShardedIndexMap) (index : Z) (value : V) : res (Z * V * ShardedIndexMap) :=
  '(k, old) ← kv map index;
  map ← swap map index k value;
  Ret (index, old, map).

Definition vacant_insert (map : ShardedIndexMap) (key : K) (shard_idx hash : Z) (value : V)
    : res (Z * ShardedIndexMap) := insert_by_ref map key shard_idx hash value.

Definition insert (self : ShardedIndexMap) (key : K) (value : V) : res (Z * option V * ShardedIndexMap) :=
  e ← entry self key;
  insert_entry e value.

End Map.
Arguments Shard A {_}.
Arguments ShardedIndexMap A {_}.
Arguments Entry K A {_}.
End ShardedIndexMap.
