(* ===== verification/ShardedSpec.v ===== *)
(** * What the sharded index map promises

    The map is a family of insertion-ordered association lists, one per shard:
    what each operation returns and does to that family, and what follows for
    interning (an index stands for one key, forever). *)

From S2P Require Import Prelude Words HashIndex VirtDynArray VirtDynArraySpec ShardedMap.
From stdpp Require Import relations.

#[local] Open Scope Z_scope.

Module ShardedSpec.
Import ShardedIndexMap.

(** An index encodes its shard and its position in the shard, and is the
    reserved [NONE] for exactly one pair: the last slot of the last of 64 shards. *)
Theorem sharded_index_roundtrip s l :
  0 <= s < 64 -> 0 <= l < 2^26 ->
  exists i, Index.new s l = Ret i /\ 0 <= i < 2^32 /\
    Index.shard i = s /\ Index.local_index i = l /\
    (Index.is_none i = true <-> s = 63 /\ l = Index.LOCAL_MASK).
Proof.
  intros Hs Hl. exists (s * 2^26 + l). rewrite Index.index_new_ok, Index.shard_new, Index.local_new by lia.
  split_and!; try done; try lia.
  unfold Index.is_none, Index.NONE, Index.LOCAL_MASK. change (Z.shiftl 1 Index.SHARD_SHIFT - 1) with (2^26 - 1).
  rewrite Z.eqb_eq. lia.
Qed.

Lemma sharded_index_roundtrip_witness :
  exists i, Index.new 5 42 = Ret i /\ Index.shard i = 5 /\ Index.local_index i = 42.
Proof. destruct (sharded_index_roundtrip 5 42) as (i & ? & _ & ? & ? & _); [lia|lia|]. by exists i. Defined.

Section Spec.
Context {K V A : Type} `{KeyLaws K} `{HashTableLaws} `{ArenaLaws A (K * V)}.
Implicit Types (m : ShardedIndexMap A) (ls : list (list (K * V))).

(** The index of position [n] of shard [s]. *)
Definition index_of (s n : nat) : Z := Z.of_nat s * 2^26 + Z.of_nat n.

(** The shard of a key among [c]. *)
Definition shard_of (c : nat) (k : K) : nat := Z.to_nat (Z.land (hash_one k) (Z.of_nat c - 1)).

Record shard_ok (cap : Z) (c s : nat) (sh : Shard A) (l : list (K * V)) : Prop := {
  so_slots : arena_holds (slots sh) cap l;
  so_cap : Z.of_nat (length l) <= cap;
  so_table : indexes (key_to_index sh) l.*1;
  so_keys : distinct_keys l.*1;
  so_shard : Forall (fun k => shard_of c k = s) l.*1;
}.

Definition shard_count_ok (c : nat) : Prop := exists b, 0 <= b <= 6 /\ Z.of_nat c = 2^b.

(** [m] holds the lists [ls], one per shard, each with room for [cap] pairs. *)
Record repr m (cap : Z) ls : Prop := {
  repr_count : shard_count_ok (length ls);
  repr_cap : cap <= 2^26;
  repr_length : length (shards m) = length ls;
  repr_shards : forall s sh l,
    shards m !! s = Some sh -> ls !! s = Some l -> shard_ok cap (length ls) s sh l;
}.

(** Where a key is. *)
Definition locate ls (k : K) : option (nat * nat) :=
  let s := shard_of (length ls) k in
  l ← ls !! s;
  n ← key_pos l.*1 k;
  Some (s, n).

Definition pair_at ls (s n : nat) : option (K * V) := l ← ls !! s; l !! n.

(** [ls] with the pairs of shard [s] replaced. *)
Definition set_list ls (s : nat) (l : list (K * V)) : list (list (K * V)) := <[s := l]> ls.

Lemma shard_of_lt c k : shard_count_ok c -> (shard_of c k < c)%nat.
Proof.
  intros (b & Hb & Hc). unfold shard_of. rewrite Hc.
  replace (2^b - 1) with (Z.ones b) by (rewrite Z.ones_equiv; lia). rewrite Z.land_ones by lia.
  pose proof (Z.mod_pos_bound (hash_one k) (2^b)). lia.
Qed.

Lemma shard_count_64 c : shard_count_ok c -> (c <= 64)%nat.
Proof.
  intros (b & Hb & Hc). pose proof (Z.pow_le_mono_r 2 b 6). change (2^6) with 64 in *. lia.
Qed.

Lemma shard_of_equiv c a b : lawful a -> lawful b -> key_equiv a b -> shard_of c a = shard_of c b.
Proof. intros Ha Hb He. unfold shard_of. by rewrite (key_hash a b). Qed.

(** The shard of a key, in the map and in the family. *)
Lemma shard_lookup m cap ls k :
  repr m cap ls ->
  let s := shard_of (length ls) k in
  exists sh l, shards m !! s = Some sh /\ ls !! s = Some l /\ shard_ok cap (length ls) s sh l /\
    (s < 64)%nat /\ Z.of_nat s = (hash_and_shard m k).2.
Proof.
  intros [Hc Hcap Hlen Hsh] s. pose proof (shard_of_lt _ k Hc) as Hlt. fold s in Hlt.
  destruct (lookup_lt_is_Some_2 (shards m) s) as [sh Hs]; [lia|].
  destruct (lookup_lt_is_Some_2 ls s) as [l Hl]; [lia|]. exists sh, l. split_and!; try done.
  - by apply Hsh.
  - pose proof (shard_count_64 _ Hc). lia.
  - unfold hash_and_shard. simpl. rewrite Hlen. subst s. unfold shard_of. rewrite Z2Nat.id; [done|].
    apply Z.land_nonneg. left. apply key_hash_u64.
Qed.

Lemma index_of_new cap c s sh l n :
  shard_ok cap c s sh l -> cap <= 2^26 -> (s < 64)%nat -> Z.of_nat n < cap ->
  Index.new (Z.of_nat s) (Z.of_nat n) = Ret (index_of s n).
Proof. intros _ Hcap Hs Hn. rewrite Index.index_new_ok by lia. done. Qed.

(** The closure that [find] and [entry] give to the hash table. *)
Lemma find_local cap c s sh l k :
  shard_ok cap c s sh l -> lawful k ->
  table_find (key_to_index sh) (hash_one k) (eq_at (slots sh) k) = Ret (Z.of_nat <$> key_pos l.*1 k).
Proof.
  intros [Hs _ Ht Hd _] Hk. apply table_find_pos; [done..|]. intros n k' Hn.
  apply list_lookup_fmap_Some in Hn as ([k2 v] & -> & Hn). unfold eq_at.
  destruct (arena_get_ok _ _ _ _ _ Hs Hn) as [_ ->]. done.
Qed.

Lemma key_pos_lt (l : list (K * V)) k n : key_pos l.*1 k = Some n -> (n < length l)%nat.
Proof.
  intros (k' & Hn%lookup_lt_Some & _)%key_pos_Some. by rewrite length_fmap in Hn.
Qed.

(** [entry], and with it [find], in terms of the lists. *)
Lemma entry_locate m cap ls k :
  repr m cap ls -> lawful k ->
  entry m k = Ret (match locate ls k with
                   | Some (s, n) => Occupied m (index_of s n)
                   | None => Vacant m k (Z.of_nat (shard_of (length ls) k)) (hash_one k)
                   end) /\
  find m k = Ret ((fun '(s, n) => index_of s n) <$> locate ls k).
Proof.
  intros Hr Hk. destruct (shard_lookup _ _ _ k Hr) as (sh & l & Hs & Hl & Hok & H64 & Hhs).
  unfold entry, find, locate. destruct (hash_and_shard m k) as [h si] eqn:Hhash. simpl in Hhs. subst si.
  assert (h = hash_one k) as -> by (unfold hash_and_shard in Hhash; congruence).
  unfold shard_at, get_idx. rewrite Nat2Z.id, Hs, Hl. simpl.
  rewrite (find_local _ _ _ _ _ _ Hok Hk). simpl.
  destruct (key_pos l.*1 k) as [n|] eqn:Hp; simpl; [|done].
  pose proof (key_pos_lt _ _ _ Hp). pose proof (so_cap _ _ _ _ _ Hok).
  rewrite (index_of_new _ _ _ _ _ n Hok (repr_cap _ _ _ Hr)) by (done || lia). done.
Qed.

(** Reading the slot of an index. *)
Lemma kv_at m cap ls s n x :
  repr m cap ls -> pair_at ls s n = Some x ->
  kv m (index_of s n) = Ret x /\ kv_unchecked m (index_of s n) = Ret x /\
  key m (index_of s n) = Ret x.1 /\ key_unchecked m (index_of s n) = Ret x.1.
Proof.
  intros Hr Hx. unfold pair_at in Hx. apply bind_Some in Hx as (l & Hl & Hn).
  destruct (lookup_lt_is_Some_2 (shards m) s) as [sh Hs].
  { rewrite (repr_length _ _ _ Hr). by eapply lookup_lt_Some. }
  pose proof (repr_shards _ _ _ Hr _ _ _ Hs Hl) as Hok.
  pose proof (so_cap _ _ _ _ _ Hok). pose proof (repr_cap _ _ _ Hr). pose proof (lookup_lt_Some _ _ _ Hn).
  destruct (arena_get_ok _ _ _ _ _ (so_slots _ _ _ _ _ Hok) Hn) as [Hg Hu].
  unfold key, key_unchecked, kv, kv_unchecked, shard_at, get_idx, index_of.
  rewrite Index.shard_new, Index.local_new, Nat2Z.id, Hs by lia. simpl. rewrite Hg, Hu. done.
Qed.

(** The map after the state of one shard changed. *)
Lemma repr_set m cap ls s sh l :
  repr m cap ls -> (s < length ls)%nat -> shard_ok cap (length ls) s sh l ->
  exists m', set_shard m (Z.of_nat s) sh = Ret m' /\ repr m' cap (set_list ls s l).
Proof.
  intros [Hc Hcap Hlen Hsh] Hs Hok. unfold set_shard, set_idx. rewrite Nat2Z.id, decide_True by lia.
  simpl. eexists. split; [done|]. unfold set_list. split; rewrite ?length_insert; try done.
  - simpl. by rewrite length_insert.
  - simpl. intros u sh' l'. destruct (decide (u = s)) as [->|].
    + rewrite !list_lookup_insert_eq by lia. by intros [= <-] [= <-].
    + rewrite !list_lookup_insert_ne by done. apply Hsh.
Qed.

Lemma swap_ok m cap ls s l n k v v' :
  repr m cap ls -> ls !! s = Some l -> l !! n = Some (k, v) ->
  exists m', swap m (index_of s n) k v' = Ret m' /\ repr m' cap (set_list ls s (<[n := (k, v')]> l)).
Proof.
  intros Hr Hl Hn. pose proof (lookup_lt_Some _ _ _ Hl). pose proof (lookup_lt_Some _ _ _ Hn).
  destruct (lookup_lt_is_Some_2 (shards m) s) as [sh Hs]; [rewrite (repr_length _ _ _ Hr); lia|].
  pose proof (repr_shards _ _ _ Hr _ _ _ Hs Hl) as Hok. destruct Hok as [Ho Hcl Ht Hd Hf].
  pose proof (repr_cap _ _ _ Hr).
  unfold swap, shard_at, get_idx, index_of.
  rewrite Index.shard_new, Index.local_new, Nat2Z.id, Hs by lia. simpl.
  destruct (arena_store_ok _ _ _ n (k, v') Ho) as (a & -> & Ha); [done|]. simpl.
  apply repr_set; [done|done|].
  assert (Hk : (<[n := (k, v')]> l).*1 = l.*1).
  { rewrite list_fmap_insert. apply list_insert_id. by rewrite list_lookup_fmap, Hn. }
  split; simpl; rewrite ?Hk, ?length_insert; done.
Qed.

Lemma insert_by_ref_ok m cap ls k v :
  repr m cap ls -> lawful k -> locate ls k = None ->
  let s := shard_of (length ls) k in
  exists l, ls !! s = Some l /\
    (Z.of_nat (length l) < cap ->
     exists m', insert_by_ref m k (Z.of_nat s) (hash_one k) v = Ret (index_of s (length l), m') /\
       repr m' cap (set_list ls s (l ++ [(k, v)]))) /\
    (cap <= Z.of_nat (length l) -> insert_by_ref m k (Z.of_nat s) (hash_one k) v = Fault Panic).
Proof.
  intros Hr Hk Hn s. destruct (shard_lookup _ _ _ k Hr) as (sh & l & Hs & Hl & Hok & H64 & _).
  fold s in Hs, Hl, Hok, H64. exists l. split; [done|].
  pose proof (index_of_new _ _ _ _ _ (length l) Hok (repr_cap _ _ _ Hr) H64) as Hidx.
  destruct Hok as [Ho Hcl Ht Hd Hf]. pose proof (repr_cap _ _ _ Hr) as Hcap.
  assert (Hkn : key_pos l.*1 k = None).
  { unfold locate in Hn. fold s in Hn. rewrite Hl in Hn. simpl in Hn. by destruct (key_pos l.*1 k). }
  unfold insert_by_ref, shard_at, get_idx. rewrite Nat2Z.id, Hs. simpl. split; intros Hroom.
  - destruct (arena_push_room _ _ _ (k, v) Ho Hroom) as (a & -> & Ha). simpl.
    unfold Index.local_from_usize. rewrite (proj2 (Z.leb_le _ _)) by lia. simpl.
    unfold u32. rewrite Z.mod_small by lia.
    destruct (table_insert_pos (key_to_index sh) l.*1 k
                (fun index => kv ← arena_get_unchecked a index; Ret (hash_one kv.1)))
      as (t' & Ht' & Hi'); [done| |].
    { intros n k' Hn'. change [k] with ([(k, v)].*1) in Hn'. rewrite <- fmap_app in Hn'.
      apply list_lookup_fmap_Some in Hn' as ([k2 v2] & -> & Hn').
      destruct (arena_get_ok _ _ _ _ _ Ha Hn') as [_ ->]. done. }
    rewrite length_fmap in Ht'. rewrite Ht'. simpl.
    destruct (repr_set m cap ls s (mk_shard t' a) (l ++ [(k, v)])) as (m' & -> & Hm'); [done| | |].
    { by eapply lookup_lt_Some. }
    { split; simpl; rewrite ?fmap_app; try done.
      - rewrite length_app. simpl. lia.
      - by apply distinct_keys_snoc.
      - apply Forall_app_2; [done|]. by apply Forall_singleton. }
    simpl. rewrite Hidx by lia. simpl. eauto.
  - rewrite (arena_push_full _ _ _ (k, v) Ho Hroom). done.
Qed.

(** ** Refinement *)

(** [or_insert_with] on the entry of [k]. *)
Definition intern (m : ShardedIndexMap A) (k : K) (v : V) : res (Z * ShardedIndexMap A) :=
  e ← entry m k;
  or_insert_with e (fun _ => v).

(** [find], interning and [insert], by the place of the key. *)
Lemma sharded_map_spec m cap ls k v :
  repr m cap ls -> lawful k ->
  find m k = Ret ((fun '(s, n) => index_of s n) <$> locate ls k) /\
  match locate ls k with
  | Some (s, n) =>
      intern m k v = Ret (index_of s n, m) /\
      exists l k' old m', ls !! s = Some l /\ l !! n = Some (k', old) /\ key_equiv k' k /\
        insert m k v = Ret (index_of s n, Some old, m') /\
        repr m' cap (set_list ls s (<[n := (k', v)]> l))
  | None =>
      let s := shard_of (length ls) k in
      exists l, ls !! s = Some l /\
        (Z.of_nat (length l) < cap ->
         exists m', intern m k v = Ret (index_of s (length l), m') /\
           insert m k v = Ret (index_of s (length l), None, m') /\
           repr m' cap (set_list ls s (l ++ [(k, v)]))) /\
        (cap <= Z.of_nat (length l) -> intern m k v = Fault Panic /\ insert m k v = Fault Panic)
  end.
Proof.
  intros Hr Hk. destruct (entry_locate _ _ _ _ Hr Hk) as [He Hf]. split; [done|].
  unfold insert, intern. rewrite He. simpl. destruct (locate ls k) as [[s n]|] eqn:Hl; simpl.
  - split; [done|]. unfold locate in Hl. apply bind_Some in Hl as (l & Hls & Hl).
    apply bind_Some in Hl as (n' & Hp & [= <- <-]). 
    apply key_pos_Some in Hp as (k' & Hn & Heq).
    apply list_lookup_fmap_Some in Hn as ([k2 old] & -> & Hn).
    destruct (swap_ok m cap ls _ l n' k2 old v Hr Hls Hn) as (m' & Hsw & Hm').
    destruct (kv_at m cap ls (shard_of (length ls) k) n' (k2, old) Hr) as (_ & Hkv & _); [unfold pair_at; by rewrite Hls|].
    exists l, k2, old, m'. split_and!; try done. rewrite Hkv. simpl. by rewrite Hsw.
  - destruct (insert_by_ref_ok m cap ls k v Hr Hk Hl) as (l & Hls & Hroom & Hfull).
    exists l. split; [done|]. split.
    + intros Hlt. destruct (Hroom Hlt) as (m' & Hm & Hm'). exists m'. by rewrite Hm.
    + intros Hge. by rewrite (Hfull Hge).
Qed.


(** ** Interning *)

(** One use of the map by a client: any of its operations that succeeds. *)
Inductive used (m m' : ShardedIndexMap A) : Prop :=
  | used_intern k v i (Hk : lawful k) (Hm : intern m k v = Ret (i, m'))
  | used_insert k v i old (Hk : lawful k) (Hm : insert m k v = Ret (i, old, m')).

(** The families only grow: a key keeps its place. *)
Definition keys_of ls : list (list K) := (fun l => l.*1) <$> ls.
Definition grows ls ls' : Prop :=
  length ls' = length ls /\
  forall s l, ls !! s = Some l -> exists l', ls' !! s = Some l' /\ l.*1 `prefix_of` l'.*1.

Lemma grows_set ls s l l' :
  ls !! s = Some l -> l.*1 `prefix_of` l'.*1 -> grows ls (set_list ls s l').
Proof.
  intros Hs Hp. split; [apply length_insert|]. intros u lu Hu. unfold set_list.
  destruct (decide (u = s)) as [->|].
  - exists l'. rewrite list_lookup_insert_eq by (by eapply lookup_lt_Some). simplify_eq. done.
  - exists lu. by rewrite list_lookup_insert_ne.
Qed.

Lemma grows_refl ls : grows ls ls.
Proof. split; [done|]. intros s l ?. by exists l. Qed.

#[export] Instance grows_preorder : PreOrder grows.
Proof.
  split; [exact grows_refl|]. intros l1 l2 l3 [H12 G12] [H23 G23]. split; [congruence|].
  intros s l Hl. destruct (G12 _ _ Hl) as (l' & Hl' & Hp). destruct (G23 _ _ Hl') as (l'' & ? & Hp').
  exists l''. split; [done|]. by transitivity l'.*1.
Qed.

Lemma grows_snoc ls s l k v : ls !! s = Some l -> grows ls (set_list ls s (l ++ [(k, v)])).
Proof. intros Hl. apply (grows_set _ _ l); [done|]. rewrite fmap_app. by apply prefix_app_r. Qed.

Lemma used_grows m m' cap ls :
  repr m cap ls -> used m m' -> exists ls', repr m' cap ls' /\ grows ls ls'.
Proof.
  intros Hr [k v i Hk Hm|k v i old Hk Hm];
    destruct (sharded_map_spec m cap ls k v Hr Hk) as [_ Hs];
    destruct (locate ls k) as [[s n]|].
  - destruct Hs as [Hi _]. rewrite Hi in Hm. injection Hm as _ <-. by exists ls.
  - destruct Hs as (l & Hl & Hroom & Hfull). destruct (Z.ltb_spec (Z.of_nat (length l)) cap) as [Hlt|Hge].
    + destruct (Hroom Hlt) as (m1 & Hi & _ & Hm1). rewrite Hi in Hm. injection Hm as _ <-.
      eexists. split; [done|]. by apply grows_snoc.
    + destruct (Hfull Hge) as [Hi _]. congruence.
  - destruct Hs as (_ & l & k' & old' & m1 & Hl & Hn & _ & Hi & Hm1). rewrite Hi in Hm.
    injection Hm as _ _ <-. eexists. split; [done|]. apply (grows_set _ _ l); [done|].
    rewrite list_fmap_insert, list_insert_id; [done|]. by rewrite list_lookup_fmap, Hn.
  - destruct Hs as (l & Hl & Hroom & Hfull). destruct (Z.ltb_spec (Z.of_nat (length l)) cap) as [Hlt|Hge].
    + destruct (Hroom Hlt) as (m1 & _ & Hi & Hm1). rewrite Hi in Hm. injection Hm as _ _ <-.
      eexists. split; [done|]. by apply grows_snoc.
    + destruct (Hfull Hge) as [_ Hi]. congruence.
Qed.

Lemma used_rtc_grows m m' cap ls :
  repr m cap ls -> rtc used m m' -> exists ls', repr m' cap ls' /\ grows ls ls'.
Proof.
  intros Hr Hu. revert ls Hr. induction Hu as [m|m1 m2 m3 H12 _ IH]; intros ls Hr; [by exists ls|].
  destruct (used_grows _ _ _ _ Hr H12) as (ls2 & Hr2 & Hg2).
  destruct (IH _ Hr2) as (ls3 & Hr3 & Hg3). exists ls3. split; [done|]. by transitivity ls2.
Qed.

(** A located key keeps its place. *)
Lemma locate_grows m cap ls ls' k s n :
  repr m cap ls' -> grows ls ls' -> locate ls k = Some (s, n) -> locate ls' k = Some (s, n).
Proof.
  intros Hr [Hlen Hg] Hl. unfold locate in *. rewrite Hlen.
  apply bind_Some in Hl as (l & Hls & Hl). apply bind_Some in Hl as (n' & Hp & [= Hs <-]).
  destruct (Hg _ _ Hls) as (l' & Hl' & [tl Htl]). rewrite Hl'. simpl.
  destruct (lookup_lt_is_Some_2 (shards m) (shard_of (length ls) k)) as [sh Hsh].
  { rewrite (repr_length _ _ _ Hr). by eapply lookup_lt_Some. }
  pose proof (repr_shards _ _ _ Hr _ _ _ Hsh Hl') as Hok.
  apply key_pos_Some in Hp as (k' & Hn & He).
  rewrite (key_pos_unique l'.*1 k n' k'); [by rewrite Hs|apply (so_keys _ _ _ _ _ Hok)| |done].
  rewrite Htl. by apply lookup_app_l_Some.
Qed.

(** A key that was appended to the list of its shard is there. *)
Lemma locate_snoc m cap ls l k v :
  let s := shard_of (length ls) k in
  ls !! s = Some l -> lawful k -> repr m cap (set_list ls s (l ++ [(k, v)])) ->
  locate (set_list ls s (l ++ [(k, v)])) k = Some (s, length l).
Proof.
  intros s Hls Hk Hm. pose proof (lookup_lt_Some _ _ _ Hls) as Hlt.
  assert (Hl' : set_list ls s (l ++ [(k, v)]) !! s = Some (l ++ [(k, v)])) by (by apply list_lookup_insert_eq).
  assert (length (set_list ls s (l ++ [(k, v)])) = length ls) as Hlen by apply length_insert.
  unfold locate. rewrite Hlen. fold s. rewrite Hl'. simpl.
  rewrite (key_pos_unique _ k (length l) k); [done| | |by apply key_refl].
  - destruct (lookup_lt_is_Some_2 (shards m) s) as [sh Hsh].
    { rewrite (repr_length _ _ _ Hm). unfold set_list. by rewrite length_insert. }
    eapply so_keys, (repr_shards _ _ _ Hm _ _ _ Hsh), Hl'.
  - rewrite fmap_app, lookup_app_r by (by rewrite length_fmap). by rewrite length_fmap, Nat.sub_diag.
Qed.

Lemma intern_locates m cap ls k v i m' :
  repr m cap ls -> lawful k -> intern m k v = Ret (i, m') ->
  exists ls' s n, repr m' cap ls' /\ grows ls ls' /\ locate ls' k = Some (s, n) /\ i = index_of s n.
Proof.
  intros Hr Hk Hm. destruct (sharded_map_spec m cap ls k v Hr Hk) as [_ Hs].
  destruct (locate ls k) as [[s n]|] eqn:Hl.
  - destruct Hs as [Hi _]. rewrite Hi in Hm. injection Hm as <- <-. by exists ls, s, n.
  - destruct Hs as (l & Hls & Hroom & Hfull). destruct (Z.ltb_spec (Z.of_nat (length l)) cap) as [Hlt|Hge].
    + destruct (Hroom Hlt) as (m1 & Hi & _ & Hm1). rewrite Hi in Hm. injection Hm as <- <-.
      eexists _, _, (length l). split_and!; [done|by apply grows_snoc|by eapply locate_snoc|done].
    + destruct (Hfull Hge) as [Hi _]. congruence.
Qed.

(** Places determine keys, and indices determine places. *)
Lemma locate_inj ls k1 k2 s n : locate ls k1 = Some (s, n) -> locate ls k2 = Some (s, n) -> key_equiv k1 k2.
Proof.
  unfold locate. intros (l1 & Hl1 & (n1 & Hp1 & [= Hs1 ->])%bind_Some)%bind_Some
    (l2 & Hl2 & (n2 & Hp2 & [= Hs2 ->])%bind_Some)%bind_Some.
  rewrite Hs1 in Hl1. rewrite Hs2 in Hl2. simplify_eq.
  apply key_pos_Some in Hp1 as (a & Ha & Hea), Hp2 as (b & Hb & Heb). simplify_eq.
  etransitivity; [symmetry; exact Hea|exact Heb].
Qed.

Lemma locate_lt m cap ls k s n : repr m cap ls -> locate ls k = Some (s, n) -> Z.of_nat n < 2^26 /\
  exists x, pair_at ls s n = Some x /\ key_equiv x.1 k.
Proof.
  unfold locate. intros Hr (l & Hl & (n' & Hp & [= Hs ->])%bind_Some)%bind_Some. rewrite Hs in Hl.
  destruct (lookup_lt_is_Some_2 (shards m) s) as [sh Hsh].
  { rewrite (repr_length _ _ _ Hr). by eapply lookup_lt_Some. }
  pose proof (so_cap _ _ _ _ _ (repr_shards _ _ _ Hr _ _ _ Hsh Hl)).
  pose proof (key_pos_lt _ _ _ Hp). pose proof (repr_cap _ _ _ Hr). split; [lia|].
  apply key_pos_Some in Hp as (k' & Hn & He).
  apply list_lookup_fmap_Some in Hn as (x & -> & Hn). exists x. split; [|done].
  unfold pair_at. by rewrite Hl.
Qed.

Lemma index_of_inj s1 n1 s2 n2 :
  Z.of_nat n1 < 2^26 -> Z.of_nat n2 < 2^26 -> index_of s1 n1 = index_of s2 n2 -> s1 = s2 /\ n1 = n2.
Proof. unfold index_of. intros. lia. Qed.

(** C37: interning is sound for the life of the map.  Whatever clients did between the
    two calls, interning [k1] and later [k2] gives the same index exactly when
    the keys are equal, and the first index still reads back as [k1]. *)
Theorem sharded_intern_injective m cap ls k1 v1 i1 m1 m2 k2 v2 i2 m3 :
  repr m cap ls -> lawful k1 -> lawful k2 ->
  intern m k1 v1 = Ret (i1, m1) -> rtc used m1 m2 -> intern m2 k2 v2 = Ret (i2, m3) ->
  (i1 = i2 <-> key_equiv k1 k2) /\
  exists k, key m3 i1 = Ret k /\ key_unchecked m3 i1 = Ret k /\ key_equiv k k1.
Proof.
  intros Hr Hk1 Hk2 Hi1 Hu Hi2.
  destruct (intern_locates _ _ _ _ _ _ _ Hr Hk1 Hi1) as (ls1 & s1 & n1 & Hr1 & _ & Hl1 & ->).
  destruct (used_rtc_grows _ _ _ _ Hr1 Hu) as (ls2 & Hr2 & Hg2).
  destruct (intern_locates _ _ _ _ _ _ _ Hr2 Hk2 Hi2) as (ls3 & s2 & n2 & Hr3 & Hg3 & Hl2 & ->).
  assert (Hl1' : locate ls3 k1 = Some (s1, n1)).
  { eapply locate_grows; [done| |done]. by transitivity ls2. }
  destruct (locate_lt _ _ _ _ _ _ Hr3 Hl1') as [Hb1 (x & Hx & He)].
  destruct (locate_lt _ _ _ _ _ _ Hr3 Hl2) as [Hb2 _]. split; [split|].
  - intros [-> ->]%index_of_inj; [|done..]. by eapply locate_inj.
  - intros Heq. enough (locate ls3 k1 = locate ls3 k2) by congruence.
    unfold locate. rewrite (shard_of_equiv _ k1 k2) by done. destruct (ls3 !! _); simpl; [|done].
    by rewrite (key_pos_proper _ _ _ Heq).
  - destruct (kv_at _ _ _ _ _ _ Hr3 Hx) as (_ & _ & Hkey & Hku). by exists x.1.
Qed.

(** A new map holds nothing. *)
Lemma collect_replicate {B} n (f : res B) xs :
  collect n f = Ret xs -> length xs = n /\ forall i x, xs !! i = Some x -> f = Ret x.
Proof.
  revert xs. induction n as [|n IH]; intros xs; simpl.
  { intros [= <-]. by split. }
  destruct f as [x|] eqn:Hf; simpl; [|done]. destruct (collect n _) as [xs'|]; simpl; [|done].
  intros [= <-]. destruct (IH xs' eq_refl) as [Hl Hx]. split; [simpl; lia|].
  intros [|i] y; simpl; [by intros [= <-]|apply Hx].
Qed.

Lemma new_repr c cap m :
  new (Z.of_nat c) cap = Ret m -> shard_count_ok c -> 0 <= cap <= 2^26 -> cap <= arena_max ->
  repr m cap (replicate c []).
Proof.
  unfold new. intros Hm Hc Hcap Hmax. destruct (is_power_of_two _); simpl in Hm; [|done].
  rewrite Nat2Z.id in Hm.
  destruct (collect c _) as [xs|] eqn:Hxs; simpl in Hm; [|done]. injection Hm as <-.
  apply collect_replicate in Hxs as [Hl Hx].
  split; rewrite ?length_replicate; simpl; [done|lia|done|].
  intros s sh l Hs [-> Hlt]%lookup_replicate. specialize (Hx _ _ Hs).
  destruct (arena_with_capacity cap) as [a|] eqn:Ha; simpl in Hx; [|done]. injection Hx as <-.
  split; simpl; [by apply arena_new|lia|apply indexes_nil|apply distinct_keys_nil|done].
Qed.

End Spec.

(** ** A concrete map: two shards over the arena, boolean keys *)

Section Example.
#[local] Instance bool_eq : PartialEq bool := fun a b => bool_decide (a = b).
#[local] Instance bool_hasher : BuildHasher bool := Z.b2z.
#[local] Instance bool_laws : KeyLaws bool.
Proof. apply leibniz_keys. intros []; simpl; lia. Defined.
#[local] Instance bool_size : VirtDynArray.SizeOf (bool * nat) := 16.

Definition empty_map : ShardedIndexMap (VirtDynArray.Arena (bool * nat)) :=
  match new 2 1 with Ret m => m | Fault _ => mk [] end.

Lemma empty_map_repr : repr (V := nat) empty_map 1 [[]; []].
Proof.
  assert (Hn : new 2 1 = Ret empty_map) by (vm_compute; reflexivity).
  apply (new_repr 2) in Hn; [exact Hn|exists 1; lia|lia|simpl; vm_compute; discriminate].
Qed.


Lemma sharded_intern_injective_witness :
  exists i1 m1 i2 m2, intern empty_map true 7%nat = Ret (i1, m1) /\
    intern m1 false 8%nat = Ret (i2, m2) /\ i1 <> i2.
Proof.
  destruct (intern empty_map true 7%nat) as [[i1 m1]|] eqn:H1; [|vm_compute in H1; discriminate].
  assert (Hsome : exists p, intern m1 false 8%nat = Ret p).
  { vm_compute in H1. injection H1 as <- <-. vm_compute. eauto. }
  destruct Hsome as [[i2 m2] H2]. exists i1, m1, i2, m2. split; [reflexivity|split; [exact H2|]].
  destruct (sharded_intern_injective empty_map 1 [[]; []] true 7%nat i1 m1 m1 false 8%nat i2 m2
              empty_map_repr I I H1 (rtc_refl _ _) H2) as [Hiff _].
  intros Heq. apply Hiff in Heq. discriminate.
Defined.
End Example.

End ShardedSpec.
