(* ===== verification/Value.v ===== *)
(** * Types and values ([src/value.rs], the data)

    The keys of the value store: every type and every compile-time value of a
    program is a [Key], interned to an index.  Interned strings, byte strings and
    integers stand for what they are interned from; the ids of declarations,
    modules, namespaces and instructions are the integers they wrap. *)

From S2P Require Import Prelude Words HashIndex Anyint.

#[local] Open Scope Z_scope.

#[export] Instance Anyint_eq_dec : EqDecision Anyint.t.
Proof. solve_decision. Defined.

Module Value.

Abbreviation Index := Z (only parsing).
Abbreviation str := (list Z) (only parsing).

(** [GlobalVuirInstructionId]. *)
Record GlobalVuirInstructionId : Set := { module : Z; inst : Z }.

(** ** [Anyfloat]: an IEEE binary128 value, as its bits *)

Definition f128_is_nan (x : Z) : bool := 2^112 * 32767 <? x mod 2^127.
Definition f128_is_zero (x : Z) : bool := x mod 2^127 =? 0.
Definition f128_eq (x y : Z) : bool :=
  negb (f128_is_nan x) && negb (f128_is_nan y) && ((x =? y) || (f128_is_zero x && f128_is_zero y)).

Record Anyfloat : Set := MkAnyfloat { f128_bits : Z }.

(** The derived [PartialEq] compares the floats. *)
Definition Anyfloat_eq (a b : Anyfloat) : bool := f128_eq (f128_bits a) (f128_bits b).

(** ** Types *)

Inductive PtrKind : Set :=
  | PtrDecl (decl : Z)
  | PtrComptimeAlloc (alloc : Z)
  | PtrValue (value : Index).

Record TypePtrPacked : Set := { bit_offset : Z; bit_width : Z; underlying_int_bits : Z }.

Record TypePtr : Set := { ptr_pointee_ty : Index; ptr_packed : option TypePtrPacked; is_const : bool }.

Record Ptr : Set := { ptr_ty : Index; ptr_kind : PtrKind }.

Record TypeSlice : Set := { slice_pointee_ty : Index }.

Record TypeArray : Set := { elem_ty : Index; array_len : Z }.

Inductive Inline : Set := InlineNone | InlineAlways | InlineNever.

Inductive CallingConvention : Set :=
  | Vif | C | Fast | Cold | X86_64Windows | X86_64SysV | Aarch64Darwin | Aarch64Win | Count.

Record TypeFn : Set := {
  params : list Index;
  comptime_params : list bool;
  var_args : bool;
  ret_ty : Index;
  external : bool;
  callconv : CallingConvention;
  inline : Inline;
}.

Inductive Capture : Set :=
  | Comptime (i : Index)
  | Runtime (i : GlobalVuirInstructionId).

Record NamespaceType : Set := { ns_inst : GlobalVuirInstructionId; captures : list Capture }.

Inductive Ty : Set :=
  | Int (signed : bool) (bits : Z)
  | TAnyint
  | TAnyfloat
  | Usize
  | Isize
  | F16
  | F32
  | F64
  | F128
  | Bool
  | Void
  | Struct (t : NamespaceType)
  | Enum (t : NamespaceType)
  | Union (t : NamespaceType)
  | Fn (t : TypeFn)
  | TPtr (t : TypePtr)
  | Slice (t : TypeSlice)
  | Array (t : TypeArray)
  | NullPtr
  | Anyptr
  | Type_
  | Never
  | EnumLiteral
  | GenericPoison.

(** ** Function values *)

Record FnDecl : Set := { fd_owner_decl : Z; func_decl_inst : GlobalVuirInstructionId; fd_ty : Index }.

Record FnKey : Set := {
  fn_ty : Index;
  fn_decl : Index;
  comptime_args : list (option Index);
  fn_owner_decl : Z;
}.

(** ** Keys *)

Inductive Key : Set :=
  | KUndefined (ty : Index)
  | KStr (slice_ty : Index) (value : list Z)
  | KSlice (ty ptr len : Index)
  | KInt (ty : Index) (value : Anyint.t)
  | KFloat (ty : Index) (value : Anyfloat)
  | KBool (b : bool)
  | KPtr (p : Ptr)
  | KFn (f : FnKey)
  | KEnumTag (enum_ty val : Index)
  | KAggregate (ty : Index) (values : list Index)
  | KNullPtr
  | KVoid
  | KUnreachable
  | KUnion (ty : Index) (tag payload : option Index)
  | KType (t : Ty)
  | KDeclRef (vuir : Z)
  | KFnDecl (d : FnDecl)
  | KEnumLiteral (s : str).

#[export] Instance GlobalVuirInstructionId_eq_dec : EqDecision GlobalVuirInstructionId.
Proof. solve_decision. Defined.
#[export] Instance PtrKind_eq_dec : EqDecision PtrKind.
Proof. solve_decision. Defined.
#[export] Instance TypePtrPacked_eq_dec : EqDecision TypePtrPacked.
Proof. solve_decision. Defined.
#[export] Instance TypePtr_eq_dec : EqDecision TypePtr.
Proof. solve_decision. Defined.
#[export] Instance Ptr_eq_dec : EqDecision Ptr.
Proof. solve_decision. Defined.
#[export] Instance TypeSlice_eq_dec : EqDecision TypeSlice.
Proof. solve_decision. Defined.
#[export] Instance TypeArray_eq_dec : EqDecision TypeArray.
Proof. solve_decision. Defined.
#[export] Instance Inline_eq_dec : EqDecision Inline.
Proof. solve_decision. Defined.
#[export] Instance CallingConvention_eq_dec : EqDecision CallingConvention.
Proof. solve_decision. Defined.
#[export] Instance TypeFn_eq_dec : EqDecision TypeFn.
Proof. solve_decision. Defined.
#[export] Instance Capture_eq_dec : EqDecision Capture.
Proof. solve_decision. Defined.
#[export] Instance NamespaceType_eq_dec : EqDecision NamespaceType.
Proof. solve_decision. Defined.
#[export] Instance Ty_eq_dec : EqDecision Ty.
Proof. solve_decision. Defined.
#[export] Instance FnDecl_eq_dec : EqDecision FnDecl.
Proof. solve_decision. Defined.
#[export] Instance FnKey_eq_dec : EqDecision FnKey.
Proof. solve_decision. Defined.
#[export] Instance Anyfloat_eq_dec : EqDecision Anyfloat.
Proof. solve_decision. Defined.
#[export] Instance Key_eq_dec : EqDecision Key.
Proof. solve_decision. Defined.

(** ** Equality and hashing of keys *)

(** [PartialEq for FnKey] ignores the owner. *)
Definition FnKey_eq (self other : FnKey) : bool :=
  (fn_ty self =? fn_ty other) && (fn_decl self =? fn_decl other)
  && bool_decide (comptime_args self = comptime_args other).

(** The derived [PartialEq for Key]: field by field, with the instances above. *)
#[export] Instance Key_eq : PartialEq Key := fun a b =>
  match a, b with
  | KFloat t1 v1, KFloat t2 v2 => (t1 =? t2) && Anyfloat_eq v1 v2
  | KFn f1, KFn f2 => FnKey_eq f1 f2
  | _, _ => bool_decide (a = b)
  end.

(** What [Hash for Key] feeds to the hasher: all but the owner of a [FnKey]. *)
Definition hash_input (k : Key) : Key :=
  match k with
  | KFn f => KFn {| fn_ty := fn_ty f; fn_decl := fn_decl f; comptime_args := comptime_args f;
                    fn_owner_decl := 0 |}
  | _ => k
  end.

(** The hasher ([FxBuildHasher]): a function of the data it is fed. *)
Class FxHasher := {
  fx_hash : Key -> Z;
  fx_hash_u64 k : 0 <= fx_hash k < 2^64;
}.

#[export] Instance Key_hasher `{FxHasher} : BuildHasher Key := fun k => fx_hash (hash_input k).

(** [-0.0] and [0.0] are equal and hash differently; [NaN] is not equal to itself. *)
Definition float_lawful (x : Z) : bool := negb (f128_is_nan x) && negb (f128_is_zero x && negb (x =? 0)).
Definition lawful_key (k : Key) : bool :=
  match k with KFloat _ v => float_lawful (f128_bits v) | _ => true end.

Lemma f128_eq_sym x y : f128_eq x y = f128_eq y x.
Proof.
  unfold f128_eq. rewrite (Z.eqb_sym x), (andb_comm (negb (f128_is_nan x))).
  by rewrite (andb_comm (f128_is_zero x)).
Qed.

Lemma f128_eq_trans x y z : f128_eq x y = true -> f128_eq y z = true -> f128_eq x z = true.
Proof.
  unfold f128_eq. rewrite !andb_true_iff, !orb_true_iff, !andb_true_iff, !Z.eqb_eq.
  intros [[? ?] [->|[? ?]]] [[? ?] [->|[? ?]]]; auto.
Qed.

Lemma FnKey_eq_spec f g :
  FnKey_eq f g = true <-> fn_ty f = fn_ty g /\ fn_decl f = fn_decl g /\ comptime_args f = comptime_args g.
Proof. unfold FnKey_eq. rewrite !andb_true_iff, !Z.eqb_eq, bool_decide_eq_true. tauto. Qed.

(** What equality of keys is. *)
Lemma key_equiv_cases a b :
  key_equiv a b <->
  match a, b with
  | KFloat t1 v1, KFloat t2 v2 => t1 = t2 /\ Anyfloat_eq v1 v2 = true
  | KFn f, KFn g => fn_ty f = fn_ty g /\ fn_decl f = fn_decl g /\ comptime_args f = comptime_args g
  | _, _ => a = b
  end.
Proof.
  unfold key_equiv, eqb, Key_eq.
  destruct a, b; try apply bool_decide_eq_true; [|apply FnKey_eq_spec].
  by rewrite andb_true_iff, Z.eqb_eq.
Qed.

#[export] Instance Key_laws `{FxHasher} : KeyLaws Key.
Proof.
  unshelve refine (@Build_KeyLaws Key _ _ (fun k => lawful_key k = true) _ _ _ _).
  - split.
    + intros a b. rewrite !key_equiv_cases. destruct a, b; try done.
      * intros [-> Hv]. split; [done|]. unfold Anyfloat_eq in *. by rewrite f128_eq_sym.
      * intros (-> & -> & ->). done.
    + intros a b c. rewrite !key_equiv_cases.
      destruct a, b; try done; destruct c; try done; try congruence.
      * intros [-> H1] [-> H2]. split; [done|]. unfold Anyfloat_eq in *. by eapply f128_eq_trans.
      * intros (-> & -> & ->) (-> & -> & ->). done.
  - intros k Hk. apply key_equiv_cases. destruct k; try done. split; [done|].
    simpl in Hk. unfold float_lawful in Hk. apply andb_true_iff in Hk as [Hn _].
    unfold Anyfloat_eq, f128_eq. by rewrite Hn, Z.eqb_refl.
  - intros a b Ha Hb. rewrite key_equiv_cases. unfold hash_one, Key_hasher. intros He. f_equal.
    destruct a, b; try done; simpl in *.
    + destruct He as [-> He]. f_equal. destruct value as [x], value0 as [y]. f_equal. simpl in *.
      unfold Anyfloat_eq, f128_eq in He. simpl in He. unfold float_lawful in Ha, Hb.
      apply andb_true_iff in He as [_ [He|[Hx Hy]%andb_true_iff]%orb_true_iff]; [by apply Z.eqb_eq|].
      rewrite Hx in Ha. rewrite Hy in Hb. simpl in *.
      apply andb_true_iff in Ha as [_ Ha], Hb as [_ Hb]. rewrite negb_involutive in Ha, Hb.
      apply Z.eqb_eq in Ha, Hb. congruence.
    + destruct He as (-> & -> & ->). done.
  - intros k. apply fx_hash_u64.
Defined.

End Value.
