(* ===== verification/ValueStore.v ===== *)
(** * The value store ([src/value.rs], the operations)

    Accessors of keys and values, the store built on the sharded map, interning,
    the type of a value, and the queries on types.  A reference into the bump
    allocator is what it points to (allocations are never written again).
    Recursive queries follow the indices of the store, so they carry fuel. *)

From S2P Require Import Prelude Words HashIndex ShardedMap Anyint Value.

#[local] Open Scope Z_scope.

Module ValueStore.
Import Value.
Import ShardedIndexMap.

(** ** The data behind non-trivial types *)

Record StructField : Set := { sf_name : list Z; sf_ty : Z }.
Record PackedStructFieldInfo : Set := { offset : Z; width : Z }.

Inductive StructLayout : Set :=
  | Standard
  | Packed (storage_bits fields_bits : Z) (packed_fields : list PackedStructFieldInfo).

Record TypeStruct : Set := {
  struct_name : list Z;
  struct_fields : list StructField;
  layout : StructLayout;
  struct_namespace : Z;
  struct_linear : bool;
}.

Record EnumField : Set := { ef_name : list Z; ef_value : Z }.

Record TypeEnum : Set := {
  enum_name : list Z;
  enum_tag_ty : Z;
  enum_fields : list EnumField;
  enum_namespace : Z;
  enum_linear : bool;
}.

Record UnionField : Set := { uf_name : list Z; uf_ty : option Z }.

Record TypeUnion : Set := {
  union_name : list Z;
  union_tag_ty : option Z;
  union_fields : list UnionField;
  union_namespace : Z;
  union_linear : bool;
}.

Record FnValue : Set := { fv_owner_decl : Z }.

Inductive Value : Set :=
  | VNone (n : Z)
  | VFn (f : FnValue)
  | VStruct (s : TypeStruct)
  | VEnum (e : TypeEnum)
  | VUnion (u : TypeUnion).

Definition none : Value := VNone 0.

(** [iter().position(|f| f.name == name)]. *)
Fixpoint position_by {A} (name : A -> list Z) (fields : list A) (n : list Z) : option nat :=
  match fields with
  | [] => None
  | f :: fields => if bool_decide (name f = n) then Some O else S <$> position_by name fields n
  end.

Definition struct_field_idx_by_name (self : TypeStruct) (name : list Z) : option nat :=
  position_by sf_name (struct_fields self) name.
Definition enum_field_idx_by_name (self : TypeEnum) (name : list Z) : option nat :=
  position_by ef_name (enum_fields self) name.
(** The position is cast [as u32]. *)
Definition union_field_idx_by_name (self : TypeUnion) (name : list Z) : option Z :=
  (fun i => u32 (Z.of_nat i)) <$> position_by uf_name (union_fields self) name.

Definition get_packed_field_info (self : TypeStruct) (field_index : nat) : option PackedStructFieldInfo :=
  match layout self with Packed _ _ packed_fields => packed_fields !! field_index | Standard => None end.
Definition is_packed (self : TypeStruct) : bool :=
  match layout self with Packed _ _ _ => true | Standard => false end.

(** ** Accessors; the [unreachable!] arms panic *)

Definition as_struct_value (self : Value) : res TypeStruct := match self with VStruct s => Ret s | _ => panic end.
Definition as_enum_value (self : Value) : res TypeEnum := match self with VEnum s => Ret s | _ => panic end.
Definition as_union (self : Value) : res TypeUnion := match self with VUnion s => Ret s | _ => panic end.
Definition as_fn_value (self : Value) : res FnValue := match self with VFn f => Ret f | _ => panic end.

Definition as_type_fn (self : Key) : res TypeFn := match self with KType (Fn t) => Ret t | _ => panic end.
Definition as_type_ptr (self : Key) : res TypePtr := match self with KType (TPtr t) => Ret t | _ => panic end.
Definition as_type_slice (self : Key) : res TypeSlice := match self with KType (Slice t) => Ret t | _ => panic end.
Definition as_type_array (self : Key) : res TypeArray := match self with KType (Array t) => Ret t | _ => panic end.
Definition as_fn (self : Key) : res FnKey := match self with KFn f => Ret f | _ => panic end.
Definition as_ptr (self : Key) : res Ptr := match self with KPtr p => Ret p | _ => panic end.
Definition as_int (self : Key) : res (Z * Anyint.t) := match self with KInt ty value => Ret (ty, value) | _ => panic end.
Definition as_struct (self : Key) : res NamespaceType := match self with KType (Struct s) => Ret s | _ => panic end.
Definition as_enum (self : Key) : res NamespaceType := match self with KType (Enum e) => Ret e | _ => panic end.
Definition as_fn_decl (self : Key) : res FnDecl := match self with KFnDecl t => Ret t | _ => panic end.
Definition as_bool (self : Key) : res bool := match self with KBool b => Ret b | _ => panic end.
Definition is_type (self : Key) : bool := match self with KType _ => true | _ => false end.
Definition type_is_numeric (self : Key) : bool :=
  match self with
  | KType (Int _ _ | TAnyint | TAnyfloat | F16 | F32 | F64 | F128 | Isize | Usize) => true
  | _ => false
  end.

(** ** The store *)

Record CommonValues : Set := {
  nullptr : Z; anyint_t : Z; anyfloat_t : Z; void_t : Z; void_value : Z; anyptr_t : Z; type_t : Z;
  never_t : Z; usize_t : Z; isize_t : Z; u16_t : Z; u64_t : Z; i64_t : Z; u32_t : Z; i32_t : Z;
  f16_t : Z; f32_t : Z; f64_t : Z; f128_t : Z; bool_t : Z; enum_literal_t : Z; generic_poison_t : Z;
  nullptr_t : Z; unreachable_value : Z; true_value : Z; false_value : Z;
}.

Section Store.
Context `{FxHasher} `{HashTable} {A : Type} `{ArenaOps A (Key * Value)}.

Record ValueStore := mk {
  value_map : ShardedIndexMap A;
  common : CommonValues;
}.

(** [value_map.entry(key).or_insert_with(Value::none)]. *)
Definition intern_none (m : ShardedIndexMap A) (key : Key) : res (Z * ShardedIndexMap A) :=
  e ← entry m key;
  or_insert_with e (fun _ => none).

(** The keys that [new] interns, in its order. *)
Definition common_keys : list Key :=
  [KNullPtr; KType TAnyint; KType TAnyfloat; KType Void; KVoid; KType Anyptr; KType Type_; KType Never;
   KType Usize; KType Isize; KType (Int false 16); KType (Int false 64); KType (Int true 64);
   KType (Int false 32); KType (Int true 32); KType F16; KType F32; KType F64; KType F128; KType Bool;
   KType EnumLiteral; KType GenericPoison; KType NullPtr; KUnreachable; KBool true; KBool false].

Fixpoint intern_all (m : ShardedIndexMap A) (keys : list Key) : res (list Z * ShardedIndexMap A) :=
  match keys with
  | [] => Ret ([], m)
  | key :: keys =>
      '(i, m) ← intern_none m key;
      '(ids, m) ← intern_all m keys;
      Ret (i :: ids, m)
  end.

Definition common_of (l : list Z) : CommonValues :=
  let i n := nth n l 0 in
  {| nullptr := i 0%nat; anyint_t := i 1%nat; anyfloat_t := i 2%nat; void_t := i 3%nat; void_value := i 4%nat;
     anyptr_t := i 5%nat; type_t := i 6%nat; never_t := i 7%nat; usize_t := i 8%nat; isize_t := i 9%nat;
     u16_t := i 10%nat; u64_t := i 11%nat; i64_t := i 12%nat; u32_t := i 13%nat; i32_t := i 14%nat;
     f16_t := i 15%nat; f32_t := i 16%nat; f64_t := i 17%nat; f128_t := i 18%nat; bool_t := i 19%nat;
     enum_literal_t := i 20%nat; generic_poison_t := i 21%nat; nullptr_t := i 22%nat;
     unreachable_value := i 23%nat; true_value := i 24%nat; false_value := i 25%nat |}.

Definition new (shard_count : Z) : res ValueStore :=
  value_map ← ShardedIndexMap.new shard_count 8192;
  '(ids, value_map) ← intern_all value_map common_keys;
  Ret (mk value_map (common_of ids)).

Definition index_to_key (self : ValueStore) (index : Z) : res Key := key (value_map self) index.
Definition index_to_key_value (self : ValueStore) (index : Z) : res (Key * Value) := kv (value_map self) index.
Definition index_to_value (self : ValueStore) (index : Z) : res Value :=
  kv ← kv (value_map self) index;
  Ret kv.2.

(** A key whose value part says nothing. *)
Definition is_trivial (k : Key) : bool :=
  match k with
  | KType (Anyptr | TPtr _ | Int _ _ | TAnyfloat | TAnyint | Usize | Isize | F16 | F32 | F64 | F128
          | Type_ | Void | Bool | Slice _ | Array _ | Fn _ | Never | Enum _ | EnumLiteral
          | GenericPoison | NullPtr)
  | KPtr _ | KInt _ _ | KFloat _ _ | KStr _ _ | KSlice _ _ _ | KBool _ | KFnDecl _ | KEnumTag _ _
  | KAggregate _ _ | KUnion _ _ _ | KNullPtr | KVoid | KUnreachable | KDeclRef _ | KEnumLiteral _
  | KUndefined _ => true
  | KType (Struct _ | Union _) | KFn _ => false
  end.

Definition intern_trivial (self : ValueStore) (key : Key) : res (Z * ValueStore) :=
  if is_trivial key then
    '(i, m) ← intern_none (value_map self) key;
    Ret (i, mk m (common self))
  else panic.

Definition intern_non_trivial (self : ValueStore) (key : Key) (value : Value) : res (Z * ValueStore) :=
  e ← entry (value_map self) key;
  match e with
  | Occupied map index =>
      '(i, _, m) ← occupied_insert map index value;
      Ret (i, mk m (common self))
  | Vacant map key shard_idx hash =>
      '(i, m) ← vacant_insert map key shard_idx hash value;
      Ret (i, mk m (common self))
  end.

(** The type of an interned value. *)
Definition type_of_interned (self : ValueStore) (i : Z) : res Z :=
  key ← index_to_key self i;
  match key with
  | KType _ => Ret (type_t (common self))
  | KPtr ptr => Ret (ptr_ty ptr)
  | KFn fun_ => Ret (fn_ty fun_)
  | KInt ty _ => Ret ty
  | KFloat ty _ => Ret ty
  | KStr ty _ => Ret ty
  | KSlice ty _ _ => Ret ty
  | KBool _ => Ret (bool_t (common self))
  | KFnDecl decl => Ret (fd_ty decl)
  | KEnumTag ty _ => Ret ty
  | KUndefined ty => Ret ty
  | KAggregate ty _ => Ret ty
  | KVoid => Ret (void_t (common self))
  | KUnreachable => Ret (never_t (common self))
  | KUnion ty _ _ => Ret ty
  | KEnumLiteral _ => Ret (enum_literal_t (common self))
  | KNullPtr => Ret (nullptr_t (common self))
  | KDeclRef _ => panic
  end.

Definition intern_value_ptr (self : ValueStore) (value : Z) : res (Z * ValueStore) :=
  pointee_ty ← type_of_interned self value;
  '(ty, self) ← intern_trivial self
    (KType (TPtr {| ptr_pointee_ty := pointee_ty; ptr_packed := None; is_const := false |}));
  intern_trivial self (KPtr {| ptr_ty := ty; ptr_kind := PtrValue value |}).

Definition intern_enum_tag_from_field_idx (self : ValueStore) (enum_ty : Z) (i : Z) : res (Z * ValueStore) :=
  value ← index_to_value self enum_ty;
  enum ← as_enum_value value;
  field ← get_idx (enum_fields enum) (Z.to_nat i);
  intern_trivial self (KEnumTag (enum_tag_ty enum) (ef_value field)).

(** ** Queries on types *)

(** The type key at [ty]; an index that is not a type is [unreachable!]. *)
Definition type_at (self : ValueStore) (ty : Z) : res (Ty * Value) :=
  '(key, value) ← index_to_key_value self ty;
  match key with KType t => Ret (t, value) | _ => panic end.

(** [for x in l { if f(x) { return true; } } false]. *)
Fixpoint any_of {B} (f : B -> res bool) (l : list B) : res bool :=
  match l with
  | [] => Ret false
  | x :: l => b ← f x; if b : bool then Ret true else any_of f l
  end.

Fixpoint type_is_comptime_only (fuel : nat) (self : ValueStore) (ty : Z) : res bool :=
  match fuel with
  | O => diverge
  | S fuel =>
      '(t, value) ← type_at self ty;
      match t with
      | TAnyint | TAnyfloat | Type_ | EnumLiteral | NullPtr | GenericPoison => Ret true
      | Struct _ =>
          s ← as_struct_value value;
          any_of (fun field => type_is_comptime_only fuel self (sf_ty field)) (struct_fields s)
      | TPtr ptr => type_is_comptime_only fuel self (ptr_pointee_ty ptr)
      | Slice slice => type_is_comptime_only fuel self (slice_pointee_ty slice)
      | Array arr => type_is_comptime_only fuel self (elem_ty arr)
      | Enum _ => e ← as_enum_value value; type_is_comptime_only fuel self (enum_tag_ty e)
      | Union _ =>
          u ← as_union value;
          any_of (fun field => match uf_ty field with
                               | Some ty => type_is_comptime_only fuel self ty
                               | None => Ret false
                               end) (union_fields u)
      | Bool | Anyptr | Int _ _ | Fn _ | Void | Never | Usize | Isize | F16 | F32 | F64 | F128 => Ret false
      end
  end.

Definition type_is_linear (self : ValueStore) (ty : Z) : res bool :=
  '(t, value) ← type_at self ty;
  match t with
  | Struct _ => s ← as_struct_value value; Ret (struct_linear s)
  | Enum _ => e ← as_enum_value value; Ret (enum_linear e)
  | Union _ => u ← as_union value; Ret (union_linear u)
  | _ => Ret false
  end.

Definition type_bit_size (self : ValueStore) (ty : Z) : res Z :=
  '(t, value) ← type_at self ty;
  match t with
  | Int _ bits => Ret bits
  | Struct _ =>
      s ← as_struct_value value;
      match layout s with Packed storage_bits _ _ => Ret storage_bits | Standard => panic end
  | Bool => Ret 1
  | _ => panic
  end.

Definition type_is_int_signed (self : ValueStore) (ty : Z) : res bool :=
  '(t, _) ← type_at self ty;
  match t with
  | Int signed _ => Ret signed
  | Usize => Ret false
  | Isize => Ret true
  | _ => panic
  end.

End Store.
Arguments ValueStore {_} A.
End ValueStore.
