(* ===== verification/ValueLayout.v ===== *)
(** * Sizes and alignments of types ([src/value.rs])

    The layout queries of the value store, with their [u64] arithmetic (an
    overflow, a zero divisor or a pointer width that is not a number of bytes
    panics), and the declarative layout rules they implement: [has_layout] says
    where the fields of a struct go and how large a union is, in unbounded
    integers and without an algorithm. *)

From S2P Require Import Prelude Words HashIndex ShardedMap Anyint Value ValueStore.

#[local] Open Scope Z_scope.

Module ValueLayout.
Import Value ValueStore.

Record Layout : Set := mk { size : Z; align : Z }.

Definition zeroed : Layout := mk 0 1.

Record UnionLayout : Set := {
  union_layout : Layout;
  tag : Layout;
  payload : Layout;
  most_aligned_field : nat * Layout;
  trailing_padding : Z;
}.

(** The part of [ResolvedTargetInfo] that layouts depend on. *)
Record ResolvedTargetInfo : Set := { ptr_width_in_bits : Z }.

(** ** [u64] arithmetic *)

Definition u64_checked (n : Z) : res Z := if n <? 2^64 then Ret n else panic.
Definition u64_add (a b : Z) : res Z := u64_checked (a + b).
Definition u64_mul (a b : Z) : res Z := u64_checked (a * b).

Definition next_multiple_of (a b : Z) : res Z :=
  if b =? 0 then panic
  else let r := a mod b in if r =? 0 then Ret a else u64_add a (b - r).

Definition next_power_of_two (a : Z) : res Z := u64_checked (2 ^ Z.log2_up a).

Definition div_ceil (a b : Z) : Z := (a + b - 1) / b.

(** [x.div_exact(8).unwrap()]. *)
Definition div_exact_8 (x : Z) : res Z := if x mod 8 =? 0 then Ret (x / 8) else panic.

Section Layouts.
Context `{FxHasher} `{HashTable} {A : Type} `{ArenaOps A (Key * Value)}.
Implicit Types (self : ValueStore A) (target : ResolvedTargetInfo).

Definition type_ptr_layout target (ty : Z) : res Layout :=
  size ← div_exact_8 (ptr_width_in_bits target);
  Ret (mk size size).

(** The loop over the fields of a union, for a way to compute their layouts:
    payload size and alignment, most aligned field and its layout. *)
Definition union_field_step (layout_of : Z -> res Layout) (i : nat) (field : UnionField)
    (acc : Z * Z * nat * Layout) : res (Z * Z * nat * Layout) :=
  let '(payload_size, payload_align, most, most_layout) := acc in
  match uf_ty field with
  | None => Ret acc
  | Some field_ty =>
      l ← layout_of field_ty;
      if size l =? 0 then Ret acc
      else
        let payload_size := Z.max payload_size (size l) in
        if payload_align <=? align l then Ret (payload_size, align l, i, l)
        else Ret (payload_size, payload_align, most, most_layout)
  end.

Definition union_fields_loop (layout_of : Z -> res Layout) (fields : list UnionField)
    : res (Z * Z * nat * Layout) :=
  for_enumM fields (union_field_step layout_of) (0, 1, 0%nat, mk 0 0).

Definition union_layout_by (layout_of : Z -> res Layout) self (ty : Z) : res UnionLayout :=
  value ← index_to_value self ty;
  union ← as_union value;
  '(payload_size, payload_align, most, most_layout) ← union_fields_loop layout_of (union_fields union);
  tag ← match union_tag_ty union with Some tag_ty => layout_of tag_ty | None => Ret zeroed end;
  let abi_align := Z.max (align tag) payload_align in
  content_end ←
    (if size tag =? 0 then Ret payload_size
     else if payload_size =? 0 then Ret (size tag)
     else if payload_align <=? align tag then
       n ← next_multiple_of (size tag) payload_align; u64_add n payload_size
     else
       n ← next_multiple_of payload_size (align tag); u64_add n (size tag));
  abi_size ← next_multiple_of content_end abi_align;
  Ret {| union_layout := mk abi_size abi_align;
         payload := mk payload_size payload_align;
         most_aligned_field := (most, most_layout);
         tag := tag;
         trailing_padding := abi_size - content_end |}.

(** The loop over the fields of a struct: size so far and alignment. *)
Definition struct_field_step (layout_of : Z -> res Layout) (field : StructField) (acc : Z * Z)
    : res (Z * Z) :=
  let '(size_, align_) := acc in
  l ← layout_of (sf_ty field);
  size_ ← next_multiple_of size_ (align l);
  size_ ← u64_add size_ (size l);
  Ret (size_, Z.max align_ (align l)).

Definition struct_fields_loop (layout_of : Z -> res Layout) (fields : list StructField) (s : Z * Z)
    : res (Z * Z) :=
  for_enumM fields (fun _ => struct_field_step layout_of) s.

Fixpoint type_layout (fuel : nat) self target (ty : Z) : res Layout :=
  match fuel with
  | O => diverge
  | S fuel =>
      '(t, value) ← type_at self ty;
      match t with
      | Bool => Ret (mk 1 1)
      | Int _ bits =>
          let size := div_ceil bits 8 in
          align ← next_power_of_two size;
          Ret (mk size align)
      | F16 => Ret (mk 2 2)
      | F32 => Ret (mk 4 4)
      | F64 => Ret (mk 8 8)
      | F128 => Ret (mk 16 16)
      | TPtr _ | Usize | Isize => type_ptr_layout target ty
      | Array array =>
          elem ← type_layout fuel self target (elem_ty array);
          stride ← next_multiple_of (size elem) (align elem);
          size ← u64_mul stride (array_len array);
          Ret (mk size (align elem))
      | Slice _ | Anyptr =>
          ptr_size ← div_exact_8 (ptr_width_in_bits target);
          size ← u64_mul ptr_size 2;
          Ret (mk size ptr_size)
      | Struct _ =>
          s ← as_struct_value value;
          match layout s with
          | Standard =>
              '(size, align) ← struct_fields_loop (type_layout fuel self target) (struct_fields s) (0, 1);
              size ← next_multiple_of size align;
              Ret (mk size align)
          | Packed storage_bits _ _ => Ret (mk (div_ceil storage_bits 8) 1)
          end
      | Enum _ => e ← as_enum_value value; type_layout fuel self target (enum_tag_ty e)
      | Union _ =>
          _ ← as_union value;
          u ← union_layout_by (type_layout fuel self target) self ty;
          Ret (union_layout u)
      | Void => Ret (mk 0 0)
      | TAnyint | TAnyfloat | Fn _ | NullPtr | Type_ | Never | EnumLiteral | GenericPoison => panic
      end
  end.

Definition type_union_layout (fuel : nat) self target (ty : Z) : res UnionLayout :=
  union_layout_by (type_layout fuel self target) self ty.

End Layouts.

(** ** The rules *)

(** [n] is the first multiple of [a] from [pos] on. *)
Definition first_multiple (pos a n : Z) : Prop := pos <= n < pos + a /\ (a | n).

(** [s] bytes for [bits] bits, aligned to the least power of two that covers them. *)
Definition int_layout (bits s a : Z) : Prop :=
  8 * (s - 1) < bits <= 8 * s /\
  exists k, 0 <= k /\ a = 2^k /\ s <= a /\ (k = 0 \/ 2^(k - 1) < s).

Section Rules.
Context `{FxHasher} `{HashTable} {A : Type} `{ArenaOps A (Key * Value)}.
Context (self : ValueStore A) (target : ResolvedTargetInfo).

(** The bytes of a pointer. *)
Definition ptr_bytes (w : Z) : Prop := ptr_width_in_bits target = 8 * w.

Definition scalar_layout (t : Ty) (s a : Z) : Prop :=
  match t with
  | Bool => s = 1 /\ a = 1
  | F16 => s = 2 /\ a = 2
  | F32 => s = 4 /\ a = 4
  | F64 => s = 8 /\ a = 8
  | F128 => s = 16 /\ a = 16
  | Void => s = 0 /\ a = 0
  | Int _ bits => 0 <= bits < 2^16 /\ int_layout bits s a
  | TPtr _ | Usize | Isize => ptr_bytes s /\ a = s
  | Slice _ | Anyptr => ptr_bytes a /\ s = 2 * a
  | _ => False
  end.

(** Where the contents of a union end: the more aligned of tag and payload
    first, the other at its first multiple. *)
Definition content_end (ts ta ps pa n : Z) : Prop :=
  (ts = 0 /\ n = ps) \/
  (ts <> 0 /\ ps = 0 /\ n = ts) \/
  (ts <> 0 /\ ps <> 0 /\ pa <= ta /\ exists off, first_multiple ts pa off /\ n = off + ps) \/
  (ts <> 0 /\ ps <> 0 /\ ta < pa /\ exists off, first_multiple ps ta off /\ n = off + ts).

Inductive has_layout : Z -> Z -> Z -> Prop :=
  | hl_scalar ty t v s a :
      type_at self ty = Ret (t, v) -> scalar_layout t s a -> has_layout ty s a
  | hl_array ty arr v se ae stride :
      type_at self ty = Ret (Array arr, v) -> has_layout (elem_ty arr) se ae ->
      first_multiple se ae stride -> stride < 2^64 ->
      0 <= array_len arr -> stride * array_len arr < 2^64 ->
      has_layout ty (stride * array_len arr) ae
  | hl_struct ty ns st offs n al s :
      type_at self ty = Ret (Struct ns, VStruct st) -> layout st = Standard ->
      placed (struct_fields st) 0 1 offs n al -> first_multiple n al s -> s < 2^64 ->
      has_layout ty s al
  | hl_packed ty ns st bits fb pf s :
      type_at self ty = Ret (Struct ns, VStruct st) -> layout st = Packed bits fb pf ->
      0 <= bits < 2^32 -> 8 * (s - 1) < bits <= 8 * s -> has_layout ty s 1
  | hl_enum ty ns e s a :
      type_at self ty = Ret (Enum ns, VEnum e) -> has_layout (enum_tag_ty e) s a -> has_layout ty s a
  | hl_union ty ns u ts ta ps pa n s :
      type_at self ty = Ret (Union ns, VUnion u) ->
      tag_layout (union_tag_ty u) ts ta -> variants (union_fields u) 0 1 ps pa ->
      content_end ts ta ps pa n -> first_multiple n (Z.max ta pa) s -> s < 2^64 ->
      has_layout ty s (Z.max ta pa)
(** The fields of a struct from position [pos] on, with their offsets. *)
with placed : list StructField -> Z -> Z -> list Z -> Z -> Z -> Prop :=
  | placed_nil pos al : placed [] pos al [] pos al
  | placed_cons f fs pos al s a off offs pos' al' :
      has_layout (sf_ty f) s a -> first_multiple pos a off -> off + s < 2^64 ->
      placed fs (off + s) (Z.max al a) offs pos' al' ->
      placed (f :: fs) pos al (off :: offs) pos' al'
(** The largest size and alignment of the variants that hold data. *)
with variants : list UnionField -> Z -> Z -> Z -> Z -> Prop :=
  | variants_nil ps pa : variants [] ps pa ps pa
  | variants_none f fs ps pa ps' pa' :
      uf_ty f = None -> variants fs ps pa ps' pa' -> variants (f :: fs) ps pa ps' pa'
  | variants_empty f fs ty a ps pa ps' pa' :
      uf_ty f = Some ty -> has_layout ty 0 a -> variants fs ps pa ps' pa' ->
      variants (f :: fs) ps pa ps' pa'
  | variants_cons f fs ty s a ps pa ps' pa' :
      uf_ty f = Some ty -> has_layout ty s a -> s <> 0 ->
      variants fs (Z.max ps s) (Z.max pa a) ps' pa' -> variants (f :: fs) ps pa ps' pa'
with tag_layout : option Z -> Z -> Z -> Prop :=
  | tag_none : tag_layout None 0 1
  | tag_some ty s a : has_layout ty s a -> tag_layout (Some ty) s a.

End Rules.

Scheme has_layout_mind := Induction for has_layout Sort Prop
  with placed_mind := Induction for placed Sort Prop
  with variants_mind := Induction for variants Sort Prop
  with tag_layout_mind := Induction for tag_layout Sort Prop.
Combined Scheme layout_mutind from has_layout_mind, placed_mind, variants_mind, tag_layout_mind.

End ValueLayout.
