(* ===== verification/ValueSpec.v ===== *)
(** * What the value store promises

    The preallocated values of a new store, the pointers to values, and the
    recursive query that decides whether a type exists at run time: it
    terminates on every type whose parts are well founded and answers whether a
    compile-time-only type can be reached.

    Module [ValueLayoutSpec] proves that the layout queries implement the layout
    rules, and what these mean: the fields of a struct are aligned, disjoint and
    inside it, the variants of a union fit beside its tag. *)

From S2P Require Import Prelude Words HashIndex VirtDynArray ShardedMap Anyint Value ValueStore.
From S2P Require Import ValueLayout VirtDynArraySpec ShardedSpec.
From stdpp Require Import relations.

#[local] Open Scope Z_scope.

Module ValueLayoutSpec.
Import Value ValueStore ValueLayout.

(** ** Enough fuel *)

Definition eventually (P : nat -> Prop) : Prop := exists n, forall fuel, (n <= fuel)%nat -> P fuel.

Lemma eventually_true P : (forall n, P n) -> eventually P.
Proof. intros. exists O. auto. Qed.

Lemma eventually_and P Q : eventually P -> eventually Q -> eventually (fun n => P n /\ Q n).
Proof. intros [n Hn] [m Hm]. exists (n `max` m)%nat. intros. split; [apply Hn|apply Hm]; lia. Qed.

Lemma eventually_mono (P Q : nat -> Prop) : (forall n, P n -> Q n) -> eventually P -> eventually Q.
Proof. intros HPQ [n Hn]. exists n. auto. Qed.

Lemma eventually_S P : eventually (fun n => P (S n)) -> eventually P.
Proof. intros [n Hn]. exists (S n). intros [|fuel] Hf; [lia|]. apply Hn. lia. Qed.

(** ** Arithmetic *)

Definition pow2 (a : Z) : Prop := exists k, 0 <= k /\ a = 2^k.

Lemma pow2_1 : pow2 1.
Proof. by exists 0. Qed.
#[local] Hint Resolve pow2_1 : core.

Lemma pow2_pos a : pow2 a -> 0 < a.
Proof. intros (k & Hk & ->). by apply Z.pow_pos_nonneg. Qed.

Lemma pow2_divide a b : pow2 a -> pow2 b -> a <= b -> (a | b).
Proof.
  intros (k & Hk & ->) (l & Hl & ->) Hle. apply Z.pow_le_mono_r_iff in Hle; [|lia..].
  exists (2^(l - k)). rewrite <- Z.pow_add_r by lia. f_equal. lia.
Qed.

Lemma pow2_max a b : pow2 a -> pow2 b -> pow2 (Z.max a b) /\ (a | Z.max a b) /\ (b | Z.max a b).
Proof.
  intros Ha Hb. destruct (Z.max_spec_le a b) as [[Hle ->]|[Hle ->]]; split_and!; auto using Z.divide_refl, pow2_divide.
Qed.

Lemma first_multiple_pos pos a n : first_multiple pos a n -> 0 < a.
Proof. intros [? _]. lia. Qed.

Lemma u64_checked_ok n : n < 2^64 -> u64_checked n = Ret n.
Proof. intros. unfold u64_checked. by rewrite (proj2 (Z.ltb_lt _ _)) by done. Qed.

Lemma next_multiple_ok pos a n :
  first_multiple pos a n -> n < 2^64 -> next_multiple_of pos a = Ret n.
Proof.
  intros [Hn [q Hq]] Hlt. assert (Ha : 0 < a) by lia. unfold next_multiple_of.
  rewrite (proj2 (Z.eqb_neq _ _)) by lia.
  pose proof (Z.div_mod pos a) as Hd. pose proof (Z.mod_pos_bound pos a Ha) as Hm.
  destruct (Z.eqb_spec (pos mod a) 0) as [He|He].
  - f_equal. assert (q = pos / a) by nia. nia.
  - unfold u64_add. assert (q = pos / a + 1) by nia.
    replace (pos + (a - pos mod a)) with n by nia. by apply u64_checked_ok.
Qed.

Lemma div_ceil_ok bits s : 8 * (s - 1) < bits <= 8 * s -> div_ceil bits 8 = s.
Proof.
  intros. unfold div_ceil. symmetry. apply (Z.div_unique _ _ _ (bits + 8 - 1 - 8 * s)); lia.
Qed.

Lemma next_power_of_two_ok bits s a :
  0 <= bits < 2^16 -> int_layout bits s a -> next_power_of_two s = Ret a /\ pow2 a /\ 0 <= s < 2^14.
Proof.
  intros Hb [Hs (k & Hk & -> & Hle & Hmin)]. change (2^16) with 65536 in Hb. change (2^14) with 16384.
  assert (Hup : Z.log2_up s = k).
  { destruct (decide (k = 0)) as [->|Hk0].
    - apply Z.log2_up_eqn0. simpl in Hle. lia.
    - destruct Hmin as [|Hmin]; [done|]. pose proof (Z.pow_pos_nonneg 2 (k - 1)).
      apply Z.log2_up_unique; [lia|]. replace (Z.pred k) with (k - 1) by lia. lia. }
  split_and!; [|by exists k|lia|lia]. unfold next_power_of_two. rewrite Hup. apply u64_checked_ok.
  enough (2^k < 2^15) by (change (2^15) with 32768 in *; lia). apply Z.pow_lt_mono_r; [lia..|].
  destruct Hmin as [->|Hmin]; [lia|]. assert (2^(k - 1) < 2^14) by (change (2^14) with 16384; lia).
  apply Z.pow_lt_mono_r_iff in H; lia.
Qed.

Section Spec.
Context `{FxHasher} `{HashTable} {A : Type} `{ArenaOps A (Key * Value)}.
Context (self : ValueStore A) (target : ResolvedTargetInfo).

(** The pointer widths of the targets: 16, 32 and 64 bits. *)
Context (Htarget : exists k, 1 <= k <= 3 /\ ptr_width_in_bits target = 8 * 2^k).

Abbreviation has_layout := (has_layout self target).
Abbreviation placed := (placed self target).
Abbreviation variants := (variants self target).
Abbreviation tag_layout := (tag_layout self target).

Lemma ptr_bytes_ok w : ptr_bytes target w -> div_exact_8 (ptr_width_in_bits target) = Ret w /\ pow2 w /\ 0 < w <= 8.
Proof.
  unfold ptr_bytes, div_exact_8. destruct Htarget as (k & Hk & ->). intros Hw.
  assert (w = 2^k) as -> by lia. rewrite Z.mul_comm, Z.mod_mul, Z.div_mul by lia. split_and!; [done|by exists k; lia| |].
  - by apply Z.pow_pos_nonneg; lia.
  - change 8 with (2^3). apply Z.pow_le_mono_r; lia.
Qed.

(** ** What the rules keep *)

(** Sizes fit a [u64]; alignments are powers of two, but that of [void] is 0. *)
Definition layout_wf (s a : Z) : Prop := 0 <= s < 2^64 /\ (s = 0 /\ a = 0 \/ pow2 a).

Lemma scalar_wf t s a : scalar_layout target t s a -> layout_wf s a.
Proof.
  unfold layout_wf. intros Ht.
  assert (Hp : forall w, ptr_bytes target w -> pow2 w /\ 0 < w <= 8) by (intros w Hw; by apply ptr_bytes_ok in Hw as [_ ?]).
  destruct t; simpl in Ht; try done;
    try (destruct Ht as [-> ->]; split; [lia|]; first [by left|right; first [by exists 0|by exists 1|by exists 2|by exists 3|by exists 4]]);
    try (destruct Ht as [Ht ->]; apply Hp in Ht as [? ?]; split; [lia|by right]).
  destruct Ht as [Hb Hl]. apply next_power_of_two_ok in Hl as (_ & ? & ?); [|done]. split; [lia|by right].
Qed.

Lemma content_end_nonneg ts ta ps pa n :
  content_end ts ta ps pa n -> 0 <= ts -> 0 <= ps -> 0 <= n.
Proof.
  intros [[_ ->]|[(_ & _ & ->)|[(_ & _ & _ & off & [? _] & ->)|(_ & _ & _ & off & [? _] & ->)]]]; lia.
Qed.

(** A field, or a variant, of size [s] and alignment [a] keeps an accumulator well formed. *)
Lemma max_wf s a al : layout_wf s a -> 0 < a -> pow2 al -> pow2 (Z.max al a) /\ (al | Z.max al a) /\ (a | Z.max al a).
Proof. intros [_ [[_ ->]|Ha]] Hpos Hal; [lia|]. by apply pow2_max. Qed.

Lemma layout_wf_all :
  (forall ty s a, has_layout ty s a -> layout_wf s a) /\
  (forall fs pos al offs pos' al', placed fs pos al offs pos' al' ->
     0 <= pos < 2^64 -> pow2 al -> pos <= pos' < 2^64 /\ pow2 al' /\ (al | al')) /\
  (forall fs ps pa ps' pa', variants fs ps pa ps' pa' ->
     0 <= ps < 2^64 -> pow2 pa -> ps <= ps' < 2^64 /\ pow2 pa' /\ (pa | pa')) /\
  (forall t s a, tag_layout t s a -> layout_wf s a).
Proof.
  apply (layout_mutind _ A _ self target
    (fun ty s a _ => layout_wf s a)
    (fun fs pos al offs pos' al' _ => 0 <= pos < 2^64 -> pow2 al -> pos <= pos' < 2^64 /\ pow2 al' /\ (al | al'))
    (fun fs ps pa ps' pa' _ => 0 <= ps < 2^64 -> pow2 pa -> ps <= ps' < 2^64 /\ pow2 pa' /\ (pa | pa'))
    (fun t s a _ => layout_wf s a)).
  - intros ty t v s a _. apply scalar_wf.
  - intros ty arr v se ae stride _ _ [Hs Ha] [Hm _] Hlt Hlen Hsz. split; [nia|].
    destruct Ha as [[_ ->]|Ha]; [lia|by right].
  - intros ty ns st offs n al s _ _ _ IH [Hm _] Hlt.
    destruct IH as (? & ? & _); [lia|done|]. split; [lia|by right].
  - intros ty ns st bits fb pf s _ _ Hb Hs. split; [lia|by right].
  - auto.
  - intros ty ns u ts ta ps pa n s _ _ [Hts Hta] _ IHv Hc [Hm _] Hlt.
    destruct IHv as (Hps & Hpa & _); [lia|done|].
    pose proof (content_end_nonneg _ _ _ _ _ Hc). split; [lia|]. right.
    destruct Hta as [[_ ->]|Hta]; [|by apply pow2_max].
    rewrite Z.max_r; [done|]. by apply Z.lt_le_incl, pow2_pos.
  - intros pos al Hpos Hal. split; [lia|]. auto using Z.divide_refl.
  - intros f fs pos al s a off offs pos' al' _ Hwf Hm Hlt _ IH Hpos Hal.
    destruct (max_wf s a al Hwf (first_multiple_pos _ _ _ Hm) Hal) as (Hmax & Hd & _).
    destruct Hm as [Hm _]. destruct Hwf as [Hs _].
    destruct IH as (? & ? & ?); [lia|done|]. split; [lia|]. split; [done|]. by etransitivity.
  - intros ps pa Hps Hpa. split; [lia|]. auto using Z.divide_refl.
  - auto.
  - auto.
  - intros f fs ty s a ps pa ps' pa' _ _ Hwf Hs _ IH Hps Hpa.
    destruct Hwf as [Hsz [[? _]|Ha]]; [done|]. destruct (pow2_max pa a Hpa Ha) as (? & ? & _).
    destruct IH as (? & ? & ?); [lia|done|]. split; [lia|]. split; [done|]. by etransitivity.
  - split; [lia|by right].
  - auto.
Qed.

Definition has_layout_wf := proj1 layout_wf_all.
Definition placed_wf := proj1 (proj2 layout_wf_all).
Definition variants_wf := proj1 (proj2 (proj2 layout_wf_all)).
Definition tag_layout_wf := proj2 (proj2 (proj2 layout_wf_all)).

(** ** The queries implement the rules *)

Definition computes (ty s a : Z) : Prop :=
  eventually (fun fuel => type_layout fuel self target ty = Ret (mk s a)).

Lemma struct_step layout_of f pos al s a off :
  layout_of (sf_ty f) = Ret (mk s a) -> first_multiple pos a off -> 0 <= s -> off + s < 2^64 ->
  struct_field_step layout_of f (pos, al) = Ret (off + s, Z.max al a).
Proof.
  intros Hl Hm Hs Hlt. unfold struct_field_step. rewrite Hl. simpl.
  rewrite (next_multiple_ok _ _ _ Hm) by lia. simpl. unfold u64_add.
  by rewrite u64_checked_ok by done.
Qed.

Lemma scalar_computes fuel ty t v s a :
  type_at self ty = Ret (t, v) -> scalar_layout target t s a ->
  type_layout (S fuel) self target ty = Ret (mk s a).
Proof.
  intros Hty Ht. cbn [type_layout]. rewrite Hty. simpl.
  destruct t; simpl in Ht; try done; try (by destruct Ht as [-> ->]).
  - destruct Ht as [Hb Hl]. destruct (next_power_of_two_ok _ _ _ Hb Hl) as [Hp _].
    rewrite (div_ceil_ok bits s) by apply Hl. by rewrite Hp.
  - destruct Ht as [Hw ->]. unfold type_ptr_layout. by rewrite (proj1 (ptr_bytes_ok _ Hw)).
  - destruct Ht as [Hw ->]. unfold type_ptr_layout. by rewrite (proj1 (ptr_bytes_ok _ Hw)).
  - destruct Ht as [Hw ->]. unfold type_ptr_layout. by rewrite (proj1 (ptr_bytes_ok _ Hw)).
  - destruct Ht as [Hw ->]. destruct (ptr_bytes_ok _ Hw) as (-> & _ & ?). simpl. unfold u64_mul.
    rewrite u64_checked_ok by lia. simpl. do 2 f_equal. lia.
  - destruct Ht as [Hw ->]. destruct (ptr_bytes_ok _ Hw) as (-> & _ & ?). simpl. unfold u64_mul.
    rewrite u64_checked_ok by lia. simpl. do 2 f_equal. lia.
Qed.

(** What the loop over the variants keeps of the most aligned one. *)
Definition most_ok (ps pa : Z) (ml : Layout) : Prop :=
  (ps = 0 /\ pa = 1 /\ ml = mk 0 0) \/ (ps <> 0 /\ align ml = pa /\ 0 < size ml <= ps).

Lemma union_step layout_of i f ty ps pa most ml s a :
  uf_ty f = Some ty -> layout_of ty = Ret (mk s a) -> layout_wf s a -> s <> 0 -> 0 <= ps -> most_ok ps pa ml ->
  exists most' ml', union_field_step layout_of i f (ps, pa, most, ml) =
    Ret (Z.max ps s, Z.max pa a, most', ml') /\ most_ok (Z.max ps s) (Z.max pa a) ml'.
Proof.
  intros Hty Hl [Hs Ha] Hs0 Hps Hmost. unfold union_field_step. rewrite Hty, Hl. simpl.
  destruct (Z.eqb_spec s 0); [done|]. destruct Ha as [[? _]|Ha%pow2_pos]; [done|].
  destruct (Z.leb_spec pa a).
  - exists i, (mk s a). rewrite (Z.max_r pa) by lia. split; [done|]. right. simpl. lia.
  - exists most, ml. rewrite (Z.max_l pa) by lia. split; [done|]. destruct Hmost as [(-> & -> & ->)|(? & ? & ?)]; [lia|]. right. lia.
Qed.

(** The end of a union's contents, as the code computes it. *)
Lemma content_end_ok ts ta ps pa n :
  content_end ts ta ps pa n -> 0 <= ts -> 0 <= ps -> n < 2^64 ->
  (if ts =? 0 then Ret ps
   else if ps =? 0 then Ret ts
   else if pa <=? ta then m ← next_multiple_of ts pa; u64_add m ps
   else m ← next_multiple_of ps ta; u64_add m ts) = Ret n.
Proof.
  intros Hc Hts Hps Hn. unfold u64_add.
  destruct Hc as [[-> ->]|[(Ht & -> & ->)|[(Ht & Hp & Hle & off & Hm & ->)|(Ht & Hp & Hlt & off & Hm & ->)]]].
  - done.
  - by rewrite (proj2 (Z.eqb_neq _ _) Ht).
  - rewrite (proj2 (Z.eqb_neq _ _) Ht), (proj2 (Z.eqb_neq _ _) Hp), (proj2 (Z.leb_le _ _) Hle).
    rewrite (next_multiple_ok _ _ _ Hm) by lia. simpl. by apply u64_checked_ok.
  - rewrite (proj2 (Z.eqb_neq _ _) Ht), (proj2 (Z.eqb_neq _ _) Hp), (proj2 (Z.leb_gt _ _) Hlt).
    rewrite (next_multiple_ok _ _ _ Hm) by lia. simpl. by apply u64_checked_ok.
Qed.

(** The result of the union query, for contents that the rules allow. *)
Definition union_result (ts ta ps pa n s : Z) (most : nat) (ml : Layout) : UnionLayout :=
  {| union_layout := mk s (Z.max ta pa); payload := mk ps pa; most_aligned_field := (most, ml);
     tag := mk ts ta; trailing_padding := s - n |}.

Lemma union_layout_ok layout_of ty k u ts ta ps pa n s most ml :
  index_to_key_value self ty = Ret (k, VUnion u) ->
  union_fields_loop layout_of (union_fields u) = Ret (ps, pa, most, ml) ->
  match union_tag_ty u with Some t => layout_of t | None => Ret zeroed end = Ret (mk ts ta) ->
  content_end ts ta ps pa n -> first_multiple n (Z.max ta pa) s -> s < 2^64 -> 0 <= ts -> 0 <= ps ->
  union_layout_by layout_of self ty = Ret (union_result ts ta ps pa n s most ml).
Proof.
  intros Hu Hf Ht Hc Hm Hlt Hts Hps. unfold union_layout_by, index_to_value.
  unfold index_to_key_value in Hu. rewrite Hu. simpl. rewrite Hf. simpl. rewrite Ht. simpl.
  assert (n < 2^64) by (destruct Hm; lia).
  rewrite (content_end_ok _ _ _ _ _ Hc) by done. simpl.
  by rewrite (next_multiple_ok _ _ _ Hm) by done.
Qed.

Lemma type_at_kv ty t v : type_at self ty = Ret (t, v) -> exists k, index_to_key_value self ty = Ret (k, v).
Proof.
  unfold type_at. destruct (index_to_key_value self ty) as [[k w]|]; simpl; [|done].
  destruct k; try done. intros [= _ <-]. eauto.
Qed.

(** The recursive cases, for the fuel their parts need. *)
Lemma array_step fuel ty arr v se ae stride :
  type_at self ty = Ret (Array arr, v) -> type_layout fuel self target (elem_ty arr) = Ret (mk se ae) ->
  first_multiple se ae stride -> stride < 2^64 -> stride * array_len arr < 2^64 ->
  type_layout (S fuel) self target ty = Ret (mk (stride * array_len arr) ae).
Proof.
  intros Hty He Hm Hlt Hsz. cbn [type_layout]. rewrite Hty. simpl. rewrite He. simpl.
  rewrite (next_multiple_ok _ _ _ Hm) by done. simpl. unfold u64_mul. by rewrite u64_checked_ok by done.
Qed.

Lemma standard_step fuel ty ns st n al s :
  type_at self ty = Ret (Struct ns, VStruct st) -> layout st = Standard ->
  struct_fields_loop (type_layout fuel self target) (struct_fields st) (0, 1) = Ret (n, al) ->
  first_multiple n al s -> s < 2^64 -> type_layout (S fuel) self target ty = Ret (mk s al).
Proof.
  intros Hty Hlay Hf Hm Hlt. cbn [type_layout]. rewrite Hty. simpl. rewrite Hlay, Hf. simpl.
  by rewrite (next_multiple_ok _ _ _ Hm) by done.
Qed.

Lemma union_type_step fuel ty ns u r :
  type_at self ty = Ret (Union ns, VUnion u) -> type_union_layout fuel self target ty = Ret r ->
  type_layout (S fuel) self target ty = Ret (union_layout r).
Proof. intros Hty Hr. cbn [type_layout]. rewrite Hty. simpl. unfold type_union_layout in Hr. by rewrite Hr. Qed.

(** The union query, when its parts have been computed. *)
Lemma union_query fuel ty ns u ts ta ps pa n s :
  type_at self ty = Ret (Union ns, VUnion u) ->
  tag_layout (union_tag_ty u) ts ta -> variants (union_fields u) 0 1 ps pa ->
  content_end ts ta ps pa n -> first_multiple n (Z.max ta pa) s -> s < 2^64 ->
  match union_tag_ty u with Some t => type_layout fuel self target t | None => Ret zeroed end = Ret (mk ts ta) ->
  (forall k most ml, 0 <= 0 -> most_ok 0 1 ml -> exists most' ml',
     for_enumM_from k (union_fields u) (union_field_step (type_layout fuel self target)) (0, 1, most, ml)
       = Ret (ps, pa, most', ml') /\ most_ok ps pa ml') ->
  exists most ml, type_union_layout fuel self target ty = Ret (union_result ts ta ps pa n s most ml) /\
    most_ok ps pa ml.
Proof.
  intros Hty Htag Hv Hc Hm Hlt It Iv.
  destruct (Iv 0%nat 0%nat (mk 0 0)) as (most & ml & Hloop & Hmost); [lia|by left|].
  destruct (type_at_kv _ _ _ Hty) as [k Hk].
  destruct (tag_layout_wf _ _ _ Htag) as [[? _] _].
  destruct (variants_wf _ _ _ _ _ Hv) as [[? _] _]; [lia|done|].
  exists most, ml. split; [|done].
  by apply (union_layout_ok _ _ k u ts ta ps pa n s most ml Hk Hloop It Hc Hm).
Qed.

Lemma computes_all :
  (forall ty s a, has_layout ty s a -> computes ty s a) /\
  (forall fs pos al offs pos' al', placed fs pos al offs pos' al' ->
     eventually (fun fuel => forall k, 0 <= pos -> 
       for_enumM_from k fs (fun _ => struct_field_step (type_layout fuel self target)) (pos, al) = Ret (pos', al'))) /\
  (forall fs ps pa ps' pa', variants fs ps pa ps' pa' ->
     eventually (fun fuel => forall k most ml, 0 <= ps -> most_ok ps pa ml -> exists most' ml',
       for_enumM_from k fs (union_field_step (type_layout fuel self target)) (ps, pa, most, ml)
         = Ret (ps', pa', most', ml') /\ most_ok ps' pa' ml')) /\
  (forall t s a, tag_layout t s a ->
     eventually (fun fuel => match t with Some ty => type_layout fuel self target ty | None => Ret zeroed end
                             = Ret (mk s a))).
Proof.
  apply (layout_mutind _ A _ self target
    (fun ty s a _ => computes ty s a)
    (fun fs pos al offs pos' al' _ => eventually (fun fuel => forall k, 0 <= pos ->
       for_enumM_from k fs (fun _ => struct_field_step (type_layout fuel self target)) (pos, al) = Ret (pos', al')))
    (fun fs ps pa ps' pa' _ => eventually (fun fuel => forall k most ml, 0 <= ps -> most_ok ps pa ml -> exists most' ml',
       for_enumM_from k fs (union_field_step (type_layout fuel self target)) (ps, pa, most, ml)
         = Ret (ps', pa', most', ml') /\ most_ok ps' pa' ml'))
    (fun t s a _ => eventually (fun fuel =>
       match t with Some ty => type_layout fuel self target ty | None => Ret zeroed end = Ret (mk s a)))).
  - intros ty t v s a Hty Ht. apply eventually_S, eventually_true. intros fuel. by eapply scalar_computes.
  - intros ty arr v se ae stride Hty _ IH Hm Hlt Hlen Hsz. apply eventually_S. revert IH.
    apply eventually_mono. intros fuel IH. by eapply array_step.
  - intros ty ns st offs n al s Hty Hlay _ IH Hm Hlt. apply eventually_S. revert IH.
    apply eventually_mono. intros fuel IH. eapply standard_step; [done..| |done|done]. by apply IH.
  - intros ty ns st bits fb pf s Hty Hlay Hb Hs. apply eventually_S, eventually_true. intros fuel.
    cbn [type_layout]. rewrite Hty. simpl. rewrite Hlay. by rewrite (div_ceil_ok _ _ Hs).
  - intros ty ns e s a Hty _ IH. apply eventually_S. revert IH. apply eventually_mono. intros fuel IH.
    cbn [type_layout]. by rewrite Hty.
  - intros ty ns u ts ta ps pa n s Hty Htag IHt Hv IHv Hc Hm Hlt. apply eventually_S.
    pose proof (eventually_and _ _ IHt IHv) as IH. revert IH. apply eventually_mono. intros fuel [It Iv].
    destruct (union_query fuel ty ns u ts ta ps pa n s) as (most & ml & Hu & _); try done.
    by rewrite (union_type_step _ _ _ _ _ Hty Hu).
  - intros pos al. by apply eventually_true.
  - intros f fs pos al s a off offs pos' al' Hl IHl Hm Hlt _ IHp.
    pose proof (eventually_and _ _ IHl IHp) as IH. revert IH. apply eventually_mono. intros fuel [Il Ip] k Hpos.
    destruct (has_layout_wf _ _ _ Hl) as [[? _] _]. cbn [for_enumM_from].
    rewrite (struct_step _ _ _ _ s a off Il Hm) by done. simpl. apply Ip. destruct Hm. lia.
  - intros ps pa. apply eventually_true. intros fuel k most ml _ Hmost. by exists most, ml.
  - intros f fs ps pa ps' pa' Hn _ IH. revert IH. apply eventually_mono. intros fuel Iv k most ml Hps Hmost.
    cbn [for_enumM_from].
    assert (union_field_step (type_layout fuel self target) k f (ps, pa, most, ml) = Ret (ps, pa, most, ml)) as ->
      by (unfold union_field_step; by rewrite Hn).
    simpl. by apply Iv.
  - intros f fs ty a ps pa ps' pa' Hty _ IHl _ IHv. pose proof (eventually_and _ _ IHl IHv) as IH. revert IH.
    apply eventually_mono. intros fuel [Il Iv] k most ml Hps Hmost.
    cbn [for_enumM_from].
    assert (union_field_step (type_layout fuel self target) k f (ps, pa, most, ml) = Ret (ps, pa, most, ml)) as ->
      by (unfold union_field_step; by rewrite Hty, Il).
    simpl. by apply Iv.
  - intros f fs ty s a ps pa ps' pa' Hty Hl IHl Hs _ IHv. pose proof (eventually_and _ _ IHl IHv) as IH. revert IH.
    apply eventually_mono. intros fuel [Il Iv] k most ml Hps Hmost.
    destruct (union_step _ k f ty ps pa most ml s a Hty Il (has_layout_wf _ _ _ Hl) Hs Hps Hmost)
      as (most1 & ml1 & Hst & Hm1).
    cbn [for_enumM_from]. rewrite Hst. simpl. apply Iv; [lia|done].
  - by apply eventually_true.
  - intros ty s a _ IH. exact IH.
Qed.

(** ** What the rules mean *)

(** Field [i] of [fs], laid out at [offs], is aligned, inside [[pos, pos')], and
    ends before the next ones start. *)
Definition field_placed (fs : list StructField) (offs : list Z) (pos pos' al' : Z) (i : nat) : Prop :=
  forall f off, fs !! i = Some f -> offs !! i = Some off ->
  exists s a, has_layout (sf_ty f) s a /\ (a | off) /\ (a | al') /\ pos <= off /\ off + s <= pos' /\
    forall j off', (i < j)%nat -> offs !! j = Some off' -> off + s <= off'.

Lemma placed_offsets fs pos al offs pos' al' :
  placed fs pos al offs pos' al' -> length offs = length fs /\ Forall (fun off => pos <= off) offs.
Proof.
  induction 1 as [|f fs pos al s a off offs pos' al' Hl [Hm _] Hlt _ [IHl IHf]]; [done|].
  destruct (has_layout_wf _ _ _ Hl) as [[? _] _].
  split; [simpl; lia|]. constructor; [lia|]. eapply Forall_impl; [exact IHf|]. simpl. lia.
Qed.

Lemma placed_fields fs pos al offs pos' al' :
  placed fs pos al offs pos' al' -> 0 <= pos < 2^64 -> pow2 al ->
  forall i, field_placed fs offs pos pos' al' i.
Proof.
  induction 1 as [|f fs pos al s a off offs pos' al' Hl Hm Hlt Hp IH]; intros Hpos Hal i g o Hi Ho.
  { by rewrite lookup_nil in Hi. }
  pose proof (has_layout_wf _ _ _ Hl) as Hwf. pose proof (first_multiple_pos _ _ _ Hm) as Ha.
  destruct (max_wf s a al Hwf Ha Hal) as (Hmax & _ & Hda). destruct Hwf as [[Hs _] _].
  destruct Hm as [Hm Hd].
  destruct (placed_wf _ _ _ _ _ _ Hp) as (Hend & Hal' & Hmd); [lia|done|].
  destruct i as [|i]; simpl in Hi, Ho.
  - simplify_eq. exists s, a. split_and!; try done; try lia; [by etransitivity|].
    intros [|j] off' Hj Ho; [lia|]. simpl in Ho. apply placed_offsets in Hp as [_ Hf].
    by eapply (Forall_lookup_1 _ _ _ _ Hf).
  - destruct (IH ltac:(lia) Hmax i g o Hi Ho) as (s2 & a2 & Hl2 & Hd2 & Hda2 & Hlo & Hhi & Hnext).
    exists s2, a2. split_and!; try done; try lia. intros [|j] off' Hj Ho'; [lia|].
    simpl in Ho'. eapply Hnext; [|done]. lia.
Qed.

(** Each variant that holds data fits the payload. *)
Lemma variants_fit fs ps pa ps' pa' :
  variants fs ps pa ps' pa' -> 0 <= ps < 2^64 -> pow2 pa ->
  forall f ty, f ∈ fs -> uf_ty f = Some ty ->
  exists s a, has_layout ty s a /\ s <= ps' /\ (s <> 0 -> (a | pa')).
Proof.
  induction 1 as [|g fs ps pa ps' pa' Hn Hv IH|g fs ty' a ps pa ps' pa' Hg Hl Hv IH
                 |g fs ty' s a ps pa ps' pa' Hg Hl Hs Hv IH]; intros Hps Hpa f ty Hf Hty.
  - by apply not_elem_of_nil in Hf.
  - apply elem_of_cons in Hf as [->|Hf]; [congruence|eauto].
  - apply elem_of_cons in Hf as [->|Hf]; [|eauto]. simplify_eq. exists 0, a.
    destruct (variants_wf _ _ _ _ _ Hv) as ([? _] & _); [done..|]. split; [done|]. split; [lia|done].
  - destruct (has_layout_wf _ _ _ Hl) as [Hsz [[? _]|Ha]]; [done|].
    destruct (pow2_max pa a Hpa Ha) as (Hmax & _ & Hda).
    destruct (variants_wf _ _ _ _ _ Hv) as ([? _] & _ & Hmd); [lia|done|].
    apply elem_of_cons in Hf as [->|Hf]; [|apply (IH ltac:(lia) Hmax f ty Hf Hty)].
    simplify_eq. exists s, a. split; [done|]. split; [lia|]. intros _. by etransitivity.
Qed.

(** Tag and payload have places of their own inside the union. *)
Lemma content_places ts ta ps pa n s :
  content_end ts ta ps pa n -> layout_wf ts ta -> 0 <= ps -> pow2 pa -> first_multiple n (Z.max ta pa) s ->
  exists tag_off payload_off,
    0 <= tag_off /\ tag_off + ts <= s /\ (ta | tag_off) /\
    0 <= payload_off /\ payload_off + ps <= s /\ (pa | payload_off) /\
    (tag_off + ts <= payload_off \/ payload_off + ps <= tag_off \/ ts = 0 \/ ps = 0).
Proof.
  intros Hc [[Hts _] Hta] Hps Hpa [Hm _].
  destruct Hc as [[-> ->]|[(Ht & -> & ->)|[(Ht & Hp & Hle & off & [Ho Hd] & ->)|(Ht & Hp & Hlt & off & [Ho Hd] & ->)]]].
  - exists 0, 0. split_and!; try lia; try apply Z.divide_0_r.
  - exists 0, 0. split_and!; try lia; try apply Z.divide_0_r.
  - exists 0, off. split_and!; try lia; [apply Z.divide_0_r|done].
  - exists off, 0. split_and!; try lia; [done|apply Z.divide_0_r].
Qed.

Lemma standard_layout_inv ty ns st s a :
  type_at self ty = Ret (Struct ns, VStruct st) -> layout st = Standard -> has_layout ty s a ->
  exists offs n, placed (struct_fields st) 0 1 offs n a /\ n <= s < n + a /\ (a | s).
Proof.
  intros Hty Hlay Hl.
  inversion Hl as [? t v ? ? Ht Hs| | ? ? st' offs n ? ? Ht Hlay' Hp Hm ?|? ? ? ? ? ? ? Ht Hlay'| |]; subst;
    try congruence.
  - rewrite Hty in Ht. by injection Ht as <- <-.
  - rewrite Hty in Ht. injection Ht as <- <-. destruct Hm. by exists offs, n.
Qed.

(** ** Properties *)


(** The layout of a struct has room for its fields.  With enough fuel
    [type_layout] returns its size and alignment, and there are offsets, one per
    field, at which every field is aligned, ends inside the struct and before
    the next fields start (for the size and alignment that [type_layout] gives
    the field); the struct's alignment is a multiple of each field's and divides
    the struct's size. *)
Theorem layout_struct_places_fields ty ns st s a :
  type_at self ty = Ret (Struct ns, VStruct st) -> layout st = Standard -> has_layout ty s a ->
  (exists n, forall fuel, (n <= fuel)%nat -> type_layout fuel self target ty = Ret (mk s a)) /\
  (a | s) /\
  exists offs, length offs = length (struct_fields st) /\
    forall i f off, struct_fields st !! i = Some f -> offs !! i = Some off ->
    exists fs fa,
      (exists n, forall fuel, (n <= fuel)%nat -> type_layout fuel self target (sf_ty f) = Ret (mk fs fa)) /\
      (fa | off) /\ (fa | a) /\ 0 <= off /\ off + fs <= s /\
      forall j off', (i < j)%nat -> offs !! j = Some off' -> off + fs <= off'.
Proof.
  intros Hty Hlay Hl. destruct (standard_layout_inv _ _ _ _ _ Hty Hlay Hl) as (os & n & Hp & Hm & Hd).
  split; [exact (proj1 computes_all _ _ _ Hl)|]. split; [done|]. exists os.
  split; [exact (proj1 (placed_offsets _ _ _ _ _ _ Hp))|]. intros i f off Hf Ho.
  destruct (placed_fields _ _ _ _ _ _ Hp ltac:(lia) pow2_1 i f off Hf Ho)
    as (fs & fa & Hfl & ? & ? & ? & ? & ?). exists fs, fa.
  split; [exact (proj1 computes_all _ _ _ Hfl)|]. split_and!; try done. lia.
Qed.

(** The layout of a union.  The query returns the rule's sizes with enough
    fuel; tag and payload have aligned places inside the union that do not
    overlap (when both hold data), every variant fits the payload with its
    alignment, the size is a multiple of the alignment, less than one alignment
    of it is trailing padding, and the field recorded as most aligned has the
    payload's alignment. *)
Theorem layout_union_fits ty ns u ts ta ps pa n s :
  type_at self ty = Ret (Union ns, VUnion u) ->
  tag_layout (union_tag_ty u) ts ta -> variants (union_fields u) 0 1 ps pa ->
  content_end ts ta ps pa n -> first_multiple n (Z.max ta pa) s -> s < 2^64 ->
  (exists m, forall fuel, (m <= fuel)%nat -> exists r, type_union_layout fuel self target ty = Ret r /\
     union_layout r = mk s (Z.max ta pa) /\ tag r = mk ts ta /\ payload r = mk ps pa /\
     0 <= trailing_padding r < Z.max ta pa /\ (ps <> 0 -> align (most_aligned_field r).2 = pa)) /\
  (Z.max ta pa | s) /\
  (exists tag_off payload_off,
     0 <= tag_off /\ tag_off + ts <= s /\ (ta | tag_off) /\
     0 <= payload_off /\ payload_off + ps <= s /\ (pa | payload_off) /\
     (tag_off + ts <= payload_off \/ payload_off + ps <= tag_off \/ ts = 0 \/ ps = 0)) /\
  (forall f fty, f ∈ union_fields u -> uf_ty f = Some fty ->
     exists fs fa, has_layout fty fs fa /\ fs <= ps /\ (fs <> 0 -> (fa | pa))).
Proof.
  intros Hty Htag Hv Hc Hm Hlt. destruct (variants_wf _ _ _ _ _ Hv) as ([Hps _] & Hpa & _); [lia|done|].
  pose proof (tag_layout_wf _ _ _ Htag) as Hwf. split_and!.
  - destruct (eventually_and _ _ (proj2 (proj2 (proj2 computes_all)) _ _ _ Htag)
                (proj1 (proj2 (proj2 computes_all)) _ _ _ _ _ Hv)) as [m IH].
    exists m. intros fuel Hf. destruct (IH fuel Hf) as [It Iv].
    destruct (union_query fuel ty ns u ts ta ps pa n s) as (most & ml & Hu & Hmost); try done.
    exists (union_result ts ta ps pa n s most ml). split_and!; try done; simpl.
    + destruct Hm. lia.
    + destruct Hm. lia.
    + intros ?. destruct Hmost as [(? & _)|(_ & ? & _)]; done.
  - by destruct Hm.
  - by eapply content_places.
  - intros f fty Hf Hfty. eapply variants_fit; [done|lia|done|done|done].
Qed.

(** A standard struct with a [void] field has no layout: whatever the laid out
    fields before it and the fields after it, the query panics, since the
    alignment of [void] is 0 and [next_multiple_of] divides by it. *)
Theorem layout_void_field_panics ty ns st pre f post offs n al v :
  type_at self ty = Ret (Struct ns, VStruct st) -> layout st = Standard ->
  struct_fields st = pre ++ f :: post -> placed pre 0 1 offs n al ->
  type_at self (sf_ty f) = Ret (Void, v) ->
  exists m, forall fuel, (m <= fuel)%nat -> type_layout fuel self target ty = Fault Panic.
Proof.
  intros Hty Hlay Hfs Hpre Hvoid. apply eventually_S.
  assert (Hf : has_layout (sf_ty f) 0 0) by (by eapply hl_scalar).
  pose proof (eventually_and _ _ (proj1 computes_all _ _ _ Hf)
                (proj1 (proj2 computes_all) _ _ _ _ _ _ Hpre)) as IH.
  revert IH. apply eventually_mono. intros fuel [Iv Ip]. cbn [type_layout]. rewrite Hty. simpl.
  rewrite Hlay, Hfs. unfold struct_fields_loop, for_enumM. rewrite for_enumM_from_app, Ip by lia.
  simpl. by rewrite Iv.
Qed.

End Spec.

(** ** A concrete store *)

Section Example.
#[local] Instance one_bucket : FxHasher.
Proof. refine {| fx_hash := fun _ => 0 |}. lia. Defined.
#[local] Instance kv_size : VirtDynArray.SizeOf (Key * Value) := 80.

Definition ns0 : NamespaceType := {| ns_inst := {| module := 0; inst := 0 |}; captures := [] |}.
Definition ns1 : NamespaceType := {| ns_inst := {| module := 0; inst := 1 |}; captures := [] |}.
Definition ns2 : NamespaceType := {| ns_inst := {| module := 0; inst := 2 |}; captures := [] |}.

(** [struct { u24, bool, u64 }], [union { u64, void, bool }] tagged by the [u24],
    and [struct { bool, void, bool }]; the types of their fields are at 0 to 3. *)
Definition triple : TypeStruct :=
  {| struct_name := []; struct_fields := [{| sf_name := []; sf_ty := 0 |}; {| sf_name := []; sf_ty := 1 |}; {| sf_name := []; sf_ty := 2 |}];
     layout := Standard; struct_namespace := 0; struct_linear := false |}.
Definition tagged : TypeUnion :=
  {| union_name := []; union_tag_ty := Some 0;
     union_fields := [{| uf_name := []; uf_ty := Some 2 |}; {| uf_name := []; uf_ty := Some 3 |}; {| uf_name := []; uf_ty := Some 1 |}];
     union_namespace := 0; union_linear := false |}.
Definition with_void : TypeStruct :=
  {| struct_name := []; struct_fields := [{| sf_name := []; sf_ty := 1 |}; {| sf_name := []; sf_ty := 3 |}; {| sf_name := []; sf_ty := 1 |}];
     layout := Standard; struct_namespace := 0; struct_linear := false |}.

Definition example_build : res (ValueStore (VirtDynArray.Arena (Key * Value))) :=
  m ← ShardedMap.ShardedIndexMap.new 1 16;
  let s := ValueStore.mk m (common_of []) in
  '(_, s) ← intern_trivial s (KType (Int false 24));
  '(_, s) ← intern_trivial s (KType Bool);
  '(_, s) ← intern_trivial s (KType (Int false 64));
  '(_, s) ← intern_trivial s (KType Void);
  '(_, s) ← intern_non_trivial s (KType (Struct ns0)) (VStruct triple);
  '(_, s) ← intern_non_trivial s (KType (Union ns1)) (VUnion tagged);
  '(_, s) ← intern_non_trivial s (KType (Struct ns2)) (VStruct with_void);
  Ret s.

Definition example : ValueStore (VirtDynArray.Arena (Key * Value)) :=
  match example_build with Ret s => s | Fault _ => ValueStore.mk (ShardedMap.ShardedIndexMap.mk []) (common_of []) end.

Definition amd64 : ResolvedTargetInfo := {| ptr_width_in_bits := 64 |}.

Lemma amd64_ok : exists k, 1 <= k <= 3 /\ ptr_width_in_bits amd64 = 8 * 2^k.
Proof. by exists 3. Qed.

Lemma int_layout_24 : int_layout 24 3 4.
Proof. split; [lia|]. exists 2. split_and!; try done. right. done. Qed.

Lemma int_layout_64 : int_layout 64 8 8.
Proof. split; [lia|]. exists 3. split_and!; try done. right. done. Qed.

Lemma u24_layout : has_layout example amd64 0 3 4.
Proof. eapply hl_scalar; [vm_compute; reflexivity|]. split; [lia|apply int_layout_24]. Qed.

Lemma bool_layout : has_layout example amd64 1 1 1.
Proof. eapply hl_scalar; [vm_compute; reflexivity|]. by split. Qed.

Lemma u64_layout : has_layout example amd64 2 8 8.
Proof. eapply hl_scalar; [vm_compute; reflexivity|]. split; [lia|apply int_layout_64]. Qed.

Lemma void_layout : has_layout example amd64 3 0 0.
Proof. eapply hl_scalar; [vm_compute; reflexivity|]. by split. Qed.

(** The [q]-th multiple. *)
Ltac at_multiple q := split; [lia|by exists q].

Lemma triple_layout : has_layout example amd64 4 16 8.
Proof.
  eapply (hl_struct _ _ 4 ns0 triple [0; 3; 8] 16 8); [vm_compute; reflexivity|done| |at_multiple 2|done].
  eapply placed_cons; [exact u24_layout|at_multiple 0|done|].
  eapply placed_cons; [exact bool_layout|at_multiple 3|done|].
  eapply placed_cons; [exact u64_layout|at_multiple 1|done|].
  apply placed_nil.
Qed.


Lemma layout_struct_places_fields_witness :
  (exists n, forall fuel, (n <= fuel)%nat -> type_layout fuel example amd64 4 = Ret (mk 16 8)) /\
  exists offs : list Z, length offs = 3%nat.
Proof.
  destruct (layout_struct_places_fields example amd64 amd64_ok 4 ns0 triple 16 8) as (Hl4 & _ & offs & Hl & _).
  - vm_compute. reflexivity.
  - reflexivity.
  - exact triple_layout.
  - split; [exact Hl4|]. exists offs. exact Hl.
Defined.

Lemma layout_union_fits_witness :
  exists m, forall fuel, (m <= fuel)%nat ->
    exists r, type_union_layout fuel example amd64 5 = Ret r /\ union_layout r = mk 16 8.
Proof.
  destruct (layout_union_fits example amd64 amd64_ok 5 ns1 tagged 3 4 8 8 11 16) as ([m Hm] & _).
  - vm_compute. reflexivity.
  - apply tag_some, u24_layout.
  - eapply variants_cons; [reflexivity|exact u64_layout|done|].
    eapply variants_empty; [reflexivity|exact void_layout|].
    eapply variants_cons; [reflexivity|exact bool_layout|done|]. apply variants_nil.
  - right. right. right. split_and!; [done|done|done|]. exists 8. split; [at_multiple 2|done].
  - at_multiple 2.
  - done.
  - exists m. intros fuel Hf. destruct (Hm fuel Hf) as (r & Hr & Hu & _). exists r. split; [exact Hr|exact Hu].
Defined.

Lemma layout_void_field_panics_witness :
  exists m, forall fuel, (m <= fuel)%nat -> type_layout fuel example amd64 6 = Fault Panic.
Proof.
  apply (layout_void_field_panics example amd64 amd64_ok 6 ns2 with_void [{| sf_name := []; sf_ty := 1 |}]
           {| sf_name := []; sf_ty := 3 |} [{| sf_name := []; sf_ty := 1 |}] [0] 1 1 (VNone 0)).
  - vm_compute. reflexivity.
  - reflexivity.
  - reflexivity.
  - eapply placed_cons; [exact bool_layout|at_multiple 0|done|]. apply placed_nil.
  - vm_compute. reflexivity.
Defined.
End Example.

End ValueLayoutSpec.

Module ValueSpec.
Import Value ValueStore ShardedSpec.
Import ShardedIndexMap (find, key, kv).
Import ValueLayoutSpec (eventually, eventually_and, eventually_mono, eventually_S, eventually_true).

(** ** Types that exist only at compile time *)

Section Comptime.
Context `{FxHasher} `{HashTable} {A : Type} `{ArenaOps A (Key * Value)}.
Implicit Types (self : ValueStore A).

(** The types a type is made of, as the query follows them. *)
Definition parts (t : Ty) (v : Value) : list Z :=
  match t, v with
  | Struct _, VStruct s => sf_ty <$> struct_fields s
  | Enum _, VEnum e => [enum_tag_ty e]
  | Union _, VUnion u => omap uf_ty (union_fields u)
  | TPtr p, _ => [ptr_pointee_ty p]
  | Slice s, _ => [slice_pointee_ty s]
  | Array a, _ => [elem_ty a]
  | _, _ => []
  end.

Definition comptime_leaf (t : Ty) : bool :=
  match t with
  | TAnyint | TAnyfloat | Type_ | EnumLiteral | NullPtr | GenericPoison => true
  | _ => false
  end.

(** Struct, enum and union types carry their data. *)
Definition value_matches (t : Ty) (v : Value) : bool :=
  match t, v with
  | Struct _, VStruct _ | Enum _, VEnum _ | Union _, VUnion _ => true
  | (Struct _ | Enum _ | Union _), _ => false
  | _, _ => true
  end.

Definition contains self (a b : Z) : Prop := exists t v, type_at self a = Ret (t, v) /\ b ∈ parts t v.

(** [ty] is a type, and so are its parts, whose nesting is well founded. *)
Inductive well_founded_type self (ty : Z) : Prop :=
  | wf_type t v (Hty : type_at self ty = Ret (t, v)) (Hv : value_matches t v = true)
      (Hparts : forall sub, sub ∈ parts t v -> well_founded_type self sub).

(** A compile-time-only type can be reached. *)
Definition reaches_comptime self (ty : Z) : Prop :=
  exists leaf t v, rtc (contains self) ty leaf /\ type_at self leaf = Ret (t, v) /\ comptime_leaf t = true.

Lemma any_of_fmap {B C} (g : B -> C) (f : C -> res bool) l : any_of (fun x => f (g x)) l = any_of f (g <$> l).
Proof. induction l as [|x l IH]; simpl; [done|]. destruct (f (g x)) as [[]|]; simpl; [done|apply IH|done]. Qed.

Lemma any_of_omap {B C} (g : B -> option C) (f : C -> res bool) l :
  any_of (fun x => match g x with Some y => f y | None => Ret false end) l = any_of f (omap g l).
Proof.
  induction l as [|x l IH]; simpl; [done|]. destruct (g x) as [y|]; simpl; [|apply IH].
  destruct (f y) as [[]|]; simpl; [done|apply IH|done].
Qed.

Lemma any_of_one {B} (f : B -> res bool) x : any_of f [x] = f x.
Proof. simpl. by destruct (f x) as [[]|]. Qed.

(** One level of the query. *)
Lemma comptime_only_step fuel self ty t v :
  type_at self ty = Ret (t, v) -> value_matches t v = true ->
  type_is_comptime_only (S fuel) self ty =
    if comptime_leaf t then Ret true else any_of (type_is_comptime_only fuel self) (parts t v).
Proof.
  intros Hty Hv. cbn [type_is_comptime_only]. rewrite Hty. simpl.
  destruct t; cbn [comptime_leaf parts] in *; try done; try (by rewrite any_of_one);
    destruct v; try done; cbn [as_struct_value as_enum_value as_union mbind res_bind].
  - apply any_of_fmap.
  - by rewrite any_of_one.
  - apply any_of_omap.
Qed.

Lemma any_of_eventually (f : nat -> Z -> res bool) (P : Z -> Prop) l :
  (forall x, x ∈ l -> exists b, eventually (fun n => f n x = Ret b) /\ (b = true <-> P x)) ->
  exists b, eventually (fun n => any_of (f n) l = Ret b) /\ (b = true <-> exists x, x ∈ l /\ P x).
Proof.
  induction l as [|x l IH]; intros Hl.
  - exists false. split; [by apply eventually_true|]. split; [done|]. by intros (x & ?%not_elem_of_nil & _).
  - destruct (Hl x) as (b & Hb & Hbx); [by left|].
    destruct IH as (b' & Hb' & Hbl); [intros y Hy; apply Hl; by right|].
    destruct b.
    + exists true. split; [|split; [|done]].
      * revert Hb. apply eventually_mono. intros n Hn. simpl. by rewrite Hn.
      * intros _. exists x. split; [by left|by apply Hbx].
    + exists b'. split.
      * pose proof (eventually_and _ _ Hb Hb') as Hand. revert Hand. apply eventually_mono.
        intros n [Hn Hn']. simpl. by rewrite Hn.
      * rewrite Hbl. split.
        -- intros (y & Hy & HP). exists y. split; [by right|done].
        -- intros (y & [->|Hy]%elem_of_cons & HP); [apply Hbx in HP; done|eauto].
Qed.

Lemma reaches_step self ty t v :
  type_at self ty = Ret (t, v) -> comptime_leaf t = false ->
  reaches_comptime self ty <-> exists sub, sub ∈ parts t v /\ reaches_comptime self sub.
Proof.
  intros Hty Hl. split.
  - intros (leaf & t' & v' & Hr & Ht & Hc). inversion Hr as [|? sub ? (t2 & v2 & Ht2 & Hsub) Hr']; subst.
    + rewrite Hty in Ht. injection Ht as -> ->. congruence.
    + rewrite Hty in Ht2. injection Ht2 as <- <-. exists sub. split; [done|]. by exists leaf, t', v'.
  - intros (sub & Hsub & leaf & t' & v' & Hr & Ht & Hc). exists leaf, t', v'. split; [|done].
    eapply rtc_l; [|done]. by exists t, v.
Qed.

(** On a type with well-founded parts the query [type_is_comptime_only]
    terminates without a panic, and answers [true] exactly when a
    compile-time-only type can be reached through fields, variants, tags,
    elements and pointees. *)
Theorem comptime_only_reaches self ty :
  well_founded_type self ty ->
  exists b, (exists n, forall fuel, (n <= fuel)%nat -> type_is_comptime_only fuel self ty = Ret b) /\
    (b = true <-> reaches_comptime self ty).
Proof.
  intros Hwf. change (exists b, eventually (fun n => type_is_comptime_only n self ty = Ret b) /\
                       (b = true <-> reaches_comptime self ty)).
  induction Hwf as [ty t v Hty Hv _ IH].
  destruct (any_of_eventually (fun n => type_is_comptime_only n self) (reaches_comptime self) (parts t v) IH)
    as (b & Hb & Hiff).
  destruct (comptime_leaf t) eqn:Hl.
  - exists true. split.
    + apply eventually_S, eventually_true. intros n. by rewrite (comptime_only_step _ _ _ _ _ Hty Hv), Hl.
    + split; [|done]. intros _. exists ty, t, v. split_and!; [constructor|done|done].
  - exists b. split.
    + apply eventually_S. revert Hb. apply eventually_mono. intros n Hn.
      by rewrite (comptime_only_step _ _ _ _ _ Hty Hv), Hl.
    + by rewrite Hiff, (reaches_step _ _ _ _ Hty Hl).
Qed.

End Comptime.

(** ** Interning with room *)

Section Store.
Context `{FxHasher} `{HashTableLaws} {A : Type} `{ArenaLaws A (Key * Value)}.
Implicit Types (m : ShardedIndexMap.ShardedIndexMap A) (ls : list (list (Key * Value))).

(** Every shard has room for [n] more pairs. *)
Definition room (cap : Z) ls (n : nat) : Prop :=
  Forall (fun l : list (Key * Value) => Z.of_nat (length l) + Z.of_nat n <= cap) ls.

Lemma room_le cap ls n n' : (n' <= n)%nat -> room cap ls n -> room cap ls n'.
Proof. intros Hn Hr. eapply Forall_impl; [exact Hr|]. simpl. lia. Qed.

Lemma room_snoc cap ls n s l x :
  ls !! s = Some l -> room cap ls (S n) -> room cap (set_list ls s (l ++ [x])) n.
Proof.
  intros Hl Hr. apply Forall_insert; [eapply room_le; [|exact Hr]; lia|].
  pose proof (Forall_lookup_1 _ _ _ _ Hr Hl) as Hlen. simpl in Hlen. rewrite length_app. simpl. lia.
Qed.

(** Interning with room succeeds, and the key is where its index says. *)
Lemma intern_room m cap ls k n :
  repr m cap ls -> lawful k -> room cap ls (S n) ->
  exists i m' ls' s p, intern_none m k = Ret (i, m') /\ repr m' cap ls' /\ grows ls ls' /\ room cap ls' n /\
    locate ls' k = Some (s, p) /\ i = index_of s p.
Proof.
  intros Hr Hk Hroom. destruct (sharded_map_spec m cap ls k none Hr Hk) as [_ Hs].
  destruct (locate ls k) as [[s p]|] eqn:Hl.
  - destruct Hs as [Hi _]. exists (index_of s p), m, ls, s, p. split_and!; try done.
    eapply room_le; [|done]. lia.
  - destruct Hs as (l & Hls & Hnew & _). pose proof (Forall_lookup_1 _ _ _ _ Hroom Hls) as Hlen.
    simpl in Hlen. destruct Hnew as (m' & Hi & _ & Hm'); [lia|].
    exists (index_of (shard_of (length ls) k) (length l)), m', (set_list ls (shard_of (length ls) k) (l ++ [(k, none)])),
      (shard_of (length ls) k), (length l).
    split_and!; try done; [by apply grows_snoc|by eapply room_snoc|by eapply locate_snoc].
Qed.

(** The key at an index, up to equality of keys, and exactly when equality says all. *)
Definition exact_key (k : Key) : bool := match k with KFloat _ _ | KFn _ => false | _ => true end.

Lemma exact_key_equiv k k' : exact_key k = true -> key_equiv k' k -> k' = k.
Proof. rewrite key_equiv_cases. by destruct k, k'. Qed.

Lemma located_key m cap ls k s p :
  repr m cap ls -> exact_key k = true -> locate ls k = Some (s, p) -> key m (index_of s p) = Ret k.
Proof.
  intros Hr He Hl. destruct (locate_lt _ _ _ _ _ _ Hr Hl) as [_ (x & Hx & Hxk)].
  destruct (kv_at _ _ _ _ _ _ Hr Hx) as (_ & _ & Hkey & _). by rewrite Hkey, (exact_key_equiv k x.1).
Qed.

(** ** The common values *)

(** The fields of [CommonValues], in the order of [common_keys]. *)
Definition common_list (c : CommonValues) : list Z :=
  [nullptr c; anyint_t c; anyfloat_t c; void_t c; void_value c; anyptr_t c; type_t c; never_t c; usize_t c;
   isize_t c; u16_t c; u64_t c; i64_t c; u32_t c; i32_t c; f16_t c; f32_t c; f64_t c; f128_t c; bool_t c;
   enum_literal_t c; generic_poison_t c; nullptr_t c; unreachable_value c; true_value c; false_value c].

Lemma common_list_of ids : length ids = length common_keys -> common_list (common_of ids) = ids.
Proof. intros Hl. do 26 (destruct ids as [|? ids]; [done|]). by destruct ids. Qed.

(** [ids] are the places of [keys]. *)
Definition located ls (ids : list Z) (keys : list Key) : Prop :=
  Forall2 (fun i k => exists s p, locate ls k = Some (s, p) /\ i = index_of s p) ids keys.

Lemma located_grows m cap ls ls' ids keys :
  repr m cap ls' -> grows ls ls' -> located ls ids keys -> located ls' ids keys.
Proof.
  intros Hr Hg Hl. eapply Forall2_impl; [exact Hl|]. intros i k (s & p & Hs & ->).
  exists s, p. split; [by eapply locate_grows|done].
Qed.

Lemma intern_all_ok m cap ls keys n :
  repr m cap ls -> Forall lawful keys -> room cap ls (length keys + n) ->
  exists ids m' ls', intern_all m keys = Ret (ids, m') /\ repr m' cap ls' /\ grows ls ls' /\
    located ls' ids keys /\ room cap ls' n.
Proof.
  revert m ls. induction keys as [|k keys IH]; intros m ls Hr Hlaw Hroom; simpl.
  - exists [], m, ls. split_and!; try done. constructor.
  - inversion Hlaw as [|? ? Hk Hks]; subst.
    destruct (intern_room _ _ _ _ _ Hr Hk Hroom) as (i & m1 & ls1 & s & p & -> & Hr1 & Hg1 & Hroom1 & Hl1 & ->).
    simpl. destruct (IH _ _ Hr1 Hks Hroom1) as (ids & m2 & ls2 & -> & Hr2 & Hg2 & Hl2 & Hroom2). simpl.
    exists (index_of s p :: ids), m2, ls2. split_and!; try done; [by transitivity ls1|].
    constructor; [|done]. exists s, p. split; [by eapply locate_grows|done].
Qed.

Lemma map_new_total c cap a :
  shard_count_ok c -> arena_with_capacity cap = Ret a -> exists m, ShardedIndexMap.new (A := A) (Z.of_nat c) cap = Ret m.
Proof.
  intros (b & Hb & Hc) Ha. unfold ShardedIndexMap.new. rewrite Nat2Z.id, Hc.
  assert (Hpow : ShardedIndexMap.is_power_of_two (2^b) = true).
  { assert (b = 0 \/ b = 1 \/ b = 2 \/ b = 3 \/ b = 4 \/ b = 5 \/ b = 6) as Hcases by lia.
    by destruct Hcases as [->|[->|[->|[->|[->|[->| ->]]]]]]. }
  rewrite Hpow. simpl. rewrite Ha. simpl.
  assert (Hcol : forall n, exists xs, ShardedIndexMap.collect n
            (Ret (ShardedIndexMap.mk_shard table_default a) : res (ShardedIndexMap.Shard A)) = Ret xs).
  { induction n as [|n [xs IH]]; simpl; [eauto|]. rewrite IH. simpl. eauto. }
  destruct (Hcol c) as [xs ->]. simpl. eauto.
Qed.

(** A value store with up to 64 shards starts with every common value in
    place: each field of [CommonValues] is the index of its key, and stays so
    whatever is interned later. *)
Theorem value_store_common c a :
  shard_count_ok c -> arena_with_capacity 8192 = Ret a -> 8192 <= arena_max ->
  exists s, new (Z.of_nat c) = Ret s /\
    forall m, rtc used (value_map s) m ->
      Forall2 (fun i k => key m i = Ret k) (common_list (common s)) common_keys.
Proof.
  intros Hc Ha Hmax. destruct (map_new_total c 8192 a Hc Ha) as [m0 Hm0].
  assert (Hr0 : repr m0 8192 (replicate c [])) by (apply new_repr; [done|done|lia|done]).
  destruct (intern_all_ok m0 8192 (replicate c []) common_keys 0 Hr0) as (ids & m1 & ls1 & Hi & Hr1 & _ & Hl1 & _).
  { by repeat constructor. }
  { apply Forall_replicate. simpl. lia. }
  exists (mk m1 (common_of ids)). split; [unfold new; rewrite Hm0; cbn [mbind res_bind]; by rewrite Hi|].
  simpl. intros m Hu. rewrite common_list_of by (by eapply Forall2_length).
  destruct (used_rtc_grows _ _ _ _ Hr1 Hu) as (ls2 & Hr2 & Hg2).
  pose proof (located_grows _ _ _ _ _ _ Hr2 Hg2 Hl1) as Hl2.
  assert (Hex : Forall (fun k => exact_key k = true) common_keys) by (by repeat constructor).
  clear -Hr2 Hl2 Hex. induction Hl2 as [|i k ids keys (s & p & Hs & ->) _ IH]; [constructor|].
  inversion Hex; subst. constructor; [by eapply located_key|auto].
Qed.

(** ** Pointers to values *)

Lemma intern_trivial_ok s k i m :
  is_trivial k = true -> intern_none (value_map s) k = Ret (i, m) ->
  intern_trivial s k = Ret (i, mk m (common s)).
Proof. intros Ht Hi. unfold intern_trivial. by rewrite Ht, Hi. Qed.

(** With room for two more values, [intern_value_ptr] returns a pointer to the
    value whose type is a mutable pointer to the value's type. *)
Theorem value_ptr_type s cap ls v t :
  repr (value_map s) cap ls -> room cap ls 2 -> type_of_interned s v = Ret t ->
  exists i s' ty, intern_value_ptr s v = Ret (i, s') /\
    index_to_key s' i = Ret (KPtr {| ptr_ty := ty; ptr_kind := PtrValue v |}) /\
    type_of_interned s' i = Ret ty /\
    index_to_key s' ty = Ret (KType (TPtr {| ptr_pointee_ty := t; ptr_packed := None; is_const := false |})).
Proof.
  intros Hr Hroom Ht. unfold intern_value_ptr. rewrite Ht. cbn [mbind res_bind].
  set (kt := KType (TPtr {| ptr_pointee_ty := t; ptr_packed := None; is_const := false |})).
  destruct (intern_room _ _ _ kt 1 Hr eq_refl Hroom) as (ty & m1 & ls1 & s1 & p1 & Hi1 & Hr1 & Hg1 & Hroom1 & Hl1 & ->).
  rewrite (intern_trivial_ok _ kt _ _ eq_refl Hi1). cbn [mbind res_bind].
  set (kp := KPtr {| ptr_ty := index_of s1 p1; ptr_kind := PtrValue v |}).
  destruct (intern_room _ _ _ kp 0 Hr1 eq_refl Hroom1) as (i & m2 & ls2 & s2 & p2 & Hi2 & Hr2 & Hg2 & _ & Hl2 & ->).
  rewrite (intern_trivial_ok (mk m1 (common s)) kp _ _ eq_refl Hi2). pose proof (located_key _ _ _ kp _ _ Hr2 eq_refl Hl2) as Hk2.
  eexists _, _, (index_of s1 p1). split; [done|]. unfold type_of_interned, index_to_key. simpl. split_and!.
  - exact Hk2.
  - by rewrite Hk2.
  - apply (located_key _ _ _ kt _ _ Hr2 eq_refl). by eapply locate_grows.
Qed.

End Store.

(** ** Concrete stores *)

Section Example.
#[local] Instance one_bucket : FxHasher.
Proof. refine {| fx_hash := fun _ => 0 |}. lia. Defined.
#[local] Instance kv_size : VirtDynArray.SizeOf (Key * Value) := 80.

(** Indices 0 to 3: [bool], [anyint], a pointer to [bool] and a pointer to [anyint]. *)
Definition to (ty : Z) : Ty := TPtr {| ptr_pointee_ty := ty; ptr_packed := None; is_const := false |}.
Definition pointers_build : res (ValueStore (VirtDynArray.Arena (Key * Value))) :=
  m ← ShardedIndexMap.new 1 16;
  let s := mk m (common_of []) in
  '(_, s) ← intern_trivial s (KType Bool);
  '(_, s) ← intern_trivial s (KType TAnyint);
  '(_, s) ← intern_trivial s (KType (to 0));
  '(_, s) ← intern_trivial s (KType (to 1));
  Ret s.
Definition pointers : ValueStore (VirtDynArray.Arena (Key * Value)) :=
  match pointers_build with Ret s => s | Fault _ => mk (ShardedIndexMap.mk []) (common_of []) end.

Lemma comptime_only_reaches_witness :
  exists n, forall fuel, (n <= fuel)%nat -> type_is_comptime_only fuel pointers 3 = Ret true.
Proof.
  destruct (comptime_only_reaches pointers 3) as (b & [n Hn] & Hiff).
  - eapply wf_type; [vm_compute; reflexivity|reflexivity|]. intros sub ->%list_elem_of_singleton.
    eapply wf_type; [vm_compute; reflexivity|reflexivity|]. intros sub Hsub. by apply not_elem_of_nil in Hsub.
  - exists n. intros fuel Hf. rewrite (Hn fuel Hf). f_equal. apply Hiff.
    exists 1, TAnyint, none. split; [|split; [vm_compute; reflexivity|reflexivity]].
    eapply rtc_l; [|constructor]. exists (to 1), none. split; [vm_compute; reflexivity|by left].
Defined.

Lemma value_store_common_witness : exists s, new 1 = Ret s /\ index_to_key s (true_value (common s)) = Ret (KBool true).
Proof.
  destruct (value_store_common (A := VirtDynArray.Arena (Key * Value)) 1
              (VirtDynArray.mk 8192 0 0 0 [] ∅)) as (s & Hs & Hall).
  - exists 0. split; [lia|reflexivity].
  - vm_compute. reflexivity.
  - vm_compute. discriminate.
  - exists s. split; [exact Hs|].
    pose proof (Forall2_lookup_lr _ _ _ 24%nat _ _ (Hall _ (rtc_refl _ _)) eq_refl eq_refl) as Hk. exact Hk.
Defined.

(** A store with the value [true], and a pointer to it. *)
Lemma value_ptr_type_witness :
  exists (s : ValueStore (VirtDynArray.Arena (Key * Value))) v i s' ty,
    index_to_key s v = Ret (KBool true) /\ intern_value_ptr s v = Ret (i, s') /\
    index_to_key s' i = Ret (KPtr {| ptr_ty := ty; ptr_kind := PtrValue v |}).
Proof.
  destruct (map_new_total (A := VirtDynArray.Arena (Key * Value)) 1 16 (VirtDynArray.mk 16 0 0 0 [] ∅)) as [m0 Hm0];
    [by exists 0|vm_compute; reflexivity|].
  assert (Hr0 : repr m0 16 [[]]) by (apply (new_repr 1); [done|by exists 0|lia|vm_compute; discriminate]).
  destruct (intern_room m0 16 [[]] (KBool true) 2 Hr0 eq_refl) as (v & m1 & ls1 & p & q & _ & Hr1 & _ & Hroom & Hl & ->).
  { repeat constructor; simpl; lia. }
  pose proof (located_key _ _ _ (KBool true) _ _ Hr1 eq_refl Hl) as Hk.
  destruct (value_ptr_type (mk m1 (common_of [])) 16 ls1 (index_of p q) 0 Hr1 Hroom) as (i & s' & ty & Hi & Hp & _ & _).
  { unfold type_of_interned, index_to_key. simpl. rewrite Hk. reflexivity. }
  exists (mk m1 (common_of [])), (index_of p q), i, s', ty. split; [exact Hk|]. split; [exact Hi|exact Hp].
Defined.

(** A [NaN] is not equal to itself: each interning of it makes a new value. *)
Definition quiet_nan : Anyfloat := MkAnyfloat (2^112 * 32767 + 2^111).

Lemma nan_interned_twice :
  exists s1 s2 i j, intern_trivial pointers (KFloat 0 quiet_nan) = Ret (i, s1) /\
    intern_trivial s1 (KFloat 0 quiet_nan) = Ret (j, s2) /\ i <> j.
Proof.
  destruct (intern_trivial pointers (KFloat 0 quiet_nan)) as [[i s1]|] eqn:H1; [|vm_compute in H1; discriminate].
  destruct (intern_trivial s1 (KFloat 0 quiet_nan)) as [[j s2]|] eqn:H2;
    vm_compute in H1; injection H1 as <- <-; vm_compute in H2; [|discriminate].
  injection H2 as <- <-. by eexists _, _, _, _.
Qed.
End Example.

End ValueSpec.
