(* ===== verification/Token.v ===== *)
(** * Tokens ([src/frontend/lexer.rs], [src/frontend.rs])

    [Radix] and [IdentKind]; the character-class table of the lexer; and the
    two enums the [tokens!] macro expands to, with the functions it derives:
    [TokenTag] (the bare discriminants), [TokenKind] (with payloads), [tag],
    their [Display] text, and the keyword length bounds.  An interned string is
    its contents, a list of bytes.  Equality of [TokenKind]s compares
    discriminants only, as in the source. *)

From S2P Require Import Prelude Words Bytes Span.

#[local] Open Scope Z_scope.

Inductive Radix : Set := Binary | Octal | Decimal | Hexadecimal.

Definition base (self : Radix) : Z :=
  match self with Binary => 2 | Octal => 8 | Decimal => 10 | Hexadecimal => 16 end.

Inductive IdentKind : Set := User | UserEscaped | UserComptime | Builtin.

Definition is_user (self : IdentKind) : bool :=
  match self with User | UserEscaped => true | _ => false end.
Definition is_builtin (self : IdentKind) : bool :=
  match self with Builtin => true | _ => false end.
Definition is_generic (self : IdentKind) : bool :=
  match self with UserComptime => true | _ => false end.

#[export] Instance Radix_eq_dec : EqDecision Radix.
Proof. solve_decision. Defined.
#[export] Instance IdentKind_eq_dec : EqDecision IdentKind.
Proof. solve_decision. Defined.

(** ** Character classes *)

Module char_class.

Definition IDENT_START : Z := 1 ≪ 0.
Definition DIGIT : Z := 1 ≪ 1.
Definition IDENT_CONT : Z := Z.lor IDENT_START DIGIT.
Definition BIN_DIGIT : Z := 1 ≪ 2.
Definition OCT_DIGIT : Z := 1 ≪ 3.
Definition HEX_DIGIT : Z := 1 ≪ 4.
Definition WHITESPACE : Z := 1 ≪ 5.
Definition UNDERSCORE : Z := 1 ≪ 6.
Definition SIGN : Z := 1 ≪ 7.

(** [matches!(b, lo..=hi)]. *)
Definition range (lo hi : ascii) (b : Z) : bool := (byte lo <=? b) && (b <=? byte hi).
Arguments range lo%_char_scope hi%_char_scope b.

(** The flags of one byte: the body of the [while] loop that fills the table. *)
Definition class_flags (b : Z) : Z :=
  let flags := 0 in
  let flags := if range "a" "z" b || range "A" "Z" b || (b =? byte "_")
               then Z.lor flags IDENT_START else flags in
  let flags := if is_ascii_digit b then Z.lor flags DIGIT else flags in
  let flags := if range "0" "1" b then Z.lor flags BIN_DIGIT else flags in
  let flags := if range "0" "7" b then Z.lor flags OCT_DIGIT else flags in
  let flags := if is_ascii_hexdigit b then Z.lor flags HEX_DIGIT else flags in
  let flags := if (b =? byte " ") || (b =? byte "009") || (b =? byte "010") || (b =? byte "013")
               then Z.lor flags WHITESPACE else flags in
  let flags := if b =? byte "_" then Z.lor flags UNDERSCORE else flags in
  let flags := if (b =? byte "+") || (b =? byte "-") then Z.lor flags SIGN else flags in
  flags.

Definition CHAR_TABLE : list Z := Eval vm_compute in map class_flags (seqZ 0 256).

(** [CHAR_TABLE[b as usize]]: in bounds for every [u8]. *)
Definition class (b : Z) : Z := nth (Z.to_nat b) CHAR_TABLE 0.

Definition is_ident_start (b : Z) : bool := negb (Z.land (class b) IDENT_START =? 0).
Definition is_ident_cont (b : Z) : bool := negb (Z.land (class b) IDENT_CONT =? 0).
Definition is_digit (b : Z) : bool := negb (Z.land (class b) DIGIT =? 0).
Definition is_digit_or_sign (b : Z) : bool := negb (Z.land (class b) (Z.lor DIGIT SIGN) =? 0).
Definition is_digit_or_uscore (b : Z) : bool := negb (Z.land (class b) (Z.lor DIGIT UNDERSCORE) =? 0).
Definition is_bin_digit_or_uscore (b : Z) : bool :=
  negb (Z.land (class b) (Z.lor BIN_DIGIT UNDERSCORE) =? 0).
Definition is_oct_digit_or_uscore (b : Z) : bool :=
  negb (Z.land (class b) (Z.lor OCT_DIGIT UNDERSCORE) =? 0).
Definition is_hex_digit_or_uscore (b : Z) : bool :=
  negb (Z.land (class b) (Z.lor HEX_DIGIT UNDERSCORE) =? 0).
Definition is_whitespace (b : Z) : bool := negb (Z.land (class b) WHITESPACE =? 0).

End char_class.

(** ** The token enums *)

Module TokenTag.

Inductive TokenTag : Set :=
  | Minus | Plus | Star | Slash | Backslash | Percent | Caret | Amp | Pipe | Bang | Tilde | Eq
  | QuestionMark | Lt | Gt | Comma | Semicolon | Colon | LParen | RParen | LBrace | RBrace
  | LBracket | RBracket | Hash | Dot | Underscore | MinusEq | MinusPipe | PlusEq | PlusPipe
  | StarStar | StarEq | StarPipe | SlashEq | PercentEq | LtEq | LtLt | GtGt | GtEq | CaretEq
  | AmpEq | PipeEq | AmpAmp | PipePipe | EqEq | BangEq | TildeEq | FatArrow | DotDot | DotStar
  | DotQuestionMark | MinusPipeEq | PlusPipeEq | LtLtEq | GtGtEq | LtLtPipe | GtGtPipe
  | LtLtPercent | GtGtPercent | StarPipeEq | AmpAmpEq | PipePipeEq | DotDotEq | Ellipsis
  | LtLtPipeEq | LtLtPercentEq | GtGtPipeEq | GtGtPercentEq | Ident | DirectiveIdent | LitInt
  | LitFloat | LitBool | LitStr | LitMultiLineStr | LitChar | LitNull | DocComment | ModComment
  | TyUsize | TyIsize | TyU | TyI | TyF16 | TyF32 | TyF64 | TyF128 | TyBool | TyVoid | TyNever
  | TyAnyptr | TyAnyint | TyAnyfloat | TyType | KwFn | KwIf | KwIn | KwOr | KwAnd | KwPub | KwVar
  | KwFor | KwTry | KwElse | KwLoop | KwEnum | KwTest | KwConst | KwComptime | KwWhile | KwBreak
  | KwDefer | KwCatch | KwUnion | KwSwitch | KwReturn | KwStruct | KwExtern | DirInline | DirPacked
  | DirLinear | DirCallconv | KwContinue | KwErrdefer | DirNoinline | DirVolatile | DirAddrspace
  | KwUndefined | Invalid | Eof.

(** Every tag, in declaration order: [all !! i] is the tag of discriminant [i]. *)
Definition all : list TokenTag :=
  [Minus; Plus; Star; Slash; Backslash; Percent; Caret; Amp; Pipe; Bang; Tilde; Eq; QuestionMark;
  Lt; Gt; Comma; Semicolon; Colon; LParen; RParen; LBrace; RBrace; LBracket; RBracket; Hash; Dot;
  Underscore; MinusEq; MinusPipe; PlusEq; PlusPipe; StarStar; StarEq; StarPipe; SlashEq; PercentEq;
  LtEq; LtLt; GtGt; GtEq; CaretEq; AmpEq; PipeEq; AmpAmp; PipePipe; EqEq; BangEq; TildeEq;
  FatArrow; DotDot; DotStar; DotQuestionMark; MinusPipeEq; PlusPipeEq; LtLtEq; GtGtEq; LtLtPipe;
  GtGtPipe; LtLtPercent; GtGtPercent; StarPipeEq; AmpAmpEq; PipePipeEq; DotDotEq; Ellipsis;
  LtLtPipeEq; LtLtPercentEq; GtGtPipeEq; GtGtPercentEq; Ident; DirectiveIdent; LitInt; LitFloat;
  LitBool; LitStr; LitMultiLineStr; LitChar; LitNull; DocComment; ModComment; TyUsize; TyIsize;
  TyU; TyI; TyF16; TyF32; TyF64; TyF128; TyBool; TyVoid; TyNever; TyAnyptr; TyAnyint; TyAnyfloat;
  TyType; KwFn; KwIf; KwIn; KwOr; KwAnd; KwPub; KwVar; KwFor; KwTry; KwElse; KwLoop; KwEnum;
  KwTest; KwConst; KwComptime; KwWhile; KwBreak; KwDefer; KwCatch; KwUnion; KwSwitch; KwReturn;
  KwStruct; KwExtern; DirInline; DirPacked; DirLinear; DirCallconv; KwContinue; KwErrdefer;
  DirNoinline; DirVolatile; DirAddrspace; KwUndefined; Invalid; Eof].

(** [repr(u8)]: the discriminants. *)
Definition discriminant (self : TokenTag) : nat :=
  match self with
  | Minus => 0 | Plus => 1 | Star => 2 | Slash => 3 | Backslash => 4 | Percent => 5 | Caret => 6
  | Amp => 7 | Pipe => 8 | Bang => 9 | Tilde => 10 | Eq => 11 | QuestionMark => 12 | Lt => 13
  | Gt => 14 | Comma => 15 | Semicolon => 16 | Colon => 17 | LParen => 18 | RParen => 19
  | LBrace => 20 | RBrace => 21 | LBracket => 22 | RBracket => 23 | Hash => 24 | Dot => 25
  | Underscore => 26 | MinusEq => 27 | MinusPipe => 28 | PlusEq => 29 | PlusPipe => 30
  | StarStar => 31 | StarEq => 32 | StarPipe => 33 | SlashEq => 34 | PercentEq => 35 | LtEq => 36
  | LtLt => 37 | GtGt => 38 | GtEq => 39 | CaretEq => 40 | AmpEq => 41 | PipeEq => 42
  | AmpAmp => 43 | PipePipe => 44 | EqEq => 45 | BangEq => 46 | TildeEq => 47 | FatArrow => 48
  | DotDot => 49 | DotStar => 50 | DotQuestionMark => 51 | MinusPipeEq => 52 | PlusPipeEq => 53
  | LtLtEq => 54 | GtGtEq => 55 | LtLtPipe => 56 | GtGtPipe => 57 | LtLtPercent => 58
  | GtGtPercent => 59 | StarPipeEq => 60 | AmpAmpEq => 61 | PipePipeEq => 62 | DotDotEq => 63
  | Ellipsis => 64 | LtLtPipeEq => 65 | LtLtPercentEq => 66 | GtGtPipeEq => 67
  | GtGtPercentEq => 68 | Ident => 69 | DirectiveIdent => 70 | LitInt => 71 | LitFloat => 72
  | LitBool => 73 | LitStr => 74 | LitMultiLineStr => 75 | LitChar => 76 | LitNull => 77
  | DocComment => 78 | ModComment => 79 | TyUsize => 80 | TyIsize => 81 | TyU => 82 | TyI => 83
  | TyF16 => 84 | TyF32 => 85 | TyF64 => 86 | TyF128 => 87 | TyBool => 88 | TyVoid => 89
  | TyNever => 90 | TyAnyptr => 91 | TyAnyint => 92 | TyAnyfloat => 93 | TyType => 94 | KwFn => 95
  | KwIf => 96 | KwIn => 97 | KwOr => 98 | KwAnd => 99 | KwPub => 100 | KwVar => 101 | KwFor => 102
  | KwTry => 103 | KwElse => 104 | KwLoop => 105 | KwEnum => 106 | KwTest => 107 | KwConst => 108
  | KwComptime => 109 | KwWhile => 110 | KwBreak => 111 | KwDefer => 112 | KwCatch => 113
  | KwUnion => 114 | KwSwitch => 115 | KwReturn => 116 | KwStruct => 117 | KwExtern => 118
  | DirInline => 119 | DirPacked => 120 | DirLinear => 121 | DirCallconv => 122 | KwContinue => 123
  | KwErrdefer => 124 | DirNoinline => 125 | DirVolatile => 126 | DirAddrspace => 127
  | KwUndefined => 128 | Invalid => 129 | Eof => 130
  end.

Definition eq (self other : TokenTag) : bool := (discriminant self =? discriminant other)%nat.

(** [Display for TokenTag]. *)
Definition display (self : TokenTag) : list Z :=
  match self with
  | Minus => bytes_of "-" | Plus => bytes_of "+" | Star => bytes_of "*" | Slash => bytes_of "/"
  | Backslash => bytes_of "\" | Percent => bytes_of "%" | Caret => bytes_of "^"
  | Amp => bytes_of "&" | Pipe => bytes_of "|" | Bang => bytes_of "!" | Tilde => bytes_of "~"
  | Eq => bytes_of "=" | QuestionMark => bytes_of "?" | Lt => bytes_of "<" | Gt => bytes_of ">"
  | Comma => bytes_of "," | Semicolon => bytes_of ";" | Colon => bytes_of ":"
  | LParen => bytes_of "(" | RParen => bytes_of ")" | LBrace => bytes_of "{"
  | RBrace => bytes_of "}" | LBracket => bytes_of "[" | RBracket => bytes_of "]"
  | Hash => bytes_of "#" | Dot => bytes_of "." | Underscore => bytes_of "_"
  | MinusEq => bytes_of "-=" | MinusPipe => bytes_of "-|" | PlusEq => bytes_of "+="
  | PlusPipe => bytes_of "+|" | StarStar => bytes_of "**" | StarEq => bytes_of "*="
  | StarPipe => bytes_of "*|" | SlashEq => bytes_of "/=" | PercentEq => bytes_of "%="
  | LtEq => bytes_of "<=" | LtLt => bytes_of "<<" | GtGt => bytes_of ">>" | GtEq => bytes_of ">="
  | CaretEq => bytes_of "^=" | AmpEq => bytes_of "&=" | PipeEq => bytes_of "|="
  | AmpAmp => bytes_of "&&" | PipePipe => bytes_of "||" | EqEq => bytes_of "=="
  | BangEq => bytes_of "!=" | TildeEq => bytes_of "~=" | FatArrow => bytes_of "=>"
  | DotDot => bytes_of ".." | DotStar => bytes_of ".*" | DotQuestionMark => bytes_of ".?"
  | MinusPipeEq => bytes_of "-|=" | PlusPipeEq => bytes_of "+|=" | LtLtEq => bytes_of "<<="
  | GtGtEq => bytes_of ">>=" | LtLtPipe => bytes_of "<<|" | GtGtPipe => bytes_of ">>|"
  | LtLtPercent => bytes_of "<<%" | GtGtPercent => bytes_of ">>%" | StarPipeEq => bytes_of "*|="
  | AmpAmpEq => bytes_of "&&=" | PipePipeEq => bytes_of "||=" | DotDotEq => bytes_of "..="
  | Ellipsis => bytes_of "..." | LtLtPipeEq => bytes_of "<<|=" | LtLtPercentEq => bytes_of "<<%="
  | GtGtPipeEq => bytes_of ">>|=" | GtGtPercentEq => bytes_of ">>%="
  | Ident => bytes_of "identifier" | DirectiveIdent => bytes_of "directive"
  | LitInt => bytes_of "int literal" | LitFloat => bytes_of "float literal"
  | LitBool => bytes_of "bool literal" | LitStr => bytes_of "string literal"
  | LitMultiLineStr => bytes_of "multi-line string literal" | LitChar => bytes_of "char literal"
  | LitNull => bytes_of "null literal" | DocComment => bytes_of "doc comment"
  | ModComment => bytes_of "mod comment" | TyUsize => bytes_of "usize"
  | TyIsize => bytes_of "isize" | TyU => bytes_of "uint" | TyI => bytes_of "int"
  | TyF16 => bytes_of "f16" | TyF32 => bytes_of "f32" | TyF64 => bytes_of "f64"
  | TyF128 => bytes_of "f128" | TyBool => bytes_of "bool" | TyVoid => bytes_of "void"
  | TyNever => bytes_of "never" | TyAnyptr => bytes_of "anyptr" | TyAnyint => bytes_of "anyint"
  | TyAnyfloat => bytes_of "anyfloat" | TyType => bytes_of "type" | KwFn => bytes_of "fn"
  | KwIf => bytes_of "if" | KwIn => bytes_of "in" | KwOr => bytes_of "or" | KwAnd => bytes_of "and"
  | KwPub => bytes_of "pub" | KwVar => bytes_of "var" | KwFor => bytes_of "for"
  | KwTry => bytes_of "try" | KwElse => bytes_of "else" | KwLoop => bytes_of "loop"
  | KwEnum => bytes_of "enum" | KwTest => bytes_of "test" | KwConst => bytes_of "const"
  | KwComptime => bytes_of "comptime" | KwWhile => bytes_of "while" | KwBreak => bytes_of "break"
  | KwDefer => bytes_of "defer" | KwCatch => bytes_of "catch" | KwUnion => bytes_of "union"
  | KwSwitch => bytes_of "switch" | KwReturn => bytes_of "return" | KwStruct => bytes_of "struct"
  | KwExtern => bytes_of "extern" | DirInline => bytes_of "#inline"
  | DirPacked => bytes_of "#packed" | DirLinear => bytes_of "#linear"
  | DirCallconv => bytes_of "#callconv" | KwContinue => bytes_of "continue"
  | KwErrdefer => bytes_of "errdefer" | DirNoinline => bytes_of "#noinline"
  | DirVolatile => bytes_of "#volatile" | DirAddrspace => bytes_of "#addrspace"
  | KwUndefined => bytes_of "undefined" | Invalid => bytes_of "invalid token"
  | Eof => bytes_of "EOF"
  end.

(** The variants marked [@keyword]. *)
Definition is_keyword (self : TokenTag) : bool :=
  match self with
  | KwFn | KwIf | KwIn | KwOr | KwAnd | KwPub | KwVar | KwFor | KwTry | KwElse | KwLoop | KwEnum
  | KwTest | KwConst | KwComptime | KwWhile | KwBreak | KwDefer | KwCatch | KwUnion | KwSwitch
  | KwReturn | KwStruct | KwExtern | KwContinue | KwErrdefer | KwUndefined => true
  | _ => false
  end.

Definition keyword_lens : list nat := map (fun t => length (display t)) (List.filter is_keyword all).
Definition AVG_KEYWORD_LEN : nat := (fold_left Nat.add keyword_lens 0 / length keyword_lens)%nat.
(** The fold starts from [usize::MAX], which no length reaches. *)
Definition MIN_KEYWORD_LEN : nat :=
  match keyword_lens with [] => 0%nat | l :: ls => fold_left Nat.min ls l end.
Definition MAX_KEYWORD_LEN : nat := fold_left Nat.max keyword_lens 0%nat.

Lemma all_discriminant t : all !! discriminant t = Some t.
Proof. by destruct t. Qed.

#[export] Instance discriminant_inj : Inj (=) (=) discriminant.
Proof. intros t1 t2 E. pose proof (all_discriminant t1) as H. rewrite E, all_discriminant in H. congruence. Qed.

#[export] Instance TokenTag_eq_dec : EqDecision TokenTag.
Proof.
  intros t1 t2. destruct (decide (discriminant t1 = discriminant t2)) as [E|E].
  - left. by apply (inj discriminant).
  - right. by intros ->.
Defined.

Lemma tag_eq_spec t1 t2 : eq t1 t2 = bool_decide (t1 = t2).
Proof.
  unfold eq. destruct (Nat.eqb_spec (discriminant t1) (discriminant t2)) as [E|E].
  - apply (inj discriminant) in E as ->. by rewrite bool_decide_true.
  - rewrite bool_decide_false; [done|]. by intros ->.
Qed.

End TokenTag.

Module TokenKind.

Inductive TokenKind : Set :=
  | Minus | Plus | Star | Slash | Backslash | Percent | Caret | Amp | Pipe | Bang | Tilde | Eq
  | QuestionMark | Lt | Gt | Comma | Semicolon | Colon | LParen | RParen | LBrace | RBrace
  | LBracket | RBracket | Hash | Dot | Underscore | MinusEq | MinusPipe | PlusEq | PlusPipe
  | StarStar | StarEq | StarPipe | SlashEq | PercentEq | LtEq | LtLt | GtGt | GtEq | CaretEq
  | AmpEq | PipeEq | AmpAmp | PipePipe | EqEq | BangEq | TildeEq | FatArrow | DotDot | DotStar
  | DotQuestionMark | MinusPipeEq | PlusPipeEq | LtLtEq | GtGtEq | LtLtPipe | GtGtPipe
  | LtLtPercent | GtGtPercent | StarPipeEq | AmpAmpEq | PipePipeEq | DotDotEq | Ellipsis
  | LtLtPipeEq | LtLtPercentEq | GtGtPipeEq | GtGtPercentEq
  | Ident (symbol : list Z) (kind : IdentKind) | DirectiveIdent (symbol : list Z)
  | LitInt (symbol : list Z) (radix : Radix) | LitFloat (symbol : list Z) | LitBool (v : bool)
  | LitStr (v : list Z) | LitMultiLineStr (v : list Z) | LitChar (v : Z) | LitNull | DocComment
  | ModComment | TyUsize | TyIsize | TyU (v : Z) | TyI (v : Z) | TyF16 | TyF32 | TyF64 | TyF128
  | TyBool | TyVoid | TyNever | TyAnyptr | TyAnyint | TyAnyfloat | TyType | KwFn | KwIf | KwIn
  | KwOr | KwAnd | KwPub | KwVar | KwFor | KwTry | KwElse | KwLoop | KwEnum | KwTest | KwConst
  | KwComptime | KwWhile | KwBreak | KwDefer | KwCatch | KwUnion | KwSwitch | KwReturn | KwStruct
  | KwExtern | DirInline | DirPacked | DirLinear | DirCallconv | KwContinue | KwErrdefer
  | DirNoinline | DirVolatile | DirAddrspace | KwUndefined | Invalid | Eof.

(** The tag shares its discriminant with the kind. *)
Definition tag (self : TokenKind) : TokenTag.TokenTag :=
  match self with
  | Minus => TokenTag.Minus | Plus => TokenTag.Plus | Star => TokenTag.Star
  | Slash => TokenTag.Slash | Backslash => TokenTag.Backslash | Percent => TokenTag.Percent
  | Caret => TokenTag.Caret | Amp => TokenTag.Amp | Pipe => TokenTag.Pipe | Bang => TokenTag.Bang
  | Tilde => TokenTag.Tilde | Eq => TokenTag.Eq | QuestionMark => TokenTag.QuestionMark
  | Lt => TokenTag.Lt | Gt => TokenTag.Gt | Comma => TokenTag.Comma
  | Semicolon => TokenTag.Semicolon | Colon => TokenTag.Colon | LParen => TokenTag.LParen
  | RParen => TokenTag.RParen | LBrace => TokenTag.LBrace | RBrace => TokenTag.RBrace
  | LBracket => TokenTag.LBracket | RBracket => TokenTag.RBracket | Hash => TokenTag.Hash
  | Dot => TokenTag.Dot | Underscore => TokenTag.Underscore | MinusEq => TokenTag.MinusEq
  | MinusPipe => TokenTag.MinusPipe | PlusEq => TokenTag.PlusEq | PlusPipe => TokenTag.PlusPipe
  | StarStar => TokenTag.StarStar | StarEq => TokenTag.StarEq | StarPipe => TokenTag.StarPipe
  | SlashEq => TokenTag.SlashEq | PercentEq => TokenTag.PercentEq | LtEq => TokenTag.LtEq
  | LtLt => TokenTag.LtLt | GtGt => TokenTag.GtGt | GtEq => TokenTag.GtEq
  | CaretEq => TokenTag.CaretEq | AmpEq => TokenTag.AmpEq | PipeEq => TokenTag.PipeEq
  | AmpAmp => TokenTag.AmpAmp | PipePipe => TokenTag.PipePipe | EqEq => TokenTag.EqEq
  | BangEq => TokenTag.BangEq | TildeEq => TokenTag.TildeEq | FatArrow => TokenTag.FatArrow
  | DotDot => TokenTag.DotDot | DotStar => TokenTag.DotStar
  | DotQuestionMark => TokenTag.DotQuestionMark | MinusPipeEq => TokenTag.MinusPipeEq
  | PlusPipeEq => TokenTag.PlusPipeEq | LtLtEq => TokenTag.LtLtEq | GtGtEq => TokenTag.GtGtEq
  | LtLtPipe => TokenTag.LtLtPipe | GtGtPipe => TokenTag.GtGtPipe
  | LtLtPercent => TokenTag.LtLtPercent | GtGtPercent => TokenTag.GtGtPercent
  | StarPipeEq => TokenTag.StarPipeEq | AmpAmpEq => TokenTag.AmpAmpEq
  | PipePipeEq => TokenTag.PipePipeEq | DotDotEq => TokenTag.DotDotEq
  | Ellipsis => TokenTag.Ellipsis | LtLtPipeEq => TokenTag.LtLtPipeEq
  | LtLtPercentEq => TokenTag.LtLtPercentEq | GtGtPipeEq => TokenTag.GtGtPipeEq
  | GtGtPercentEq => TokenTag.GtGtPercentEq | Ident _ _ => TokenTag.Ident
  | DirectiveIdent _ => TokenTag.DirectiveIdent | LitInt _ _ => TokenTag.LitInt
  | LitFloat _ => TokenTag.LitFloat | LitBool _ => TokenTag.LitBool | LitStr _ => TokenTag.LitStr
  | LitMultiLineStr _ => TokenTag.LitMultiLineStr | LitChar _ => TokenTag.LitChar
  | LitNull => TokenTag.LitNull | DocComment => TokenTag.DocComment
  | ModComment => TokenTag.ModComment | TyUsize => TokenTag.TyUsize | TyIsize => TokenTag.TyIsize
  | TyU _ => TokenTag.TyU | TyI _ => TokenTag.TyI | TyF16 => TokenTag.TyF16
  | TyF32 => TokenTag.TyF32 | TyF64 => TokenTag.TyF64 | TyF128 => TokenTag.TyF128
  | TyBool => TokenTag.TyBool | TyVoid => TokenTag.TyVoid | TyNever => TokenTag.TyNever
  | TyAnyptr => TokenTag.TyAnyptr | TyAnyint => TokenTag.TyAnyint
  | TyAnyfloat => TokenTag.TyAnyfloat | TyType => TokenTag.TyType | KwFn => TokenTag.KwFn
  | KwIf => TokenTag.KwIf | KwIn => TokenTag.KwIn | KwOr => TokenTag.KwOr | KwAnd => TokenTag.KwAnd
  | KwPub => TokenTag.KwPub | KwVar => TokenTag.KwVar | KwFor => TokenTag.KwFor
  | KwTry => TokenTag.KwTry | KwElse => TokenTag.KwElse | KwLoop => TokenTag.KwLoop
  | KwEnum => TokenTag.KwEnum | KwTest => TokenTag.KwTest | KwConst => TokenTag.KwConst
  | KwComptime => TokenTag.KwComptime | KwWhile => TokenTag.KwWhile | KwBreak => TokenTag.KwBreak
  | KwDefer => TokenTag.KwDefer | KwCatch => TokenTag.KwCatch | KwUnion => TokenTag.KwUnion
  | KwSwitch => TokenTag.KwSwitch | KwReturn => TokenTag.KwReturn | KwStruct => TokenTag.KwStruct
  | KwExtern => TokenTag.KwExtern | DirInline => TokenTag.DirInline
  | DirPacked => TokenTag.DirPacked | DirLinear => TokenTag.DirLinear
  | DirCallconv => TokenTag.DirCallconv | KwContinue => TokenTag.KwContinue
  | KwErrdefer => TokenTag.KwErrdefer | DirNoinline => TokenTag.DirNoinline
  | DirVolatile => TokenTag.DirVolatile | DirAddrspace => TokenTag.DirAddrspace
  | KwUndefined => TokenTag.KwUndefined | Invalid => TokenTag.Invalid | Eof => TokenTag.Eof
  end.

(** [PartialEq for TokenKind] and [PartialEq<TokenTag>]: payloads are ignored. *)
Definition kind_eq (self other : TokenKind) : bool := TokenTag.eq (tag self) (tag other).
Definition has_tag (self : TokenKind) (other : TokenTag.TokenTag) : bool := TokenTag.eq (tag self) other.
Definition kind_display (self : TokenKind) : list Z := TokenTag.display (tag self).

End TokenKind.

(** ** Tokens *)

Module Token.

Record Token : Set := mk { kind : TokenKind.TokenKind; span : Span.Span }.

Definition is_eof (self : Token) : bool :=
  match kind self with TokenKind.Eof => true | _ => false end.
Definition is_invalid (self : Token) : bool :=
  match kind self with TokenKind.Invalid => true | _ => false end.
Definition token_eq (self other : Token) : bool :=
  TokenKind.kind_eq (kind self) (kind other) && Span.eqb (span self) (span other).

End Token.
