(* ===== verification/Lexer.v ===== *)
(** * The lexer ([src/frontend/lexer.rs]): state and operations

    [Lexer.Lexer] is the struct [Lexer]; [State.State] the enum local to
    [next]; each arm of its [match state] is a definition [st_<State>] that
    either leaves the loop ([Break]) or continues in another state ([Goto]).
    The mutable locals [kind] and [seen_digit] are arguments.  [bump] and
    [peek] read without a bounds check, as the source does: out of bounds they
    are undefined behaviour.  [lex_loop] is the ['lexer] loop and [tokenize]
    the loop of [Parser::new] that drives it.  Loops carry fuel computed from
    the length of the input; [LexerSpec] proves that it suffices. *)

From S2P Require Import Prelude Words Bytes Span Token.

#[local] Open Scope Z_scope.

Abbreviation TokenKind := TokenKind.TokenKind.

(** The [tiny_map!] macro of the [hashify] crate: a perfect hash table built
    from literal keys. *)
Class Hashify := tiny_map : list (list Z * TokenKind) -> list Z -> option TokenKind.

(** First entry with the given key. *)
Fixpoint assoc (entries : list (list Z * TokenKind)) (key : list Z) : option TokenKind :=
  match entries with
  | [] => None
  | (k, v) :: entries => if decide (k = key) then Some v else assoc entries key
  end.

(** What it promises, for distinct keys: the value stored under the key. *)
Class HashifyLaws `{!Hashify} : Prop :=
  tiny_map_assoc entries key : NoDup (map fst entries) -> tiny_map entries key = assoc entries key.

Definition hashify_assoc : Hashify := assoc.
Lemma hashify_assoc_laws : @HashifyLaws hashify_assoc.
Proof. done. Qed.

Module State.
Inductive State : Set :=
  | S0 | Minus | MinusPipe | Plus | PlusPipe | Star | StarPipe | StarStar | Slash | Percent
  | Caret | Amp | Pipe | Bang | Tilde | Eq | Hash | At | Dollar | Lt | LtLt | LtLtPipe
  | LtLtPercent | Gt | GtGt | GtGtPipe | GtGtPercent | AmpAmp | PipePipe | Dot | DotDot
  | Underscore | Backslash | LineComment | Ident | Str | EscapeStr | IntZero | IntBin | IntOct
  | IntHex | IntDec | FloatDot1 | FloatDot2 | FloatExp1 | FloatExp2.
End State.
Abbreviation State := State.State.

Module Lexer.

(** An error diagnostic with its primary label. *)
Record Diagnostic : Set := diag { message : list Z; module_of : Z; label : Span.Span }.

Record Lexer : Set := mk {
  bytes : list Z;
  len : nat;
  offset : nat;
  span_start : nat;
  module_id : Z;
  errors : list Diagnostic;
  scratch_pad : list Z;
}.

Definition set_offset (self : Lexer) (o : nat) : Lexer :=
  mk (bytes self) (len self) o (span_start self) (module_id self) (errors self) (scratch_pad self).
Definition set_span_start (self : Lexer) (o : nat) : Lexer :=
  mk (bytes self) (len self) (offset self) o (module_id self) (errors self) (scratch_pad self).
Definition set_errors (self : Lexer) (e : list Diagnostic) : Lexer :=
  mk (bytes self) (len self) (offset self) (span_start self) (module_id self) e (scratch_pad self).
Definition set_scratch (self : Lexer) (s : list Z) : Lexer :=
  mk (bytes self) (len self) (offset self) (span_start self) (module_id self) (errors self) s.

Definition EOF : Z := 0.
Definition quote : Z := 34.

Definition new (source : list Z) (module_id : Z) : res Lexer :=
  len ← usize_sub (length source) 1;
  Ret (mk source len 0 0 module_id [] []).

Definition take_errors (self : Lexer) : list Diagnostic * Lexer := (errors self, set_errors self []).

(** ** Cursor *)

Definition bump (self : Lexer) : res (Z * Lexer) :=
  match bytes self !! offset self with
  | Some b => Ret (b, set_offset self (offset self + 1))
  | None => ub
  end.

Definition peek (self : Lexer) : res Z :=
  match bytes self !! offset self with Some b => Ret b | None => ub end.

Definition is_eof (self : Lexer) : bool := (len self <=? offset self)%nat.

(** [self.offset += n] and [self.offset -= n]. *)
Definition advance (self : Lexer) (n : nat) : Lexer := set_offset self (offset self + n).
Definition back (self : Lexer) (n : nat) : res Lexer :=
  o ← usize_sub (offset self) n; Ret (set_offset self o).

(** More iterations than any loop over the input makes. *)
Definition loop_fuel (self : Lexer) : nat := S (length (bytes self)).

(** [while p(self.peek()) { self.offset += 1; }]. *)
Fixpoint eat_while (fuel : nat) (p : Z -> bool) (self : Lexer) : res Lexer :=
  match fuel with
  | O => diverge
  | S fuel =>
      b ← peek self;
      if p b then eat_while fuel p (advance self 1) else Ret self
  end.

(** The digit loops: [if self.peek() != b'_' { seen_digit = true; }] first. *)
Fixpoint eat_digits (fuel : nat) (p : Z -> bool) (self : Lexer) (seen_digit : bool) : res (Lexer * bool) :=
  match fuel with
  | O => diverge
  | S fuel =>
      b ← peek self;
      if p b then
        let seen_digit := if negb (b =? byte "_") then true else seen_digit in
        eat_digits fuel p (advance self 1) seen_digit
      else Ret (self, seen_digit)
  end.

Definition intern_str (slice : list Z) : res (list Z) :=
  if utf8_valid slice then Ret slice else Fault Invalid_str.
Definition intern_bytes (slice : list Z) : list Z := slice.

Definition hex_value (chr : Z) : res Z :=
  if negb (is_ascii_hexdigit chr) then ub
  else if (byte "0" <=? chr) && (chr <=? byte "9") then Ret (chr - byte "0")
  else if (byte "a" <=? chr) && (chr <=? byte "f") then Ret (chr - byte "a" + 10)
  else if (byte "A" <=? chr) && (chr <=? byte "F") then Ret (chr - byte "A" + 10)
  else ub.

(** ** Diagnostics *)

Definition self_span (self : Lexer) : res Span.Span := Span.new (span_start self) (offset self).

Definition push_diag (self : Lexer) (message : list Z) : res Lexer :=
  span ← self_span self;
  Ret (set_errors self (errors self ++ [diag message (module_id self) span])).

Definition diag_unexpected_eof (self : Lexer) : res Lexer :=
  push_diag self (bytes_of "unexpected end of file").
(** [chr as char] is the Latin-1 character of the byte. *)
Definition diag_unexpected_character (self : Lexer) (chr : Z) : res Lexer :=
  push_diag self (bytes_of "unexpected character '" ++ encode_utf8 chr ++ bytes_of "'").
Definition diag_invalid_escape_sequence (self : Lexer) : res Lexer :=
  push_diag self (bytes_of "invalid escape sequence").
Definition diag_invalid_unicode_escape (self : Lexer) : res Lexer :=
  push_diag self (bytes_of "invalid unicode escape").
Definition diag_invalid_float_literal (self : Lexer) : res Lexer :=
  push_diag self (bytes_of "invalid float literal").
Definition diag_invalid_integer_literal (self : Lexer) : res Lexer :=
  push_diag self (bytes_of "invalid integer literal").
Definition diag_invalid_integer_bit_width (self : Lexer) : res Lexer :=
  push_diag self (bytes_of "invalid integer bit width").

(** What an arm of [match state] does: leave ['lexer], or continue. *)
Inductive flow : Set :=
  | Break (self : Lexer) (kind : TokenKind)
  | Goto (state : State) (self : Lexer) (kind : TokenKind) (seen_digit : bool).

(** [kind = TokenKind::Invalid; break 'lexer]. *)
Definition invalid (self : Lexer) : res flow := Ret (Break self TokenKind.Invalid).

(** ** Skipping *)

Section Skip.
Context `{!Memx}.

Fixpoint eat_until_newline_loop (fuel : nat) (self : Lexer) : res Lexer :=
  match fuel with
  | O => diverge
  | S fuel =>
      rest ← slice_from (bytes self) (offset self);
      match memchr_dbl rest (byte "010") (byte "013") with
      | Some off =>
          b ← get_idx (bytes self) (offset self + off);
          if b =? byte "010" then Ret (set_offset self (offset self + off))
          else
            let off := (offset self + off)%nat in
            crlf ← (if (off + 1 <? len self)%nat then
                      c ← get_idx (bytes self) (off + 1); Ret (c =? byte "010")
                    else Ret false);
            eat_until_newline_loop fuel (set_offset self (if (crlf : bool) then off + 1 else off))
      | None => Ret self
      end
  end.

Definition eat_until_newline (self : Lexer) : res Lexer := eat_until_newline_loop (loop_fuel self) self.

Definition eat_until (self : Lexer) (needle : Z) : res Lexer :=
  rest ← slice_from (bytes self) (offset self);
  match memchr rest needle with
  | Some off => Ret (advance self off)
  | None => Ret (set_offset self (len self))
  end.

Definition eat_until3 (self : Lexer) (needle1 needle2 needle3 : Z) : res Lexer :=
  rest ← slice_from (bytes self) (offset self);
  match memchr_tpl rest needle1 needle2 needle3 with
  | Some off => Ret (advance self off)
  | None => Ret (set_offset self (len self))
  end.

Definition recover_invalid_string (self : Lexer) : res Lexer :=
  let self := set_scratch self [] in
  if (len self <=? offset self)%nat then Ret (set_offset self (len self))
  else
    rest ← slice_from (bytes self) (offset self);
    match memchr_tpl rest quote (byte "010") (byte "013") with
    | Some off =>
        let self := advance self off in
        b ← get_idx (bytes self) (offset self);
        Ret (if b =? quote then advance self 1 else self)
    | None => Ret (set_offset self (len self))
    end.

(** [self.recover_invalid_string(); kind = Invalid; break 'lexer]. *)
Definition abandon_string (self : Lexer) : res flow :=
  self ← recover_invalid_string self; invalid self.
End Skip.

(** ** States *)

Section States.
Context `{!Memx, !Hashify}.

Definition is_newline (b : Z) : bool := (b =? byte "010") || (b =? byte "013").

(** [if matches!(self.bytes[self.offset - 1], b'\n' | b'\r') { self.offset -= 1; }]. *)
Definition unread_newline (self : Lexer) : res Lexer :=
  o ← usize_sub (offset self) 1;
  b ← get_idx (bytes self) o;
  if is_newline b then back self 1 else Ret self.

(** The [if] at the start of [S0]. *)
Definition skip_whitespace (self : Lexer) : res Lexer :=
  b ← peek self;
  if char_class.is_whitespace b then
    rest ← slice_from (bytes self) (offset self);
    match memnechr_qpl rest (byte " ") (byte "009") (byte "010") (byte "013") with
    | Some off => Ret (advance self off)
    | None => Ret self
    end
  else Ret self.

Definition st_S0 (self : Lexer) (kind : TokenKind) (seen_digit : bool) : res flow :=
  self ← skip_whitespace self;
  let self := set_span_start self (offset self) in
  '(chr, self) ← bump self;
  if chr =? EOF then Ret (Break self TokenKind.Eof)
  else if chr =? byte "?" then Ret (Break self TokenKind.QuestionMark)
  else if chr =? byte "," then Ret (Break self TokenKind.Comma)
  else if chr =? byte ";" then Ret (Break self TokenKind.Semicolon)
  else if chr =? byte ":" then Ret (Break self TokenKind.Colon)
  else if chr =? byte "(" then Ret (Break self TokenKind.LParen)
  else if chr =? byte ")" then Ret (Break self TokenKind.RParen)
  else if chr =? byte "{" then Ret (Break self TokenKind.LBrace)
  else if chr =? byte "}" then Ret (Break self TokenKind.RBrace)
  else if chr =? byte "[" then Ret (Break self TokenKind.LBracket)
  else if chr =? byte "]" then Ret (Break self TokenKind.RBracket)
  else if chr =? byte "#" then Ret (Goto State.Hash self TokenKind.Hash seen_digit)
  else if chr =? byte "-" then Ret (Goto State.Minus self TokenKind.Minus seen_digit)
  else if chr =? byte "+" then Ret (Goto State.Plus self TokenKind.Plus seen_digit)
  else if chr =? byte "*" then Ret (Goto State.Star self TokenKind.Star seen_digit)
  else if chr =? byte "/" then Ret (Goto State.Slash self TokenKind.Slash seen_digit)
  else if chr =? byte "%" then Ret (Goto State.Percent self TokenKind.Percent seen_digit)
  else if chr =? byte "^" then Ret (Goto State.Caret self TokenKind.Caret seen_digit)
  else if chr =? byte "&" then Ret (Goto State.Amp self TokenKind.Amp seen_digit)
  else if chr =? byte "|" then Ret (Goto State.Pipe self TokenKind.Pipe seen_digit)
  else if chr =? byte "!" then Ret (Goto State.Bang self TokenKind.Bang seen_digit)
  else if chr =? byte "~" then Ret (Goto State.Tilde self TokenKind.Tilde seen_digit)
  else if chr =? byte "=" then Ret (Goto State.Eq self TokenKind.Eq seen_digit)
  else if chr =? byte "@" then Ret (Goto State.At self kind seen_digit)
  else if chr =? byte "$" then Ret (Goto State.Dollar self kind seen_digit)
  else if chr =? byte "<" then Ret (Goto State.Lt self TokenKind.Lt seen_digit)
  else if chr =? byte ">" then Ret (Goto State.Gt self TokenKind.Gt seen_digit)
  else if chr =? byte "." then Ret (Goto State.Dot self TokenKind.Dot seen_digit)
  else if chr =? byte "_" then Ret (Goto State.Underscore self TokenKind.Underscore seen_digit)
  else if chr =? byte "\" then Ret (Goto State.Backslash self kind seen_digit)
  else if chr =? quote then Ret (Goto State.Str self (TokenKind.LitStr []) seen_digit)
  else if chr =? byte "0" then Ret (Goto State.IntZero self kind true)
  else
    let class := char_class.class chr in
    if negb (Z.land class char_class.IDENT_START =? 0) then
      Ret (Goto State.Ident self (TokenKind.Ident [] User) seen_digit)
    else if negb (Z.land class char_class.DIGIT =? 0) then
      Ret (Goto State.IntDec self kind true)
    else
      (* the arm rebinds [chr] to the class *)
      self ← diag_unexpected_character self class;
      invalid self.

Definition st_Minus (self : Lexer) (kind : TokenKind) (seen_digit : bool) : res flow :=
  '(chr, self) ← bump self;
  if chr =? byte "=" then Ret (Break self TokenKind.MinusEq)
  else if chr =? byte "|" then Ret (Goto State.MinusPipe self TokenKind.MinusPipe seen_digit)
  else self ← back self 1; Ret (Break self kind).

Definition st_MinusPipe (self : Lexer) (kind : TokenKind) (seen_digit : bool) : res flow :=
  '(chr, self) ← bump self;
  if chr =? byte "=" then Ret (Break self TokenKind.MinusPipeEq)
  else self ← back self 1; Ret (Break self kind).

Definition st_Plus (self : Lexer) (kind : TokenKind) (seen_digit : bool) : res flow :=
  '(chr, self) ← bump self;
  if chr =? byte "=" then Ret (Break self TokenKind.PlusEq)
  else if chr =? byte "|" then Ret (Goto State.PlusPipe self TokenKind.PlusPipe seen_digit)
  else self ← back self 1; Ret (Break self kind).

Definition st_PlusPipe (self : Lexer) (kind : TokenKind) (seen_digit : bool) : res flow :=
  '(chr, self) ← bump self;
  if chr =? byte "=" then Ret (Break self TokenKind.PlusPipeEq)
  else self ← back self 1; Ret (Break self kind).

Definition st_Star (self : Lexer) (kind : TokenKind) (seen_digit : bool) : res flow :=
  '(chr, self) ← bump self;
  if chr =? byte "*" then Ret (Goto State.StarStar self TokenKind.StarStar seen_digit)
  else if chr =? byte "|" then Ret (Goto State.StarPipe self TokenKind.StarPipe seen_digit)
  else self ← back self 1; Ret (Break self kind).

Definition st_StarPipe (self : Lexer) (kind : TokenKind) (seen_digit : bool) : res flow :=
  '(chr, self) ← bump self;
  if chr =? byte "=" then Ret (Break self TokenKind.StarPipeEq)
  else self ← back self 1; Ret (Break self kind).

Definition st_StarStar (self : Lexer) (kind : TokenKind) (seen_digit : bool) : res flow :=
  '(_, self) ← bump self;
  self ← back self 1;
  Ret (Break self kind).

Definition st_Slash (self : Lexer) (kind : TokenKind) (seen_digit : bool) : res flow :=
  '(chr, self) ← bump self;
  if chr =? byte "=" then Ret (Break self TokenKind.SlashEq)
  else if chr =? byte "/" then Ret (Goto State.LineComment self kind seen_digit)
  else self ← back self 1; Ret (Break self kind).

Definition st_Percent (self : Lexer) (kind : TokenKind) (seen_digit : bool) : res flow :=
  '(chr, self) ← bump self;
  if chr =? byte "=" then Ret (Break self TokenKind.PercentEq)
  else self ← back self 1; Ret (Break self kind).

Definition st_Caret (self : Lexer) (kind : TokenKind) (seen_digit : bool) : res flow :=
  '(chr, self) ← bump self;
  if chr =? byte "=" then Ret (Break self TokenKind.CaretEq)
  else self ← back self 1; Ret (Break self kind).

Definition st_Amp (self : Lexer) (kind : TokenKind) (seen_digit : bool) : res flow :=
  '(chr, self) ← bump self;
  if chr =? byte "=" then Ret (Break self TokenKind.AmpEq)
  else if chr =? byte "&" then Ret (Goto State.AmpAmp self TokenKind.AmpAmp seen_digit)
  else self ← back self 1; Ret (Break self kind).

Definition st_AmpAmp (self : Lexer) (kind : TokenKind) (seen_digit : bool) : res flow :=
  '(chr, self) ← bump self;
  if chr =? byte "=" then Ret (Break self TokenKind.AmpAmpEq)
  else self ← back self 1; Ret (Break self kind).

Definition st_Pipe (self : Lexer) (kind : TokenKind) (seen_digit : bool) : res flow :=
  '(chr, self) ← bump self;
  if chr =? byte "=" then Ret (Break self TokenKind.PipeEq)
  else if chr =? byte "|" then Ret (Goto State.PipePipe self TokenKind.PipePipe seen_digit)
  else self ← back self 1; Ret (Break self kind).

Definition st_PipePipe (self : Lexer) (kind : TokenKind) (seen_digit : bool) : res flow :=
  '(chr, self) ← bump self;
  if chr =? byte "=" then Ret (Break self TokenKind.PipePipeEq)
  else self ← back self 1; Ret (Break self kind).

Definition st_Bang (self : Lexer) (kind : TokenKind) (seen_digit : bool) : res flow :=
  '(chr, self) ← bump self;
  if chr =? byte "=" then Ret (Break self TokenKind.BangEq)
  else self ← back self 1; Ret (Break self kind).

Definition st_Tilde (self : Lexer) (kind : TokenKind) (seen_digit : bool) : res flow :=
  '(chr, self) ← bump self;
  if chr =? byte "=" then Ret (Break self TokenKind.TildeEq)
  else self ← back self 1; Ret (Break self kind).

Definition st_Eq (self : Lexer) (kind : TokenKind) (seen_digit : bool) : res flow :=
  '(chr, self) ← bump self;
  if chr =? byte "=" then Ret (Break self TokenKind.EqEq)
  else if chr =? byte ">" then Ret (Break self TokenKind.FatArrow)
  else self ← back self 1; Ret (Break self kind).

Definition st_Lt (self : Lexer) (kind : TokenKind) (seen_digit : bool) : res flow :=
  '(chr, self) ← bump self;
  if chr =? byte "=" then Ret (Break self TokenKind.LtEq)
  else if chr =? byte "<" then Ret (Goto State.LtLt self TokenKind.LtLt seen_digit)
  else self ← back self 1; Ret (Break self kind).

Definition st_LtLt (self : Lexer) (kind : TokenKind) (seen_digit : bool) : res flow :=
  '(chr, self) ← bump self;
  if chr =? byte "=" then Ret (Break self TokenKind.LtLtEq)
  else if chr =? byte "|" then Ret (Goto State.LtLtPipe self TokenKind.LtLtPipe seen_digit)
  else if chr =? byte "%" then Ret (Goto State.LtLtPercent self TokenKind.LtLtPercent seen_digit)
  else self ← back self 1; Ret (Break self kind).

Definition st_LtLtPipe (self : Lexer) (kind : TokenKind) (seen_digit : bool) : res flow :=
  '(chr, self) ← bump self;
  if chr =? byte "=" then Ret (Break self TokenKind.LtLtPipeEq)
  else self ← back self 1; Ret (Break self kind).

Definition st_LtLtPercent (self : Lexer) (kind : TokenKind) (seen_digit : bool) : res flow :=
  '(chr, self) ← bump self;
  if chr =? byte "=" then Ret (Break self TokenKind.LtLtPercentEq)
  else self ← back self 1; Ret (Break self kind).

Definition st_Gt (self : Lexer) (kind : TokenKind) (seen_digit : bool) : res flow :=
  '(chr, self) ← bump self;
  if chr =? byte "=" then Ret (Break self TokenKind.GtEq)
  else if chr =? byte ">" then Ret (Goto State.GtGt self TokenKind.GtGt seen_digit)
  else self ← back self 1; Ret (Break self kind).

Definition st_GtGt (self : Lexer) (kind : TokenKind) (seen_digit : bool) : res flow :=
  '(chr, self) ← bump self;
  if chr =? byte "=" then Ret (Break self TokenKind.GtGtEq)
  else if chr =? byte "|" then Ret (Goto State.GtGtPipe self TokenKind.GtGtPipe seen_digit)
  else if chr =? byte "%" then Ret (Goto State.GtGtPercent self TokenKind.GtGtPercent seen_digit)
  else self ← back self 1; Ret (Break self kind).

Definition st_GtGtPipe (self : Lexer) (kind : TokenKind) (seen_digit : bool) : res flow :=
  '(chr, self) ← bump self;
  if chr =? byte "=" then Ret (Break self TokenKind.GtGtPipeEq)
  else self ← back self 1; Ret (Break self kind).

Definition st_GtGtPercent (self : Lexer) (kind : TokenKind) (seen_digit : bool) : res flow :=
  '(chr, self) ← bump self;
  if chr =? byte "=" then Ret (Break self TokenKind.GtGtPercentEq)
  else self ← back self 1; Ret (Break self kind).

Definition st_DotDot (self : Lexer) (kind : TokenKind) (seen_digit : bool) : res flow :=
  '(chr, self) ← bump self;
  if chr =? byte "=" then Ret (Break self TokenKind.DotDotEq)
  else if chr =? byte "." then Ret (Break self TokenKind.Ellipsis)
  else self ← back self 1; Ret (Break self kind).

Definition st_Hash (self : Lexer) (kind : TokenKind) (seen_digit : bool) : res flow :=
  '(chr, self) ← bump self;
  if char_class.is_ident_start chr then
    self ← eat_while (loop_fuel self) char_class.is_ident_cont self;
    str ← slice (bytes self) (span_start self + 1) (offset self);
    if decide (str = bytes_of "inline") then Ret (Break self TokenKind.DirInline)
    else if decide (str = bytes_of "packed") then Ret (Break self TokenKind.DirPacked)
    else if decide (str = bytes_of "linear") then Ret (Break self TokenKind.DirLinear)
    else if decide (str = bytes_of "callconv") then Ret (Break self TokenKind.DirCallconv)
    else if decide (str = bytes_of "noinline") then Ret (Break self TokenKind.DirNoinline)
    else if decide (str = bytes_of "volatile") then Ret (Break self TokenKind.DirVolatile)
    else if decide (str = bytes_of "addrspace") then Ret (Break self TokenKind.DirAddrspace)
    else symbol ← intern_str str; Ret (Break self (TokenKind.DirectiveIdent symbol))
  else self ← back self 1; Ret (Break self kind).

(** The default arm of [At] and [Dollar]. *)
Definition reject_sigil (self : Lexer) (chr : Z) : res flow :=
  self ← diag_unexpected_character self chr;
  invalid (if chr =? EOF then set_offset self (len self) else self).

Definition st_At (self : Lexer) (kind : TokenKind) (seen_digit : bool) : res flow :=
  '(chr, self) ← bump self;
  if char_class.is_ident_start chr then
    Ret (Goto State.Ident self (TokenKind.Ident [] Builtin) seen_digit)
  else if chr =? quote then Ret (Goto State.Str self (TokenKind.Ident [] UserEscaped) seen_digit)
  else reject_sigil self chr.

Definition st_Dollar (self : Lexer) (kind : TokenKind) (seen_digit : bool) : res flow :=
  '(chr, self) ← bump self;
  if char_class.is_ident_start chr then
    Ret (Goto State.Ident self (TokenKind.Ident [] UserComptime) seen_digit)
  else reject_sigil self chr.

Definition st_Dot (self : Lexer) (kind : TokenKind) (seen_digit : bool) : res flow :=
  '(chr, self) ← bump self;
  if chr =? byte "." then Ret (Goto State.DotDot self TokenKind.DotDot seen_digit)
  else if chr =? byte "*" then Ret (Break self TokenKind.DotStar)
  else if chr =? byte "?" then Ret (Break self TokenKind.DotQuestionMark)
  else if char_class.is_digit chr then Ret (Goto State.FloatDot2 self kind true)
  else self ← back self 1; Ret (Break self kind).

Definition st_Underscore (self : Lexer) (kind : TokenKind) (seen_digit : bool) : res flow :=
  '(chr, self) ← bump self;
  if char_class.is_ident_start chr then
    Ret (Goto State.Ident self (TokenKind.Ident [] User) seen_digit)
  else self ← back self 1; Ret (Break self kind).

Definition st_Backslash (self : Lexer) (kind : TokenKind) (seen_digit : bool) : res flow :=
  '(chr, self) ← bump self;
  if chr =? byte "\" then
    self ← eat_until_newline self;
    s ← slice (bytes self) (span_start self + 2) (offset self);
    Ret (Break self (TokenKind.LitMultiLineStr (intern_bytes s)))
  else self ← back self 1; Ret (Break self TokenKind.Backslash).

(** Comments are skipped: the source's condition is the literal [true]. *)
Definition st_LineComment (self : Lexer) (kind : TokenKind) (seen_digit : bool) : res flow :=
  self ← eat_until_newline self;
  Ret (Goto State.S0 self kind seen_digit).

(** *** Identifiers, keywords and integer types *)

Definition keyword_map : list (list Z * TokenKind) :=
  [(bytes_of "fn", TokenKind.KwFn);
   (bytes_of "if", TokenKind.KwIf);
   (bytes_of "in", TokenKind.KwIn);
   (bytes_of "or", TokenKind.KwOr);
   (bytes_of "i1", TokenKind.TyI 1);
   (bytes_of "i2", TokenKind.TyI 2);
   (bytes_of "i3", TokenKind.TyI 3);
   (bytes_of "i4", TokenKind.TyI 4);
   (bytes_of "i5", TokenKind.TyI 5);
   (bytes_of "i6", TokenKind.TyI 6);
   (bytes_of "i7", TokenKind.TyI 7);
   (bytes_of "i8", TokenKind.TyI 8);
   (bytes_of "i9", TokenKind.TyI 9);
   (bytes_of "u1", TokenKind.TyU 1);
   (bytes_of "u2", TokenKind.TyU 2);
   (bytes_of "u3", TokenKind.TyU 3);
   (bytes_of "u4", TokenKind.TyU 4);
   (bytes_of "u5", TokenKind.TyU 5);
   (bytes_of "u6", TokenKind.TyU 6);
   (bytes_of "u7", TokenKind.TyU 7);
   (bytes_of "u8", TokenKind.TyU 8);
   (bytes_of "u9", TokenKind.TyU 9);
   (bytes_of "and", TokenKind.KwAnd);
   (bytes_of "pub", TokenKind.KwPub);
   (bytes_of "var", TokenKind.KwVar);
   (bytes_of "for", TokenKind.KwFor);
   (bytes_of "try", TokenKind.KwTry);
   (bytes_of "anyptr", TokenKind.TyAnyptr);
   (bytes_of "f16", TokenKind.TyF16);
   (bytes_of "f32", TokenKind.TyF32);
   (bytes_of "f64", TokenKind.TyF64);
   (bytes_of "i16", TokenKind.TyI 16);
   (bytes_of "i32", TokenKind.TyI 32);
   (bytes_of "i64", TokenKind.TyI 64);
   (bytes_of "u16", TokenKind.TyU 16);
   (bytes_of "u32", TokenKind.TyU 32);
   (bytes_of "u64", TokenKind.TyU 64);
   (bytes_of "self", TokenKind.Ident (bytes_of "self") User);
   (bytes_of "Self", TokenKind.Ident (bytes_of "Self") User);
   (bytes_of "else", TokenKind.KwElse);
   (bytes_of "loop", TokenKind.KwLoop);
   (bytes_of "enum", TokenKind.KwEnum);
   (bytes_of "test", TokenKind.KwTest);
   (bytes_of "null", TokenKind.LitNull);
   (bytes_of "true", TokenKind.LitBool true);
   (bytes_of "void", TokenKind.TyVoid);
   (bytes_of "never", TokenKind.TyNever);
   (bytes_of "bool", TokenKind.TyBool);
   (bytes_of "type", TokenKind.TyType);
   (bytes_of "f128", TokenKind.TyF128);
   (bytes_of "i128", TokenKind.TyI 128);
   (bytes_of "u128", TokenKind.TyU 128);
   (bytes_of "const", TokenKind.KwConst);
   (bytes_of "while", TokenKind.KwWhile);
   (bytes_of "break", TokenKind.KwBreak);
   (bytes_of "defer", TokenKind.KwDefer);
   (bytes_of "catch", TokenKind.KwCatch);
   (bytes_of "union", TokenKind.KwUnion);
   (bytes_of "false", TokenKind.LitBool false);
   (bytes_of "usize", TokenKind.TyUsize);
   (bytes_of "isize", TokenKind.TyIsize);
   (bytes_of "switch", TokenKind.KwSwitch);
   (bytes_of "return", TokenKind.KwReturn);
   (bytes_of "struct", TokenKind.KwStruct);
   (bytes_of "extern", TokenKind.KwExtern);
   (bytes_of "anyint", TokenKind.TyAnyint);
   (bytes_of "comptime", TokenKind.KwComptime);
   (bytes_of "continue", TokenKind.KwContinue);
   (bytes_of "errdefer", TokenKind.KwErrdefer);
   (bytes_of "anyfloat", TokenKind.TyAnyfloat);
   (bytes_of "undefined", TokenKind.KwUndefined)].

(** [u64::from_ascii_radix(s, 10)] on a string of digits: [None] on overflow. *)
Definition u64_from_decimal (s : list Z) : option Z :=
  let v := fold_left (fun acc b => 10 * acc + (b - byte "0")) s 0 in
  if v <? 2^64 then Some v else None.

(** The arm [prefix @ (b'u' | b'i')]. *)
Definition int_type (self : Lexer) (prefix : Z) (digits : list Z) : res flow :=
  let bits := default 0 (u64_from_decimal digits) in
  if (bits =? 0) || (2^16 - 1 <? bits) then
    self ← diag_invalid_integer_bit_width self; invalid self
  else if prefix =? byte "u" then Ret (Break self (TokenKind.TyU (u16 bits)))
  else if prefix =? byte "i" then Ret (Break self (TokenKind.TyI (u16 bits)))
  else ub.

(** The part of [Ident] after the [match ident_kind]. *)
Definition user_ident (self : Lexer) : res flow :=
  str ← slice (bytes self) (span_start self) (offset self);
  let len := length str in
  let candidate :=
    if negb ((TokenTag.MIN_KEYWORD_LEN <=? len)%nat && (len <=? TokenTag.MAX_KEYWORD_LEN)%nat)
       || (len =? 10)%nat
    then None
    else tiny_map keyword_map str in
  match candidate with
  | Some kind => Ret (Break self kind)
  | None =>
      prefix ← get_idx str 0;
      if ((prefix =? byte "u") || (prefix =? byte "i")) && (2 <=? len)%nat
         && forallb char_class.is_digit (drop 1 str)
      then int_type self prefix (drop 1 str)
      else symbol ← intern_str str; Ret (Break self (TokenKind.Ident symbol User))
  end.

Definition st_Ident (self : Lexer) (kind : TokenKind) (seen_digit : bool) : res flow :=
  self ← eat_while (loop_fuel self) char_class.is_ident_cont self;
  match kind with
  | TokenKind.Ident _ UserEscaped =>
      hi ← usize_sub (offset self) 1;
      s ← slice (bytes self) (span_start self + 2) hi;
      symbol ← intern_str s;
      Ret (Break self (TokenKind.Ident symbol UserEscaped))
  | TokenKind.Ident _ Builtin =>
      s ← slice (bytes self) (span_start self) (offset self);
      symbol ← intern_str s;
      Ret (Break self (TokenKind.Ident symbol Builtin))
  | TokenKind.Ident _ UserComptime =>
      s ← slice (bytes self) (span_start self) (offset self);
      symbol ← intern_str s;
      Ret (Break self (TokenKind.Ident symbol UserComptime))
  | TokenKind.Ident _ User => user_ident self
  | _ => ub
  end.

(** *** Strings *)

Definition st_Str (self : Lexer) (kind : TokenKind) (seen_digit : bool) : res flow :=
  '(chr, self) ← bump self;
  if chr =? EOF then
    self ← diag_unexpected_eof self;
    abandon_string (set_offset self (len self))
  else if chr =? byte "010" then
    self ← diag_unexpected_character self (byte "010");
    invalid (set_scratch self [])
  else if chr =? quote then
    kind ← match kind with
           | TokenKind.LitStr _ => Ret (TokenKind.LitStr (intern_bytes (scratch_pad self)))
           | TokenKind.Ident _ k => symbol ← intern_str (scratch_pad self); Ret (TokenKind.Ident symbol k)
           | _ => ub
           end;
    Ret (Break (set_scratch self []) kind)
  else if chr =? byte "\" then Ret (Goto State.EscapeStr self kind seen_digit)
  else
    start ← usize_sub (offset self) 1;
    self ← eat_until3 self quote (byte "\") (byte "010");
    s ← slice (bytes self) start (offset self);
    Ret (Goto State.Str (set_scratch self (scratch_pad self ++ s)) kind seen_digit).

(** [self.scratch_pad.push(b)], then back to [Str]. *)
Definition push_scratch (self : Lexer) (kind : TokenKind) (seen_digit : bool) (bs : list Z) : res flow :=
  Ret (Goto State.Str (set_scratch self (scratch_pad self ++ bs)) kind seen_digit).

Definition escape_hex (self : Lexer) (kind : TokenKind) (seen_digit : bool) : res flow :=
  '(hi, self) ← bump self;
  if hi =? EOF then
    self ← diag_invalid_escape_sequence self;
    abandon_string (set_offset self (len self))
  else
    '(lo, self) ← bump self;
    if is_ascii_hexdigit hi && is_ascii_hexdigit lo then
      h ← hex_value hi; l ← hex_value lo;
      push_scratch self kind seen_digit [Z.lor (u8 (h ≪ 4)) l]
    else
      self ← diag_invalid_escape_sequence self;
      self ← (if lo =? EOF then Ret (set_offset self (len self))
              else if is_newline hi then back self 2
              else if is_newline lo then back self 1
              else Ret self);
      abandon_string self.

(** The [while self.peek() != b'}'] loop: the code point, or an early exit. *)
Fixpoint unicode_digits (fuel : nat) (self : Lexer) (codepoint : Z) : res (Lexer * Z + flow) :=
  match fuel with
  | O => diverge
  | S fuel =>
      b ← peek self;
      if negb (b =? byte "}") then
        if is_eof self then
          self ← diag_unexpected_eof self;
          exit ← abandon_string self; Ret (inr exit)
        else
          '(digit, self) ← bump self;
          if is_ascii_hexdigit digit then
            d ← hex_value digit;
            unicode_digits fuel self (Z.lor (u32 (codepoint ≪ 4)) d)
          else
            self ← diag_invalid_unicode_escape self;
            self ← (if is_newline digit then back self 1 else Ret self);
            exit ← abandon_string self; Ret (inr exit)
      else Ret (inl (self, codepoint))
  end.

Definition escape_unicode (self : Lexer) (kind : TokenKind) (seen_digit : bool) : res flow :=
  '(chr, self) ← bump self;
  if negb (chr =? byte "{") then
    self ← diag_invalid_unicode_escape self;
    self ← (if (len self <? offset self)%nat then Ret (set_offset self (len self))
            else unread_newline self);
    abandon_string self
  else
    let start_offset := offset self in
    r ← unicode_digits (loop_fuel self) self 0;
    match r with
    | inr exit => Ret exit
    | inl (self, codepoint) =>
        digit_count ← usize_sub (offset self) start_offset;
        let self := advance self 1 in
        if (6 <? digit_count)%nat then
          self ← diag_invalid_unicode_escape self; abandon_string self
        else
          match char_from_u32 codepoint with
          | Some c => push_scratch self kind seen_digit (encode_utf8 c)
          | None => self ← diag_invalid_unicode_escape self; abandon_string self
          end
    end.

Definition st_EscapeStr (self : Lexer) (kind : TokenKind) (seen_digit : bool) : res flow :=
  '(chr, self) ← bump self;
  if chr =? EOF then
    self ← diag_unexpected_eof self;
    abandon_string (set_offset self (len self))
  else if chr =? byte "n" then push_scratch self kind seen_digit [byte "010"]
  else if chr =? byte "r" then push_scratch self kind seen_digit [byte "013"]
  else if chr =? byte "t" then push_scratch self kind seen_digit [byte "009"]
  else if chr =? quote then push_scratch self kind seen_digit [quote]
  else if chr =? byte "\" then push_scratch self kind seen_digit [byte "\"]
  else if chr =? byte "0" then push_scratch self kind seen_digit [0]
  else if chr =? byte "x" then escape_hex self kind seen_digit
  else if chr =? byte "u" then escape_unicode self kind seen_digit
  else
    self ← diag_invalid_escape_sequence self;
    self ← unread_newline self;
    abandon_string self.

(** *** Numbers *)

(** [TokenKind::LitInt] of the token's text. *)
Definition lit_int (self : Lexer) (radix : Radix) : res flow :=
  s ← slice (bytes self) (span_start self) (offset self);
  symbol ← intern_str s;
  Ret (Break self (TokenKind.LitInt symbol radix)).

Definition lit_float (self : Lexer) : res flow :=
  s ← slice (bytes self) (span_start self) (offset self);
  symbol ← intern_str s;
  Ret (Break self (TokenKind.LitFloat symbol)).

Definition st_IntZero (self : Lexer) (kind : TokenKind) (seen_digit : bool) : res flow :=
  '(chr, self) ← bump self;
  if chr =? byte "b" then Ret (Goto State.IntBin self kind false)
  else if chr =? byte "o" then Ret (Goto State.IntOct self kind false)
  else if chr =? byte "x" then Ret (Goto State.IntHex self kind false)
  else if chr =? byte "." then Ret (Goto State.FloatDot1 self kind false)
  else if (chr =? byte "e") || (chr =? byte "E") then Ret (Goto State.FloatExp1 self kind false)
  else if char_class.is_bin_digit_or_uscore chr then Ret (Goto State.IntDec self kind seen_digit)
  else self ← back self 1; Ret (Break self (TokenKind.LitInt (bytes_of "0") Decimal)).

Definition st_IntBin (self : Lexer) (kind : TokenKind) (seen_digit : bool) : res flow :=
  '(self, seen_digit) ← eat_digits (loop_fuel self) char_class.is_bin_digit_or_uscore self seen_digit;
  if negb seen_digit then self ← diag_invalid_integer_literal self; invalid self
  else lit_int self Binary.

Definition st_IntOct (self : Lexer) (kind : TokenKind) (seen_digit : bool) : res flow :=
  '(self, seen_digit) ← eat_digits (loop_fuel self) char_class.is_oct_digit_or_uscore self seen_digit;
  if negb seen_digit then self ← diag_invalid_integer_literal self; invalid self
  else lit_int self Octal.

Definition st_IntHex (self : Lexer) (kind : TokenKind) (seen_digit : bool) : res flow :=
  '(self, seen_digit) ← eat_digits (loop_fuel self) char_class.is_hex_digit_or_uscore self seen_digit;
  if negb seen_digit then self ← diag_invalid_integer_literal self; invalid self
  else lit_int self Hexadecimal.

(** [COMMON_INTERNS.int_digits]. *)
Definition int_digits : list (list Z) := (fun d => [byte "0" + d]) <$> seqZ 0 10.

Definition st_IntDec (self : Lexer) (kind : TokenKind) (seen_digit : bool) : res flow :=
  '(self, seen_digit) ← eat_digits (loop_fuel self) char_class.is_digit_or_uscore self seen_digit;
  chr ← peek self;
  if chr =? byte "." then Ret (Goto State.FloatDot1 (advance self 1) kind false)
  else if (chr =? byte "e") || (chr =? byte "E") then
    Ret (Goto State.FloatExp1 (advance self 1) kind false)
  else
    n ← usize_sub (offset self) (span_start self);
    if (n =? 1)%nat then
      b ← get_idx (bytes self) (span_start self);
      if b <? byte "0" then panic
      else
        match int_digits !! Z.to_nat (b - byte "0") with
        | Some symbol => Ret (Break self (TokenKind.LitInt symbol Decimal))
        | None => ub
        end
    else lit_int self Decimal.

Definition st_FloatDot1 (self : Lexer) (kind : TokenKind) (seen_digit : bool) : res flow :=
  '(chr, self) ← bump self;
  if (chr =? byte "e") || (chr =? byte "E") then
    self ← diag_invalid_float_literal self; invalid self
  else if char_class.is_digit chr then Ret (Goto State.FloatDot2 self kind seen_digit)
  else if chr =? byte "." then self ← back self 2; lit_int self Decimal
  else self ← back self 1; lit_float self.

Definition st_FloatDot2 (self : Lexer) (kind : TokenKind) (seen_digit : bool) : res flow :=
  '(self, seen_digit) ← eat_digits (loop_fuel self) char_class.is_digit_or_uscore self seen_digit;
  chr ← peek self;
  if (chr =? byte "e") || (chr =? byte "E") then
    Ret (Goto State.FloatExp1 (advance self 1) (TokenKind.LitFloat []) false)
  else lit_float self.

Definition st_FloatExp1 (self : Lexer) (kind : TokenKind) (seen_digit : bool) : res flow :=
  chr ← peek self;
  if (chr =? byte "+") || (chr =? byte "-") then
    Ret (Goto State.FloatExp2 (advance self 1) kind seen_digit)
  else if char_class.is_digit chr then Ret (Goto State.FloatExp2 (advance self 1) kind true)
  else if chr =? byte "_" then Ret (Goto State.FloatExp2 self kind seen_digit)
  else self ← diag_invalid_float_literal self; invalid self.

Definition st_FloatExp2 (self : Lexer) (kind : TokenKind) (seen_digit : bool) : res flow :=
  '(self, seen_digit) ← eat_digits (loop_fuel self) char_class.is_digit_or_uscore self seen_digit;
  if negb seen_digit then self ← diag_invalid_float_literal self; invalid self
  else lit_float self.

(** ** The ['lexer] loop *)

Definition step (state : State) (self : Lexer) (kind : TokenKind) (seen_digit : bool) : res flow :=
  match state with
  | State.S0 => st_S0 self kind seen_digit
  | State.Minus => st_Minus self kind seen_digit
  | State.MinusPipe => st_MinusPipe self kind seen_digit
  | State.Plus => st_Plus self kind seen_digit
  | State.PlusPipe => st_PlusPipe self kind seen_digit
  | State.Star => st_Star self kind seen_digit
  | State.StarPipe => st_StarPipe self kind seen_digit
  | State.StarStar => st_StarStar self kind seen_digit
  | State.Slash => st_Slash self kind seen_digit
  | State.Percent => st_Percent self kind seen_digit
  | State.Caret => st_Caret self kind seen_digit
  | State.Amp => st_Amp self kind seen_digit
  | State.Pipe => st_Pipe self kind seen_digit
  | State.Bang => st_Bang self kind seen_digit
  | State.Tilde => st_Tilde self kind seen_digit
  | State.Eq => st_Eq self kind seen_digit
  | State.Hash => st_Hash self kind seen_digit
  | State.At => st_At self kind seen_digit
  | State.Dollar => st_Dollar self kind seen_digit
  | State.Lt => st_Lt self kind seen_digit
  | State.LtLt => st_LtLt self kind seen_digit
  | State.LtLtPipe => st_LtLtPipe self kind seen_digit
  | State.LtLtPercent => st_LtLtPercent self kind seen_digit
  | State.Gt => st_Gt self kind seen_digit
  | State.GtGt => st_GtGt self kind seen_digit
  | State.GtGtPipe => st_GtGtPipe self kind seen_digit
  | State.GtGtPercent => st_GtGtPercent self kind seen_digit
  | State.AmpAmp => st_AmpAmp self kind seen_digit
  | State.PipePipe => st_PipePipe self kind seen_digit
  | State.Dot => st_Dot self kind seen_digit
  | State.DotDot => st_DotDot self kind seen_digit
  | State.Underscore => st_Underscore self kind seen_digit
  | State.Backslash => st_Backslash self kind seen_digit
  | State.LineComment => st_LineComment self kind seen_digit
  | State.Ident => st_Ident self kind seen_digit
  | State.Str => st_Str self kind seen_digit
  | State.EscapeStr => st_EscapeStr self kind seen_digit
  | State.IntZero => st_IntZero self kind seen_digit
  | State.IntBin => st_IntBin self kind seen_digit
  | State.IntOct => st_IntOct self kind seen_digit
  | State.IntHex => st_IntHex self kind seen_digit
  | State.IntDec => st_IntDec self kind seen_digit
  | State.FloatDot1 => st_FloatDot1 self kind seen_digit
  | State.FloatDot2 => st_FloatDot2 self kind seen_digit
  | State.FloatExp1 => st_FloatExp1 self kind seen_digit
  | State.FloatExp2 => st_FloatExp2 self kind seen_digit
  end.

Fixpoint lex_loop (fuel : nat) (state : State) (self : Lexer) (kind : TokenKind) (seen_digit : bool)
    : res (Lexer * TokenKind) :=
  match fuel with
  | O => diverge
  | S fuel =>
      f ← step state self kind seen_digit;
      match f with
      | Break self kind => Ret (self, kind)
      | Goto state self kind seen_digit => lex_loop fuel state self kind seen_digit
      end
  end.

Definition next (self : Lexer) : res (Token.Token * Lexer) :=
  '(self, kind) ← lex_loop (2 * loop_fuel self + 2) State.S0 self TokenKind.Eof false;
  span ← self_span self;
  Ret (Token.mk kind span, self).

(** The loop of [Parser::new]: [Invalid] tokens are dropped. *)
Fixpoint tokenize_loop (fuel : nat) (self : Lexer) (tokens : list Token.Token)
    : res (list Token.Token * Lexer) :=
  match fuel with
  | O => diverge
  | S fuel =>
      '(token, self) ← next self;
      let tokens := if Token.is_invalid token then tokens else tokens ++ [token] in
      if Token.is_eof token then Ret (tokens, self) else tokenize_loop fuel self tokens
  end.

Definition tokenize (code : list Z) (module_id : Z) : res (list Token.Token * list Diagnostic) :=
  self ← new code module_id;
  '(tokens, self) ← tokenize_loop (loop_fuel self) self [];
  Ret (tokens, errors self).
End States.

End Lexer.
