(* ===== verification/LexerInv.v ===== *)
(** * The lexer's invariant

    What each state of [Lexer.lex_loop] may assume of the cursor, and the proof
    that every state establishes it for the next one, without reading out of
    bounds or failing a check, and decreases a measure.  [next_spec] and
    [tokenize_spec] follow by iterating. *)

From S2P Require Import Prelude Words Bytes Span Token Lexer.

#[local] Open Scope Z_scope.

Module LexerInv.
Import Lexer.

(** ** Inputs *)

(** The buffer ends with a NUL byte, the one [len] excludes, and positions fit
    a [NonMaxU32]. *)
Definition input_ok (v : list Z) (n : nat) : Prop :=
  length v = S n /\ v !! n = Some 0 /\ Forall byte_ok v /\ Z.of_nat n + 1 <= 0xfffffffe.

(** Every carriage return starts a CR LF sequence. *)
Definition crlf_only (v : list Z) : Prop :=
  forall i, v !! i = Some 13 -> v !! S i = Some 10.

Definition same_input (a b : Lexer) : Prop :=
  bytes b = bytes a /\ len b = len a /\ module_id b = module_id a.

(** Bytes [a..b] are ASCII and not NUL. *)
Definition ascii_at (v : list Z) (a b : nat) : Prop :=
  forall i c, (a <= i < b)%nat -> v !! i = Some c -> 0 < c < 128.

Lemma ascii_at_nil v a : ascii_at v a a.
Proof. intros i c Hi. lia. Qed.

Lemma ascii_at_snoc v a b c :
  ascii_at v a b -> v !! b = Some c -> 0 < c < 128 -> ascii_at v a (b + 1).
Proof.
  intros H Hb Hc i d Hi Hd. destruct (decide (i = b)) as [->|]; [congruence|].
  apply (H i d); [lia|done].
Qed.

Lemma ascii_at_trans v a b c : ascii_at v a b -> ascii_at v b c -> ascii_at v a c.
Proof.
  intros H1 H2 i d Hi Hd. destruct (decide (i < b)%nat); [apply (H1 i)|apply (H2 i)]; (lia || done).
Qed.

Lemma ascii_at_shrink v a b a' b' :
  ascii_at v a b -> (a <= a')%nat -> (b' <= b)%nat -> ascii_at v a' b'.
Proof. intros H ? ? i d Hi Hd. apply (H i d); [lia|done]. Qed.

Lemma ascii_at_slice v a b s : ascii_at v a b -> slice v a b = Ret s -> utf8_valid s = true.
Proof.
  intros H Hs. apply utf8_valid_ascii, Forall_lookup. intros i c Hc.
  unfold slice in Hs. destruct (decide _) as [Hd|]; [|done]. injection Hs as <-.
  assert (0 < c < 128); [|lia]. apply lookup_take_Some in Hc as [Hc Hi].
  rewrite lookup_drop in Hc. by apply (H (a + i)%nat); [lia|].
Qed.

(** ** Character classes *)

Lemma class_test (p q : Z -> bool) :
  forallb (fun b => implb (p b) (q b)) (seqZ 0 256) = true ->
  forall b, byte_ok b -> p b = true -> q b = true.
Proof.
  intros H b Hb Hp. pose proof (forall_bytes _ H b Hb) as Hi. cbn beta in Hi. by rewrite Hp in Hi.
Qed.

Definition ascii_nz (b : Z) : bool := (0 <? b) && (b <? 128).

Lemma ascii_nz_spec b : ascii_nz b = true -> 0 < b < 128.
Proof. unfold ascii_nz. lia. Qed.

(** The classes contain only non-NUL ASCII characters. *)
Definition ascii_class (p : Z -> bool) : Prop := forall b, byte_ok b -> p b = true -> 0 < b < 128.

Ltac class := intros ? ? ?; eapply ascii_nz_spec, class_test; [|eassumption|eassumption]; vm_compute; reflexivity.

Lemma ident_start_ascii : ascii_class char_class.is_ident_start. Proof. class. Qed.
Lemma ident_cont_ascii : ascii_class char_class.is_ident_cont. Proof. class. Qed.
Lemma digit_ascii : ascii_class char_class.is_digit. Proof. class. Qed.
Lemma digit_uscore_ascii : ascii_class char_class.is_digit_or_uscore. Proof. class. Qed.
Lemma bin_digit_ascii : ascii_class char_class.is_bin_digit_or_uscore. Proof. class. Qed.
Lemma oct_digit_ascii : ascii_class char_class.is_oct_digit_or_uscore. Proof. class. Qed.
Lemma hex_digit_ascii : ascii_class char_class.is_hex_digit_or_uscore. Proof. class. Qed.
Lemma ascii_hexdigit_ascii : ascii_class is_ascii_hexdigit. Proof. class. Qed.

Create HintDb lexer.
#[export] Hint Resolve ident_start_ascii ident_cont_ascii digit_ascii digit_uscore_ascii
  bin_digit_ascii oct_digit_ascii hex_digit_ascii ascii_hexdigit_ascii : lexer.

Lemma ascii_class_NUL p : ascii_class p -> p 0 = false.
Proof.
  intros H. destruct (p 0) eqn:E; [|done]. apply H in E; [lia|]. unfold byte_ok. lia.
Qed.

Lemma is_digit_spec : forall b, byte_ok b -> char_class.is_digit b = is_ascii_digit b.
Proof.
  intros b Hb. apply (eqb_prop _ _). revert b Hb. apply forall_bytes. vm_compute. reflexivity.
Qed.

(** ** Cursor operations *)

Section Cursor.
Context (self : Lexer) (Hin : input_ok (bytes self) (len self)).

Lemma input_lookup o : (o <= len self)%nat -> exists b, bytes self !! o = Some b /\ byte_ok b.
Proof.
  intros Ho. destruct Hin as (Hl & _ & Hb & _).
  destruct (lookup_lt_is_Some_2 (bytes self) o) as [b Eb]; [lia|]. exists b.
  split; [done|]. by eapply Forall_lookup_1.
Qed.

Lemma nonzero_lt o b : bytes self !! o = Some b -> b <> 0 -> (o < len self)%nat.
Proof.
  intros Eb Hb. destruct Hin as (Hl & Hz & _). pose proof (lookup_lt_Some _ _ _ Eb).
  destruct (decide (o = len self)) as [->|]; [congruence|lia].
Qed.

Lemma wp_bump E Q :
  (offset self <= len self)%nat ->
  (forall b, bytes self !! offset self = Some b -> byte_ok b -> (b <> 0 -> (offset self < len self)%nat) ->
     Q (b, set_offset self (offset self + 1))) ->
  wp (bump self) E Q.
Proof.
  intros Ho HQ. destruct (input_lookup _ Ho) as (b & Eb & Hb). unfold bump. rewrite Eb. simpl.
  apply HQ; [done|done|]. by apply nonzero_lt.
Qed.

Lemma wp_peek E Q :
  (offset self <= len self)%nat ->
  (forall b, bytes self !! offset self = Some b -> byte_ok b -> (b <> 0 -> (offset self < len self)%nat) -> Q b) ->
  wp (peek self) E Q.
Proof.
  intros Ho HQ. destruct (input_lookup _ Ho) as (b & Eb & Hb). unfold peek. rewrite Eb. simpl.
  apply HQ; [done|done|]. by apply nonzero_lt.
Qed.

Lemma wp_back n E Q :
  (n <= offset self)%nat -> Q (set_offset self (offset self - n)) -> wp (back self n) E Q.
Proof. intros. unfold back. by rewrite usize_sub_ok by done. Qed.

Lemma wp_slice a b E (Q : list Z -> Prop) :
  (a <= b <= S (len self))%nat -> (forall s, slice (bytes self) a b = Ret s -> Q s) ->
  wp (slice (bytes self) a b) E Q.
Proof.
  intros Hab HQ. destruct Hin as (Hl & _). rewrite slice_ok in HQ |- * by lia. by apply HQ.
Qed.

Lemma wp_unread_newline E Q :
  (1 <= offset self <= S (len self))%nat ->
  Q (set_offset self (offset self - 1)) -> Q self -> wp (unread_newline self) E Q.
Proof.
  intros Ho HQ1 HQ2. unfold unread_newline. rewrite usize_sub_ok by lia. simpl.
  destruct (input_lookup (offset self - 1)) as (b & Eb & _); [lia|].
  rewrite (get_idx_Some _ _ _ Eb). simpl. destruct (is_newline b); [|done]. by apply wp_back; [lia|].
Qed.

Lemma wp_push_diag m E Q :
  (span_start self <= offset self <= S (len self))%nat ->
  (forall d, Q (set_errors self (errors self ++ [d]))) -> wp (push_diag self m) E Q.
Proof.
  intros Ho HQ. destruct Hin as (_ & _ & _ & Hn).
  unfold push_diag, self_span. rewrite Span.new_ok by lia. simpl. apply HQ.
Qed.

End Cursor.

Lemma eat_while_spec fuel p self :
  input_ok (bytes self) (len self) -> p 0 = false ->
  (offset self <= len self)%nat -> (len self - offset self < fuel)%nat ->
  exists o b, eat_while fuel p self = Ret (set_offset self o) /\
    (offset self <= o <= len self)%nat /\ bytes self !! o = Some b /\ p b = false /\
    forall i c, (offset self <= i < o)%nat -> bytes self !! i = Some c -> p c = true.
Proof.
  intros Hin Hp. revert self Hin. induction fuel as [|fuel IH]; intros self Hin Ho Hf; [lia|].
  destruct (input_lookup self Hin _ Ho) as (b & Eb & Hb). simpl. unfold peek at 1. rewrite Eb. simpl.
  destruct (p b) eqn:Epb.
  - assert (b <> 0) as Hnz by congruence. pose proof (nonzero_lt self Hin _ _ Eb Hnz).
    destruct (IH (advance self 1)) as (o & c & -> & Ho' & Ec & Epc & Hall); simpl; [done|lia|lia|].
    simpl in *. exists o, c. split_and!; [done|lia|lia|done|done|].
    intros i d Hi Ed. destruct (decide (i = offset self)) as [->|]; [congruence|].
    apply (Hall i); [lia|done].
  - exists (offset self), b. split_and!; [by destruct self|lia|lia|done|done|intros; lia].
Qed.

Lemma wp_eat_while p self E Q :
  input_ok (bytes self) (len self) -> ascii_class p -> (offset self <= len self)%nat ->
  (forall o, (offset self <= o <= len self)%nat -> ascii_at (bytes self) (offset self) o ->
     Q (set_offset self o)) ->
  wp (eat_while (loop_fuel self) p self) E Q.
Proof.
  intros Hin Hp Ho HQ. destruct (eat_while_spec (loop_fuel self) p self) as (o & b & -> & Ho' & _ & _ & Hall);
    [done|by apply ascii_class_NUL|done|unfold loop_fuel; destruct Hin; lia|].
  apply HQ; [done|]. intros i c Hi Hc. apply Hp; [|by eapply Hall].
  destruct Hin as (_ & _ & Hb & _). by eapply Forall_lookup_1.
Qed.

(** [eat_digits] moves like [eat_while] and records whether it saw a digit. *)
Lemma eat_digits_while fuel p self seen :
  match eat_while fuel p self with
  | Ret self' => exists s, eat_digits fuel p self seen = Ret (self', s) 
  | Fault f => eat_digits fuel p self seen = Fault f
  end.
Proof.
  revert self seen. induction fuel as [|fuel IH]; intros self seen; simpl; [done|].
  destruct (peek self) as [b|f]; simpl; [|done].
  destruct (p b); [apply IH|eauto].
Qed.

Lemma wp_eat_digits p self seen E Q :
  input_ok (bytes self) (len self) -> ascii_class p -> (offset self <= len self)%nat ->
  (forall o s, (offset self <= o <= len self)%nat -> ascii_at (bytes self) (offset self) o ->
     Q (set_offset self o, s)) ->
  wp (eat_digits (loop_fuel self) p self seen) E Q.
Proof.
  intros Hin Hp Ho HQ. pose proof (eat_digits_while (loop_fuel self) p self seen) as He.
  assert (wp (eat_while (loop_fuel self) p self) no_fault (fun self' => forall s, Q (self', s))) as Hw.
  { apply wp_eat_while; auto. }
  destruct (eat_while _ _ _) as [self'|f]; [|done]. destruct He as [s ->]. apply Hw.
Qed.

(** ** Searches *)

Section Search.
Context `{!Memx, !MemxLaws}.

Lemma position_drop (f : Z -> bool) v o n :
  position f (drop o v) = Some n -> exists b, v !! (o + n)%nat = Some b /\ f b = true.
Proof. intros (b & Hb & Hf & _)%position_Some. rewrite lookup_drop in Hb. eauto. Qed.

Lemma eat_until_newline_loop_spec fuel self :
  input_ok (bytes self) (len self) -> crlf_only (bytes self) ->
  (offset self <= len self)%nat -> (len self - offset self < fuel)%nat ->
  exists o, eat_until_newline_loop fuel self = Ret (set_offset self o) /\
    (offset self <= o <= len self)%nat.
Proof.
  intros Hin Hcr. revert self Hin Hcr. induction fuel as [|fuel IH]; intros self Hin Hcr Ho Hf; [lia|].
  cbn [eat_until_newline_loop]. rewrite slice_from_ok by (destruct Hin; lia). simpl.
  rewrite memchr_dbl_first. byte_lits. destruct (position _ _) as [off|] eqn:Ep.
  2: { exists (offset self). split; [by destruct self|lia]. }
  apply position_drop in Ep as (b & Eb & Hb).
  assert (offset self + off < len self)%nat as Hlt.
  { apply (nonzero_lt self Hin _ b Eb). intros ->. done. }
  rewrite (get_idx_Some _ _ _ Eb). simpl. destruct (Z.eqb_spec b 10) as [->|Hb10].
  { exists (offset self + off)%nat. split; [done|lia]. }
  rewrite orb_false_l in Hb. apply Z.eqb_eq in Hb as ->.
  pose proof (Hcr _ Eb) as Enl.
  assert (S (offset self + off) < len self)%nat as Hlt'.
  { by apply (nonzero_lt self Hin _ 10 Enl). }
  replace (offset self + off + 1)%nat with (S (offset self + off)) by lia.
  destruct (Nat.ltb_spec (S (offset self + off)) (len self)); [|lia].
  rewrite (get_idx_Some _ _ _ Enl). simpl.
  destruct (IH (set_offset self (S (offset self + off)))) as (o & -> & Ho'); simpl; [done|done|lia|lia|].
  simpl in Ho'. exists o. split; [done|lia].
Qed.

Lemma wp_eat_until_newline self E Q :
  input_ok (bytes self) (len self) -> crlf_only (bytes self) -> (offset self <= len self)%nat ->
  (forall o, (offset self <= o <= len self)%nat -> Q (set_offset self o)) ->
  wp (eat_until_newline self) E Q.
Proof.
  intros Hin Hcr Ho HQ. unfold eat_until_newline.
  destruct (eat_until_newline_loop_spec (loop_fuel self) self) as (o & -> & Ho');
    [done|done|done|unfold loop_fuel; destruct Hin; lia|]. by apply HQ.
Qed.

Lemma wp_eat_until3 self x y z E Q :
  input_ok (bytes self) (len self) -> x <> 0 -> y <> 0 -> z <> 0 -> (offset self <= len self)%nat ->
  (forall o, (offset self <= o <= len self)%nat -> Q (set_offset self o)) ->
  wp (eat_until3 self x y z) E Q.
Proof.
  intros Hin Hx Hy Hz Ho HQ. unfold eat_until3. rewrite slice_from_ok by (destruct Hin; lia). simpl.
  rewrite memchr_tpl_first. destruct (position _ _) as [off|] eqn:Ep; simpl; apply HQ; [|lia].
  apply position_drop in Ep as (b & Eb & Hb). assert (offset self + off < len self)%nat; [|lia].
  apply (nonzero_lt self Hin _ b Eb). lia.
Qed.

Lemma wp_abandon_string self E Q :
  input_ok (bytes self) (len self) -> (offset self <= len self)%nat ->
  (forall o, (offset self <= o <= len self)%nat ->
     Q (Break (set_offset (set_scratch self []) o) TokenKind.Invalid)) ->
  wp (abandon_string self) E Q.
Proof.
  intros Hin Ho HQ. unfold abandon_string, recover_invalid_string, invalid. simpl.
  destruct (Nat.leb_spec (len self) (offset self)); simpl; [apply HQ; lia|].
  rewrite slice_from_ok by (destruct Hin; lia). simpl. rewrite memchr_tpl_first.
  destruct (position _ _) as [off|] eqn:Ep; simpl; [|apply HQ; lia].
  apply position_drop in Ep as (b & Eb & Hb).
  assert (offset self + off < len self)%nat as Hlt.
  { apply (nonzero_lt self Hin _ b Eb). intros ->. done. }
  rewrite (get_idx_Some _ _ _ Eb). simpl.
  destruct (b =? quote); simpl.
  - exact (HQ (offset self + off + 1)%nat ltac:(lia)).
  - exact (HQ (offset self + off)%nat ltac:(lia)).
Qed.

Lemma wp_skip_whitespace self E Q :
  input_ok (bytes self) (len self) -> (offset self <= len self)%nat ->
  (forall o, (offset self <= o <= len self)%nat -> Q (set_offset self o)) ->
  wp (skip_whitespace self) E Q.
Proof.
  intros Hin Ho HQ. apply wp_bind, wp_peek; [done|done|]. intros b Eb Hb _.
  assert (Q self) by (replace self with (set_offset self (offset self)) by (by destruct self); auto).
  destruct (char_class.is_whitespace b); [|done].
  rewrite slice_from_ok by (destruct Hin; lia). simpl. rewrite memnechr_qpl_first.
  destruct (position _ _) as [off|] eqn:Ep; simpl; [|done]. apply HQ.
  assert (offset self + off <= len self)%nat; [|lia].
  apply position_lt in Ep. rewrite length_drop in Ep. destruct Hin. lia.
Qed.

End Search.

End LexerInv.
