(* ===== verification/LexerStep.v ===== *)
(** * Every state of the lexer preserves the invariant *)

From S2P Require Import Prelude Words Bytes Span Token Lexer LexerInv.

#[local] Open Scope Z_scope.

Module LexerStep.
Import Lexer LexerInv.

(** A kind that a default arm may return as it is. *)
Definition plain (kind : TokenKind) : Prop := kind <> TokenKind.Eof /\ kind <> TokenKind.Invalid.

(** The token starts with an at sign and a double quote. *)
Definition escaped_at (self : Lexer) : Prop :=
  bytes self !! span_start self = Some 64 /\ bytes self !! S (span_start self) = Some 34.

Definition kind_ok (st : State) (self : Lexer) (kind : TokenKind) : Prop :=
  match st with
  | State.S0 | State.At | State.Dollar | State.Backslash | State.LineComment
  | State.IntZero | State.IntBin | State.IntOct | State.IntHex | State.IntDec
  | State.FloatDot1 | State.FloatDot2 | State.FloatExp1 | State.FloatExp2 => True
  | State.Ident => exists s k, kind = TokenKind.Ident s k /\ k <> UserEscaped
  | State.Str | State.EscapeStr =>
      (exists s, kind = TokenKind.LitStr s) \/
      (exists s, kind = TokenKind.Ident s UserEscaped /\ escaped_at self)
  | _ => plain kind
  end.

(** The token so far, [span_start..offset]. *)
Definition token_ok (st : State) (self : Lexer) : Prop :=
  match st with
  | State.S0 => True
  | State.LineComment | State.Str | State.EscapeStr => (span_start self < offset self)%nat
  | State.At => offset self = S (span_start self) /\ bytes self !! span_start self = Some 64 /\
      ascii_at (bytes self) (span_start self) (offset self)
  | State.FloatDot1 =>
      (S (span_start self) < offset self)%nat /\ ascii_at (bytes self) (span_start self) (offset self)
  | State.IntZero | State.IntDec =>
      (span_start self < offset self)%nat /\ ascii_at (bytes self) (span_start self) (offset self) /\
      exists b, bytes self !! span_start self = Some b /\ is_ascii_digit b = true
  | _ => (span_start self < offset self)%nat /\ ascii_at (bytes self) (span_start self) (offset self)
  end.

Definition scratch_ok (st : State) (self : Lexer) : Prop :=
  match st with State.Str | State.EscapeStr => True | _ => scratch_pad self = [] end.

Record inv (st : State) (self : Lexer) (kind : TokenKind) : Prop := {
  inv_offset : (offset self <= len self)%nat;
  inv_kind : kind_ok st self kind;
  inv_token : token_ok st self;
  inv_scratch : scratch_ok st self;
}.

(** Where the token found from here on may start. *)
Definition low (st : State) (self : Lexer) : nat :=
  match st with State.S0 => offset self | _ => span_start self end.

Definition measure (st : State) (self : Lexer) : nat :=
  2 * (len self - offset self) +
  match st with State.LineComment | State.FloatExp1 => 1 | _ => 0 end.

Record break_post (lo : nat) (self self' : Lexer) (kind' : TokenKind) : Prop := {
  bp_input : same_input self self';
  bp_low : (lo <= span_start self')%nat;
  bp_progress : (span_start self' < offset self')%nat;
  bp_end :
    match kind' with
    | TokenKind.Eof => bytes self !! span_start self' = Some 0 /\
        offset self' = S (span_start self') /\ (span_start self' <= len self)%nat
    | _ => (offset self' <= len self)%nat
    end;
  bp_scratch : scratch_pad self' = [];
  bp_errors :
    match kind' with
    | TokenKind.Invalid => exists d, errors self' = errors self ++ [d]
    | _ => errors self' = errors self
    end;
}.

Record goto_post (st : State) (self : Lexer) (st' : State) (self' : Lexer) (kind' : TokenKind) : Prop := {
  gp_input : same_input self self';
  gp_low : (low st self <= low st' self')%nat;
  gp_inv : inv st' self' kind';
  gp_measure : (measure st' self' < measure st self)%nat;
  gp_errors : errors self' = errors self;
}.

Definition step_post (st : State) (self : Lexer) (f : flow) : Prop :=
  match f with
  | Break self' kind' => break_post (low st self) self self' kind'
  | Goto st' self' kind' _ => goto_post st self st' self' kind'
  end.

(** The only fault: an escaped identifier whose text is not UTF-8. *)
Definition step_fault (self : Lexer) (f : fault) : Prop := f = Invalid_str /\ escaped_at self.

Definition step_ok (st : State) (f : Lexer -> TokenKind -> bool -> res flow) : Prop :=
  forall self kind seen,
  input_ok (bytes self) (len self) -> crlf_only (bytes self) -> inv st self kind ->
  wp (f self kind seen) (step_fault self) (step_post st self).

(** ** Automation *)

Lemma set_offset_same s o : bytes (set_offset s o) = bytes s /\ len (set_offset s o) = len s.
Proof. done. Qed.

(** Turns the tests that selected a branch into facts about the byte read. *)
Ltac byte_facts :=
  byte_lits; unfold EOF, quote in *;
  repeat match goal with
    | H : (_ =? _) = true |- _ => apply Z.eqb_eq in H; subst
    | H : (_ || _) = true |- _ => apply orb_true_iff in H as [H|H]
    | H : (_ && _) = true |- _ => apply andb_true_iff in H as [? ?]
    | H : char_class.is_ident_start ?b = true, Hb : byte_ok ?b |- _ =>
        pose proof (ident_start_ascii b Hb H); clear H
    | H : negb (Z.land (char_class.class ?b) char_class.IDENT_START =? 0) = true |- _ =>
        change (char_class.is_ident_start b = true) in H
    | H : negb (Z.land (char_class.class ?b) char_class.DIGIT =? 0) = true |- _ =>
        change (char_class.is_digit b = true) in H
    | H : char_class.is_digit ?b = true, Hb : byte_ok ?b |- _ =>
        pose proof (digit_ascii b Hb H); rewrite is_digit_spec in H by exact Hb
    | H : char_class.is_bin_digit_or_uscore ?b = true, Hb : byte_ok ?b |- _ =>
        pose proof (bin_digit_ascii b Hb H); clear H
    | H : is_ascii_hexdigit ?b = true, Hb : byte_ok ?b |- _ =>
        lazymatch goal with
        | _ : 0 < b < 128 |- _ => fail
        | _ => pose proof (ascii_hexdigit_ascii b Hb H)
        end
    | H : (_ <? _)%nat = true |- _ => apply Nat.ltb_lt in H
    | H : (_ <? _)%nat = false |- _ => apply Nat.ltb_ge in H
    | H : is_eof _ = _ |- _ => unfold is_eof in H; first [apply Nat.leb_gt in H|apply Nat.leb_le in H]
    | H : ?b <> 0 -> _ |- _ =>
        let X := fresh in assert (b <> 0) as X by lia; specialize (H X); clear X
    end.

Lemma wp_intern_slice v a b s E (Q : list Z -> Prop) :
  slice v a b = Ret s -> ascii_at v a b -> Q s -> wp (intern_str s) E Q.
Proof. intros Hs Ha HQ. unfold intern_str. by rewrite (ascii_at_slice v a b). Qed.

Lemma wp_hex_value b E (Q : Z -> Prop) :
  is_ascii_hexdigit b = true -> (forall v, Q v) -> wp (hex_value b) E Q.
Proof.
  intros Hb HQ. unfold hex_value. rewrite Hb. byte_lits. cbn [negb].
  unfold is_ascii_hexdigit, is_ascii_digit in Hb.
  repeat (apply wp_if; intros ?; [apply HQ|]). lia.
Qed.

(** The token's bytes after [bump] or a run of a class are still ASCII. *)
Ltac ascii :=
  first
    [ assumption
    | eapply ascii_at_snoc; [apply ascii_at_nil|eassumption|lia]
    | eapply ascii_at_snoc; [ascii|eassumption|lia]
    | eapply ascii_at_trans; [|eassumption]; ascii
    | eapply ascii_at_shrink; [eassumption|lia|lia] 
    | match goal with self : Lexer |- ascii_at _ ?a ?b =>
        assert_fails (constr_eq a (span_start self));
        apply (ascii_at_shrink _ (span_start self) b a b); [ascii|lia|lia] end ].

Ltac proj :=
  cbn [bytes len offset span_start module_id errors scratch_pad set_offset set_span_start
       set_errors set_scratch advance fst snd low] in *.

Ltac side := first [assumption | lia | solve [auto with lexer] | solve [proj; lia]].

(** One step of symbolic execution. *)
Ltac lex_wp :=
  match goal with
  | |- wp (match ?x with (_, _) => _ end) _ _ => destruct x eqn:?
  | |- wp (_ ≫= _) _ _ => apply wp_bind
  | |- wp (Ret (Break (if ?c then _ else _) _)) _ _ => destruct c eqn:?
  | |- wp (Ret _) _ _ => apply wp_ret
  | |- wp (bump _) _ _ => apply wp_bump; [side|side|intros ? ? ? ?]
  | |- wp (peek _) _ _ => apply wp_peek; [side|side|intros ? ? ? ?]
  | |- wp (back _ _) _ _ => apply wp_back; [side|]
  | |- wp (usize_sub _ _) _ _ => rewrite usize_sub_ok by side; apply wp_ret
  | |- wp (slice _ _ _) _ _ => apply wp_slice; [side|side|intros ? ?]
  | |- wp (eat_while _ _ _) _ _ => apply wp_eat_while; [side|side|side|intros ? [? ?] ?]
  | |- wp (eat_digits _ _ _ _) _ _ => apply wp_eat_digits; [side|side|side|intros ? ? [? ?] ?]
  | |- wp (eat_until_newline _) _ _ => apply wp_eat_until_newline; [side|side|side|intros ? [? ?]]
  | |- wp (skip_whitespace _) _ _ => apply wp_skip_whitespace; [side|side|intros ? [? ?]]
  | |- wp (unread_newline _) _ _ => apply wp_unread_newline; [side|side| |]
  | |- wp (eat_until3 _ _ _ _) _ _ => apply wp_eat_until3; [side|side|side|side|side|intros ? [? ?]]
  | |- wp (abandon_string _) _ _ => apply wp_abandon_string; [side|side|intros ? [? ?]]
  | |- wp (push_diag _ _) _ _ => apply wp_push_diag; [side|side|intros ?]
  | |- wp (intern_str _) _ _ => eapply wp_intern_slice; [eassumption|ascii|]
  | |- wp (if decide ?P then _ else _) _ _ => destruct (decide P)
  | |- wp (if _ then _ else _) _ _ => apply wp_if; intros ?
  | |- wp (diag_unexpected_eof _) _ _ => unfold diag_unexpected_eof
  | |- wp (diag_unexpected_character _ _) _ _ => unfold diag_unexpected_character
  | |- wp (diag_invalid_escape_sequence _) _ _ => unfold diag_invalid_escape_sequence
  | |- wp (diag_invalid_unicode_escape _) _ _ => unfold diag_invalid_unicode_escape
  | |- wp (diag_invalid_float_literal _) _ _ => unfold diag_invalid_float_literal
  | |- wp (diag_invalid_integer_literal _) _ _ => unfold diag_invalid_integer_literal
  | |- wp (diag_invalid_integer_bit_width _) _ _ => unfold diag_invalid_integer_bit_width
  | |- wp (invalid _) _ _ => unfold invalid
  | |- wp (hex_value _) _ _ => apply wp_hex_value; [assumption|intros ?]
  | |- wp (lit_int _ _) _ _ => unfold lit_int
  | |- wp (lit_float _) _ _ => unfold lit_float
  | |- wp (reject_sigil _ _) _ _ => unfold reject_sigil
  end; proj; byte_facts.

Lemma plain_end kind (A B : Prop) :
  plain kind -> B -> match kind with TokenKind.Eof => A | _ => B end.
Proof. intros [H _]. by destruct kind. Qed.

Lemma plain_errors kind (A B : Prop) :
  plain kind -> B -> match kind with TokenKind.Invalid => A | _ => B end.
Proof. intros [_ H]. by destruct kind. Qed.

Lemma plain_intro kind :
  match kind with TokenKind.Eof | TokenKind.Invalid => False | _ => True end -> plain kind.
Proof. by split; destruct kind. Qed.

(** Closes a [break_post] or [goto_post]. *)
Ltac post :=
  byte_facts;
  repeat match goal with
    | |- step_post _ _ _ => cbn [step_post]
    | |- break_post _ _ _ _ => constructor
    | |- goto_post _ _ _ _ _ => constructor
    | |- inv _ _ _ => constructor
    | |- same_input _ _ => done
    | |- _ /\ _ => split
    | |- plain _ => first [assumption|apply plain_intro; exact I]
    | |- match ?k with TokenKind.Eof => _ | _ => _ end => is_var k; apply plain_end; [assumption|]
    | |- match ?k with TokenKind.Invalid => _ | _ => _ end => is_var k; apply plain_errors; [assumption|]
    | |- _ => progress cbn
    end;
  try solve [lia | done | eauto | ascii].

Ltac head_of t := match t with ?f _ => head_of f | _ => t end.

Ltac start :=
  intros self kind seen Hin Hcr [Ho Hk Ht Hs]; cbn in Hk, Ht, Hs;
  repeat match goal with
    | H : ex _ |- _ => destruct H
    | H : _ /\ _ |- _ => destruct H
    end;
  match goal with |- wp ?m _ _ => let f := head_of m in unfold f end.

(** The operator states: one character of lookahead. *)
Ltac operator := start; repeat lex_wp; post.

Lemma Minus_ok : step_ok State.Minus st_Minus. Proof. operator. Qed.
Lemma MinusPipe_ok : step_ok State.MinusPipe st_MinusPipe. Proof. operator. Qed.
Lemma Plus_ok : step_ok State.Plus st_Plus. Proof. operator. Qed.
Lemma PlusPipe_ok : step_ok State.PlusPipe st_PlusPipe. Proof. operator. Qed.
Lemma Star_ok : step_ok State.Star st_Star. Proof. operator. Qed.
Lemma StarPipe_ok : step_ok State.StarPipe st_StarPipe. Proof. operator. Qed.
Lemma StarStar_ok : step_ok State.StarStar st_StarStar. Proof. operator. Qed.
Lemma Slash_ok : step_ok State.Slash st_Slash. Proof. operator. Qed.
Lemma Percent_ok : step_ok State.Percent st_Percent. Proof. operator. Qed.
Lemma Caret_ok : step_ok State.Caret st_Caret. Proof. operator. Qed.
Lemma Amp_ok : step_ok State.Amp st_Amp. Proof. operator. Qed.
Lemma AmpAmp_ok : step_ok State.AmpAmp st_AmpAmp. Proof. operator. Qed.
Lemma Pipe_ok : step_ok State.Pipe st_Pipe. Proof. operator. Qed.
Lemma PipePipe_ok : step_ok State.PipePipe st_PipePipe. Proof. operator. Qed.
Lemma Bang_ok : step_ok State.Bang st_Bang. Proof. operator. Qed.
Lemma Tilde_ok : step_ok State.Tilde st_Tilde. Proof. operator. Qed.
Lemma Eq_ok : step_ok State.Eq st_Eq. Proof. operator. Qed.
Lemma Lt_ok : step_ok State.Lt st_Lt. Proof. operator. Qed.
Lemma LtLt_ok : step_ok State.LtLt st_LtLt. Proof. operator. Qed.
Lemma LtLtPipe_ok : step_ok State.LtLtPipe st_LtLtPipe. Proof. operator. Qed.
Lemma LtLtPercent_ok : step_ok State.LtLtPercent st_LtLtPercent. Proof. operator. Qed.
Lemma Gt_ok : step_ok State.Gt st_Gt. Proof. operator. Qed.
Lemma GtGt_ok : step_ok State.GtGt st_GtGt. Proof. operator. Qed.
Lemma GtGtPipe_ok : step_ok State.GtGtPipe st_GtGtPipe. Proof. operator. Qed.
Lemma GtGtPercent_ok : step_ok State.GtGtPercent st_GtGtPercent. Proof. operator. Qed.
Lemma DotDot_ok : step_ok State.DotDot st_DotDot. Proof. operator. Qed.

Lemma Hash_ok : step_ok State.Hash st_Hash. Proof. operator. Qed.
Lemma At_ok : step_ok State.At st_At. 
Proof.
  operator. right. eexists. split; [done|]. split; [done|]. cbn.
  by match goal with H : offset self = _ |- _ => rewrite <- H end.
Qed.
Lemma Dollar_ok : step_ok State.Dollar st_Dollar. Proof. operator. Qed.
Lemma Dot_ok : step_ok State.Dot st_Dot. Proof. operator. Qed.
Lemma Underscore_ok : step_ok State.Underscore st_Underscore. Proof. operator. Qed.
Lemma IntZero_ok : step_ok State.IntZero st_IntZero. Proof. operator. Qed.
Lemma IntBin_ok : step_ok State.IntBin st_IntBin. Proof. operator. Qed.
Lemma IntOct_ok : step_ok State.IntOct st_IntOct. Proof. operator. Qed.
Lemma IntHex_ok : step_ok State.IntHex st_IntHex. Proof. operator. Qed.
Lemma FloatDot1_ok : step_ok State.FloatDot1 st_FloatDot1. Proof. operator. Qed.
Lemma FloatDot2_ok : step_ok State.FloatDot2 st_FloatDot2. Proof. operator. Qed.
Lemma FloatExp1_ok : step_ok State.FloatExp1 st_FloatExp1. Proof. operator. Qed.
Lemma FloatExp2_ok : step_ok State.FloatExp2 st_FloatExp2. Proof. operator. Qed.

Lemma int_digit_lookup b :
  is_ascii_digit b = true -> (b <? 48) = false /\ int_digits !! Z.to_nat (b - 48) = Some [b].
Proof.
  unfold is_ascii_digit, int_digits. intros Hb. split; [lia|].
  rewrite list_lookup_fmap, lookup_seqZ_lt by lia.
  simpl. f_equal. f_equal. change (byte "0") with 48. lia.
Qed.

Lemma IntDec_ok : step_ok State.IntDec st_IntDec.
Proof.
  operator.
  match goal with H : bytes self !! span_start self = Some ?b |- _ =>
    rewrite (get_idx_Some _ _ _ H); apply wp_ret; destruct (int_digit_lookup b) as [-> ->]; [done|] end. apply wp_ret. post.
Qed.

Section Skipping.
Context `{!Memx, !MemxLaws}.

Lemma S0_ok : step_ok State.S0 st_S0.
Proof. operator. Qed.
Lemma LineComment_ok : step_ok State.LineComment st_LineComment. Proof. operator. Qed.
Lemma Backslash_ok : step_ok State.Backslash st_Backslash. Proof. operator. Qed.

Lemma Str_ok : step_ok State.Str st_Str.
Proof.
  operator. apply wp_mono with (E := step_fault self)
    (Q := fun kind => exists s, kind = TokenKind.LitStr s \/ kind = TokenKind.Ident s UserEscaped).
  - done.
  - intros k [s [-> | ->]]; post.
  - destruct Hk as [[s ->]|(s & -> & ?)]; simpl; [eauto|].
    unfold intern_str. destruct (utf8_valid _); simpl; [eauto|]. by split.
Qed.

Lemma assoc_Some entries key v : assoc entries key = Some v -> v ∈ map snd entries.
Proof.
  induction entries as [|[k w] entries IH]; simpl; [done|].
  case_decide; [intros [= ->]; left|right; auto].
Qed.

Definition is_plain (kind : TokenKind) : bool :=
  match kind with TokenKind.Eof | TokenKind.Invalid => false | _ => true end.

Lemma is_plain_spec kind : is_plain kind = true -> plain kind.
Proof. intros Hp. apply plain_intro. by destruct kind. Qed.

Lemma keyword_keys_distinct : NoDup (map fst keyword_map).
Proof. apply (bool_decide_unpack _). vm_compute. exact I. Qed.

Lemma keyword_plain key kind : assoc keyword_map key = Some kind -> plain kind.
Proof.
  intros Hk%assoc_Some. apply is_plain_spec.
  assert (forallb is_plain (map snd keyword_map) = true) as Hf by (vm_compute; reflexivity).
  rewrite forallb_forall in Hf. by apply Hf, list_elem_of_In.
Qed.

Lemma user_ident_ok `{!Hashify, !HashifyLaws} self o E :
  input_ok (bytes self) (len self) -> (span_start self < o <= len self)%nat ->
  ascii_at (bytes self) (span_start self) o -> scratch_pad self = [] ->
  wp (user_ident (set_offset self o)) E (step_post State.Ident self).
Proof.
  intros Hin [? ?] Ha Hs. unfold user_ident. lex_wp. lex_wp.
  rewrite tiny_map_assoc by apply keyword_keys_distinct.
  destruct (if _ : bool then None else _) as [kind|] eqn:Ek.
  - assert (plain kind) by (destruct (_ : bool); [done|by eapply keyword_plain]). lex_wp. post.
  - lex_wp. rename s into str.
    assert (exists b, str !! 0%nat = Some b) as [b Eb].
    { apply lookup_lt_is_Some_2. match goal with Hsl : slice _ _ _ = Ret str |- _ =>
        rewrite slice_ok in Hsl by (destruct Hin; lia); injection Hsl as <- end. rewrite length_take, length_drop. destruct Hin. lia. }
    rewrite (get_idx_Some _ _ _ Eb). apply wp_ret. lex_wp; try unfold int_type; repeat lex_wp; post.
Qed.

(** *** Escapes *)

Lemma escape_hex_ok self kind seen E :
  input_ok (bytes self) (len self) -> inv State.EscapeStr self kind -> (offset self < len self)%nat ->
  wp (escape_hex (set_offset self (offset self + 1)) kind seen) E (step_post State.EscapeStr self).
Proof.
  intros Hin [Ho Hk Ht Hs] Hlt. cbn in Hk, Ht. unfold escape_hex, push_scratch. repeat lex_wp; post.
Qed.

Definition digits_post (self : Lexer) (r : Lexer * Z + flow) : Prop :=
  match r with
  | inl (self', _) => exists o, self' = set_offset self o /\ (offset self <= o < len self)%nat
  | inr f => exists d o, (offset self <= o <= len self)%nat /\
      f = Break (set_offset (set_scratch (set_errors self (errors self ++ [d])) []) o) TokenKind.Invalid
  end.

Lemma unicode_digits_ok fuel self codepoint E :
  input_ok (bytes self) (len self) -> (span_start self <= offset self <= len self)%nat ->
  (len self - offset self < fuel)%nat ->
  wp (unicode_digits fuel self codepoint) E (digits_post self).
Proof.
  revert self codepoint. induction fuel as [|fuel IH]; intros self codepoint Hin Ho Hf; [lia|].
  cbn [unicode_digits]. lex_wp. lex_wp.
  repeat lex_wp.
  - exists d, o. split; [lia|done].
  - eapply wp_mono; [done| |apply IH; [done|cbn; lia|cbn; lia]].
    unfold digits_post. intros [[self' c]|f]; cbn.
    + intros (o & -> & ?). exists o. split; [done|lia].
    + intros (d & o & ? & ->). exists d, o. split; [lia|done].
  - exists d, o. split; [proj; lia|done].
  - exists d, o. split; [proj; lia|done].
  - exists (offset self). split; [by destruct self|].
    assert (b <> 0) by (destruct (Z.eqb_spec b 125); [lia|done]). lia.
Qed.

Lemma escape_unicode_ok self kind seen E :
  input_ok (bytes self) (len self) -> inv State.EscapeStr self kind -> (offset self < len self)%nat ->
  wp (escape_unicode (set_offset self (offset self + 1)) kind seen) E (step_post State.EscapeStr self).
Proof.
  intros Hin [Ho Hk Ht Hs] Hlt. cbn in Hk, Ht. unfold escape_unicode, push_scratch. 
  repeat lex_wp; try solve [post].
  eapply wp_mono; [done| |apply unicode_digits_ok; [done|proj; lia|unfold loop_fuel; destruct Hin; proj; lia]].
  unfold digits_post. intros [[self' c]|f]; proj.
  - intros (o & -> & ?). repeat lex_wp; try solve [post].
    destruct (char_from_u32 c); repeat lex_wp; post.
  - intros (d & o & ? & ->). lex_wp. post.
Qed.

Lemma EscapeStr_ok : step_ok State.EscapeStr st_EscapeStr.
Proof.
  intros self kind seen Hin Hcr Hinv. pose proof Hinv as [Ho Hk Ht Hs]. cbn in Hk, Ht.
  unfold st_EscapeStr, push_scratch. repeat lex_wp; try solve [post].
  - apply escape_hex_ok; auto.
  - apply escape_unicode_ok; auto.
Qed.

Lemma Ident_ok `{!Hashify, !HashifyLaws} : step_ok State.Ident st_Ident.
Proof.
  operator. match goal with H : kind = TokenKind.Ident _ ?k |- _ => subst kind; destruct k end;
    [|done|..]; repeat lex_wp; post.
  apply user_ident_ok; [done|lia|ascii|done].
Qed.

Create HintDb lexer_states.
#[local] Hint Resolve
  Minus_ok MinusPipe_ok Plus_ok PlusPipe_ok Star_ok StarPipe_ok StarStar_ok Slash_ok
  Percent_ok Caret_ok Amp_ok AmpAmp_ok Pipe_ok PipePipe_ok Bang_ok Tilde_ok Eq_ok Lt_ok
  LtLt_ok LtLtPipe_ok LtLtPercent_ok Gt_ok GtGt_ok GtGtPipe_ok GtGtPercent_ok DotDot_ok
  S0_ok Hash_ok At_ok Dollar_ok Dot_ok Underscore_ok Backslash_ok LineComment_ok Ident_ok
  Str_ok EscapeStr_ok IntZero_ok IntBin_ok IntOct_ok IntHex_ok IntDec_ok FloatDot1_ok
  FloatDot2_ok FloatExp1_ok FloatExp2_ok : lexer_states.

Lemma step_spec `{!Hashify, !HashifyLaws} st : step_ok st (step st).
Proof.
  intros self kind seen. destruct st; cbn [step]; revert self kind seen;
    match goal with |- forall s k b, _ -> _ -> inv ?st _ _ -> wp (@?m s k b) _ _ =>
      change (step_ok st m) end; auto with lexer_states.
Qed.

(** ** The loops *)

(** Somewhere in the text there is an escaped identifier. *)
Definition has_escaped_ident (v : list Z) : Prop :=
  exists i, v !! i = Some 64 /\ v !! S i = Some 34.

Definition lex_fault (v : list Z) (f : fault) : Prop := f = Invalid_str /\ has_escaped_ident v.

Lemma lex_loop_spec `{!Hashify, !HashifyLaws} fuel st self kind seen :
  input_ok (bytes self) (len self) -> crlf_only (bytes self) -> inv st self kind ->
  (measure st self < fuel)%nat ->
  wp (lex_loop fuel st self kind seen) (lex_fault (bytes self))
    (fun r => break_post (low st self) self (fst r) (snd r)).
Proof.
  revert st self kind seen.
  induction fuel as [|fuel IH]; intros st self kind seen Hin Hcr Hinv Hf; [lia|].
  cbn [lex_loop]. apply wp_bind.
  eapply wp_mono; [| |by apply step_spec].
  { intros f [-> He]. split; [done|]. by exists (span_start self). }
  intros [self' kind'|st' self' kind' seen']; cbn [step_post]; [done|].
  intros [(Hb & Hl & Hm) Hlo Hinv' Hms He]. 
  eapply wp_mono; [| |apply IH; rewrite ?Hb, ?Hl; auto; lia].
  { by rewrite Hb. }
  intros [self2 kind2] [(Hb2 & Hl2 & Hm2) Hlo2 Hp2 Hend2 Hs2 He2]. cbn in *.
  rewrite Hb, Hl, He in *. constructor; try done; [split_and!; congruence|lia].
Qed.

(** What a call to [next] returns. *)
Record next_post (self : Lexer) (token : Token.Token) (self' : Lexer) : Prop := {
  np_input : same_input self self';
  np_ordered : (offset self <= Span.start (Token.span token))%nat;
  np_nonempty : (Span.start (Token.span token) < Span.stop (Token.span token))%nat;
  np_end : offset self' = Span.stop (Token.span token);
  np_eof :
    if Token.is_eof token
    then bytes self !! Span.start (Token.span token) = Some 0 /\
         Span.stop (Token.span token) = S (Span.start (Token.span token)) /\
         (Span.start (Token.span token) <= len self)%nat
    else (Span.stop (Token.span token) <= len self)%nat;
  np_scratch : scratch_pad self' = [];
  np_errors :
    if Token.is_invalid token then exists d, errors self' = errors self ++ [d]
    else errors self' = errors self;
}.

Lemma next_spec `{!Hashify, !HashifyLaws} self :
  input_ok (bytes self) (len self) -> crlf_only (bytes self) ->
  (offset self <= len self)%nat -> scratch_pad self = [] ->
  wp (next self) (lex_fault (bytes self)) (fun r => next_post self (fst r) (snd r)).
Proof.
  intros Hin Hcr Ho Hs. unfold next. apply wp_bind.
  eapply wp_mono; [done| |apply lex_loop_spec; [done|done|by constructor|]].
  2: { unfold measure, loop_fuel. destruct Hin. lia. }
  intros [self' kind] [Hsame Hlo Hp Hend Hs' He]. cbn in Hsame, Hlo, Hp, Hend, Hs', He |- *.
  pose proof Hin as (Hl & _ & _ & Hn). destruct Hsame as (Hb & Hlen & Hm).
  assert (offset self' <= S (len self))%nat.
  { destruct kind; cbn in Hend; lia. }
  unfold self_span. rewrite Span.new_ok by lia. simpl.
  constructor; cbn; unfold Span.start, Span.stop, NonMaxU32.as_usize; cbn; rewrite ?Nat2Z.id; try done.
  all: by destruct kind.
Qed.

End Skipping.

End LexerStep.
