(* ===== verification/LexerIdent.v ===== *)
(** * Identifiers, keywords and integer types

    What the lexer makes of an identifier-shaped word: a keyword or a type
    name, an integer type [u<n>] or [i<n>] with its width checked, or a user
    identifier.

    The module [LexerPunct] has the punctuation, [LexerIdent] the words. *)

From stdpp Require Import sets.
From S2P Require Import Prelude Words Bytes Span Token Lexer LexerInv LexerStep.

#[local] Open Scope Z_scope.

Module LexerPunct.
Import Lexer LexerInv LexerStep.

(** [p] is found in [v] at [o]. *)
Fixpoint matches_at (v : list Z) (o : nat) (p : list Z) : bool :=
  match p with
  | [] => true
  | c :: p =>
      match v !! o with
      | Some b => (b =? c) && matches_at v (o + 1) p
      | None => false
      end
  end.

(** Every punctuation token but [StarEq], which no state produces. *)
Definition operators : list TokenKind :=
  [TokenKind.Minus; TokenKind.Plus; TokenKind.Star; TokenKind.Slash; TokenKind.Backslash;
   TokenKind.Percent; TokenKind.Caret; TokenKind.Amp; TokenKind.Pipe; TokenKind.Bang;
   TokenKind.Tilde; TokenKind.Eq; TokenKind.QuestionMark; TokenKind.Lt; TokenKind.Gt;
   TokenKind.Comma; TokenKind.Semicolon; TokenKind.Colon; TokenKind.LParen; TokenKind.RParen;
   TokenKind.LBrace; TokenKind.RBrace; TokenKind.LBracket; TokenKind.RBracket; TokenKind.Hash;
   TokenKind.Dot; TokenKind.Underscore; TokenKind.MinusEq; TokenKind.MinusPipe; TokenKind.PlusEq;
   TokenKind.PlusPipe; TokenKind.StarStar; TokenKind.StarPipe; TokenKind.SlashEq;
   TokenKind.PercentEq; TokenKind.LtEq; TokenKind.LtLt; TokenKind.GtGt; TokenKind.GtEq;
   TokenKind.CaretEq; TokenKind.AmpEq; TokenKind.PipeEq; TokenKind.AmpAmp; TokenKind.PipePipe;
   TokenKind.EqEq; TokenKind.BangEq; TokenKind.TildeEq; TokenKind.FatArrow; TokenKind.DotDot;
   TokenKind.DotStar; TokenKind.DotQuestionMark; TokenKind.MinusPipeEq; TokenKind.PlusPipeEq;
   TokenKind.LtLtEq; TokenKind.GtGtEq; TokenKind.LtLtPipe; TokenKind.GtGtPipe;
   TokenKind.LtLtPercent; TokenKind.GtGtPercent; TokenKind.StarPipeEq; TokenKind.AmpAmpEq;
   TokenKind.PipePipeEq; TokenKind.DotDotEq; TokenKind.Ellipsis; TokenKind.LtLtPipeEq;
   TokenKind.LtLtPercentEq; TokenKind.GtGtPipeEq; TokenKind.GtGtPercentEq].

(** The prefixes that start a comment, a multi-line string, a directive, a
    float or an identifier. *)
Definition starts_other (b0 b1 : Z) : bool :=
  ((b0 =? byte "/") && (b1 =? byte "/")) || ((b0 =? byte "\") && (b1 =? byte "\")) ||
  ((b0 =? byte "#") && char_class.is_ident_start b1) ||
  ((b0 =? byte ".") && char_class.is_digit b1) ||
  ((b0 =? byte "_") && char_class.is_ident_start b1).

(** [next] returns a token of kind [kind] for the [n] bytes at the cursor. *)
Definition lexes (self : Lexer) `{!Memx, !Hashify} (n : nat) (kind : TokenKind) : Prop :=
  next self =
    Ret (Token.mk kind (Span.mk (Z.of_nat (offset self)) (Z.of_nat (offset self + n))),
         mk (bytes self) (len self) (offset self + n) (offset self) (module_id self)
            (errors self) (scratch_pad self)).

Lemma bump_eq self b :
  bytes self !! offset self = Some b -> bump self = Ret (b, set_offset self (offset self + 1)).
Proof. unfold bump. by intros ->. Qed.

Lemma peek_eq self b : bytes self !! offset self = Some b -> peek self = Ret b.
Proof. unfold peek. by intros ->. Qed.

Lemma back_eq self n : (n <= offset self)%nat -> back self n = Ret (set_offset self (offset self - n)).
Proof. intros. unfold back. by rewrite usize_sub_ok. Qed.

Section Punct.
Context `{!Memx, !Hashify}.

Lemma lex_loop_mono fuel fuel' st self kind seen r :
  lex_loop fuel st self kind seen = Ret r -> (fuel <= fuel')%nat ->
  lex_loop fuel' st self kind seen = Ret r.
Proof.
  revert fuel' st self kind seen. induction fuel as [|fuel IH]; intros [|fuel'] st self kind seen;
    cbn [lex_loop]; try done; try lia.
  destruct (step st self kind seen) as [[self' k|st' self' k s]|f]; cbn; try done.
  intros. apply IH; [done|lia].
Qed.

(** The loop reaches [Break] from [S0], and the token is read off. *)
Lemma lexes_intro self n kind fuel :
  input_ok (bytes self) (len self) -> (offset self + n <= len self)%nat ->
  (fuel <= 2 * loop_fuel self + 2)%nat ->
  lex_loop fuel State.S0 self TokenKind.Eof false =
    Ret (mk (bytes self) (len self) (offset self + n) (offset self) (module_id self)
           (errors self) (scratch_pad self), kind) ->
  lexes self n kind.
Proof.
  intros Hin Hn Hfuel Hrun. unfold lexes, next. rewrite (lex_loop_mono _ _ _ _ _ _ _ Hrun Hfuel).
  destruct Hin as (_ & _ & _ & Hb). cbn. unfold self_span. cbn. by rewrite Span.new_ok by lia.
Qed.

(** [k] is an operator found at [o], and no longer one is. *)
Definition longest (v : list Z) (o : nat) (k : TokenKind) : Prop :=
  In k operators /\ matches_at v o (TokenKind.kind_display k) = true /\
  forall k', In k' operators -> matches_at v o (TokenKind.kind_display k') = true ->
    (length (TokenKind.kind_display k') <= length (TokenKind.kind_display k))%nat.

Definition first_byte (k : TokenKind) : Z := default 0 (head (TokenKind.kind_display k)).

Definition first_bytes : list Z := Eval vm_compute in remove_dups (first_byte <$> operators).

(** The operators that start with [b]: the only candidates when [b] is read. *)
Definition starting_with (b : Z) : list TokenKind := List.filter (fun k => first_byte k =? b) operators.

Lemma matches_first v o b k :
  v !! o = Some b -> In k operators -> matches_at v o (TokenKind.kind_display k) = true ->
  first_byte k = b /\ In k (starting_with b).
Proof.
  intros Eb Hk Hm. assert (first_byte k = b) as Hf.
  { assert (Forall (fun k => TokenKind.kind_display k <> []) operators) as Hne by (repeat constructor; done).
    rewrite Forall_forall in Hne. unfold first_byte. specialize (Hne k).
    destruct (TokenKind.kind_display k) as [|c p]; [by destruct Hne; [apply list_elem_of_In|]|].
    cbn in Hm |- *. rewrite Eb in Hm. apply andb_true_iff in Hm as [Hm _]. lia. }
  split; [done|]. apply filter_In. split; [done|]. lia.
Qed.

Lemma longest_intro v o b k :
  v !! o = Some b -> In k operators -> matches_at v o (TokenKind.kind_display k) = true ->
  Forall (fun k' => matches_at v o (TokenKind.kind_display k') = true ->
    (length (TokenKind.kind_display k') <= length (TokenKind.kind_display k))%nat) (starting_with b) ->
  longest v o k.
Proof.
  intros Eb Hk Hm Hall. split_and!; [done|done|]. intros k' Hk' Hm'. rewrite Forall_forall in Hall.
  apply Hall; [|done]. apply list_elem_of_In. by apply (matches_first v o b).
Qed.

Lemma skip_whitespace_none self b :
  bytes self !! offset self = Some b -> char_class.is_whitespace b = false ->
  skip_whitespace self = Ret self.
Proof. intros Eb Hb. unfold skip_whitespace. rewrite (peek_eq _ _ Eb). cbn. by rewrite Hb. Qed.

Definition op_post (self : Lexer) (r : Lexer * TokenKind) : Prop :=
  longest (bytes self) (offset self) (snd r) /\
  fst r = mk (bytes self) (len self) (offset self + length (TokenKind.kind_display (snd r)))
            (offset self) (module_id self) (errors self) (scratch_pad self) /\
  (offset self + length (TokenKind.kind_display (snd r)) <= len self)%nat.

(** Two names for the same byte. *)
Ltac same_byte :=
  repeat match goal with
    | H1 : ?v !! ?o = Some ?a, H2 : ?v !! ?o = Some ?b |- _ =>
        assert_fails (constr_eq a b); assert (a = b) by congruence; subst; clear H2
    end.

(** Runs the loop from [S0] on a known first byte, one byte at a time. *)
Ltac run_states :=
  repeat first
    [ match goal with H : ?c = false |- wp (if ?c then _ else _) _ _ => rewrite H end
    | lex_wp; same_byte; cbn [Z.eqb Pos.eqb] in *
    | match goal with
      | |- wp (step _ _ _ _) _ _ => cbn [step]
      | |- wp (?m) _ _ => let f := head_of m in unfold f
      end ].

(** The bytes known to be, or not to be, at the cursor decide [matches_at]. *)
Ltac known_bytes H :=
  cbn [TokenKind.kind_display TokenKind.tag TokenTag.display bytes_of map
       String.list_ascii_of_string matches_at] in H; byte_lits; cbn in H;
  repeat match goal with
    | E : bytes _ !! _ = Some _ |- _ => rewrite E in H; cbn in H
    | N : (?b =? ?c) = false |- _ => rewrite N in H; cbn in H
    end.

Ltac operator_leaf :=
  match goal with
  | E : bytes ?self !! offset ?self = Some ?b |- op_post ?self (_, ?k) =>
      unfold op_post; cbn [fst snd]; split;
      [ eapply (longest_intro _ _ b); [exact E|repeat (first [left; reflexivity|right])| |]
      | unfold set_offset, set_span_start; cbn; split; [f_equal; lia|lia] ];
      [ cbn; repeat match goal with E : bytes _ !! _ = Some _ |- _ => rewrite E; cbn end; reflexivity
      | let l := eval vm_compute in (starting_with b) in change (starting_with b) with l;
        repeat (apply Forall_cons_2; [let Hm := fresh in intros Hm; first [cbn; lia|known_bytes Hm; discriminate]|]);
        apply Forall_nil_2 ]
  end.

(** One first byte of [first_bytes]. *)
Ltac operator_byte :=
  match goal with
  | Hin : input_ok (bytes ?self) _, E0 : bytes ?self !! offset ?self = Some ?b, Ho : starts_other ?b _ = false |- _ =>
      assert (offset self < len self)%nat by (by apply (nonzero_lt self Hin _ b E0));
      unfold starts_other in Ho; rewrite !orb_false_iff in Ho; destruct_and?; byte_lits;
      cbn [Z.eqb Pos.eqb andb] in *;
      cbn [lex_loop step]; unfold st_S0; rewrite (skip_whitespace_none _ _ E0) by done;
      cbn [mbind res_bind]; rewrite (bump_eq _ b) by done; cbn [mbind res_bind]; byte_lits; cbn;
      run_states; operator_leaf
  end.

Lemma operator_run self b0 b1 :
  input_ok (bytes self) (len self) -> In b0 first_bytes ->
  bytes self !! offset self = Some b0 -> bytes self !! (offset self + 1)%nat = Some b1 ->
  starts_other b0 b1 = false ->
  wp (lex_loop 6 State.S0 self TokenKind.Eof false) no_fault (op_post self).
Proof.
  intros Hin Hb E0 E1 Ho.
  repeat (destruct Hb as [<-|Hb]; [operator_byte|]). done.
Qed.

Lemma operator_found v o b k :
  v !! o = Some b -> In k operators -> matches_at v o (TokenKind.kind_display k) = true -> In b first_bytes.
Proof.
  intros Eb Hk Hm. destruct (matches_first v o b k Eb Hk Hm) as [<- _].
  assert (forallb (fun k => existsb (Z.eqb (first_byte k)) first_bytes) operators = true) as Hall
    by (vm_compute; reflexivity).
  rewrite forallb_forall in Hall. apply Hall in Hk. apply existsb_exists in Hk as (x & Hx & Hxe).
  by apply Z.eqb_eq in Hxe as ->.
Qed.

Lemma operator_lexes self b0 b1 k0 :
  input_ok (bytes self) (len self) ->
  bytes self !! offset self = Some b0 -> bytes self !! (offset self + 1)%nat = Some b1 ->
  starts_other b0 b1 = false ->
  In k0 operators -> matches_at (bytes self) (offset self) (TokenKind.kind_display k0) = true ->
  exists k, longest (bytes self) (offset self) k /\ lexes self (length (TokenKind.kind_display k)) k.
Proof.
  intros Hin E0 E1 Ho Hk0 Hm0.
  pose proof (operator_run self b0 b1 Hin (operator_found _ _ _ _ E0 Hk0 Hm0) E0 E1 Ho) as Hrun.
  apply wp_total in Hrun as ([self' k] & Hrun & Hl & Hself & Hlen). cbn in Hl, Hself, Hlen. subst self'.
  exists k. split; [done|]. apply (lexes_intro self _ k 6); [done|done| |done].
  unfold loop_fuel. destruct Hin. lia.
Qed.

End Punct.
End LexerPunct.

Module LexerIdent.
Import Lexer LexerInv LexerStep LexerPunct.

(** [name] is found at the cursor, followed by the byte [c]. *)
Definition word_at (self : Lexer) (name : list Z) (c : Z) : Prop :=
  slice (bytes self) (offset self) (offset self + length name) = Ret name /\
  bytes self !! (offset self + length name)%nat = Some c.

Lemma word_lookup self name c i b :
  word_at self name c -> name !! i = Some b -> bytes self !! (offset self + i)%nat = Some b.
Proof.
  intros [Hs _] Hi. unfold slice in Hs. destruct (decide _); [|done]. injection Hs as Hs.
  rewrite <- Hs in Hi. apply lookup_take_Some in Hi as [Hi _]. by rewrite lookup_drop in Hi.
Qed.

Lemma eat_while_exact fuel p self o c :
  (offset self <= o)%nat -> (o - offset self < fuel)%nat ->
  (forall i, (offset self <= i < o)%nat -> exists b, bytes self !! i = Some b /\ p b = true) ->
  bytes self !! o = Some c -> p c = false ->
  eat_while fuel p self = Ret (set_offset self o).
Proof.
  revert self. induction fuel as [|fuel IH]; intros self Ho Hf Hall Hc Hpc; [lia|].
  cbn [eat_while]. destruct (decide (o = offset self)) as [->|].
  - rewrite (peek_eq _ _ Hc). cbn. rewrite Hpc. by destruct self.
  - destruct (Hall (offset self)) as (b & Eb & Hb); [lia|]. rewrite (peek_eq _ _ Eb). cbn. rewrite Hb.
    rewrite (IH (advance self 1)); [done|cbn; lia|cbn; lia| |done|done].
    intros i Hi. cbn in Hi. apply Hall. lia.
Qed.

(** ** The reference classification *)

Definition decimal_value (digits : list Z) : Z :=
  fold_left (fun acc b => 10 * acc + (b - byte "0")) digits 0.

(** [u<n>] and [i<n>], [n] a non-empty string of digits. *)
Definition int_type_width (name : list Z) : option (bool * Z) :=
  match name with
  | b :: d :: ds =>
      if ((b =? byte "u") || (b =? byte "i")) && forallb is_ascii_digit (d :: ds)
      then Some (b =? byte "u", decimal_value (d :: ds)) else None
  | _ => None
  end.

(** The kind of token a word denotes. *)
Definition word_kind (name : list Z) : TokenKind :=
  match assoc keyword_map name with
  | Some kind => kind
  | None =>
      match int_type_width name with
      | Some (unsigned, n) =>
          if (0 <? n) && (n <? 2^16)
          then if unsigned then TokenKind.TyU n else TokenKind.TyI n
          else TokenKind.Invalid
      | None => TokenKind.Ident name User
      end
  end.

(** An identifier starts with a letter, or with an underscore followed by a
    letter or an underscore; then letters, digits and underscores. *)
Definition is_word (name : list Z) : bool :=
  match name with
  | [] => false
  | b :: bs =>
      char_class.is_ident_start b && forallb char_class.is_ident_cont bs &&
      (if b =? byte "_" then match bs with c :: _ => char_class.is_ident_start c | [] => false end
       else true)
  end.

(** The diagnostic of an integer type whose width is out of range. *)
Definition width_error (self : Lexer) (n : nat) : Diagnostic :=
  diag (bytes_of "invalid integer bit width") (module_id self)
    (Span.mk (Z.of_nat (offset self)) (Z.of_nat (offset self + n))).

(** [next] returns the token of [kind] for the [n] bytes at the cursor, with
    the diagnostic when it is [Invalid]. *)
Definition word_lexes `{!Memx, !Hashify} (self : Lexer) (n : nat) (kind : TokenKind) : Prop :=
  next self =
    Ret (Token.mk kind (Span.mk (Z.of_nat (offset self)) (Z.of_nat (offset self + n))),
         mk (bytes self) (len self) (offset self + n) (offset self) (module_id self)
            (errors self ++ match kind with TokenKind.Invalid => [width_error self n] | _ => [] end)
            (scratch_pad self)).

(** ** The keyword table *)

Lemma keyword_length name kind :
  assoc keyword_map name = Some kind -> (2 <= length name <= 9)%nat.
Proof.
  assert (forallb (fun e => (2 <=? length (fst e))%nat && (length (fst e) <=? 9)%nat) keyword_map = true)
    as Hall by (vm_compute; reflexivity).
  rewrite forallb_forall in Hall. intros Hk.
  assert (In (name, kind) keyword_map) as Hin.
  { clear Hall. revert Hk. generalize keyword_map.
    induction l as [|[k v] l IH]; simpl; [done|]. case_decide; [intros [= ->]; left; congruence|auto]. }
  apply Hall, andb_true_iff in Hin as [Hlo%Nat.leb_le Hhi%Nat.leb_le]. by split.
Qed.

(** The length filter in front of the table never hides an entry. *)
Lemma candidate_assoc `{!Hashify, !HashifyLaws} name :
  (if negb ((TokenTag.MIN_KEYWORD_LEN <=? length name)%nat && (length name <=? TokenTag.MAX_KEYWORD_LEN)%nat)
      || (length name =? 10)%nat
   then None else tiny_map keyword_map name) = assoc keyword_map name.
Proof.
  rewrite tiny_map_assoc by apply keyword_keys_distinct.
  change TokenTag.MIN_KEYWORD_LEN with 2%nat. change TokenTag.MAX_KEYWORD_LEN with 9%nat.
  destruct (assoc keyword_map name) as [kind|] eqn:E; [|by destruct (_ || _)].
  apply keyword_length in E.
  destruct (Nat.leb_spec 2 (length name)), (Nat.leb_spec (length name) 9), (Nat.eqb_spec (length name) 10);
    try lia. done.
Qed.

Lemma int_type_width_test name b :
  name !! 0%nat = Some b ->
  int_type_width name =
    if ((b =? byte "u") || (b =? byte "i")) && (2 <=? length name)%nat && forallb is_ascii_digit (drop 1 name)
    then Some (b =? byte "u", decimal_value (drop 1 name)) else None.
Proof.
  destruct name as [|c [|d ds]]; intros [= ->]; [by rewrite andb_false_r|].
  cbn [int_type_width length Nat.leb drop]. by rewrite andb_true_r.
Qed.

Lemma is_word_cases name b :
  is_word name = true -> name !! 0%nat = Some b ->
  char_class.is_ident_start b = true /\
  (b = 95 -> exists c, name !! 1%nat = Some c /\ char_class.is_ident_start c = true).
Proof.
  destruct name as [|b' bs]; intros Hw [= ->]. cbn in Hw.
  apply andb_true_iff in Hw as [[Hb _]%andb_true_iff Hu]. split; [done|]. intros ->.
  destruct bs as [|c bs]; [done|]. by exists c.
Qed.

Lemma forallb_Forall_true {A} (f : A -> bool) l : forallb f l = true -> Forall (fun b => f b = true) l.
Proof.
  rewrite forallb_forall, Forall_forall. intros Hf b Hb. by apply Hf, list_elem_of_In.
Qed.

(** ** Running the lexer on a word *)

Lemma ident_start_cases b :
  byte_ok b -> char_class.is_ident_start b = true -> b = 95 \/ 97 <= b <= 122 \/ 65 <= b <= 90.
Proof.
  intros Hb H.
  pose proof (class_test char_class.is_ident_start
    (fun b => (b =? 95) || char_class.range "a" "z" b || char_class.range "A" "Z" b)) as Hc.
  specialize (Hc ltac:(vm_compute; reflexivity) b Hb H).
  unfold char_class.range in Hc. byte_lits. lia.
Qed.

Section Word.
Context `{!Memx, !Hashify, !HashifyLaws}.
Context (self : Lexer) (name : list Z) (c : Z).
Context (Hin : input_ok (bytes self) (len self)) (Hat : word_at self name c).
Context (Hword : is_word name = true) (Hc : char_class.is_ident_cont c = false).

Lemma word_bytes i b : name !! i = Some b ->
  bytes self !! (offset self + i)%nat = Some b /\ byte_ok b /\ char_class.is_ident_cont b = true.
Proof.
  intros Hi. pose proof (word_lookup _ _ _ _ _ Hat Hi) as Eb. split; [done|].
  assert (byte_ok b) as Hb by (destruct Hin as (_ & _ & Hb & _); by eapply Forall_lookup_1).
  split; [done|]. unfold is_word in Hword. destruct name as [|b0 bs]; [done|].
  apply andb_true_iff in Hword as [Hw _]. apply andb_true_iff in Hw as [Hs Hall].
  destruct i as [|i]; simplify_eq/=.
  - by apply (class_test char_class.is_ident_start); [vm_compute|..].
  - rewrite forallb_forall in Hall. apply Hall, list_elem_of_In. by eapply list_elem_of_lookup_2.
Qed.

Lemma word_end : (offset self + length name <= len self)%nat /\ (0 < length name)%nat.
Proof.
  destruct Hat as [_ Ec]. apply lookup_lt_Some in Ec. destruct Hin as (Hl & _). split; [lia|].
  destruct name; [done|cbn; lia].
Qed.

(** The [Ident] state, entered inside the word. *)
Lemma eat_word k ss e sc :
  (k <= length name)%nat ->
  let s := mk (bytes self) (len self) (offset self + k) ss (module_id self) e sc in
  eat_while (loop_fuel s) char_class.is_ident_cont s = Ret (set_offset s (offset self + length name)).
Proof.
  intros Hk s. pose proof word_end. destruct Hat as [_ Ec].
  apply (eat_while_exact _ _ _ _ c); cbn; try done; [lia|unfold loop_fuel; cbn; destruct Hin; lia|].
  intros i Hi. destruct (lookup_lt_is_Some_2 name (i - offset self)) as [b Eb]; [lia|].
  exists b. pose proof (word_bytes _ _ Eb) as (Hb & _ & Hp).
  by replace (offset self + (i - offset self))%nat with i in Hb by lia.
Qed.

Lemma int_type_run s digits prefix :
  Forall (fun b => is_ascii_digit b = true) digits ->
  prefix = byte "u" \/ prefix = byte "i" ->
  int_type s prefix digits =
    (if (0 <? decimal_value digits) && (decimal_value digits <? 2^16)
     then Ret (Break s (if prefix =? byte "u" then TokenKind.TyU (decimal_value digits)
                        else TokenKind.TyI (decimal_value digits)))
     else s ← diag_invalid_integer_bit_width s; invalid s).
Proof.
  intros Hd Hp. unfold int_type, u64_from_decimal. fold (decimal_value digits).
  assert (0 <= decimal_value digits) as Hpos.
  { unfold decimal_value. assert (0 <= 0) as Hz by lia. revert Hz. generalize 0 at 2 4.
    induction Hd as [|b ds Hb Hds IH]; intros z Hz; cbn [fold_left]; [done|]. apply IH.
    unfold is_ascii_digit in Hb. byte_lits. lia. }
  set (n := decimal_value digits) in *.
  assert ((default 0 (if n <? 2^64 then Some n else None) =? 0) ||
          (2^16 - 1 <? default 0 (if n <? 2^64 then Some n else None)) =
          negb ((0 <? n) && (n <? 2^16))) as ->.
  { change (2^16) with 65536. change (2^64) with 18446744073709551616.
    destruct (Z.ltb_spec n 18446744073709551616); unfold from_option, id.
    - destruct (Z.eqb_spec n 0), (Z.ltb_spec (65536 - 1) n), (Z.ltb_spec 0 n), (Z.ltb_spec n 65536);
        (reflexivity || (exfalso; lia)).
    - destruct (Z.ltb_spec 0 n), (Z.ltb_spec n 65536); (reflexivity || (exfalso; lia)). }
  destruct ((0 <? n) && (n <? 2^16)) eqn:E; cbn [negb]; [|done].
  apply andb_true_iff in E as [E1%Z.ltb_lt E2%Z.ltb_lt].
  rewrite (proj2 (Z.ltb_lt n (2^64))) by lia. unfold from_option, id, u16. rewrite Z.mod_small by lia.
  by destruct Hp as [-> | ->].
Qed.

(** The lexer after the word. *)
Definition after_word (kind : TokenKind) : Lexer :=
  mk (bytes self) (len self) (offset self + length name) (offset self) (module_id self)
    (errors self ++ match kind with TokenKind.Invalid => [width_error self (length name)] | _ => [] end)
    (scratch_pad self).

Lemma after_word_plain kind :
  plain kind ->
  after_word kind = mk (bytes self) (len self) (offset self + length name) (offset self) (module_id self)
    (errors self) (scratch_pad self).
Proof. intros [_ Hk]. unfold after_word. f_equal. by destruct kind; rewrite ?app_nil_r. Qed.

Lemma word_utf8 : utf8_valid name = true.
Proof.
  apply utf8_valid_ascii, Forall_lookup. intros i b Hb. apply word_bytes in Hb as (_ & Hb & Hp).
  pose proof (ident_cont_ascii b Hb Hp). lia.
Qed.

Lemma digits_ascii l : l ⊆ name -> forallb char_class.is_digit l = forallb is_ascii_digit l.
Proof.
  induction l as [|b l IH]; intros Hl; cbn [forallb]; [done|]. rewrite IH by set_solver. f_equal.
  apply is_digit_spec. assert (b ∈ name) as Hb by set_solver.
  apply list_elem_of_lookup_1 in Hb as [i Hi]. by apply word_bytes in Hi as (_ & ? & _).
Qed.

Lemma user_ident_run :
  user_ident (mk (bytes self) (len self) (offset self + length name) (offset self) (module_id self)
                (errors self) (scratch_pad self)) =
  Ret (Break (after_word (word_kind name)) (word_kind name)).
Proof.
  unfold user_ident. cbn [bytes span_start offset]. rewrite (proj1 Hat). cbn [mbind res_bind].
  rewrite candidate_assoc. unfold word_kind.
  destruct (assoc keyword_map name) as [kind|] eqn:E.
  { rewrite after_word_plain; [done|]. by eapply keyword_plain. }
  destruct (lookup_lt_is_Some_2 name 0) as [b Eb]; [apply word_end|].
  rewrite (get_idx_Some _ _ _ Eb). cbn [mbind res_bind].
  rewrite (digits_ascii (drop 1 name)) by (apply subseteq_drop).
  rewrite (int_type_width_test name b Eb). destruct (_ && _) eqn:Et; cbv iota.
  - apply andb_true_iff in Et as [[Hp _]%andb_true_iff Hd].
    rewrite int_type_run; [|by apply forallb_Forall_true|byte_lits; lia].
    destruct (_ && _); [destruct (b =? byte "u"); by rewrite after_word_plain by by apply plain_intro|].
    unfold diag_invalid_integer_bit_width, push_diag, self_span. cbn [span_start offset].
    destruct Hin as (_ & _ & _ & Hn). pose proof word_end. by rewrite Span.new_ok by lia.
  - unfold intern_str. rewrite word_utf8. cbn. by rewrite after_word_plain by by apply plain_intro.
Qed.

(** Leaving [S0] on the first byte of a word. *)
Lemma word_start b :
  byte_ok b -> char_class.is_ident_start b = true -> bytes self !! offset self = Some b ->
  let s := mk (bytes self) (len self) (offset self + 1) (offset self) (module_id self) (errors self) (scratch_pad self) in
  st_S0 self TokenKind.Eof false =
    Ret (if b =? byte "_" then Goto State.Underscore s TokenKind.Underscore false
         else Goto State.Ident s (TokenKind.Ident [] User) false).
Proof.
  intros Hb Hs E0 s. pose proof (ident_start_cases b Hb Hs) as Hcases.
  assert (char_class.is_whitespace b = false) as Hw.
  { pose proof (class_test char_class.is_ident_start (fun b => negb (char_class.is_whitespace b))) as Hc'.
    apply negb_true_iff, Hc'; [vm_compute; reflexivity|done|done]. }
  unfold st_S0. rewrite (skip_whitespace_none _ _ E0 Hw). cbn [mbind res_bind].
  rewrite (bump_eq _ b) by done. cbn [mbind res_bind]. unfold EOF, quote. byte_lits.
  change (negb (Z.land (char_class.class b) char_class.IDENT_START =? 0)) with (char_class.is_ident_start b).
  rewrite Hs. destruct (Z.eqb_spec b 95) as [->|Hne]; [done|].
  repeat match goal with |- context [b =? ?x] => rewrite (proj2 (Z.eqb_neq b x)) by lia end. done.
Qed.

Lemma word_run :
  lex_loop 4 State.S0 self TokenKind.Eof false = Ret (after_word (word_kind name), word_kind name).
Proof.
  destruct (lookup_lt_is_Some_2 name 0) as [b Eb]; [apply word_end|].
  pose proof (word_bytes _ _ Eb) as (E0 & Hb & _). rewrite Nat.add_0_r in E0.
  destruct (is_word_cases name b Hword Eb) as [Hs Hu]. pose proof word_end as [_ Hlen].
  assert (forall k, (k <= length name)%nat -> forall seen,
    st_Ident (mk (bytes self) (len self) (offset self + k) (offset self) (module_id self) (errors self) (scratch_pad self))
      (TokenKind.Ident [] User) seen = Ret (Break (after_word (word_kind name)) (word_kind name))) as Hident.
  { intros k Hk seen. unfold st_Ident. rewrite eat_word by done. exact user_ident_run. }
  cbn [lex_loop step]. rewrite (word_start b Hb Hs E0). byte_lits. destruct (Z.eqb_spec b 95) as [->|].
  - destruct (Hu eq_refl) as (c1 & E1 & Hs1). pose proof (word_bytes _ _ E1) as (Eb1 & _).
    apply lookup_lt_Some in E1.
    cbn [mbind res_bind step]. unfold st_Underscore. rewrite (bump_eq _ c1) by done.
    cbn [mbind res_bind]. rewrite Hs1. cbn [mbind res_bind step].
    unfold set_offset. cbn [bytes len offset span_start module_id errors scratch_pad].
    rewrite <- Nat.add_assoc. by rewrite Hident by lia.
  - cbn [mbind res_bind step]. by rewrite Hident by lia.
Qed.

Lemma word_lexes_kind : word_lexes self (length name) (word_kind name).
Proof.
  unfold word_lexes, next. pose proof word_end as [Hend _].
  rewrite (lex_loop_mono _ _ _ _ _ _ _ word_run) by (unfold loop_fuel; lia).
  cbn [mbind res_bind]. unfold self_span, after_word. cbn [span_start offset].
  destruct Hin as (_ & _ & _ & Hn). by rewrite Span.new_ok by lia.
Qed.

End Word.
End LexerIdent.
