(* ===== verification/LexerLit.v ===== *)
(** * Integer literals are well formed

    Every [LitInt] token carries the text of a numeral of its radix, so that
    [lower_lit_int] ([src/ir/vuir/from_ast.rs]), which converts the symbol and
    unwraps the result, never panics on a token of the lexer.

    [LexerStr] has string literals: [str_body src value] says that the source text
    [src] between the quotes denotes the bytes [value]. *)

From stdpp Require Import sets.
From S2P Require Import Prelude Words Bytes Span Token Lexer LexerInv LexerStep LexerIdent Anyint.
From S2P Require Import AnyintArith AnyintDiv AnyintSpec.

#[local] Open Scope Z_scope.

Module LexerStr.
Import Lexer LexerInv LexerStep LexerPunct.

(** ** The denotation of a string body *)

Definition hex_digit (b d : Z) : Prop :=
  (48 <= b <= 57 /\ d = b - 48) \/ (97 <= b <= 102 /\ d = b - 87) \/ (65 <= b <= 70 /\ d = b - 55).

(** The single-letter escapes: letter and byte. *)
Definition simple_escape (e v : Z) : Prop :=
  (e = byte "n" /\ v = 10) \/ (e = byte "r" /\ v = 13) \/ (e = byte "t" /\ v = 9) \/
  (e = quote /\ v = quote) \/ (e = byte "\" /\ v = byte "\") \/ (e = byte "0" /\ v = 0).

(** A byte that stands for itself. *)
Definition raw (b : Z) : Prop := b <> 0 /\ b <> 10 /\ b <> quote /\ b <> byte "\".

(** The number written by hexadecimal digits, after [acc]. *)
Inductive hex_number : list Z -> Z -> Z -> Prop :=
  | hex_nil acc : hex_number [] acc acc
  | hex_cons b d ds acc n : hex_digit b d -> hex_number ds (16 * acc + d) n -> hex_number (b :: ds) acc n.

Inductive str_body : list Z -> list Z -> Prop :=
  | body_nil : str_body [] []
  | body_raw b src value : raw b -> str_body src value -> str_body (b :: src) (b :: value)
  | body_escape e v src value : simple_escape e v -> str_body src value ->
      str_body (byte "\" :: e :: src) (v :: value)
  | body_hex h l dh dl src value : hex_digit h dh -> hex_digit l dl -> str_body src value ->
      str_body (byte "\" :: byte "x" :: h :: l :: src) (16 * dh + dl :: value)
  | body_unicode ds c src value :
      hex_number ds 0 c -> (length ds <= 6)%nat -> is_scalar c = true -> str_body src value ->
      str_body (byte "\" :: byte "u" :: byte "{" :: ds ++ byte "}" :: src) (encode_utf8 c ++ value).

(** ** Text at a position *)

Definition text_at (v : list Z) (o : nat) (s : list Z) : Prop :=
  forall i b, s !! i = Some b -> v !! (o + i)%nat = Some b.

Lemma text_at_cons v o b s : text_at v o (b :: s) -> v !! o = Some b /\ text_at v (o + 1) s.
Proof.
  intros H. split.
  - specialize (H 0%nat b eq_refl). by rewrite Nat.add_0_r in H.
  - intros i c Hi. rewrite <- Nat.add_assoc. by apply H.
Qed.

Lemma text_at_app v o s1 s2 : text_at v o (s1 ++ s2) -> text_at v o s1 /\ text_at v (o + length s1) s2.
Proof.
  intros H. split.
  - intros i b Hi. apply H. by apply lookup_app_l_Some.
  - intros i b Hi. rewrite <- Nat.add_assoc. apply H. rewrite lookup_app_r by lia.
    by replace (length s1 + i - length s1)%nat with i by lia.
Qed.

Lemma text_at_slice v o s : text_at v o s -> (o + length s <= length v)%nat ->
  slice v o (o + length s) = Ret s.
Proof.
  intros H Hl. rewrite slice_ok by lia. f_equal. replace (o + length s - o)%nat with (length s) by lia.
  apply list_eq. intros i. destruct (s !! i) as [b|] eqn:E.
  - pose proof (lookup_lt_Some _ _ _ E). rewrite lookup_take_lt by lia. rewrite lookup_drop. by apply H.
  - apply lookup_ge_None in E. apply lookup_take_ge. lia.
Qed.

(** ** Digits *)

Lemma hex_digit_value b d : hex_digit b d -> is_ascii_hexdigit b = true /\ hex_value b = Ret d /\ 0 <= d < 16 /\ b <> 125.
Proof.
  intros H. assert (is_ascii_hexdigit b = true) as Hb.
  { unfold is_ascii_hexdigit, is_ascii_digit, hex_digit in *. lia. }
  split; [done|]. unfold hex_value. rewrite Hb. cbn [negb]. byte_lits.
  unfold hex_digit in H. destruct H as [[H ->]|[[H ->]|[H ->]]].
  - replace ((48 <=? b) && (b <=? 57)) with true by lia. split; [done|lia].
  - replace ((48 <=? b) && (b <=? 57)) with false by lia. replace ((97 <=? b) && (b <=? 102)) with true by lia.
    split; [f_equal; lia|lia].
  - replace ((48 <=? b) && (b <=? 57)) with false by lia. replace ((97 <=? b) && (b <=? 102)) with false by lia.
    replace ((65 <=? b) && (b <=? 70)) with true by lia. split; [f_equal; lia|lia].
Qed.

(** Shifting in a hexadecimal digit. *)
Lemma shift_in_digit acc d n :
  0 <= acc -> 16 * acc < 2^n -> 0 <= n -> 0 <= d < 16 -> Z.lor ((acc ≪ 4) mod 2^n) d = 16 * acc + d.
Proof.
  intros Ha Hn Hn0 Hd. rewrite Z.shiftl_mul_pow2 by lia. change (2^4) with 16.
  rewrite Z.mod_small by lia. rewrite Z.lor_comm.
  pose proof (lor_disjoint_add d acc 4 ltac:(lia) ltac:(lia)) as Hl. change (2^4) with 16 in Hl.
  rewrite Hl. lia.
Qed.

Lemma hex_cons_inv b ds acc n :
  hex_number (b :: ds) acc n -> exists d, hex_digit b d /\ hex_number ds (16 * acc + d) n.
Proof. inversion 1; eauto. Qed.

Lemma text_at_drop v o s c : text_at v o (s ++ [c]) -> exists tail, drop o v = s ++ c :: tail.
Proof.
  revert o. induction s as [|b s IH]; intros o Ht; apply text_at_cons in Ht as [Hb Ht].
  - exists (drop (S o) v). by apply drop_S.
  - destruct (IH (o + 1)%nat Ht) as [tail Htail]. exists tail. rewrite (drop_S _ _ _ Hb).
    rewrite <- Nat.add_1_r, Htail. done.
Qed.

(** ** Running the string states *)

(** The token kind when the closing quote is read. *)
Definition close_kind (kind : TokenKind) (text : list Z) : res TokenKind :=
  match kind with
  | TokenKind.LitStr _ => Ret (TokenKind.LitStr (intern_bytes text))
  | TokenKind.Ident _ k => symbol ← intern_str text; Ret (TokenKind.Ident symbol k)
  | _ => ub
  end.

Lemma raw_run src value :
  str_body src value -> (exists b src', src = b :: src' /\ raw b) ->
  exists run rest value', src = run ++ rest /\ value = run ++ value' /\ run <> [] /\
    Forall raw run /\ str_body rest value' /\ (rest = [] \/ exists e, rest = byte "\" :: e).
Proof.
  induction 1 as [|b src value Hb Hsrc IH|e v src value He Hsrc _|h l dh dl src value Hh Hl Hsrc _
    |ds c src value Hds Hlen Hc Hsrc _]; intros (b' & src' & Heq & Hraw);
    [done| |injection Heq as <- _; unfold raw in Hraw; tauto..].
  destruct src as [|b2 src2] eqn:E.
  - exists [b], [], []. inversion Hsrc; subst. split_and!; [done..| |constructor|by left].
    by apply Forall_singleton.
  - destruct (Z.eq_dec b2 (byte "\")) as [->|Hne].
    + exists [b], (byte "\" :: src2), value. split_and!; [done..| |done|right; eauto].
      by apply Forall_singleton.
    + destruct IH as (run & rest & value' & Hs & -> & Hn & Hf & Hr & Hend).
      { exists b2, src2. split; [done|]. inversion Hsrc; subst; done. }
      exists (b :: run), rest, value'. rewrite Hs. split_and!; [done|done|done|by constructor|done|done].
Qed.

Section Str.
Context `{!Memx, !MemxLaws, !Hashify}.
Context (v : list Z) (n : nat) (Hin : input_ok v n) (ss : nat) (m : Z) (e : list Diagnostic).
Context (kind : TokenKind).

(** The lexer at [o] with [sc] in the scratch pad. *)
Abbreviation at_ o sc := (mk v n o ss m e sc).

Lemma text_before_NUL o s b : text_at v o s -> b ∈ s -> b <> 0 -> (o < n)%nat.
Proof.
  intros Ht Hb Hnz. apply list_elem_of_lookup_1 in Hb as [i Hi]. apply Ht in Hi.
  pose proof (nonzero_lt (at_ o []) Hin (o + i) b Hi Hnz) as Hlt. cbn in Hlt. lia.
Qed.

(** One run of raw bytes: a single iteration of [Str]. *)
Lemma run_step o sc b run c seen :
  raw b -> Forall raw run -> text_at v o ((b :: run) ++ [c]) -> c = quote \/ c = byte "\" ->
  st_Str (at_ o sc) kind seen = Ret (Goto State.Str (at_ (o + S (length run)) (sc ++ b :: run)) kind seen).
Proof.
  intros Hb Hrun Ht Hc. cbn [app] in Ht. apply text_at_cons in Ht as [Eb Ht].
  unfold st_Str. rewrite (bump_eq _ b) by done. cbn [mbind res_bind].
  destruct Hb as (Hb1 & Hb2 & Hb3 & Hb4). unfold EOF. byte_lits. unfold quote in *.
  rewrite !(proj2 (Z.eqb_neq b _)) by done.
  rewrite usize_sub_ok by (cbn; lia). cbn [mbind res_bind]. unfold eat_until3. cbn [bytes offset set_offset].
  destruct (text_at_drop _ _ _ _ Ht) as [tail Htail].
  pose proof (text_at_cons v o b run) as _.
  assert (o + 1 + length run < length v)%nat as Hlen.
  { assert (length (drop (o + 1) v) = length (run ++ c :: tail)) as El by by rewrite Htail.
    rewrite length_drop, length_app in El. cbn in El. lia. }
  rewrite slice_from_ok by lia. cbn [mbind res_bind]. rewrite memchr_tpl_first, Htail.
  rewrite position_app; [| |byte_lits; lia].
  2: { eapply Forall_impl; [exact Hrun|]. intros x (Hx1 & Hx2 & Hx3 & Hx4). unfold quote in *. byte_lits.
       rewrite !(proj2 (Z.eqb_neq x _)) by done. done. }
  cbn [mbind res_bind advance bytes offset set_offset].
  replace (o + 1 - 1)%nat with o by lia. replace (o + 1 + length run)%nat with (o + length (b :: run))%nat by (cbn; lia).
  rewrite (text_at_slice v o (b :: run)).
  - cbn [mbind res_bind]. unfold set_scratch. cbn. do 3 f_equal. lia.
  - intros i x Hi. destruct i as [|i]; [injection Hi as <-; by rewrite Nat.add_0_r|].
    replace (o + S i)%nat with (o + 1 + i)%nat by lia. apply Ht. by apply lookup_app_l_Some.
  - cbn. lia.
Qed.

Lemma simple_step o sc x y s seen :
  simple_escape x y -> text_at v o (byte "\" :: x :: s) ->
  st_EscapeStr (at_ (o + 1) sc) kind seen = Ret (Goto State.Str (at_ (o + 2) (sc ++ [y])) kind seen).
Proof.
  intros Hx Ht. apply text_at_cons in Ht as [_ Ht]. apply text_at_cons in Ht as [Ex _].
  unfold st_EscapeStr. rewrite (bump_eq _ x) by done. cbn [mbind res_bind].
  unfold push_scratch, set_scratch. cbn. replace (o + 1 + 1)%nat with (o + 2)%nat by lia.
  unfold simple_escape in Hx. by destruct_or?; destruct_and?; subst.
Qed.

Lemma hex_step o sc h l dh dl s seen :
  hex_digit h dh -> hex_digit l dl -> text_at v o (byte "\" :: byte "x" :: h :: l :: s) ->
  st_EscapeStr (at_ (o + 1) sc) kind seen = Ret (Goto State.Str (at_ (o + 4) (sc ++ [16 * dh + dl])) kind seen).
Proof.
  intros Hh Hl Ht. apply text_at_cons in Ht as [_ Ht]. apply text_at_cons in Ht as [Ex Ht].
  apply text_at_cons in Ht as [Eh Ht]. apply text_at_cons in Ht as [El _].
  pose proof (hex_digit_value h dh Hh) as (Hih & Hvh & Hdh & _).
  pose proof (hex_digit_value l dl Hl) as (Hil & Hvl & Hdl & _).
  assert (h <> 0) as Hnz by (intros ->; done).
  unfold st_EscapeStr. rewrite (bump_eq _ (byte "x")) by done. cbn [mbind res_bind]. cbn [Z.eqb].
  change (st_EscapeStr (at_ (o + 1) sc) kind seen) with (st_EscapeStr (at_ (o + 1) sc) kind seen).
  unfold EOF, quote. byte_lits. cbn [Z.eqb Pos.eqb].
  unfold escape_hex. rewrite (bump_eq _ h) by done. cbn [mbind res_bind]. unfold EOF.
  rewrite (proj2 (Z.eqb_neq h 0)) by done. rewrite (bump_eq _ l) by done. cbn [mbind res_bind].
  rewrite Hih, Hil. cbn [andb]. rewrite Hvh, Hvl. cbn [mbind res_bind].
  unfold push_scratch, set_scratch, u8. rewrite shift_in_digit by lia. cbn.
  do 3 f_equal. lia.
Qed.

(** The loop over the digits between the braces. *)
Lemma unicode_digits_run ds : forall acc c fuel o sc s,
  hex_number ds acc c -> 0 <= acc < 16 ^ (6 - Z.of_nat (length ds)) -> (length ds <= 6)%nat ->
  (length ds < fuel)%nat -> text_at v o (ds ++ byte "}" :: s) ->
  unicode_digits fuel (at_ o sc) acc = Ret (inl (at_ (o + length ds) sc, c)).
Proof.
  induction ds as [|d ds IH]; intros acc c [|fuel] o sc s Hnum Hacc Hlen Hfuel Ht; try lia;
    pose proof Ht as Ht'; cbn [app] in Ht; apply text_at_cons in Ht as [E0 Ht]; cbn [unicode_digits].
  - inversion Hnum; subst. rewrite (peek_eq _ (byte "}")) by done. cbn. by rewrite Nat.add_0_r.
  - apply hex_cons_inv in Hnum as (x & Hd & Hnum').
    pose proof (hex_digit_value d x Hd) as (Hid & Hvd & Hdr & Hne).
    assert (o < n)%nat by (eapply text_before_NUL; [exact Ht'|left|intros ->; done]).
    rewrite (peek_eq _ d) by done. cbn [mbind res_bind]. byte_lits.
    rewrite (proj2 (Z.eqb_neq d 125)) by done. cbn [negb]. unfold is_eof. cbn [len offset].
    rewrite (proj2 (Nat.leb_gt n o)) by done. rewrite (bump_eq _ d) by done. cbn [mbind res_bind].
    rewrite Hid, Hvd. cbn [mbind res_bind]. cbn [length] in *.
    assert (16 * 16 ^ (6 - Z.of_nat (S (length ds))) = 16 ^ (6 - Z.of_nat (length ds))) as Hpow.
    { rewrite <- Z.pow_succ_r by lia. f_equal. lia. }
    assert (16 ^ (6 - Z.of_nat (length ds)) <= 16 ^ 6) by (apply Z.pow_le_mono_r; lia).
    change (16 ^ 6) with (2 ^ 24) in *. unfold u32.
    rewrite shift_in_digit by lia.
    change (set_offset (at_ o sc) (offset (at_ o sc) + 1)) with (at_ (o + 1) sc).
    rewrite (IH (16 * acc + x) c fuel (o + 1)%nat sc s); [|done|lia|lia|lia|done].
    do 4 f_equal. lia.
Qed.

Lemma unicode_step o sc ds c s seen :
  hex_number ds 0 c -> (length ds <= 6)%nat -> is_scalar c = true ->
  text_at v o (byte "\" :: byte "u" :: byte "{" :: ds ++ byte "}" :: s) ->
  st_EscapeStr (at_ (o + 1) sc) kind seen =
    Ret (Goto State.Str (at_ (o + (4 + length ds)) (sc ++ encode_utf8 c)) kind seen).
Proof.
  intros Hds Hlen Hc Ht. apply text_at_cons in Ht as [_ Ht]. apply text_at_cons in Ht as [Ex Ht].
  apply text_at_cons in Ht as [Eb Ht].
  unfold st_EscapeStr. rewrite (bump_eq _ (byte "u")) by done. cbn [mbind res_bind].
  unfold EOF, quote. byte_lits. cbn [Z.eqb Pos.eqb].
  unfold escape_unicode. rewrite (bump_eq _ (byte "{")) by done. cbn [mbind res_bind]. byte_lits.
  cbn [Z.eqb Pos.eqb negb offset set_offset].
  change (set_offset _ _) with (at_ (o + 1 + 1 + 1) sc).
  assert (length ds < length v)%nat as Hfuel.
  { pose proof (text_at_app _ _ _ _ Ht) as [_ Hend]. apply text_at_cons in Hend as [Hend _].
    apply lookup_lt_Some in Hend. lia. }
  rewrite (unicode_digits_run ds 0 c _ _ sc s); [|done|split; [lia|apply Z.pow_pos_nonneg; lia]|done|
    unfold loop_fuel; cbn; lia|done].
  cbn [mbind res_bind offset]. rewrite usize_sub_ok by lia. cbn [mbind res_bind].
  replace (o + 1 + 1 + 1 + length ds - (o + 1 + 1 + 1))%nat with (length ds) by lia.
  destruct (Nat.ltb_spec 6 (length ds)); [lia|].
  unfold char_from_u32. rewrite Hc. unfold push_scratch, set_scratch. cbn. do 3 f_equal. lia.
Qed.

Lemma quote_step o sc seen :
  v !! o = Some quote ->
  st_Str (at_ o sc) kind seen = (kind ← close_kind kind sc; Ret (Break (at_ (o + 1) []) kind)).
Proof. intros E. unfold st_Str. by rewrite (bump_eq _ quote). Qed.

Lemma backslash_step o sc seen :
  v !! o = Some (byte "\") ->
  st_Str (at_ o sc) kind seen = Ret (Goto State.EscapeStr (at_ (o + 1) sc) kind seen).
Proof. intros E. unfold st_Str. by rewrite (bump_eq _ (byte "\")). Qed.

(** One escape: two iterations, from [Str] to [Str]. *)
Lemma escape_loop fuel o sc sc' o' seen :
  v !! o = Some (byte "\") ->
  st_EscapeStr (at_ (o + 1) sc) kind seen = Ret (Goto State.Str (at_ o' sc') kind seen) ->
  lex_loop (S (S fuel)) State.Str (at_ o sc) kind seen = lex_loop fuel State.Str (at_ o' sc') kind seen.
Proof.
  intros Eb He. cbn [lex_loop step]. rewrite (backslash_step _ _ _ Eb). cbn [mbind res_bind step].
  by rewrite He.
Qed.

(** The whole body: every iteration consumes source. *)
Lemma body_run src : forall value, str_body src value ->
  forall o sc seen fuel, (length src < fuel)%nat -> text_at v o (src ++ [quote]) ->
  lex_loop fuel State.Str (at_ o sc) kind seen =
    (kind ← close_kind kind (sc ++ value); Ret (at_ (o + (length src + 1)) [], kind)).
Proof.
  induction src as [src IH] using (induction_ltof1 _ (@length Z)). unfold ltof in IH.
  intros value Hbody o sc seen fuel Hfuel Ht.
  assert (forall rest value' o' sc' fuel', (length rest < length src)%nat -> str_body rest value' ->
    (length rest < fuel')%nat -> text_at v o' (rest ++ [quote]) ->
    (o' + length rest = o + length src)%nat -> sc' ++ value' = sc ++ value ->
    lex_loop fuel' State.Str (at_ o' sc') kind seen =
      (kind ← close_kind kind (sc ++ value); Ret (at_ (o + (length src + 1)) [], kind))) as IH'.
  { intros rest value' o' sc' fuel' Hlt Hrest Hf Ht' Hoff Hsc.
    rewrite (IH rest Hlt value' Hrest) by done. by rewrite Hsc, !Nat.add_assoc, Hoff. }
  clear IH. destruct fuel as [|fuel]; [lia|].
  destruct Hbody as [|b src value Hb Hsrc|e' y src value He Hsrc
    |h l dh dl src value Hh Hl Hsrc|ds c src value Hds Hlen Hc Hsrc].
  - cbn [app] in Ht. apply text_at_cons in Ht as [Eq _]. cbn [lex_loop step]. rewrite (quote_step _ _ _ Eq).
    rewrite app_nil_r. by destruct (close_kind kind sc).
  - destruct (raw_run (b :: src) (b :: value)) as (run & rest & value' & Hs & Hval & Hne & Hrun & Hrest & Hend);
      [by constructor|eauto|].
    destruct run as [|b' run]; [done|]. injection Hs as <- ->. injection Hval as ->.
    apply Forall_cons in Hrun as [_ Hrun].
    assert (exists c tail, rest ++ [quote] = c :: tail /\ (c = quote \/ c = byte "\")) as (c & tail & Htail & Hc).
    { destruct Hend as [->|[tl ->]]; [by exists quote, []; auto|exists (byte "\"), (tl ++ [quote]); auto]. }
    assert (text_at v o ((b :: run) ++ rest ++ [quote])) as Ht2 by (by rewrite app_assoc).
    assert (text_at v o ((b :: run) ++ [c])) as Ht3.
    { rewrite Htail, cons_middle, app_assoc in Ht2. by apply text_at_app in Ht2 as [Ht2 _]. }
    apply text_at_app in Ht2 as [_ Ht2].
    cbn [lex_loop step]. rewrite (run_step o sc b run c seen Hb Hrun Ht3 Hc).
    cbn [mbind res_bind]. cbn [length] in *. rewrite length_app in *.
    apply (IH' rest value'); try done; try lia. by rewrite <- app_assoc.
  - pose proof Ht as Hx. destruct fuel as [|fuel]; [cbn in Hfuel; lia|].
    apply text_at_cons in Hx as [Eb Hx]. apply text_at_cons in Hx as [_ Hx].
    rewrite (escape_loop _ _ _ _ _ _ Eb (simple_step _ _ _ _ _ _ He Ht)).
    apply (IH' src value); cbn in *; try done; try lia; [|by rewrite <- app_assoc].
    by rewrite <- Nat.add_assoc in Hx.
  - pose proof Ht as Hx. destruct fuel as [|fuel]; [cbn in Hfuel; lia|].
    apply text_at_cons in Hx as [Eb Hx]. do 3 apply text_at_cons in Hx as [_ Hx].
    rewrite (escape_loop _ _ _ _ _ _ Eb (hex_step _ _ _ _ _ _ _ _ Hh Hl Ht)).
    apply (IH' src value); cbn in *; try done; try lia; [|by rewrite <- app_assoc].
    by replace (o + 1 + 1 + 1 + 1)%nat with (o + 4)%nat in Hx by lia.
  - cbn [app] in Ht. rewrite <- app_assoc in Ht. cbn [app] in Ht.
    pose proof Ht as Hx. destruct fuel as [|fuel]; [cbn in Hfuel; lia|].
    apply text_at_cons in Hx as [Eb Hx]. do 2 apply text_at_cons in Hx as [_ Hx].
    apply text_at_app in Hx as [_ Hx]. apply text_at_cons in Hx as [_ Hx].
    rewrite (escape_loop _ _ _ _ _ _ Eb (unicode_step _ _ _ _ _ _ Hds Hlen Hc Ht)).
    cbn [length] in *. rewrite length_app in *. cbn [length] in *.
    apply (IH' src value); try done; try lia; [|by rewrite <- app_assoc].
    by replace (o + 1 + 1 + 1 + length ds + 1)%nat with (o + (4 + length ds))%nat in Hx by lia.
Qed.

End Str.

(** A string literal at the cursor. *)
Lemma string_lexes `{!Memx, !MemxLaws, !Hashify} self src value :
  input_ok (bytes self) (len self) -> scratch_pad self = [] -> str_body src value ->
  text_at (bytes self) (offset self) (quote :: src ++ [quote]) ->
  lexes self (length src + 2) (TokenKind.LitStr value).
Proof.
  intros Hin Hs Hbody Ht. pose proof Ht as Hq. apply text_at_cons in Hq as [E0 Ht'].
  assert (offset self + 1 + length src < len self)%nat as Hlen.
  { pose proof (text_at_app _ _ _ _ Ht') as [_ Hend]. apply text_at_cons in Hend as [Hend _].
    by apply (nonzero_lt self Hin _ quote Hend). }
  assert (exists k, k = S (length src)) as [k Hk] by eauto.
  apply (lexes_intro self _ _ (S k)); [done|lia|unfold loop_fuel; destruct Hin; lia|].
  cbn [lex_loop step]. unfold st_S0. rewrite (skip_whitespace_none _ _ E0) by done.
  cbn [mbind res_bind]. rewrite (bump_eq _ quote) by done. cbn [mbind res_bind].
  change (quote =? EOF) with false. unfold quote. byte_lits. cbn [Z.eqb Pos.eqb mbind res_bind].
  unfold set_offset, set_span_start. cbn [bytes len offset span_start module_id errors scratch_pad].
  rewrite Hs. rewrite (body_run _ _ Hin _ _ _ _ src value Hbody); [|lia|done].
  cbn. do 3 f_equal. lia.
Qed.

End LexerStr.

Module LexerLit.
Import Lexer LexerInv LexerStep LexerPunct LexerIdent.

(** The conversion of [lower_lit_int]. *)
Definition lower_lit_int_value (symbol : list Z) (radix : Radix) (is_positive : bool) : res Anyint.t :=
  digits ← match radix with
           | Hexadecimal | Binary | Octal => slice_from symbol 2
           | Decimal => Ret symbol
           end;
  value ← Anyint.parse_radix (base radix) digits;
  match value with
  | Some value => Ret (if is_positive then value else Anyint.neg value)
  | None => panic
  end.

(** ** Numerals *)

Definition radix_prefix (radix : Radix) : list Z :=
  match radix with
  | Binary => bytes_of "0b" | Octal => bytes_of "0o" | Hexadecimal => bytes_of "0x" | Decimal => []
  end.

Definition radix_class (radix : Radix) : Z -> bool :=
  match radix with
  | Binary => char_class.is_bin_digit_or_uscore
  | Octal => char_class.is_oct_digit_or_uscore
  | Hexadecimal => char_class.is_hex_digit_or_uscore
  | Decimal => char_class.is_digit_or_uscore
  end.

(** [symbol] is a literal of [radix]: the prefix, then digits and underscores,
    at least one of them a digit. *)
Definition is_literal (radix : Radix) (symbol : list Z) : Prop :=
  exists body, symbol = radix_prefix radix ++ body /\
    Forall (fun b => byte_ok b /\ radix_class radix b = true) body /\
    Exists (fun b => b <> byte "_") body.

Lemma radix_class_digit radix b :
  byte_ok b -> radix_class radix b = true ->
  match Anyint.digit_of_byte b with
  | Anyint.Digit d => 0 <= d < base radix
  | Anyint.Separator => b = 95
  | Anyint.Not_a_digit => False
  end.
Proof.
  intros Hb Hc.
  set (ok := fun b => match Anyint.digit_of_byte b with
    | Anyint.Digit d => (0 <=? d) && (d <? base radix) | Anyint.Separator => b =? 95 | Anyint.Not_a_digit => false end).
  assert (ok b = true) as Hok.
  { apply (class_test (radix_class radix)); [destruct radix; vm_compute; reflexivity|done|done]. }
  unfold ok in Hok. destruct (Anyint.digit_of_byte b); [lia|lia|done].
Qed.

Lemma numeral_total radix body acc :
  Forall (fun b => byte_ok b /\ radix_class radix b = true) body -> 0 <= acc ->
  exists z, AnyintText.numeral (base radix) body acc = Some z /\ 0 <= z.
Proof.
  intros Hbody. revert acc. induction Hbody as [|b body [Hb Hc] _ IH]; intros acc Hacc; [by exists acc|].
  cbn [AnyintText.numeral]. pose proof (radix_class_digit radix b Hb Hc) as Hd.
  destruct (Anyint.digit_of_byte b) as [d| |]; [|by apply IH|done].
  destruct (Z.leb_spec (base radix) d); [lia|]. apply IH. destruct radix; cbn in *; lia.
Qed.

Lemma lower_literal radix symbol is_positive :
  is_literal radix symbol ->
  exists r z, AnyintText.numeral (base radix) (drop (length (radix_prefix radix)) symbol) 0 = Some z /\
    lower_lit_int_value symbol radix is_positive = Ret r /\ Anyint.wf r /\
    Anyint.to_Z r = if is_positive then z else - z.
Proof.
  intros (body & -> & Hbody & _). rewrite drop_app_length.
  destruct (numeral_total radix body 0 Hbody) as (z & Hz & Hpos); [lia|].
  assert (exists r, Anyint.parse_radix (base radix) body = Ret (Some r) /\ AnyintArith.repr r z) as (r & Hr & Hw & Hv).
  { pose proof (AnyintText.parse_radix_loop_spec (base radix) body Anyint.ZERO) as Hp.
    change (Anyint.to_Z Anyint.ZERO) with 0 in Hp. rewrite Hz in Hp.
    unfold Anyint.parse_radix. replace (_ && _) with true by (by destruct radix).
    apply Hp; [destruct radix; cbn; lia|apply AnyintArith.wf_ZERO|done]. }
  exists (if is_positive then r else Anyint.neg r), z. split; [done|].
  pose proof (AnyintArith.neg_repr r Hw) as [Hnw Hnv].
  unfold lower_lit_int_value.
  replace (match radix with Decimal => Ret (radix_prefix radix ++ body) | _ => slice_from _ 2 end)
    with (Ret body) by by destruct radix.
  cbn [mbind res_bind]. rewrite Hr. cbn [mbind res_bind].
  destruct is_positive; split_and!; (done || congruence).
Qed.

(** ** The states that scan an integer *)

(** Every byte in [a..b] satisfies [p]. *)
Definition all_at (p : Z -> bool) (v : list Z) (a b : nat) : Prop :=
  forall i c, (a <= i < b)%nat -> v !! i = Some c -> p c = true.

Definition first_digit (self : Lexer) : Prop :=
  exists b, bytes self !! span_start self = Some b /\ is_ascii_digit b = true.

Definition after_prefix (self : Lexer) (letter : Z) (seen : bool) : Prop :=
  offset self = (span_start self + 2)%nat /\ bytes self !! span_start self = Some 48 /\
  bytes self !! S (span_start self) = Some letter /\ seen = false.

Definition num_inv (st : State) (self : Lexer) (seen : bool) : Prop :=
  match st with
  | State.IntZero => bytes self !! span_start self = Some 48 /\ offset self = S (span_start self)
  | State.IntBin => after_prefix self 98 seen
  | State.IntOct => after_prefix self 111 seen
  | State.IntHex => after_prefix self 120 seen
  | State.IntDec =>
      first_digit self /\ (span_start self < offset self)%nat /\
      all_at char_class.is_digit_or_uscore (bytes self) (span_start self) (offset self)
  | State.FloatDot1 =>
      first_digit self /\ (S (span_start self) < offset self)%nat /\
      all_at char_class.is_digit_or_uscore (bytes self) (span_start self) (offset self - 1)
  | _ => True
  end.

Definition lit_kind (kind : TokenKind) : Prop :=
  match kind with TokenKind.LitInt symbol radix => is_literal radix symbol | _ => True end.

Definition lit_post (f : flow) : Prop :=
  match f with
  | Break _ kind => lit_kind kind
  | Goto st self kind seen => num_inv st self seen /\ lit_kind kind
  end.

Definition any_fault (f : fault) : Prop := True.

Section Literals.
Context `{!Memx, !MemxLaws, !Hashify, !HashifyLaws}.

Definition lit_ok (f : Lexer -> TokenKind -> bool -> res flow) (st : State) : Prop :=
  forall self kind seen,
  input_ok (bytes self) (len self) -> crlf_only (bytes self) -> inv st self kind ->
  num_inv st self seen -> lit_kind kind ->
  wp (f self kind seen) any_fault lit_post.

Ltac lit_start :=
  intros self kind seen Hin Hcr [Ho Hk Ht Hs] Hnum Hlit; cbn in Hk, Ht, Hs, Hnum;
  repeat match goal with
    | H : ex _ |- _ => destruct H
    | H : _ /\ _ |- _ => destruct H
    end;
  match goal with |- wp ?m _ _ => let f := head_of m in unfold f end.

(** States that neither produce an integer nor enter a state that does. *)
Ltac lit_other := lit_start; repeat lex_wp; first [done | split; done | exact I | idtac].

Lemma Minus_lit : lit_ok st_Minus State.Minus. Proof. lit_other. Qed.
Lemma MinusPipe_lit : lit_ok st_MinusPipe State.MinusPipe. Proof. lit_other. Qed.
Lemma Plus_lit : lit_ok st_Plus State.Plus. Proof. lit_other. Qed.
Lemma PlusPipe_lit : lit_ok st_PlusPipe State.PlusPipe. Proof. lit_other. Qed.
Lemma Star_lit : lit_ok st_Star State.Star. Proof. lit_other. Qed.
Lemma StarPipe_lit : lit_ok st_StarPipe State.StarPipe. Proof. lit_other. Qed.
Lemma StarStar_lit : lit_ok st_StarStar State.StarStar. Proof. lit_other. Qed.
Lemma Slash_lit : lit_ok st_Slash State.Slash. Proof. lit_other. Qed.
Lemma Percent_lit : lit_ok st_Percent State.Percent. Proof. lit_other. Qed.
Lemma Caret_lit : lit_ok st_Caret State.Caret. Proof. lit_other. Qed.
Lemma Amp_lit : lit_ok st_Amp State.Amp. Proof. lit_other. Qed.
Lemma AmpAmp_lit : lit_ok st_AmpAmp State.AmpAmp. Proof. lit_other. Qed.
Lemma Pipe_lit : lit_ok st_Pipe State.Pipe. Proof. lit_other. Qed.
Lemma PipePipe_lit : lit_ok st_PipePipe State.PipePipe. Proof. lit_other. Qed.
Lemma Bang_lit : lit_ok st_Bang State.Bang. Proof. lit_other. Qed.
Lemma Tilde_lit : lit_ok st_Tilde State.Tilde. Proof. lit_other. Qed.
Lemma Eq_lit : lit_ok st_Eq State.Eq. Proof. lit_other. Qed.
Lemma Lt_lit : lit_ok st_Lt State.Lt. Proof. lit_other. Qed.
Lemma LtLt_lit : lit_ok st_LtLt State.LtLt. Proof. lit_other. Qed.
Lemma LtLtPipe_lit : lit_ok st_LtLtPipe State.LtLtPipe. Proof. lit_other. Qed.
Lemma LtLtPercent_lit : lit_ok st_LtLtPercent State.LtLtPercent. Proof. lit_other. Qed.
Lemma Gt_lit : lit_ok st_Gt State.Gt. Proof. lit_other. Qed.
Lemma GtGt_lit : lit_ok st_GtGt State.GtGt. Proof. lit_other. Qed.
Lemma GtGtPipe_lit : lit_ok st_GtGtPipe State.GtGtPipe. Proof. lit_other. Qed.
Lemma GtGtPercent_lit : lit_ok st_GtGtPercent State.GtGtPercent. Proof. lit_other. Qed.
Lemma DotDot_lit : lit_ok st_DotDot State.DotDot. Proof. lit_other. Qed.
Lemma Hash_lit : lit_ok st_Hash State.Hash. Proof. lit_other. Qed.
Lemma At_lit : lit_ok st_At State.At. Proof. lit_other. Qed.
Lemma Dollar_lit : lit_ok st_Dollar State.Dollar. Proof. lit_other. Qed.
Lemma Dot_lit : lit_ok st_Dot State.Dot. Proof. lit_other. Qed.
Lemma Underscore_lit : lit_ok st_Underscore State.Underscore. Proof. lit_other. Qed.
Lemma Backslash_lit : lit_ok st_Backslash State.Backslash. Proof. lit_other. Qed.
Lemma LineComment_lit : lit_ok st_LineComment State.LineComment. Proof. lit_other. Qed.
Lemma FloatDot2_lit : lit_ok st_FloatDot2 State.FloatDot2. Proof. lit_other. Qed.
Lemma FloatExp1_lit : lit_ok st_FloatExp1 State.FloatExp1. Proof. lit_other. Qed.
Lemma FloatExp2_lit : lit_ok st_FloatExp2 State.FloatExp2. Proof. lit_other. Qed.

(** Where any fault is tolerated, a call is its result. *)
Lemma wp_any {A} (m : res A) Q : (forall a, m = Ret a -> Q a) -> wp m any_fault Q.
Proof. destruct m; cbn; auto. done. Qed.

Ltac any_step :=
  match goal with
  | |- wp (_ ≫= _) _ _ => apply wp_bind, wp_any; intros ? ?
  | |- wp (let '(_, _) := ?x in _) _ _ => destruct x
  | |- wp (match ?x with _ => _ end) _ _ => destruct x
  | |- wp (Ret _) _ _ => apply wp_ret
  | |- wp ub _ _ => exact I
  | |- wp panic _ _ => exact I
  | |- wp (push_scratch _ _ _ _) _ _ => split; [exact I|assumption]
  | |- wp (invalid _) _ _ => exact I
  end.

Lemma abandon_lit s : wp (abandon_string s) any_fault lit_post.
Proof. unfold abandon_string. any_step. exact I. Qed.
#[local] Hint Resolve abandon_lit : core.

Lemma unicode_digits_lit fuel s codepoint :
  wp (unicode_digits fuel s codepoint) any_fault
    (fun r => match r with inl _ => True | inr f => lit_post f end).
Proof.
  revert s codepoint. induction fuel as [|fuel IH]; intros s codepoint; [exact I|].
  cbn [unicode_digits]. repeat first [apply IH|progress any_step]; try exact I.
  all: match goal with Ha : abandon_string ?s = Ret ?f |- _ => pose proof (abandon_lit s) as Hl; rewrite Ha in Hl; exact Hl end.
Qed.

Lemma EscapeStr_lit : lit_ok st_EscapeStr State.EscapeStr.
Proof.
  intros self kind seen Hin Hcr Hinv Hnum Hlit. unfold st_EscapeStr, escape_hex, escape_unicode.
  repeat any_step; auto.
  pose proof (unicode_digits_lit (loop_fuel l0) l0 0) as Hd.
  match goal with Ha : unicode_digits _ _ _ = Ret _ |- _ => rewrite Ha in Hd; exact Hd end.
Qed.

Lemma Str_lit : lit_ok st_Str State.Str.
Proof.
  intros self kind seen Hin Hcr Hinv Hnum Hlit. unfold st_Str. repeat any_step; auto.
  - destruct kind; try discriminate; [|by simplify_eq].
    unfold intern_str in *. destruct (utf8_valid _); by simplify_eq/=.
  - by split.
  - by split.
Qed.

Lemma keyword_no_lit key kind : assoc keyword_map key = Some kind -> lit_kind kind.
Proof.
  intros Hk%assoc_Some.
  assert (forallb (fun k => match k with TokenKind.LitInt _ _ => false | _ => true end) (map snd keyword_map) = true)
    as Hf by (vm_compute; reflexivity).
  rewrite forallb_forall in Hf. apply list_elem_of_In, Hf in Hk. by destruct kind.
Qed.

Lemma Ident_lit : lit_ok st_Ident State.Ident.
Proof.
  intros self kind seen Hin Hcr Hinv Hnum Hlit. unfold st_Ident, user_ident, int_type.
  apply wp_bind, wp_any; intros s _. destruct kind; try exact I. destruct kind; try solve [repeat any_step; exact I].
  apply wp_bind, wp_any; intros str _. rewrite candidate_assoc. destruct (assoc _ _) as [k|] eqn:Ek.
  { apply wp_ret. by eapply keyword_no_lit. }
  repeat any_step; exact I.
Qed.

(** *** The integer states *)

Lemma eat_digits_all fuel p self seen self' seen' :
  eat_digits fuel p self seen = Ret (self', seen') ->
  exists o, self' = set_offset self o /\ (offset self <= o)%nat /\
    all_at p (bytes self) (offset self) o /\
    (seen' = true -> seen = true \/
      exists i b, (offset self <= i < o)%nat /\ bytes self !! i = Some b /\ b <> 95).
Proof.
  revert self seen. induction fuel as [|fuel IH]; intros self seen; cbn [eat_digits]; [done|].
  unfold peek. destruct (bytes self !! offset self) as [b|] eqn:Eb; [|done]. cbn [mbind res_bind].
  destruct (p b) eqn:Epb.
  - intros (o & -> & Ho & Hall & Hseen)%IH. cbn in Ho, Hall, Hseen. exists o.
    split; [done|]. split; [lia|]. split.
    + intros i c Hi Hc. destruct (decide (i = offset self)) as [->|]; [congruence|].
      apply (Hall i); [lia|done].
    + intros Hs. destruct (Hseen Hs) as [Hb|(i & c & Hi & Hc)].
      * byte_lits. destruct (Z.eqb_spec b 95) as [|Hne]; cbn in Hb; [by left|].
        right. exists (offset self), b. split_and!; [lia|lia|done|done].
      * right. exists i, c. split; [lia|done].
  - intros [= <- <-]. exists (offset self). split; [by destruct self|]. split; [done|].
    split; [intros i c Hi; lia|by left].
Qed.

Lemma slice_all p v a b s :
  slice v a b = Ret s -> Forall byte_ok v -> all_at p v a b ->
  Forall (fun c => byte_ok c /\ p c = true) s.
Proof.
  unfold slice. destruct (decide _) as [Hd|]; [|done]. intros [= <-] Hv Hall.
  apply Forall_lookup. intros i c Hc. apply lookup_take_Some in Hc as [Hc Hi].
  rewrite lookup_drop in Hc. split; [by eapply Forall_lookup_1|]. apply (Hall (a + i)%nat); [lia|done].
Qed.

Lemma slice_lookup (v : list Z) a b s i c :
  slice v a b = Ret s -> (a <= i < b)%nat -> v !! i = Some c -> s !! (i - a)%nat = Some c.
Proof.
  unfold slice. destruct (decide _) as [Hd|]; [|done]. intros [= <-] Hi Hc.
  rewrite lookup_take_lt by lia. rewrite lookup_drop. by replace (a + (i - a))%nat with i by lia.
Qed.

Lemma slice_split (v : list Z) a m b s :
  slice v a b = Ret s -> (a <= m <= b)%nat ->
  exists s1 s2, s = s1 ++ s2 /\ slice v a m = Ret s1 /\ slice v m b = Ret s2 /\ length s1 = (m - a)%nat.
Proof.
  unfold slice. destruct (decide _) as [Hd|]; [|done]. intros [= <-] Hm.
  rewrite !decide_True by lia. eexists _, _. split_and!; [|done|done|].
  - rewrite <- (take_drop (m - a) (take (b - a) (drop a v))). f_equal.
    + rewrite take_take. f_equal. lia.
    + rewrite skipn_firstn_comm, drop_drop. f_equal; [lia|f_equal; lia].
  - rewrite length_take, length_drop. lia.
Qed.

Lemma prefix_slice (v : list Z) a c1 c2 :
  v !! a = Some c1 -> v !! S a = Some c2 -> slice v a (a + 2) = Ret [c1; c2].
Proof.
  intros H1' H2'. pose proof (lookup_lt_Some _ _ _ H2').
  rewrite slice_ok by lia. replace (a + 2 - a)%nat with 2%nat by lia.
  by rewrite (drop_S _ _ _ H1'), (drop_S _ _ _ H2').
Qed.

(** A prefixed literal: the two bytes of the prefix, then a run of the class
    with a digit in it. *)
Lemma prefixed_literal radix letter self seen o s :
  Forall byte_ok (bytes self) -> radix_prefix radix = [48; letter] ->
  after_prefix self letter seen -> (offset self <= o)%nat ->
  all_at (radix_class radix) (bytes self) (offset self) o ->
  (exists i b, (offset self <= i < o)%nat /\ bytes self !! i = Some b /\ b <> 95) ->
  slice (bytes self) (span_start self) o = Ret s -> is_literal radix s.
Proof.
  intros Hv Hp (Ho & H1' & H2' & _) Hoo Hall (i & b & Hi & Hb & Hne) Hs.
  destruct (slice_split _ _ (span_start self + 2) _ _ Hs) as (s1 & body & -> & E1 & E2 & _); [lia|].
  rewrite (prefix_slice _ _ _ _ H1' H2') in E1. injection E1 as <-. rewrite <- Ho in E2.
  exists body. rewrite Hp. split; [done|]. split; [by eapply slice_all|].
  apply Exists_exists. exists b. split; [|byte_lits; done].
  eapply list_elem_of_lookup_2. by apply (slice_lookup _ _ _ _ i _ E2).
Qed.

Lemma lit_int_ok s radix :
  (forall str, slice (bytes s) (span_start s) (offset s) = Ret str -> is_literal radix str) ->
  wp (lit_int s radix) any_fault lit_post.
Proof.
  intros Hlit. unfold lit_int. apply wp_bind, wp_any. intros str Hstr. unfold intern_str.
  destruct (utf8_valid str); [|exact I]. cbn. auto.
Qed.

(** The common shape of [IntBin], [IntOct] and [IntHex]. *)
Lemma prefixed_state radix letter self seen :
  input_ok (bytes self) (len self) -> radix_prefix radix = [48; letter] -> after_prefix self letter seen ->
  wp ('(self, seen_digit) ← eat_digits (loop_fuel self) (radix_class radix) self seen;
      if negb seen_digit then self ← diag_invalid_integer_literal self; invalid self
      else lit_int self radix) any_fault lit_post.
Proof.
  intros Hin Hp Hnum. apply wp_bind, wp_any. intros [s seen'] (o & -> & Ho & Hall & Hseen)%eat_digits_all.
  destruct seen'; cbn [negb]; [|repeat any_step; exact I].
  apply lit_int_ok. cbn. intros str Hstr.
  destruct Hin as (_ & _ & Hv & _). eapply (prefixed_literal radix letter self seen o); eauto.
  destruct Hseen as [->|]; [done| |done]. by destruct Hnum as (_ & _ & _ & ?).
Qed.

Lemma IntBin_lit : lit_ok st_IntBin State.IntBin.
Proof. intros self kind seen Hin _ _ Hnum _. by apply (prefixed_state Binary 98). Qed.
Lemma IntOct_lit : lit_ok st_IntOct State.IntOct.
Proof. intros self kind seen Hin _ _ Hnum _. by apply (prefixed_state Octal 111). Qed.
Lemma IntHex_lit : lit_ok st_IntHex State.IntHex.
Proof. intros self kind seen Hin _ _ Hnum _. by apply (prefixed_state Hexadecimal 120). Qed.

(** A decimal literal: a digit, then digits and underscores. *)
Lemma decimal_literal self o s :
  Forall byte_ok (bytes self) -> first_digit self -> (span_start self < o)%nat ->
  all_at char_class.is_digit_or_uscore (bytes self) (span_start self) o ->
  slice (bytes self) (span_start self) o = Ret s -> is_literal Decimal s.
Proof.
  intros Hv (b & Eb & Hb) Ho Hall Hs. exists s. split; [done|]. split; [by eapply slice_all|].
  apply Exists_exists. exists b. split.
  - eapply list_elem_of_lookup_2. apply (slice_lookup _ _ _ _ (span_start self) b Hs); [lia|done].
  - unfold is_ascii_digit in Hb. byte_lits. lia.
Qed.

Lemma all_at_snoc p v a b c :
  all_at p v a b -> v !! b = Some c -> p c = true -> all_at p v a (b + 1).
Proof.
  intros H' Hb Hc i d Hi Hd. destruct (decide (i = b)) as [->|]; [congruence|].
  apply (H' i d); [lia|done].
Qed.

Lemma all_at_join p v a b c : all_at p v a b -> all_at p v b c -> all_at p v a c.
Proof.
  intros H1' H2' i d Hi Hd. destruct (decide (i < b)%nat); [apply (H1' i)|apply (H2' i)]; (lia || done).
Qed.

Lemma all_at_one p v a c : v !! a = Some c -> p c = true -> all_at p v a (S a).
Proof. intros Ha Hc i d Hi Hd. replace i with a in Hd by lia. congruence. Qed.

Lemma digit_is_uscore_class b : byte_ok b -> is_ascii_digit b = true -> char_class.is_digit_or_uscore b = true.
Proof. apply class_test. vm_compute. reflexivity. Qed.

Lemma single_digit_literal b : is_ascii_digit b = true -> is_literal Decimal [b].
Proof.
  intros Hb. assert (byte_ok b) by (unfold is_ascii_digit in Hb; unfold byte_ok; lia).
  exists [b]. split; [done|]. split.
  - repeat constructor; [by destruct H3..|by apply digit_is_uscore_class].
  - constructor. unfold is_ascii_digit in Hb. byte_lits. lia.
Qed.

Lemma IntDec_lit : lit_ok st_IntDec State.IntDec.
Proof.
  intros self kind seen Hin Hcr [Ho _ _ _] (Hd & Hlt & Hall) Hlit. unfold st_IntDec.
  apply wp_bind, wp_any. intros [s seen'] (o & -> & Hoo & Hall' & _)%eat_digits_all.
  apply wp_bind, wp_any. intros chr Hchr.
  assert (all_at char_class.is_digit_or_uscore (bytes self) (span_start self) o) as Ha by by eapply all_at_join.
  destruct (chr =? byte "."); [|destruct (_ || _); [by split|]].
  { split; [|done]. cbn. split; [done|]. split; [lia|]. by replace (o + 1 - 1)%nat with o by lia. }
  apply wp_bind, wp_any. intros n _. destruct (n =? 1)%nat.
  - destruct Hd as (b & Eb & Hb). cbn [bytes span_start set_offset]. rewrite (get_idx_Some _ _ _ Eb).
    cbn [mbind res_bind]. byte_lits. destruct (int_digit_lookup b) as [-> ->]; [done|].
    cbn. by apply single_digit_literal.
  - apply lit_int_ok. cbn. intros str Hstr. destruct Hin as (_ & _ & Hv & _).
    eapply (decimal_literal self o); (done || lia).
Qed.

Lemma FloatDot1_lit : lit_ok st_FloatDot1 State.FloatDot1.
Proof.
  intros self kind seen Hin Hcr [Ho _ _ _] (Hd & Hlt & Hall) Hlit. unfold st_FloatDot1.
  apply wp_bind, wp_any. intros [chr s] Hb. unfold bump in Hb.
  destruct (bytes self !! offset self); [|done]. injection Hb as <- <-.
  destruct (_ || _); [repeat any_step; exact I|]. destruct (char_class.is_digit z); [by split|].
  destruct (z =? byte "."); [|unfold lit_float; repeat any_step; exact I].
  rewrite back_eq by (cbn; lia). cbn [mbind res_bind].
  apply lit_int_ok. cbn. intros str Hstr. destruct Hin as (_ & _ & Hv & _).
  replace (offset self + 1 - 2)%nat with (offset self - 1)%nat in Hstr by lia.
  eapply (decimal_literal self (offset self - 1)); (done || lia).
Qed.

Lemma IntZero_lit : lit_ok st_IntZero State.IntZero.
Proof.
  intros self kind seen Hin Hcr [Ho _ _ _] (E0 & Hoff) Hlit. unfold st_IntZero.
  destruct (input_lookup self Hin _ Ho) as (chr & Echr & Hchr).
  rewrite (bump_eq _ _ Echr). cbn [mbind res_bind]. byte_lits.
  assert (first_digit self) as Hd by (by exists 48).
  assert (all_at char_class.is_digit_or_uscore (bytes self) (span_start self) (offset self)) as Ha.
  { rewrite Hoff. by apply (all_at_one _ _ _ 48). }
  repeat match goal with |- context [if chr =? ?c then _ else _] => destruct (Z.eqb_spec chr c) as [->|] end;
    try (split; [|done]; cbn; unfold after_prefix; cbn; rewrite <- Hoff; split_and!; (done || lia)).
  - split; [|done]. cbn. split; [done|]. split; [lia|]. by replace (offset self + 1 - 1)%nat with (offset self) by lia.
  - destruct (_ || _); [by split|]. destruct (char_class.is_bin_digit_or_uscore chr) eqn:Ec.
    + split; [|done]. cbn. split; [done|]. split; [lia|]. eapply all_at_snoc; [done|done|].
      revert Ec. apply class_test; [vm_compute; reflexivity|done].
    + repeat any_step. cbn. by apply (single_digit_literal 48).
Qed.

Lemma S0_lit : lit_ok st_S0 State.S0.
Proof.
  intros self kind seen Hin Hcr [Ho _ _ _] _ Hlit. unfold st_S0.
  apply wp_bind, wp_skip_whitespace; [done|done|]. intros o Hoo.
  destruct (input_lookup self Hin o) as (chr & Echr & Hchr); [lia|].
  rewrite (bump_eq _ chr) by done. cbn [mbind res_bind]. unfold EOF, quote. byte_lits.
  repeat (match goal with |- wp (if chr =? ?c then _ else _) _ _ => destruct (chr =? c) eqn:? end;
    [first [exact I | split; [exact I|done] |
            match goal with H : (chr =? _) = true |- _ => apply Z.eqb_eq in H; subst end;
            split; [cbn; split; [done|lia]|done]]|]).
  destruct (negb _); [by split|]. destruct (negb (Z.land _ char_class.DIGIT =? 0)) eqn:Ed; [|repeat any_step; exact I].
  change (char_class.is_digit chr = true) in Ed. rewrite is_digit_spec in Ed by done.
  split; [|done]. cbn. split; [by exists chr|]. split; [lia|].
  rewrite Nat.add_1_r. apply (all_at_one _ _ _ chr); [done|]. by apply digit_is_uscore_class.
Qed.

Create HintDb lit_states.
#[local] Hint Resolve
  S0_lit Minus_lit MinusPipe_lit Plus_lit PlusPipe_lit Star_lit StarPipe_lit StarStar_lit
  Slash_lit Percent_lit Caret_lit Amp_lit Pipe_lit Bang_lit Tilde_lit Eq_lit Hash_lit At_lit
  Dollar_lit Lt_lit LtLt_lit LtLtPipe_lit LtLtPercent_lit Gt_lit GtGt_lit GtGtPipe_lit
  GtGtPercent_lit AmpAmp_lit PipePipe_lit Dot_lit DotDot_lit Underscore_lit Backslash_lit
  LineComment_lit Ident_lit Str_lit EscapeStr_lit IntZero_lit IntBin_lit IntOct_lit
  IntHex_lit IntDec_lit FloatDot1_lit FloatDot2_lit FloatExp1_lit FloatExp2_lit : lit_states.

Lemma step_lit st : lit_ok (step st) st.
Proof.
  intros self kind seen. destruct st; cbn [step]; revert self kind seen;
    match goal with |- forall s k b, _ -> _ -> inv ?st _ _ -> _ -> _ -> wp (@?m s k b) _ _ =>
      change (lit_ok m st) end; auto with lit_states.
Qed.

Lemma lex_loop_lit fuel st self kind seen :
  input_ok (bytes self) (len self) -> crlf_only (bytes self) -> inv st self kind ->
  num_inv st self seen -> lit_kind kind ->
  wp (lex_loop fuel st self kind seen) any_fault (fun r => lit_kind (snd r)).
Proof.
  revert st self kind seen.
  induction fuel as [|fuel IH]; intros st self kind seen Hin Hcr Hinv Hnum Hlit; [exact I|].
  cbn [lex_loop]. apply wp_bind, wp_any. intros f Hf.
  pose proof (step_lit st self kind seen Hin Hcr Hinv Hnum Hlit) as Hl.
  pose proof (step_spec st self kind seen Hin Hcr Hinv) as Hs. rewrite Hf in Hl, Hs. cbn in Hl, Hs.
  destruct f as [self' kind'|st' self' kind' seen']; [done|].
  destruct Hl as [Hnum' Hlit'], Hs as [(Hb & Hlen & _) _ Hinv' _ _].
  apply IH; rewrite ?Hb, ?Hlen; auto.
Qed.

Lemma next_lit self token self' :
  input_ok (bytes self) (len self) -> crlf_only (bytes self) ->
  (offset self <= len self)%nat -> scratch_pad self = [] ->
  next self = Ret (token, self') -> lit_kind (Token.kind token).
Proof.
  intros Hin Hcr Ho Hs Hn. unfold next in Hn.
  assert (inv State.S0 self TokenKind.Eof) as Hinv by by constructor.
  pose proof (lex_loop_lit (2 * loop_fuel self + 2) _ self _ false Hin Hcr Hinv I I) as Hl.
  destruct (lex_loop _ _ _ _ _) as [[s k]|]; [|done]. cbn in Hn, Hl.
  destruct (self_span s); [|done]. by injection Hn as <- <-.
Qed.

End Literals.
End LexerLit.
