(* ===== verification/LexerSpec.v ===== *)
(** * The lexer: the contract

    What the parser relies on: [next] neither reads out of bounds nor fails a
    check, always advances, and terminates; the token stream is ordered and
    ends with the end of file; operators, words, string and integer literals
    are recognised as the token table, the keyword table and the escapes
    prescribe.  Two theorems at the end record where the code departs from
    that intent.

    [LexerRun] carries the invariant of the lexer through a whole file. *)

From S2P Require Import Prelude Words Bytes Span Token Lexer LexerInv LexerStep Anyint AnyintSpec.
From S2P Require Import LexerIdent LexerLit.
From Stdlib Require Import Sorted.

#[local] Open Scope Z_scope.

Module LexerRun.
Import Lexer LexerInv LexerStep.

Definition before (t1 t2 : Token.Token) : Prop :=
  (Span.stop (Token.span t1) <= Span.start (Token.span t2))%nat.

(** A token occupies a non-empty region of the first [n] bytes; the end-of-file
    token, the region of the NUL byte where the text stops. *)
Definition placed (v : list Z) (n : nat) (t : Token.Token) : Prop :=
  (Span.start (Token.span t) < Span.stop (Token.span t))%nat /\
  if Token.is_eof t
  then v !! Span.start (Token.span t) = Some 0 /\
       Span.stop (Token.span t) = S (Span.start (Token.span t)) /\ (Span.start (Token.span t) <= n)%nat
  else (Span.stop (Token.span t) <= n)%nat.

(** Tokens in order, the last one and no other being the end of file, none of
    them [Invalid]. *)
Record stream_ok (v : list Z) (n : nat) (tokens : list Token.Token) : Prop := {
  so_last : exists init eof, tokens = init ++ [eof] /\ Token.is_eof eof = true /\
    Forall (fun t => Token.is_eof t = false) init;
  so_valid : Forall (fun t => Token.is_invalid t = false) tokens;
  so_placed : Forall (placed v n) tokens;
  so_sorted : StronglySorted before tokens;
}.

(** The tokens gathered so far, when the cursor is at [o]. *)
Record prefix_ok (v : list Z) (n o : nat) (tokens : list Token.Token) : Prop := {
  po_eof : Forall (fun t => Token.is_eof t = false) tokens;
  po_valid : Forall (fun t => Token.is_invalid t = false) tokens;
  po_placed : Forall (placed v n) tokens;
  po_sorted : StronglySorted before tokens;
  po_end : Forall (fun t => (Span.stop (Token.span t) <= o)%nat) tokens;
}.

Lemma StronglySorted_snoc {A} (R : A -> A -> Prop) l x :
  StronglySorted R l -> Forall (fun y => R y x) l -> StronglySorted R (l ++ [x]).
Proof.
  induction 1 as [|a l Hl IH Ha]; simpl; intros Hx; [by repeat constructor|].
  apply Forall_cons in Hx as [Hax Hx]. constructor; [auto|].
  apply Forall_app_2; [done|]. by constructor.
Qed.

Lemma prefix_weaken v n o o' tokens :
  (o <= o')%nat -> prefix_ok v n o tokens -> prefix_ok v n o' tokens.
Proof.
  intros Ho []. constructor; try done. eapply Forall_impl; [done|]. cbn. lia.
Qed.

Lemma before_all o tokens t :
  Forall (fun t => (Span.stop (Token.span t) <= o)%nat) tokens ->
  (o <= Span.start (Token.span t))%nat -> Forall (fun t' => before t' t) tokens.
Proof. intros H Ho. eapply Forall_impl; [done|]. unfold before. cbn. lia. Qed.

Section Run.
Context `{!Memx, !MemxLaws, !Hashify, !HashifyLaws}.

Lemma tokenize_loop_spec fuel self tokens :
  input_ok (bytes self) (len self) -> crlf_only (bytes self) ->
  (offset self <= len self)%nat -> scratch_pad self = [] ->
  prefix_ok (bytes self) (len self) (offset self) tokens ->
  (len self - offset self < fuel)%nat ->
  wp (tokenize_loop fuel self tokens) (lex_fault (bytes self))
    (fun r => stream_ok (bytes self) (len self) (fst r)).
Proof.
  revert self tokens. induction fuel as [|fuel IH]; intros self tokens Hin Hcr Ho Hs Hpre Hf; [lia|].
  cbn [tokenize_loop]. apply wp_bind. eapply wp_mono; [done| |by apply next_spec].
  intros [t self'] [(Hb & Hl & _) Hord Hne Hend Heof Hs' He]. cbn in *.
  assert (placed (bytes self) (len self) t) as Hplaced by done.
  pose proof (before_all _ _ t (po_end _ _ _ _ Hpre) Hord) as Hbef.
  destruct Hpre as [P1 P2 P3 P4 P5].
  destruct (Token.is_eof t) eqn:Eeof in |- *.
  - destruct (Token.is_invalid t) eqn:Einv; [by unfold Token.is_eof, Token.is_invalid in *; destruct (Token.kind t)|].
    simpl. constructor; [by exists tokens, t|..].
    + apply Forall_app_2; auto.
    + apply Forall_app_2; auto.
    + by apply StronglySorted_snoc.
  - rewrite Eeof in Heof. rewrite <- Hb, <- Hl. apply IH; rewrite ?Hb, ?Hl; auto; [lia| |lia].
    destruct (Token.is_invalid t) eqn:Einv.
    + apply (prefix_weaken _ _ (offset self)); [lia|done].
    + constructor; try (apply Forall_app_2; by auto).
      * by apply StronglySorted_snoc.
      * apply Forall_app_2; [|constructor; [lia|constructor]].
        apply (Forall_impl _ _ _ P5). intros x Hx. cbv beta in *. lia.
Qed.

Lemma tokenize_spec code m n :
  input_ok code n -> crlf_only code ->
  wp (tokenize code m) (lex_fault code) (fun r => stream_ok code n (fst r)).
Proof.
  intros Hin Hcr. pose proof Hin as (Hl & _). unfold tokenize, new.
  rewrite usize_sub_ok by lia. cbn [mbind res_bind]. apply wp_bind.
  replace (length code - 1)%nat with n by lia.
  set (self := mk code n 0 0 m [] []).
  eapply wp_mono; [done| |apply (tokenize_loop_spec (loop_fuel self) self [])].
  - by intros [tokens self'].
  - done.
  - done.
  - cbn. lia.
  - done.
  - constructor; constructor.
  - unfold loop_fuel. cbn. lia.
Qed.

End Run.
End LexerRun.

Module LexerSpec.
Import Lexer LexerInv LexerStep LexerRun LexerPunct LexerIdent LexerLit LexerStr.

(** A lexer between two tokens of an admissible source text: NUL-terminated,
    with carriage returns only before line feeds. *)
Definition ready (self : Lexer) : Prop :=
  input_ok (bytes self) (len self) /\ crlf_only (bytes self) /\
  (offset self <= len self)%nat /\ scratch_pad self = [].

(** ** Concrete inputs *)

Definition source (s : string) : list Z := bytes_of s ++ [0].
Definition lexer_of (s : string) : Lexer := mk (source s) (length (source s) - 1) 0 0 0 [] [].

Lemma crlf_free v : forallb (fun b => negb (b =? 13)) v = true -> crlf_only v.
Proof.
  rewrite forallb_forall. intros H i Hi. apply list_elem_of_lookup_2, list_elem_of_In, H in Hi. done.
Qed.

Lemma input_check v n :
  (length v =? S n)%nat && bool_decide (v !! n = Some 0) && forallb (fun b => (0 <=? b) && (b <? 256)) v
  && (Z.of_nat n + 1 <=? 0xfffffffe) = true -> input_ok v n.
Proof.
  intros H. rewrite !andb_true_iff, bool_decide_eq_true, Nat.eqb_eq, Z.leb_le, forallb_forall in H.
  destruct H as [[[Hl Hz] Hb] Hn]. split_and!; [done|done| |done].
  apply Forall_forall. intros b Hin. apply list_elem_of_In, Hb in Hin. unfold byte_ok. lia.
Qed.

Ltac concrete_ready := split_and!; [apply input_check; reflexivity|apply crlf_free; reflexivity|cbn; lia|reflexivity].

Definition example : string := "x *= 0x1F".
Lemma example_ready : ready (lexer_of example).
Proof. concrete_ready. Qed.

(** ** The cursor *)




Lemma no_escaped_ident v :
  forallb (fun b => negb (b =? 64)) v = true -> ~ has_escaped_ident v.
Proof.
  rewrite forallb_forall. intros H (i & Hi & _). apply list_elem_of_lookup_2, list_elem_of_In, H in Hi. done.
Qed.


(** ** Tokens *)

(** Where some operator of the token table is found at the cursor, [next]
    returns the longest one, with its exact span and without a diagnostic,
    unless the text starts a comment, a multi-line string, a directive, a float
    or an identifier.  ([StarEq] is not in the table: see below.) *)
Theorem lexer_longest_operator (M : Memx) (H : Hashify) self b0 b1 k0 :
  ready self ->
  bytes self !! offset self = Some b0 -> bytes self !! (offset self + 1)%nat = Some b1 ->
  starts_other b0 b1 = false ->
  In k0 operators -> matches_at (bytes self) (offset self) (TokenKind.kind_display k0) = true ->
  exists k, longest (bytes self) (offset self) k /\ lexes self (length (TokenKind.kind_display k)) k.
Proof. intros (Hin & _). by apply operator_lexes. Qed.

Lemma lexer_longest_operator_witness :
  exists k, longest (source ">>|= x") 0 k /\
    @lexes (lexer_of ">>|= x") memx_scalar hashify_assoc (length (TokenKind.kind_display k)) k.
Proof.
  apply (lexer_longest_operator memx_scalar hashify_assoc (lexer_of ">>|= x") 62 62 TokenKind.GtGt);
    [concrete_ready|reflexivity..|do 37 right; left; reflexivity|reflexivity].
Defined.

(** A word at the cursor becomes the keyword or type name it spells, else
    the integer type [u<n>]/[i<n>] when [1 <= n < 2^16] (an [Invalid] token with
    a diagnostic for any other width, however many digits it has), else the
    user identifier of exactly that text. *)
Theorem lexer_word (M : Memx) (H : Hashify) (HL : HashifyLaws) self name c :
  ready self -> word_at self name c -> is_word name = true -> char_class.is_ident_cont c = false ->
  word_lexes self (length name) (word_kind name).
Proof. intros (Hin & _) Hat Hw Hc. by apply (word_lexes_kind self name c). Qed.

Lemma lexer_word_witness :
  @word_lexes memx_scalar hashify_assoc (lexer_of "u4096 x") 5 (TokenKind.TyU 4096).
Proof.
  exact (lexer_word memx_scalar hashify_assoc hashify_assoc_laws (lexer_of "u4096 x") (bytes_of "u4096") 32
    ltac:(concrete_ready) ltac:(split; reflexivity) eq_refl eq_refl).
Defined.

(** Every keyword's displayed text lexes back to a token of its own tag. *)
Theorem lexer_keyword_roundtrip (M : Memx) (H : Hashify) (HL : HashifyLaws) self t c :
  ready self -> TokenTag.is_keyword t = true ->
  word_at self (TokenTag.display t) c -> char_class.is_ident_cont c = false ->
  exists k, TokenKind.tag k = t /\ word_lexes self (length (TokenTag.display t)) k.
Proof.
  intros (Hin & _) Ht Hat Hc. exists (word_kind (TokenTag.display t)).
  split; [by destruct t|]. apply (word_lexes_kind self _ c); [done|done|by destruct t|done].
Qed.

Lemma lexer_keyword_roundtrip_witness :
  exists k, TokenKind.tag k = TokenTag.KwReturn /\
    @word_lexes memx_scalar hashify_assoc (lexer_of "return;") 6 k.
Proof.
  exact (lexer_keyword_roundtrip memx_scalar hashify_assoc hashify_assoc_laws (lexer_of "return;")
    TokenTag.KwReturn 59 ltac:(concrete_ready) eq_refl ltac:(split; reflexivity) eq_refl).
Defined.

(** A string literal denotes its raw bytes and escapes: [\n \r \t \0],
    escaped quote and backslash, [\xHH] and [\u{...}] of a scalar value, encoded in
    UTF-8. *)
Theorem lexer_string_literal (M : Memx) (ML : MemxLaws) (H : Hashify) self src value :
  ready self -> str_body src value ->
  text_at (bytes self) (offset self) (quote :: src ++ [quote]) ->
  lexes self (length src + 2) (TokenKind.LitStr value).
Proof. intros (Hin & _ & _ & Hs) Hb Ht. by apply string_lexes. Qed.

(** The text [a\x41\n] between quotes, then a semicolon. *)
Definition str_source : list Z := [34; 97; 92; 120; 52; 49; 92; 110; 34; 59; 0].
Definition str_lexer : Lexer := mk str_source 10 0 0 0 [] [].

Lemma lexer_string_literal_witness :
  @lexes str_lexer memx_scalar hashify_assoc 9 (TokenKind.LitStr [97; 65; 10]).
Proof.
  apply (lexer_string_literal memx_scalar memx_scalar_laws hashify_assoc str_lexer
    [97; 92; 120; 52; 49; 92; 110] [97; 65; 10]).
  - concrete_ready.
  - apply body_raw; [repeat split; done|].
    apply (body_hex 52 49 4 1); [left; lia|left; lia|].
    apply (body_escape 110 10); [by left|]. apply body_nil.
  - intros i b Hi. do 9 (destruct i as [|i]; [exact Hi|]). done.
Defined.

(** Every integer literal that [next] returns has the shape of a numeral
    of its radix, so [lower_lit_int] never unwraps a [None] and gets the value
    of the digits, negated when asked to. *)
Theorem lexer_int_literal_lowers (M : Memx) (ML : MemxLaws) (H : Hashify) (HL : HashifyLaws)
    self token self' symbol radix is_positive :
  ready self -> next self = Ret (token, self') -> Token.kind token = TokenKind.LitInt symbol radix ->
  is_literal radix symbol /\
  exists r z, AnyintText.numeral (base radix) (drop (length (radix_prefix radix)) symbol) 0 = Some z /\
    lower_lit_int_value symbol radix is_positive = Ret r /\ Anyint.wf r /\
    Anyint.to_Z r = if is_positive then z else - z.
Proof.
  intros (Hin & Hcr & Ho & Hs) Hn Hk. pose proof (next_lit _ _ _ Hin Hcr Ho Hs Hn) as Hl.
  rewrite Hk in Hl. split; [done|]. by apply lower_literal.
Qed.

Lemma lexer_int_literal_lowers_witness :
  exists r z, AnyintText.numeral 16 (bytes_of "1f") 0 = Some z /\
    lower_lit_int_value (bytes_of "0x1f") Hexadecimal false = Ret r /\ Anyint.wf r /\ Anyint.to_Z r = - z.
Proof.
  exact (proj2 (lexer_int_literal_lowers memx_scalar memx_scalar_laws hashify_assoc hashify_assoc_laws
    (lexer_of "0x1f;") (Token.mk (TokenKind.LitInt (bytes_of "0x1f") Hexadecimal) (Span.mk 0 4))
    (mk (source "0x1f;") 5 4 0 0 [] []) (bytes_of "0x1f") Hexadecimal false
    ltac:(concrete_ready) eq_refl eq_refl)).
Defined.

(** ** Departures *)

Lemma eat_until_newline_stuck `{!Memx, !MemxLaws} fuel self :
  input_ok (bytes self) (len self) ->
  bytes self !! offset self = Some 13 -> bytes self !! S (offset self) <> Some 10 ->
  eat_until_newline_loop fuel self = diverge.
Proof.
  intros Hin Hcr Hnl. induction fuel as [|fuel IH]; [done|].
  cbn [eat_until_newline_loop]. pose proof (lookup_lt_Some _ _ _ Hcr). rewrite slice_from_ok by lia.
  cbn [mbind res_bind]. rewrite memchr_dbl_first, (drop_S _ _ _ Hcr). byte_lits.
  cbn [position Z.eqb Pos.eqb orb]. rewrite Nat.add_0_r, (get_idx_Some _ _ _ Hcr).
  cbn [mbind res_bind Z.eqb Pos.eqb]. rewrite Nat.add_1_r.
  assert (set_offset self (offset self) = self) as Hself by by destruct self.
  destruct (Nat.ltb_spec (S (offset self)) (len self)); [|cbn; by rewrite Hself].
  destruct (input_lookup self Hin (S (offset self))) as (c & Ec & _); [lia|].
  rewrite (get_idx_Some _ _ _ Ec). cbn [mbind res_bind].
  rewrite (proj2 (Z.eqb_neq c 10)) by congruence. by rewrite Hself.
Qed.

(** Inside a line comment, at a carriage return that no line feed follows,
    [eat_until_newline] loops forever: no number of iterations suffices. *)
Theorem lexer_lone_cr_diverges (M : Memx) (ML : MemxLaws) fuel self :
  input_ok (bytes self) (len self) ->
  bytes self !! offset self = Some 13 -> bytes self !! S (offset self) <> Some 10 ->
  eat_until_newline_loop fuel self = diverge.
Proof. apply eat_until_newline_stuck. Qed.

Lemma lexer_lone_cr_diverges_witness :
  @eat_until_newline memx_scalar (mk [47; 47; 13; 97; 0] 4 2 0 0 [] []) = diverge.
Proof.
  apply (lexer_lone_cr_diverges memx_scalar memx_scalar_laws);
    [apply input_check; reflexivity|reflexivity|discriminate].
Defined.

(** [*=] is in the token table and the parser expects it, but wherever it
    is found it lexes as [*], leaving the [=] to the next token. *)
Theorem lexer_star_eq_splits (M : Memx) (H : Hashify) self :
  ready self -> text_at (bytes self) (offset self) (TokenTag.display TokenTag.StarEq) ->
  lexes self 1 TokenKind.Star.
Proof.
  intros (Hin & _) Ht. apply text_at_cons in Ht as [E0 Ht]. apply text_at_cons in Ht as [E1 _].
  change (byte "*") with 42 in E0. change (byte "=") with 61 in E1.
  destruct (operator_lexes self 42 61 TokenKind.Star) as (k & (Hk & Hm & Hlong) & Hl); [done..| | |].
  - do 2 right. by left.
  - cbn. by rewrite E0.
  - replace k with TokenKind.Star in Hl; [done|].
    destruct (matches_first _ _ _ _ E0 Hk Hm) as [_ Hs].
    change (starting_with 42) with [TokenKind.Star; TokenKind.StarStar; TokenKind.StarPipe; TokenKind.StarPipeEq] in Hs.
    cbn in Hs. destruct_or?; subst; try done; cbn in Hm; rewrite E0 in Hm; cbn in Hm; by rewrite E1 in Hm.
Qed.

Lemma lexer_star_eq_splits_witness : @lexes (lexer_of "*= 2") memx_scalar hashify_assoc 1 TokenKind.Star.
Proof.
  apply (lexer_star_eq_splits memx_scalar hashify_assoc (lexer_of "*= 2")); [concrete_ready|].
  intros i b Hi. do 2 (destruct i as [|i]; [exact Hi|]). done.
Defined.

(** A comment on the last line of a text without a final newline is not
    skipped: its words are lexed as code. *)
Theorem lexer_comment_at_eof_is_code :
  match @tokenize memx_scalar hashify_assoc (source "// a") 0 with
  | Ret (tokens, _) => map Token.kind tokens = [TokenKind.Ident (bytes_of "a") User; TokenKind.Eof]
  | Fault _ => False
  end.
Proof. vm_compute. reflexivity. Qed.

End LexerSpec.
