(* ===== verification/Diagnostic.v ===== *)
(** * Diagnostics ([src/common/diagnostic.rs])

    The data the front end reports errors with, and its builder methods: a
    diagnostic has a message, labelled source positions kept in the order of
    their positions, and notes.  Rendering is not modelled.  The insertion of
    the [sorted_insert] crate is an interface: it adds one element. *)

From S2P Require Import Prelude Words Bytes Span.

#[local] Open Scope Z_scope.

(** ** The [sorted_insert] crate *)

Class SortedInsert := {
  sorted_insert_by : forall {A : Type}, list A -> A -> (A -> A -> bool) -> list A;
}.

(** It inserts the element somewhere and touches nothing else. *)
Class SortedInsertLaws `{!SortedInsert} := {
  sorted_insert_perm : forall {A : Type} (l : list A) (x : A) (f : A -> A -> bool),
    sorted_insert_by l x f ≡ₚ x :: l;
}.

(** An implementation: before the suffix of the elements that must come after. *)
Fixpoint insert_after {A} (l : list A) (x : A) (f : A -> A -> bool) : list A :=
  match l with
  | [] => [x]
  | a :: l => if f a x then a :: insert_after l x f else x :: a :: l
  end.
Definition insert_scan : SortedInsert := {| sorted_insert_by := @insert_after |}.

Lemma insert_scan_laws : @SortedInsertLaws insert_scan.
Proof.
  constructor. intros A l x f. cbn. induction l as [|a l IH]; cbn; [done|].
  destruct (f a x); [|done]. rewrite IH. by constructor.
Qed.

(** ** Positions across modules *)

Module DiagSpan.

Record DiagSpan : Set := mk { module : Z; span : Span.Span }.

(** [derive(PartialOrd)] on the span and on the pair: lexicographic. *)
Definition span_le (a b : Span.Span) : bool :=
  (Span.start_ a <? Span.start_ b) ||
  ((Span.start_ a =? Span.start_ b) && (Span.end_ a <=? Span.end_ b)).
Definition le (a b : DiagSpan) : bool :=
  (module a <? module b) || ((module a =? module b) && span_le (span a) (span b)).

(** [derive(PartialOrd)] on [Option]: [None] comes first. *)
Definition option_le (a b : option DiagSpan) : bool :=
  match a, b with
  | None, _ => true
  | Some _, None => false
  | Some a, Some b => le a b
  end.

End DiagSpan.

(** ** Labels and diagnostics *)

Inductive Severity : Set := Error | Warning | Note.
Inductive LabelType : Set := Primary | Secondary.

Module Label.

Record Label : Set := mk { ty : LabelType; message : list Z; span : option DiagSpan.DiagSpan }.

Definition new (ty : LabelType) : Label := mk ty [] None.
Definition primary : Label := new Primary.
Definition secondary : Label := new Secondary.
Definition with_message (self : Label) (message : list Z) : Label := mk (ty self) message (span self).
Definition with_span (self : Label) (span : DiagSpan.DiagSpan) : Label :=
  mk (ty self) (message self) (Some span).

End Label.

Module Diagnostic.

(** The [location] of debug builds is left out. *)
Record Diagnostic : Set := mk {
  severity : Severity;
  message : list Z;
  code : option (list Z);
  labels : list Label.Label;
  notes : list (list Z);
}.

Definition new (severity : Severity) : Diagnostic := mk severity [] None [] [].
Definition error : Diagnostic := new Error.
Definition warning : Diagnostic := new Warning.
Definition with_code (self : Diagnostic) (code : list Z) : Diagnostic :=
  mk (severity self) (message self) (Some code) (labels self) (notes self).
Definition with_message (self : Diagnostic) (message : list Z) : Diagnostic :=
  mk (severity self) message (code self) (labels self) (notes self).
Definition with_label `{!SortedInsert} (self : Diagnostic) (label : Label.Label) : Diagnostic :=
  mk (severity self) (message self) (code self)
    (sorted_insert_by (labels self) label
       (fun a b => DiagSpan.option_le (Label.span a) (Label.span b)))
    (notes self).
Definition with_note (self : Diagnostic) (note : list Z) : Diagnostic :=
  mk (severity self) (message self) (code self) (labels self) (notes self ++ [note]).

(** The order in which the parser keeps its errors: by first label. *)
Definition reported_before (a b : Diagnostic) : bool :=
  match head (labels a), head (labels b) with
  | Some a, Some b => DiagSpan.option_le (Label.span a) (Label.span b)
  | None, Some _ => false
  | _, _ => true
  end.

End Diagnostic.
