(* ===== verification/Render.v ===== *)
(** * Rendering of diagnostics ([src/common/diagnostic.rs])

    [DiagnosticWriter]: the text of a diagnostic, with the lines of source that
    its labels cover and a mark under each label.  The colours of the terminal are
    a parameter; the writer is the text that is written, so its errors, which
    the callers ignore, are left out, and so is the location of debug builds. *)

From S2P Require Import Prelude Words Bytes Span Diagnostic.
From stdpp Require Import sorting pretty.

#[local] Open Scope Z_scope.

(** ** Styles *)

Inductive Colour : Set := Red | Yellow | Cyan | White.
(** Whether colours are used, and a text in a (bold) colour ([owo_colors]). *)
Class Terminal := { use_color : bool; paint : Colour -> list Z -> list Z }.

Module Render.
Import Diagnostic Label DiagSpan.

Abbreviation DiagSpan := DiagSpan.DiagSpan.
Abbreviation Label := Label.Label.
Abbreviation Diagnostic := Diagnostic.Diagnostic.

Record DiagnosticFormatterStyles : Set := {
  header_error : Colour;
  header_warning : Colour;
  header_note : Colour;
  header_message : Colour;
  primary_label : Colour;
  secondary_label : Colour;
  border : Colour;
}.
Definition styles : DiagnosticFormatterStyles := {|
  header_error := Red;
  header_warning := Yellow;
  header_note := Cyan;
  header_message := White;
  primary_label := Red;
  secondary_label := Cyan;
  border := Cyan;
|}.
Definition header (severity : Severity) : Colour :=
  match severity with
  | Error => header_error styles
  | Warning => header_warning styles
  | Note => header_note styles
  end.
Definition severity_name (severity : Severity) : list Z :=
  match severity with
  | Error => bytes_of "error"
  | Warning => bytes_of "warning"
  | Note => bytes_of "note"
  end.

(** ** The order of labels *)

Definition then_cmp (a b : comparison) : comparison := match a with Eq => b | c => c end.
(** [derive(Ord)] on [DiagSpan] and [Span]. *)
Definition span_cmp (a b : DiagSpan) : comparison :=
  then_cmp (module a ?= module b)
    (then_cmp (Span.start_ (span a) ?= Span.start_ (span b)) (Span.end_ (span a) ?= Span.end_ (span b))).

(** A label with its position. *)
Definition Placed : Set := Label * DiagSpan.

Definition cmp_labels_for_render (a b : Placed) : comparison :=
  match ty a.1, ty b.1 with
  | Secondary, Secondary | Primary, Primary => span_cmp a.2 b.2
  | Primary, Secondary => match span_cmp a.2 b.2 with Gt => Gt | _ => Lt end
  | Secondary, Primary => match span_cmp a.2 b.2 with Lt => Lt | _ => Gt end
  end.

(** [sort_by]: stable. *)
Definition not_after {A} (cmp : A -> A -> comparison) (a b : A) : bool :=
  match cmp a b with Gt => false | _ => true end.
Definition sort_by {A} (cmp : A -> A -> comparison) (l : list A) : list A :=
  fold_left (fun sorted x => insert_after sorted x (not_after cmp)) l [].

Definition placed_labels (d : Diagnostic) : list Placed :=
  omap (fun l => match Label.span l with Some s => Some (l, s) | None => None end) (labels d).
Definition sorted_labels (d : Diagnostic) : list Placed := sort_by cmp_labels_for_render (placed_labels d).

(** ** Pieces of text *)

(** A module: its path and its text, when it has been read. *)
Record ModuleText : Set := { path : list Z; source : option (list Z) }.

Definition usize_to_string (n : nat) : list Z := bytes_of (pretty n).
Definition newline : list Z := [10].
Definition spaces (n : nat) : list Z := replicate n 32.

Fixpoint ilog10 (fuel n : nat) : nat :=
  match fuel with
  | O => 0
  | S fuel => if (n <? 10)%nat then 0 else S (ilog10 fuel (n / 10))
  end.
(** [checked_ilog10] has no value at zero. *)
Definition line_number_width (value : nat) : nat := ilog10 value value + 1.

(** [str::lines]: the last line ends at the end, a line feed may have a carriage
    return before it. *)
Definition trim_cr (line : list Z) : list Z :=
  match last line with Some 13 => removelast line | _ => line end.
Fixpoint lines_from (line s : list Z) : list (list Z) :=
  match s with
  | [] => match line with [] => [] | _ => [line] end
  | c :: s => if c =? 10 then trim_cr line :: lines_from [] s else lines_from (line ++ [c]) s
  end.
Definition lines (s : list Z) : list (list Z) := lines_from [] s.

(** The text of a line, from 1; the empty text for a line that is not there. *)
Definition line_text (content : list Z) (line : nat) : list Z := default [] (lines content !! (line - 1)%nat).

Definition caret (ty : LabelType) : Z := match ty with Primary => 94 | Secondary => 45 end.

Section Writer.
Context `{!Terminal, !Memx}.

Definition write_styled (text : list Z) (style : Colour) : list Z := if use_color then paint style text else text.
Definition write_line_number (line : nat) : list Z := write_styled (usize_to_string line) (border styles).
Definition write_gutter : list Z := write_styled (bytes_of " | ") (border styles).
Definition write_padding (len : nat) : list Z := spaces len.
Definition write_break : list Z := write_styled (bytes_of "...") (border styles) ++ newline.
Definition write_empty_gutter (padding : nat) : list Z :=
  write_padding padding ++ write_styled (bytes_of " |") (border styles) ++ newline.
Definition write_location_line (line col padding : nat) (filename : list Z) : list Z :=
  write_padding padding ++
  write_styled (bytes_of " --> " ++ filename ++ bytes_of ":" ++ usize_to_string line ++ bytes_of ":" ++
                usize_to_string col) (border styles) ++ newline.

Definition label_style (ty : LabelType) : Colour :=
  match ty with Primary => primary_label styles | Secondary => secondary_label styles end.
Definition marks (ty : LabelType) (len : nat) : list Z := write_styled (replicate len (caret ty)) (label_style ty).

Definition write_label (label : Label) (from_col len_col : nat) : list Z :=
  spaces from_col ++ marks (ty label) len_col ++
  match Label.message label with [] => newline | m => bytes_of " " ++ m ++ newline end.

Definition write_header (d : Diagnostic) : list Z :=
  write_styled
    (match code d with
     | None => severity_name (severity d)
     | Some code => severity_name (severity d) ++ bytes_of "[" ++ code ++ bytes_of "]"
     end) (header (severity d)) ++
  write_styled (bytes_of ": " ++ Diagnostic.message d) (header_message styles) ++ newline.

(** ** The labels with their lines and columns *)

Record RenderLabel : Set := {
  label : Label;
  at_ : DiagSpan;
  start_line : nat;
  start_col : nat;
  end_line : nat;
  end_col : nat;
}.

(** [source.get().unwrap()]. *)
Definition module_content (modules : list ModuleText) (at_ : DiagSpan) : res (list Z) :=
  m ← get_idx modules (Z.to_nat (module at_));
  match source m with Some s => Ret s | None => panic end.
Definition module_path (modules : list ModuleText) (m : Z) : res (list Z) :=
  m ← get_idx modules (Z.to_nat m); Ret (path m).

Definition render_label (modules : list ModuleText) (l : Placed) : res RenderLabel :=
  content ← module_content modules l.2;
  '(start_line, start_col) ← Span.start_line_col (span l.2) content;
  '(end_line, end_col) ← Span.end_line_col (span l.2) content;
  Ret {| label := l.1; at_ := l.2; start_line := start_line; start_col := start_col;
         end_line := end_line; end_col := end_col |}.

Fixpoint render_labels (modules : list ModuleText) (labels : list Placed) : res (list RenderLabel) :=
  match labels with
  | [] => Ret []
  | l :: labels => l ← render_label modules l; labels ← render_labels modules labels; Ret (l :: labels)
  end.

Definition max_line_number (labels : list RenderLabel) : nat :=
  fold_left (fun m l => (m `max` (start_line l `max` end_line l))%nat) labels 1%nat.

(** ** Lines and marks *)

(** A line of source, unless it is the one written last; a gap of more than five
    lines is marked. *)
Definition write_source_line (padding : nat) (content : list Z) (current : option nat) (line : nat)
    : res (list Z * option nat) :=
  let gap := match current with
             | Some current => if (5 <? line - current)%nat then write_break else []
             | None => []
             end in
  if bool_decide (current = Some line) then Ret (gap, current)
  else
    rest ← usize_sub padding (line_number_width line);
    Ret (gap ++ write_line_number line ++ write_padding rest ++ write_gutter ++ line_text content line ++ newline,
         Some line).

(** The marks of several labels of one line, with the message of the last. *)
Fixpoint underlines (group : list RenderLabel) (cur_col : nat) : list Z :=
  match group with
  | [] => []
  | l :: group =>
      let from_col := start_col l in
      let len := ((end_col l - start_col l) `max` 1)%nat in
      (if (cur_col <? from_col)%nat then spaces (from_col - cur_col) else []) ++
      marks (ty (label l)) len ++
      (match group, Label.message (label l) with
       | [], (_ :: _) as m => bytes_of " " ++ m
       | _, _ => []
       end) ++
      underlines group (from_col + len)
  end.

(** The messages of the others, a row each. *)
Fixpoint other_messages (padding : nat) (group : list RenderLabel) : list Z :=
  match group with
  | [] | [_] => []
  | l :: group =>
      match Label.message (label l) with
      | [] => []
      | m => write_padding padding ++ write_gutter ++ spaces (start_col l) ++
             write_styled m (label_style (ty (label l))) ++ newline
      end ++ other_messages padding group
  end.

Definition write_group (padding : nat) (content : list Z) (group : list RenderLabel) (line : nat)
    (current : option nat) : res (list Z * option nat) :=
  '(text, current) ← write_source_line padding content current line;
  Ret (text ++ write_padding padding ++ write_gutter ++ underlines group 0 ++ newline ++
       other_messages padding group, current).

(** The columns of a label in one of its lines, and how many. *)
Definition label_columns (l : RenderLabel) (line line_len : nat) : nat * nat :=
  if (start_line l =? end_line l)%nat then (start_col l, (end_col l - start_col l)%nat)
  else if (line =? start_line l)%nat then (start_col l, (line_len - start_col l)%nat)
  else if (line =? end_line l)%nat then (0%nat, (end_col l `min` line_len)%nat)
  else (0%nat, line_len).

Fixpoint write_label_lines (padding : nat) (content : list Z) (l : RenderLabel) (lines : list nat)
    (current : option nat) : res (list Z * option nat) :=
  match lines with
  | [] => Ret ([], current)
  | line :: lines =>
      '(text, current) ← write_source_line padding content current line;
      let '(from_col, len) := label_columns l line (length (line_text content line)) in
      '(rest, current) ← write_label_lines padding content l lines current;
      Ret (text ++ write_padding padding ++ write_gutter ++ write_label (label l) from_col len ++ rest, current)
  end.

Definition write_single (padding : nat) (content : list Z) (l : RenderLabel) (current : option nat)
    : res (list Z * option nat) :=
  write_label_lines padding content l (seq (start_line l) (S (end_line l) - start_line l)) current.

(** The labels that follow on the same single line, and the rest. *)
Definition on_line (m : Z) (line : nat) (l : RenderLabel) : bool :=
  (module (at_ l) =? m) && (start_line l =? line)%nat && (end_line l =? line)%nat.
Fixpoint split_group (f : RenderLabel -> bool) (labels : list RenderLabel) : list RenderLabel * list RenderLabel :=
  match labels with
  | [] => ([], [])
  | l :: labels => if f l then let '(group, rest) := split_group f labels in (l :: group, rest) else ([], l :: labels)
  end.

(** A label of another module than the one before gets a location of its own. *)
Definition enter_module (modules : list ModuleText) (padding : nat) (l : RenderLabel)
    (current_module : option Z) (current_line : option nat) : res (list Z * option nat) :=
  match current_module with
  | None => Ret ([], None)
  | Some m =>
      if m =? module (at_ l) then Ret ([], current_line)
      else
        filename ← module_path modules (module (at_ l));
        Ret (write_empty_gutter padding ++
             write_location_line (start_line l) (start_col l + 1) padding filename ++
             write_empty_gutter padding, None)
  end.

(** The loop over the labels, from a module and the line written last. *)
Fixpoint write_labels (fuel : nat) (modules : list ModuleText) (padding : nat) (labels : list RenderLabel)
    (current_module : option Z) (current_line : option nat) : res (list Z) :=
  match labels with
  | [] => Ret []
  | l :: labels =>
      match fuel with
      | O => diverge
      | S fuel =>
          content ← module_content modules (at_ l);
          '(entered, current_line) ← enter_module modules padding l current_module current_line;
          let '(same, rest) :=
            if (start_line l =? end_line l)%nat then split_group (on_line (module (at_ l)) (start_line l)) labels
            else ([], labels) in
          '(text, current_line) ←
            match same with
            | [] => write_single padding content l current_line
            | _ => write_group padding content (l :: same) (start_line l) current_line
            end;
          text_rest ← write_labels fuel modules padding rest (Some (module (at_ l))) current_line;
          Ret (entered ++ text ++ text_rest)
      end
  end.

Definition write_notes (padding : nat) (notes : list (list Z)) : list Z :=
  match notes with
  | [] => []
  | _ =>
      write_empty_gutter padding ++
      concat (map (fun note =>
        write_padding padding ++ write_styled (bytes_of " = ") (border styles) ++
        write_styled (bytes_of "note") (header_message styles) ++ bytes_of ": " ++ note ++ newline) notes)
  end.

(** The label whose position heads the text: the first primary one, or the first. *)
Definition location_label (first : RenderLabel) (rest : list RenderLabel) : RenderLabel :=
  default first (find (fun l => match ty (label l) with Primary => true | Secondary => false end) (first :: rest)).

Definition write (modules : list ModuleText) (d : Diagnostic) : res (list Z) :=
  rendered ← render_labels modules (sorted_labels d);
  match rendered with
  | [] => Ret (write_header d)
  | first :: rest =>
      let padding := line_number_width (max_line_number rendered) in
      let loc := location_label first rest in
      filename ← module_path modules (module (at_ loc));
      text ← write_labels (length rendered) modules padding rendered None None;
      Ret (write_header d ++
           write_location_line (start_line loc) (start_col loc + 1) padding filename ++
           write_empty_gutter padding ++ text ++ write_notes padding (notes d))
  end.
End Writer.


(** ** The order of the labels *)

Lemma span_cmp_sym a b : span_cmp b a = CompOpp (span_cmp a b).
Proof.
  unfold span_cmp, then_cmp. rewrite (Z.compare_antisym (DiagSpan.module a)).
  rewrite (Z.compare_antisym (Span.start_ (DiagSpan.span a))), (Z.compare_antisym (Span.end_ (DiagSpan.span a))).
  by repeat case_match.
Qed.
Lemma span_cmp_eq a b : span_cmp a b = Eq -> a = b.
Proof.
  destruct a as [m [x y]], b as [m' [x' y']]. unfold span_cmp, then_cmp. simpl.
  destruct (Z.compare_spec m m'), (Z.compare_spec x x'), (Z.compare_spec y y'); by intros; subst.
Qed.
Lemma span_cmp_lt a b : span_cmp a b = Lt <->
  DiagSpan.module a < DiagSpan.module b \/ DiagSpan.module a = DiagSpan.module b /\
  (Span.start_ (DiagSpan.span a) < Span.start_ (DiagSpan.span b) \/
   Span.start_ (DiagSpan.span a) = Span.start_ (DiagSpan.span b) /\
   Span.end_ (DiagSpan.span a) < Span.end_ (DiagSpan.span b)).
Proof.
  unfold span_cmp, then_cmp.
  destruct (Z.compare_spec (DiagSpan.module a) (DiagSpan.module b)),
    (Z.compare_spec (Span.start_ (DiagSpan.span a)) (Span.start_ (DiagSpan.span b))),
    (Z.compare_spec (Span.end_ (DiagSpan.span a)) (Span.end_ (DiagSpan.span b))); split; intros ?; first [done|lia|exfalso; lia].
Qed.
Lemma span_cmp_trans o a b c : span_cmp a b = o -> span_cmp b c = o -> span_cmp a c = o.
Proof.
  assert (forall a b c, span_cmp a b = Lt -> span_cmp b c = Lt -> span_cmp a c = Lt) as Hlt
    by (intros a0 b0 c0; rewrite !span_cmp_lt; lia).
  destruct o; intros H1 H2.
  - by apply span_cmp_eq in H1 as ->.
  - by eapply Hlt.
  - rewrite span_cmp_sym in H1, H2 |- *. rewrite (Hlt c b a); [done|..].
    + by destruct (span_cmp c b).
    + by destruct (span_cmp b a).
Qed.

Lemma cmp_labels_sym a b : cmp_labels_for_render b a = CompOpp (cmp_labels_for_render a b).
Proof.
  unfold cmp_labels_for_render. rewrite (span_cmp_sym a.2 b.2).
  destruct (ty a.1), (ty b.1), (span_cmp a.2 b.2); done.
Qed.
#[local] Existing Instance Span.Span_eq_dec.
#[export] Instance LabelType_eq_dec : EqDecision LabelType.
Proof. solve_decision. Defined.
#[export] Instance DiagSpan_eq_dec : EqDecision DiagSpan.
Proof. solve_decision. Defined.
Definition place (a : Placed) : LabelType * DiagSpan := (ty a.1, a.2).
Lemma cmp_labels_eq a b : cmp_labels_for_render a b = Eq <-> place a = place b.
Proof.
  unfold cmp_labels_for_render, place. split.
  - intros H. destruct (ty a.1), (ty b.1), (span_cmp a.2 b.2) eqn:E; try done; by apply span_cmp_eq in E as ->.
  - intros [= -> ->]. unfold span_cmp, then_cmp. rewrite !Z.compare_refl. by destruct (ty b.1).
Qed.
(** By position; at the same position a primary label comes first. *)
Lemma cmp_labels_lex a b : cmp_labels_for_render a b =
  then_cmp (span_cmp a.2 b.2)
    (match ty a.1, ty b.1 with Primary, Secondary => Lt | Secondary, Primary => Gt | _, _ => Eq end).
Proof. unfold cmp_labels_for_render. by destruct (ty a.1), (ty b.1), (span_cmp a.2 b.2). Qed.
Lemma not_after_trans a b c : not_after cmp_labels_for_render a b = true -> not_after cmp_labels_for_render b c = true ->
  not_after cmp_labels_for_render a c = true.
Proof.
  unfold not_after. rewrite !cmp_labels_lex.
  destruct (span_cmp a.2 b.2) eqn:E1; [| |done]; destruct (span_cmp b.2 c.2) eqn:E2; try done.
  - apply span_cmp_eq in E1. rewrite E1, E2. by destruct (ty a.1), (ty b.1), (ty c.1).
  - apply span_cmp_eq in E1. by rewrite E1, E2.
  - apply span_cmp_eq in E2. by rewrite <- E2, E1.
  - by rewrite (span_cmp_trans _ _ _ _ E1 E2).
Qed.

(** Inserting into a sorted list. *)
Lemma filter_none {A} (P : A -> Prop) `{forall x, Decision (P x)} l : (forall a, a ∈ l -> ~ P a) -> filter P l = [].
Proof.
  induction l as [|a l IH]; intros Ha; [done|]. rewrite filter_cons, decide_False by (apply Ha; left).
  apply IH. intros b Hb. apply Ha. by right.
Qed.
Lemma sorted_impl {A} (R R' : A -> A -> Prop) l : (forall a b, R a b -> R' a b) -> StronglySorted R l -> StronglySorted R' l.
Proof. intros Hr. induction 1 as [|a l _ IH Ha]; constructor; [done|]. eapply Forall_impl; [exact Ha|]. apply Hr. Qed.
Section Sorting.
Context {A : Type} (cmp : A -> A -> comparison).
Hypothesis cmp_sym : forall a b, cmp b a = CompOpp (cmp a b).
Hypothesis cmp_trans : forall a b c, not_after cmp a b = true -> not_after cmp b c = true -> not_after cmp a c = true.
Abbreviation le a b := (not_after cmp a b = true).

Lemma insert_sorted l x : StronglySorted (fun a b => le a b) l -> StronglySorted (fun a b => le a b) (insert_after l x (not_after cmp)).
Proof.
  induction 1 as [|a l Hs IH Ha]; simpl; [repeat constructor|].
  destruct (not_after cmp a x) eqn:E.
  - constructor; [done|]. pose proof (@sorted_insert_perm insert_scan insert_scan_laws A l x (not_after cmp)) as Hp.
    cbn in Hp. rewrite Hp. by constructor.
  - assert (le x a) as Hx by (revert E; unfold not_after; rewrite (cmp_sym a x); by destruct (cmp a x)).
    constructor; [by constructor|]. constructor; [done|]. eapply Forall_impl; [exact Ha|]. intros b. by apply cmp_trans.
Qed.
(** What is equal to [k] keeps its order. *)
Lemma insert_stable l x k : StronglySorted (fun a b => le a b) l ->
  filter (fun a => cmp a k = Eq) (insert_after l x (not_after cmp)) = filter (fun a => cmp a k = Eq) (l ++ [x]).
Proof.
  induction 1 as [|a l Hs IH Ha]; simpl; [done|].
  destruct (not_after cmp a x) eqn:E; [by rewrite !filter_cons, IH|].
  rewrite (filter_app _ (a :: l) [x]). rewrite (filter_cons _ x). destruct (decide (cmp x k = Eq)) as [Hx|Hx].
  - assert (filter (fun a => cmp a k = Eq) (a :: l) = []) as ->.
    { apply filter_none. intros b Hb Hk. assert (le a b) as Hab.
      { apply elem_of_cons in Hb as [->|Hb]; [unfold not_after; pose proof (cmp_sym a a); by destruct (cmp a a)|].
        by apply (proj1 (Forall_forall _ _) Ha). }
      assert (le b x) as Hbx.
      { apply (cmp_trans _ k); unfold not_after; [by rewrite Hk|]. by rewrite (cmp_sym x k), Hx. }
      by rewrite (cmp_trans _ _ _ Hab Hbx) in E. }
    rewrite filter_cons, decide_True by done. done.
  - rewrite (filter_cons _ x []), decide_False by done. by rewrite app_nil_r.
Qed.

Lemma fold_sorted l sorted : StronglySorted (fun a b => le a b) sorted ->
  let r := fold_left (fun sorted x => insert_after sorted x (not_after cmp)) l sorted in
  r ≡ₚ sorted ++ l /\ StronglySorted (fun a b => le a b) r /\
  forall k, filter (fun a => cmp a k = Eq) r = filter (fun a => cmp a k = Eq) (sorted ++ l).
Proof.
  revert sorted. induction l as [|x l IH]; simpl; intros sorted Hs; [by rewrite app_nil_r|].
  destruct (IH _ (insert_sorted _ x Hs)) as (Hp & Hs' & Hf). split_and!; [|done|].
  - rewrite Hp, (@sorted_insert_perm insert_scan insert_scan_laws). simpl. by rewrite Permutation_middle.
  - intros k. rewrite Hf, (filter_app _ _ l), insert_stable, <- filter_app, <- (assoc_L (++)) by done. done.
Qed.
End Sorting.

Lemma sorted_labels_perm d : sorted_labels d ≡ₚ placed_labels d.
Proof. by destruct (fold_sorted _ cmp_labels_sym not_after_trans (placed_labels d) []) as (Hp & _); [constructor|]. Qed.

(** C29: The labels are drawn by position, a primary label before the secondary ones
    at its place; none is lost, and labels of one type at one place stay in the
    order in which they were added. *)
Theorem labels_in_order d :
  sorted_labels d ≡ₚ placed_labels d /\
  StronglySorted (fun a b => span_cmp a.2 b.2 = Lt \/ a.2 = b.2 /\ (ty a.1 = Primary \/ ty b.1 = Secondary))
    (sorted_labels d) /\
  forall k, filter (fun a => place a = k) (sorted_labels d) = filter (fun a => place a = k) (placed_labels d).
Proof.
  destruct (fold_sorted _ cmp_labels_sym not_after_trans (placed_labels d) []) as (Hp & Hs & Hf); [constructor|].
  split_and!; [done| |].
  - eapply sorted_impl; [|exact Hs]. intros a b. unfold not_after. rewrite cmp_labels_lex.
    destruct (span_cmp a.2 b.2) eqn:E; [apply span_cmp_eq in E|by left|discriminate].
    destruct (ty a.1), (ty b.1); naive_solver.
  - intros [t at_]. pose proof (Hf (Label.mk t [] None, at_)) as E. cbn [app] in E.
    assert (forall l : list Placed, filter (fun a => place a = (t, at_)) l =
      filter (fun a => cmp_labels_for_render a (Label.mk t [] None, at_) = Eq) l) as Hk.
    { intros l. apply list_filter_iff. intros a. by rewrite cmp_labels_eq. }
    by rewrite !Hk.
Qed.

(** ** What is written *)

Lemma ilog10_mono fuel fuel' n m : (n <= m)%nat -> (n <= fuel)%nat -> (m <= fuel')%nat -> (ilog10 fuel n <= ilog10 fuel' m)%nat.
Proof.
  revert fuel' n m. induction fuel as [|fuel IH]; intros fuel' n m Hnm Hn Hm; cbn [ilog10]; [lia|].
  destruct (Nat.ltb_spec n 10); [lia|]. destruct fuel' as [|fuel']; [lia|]. cbn [ilog10].
  destruct (Nat.ltb_spec m 10); [lia|].
  pose proof (Nat.Div0.div_le_mono n m 10 Hnm). pose proof (Nat.div_lt n 10). pose proof (Nat.div_lt m 10).
  apply le_n_S, IH; lia.
Qed.
Lemma width_mono n m : (n <= m)%nat -> (line_number_width n <= line_number_width m)%nat.
Proof. intros. unfold line_number_width. apply Nat.add_le_mono_r. by apply ilog10_mono. Qed.

(** A number is as wide as [line_number_width] says. *)
Lemma ilog10_irrel f1 f2 n : (n <= f1)%nat -> (n <= f2)%nat -> ilog10 f1 n = ilog10 f2 n.
Proof. intros. apply Nat.le_antisymm; by apply ilog10_mono. Qed.
Lemma ilog10_step n : (10 <= n)%nat -> ilog10 n n = S (ilog10 (n / 10) (n / 10)).
Proof.
  intros. destruct n as [|n]; [lia|]. cbn [ilog10]. destruct (Nat.ltb_spec (S n) 10); [lia|]. f_equal.
  pose proof (Nat.div_lt (S n) 10). apply ilog10_irrel; lia.
Qed.
Lemma pretty_N_go_length x s : (0 < x)%N ->
  String.length (pretty_N_go x s) = (ilog10 (N.to_nat x) (N.to_nat x) + 1 + String.length s)%nat.
Proof.
  revert s. induction (N.lt_wf_0 x) as [x _ IH]. intros s Hx. rewrite pretty_N_go_step by done.
  destruct (decide (x < 10)%N) as [Hs|Hs].
  - rewrite N.div_small, pretty_N_go_0 by done. simpl.
    assert (ilog10 (N.to_nat x) (N.to_nat x) = 0%nat) as ->; [|done].
    destruct (N.to_nat x) eqn:E; [done|]. cbn [ilog10]. by rewrite (proj2 (Nat.ltb_lt _ _)) by lia.
  - rewrite IH; [|by apply N.div_lt|apply N.div_str_pos; lia].
    rewrite (ilog10_step (N.to_nat x)), N2Nat.inj_div by lia. simpl. lia.
Qed.
Lemma length_bytes_of s : length (bytes_of s) = String.length s.
Proof. unfold bytes_of. rewrite length_map. induction s; simpl; congruence. Qed.
Lemma number_width n : length (usize_to_string n) = line_number_width n.
Proof.
  unfold usize_to_string, line_number_width. rewrite length_bytes_of. unfold pretty, pretty_nat, pretty, pretty_N.
  case_decide as E; [by replace n with 0%nat by lia|]. rewrite pretty_N_go_length by lia. rewrite Nat2N.id. simpl. lia.
Qed.

Section Written.
Context `{!Terminal, !Memx, !MemxLaws}.

(** A text with a row in it. *)
Definition shows (text row : list Z) : Prop := exists a b, text = a ++ row ++ b.
Lemma shows_app_l text text' row : shows text row -> shows (text ++ text') row.
Proof. intros (a & b & ->). exists a, (b ++ text'). by rewrite <- !(assoc_L (++)). Qed.
Lemma shows_app_r text text' row : shows text' row -> shows (text ++ text') row.
Proof. intros (a & b & ->). exists (text ++ a), b. by rewrite <- !(assoc_L (++)). Qed.
Lemma shows_refl a row b : shows (a ++ row ++ b) row.
Proof. by exists a, b. Qed.

(** A line of source: its number, padded, and its text. *)
Definition source_row (padding : nat) (content : list Z) (line : nat) : list Z :=
  write_line_number line ++ write_padding (padding - line_number_width line) ++ write_gutter ++
  line_text content line ++ newline.
Definition up_to_date (padding : nat) (content pre : list Z) (current : option nat) : Prop :=
  forall line, current = Some line -> shows pre (source_row padding content line).

Lemma up_to_date_app padding content pre t current :
  up_to_date padding content pre current -> up_to_date padding content (pre ++ t) current.
Proof. intros Hu line E. by apply shows_app_l, Hu. Qed.

Lemma write_source_line_shows padding content current line : (line_number_width line <= padding)%nat ->
  exists t, write_source_line padding content current line = Ret (t, Some line) /\
    forall pre, up_to_date padding content pre current -> shows (pre ++ t) (source_row padding content line).
Proof.
  intros Hw. unfold write_source_line. set (gap := match current with Some c => _ | None => _ end).
  case_bool_decide as E.
  - exists gap. split; [by rewrite E|]. intros pre Hu. by apply shows_app_l, Hu.
  - rewrite usize_sub_ok by done. eexists. split; [done|]. intros pre _.
    exists (pre ++ gap), []. unfold source_row. by rewrite app_nil_r, <- !(assoc_L (++)).
Qed.

Lemma write_label_lines_shows padding content l lines current :
  Forall (fun line => line_number_width line <= padding)%nat lines ->
  exists t current', write_label_lines padding content l lines current = Ret (t, current') /\
    forall pre, up_to_date padding content pre current ->
      up_to_date padding content (pre ++ t) current' /\
      Forall (fun line => shows (pre ++ t) (source_row padding content line)) lines.
Proof.
  intros Hl. revert current. induction Hl as [|line lines Hw _ IH]; intros current; simpl.
  { eexists _, _. split; [done|]. intros pre Hp. rewrite app_nil_r. by split. }
  destruct (write_source_line_shows padding content current line Hw) as (t & -> & Ht). simpl.
  destruct (label_columns _ _ _) as [from_col len]. destruct (IH (Some line)) as (t' & c' & -> & Ht'). simpl.
  eexists _, _. split; [done|]. intros pre Hp. specialize (Ht pre Hp).
  set (marks := write_label _ _ _).
  destruct (Ht' (pre ++ t ++ write_padding padding ++ write_gutter ++ marks)) as [Hu Hf].
  { intros line' [= <-]. rewrite (assoc_L (++)). by apply shows_app_l. }
  rewrite <- !(assoc_L (++)) in Hu, Hf. split; [done|]. constructor; [|done].
  rewrite (assoc_L (++)). by apply shows_app_l.
Qed.

(** A label whose module has its text and whose lines fit in the padding. *)
Definition drawable (modules : list ModuleText) (padding : nat) (l : RenderLabel) : Prop :=
  exists content, module_content modules (at_ l) = Ret content /\
    (line_number_width (start_line l `max` end_line l) <= padding)%nat.
(** The lines of a label are in the text. *)
Definition drawn (modules : list ModuleText) (padding : nat) (text : list Z) (l : RenderLabel) : Prop :=
  forall content line, module_content modules (at_ l) = Ret content -> (start_line l <= line <= end_line l)%nat ->
    shows text (source_row padding content line).

Lemma split_group_spec f labels group rest : split_group f labels = (group, rest) ->
  labels = group ++ rest /\ Forall (fun l => f l = true) group.
Proof.
  revert group rest. induction labels as [|l labels IH]; simpl; intros group rest; [by intros [= <- <-]|].
  destruct (f l) eqn:E; [|by intros [= <- <-]]. destruct (split_group f labels) as [g r]. intros [= <- <-].
  destruct (IH g r eq_refl) as [-> Hg]. split; [done|]. by constructor.
Qed.

Lemma drawn_app modules padding a b l : drawn modules padding a l -> drawn modules padding (a ++ b) l.
Proof. intros Hd content line Hc Hl. by apply shows_app_l, Hd. Qed.

(** The line written last is one of the current module. *)
Definition current_ok (modules : list ModuleText) (padding : nat) (pre : list Z) (cm : option Z) (cl : option nat) : Prop :=
  forall at_ content, cm = Some (DiagSpan.module at_) -> module_content modules at_ = Ret content ->
    up_to_date padding content pre cl.

Lemma module_content_eq modules at_ at_' : DiagSpan.module at_ = DiagSpan.module at_' ->
  module_content modules at_ = module_content modules at_'.
Proof. unfold module_content. by intros ->. Qed.
Lemma module_path_ok modules at_ content : module_content modules at_ = Ret content ->
  exists p, module_path modules (DiagSpan.module at_) = Ret p.
Proof. unfold module_content, module_path. destruct (get_idx _ _); [by eexists|done]. Qed.

Lemma enter_module_ok modules padding l cm cl content : module_content modules (at_ l) = Ret content ->
  exists e cl', enter_module modules padding l cm cl = Ret (e, cl') /\
    forall pre, current_ok modules padding pre cm cl -> up_to_date padding content (pre ++ e) cl'.
Proof.
  intros Hc. unfold enter_module. destruct cm as [m|]; [|by exists [], None].
  destruct (Z.eqb_spec m (DiagSpan.module (at_ l))) as [->|].
  - exists [], cl. split; [done|]. intros pre Hok. apply up_to_date_app, (Hok (at_ l)); done.
  - destruct (module_path_ok _ _ _ Hc) as [p ->]. by eexists _, None.
Qed.

(** The labels of a step of the loop: one, or several of one line. *)
Lemma write_step_draws modules padding content l same cl :
  module_content modules (at_ l) = Ret content -> drawable modules padding l ->
  (same <> [] -> start_line l = end_line l) -> Forall (fun l' => on_line (DiagSpan.module (at_ l)) (start_line l) l' = true) same ->
  exists t cl', match same with
      | [] => write_single padding content l cl
      | _ => write_group padding content (l :: same) (start_line l) cl
      end = Ret (t, cl') /\
    forall pre, up_to_date padding content pre cl ->
      up_to_date padding content (pre ++ t) cl' /\ Forall (drawn modules padding (pre ++ t)) (l :: same).
Proof.
  intros Hc (content' & Hc' & Hw) Hs Hf. rewrite Hc in Hc'. injection Hc' as <-. destruct same as [|l' same].
  - assert (Forall (fun line => line_number_width line <= padding)%nat
      (seq (start_line l) (S (end_line l) - start_line l))) as Hl.
    { apply Forall_forall. intros line Hin%elem_of_seq. etrans; [|exact Hw]. apply width_mono. lia. }
    destruct (write_label_lines_shows padding content l _ cl Hl) as (t & cl' & E & Ht).
    exists t, cl'. split; [exact E|]. intros pre Hp. destruct (Ht pre Hp) as [Hu Hr]. split; [done|].
    constructor; [|done]. intros c line Hc2 Hin. rewrite Hc in Hc2. injection Hc2 as <-.
    apply (proj1 (Forall_forall _ _) Hr). apply elem_of_seq. lia.
  - specialize (Hs ltac:(done)). unfold write_group.
    destruct (write_source_line_shows padding content cl (start_line l)) as (t & -> & Ht).
    { etrans; [|exact Hw]. apply width_mono. lia. }
    set (g := l :: l' :: same) in *. eexists _, _. split; [reflexivity|]. intros pre Hp.
    specialize (Ht pre Hp). rewrite (assoc_L (++)). split; [intros line [= <-]; by apply shows_app_l|].
    assert (Forall (fun l' => on_line (DiagSpan.module (at_ l)) (start_line l) l' = true) g) as Hg.
    { constructor; [|done]. unfold on_line. by rewrite Z.eqb_refl, Hs, !Nat.eqb_refl. }
    eapply Forall_impl; [exact Hg|]. intros x Hx.
    unfold on_line in Hx. apply andb_true_iff in Hx as [[Hm%Z.eqb_eq Hsl%Nat.eqb_eq]%andb_true_iff Hel%Nat.eqb_eq].
    intros c line Hc2 Hin. rewrite (module_content_eq _ _ _ Hm), Hc in Hc2. injection Hc2 as <-.
    replace line with (start_line l) by lia. by apply shows_app_l.
Qed.

Lemma write_labels_draws modules padding fuel labels cm cl :
  Forall (drawable modules padding) labels -> (length labels <= fuel)%nat ->
  exists text, write_labels fuel modules padding labels cm cl = Ret text /\
    forall pre, current_ok modules padding pre cm cl -> Forall (drawn modules padding (pre ++ text)) labels.
Proof.
  revert labels cm cl. induction fuel as [|fuel IH]; intros [|l labels] cm cl Hd Hf; simpl in *; try lia;
    try (by eexists; split; [done|]; intros; constructor).
  apply Forall_cons in Hd as [Hl Hd]. pose proof Hl as (content & Hc & _). rewrite Hc. cbn [mbind res_bind].
  destruct (enter_module_ok modules padding l cm cl content Hc) as (e & cl1 & -> & He). cbn [mbind res_bind].
  destruct (if (start_line l =? end_line l)%nat then _ else _) as [same rest] eqn:Hsplit.
  assert (labels = same ++ rest /\ (same <> [] -> start_line l = end_line l) /\
    Forall (fun l' => on_line (DiagSpan.module (at_ l)) (start_line l) l' = true) same) as (-> & Hne & Hsame).
  { destruct (Nat.eqb_spec (start_line l) (end_line l)); [|by injection Hsplit as <- <-].
    by apply split_group_spec in Hsplit as [-> ?]. }
  destruct (write_step_draws modules padding content l same cl1 Hc Hl Hne Hsame) as (t & cl2 & E & Ht).
  rewrite E. cbn [mbind res_bind]. apply Forall_app in Hd as [_ Hd]. rewrite length_app in Hf.
  destruct (IH rest (Some (DiagSpan.module (at_ l))) cl2 Hd ltac:(lia)) as (t' & -> & Ht'). cbn [mbind res_bind].
  eexists. split; [done|]. intros pre Hp. destruct (Ht (pre ++ e) (He pre Hp)) as [Hu Hr].
  rewrite !(assoc_L (++)), app_comm_cons. apply Forall_app. split.
  - eapply Forall_impl; [exact Hr|]. intros x. apply drawn_app.
  - apply Ht'. intros a c [= Hm] Hc2. rewrite <- (module_content_eq _ _ _ Hm), Hc in Hc2. by injection Hc2 as <-.
Qed.

(** A diagnostic that can be drawn: the modules of its labels have been read, and
    its positions are in their texts. *)
Definition readable (modules : list ModuleText) (d : Diagnostic) : Prop :=
  forall l s, l ∈ labels d -> Label.span l = Some s ->
    exists content, module_content modules s = Ret content /\
      (Span.start (DiagSpan.span s) <= length content)%nat /\ (Span.stop (DiagSpan.span s) <= length content)%nat.

Lemma render_labels_ok modules d ls : readable modules d -> (forall x, x ∈ ls -> x ∈ placed_labels d) ->
  exists rs, render_labels modules ls = Ret rs /\ map (fun r => (label r, at_ r)) rs = ls /\
    Forall (fun r => render_label modules (label r, at_ r) = Ret r /\ exists content, module_content modules (at_ r) = Ret content) rs.
Proof.
  intros Hr. induction ls as [|[l s] ls IH]; intros Hin; simpl; [by exists []|].
  destruct IH as (rs & -> & E & Hf); [intros x Hx; apply Hin; by right|].
  assert (l ∈ labels d /\ Label.span l = Some s) as [Hl Hs].
  { specialize (Hin (l, s) ltac:(left)). apply list_elem_of_omap in Hin as (l0 & Hl0 & Hsp).
    destruct (Label.span l0) eqn:E0; [|done]. by injection Hsp as -> ->. }
  destruct (Hr l s Hl Hs) as (content & Hc & Hst & Hen).
  destruct (render_label modules (l, s)) as [r|f] eqn:Er.
  - exists (r :: rs). assert (label r = l /\ at_ r = s) as [E1 E2].
    { unfold render_label in Er. simpl in Er. rewrite Hc in Er. cbn [mbind res_bind] in Er.
      destruct (Span.start_line_col _ _) as [[]|]; [|done]. cbn [mbind res_bind] in Er.
      destruct (Span.end_line_col _ _) as [[]|]; [|done]. by injection Er as <-. }
    simpl. rewrite E1, E2, E. split_and!; [done..|]. constructor; [|done]. rewrite E1, E2. split; [done|by exists content].
  - exfalso. unfold render_label in Er. simpl in Er. rewrite Hc in Er. cbn [mbind res_bind] in Er.
    unfold Span.start_line_col, Span.end_line_col in Er. by rewrite !Span.line_col_spec in Er by done.
Qed.

Lemma max_line_fold rs m : (m <= fold_left (fun m l => (m `max` (start_line l `max` end_line l))%nat) rs m)%nat /\
  Forall (fun r => start_line r `max` end_line r <= fold_left (fun m l => (m `max` (start_line l `max` end_line l))%nat) rs m)%nat rs.
Proof.
  revert m. induction rs as [|r rs IH]; intros m; simpl; [done|].
  destruct (IH (m `max` (start_line r `max` end_line r))%nat) as [Hm1 Hm2]. split; [lia|]. constructor; [lia|done].
Qed.

(** C27: Every diagnostic whose labels lie in modules that have been read is written,
    without a fault: its header comes first, and every line that a label covers is
    in the text, after its number, in a column that is wide enough for all of them. *)
Theorem diagnostic_written modules d : readable modules d ->
  exists text padding, write modules d = Ret text /\ write_header d `prefix_of` text /\
    forall l s content sl sc el ec line, l ∈ labels d -> Label.span l = Some s ->
      module_content modules s = Ret content -> Span.start_line_col (DiagSpan.span s) content = Ret (sl, sc) ->
      Span.end_line_col (DiagSpan.span s) content = Ret (el, ec) -> (sl <= line <= el)%nat ->
      shows text (source_row padding content line) /\
      (length (usize_to_string line) <= padding)%nat.
Proof.
  intros Hr. pose proof (sorted_labels_perm d) as Hperm.
  destruct (render_labels_ok modules d (sorted_labels d) Hr) as (rs & E & Emap & Hf).
  { intros x. by rewrite Hperm. }
  unfold write. rewrite E. cbn [mbind res_bind]. destruct rs as [|first rest].
  - exists (write_header d), 0%nat. split; [done|]. split; [done|]. intros l s content sl sc el ec line Hl Hs.
    exfalso. assert ((l, s) ∈ sorted_labels d) as Hin; [|by rewrite <- Emap in Hin; apply elem_of_nil in Hin].
    rewrite Hperm. apply list_elem_of_omap. exists l. by rewrite Hs.
  - set (rs := first :: rest) in *. set (padding := line_number_width (max_line_number rs)).
    pose proof (proj2 (max_line_fold rs 1)) as Hmax.
    assert (Forall (drawable modules padding) rs) as Hd.
    { apply Forall_forall. intros r Hin. destruct (proj1 (Forall_forall _ _) Hf r Hin) as [_ [c Hc]].
      exists c. split; [done|]. apply width_mono. by apply (proj1 (Forall_forall _ _) Hmax). }
    assert (exists p, module_path modules (DiagSpan.module (at_ (location_label first rest))) = Ret p) as [p ->].
    { assert (location_label first rest ∈ rs) as Hin.
      { unfold location_label. destruct (find _ _) as [x|] eqn:Ef; [|by left].
        apply find_some in Ef as [Hx _]. by apply list_elem_of_In. }
      destruct (proj1 (Forall_forall _ _) Hf _ Hin) as [_ [c Hc]]. by apply module_path_ok in Hc. }
    cbn [mbind res_bind].
    destruct (write_labels_draws modules padding (length rs) rs None None Hd ltac:(done)) as (t & -> & Ht).
    cbn [mbind res_bind]. eexists _, padding. split; [reflexivity|]. split; [by apply prefix_app_r|].
    intros l s content sl sc el ec line Hl Hs Hc Hsl Hel Hin.
    assert ((l, s) ∈ map (fun r => (label r, at_ r)) rs) as Hx.
    { rewrite Emap, Hperm. apply list_elem_of_omap. exists l. by rewrite Hs. }
    apply list_elem_of_fmap in Hx as (r' & [= -> ->] & Hr'). destruct (proj1 (Forall_forall _ _) Hf r' Hr') as [Hrl' _].
    assert (start_line r' = sl /\ end_line r' = el) as [<- <-].
    { unfold render_label in Hrl'. cbn [fst snd] in Hrl'. rewrite Hc in Hrl'. cbn [mbind res_bind] in Hrl'.
      rewrite Hsl in Hrl'. cbn [mbind res_bind] in Hrl'. rewrite Hel in Hrl'. by injection Hrl' as <-. }
    split.
    + assert (current_ok modules padding [] None None) as Hcur by (by intros a c).
      pose proof (proj1 (Forall_forall _ _) (Ht [] Hcur) r' Hr' content line Hc Hin) as Hsh.
      do 3 apply shows_app_r. by apply shows_app_l.
    + rewrite number_width. apply width_mono. pose proof (proj1 (Forall_forall _ _) Hmax r' Hr') as Hle.
      cbn beta in Hle. fold (max_line_number rs) in Hle. lia.
Qed.

(** *** The marks of the labels of a line *)

Definition label_end (l : RenderLabel) : nat := start_col l + ((end_col l - start_col l) `max` 1).
Definition covers (l : RenderLabel) (c : nat) : Prop := (start_col l <= c < label_end l)%nat.
Definition apart (group : list RenderLabel) : Prop := StronglySorted (fun a b => label_end a <= start_col b)%nat group.

Lemma underlines_lookup group cur : use_color = false -> apart group ->
  Forall (fun l => cur <= start_col l)%nat group ->
  forall c, (cur <= c)%nat ->
    (forall l, l ∈ group -> covers l c -> underlines group cur !! (c - cur)%nat = Some (caret (ty (label l)))) /\
    (Forall (fun l => ~ covers l c) group -> Exists (fun l => c < start_col l)%nat group ->
     underlines group cur !! (c - cur)%nat = Some 32).
Proof.
  intros Hcol Ha. revert cur. induction Ha as [|x group Ha IH Hx]; intros cur Hcur c Hc.
  { split; [by intros l ?%elem_of_nil|]. intros _ He. by apply Exists_nil in He. }
  apply Forall_cons in Hcur as [Hs Hcur]. cbn [underlines]. unfold marks, write_styled. rewrite Hcol.
  set (len := ((end_col x - start_col x) `max` 1)%nat).
  set (pad := if (cur <? start_col x)%nat then _ else _).
  assert (pad = spaces (start_col x - cur)) as ->.
  { unfold pad. destruct (Nat.ltb_spec cur (start_col x)); [done|]. by replace (start_col x - cur)%nat with 0%nat by lia. }
  assert (forall tail, (c < start_col x)%nat -> (spaces (start_col x - cur) ++ replicate len (caret (ty (label x))) ++ tail) !! (c - cur)%nat = Some 32) as Hpad.
  { intros tail Hlt. rewrite lookup_app_l by (unfold spaces; rewrite length_replicate; lia). apply lookup_replicate. split; [done|lia]. }
  assert (forall tail, (start_col x <= c < label_end x)%nat -> (spaces (start_col x - cur) ++ replicate len (caret (ty (label x))) ++ tail) !! (c - cur)%nat = Some (caret (ty (label x)))) as Hmark.
  { intros tail Hin. unfold label_end in Hin. fold len in Hin. rewrite lookup_app_r by (unfold spaces; rewrite length_replicate; lia).
    rewrite lookup_app_l by (unfold spaces; rewrite !length_replicate; lia). apply lookup_replicate.
    unfold spaces. rewrite length_replicate. split; [done|lia]. }
  assert (forall mid tail, (label_end x <= c)%nat -> mid = [] -> (spaces (start_col x - cur) ++ replicate len (caret (ty (label x))) ++ mid ++ tail) !! (c - cur)%nat = tail !! (c - label_end x)%nat) as Hrest.
  { intros mid tail Hge ->. unfold label_end in *. fold len in Hge |- *. unfold spaces.
    rewrite lookup_app_r, lookup_app_r by (rewrite !length_replicate; lia). rewrite !length_replicate. simpl. f_equal. lia. }
  change (start_col x + len)%nat with (label_end x).
  assert (group <> [] -> match group, Label.message (label x) with [], (_ :: _) as m => bytes_of " " ++ m | _, _ => [] end = []) as Hmid
    by (by destruct group).
  split.
  - intros l [->|Hl]%elem_of_cons Hcov; [by apply Hmark|].
    pose proof (proj1 (Forall_forall _ _) Hx l Hl) as Hle. cbn beta in Hle. unfold covers in Hcov.
    rewrite Hrest; [|lia|apply Hmid; by intros ->; apply elem_of_nil in Hl]. apply IH; [done|lia|done|done].
  - intros [Hno Hnos]%Forall_cons He. destruct (decide (c < start_col x)%nat) as [|Hge]; [by apply Hpad|].
    unfold covers in Hno. apply Exists_cons in He as [?|He]; [lia|].
    rewrite Hrest; [|lia|apply Hmid; intros ->; by apply Exists_nil in He]. apply IH; [done|lia|done|done].
Qed.

End Written.

(** ** Programs of the test suite, with the text it expects *)

Module Examples.
#[local] Existing Instance memx_scalar.
#[local] Instance plain : Terminal := {| use_color := false; paint := fun _ text => text |}.
#[local] Existing Instance insert_scan.

Definition lines_of (l : list string) : list Z := concat (map (fun s => bytes_of s ++ newline) l).

(** [tests/ui/enum/variant-redefinition.vif]. *)
Definition fruit : list Z :=
  lines_of ["const Fruit = enum {"; "    apple,"; "    orange,"; "    pineapple,"; "    apple,"; "}"]%string ++ [0].
Definition fruit_error : Diagnostic :=
  Diagnostic.with_label (Diagnostic.with_label (Diagnostic.with_message Diagnostic.error (bytes_of "enum variant `apple` already defined"))
    (Label.with_message (Label.with_span Label.primary (DiagSpan.mk 0 (Span.mk 63 68))) (bytes_of "redefinition here")))
    (Label.with_message (Label.with_span Label.secondary (DiagSpan.mk 0 (Span.mk 25 31))) (bytes_of "first defined here")).
Example fruit_text : write [{| path := bytes_of "variant-redefinition.vif"; source := Some fruit |}] fruit_error =
  Ret (lines_of
    ["error: enum variant `apple` already defined";
     "  --> variant-redefinition.vif:5:5";
     "  |";
     "2 |     apple,";
     "  |     ------ first defined here";
     "5 |     apple,";
     "  |     ^^^^^ redefinition here"]%string).
Proof. vm_compute. reflexivity. Qed.

(** [tests/ui/struct/init-uninitialized-field.vif]. *)
Definition apple : list Z :=
  lines_of ["fn main() void {"; "    const Fruit = struct {"; "        size: i32,"; "        weight: i32,"; "    }"; "";
            "    const apple: Fruit = .{"; "        .size = 1,"; "    }"; "}"]%string ++ [0].
Definition apple_error : Diagnostic :=
  Diagnostic.with_note (Diagnostic.with_label (Diagnostic.with_message Diagnostic.error (bytes_of "field `weight` was not initialized"))
    (Label.with_span Label.primary (DiagSpan.mk 0 (Span.mk 116 143)))) (bytes_of "add `.weight = ...,`").
Example apple_text : write [{| path := bytes_of "init.vif"; source := Some apple |}] apple_error =
  Ret (lines_of
    ["error: field `weight` was not initialized";
     "  --> init.vif:7:26";
     "  |";
     "7 |     const apple: Fruit = .{";
     "  |                          ^^";
     "8 |         .size = 1,";
     "  | ^^^^^^^^^^^^^^^^^^";
     "9 |     }";
     "  | ^^^^^";
     "  |";
     "  = note: add `.weight = ...,`"]%string).
Proof. vm_compute. reflexivity. Qed.

(** Labels that overlap: the marks of the second are not in its columns 4 and 5. *)
Definition at_columns (ty : LabelType) (a b : nat) : RenderLabel :=
  {| label := Label.new ty; at_ := DiagSpan.mk 0 (Span.mk 0 0); start_line := 1; start_col := a; end_line := 1; end_col := b |}.
Example overlap : underlines [at_columns Primary 2 8; at_columns Secondary 4 6] 0 = bytes_of "  ^^^^^^--".
Proof. reflexivity. Qed.
(** A secondary label in an earlier module than the primary one: its line is under
    the path of the other module. *)
Example misplaced :
  write [{| path := bytes_of "a.vif"; source := Some (lines_of ["aaa"]%string) |};
         {| path := bytes_of "b.vif"; source := Some (lines_of ["bbb"]%string) |}]
    (Diagnostic.with_label (Diagnostic.with_label (Diagnostic.with_message Diagnostic.error (bytes_of "e"))
      (Label.with_span Label.primary (DiagSpan.mk 1 (Span.mk 0 1))))
      (Label.with_span Label.secondary (DiagSpan.mk 0 (Span.mk 0 2)))) =
  Ret (lines_of
    ["error: e"; "  --> b.vif:1:1"; "  |"; "1 | aaa"; "  | --"; "  |"; "  --> b.vif:1:1"; "  |"; "1 | bbb"; "  | ^"]%string).
Proof. vm_compute. reflexivity. Qed.
(** Without a position the notes are lost. *)
Example no_position : write [] (Diagnostic.with_note (Diagnostic.with_message Diagnostic.error (bytes_of "e")) (bytes_of "n")) =
  Ret (lines_of ["error: e"]%string).
Proof. reflexivity. Qed.

Lemma diagnostic_written_witness :
  exists text padding, write [{| path := bytes_of "init.vif"; source := Some apple |}] apple_error = Ret text /\
    shows text (source_row padding apple 8).
Proof.
  destruct (@diagnostic_written plain memx_scalar memx_scalar_laws
    [{| path := bytes_of "init.vif"; source := Some apple |}] apple_error) as (text & padding & E & _ & H).
  { intros l s Hl Hs. apply list_elem_of_singleton in Hl as ->. injection Hs as <-. exists apple. vm_compute. split; [done|lia]. }
  exists text, padding. split; [exact E|].
  apply (H (Label.with_span Label.primary (DiagSpan.mk 0 (Span.mk 116 143))) (DiagSpan.mk 0 (Span.mk 116 143)) apple
    7%nat 25%nat 9%nat 5%nat 8%nat); [by left|done|done|by vm_compute|by vm_compute|lia].
Defined.
End Examples.

End Render.
