(* ===== verification/Ast.v ===== *)
(** * Abstract syntax ([src/frontend/ast.rs])

    The tree the parser builds.  A reference into the module's arena is the
    node it points to, a slice a list, an interned string its bytes, a
    [NodeId] its number.  A variant [V] of an enum [T] that takes part in the
    recursion is the constructor [T_V]; the other enums are modules. *)

From S2P Require Import Prelude Words Bytes Span Token.

#[local] Open Scope Z_scope.

Definition NodeId : Set := Z.

Module Ident.

Record Ident : Set := mk { symbol : list Z; kind : IdentKind; span : Span.Span }.

Definition is_user (self : Ident) : bool := Token.is_user (kind self).
Definition is_generic (self : Ident) : bool := Token.is_generic (kind self).
Definition is_builtin (self : Ident) : bool := Token.is_builtin (kind self).

Definition display (self : Ident) : list Z := symbol self.

(** [PartialEq]: the symbols. *)
Definition eq (self other : Ident) : bool := bool_decide (symbol self = symbol other).

End Ident.
Abbreviation Ident := Ident.Ident.

(** [U] and [I] carry a [u16] width. *)
Module IntSuffix.
Inductive IntSuffix : Set := U (bits : Z) | I (bits : Z) | Usize | Isize.
End IntSuffix.
Module FloatSuffix.
Inductive FloatSuffix : Set := F16 | F32 | F64 | F128.
End FloatSuffix.

Module Lit.
Inductive Lit : Set :=
  | Null
  | Str (v : list Z)
  | Char (v : Z)
  | Bool (v : bool)
  | Integer (symbol : list Z) (radix : Radix) (suffix : option IntSuffix.IntSuffix)
  | Float (symbol : list Z) (suffix : option FloatSuffix.FloatSuffix)
  | EnumVariant (symbol : list Z).
End Lit.

Module AssignOp.
Inductive AssignOp : Set :=
  | Assign | Add | AddSat | Sub | SubSat | Mul | MulSat | Div | Rem | BitAnd | BitOr | BitXor
  | Shl | ShlSat | ShlWrap | Shr | ShrSat | ShrWrap | BoolAnd | BoolOr.

Definition display (self : AssignOp) : list Z :=
  match self with
  | Assign => bytes_of "=" | Add => bytes_of "+=" | AddSat => bytes_of "+|="
  | Sub => bytes_of "-=" | SubSat => bytes_of "-|=" | Mul => bytes_of "*="
  | MulSat => bytes_of "*|=" | Div => bytes_of "/=" | Rem => bytes_of "%="
  | BitAnd => bytes_of "&=" | BitOr => bytes_of "|=" | BitXor => bytes_of "^="
  | Shl => bytes_of "<<=" | ShlSat => bytes_of "<<|=" | ShlWrap => bytes_of "<<%="
  | Shr => bytes_of ">>=" | ShrSat => bytes_of ">>|=" | ShrWrap => bytes_of ">>%="
  | BoolAnd => bytes_of "&&=" | BoolOr => bytes_of "||="
  end.
End AssignOp.

Module Inline.
Inductive Inline : Set := None | Always | Never.
Definition display (self : Inline) : list Z :=
  match self with
  | None => bytes_of "mayinline" | Always => bytes_of "#inline" | Never => bytes_of "#noinline"
  end.
#[global] Instance Inline_eq_dec : EqDecision Inline.
Proof. solve_decision. Defined.
End Inline.

Module Extern.
Inductive Extern : Set := None | Implicit | Explicit (name : list Z).
#[global] Instance Extern_eq_dec : EqDecision Extern.
Proof. solve_decision. Defined.
Definition display (self : Extern) : list Z :=
  match self with
  | None => []
  | Implicit => bytes_of "extern"
  | Explicit name => bytes_of "extern " ++ [34] ++ name ++ [34]
  end.
End Extern.

(** ** The tree *)

Module Ast.

Inductive Expr : Set := mkExpr (id : NodeId) (kind : ExprKind) (span : Span.Span)

with ExprKind : Set :=
  | ExprKind_Add (op : BinOp) | ExprKind_AddSat (op : BinOp)
  | ExprKind_Sub (op : BinOp) | ExprKind_SubSat (op : BinOp)
  | ExprKind_Mul (op : BinOp) | ExprKind_MulSat (op : BinOp)
  | ExprKind_Div (op : BinOp) | ExprKind_Rem (op : BinOp)
  | ExprKind_Shl (op : BinOp) | ExprKind_ShlSat (op : BinOp) | ExprKind_ShlWrap (op : BinOp)
  | ExprKind_Shr (op : BinOp) | ExprKind_ShrSat (op : BinOp) | ExprKind_ShrWrap (op : BinOp)
  | ExprKind_BitAnd (op : BinOp) | ExprKind_BitOr (op : BinOp) | ExprKind_BitXor (op : BinOp)
  | ExprKind_Lt (op : BinOp) | ExprKind_Lte (op : BinOp)
  | ExprKind_Gt (op : BinOp) | ExprKind_Gte (op : BinOp)
  | ExprKind_BoolAnd (op : BinOp) | ExprKind_BoolOr (op : BinOp)
  | ExprKind_Eq (op : BinOp) | ExprKind_Neq (op : BinOp)
  | ExprKind_Neg (e : Expr) | ExprKind_Pos (e : Expr) | ExprKind_Not (e : Expr)
  | ExprKind_BitNot (e : Expr)
  | ExprKind_Group (e : Expr)
  | ExprKind_Block (b : Block)
  | ExprKind_If (i : If)
  | ExprKind_Loop (b : Block)
  | ExprKind_While (w : While)
  | ExprKind_For (f : For)
  | ExprKind_Switch (s : Switch)
  | ExprKind_Lit (l : Lit.Lit)
  | ExprKind_Type (t : Type_)
  | ExprKind_Ident (i : Ident)
  | ExprKind_FieldAccess (f : FieldAccess)
  | ExprKind_Deref (e : Expr)
  | ExprKind_UnwrapNullable (e : Expr)
  | ExprKind_Index (i : Index)
  | ExprKind_AddressOf (e : Expr)
  | ExprKind_Try (e : Expr)
  | ExprKind_Undefined
  | ExprKind_FnCall (c : FnCall)
  | ExprKind_StructInit (i : StructInit)
  | ExprKind_ArrayInit (i : ArrayInit)
  | ExprKind_Discard

with BinOp : Set := mkBinOp (lhs rhs : Expr)

with Block : Set :=
  mkBlock (id : NodeId) (is_const : bool) (label : option Ident) (stmts : list Statement)
    (span : Span.Span)

with ElseBlock : Set := ElseBlock_If (i : If) | ElseBlock_Body (b : IfBody)

with IfBody : Set := IfBody_Block (b : Block) | IfBody_Expr (e : Expr)

with If : Set :=
  mkIf (id : NodeId) (cond : Expr) (then_body : IfBody) (else_block : option ElseBlock)
    (span : Span.Span)

with While : Set :=
  mkWhile (id : NodeId) (inline : bool) (cond : Expr) (body : Block) (span : Span.Span)

with For : Set :=
  mkFor (id : NodeId) (inline : bool) (iter_var iterable : Expr) (body : Block) (span : Span.Span)

with Switch : Set :=
  mkSwitch (id : NodeId) (label : option Ident) (expr : Expr) (cases : list SwitchCase)
    (else_capture : option Expr) (else_body : option SwitchBody) (span : Span.Span)

with SwitchCase : Set :=
  mkSwitchCase (id : NodeId) (patterns : list Expr) (capture : option Ident) (body : SwitchBody)
    (span : Span.Span)

with SwitchBody : Set := SwitchBody_Block (b : Block) | SwitchBody_Expr (e : Expr)

with Type_ : Set :=
  | Type_Array (ty : Expr) (is_const : bool) (size sentinel : option Expr)
  | Type_Ptr (ty : Expr) (modifiers : PtrModifiers)
  | Type_ManyPtr (ty : Expr) (sentinel : option Expr) (modifiers : PtrModifiers)
  | Type_Slice (ty : Expr) (sentinel : option Expr) (modifiers : PtrModifiers)
  | Type_Fn (sig : FnSig)
  | Type_Nullable (ty : Expr)
  | Type_Struct (t : StructTy)
  | Type_Union (t : UnionTy)
  | Type_Enum (t : EnumTy)
  | Type_Bool
  | Type_Int (suffix : IntSuffix.IntSuffix)
  | Type_Float (suffix : FloatSuffix.FloatSuffix)
  | Type_Void | Type_Type | Type_Anyptr | Type_Anyint | Type_Anyfloat | Type_Never

with PtrModifiers : Set := mkPtrModifiers (is_const is_volatile : bool) (addrspace : option Expr)

with FnSig : Set := mkFnSig (params : list Expr) (variadic : bool) (ret_ty : Expr)

with Index : Set := mkIndex (collection : Expr) (kind : IndexKind)

with IndexKind : Set :=
  | IndexKind_Index (index : Expr)
  | IndexKind_Range (start end_ : option Expr)
  | IndexKind_RangeInclusive (start : option Expr) (end_ : Expr)

with FnCall : Set := mkFnCall (callee : Expr) (args : list Arg)

with Arg : Set := Arg_Named (name : Ident) (value : Expr) | Arg_Positional (value : Expr)

with StructTy : Set :=
  mkStructTy (fields : list FieldDef) (associated_items : list AssociatedItem)
    (packed linear : bool) (span : Span.Span)

with FieldDef : Set :=
  mkFieldDef (id : NodeId) (ident : Ident) (is_pub : bool) (ty : Expr) (default : option Expr)
    (span : Span.Span)

with UnionTagKind : Set := UnionTagKind_Bare | UnionTagKind_AutoEnum | UnionTagKind_Enum (e : Expr)

with UnionFieldDef : Set :=
  mkUnionFieldDef (id : NodeId) (ident : Ident) (ty : option Expr) (span : Span.Span)

with UnionTy : Set :=
  mkUnionTy (tag : UnionTagKind) (fields : list UnionFieldDef)
    (associated_items : list AssociatedItem) (linear : bool) (span : Span.Span)

with EnumTy : Set :=
  mkEnumTy (tag_ty : option Expr) (variants : list EnumVariantDef)
    (associated_items : list AssociatedItem) (linear : bool) (span : Span.Span)

with EnumVariantDef : Set :=
  mkEnumVariantDef (id : NodeId) (ident : Ident) (value : option Expr) (span : Span.Span)

with StructInit : Set := mkStructInit (ty : option Expr) (fields : list FieldInit)

with ArrayInit : Set := mkArrayInit (ty : option Expr) (elements : list Expr)

with FieldInit : Set := mkFieldInit (ident : Ident) (value : Expr)

with AssociatedItem : Set :=
  mkAssociatedItem (id : NodeId) (kind : AssociatedItemKind) (is_pub : bool) (span : Span.Span)

with AssociatedItemKind : Set :=
  | AssociatedItemKind_Fn (f : Fn)
  | AssociatedItemKind_Const (b : VarBinding)
  | AssociatedItemKind_Var (b : VarBinding)

with Statement : Set := mkStatement (id : NodeId) (kind : StatementKind) (span : Span.Span)

with StatementKind : Set :=
  | StatementKind_Expr (e : Expr)
  | StatementKind_Var (b : VarBinding)
  | StatementKind_Const (b : VarBinding)
  | StatementKind_ComptimeVarBinding (b : VarBinding)
  | StatementKind_Return (e : option Expr)
  | StatementKind_Defer (e : Expr)
  | StatementKind_Errdefer (e : Expr)
  | StatementKind_Assign (lhs : Expr) (op : AssignOp.AssignOp) (rhs : Expr)
  | StatementKind_Break (label : option Ident) (value : option Expr)
  | StatementKind_Continue (label : option Ident) (value : option Expr)

with VarBinding : Set := mkVarBinding (id : NodeId) (name : Ident) (ty : option Expr) (val : Expr)

with FieldAccess : Set := mkFieldAccess (lhs : Expr) (field : Ident) (span : Span.Span)

with Fn : Set :=
  mkFn (ident : Ident) (ext : Extern.Extern) (inline : Inline.Inline) (comptime : bool)
    (callconv : option Expr) (variadic : bool) (params : list FnParam) (ret_ty : Expr)
    (block : option Block)

with FnParam : Set := mkFnParam (id : NodeId) (comptime : bool) (ident : Ident) (ty : Expr).

Definition expr_id (self : Expr) : NodeId := let '(mkExpr id _ _) := self in id.
Definition expr_kind (self : Expr) : ExprKind := let '(mkExpr _ kind _) := self in kind.
Definition expr_span (self : Expr) : Span.Span := let '(mkExpr _ _ span) := self in span.
Definition block_span (self : Block) : Span.Span := let '(mkBlock _ _ _ _ span) := self in span.

Definition IfBody_span (self : IfBody) : Span.Span :=
  match self with IfBody_Block block => block_span block | IfBody_Expr expr => expr_span expr end.
Definition SwitchBody_span (self : SwitchBody) : Span.Span :=
  match self with SwitchBody_Block block => block_span block | SwitchBody_Expr expr => expr_span expr end.

(** [PartialEq] of a node with an identifier compares the identifiers. *)
Definition Expr_eq (self other : Expr) : bool := expr_id self =? expr_id other.
Definition Block_eq (self other : Block) : bool :=
  let '(mkBlock id _ _ _ _) := self in let '(mkBlock id' _ _ _ _) := other in id =? id'.
Definition If_eq (self other : If) : bool :=
  let '(mkIf id _ _ _ _) := self in let '(mkIf id' _ _ _ _) := other in id =? id'.
Definition While_eq (self other : While) : bool :=
  let '(mkWhile id _ _ _ _) := self in let '(mkWhile id' _ _ _ _) := other in id =? id'.
Definition For_eq (self other : For) : bool :=
  let '(mkFor id _ _ _ _ _) := self in let '(mkFor id' _ _ _ _ _) := other in id =? id'.
Definition AssociatedItem_eq (self other : AssociatedItem) : bool :=
  let '(mkAssociatedItem id _ _ _) := self in let '(mkAssociatedItem id' _ _ _) := other in id =? id'.
Definition VarBinding_eq (self other : VarBinding) : bool :=
  let '(mkVarBinding id _ _ _) := self in let '(mkVarBinding id' _ _ _) := other in id =? id'.
Definition FnParam_eq (self other : FnParam) : bool :=
  let '(mkFnParam id _ _ _) := self in let '(mkFnParam id' _ _ _) := other in id =? id'.

Definition ElseBlock_as_if (self : ElseBlock) : option If :=
  match self with ElseBlock_If if_block => Some if_block | _ => None end.
Definition ElseBlock_as_block (self : ElseBlock) : option Block :=
  match self with ElseBlock_Body (IfBody_Block block) => Some block | _ => None end.

Definition StatementKind_display (self : StatementKind) : list Z :=
  match self with
  | StatementKind_Expr _ => bytes_of "Expr"
  | StatementKind_Var _ => bytes_of "Var"
  | StatementKind_Const _ => bytes_of "Const"
  | StatementKind_ComptimeVarBinding _ => bytes_of "Comptime Binding"
  | StatementKind_Return _ => bytes_of "Return"
  | StatementKind_Defer _ => bytes_of "Defer"
  | StatementKind_Errdefer _ => bytes_of "Errdefer"
  | StatementKind_Assign _ _ _ => bytes_of "Assign"
  | StatementKind_Break _ _ => bytes_of "Break"
  | StatementKind_Continue _ _ => bytes_of "Continue"
  end.

Definition is_control_flow (self : Expr) : bool :=
  match expr_kind self with
  | ExprKind_If _ | ExprKind_Loop _ | ExprKind_While _ | ExprKind_For _ | ExprKind_Switch _ => true
  | _ => false
  end.
Definition is_user_ident (self : Expr) : bool :=
  match expr_kind self with ExprKind_Ident ident => Ident.is_user ident | _ => false end.
Definition is_builtin_ident (self : Expr) : bool :=
  match expr_kind self with ExprKind_Ident ident => Ident.is_builtin ident | _ => false end.
Definition is_generic_ident (self : Expr) : bool :=
  match expr_kind self with ExprKind_Ident ident => Ident.is_generic ident | _ => false end.
Definition as_generic_ident (self : Expr) : option Ident :=
  match expr_kind self with
  | ExprKind_Ident ident => if Ident.is_generic ident then Some ident else None
  | _ => None
  end.
Definition as_user_ident (self : Expr) : option Ident :=
  match expr_kind self with
  | ExprKind_Ident ident => if Ident.is_user ident then Some ident else None
  | _ => None
  end.

(** [Display for FieldAccess]: the loop collects the fields of the path, the
    last first, down to the expression it starts from. *)
Fixpoint access_path (current : Expr) : list Ident * Expr :=
  match current with
  | mkExpr _ (ExprKind_FieldAccess (mkFieldAccess lhs field _)) _ =>
      let '(parts, base) := access_path lhs in (field :: parts, base)
  | _ => ([], current)
  end.
Definition FieldAccess_display (self : FieldAccess) : list Z :=
  let '(mkFieldAccess lhs field _) := self in
  let '(parts, base) := access_path lhs in
  match expr_kind base with
  | ExprKind_Ident gi => Ident.display gi
  | _ => bytes_of "<expr>"
  end ++ concat (map (fun field => bytes_of "." ++ Ident.display field) (rev parts))
  ++ bytes_of "." ++ Ident.display field.

(** [Module] without its arena. *)
Inductive ModuleKind : Set := StructDecl (t : StructTy) | NoModule.

End Ast.
