(* ===== verification/ParserCursor.v ===== *)
(** * The parser's cursor ([src/frontend/parser.rs], sections Helpers and Errors)

    The state of the parser and the monad its functions run in: a function
    [fn f(&mut self) -> T] is an [M T], and one that returns
    [Result<T, Diagnostic>] an [M (Result T)], whose [?] is the notation
    [x ←? m; k].  Every [loop] and [while] is the combinator [loop] over the
    loop's state, with the fuel of the section.  Pushing a node into the
    module's arena is the node itself. *)

From S2P Require Import Prelude Words Bytes Span Token Diagnostic Ast.
From S2P Require Lexer.

#[local] Open Scope Z_scope.

Declare Scope parser_scope.
Delimit Scope parser_scope with parser.

Module ParserCursor.
Import Token TokenKind Ast.

(** [Vec<Diagnostic>], the counter of node identifiers ([u32]), the tokens and
    the index of the current one. *)
Record Parser : Set := mk {
  errors : list Diagnostic.Diagnostic;
  id_counter : Z;
  tokens : list Token.Token;
  offset : nat;
  module_id : Z;
}.

Definition set_errors (self : Parser) (errors : list Diagnostic.Diagnostic) : Parser :=
  mk errors (id_counter self) (tokens self) (offset self) (module_id self).
Definition set_id_counter (self : Parser) (next_id : Z) : Parser :=
  mk (errors self) next_id (tokens self) (offset self) (module_id self).
Definition set_offset (self : Parser) (offset : nat) : Parser :=
  mk (errors self) (id_counter self) (tokens self) offset (module_id self).

(** ** The monad *)

Inductive Result (A : Type) : Type :=
  | Ok (a : A)
  | Err (d : Diagnostic.Diagnostic).
#[global] Arguments Ok {A} a.
#[global] Arguments Err {A} d.

Definition M (A : Type) : Type := Parser -> res (A * Parser).

#[export] Instance M_ret : MRet M := fun A a self => Ret (a, self).
#[export] Instance M_bind : MBind M := fun A B k m self =>
  '(a, self) ← m self; k a self.

Definition get : M Parser := fun self => Ret (self, self).
Definition put (self : Parser) : M unit := fun _ => Ret (tt, self).
(** Code that can fault and does not touch the parser. *)
Definition lift {A} (r : res A) : M A := fun self => a ← r; Ret (a, self).

Definition unreachable_unchecked {A} : M A := lift ub.

Definition ok {A} (a : A) : M (Result A) := mret (Ok a).
Definition fail {A} (d : Diagnostic.Diagnostic) : M (Result A) := mret (Err d).

(** [m?]. *)
Definition try_bind {A B} (k : A -> M (Result B)) (m : M (Result A)) : M (Result B) :=
  r ← m; match r with Ok a => k a | Err d => fail d end.

(** One turn of a loop: go on with a new state, or leave with a value. *)
Inductive flow (S A : Type) : Type :=
  | Continue (s : S)
  | Break (a : A).
#[global] Arguments Continue {S A} s.
#[global] Arguments Break {S A} a.

Fixpoint loop {S A} (fuel : nat) (body : S -> M (flow S A)) (s : S) : M A :=
  match fuel with
  | O => fun _ => diverge
  | Datatypes.S fuel =>
      r ← body s;
      match r with Continue s => loop fuel body s | Break a => mret a end
  end.

(** [m?] inside a loop of a function: leave the loop and the function. *)
Definition loop_try_bind {S A B} (k : A -> M (flow S (Result B))) (m : M (Result A))
    : M (flow S (Result B)) :=
  r ← m; match r with Ok a => k a | Err d => mret (Break (Err d)) end.

End ParserCursor.

Notation "x ←? m ; k" := (ParserCursor.try_bind (fun x => k) m)
  (at level 20, m at level 100, k at level 200, only parsing) : parser_scope.
Notation "' pat ←? m ; k" := (ParserCursor.try_bind (fun x => match x with pat => k end) m)
  (at level 20, pat pattern, m at level 100, k at level 200, only parsing) : parser_scope.
Notation "x ←! m ; k" := (ParserCursor.loop_try_bind (fun x => k) m)
  (at level 20, m at level 100, k at level 200, only parsing) : parser_scope.

#[local] Open Scope parser_scope.

Module ParserOps.
Import Token TokenKind Ast ParserCursor.

(** The fuel of every loop. *)
Class Fuel := loop_fuel : nat.

Section Ops.
Context `{!SortedInsert, !Fuel}.

(** ** The cursor *)

(** [self.next_id += 1] is a checked [u32] addition. *)
Definition next_id : M NodeId := fun self =>
  let id := id_counter self in
  if 2^32 <=? id + 1 then panic
  else id' ← NonMaxU32.from_u32 id; Ret (id', set_id_counter self (id + 1)).

(** [assume!] is a promise to the compiler; [get_unchecked] follows it. *)
Definition bump : M Token.Token := fun self =>
  match tokens self !! offset self with
  | None => ub
  | Some token =>
      Ret (token, if Token.is_eof token then self else set_offset self (S (offset self)))
  end.

Definition prev : M Token.Token := fun self =>
  match offset self with
  | O => ub
  | S i => match tokens self !! i with Some token => Ret (token, self) | None => ub end
  end.

Definition prev_nth (nth : nat) : M Token.Token := fun self =>
  let idx := if (nth <? offset self)%nat then (offset self - nth - 1)%nat else O in
  match tokens self !! idx with Some token => Ret (token, self) | None => ub end.

Definition peek : M Token.Token := fun self =>
  match tokens self !! offset self with Some token => Ret (token, self) | None => ub end.

Definition peek_nth (nth : nat) : M Token.Token := fun self =>
  let len := length (tokens self) in
  idx ← (if (offset self + nth <? len)%nat then Ret (offset self + nth)%nat else usize_sub len 1);
  match tokens self !! idx with Some token => Ret (token, self) | None => ub end.

(** [self.offset += 1] and [self.offset -= 1]. *)
Definition advance : M unit := fun self => Ret (tt, set_offset self (S (offset self))).
Definition retreat : M unit := fun self =>
  offset ← usize_sub (offset self) 1; Ret (tt, set_offset self offset).

Definition peek_kind : M TokenKind := token ← peek; mret (Token.kind token).
Definition peek_span : M Span.Span := token ← peek; mret (Token.span token).
Definition prev_span : M Span.Span := token ← prev; mret (Token.span token).
(** [self.peek().kind == kind]. *)
Definition peek_is (kind : TokenKind) : M bool := k ← peek_kind; mret (kind_eq k kind).

(** ** Errors *)

Definition push_error (diag : Diagnostic.Diagnostic) : M unit := fun self =>
  Ret (tt, set_errors self (sorted_insert_by (errors self) diag Diagnostic.reported_before)).

(** [self.errors.push], which does not sort. *)
Definition push_error_last (diag : Diagnostic.Diagnostic) : M unit := fun self =>
  Ret (tt, set_errors self (errors self ++ [diag])).

Definition diag_span (self : Parser) (span : Span.Span) : DiagSpan.DiagSpan :=
  DiagSpan.mk (module_id self) span.

(** [Diagnostic::error().with_message(m).with_label(Label::primary().with_span(s))]. *)
Definition error_at (self : Parser) (message : list Z) (span : Span.Span) : Diagnostic.Diagnostic :=
  Diagnostic.with_label (Diagnostic.with_message Diagnostic.error message)
    (Label.with_span Label.primary (diag_span self span)).

Definition diag_unknown_directive (self : Parser) (token : Token.Token) : option Diagnostic.Diagnostic :=
  match Token.kind token with
  | DirectiveIdent symbol =>
      Some (Diagnostic.with_note
              (error_at self (bytes_of "unknown directive `#" ++ symbol ++ bytes_of "`") (Token.span token))
              (bytes_of "known directives are `#inline`, `#noinline`, `#callconv`, `#linear`, `#packed`, `#volatile`, and `#addrspace`"))
  | _ => None
  end.

Definition diag_unexpected_token (self : Parser) (token : Token.Token) : Diagnostic.Diagnostic :=
  match diag_unknown_directive self token with
  | Some diag => diag
  | None => error_at self (bytes_of "unexpected token " ++ kind_display (Token.kind token)) (Token.span token)
  end.

Definition quoted (tag : TokenTag.TokenTag) : list Z :=
  bytes_of "'" ++ TokenTag.display tag ++ bytes_of "'".

Definition diag_expected_token (self : Parser) (expected : TokenTag.TokenTag) (found : Token.Token)
    : Diagnostic.Diagnostic :=
  match diag_unknown_directive self found with
  | Some diag => diag
  | None =>
      error_at self (bytes_of "expected " ++ quoted expected ++ bytes_of " found '"
                     ++ kind_display (Token.kind found) ++ bytes_of "'") (Token.span found)
  end.

(** [[first, middle @ .., last]]: the text after [first]. *)
Fixpoint one_of_rest (rest : list TokenTag.TokenTag) : list Z :=
  match rest with
  | [] => []
  | [last] => bytes_of " or " ++ quoted last
  | kind :: rest => bytes_of ", " ++ quoted kind ++ one_of_rest rest
  end.

Definition diag_expected_one_of_token (self : Parser) (expected : list TokenTag.TokenTag)
    (found : Token.Token) : res Diagnostic.Diagnostic :=
  match diag_unknown_directive self found with
  | Some diag => Ret diag
  | None =>
      expected ← match expected with [] => panic | first :: rest => Ret (quoted first ++ one_of_rest rest) end;
      Ret (error_at self (bytes_of "expected " ++ expected ++ bytes_of " found '"
                          ++ kind_display (Token.kind found) ++ bytes_of "'") (Token.span found))
  end.

Definition diag_redundant_qualifier (self : Parser) (qualifier : list Z) (span : Span.Span)
    : Diagnostic.Diagnostic :=
  error_at self (bytes_of "redundant qualifier '" ++ qualifier ++ bytes_of "'") span.

Definition diag_expected_type_expr (self : Parser) (prev token : Token.Token) : Diagnostic.Diagnostic :=
  match diag_unknown_directive self token with
  | Some diag => diag
  | None =>
      Diagnostic.with_label
        (Diagnostic.with_label
          (Diagnostic.with_message Diagnostic.error (bytes_of "expected type expression"))
          (Label.with_span Label.secondary (diag_span self (Token.span prev))))
        (Label.with_span Label.primary (diag_span self (Token.span token)))
  end.

Definition diag_expected_expression (self : Parser) (token : Token.Token) : Diagnostic.Diagnostic :=
  match diag_unknown_directive self token with
  | Some diag => diag
  | None => error_at self (bytes_of "expected expression") (Token.span token)
  end.

Definition diag_expected_inlinable (self : Parser) (token : Token.Token) : res Diagnostic.Diagnostic :=
  diag_expected_one_of_token self [TokenTag.KwWhile; TokenTag.KwFor] token.

Definition diag_expected_user_ident (self : Parser) (ident : Ident.Ident) : Diagnostic.Diagnostic :=
  error_at self (bytes_of "expected user identifier, found '" ++ Ident.symbol ident ++ bytes_of "'")
    (Ident.span ident).

(** ** Expecting and skipping *)

Definition peek_expect (tag : TokenTag.TokenTag) : M (Result TokenKind) :=
  token ← peek;
  if negb (has_tag (Token.kind token) tag)
  then self ← get; fail (diag_expected_token self tag token)
  else ok (Token.kind token).

Definition eat_expect (tag : TokenTag.TokenTag) : M (Result TokenKind) :=
  token ← bump;
  if negb (has_tag (Token.kind token) tag)
  then self ← get; fail (diag_expected_token self tag token)
  else ok (Token.kind token).

Definition eat_if (tok : TokenTag.TokenTag) : M (option Token.Token) :=
  kind ← peek_kind;
  if has_tag kind tok then token ← bump; mret (Some token) else mret None.

(** [self.eat_if(tok).is_some()]. *)
Definition eats (tok : TokenTag.TokenTag) : M bool := t ← eat_if tok; mret (bool_decide (is_Some t)).

(** The loop of [eat_until], [eat_until2] and [eat_until3], which differ in the
    test on the token. *)
Definition eat_until_test (test : TokenKind -> bool) : M TokenKind :=
  loop loop_fuel (fun _ : unit =>
    token ← peek;
    if test (Token.kind token) || Token.is_eof token then mret (Break (Token.kind token))
    else advance;; mret (Continue tt)) tt.

Definition eat_until (tag : TokenTag.TokenTag) : M TokenKind :=
  eat_until_test (fun k => has_tag k tag).
Definition eat_until2 (tag1 tag2 : TokenTag.TokenTag) : M TokenKind :=
  eat_until_test (fun k => has_tag k tag1 || has_tag k tag2).
Definition eat_until3 (tag1 tag2 tag3 : TokenTag.TokenTag) : M TokenKind :=
  eat_until_test (fun k => has_tag k tag1 || has_tag k tag2 || has_tag k tag3).

(** [match self.eat_expect(tag) { Ok(_) => {}, Err(err) => self.push_error(err) }]. *)
Definition eat_expect_or_report (tag : TokenTag.TokenTag) : M unit :=
  r ← eat_expect tag;
  match r with Ok _ => mret tt | Err err => push_error err end.

(** ** Groups *)

Definition eat_group {T} (opening_tok closing_tok : TokenTag.TokenTag) (producer : M (Result T))
    : M (Result (list T)) :=
  eat_expect_or_report opening_tok;;
  empty ← eats closing_tok;
  if (empty : bool) then ok [] else
  items ← loop loop_fuel (fun items =>
    token ← peek;
    if has_tag (Token.kind token) closing_tok || Token.is_eof token then mret (Break items)
    else
      start ← get;
      r ← producer;
      match r with
      | Ok item => mret (Continue (items ++ [item]))
      | Err err =>
          push_error err;;
          now ← get;
          (if (offset now =? offset start)%nat then advance else mret tt);;
          mret (Continue items)
      end) [];
  _ ←? eat_expect closing_tok;
  ok items.

Definition eat_delimited_group {T} (opening_tok closing_tok delim_tok : TokenTag.TokenTag)
    (producer : M (Result T)) : M (Result (list T)) :=
  eat_expect_or_report opening_tok;;
  empty ← eats closing_tok;
  if (empty : bool) then ok [] else
  items ← loop loop_fuel (fun items =>
    token ← peek;
    if has_tag (Token.kind token) closing_tok || Token.is_eof token then mret (Break items)
    else
      start ← get;
      r ← producer;
      items ← match r with
        | Ok item => mret (items ++ [item])
        | Err err =>
            push_error err;;
            now ← get;
            (if (offset now =? offset start)%nat then
               advance;;
               token ← eat_until2 delim_tok closing_tok;
               if has_tag token delim_tok then advance else mret tt
             else mret tt);;
            mret items
        end;
      more ← eats delim_tok;
      mret (if (more : bool) then Continue items else Break items)) [];
  _ ←? eat_expect closing_tok;
  ok items.

Definition eat_delimited {T} (delim_tok : TokenTag.TokenTag) (predicate : Token.Token -> bool)
    (producer : M (Result T)) : M (Result (list T * bool)) :=
  items ←? loop loop_fuel (fun items =>
    token ← peek;
    if negb (predicate token) || Token.is_eof token then mret (Break (Ok items))
    else
      item ←! producer;
      let items := items ++ [item] in
      more ← eats delim_tok;
      mret (if (more : bool) then Continue items else Break (Ok items))) [];
  trailing ← eats delim_tok;
  ok (items, trailing).

(** ** Identifiers and suffixes *)

Definition parse_ident : M (Result Ident.Ident) :=
  kind ←? eat_expect TokenTag.Ident;
  match kind with
  | TokenKind.Ident symbol kind => span ← prev_span; ok (Ident.mk symbol kind span)
  | _ => unreachable_unchecked
  end.

Definition parse_user_ident : M (Result Ident.Ident) :=
  ident ←? parse_ident;
  if negb (Ident.is_user ident)
  then self ← get; fail (diag_expected_user_ident self ident)
  else ok ident.

(** [bump], then [offset -= 1] when the token is not what is looked for. *)
Definition maybe {A} (f : TokenKind -> option A) : M (option A) :=
  token ← bump;
  match f (Token.kind token) with
  | Some a => mret (Some a)
  | None => retreat;; mret None
  end.

Definition int_suffix (kind : TokenKind) : option IntSuffix.IntSuffix :=
  match kind with
  | TyUsize => Some IntSuffix.Usize
  | TyIsize => Some IntSuffix.Isize
  | TyU bits => Some (IntSuffix.U bits)
  | TyI bits => Some (IntSuffix.I bits)
  | _ => None
  end.
Definition maybe_parse_int_suffix : M (option IntSuffix.IntSuffix) := maybe int_suffix.

Definition float_suffix (kind : TokenKind) : option FloatSuffix.FloatSuffix :=
  match kind with
  | TyF16 => Some FloatSuffix.F16
  | TyF32 => Some FloatSuffix.F32
  | TyF64 => Some FloatSuffix.F64
  | TyF128 => Some FloatSuffix.F128
  | _ => None
  end.
Definition maybe_parse_float_suffix : M (option FloatSuffix.FloatSuffix) := maybe float_suffix.

Definition assign_op (kind : TokenKind) : option AssignOp.AssignOp :=
  match kind with
  | Eq => Some AssignOp.Assign
  | PlusEq => Some AssignOp.Add
  | PlusPipeEq => Some AssignOp.AddSat
  | MinusEq => Some AssignOp.Sub
  | MinusPipeEq => Some AssignOp.SubSat
  | StarEq => Some AssignOp.Mul
  | StarPipeEq => Some AssignOp.MulSat
  | SlashEq => Some AssignOp.Div
  | LtLtEq => Some AssignOp.Shl
  | LtLtPipeEq => Some AssignOp.ShlSat
  | LtLtPercentEq => Some AssignOp.ShlWrap
  | GtGtEq => Some AssignOp.Shr
  | GtGtPipeEq => Some AssignOp.ShrSat
  | GtGtPercentEq => Some AssignOp.ShrWrap
  | PercentEq => Some AssignOp.Rem
  | AmpEq => Some AssignOp.BitAnd
  | PipeEq => Some AssignOp.BitOr
  | CaretEq => Some AssignOp.BitXor
  | AmpAmpEq => Some AssignOp.BoolAnd
  | PipePipeEq => Some AssignOp.BoolOr
  | _ => None
  end.

Definition maybe_assign_op : M (option AssignOp.AssignOp) := maybe assign_op.

(** [Ok(TokenKind::LitStr(symbol))]. *)
Definition lit_str (r : Result TokenKind) : option (list Z) :=
  match r with Ok (LitStr symbol) => Some symbol | _ => None end.

Definition parse_decl_modifiers : M (Extern.Extern * Inline.Inline) :=
  loop loop_fuel (fun '(ext, inline) =>
    kind ← peek_kind;
    match kind with
    | KwExtern =>
        (if bool_decide (ext <> Extern.None) then
           self ← get; span ← peek_span;
           push_error (error_at self (bytes_of "duplicate `extern` modifier") span)
         else mret tt);;
        _ ← bump;
        r ← peek_expect TokenTag.LitStr;
        ext ← match lit_str r with
          | Some symbol =>
              _ ← bump;
              mret (Extern.Explicit (if utf8_valid symbol then symbol else []))
          | None => mret Extern.Implicit
          end;
        mret (Continue (ext, inline))
    | DirInline | DirNoinline =>
        (if bool_decide (inline <> Inline.None) then
           self ← get; span ← peek_span;
           push_error (error_at self (bytes_of "duplicate inline modifier") span)
         else mret tt);;
        _ ← bump;
        mret (Continue (ext, match kind with DirInline => Inline.Always | _ => Inline.Never end))
    | _ => mret (Break (ext, inline))
    end) (Extern.None, Inline.None).

(** An identifier that could not be parsed: skip, report, and go on without a name. *)
Definition ident_or_skip (r : Result Ident.Ident) (tag1 tag2 : TokenTag.TokenTag) : M Ident.Ident :=
  match r with
  | Ok id => mret id
  | Err err =>
      _ ← eat_until2 tag1 tag2;
      push_error err;;
      span ← prev_span;
      mret (Ident.mk [] User span)
  end.

End Ops.
End ParserOps.
