(* ===== verification/ParserStmt.v ===== *)
(** * Statements, blocks, control flow and initialisers
    ([src/frontend/parser.rs])

    The functions of the parser that reach expressions only through
    [parse_expr_precedence] and [parse_ty_expr].  Those two close every cycle of
    the parser's call graph, so the functions here are stated against the
    interface [Rec] of the two, and [ParserExpr] ties the knot. *)

From S2P Require Import Prelude Words Bytes Span Token Diagnostic Ast ParserCursor.

#[local] Open Scope Z_scope.
#[local] Open Scope parser_scope.

Module ParserStmt.
Import Token TokenKind Ast ParserCursor ParserOps.

(** [Ctx]. *)
Inductive Ctx : Set := Ctx_Ty | Ctx_Value.

(** The two functions the others call recursively. *)
Class Rec := {
  parse_expr_precedence : Z -> bool -> M (Result (option Expr));
  parse_ty_expr : M (Result (option Expr));
}.

Section Stmt.
Context `{!SortedInsert, !Fuel, !Rec}.

(** ** Expecting expressions *)

Definition expect_ty_expr : M (Result Expr) :=
  expr ←? parse_ty_expr;
  match expr with
  | Some expr => ok expr
  | None =>
      before ← prev; token ← peek; self ← get;
      fail (diag_expected_type_expr self before token)
  end.

(** [expr?], with [None] reported at the current token. *)
Definition or_expected_expression (m : M (Result (option Expr))) : M (Result Expr) :=
  expr ←? m;
  match expr with
  | Some expr => ok expr
  | None => token ← peek; self ← get; fail (diag_expected_expression self token)
  end.

Definition parse_expr : M (Result (option Expr)) := parse_expr_precedence 0 true.
Definition expect_expr : M (Result Expr) := or_expected_expression parse_expr.
Definition expect_expr_no_init : M (Result Expr) :=
  or_expected_expression (parse_expr_precedence 0 false).

Definition expect_expr_ctx (ctx : Ctx) : M (Result Expr) :=
  match ctx with Ctx_Ty => expect_ty_expr | Ctx_Value => expect_expr end.
Definition expect_expr_ctx_no_init (ctx : Ctx) : M (Result Expr) :=
  match ctx with Ctx_Ty => expect_ty_expr | Ctx_Value => expect_expr_no_init end.
Definition eat_delimited_ctx (delim_tok : TokenTag.TokenTag) (predicate : Token.Token -> bool)
    (ctx : Ctx) : M (Result (list Expr * bool)) :=
  match ctx with
  | Ctx_Ty => eat_delimited delim_tok predicate expect_ty_expr
  | Ctx_Value => eat_delimited delim_tok predicate expect_expr
  end.

(** [if self.eat_if(tok).is_some() { Some(m?) } else { None }]. *)
Definition if_eats {A} (tok : TokenTag.TokenTag) (m : M (Result A)) : M (Result (option A)) :=
  b ← eats tok;
  if (b : bool) then a ←? m; ok (Some a) else ok None.

(** ** Initialisers and calls *)

Definition parse_struct_field_init : M (Result FieldInit) :=
  _ ←? eat_expect TokenTag.Dot;
  ident ←? parse_ident;
  _ ←? eat_expect TokenTag.Eq;
  value ←? expect_expr;
  ok (mkFieldInit ident value).

Definition parse_struct_init_expr (struct_ty : option Expr) : M (Result StructInit) :=
  fields ←? eat_delimited_group TokenTag.LBrace TokenTag.RBrace TokenTag.Comma parse_struct_field_init;
  ok (mkStructInit struct_ty fields).

Definition parse_array_init_expr (array_ty : option Expr) : M (Result ArrayInit) :=
  elements ←? eat_delimited_group TokenTag.LBrace TokenTag.RBrace TokenTag.Comma expect_expr;
  ok (mkArrayInit array_ty elements).

(** [next == TokenKind::Dot || next == TokenKind::RBrace]. *)
Definition starts_struct_init : M bool :=
  next ← peek_nth 1;
  mret (kind_eq (Token.kind next) Dot || kind_eq (Token.kind next) RBrace).

Definition parse_init_expr : M (Result (option Expr)) :=
  lhs ←? parse_ty_expr;
  match lhs with
  | None => ok None
  | Some lhs =>
      brace ← peek_is LBrace;
      if negb brace then ok (Some lhs) else
      is_struct ← starts_struct_init;
      kind ←? (if (is_struct : bool) then
                 init ←? parse_struct_init_expr (Some lhs); ok (ExprKind_StructInit init)
               else
                 init ←? parse_array_init_expr (Some lhs); ok (ExprKind_ArrayInit init));
      id ← next_id;
      span ← prev_span;
      ok (Some (mkExpr id kind (Span.merge (expr_span lhs) span)))
  end.

Definition parse_fn_call (callee : Expr) : M (Result FnCall) :=
  eat_expect_or_report TokenTag.LParen;;
  args ←? loop loop_fuel (fun args =>
    token ← peek;
    if kind_eq (Token.kind token) RParen || Token.is_eof token then mret (Break (Ok args))
    else
      next ← peek_nth 1;
      let is_user_ident :=
        match Token.kind token, Token.kind next with
        | TokenKind.Ident _ (User | UserEscaped), Colon => true
        | _, _ => false
        end in
      arg ←! (if is_user_ident then
          ident ←? parse_ident;
          _ ←? eat_expect TokenTag.Colon;
          (if Ident.is_generic ident then
             self ← get;
             push_error (Diagnostic.with_note
               (error_at self (bytes_of "generic call arguments are no longer supported") (Ident.span ident))
               (bytes_of "use a normal named argument, such as `T: i32`"))
           else mret tt);;
          value ←? expect_expr;
          ok (Some (Arg_Named ident value))
        else
          expr ←? parse_expr;
          ok (Arg_Positional <$> expr));
      match arg with
      | None => mret (Break (Ok args))
      | Some arg =>
          let args := args ++ [arg] in
          more ← eats TokenTag.Comma;
          mret (if (more : bool) then Continue args else Break (Ok args))
      end) [];
  _ ←? eat_expect TokenTag.RParen;
  ok (mkFnCall callee args).

(** ** Bindings *)

Definition parse_var_binding : M (Result VarBinding) :=
  id ← next_id;
  r ← parse_user_ident;
  name ← ident_or_skip r TokenTag.Colon TokenTag.Eq;
  typed ← eats TokenTag.Colon;
  ty ← (if (typed : bool) then
      r ← expect_ty_expr;
      match r with
      | Ok ty => mret (Some ty)
      | Err err =>
          _ ← eat_until TokenTag.Eq;
          push_error err;;
          id ← next_id;
          span ← prev_span;
          mret (Some (mkExpr id (ExprKind_Type Type_Void) span))
      end
    else mret None);
  _ ←? eat_expect TokenTag.Eq;
  val ←? expect_expr;
  ok (mkVarBinding id name ty val).

(** ** Statements and blocks *)

(** [matches!(kind, RBrace | Comma | Eof)]. *)
Definition ends_statement (kind : TokenKind) : bool :=
  match kind with RBrace | Comma | Eof => true | _ => false end.

(** The optional expression of [return], [break] and [continue]. *)
Definition optional_value (m : M (Result Expr)) : M (Result (option Expr)) :=
  kind ← peek_kind;
  if negb (ends_statement kind) then value ←? m; ok (Some value) else ok None.

(** An expression, or an assignment. *)
Definition parse_expr_statement (ctx : Ctx) : M (Result StatementKind) :=
  expr ←? expect_expr_ctx ctx;
  op ← maybe_assign_op;
  match op with
  | Some op => rhs ←? expect_expr_ctx ctx; ok (StatementKind_Assign expr op rhs)
  | None => ok (StatementKind_Expr expr)
  end.

(** What follows [comptime]. *)
Definition parse_comptime_statement : M (Result StatementKind) :=
  kind ← peek_kind;
  _ ←? match kind with
    | KwConst | KwVar => advance;; ok tt
    | _ =>
        token ← peek; self ← get;
        err ← lift (diag_expected_one_of_token self [TokenTag.KwConst; TokenTag.KwVar] token);
        fail err
    end;
  var_binding ←? parse_var_binding;
  ok (StatementKind_ComptimeVarBinding var_binding).

Definition parse_statement_impl (ctx : Ctx) : M (Result Statement) :=
  id ← next_id;
  start_span ← peek_span;
  kind ← peek_kind;
  kind ←? match kind with
    | KwReturn =>
        advance;;
        expr ←? optional_value (expect_expr_ctx ctx);
        ok (StatementKind_Return expr)
    | KwDefer => advance;; expr ←? expect_expr_ctx ctx; ok (StatementKind_Defer expr)
    | KwErrdefer => advance;; expr ←? expect_expr_ctx ctx; ok (StatementKind_Errdefer expr)
    | KwContinue =>
        advance;;
        label ←? if_eats TokenTag.Colon parse_ident;
        value ←? optional_value expect_expr;
        ok (StatementKind_Continue label value)
    | KwBreak =>
        advance;;
        label ←? if_eats TokenTag.Colon parse_ident;
        value ←? optional_value expect_expr;
        ok (StatementKind_Break label value)
    | KwVar => advance;; var_binding ←? parse_var_binding; ok (StatementKind_Var var_binding)
    | KwConst => advance;; var_binding ←? parse_var_binding; ok (StatementKind_Const var_binding)
    | KwComptime => advance;; parse_comptime_statement
    | _ => parse_expr_statement ctx
    end;
  span ← prev_span;
  ok (mkStatement id kind (Span.merge start_span span)).

Definition parse_block_impl (label : option Ident.Ident) (is_const : bool) (start_span : Span.Span)
    (ctx : Ctx) : M (Result Block) :=
  stmts ←? eat_group TokenTag.LBrace TokenTag.RBrace (parse_statement_impl ctx);
  end_span ← prev_span;
  id ← next_id;
  ok (mkBlock id is_const label stmts (Span.merge start_span end_span)).

(** A block that starts at the current token. *)
Definition parse_block_here (label : option Ident.Ident) (ctx : Ctx) : M (Result Block) :=
  span ← peek_span; parse_block_impl label false span ctx.

(** ** Control flow *)

Definition parse_if_body (ctx : Ctx) : M (Result IfBody) :=
  brace ← peek_is LBrace;
  if (brace : bool) then block ←? parse_block_here None ctx; ok (IfBody_Block block)
  else expr ←? expect_expr_ctx ctx; ok (IfBody_Expr expr).

Definition parse_switch_body (ctx : Ctx) : M (Result SwitchBody) :=
  brace ← peek_is LBrace;
  if (brace : bool) then block ←? parse_block_here None ctx; ok (SwitchBody_Block block)
  else expr ←? expect_expr_ctx ctx; ok (SwitchBody_Expr expr).

(** The chain of [else] branches, from the inside out. *)
Definition else_chain (branches : list (NodeId * option Expr * IfBody * Span.Span)) : option ElseBlock :=
  fold_right (fun '(id, branch_cond, branch_body, span) else_block =>
    match branch_cond with
    | Some elif_cond => Some (ElseBlock_If (mkIf id elif_cond branch_body else_block span))
    | None => Some (ElseBlock_Body branch_body)
    end) None branches.

Definition is_if_body_expr (body : IfBody) : bool :=
  match body with IfBody_Expr _ => true | IfBody_Block _ => false end.

Definition parse_if_impl (ctx : Ctx) : M (Result ExprKind) :=
  start_span ← peek_span;
  _ ←? eat_expect TokenTag.KwIf;
  cond ←? expect_expr_ctx_no_init ctx;
  then_body ←? parse_if_body ctx;
  branches ←? loop loop_fuel (fun branches =>
    has_else ← eats TokenTag.KwElse;
    if negb has_else then mret (Break (Ok branches)) else
    has_if ← eats TokenTag.KwIf;
    if (has_if : bool) then
      elif_cond ←! expect_expr_ctx_no_init ctx;
      elif_body ←! parse_if_body ctx;
      id ← next_id;
      mret (Continue (branches ++ [(id, Some elif_cond, elif_body,
                                    Span.merge (expr_span elif_cond) (IfBody_span elif_body))]))
    else
      else_body ←! parse_if_body ctx;
      id ← next_id;
      mret (Break (Ok (branches ++ [(id, None, else_body, IfBody_span else_body)])))) [];
  if is_if_body_expr then_body && bool_decide (branches = []) then
    before ← prev; self ← get; fail (diag_expected_token self TokenTag.KwElse before)
  else
    id ← next_id;
    span ← prev_span;
    ok (ExprKind_If (mkIf id cond then_body (else_chain branches) (Span.merge start_span span))).

Definition parse_while_impl (label : option Ident.Ident) (inline : bool) (ctx : Ctx) : M (Result ExprKind) :=
  start_span ← peek_span;
  _ ←? eat_expect TokenTag.KwWhile;
  cond ←? expect_expr_ctx_no_init ctx;
  body ←? parse_block_here label ctx;
  id ← next_id;
  span ← prev_span;
  ok (ExprKind_While (mkWhile id inline cond body (Span.merge start_span span))).

Definition parse_for_impl (label : option Ident.Ident) (inline : bool) (ctx : Ctx) : M (Result ExprKind) :=
  start_span ← peek_span;
  _ ←? eat_expect TokenTag.KwFor;
  iter_var ←? expect_expr_ctx ctx;
  _ ←? eat_expect TokenTag.KwIn;
  iterable ←? expect_expr_ctx_no_init ctx;
  body ←? parse_block_here label ctx;
  id ← next_id;
  span ← prev_span;
  ok (ExprKind_For (mkFor id inline iter_var iterable body (Span.merge start_span span))).

Definition parse_loop_impl (label : option Ident.Ident) (ctx : Ctx) : M (Result ExprKind) :=
  _ ←? eat_expect TokenTag.KwLoop;
  body ←? parse_block_here label ctx;
  ok (ExprKind_Loop body).

(** [matches!(kind, RBrace | KwElse)]. *)
Definition ends_cases (kind : TokenKind) : bool :=
  match kind with RBrace | KwElse => true | _ => false end.

Definition not_fat_arrow (token : Token.Token) : bool :=
  match Token.kind token with FatArrow => false | _ => true end.

Definition parse_switch_case (ctx : Ctx) : M (Result SwitchCase) :=
  case_start_span ← peek_span;
  '(patterns, _) ←? eat_delimited_ctx TokenTag.Comma not_fat_arrow ctx;
  _ ←? eat_expect TokenTag.FatArrow;
  capture ←? if_eats TokenTag.Pipe (ident ←? parse_ident; _ ←? eat_expect TokenTag.Pipe; ok ident);
  body ←? parse_switch_body ctx;
  case_end_span ← prev_span;
  id ← next_id;
  ok (mkSwitchCase id patterns capture body (Span.merge case_start_span case_end_span)).

Definition parse_switch_impl (label : option Ident.Ident) (ctx : Ctx) : M (Result ExprKind) :=
  start_span ← peek_span;
  _ ←? eat_expect TokenTag.KwSwitch;
  expr ←? expect_expr_ctx_no_init ctx;
  _ ←? eat_expect TokenTag.LBrace;
  cases ←? loop loop_fuel (fun cases =>
    kind ← peek_kind;
    if ends_cases kind then mret (Break (Ok cases)) else
    case ←! parse_switch_case ctx;
    mret (Continue (cases ++ [case]))) [];
  has_else ← eats TokenTag.KwElse;
  '(else_capture, else_body) ←? (if (has_else : bool) then
      arrow ← eats TokenTag.FatArrow;
      if (arrow : bool) then body ←? parse_switch_body ctx; ok (None, Some body)
      else
        capture ←? expect_expr_ctx ctx;
        _ ←? eat_expect TokenTag.FatArrow;
        body ←? parse_switch_body ctx;
        ok (Some capture, Some body)
    else ok (None, None));
  _ ←? eat_expect TokenTag.RBrace;
  id ← next_id;
  span ← prev_span;
  ok (ExprKind_Switch (mkSwitch id label expr cases else_capture else_body (Span.merge start_span span))).

Definition parse_inline_loop (label : option Ident.Ident) (ctx : Ctx) : M (Result ExprKind) :=
  kind ← peek_kind;
  match kind with
  | KwFor => parse_for_impl label true ctx
  | KwWhile => parse_while_impl label true ctx
  | _ =>
      before ← prev; self ← get;
      err ← lift (diag_expected_inlinable self before);
      fail err
  end.

Definition parse_labeled_control_flow (label : option Ident.Ident) (ctx : Ctx) : M (Result ExprKind) :=
  kind ← peek_kind;
  match kind with
  | DirInline => advance;; parse_inline_loop label ctx
  | KwFor => parse_for_impl label false ctx
  | KwWhile => parse_while_impl label false ctx
  | KwLoop => parse_loop_impl label ctx
  | KwSwitch => parse_switch_impl label ctx
  | LBrace => block ←? parse_block_here label ctx; ok (ExprKind_Block block)
  | _ =>
      token ← peek; self ← get;
      err ← lift (diag_expected_one_of_token self
        [TokenTag.KwFor; TokenTag.KwWhile; TokenTag.KwLoop; TokenTag.KwSwitch; TokenTag.LBrace] token);
      fail err
  end.

End Stmt.
End ParserStmt.
