(* ===== verification/ParserDecl.v ===== *)
(** * Functions, structs, enums and unions ([src/frontend/parser.rs])

    Declarations.  The member loops of [parse_struct_decl], [parse_enum_decl]
    and [parse_union_decl] are one definition, [parse_members], with what
    differs between them as arguments. *)

From S2P Require Import Prelude Words Bytes Span Token Diagnostic Ast ParserCursor ParserStmt.

#[local] Open Scope Z_scope.
#[local] Open Scope parser_scope.

Module ParserDecl.
Import Token TokenKind Ast ParserCursor ParserOps ParserStmt.

Section Decl.
Context `{!SortedInsert, !Fuel, !Rec}.

(** ** Functions *)

(** One parameter of [parse_fn_decl]. *)
Definition parse_fn_param (is_type_decl : bool) : M (Result FnParam) :=
  id ← next_id;
  comptime ← eats TokenTag.KwComptime;
  const ← peek_is KwConst;
  (if (const : bool) then
     self ← get;
     span ← peek_span;
     push_error (Diagnostic.with_note
       (Diagnostic.with_label
         (Diagnostic.with_message Diagnostic.error (bytes_of "function parameters are `const` by default"))
         (Label.with_message (Label.with_span Label.primary (diag_span self span))
            (bytes_of "remove the `const` modifier")))
       (bytes_of "perhaps you meant `comptime` instead to have a comptime-known parameter"));;
     _ ← bump; mret tt
   else mret tt);;
  ident ←? parse_ident;
  (if Ident.is_generic ident then
     self ← get;
     push_error (Diagnostic.with_note
       (error_at self (bytes_of "positional generic parameters are no longer supported") (Ident.span ident))
       (bytes_of "use `comptime T: type` instead"))
   else mret tt);;
  (if is_type_decl && negb comptime then
     self ← get;
     span ← peek_span;
     push_error (Diagnostic.with_note
       (error_at self (bytes_of "type parameters must be comptime") span)
       (bytes_of "add the `const` modifier to the type parameter"))
   else mret tt);;
  _ ←? eat_expect TokenTag.Colon;
  ty ←? expect_ty_expr;
  ok (mkFnParam id comptime ident ty).

(** [matches!(kind, RParen | Ellipsis) || is_eof]. *)
Definition ends_params (token : Token.Token) : bool :=
  match Token.kind token with RParen | Ellipsis | Eof => true | _ => false end.

(** [let mut id = self.next_id(); self.next_id = id.as_u32();]: takes an
    identifier and gives it back. *)
Definition probe_id : M unit :=
  id ← next_id;
  self ← get;
  put (set_id_counter self (NonMaxU32.as_u32 id)).

Definition parse_fn_decl (is_type_decl : bool)
    : M (Result (list FnParam * option Expr * option Expr * bool)) :=
  eat_expect_or_report TokenTag.LParen;;
  params ←? loop loop_fuel (fun params =>
    token ← peek;
    if ends_params token then mret (Break (Ok params)) else
    param ←! parse_fn_param is_type_decl;
    let params := params ++ [param] in
    more ← eats TokenTag.Comma;
    mret (if (more : bool) then Continue params else Break (Ok params))) [];
  variadic ← eats TokenTag.Ellipsis;
  (if variadic && is_type_decl then
     before ← prev; self ← get;
     push_error (Diagnostic.with_note (diag_unexpected_token self before)
                   (bytes_of "variadic parameters are not allowed here"))
   else mret tt);;
  eat_expect_or_report TokenTag.RParen;;
  callconv ←? (if is_type_decl then ok None else
    if_eats TokenTag.DirCallconv
      (_ ←? eat_expect TokenTag.LParen;
       expr ←? expect_expr;
       _ ←? eat_expect TokenTag.RParen;
       ok expr));
  ret_ty ←? (if is_type_decl then ok None else ret_ty ←? expect_ty_expr; ok (Some ret_ty));
  probe_id;;
  ok (params, callconv, ret_ty, variadic).

Definition parse_associated_function (is_pub is_comptime : bool) (ext : Extern.Extern)
    (inline : Inline.Inline) (start_span : Span.Span) (allow_bodyless : bool) : M (Result AssociatedItem) :=
  id ← next_id;
  ident ←? parse_ident;
  if Ident.is_generic ident then
    self ← get;
    fail (error_at self (bytes_of "associated function name cannot be a generic identifier") (Ident.span ident))
  else
  '(params, callconv, ret_ty, variadic) ←? parse_fn_decl false;
  ret_ty ← lift (match ret_ty with Some ret_ty => Ret ret_ty | None => panic end);
  has_body ← peek_is LBrace;
  if negb has_body && bool_decide (ext = Extern.None) && negb allow_bodyless then
    before ← prev; self ← get; fail (diag_expected_token self TokenTag.LBrace before)
  else
  (if has_body && bool_decide (ext <> Extern.None) then
     self ← get;
     push_error (Diagnostic.with_note
       (error_at self (bytes_of "extern functions cannot have a body") (Ident.span ident))
       (bytes_of "remove the body or remove the `extern` modifier"))
   else mret tt);;
  block ←? (if (has_body : bool) then block ←? parse_block_here None Ctx_Value; ok (Some block)
            else ok None);
  span ← prev_span;
  ok (mkAssociatedItem id
        (AssociatedItemKind_Fn (mkFn ident ext inline is_comptime callconv variadic params ret_ty block))
        is_pub (Span.merge start_span span)).

Definition parse_associated_binding (is_pub : bool) (start_span : Span.Span) (is_const : bool)
    : M (Result AssociatedItem) :=
  id ← next_id;
  var_binding ←? parse_var_binding;
  span ← prev_span;
  ok (mkAssociatedItem id
        (if is_const then AssociatedItemKind_Const var_binding else AssociatedItemKind_Var var_binding)
        is_pub (Span.merge start_span span)).

(** ** Members *)

Definition parse_field_def (is_pub : bool) (start_span : Span.Span) : M (Result (FieldDef * bool)) :=
  id ← next_id;
  r ← parse_ident;
  ident ← ident_or_skip r TokenTag.Colon TokenTag.Comma;
  r ← eat_expect TokenTag.Colon;
  match r with
  | Err err => _ ← eat_until TokenTag.Comma; fail err
  | Ok _ =>
      ty ←? expect_ty_expr;
      default ←? if_eats TokenTag.Eq expect_expr;
      have_trailing_comma ← eats TokenTag.Comma;
      span ← prev_span;
      ok (mkFieldDef id ident is_pub ty default (Span.merge start_span span), have_trailing_comma)
  end.

Definition parse_enum_variant_def (start_span : Span.Span) : M (Result (EnumVariantDef * bool)) :=
  id ← next_id;
  r ← parse_ident;
  ident ← ident_or_skip r TokenTag.Colon TokenTag.Comma;
  value ←? if_eats TokenTag.Eq expect_expr;
  have_trailing_comma ← eats TokenTag.Comma;
  span ← prev_span;
  ok (mkEnumVariantDef id ident value (Span.merge start_span span), have_trailing_comma).

Definition parse_union_field_def (start_span : Span.Span) : M (Result (UnionFieldDef * bool)) :=
  id ← next_id;
  r ← parse_ident;
  ident ← ident_or_skip r TokenTag.Colon TokenTag.Comma;
  ty ←? if_eats TokenTag.Colon expect_ty_expr;
  have_trailing_comma ← eats TokenTag.Comma;
  span ← prev_span;
  ok (mkUnionFieldDef id ident ty (Span.merge start_span span), have_trailing_comma).

(** A member that is neither a function nor a binding: a field, or a token to
    report. *)
Definition parse_field_member {F} (parse_field : bool -> Span.Span -> M (Result (F * bool)))
    (is_pub : bool) (start_span : Span.Span) (fields : list F) (items : list AssociatedItem)
    : M (list F * list AssociatedItem * bool) :=
  kind ← peek_kind;
  match kind with
  | TokenKind.Ident _ _ =>
      r ← parse_field is_pub start_span;
      match r with
      | Ok (field, have_trailing_comma) => mret (fields ++ [field], items, have_trailing_comma)
      | Err err => push_error err;; mret (fields, items, true)
      end
  | _ =>
      tok ← bump;
      self ← get;
      push_error (diag_unexpected_token self tok);;
      mret (fields, items, true)
  end.

(** One turn of a member loop, without the missing comma of the turn before.
    Only structs read [comptime]; in the others a [const] before [fn] makes the
    function one of compile time. *)
Definition parse_member {F} (comptime_kw : bool) (parse_field : bool -> Span.Span -> M (Result (F * bool)))
    (fields : list F) (items : list AssociatedItem) : M (list F * list AssociatedItem * bool) :=
  start_span ← peek_span;
  is_pub ← eats TokenTag.KwPub;
  '(ext, inline) ← parse_decl_modifiers;
  is_comptime ← (if comptime_kw then eats TokenTag.KwComptime else mret false);
  is_const ← eats TokenTag.KwConst;
  is_var ← (if (is_const : bool) then mret false else eats TokenTag.KwVar);
  is_fn ← eats TokenTag.KwFn;
  if (is_fn : bool) then
    r ← parse_associated_function is_pub (if comptime_kw then is_comptime else is_const) ext inline
          start_span false;
    match r with
    | Ok item => mret (fields, items ++ [item], true)
    | Err err => push_error err;; mret (fields, items, true)
    end
  else if is_const || is_var then
    r ← parse_associated_binding is_pub start_span is_const;
    match r with
    | Ok item => mret (fields, items ++ [item], true)
    | Err err => push_error err;; mret (fields, items, true)
    end
  else parse_field_member parse_field is_pub start_span fields items.

Definition parse_members {F} (comptime_kw is_root : bool)
    (parse_field : bool -> Span.Span -> M (Result (F * bool))) : M (list F * list AssociatedItem) :=
  loop loop_fuel (fun '(fields, items, prev_field_have_comma) =>
    tok ← peek;
    if (is_root || negb (kind_eq (Token.kind tok) RBrace)) && negb (kind_eq (Token.kind tok) Eof) then
      (if (prev_field_have_comma : bool) then mret tt
       else self ← get; push_error (diag_expected_token self TokenTag.Comma tok));;
      s ← parse_member comptime_kw parse_field fields items;
      mret (Continue s)
    else mret (Break (fields, items))) ([], [], true).

(** ** Declarations *)

(** [{], skipping to [}] when it is not there. *)
Definition open_brace (is_root : bool) : M (Result unit) :=
  if is_root then ok tt else
  r ← eat_expect TokenTag.LBrace;
  match r with
  | Ok _ => ok tt
  | Err err => _ ← eat_until TokenTag.RBrace; fail err
  end.

Definition close_brace (is_root : bool) : M (Result unit) :=
  if is_root then ok tt else _ ←? eat_expect TokenTag.RBrace; ok tt.

Definition parse_struct_decl (is_root is_packed is_linear : bool) (start_span : Span.Span)
    : M (Result StructTy) :=
  _ ←? open_brace is_root;
  members ← parse_members true is_root parse_field_def;
  _ ←? close_brace is_root;
  end_span ← peek_span;
  ok (mkStructTy (fst members) (snd members) is_packed is_linear (Span.merge start_span end_span)).

Definition parse_enum_decl (is_root is_packed is_linear : bool) (start_span : Span.Span)
    : M (Result EnumTy) :=
  tagged ← peek_is LParen;
  tag_ty ←? (if (tagged : bool) then
      _ ←? eat_expect TokenTag.LParen;
      expr ←? expect_expr;
      _ ←? eat_expect TokenTag.RParen;
      ok (Some expr)
    else ok None);
  _ ←? open_brace is_root;
  members ← parse_members false is_root (fun _ => parse_enum_variant_def);
  _ ←? close_brace is_root;
  end_span ← peek_span;
  ok (mkEnumTy tag_ty (fst members) (snd members) is_linear (Span.merge start_span end_span)).

Definition parse_union_tag : M (Result UnionTagKind) :=
  tagged ← peek_is LParen;
  if (tagged : bool) then
    _ ←? eat_expect TokenTag.LParen;
    auto ← eats TokenTag.KwEnum;
    if (auto : bool) then _ ←? eat_expect TokenTag.RParen; ok UnionTagKind_AutoEnum
    else
      expr ←? expect_expr;
      _ ←? eat_expect TokenTag.RParen;
      ok (UnionTagKind_Enum expr)
  else ok UnionTagKind_Bare.

Definition parse_union_decl (is_root is_linear : bool) (start_span : Span.Span) : M (Result UnionTy) :=
  tag ←? parse_union_tag;
  _ ←? open_brace is_root;
  members ← parse_members false is_root (fun _ => parse_union_field_def);
  _ ←? close_brace is_root;
  end_span ← peek_span;
  ok (mkUnionTy tag (fst members) (snd members) is_linear (Span.merge start_span end_span)).

End Decl.
End ParserDecl.
