(* ===== verification/ParserExpr.v ===== *)
(** * Expressions and modules ([src/frontend/parser.rs])

    Type expressions, operators with their binding powers, and primary
    expressions; then [Expr_knot], which gives [parse_expr_precedence] and
    [parse_ty_expr] their meaning with a fuel, [Parser::new] on the token stream
    of the lexer, and [parse_module].  A type the parser keeps in
    [common_types] is the type itself. *)

From S2P Require Import Prelude Words Bytes Span Token Diagnostic Ast ParserCursor ParserStmt ParserDecl.
From S2P Require Lexer.

#[local] Open Scope Z_scope.
#[local] Open Scope parser_scope.

(** ** Infix operators *)

Module InfixOpKind.
Inductive InfixOpKind : Set :=
  | Add | AddSat | Sub | SubSat | Mul | MulSat | Div | Rem | Shl | ShlSat | ShlWrap
  | Shr | ShrSat | ShrWrap | BitAnd | BitOr | BitXor | Lt | Lte | Gt | Gte | BoolAnd | BoolOr
  | Eq | Neq.
End InfixOpKind.

Module InfixOp.
Record InfixOp : Set := mk { lbp : Z; rbp : Z; kind : InfixOpKind.InfixOpKind }.
Definition left (lbp : Z) (kind : InfixOpKind.InfixOpKind) : InfixOp := mk lbp (lbp + 1) kind.
Definition right (lbp : Z) (kind : InfixOpKind.InfixOpKind) : InfixOp := mk lbp lbp kind.
End InfixOp.

Module ParserExpr.
Import Token TokenKind Ast ParserCursor ParserOps ParserStmt ParserDecl.

(** The table of [infix_op]. *)
Definition infix_table (kind : TokenKind) : option (Z * InfixOpKind.InfixOpKind) :=
  match kind with
  | Plus => Some (50, InfixOpKind.Add)
  | PlusPipe => Some (50, InfixOpKind.AddSat)
  | Minus => Some (50, InfixOpKind.Sub)
  | MinusPipe => Some (50, InfixOpKind.SubSat)
  | Star => Some (60, InfixOpKind.Mul)
  | StarPipe => Some (60, InfixOpKind.MulSat)
  | Slash => Some (60, InfixOpKind.Div)
  | Percent => Some (60, InfixOpKind.Rem)
  | Amp => Some (30, InfixOpKind.BitAnd)
  | Pipe => Some (20, InfixOpKind.BitOr)
  | Caret => Some (25, InfixOpKind.BitXor)
  | Lt => Some (35, InfixOpKind.Lt)
  | LtEq => Some (35, InfixOpKind.Lte)
  | Gt => Some (35, InfixOpKind.Gt)
  | GtEq => Some (35, InfixOpKind.Gte)
  | KwAnd => Some (15, InfixOpKind.BoolAnd)
  | KwOr => Some (10, InfixOpKind.BoolOr)
  | EqEq => Some (30, InfixOpKind.Eq)
  | BangEq => Some (30, InfixOpKind.Neq)
  | LtLt => Some (40, InfixOpKind.Shl)
  | LtLtPipe => Some (40, InfixOpKind.ShlSat)
  | LtLtPercent => Some (40, InfixOpKind.ShlWrap)
  | GtGt => Some (40, InfixOpKind.Shr)
  | GtGtPipe => Some (40, InfixOpKind.ShrSat)
  | GtGtPercent => Some (40, InfixOpKind.ShrWrap)
  | _ => None
  end.

Definition infix_op (kind : TokenKind) : M (option InfixOp.InfixOp) :=
  match infix_table kind with
  | Some (lbp, op_kind) => advance;; mret (Some (InfixOp.left lbp op_kind))
  | None => mret None
  end.

Definition bin_op (op : InfixOpKind.InfixOpKind) (lhs rhs : Expr) : ExprKind :=
  let bin_op := mkBinOp lhs rhs in
  match op with
  | InfixOpKind.Add => ExprKind_Add bin_op
  | InfixOpKind.AddSat => ExprKind_AddSat bin_op
  | InfixOpKind.Sub => ExprKind_Sub bin_op
  | InfixOpKind.SubSat => ExprKind_SubSat bin_op
  | InfixOpKind.Mul => ExprKind_Mul bin_op
  | InfixOpKind.MulSat => ExprKind_MulSat bin_op
  | InfixOpKind.Div => ExprKind_Div bin_op
  | InfixOpKind.Rem => ExprKind_Rem bin_op
  | InfixOpKind.Shl => ExprKind_Shl bin_op
  | InfixOpKind.ShlSat => ExprKind_ShlSat bin_op
  | InfixOpKind.ShlWrap => ExprKind_ShlWrap bin_op
  | InfixOpKind.Shr => ExprKind_Shr bin_op
  | InfixOpKind.ShrSat => ExprKind_ShrSat bin_op
  | InfixOpKind.ShrWrap => ExprKind_ShrWrap bin_op
  | InfixOpKind.BitAnd => ExprKind_BitAnd bin_op
  | InfixOpKind.BitOr => ExprKind_BitOr bin_op
  | InfixOpKind.BitXor => ExprKind_BitXor bin_op
  | InfixOpKind.Lt => ExprKind_Lt bin_op
  | InfixOpKind.Lte => ExprKind_Lte bin_op
  | InfixOpKind.Gt => ExprKind_Gt bin_op
  | InfixOpKind.Gte => ExprKind_Gte bin_op
  | InfixOpKind.BoolAnd => ExprKind_BoolAnd bin_op
  | InfixOpKind.BoolOr => ExprKind_BoolOr bin_op
  | InfixOpKind.Eq => ExprKind_Eq bin_op
  | InfixOpKind.Neq => ExprKind_Neq bin_op
  end.

Inductive PrefixTyLayer : Set :=
  | Layer_Nullable (start_span : Span.Span)
  | Layer_Ptr (start_span : Span.Span) (modifiers : PtrModifiers)
  | Layer_ManyPtr (start_span : Span.Span) (sentinel : option Expr) (modifiers : PtrModifiers)
  | Layer_Slice (start_span : Span.Span) (sentinel : option Expr) (modifiers : PtrModifiers)
  | Layer_Array (start_span : Span.Span) (size sentinel : option Expr) (is_const : bool).

Inductive PrefixExprLayer : Set := Neg | Pos | Not | BitNot | AddressOf | Try.

Section Expr.
Context `{!SortedInsert, !Fuel, !Rec}.

(** ** Type expressions *)

Definition parse_ptr_modifiers : M (Result PtrModifiers) :=
  loop loop_fuel (fun '(saw_const, saw_volatile, saw_addrspace, addrspace) =>
    let redundant (saw : bool) (qualifier : list Z) : M unit :=
      if saw then self ← get; span ← peek_span; push_error_last (diag_redundant_qualifier self qualifier span)
      else mret tt in
    kind ← peek_kind;
    match kind with
    | KwConst =>
        redundant saw_const (bytes_of "const");;
        advance;;
        mret (Continue (true, saw_volatile, saw_addrspace, addrspace))
    | DirVolatile =>
        redundant saw_volatile (bytes_of "volatile");;
        advance;;
        mret (Continue (saw_const, true, saw_addrspace, addrspace))
    | DirAddrspace =>
        redundant saw_addrspace (bytes_of "addrspace");;
        advance;;
        _ ←! eat_expect TokenTag.LParen;
        expr ←! expect_expr;
        _ ←! eat_expect TokenTag.RParen;
        mret (Continue (saw_const, saw_volatile, true, Some expr))
    | _ => mret (Break (Ok (mkPtrModifiers saw_const saw_volatile addrspace)))
    end) (false, false, false, None).

(** [N], [N:sentinel] or [_] after [[]. *)
Definition parse_array_layer (start_span : Span.Span) (kind : TokenKind) : M (Result PrefixTyLayer) :=
  let inferred :=
    match kind with
    | TokenKind.Ident symbol User => bool_decide (symbol = bytes_of "_")
    | _ => false
    end in
  size ←? (if inferred then advance;; ok None else size ←? expect_expr; ok (Some size));
  sentinel ←? if_eats TokenTag.Colon expect_expr;
  _ ←? eat_expect TokenTag.RBracket;
  is_const ← eats TokenTag.KwConst;
  ok (Layer_Array start_span size sentinel is_const).

(** The layer of one turn of the loop of [parse_prefixed_ty_expr] at [[]. *)
Definition parse_bracket_layer (start_span : Span.Span) : M (Result PrefixTyLayer) :=
  kind ← peek_kind;
  match kind with
  | Star =>
      advance;;
      sentinel ←? if_eats TokenTag.Colon expect_expr;
      _ ←? eat_expect TokenTag.RBracket;
      modifiers ←? parse_ptr_modifiers;
      ok (Layer_ManyPtr start_span sentinel modifiers)
  | RBracket =>
      advance;;
      modifiers ←? parse_ptr_modifiers;
      ok (Layer_Slice start_span None modifiers)
  | Colon =>
      advance;;
      sentinel ←? expect_expr;
      _ ←? eat_expect TokenTag.RBracket;
      modifiers ←? parse_ptr_modifiers;
      ok (Layer_Slice start_span (Some sentinel) modifiers)
  | _ => parse_array_layer start_span kind
  end.

(** [while let Some(layer) = layers.pop()]: the head is the top of the stack. *)
Fixpoint wrap_ty_layers (layers : list PrefixTyLayer) (expr : Expr) : M Expr :=
  match layers with
  | [] => mret expr
  | layer :: layers =>
      let '(kind, start_span) :=
        match layer with
        | Layer_Nullable start_span => (Type_Nullable expr, start_span)
        | Layer_Ptr start_span modifiers => (Type_Ptr expr modifiers, start_span)
        | Layer_ManyPtr start_span sentinel modifiers => (Type_ManyPtr expr sentinel modifiers, start_span)
        | Layer_Slice start_span sentinel modifiers => (Type_Slice expr sentinel modifiers, start_span)
        | Layer_Array start_span size sentinel is_const =>
            (Type_Array expr is_const size sentinel, start_span)
        end in
      id ← next_id;
      wrap_ty_layers layers (mkExpr id (ExprKind_Type kind) (Span.merge start_span (expr_span expr)))
  end.

Definition parse_prefixed_ty_expr : M (Result (option Expr)) :=
  layers ←? loop loop_fuel (fun layers =>
    start_span ← peek_span;
    kind ← peek_kind;
    match kind with
    | QuestionMark => advance;; mret (Continue (Layer_Nullable start_span :: layers))
    | Star =>
        advance;;
        modifiers ←! parse_ptr_modifiers;
        mret (Continue (Layer_Ptr start_span modifiers :: layers))
    | StarStar =>
        advance;;
        modifiers ←! parse_ptr_modifiers;
        mret (Continue (Layer_Ptr start_span modifiers :: Layer_Ptr start_span modifiers :: layers))
    | LBracket =>
        advance;;
        layer ←! parse_bracket_layer start_span;
        mret (Continue (layer :: layers))
    | _ => mret (Break (Ok layers))
    end) [];
  expr ←? expect_ty_expr;
  expr ← wrap_ty_layers layers expr;
  ok (Some expr).

(** [Ok(Some(Expr { id: self.next_id(), kind, span: (lhs.span, self.prev().span).into() }))]. *)
Definition suffix_expr (lhs : Expr) (kind : ExprKind) : M (Result (option Expr)) :=
  id ← next_id;
  span ← prev_span;
  ok (Some (mkExpr id kind (Span.merge (expr_span lhs) span))).

Definition index_expr (lhs : Expr) (kind : IndexKind) : M (Result (option Expr)) :=
  suffix_expr lhs (ExprKind_Index (mkIndex lhs kind)).

(** After [..]: an end, or []] at once. *)
Definition parse_range_end : M (Result (option Expr)) :=
  kind ← peek_kind;
  match kind with
  | RBracket => advance;; ok None
  | _ => end_ ←? expect_expr; _ ←? eat_expect TokenTag.RBracket; ok (Some end_)
  end.

(** After [..=]. *)
Definition parse_inclusive_end : M (Result Expr) :=
  end_ ←? expect_expr; _ ←? eat_expect TokenTag.RBracket; ok end_.

(** After the first expression in brackets. *)
Definition parse_index_rest (lhs start_or_index : Expr) : M (Result (option Expr)) :=
  kind ← peek_kind;
  match kind with
  | DotDot =>
      advance;;
      end_ ←? parse_range_end;
      index_expr lhs (IndexKind_Range (Some start_or_index) end_)
  | DotDotEq =>
      advance;;
      end_ ←? parse_inclusive_end;
      index_expr lhs (IndexKind_RangeInclusive (Some start_or_index) end_)
  | RBracket =>
      advance;;
      index_expr lhs (IndexKind_Index start_or_index)
  | _ =>
      token ← peek; self ← get;
      err ← lift (diag_expected_one_of_token self
        [TokenTag.DotDot; TokenTag.DotDotEq; TokenTag.RBracket] token);
      fail err
  end.

(** The arm [[] of [parse_suffix_ty_op]. *)
Definition parse_index_op (lhs : Expr) : M (Result (option Expr)) :=
  kind ← peek_kind;
  match kind with
  | DotDot =>
      advance;;
      end_ ←? parse_range_end;
      index_expr lhs (IndexKind_Range None end_)
  | DotDotEq =>
      advance;;
      end_ ←? parse_inclusive_end;
      index_expr lhs (IndexKind_RangeInclusive None end_)
  | _ => start_or_index ←? expect_expr; parse_index_rest lhs start_or_index
  end.

(** A misplaced token after [.]: reported, and no suffix. *)
Definition report_misplaced (note : list Z) : M (Result (option Expr)) :=
  token ← peek;
  before ← prev_span;
  self ← get;
  push_error (Diagnostic.with_note
    (Diagnostic.with_label (diag_unexpected_token self token)
       (Label.with_span Label.secondary (diag_span self (Span.merge before (Token.span token)))))
    note);;
  ok None.

(** The arm [.] of [parse_suffix_ty_op]. *)
Definition parse_dot_op (lhs : Expr) : M (Result (option Expr)) :=
  kind ← peek_kind;
  match kind with
  | TokenKind.Ident _ (User | UserEscaped) =>
      ident ←? parse_user_ident;
      span ← prev_span;
      suffix_expr lhs (ExprKind_FieldAccess (mkFieldAccess lhs ident (Span.merge (expr_span lhs) span)))
  | QuestionMark =>
      advance;;
      report_misplaced (bytes_of "did you mean to use the nullable unwrap operator `.?`?")
  | Star =>
      advance;;
      report_misplaced (bytes_of "did you mean to use the dereference operator `.*`?")
  | LBrace => report_misplaced (bytes_of "did you mean to use a struct initialization expression?")
  | _ => token ← peek; self ← get; fail (diag_unexpected_token self token)
  end.

Definition parse_suffix_ty_op (lhs : Expr) : M (Result (option Expr)) :=
  kind ← peek_kind;
  match kind with
  | LBracket => advance;; parse_index_op lhs
  | DotStar => advance;; suffix_expr lhs (ExprKind_Deref lhs)
  | DotQuestionMark => advance;; suffix_expr lhs (ExprKind_UnwrapNullable lhs)
  | Dot => advance;; parse_dot_op lhs
  | _ => ok None
  end.

(** [let span = (start_span, self.prev().span).into(); Ok(Some(Expr { id:
    self.next_id(), kind, span }))]. *)
Definition finish (start_span : Span.Span) (kind : ExprKind) : M (Result (option Expr)) :=
  span ← prev_span;
  id ← next_id;
  ok (Some (mkExpr id kind (Span.merge start_span span))).

(** [while let Some(start_span) = starts.pop()] of the two [group] functions. *)
Fixpoint close_groups (starts : list Span.Span) (expr : Expr) : M (Result Expr) :=
  match starts with
  | [] => ok expr
  | start_span :: starts =>
      _ ←? eat_expect TokenTag.RParen;
      span ← prev_span;
      id ← next_id;
      close_groups starts (mkExpr id (ExprKind_Group expr) (Span.merge start_span span))
  end.

(** The spans of a run of [(], the last one first. *)
Definition open_groups : M (list Span.Span) :=
  loop loop_fuel (fun starts =>
    paren ← peek_is LParen;
    if (paren : bool) then span ← peek_span; advance;; mret (Continue (span :: starts))
    else mret (Break starts)) [].

Definition parse_group_ty_expr : M (Result (option Expr)) :=
  starts ← open_groups;
  expr ←? expect_ty_expr;
  expr ←? close_groups starts expr;
  ok (Some expr).

(** The lines of a multi-line string, joined by newlines. *)
Definition multi_line_str (bytes : list Z) : M (list Z) :=
  loop loop_fuel (fun buffer =>
    kind ← peek_kind;
    match kind with
    | LitMultiLineStr symbol => advance;; mret (Continue (buffer ++ [byte "010"] ++ symbol))
    | _ => mret (Break buffer)
    end) bytes.

(** The arm [.] of [parse_primary_ty_expr]: [None] when it is left to
    [parse_init_expr], with the cursor still at the dot. *)
Definition parse_dot_literal : M (Result (option ExprKind)) :=
  next ← peek_nth 1;
  match Token.kind next with
  | TokenKind.Ident _ (User | UserEscaped) =>
      advance;;
      token ← bump;
      match Token.kind token with
      | TokenKind.Ident symbol _ => ok (Some (ExprKind_Lit (Lit.EnumVariant symbol)))
      | _ => unreachable_unchecked
      end
  | LBrace =>
      advance;;
      is_struct ← starts_struct_init;
      if (is_struct : bool) then
        init ←? parse_struct_init_expr None; ok (Some (ExprKind_StructInit init))
      else
        init ←? parse_array_init_expr None; ok (Some (ExprKind_ArrayInit init))
  | _ => ok None
  end.

(** The arm [#linear]. *)
Definition parse_linear_ty (start_span : Span.Span) : M (Result Type_) :=
  kind ← peek_kind;
  match kind with
  | DirPacked =>
      advance;;
      _ ←? eat_expect TokenTag.KwStruct;
      struct_decl ←? parse_struct_decl false true true start_span;
      ok (Type_Struct struct_decl)
  | KwStruct =>
      advance;; struct_decl ←? parse_struct_decl false false true start_span; ok (Type_Struct struct_decl)
  | KwEnum =>
      advance;; enum_decl ←? parse_enum_decl false false true start_span; ok (Type_Enum enum_decl)
  | KwUnion =>
      advance;; union_decl ←? parse_union_decl false true start_span; ok (Type_Union union_decl)
  | _ => tok ← bump; self ← get; fail (diag_expected_token self TokenTag.KwStruct tok)
  end.

Definition builtin_ty (kind : TokenKind) : option Type_ :=
  match kind with
  | TyUsize => Some (Type_Int IntSuffix.Usize)
  | TyIsize => Some (Type_Int IntSuffix.Isize)
  | TyU bits => Some (Type_Int (IntSuffix.U bits))
  | TyI bits => Some (Type_Int (IntSuffix.I bits))
  | TyF16 => Some (Type_Float FloatSuffix.F16)
  | TyF32 => Some (Type_Float FloatSuffix.F32)
  | TyF64 => Some (Type_Float FloatSuffix.F64)
  | TyF128 => Some (Type_Float FloatSuffix.F128)
  | TyBool => Some Type_Bool
  | TyVoid => Some Type_Void
  | TyNever => Some Type_Never
  | TyAnyptr => Some Type_Anyptr
  | TyAnyint => Some Type_Anyint
  | TyAnyfloat => Some Type_Anyfloat
  | TyType => Some Type_Type
  | _ => None
  end.

(** [label: ...] at an identifier, which both kinds of primary expression have. *)
Definition parse_labeled (start_span : Span.Span) (ctx : Ctx) : M (Result (option Expr)) :=
  ident ←? parse_user_ident;
  _ ←? eat_expect TokenTag.Colon;
  kind ←? parse_labeled_control_flow (Some ident) ctx;
  finish start_span kind.

(** [self.peek_nth(1).kind == TokenKind::Colon]. *)
Definition colon_follows : M bool := next ← peek_nth 1; mret (kind_eq (Token.kind next) Colon).

(** The control flow that starts with a keyword. *)
Definition parse_control_flow (kind : TokenKind) (ctx : Ctx) : M (Result ExprKind) :=
  match kind with
  | KwIf => parse_if_impl ctx
  | KwWhile => parse_while_impl None false ctx
  | KwFor => parse_for_impl None false ctx
  | KwLoop => parse_loop_impl None ctx
  | KwSwitch => parse_switch_impl None ctx
  | _ => advance;; parse_inline_loop None ctx
  end.

Definition parse_primary_ty_expr : M (Result (option Expr)) :=
  start_span ← peek_span;
  kind ← peek_kind;
  let ident_expr :=
    generic_ident ←? parse_ident; finish start_span (ExprKind_Ident generic_ident) in
  match kind with
  | LitChar chr => advance;; finish start_span (ExprKind_Lit (Lit.Char chr))
  | LitStr symbol => advance;; finish start_span (ExprKind_Lit (Lit.Str symbol))
  | LitMultiLineStr bytes =>
      advance;; buffer ← multi_line_str bytes; finish start_span (ExprKind_Lit (Lit.Str buffer))
  | LitInt symbol radix =>
      advance;;
      suffix ← maybe_parse_int_suffix;
      finish start_span (ExprKind_Lit (Lit.Integer symbol radix suffix))
  | LitFloat symbol =>
      advance;;
      suffix ← maybe_parse_float_suffix;
      finish start_span (ExprKind_Lit (Lit.Float symbol suffix))
  | LitBool value => advance;; finish start_span (ExprKind_Lit (Lit.Bool value))
  | KwUndefined => advance;; finish start_span ExprKind_Undefined
  | Dot =>
      lit ←? parse_dot_literal;
      match lit with
      | Some kind => finish start_span kind
      | None => parse_init_expr
      end
  | TokenKind.Ident _ Builtin =>
      ident ←? parse_ident;
      id ← next_id;
      span ← prev_span;
      fn_call ←? parse_fn_call (mkExpr id (ExprKind_Ident ident) (Span.merge start_span span));
      finish start_span (ExprKind_FnCall fn_call)
  | DirLinear =>
      advance;; ty ←? parse_linear_ty start_span; finish start_span (ExprKind_Type ty)
  | DirPacked =>
      advance;;
      _ ←? eat_expect TokenTag.KwStruct;
      struct_decl ←? parse_struct_decl false true false start_span;
      finish start_span (ExprKind_Type (Type_Struct struct_decl))
  | KwStruct =>
      advance;;
      struct_decl ←? parse_struct_decl false false false start_span;
      finish start_span (ExprKind_Type (Type_Struct struct_decl))
  | KwEnum =>
      advance;;
      enum_decl ←? parse_enum_decl false false false start_span;
      finish start_span (ExprKind_Type (Type_Enum enum_decl))
  | KwUnion =>
      advance;;
      union_decl ←? parse_union_decl false false start_span;
      finish start_span (ExprKind_Type (Type_Union union_decl))
  | LParen => parse_group_ty_expr
  | TokenKind.Ident _ User =>
      colon ← colon_follows;
      if (colon : bool) then parse_labeled start_span Ctx_Ty else ident_expr
  | TokenKind.Ident _ _ => ident_expr
  | KwIf | KwWhile | KwFor | KwLoop | KwSwitch | DirInline =>
      kind ←? parse_control_flow kind Ctx_Ty; finish start_span kind
  | _ =>
      match builtin_ty kind with
      | Some ty => advance;; finish start_span (ExprKind_Type ty)
      | None => ok None
      end
  end.

Definition parse_suffix_ty_expr : M (Result (option Expr)) :=
  start_span ← peek_span;
  primary ←? parse_primary_ty_expr;
  match primary with
  | None => ok None
  | Some expr =>
      loop loop_fuel (fun '(expr, just_called) =>
        suffix_op ←! parse_suffix_ty_op expr;
        match suffix_op with
        | Some suffix_op => mret (Continue (suffix_op, false))
        | None =>
            paren ← peek_is LParen;
            if just_called || negb paren then mret (Break (Ok (Some expr)))
            else
              fn_call ←! parse_fn_call expr;
              span ← prev_span;
              id ← next_id;
              mret (Continue (mkExpr id (ExprKind_FnCall fn_call) (Span.merge start_span span), true))
        end) (expr, false)
  end.

Definition parse_ty_expr_body : M (Result (option Expr)) :=
  kind ← peek_kind;
  match kind with
  | QuestionMark | Star | StarStar | LBracket => parse_prefixed_ty_expr
  | _ => parse_suffix_ty_expr
  end.

(** ** Value expressions *)

Definition parse_group_expr (allow_init : bool) : M (Result (option Expr)) :=
  starts ← open_groups;
  expr ←? (if allow_init then expect_expr else expect_expr_no_init);
  expr ←? close_groups starts expr;
  ok (Some expr).

Definition parse_primary_expr (allow_init : bool) : M (Result (option Expr)) :=
  token ← peek;
  let start_span := Token.span token in
  let other := if allow_init then parse_init_expr else parse_ty_expr in
  match Token.kind token with
  | LParen => parse_group_expr allow_init
  | LBrace =>
      block ←? parse_block_impl None false start_span Ctx_Value;
      finish start_span (ExprKind_Block block)
  | TokenKind.Ident _ User =>
      colon ← colon_follows;
      if (colon : bool) then parse_labeled start_span Ctx_Value else other
  | KwIf | KwWhile | KwFor | KwLoop | KwSwitch | DirInline =>
      kind ←? parse_control_flow (Token.kind token) Ctx_Value; finish start_span kind
  | Underscore => advance;; finish start_span ExprKind_Discard
  | _ => other
  end.

Definition prefix_layer (kind : TokenKind) : option PrefixExprLayer :=
  match kind with
  | Minus => Some Neg | Plus => Some Pos | Bang => Some Not | Tilde => Some BitNot
  | Amp => Some AddressOf | KwTry => Some Try
  | _ => None
  end.

(** The prefix operators, the last one first. *)
Definition parse_prefix_layers : M (list (PrefixExprLayer * Span.Span)) :=
  loop loop_fuel (fun layers =>
    start_span ← peek_span;
    kind ← peek_kind;
    match prefix_layer kind with
    | Some layer => advance;; mret (Continue ((layer, start_span) :: layers))
    | None => mret (Break layers)
    end) [].

Definition prefix_kind (layer : PrefixExprLayer) (expr : Expr) : ExprKind :=
  match layer with
  | Neg => ExprKind_Neg expr
  | Pos => ExprKind_Pos expr
  | Not => ExprKind_Not expr
  | BitNot => ExprKind_BitNot expr
  | AddressOf => ExprKind_AddressOf expr
  | Try => ExprKind_Try expr
  end.

Fixpoint wrap_layers (layers : list (PrefixExprLayer * Span.Span)) (expr : Expr) : M Expr :=
  match layers with
  | [] => mret expr
  | (layer, start_span) :: layers =>
      id ← next_id;
      wrap_layers layers
        (mkExpr id (prefix_kind layer expr) (Span.merge start_span (expr_span expr)))
  end.

Definition parse_prefix_expr (allow_init : bool) : M (Result (option Expr)) :=
  layers ← parse_prefix_layers;
  match layers with
  | [] => parse_primary_expr allow_init
  | _ =>
      expr ←? or_expected_expression (parse_primary_expr allow_init);
      expr ← wrap_layers layers expr;
      ok (Some expr)
  end.

Definition expect_prefix_expr (allow_init : bool) : M (Result Expr) :=
  or_expected_expression (parse_prefix_expr allow_init).

(** [self.offset = start]. *)
Definition reset (start : Parser) : M unit := self ← get; put (set_offset self (offset start)).

(** The infix operator at the cursor, read past unless it binds less tightly
    than [min_bp] or an [=] follows it. *)
Definition next_infix (min_bp : Z) : M (option InfixOp.InfixOp) :=
  start ← get;
  current ← peek_kind;
  op ← infix_op current;
  match op with
  | None => reset start;; mret None
  | Some op =>
      stop ← (if InfixOp.lbp op <? min_bp then mret true else peek_is Eq);
      if (stop : bool) then reset start;; mret None else mret (Some op)
  end.

Definition parse_expr_precedence_body (min_bp : Z) (allow_init : bool) : M (Result (option Expr)) :=
  prefix ←? parse_prefix_expr allow_init;
  match prefix with
  | None => ok None
  | Some lhs =>
      loop loop_fuel (fun lhs =>
        op ← next_infix min_bp;
        match op with
        | None => mret (Break (Ok (Some lhs)))
        | Some op =>
            rhs ←! or_expected_expression (parse_expr_precedence (InfixOp.rbp op) allow_init);
            id ← next_id;
            mret (Continue (mkExpr id (bin_op (InfixOp.kind op) lhs rhs)
                              (Span.merge (expr_span lhs) (expr_span rhs))))
        end) lhs
  end.

(** ** Modules *)

(** The source returns all the errors it has. *)
Definition parse_module : M (ModuleKind + list Diagnostic.Diagnostic) :=
  token ← peek;
  if Token.is_eof token then
    mret (inl (StructDecl (mkStructTy [] [] false false (Token.span token))))
  else
    r ← parse_struct_decl true false false (Token.span token);
    match r with
    | Err err =>
        push_error err;;
        self ← get; put (set_errors self []);; mret (inr (errors self))
    | Ok struct_decl =>
        self ← get;
        if negb (bool_decide (errors self = []))
        then put (set_errors self []);; mret (inr (errors self))
        else mret (inl (StructDecl struct_decl))
    end.

End Expr.

(** ** The knot *)

(** [depth] bounds the depth of the recursion. *)
Fixpoint Expr_knot {SI : SortedInsert} {FU : Fuel} (depth : nat) : Rec :=
  match depth with
  | O => {| parse_expr_precedence := fun _ _ _ => diverge; parse_ty_expr := fun _ => diverge |}
  | S depth =>
      let rec := Expr_knot depth in
      {| parse_expr_precedence := @parse_expr_precedence_body _ _ rec;
         parse_ty_expr := @parse_ty_expr_body _ _ rec |}
  end.

(** The lexer's diagnostics have one label. *)
Definition of_lexer `{!SortedInsert} (d : Lexer.Lexer.Diagnostic) : Diagnostic.Diagnostic :=
  Diagnostic.with_label
    (Diagnostic.with_message Diagnostic.error (Lexer.Lexer.message d))
    (Label.with_span Label.primary (DiagSpan.mk (Lexer.Lexer.module_of d) (Lexer.Lexer.label d))).

(** [Parser::new] after its loop, which is [Lexer.tokenize]. *)
Definition from_tokens (errors : list Diagnostic.Diagnostic) (tokens : list Token.Token) (module_id : Z) : Parser :=
  mk errors 0 tokens 0 module_id.

Definition new `{!SortedInsert, !Memx, !Lexer.Hashify} (code : list Z) (module_id : Z) : res Parser :=
  '(tokens, errors) ← Lexer.Lexer.tokenize code module_id;
  Ret (from_tokens (map of_lexer errors) tokens module_id).

(** [parse_module] with a fuel, for the depth and for the turns of each loop. *)
Definition run_module `{!SortedInsert} (fuel : nat) (self : Parser)
    : res ((ModuleKind + list Diagnostic.Diagnostic) * Parser) :=
  let loops : Fuel := fuel in @parse_module _ _ (Expr_knot fuel) self.

End ParserExpr.
