(* ===== verification/ParserInv.v ===== *)
(** * The invariant of the parser

    [spec m s Q]: run from [s], [m] returns a value and a state that satisfy
    [Q], the cursor still on a token and not moved back, no error dropped; or it
    faults in a way the mode allows.  There are two modes.  In the total mode
    ([total = true]) no fault is allowed; it needs a token stream on which the
    parser terminates, fuel, and room for the node identifiers, which is counted
    by the potential [phi]: identifiers used plus [COST] for each token left.  In
    the partial mode any stream will do, and the parser may run out of fuel or
    of identifiers, but undefined behaviour is not allowed in either mode. *)

From S2P Require Import Prelude Words Bytes Span Token Diagnostic Ast ParserCursor ParserStmt.

#[local] Open Scope Z_scope.
#[local] Open Scope parser_scope.

Create HintDb parser.

Module ParserInv.
Import Token TokenKind Ast ParserCursor ParserOps ParserStmt.

(** The last token, and no other, is the end of file. *)
Definition stream (T : list Token.Token) : Prop :=
  (0 < length T)%nat /\
  forall i t, T !! i = Some t -> (Token.is_eof t = true <-> S i = length T).

(** The last token before the end of file is [}]. *)
Definition ends_with_brace (T : list Token.Token) : Prop :=
  exists t, T !! (length T - 2)%nat = Some t /\ Token.kind t = RBrace /\ (2 <= length T)%nat.

(** What may follow a [.]. *)
Definition after_dot (kind : TokenKind) : bool :=
  match kind with TokenKind.Ident _ (User | UserEscaped) | LBrace => true | _ => false end.
Definition dots_ok (T : list Token.Token) : Prop :=
  forall i d t, T !! i = Some d -> Token.kind d = Dot -> T !! S i = Some t ->
    after_dot (Token.kind t) = true.

(** The identifiers a token pays for. *)
Abbreviation COST := 4.

(** The setting of the proofs: the interface the lemmas below share. *)
Class Setting := {
  SI :: SortedInsert;
  SIL :: SortedInsertLaws;
  FU :: Fuel;
  T : list Token.Token;
  T_stream : stream T;
  total : bool;
  T_brace : total = true -> ends_with_brace T;
  T_dots : total = true -> dots_ok T;
  T_fuel : total = true -> (length T <= loop_fuel)%nat;
  bound : Z;
  bound_ids : total = true -> bound <= 2^32 - 1;
}.

Definition allowed `{!Setting} (f : fault) : Prop :=
  total = false /\ (f = Panic \/ f = Out_of_fuel).

Section Base.
Context {ST : Setting}.

Record inv (s : Parser) : Prop := { inv_tokens : tokens s = T; inv_offset : (offset s < length T)%nat }.

Definition phi (s : Parser) : Z :=
  (if total then id_counter s else 0) + COST * (Z.of_nat (length T) - Z.of_nat (offset s)).

(** What an identifier costs: nothing in the partial mode. *)
Definition one : Z := if total then 1 else 0.

Lemma one_range : 0 <= one <= 1.
Proof. unfold one. destruct total; lia. Qed.

(** What [n] identifiers cost. *)
Definition ids (n : nat) : Z := if total then Z.of_nat n else 0.

Lemma ids_S n : ids (S n) = ids n + one.
Proof. unfold ids, one. destruct total; lia. Qed.

(** In the partial mode [phi] only tells where the cursor is. *)
Lemma phi_partial s s' : total = false -> (offset s <= offset s')%nat -> phi s' <= phi s.
Proof. unfold phi. intros ->. lia. Qed.

Record frame (s s' : Parser) : Prop := {
  fr_offset : (offset s <= offset s')%nat;
  fr_errors : errors s ⊆+ errors s';
  fr_ids : id_counter s <= id_counter s';
}.

#[global] Instance frame_preorder : PreOrder frame.
Proof.
  split.
  - intros s. by constructor.
  - intros s1 s2 s3 [] []. constructor; [lia|by etrans|lia].
Qed.

Definition spec {A} (m : M A) (s : Parser) (Q : A -> Parser -> Prop) : Prop :=
  wp (m s) allowed (fun '(a, s') => inv s' /\ frame s s' /\ Q a s').

(** What holds of a result when it is [Ok]. *)
Definition on_ok {A} (r : Result A) (P : A -> Prop) : Prop :=
  match r with Ok a => P a | Err _ => True end.

(** ** Rules *)

Lemma spec_ret {A} (a : A) s Q : inv s -> Q a s -> spec (mret a) s Q.
Proof. intros Hi HQ. by split_and!. Qed.

Lemma spec_lift {A} (a : A) s Q : inv s -> Q a s -> spec (lift (Ret a)) s Q.
Proof. apply spec_ret. Qed.

(** The frame of a run that starts from a later state. *)
Lemma spec_later {A} (m : M A) s s1 Q :
  frame s s1 -> spec m s1 Q -> wp (m s1) allowed (fun '(a, s') => inv s' /\ frame s s' /\ Q a s').
Proof.
  intros Hf H. eapply wp_mono; [done| |exact H]. intros [a s'] (Hi & Hf' & HQ).
  split_and!; [done|by etrans|done].
Qed.

Lemma spec_bind {A B} (m : M A) (k : A -> M B) s Q :
  spec m s (fun a s' => spec (k a) s' Q) -> spec (m ≫= k) s Q.
Proof.
  intros H. apply wp_bind. eapply wp_mono; [done| |exact H].
  intros [a s'] (Hi & Hf & HQ). by apply spec_later.
Qed.

Lemma spec_try {A B} (m : M (Result A)) (k : A -> M (Result B)) s Q :
  spec m s (fun r s' => match r with Ok a => spec (k a) s' Q | Err d => Q (Err d) s' end) ->
  spec (try_bind k m) s Q.
Proof.
  intros H. apply spec_bind. eapply wp_mono; [done| |exact H].
  intros [[a|d] s'] (Hi & Hf & HQ); refine (conj Hi (conj Hf _)); [done|by apply spec_ret].
Qed.

Lemma spec_loop_try {S A B} (m : M (Result A)) (k : A -> M (flow S (Result B))) s Q :
  spec m s (fun r s' => match r with Ok a => spec (k a) s' Q | Err d => Q (Break (Err d)) s' end) ->
  spec (loop_try_bind k m) s Q.
Proof.
  intros H. apply spec_bind. eapply wp_mono; [done| |exact H].
  intros [[a|d] s'] (Hi & Hf & HQ); refine (conj Hi (conj Hf _)); [done|by apply spec_ret].
Qed.

(** A call: the continuation knows that the cursor has not moved back. *)
Lemma spec_call {A} (m : M A) s Q' Q :
  spec m s Q' ->
  (forall a s', inv s' -> (offset s <= offset s')%nat -> Q' a s' -> Q a s') -> spec m s Q.
Proof.
  intros H HQ. eapply wp_mono; [done| |exact H]. intros [a s'] (Hi & Hf & Ha).
  refine (conj Hi (conj Hf _)). apply HQ; [done|apply Hf|done].
Qed.

(** Turns that go on move the cursor when the mode is total. *)
Lemma spec_loop {S A} (I : S -> Parser -> Prop) fuel (body : S -> M (flow S A)) x s Q :
  (total = true -> (length T - offset s <= fuel)%nat) -> inv s -> I x s ->
  (forall x s, inv s -> I x s ->
     spec (body x) s (fun r s' =>
       match r with
       | Continue x' => (total = true -> (offset s < offset s')%nat) /\ I x' s'
       | Break a => Q a s'
       end)) ->
  spec (loop fuel body x) s Q.
Proof.
  intros Hfuel Hi HI Hbody. revert x s Hfuel Hi HI.
  induction fuel as [|fuel IH]; intros x s Hfuel Hi HI.
  { cbn. unfold allowed. destruct total; [|auto]. destruct Hi. specialize (Hfuel eq_refl). lia. }
  cbn [loop]. apply spec_bind. eapply spec_call; [by apply Hbody|].
  intros [x'|a] s' Hi' Ho HQ; [|by apply spec_ret]. destruct HQ as [Hs HI'].
  apply IH; [|done|done]. intros Ht. specialize (Hs Ht). specialize (Hfuel Ht). lia.
Qed.

(** The same, with where the loop started. *)
Lemma spec_loop_from {S A} (I : S -> Parser -> Prop) fuel (body : S -> M (flow S A)) x s Q :
  (total = true -> (length T - offset s <= fuel)%nat) -> inv s -> I x s ->
  (forall x s1, inv s1 -> (offset s <= offset s1)%nat -> I x s1 ->
     spec (body x) s1 (fun r s' =>
       match r with
       | Continue x' => (total = true -> (offset s1 < offset s')%nat) /\ I x' s'
       | Break a => Q a s'
       end)) ->
  spec (loop fuel body x) s Q.
Proof.
  intros Hf Hi HI Hb.
  apply (spec_loop (fun x s1 => (offset s <= offset s1)%nat /\ I x s1)); [done|done|done|].
  intros x1 s1 Hi1 [Ho1 HI1]. eapply spec_call; [by apply Hb|].
  intros [x2|a] s2 _ Ho2 HQ; [|done]. destruct HQ. split_and!; [done|lia|done].
Qed.

(** ** The cursor *)

(** The token at the cursor. *)
Definition cur (s : Parser) (t : Token.Token) : Prop := T !! offset s = Some t.

Lemma cur_exists s : inv s -> exists t, cur s t.
Proof. intros Hi. by apply lookup_lt_is_Some_2, inv_offset. Qed.

Lemma cur_fun s t1 t2 : cur s t1 -> cur s t2 -> t1 = t2.
Proof. unfold cur. congruence. Qed.

Lemma cur_eof s t : inv s -> cur s t -> Token.is_eof t = true -> S (offset s) = length T.
Proof. intros Hi Hc. by apply T_stream in Hc as ->. Qed.

Lemma cur_end s t : inv s -> cur s t -> Token.is_eof t = false -> S (offset s) <> length T.
Proof. intros Hi Hc He E. apply (proj2 T_stream _ _ Hc) in E. congruence. Qed.

Lemma cur_next s t : inv s -> cur s t -> Token.is_eof t = false -> (S (offset s) < length T)%nat.
Proof.
  intros [_ Hi] Hc He. pose proof (proj2 T_stream _ _ Hc) as Ht.
  destruct (decide (S (offset s) = length T)) as [E|E]; [|lia]. apply Ht in E. congruence.
Qed.

Lemma spec_peek s : inv s -> spec peek s (fun t s' => s' = s /\ cur s t).
Proof.
  intros Hi. destruct (cur_exists s Hi) as [t Ht]. unfold spec, peek.
  rewrite (inv_tokens s Hi), Ht. by split_and!.
Qed.

Lemma spec_peek_kind s :
  inv s -> spec peek_kind s (fun k s' => s' = s /\ exists t, cur s t /\ Token.kind t = k).
Proof.
  intros Hi. apply spec_bind. eapply spec_call; [by apply spec_peek|].
  intros t s' Hi' _ [-> Hc]. apply spec_ret; eauto.
Qed.

Lemma spec_peek_span s : inv s -> spec peek_span s (fun _ s' => s' = s).
Proof.
  intros Hi. apply spec_bind. eapply spec_call; [by apply spec_peek|].
  intros t s' Hi' _ [-> Hc]. by apply spec_ret.
Qed.

Lemma spec_peek_is s k :
  inv s -> spec (peek_is k) s (fun b s' => s' = s /\ exists t, cur s t /\ b = kind_eq (Token.kind t) k).
Proof.
  intros Hi. apply spec_bind. eapply spec_call; [by apply spec_peek_kind|].
  intros _ s' Hi' _ (-> & t & Hc & <-). apply spec_ret; eauto.
Qed.

Lemma spec_prev s : inv s -> (1 <= offset s)%nat -> spec prev s (fun _ s' => s' = s).
Proof.
  intros Hi H. unfold spec, prev. destruct (offset s) as [|o] eqn:E; [lia|].
  destruct (lookup_lt_is_Some_2 T o) as [t Ht]; [destruct Hi; lia|].
  rewrite (inv_tokens s Hi), Ht. by split_and!.
Qed.

Lemma spec_prev_span s : inv s -> (1 <= offset s)%nat -> spec prev_span s (fun _ s' => s' = s).
Proof.
  intros Hi H. apply spec_bind. eapply spec_call; [by apply spec_prev|].
  intros t s' Hi' _ ->. by apply spec_ret.
Qed.

Lemma spec_peek_1 s :
  inv s -> spec (peek_nth 1) s (fun t s' => s' = s /\
    forall c, cur s c -> Token.is_eof c = false -> T !! S (offset s) = Some t).
Proof.
  intros Hi. destruct (cur_exists s Hi) as [c Hc]. 
  unfold spec, peek_nth. rewrite (inv_tokens s Hi). pose proof (inv_offset s Hi) as Hlt. destruct (Nat.ltb_spec (offset s + 1) (length T)) as [Hl|Hl]; cbn.
  - destruct (lookup_lt_is_Some_2 T _ Hl) as [t HT]. rewrite HT.
    refine (conj Hi (conj (reflexivity s) (conj eq_refl _))). intros c' _ _. by rewrite <- HT, Nat.add_1_r.
  - rewrite usize_sub_ok by lia. cbn.
    destruct (lookup_lt_is_Some_2 T (length T - 1)%nat) as [t HT]; [lia|]. rewrite HT.
    refine (conj Hi (conj (reflexivity s) (conj eq_refl _))). intros c' Hc' He.
    pose proof (cur_next s c' Hi Hc' He). lia.
Qed.

Lemma spec_get s : inv s -> spec get s (fun a s' => a = s /\ s' = s).
Proof. intros Hi. by split_and!. Qed.

Lemma phi_offset s s' n :
  id_counter s' = id_counter s -> offset s' = (offset s + n)%nat -> phi s' = phi s - COST * Z.of_nat n.
Proof. unfold phi. intros -> ->. destruct total; lia. Qed.

(** The cursor moves over one token. *)
Definition moved (s s' : Parser) : Prop := offset s' = S (offset s) /\ phi s' = phi s - COST.

Lemma spec_advance s t :
  inv s -> cur s t -> Token.is_eof t = false ->
  spec advance s (fun _ s' => moved s s').
Proof.
  intros Hi Hc He. pose proof (cur_next s t Hi Hc He).
  refine (conj _ (conj _ (conj eq_refl _))).
  - constructor; [apply Hi|done].
  - constructor; cbn; [lia|done|lia].
  - rewrite (phi_offset s _ 1); [lia|done|cbn; lia].
Qed.

(** Reading a token moves the cursor, except at the end of the file. *)
Lemma spec_bump s :
  inv s -> spec bump s (fun t s' => cur s t /\
    if Token.is_eof t then s' = s else moved s s').
Proof.
  intros Hi. destruct (cur_exists s Hi) as [t Hc].
  unfold spec, bump. rewrite (inv_tokens s Hi), Hc. cbn.
  destruct (Token.is_eof t) eqn:E; [exact (conj Hi (conj (reflexivity s) (conj Hc eq_refl)))|].
  pose proof (spec_advance s t Hi Hc E) as (Hi' & Hf & HQ). exact (conj Hi' (conj Hf (conj Hc HQ))).
Qed.

Lemma spec_bump_at s t :
  inv s -> cur s t -> Token.is_eof t = false -> spec bump s (fun t' s' => t' = t /\ moved s s').
Proof.
  intros Hi Hc He. eapply spec_call; [by apply spec_bump|]. intros t' s' _ _ [Hc' Hm].
  rewrite (cur_fun _ _ _ Hc' Hc) in *. by rewrite He in Hm.
Qed.

Lemma has_tag_eof k tag : TokenTag.eq tag TokenTag.Eof = false -> has_tag k tag = true -> k <> Eof.
Proof.
  intros Ht Hk ->. unfold has_tag in Hk. rewrite TokenTag.tag_eq_spec in Hk.
  apply bool_decide_eq_true in Hk as <-. by rewrite TokenTag.tag_eq_spec, bool_decide_true in Ht.
Qed.

Lemma not_eof t : Token.kind t <> Eof -> Token.is_eof t = false.
Proof. unfold Token.is_eof. by destruct (Token.kind t). Qed.

Lemma has_tag_not_eof t tag :
  TokenTag.eq tag TokenTag.Eof = false -> has_tag (Token.kind t) tag = true -> Token.is_eof t = false.
Proof. intros Ht Hk. by eapply not_eof, has_tag_eof. Qed.

Lemma spec_next_id s :
  inv s -> phi s + one <= bound ->
  spec next_id s (fun id s' => id = id_counter s /\ offset s' = offset s /\ phi s' <= phi s + one
    /\ s' = set_id_counter s (id_counter s + 1)).
Proof.
  intros Hi Hb. unfold spec, next_id.
  destruct (Z.leb_spec (2^32) (id_counter s + 1)) as [Hl|Hl].
  - cbn. unfold allowed. destruct total eqn:E; [|auto]. pose proof (bound_ids E).
    unfold phi, one in Hb. rewrite E in Hb. pose proof (inv_offset s Hi). lia.
  - unfold NonMaxU32.from_u32. destruct (Z.leb_spec (id_counter s) 0xfffffffe); [|lia]. cbn.
    refine (conj _ (conj _ (conj eq_refl (conj eq_refl (conj _ eq_refl))))).
    + constructor; apply Hi.
    + constructor; cbn; [lia|done|lia].
    + unfold phi, one. cbn. destruct total; lia.
Qed.

(** Changing the errors changes nothing else. *)
Lemma spec_errors s e :
  inv s -> errors s ⊆+ e -> forall Q : unit -> Parser -> Prop,
  Q tt (ParserCursor.set_errors s e) ->
  wp (Ret (tt, ParserCursor.set_errors s e)) allowed (fun '(a, s') => inv s' /\ frame s s' /\ Q a s').
Proof.
  intros Hi He Q HQ. refine (conj _ (conj _ HQ)); constructor; cbn; try apply Hi; [lia|done|lia].
Qed.

Lemma spec_push_error s d :
  inv s -> spec (push_error d) s (fun _ s' => offset s' = offset s /\ phi s' = phi s).
Proof.
  intros Hi. apply spec_errors; [done| |done]. rewrite sorted_insert_perm. by apply submseteq_cons.
Qed.

Lemma spec_push_error_last s d :
  inv s -> spec (push_error_last d) s (fun _ s' => offset s' = offset s /\ phi s' = phi s).
Proof. intros Hi. apply spec_errors; [done| |done]. by apply submseteq_inserts_r. Qed.

(** The cursor stays at the end of the file. *)
Definition stuck (s s' : Parser) : Prop :=
  offset s' = offset s /\ phi s' = phi s /\ S (offset s) = length T.

(** Nothing was read, or what was read pays for [n] identifiers more. *)
Definition paid (n : Z) (s s' : Parser) : Prop :=
  offset s' = offset s /\ phi s' <= phi s \/ phi s' <= phi s - n * one.

End Base.

(** ** Automation *)

(** Arithmetic under the hypothesis that the mode is total. *)
Ltac plia :=
  intros; pose proof one_range; unfold moved, stuck, paid in *; split_and?; intros;
  repeat match goal with
  | Hi : inv ?s, Hc : cur ?s ?t, He : Token.is_eof ?t = false |- _ =>
      pose proof (cur_end s t Hi Hc He); clear Hc
  | Hi : inv ?s, Hc : cur ?s ?t, He : Token.is_eof ?t = true |- _ =>
      pose proof (cur_eof s t Hi Hc He); clear Hc
  end;
  repeat match goal with H : inv ?s |- _ => apply inv_offset in H end;
  repeat match goal with
  | Ht : total = true, H : total = true -> _ |- _ => specialize (H Ht)
  end; lia.

(** Facts that a call leaves behind. *)
Ltac facts :=
  cbn beta iota in *; cbn [on_ok] in *;
  repeat match goal with
  | H : _ /\ _ |- _ => destruct H
  | H : exists _, _ |- _ => destruct H
  | H : if ?b then _ else _ |- _ => destruct b eqn:?
  | H : _ || _ = false |- _ => apply orb_false_iff in H
  | H : ?r = Ok _ |- _ => is_var r; subst r
  | H : false = true |- _ => discriminate H
  | H : true = false |- _ => discriminate H
  | H : (_ =? _)%nat = true |- _ => apply Nat.eqb_eq in H
  | H : (_ =? _)%nat = false |- _ => apply Nat.eqb_neq in H
  | H : Token.kind _ = ?k |- _ => is_var k; subst k
  | H : negb _ = false |- _ => apply negb_false_iff in H
  | H : negb _ = true |- _ => apply negb_true_iff in H
  | H : ?s' = ?s |- _ => is_var s'; is_var s; subst s'
  end.

#[export] Hint Extern 1 (inv _) => assumption : parser.
#[export] Hint Extern 1 (_ <= _)%nat => plia : parser.
#[export] Hint Extern 1 (_ <= _) => plia : parser.
#[export] Hint Extern 1 (TokenTag.eq _ _ = false) => first [assumption|reflexivity] : parser.
#[export] Hint Resolve spec_peek spec_peek_kind spec_peek_span spec_peek_is spec_prev spec_prev_span
  spec_peek_1 spec_get spec_next_id spec_push_error spec_push_error_last : parser.

(** The token at the cursor, also after the errors changed. *)
Ltac cursor :=
  first
    [ eassumption
    | match goal with
      | Ho : offset ?s' = offset ?s, Hc : cur ?s ?t |- cur ?s' _ => unfold cur; rewrite Ho; exact Hc
      end ].

(** The token at the cursor is not the end of the file. *)
Ltac not_at_eof :=
  first
    [ assumption
    | match goal with
      | H : Token.kind ?t = _ |- Token.is_eof ?t = false => unfold Token.is_eof; rewrite H; reflexivity
      | H : has_tag (Token.kind ?t) _ = true |- Token.is_eof ?t = false =>
          eapply has_tag_not_eof; [|exact H]; first [reflexivity|assumption]
      end ].

#[export] Hint Extern 1 (cur _ _) => cursor : parser.

(** One step of the symbolic execution of a parser function. *)
Ltac step :=
  lazymatch goal with
  | |- spec (mret _) _ _ => apply spec_ret; [assumption|]
  | |- spec (ok _) _ _ => apply spec_ret; [assumption|]
  | |- spec (fail _) _ _ => apply spec_ret; [assumption|]
  | |- spec (lift (Ret _)) _ _ => apply spec_lift; [assumption|]
  | |- spec (mbind _ _) _ _ => apply spec_bind
  | |- spec (try_bind _ _) _ _ => apply spec_try
  | |- spec (loop_try_bind _ _) _ _ => apply spec_loop_try
  | |- spec (let '(_, _) := ?x in _) _ _ => destruct x
  | |- spec (if ?b then _ else _) _ _ => destruct b eqn:?; facts
  | |- spec (match ?x with _ => _ end) _ _ => destruct x eqn:?
  | |- match ?r with Ok _ => _ | Err _ => _ end => destruct r; facts
  | |- spec advance _ _ =>
      eapply spec_call; [eapply spec_advance; [assumption|cursor|not_at_eof]|intros [] ? ? ? ?; facts]
  | |- spec bump _ _ =>
      eapply spec_call;
        [first [eapply spec_bump_at; [assumption|cursor|not_at_eof] | apply spec_bump; assumption]
        |intros ? ? ? ? ?; facts]
  | |- spec _ _ _ => eapply spec_call; [solve [eauto 3 with parser]|intros ? ? ? ? ?; facts]
  end.

(** Case analysis on the kind of a token: [tac] closes the default arm. *)
Ltac kinds tac :=
  lazymatch goal with
  | |- spec (match Token.kind ?t with _ => _ end) _ _ => destruct (Token.kind t) eqn:?; try solve [tac]
  end.

End ParserInv.
