(* ===== verification/ParserCursorSpec.v ===== *)
(** * The helpers of the parser keep its invariant

    [eat_expect], [eat_if], [eat_until], the group readers, identifiers and
    suffixes: what each does to the cursor and to the potential. *)

From S2P Require Import Prelude Words Bytes Span Token Diagnostic Ast ParserCursor ParserStmt ParserInv.

#[local] Open Scope Z_scope.
#[local] Open Scope parser_scope.

Module ParserCursorSpec.
Import Token TokenKind Ast ParserCursor ParserOps ParserStmt ParserInv.

Section Ops.
Context {ST : Setting}.

(** The end of the file stops the cursor. *)
Lemma spec_eat_expect s tag :
  TokenTag.eq tag TokenTag.Eof = false -> inv s ->
  spec (eat_expect tag) s (fun r s' =>
    match r with
    | Ok k => moved s s' /\ has_tag k tag = true /\ exists t, cur s t /\ Token.kind t = k
    | Err _ => (moved s s' \/ stuck s s') /\
        (forall t, cur s t -> has_tag (Token.kind t) tag = false)
    end).
Proof.
  intros Htag Hi. apply spec_bind. eapply spec_call; [by apply spec_bump|].
  intros t s' Hi' _ [Hc Hm]. destruct (has_tag (Token.kind t) tag) eqn:Hk; cbn [negb].
  - rewrite (not_eof t (has_tag_eof _ _ Htag Hk)) in Hm. step. split_and!; try apply Hm; eauto.
  - assert (moved s s' \/ stuck s s') as Hms.
    { destruct (Token.is_eof t) eqn:He; [right|by left]. subst.
      exact (conj eq_refl (conj eq_refl (cur_eof s t Hi Hc He))). }
    clear Hm. repeat step. split; [done|]. intros t' Ht. by rewrite (cur_fun _ _ _ Ht Hc).
Qed.

Lemma spec_peek_expect s tag :
  inv s ->
  spec (peek_expect tag) s (fun r s' => s' = s /\ match r with Ok k => has_tag k tag = true /\ exists t, cur s t /\ Token.kind t = k | Err _ => True end).
Proof.
  intros Hi. unfold peek_expect. do 2 step. destruct (has_tag (Token.kind a) tag) eqn:Hk; cbn [negb].
  - step. eauto.
  - repeat step. done.
Qed.

Lemma spec_eats s tag :
  TokenTag.eq tag TokenTag.Eof = false -> inv s ->
  spec (eats tag) s (fun b s' =>
    if b then moved s s' /\ exists t, cur s t /\ has_tag (Token.kind t) tag = true
    else s' = s /\ forall t, cur s t -> has_tag (Token.kind t) tag = false).
Proof.
  intros Htag Hi. unfold eats, eat_if. do 2 apply spec_bind.
  eapply spec_call; [by apply spec_peek_kind|]. intros k _ _ _ (-> & t & Hc & <-).
  destruct (has_tag (Token.kind t) tag) eqn:Hk.
  - apply spec_bind. eapply spec_call; [by apply spec_bump|].
    intros t' s' Hi' _ [Hc' Hm]. rewrite (cur_fun _ _ _ Hc' Hc) in Hm.
    rewrite not_eof in Hm by (by eapply has_tag_eof). repeat step.
    rewrite bool_decide_true by done. eauto.
  - repeat step. rewrite bool_decide_false by (by intros []). split; [done|].
    intros t' Ht. by rewrite (cur_fun _ _ _ Ht Hc).
Qed.

Lemma loop_fuel_enough s : total = true -> (length T - offset s <= loop_fuel)%nat.
Proof. intros Ht. pose proof (T_fuel Ht). lia. Qed.

Lemma spec_eat_until s test :
  inv s ->
  spec (eat_until_test test) s (fun k s' =>
    phi s' <= phi s /\ exists t, cur s' t /\ Token.kind t = k).
Proof.
  intros Hi. apply spec_loop with (I := fun _ s' => phi s' <= phi s); [apply loop_fuel_enough|done|done|].
  intros [] s1 Hi1 HI. do 2 step. destruct (test (Token.kind a) || Token.is_eof a) eqn:E.
  - step. split; [done|eauto].
  - apply orb_false_iff in E as [_ E]. repeat step. plia.
Qed.

Lemma spec_eat_expect_or_report s tag :
  TokenTag.eq tag TokenTag.Eof = false -> inv s ->
  spec (eat_expect_or_report tag) s (fun _ s' => moved s s' \/ stuck s s').
Proof.
  intros Htag Hi. apply spec_bind. eapply spec_call; [by apply spec_eat_expect|].
  intros [k|d] s' Hi' _ H; cbv beta iota; [step; left; apply H|]. destruct H as [H _].
  eapply spec_call; [by apply spec_push_error|]. intros ? s2 ? ? H2. plia.
Qed.

Lemma spec_parse_ident s :
  inv s ->
  spec parse_ident s (fun r s' =>
    match r with
    | Ok _ => moved s s'
    | Err _ => (moved s s' \/ stuck s s') /\
        (forall t, cur s t -> has_tag (Token.kind t) TokenTag.Ident = false)
    end).
Proof.
  intros Hi. apply spec_try. eapply spec_call; [by apply spec_eat_expect|].
  intros [k|d] s' Hi' _ H; [|done]. destruct H as (Hm & Hk & t & Hc & Ht).
  destruct k; try discriminate Hk. apply spec_bind.
  eapply spec_call; [apply spec_prev_span; [done|plia]|]. intros ? ? ? _ ->. by step.
Qed.

Lemma spec_parse_user_ident s :
  inv s ->
  spec parse_user_ident s (fun r s' =>
    match r with Ok _ => moved s s' | Err _ => moved s s' \/ stuck s s' end).
Proof.
  intros Hi. apply spec_try. eapply spec_call; [by apply spec_parse_ident|].
  intros [i|d] s' Hi' _ H; [|apply H]. destruct (Ident.is_user i); cbn [negb].
  - by step.
  - repeat step. by left.
Qed.

Lemma spec_ident_or_skip s r tag1 tag2 :
  inv s -> (1 <= offset s)%nat ->
  spec (ident_or_skip r tag1 tag2) s (fun _ s' => phi s' <= phi s).
Proof.
  intros Hi Ho. unfold ident_or_skip. destruct r as [i|d]; [by step|].
  apply spec_bind. eapply spec_call; [by apply spec_eat_until|]. intros k s1 Hi1 Ho1 [Hp _].
  repeat step. plia.
Qed.

(** ** Suffixes *)

(** The state after [bump; offset -= 1], which at the end of the file is one
    token back. *)
Lemma maybe_wp {A} (f : TokenKind -> option A) s :
  f Eof = None -> inv s -> (1 <= offset s)%nat ->
  wp (maybe f s) allowed (fun '(r, s') => inv s' /\ errors s' = errors s /\ id_counter s' = id_counter s /\
    match r with
    | Some _ => moved s s'
    | None => s' = s \/ (stuck s s /\ S (offset s') = offset s /\ phi s' = phi s + COST)
    end).
Proof.
  intros Hf Hi Ho. destruct (cur_exists s Hi) as [t Hc]. pose proof (inv_offset s Hi) as Hlt.
  cbv [maybe mbind M_bind bump]. rewrite (inv_tokens s Hi), Hc. cbn.
  destruct (f (Token.kind t)) as [x|] eqn:Hx.
  - assert (Token.is_eof t = false) as He by (apply not_eof; congruence). rewrite He. cbn.
    pose proof (spec_advance s t Hi Hc He) as (Hi' & Hf' & Hm). split_and!; done || apply Hi' || apply Hm.
  - cbv [retreat]. destruct (Token.is_eof t) eqn:He; cbn; rewrite usize_sub_ok by (cbn; lia); cbn.
    + split_and!; try done; [constructor; cbn; [apply Hi|lia]|]. right. split_and!; cbn.
      * by refine (conj eq_refl (conj eq_refl (cur_eof s t Hi Hc He))).
      * lia.
      * unfold phi. cbn. destruct total; lia.
    + split_and!; try done; [constructor; cbn; [apply Hi|lia]|]. left.
      destruct s. unfold ParserCursor.set_offset. cbn. f_equal. lia.
Qed.

#[local] Hint Resolve spec_peek_expect : parser.

(** The cursor after [maybe], relative to where it was. *)
Definition after_maybe {A} (s1 : Parser) (o : option A) (s2 : Parser) : Prop :=
  match o with
  | Some _ => moved s1 s2
  | None => s2 = s1 \/ stuck s1 s1 /\ S (offset s2) = offset s1 /\ phi s2 = phi s1 + COST
  end.

(** A function, then [maybe]: the frame is that of the whole, which starts
    before the end of the file. *)
Lemma spec_try_maybe {A B C} s (m : M (Result A)) (f : TokenKind -> option B)
    (k : A -> option B -> M (Result C)) Q :
  f Eof = None -> (1 <= offset s)%nat -> (S (offset s) < length T)%nat ->
  spec m s (fun r s1 =>
    match r with
    | Ok a => forall o s2, inv s2 -> (offset s <= offset s2)%nat -> after_maybe s1 o s2 -> spec (k a o) s2 Q
    | Err d => Q (Err d) s1
    end) ->
  spec (a ←? m; o ← maybe f; k a o) s Q.
Proof.
  intros Hf Ho He Hm. unfold spec, try_bind. cbv [mbind M_bind]. apply wp_bind.
  eapply wp_mono; [done| |exact Hm]. intros [[a|d] s1] (Hi1 & Hf1 & H1); [|done].
  apply wp_bind. pose proof (fr_offset _ _ Hf1).
  eapply wp_mono; [done| |apply maybe_wp; [done|done|lia]]. intros [o s2] (Hi2 & He2 & Hn2 & H2).
  assert (offset s <= offset s2)%nat as Ho2.
  { destruct o as [b|]; [|destruct H2 as [->|H2]]; plia. }
  apply spec_later; [|by apply H1]. constructor; [done|rewrite He2|rewrite Hn2]; apply Hf1.
Qed.

(** A literal and its suffix.  In the total mode the literal is not the last
    token, so the cursor moves. *)
Lemma spec_literal {A B} (f : TokenKind -> option A) (k : option A -> M B) s t Q :
  f Eof = None -> inv s -> cur s t -> Token.kind t <> Eof -> Token.kind t <> RBrace ->
  (forall r s', inv s' -> (offset s <= offset s')%nat -> (total = true -> (offset s < offset s')%nat) ->
     (1 <= offset s')%nat -> phi s' <= phi s - COST * one -> spec (k r) s' Q) ->
  (1 <= offset s)%nat ->
  spec (advance;; r ← maybe f; k r) s Q.
Proof.
  intros Hf Hi Hc Ht Hb Hk Ho. pose proof (spec_advance s t Hi Hc (not_eof _ Ht)) as (Hi1 & Hf1 & Hm1).
  unfold spec. cbn [mbind M_bind advance res_bind]. set (s1 := ParserCursor.set_offset s (S (offset s))) in *.
  change (wp ((maybe f ≫= k) s1) allowed (fun '(a, s') => inv s' /\ frame s s' /\ Q a s')).
  apply wp_bind. eapply wp_mono; [done| |apply maybe_wp; [done|done|unfold s1; cbn; lia]].
  intros [r s2] (Hi2 & He2 & Hn2 & H2).
  assert (frame s s2 /\ (total = true -> (offset s < offset s2)%nat) /\ phi s2 <= phi s - COST * one)
    as (Hf2 & Hs2 & Hp2); cycle 1.
  { apply spec_later; [done|]. apply Hk; try done; [apply Hf2|]. pose proof (fr_offset _ _ Hf2). lia. }
  assert ((offset s <= offset s2)%nat /\ (total = true -> (offset s < offset s2)%nat) /\
          phi s2 <= phi s - COST * one) as (Ho2 & Hs2 & Hp2).
  { pose proof one_range. destruct r as [x|]; [plia|]. destruct H2 as [->|(Hst & Ho2 & Hp2)]; [plia|].
    destruct total eqn:Etot; [|unfold one; rewrite Etot; plia].
    destruct (T_brace Etot) as (b & Hl & Hbr & _). destruct Hb.
    replace (length T - 2)%nat with (offset s) in Hl by plia. by rewrite (cur_fun _ _ _ Hc Hl). }
  split_and!; try done. constructor; [done| |].
  - rewrite He2. apply Hf1.
  - rewrite Hn2. apply Hf1.
Qed.

(** ** Modifiers *)

Lemma spec_parse_decl_modifiers s :
  inv s -> spec parse_decl_modifiers s (fun _ s' => phi s' <= phi s).
Proof.
  intros Hi. apply spec_loop with (I := fun _ s' => phi s' <= phi s); [apply loop_fuel_enough|done|done|].
  intros [ext inline] s1 Hi1 HI. do 2 step.
  kinds ltac:(step; exact HI); repeat step; plia.
Qed.

(** ** Groups *)

#[local] Hint Resolve spec_eat_expect spec_eats spec_eat_until spec_eat_expect_or_report
  spec_parse_ident spec_parse_user_ident spec_ident_or_skip spec_parse_decl_modifiers : parser.

(** A function that reads at least one token when it is not at the end of the
    file, and pays with it. *)
Definition opened {A} (s : Parser) (r : Result A) (s' : Parser) : Prop :=
  match r with
  | Ok _ => (offset s < offset s')%nat /\ phi s' <= phi s - COST
  | Err _ => stuck s s' \/ phi s' <= phi s - COST
  end.

Lemma spec_eat_delimited_group {B} s opening closing delim (producer : M (Result B)) :
  TokenTag.eq opening TokenTag.Eof = false -> TokenTag.eq closing TokenTag.Eof = false ->
  TokenTag.eq delim TokenTag.Eof = false -> inv s ->
  (forall s1, inv s1 -> (offset s < offset s1)%nat -> phi s1 <= phi s - COST ->
     spec producer s1 (fun _ s2 => phi s2 <= phi s1)) ->
  spec (eat_delimited_group opening closing delim producer) s (opened s).
Proof.
  intros Ho Hc Hd Hi Hp. unfold eat_delimited_group, eat_until2. do 4 step; [step; cbn; plia|].
  apply spec_bind. eapply spec_call.
  - apply spec_loop with
      (I := fun _ s1 => (offset s < offset s1)%nat /\ phi s1 <= phi s - COST \/ stuck s s1)
      (Q := fun _ s1 => (offset s < offset s1)%nat /\ phi s1 <= phi s - COST \/ stuck s s1);
      [apply loop_fuel_enough|done|plia|].
    intros items s1 Hi1 HI1. do 3 step; [step; exact HI1|].
    assert ((offset s < offset s1)%nat /\ phi s1 <= phi s - COST) as [Ho1 Hp1] by plia.
    repeat step; plia.
  - intros items s1 Hi1 Ho1 HI1. facts. repeat step; cbn; plia.
Qed.

Lemma spec_eat_delimited {B} s delim pred (producer : M (Result B)) :
  TokenTag.eq delim TokenTag.Eof = false -> inv s ->
  (forall s1, inv s1 -> (offset s <= offset s1)%nat -> phi s1 <= phi s ->
     spec producer s1 (fun _ s2 => phi s2 <= phi s1)) ->
  spec (eat_delimited delim pred producer) s (fun _ s' => phi s' <= phi s).
Proof.
  intros Hd Hi Hp. apply spec_try. eapply spec_call.
  - apply spec_loop with
      (I := fun _ s1 => (offset s <= offset s1)%nat /\ phi s1 <= phi s)
      (Q := fun _ s1 => phi s1 <= phi s);
      [apply loop_fuel_enough|done|done|].
    intros items s1 Hi1 [Ho1 Hp1]. repeat step; plia.
  - intros items s1 Hi1 Ho1 HI1. facts. destruct items as [items|d]; repeat step; plia.
Qed.

(** One token before the end of the file, which in the total mode is [}]. *)
Definition last (s : Parser) : Prop := S (S (offset s)) = length T.

Lemma last_brace s : total = true -> inv s -> last s -> exists t, cur s t /\ Token.kind t = RBrace.
Proof.
  intros Ht Hi Hl. destruct (T_brace Ht) as (t & Hc & Hk & _). exists t. split; [|done].
  unfold cur. replace (offset s) with (length T - 2)%nat; [done|]. unfold last in Hl. lia.
Qed.

(** What the producer of a group of statements does: an item moves the cursor
    and pays for itself, unless the cursor was moved back from the end of the
    file. *)
Definition statement_post {A} (s : Parser) (r : Result A) (s' : Parser) : Prop :=
  match r with
  | Ok _ => (total = true -> (offset s < offset s')%nat) /\
      (phi s' <= phi s \/ last s' /\ phi s' <= phi s + COST)
  | Err _ => phi s' <= phi s \/ offset s' = offset s /\ phi s' <= phi s + one
  end.

(** The states of the loop of [eat_group], which starts at [s] with [s0] the
    state after the opening token. *)
Definition in_group (s s0 s1 : Parser) : Prop :=
  (offset s < offset s1)%nat /\ (offset s0 <= offset s1)%nat /\ phi s0 <= phi s - COST /\
    (phi s1 <= phi s - COST \/ last s1 /\ phi s1 <= phi s)
  \/ stuck s s1.

(** Where the cursor is not at the closing brace, the last token is not next. *)
Lemma in_group_phi s s0 s1 :
  inv s1 -> in_group s s0 s1 ->
  (forall t, cur s1 t -> has_tag (Token.kind t) TokenTag.RBrace = false) ->
  phi s1 <= phi s - COST /\ (offset s < offset s1)%nat \/ stuck s s1.
Proof.
  intros Hi [(Ho & Ho0 & Hp0 & [Hp|[Hl Hp]])|Hs] Hc; [by left| |by right]. left.
  destruct total eqn:Ht.
  - destruct (last_brace s1 Ht Hi Hl) as (t & Ht1 & Hk). specialize (Hc t Ht1). by rewrite Hk in Hc.
  - pose proof (phi_partial s0 s1 Ht Ho0). lia.
Qed.

Lemma spec_eat_group {B} s (producer : M (Result B)) :
  inv s ->
  (forall s1, inv s1 -> (offset s < offset s1)%nat -> phi s1 <= phi s - COST ->
     (forall t, cur s1 t -> Token.is_eof t = false /\ Token.kind t <> RBrace) ->
     spec producer s1 (statement_post s1)) ->
  spec (eat_group TokenTag.LBrace TokenTag.RBrace producer) s (opened s).
Proof.
  intros Hi Hp. unfold eat_group. do 4 step; [step; cbn; plia|].
  apply spec_bind. eapply spec_call.
  - apply spec_loop with (I := fun _ => in_group s s') (Q := fun _ => in_group s s');
      [apply loop_fuel_enough|done|unfold in_group; plia|].
    intros items s1 Hi1 HI1. apply spec_bind. eapply spec_call; [by apply spec_peek|].
    intros t s2 Hi2 Ho2 [-> Hc]. step; [by step|].
    assert (forall t', cur s1 t' -> Token.is_eof t' = false /\ Token.kind t' <> RBrace) as He'.
    { intros t' Ht'. rewrite (cur_fun _ _ _ Ht' Hc). split; [done|]. by destruct (Token.kind t). }
    destruct (in_group_phi s s' s1 Hi1 HI1) as [[Hp1 Ho1]|Hs];
      [intros t' Ht'; by rewrite (cur_fun _ _ _ Ht' Hc)| |exfalso; plia].
    repeat step; unfold statement_post, in_group, last in *; facts; plia.
  - intros items s1 Hi1 Ho1 HI1. facts. repeat step; cbn; unfold in_group, last in *; [plia|].
    destruct (in_group_phi s s' s1 Hi1 HI1); [done|plia|plia].
Qed.

End Ops.

#[export] Hint Resolve spec_eat_expect spec_peek_expect spec_eats spec_eat_until spec_eat_expect_or_report
  spec_parse_ident spec_parse_user_ident spec_ident_or_skip spec_parse_decl_modifiers : parser.

End ParserCursorSpec.
