(* ===== verification/ParserDeclSpec.v ===== *)
(** * Declarations keep the invariant of the parser

    The lemmas of [ParserDecl]: functions, members, structs, enums, unions.

    The module [ParserStmtSpec] has the statements, [ParserDeclSpec] the declarations. *)

From S2P Require Import Prelude Words Bytes Span Token Diagnostic Ast ParserCursor ParserStmt.
From S2P Require Import ParserInv ParserCursorSpec ParserDecl.

#[local] Open Scope Z_scope.
#[local] Open Scope parser_scope.

Module ParserStmtSpec.
Import Token TokenKind Ast ParserCursor ParserOps ParserStmt ParserInv ParserCursorSpec.

Definition node `{ST : Setting} {A} (n : Z) (s : Parser) (r : Result A) (s' : Parser) : Prop :=
  match r with
  | Ok _ => (total = true -> (offset s < offset s')%nat) /\ phi s' <= phi s - n * one
  | Err _ => paid 1 s s'
  end.

(** A value, if there is one. *)
Definition expr_post `{ST : Setting} {A} (s : Parser) (r : Result (option A)) (s' : Parser) : Prop :=
  match r with
  | Ok None => paid 1 s s'
  | Ok (Some a) => node 2 s (Ok a) s'
  | Err d => node (A := A) 2 s (Err d) s'
  end.

(** The laws of the recursive functions, from where the cursor may be: [lo] for
    values and [lt] for types.  They only matter in the total mode. *)
Class RecOk `{ST : Setting} `{R : !Rec} (lo lt : nat) : Prop := {
  rec_expr_ok min_bp allow_init s :
    inv s -> (1 <= offset s)%nat -> (total = true -> (lo <= offset s)%nat) -> phi s <= bound ->
    spec (parse_expr_precedence min_bp allow_init) s (expr_post s);
  rec_ty_ok s :
    inv s -> (1 <= offset s)%nat -> (total = true -> (lt <= offset s)%nat) -> phi s <= bound ->
    spec parse_ty_expr s (expr_post s);
  rec_order : (lt <= lo)%nat;
}.

(** Where the interface may be called, and one token before that. *)
Definition ready `{ST : Setting} (lo : nat) (s : Parser) : Prop :=
  (1 <= offset s)%nat /\ (total = true -> (lo <= offset s)%nat).
Definition almost `{ST : Setting} (lo : nat) (s : Parser) : Prop :=
  total = true -> (lo <= S (offset s))%nat.

(** Arithmetic on the contracts. *)
Ltac nlia :=
  first [assumption|idtac]; unfold expr_post, node, opened, ready, almost in *; facts;
  try match goal with H : RecOk _ _ |- _ => pose proof (@rec_order _ _ _ _ H) end; plia.

#[export] Hint Extern 1 (ready _ _) => nlia : parser.
#[export] Hint Extern 1 (almost _ _) => nlia : parser.
#[export] Hint Extern 2 (_ <= _)%nat => nlia : parser.
#[export] Hint Extern 2 (_ <= _) => nlia : parser.
#[export] Hint Extern 1 (_ <> _) => discriminate : parser.

Lemma spec_if_eats `{ST : Setting} `{R : !Rec} {A} s tag (m : M (Result A)) :
  TokenTag.eq tag TokenTag.Eof = false -> inv s ->
  (forall s1, inv s1 -> moved s s1 -> spec m s1 (fun _ s2 => phi s2 <= phi s1)) ->
  spec (if_eats tag m) s (fun _ s' => phi s' <= phi s).
Proof. intros Ht Hi Hm. unfold if_eats. repeat step; nlia. Qed.

(** One step, also through an optional part. *)
Ltac nstep :=
  lazymatch goal with
  | |- spec (if_eats _ _) _ _ =>
      eapply spec_call;
        [apply spec_if_eats; [reflexivity|assumption|intros ? ? ?; repeat step; nlia]
        |intros ? ? ? ? ?; facts]
  | _ => step
  end.

Section Stmt.
Context {ST : Setting} {R : Rec} {lo lt : nat} {RO : RecOk lo lt}.

#[local] Hint Resolve rec_expr_ok rec_ty_ok : parser.

(** ** Expecting expressions *)

Lemma spec_expect_ty_expr s :
  inv s -> ready lt s -> phi s <= bound -> spec expect_ty_expr s (node 2 s).
Proof.
  intros Hi [Ho Hl] Hp. unfold expect_ty_expr. repeat step; nlia.
Qed.

Lemma spec_or_expected s (m : M (Result (option Expr))) :
  inv s -> spec m s (expr_post s) -> spec (or_expected_expression m) s (node 2 s).
Proof.
  intros Hi Hm. unfold or_expected_expression. apply spec_try. eapply spec_call; [exact Hm|].
  intros [[e|]|d] s1 Hi1 Ho1 H; [step; nlia|repeat step; nlia|nlia].
Qed.

Lemma spec_expect_expr s :
  inv s -> ready lo s -> phi s <= bound -> spec expect_expr s (node 2 s).
Proof. intros Hi [Ho Hl] Hp. apply spec_or_expected; [done|]. by apply rec_expr_ok. Qed.

Lemma spec_expect_expr_no_init s :
  inv s -> ready lo s -> phi s <= bound -> spec expect_expr_no_init s (node 2 s).
Proof. intros Hi [Ho Hl] Hp. apply spec_or_expected; [done|]. by apply rec_expr_ok. Qed.

#[local] Hint Resolve spec_expect_ty_expr spec_expect_expr spec_expect_expr_no_init : parser.

Lemma spec_expect_expr_ctx s ctx :
  inv s -> ready lo s -> phi s <= bound -> spec (expect_expr_ctx ctx) s (node 2 s).
Proof. intros. destruct ctx; unfold expect_expr_ctx; eauto with parser. Qed.

Lemma spec_expect_expr_ctx_no_init s ctx :
  inv s -> ready lo s -> phi s <= bound -> spec (expect_expr_ctx_no_init ctx) s (node 2 s).
Proof. intros. destruct ctx; unfold expect_expr_ctx_no_init; eauto with parser. Qed.

#[local] Hint Resolve spec_expect_expr_ctx spec_expect_expr_ctx_no_init : parser.

Lemma spec_eat_delimited_ctx s tag pred ctx :
  TokenTag.eq tag TokenTag.Eof = false -> inv s -> ready lo s -> phi s <= bound ->
  spec (eat_delimited_ctx tag pred ctx) s (fun _ s' => phi s' <= phi s).
Proof.
  intros. destruct ctx; apply spec_eat_delimited; try done; intros s1 Hi1 Ho1 Hp1;
    (eapply spec_call; [eauto with parser|]); intros [e|d] s2 ? ? ?; nlia.
Qed.

#[local] Hint Resolve spec_eat_delimited_ctx : parser.

(** ** Initialisers and calls *)

Lemma spec_parse_struct_field_init s :
  inv s -> almost lo s -> phi s <= bound ->
  spec parse_struct_field_init s (fun _ s' => phi s' <= phi s).
Proof. intros. unfold parse_struct_field_init. repeat step; nlia. Qed.

#[local] Hint Resolve spec_parse_struct_field_init : parser.

Lemma spec_parse_struct_init_expr s ty :
  inv s -> almost lo s -> phi s <= bound -> spec (parse_struct_init_expr ty) s (opened s).
Proof.
  intros. apply spec_try. eapply spec_call.
  - apply spec_eat_delimited_group; try done. eauto with parser.
  - intros [l|d] ? ? ? ?; [step|]; nlia.
Qed.

Lemma spec_parse_array_init_expr s ty :
  inv s -> almost lo s -> phi s <= bound -> spec (parse_array_init_expr ty) s (opened s).
Proof.
  intros. apply spec_try. eapply spec_call.
  - apply spec_eat_delimited_group; try done. intros s1 Hi1 Ho1 Hp1.
    eapply spec_call; [eauto with parser|]. intros [e|d] ? ? ? ?; nlia.
  - intros [l|d] ? ? ? ?; [step|]; nlia.
Qed.

Lemma spec_starts_struct_init s : inv s -> spec starts_struct_init s (fun _ s' => s' = s).
Proof. intros. unfold starts_struct_init. repeat step. done. Qed.

#[local] Hint Resolve spec_parse_struct_init_expr spec_parse_array_init_expr spec_starts_struct_init : parser.

Lemma spec_parse_init_expr s :
  inv s -> ready lt s -> almost lo s -> phi s <= bound -> spec parse_init_expr s (expr_post s).
Proof. intros Hi [Ho Hl] Ha Hp. unfold parse_init_expr. repeat step; nlia. Qed.

Lemma spec_parse_fn_call s callee :
  inv s -> almost lo s -> phi s <= bound -> spec (parse_fn_call callee) s (opened s).
Proof.
  intros Hi Ha Hp. unfold parse_fn_call. do 2 step. apply spec_try. eapply spec_call.
  - apply spec_loop with
      (I := fun _ s1 => (offset s < offset s1)%nat /\ phi s1 <= phi s - COST \/ stuck s s1)
      (Q := fun _ s1 => (offset s < offset s1)%nat /\ phi s1 <= phi s - COST \/ stuck s s1);
      [apply loop_fuel_enough|done|nlia|].
    intros args s1 Hi1 HI1. do 3 step; [step; exact HI1|].
    assert ((offset s < offset s1)%nat /\ phi s1 <= phi s - COST) as [Ho1 Hp1] by nlia.
    unfold parse_expr. repeat step; nlia.
  - intros args s1 Hi1 Ho1 HI1. facts. repeat step; nlia.
Qed.

(** ** Bindings *)

Lemma spec_parse_var_binding s :
  inv s -> ready lo s -> phi s + 2 * one <= bound ->
  spec parse_var_binding s (fun _ s' => phi s' <= phi s + 2 * one).
Proof. intros Hi Hr Hp. unfold parse_var_binding, eat_until. repeat step; nlia. Qed.

#[local] Hint Resolve spec_parse_init_expr spec_parse_fn_call spec_parse_var_binding : parser.

(** ** Statements *)

Lemma spec_optional_value s (m : M (Result Expr)) :
  inv s -> spec m s (node 2 s) -> spec (optional_value m) s (fun _ s' => phi s' <= phi s).
Proof.
  intros Hi Hm. unfold optional_value. repeat step; nlia.
Qed.

Lemma spec_one_of s self tag tags token :
  inv s -> spec (lift (diag_expected_one_of_token self (tag :: tags) token)) s (fun _ s' => s' = s).
Proof.
  intros Hi. unfold lift, diag_expected_one_of_token. destruct (diag_unknown_directive self token);
    exact (conj Hi (conj (reflexivity s) eq_refl)).
Qed.

#[local] Hint Resolve spec_optional_value spec_one_of : parser.

(** An expression statement at the end of the file moves the cursor back onto
    its last token. *)
Lemma spec_parse_expr_statement s ctx :
  inv s -> ready lo s -> phi s <= bound ->
  (forall t, cur s t -> Token.is_eof t = false /\ Token.kind t <> RBrace) ->
  spec (parse_expr_statement ctx) s (fun r s' =>
    match r with
    | Ok _ => (total = true -> (offset s < offset s')%nat) /\
        (phi s' <= phi s - one \/ last s' /\ phi s' <= phi s - one + COST)
    | Err _ => paid 1 s s'
    end).
Proof.
  intros Hi Hr Hp Hc.
  assert (S (offset s) < length T /\ (total = true -> ~ last s))%nat as [He Hl].
  { destruct (cur_exists s Hi) as [t Ht]. destruct (Hc t Ht) as [Hn Hb].
    split; [by eapply cur_next|]. intros Htot Hl.
    destruct (last_brace s Htot Hi Hl) as (t' & Ht' & Hk). by rewrite (cur_fun _ _ _ Ht' Ht) in Hk. }
  apply spec_try_maybe; [done|apply Hr|done|]. eapply spec_call; [by apply spec_expect_expr_ctx|].
  intros [e|d] s1 Hi1 Ho1 H1; [|nlia]. intros o s2 Hi2 Ho2 H2. unfold after_maybe, last in *.
  destruct o as [op|]; [repeat step; nlia|]. step. destruct H2 as [->|H2]; nlia.
Qed.

#[local] Hint Resolve spec_parse_expr_statement : parser.

Lemma spec_parse_comptime_statement s :
  inv s -> ready lo s -> phi s + 2 * one <= bound ->
  spec parse_comptime_statement s (fun _ s' => phi s' <= phi s + 2 * one).
Proof.
  intros Hi Hr Hp. unfold parse_comptime_statement. apply spec_bind.
  eapply spec_call; [by apply spec_peek_kind|]. intros k ? ? ? (-> & t & Hc & <-). apply spec_try.
  kinds ltac:(repeat step; nlia); repeat step; nlia.
Qed.

#[local] Hint Resolve spec_parse_comptime_statement : parser.

(** The keyword of a statement has been read. *)
Definition statement_kind_post (s : Parser) (r : Result StatementKind) (s' : Parser) : Prop :=
  match r with
  | Ok _ => (total = true -> (offset s < offset s')%nat) /\
      (phi s' <= phi s - one \/ last s' /\ phi s' <= phi s - one + COST)
  | Err _ => paid 1 s s'
  end.

Lemma spec_parse_statement_impl s ctx :
  inv s -> ready lo s -> phi s + one <= bound ->
  (forall t, cur s t -> Token.is_eof t = false /\ Token.kind t <> RBrace) ->
  spec (parse_statement_impl ctx) s (statement_post s).
Proof.
  intros Hi Hr Hp Hc. apply spec_bind. eapply spec_call; [apply spec_next_id; [done|lia]|].
  intros id s1 Hi1 _ (_ & Ho1 & Hp1 & _).
  assert (forall t, cur s1 t -> Token.is_eof t = false /\ Token.kind t <> RBrace) as Hc1.
  { unfold cur. rewrite Ho1. exact Hc. }
  do 2 step. apply spec_bind. eapply spec_call; [by apply spec_peek_kind|].
  intros k ? _ _ (-> & t & Ht & <-). apply spec_try.
  apply spec_call with (Q' := statement_kind_post s1).
  - unfold statement_kind_post.
    kinds ltac:(apply spec_parse_expr_statement; [done|nlia|lia|exact Hc1]); repeat nstep; nlia.
  - unfold statement_kind_post, statement_post, last.
    intros [kd|d] s2 Hi2 Ho2 H2; [repeat step|]; nlia.
Qed.

#[local] Hint Resolve spec_parse_statement_impl : parser.

Lemma spec_parse_block_impl s label is_const span ctx :
  inv s -> almost lo s -> phi s <= bound ->
  spec (parse_block_impl label is_const span ctx) s (node 3 s).
Proof.
  intros Hi Ha Hp. apply spec_try. eapply spec_call.
  - apply spec_eat_group; [done|]. intros s1 Hi1 Ho1 Hp1 Hc1. apply spec_parse_statement_impl; [done|nlia..|done].
  - intros [l|d] s1 Hi1 Ho1 H1; [repeat step|]; nlia.
Qed.

#[local] Hint Resolve spec_parse_block_impl : parser.

Lemma spec_parse_block_here s label ctx :
  inv s -> almost lo s -> phi s <= bound -> spec (parse_block_here label ctx) s (node 3 s).
Proof. intros. unfold parse_block_here. repeat step. done. Qed.

#[local] Hint Resolve spec_parse_block_here : parser.

(** ** Control flow *)

Lemma spec_parse_if_body s ctx :
  inv s -> ready lo s -> phi s <= bound -> spec (parse_if_body ctx) s (node 2 s).
Proof. intros. unfold parse_if_body. repeat step; nlia. Qed.

Lemma spec_parse_switch_body s ctx :
  inv s -> ready lo s -> phi s <= bound -> spec (parse_switch_body ctx) s (node 2 s).
Proof. intros. unfold parse_switch_body. repeat step; nlia. Qed.

#[local] Hint Resolve spec_parse_if_body spec_parse_switch_body : parser.

Lemma spec_parse_if_impl s ctx :
  inv s -> almost lo s -> phi s <= bound -> spec (parse_if_impl ctx) s (node 3 s).
Proof.
  intros Hi Ha Hp. unfold parse_if_impl. repeat step; try nlia. eapply spec_call.
  - apply spec_loop with
      (I := fun _ s1 => (offset s < offset s1)%nat /\ phi s1 <= phi s - 8 * one)
      (Q := fun _ s1 => (offset s < offset s1)%nat /\ phi s1 <= phi s - 7 * one);
      [apply loop_fuel_enough|done|nlia|].
    intros branches sl Hil [Hol Hpl]. repeat step; nlia.
  - intros [b|d] sl Hil Hol Hl; [repeat step|]; nlia.
Qed.

Lemma spec_parse_while_impl s label inline ctx :
  inv s -> almost lo s -> phi s <= bound -> spec (parse_while_impl label inline ctx) s (node 3 s).
Proof. intros. unfold parse_while_impl. repeat step; nlia. Qed.

Lemma spec_parse_for_impl s label inline ctx :
  inv s -> almost lo s -> phi s <= bound -> spec (parse_for_impl label inline ctx) s (node 3 s).
Proof. intros. unfold parse_for_impl. repeat step; nlia. Qed.

Lemma spec_parse_loop_impl s label ctx :
  inv s -> almost lo s -> phi s <= bound -> spec (parse_loop_impl label ctx) s (node 3 s).
Proof. intros. unfold parse_loop_impl. repeat step; nlia. Qed.

Lemma spec_parse_switch_case s ctx :
  inv s -> ready lo s -> phi s <= bound ->
  spec (parse_switch_case ctx) s (fun r s' =>
    phi s' <= phi s /\ on_ok r (fun _ => (offset s < offset s')%nat)).
Proof. intros. unfold parse_switch_case. repeat nstep; nlia. Qed.

#[local] Hint Resolve spec_parse_switch_case : parser.

Lemma spec_parse_switch_impl s label ctx :
  inv s -> almost lo s -> phi s <= bound -> spec (parse_switch_impl label ctx) s (node 3 s).
Proof.
  intros Hi Ha Hp. unfold parse_switch_impl. repeat step; try nlia. eapply spec_call.
  - apply spec_loop with
      (I := fun _ s1 => (offset s < offset s1)%nat /\ phi s1 <= phi s - 8 * one)
      (Q := fun _ s1 => (offset s < offset s1)%nat /\ phi s1 <= phi s - 8 * one);
      [apply loop_fuel_enough|done|nlia|].
    intros cases sl Hil [Hol Hpl]. repeat step; nlia.
  - intros [b|d] sl Hil Hol Hl; [repeat step|]; nlia.
Qed.

#[local] Hint Resolve spec_parse_if_impl spec_parse_while_impl spec_parse_for_impl spec_parse_loop_impl
  spec_parse_switch_impl : parser.

Lemma spec_parse_inline_loop s label ctx :
  inv s -> (1 <= offset s)%nat -> almost lo s -> phi s <= bound ->
  spec (parse_inline_loop label ctx) s (node 3 s).
Proof.
  intros. apply spec_bind. eapply spec_call; [by apply spec_peek_kind|]. intros k ? ? ? (-> & t & Hc & <-).
  unfold diag_expected_inlinable. kinds ltac:(repeat step; nlia); eauto with parser.
Qed.

#[local] Hint Resolve spec_parse_inline_loop : parser.

Lemma spec_parse_labeled_control_flow s label ctx :
  inv s -> (1 <= offset s)%nat -> almost lo s -> phi s <= bound ->
  spec (parse_labeled_control_flow label ctx) s (node 3 s).
Proof.
  intros. apply spec_bind. eapply spec_call; [by apply spec_peek_kind|]. intros k ? ? ? (-> & t & Hc & <-).
  kinds ltac:(repeat step; nlia); try solve [eauto with parser]; repeat step; nlia.
Qed.

End Stmt.

#[export] Hint Resolve spec_expect_ty_expr spec_expect_expr spec_expect_expr_no_init spec_expect_expr_ctx
  spec_expect_expr_ctx_no_init spec_parse_struct_init_expr spec_parse_array_init_expr
  spec_starts_struct_init spec_parse_init_expr spec_parse_fn_call spec_parse_var_binding
  spec_optional_value spec_one_of spec_parse_block_impl spec_parse_block_here spec_parse_if_impl
  spec_parse_while_impl spec_parse_for_impl spec_parse_loop_impl spec_parse_switch_impl
  spec_parse_inline_loop spec_parse_labeled_control_flow : parser.

End ParserStmtSpec.

Module ParserDeclSpec.
Import Token TokenKind Ast ParserCursor ParserOps ParserStmt ParserDecl ParserInv ParserCursorSpec ParserStmtSpec.

Section Decl.
Context {ST : Setting} {R : Rec} {lo lt : nat} {RO : RecOk lo lt}.

(** ** Functions *)

Lemma spec_parse_fn_param s is_type_decl :
  inv s -> ready lo s -> phi s + one <= bound -> (S (offset s) < length T)%nat ->
  spec (parse_fn_param is_type_decl) s (fun r s' => phi s' <= phi s).
Proof. intros Hi Hr Hp Hc. unfold parse_fn_param. repeat step; nlia. Qed.

#[local] Hint Resolve spec_parse_fn_param : parser.

Lemma ends_params_eof t : ends_params t = false -> Token.is_eof t = false.
Proof. unfold ends_params, Token.is_eof. by destruct (Token.kind t). Qed.

(** An identifier taken and given back leaves the parser as it was. *)
Lemma spec_probe_id s : inv s -> phi s + one <= bound -> spec probe_id s (fun _ s' => s' = s).
Proof.
  intros Hi Hp. pose proof (spec_next_id s Hi Hp) as H. unfold spec, probe_id in *.
  cbv [mbind M_bind]. apply wp_bind. eapply wp_mono; [done| |exact H].
  intros [id s1] (_ & _ & -> & _ & _ & ->). cbn. destruct s.
  refine (conj Hi (conj (reflexivity _) eq_refl)).
Qed.

#[local] Hint Resolve spec_probe_id : parser.

Lemma spec_parse_fn_decl s is_type_decl :
  inv s -> ready lo s -> phi s + one <= bound ->
  spec (parse_fn_decl is_type_decl) s (fun r s' =>
    phi s' <= phi s /\ (is_type_decl = false -> on_ok r (fun '(_, _, ret_ty, _) => is_Some ret_ty))).
Proof.
  intros Hi Hr Hp. unfold parse_fn_decl. do 2 step. apply spec_try. eapply spec_call.
  - apply spec_loop_from with (I := fun _ s1 => phi s1 <= phi s) (Q := fun _ s1 => phi s1 <= phi s);
      [apply loop_fuel_enough|done|nlia|].
    intros params sl Hil Hol Hpl. do 3 step; [by step|].
    match goal with H : ends_params _ = false |- _ => apply ends_params_eof in H end.
    match goal with Hc : cur sl ?t, He : Token.is_eof ?t = false |- _ => pose proof (cur_next sl t Hil Hc He) end.
    repeat step; nlia.
  - intros [params|d] sl Hil Hol Hl; [|split; [nlia|done]].
    destruct is_type_decl; repeat nstep; (split; [nlia|cbn; intros; first [done|by eexists]]).
Qed.

#[local] Hint Resolve spec_parse_fn_decl : parser.

Lemma spec_parse_associated_function s is_pub is_comptime ext inline span bodyless :
  inv s -> ready lo s -> phi s + 2 * one <= bound ->
  spec (parse_associated_function is_pub is_comptime ext inline span bodyless) s
    (fun _ s' => phi s' <= phi s + one).
Proof.
  intros Hi Hr Hp. unfold parse_associated_function. do 4 step; [|nlia].
  step; [repeat step; nlia|]. apply spec_try. eapply spec_call; [apply spec_parse_fn_decl; [done|nlia..]|].
  intros [[[[params callconv] ret_ty] variadic]|d] sd Hid Hod [Hpd Hret]; [|nlia].
  destruct (Hret eq_refl) as [ty ->]. repeat step; nlia.
Qed.

Lemma spec_parse_associated_binding s is_pub span is_const :
  inv s -> ready lo s -> phi s + 3 * one <= bound ->
  spec (parse_associated_binding is_pub span is_const) s (fun _ s' => phi s' <= phi s + 3 * one).
Proof. intros. unfold parse_associated_binding. repeat step; nlia. Qed.

#[local] Hint Resolve spec_parse_associated_function spec_parse_associated_binding : parser.

(** ** Members *)

(** A member starts with an identifier. *)
Definition at_ident (s : Parser) : Prop :=
  exists t, cur s t /\ has_tag (Token.kind t) TokenTag.Ident = true.

Lemma at_ident_same s s' : offset s' = offset s -> at_ident s -> at_ident s'.
Proof. intros Ho (t & Hc & Ht). exists t. unfold cur. by rewrite Ho. Qed.

Lemma at_ident_eof s : inv s -> at_ident s -> (S (offset s) < length T)%nat.
Proof. intros Hi (t & Hc & Ht). by apply (cur_next s t Hi Hc), (has_tag_not_eof t TokenTag.Ident). Qed.

(** What a member parser does: it moves the cursor and pays for itself. *)
Definition member_spec {F} (parse_field : bool -> Span.Span -> M (Result (F * bool))) : Prop :=
  forall s is_pub span, inv s -> almost lo s -> phi s + one <= bound -> at_ident s ->
    spec (parse_field is_pub span) s (fun _ s' => (offset s < offset s')%nat /\ phi s' <= phi s).

(** The identifier of a member, which is there. *)
Lemma spec_member_ident s tag1 tag2 {B} (k : Ident.Ident -> M B) Q :
  inv s -> at_ident s ->
  (forall i s', inv s' -> moved s s' -> spec (k i) s' Q) ->
  spec (r ← parse_ident; i ← ident_or_skip r tag1 tag2; k i) s Q.
Proof.
  intros Hi (t & Hc & Ht) Hk. apply spec_bind. eapply spec_call; [by apply spec_parse_ident|].
  intros [i|d] s' Hi' Ho' H'.
  - cbn [ident_or_skip]. apply spec_bind, spec_ret; [done|]. by apply Hk.
  - destruct H' as [_ H']. by rewrite (H' t Hc) in Ht.
Qed.

Lemma spec_parse_field_def : member_spec parse_field_def.
Proof.
  intros s is_pub span Hi Ha Hp Hc. unfold parse_field_def, eat_until. do 2 step.
  apply spec_member_ident; [done|by eapply at_ident_same|].
  intros i s2 Hi2 Hm2. repeat nstep; nlia.
Qed.

Lemma spec_parse_enum_variant_def : member_spec (fun _ => parse_enum_variant_def).
Proof.
  intros s is_pub span Hi Ha Hp Hc. unfold parse_enum_variant_def. do 2 step.
  apply spec_member_ident; [done|by eapply at_ident_same|].
  intros i s2 Hi2 Hm2. repeat nstep; nlia.
Qed.

Lemma spec_parse_union_field_def : member_spec (fun _ => parse_union_field_def).
Proof.
  intros s is_pub span Hi Ha Hp Hc. unfold parse_union_field_def. do 2 step.
  apply spec_member_ident; [done|by eapply at_ident_same|].
  intros i s2 Hi2 Hm2. repeat nstep; nlia.
Qed.

Lemma spec_parse_field_member {F} (parse_field : bool -> Span.Span -> M (Result (F * bool)))
    s0 s is_pub span fields items :
  member_spec parse_field -> inv s -> almost lo s -> phi s + one <= bound ->
  (S (offset s0) < length T)%nat -> (offset s0 <= offset s)%nat ->
  spec (parse_field_member parse_field is_pub span fields items) s
    (fun _ s' => (offset s0 < offset s')%nat /\ phi s' <= phi s).
Proof.
  intros Hf Hi Ha Hp H0 Ho. apply spec_bind. eapply spec_call; [by apply spec_peek_kind|].
  intros k ? _ _ (-> & t & Hc & <-).
  assert (spec (tok ← bump; self ← get; push_error (diag_unexpected_token self tok);; mret (fields, items, true))
    s (fun _ s' => (offset s0 < offset s')%nat /\ phi s' <= phi s)) as Hother by (repeat step; nlia).
  destruct (Token.kind t) eqn:Hk; try exact Hother. clear Hother.
  apply spec_bind. eapply spec_call; [apply Hf; try done; exists t; by rewrite Hk|].
  intros [[f c]|d] s1 ? ? ?; facts; repeat step; nlia.
Qed.

#[local] Hint Resolve spec_parse_field_member : parser.

Lemma spec_parse_member {F} comptime_kw (parse_field : bool -> Span.Span -> M (Result (F * bool)))
    s fields items :
  member_spec parse_field -> inv s -> almost lo s -> phi s + one <= bound ->
  (S (offset s) < length T)%nat ->
  spec (parse_member comptime_kw parse_field fields items) s
    (fun _ s' => (offset s < offset s')%nat /\ phi s' <= phi s).
Proof.
  intros Hf Hi Ha Hp H0. unfold parse_member. repeat step; nlia.
Qed.

#[local] Hint Resolve spec_parse_member : parser.

Lemma kind_eq_eof t : kind_eq (Token.kind t) Eof = false -> Token.is_eof t = false.
Proof. unfold Token.is_eof. by destruct (Token.kind t). Qed.

Lemma spec_parse_members {F} comptime_kw is_root
    (parse_field : bool -> Span.Span -> M (Result (F * bool))) s :
  member_spec parse_field -> inv s -> almost lo s -> phi s + one <= bound ->
  spec (parse_members comptime_kw is_root parse_field) s (fun _ s' => phi s' <= phi s).
Proof.
  intros Hf Hi Ha Hp.
  apply spec_loop_from with (I := fun _ s1 => phi s1 <= phi s); [apply loop_fuel_enough|done|done|].
  intros [[fields items] comma] s1 Hi1 Ho1 Hp1. apply spec_bind.
  eapply spec_call; [by apply spec_peek|]. intros t ? _ _ [-> Hc].
  destruct ((is_root || _) && _) eqn:E; [|by step].
  apply andb_true_iff in E as [_ E]. apply negb_true_iff, kind_eq_eof in E.
  pose proof (cur_next s1 t Hi1 Hc E) as Hn. repeat step; nlia.
Qed.

(** ** Declarations *)

Lemma spec_open_brace s is_root :
  inv s -> spec (open_brace is_root) s (fun r s' =>
    phi s' <= phi s /\ on_ok r (fun _ => if is_root then s' = s else moved s s')).
Proof. intros Hi. unfold open_brace, eat_until. destruct is_root; [by step|repeat step; nlia]. Qed.

Lemma spec_close_brace s is_root :
  inv s -> spec (close_brace is_root) s (fun r s' => phi s' <= phi s).
Proof. intros Hi. unfold close_brace. destruct is_root; repeat step; nlia. Qed.

#[local] Hint Resolve spec_parse_members spec_open_brace spec_close_brace spec_parse_field_def
  spec_parse_enum_variant_def spec_parse_union_field_def : parser.

Lemma spec_parse_struct_decl s is_root is_packed is_linear span :
  inv s -> almost lo s -> phi s + one <= bound ->
  spec (parse_struct_decl is_root is_packed is_linear span) s (fun _ s' => phi s' <= phi s).
Proof. intros Hi Ha Hp. unfold parse_struct_decl. destruct is_root; repeat step; nlia. Qed.

Lemma spec_parse_enum_decl s is_root is_packed is_linear span :
  inv s -> ready lo s -> phi s + one <= bound ->
  spec (parse_enum_decl is_root is_packed is_linear span) s (fun _ s' => phi s' <= phi s).
Proof. intros Hi Ha Hp. unfold parse_enum_decl. destruct is_root; repeat step; nlia. Qed.

Lemma spec_parse_union_tag s :
  inv s -> ready lo s -> phi s <= bound -> spec parse_union_tag s (fun _ s' => phi s' <= phi s).
Proof. intros. unfold parse_union_tag. repeat step; nlia. Qed.

#[local] Hint Resolve spec_parse_union_tag : parser.

Lemma spec_parse_union_decl s is_root is_linear span :
  inv s -> ready lo s -> phi s + one <= bound ->
  spec (parse_union_decl is_root is_linear span) s (fun _ s' => phi s' <= phi s).
Proof. intros Hi Ha Hp. unfold parse_union_decl. destruct is_root; repeat step; nlia. Qed.

End Decl.

#[export] Hint Resolve spec_parse_struct_decl spec_parse_enum_decl spec_parse_union_decl : parser.

End ParserDeclSpec.
