(* ===== verification/ParserExprSpec.v ===== *)
(** * Expressions keep the invariant of the parser

    The lemmas of [ParserExpr], then the knot: with enough depth the two
    recursive functions satisfy the laws the others rely on. *)

From S2P Require Import Prelude Words Bytes Span Token Diagnostic Ast ParserCursor ParserStmt ParserDecl ParserExpr.
From S2P Require Import ParserInv ParserCursorSpec ParserDeclSpec.

#[local] Open Scope Z_scope.
#[local] Open Scope parser_scope.

Module ParserExprSpec.
Import Token TokenKind Ast ParserCursor ParserOps ParserStmt ParserDecl ParserExpr.
Import ParserInv ParserCursorSpec ParserStmtSpec ParserDeclSpec.

Section Expr.
Context {ST : Setting} {R : Rec} {lo lt : nat} {RO : RecOk lo lt}.

#[local] Hint Extern 1 (Token.is_eof _ = false) => not_at_eof : parser.

(** ** Pieces of expressions *)

Lemma spec_finish s span kind :
  inv s -> (1 <= offset s)%nat -> phi s + one <= bound ->
  spec (finish span kind) s (fun r s' =>
    offset s' = offset s /\ phi s' <= phi s + one /\ exists e, r = Ok (Some e)).
Proof. intros. unfold finish. repeat step. split_and!; [nlia|nlia|eauto]. Qed.

Lemma spec_suffix_expr s lhs kind :
  inv s -> (1 <= offset s)%nat -> phi s + one <= bound ->
  spec (suffix_expr lhs kind) s (fun r s' => phi s' <= phi s + one).
Proof. intros. unfold suffix_expr. repeat step. nlia. Qed.

#[local] Hint Resolve spec_finish spec_suffix_expr : parser.

Lemma spec_wrap_ty_layers layers e s :
  inv s -> phi s + ids (length layers) <= bound ->
  spec (wrap_ty_layers layers e) s (fun _ s' =>
    offset s' = offset s /\ phi s' <= phi s + ids (length layers)).
Proof.
  revert e s. induction layers as [|layer layers IH]; intros e s Hi Hp; cbn [wrap_ty_layers length] in *.
  { step. unfold ids. destruct total; cbn; lia. }
  rewrite ids_S in *. assert (0 <= ids (length layers)) by (unfold ids; destruct total; lia).
  destruct layer; cbv zeta iota beta; do 2 step; (eapply spec_call; [apply IH; [done|nlia]|]); intros; nlia.
Qed.

Lemma spec_wrap_layers layers e s :
  inv s -> phi s + ids (length layers) <= bound ->
  spec (wrap_layers layers e) s (fun _ s' =>
    offset s' = offset s /\ phi s' <= phi s + ids (length layers)).
Proof.
  revert e s. induction layers as [|[layer span] layers IH]; intros e s Hi Hp; cbn [wrap_layers length] in *.
  { step. unfold ids. destruct total; cbn; lia. }
  rewrite ids_S in *. assert (0 <= ids (length layers)) by (unfold ids; destruct total; lia).
  do 2 step. eapply spec_call; [apply IH; [done|nlia]|]. intros; nlia.
Qed.

Lemma spec_close_groups starts e s :
  inv s -> phi s <= bound -> spec (close_groups starts e) s (fun _ s' => phi s' <= phi s).
Proof.
  revert e s. induction starts as [|span starts IH]; intros e s Hi Hp; cbn [close_groups].
  { by step. }
  repeat step; nlia.
Qed.

Lemma spec_open_groups s :
  inv s -> (exists t, cur s t /\ Token.kind t = LParen) ->
  spec open_groups s (fun _ s' => (offset s < offset s')%nat /\ phi s' <= phi s - COST).
Proof.
  intros Hi (t & Hc & Hk).
  apply spec_loop with (I := fun _ s1 => s1 = s \/ (offset s < offset s1)%nat /\ phi s1 <= phi s - COST);
    [apply loop_fuel_enough|done|by left|].
  intros starts s1 Hi1 HI. apply spec_bind. eapply spec_call; [by apply spec_peek_is|].
  intros b ? _ _ (-> & t1 & Hc1 & ->). destruct (kind_eq (Token.kind t1) LParen) eqn:E.
  - assert (Token.is_eof t1 = false) by (unfold Token.is_eof; by destruct (Token.kind t1)).
    repeat step. destruct HI as [->|HI]; nlia.
  - step. destruct HI as [->|HI]; [|done]. rewrite (cur_fun _ _ _ Hc1 Hc), Hk in E. done.
Qed.

Lemma spec_multi_line_str s bytes :
  inv s -> spec (multi_line_str bytes) s (fun _ s' => phi s' <= phi s).
Proof.
  intros Hi. apply spec_loop with (I := fun _ s1 => phi s1 <= phi s); [apply loop_fuel_enough|done|done|].
  intros buf s1 Hi1 HI. apply spec_bind. eapply spec_call; [by apply spec_peek_kind|].
  intros k ? ? ? (-> & t & Hc & <-). kinds ltac:(by step). repeat step. nlia.
Qed.

Lemma spec_colon_follows s : inv s -> spec colon_follows s (fun _ s' => s' = s).
Proof. intros. unfold colon_follows. repeat step. done. Qed.

#[local] Hint Resolve spec_wrap_ty_layers spec_wrap_layers spec_close_groups spec_open_groups
  spec_multi_line_str spec_colon_follows : parser.

(** ** Type expressions *)

Lemma spec_parse_ptr_modifiers s :
  inv s -> ready lo s -> phi s <= bound ->
  spec parse_ptr_modifiers s (fun _ s' => phi s' <= phi s).
Proof.
  intros Hi Hr Hp.
  apply spec_loop_from with (I := fun _ s1 => phi s1 <= phi s); [apply loop_fuel_enough|done|done|].
  intros [[[sc sv] sa] addr] s1 Hi1 Ho1 HI. cbv zeta. apply spec_bind.
  eapply spec_call; [by apply spec_peek_kind|]. intros k ? ? ? (-> & t & Hc & <-).
  kinds ltac:(by step); repeat step; nlia.
Qed.

#[local] Hint Resolve spec_parse_ptr_modifiers : parser.

Lemma spec_parse_array_layer s t span :
  inv s -> ready lo s -> phi s <= bound -> cur s t ->
  spec (parse_array_layer span (Token.kind t)) s (fun _ s' => phi s' <= phi s).
Proof.
  intros Hi Hr Hp Hc. unfold parse_array_layer. cbv zeta.
  destruct (match Token.kind t with TokenKind.Ident _ _ => _ | _ => _ end) eqn:E.
  - assert (Token.is_eof t = false) by (unfold Token.is_eof; by destruct (Token.kind t)).
    repeat nstep; nlia.
  - repeat nstep; nlia.
Qed.

Lemma spec_parse_bracket_layer s span :
  inv s -> ready lo s -> phi s <= bound ->
  spec (parse_bracket_layer span) s (fun _ s' => phi s' <= phi s).
Proof.
  intros Hi Hr Hp. apply spec_bind. eapply spec_call; [by apply spec_peek_kind|].
  intros k ? ? ? (-> & t & Hc & <-).
  pose proof (spec_parse_array_layer s t span Hi Hr Hp Hc) as Hother.
  destruct (Token.kind t) eqn:Hk; try exact Hother; clear Hother; repeat nstep; nlia.
Qed.

#[local] Hint Resolve spec_parse_bracket_layer : parser.

(** The prefixes that [parse_ty_expr] sends here. *)
Definition ty_prefix (kind : TokenKind) : bool :=
  match kind with QuestionMark | Star | StarStar | LBracket => true | _ => false end.

Lemma spec_parse_prefixed_ty_expr s t :
  inv s -> almost lo s -> (1 <= offset s)%nat -> phi s <= bound -> cur s t -> ty_prefix (Token.kind t) = true ->
  spec parse_prefixed_ty_expr s (expr_post s).
Proof.
  intros Hi Ha Ho Hp Hc Hk. apply spec_try. eapply spec_call.
  - apply spec_loop_from with
      (I := fun layers s1 => phi s1 + ids (length layers) <= phi s /\
        (s1 = s \/ (offset s < offset s1)%nat /\ phi s1 + ids (length layers) <= phi s - 2 * one))
      (Q := fun r s1 => match r with
        | Ok layers => (offset s < offset s1)%nat /\ phi s1 + ids (length layers) <= phi s - 2 * one
        | Err _ => phi s1 <= phi s - one
        end);
      [apply loop_fuel_enough|done| |].
    { split; [|by left]. unfold ids. destruct total; cbn; lia. }
    intros layers s1 Hi1 Ho1 [HI1 HI2].
    assert (0 <= ids (length layers)) by (unfold ids; destruct total; lia).
    do 2 step. apply spec_bind.
    eapply spec_call; [by apply spec_peek_kind|]. intros k ? ? ? (-> & t1 & Hc1 & <-).
    destruct (ty_prefix (Token.kind t1)) eqn:E.
    + destruct (Token.kind t1) eqn:Hk1; try discriminate E; repeat step; cbn [length]; rewrite ?ids_S; nlia.
    + destruct HI2 as [->|HI2]; [rewrite (cur_fun _ _ _ Hc1 Hc) in E; congruence|].
      destruct (Token.kind t1); try discriminate E; by step.
  - intros [layers|d] s1 Hi1 Ho1 H1; [|nlia]. destruct H1 as [Hlt H1].
    assert (0 <= ids (length layers)) by (unfold ids; destruct total; lia).
    repeat step; nlia.
Qed.

(** *** Suffixes *)

Lemma spec_parse_range_end s :
  inv s -> ready lo s -> phi s <= bound -> spec parse_range_end s (fun _ s' => phi s' <= phi s).
Proof.
  intros Hi Hr Hp. apply spec_bind. eapply spec_call; [by apply spec_peek_kind|].
  intros k ? ? ? (-> & t & Hc & <-). kinds ltac:(repeat step; nlia).
Qed.

Lemma spec_parse_inclusive_end s :
  inv s -> ready lo s -> phi s <= bound -> spec parse_inclusive_end s (fun _ s' => phi s' <= phi s).
Proof. intros. unfold parse_inclusive_end. repeat step; nlia. Qed.

#[local] Hint Resolve spec_parse_range_end spec_parse_inclusive_end : parser.

Lemma spec_parse_index_rest s lhs i :
  inv s -> ready lo s -> phi s + one <= bound ->
  spec (parse_index_rest lhs i) s (fun _ s' => phi s' <= phi s + one).
Proof.
  intros Hi Hr Hp. apply spec_bind. eapply spec_call; [by apply spec_peek_kind|].
  intros k ? ? ? (-> & t & Hc & <-). unfold index_expr.
  kinds ltac:(repeat step; nlia).
Qed.

#[local] Hint Resolve spec_parse_index_rest : parser.

Lemma spec_parse_index_op s lhs :
  inv s -> ready lo s -> phi s + one <= bound ->
  spec (parse_index_op lhs) s (fun _ s' => phi s' <= phi s + one).
Proof.
  intros Hi Hr Hp. apply spec_bind. eapply spec_call; [by apply spec_peek_kind|].
  intros k ? ? ? (-> & t & Hc & <-). unfold index_expr.
  kinds ltac:(repeat step; nlia).
Qed.

Lemma spec_report_misplaced s note :
  inv s -> (1 <= offset s)%nat ->
  spec (report_misplaced note) s (fun _ s' => phi s' <= phi s).
Proof. intros. unfold report_misplaced. repeat step; nlia. Qed.

#[local] Hint Resolve spec_parse_index_op spec_report_misplaced : parser.

Lemma spec_parse_dot_op s lhs :
  inv s -> (1 <= offset s)%nat -> phi s + one <= bound ->
  spec (parse_dot_op lhs) s (fun _ s' => phi s' <= phi s + one).
Proof.
  intros Hi Hr Hp. apply spec_bind. eapply spec_call; [by apply spec_peek_kind|].
  intros k ? ? ? (-> & t & Hc & <-). kinds ltac:(repeat step; nlia).
Qed.

#[local] Hint Resolve spec_parse_dot_op : parser.

(** A suffix has been paid for; without one, or with a misplaced one, nothing is
    owed. *)
Lemma spec_parse_suffix_ty_op s lhs :
  inv s -> (1 <= offset s)%nat -> almost lo s -> phi s <= bound ->
  spec (parse_suffix_ty_op lhs) s (fun r s' =>
    phi s' <= phi s /\ on_ok r (fun o => match o with Some _ => (offset s < offset s')%nat | None => True end)).
Proof.
  intros Hi Ho Ha Hp. apply spec_bind. eapply spec_call; [by apply spec_peek_kind|].
  intros k ? _ _ (-> & t & Hc & <-).
  match goal with |- spec _ _ ?Q => set (Q0 := Q) end.
  assert (forall m, (forall s1, inv s1 -> moved s s1 -> spec m s1 (fun _ s' => phi s' <= phi s1 + one)) ->
    Token.is_eof t = false -> spec (advance;; m) s Q0) as Hsuf.
  { intros m Hm He. apply spec_bind. eapply spec_call; [by eapply spec_advance|].
    intros ? s1 Hi1 Ho1 Hm1. eapply spec_call; [by apply Hm|]. intros r s2 ? ? ?. split; [nlia|].
    destruct r as [[o|]|d]; [nlia|done|done]. }
  kinds ltac:(step; by split); apply Hsuf; try (unfold Token.is_eof; by rewrite Heqt0);
    intros; repeat step; nlia.
Qed.

#[local] Hint Resolve spec_parse_suffix_ty_op : parser.

(** *** Primary type expressions *)

(** A [.] that starts no literal is left to [parse_init_expr], which comes back
    to it: the total mode has none. *)
Lemma spec_parse_dot_literal s t :
  inv s -> almost lo s -> (1 <= offset s)%nat -> phi s <= bound -> cur s t -> Token.kind t = Dot ->
  spec parse_dot_literal s (fun r s' =>
    match r with
    | Ok (Some _) => (offset s < offset s')%nat /\ phi s' <= phi s - COST
    | Ok None => s' = s /\ total = false
    | Err _ => phi s' <= phi s - COST
    end).
Proof.
  intros Hi Ha Ho Hp Hc Hk. apply spec_bind. eapply spec_call; [by apply spec_peek_1|].
  intros nx ? _ _ [-> Hnx]. specialize (Hnx t Hc).
  assert (Token.is_eof t = false) as He by (unfold Token.is_eof; by rewrite Hk).
  specialize (Hnx He). pose proof (fun Ht => T_dots Ht _ _ _ Hc Hk Hnx) as Hdot.
  assert (forall s1, offset s1 = S (offset s) -> cur s1 nx) as Hnext by (unfold cur; congruence).
  destruct (Token.kind nx) eqn:Hkn;
    try (apply spec_ret; [done|]; split; [done|]; destruct total; [by specialize (Hdot eq_refl)|done]).
  - repeat step; nlia.
  - assert (Token.is_eof nx = false) as Hen by (unfold Token.is_eof; by rewrite Hkn).
    match goal with k : IdentKind |- _ => destruct k end;
      try (apply spec_ret; [done|]; split; [done|]; destruct total; [by specialize (Hdot eq_refl)|done]);
      (do 2 step; apply spec_bind;
       (eapply spec_call; [apply (spec_bump_at _ nx); [done|apply Hnext; nlia|done]|]);
       intros t' s2 Hi2 Ho2 [-> Hm2]; rewrite Hkn; step; nlia).
Qed.

Lemma spec_parse_linear_ty s span :
  inv s -> ready lo s -> phi s + one <= bound ->
  spec (parse_linear_ty span) s (fun _ s' => phi s' <= phi s).
Proof.
  intros Hi Hr Hp. apply spec_bind. eapply spec_call; [by apply spec_peek_kind|].
  intros k ? ? ? (-> & t & Hc & <-). kinds ltac:(repeat step; nlia).
Qed.

Lemma spec_parse_labeled s span ctx :
  inv s -> almost lo s -> (1 <= offset s)%nat -> phi s <= bound ->
  spec (parse_labeled span ctx) s (expr_post s).
Proof. intros. unfold parse_labeled. repeat step; nlia. Qed.

#[local] Hint Resolve spec_parse_linear_ty spec_parse_labeled : parser.

Lemma spec_parse_control_flow s t k ctx :
  inv s -> almost lo s -> (1 <= offset s)%nat -> phi s <= bound -> cur s t -> Token.kind t = k ->
  Token.is_eof t = false -> spec (parse_control_flow k ctx) s (node 3 s).
Proof.
  intros Hi Ha Ho Hp Hc <- He.
  assert (spec (advance;; parse_inline_loop None ctx) s (node 3 s)) as Hother by (repeat step; nlia).
  unfold parse_control_flow. destruct (Token.kind t) eqn:Hk; try exact Hother; eauto with parser.
Qed.

#[local] Hint Resolve spec_parse_control_flow : parser.

Lemma spec_ident_expr s span :
  inv s -> phi s <= bound ->
  spec (generic_ident ←? parse_ident; finish span (ExprKind_Ident generic_ident)) s (expr_post s).
Proof. intros. repeat step; nlia. Qed.

Lemma spec_parse_primary_ty_expr s :
  inv s -> almost lo s -> (1 <= offset s)%nat -> phi s <= bound ->
  spec parse_primary_ty_expr s (expr_post s).
Proof.
  intros Hi Ha Ho Hp. unfold parse_primary_ty_expr. do 2 step. apply spec_bind.
  eapply spec_call; [by apply spec_peek_kind|]. intros k ? ? ? (-> & t & Hc & <-). cbv zeta.
  match goal with |- context [finish ?span _] => pose proof (spec_ident_expr s span Hi Hp) as Hident end.
  assert (spec (ok None) s (expr_post (A := Expr) s)) as Hnone by (step; nlia).
  destruct (Token.kind t) eqn:Hk; cbn [builtin_ty]; try exact Hnone; clear Hnone;
    try (match goal with k : IdentKind |- _ => destruct k end; try exact Hident);
    clear Hident.
  all: try solve [repeat step; nlia].
  - apply spec_bind. eapply spec_call; [apply spec_open_groups; eauto|].
    intros starts s1 Hi1 Ho1 H11. facts. repeat step; nlia.
  - apply spec_try. eapply spec_call; [by eapply spec_parse_dot_literal|].
    intros [[l|]|d] s1 Hi1 Ho1 H'; [repeat step; nlia| |nlia]. destruct H' as [-> Htot].
    apply spec_parse_init_expr; try done; split; [done|congruence].
  - unfold maybe_parse_int_suffix. eapply spec_literal; try done; try congruence.
    intros r s1 Hi1 Ho1 Hs1 H11 Hp1. repeat step; nlia.
  - unfold maybe_parse_float_suffix. eapply spec_literal; try done; try congruence.
    intros r s1 Hi1 Ho1 Hs1 H11 Hp1. repeat step; nlia.
Qed.

#[local] Hint Resolve spec_parse_primary_ty_expr : parser.

Lemma spec_parse_suffix_ty_expr s :
  inv s -> almost lo s -> (1 <= offset s)%nat -> phi s <= bound ->
  spec parse_suffix_ty_expr s (expr_post s).
Proof.
  intros Hi Ha Ho Hp. unfold parse_suffix_ty_expr. do 5 step; [|nlia]. step; [|step; nlia].
  apply spec_loop_from with
    (I := fun _ s1 => (total = true -> (offset s < offset s1)%nat) /\ phi s1 <= phi s - 2 * one);
    [apply loop_fuel_enough|done|nlia|].
  intros [expr jc] s1 Hi1 Ho1 [HI1 HI2]. repeat step; nlia.
Qed.

Lemma spec_parse_ty_expr_body s :
  inv s -> almost lo s -> (1 <= offset s)%nat -> phi s <= bound ->
  spec parse_ty_expr_body s (expr_post s).
Proof.
  intros Hi Ha Ho Hp. apply spec_bind. eapply spec_call; [by apply spec_peek_kind|].
  intros k ? ? ? (-> & t & Hc & <-).
  pose proof (spec_parse_suffix_ty_expr s Hi Ha Ho Hp) as Hother.
  destruct (Token.kind t) eqn:Hk; try exact Hother;
    (eapply spec_parse_prefixed_ty_expr; [done..|by rewrite Hk]).
Qed.

(** ** Value expressions *)

Lemma spec_parse_group_expr s allow_init :
  inv s -> almost lo s -> (1 <= offset s)%nat -> phi s <= bound ->
  (exists t, cur s t /\ Token.kind t = LParen) ->
  spec (parse_group_expr allow_init) s (expr_post s).
Proof.
  intros Hi Ha Ho Hp Hc. apply spec_bind. eapply spec_call; [by apply spec_open_groups|].
  intros starts s1 Hi1 Ho1 [H1 H1']. destruct allow_init; repeat step; nlia.
Qed.

Lemma spec_parse_primary_expr s allow_init :
  inv s -> almost lo s -> ready lt s -> phi s <= bound ->
  spec (parse_primary_expr allow_init) s (expr_post s).
Proof.
  intros Hi Ha Hr Hp. apply spec_bind. eapply spec_call; [by apply spec_peek|].
  intros t ? ? ? [-> Hc]. cbv zeta.
  assert (spec (if allow_init then parse_init_expr else parse_ty_expr) s (expr_post s)) as Hother.
  { destruct allow_init; [by apply spec_parse_init_expr|]. destruct Hr. by apply rec_ty_ok. }
  destruct (Token.kind t) eqn:Hk; try exact Hother;
    try (match goal with k : IdentKind |- _ => destruct k end; try exact Hother).
  all: try (apply spec_parse_group_expr; try done; [apply Hr|by eauto]).
  all: repeat step; nlia.
Qed.

Lemma prefix_layer_eof t layer : prefix_layer (Token.kind t) = Some layer -> Token.is_eof t = false.
Proof. unfold Token.is_eof. by destruct (Token.kind t). Qed.

Lemma spec_parse_prefix_layers s :
  inv s ->
  spec parse_prefix_layers s (fun layers s' =>
    match layers with
    | [] => s' = s
    | _ => (offset s < offset s')%nat /\ phi s' + ids (length layers) <= phi s - 2 * one
    end).
Proof.
  intros Hi. match goal with |- spec _ _ ?Q => apply spec_loop with (I := Q) end;
    [apply loop_fuel_enough|done|done|].
  intros layers s1 Hi1 HI. apply spec_bind. eapply spec_call; [by apply spec_peek_span|].
  intros span ? _ _ ->. apply spec_bind.
  eapply spec_call; [by apply spec_peek_kind|]. intros k ? _ _ (-> & t & Hc & <-).
  destruct (prefix_layer (Token.kind t)) as [layer|] eqn:E; [|by step].
  apply prefix_layer_eof in E. assert (ids 0 = 0) by (unfold ids; by destruct total).
  assert ((offset s <= offset s1)%nat /\ phi s1 + ids (length layers) <= phi s) as [Ho1 Hp1].
  { destruct layers as [|l layers]; [subst; cbn [length]|]; nlia. }
  clear HI. do 3 step. cbn [length]. rewrite ids_S. nlia.
Qed.

Lemma spec_parse_prefix_expr s allow_init :
  inv s -> almost lo s -> ready lt s -> phi s <= bound ->
  spec (parse_prefix_expr allow_init) s (expr_post s).
Proof.
  intros Hi Ha Hr Hp. apply spec_bind. eapply spec_call; [by apply spec_parse_prefix_layers|].
  intros [|l layers] s1 Hi1 Ho1 H1; [subst; by apply spec_parse_primary_expr|].
  assert (0 <= ids (length (l :: layers))) by (unfold ids; destruct total; lia).
  apply spec_try. eapply spec_call; [apply spec_or_expected; [done|apply spec_parse_primary_expr; [done|nlia..]]|].
  intros [e|d] s2 Hi2 Ho2 H2; [|nlia]. do 2 step. step. nlia.
Qed.

(** An operator is read, or the cursor is put back. *)
Lemma spec_next_infix s min_bp :
  inv s -> spec (next_infix min_bp) s (fun o s' => match o with Some _ => moved s s' | None => s' = s end).
Proof.
  intros Hi. destruct (cur_exists s Hi) as [t Hc].
  assert (forall s1, s1 = set_offset s (offset s1) -> wp (mret (M := res) (@None InfixOp.InfixOp, set_offset s1 (offset s)))
    allowed (fun '(o, s') => inv s' /\ frame s s' /\
      match (o : option InfixOp.InfixOp) with Some _ => moved s s' | None => s' = s end)) as Hback.
  { intros s1 ->. destruct s; cbn. by refine (conj Hi (conj (reflexivity _) eq_refl)). }
  unfold spec, next_infix, infix_op, peek_kind. cbv [mbind M_bind get peek]. cbn. rewrite (inv_tokens s Hi), Hc. cbn.
  destruct (infix_table (Token.kind t)) as [[lbp kind]|] eqn:E; cbn; [|apply (Hback s); by destruct s].
  assert (Token.is_eof t = false) as He by (unfold Token.is_eof; by destruct (Token.kind t)).
  pose proof (spec_advance s t Hi Hc He) as (Hi1 & Hf1 & Hm1).
  destruct (lbp <? min_bp); cbn; [by apply (Hback (set_offset s (S (offset s))))|].
  destruct (cur_exists _ Hi1) as [t1 Hc1]. cbv [peek_is peek_kind mbind M_bind peek].
  rewrite (inv_tokens _ Hi1), Hc1. cbn. destruct (kind_eq (Token.kind t1) Eq); cbn.
  - by apply (Hback (set_offset s (S (offset s)))).
  - exact (conj Hi1 (conj Hf1 Hm1)).
Qed.

#[local] Hint Resolve spec_next_infix spec_parse_prefix_expr spec_or_expected : parser.

Lemma spec_parse_expr_precedence_body s min_bp allow_init :
  inv s -> almost lo s -> ready lt s -> phi s <= bound ->
  spec (parse_expr_precedence_body min_bp allow_init) s (expr_post s).
Proof.
  intros Hi Ha Hr Hp. unfold parse_expr_precedence_body. do 3 step; [|nlia]. step; [|step; nlia].
  apply spec_loop_from with
    (I := fun _ s1 => (total = true -> (offset s < offset s1)%nat) /\ phi s1 <= phi s - 2 * one);
    [apply loop_fuel_enough|done|nlia|].
  intros lhs s1 Hi1 Ho1 [HI1 HI2]. apply spec_bind. eapply spec_call; [by apply spec_next_infix|].
  intros [op|] s1' Hi1' Ho1' H1'; [|subst; step; nlia].
  apply spec_loop_try. eapply spec_call; [apply spec_or_expected; [done|apply rec_expr_ok; [done|nlia..]]|].
  intros [rhs|d] s2 Hi2 Ho2 H2; [repeat step|]; nlia.
Qed.

End Expr.

(** ** The knot *)

Section Knot.
Context {ST : Setting}.

(** A call reads a token, or goes from a value to a type: two units of depth for
    each token left are enough. *)
Definition deep_enough (depth lo lt : nat) : Prop :=
  total = true -> (2 * (length T - lo) + 2 <= depth /\ 2 * (length T - lt) + 1 <= depth)%nat.

Lemma knot_ok depth lo lt :
  (lt <= lo)%nat -> deep_enough depth lo lt -> RecOk (R := Expr_knot depth) lo lt.
Proof.
  revert lo lt. induction depth as [|depth IH]; intros lo lt Hle Hd.
  - assert (allowed Out_of_fuel) as HE.
    { unfold deep_enough in Hd. split; [|by right]. destruct total; [specialize (Hd eq_refl); lia|done]. }
    constructor; [intros; exact HE..|done].
  - constructor; [| |done]; intros; unfold deep_enough in *; cbn [Expr_knot parse_expr_precedence parse_ty_expr].
    + apply (@spec_parse_expr_precedence_body ST (Expr_knot depth) (S (offset s)) (offset s));
        try done; try (unfold almost, ready; lia).
      apply IH; [lia|]. intros Ht. specialize (Hd Ht). pose proof (inv_offset s H). specialize (H1 Ht). lia.
    + apply (@spec_parse_ty_expr_body ST (Expr_knot depth) (S (offset s)) (S (offset s)));
        try done; try (unfold almost, ready; lia).
      apply IH; [lia|]. intros Ht. specialize (Hd Ht). pose proof (inv_offset s H). specialize (H1 Ht). lia.
Qed.

End Knot.
End ParserExprSpec.
