(* ===== verification/ParserPrec.v ===== *)
(** * Operator precedence

    The grammar of operator expressions: names and groups under prefix
    operators, joined by the infix operators of [infix_table], every one of them
    left associative.  [print] writes an expression with the parentheses it has,
    and the parser reads it back ([parse_prints]): the precedence climbing of
    [parse_expr_precedence] against its specification.

    [ParserExec] has the big-step rules for runs on known tokens. *)

From S2P Require Import Prelude Words Bytes Span Token Diagnostic Ast ParserCursor ParserStmt.
From S2P Require Import ParserDecl ParserExpr.

#[local] Open Scope Z_scope.
#[local] Open Scope parser_scope.
Create HintDb runs.

Module ParserExec.
Import Token TokenKind Ast ParserCursor ParserOps ParserStmt.

Definition runs {A} (m : M A) (s : Parser) (a : A) (s' : Parser) : Prop := m s = Ret (a, s').

Lemma runs_ret {A} (a : A) s : runs (mret a) s a s.
Proof. done. Qed.

Lemma runs_bind {A B} (m : M A) (k : A -> M B) s a s1 b s2 :
  runs m s a s1 -> runs (k a) s1 b s2 -> runs (m ≫= k) s b s2.
Proof. unfold runs. cbv [mbind M_bind]. by intros ->. Qed.

Lemma runs_try {A B} (m : M (Result A)) (k : A -> M (Result B)) s a s1 r s2 :
  runs m s (Ok a) s1 -> runs (k a) s1 r s2 -> runs (try_bind k m) s r s2.
Proof. intros. by eapply runs_bind. Qed.

Lemma runs_try_err {A B} (m : M (Result A)) (k : A -> M (Result B)) s d s1 :
  runs m s (Err d) s1 -> runs (try_bind k m) s (Err d) s1.
Proof. intros. by eapply runs_bind. Qed.

Lemma runs_loop_try {S A B} (m : M (Result A)) (k : A -> M (flow S (Result B))) s a s1 r s2 :
  runs m s (Ok a) s1 -> runs (k a) s1 r s2 -> runs (loop_try_bind k m) s r s2.
Proof. intros. by eapply runs_bind. Qed.

Lemma runs_continue {S A} fuel (body : S -> M (flow S A)) x s x' s1 a s2 :
  runs (body x) s (Continue x') s1 -> runs (loop fuel body x') s1 a s2 ->
  runs (loop (Datatypes.S fuel) body x) s a s2.
Proof. intros. by eapply runs_bind. Qed.

Lemma runs_break {S A} fuel (body : S -> M (flow S A)) x s a s1 :
  runs (body x) s (Break a) s1 -> runs (loop (Datatypes.S fuel) body x) s a s1.
Proof. intros. by eapply runs_bind. Qed.

(** [m] from [s] runs out of fuel. *)
Definition stuck {A} (m : M A) (s : Parser) : Prop := m s = Fault Out_of_fuel.

Lemma stuck_bind {A B} (m : M A) (k : A -> M B) s : stuck m s -> stuck (m ≫= k) s.
Proof. unfold stuck. cbv [mbind M_bind]. by intros ->. Qed.

Lemma stuck_after {A B} (m : M A) (k : A -> M B) s a s1 :
  runs m s a s1 -> stuck (k a) s1 -> stuck (m ≫= k) s.
Proof. unfold runs, stuck. cbv [mbind M_bind]. by intros ->. Qed.

Lemma stuck_try {A B} (m : M (Result A)) (k : A -> M (Result B)) s a s1 :
  runs m s (Ok a) s1 -> stuck (k a) s1 -> stuck (try_bind k m) s.
Proof. intros. by eapply stuck_after. Qed.

(** ** Token streams with known kinds *)

Definition kind_at (toks : list Token.Token) (o : nat) (k : TokenKind) : Prop :=
  exists t, toks !! o = Some t /\ Token.kind t = k.

(** From position [o] on, the tokens have the kinds [ks]. *)
Definition reads (toks : list Token.Token) (o : nat) (ks : list TokenKind) : Prop :=
  forall i k, ks !! i = Some k -> kind_at toks (o + i) k.

Lemma reads_cons toks o k ks :
  reads toks o (k :: ks) <-> kind_at toks o k /\ reads toks (S o) ks.
Proof.
  split.
  - intros H. split; [rewrite <- (Nat.add_0_r o); by apply H|].
    intros i k' Hi. replace (S o + i)%nat with (o + S i)%nat by lia. by apply H.
  - intros [H0 H] [|i] k' Hi; [injection Hi as <-; by rewrite Nat.add_0_r|].
    replace (o + S i)%nat with (S o + i)%nat by lia. by apply H.
Qed.

Lemma reads_app toks o ks1 ks2 :
  reads toks o (ks1 ++ ks2) <-> reads toks o ks1 /\ reads toks (o + length ks1) ks2.
Proof.
  revert o. induction ks1 as [|k ks1 IH]; intros o.
  { cbn. rewrite Nat.add_0_r. split; [|by intros []]. by intros. }
  cbn [app length]. rewrite !reads_cons, IH, <- Nat.add_succ_comm. tauto.
Qed.

Lemma kind_at_fun toks o k1 k2 : kind_at toks o k1 -> kind_at toks o k2 -> k1 = k2.
Proof. intros (t & E & <-) (t' & E' & <-). congruence. Qed.

(** ** Cursor operations *)

Section Cursor.
Context {SI : SortedInsert} {FU : Fuel} (errs : list Diagnostic.Diagnostic) (toks : list Token.Token) (m : Z).

(** The parser with [i] identifiers used, at token [o]. *)
Definition at_ (i : Z) (o : nat) : Parser := mk errs i toks o m.

Lemma runs_peek i o t : toks !! o = Some t -> runs peek (at_ i o) t (at_ i o).
Proof. unfold runs, peek. cbn. by intros ->. Qed.

Lemma runs_peek_kind i o k : kind_at toks o k -> runs peek_kind (at_ i o) k (at_ i o).
Proof. intros (t & E & <-). unfold peek_kind. eapply runs_bind; [by apply runs_peek|done]. Qed.

Lemma runs_peek_is i o k k' : kind_at toks o k -> runs (peek_is k') (at_ i o) (kind_eq k k') (at_ i o).
Proof. intros Hk. eapply runs_bind; [by apply runs_peek_kind|done]. Qed.

Lemma runs_peek_span i o k : kind_at toks o k -> exists span, runs peek_span (at_ i o) span (at_ i o).
Proof. intros (t & E & _). eexists. eapply runs_bind; [by apply runs_peek|done]. Qed.

Lemma runs_prev_span i o k : kind_at toks o k -> exists span, runs prev_span (at_ i (S o)) span (at_ i (S o)).
Proof. intros (t & E & _). unfold runs, prev_span, prev. cbv [mbind M_bind]. cbn. rewrite E. by eexists. Qed.

Lemma runs_peek_next i o k : kind_at toks (S o) k ->
  exists t, runs (peek_nth 1) (at_ i o) t (at_ i o) /\ Token.kind t = k.
Proof.
  intros (t & E & Hk). exists t. split; [|done]. unfold runs, peek_nth, at_. cbn [tokens offset]. rewrite Nat.add_1_r.
  pose proof (lookup_lt_Some _ _ _ E) as Hl. destruct (Nat.ltb_spec (S o) (length toks)); [|lia].
  cbn. by rewrite E.
Qed.

Lemma runs_advance i o : runs advance (at_ i o) tt (at_ i (S o)).
Proof. done. Qed.

Lemma runs_next_id i o : 0 <= i < 2^32 - 1 -> runs next_id (at_ i o) i (at_ (i + 1) o).
Proof.
  intros Hi. unfold runs, next_id. cbn. destruct (Z.leb_spec (2^32) (i + 1)); [lia|].
  rewrite NonMaxU32.from_u32_ok by (unfold NonMaxU32.wf; lia). done.
Qed.

Lemma runs_bump i o t : toks !! o = Some t -> Token.is_eof t = false -> runs bump (at_ i o) t (at_ i (S o)).
Proof. intros E He. unfold runs, bump. cbn. by rewrite E, He. Qed.

Lemma runs_eat_expect i o k tag : kind_at toks o k -> has_tag k tag = true -> k <> Eof ->
  runs (eat_expect tag) (at_ i o) (Ok k) (at_ i (S o)).
Proof.
  intros (t & E & <-) Ht He. eapply runs_bind.
  { apply runs_bump; [done|]. unfold Token.is_eof. by destruct (Token.kind t). }
  cbn beta. by rewrite Ht.
Qed.

Lemma runs_eat_expect_err i o t tag :
  toks !! o = Some t -> has_tag (Token.kind t) tag = false -> Token.is_eof t = false ->
  runs (eat_expect tag) (at_ i o) (Err (diag_expected_token (at_ i (S o)) tag t)) (at_ i (S o)).
Proof.
  intros E Ht He. eapply runs_bind; [by apply runs_bump|]. cbn beta. rewrite Ht.
  eapply runs_bind; done.
Qed.

Lemma runs_eats i o k tag : kind_at toks o k -> has_tag k tag = true -> k <> Eof ->
  runs (eats tag) (at_ i o) true (at_ i (S o)).
Proof.
  intros (t & E & <-) Ht He. eapply runs_bind with (a := Some t); [|done].
  eapply runs_bind; [by apply runs_peek_kind; eexists|]. cbn beta. rewrite Ht.
  eapply runs_bind; [|apply runs_ret]. apply runs_bump; [done|].
  unfold Token.is_eof. by destruct (Token.kind t).
Qed.

Lemma runs_eats_not i o k tag : kind_at toks o k -> has_tag k tag = false ->
  runs (eats tag) (at_ i o) false (at_ i o).
Proof.
  intros Hk Ht. eapply runs_bind with (a := None); [|done].
  eapply runs_bind; [by apply runs_peek_kind|]. cbn beta. rewrite Ht. apply runs_ret.
Qed.

Lemma runs_eat_or_report i o k tag : kind_at toks o k -> has_tag k tag = true -> k <> Eof ->
  runs (eat_expect_or_report tag) (at_ i o) tt (at_ i (S o)).
Proof. intros. eapply runs_bind; [by eapply runs_eat_expect|]. apply runs_ret. Qed.

(** At the end of file, [bump] does not advance, and what gives the token back
    moves the cursor before the token that was read last. *)
Lemma runs_maybe_eof {A} (f : TokenKind -> option A) i o : kind_at toks (S o) Eof -> f Eof = None ->
  runs (maybe f) (at_ i (S o)) None (at_ i o).
Proof.
  intros (t & E & Kt) Hf. unfold runs, maybe, bump, retreat. cbv [mbind M_bind]. cbn [tokens offset at_].
  rewrite E. unfold Token.is_eof. rewrite Kt. cbn. rewrite Kt, Hf. cbn.
  rewrite usize_sub_ok by lia. cbn. by rewrite Nat.sub_0_r.
Qed.

End Cursor.
End ParserExec.

Module ParserPrec.
Import Token TokenKind Ast ParserCursor ParserOps ParserStmt ParserDecl ParserExpr ParserExec.

(** ** The grammar *)

(** [Group ops n t] has [S n] pairs of parentheses. *)
Inductive tree : Set :=
  | Name (ops : list PrefixExprLayer) (name : list Z)
  | Group (ops : list PrefixExprLayer) (n : nat) (t : tree)
  | Infix (op : TokenKind) (l r : tree).

Definition layer_token (layer : PrefixExprLayer) : TokenKind :=
  match layer with
  | Neg => Minus | Pos => Plus | Not => Bang | BitNot => Tilde | AddressOf => Amp | Try => KwTry
  end.

Fixpoint print (t : tree) : list TokenKind :=
  match t with
  | Name ops name => map layer_token ops ++ [TokenKind.Ident name User]
  | Group ops n t => map layer_token ops ++ replicate (S n) LParen ++ print t ++ replicate (S n) RParen
  | Infix op l r => print l ++ op :: print r
  end.

(** How tightly an operator binds; a token that is none binds least. *)
Definition power (op : TokenKind) : Z :=
  match infix_table op with Some (lbp, _) => lbp | None => 0 end.
Definition level (t : tree) : Z := match t with Infix op _ _ => power op | _ => 100 end.

Fixpoint starts_group (t : tree) : bool :=
  match t with Group [] _ _ => true | Infix _ l _ => starts_group l | _ => false end.

(** No parentheses are missing, and the parentheses of a group are next to each
    other. *)
Fixpoint wf (t : tree) : Prop :=
  match t with
  | Name _ _ => True
  | Group _ _ t => starts_group t = false /\ wf t
  | Infix op l r => is_Some (infix_table op) /\ power op <= level l /\ power op < level r /\ wf l /\ wf r
  end.

(** The syntax tree of an expression. *)
Fixpoint under (ops : list PrefixExprLayer) (P : Expr -> Prop) (e : Expr) : Prop :=
  match ops with
  | [] => P e
  | op :: ops => exists e', expr_kind e = prefix_kind op e' /\ under ops P e'
  end.
Fixpoint grouped (n : nat) (P : Expr -> Prop) (e : Expr) : Prop :=
  match n with O => P e | S n => exists e', expr_kind e = ExprKind_Group e' /\ grouped n P e' end.

Fixpoint represents (t : tree) (e : Expr) : Prop :=
  match t with
  | Name ops name => under ops (fun e => exists span, expr_kind e = ExprKind_Ident (Ident.mk name User span)) e
  | Group ops n t => under ops (grouped (S n) (represents t)) e
  | Infix op l r => exists lbp kind el er,
      infix_table op = Some (lbp, kind) /\ expr_kind e = bin_op kind el er /\
      represents l el /\ represents r er
  end.

(** The node identifiers of an expression. *)
Fixpoint nodes (t : tree) : Z :=
  match t with
  | Name ops _ => 1 + Z.of_nat (length ops)
  | Group ops n t => nodes t + Z.of_nat (S n) + Z.of_nat (length ops)
  | Infix _ l r => nodes l + nodes r + 1
  end.

(** The depth of the recursion and the turns of the loop that read it. *)
Fixpoint depth (t : tree) : nat :=
  match t with Name _ _ => 1 | Group _ _ t => S (depth t) | Infix _ l r => depth l `max` S (depth r) end.
Fixpoint spine (t : tree) : nat := match t with Infix _ l _ => S (spine l) | _ => 0 end.

Lemma power_nonneg op : 0 <= power op <= 60.
Proof. unfold power. destruct op; cbn; lia. Qed.

Lemma level_nonneg t : 0 <= level t <= 100.
Proof. destruct t as [| |op l r]; cbn; [lia..|]. pose proof (power_nonneg op). lia. Qed.

Lemma nodes_pos t : 0 < nodes t.
Proof. induction t; cbn [nodes]; lia. Qed.

Lemma print_length t :
  (0 < length (print t) /\ depth t <= length (print t) /\ spine t < length (print t))%nat /\
  nodes t <= Z.of_nat (length (print t)).
Proof.
  induction t as [ops name|ops n t IH|op l IHl r IHr]; cbn [print depth spine nodes];
    repeat (rewrite ?length_app, ?length_map, ?length_replicate; cbn [length]); lia.
Qed.

(** An expression starts with none of the tokens that end or change one. *)
Definition starts_expr (k : TokenKind) : bool :=
  match k with
  | TokenKind.Ident _ User | LParen => true
  | _ => bool_decide (is_Some (prefix_layer k))
  end.

Lemma print_starts t : exists k ks, print t = k :: ks /\ starts_expr k = true.
Proof.
  induction t as [[|[] ops] name|[|[] ops] n t IH|op l (k & ks & E & Hk) r _]; cbn; [by eauto..|].
  rewrite E. cbn. eauto.
Qed.

Lemma print_starts_group t k ks : starts_group t = false -> print t = k :: ks -> kind_eq k LParen = false.
Proof.
  revert k ks. induction t as [[|[] ops] name|[|[] ops] n t IH|op l IH r _]; cbn; intros k ks Hg;
    try (by intros [= <- <-]).
  destruct (print_starts l) as (k' & ks' & E & _). rewrite E in *. intros [= <- <-]. by eapply IH.
Qed.

Lemma under_app ops1 ops2 P e : under (ops1 ++ ops2) P e <-> under ops1 (under ops2 P) e.
Proof. revert e. induction ops1 as [|op ops1 IH]; intros e; cbn; [done|]. by setoid_rewrite IH. Qed.

Lemma under_mono ops (P Q : Expr -> Prop) e : (forall e, P e -> Q e) -> under ops P e -> under ops Q e.
Proof.
  intros HPQ. revert e. induction ops as [|op ops IH]; intros e; cbn; [apply HPQ|].
  intros (e' & ? & ?). eauto.
Qed.

Lemma grouped_S n P e : grouped (S n) P e <-> grouped n (grouped 1 P) e.
Proof. revert e. induction n as [|n IH]; intros e; [done|]. cbn [grouped] in *. by setoid_rewrite IH. Qed.

(** ** Reading the pieces *)

Section Pieces.
Context {SI : SortedInsert} {FU : Fuel} (errs : list Diagnostic.Diagnostic) (toks : list Token.Token) (m : Z).
Abbreviation at_ := (at_ errs toks m).
Abbreviation kind_at := (kind_at toks).
Abbreviation reads := (reads toks).

Lemma runs_open_groups i o n k fuel starts :
  reads o (replicate n LParen ++ [k]) -> kind_eq k LParen = false -> (n < fuel)%nat ->
  exists starts', runs (loop fuel (fun starts : list Span.Span =>
      paren ← peek_is LParen;
      if (paren : bool) then span ← peek_span; advance;; mret (Continue (span :: starts))
      else mret (Break starts)) starts) (at_ i o) starts' (at_ i (o + n)) /\
    length starts' = (n + length starts)%nat.
Proof.
  revert o fuel starts. induction n as [|n IH]; intros o [|fuel] starts Hr Hk Hf; [lia| |lia|].
  - apply reads_cons in Hr as [Hr _]. exists starts. split; [|done]. rewrite Nat.add_0_r.
    eapply runs_break, runs_bind; [by apply runs_peek_is|]. by rewrite Hk.
  - apply reads_cons in Hr as [H0 Hr]. destruct (runs_peek_span errs toks m i o _ H0) as [span Hspan].
    destruct (IH (S o) fuel (span :: starts) Hr Hk) as (starts' & Hl & Hlen); [lia|].
    exists starts'. split; [|cbn in Hlen; lia]. rewrite <- Nat.add_succ_comm.
    eapply runs_continue; [|exact Hl].
    eapply runs_bind; [by apply runs_peek_is|]. eapply runs_bind; [exact Hspan|].
    by eapply runs_bind.
Qed.

Lemma runs_close_groups i o starts e P :
  reads o (replicate (length starts) RParen) -> 0 <= i -> i + Z.of_nat (length starts) <= 2^32 - 1 -> P e ->
  exists e', runs (close_groups starts e) (at_ i o) (Ok e')
      (at_ (i + Z.of_nat (length starts)) (o + length starts)) /\ grouped (length starts) P e'.
Proof.
  revert i o e P. induction starts as [|start starts IH]; intros i o e P Hr Hi Hn HP; cbn [length replicate] in *.
  { exists e. rewrite Z.add_0_r, Nat.add_0_r. done. }
  apply reads_cons in Hr as [H0 Hr]. destruct (runs_prev_span errs toks m i o _ H0) as [span Hspan].
  destruct (IH (i + 1) (S o) (mkExpr i (ExprKind_Group e) (Span.merge start span)) (grouped 1 P))
    as (e' & He & Hg); [done|lia|lia|cbn; eauto|].
  exists e'. split; [|by apply grouped_S]. cbn [close_groups].
  eapply runs_try; [by eapply runs_eat_expect|]. eapply runs_bind; [exact Hspan|].
  eapply runs_bind; [apply runs_next_id; lia|].
  replace (o + S (length starts))%nat with (S o + length starts)%nat by lia.
  replace (i + Z.of_nat (S (length starts))) with (i + 1 + Z.of_nat (length starts)) by lia. exact He.
Qed.

Lemma runs_wrap_layers i o layers e P :
  0 <= i -> i + Z.of_nat (length layers) <= 2^32 - 1 -> P e ->
  exists e', runs (wrap_layers layers e) (at_ i o) e' (at_ (i + Z.of_nat (length layers)) o) /\
    under (rev (map fst layers)) P e'.
Proof.
  revert i e P. induction layers as [|[layer start] layers IH]; intros i e P Hi Hn HP; cbn [length map rev] in *.
  { exists e. by rewrite Z.add_0_r. }
  destruct (IH (i + 1) (mkExpr i (prefix_kind layer e) (Span.merge start (expr_span e))) (under [layer] P))
    as (e' & He & Hu); [lia|lia|cbn; eauto|].
  exists e'. split; [|by apply under_app]. cbn [wrap_layers].
  eapply runs_bind; [apply runs_next_id; lia|].
  replace (i + Z.of_nat (S (length layers))) with (i + 1 + Z.of_nat (length layers)) by lia. exact He.
Qed.

Lemma prefix_layer_token layer : prefix_layer (layer_token layer) = Some layer.
Proof. by destruct layer. Qed.

Lemma runs_prefix_layers i o ops k fuel layers :
  reads o (map layer_token ops ++ [k]) -> prefix_layer k = None -> (length ops < fuel)%nat ->
  exists layers', runs (loop fuel (fun layers =>
      start_span ← peek_span;
      kind ← peek_kind;
      match prefix_layer kind with
      | Some layer => advance;; mret (Continue ((layer, start_span) :: layers))
      | None => mret (Break layers)
      end) layers) (at_ i o) layers' (at_ i (o + length ops)) /\
    map fst layers' = rev ops ++ map fst layers.
Proof.
  revert o fuel layers. induction ops as [|op ops IH]; intros o [|fuel] layers Hr Hk Hf; cbn [length] in *;
    [lia| |lia|]; cbn [map app] in Hr; apply reads_cons in Hr as [H0 Hr];
    destruct (runs_peek_span errs toks m i o _ H0) as [span Hspan].
  - exists layers. split; [|done]. rewrite Nat.add_0_r.
    eapply runs_break, runs_bind; [exact Hspan|]. eapply runs_bind; [by apply runs_peek_kind|]. by rewrite Hk.
  - destruct (IH (S o) fuel ((op, span) :: layers) Hr Hk) as (layers' & Hl & Hm); [lia|].
    exists layers'. split; [|by rewrite Hm; cbn; rewrite <- app_assoc]. rewrite <- Nat.add_succ_comm.
    eapply runs_continue; [|exact Hl].
    eapply runs_bind; [exact Hspan|]. eapply runs_bind; [by apply runs_peek_kind|].
    cbn beta. rewrite prefix_layer_token. by eapply runs_bind.
Qed.

Lemma stuck_prefix_layers i o ops fuel layers :
  reads o (map layer_token ops) -> (fuel <= length ops)%nat ->
  stuck (loop fuel (fun layers =>
      start_span ← peek_span;
      kind ← peek_kind;
      match prefix_layer kind with
      | Some layer => advance;; mret (Continue ((layer, start_span) :: layers))
      | None => mret (Break layers)
      end) layers) (at_ i o).
Proof.
  revert o ops layers. induction fuel as [|fuel IH]; intros o [|op ops] layers Hr Hf; cbn [length] in *;
    [done|done|lia|]. cbn [map] in Hr. apply reads_cons in Hr as [H0 Hr].
  destruct (runs_peek_span errs toks m i o _ H0) as [span Hspan].
  cbn [loop]. eapply stuck_after.
  - eapply runs_bind; [exact Hspan|]. eapply runs_bind; [by apply runs_peek_kind|].
    cbn beta. rewrite prefix_layer_token. by eapply runs_bind.
  - apply (IH (S o) ops); [done|lia].
Qed.

(** ** Operands *)

(** What may follow an operand without becoming part of it. *)
Definition follows (allow_init : bool) (k : TokenKind) : bool :=
  match k with
  | Colon | LBracket | DotStar | DotQuestionMark | Dot | LParen => false
  | LBrace => negb allow_init
  | _ => true
  end.

Lemma follows_not allow k k' : follows allow k = true -> follows allow k' = false -> kind_eq k k' = false.
Proof. intros H1 H2. destruct k'; try discriminate H2; destruct k; try done; by destruct allow. Qed.

Lemma runs_no_suffix `{!Rec} allow i o k lhs :
  kind_at o k -> follows allow k = true -> runs (parse_suffix_ty_op lhs) (at_ i o) (Ok None) (at_ i o).
Proof.
  intros Hk Hf. eapply runs_bind; [by apply runs_peek_kind|]. destruct k; try done; by destruct allow.
Qed.

(** A name as a type expression. *)
Lemma runs_ty_name d allow i o name k :
  kind_at o (TokenKind.Ident name User) -> kind_at (S o) k -> follows allow k = true -> (0 < loop_fuel)%nat ->
  0 <= i < 2^32 - 1 ->
  exists e, runs (parse_ty_expr (Rec := Expr_knot (S d))) (at_ i o) (Ok (Some e)) (at_ (i + 1) (S o)) /\
    exists span, expr_kind e = ExprKind_Ident (Ident.mk name User span).
Proof.
  intros H0 H1 Hf Hl Hi. destruct (runs_peek_span errs toks m i o _ H0) as [start Hstart].
  destruct (runs_prev_span errs toks m i o _ H0) as [span Hspan].
  destruct (runs_peek_next errs toks m i o _ H1) as (t & Ht & Hk).
  eexists (mkExpr i (ExprKind_Ident (Ident.mk name User span)) (Span.merge start span)).
  split; [|by eexists].
  change (parse_ty_expr (Rec := Expr_knot (S d))) with (parse_ty_expr_body (H1 := Expr_knot d)).
  unfold parse_ty_expr_body. eapply runs_bind; [by apply runs_peek_kind|]. cbn match.
  unfold parse_suffix_ty_expr. eapply runs_bind; [exact Hstart|]. eapply runs_try.
  - unfold parse_primary_ty_expr. eapply runs_bind; [exact Hstart|].
    eapply runs_bind; [by apply runs_peek_kind|]. cbn match.
    eapply runs_bind; [unfold colon_follows; eapply runs_bind; [exact Ht|apply runs_ret]|].
    rewrite Hk, (follows_not allow) by done. cbn match.
    eapply runs_try.
    + unfold parse_ident. eapply runs_try; [by eapply runs_eat_expect|]. cbn match.
      eapply runs_bind; [exact Hspan|]. apply runs_ret.
    + unfold finish. eapply runs_bind; [exact Hspan|]. eapply runs_bind; [by apply runs_next_id|]. apply runs_ret.
  - cbn match. destruct loop_fuel as [|fuel]; [lia|]. eapply runs_break.
    eapply runs_loop_try; [by eapply runs_no_suffix|]. cbn match.
    eapply runs_bind; [by apply runs_peek_is|]. rewrite (follows_not allow) by done. apply runs_ret.
Qed.

(** The part of [parse_primary_expr] that is not a group, a block or control flow. *)
Lemma runs_other d allow i o name k :
  kind_at o (TokenKind.Ident name User) -> kind_at (S o) k -> follows allow k = true -> (0 < loop_fuel)%nat ->
  0 <= i < 2^32 - 1 ->
  exists e, runs (parse_primary_expr (H1 := Expr_knot (S d)) allow) (at_ i o) (Ok (Some e)) (at_ (i + 1) (S o)) /\
    exists span, expr_kind e = ExprKind_Ident (Ident.mk name User span).
Proof.
  intros H0 H1 Hf Hl Hi. destruct (runs_ty_name d allow i o name k) as (e & He & Hk); [done..|].
  destruct (runs_peek_next errs toks m i o _ H1) as (t1 & Ht1 & Hk1). destruct H0 as (t0 & Et0 & Hk0).
  exists e. split; [|done]. unfold parse_primary_expr. eapply runs_bind; [by apply runs_peek|].
  cbn beta zeta. rewrite Hk0.
  eapply runs_bind; [unfold colon_follows; eapply runs_bind; [exact Ht1|apply runs_ret]|].
  rewrite Hk1, (follows_not allow) by done. destruct allow; [|exact He].
  unfold parse_init_expr. eapply runs_try; [exact He|]. cbn match.
  eapply runs_bind; [by apply runs_peek_is|]. rewrite (follows_not true) by done. apply runs_ret.
Qed.

(** A group, when what is in it is read. *)
Lemma runs_group `{!Rec} allow i j o n k ks e P :
  reads o (replicate (S n) LParen ++ (k :: ks) ++ replicate (S n) RParen) ->
  kind_eq k LParen = false -> (S n < loop_fuel)%nat ->
  0 <= j -> j + Z.of_nat (S n) <= 2^32 - 1 ->
  runs (parse_expr_precedence 0 allow) (at_ i (o + S n)) (Ok (Some e)) (at_ j (o + S n + length (k :: ks))) ->
  P e ->
  exists e', runs (parse_primary_expr allow) (at_ i o) (Ok (Some e'))
      (at_ (j + Z.of_nat (S n)) (o + S n + length (k :: ks) + S n)) /\ grouped (S n) P e'.
Proof.
  intros Hr Hk Hf Hj Hn He HP.
  pose proof Hr as Hr0. cbn [replicate app] in Hr0. apply reads_cons in Hr0 as [(t0 & Et0 & Hk0) _].
  rewrite app_assoc in Hr. apply reads_app in Hr as [Hr1 Hr2].
  rewrite length_app, length_replicate in Hr2.
  destruct (runs_open_groups i o (S n) k loop_fuel []) as (starts & Hs & Hlen); [|done|done|].
  { apply reads_app in Hr1 as [? Hr1]. apply reads_cons in Hr1 as [? _]. apply reads_app. split; [done|].
    rewrite length_replicate in *. apply reads_cons. split; [done|]. by intros ? ? ?. }
  cbn [length] in Hlen. rewrite Nat.add_0_r in Hlen.
  destruct (runs_close_groups j (o + S n + length (k :: ks)) starts e P) as (e' & He' & Hg);
    [rewrite Hlen; by rewrite <- Nat.add_assoc|done|by rewrite Hlen|done|].
  rewrite Hlen in *. exists e'. split; [|done].
  unfold parse_primary_expr. eapply runs_bind; [by apply runs_peek|]. cbn beta zeta. rewrite Hk0.
  unfold parse_group_expr. eapply runs_bind; [exact Hs|].
  eapply runs_try with (a := e); [|eapply runs_try; [exact He'|apply runs_ret]].
  destruct allow; (eapply runs_try; [exact He|apply runs_ret]).
Qed.

(** Prefix operators around an operand. *)
Lemma runs_prefixed `{!Rec} allow i j o o' ops k e P :
  reads o (map layer_token ops ++ [k]) -> prefix_layer k = None -> (length ops < loop_fuel)%nat ->
  0 <= j -> j + Z.of_nat (length ops) <= 2^32 - 1 ->
  runs (parse_primary_expr allow) (at_ i (o + length ops)) (Ok (Some e)) (at_ j o') -> P e ->
  exists e', runs (parse_prefix_expr allow) (at_ i o) (Ok (Some e')) (at_ (j + Z.of_nat (length ops)) o') /\
    under ops P e'.
Proof.
  intros Hr Hk Hf Hj Hn He HP.
  destruct (runs_prefix_layers i o ops k loop_fuel [] Hr Hk Hf) as (layers & Hl & Hm).
  rewrite app_nil_r in Hm. assert (length layers = length ops) as Hlen
    by (by rewrite <- (length_map fst), Hm, length_rev).
  destruct (runs_wrap_layers j o' layers e P) as (e' & Hw & Hu); [done|by rewrite Hlen|done|].
  rewrite Hm, rev_involutive in Hu. rewrite Hlen in Hw.
  unfold parse_prefix_expr, parse_prefix_layers. destruct layers as [|layer layers].
  - destruct ops; [|done]. cbn in *. rewrite Z.add_0_r in *. exists e. split; [|done].
    eapply runs_bind; [exact Hl|]. exact He.
  - exists e'. split; [|done]. eapply runs_bind; [exact Hl|].
    eapply runs_try with (a := e).
    + eapply runs_try; [exact He|apply runs_ret].
    + eapply runs_bind; [exact Hw|apply runs_ret].
Qed.

(** ** The loop of [parse_expr_precedence] *)

(** One turn of it. *)
Definition infix_turn `{!Rec} (min_bp : Z) (allow_init : bool) (lhs : Expr) : M (flow Expr (Result (option Expr))) :=
  op ← next_infix min_bp;
  match op with
  | None => mret (Break (Ok (Some lhs)))
  | Some op =>
      rhs ←! or_expected_expression (parse_expr_precedence (InfixOp.rbp op) allow_init);
      id ← next_id;
      mret (Continue (mkExpr id (bin_op (InfixOp.kind op) lhs rhs)
                        (Span.merge (expr_span lhs) (expr_span rhs))))
  end.

Lemma runs_next_infix min i o op lbp kind k :
  kind_at o op -> infix_table op = Some (lbp, kind) -> min <= lbp -> kind_at (S o) k -> kind_eq k Eq = false ->
  runs (next_infix min) (at_ i o) (Some (InfixOp.left lbp kind)) (at_ i (S o)).
Proof.
  intros H0 Ht Hm H1 Hk. eapply runs_bind; [done|]. eapply runs_bind; [by apply runs_peek_kind|].
  eapply runs_bind; [unfold infix_op; rewrite Ht; by eapply runs_bind|]. cbn match. cbn [InfixOp.lbp InfixOp.left].
  rewrite (proj2 (Z.ltb_ge _ _)) by done. eapply runs_bind; [by apply runs_peek_is|]. by rewrite Hk.
Qed.

(** A token that ends an operand at a given binding power. *)
Definition stops (min : Z) (k : TokenKind) : Prop := is_Some (infix_table k) -> power k < min.

Lemma runs_no_infix min i o k :
  kind_at o k -> stops min k -> runs (next_infix min) (at_ i o) None (at_ i o).
Proof.
  intros H0 Hs. eapply runs_bind; [done|]. eapply runs_bind; [by apply runs_peek_kind|].
  unfold stops, power in Hs. unfold infix_op. destruct (infix_table k) as [[lbp kind]|].
  - eapply runs_bind; [by eapply runs_bind|]. cbn match. cbn [InfixOp.lbp InfixOp.left].
    rewrite (proj2 (Z.ltb_lt _ _)) by (by apply Hs). by eapply runs_bind.
  - eapply runs_bind; [done|]. by eapply runs_bind.
Qed.

(** [t] is read at [i], [o] as the tree of [t], up to the token [k]: first its
    leftmost operand, then its spine of infix operators, turn by turn. *)
Definition read_as `{!Rec} (min : Z) (allow : bool) (t : tree) (i : Z) (o : nat) : Prop :=
  exists lhs s e,
    runs (parse_prefix_expr allow) (at_ i o) (Ok (Some lhs)) s /\
    (forall F res s', runs (loop F (infix_turn min allow) e) (at_ (i + nodes t) (o + length (print t))) res s' ->
       runs (loop (spine t + F) (infix_turn min allow) lhs) s res s') /\
    represents t e.

(** The whole of it, when [k] ends it. *)
Lemma read_whole `{!Rec} min allow t i o k :
  read_as min allow t i o -> kind_at (o + length (print t)) k -> stops min k -> (spine t < loop_fuel)%nat ->
  exists e, runs (parse_expr_precedence_body min allow) (at_ i o) (Ok (Some e))
      (at_ (i + nodes t) (o + length (print t))) /\ represents t e.
Proof.
  intros (lhs & s & e & Hp & Hl & Hr) Hk Hs Hf. exists e. split; [|done].
  eapply runs_try; [exact Hp|].
  change (runs (loop loop_fuel (infix_turn min allow) lhs) s (Ok (Some e)) (at_ (i + nodes t) (o + length (print t)))).
  replace loop_fuel with (spine t + S (loop_fuel - spine t - 1))%nat by lia. apply Hl.
  eapply runs_break, runs_bind; [by eapply runs_no_infix|]. done.
Qed.

(** A single operand. *)
Lemma read_operand `{!Rec} min allow t i o e j o' :
  runs (parse_prefix_expr allow) (at_ i o) (Ok (Some e)) (at_ j o') ->
  represents t e -> j = i + nodes t -> o' = (o + length (print t))%nat -> spine t = 0%nat ->
  read_as min allow t i o.
Proof. intros He Hr -> -> Hs. exists e, (at_ (i + nodes t) (o + length (print t))), e. by rewrite Hs. Qed.

Lemma infix_follows allow op : is_Some (infix_table op) -> follows allow op = true.
Proof. intros [? H]. destruct op; done. Qed.

Lemma starts_not_eq k : starts_expr k = true -> kind_eq k Eq = false.
Proof. by destruct k. Qed.

Lemma reads_first o t ks : reads o (print t ++ ks) -> exists k, kind_at o k /\ starts_expr k = true.
Proof.
  destruct (print_starts t) as (k & ks' & -> & Hk). intros [H _]%reads_cons. eauto.
Qed.

Lemma reads_prefix_of o ks1 k ks2 : reads o (ks1 ++ k :: ks2) -> reads o (ks1 ++ [k]).
Proof.
  intros [H1 H2]%reads_app. apply reads_cons in H2 as [H2 _]. apply reads_app. split; [done|].
  apply reads_cons. split; [done|]. by intros ? ? ?.
Qed.

(** What [reads_tree] needs of the surroundings of [t]. *)
Record placed (d : nat) (min : Z) (allow : bool) (t : tree) (i : Z) (o : nat) (k : TokenKind) : Prop := {
  pl_wf : wf t;
  pl_min : min <= level t;
  pl_reads : reads o (print t ++ [k]);
  pl_follows : follows allow k = true;
  pl_power : power k <= level t;
  pl_depth : (depth t <= d)%nat;
  pl_fuel : (length (print t) < loop_fuel)%nat;
  pl_ids : 0 <= i /\ i + nodes t <= 2^32 - 1;
}.

Lemma placed_end d min allow t i o k : placed d min allow t i o k -> kind_at (o + length (print t)) k.
Proof. intros H. pose proof (pl_reads _ _ _ _ _ _ _ H) as [_ [Hk _]%reads_cons]%reads_app. done. Qed.

(** The recursion on the right operand and in a group. *)
Lemma read_nested d min allow t i o k :
  (placed d min allow t i o k -> read_as (H := Expr_knot d) min allow t i o) ->
  placed d min allow t i o k -> stops min k ->
  exists e, runs (parse_expr_precedence (Rec := Expr_knot (S d)) min allow) (at_ i o) (Ok (Some e))
      (at_ (i + nodes t) (o + length (print t))) /\ represents t e.
Proof.
  intros IH Hp Hs. eapply (read_whole (H := Expr_knot d)); [by apply IH|by eapply placed_end|done|].
  pose proof (pl_fuel _ _ _ _ _ _ _ Hp). pose proof (print_length t). lia.
Qed.

Lemma read_name d min allow ops name i o k :
  placed d min allow (Name ops name) i o k -> read_as (H := Expr_knot d) min allow (Name ops name) i o.
Proof.
  intros [_ _ Hr Hf _ Hd Hl Hi]. cbn in *. destruct d as [|d]; [lia|].
  rewrite length_app, length_map in Hl. cbn in Hl.
  pose proof Hr as [_ Hr2]%reads_app. rewrite length_app, length_map in Hr2. cbn in Hr2.
  apply reads_cons in Hr2 as [Hk _].
  apply reads_app in Hr as [Hr _]. pose proof Hr as [_ [H0 _]%reads_cons]%reads_app. rewrite length_map in H0.
  destruct (runs_other d allow i (o + length ops) name k) as (e & He & Hn);
    [done|by replace (S (o + length ops)) with (o + (length ops + 1))%nat by lia|done|lia|lia|].
  destruct (runs_prefixed (H := Expr_knot (S d)) allow i (i + 1) o (S (o + length ops)) ops _ e
    (fun e => exists span, expr_kind e = ExprKind_Ident (Ident.mk name User span)) Hr) as (e' & He' & Hu);
    [done|lia|lia|lia|exact He|done|].
  eapply read_operand; [exact He'|exact Hu|cbn; lia| |done].
  cbn. rewrite length_app, length_map. cbn. lia.
Qed.

Lemma read_group d min allow ops n t i o k :
  (forall d min i o k, placed d min allow t i o k -> read_as (H := Expr_knot d) min allow t i o) ->
  placed d min allow (Group ops n t) i o k -> read_as (H := Expr_knot d) min allow (Group ops n t) i o.
Proof.
  intros IH [[Hg Hwf] _ Hr Hf _ Hd Hl Hi]. cbn [depth nodes print] in *. destruct d as [|d]; [lia|].
  repeat (rewrite ?length_app, ?length_map, ?length_replicate in Hl; cbn [length] in Hl).
  pose proof (nodes_pos t).
  destruct (print_starts t) as (k1 & ks & Et & Hk1).
  pose proof (print_starts_group t k1 ks Hg Et) as Hp.
  rewrite <- !app_assoc in Hr. pose proof Hr as [_ Hin]%reads_app. rewrite length_map in Hin.
  rewrite Et in Hin. rewrite !app_assoc in Hin. apply reads_app in Hin as [Hin _]. rewrite <- !app_assoc in Hin.
  assert (placed d 0 allow t i (o + length ops + S n) RParen) as Hpl.
  { pose proof (level_nonneg t).
    constructor; [done|lia| |done|change (power RParen) with 0; lia|lia|lia|lia]. apply reads_app in Hin as [_ Hin].
    rewrite length_replicate in Hin. rewrite Et. by apply reads_prefix_of in Hin. }
  destruct (read_nested d 0 allow t i (o + length ops + S n) RParen) as (e & He & Hrep);
    [apply IH|exact Hpl|by intros [? [=]]|].
  rewrite Et in He.
  destruct (runs_group (H := Expr_knot (S d)) allow i (i + nodes t) (o + length ops) n k1 ks e (represents t) Hin)
    as (e1 & He1 & Hg1); [done|lia|lia|lia|exact He|done|].
  destruct (runs_prefixed (H := Expr_knot (S d)) allow i (i + nodes t + Z.of_nat (S n)) o
    (o + length ops + S n + length (k1 :: ks) + S n) ops LParen e1 (grouped (S n) (represents t)))
    as (e2 & He2 & Hu2); [by apply reads_prefix_of in Hr|done|lia|lia|lia|exact He1|done|].
  eapply read_operand; [exact He2|exact Hu2|cbn [nodes]; lia| |done].
  cbn [print]. rewrite Et. repeat (rewrite ?length_app, ?length_map, ?length_replicate). lia.
Qed.

Lemma read_infix d min allow op l r i o k :
  (forall d min i o k, placed d min allow l i o k -> read_as (H := Expr_knot d) min allow l i o) ->
  (forall d min i o k, placed d min allow r i o k -> read_as (H := Expr_knot d) min allow r i o) ->
  placed d min allow (Infix op l r) i o k -> read_as (H := Expr_knot d) min allow (Infix op l r) i o.
Proof.
  intros IHl IHr [(Hop & Hl1 & Hr1 & Hwl & Hwr) Hm Hr Hf Hp Hd Hl Hi].
  cbn [depth nodes print level] in *. destruct d as [|d]; [lia|].
  rewrite <- app_assoc in Hr. cbn [app] in Hr. rewrite length_app in Hl. cbn [length] in Hl.
  pose proof (nodes_pos l). pose proof (nodes_pos r).
  pose proof Hr as [_ [Hko Hrr]%reads_cons]%reads_app.
  destruct (IHl (S d) min i o op) as (lhs & s & el & Hlhs & Hrun & Hrepl).
  { constructor; [done|lia|by apply reads_prefix_of in Hr|by apply infix_follows|done|lia|lia|lia]. }
  destruct (read_nested d (power op + 1) allow r (i + nodes l) (S (o + length (print l))) k) as (er & Her & Hrepr);
    [apply IHr| |intros _; lia|].
  { constructor; [done|lia|done|done|lia|lia|lia|lia]. }
  destruct Hop as [[lbp kind] Hop]. unfold power in Her, Hm. rewrite Hop in Her, Hm.
  destruct (reads_first _ _ _ Hrr) as (k1 & Hk1 & Hs1).
  eexists lhs, s, (mkExpr (i + nodes l + nodes r) (bin_op kind el er) (Span.merge (expr_span el) (expr_span er))).
  split_and!; [exact Hlhs| |by exists lbp, kind, el, er].
  intros F res s' Hrest. cbn [spine]. rewrite Nat.add_succ_comm. apply Hrun.
  eapply runs_continue; [|].
  - eapply runs_bind; [by eapply runs_next_infix, starts_not_eq|]. cbn match.
    eapply runs_loop_try; [eapply runs_try; [exact Her|apply runs_ret]|].
    eapply runs_bind; [apply runs_next_id; lia|]. apply runs_ret.
  - cbn [InfixOp.kind InfixOp.left]. cbn [nodes print] in Hrest. rewrite length_app in Hrest. cbn [length] in Hrest.
    replace (i + nodes l + nodes r + 1) with (i + (nodes l + nodes r + 1)) by lia.
    replace (S (o + length (print l)) + length (print r))%nat with (o + (length (print l) + S (length (print r))))%nat by lia.
    exact Hrest.
Qed.

Lemma read_tree d min allow t i o k :
  placed d min allow t i o k -> read_as (H := Expr_knot d) min allow t i o.
Proof.
  revert d min i o k. induction t as [ops name|ops n t IH|op l IHl r IHr]; intros d min i o k.
  - apply read_name.
  - by apply read_group.
  - by apply read_infix.
Qed.

End Pieces.

(** [t], read by the parser up to a token that ends it. *)
Lemma parse_prints {SI : SortedInsert} {FU : Fuel} d errs toks m min allow t i o k :
  wf t -> min <= level t -> reads toks o (print t ++ [k]) -> follows allow k = true -> stops min k ->
  (depth t < d)%nat -> (length (print t) < loop_fuel)%nat -> 0 <= i -> i + nodes t <= 2^32 - 1 ->
  exists e, runs (parse_expr_precedence (Rec := Expr_knot d) min allow) (at_ errs toks m i o) (Ok (Some e))
      (at_ errs toks m (i + nodes t) (o + length (print t))) /\ represents t e.
Proof.
  intros Hwf Hm Hr Hf Hs Hd Hl Hi Hn. destruct d as [|d]; [lia|].
  eapply read_nested; [apply read_tree| |done].
  constructor; [done|done|done|done| |lia|done|done].
  destruct (infix_table k) eqn:E; [|unfold power; rewrite E; apply level_nonneg].
  enough (power k < min) by lia. apply Hs. by rewrite E.
Qed.

End ParserPrec.
