(* ===== verification/ParserSpec.v ===== *)
(** * The parser: the contract

    What the rest of the compiler relies on when it parses a file: no undefined
    behaviour on any source, termination where the token stream allows it, and
    no error lost.  Theorems at the end record where the code departs from what
    it means to do.

    [ParserRun] specifies a whole module. *)

From S2P Require Import Prelude Words Bytes Span Token Diagnostic Ast ParserCursor ParserStmt.
From S2P Require Import ParserDecl ParserExpr ParserInv ParserCursorSpec ParserDeclSpec.
From S2P Require Import ParserDeclSpec ParserExprSpec LexerInv LexerStep LexerSpec.
From S2P Require Import ParserPrec.
From S2P Require Lexer.

#[local] Open Scope Z_scope.
#[local] Open Scope parser_scope.

Module ParserRun.
Import Token TokenKind Ast ParserCursor ParserOps ParserStmt ParserDecl ParserExpr.
Import ParserInv ParserCursorSpec ParserStmtSpec ParserDeclSpec ParserExprSpec.

(** What [parse_module] returns, from a parser with errors [before]: a module
    only when there are none, unless the file has no token at all. *)
Definition module_result (tokens : list Token.Token) (before : list Diagnostic.Diagnostic)
    (r : ModuleKind + list Diagnostic.Diagnostic) : Prop :=
  match r with
  | inl _ => before = [] \/ exists eof, tokens !! 0%nat = Some eof /\ Token.is_eof eof = true
  | inr errs => errs <> [] /\ before ⊆+ errs
  end.

Section Module.
Context {ST : Setting} {R : Rec} {lo lt : nat} {RO : RecOk lo lt}.

Lemma spec_parse_module s :
  inv s -> offset s = 0%nat -> almost lo s -> phi s + one <= bound ->
  wp (parse_module s) allowed (fun '(r, s') =>
    tokens s' = T /\ (offset s' < length T)%nat /\ phi s' <= phi s /\ module_result T (errors s) r).
Proof.
  intros Hi Ho Ha Hp. destruct (cur_exists s Hi) as [t Hc].
  unfold parse_module, peek. cbv [mbind M_bind]. rewrite (inv_tokens s Hi), Hc. cbn [res_bind].
  destruct (Token.is_eof t) eqn:He.
  { cbn. split_and!; [apply Hi|apply Hi|done|]. right. exists t. by rewrite <- Ho. }
  apply wp_bind. eapply wp_mono; [done| |by apply spec_parse_struct_decl].
  intros [[decl|err] s1] (Hi1 & [Ho1 He1 _] & Hp1); cbv [get put]; cbn.
  - destruct (bool_decide_reflect (errors s1 = [])) as [E|E]; cbn.
    + split_and!; [apply Hi1|apply Hi1|done|]. left. rewrite E in He1. by apply submseteq_nil_r in He1.
    + split_and!; [apply Hi1|apply Hi1|done|done|done].
  - split_and!; [apply Hi1|apply Hi1|done|..].
    + intros E. assert (length (sorted_insert_by (errors s1) err Diagnostic.reported_before) = 0%nat) as El
        by (by rewrite E). rewrite sorted_insert_perm in El. done.
    + rewrite sorted_insert_perm. by apply submseteq_cons.
Qed.

End Module.

(** ** The two settings *)

Section Run.
Context `{SI0 : SortedInsert, !SortedInsertLaws} (toks : list Token.Token) (Hs : stream toks).

Definition partial_setting (fuel : nat) : Setting.
Proof.
  refine {| SI := SI0; FU := fuel; T := toks; T_stream := Hs; total := false;
            bound := COST * Z.of_nat (length toks) |}; done.
Defined.

Definition total_setting (fuel : nat) (Hb : ends_with_brace toks) (Hd : dots_ok toks)
    (Hf : (length toks <= fuel)%nat) : Setting.
Proof.
  refine {| SI := SI0; FU := fuel; T := toks; T_stream := Hs; total := true; bound := 2^32 - 1 |}; done.
Defined.

(** Any stream: no undefined behaviour. *)
Lemma run_partial fuel errs m :
  wp (run_module fuel (from_tokens errs toks m)) (fun f => f = Panic \/ f = Out_of_fuel) (fun '(r, s') =>
    tokens s' = toks /\ (offset s' < length toks)%nat /\ module_result toks errs r).
Proof.
  set (ST := partial_setting fuel). assert (RecOk (R := @Expr_knot (@SI ST) (@FU ST) fuel) 0 0) as RO by (by apply knot_ok).
  eapply wp_mono; [| |apply (spec_parse_module (ST := ST) (RO := RO))].
  - by intros f [_ Hf].
  - intros [r s'] (H1 & H2 & _ & H3). done.
  - constructor; [done|]. cbn. apply Hs.
  - done.
  - by intros [=].
  - unfold phi, one. cbn. lia.
Qed.

(** A stream that ends with a brace and has no stray dot: a result, and at most
    [COST] identifiers for each token read. *)
Lemma run_total fuel errs m :
  ends_with_brace toks -> dots_ok toks -> COST * Z.of_nat (length toks) < 2^32 - 1 ->
  (2 * length toks + 2 <= fuel)%nat ->
  exists r s', run_module fuel (from_tokens errs toks m) = Ret (r, s') /\
    tokens s' = toks /\ (offset s' < length toks)%nat /\ module_result toks errs r /\
    id_counter s' <= COST * Z.of_nat (offset s').
Proof.
  intros Hb Hd Hl Hf. assert (length toks <= fuel)%nat as Hf' by lia.
  set (ST := total_setting fuel Hb Hd Hf').
  assert (RecOk (R := @Expr_knot (@SI ST) (@FU ST) fuel) 0 0) as RO by (apply knot_ok; [done|]; intros _; cbn; lia).
  assert (wp (run_module fuel (from_tokens errs toks m)) allowed (fun '(r, s') =>
    tokens s' = toks /\ (offset s' < length toks)%nat /\ phi s' <= phi (from_tokens errs toks m) /\
    module_result toks errs r)) as Hw.
  { apply (spec_parse_module (ST := ST) (RO := RO)).
    - constructor; [done|]. cbn. apply Hs.
    - done.
    - intros _. lia.
    - unfold phi, one. cbn. lia. }
  apply wp_elim in Hw as [([r s'] & -> & H1 & H2 & H3 & H4)|(f & _ & [=] & _)].
  exists r, s'. split_and!; try done. unfold phi in H3. cbn in H3. lia.
Qed.

End Run.
End ParserRun.

Module ParserSpec.
Import Token TokenKind Ast ParserCursor ParserOps ParserStmt ParserDecl ParserExpr ParserInv ParserRun ParserExec ParserPrec.
Import Lexer.

(** The tokens of the lexer are a stream the parser can read. *)
Lemma lexed_stream v n tokens : LexerRun.stream_ok v n tokens -> stream tokens.
Proof.
  intros [(init & eof & -> & Heof & Hinit) _ _ _]. split; [rewrite length_app; cbn; lia|].
  intros i t Hi. rewrite length_app. cbn. apply lookup_app_Some in Hi as [Hi|[Hle Hi]].
  - pose proof (lookup_lt_Some _ _ _ Hi). apply (proj1 (Forall_lookup _ _) Hinit) in Hi.
    split; [congruence|lia].
  - apply list_lookup_singleton_Some in Hi as [? <-]. split; [lia|done].
Qed.

Lemma new_spec `{!SortedInsert, !Memx, !MemxLaws, !Lexer.Hashify, !Lexer.HashifyLaws} code n m :
  LexerInv.input_ok code n -> LexerInv.crlf_only code ->
  wp (new code m) (LexerStep.lex_fault code) (fun self =>
    stream (tokens self) /\ self = from_tokens (errors self) (tokens self) m).
Proof.
  intros Hin Hcr. unfold new. apply wp_bind. eapply wp_mono; [done| |by apply LexerRun.tokenize_spec].
  intros [toks errs] Hok. split; [by eapply lexed_stream|done].
Qed.

(** [Parser::new] and [parse_module]. *)
Definition parse_source `{!SortedInsert, !Memx, !Lexer.Hashify} (fuel : nat) (code : list Z) (m : Z)
    : res ((ModuleKind + list Diagnostic.Diagnostic) * Parser) :=
  self ← new code m; run_module fuel self.

(** The parser of a concrete text, with the concrete interfaces. *)
Definition parser_of (text : string) : res Parser :=
  @new insert_scan memx_scalar Lexer.hashify_assoc (LexerSpec.source text) 0.
Definition parsed (fuel : nat) (text : string) :=
  @parse_source insert_scan memx_scalar Lexer.hashify_assoc fuel (LexerSpec.source text) 0.

Definition example : string := "const x: u8 = 1 + 2 fn f() void { return }".
Definition example_parser : Parser :=
  Eval vm_compute in match parser_of example with Ret self => self | Fault _ => from_tokens [] [] 0 end.
Lemma example_new :
  @new insert_scan memx_scalar Lexer.hashify_assoc (LexerSpec.source example) 0 = Ret example_parser.
Proof. vm_compute. reflexivity. Qed.

(** ** Safety and termination *)



(** C33: on a source whose last token is [}] and where every [.] is followed by
    a name or [{], with fewer than [2^30] tokens, parsing terminates without a
    panic: a depth and a number of turns of twice the tokens are enough for all
    the recursion and all the loops, error recovery included, and at most four
    node identifiers are used for each token read. *)
Theorem parser_terminates (SI : SortedInsert) (SIL : SortedInsertLaws) (ME : Memx) (ML : MemxLaws)
    (H : Lexer.Hashify) (HL : Lexer.HashifyLaws) code n m self fuel :
  LexerInv.input_ok code n -> LexerInv.crlf_only code -> new code m = Ret self ->
  ends_with_brace (tokens self) -> dots_ok (tokens self) ->
  COST * Z.of_nat (length (tokens self)) < 2^32 - 1 ->
  (2 * length (tokens self) + 2 <= fuel)%nat ->
  exists r self', parse_source fuel code m = Ret (r, self') /\
    id_counter self' <= COST * Z.of_nat (offset self').
Proof.
  intros Hin Hcr Hnew Hb Hd Hl Hf. unfold parse_source. rewrite Hnew. cbn.
  destruct (wp_elim _ _ _ (new_spec code n m Hin Hcr)) as [(? & E & Hs & Heq)|(? & E & _)]; [|congruence].
  rewrite Hnew in E. injection E as <-. rewrite Heq in *. cbn in *.
  destruct (run_total (tokens self) Hs fuel (errors self) m) as (r & s' & -> & _ & _ & _ & Hid); [done..|].
  eauto.
Qed.

Lemma parser_terminates_witness : exists r self',
  parsed 44 example = Ret (r, self') /\ id_counter self' <= COST * Z.of_nat (offset self').
Proof.
  apply (parser_terminates insert_scan insert_scan_laws memx_scalar memx_scalar_laws
    Lexer.hashify_assoc Lexer.hashify_assoc_laws (LexerSpec.source example) (String.length example) 0 example_parser).
  - apply LexerSpec.input_check. reflexivity.
  - apply LexerSpec.crlf_free. reflexivity.
  - exact example_new.
  - eexists. split; [reflexivity|split; [reflexivity|cbn; lia]].
  - intros i d t Hi Hk. repeat (destruct i as [|i]; [injection Hi as <-; discriminate Hk|]). done.
  - reflexivity.
  - cbn. lia.
Defined.

(** No error is lost.  From any token stream that is not only the end of
    file, and whatever the lexer reported, [parse_module] returns a module only
    when nothing was reported, and otherwise a non-empty list with all the
    lexer's errors. *)
Theorem parser_keeps_errors (SI : SortedInsert) (SIL : SortedInsertLaws) fuel errs toks m r self :
  stream toks -> (1 < length toks)%nat ->
  run_module fuel (from_tokens errs toks m) = Ret (r, self) ->
  match r with inl _ => errs = [] | inr errs' => errs' <> [] /\ errs ⊆+ errs' end.
Proof.
  intros Hs Hl E. pose proof (run_partial toks Hs fuel errs m) as H. rewrite E in H.
  destruct H as (_ & _ & H). destruct r; [|done]. destruct H as [->|(eof & H0 & He)]; [done|].
  apply Hs in H0 as [H0 _]. specialize (H0 He). lia.
Qed.

Definition comma_eof : list Token.Token := [Token.mk Comma (Span.mk 0 1); Token.mk Eof (Span.mk 1 1)].

Lemma parser_keeps_errors_witness : exists errs self,
  @run_module insert_scan 5 (from_tokens [Diagnostic.error] comma_eof 0) = Ret (inr errs, self) /\
  errs <> [] /\ [Diagnostic.error] ⊆+ errs.
Proof.
  do 2 eexists. split; [vm_compute; reflexivity|].
  eapply (parser_keeps_errors insert_scan insert_scan_laws 5 [Diagnostic.error] comma_eof 0 (inr _)).
  - split; [cbn; lia|]. intros [|[|i]] t [= <-]; split; try done; cbn; lia.
  - cbn. lia.
  - vm_compute. reflexivity.
Defined.

(** ** Precedence *)


(** [-a + b * (c - d) - ~e], up to the end of file. *)
Definition sum : tree :=
  Infix Minus
    (Infix Plus (Name [Neg] (bytes_of "a"))
       (Infix Star (Name [] (bytes_of "b"))
          (Group [] 0 (Infix Minus (Name [] (bytes_of "c")) (Name [] (bytes_of "d"))))))
    (Name [BitNot] (bytes_of "e")).
Definition sum_tokens : list Token.Token := map (fun k => Token.mk k (Span.mk 0 0)) (print sum ++ [Eof]).


(** ** Where the code departs from what it means to do *)

Section Departures.
Context {SI : SortedInsert} (errs : list Diagnostic.Diagnostic) (toks : list Token.Token) (m : Z).
Abbreviation at_ := (at_ errs toks m).
Abbreviation kind_at := (kind_at toks).
Abbreviation reads := (reads toks).

(** A [.] that nothing may follow, as a type expression. *)
Lemma stray_dot_ty {FU : Fuel} d i o k :
  kind_at o Dot -> kind_at (S o) k -> after_dot k = false ->
  stuck (parse_ty_expr (Rec := Expr_knot d)) (at_ i o).
Proof.
  intros H0 H1 Hk. induction d as [|d IH]; [done|].
  destruct (runs_peek_span errs toks m i o _ H0) as [start Hstart].
  destruct (runs_peek_next errs toks m i o _ H1) as (t & Ht & Et).
  change (stuck (parse_ty_expr_body (H1 := Expr_knot d)) (at_ i o)).
  eapply stuck_after; [by apply runs_peek_kind|]. cbn match.
  eapply stuck_after; [exact Hstart|]. apply stuck_bind.
  eapply stuck_after; [exact Hstart|]. eapply stuck_after; [by apply runs_peek_kind|]. cbn match.
  eapply stuck_try with (a := None); [|by apply stuck_bind].
  eapply runs_bind; [exact Ht|]. rewrite Et. destruct k; try done.
  match goal with ident : IdentKind |- _ => by destruct ident end.
Qed.

(** The rest of a group that was opened twice and is closed once. *)
Lemma close_once i o s1 s2 e t :
  kind_at o RParen -> toks !! S o = Some t -> kind_eq (Token.kind t) RParen = false -> Token.is_eof t = false ->
  0 <= i < 2^32 - 1 ->
  runs (close_groups [s1; s2] e) (at_ i o)
    (Err (diag_expected_token (at_ (i + 1) (S (S o))) TokenTag.RParen t)) (at_ (i + 1) (S (S o))).
Proof.
  intros H0 E Ht He Hi. destruct (runs_prev_span errs toks m i o _ H0) as [span Hspan].
  eapply runs_try; [by eapply runs_eat_expect|].
  eapply runs_bind; [exact Hspan|]. eapply runs_bind; [by apply runs_next_id|].
  by apply runs_try_err, runs_eat_expect_err.
Qed.

(** A block as an expression, before the end of file. *)
Lemma block_expr_at_eof {FU : Fuel} d i j o p (P : Block -> Prop) :
  kind_at o LBrace -> kind_at p RBrace -> kind_at (S p) Eof -> (0 < loop_fuel)%nat -> 0 <= j < 2^32 - 1 ->
  (forall span, exists b, runs (parse_block_impl (H1 := Expr_knot d) None false span Ctx_Value)
      (at_ i o) (Ok b) (at_ j (S p)) /\ P b) ->
  exists b id span, runs (parse_expr_precedence (Rec := Expr_knot (S d)) 0 true) (at_ i o)
      (Ok (Some (mkExpr id (ExprKind_Block b) span))) (at_ (j + 1) (S p)) /\ P b.
Proof.
  intros H0 Hp He Hl Hj Hb. destruct (runs_prev_span errs toks m j p _ Hp) as [stop Hstop].
  destruct (runs_prefix_layers errs toks m i o [] LBrace loop_fuel []) as (layers & Hlay & Hm);
    [apply reads_cons; split; [done|by intros ? ? ?]|done|cbn; lia|].
  destruct layers; [|done]. cbn [length] in Hlay. rewrite Nat.add_0_r in Hlay.
  pose proof H0 as (t0 & E0 & K0). destruct (Hb (Token.span t0)) as (b & Hrun & HP).
  exists b, j, (Span.merge (Token.span t0) stop). split; [|done].
  change (runs (parse_expr_precedence_body (H1 := Expr_knot d) 0 true) (at_ i o)
    (Ok (Some (mkExpr j (ExprKind_Block b) (Span.merge (Token.span t0) stop)))) (at_ (j + 1) (S p))).
  eapply runs_try.
  - eapply runs_bind; [exact Hlay|]. eapply runs_bind; [by apply runs_peek|]. cbn beta zeta. rewrite K0.
    eapply runs_try; [exact Hrun|]. eapply runs_bind; [exact Hstop|].
    eapply runs_bind; [by apply runs_next_id|]. apply runs_ret.
  - cbn match. destruct loop_fuel; [lia|]. eapply runs_break, runs_bind; [by eapply runs_no_infix; [|intros [? [=]]]|].
    apply runs_ret.
Qed.

(** An expression statement before the end of file ends before its last token. *)
Lemma statement_at_eof {FU : Fuel} {R : Rec} i j o p e :
  kind_at o LBrace -> kind_at (S (S p)) Eof -> 0 <= i < 2^32 - 1 ->
  runs expect_expr (at_ (i + 1) o) (Ok e) (at_ j (S (S p))) ->
  exists span, runs (parse_statement_impl Ctx_Value) (at_ i o) (Ok (mkStatement i (StatementKind_Expr e) span))
    (at_ j (S p)).
Proof.
  intros H0 He Hi Hrun. pose proof H0 as (t0 & E0 & K0). destruct He as (t & E & Kt).
  pose proof (lookup_lt_Some _ _ _ E). destruct (lookup_lt_is_Some_2 toks p) as [t' E']; [lia|].
  destruct (runs_prev_span errs toks m j p (Token.kind t')) as [stop Hstop]; [by eexists|].
  destruct (runs_peek_span errs toks m (i + 1) o _ H0) as [start Hstart].
  exists (Span.merge start stop).
  eapply runs_bind; [by apply runs_next_id|]. eapply runs_bind; [exact Hstart|].
  eapply runs_bind; [by apply runs_peek_kind|]. cbn match. eapply runs_try.
  - eapply runs_try; [exact Hrun|]. eapply runs_bind; [by apply runs_maybe_eof; [eexists|]|]. apply runs_ret.
  - eapply runs_bind; [exact Hstop|]. apply runs_ret.
Qed.

(** A block of one statement. *)
Lemma block_of_one {FU : Fuel} {R : Rec} i j o p stmt start :
  kind_at o LBrace -> kind_at (S o) LBrace -> kind_at p RBrace -> (1 < loop_fuel)%nat -> 0 <= j < 2^32 - 1 ->
  runs (parse_statement_impl Ctx_Value) (at_ i (S o)) (Ok stmt) (at_ j p) ->
  exists span, runs (parse_block_impl None false start Ctx_Value) (at_ i o) (Ok (mkBlock j false None [stmt] span))
    (at_ (j + 1) (S p)).
Proof.
  intros H0 H1 Hp Hl Hj Hst. destruct (runs_prev_span errs toks m j p _ Hp) as [stop Hstop].
  destruct loop_fuel as [|[|fuel]] eqn:Ef; [lia..|]. pose proof H1 as (t1 & E1 & K1). pose proof Hp as (t2 & E2 & K2).
  exists (Span.merge start stop). eapply runs_try.
  - eapply runs_bind; [by eapply runs_eat_or_report|]. eapply runs_bind; [by eapply runs_eats_not|]. cbn match.
    rewrite Ef. eapply runs_bind; [|eapply runs_try; [by eapply runs_eat_expect|apply runs_ret]].
    eapply runs_continue.
    + eapply runs_bind; [by apply runs_peek|]. cbn beta. unfold Token.is_eof. rewrite K1. cbn match.
      eapply runs_bind; [done|]. eapply runs_bind; [exact Hst|]. apply runs_ret.
    + eapply runs_break. eapply runs_bind; [by apply runs_peek|]. cbn beta. unfold Token.is_eof. rewrite K2.
      apply runs_ret.
  - eapply runs_bind; [exact Hstop|]. eapply runs_bind; [by apply runs_next_id|]. apply runs_ret.
Qed.

(** The block of [n] nested blocks. *)
Fixpoint nested (n : nat) (b : Block) : Prop :=
  let '(mkBlock _ _ _ stmts _) := b in
  match n with
  | O => stmts = []
  | S n => exists sid sspan id span b',
      stmts = [mkStatement sid (StatementKind_Expr (mkExpr id (ExprKind_Block b') span)) sspan] /\ nested n b'
  end.

Lemma unclosed_blocks {FU : Fuel} d i o n :
  reads o (replicate (S n) LBrace ++ [RBrace; Eof]) -> (n <= d)%nat -> (1 < loop_fuel)%nat ->
  0 <= i -> i + 3 * Z.of_nat n < 2^32 - 1 ->
  forall start, exists b, runs (parse_block_impl (H1 := Expr_knot d) None false start Ctx_Value) (at_ i o) (Ok b)
      (at_ (i + 3 * Z.of_nat n + 1) (o + n + 2)) /\ nested n b.
Proof.
  revert d i o. induction n as [|n IH]; intros d i o Hr Hd Hl Hi Hn start.
  - apply reads_cons in Hr as [H0 [H1 _]%reads_cons].
    destruct (runs_prev_span errs toks m i (S o) _ H1) as [stop Hstop].
    exists (mkBlock i false None [] (Span.merge start stop)). split; [|done].
    replace (o + 0 + 2)%nat with (S (S o)) by lia. replace (i + 3 * Z.of_nat 0 + 1) with (i + 1) by lia.
    eapply runs_try.
    + eapply runs_bind; [by eapply runs_eat_or_report|]. eapply runs_bind; [by eapply runs_eats|]. apply runs_ret.
    + eapply runs_bind; [exact Hstop|]. eapply runs_bind; [apply runs_next_id; lia|]. apply runs_ret.
  - destruct d as [|d]; [lia|]. pose proof Hr as [_ Hend]%reads_app. rewrite length_replicate in Hend.
    apply reads_cons in Hend as [Hp [He _]%reads_cons].
    apply reads_cons in Hr as [H0 Hr]. pose proof Hr as [H1 _]%reads_cons.
    replace (o + S (S n))%nat with (S o + n + 1)%nat in * by lia.
    destruct (block_expr_at_eof d (i + 1) (i + 1 + 3 * Z.of_nat n + 1) (S o) (S o + n + 1) (nested n))
      as (b & id & span & Hb & Hnb); [done|done|done|lia|lia| |].
    { replace (S (S o + n + 1)) with (S o + n + 2)%nat by lia. apply IH; [done|lia|lia|lia|lia]. }
    destruct (statement_at_eof (R := Expr_knot (S d)) i (i + 1 + 3 * Z.of_nat n + 1 + 1) (S o) (o + n + 1)
      (mkExpr id (ExprKind_Block b) span)) as [sspan Hst]; [done| |lia| |].
    { by replace (S (S (o + n + 1))) with (S (S o + n + 1)) by lia. }
    { replace (S (S (o + n + 1))) with (S (S o + n + 1)) by lia. eapply runs_try; [exact Hb|apply runs_ret]. }
    replace (S (o + n + 1)) with (S o + n + 1)%nat in Hst by lia.
    set (stmt := mkStatement i (StatementKind_Expr (mkExpr id (ExprKind_Block b) span)) sspan) in *.
    destruct (block_of_one (R := Expr_knot (S d)) i (i + 1 + 3 * Z.of_nat n + 1 + 1) o (S o + n + 1) stmt start)
      as [stop Hblock]; [done|done|done|done|lia|done|].
    exists (mkBlock (i + 1 + 3 * Z.of_nat n + 1 + 1) false None [stmt] stop). split; [|by do 5 eexists].
    replace (i + 3 * Z.of_nat (S n) + 1) with (i + 1 + 3 * Z.of_nat n + 1 + 1 + 1) by lia.
    replace (o + S n + 2)%nat with (S (S o + n + 1)) by lia. exact Hblock.
Qed.

End Departures.

(** A group that starts with a group and goes on after it is rejected.
    [parse_group_expr] reads all the parentheses in front of an expression and
    then expects them to be closed one right after the other, so that in
    [((x) + y)], for any infix operator in place of [+], the operator is an
    error where it stands. *)
Theorem parser_rejects_grouped_group (SI : SortedInsert) fuel errs toks m min allow i o name op lbp kind :
  reads toks o [LParen; LParen; TokenKind.Ident name User; RParen; op] -> infix_table op = Some (lbp, kind) ->
  (2 < fuel)%nat -> 0 <= i < 2^32 - 2 ->
  exists d self, parse_expr_precedence (Rec := Expr_knot (FU := fuel) fuel) min allow (at_ errs toks m i o)
      = Ret (Err d, self) /\
    Diagnostic.message d = bytes_of "expected ')' found '" ++ kind_display op ++ bytes_of "'" /\
    offset self = (o + 5)%nat.
Proof.
  intros Hr Hop Hf Hi. destruct fuel as [|[|fuel]]; [lia..|].
  pose proof Hr as [(t0 & Et0 & Hk0) [_ [_ [H3 [(t4 & Et4 & Hk4) _]%reads_cons]%reads_cons]%reads_cons]%reads_cons]%reads_cons.
  assert (infix_table (Token.kind t4) = Some (lbp, kind)) as Hop4 by (by rewrite Hk4).
  destruct (parse_prints (FU := S (S fuel)) (S fuel) errs toks m 0 allow (Name [] name) i (S (S o)) RParen)
    as (e & He & _); [done|cbn; lia| |done|by intros [? [=]]|cbn; unfold loop_fuel; lia..|].
  { intros j k Hj. replace (S (S o) + j)%nat with (o + S (S j))%nat by lia. apply Hr.
    do 2 (destruct j as [|j]; [done|]). done. }
  cbn [nodes print map app length] in He.
  destruct (runs_open_groups errs toks m i o 2 (TokenKind.Ident name User) (S (S fuel)) [])
    as (starts & Hs & Hlen); [|done|lia|].
  { intros j k Hj. apply Hr. do 3 (destruct j as [|j]; [done|]). done. }
  destruct starts as [|s1 [|s2 [|]]]; try discriminate Hlen.
  exists (diag_expected_token (at_ errs toks m (i + 1 + 1) (S (S (S (S (S o)))))) TokenTag.RParen t4),
    (at_ errs toks m (i + 1 + 1) (S (S (S (S (S o)))))).
  split_and!; [| |cbn; lia].
  2: { unfold diag_expected_token, diag_unknown_directive. rewrite Hk4.
       destruct op; try discriminate Hop; reflexivity. }
  change (parse_expr_precedence (Rec := Expr_knot (FU := S (S fuel)) (S (S fuel))))
    with (parse_expr_precedence_body (H0 := S (S fuel)) (H1 := Expr_knot (FU := S (S fuel)) (S fuel))).
  destruct (runs_prefix_layers errs toks m i o [] LParen (S (S fuel)) []) as (layers & Hl & Hm);
    [apply reads_cons; split; [by eexists|by intros ? ? ?]|done|cbn; lia|].
  destruct layers; [|done]. cbn [length] in Hl. rewrite Nat.add_0_r in Hl.
  eapply runs_try_err. unfold parse_prefix_expr. eapply runs_bind; [exact Hl|]. cbn match.
  unfold parse_primary_expr. eapply runs_bind; [by apply runs_peek|]. cbn beta zeta. rewrite Hk0.
  unfold parse_group_expr. eapply runs_bind; [exact Hs|]. eapply runs_try with (a := e).
  - replace (o + 2)%nat with (S (S o)) by lia.
    destruct allow; (eapply runs_try; [exact He|apply runs_ret]).
  - eapply runs_try_err. replace (S (S o) + 1)%nat with (S (S (S o))) by lia.
    apply close_once; [done|done| | |lia];
      unfold Token.is_eof; rewrite Hk4; by destruct op.
Qed.

Lemma parser_rejects_grouped_group_witness : exists d self,
  parse_expr_precedence (Rec := Expr_knot (SI := insert_scan) (FU := 3%nat) 3) 0 true
      (at_ [] (map (fun k => Token.mk k (Span.mk 0 0))
         [LParen; LParen; TokenKind.Ident (bytes_of "a") User; RParen; Plus]) 0 0 0)
    = Ret (Err d, self) /\
  Diagnostic.message d = bytes_of "expected ')' found '" ++ bytes_of "+" ++ bytes_of "'" /\
  offset self = 5%nat.
Proof.
  apply (parser_rejects_grouped_group insert_scan 3 [] _ 0 0 true 0 0 (bytes_of "a") Plus 50 InfixOpKind.Add).
  - intros j k Hj. do 5 (destruct j as [|j]; [injection Hj as <-; by eexists|]). done.
  - reflexivity.
  - lia.
  - lia.
Defined.

(** C34: at a [.] that is followed by neither a name nor [{], parsing an
    expression never ends, whatever fuel it is given, in either context and
    under any prefix operators: [parse_primary_ty_expr] leaves the dot to
    [parse_init_expr], which asks [parse_ty_expr] for a type, which comes back to
    [parse_primary_ty_expr] with the dot still to read.  The recursion overflows
    the stack of the compiler on an input such as [const y = . + 1]. *)
Theorem parser_stray_dot_diverges (SI : SortedInsert) (fuel : nat) errs toks m min allow i o ops k :
  reads toks o (map layer_token ops ++ [Dot; k]) -> after_dot k = false ->
  parse_expr_precedence (Rec := Expr_knot (FU := fuel) fuel) min allow (at_ errs toks m i o)
    = Fault Out_of_fuel.
Proof.
  intros Hr Hk. destruct fuel as [|fuel]; [done|].
  change (stuck (parse_expr_precedence_body (H0 := S fuel) (H1 := Expr_knot (FU := S fuel) fuel) min allow)
            (at_ errs toks m i o)).
  apply stuck_bind. destruct (Nat.le_gt_cases (S fuel) (length ops)) as [Hf|Hf].
  { apply reads_app in Hr as [Hr _]. by apply stuck_bind, (stuck_prefix_layers _ _ _ _ _ ops). }
  pose proof Hr as [_ [H0 [H1 _]%reads_cons]%reads_cons]%reads_app. rewrite length_map in H0, H1.
  apply reads_prefix_of in Hr.
  destruct (runs_prefix_layers errs toks m i o ops Dot (S fuel) [] Hr) as (layers & Hl & _); [done|done|].
  eapply stuck_after; [exact Hl|].
  assert (stuck (parse_primary_expr (H0 := S fuel) (H1 := Expr_knot (FU := S fuel) fuel) allow)
            (at_ errs toks m i (o + length ops))) as Hp.
  { pose proof H0 as (t & Et & Kt). eapply stuck_after; [by apply runs_peek|]. cbn beta zeta. rewrite Kt.
    destruct allow; [apply stuck_bind|]; by eapply stray_dot_ty. }
  destruct layers; [exact Hp|]. by apply stuck_bind, stuck_bind.
Qed.

Lemma parser_stray_dot_diverges_witness :
  parse_expr_precedence (Rec := Expr_knot (SI := insert_scan) (FU := 100%nat) 100) 0 true
      (at_ [] (map (fun k => Token.mk k (Span.mk 0 0)) [Minus; Dot; Plus]) 0 0 0)
    = Fault Out_of_fuel.
Proof.
  apply (parser_stray_dot_diverges insert_scan 100 [] _ 0 0 true 0 0 [Neg] Plus).
  - intros j k Hj. do 3 (destruct j as [|j]; [injection Hj as <-; by eexists|]). done.
  - reflexivity.
Defined.

(** Unclosed blocks are accepted.  [n + 1] opening braces closed by a single
    [}] at the end of the file are parsed as [n + 1] nested blocks, without an
    error: after a block as an expression statement, [maybe_assign_op] reads the
    end of file, which does not move the cursor, and then moves the cursor back,
    onto the brace, which the enclosing block reads again. *)
Theorem parser_accepts_unclosed_blocks (SI : SortedInsert) (fuel : nat) errs toks m i o n start :
  reads toks o (replicate (S n) LBrace ++ [RBrace; Eof]) -> (n <= fuel)%nat -> (1 < fuel)%nat ->
  0 <= i -> i + 3 * Z.of_nat n < 2^32 - 1 ->
  exists b, parse_block_impl (H0 := fuel) (H1 := Expr_knot (FU := fuel) fuel) None false start Ctx_Value
      (at_ errs toks m i o)
    = Ret (Ok b, at_ errs toks m (i + 3 * Z.of_nat n + 1) (o + n + 2)) /\ nested n b.
Proof. intros. by apply (unclosed_blocks errs toks m (FU := fuel)). Qed.

Lemma parser_accepts_unclosed_blocks_witness : exists b,
  parse_block_impl (H := insert_scan) (H0 := 2%nat) (H1 := Expr_knot (SI := insert_scan) (FU := 2%nat) 2)
      None false (Span.mk 0 1) Ctx_Value
      (at_ [] (map (fun k => Token.mk k (Span.mk 0 0)) [LBrace; LBrace; LBrace; RBrace; Eof]) 0 0 0)
    = Ret (Ok b, at_ [] (map (fun k => Token.mk k (Span.mk 0 0)) [LBrace; LBrace; LBrace; RBrace; Eof]) 0 7 4) /\
  nested 2 b.
Proof.
  apply (parser_accepts_unclosed_blocks insert_scan 2 [] _ 0 0 0 2); [|lia..].
  intros j k Hj. do 5 (destruct j as [|j]; [injection Hj as <-; by eexists|]). done.
Defined.

End ParserSpec.
