(* ===== verification/Vuir.v ===== *)
(** * Untyped instructions ([src/ir/vuir/opcodes.rs], [src/ir/id.rs])

    Instruction identifiers, which both intermediate representations have.  The
    marker type that keeps the two apart is left out: the files that use these
    types say which one is meant.

    The opcodes the lowering emits and the semantic analysis reads.  A slice in
    the arena is a list. *)

From S2P Require Import Prelude Words Bytes Span Ast.

#[local] Open Scope Z_scope.

Module IrId.

(** [NonMaxU32]. *)
Definition InstructionId : Set := Z.

Definition FILE_MODULE : InstructionId := 0.

(** [value as u32], then the assumption of [NonMaxU32]. *)
Definition from_usize (value : nat) : res InstructionId := NonMaxU32.from_usize value.
Definition to_usize (self : InstructionId) : nat := NonMaxU32.as_usize self.

Definition sub (self rhs : Z) : res InstructionId :=
  rhs ← NonMaxU32.from_u32 rhs; NonMaxU32.sub self rhs.

Inductive InstructionRef : Set :=
  | Instruction (id : InstructionId)
  | Interned (v : Z).

#[export] Instance InstructionRef_eq_dec : EqDecision InstructionRef.
Proof. solve_decision. Defined.

Definition as_id (self : InstructionRef) : option InstructionId :=
  match self with Instruction id => Some id | Interned _ => None end.
Definition as_interned (self : InstructionRef) : res Z :=
  match self with Interned v => Ret v | Instruction _ => panic end.
Definition as_interned_opt (self : InstructionRef) : option Z :=
  match self with Interned v => Some v | Instruction _ => None end.
Definition is_instruction (self : InstructionRef) : bool :=
  match self with Instruction _ => true | Interned _ => false end.
Definition is_interned (self : InstructionRef) : bool :=
  match self with Interned _ => true | Instruction _ => false end.

End IrId.

Module Vuir.
Import IrId.

Inductive BuiltinKind : Set :=
  | UnsafeIntCast | SizeOf | BitSizeOf | Zeroed | IntFromEnum | IntToFloat | Import | Nullptr
  | SliceFromRawParts | SlicePtr | SliceLen | Abort | Unreachable | PtrToInt | IntToPtr | Forget
  | Bitcast | SliceCopyNonoverlapping | AnyptrIs | AnyptrAs | AnyptrPtr | AnyptrFromRaw
  | AnyptrTypeInfo | TypeInfo.

Inductive FieldTy : Set :=
  | Ref (inst : InstructionRef)
  | Body (body : list InstructionId).

Record Field : Set := { field_name : Ident; field_ty : FieldTy }.

Record UnionField : Set := { uf_name : Ident; uf_ty : option FieldTy; uf_span : Span.Span }.

Record EnumVariant : Set :=
  { ident : Ident; variant_value : option (InstructionRef * Span.Span); variant_span : Span.Span }.

Inductive NamingKind : Set := Anonymous | FromDecl | FromPreviousStackAlloc | Named (name : list Z).

Record AdtInitField : Set := { adt_name : Ident; adt_value : InstructionRef; adt_span : Span.Span }.

Record FnCallArg : Set :=
  { arg_name : option (list Z); arg_body : list InstructionId; arg_span : Span.Span }.

Inductive Capture : Set := FromParent (idx : nat) | Id (id : InstructionId).

Inductive AggregateInitKind : Set :=
  | Empty
  | Array (elements : list InstructionRef)
  | Adt (fields : list AdtInitField).

Record SwitchSingleCase : Set := {
  pattern : InstructionRef; capture : option Ident; single_body : list InstructionId;
  single_span : Span.Span; pattern_span : Span.Span;
}.

Record SwitchMultiCase : Set := {
  items : list InstructionRef; multi_body : list InstructionId; multi_span : Span.Span;
  patterns_span : Span.Span;
}.

Record Decl : Set :=
  { decl_name : list Z; decl_value : list InstructionId; decl_is_const : bool; decl_span : Span.Span }.

Inductive Opcode : Set :=
  | Invalid
  | TypeOfCurFnRet
  | StructInitTypeOfField (struct_ : InstructionRef) (field : list Z) (span : Span.Span)
  | TypeBuiltinCallingConvention
  | TypeOfPtrPointee (ptr : InstructionRef) (span : Span.Span)
  | TypeOf (value : InstructionRef)
  | TypePtr (pointee : InstructionRef) (is_const is_volatile : bool) (span : Span.Span)
  | TypeSlice (elem : InstructionRef) (is_const : bool) (sentinel : option InstructionRef)
  | TypeArray (elem : InstructionRef) (is_const : bool) (len : InstructionRef)
      (sentinel : option InstructionRef) (elem_span len_span span : Span.Span)
  | Declaration (decl : Decl)
  | DeclFn (ret_ty : InstructionId) (ret_ty_is_generic : bool) (params : list InstructionId)
      (var_args : bool) (body : list InstructionId) (external : bool)
      (callconv : option InstructionId) (builtin : option BuiltinKind) (inline : Inline.Inline)
      (span : Span.Span)
  | CaptureGet (idx : nat) (span : Span.Span)
  | DeclFnParam (name : Ident) (type_body : list InstructionId) (comptime generic : bool)
      (span : Span.Span)
  | DeclStruct (naming : NamingKind) (fields : list Field) (packed linear : bool)
      (decls : list InstructionId) (captures : list Capture)
  | DeclEnum (tag_ty : option (InstructionRef * Span.Span)) (naming : NamingKind) (linear : bool)
      (variants : list EnumVariant) (decls : list InstructionId) (captures : list Capture)
  | DeclUnion (tag : option (option (InstructionRef * Span.Span))) (naming : NamingKind)
      (linear : bool) (fields : list UnionField) (decls : list InstructionId)
      (captures : list Capture)
  | StackAlloc (name : Ident) (ty : InstructionRef) (span : Span.Span)
  | StackAllocMut (name : Ident) (ty : InstructionRef) (span : Span.Span)
  | StackAllocComptime (name : Ident) (ty : InstructionRef) (span : Span.Span)
  | StackAllocComptimeMut (name : Ident) (ty : InstructionRef) (span : Span.Span)
  | StackAllocInferred (name : Ident) (span : Span.Span)
  | StackAllocInferredMut (name : Ident) (span : Span.Span)
  | StackAllocInferredComptime (name : Ident) (span : Span.Span)
  | StackAllocInferredComptimeMut (name : Ident) (span : Span.Span)
  | FreezeStackAlloc (alloc : InstructionId) (span : Span.Span)
  | ReifyInferredAlloc (alloc : InstructionRef) (span : Span.Span)
  | Block (instructions : list InstructionId) (span : Span.Span)
  | BlockComptime (instructions : list InstructionId)
  | Break (block : InstructionId) (value : InstructionRef) (value_span : Span.Span)
  | BreakComptime (block : InstructionId) (value : InstructionRef)
  | Return (value : option InstructionRef) (span : Span.Span)
  | Loop (instructions : list InstructionId) (span : Span.Span)
  | Repeat (loop : InstructionId)
  | DeclVal (ident : Ident)
  | DeclRef (ident : Ident)
  | FieldValFromPtr (lhs : InstructionRef) (field : list Z) (span : Span.Span)
  | FieldPtrFromPtr (lhs : InstructionRef) (field : list Z) (span : Span.Span)
  | FieldValFromVal (lhs : InstructionRef) (field : list Z) (span : Span.Span)
  | ArrayIndexElemVal (array_ptr index : InstructionRef) (span : Span.Span)
  | ArrayIndexElemPtr (array_ptr index : InstructionRef) (span : Span.Span)
  | Undefined (ty : option InstructionRef) (span : Span.Span)
  | AggregateInit (ty : InstructionRef) (kind : AggregateInitKind) (span : Span.Span)
  | Coerce (value into : InstructionRef) (span : Span.Span)
  | FnCall (fun_ : InstructionRef) (args : list FnCallArg) (ret_ty : option InstructionRef)
      (span : Span.Span)
  | FnCallWithFieldPtrReceiver (field_ptr : InstructionRef) (field_name : Ident)
      (args : list FnCallArg) (ret_ty : option InstructionRef) (span : Span.Span)
  | Load (src : InstructionRef) (span : Span.Span)
  | Store (dst src : InstructionRef) (span : Span.Span)
  | StoreToInferredAlloc (dst src : InstructionRef) (span : Span.Span)
  | Add (lhs rhs : InstructionRef) (span : Span.Span)
  | AddSat (lhs rhs : InstructionRef) (span : Span.Span)
  | Sub (lhs rhs : InstructionRef) (span : Span.Span)
  | SubSat (lhs rhs : InstructionRef) (span : Span.Span)
  | Mul (lhs rhs : InstructionRef) (span : Span.Span)
  | MulSat (lhs rhs : InstructionRef) (span : Span.Span)
  | Div (lhs rhs : InstructionRef) (span : Span.Span)
  | Rem (lhs rhs : InstructionRef) (span : Span.Span)
  | Lt (lhs rhs : InstructionRef) (span : Span.Span)
  | Lte (lhs rhs : InstructionRef) (span : Span.Span)
  | Gt (lhs rhs : InstructionRef) (span : Span.Span)
  | Gte (lhs rhs : InstructionRef) (span : Span.Span)
  | BoolAnd (lhs rhs : InstructionRef) (span : Span.Span)
  | BoolOr (lhs rhs : InstructionRef) (span : Span.Span)
  | Negate (op : InstructionRef) (span : Span.Span)
  | BoolNot (op : InstructionRef) (span : Span.Span)
  | Shl (lhs rhs : InstructionRef) (span : Span.Span)
  | ShlSat (lhs rhs : InstructionRef) (span : Span.Span)
  | ShlWrap (lhs rhs : InstructionRef) (span : Span.Span)
  | Shr (lhs rhs : InstructionRef) (span : Span.Span)
  | ShrSat (lhs rhs : InstructionRef) (span : Span.Span)
  | ShrWrap (lhs rhs : InstructionRef) (span : Span.Span)
  | BitAnd (lhs rhs : InstructionRef) (span : Span.Span)
  | BitOr (lhs rhs : InstructionRef) (span : Span.Span)
  | BitXor (lhs rhs : InstructionRef) (span : Span.Span)
  | BitNot (op : InstructionRef) (span : Span.Span)
  | Eq (lhs rhs : InstructionRef) (span : Span.Span)
  | Neq (lhs rhs : InstructionRef) (span : Span.Span)
  | DbgSrcLoc (line col : nat)
  | Branch (cond : InstructionRef * Span.Span) (then_body else_body : list InstructionId)
      (span : Span.Span)
  | Switch (operand : InstructionRef) (single_cases : list SwitchSingleCase)
      (multi_cases : list SwitchMultiCase) (else_body : option (list InstructionId))
      (span : Span.Span)
  | Defer (body : list InstructionId) (span : Span.Span)
  | SwitchCapture (switch_operand case_pattern : InstructionRef) (span : Span.Span)
  | RvalueToLvalue (rvalue : InstructionRef).

Definition returns_never (self : Opcode) : bool :=
  match self with Break _ _ _ | Return _ _ | Repeat _ => true | _ => false end.

End Vuir.
