(* ===== verification/Vtir.v ===== *)
(** * Typed instructions ([src/ir/vtir/opcodes.rs])

    The opcodes the semantic analysis emits, and the type of the value of an
    instruction.  [type_of] follows the operands of an instruction, so it
    carries a fuel; [VtirSpec] shows that the number of instructions is enough. *)

From S2P Require Import Prelude Words Bytes HashIndex ShardedMap Value ValueStore Vuir.

#[local] Open Scope Z_scope.

Module Vtir.
Import IrId.

Record SwitchCase : Set := { items : list InstructionRef; body : list InstructionRef }.

Inductive Opcode : Set :=
  | Invalid
  | Noop
  | Block (instructions : list InstructionRef) (ret_ty : Z)
  | Break (block : InstructionId) (value : InstructionRef)
  | Loop (instructions : list InstructionRef) (ret_ty : Z)
  | Repeat (loop : InstructionId)
  | FnArg (name : list Z) (ty : Z)
  | StackAlloc (ty : Z)
  | StackAllocInferred (is_comptime : bool)
  | Load (ptr : InstructionRef)
  | Store (src dst : InstructionRef)
  | Return (value : option InstructionRef)
  | FnCall (callee : InstructionRef) (args : list InstructionRef)
  | StructInit (struct_ty : Z) (fields : list InstructionRef)
  | ArrayInit (array_ty : Z) (elements : list InstructionRef)
  | SliceInit (slice_ty : Z) (elements : list InstructionRef)
  | AnyptrInit (value : InstructionRef) (value_ty : Z)
  | StructFieldValue (struct_ty : InstructionRef) (field_idx : nat) (ret_ty : Z)
  | StructFieldPtr (struct_ptr : InstructionRef) (field_idx : nat) (ret_ty : Z)
  | UnionInit (union_ty : Z) (field_idx : nat) (value : option InstructionRef)
  | UnionTag (union_val : InstructionRef) (tag_ty : Z)
  | UnionFieldValue (union_val : InstructionRef) (field_idx : nat) (ret_ty : Z)
  | BoolNot (op : InstructionRef)
  | Add (lhs rhs : InstructionRef)
  | AddSat (lhs rhs : InstructionRef)
  | Sub (lhs rhs : InstructionRef)
  | SubSat (lhs rhs : InstructionRef)
  | Mul (lhs rhs : InstructionRef)
  | MulSat (lhs rhs : InstructionRef)
  | Div (lhs rhs : InstructionRef)
  | Rem (lhs rhs : InstructionRef)
  | Lt (lhs rhs : InstructionRef)
  | Lte (lhs rhs : InstructionRef)
  | Gt (lhs rhs : InstructionRef)
  | Gte (lhs rhs : InstructionRef)
  | BoolAnd (lhs rhs : InstructionRef)
  | BoolOr (lhs rhs : InstructionRef)
  | Eq (lhs rhs : InstructionRef)
  | Neq (lhs rhs : InstructionRef)
  | Shl (lhs rhs : InstructionRef)
  | ShlSat (lhs rhs : InstructionRef)
  | ShlWrap (lhs rhs : InstructionRef)
  | Shr (lhs rhs : InstructionRef)
  | ShrSat (lhs rhs : InstructionRef)
  | ShrWrap (lhs rhs : InstructionRef)
  | BitAnd (lhs rhs : InstructionRef)
  | BitOr (lhs rhs : InstructionRef)
  | BitXor (lhs rhs : InstructionRef)
  | BitNot (op : InstructionRef)
  | UnsafeIntCast (src : InstructionRef) (dst_ty : Z)
  | UnsafeFloatCast (src : InstructionRef) (dst_ty : Z)
  | IntToFloat (src : InstructionRef) (dst_ty : Z)
  | Zeroed (ty : Z)
  | Undefined (ty : Z)
  | BitCast (src : InstructionRef) (dst_ty : Z)
  | AnyptrIs (value : InstructionRef) (target_ty : Z)
  | AnyptrAs (value : InstructionRef) (target_ty : Z)
  | AnyptrPtr (value : InstructionRef) (ptr_ty : Z)
  | AnyptrFromRaw (ptr type_id : InstructionRef)
  | AnyptrTypeInfo (value : InstructionRef) (ty : Z)
  | SliceFromRawParts (slice_ty : Z) (ptr len : InstructionRef)
  | SlicePtr (slice : InstructionRef) (ptr_ty : Z)
  | SliceLen (slice : InstructionRef)
  | PtrToInt (src : InstructionRef) (dst_ty : Z)
  | IntToPtr (src : InstructionRef) (dst_ty : Z)
  | SliceCopyNonoverlapping (slice_ty : Z) (src dst : InstructionRef)
  | SliceElemPtr (slice index : InstructionRef) (elem_ptr_ty : Z)
  | PtrElemPtr (array_ptr index : InstructionRef) (elem_ptr_ty : Z)
  | DbgSrcLoc (line col : nat)
  | Branch (cond : InstructionRef) (then_body else_body : list InstructionRef)
  | Switch (operand : InstructionRef) (cases : list SwitchCase) (else_body : list InstructionRef)
  | Abort_
  | Unreachable.

Import Value ValueStore.

Section TypeOf.
Context `{FxHasher} `{HashTable} {A : Type} `{ArenaOps A (Key * Value)}.

(** What the type of an instruction is taken from. *)
Inductive TypeSource : Set :=
  | Is (ty : Z)                          (** the type itself *)
  | Same (inst : InstructionRef)         (** the type of an operand *)
  | Pointee (inst : InstructionRef)      (** what the pointer type of an operand points to *)
  | Returned (inst : InstructionRef)     (** what the function type of an operand returns *)
  | Nothing.                             (** [unreachable!] *)

Definition type_source (common : CommonValues) (opcode : Opcode) : TypeSource :=
  match opcode with
  | Invalid => Nothing
  | Block _ ret_ty | Loop _ ret_ty => Is ret_ty
  | FnCall callee _ => Returned callee
  | FnArg _ ty => Is ty
  | StackAlloc ty => Is ty
  | Load ptr => Pointee ptr
  | Branch _ _ _ | Switch _ _ _ => Is (void_t common)
  | BoolNot _ => Is (bool_t common)
  | Add lhs _ | AddSat lhs _ | Sub lhs _ | SubSat lhs _ | Mul lhs _ | MulSat lhs _ | Div lhs _ | Rem lhs _ =>
      Same lhs
  | Lt _ _ | Lte _ _ | Gt _ _ | Gte _ _ | BoolAnd _ _ | BoolOr _ _ | Eq _ _ | Neq _ _ => Is (bool_t common)
  | Shl lhs _ | ShlSat lhs _ | ShlWrap lhs _ | Shr lhs _ | ShrSat lhs _ | ShrWrap lhs _
  | BitAnd lhs _ | BitOr lhs _ | BitXor lhs _ => Same lhs
  | BitNot op => Same op
  | StructInit struct_ty _ => Is struct_ty
  | ArrayInit array_ty _ => Is array_ty
  | SliceInit slice_ty _ => Is slice_ty
  | AnyptrInit _ _ => Is (anyptr_t common)
  | StructFieldValue _ _ ret_ty | StructFieldPtr _ _ ret_ty => Is ret_ty
  | UnionInit union_ty _ _ => Is union_ty
  | UnionTag _ tag_ty => Is tag_ty
  | UnionFieldValue _ _ ret_ty => Is ret_ty
  | UnsafeIntCast _ dst_ty | UnsafeFloatCast _ dst_ty | IntToFloat _ dst_ty => Is dst_ty
  | Zeroed ty | Undefined ty => Is ty
  | BitCast _ dst_ty => Is dst_ty
  | AnyptrIs _ _ => Is (bool_t common)
  | AnyptrAs _ target_ty => Is target_ty
  | AnyptrPtr _ ptr_ty => Is ptr_ty
  | AnyptrFromRaw _ _ => Is (anyptr_t common)
  | AnyptrTypeInfo _ ty => Is ty
  | SliceFromRawParts slice_ty _ _ => Is slice_ty
  | SlicePtr _ ptr_ty => Is ptr_ty
  | SliceLen _ => Is (usize_t common)
  | PtrToInt _ dst_ty | IntToPtr _ dst_ty => Is dst_ty
  | Abort_ | Unreachable => Is (never_t common)
  | SliceCopyNonoverlapping _ _ _ => Is (void_t common)
  | PtrElemPtr _ _ elem_ptr_ty | SliceElemPtr _ _ elem_ptr_ty => Is elem_ptr_ty
  | Store _ _ | Return _ | DbgSrcLoc _ _ | Break _ _ | Repeat _ | Noop => Is (void_t common)
  | StackAllocInferred _ => Nothing
  end.

Fixpoint type_of (fuel : nat) (values : ValueStore A) (instructions : list Opcode) (inst : InstructionRef)
    : res Z :=
  match fuel with
  | O => diverge
  | S fuel =>
      match inst with
      | Interned i => type_of_interned values i
      | Instruction id =>
          opcode ← get_idx instructions (to_usize id);
          match type_source (common values) opcode with
          | Is ty => Ret ty
          | Same inst => type_of fuel values instructions inst
          | Pointee ptr =>
              ptr_ty ← type_of fuel values instructions ptr;
              key ← index_to_key values ptr_ty;
              ptr ← as_type_ptr key;
              Ret (ptr_pointee_ty ptr)
          | Returned callee =>
              callee_ty ← type_of fuel values instructions callee;
              key ← index_to_key values callee_ty;
              fn ← as_type_fn key;
              Ret (ret_ty fn)
          | Nothing => panic
          end
      end
  end.

End TypeOf.
End Vtir.
