(* ===== verification/StoreLogic.v ===== *)
(** * What a client of the value store reasons with

    [store n v]: [v] is well formed and has room for [n] more values.
    [at_ v i kv]: index [i] stands for the pair [kv].  [extends v v']: every index
    keeps its meaning.  Interning makes one more index, for the key it is given,
    and extends the store; the lemmas hide the shards and the hash table. *)

From S2P Require Import Prelude Words HashIndex ShardedMap ShardedSpec Anyint Value ValueStore ValueSpec.

#[local] Open Scope Z_scope.

Module StoreLogic.
Import ShardedIndexMap Value ValueStore ShardedSpec ValueSpec.

Section Logic.
Context `{FX : FxHasher} `{HL : HashTableLaws} {A : Type} `{AL : ArenaLaws A (Key * Value)}.
Implicit Types (v : ValueStore A) (i : Z) (k : Key) (kv : Key * Value).

(** A map has one family of lists. *)
Lemma shard_ok_unique cap cap' c s sh l l' :
  shard_ok cap c s sh l -> shard_ok cap' c s sh l' -> l = l'.
Proof.
  intros [Hs _ Ht _ _] [Hs' _ Ht' _ _].
  assert (Hlen : length l = length l').
  { unfold indexes in *. rewrite Ht in Ht'. apply Permutation_length in Ht'.
    rewrite !length_imap, !length_fmap in Ht'. done. }
  apply list_eq. intros n. destruct (l !! n) as [x|] eqn:Hn, (l' !! n) as [y|] eqn:Hn'; try done.
  - destruct (arena_get_ok _ _ _ _ _ Hs Hn) as [Hx _]. destruct (arena_get_ok _ _ _ _ _ Hs' Hn') as [Hy _].
    congruence.
  - apply lookup_ge_None in Hn'. apply lookup_lt_Some in Hn. lia.
  - apply lookup_ge_None in Hn. apply lookup_lt_Some in Hn'. lia.
Qed.

Lemma repr_unique (m : ShardedIndexMap A) cap cap' ls ls' : repr m cap ls -> repr m cap' ls' -> ls = ls'.
Proof.
  intros Hr Hr'. assert (Hlen : length ls = length ls').
  { by rewrite <- (repr_length _ _ _ Hr), <- (repr_length _ _ _ Hr'). }
  apply list_eq. intros s. destruct (ls !! s) as [l|] eqn:Hl, (ls' !! s) as [l'|] eqn:Hl'; try done.
  - destruct (lookup_lt_is_Some_2 (shards m) s) as [sh Hsh].
    { rewrite (repr_length _ _ _ Hr). by eapply lookup_lt_Some. }
    pose proof (repr_shards _ _ _ Hr _ _ _ Hsh Hl) as Ho. pose proof (repr_shards _ _ _ Hr' _ _ _ Hsh Hl') as Ho'.
    rewrite <- Hlen in Ho'. f_equal. by eapply shard_ok_unique.
  - apply lookup_ge_None in Hl'. apply lookup_lt_Some in Hl. lia.
  - apply lookup_ge_None in Hl. apply lookup_lt_Some in Hl'. lia.
Qed.

(** ** Predicates *)

Definition store (n : nat) v : Prop :=
  exists cap ls, repr (value_map v) cap ls /\ room cap ls n /\ located ls (common_list (common v)) common_keys.

Definition at_ v i kv : Prop :=
  exists cap ls s p, repr (value_map v) cap ls /\ pair_at ls s p = Some kv /\ i = index_of s p.

Definition extends v v' : Prop := common v' = common v /\ forall i kv, at_ v i kv -> at_ v' i kv.

#[export] Instance extends_preorder : PreOrder extends.
Proof.
  split; [by split|]. intros v1 v2 v3 [Hc1 H1] [Hc2 H2]. split; [congruence|]. auto.
Qed.

Lemma store_le n n' v : (n' <= n)%nat -> store n v -> store n' v.
Proof.
  intros Hn (cap & ls & Hr & Hroom & Hl). exists cap, ls. split_and!; [done| |done]. by eapply room_le.
Qed.

Lemma at_kv v i kv :
  at_ v i kv ->
  index_to_key_value v i = Ret kv /\ index_to_key v i = Ret kv.1 /\ index_to_value v i = Ret kv.2.
Proof.
  intros (cap & ls & s & p & Hr & Hp & ->). destruct (kv_at _ _ _ _ _ _ Hr Hp) as (Hkv & _ & Hk & _).
  unfold index_to_key_value, index_to_key, index_to_value. rewrite Hkv, Hk. done.
Qed.

Lemma at_fun v i kv kv' : at_ v i kv -> at_ v i kv' -> kv = kv'.
Proof. intros [H1 _]%at_kv [H2 _]%at_kv. congruence. Qed.

(** Interned keys are lawful. *)
Lemma at_lawful v i kv : at_ v i kv -> lawful kv.1.
Proof.
  intros (cap & ls & s & p & Hr & Hp & _). unfold pair_at in Hp. apply bind_Some in Hp as (l & Hl & Hp).
  destruct (lookup_lt_is_Some_2 (shards (value_map v)) s) as [sh Hsh].
  { rewrite (repr_length _ _ _ Hr). by eapply lookup_lt_Some. }
  destruct (repr_shards _ _ _ Hr _ _ _ Hsh Hl) as [_ _ _ [Hlaw _] _].
  apply (Forall_lookup_1 _ _ p _ Hlaw). by rewrite list_lookup_fmap, Hp.
Qed.

(** A key has one index. *)
Lemma at_inj v i j kv kv' : at_ v i kv -> at_ v j kv' -> key_equiv kv.1 kv'.1 -> i = j.
Proof.
  intros (cap & ls & s & p & Hr & Hp & ->) (cap' & ls' & s' & p' & Hr' & Hp' & ->) He.
  rewrite (repr_unique _ _ _ _ _ Hr' Hr) in Hp'. clear Hr' ls' cap'.
  unfold pair_at in *. apply bind_Some in Hp as (l & Hl & Hp), Hp' as (l' & Hl' & Hp').
  assert (Hshard : forall s l p kv, ls !! s = Some l -> l !! p = Some kv ->
            lawful kv.1 /\ shard_of (length ls) kv.1 = s /\ distinct_keys l.*1 /\ l.*1 !! p = Some kv.1).
  { intros s0 l0 p0 kv0 Hl0 Hp0. destruct (lookup_lt_is_Some_2 (shards (value_map v)) s0) as [sh Hsh].
    { rewrite (repr_length _ _ _ Hr). by eapply lookup_lt_Some. }
    destruct (repr_shards _ _ _ Hr _ _ _ Hsh Hl0) as [_ _ _ Hd Hsame].
    assert (Hp0' : l0.*1 !! p0 = Some kv0.1) by (by rewrite list_lookup_fmap, Hp0).
    split_and!; [|exact (Forall_lookup_1 _ _ _ _ Hsame Hp0')|done|done].
    destruct Hd as [Hd _]. exact (Forall_lookup_1 _ _ _ _ Hd Hp0'). }
  destruct (Hshard _ _ _ _ Hl Hp) as (Hlaw & Hs & Hd & Hk). destruct (Hshard _ _ _ _ Hl' Hp') as (Hlaw' & Hs' & _ & Hk').
  assert (s = s') as <- by (rewrite <- Hs, <- Hs'; by apply shard_of_equiv).
  assert (l' = l) as -> by congruence.
  destruct Hd as [_ Hd]. by rewrite (Hd _ _ _ _ Hk Hk' He).
Qed.

(** ** Interning *)

(** A list at the end of which a pair is added keeps its pairs. *)
Lemma extends_snoc v m1 cap ls l s kv :
  repr (value_map v) cap ls -> ls !! s = Some l -> repr m1 cap (set_list ls s (l ++ [kv])) ->
  extends v (mk m1 (common v)) /\ at_ (mk m1 (common v)) (index_of s (length l)) kv.
Proof.
  intros Hr Hl Hr1. assert (Hlt : (s < length ls)%nat) by (by eapply lookup_lt_Some). split.
  - split; [done|]. intros j kv0 (cap0 & ls0 & s0 & p0 & Hr0 & Hp0 & ->).
    rewrite (repr_unique _ _ _ _ _ Hr0 Hr) in Hp0. exists cap, (set_list ls s (l ++ [kv])), s0, p0.
    split_and!; [done| |done]. unfold pair_at, set_list in *. destruct (decide (s0 = s)) as [->|Hne].
    + rewrite Hl in Hp0. simpl in Hp0. rewrite list_lookup_insert_eq by done. simpl. by apply lookup_app_l_Some.
    + by rewrite list_lookup_insert_ne.
  - exists cap, (set_list ls s (l ++ [kv])), s, (length l). split_and!; [done| |done].
    unfold pair_at, set_list. rewrite list_lookup_insert_eq by done. simpl. by rewrite list_lookup_middle.
Qed.


Lemma located_at v cap ls k s p :
  repr (value_map v) cap ls -> locate ls k = Some (s, p) ->
  exists kv, at_ v (index_of s p) kv /\ key_equiv kv.1 k.
Proof.
  intros Hr Hl. destruct (locate_lt _ _ _ _ _ _ Hr Hl) as [_ (x & Hx & He)].
  exists x. split; [|done]. by exists cap, ls, s, p.
Qed.

(** The key is new, or its value is kept. *)
Lemma intern_store n v k :
  store (S n) v -> is_trivial k = true -> lawful k ->
  exists i v', intern_trivial v k = Ret (i, v') /\ store n v' /\ extends v v' /\
    exists kv, at_ v' i kv /\ key_equiv kv.1 k.
Proof.
  intros (cap & ls & Hr & Hroom & Hc) Ht Hk.
  destruct (intern_room _ _ _ k n Hr Hk Hroom) as (i & m' & ls' & s & p & Hi & Hr' & Hg & Hroom' & Hl & ->).
  assert (Hv : intern_trivial v k = Ret (index_of s p, mk m' (common v))).
  { apply intern_trivial_ok; [done|]. rewrite Hi. done. }
  exists (index_of s p), (mk m' (common v)). split_and!; [done| | |].
  - exists cap, ls'. split_and!; [done|done|]. by eapply located_grows.
  - split; [done|]. intros j kv (cap0 & ls0 & s0 & p0 & Hr0 & Hp0 & ->).
    rewrite (repr_unique _ _ _ _ _ Hr0 Hr) in Hp0.
    destruct (sharded_map_spec _ _ _ k none Hr Hk) as [_ Hs].
    change (intern_none (value_map v) k) with (intern (value_map v) k none) in Hi.
    destruct (locate ls k) as [[s1 p1]|] eqn:Hl1.
    + destruct Hs as [Hs _]. rewrite Hs in Hi. injection Hi as _ <-. by exists cap, ls, s0, p0.
    + destruct Hs as (l & Hl0 & Hnew & Hfull). destruct (Z.ltb_spec (Z.of_nat (length l)) cap) as [Hlt|Hge].
      2:{ destruct (Hfull Hge) as [Hf _]. congruence. }
      destruct (Hnew Hlt) as (m1 & Hi1 & _ & Hr1). rewrite Hi1 in Hi. injection Hi as _ <-.
      destruct (extends_snoc _ _ _ _ _ _ _ Hr Hl0 Hr1) as [[_ Hx] _]. apply Hx. by exists cap, ls, s0, p0.
  - by eapply located_at.
Qed.

Lemma intern_exact n v k :
  store (S n) v -> is_trivial k = true -> exact_key k = true ->
  exists i v' x, intern_trivial v k = Ret (i, v') /\ store n v' /\ extends v v' /\ at_ v' i (k, x).
Proof.
  intros Hs Ht He. destruct (intern_store n v k Hs Ht) as (i & v' & Hi & Hs' & Hx & [k' x] & Hkv & Heq).
  { unfold lawful. by destruct k. }
  exists i, v', x. split_and!; [done..|]. simpl in Heq. by rewrite (exact_key_equiv _ _ He Heq) in Hkv.
Qed.

(** A key with a value of its own, which replaces one that is there. *)
Lemma intern_value n v k x :
  store (S n) v -> exact_key k = true ->
  exists i v', intern_non_trivial v k x = Ret (i, v') /\ store n v' /\ at_ v' i (k, x).
Proof.
  intros (cap & ls & Hr & Hroom & Hc) Hk.
  assert (Hlaw : lawful k) by (by destruct k).
  destruct (entry_locate _ _ _ _ Hr Hlaw) as [He _]. unfold intern_non_trivial. rewrite He.
  destruct (sharded_map_spec _ _ _ k x Hr Hlaw) as [_ Hs]. unfold insert in Hs. rewrite He in Hs.
  destruct (locate ls k) as [[s p]|] eqn:Hl; simpl in Hs |- *.
  - destruct Hs as (_ & l & k' & old & m' & Hls & Hp & Hkk & Hins & Hr').
    apply exact_key_equiv in Hkk as ->; [|done].
    destruct (kv_at _ _ _ s p (k, old) Hr) as (Hkv & Hku & _); [unfold pair_at; by rewrite Hls|].
    rewrite Hku in Hins. simpl in Hins. unfold occupied_insert. rewrite Hkv. simpl.
    destruct (swap _ _ _ _) as [m1|]; [|done]. simpl in *. injection Hins as ->.
    assert (Hlen : (p < length l)%nat) by (by eapply lookup_lt_Some).
    exists (index_of s p), (mk m' (common v)). split; [done|]. split.
    + exists cap, (set_list ls s (<[p:=(k, x)]> l)). split_and!; [done| |].
      * apply Forall_insert; [eapply room_le; [|exact Hroom]; lia|].
        pose proof (Forall_lookup_1 _ _ _ _ Hroom Hls) as Hlong. simpl in Hlong. rewrite length_insert. lia.
      * eapply located_grows; [exact Hr'| |exact Hc]. apply (grows_set _ _ l); [done|].
        rewrite list_fmap_insert. simpl. rewrite list_insert_id; [done|]. by rewrite list_lookup_fmap, Hp.
    + exists cap, (set_list ls s (<[p:=(k, x)]> l)), s, p. split_and!; [done| |done]. unfold pair_at, set_list.
      rewrite list_lookup_insert_eq by (by eapply lookup_lt_Some). simpl. by rewrite list_lookup_insert_eq.
  - destruct Hs as (l & Hls & Hins & _). pose proof (Forall_lookup_1 _ _ _ _ Hroom Hls) as Hlen. simpl in Hlen.
    destruct Hins as (m' & _ & Hi & Hr'); [lia|].
    unfold vacant_insert. destruct (insert_by_ref _ _ _ _ _) as [[i1 m1]|]; simpl in *; [|done]. injection Hi as -> ->.
    eexists _, _. split; [done|]. split; [|exact (proj2 (extends_snoc _ _ _ _ _ _ _ Hr Hls Hr'))].
    exists cap, (set_list ls (shard_of (length ls) k) (l ++ [(k, x)])). split_and!; [done|by eapply room_snoc|].
    eapply located_grows; [exact Hr'|by apply grows_snoc|exact Hc].
Qed.

(** ** The common values *)

Lemma common_at n v (j : nat) i k :
  store n v -> common_list (common v) !! j = Some i -> common_keys !! j = Some k -> exists x, at_ v i (k, x).
Proof.
  intros (cap & ls & Hr & _ & Hl) Hi Hk.
  destruct (Forall2_lookup_lr _ _ _ _ _ _ Hl Hi Hk) as (s & p & Hloc & ->).
  destruct (located_at _ _ _ _ _ _ Hr Hloc) as ([k' x] & Hat & He). exists x. simpl in He.
  assert (exact_key k = true) as Hex.
  { assert (Hall : Forall (fun k => exact_key k = true) common_keys) by (by repeat constructor).
    exact (Forall_lookup_1 _ _ _ _ Hall Hk). }
  by rewrite (exact_key_equiv _ _ Hex He) in Hat.
Qed.

(** A new store. *)
Lemma new_store c a (n : nat) :
  shard_count_ok c -> arena_with_capacity 8192 = Ret a -> 8192 <= arena_max -> Z.of_nat n <= 8166 ->
  exists v, ValueStore.new (Z.of_nat c) = Ret v /\ store n v.
Proof.
  intros Hc Ha Hmax Hn. destruct (map_new_total c 8192 a Hc Ha) as [m0 Hm0].
  assert (Hr0 : repr m0 8192 (replicate c [])) by (apply new_repr; [done|done|lia|done]).
  destruct (intern_all_ok m0 8192 (replicate c []) common_keys n Hr0) as (ids & m1 & ls1 & Hi & Hr1 & _ & Hl1 & Hroom).
  { by repeat constructor. }
  { apply Forall_replicate. change (length common_keys) with 26%nat. cbn [length]. lia. }
  exists (ValueStore.mk m1 (common_of ids)). split; [unfold ValueStore.new; rewrite Hm0; cbn [mbind res_bind]; by rewrite Hi|].
  exists 8192, ls1. simpl. split_and!; [done|done|]. rewrite common_list_of by (by eapply Forall2_length). done.
Qed.

(** The type of the value at an index, from its key. *)
Definition key_type (c : CommonValues) (k : Key) : option Z :=
  match k with
  | KType _ => Some (type_t c)
  | KPtr ptr => Some (ptr_ty ptr)
  | KFn f => Some (fn_ty f)
  | KInt ty _ | KFloat ty _ | KStr ty _ | KSlice ty _ _ | KEnumTag ty _ | KUndefined ty
  | KAggregate ty _ | KUnion ty _ _ => Some ty
  | KBool _ => Some (bool_t c)
  | KFnDecl decl => Some (fd_ty decl)
  | KVoid => Some (void_t c)
  | KUnreachable => Some (never_t c)
  | KEnumLiteral _ => Some (enum_literal_t c)
  | KNullPtr => Some (nullptr_t c)
  | KDeclRef _ => None
  end.

Lemma type_of_interned_at v i k x ty :
  at_ v i (k, x) -> key_type (common v) k = Some ty -> type_of_interned v i = Ret ty.
Proof.
  intros Hat Hty. destruct (at_kv _ _ _ Hat) as (_ & Hk & _). unfold type_of_interned. rewrite Hk. simpl.
  destruct k; simpl in *; by simplify_eq.
Qed.

End Logic.
End StoreLogic.
