(* ===== verification/VtirSpec.v ===== *)
(** * The types of instructions

    [has_type v l r ty]: operand [r] has type [ty], by rules that do not
    compute.  When every instruction takes its type from operands that come
    before it, [type_of] computes that type, and the number of instructions is
    fuel enough. *)

From S2P Require Import Prelude Words Bytes Span HashIndex ShardedMap Anyint Value ValueStore.
From S2P Require Import StoreLogic Vuir Vtir.

#[local] Open Scope Z_scope.

Module VtirSpec.
Import Value ValueStore StoreLogic IrId Vtir.

Section Types.
Context `{FX : FxHasher} `{HL : HashTableLaws} {A : Type} `{AL : ArenaLaws A (Key * Value)}.
Implicit Types (v : ValueStore A) (l : list Opcode) (r : InstructionRef).

Inductive has_type v l : InstructionRef -> Z -> Prop :=
  | type_interned i k x ty (Hat : at_ v i (k, x)) (Hk : key_type (common v) k = Some ty) :
      has_type v l (Interned i) ty
  | type_is id op ty (Hop : l !! to_usize id = Some op) (Hs : type_source (common v) op = Is ty) :
      has_type v l (Instruction id) ty
  | type_same id op r ty (Hop : l !! to_usize id = Some op) (Hs : type_source (common v) op = Same r)
      (Hr : has_type v l r ty) : has_type v l (Instruction id) ty
  | type_pointee id op r pty p x (Hop : l !! to_usize id = Some op)
      (Hs : type_source (common v) op = Pointee r) (Hr : has_type v l r pty)
      (Hp : at_ v pty (KType (TPtr p), x)) : has_type v l (Instruction id) (ptr_pointee_ty p)
  | type_returned id op r fty f x (Hop : l !! to_usize id = Some op)
      (Hs : type_source (common v) op = Returned r) (Hr : has_type v l r fty)
      (Hf : at_ v fty (KType (Fn f), x)) : has_type v l (Instruction id) (ret_ty f).

(** The operand that an instruction takes its type from. *)
Definition source_operand (s : TypeSource) : option InstructionRef :=
  match s with Same r | Pointee r | Returned r => Some r | Is _ | Nothing => None end.

(** [r] is a value or one of the first [n] instructions. *)
Definition before (n : nat) r : Prop :=
  match r with Instruction id => (to_usize id < n)%nat | Interned _ => True end.

Definition ordered (c : CommonValues) l : Prop :=
  forall n op r, l !! n = Some op -> source_operand (type_source c op) = Some r -> before n r.

Definition fuel_for r : nat := match r with Instruction id => S (S (to_usize id)) | Interned _ => 1 end.

Lemma before_fuel n r fuel : before n r -> (S n < S fuel)%nat -> (fuel_for r <= fuel)%nat.
Proof. destruct r; simpl; lia. Qed.

Lemma type_of_fuel v l r ty fuel :
  ordered (common v) l -> has_type v l r ty -> (fuel_for r <= fuel)%nat -> type_of fuel v l r = Ret ty.
Proof.
  intros Ho Ht. revert fuel.
  induction Ht as [i k x ty Hat Hk|id op ty Hop Hs|id op r ty Hop Hs Hr IH|id op r pty p x Hop Hs Hr IH Hp
                   |id op r fty f x Hop Hs Hr IH Hf];
    intros [|fuel] Hfuel; simpl in Hfuel; try lia; cbn [type_of].
  - by eapply type_of_interned_at.
  - unfold get_idx. rewrite Hop. cbn [mbind res_bind]. by rewrite Hs.
  - unfold get_idx. rewrite Hop. cbn [mbind res_bind]. rewrite Hs. apply IH.
    eapply before_fuel; [by eapply Ho; [|rewrite Hs]|lia].
  - unfold get_idx. rewrite Hop. cbn [mbind res_bind]. rewrite Hs, IH.
    2:{ eapply before_fuel; [by eapply Ho; [|rewrite Hs]|lia]. }
    destruct (at_kv _ _ _ Hp) as (_ & Hk & _). cbn [mbind res_bind]. by rewrite Hk.
  - unfold get_idx. rewrite Hop. cbn [mbind res_bind]. rewrite Hs, IH.
    2:{ eapply before_fuel; [by eapply Ho; [|rewrite Hs]|lia]. }
    destruct (at_kv _ _ _ Hf) as (_ & Hk & _). cbn [mbind res_bind]. by rewrite Hk.
Qed.

(** An operand that has a type is a value or one of the instructions. *)
Lemma has_type_bound v l r ty : has_type v l r ty -> (fuel_for r <= S (length l))%nat.
Proof.
  intros []; simpl; try lia; match goal with H : l !! _ = Some _ |- _ => apply lookup_lt_Some in H end; lia.
Qed.

Lemma type_of_has_type v l r ty :
  ordered (common v) l -> has_type v l r ty -> type_of (S (length l)) v l r = Ret ty.
Proof. intros Ho Ht. eapply type_of_fuel; [done..|]. by eapply has_type_bound. Qed.

Lemma has_type_fun v l r ty ty' : ordered (common v) l -> has_type v l r ty -> has_type v l r ty' -> ty = ty'.
Proof. intros Ho H1%type_of_has_type H2%type_of_has_type; [|done..]. congruence. Qed.

(** Types stay when values are interned and instructions appended. *)
Lemma has_type_grows v v' l l' r ty :
  extends v v' -> l `prefix_of` l' -> has_type v l r ty -> has_type v' l' r ty.
Proof.
  intros [Hc Hx] Hp Ht.
  induction Ht as [i k x ty Hat Hk|id op ty Hop Hs|id op r ty Hop Hs Hr IH|id op r pty p x Hop Hs Hr IH Hpt
                   |id op r fty f x Hop Hs Hr IH Hf];
    try (eapply prefix_lookup_Some in Hop; [|done]); rewrite <- Hc in *.
  - eapply type_interned; [by apply Hx|done].
  - by eapply type_is.
  - by eapply type_same.
  - eapply type_pointee; [done|done|done|by apply Hx].
  - eapply type_returned; [done|done|done|by apply Hx].
Qed.

Lemma before_le n n' r : (n <= n')%nat -> before n r -> before n' r.
Proof. destruct r; simpl; [lia|done]. Qed.

Lemma ordered_snoc c l op :
  ordered c l -> (forall r, source_operand (type_source c op) = Some r -> before (length l) r) ->
  ordered c (l ++ [op]).
Proof.
  intros Ho Hop n op' r Hn Hr. apply lookup_app_Some in Hn as [Hn|[Hle Hn]]; [by eapply Ho|].
  apply list_lookup_singleton_Some in Hn as [Hn <-]. replace n with (length l) by lia. by apply Hop.
Qed.

(** A typed operand is a value or one of the instructions. *)
Lemma has_type_before v l r ty : has_type v l r ty -> before (length l) r.
Proof. intros Ht%has_type_bound. destruct r as [id|]; simpl in *; [lia|done]. Qed.

(** The type of an operand.  When every instruction takes its type from
    operands before it, [type_of] terminates and computes exactly the type of the
    typing rules, and what it computes stays the same when values are interned and
    instructions are appended. *)
Theorem type_of_computes v l r ty :
  ordered (common v) l ->
  (has_type v l r ty -> type_of (S (length l)) v l r = Ret ty) /\
  (has_type v l r ty -> forall v' l', extends v v' -> l `prefix_of` l' -> ordered (common v') l' ->
     type_of (S (length l')) v' l' r = Ret ty).
Proof.
  intros Ho. split; [by apply type_of_has_type|]. intros Ht v' l' Hx Hp Ho'. apply type_of_has_type; [done|].
  by eapply has_type_grows.
Qed.

End Types.
End VtirSpec.
