(* ===== verification/Float128.v ===== *)
(** * Binary128 arithmetic (the [f128] of Rust that [Anyfloat] of [src/value.rs] wraps)

    A float is its 128 bits.  Decoding gives the [spec_float] of the Standard
    Library, whose operations are those of IEEE 754 with rounding to nearest,
    ties to even; encoding gives the bits back.  Rust leaves the bits of a
    [NaN] result open: here they are those of the quiet [NaN] without payload.

    [FloatText] is [f64::from_str] of the standard library, with which the
    lowering of float literals ([src/ir/vuir/from_ast.rs]) parses them before it
    widens the result.  The parser accepts an optional sign, digits with an
    optional point, an optional exponent, and the names of infinity and [NaN]; the
    value is the decimal number rounded to nearest, ties to even. *)

From S2P Require Import Prelude Words Bytes Value.
From Stdlib Require Import SpecFloat.

#[local] Open Scope Z_scope.

Module Float128.
Import Value.

(** Precision and maximal exponent of the formats. *)
Definition prec : Z := 113.
Definition emax : Z := 16384.

Definition bits_nan : Z := 2^127 - 2^111.
Definition sign_bit (s : bool) : Z := if s then 2^127 else 0.

Definition decode (bits : Z) : spec_float :=
  let s := Z.testbit bits 127 in
  let e := (bits / 2^112) mod 2^15 in
  let m := bits mod 2^112 in
  if e =? 32767 then (if m =? 0 then S754_infinity s else S754_nan)
  else if e =? 0 then (if m =? 0 then S754_zero s else S754_finite s (Z.to_pos m) (-16494))
  else S754_finite s (Z.to_pos (2^112 + m)) (e - 16495).

Definition encode (x : spec_float) : Z :=
  match x with
  | S754_zero s => sign_bit s
  | S754_infinity s => sign_bit s + 32767 * 2^112
  | S754_nan => bits_nan
  | S754_finite s m e =>
      if Zpos m <? 2^112 then sign_bit s + Zpos m
      else sign_bit s + (e + 16495) * 2^112 + (Zpos m - 2^112)
  end.

Definition lift2 (op : spec_float -> spec_float -> spec_float) (x y : Z) : Z :=
  encode (op (decode x) (decode y)).

Definition add : Z -> Z -> Z := lift2 (SFadd prec emax).
Definition sub : Z -> Z -> Z := lift2 (SFsub prec emax).
Definition mul : Z -> Z -> Z := lift2 (SFmul prec emax).
Definition div : Z -> Z -> Z := lift2 (SFdiv prec emax).

Definition lt (x y : Z) : bool := SFltb (decode x) (decode y).
Definition le (x y : Z) : bool := SFleb (decode x) (decode y).
Definition eq (x y : Z) : bool := SFeqb (decode x) (decode y).

(** [x as f16], [x as f32] and [x as f64], seen as [f128] again: rounding to a
    format that [f128] contains. *)
Definition round_to (p e : Z) (x : spec_float) : spec_float :=
  match x with
  | S754_finite s m ex => binary_normalize p e (cond_Zopp s (Zpos m)) ex s
  | _ => x
  end.
Definition as_f (p e : Z) (x : Z) : Z := encode (round_to prec emax (round_to p e (decode x))).

Definition as_f16 : Z -> Z := as_f 11 16.
Definition as_f32 : Z -> Z := as_f 24 128.
Definition as_f64 : Z -> Z := as_f 53 1024.

(** [f16::MAX as f128] and its likes. *)
Definition max_of (p e : Z) : Z := encode (binary_normalize prec emax (2^p - 1) (e - p) false).
Definition f16_max : Z := max_of 11 16.
Definition f32_max : Z := max_of 24 128.
Definition f64_max : Z := max_of 53 1024.
Definition f128_max : Z := max_of 113 16384.

(** A bit pattern that is not a [NaN] decodes to a value that encodes to it. *)
Lemma encode_decode x : 0 <= x < 2^128 -> f128_is_nan x = false -> encode (decode x) = x.
Proof.
  intros Hx Hn. unfold f128_is_nan in Hn. apply Z.ltb_ge in Hn.
  assert (Hsplit : x = sign_bit (Z.testbit x 127) + x mod 2^127).
  { pose proof (Z.div_mod x (2^127)) as Hdm.
    assert (Hq : 0 <= x / 2^127 < 2) by (split; [apply Z.div_pos; lia|apply Z.div_lt_upper_bound; lia]).
    rewrite Z.testbit_odd, Z.shiftr_div_pow2 by lia. unfold sign_bit.
    assert (x / 2^127 = 0 \/ x / 2^127 = 1) as [Hq0|Hq0] by lia; rewrite Hq0 in *; simpl; lia. }
  assert (Hem : x mod 2^127 = ((x / 2^112) mod 2^15) * 2^112 + x mod 2^112).
  { pose proof (Z.rem_mul_r x (2^112) (2^15)) as Hr. change (2^112 * 2^15) with (2^127) in Hr. lia. }
  pose proof (Z.mod_pos_bound x (2^112)). pose proof (Z.mod_pos_bound (x / 2^112) (2^15)).
  unfold decode. set (e := (x / 2^112) mod 2^15) in *. set (m := x mod 2^112) in *.
  set (s := Z.testbit x 127) in *.
  destruct (Z.eqb_spec e 32767) as [He|He].
  { assert (m = 0) as Hm by lia. rewrite Hm. simpl. lia. }
  destruct (Z.eqb_spec e 0) as [He0|He0].
  - destruct (Z.eqb_spec m 0) as [Hm|Hm]; [simpl; lia|].
    unfold encode. rewrite Z2Pos.id by lia. rewrite (proj2 (Z.ltb_lt _ _)) by lia. lia.
  - unfold encode. rewrite Z2Pos.id by lia. rewrite (proj2 (Z.ltb_ge _ _)) by lia. lia.
Qed.

End Float128.

Module FloatText.

(** The digits at the front of a text, as a number and its length. *)
Fixpoint digits (s : list Z) (acc : Z) : Z * nat * list Z :=
  match s with
  | c :: s' =>
      if is_ascii_digit c then
        let '(v, n, rest) := digits s' (acc * 10 + (c - 48)) in (v, S n, rest)
      else (acc, O, s)
  | [] => (acc, O, [])
  end.

(** [parse_scientific]: what follows the [e]. *)
Definition exponent (s : list Z) : option Z :=
  let '(neg, s) :=
    match s with
    | c :: s' => if c =? byte "-" then (true, s') else if c =? byte "+" then (false, s') else (false, s)
    | [] => (false, s)
    end in
  match digits s 0 with
  | (_, O, _) => None
  | (v, _, []) => Some (if neg then - v else v)
  | _ => None
  end.

(** The mantissa and the power of ten of a number without sign. *)
Definition number (s : list Z) : option (Z * Z) :=
  let '(v, n, s) := digits s 0 in
  let '(v, m, s) :=
    match s with
    | c :: s' => if c =? byte "." then digits s' v else (v, O, s)
    | [] => (v, O, s)
    end in
  if (n + m =? 0)%nat then None
  else
    match s with
    | [] => Some (v, - Z.of_nat m)
    | c :: s =>
        if (c =? byte "e") || (c =? byte "E") then
          e ← exponent s; Some (v, e - Z.of_nat m)
        else None
    end.

Definition lowercase (c : Z) : Z := if (65 <=? c) && (c <=? 90) then c + 32 else c.
Definition special (neg : bool) (s : list Z) : option spec_float :=
  let s := map lowercase s in
  if bool_decide (s = bytes_of "nan") then Some S754_nan
  else if bool_decide (s = bytes_of "inf" \/ s = bytes_of "infinity") then Some (S754_infinity neg)
  else None.

(** [m * 10^e] rounded to an [f64]. *)
Definition of_decimal (neg : bool) (m e : Z) : spec_float :=
  match m with
  | Zpos p =>
      if 0 <=? e then binary_normalize 53 1024 (cond_Zopp neg (m * 10^e)) 0 neg
      else SFdiv 53 1024 (S754_finite neg p 0) (S754_finite false (Z.to_pos (10^(- e))) 0)
  | _ => S754_zero neg
  end.

Definition parse_f64 (s : list Z) : option spec_float :=
  let '(neg, s) :=
    match s with
    | c :: s' => if c =? byte "-" then (true, s') else if c =? byte "+" then (false, s') else (false, s)
    | [] => (false, s)
    end in
  match number s with
  | Some (m, e) => Some (of_decimal neg m e)
  | None => special neg s
  end.

(** [symbol.parse::<f64>().unwrap() as f128]. *)
Definition parse_f64_as_f128 (symbol : list Z) : res Z :=
  match parse_f64 symbol with
  | Some x => Ret (Float128.encode (Float128.round_to Float128.prec Float128.emax x))
  | None => panic
  end.

(** 1.5, and the [f64] nearest to 0.1. *)
Example parse_three_halves : parse_f64_as_f128 (bytes_of "1.5") = Ret (2^126 - 2^112 + 2^111).
Proof. vm_compute. reflexivity. Qed.
Example parse_tenth : parse_f64 (bytes_of "1e-1") = Some (S754_finite false 7205759403792794 (-56)).
Proof. vm_compute. reflexivity. Qed.

(** The lexer lets underscores into a float literal, the parser does not. *)
Lemma parse_underscore : parse_f64_as_f128 (bytes_of "1_0.5") = panic.
Proof. vm_compute. reflexivity. Qed.

End FloatText.
