(* ===== verification/SemaState.v ===== *)
(** * The state of the semantic analysis ([src/compile_unit/sema.rs])

    [Sema] turns the untyped instructions of a body into typed ones.  Here are
    its state (with the part of the [CompilationUnit] it works on), the monad its
    functions run in, and the functions that all of them use: emitting an
    instruction, the stack of blocks, errors, and what an operand is.

    A function [fn f(&mut self) -> T] is an [M T]; one that returns
    [Result<T, AnalyzeError>] an [M (Result T)], whose [?] is the notation
    [x ←? m; k].  A bump-allocated slice is a list.  The state shared with other
    threads through the compilation unit (values, declarations, namespaces,
    errors, jobs) is part of the state; what other workers do to it while this one
    waits is the class [Workers] of [SemaAccess].  The
    hash maps whose iteration order shows ([linear_slots]) are finite maps, in
    their order. *)

From S2P Require Import Prelude Words Bytes Span Token Diagnostic Ast HashIndex ShardedMap.
From S2P Require Import Anyint Value ValueStore ValueLayout Vuir Vtir.
From stdpp Require Import gmap pretty.

#[local] Open Scope Z_scope.

Declare Scope sema_scope.
Delimit Scope sema_scope with sema.

(** What the analysis is parametrised by: the hasher, the hash table and the
    arena of the value store, the insertion of the [sorted_insert] crate, the fuel
    of recursive queries, and the texts whose format Rust leaves unspecified
    (derived [Debug], [Display] of the unstable [f128]). *)
Class Setting := {
  st_hasher :: Value.FxHasher;
  st_table :: HashTable;
  st_arena : Type;
  st_ops :: ArenaOps st_arena (Value.Key * ValueStore.Value);
  st_insert :: SortedInsert;
  query_fuel : nat;
  debug_index : Z -> list Z;
  debug_key : Value.Key -> list Z;
  debug_key_value : Value.Key * ValueStore.Value -> list Z;
  display_f128 : Z -> list Z;
}.

Module Sema.
Import Value ValueStore IrId.

Abbreviation Store := (ValueStore.ValueStore st_arena).

#[export] Instance InstructionRef_countable : Countable InstructionRef.
Proof.
  refine (inj_countable' (fun r => match r with Instruction i => inl i | Interned v => inr v end)
    (fun s => match s with inl i => Instruction i | inr v => Interned v end) _).
  by intros [].
Defined.

(** ** Data *)

Inductive AnalyzeError : Set :=
  | AnalysisFailed
  | ComptimeBreak (block : InstructionId) (value : InstructionRef)
  | InlineReturn (value : option InstructionRef).

Module ControlFlow.
Inductive ControlFlow : Set := Always | May | Never.

Definition join (self b : ControlFlow) : ControlFlow :=
  match self, b with
  | Always, Always => Always
  | Never, Never => Never
  | _, _ => May
  end.
End ControlFlow.
Abbreviation ControlFlow := ControlFlow.ControlFlow.

#[export] Instance ControlFlow_eq_dec : EqDecision ControlFlow.
Proof. solve_decision. Defined.

Record DeclFnParam : Set :=
  { param_name : list Z; param_ty : Z; vuir_id : InstructionId; comptime_param : bool; param_span : Span.Span }.

Record VuirBlockAnalysisData : Set := { block_inst : InstructionRef; breaks : list InstructionRef }.

Record RuntimeCaptureEnv : Set :=
  { env_ptr : InstructionRef; env_ty : Z; env_fields : list (GlobalVuirInstructionId * nat) }.

Record Block : Set := mk_block {
  namespace : nat;
  parent : option nat;
  block_instructions : list InstructionRef;
  vuir_block : option VuirBlockAnalysisData;
  comptime : bool;
  inlined : bool;
  base_type_name : list Z;
  decl_fn_params : list DeclFnParam;
  runtime_env : option RuntimeCaptureEnv;
}.

(** [ComptimeAllocValue::Interned] is the only variant. *)
Record ComptimeAlloc : Set := { alloc_ty : Z; alloc_value : Z; alloc_span : Span.Span }.

Record LinearSlot : Set := mk_slot {
  slot_ty : Z;
  slot_span : Span.Span;
  consumed : bool;
  consumed_at : option Span.Span;
  slot_name : list Z;
}.

(** [Decl], [Namespace] and [ResolvedTargetInfo] of [compile_unit.rs]. *)
Inductive DeclAnalysisState : Set :=
  | Unanalysed (module : Z) (vuir_id : InstructionId)
  | Failed (e : AnalyzeError)
  | TypeKnown (ty : Z)
  | Analysed (value : Z).

Record Decl : Set := {
  decl_name : list Z;
  full_qualified_name : list Z;
  decl_is_const : bool;
  decl_module : Z;
  decl_namespace : nat;
  analysis_state : DeclAnalysisState;
}.

Record Namespace : Set :=
  { ns_parent : option nat; ns_decls : gmap (list Z) nat; owner_type : Z }.

(** [Module] and its analysis state ([compile_unit/module.rs]); the text and the
    diagnostics of a module are not read by the analysis. *)
Module ModuleAnalyzeState.
Inductive ModuleAnalyzeState : Set := Pending | InProgress | Done (value : Z) | Failed.
End ModuleAnalyzeState.

Record Module_ : Set := mk_module {
  path : list Z;
  module_vuir : option (list Vuir.Opcode);
  module_namespace : option nat;
  sema_state : ModuleAnalyzeState.ModuleAnalyzeState;
}.

(** The modules the compiler knows of before it reads any. *)
Record KnownModules : Set := {
  root_module : Z;
  std_module : Z;
  builtin_module : Z;
  builtin_prelude_module : Z;
  std_rt_module : Z;
}.

(** Units of analysis and their jobs. *)
Module SemaUnit.
Inductive SemaUnit : Set := DeclValue (decl : nat) | RuntimeFunc (fun_ : Z).
End SemaUnit.
Inductive SemaJobState : Set := Queued | JobDone.

#[export] Instance SemaUnit_eq_dec : EqDecision SemaUnit.SemaUnit.
Proof. solve_decision. Defined.
#[export] Instance SemaUnit_countable : Countable SemaUnit.SemaUnit.
Proof.
  refine (inj_countable' (fun u => match u with SemaUnit.DeclValue d => inl d | SemaUnit.RuntimeFunc f => inr f end)
    (fun s => match s with inl d => SemaUnit.DeclValue d | inr f => SemaUnit.RuntimeFunc f end) _).
  by intros [].
Defined.

(** A closure handed to [rayon::spawn_fifo]: the analysis of a unit, that of the
    [main] function of the run-time module, or that of a module. *)
Module Job.
Inductive Job : Set :=
  | AnalyzeUnit (u : SemaUnit.SemaUnit)
  | AnalyzeMain (main_decl_id : nat)
  | AnalyzeModule (module : Z).
End Job.

(** The typed body of a function ([ir/vtir.rs]). *)
Record Body : Set := { body_instructions : list Vtir.Opcode; main_body : list InstructionRef }.

Section State.
Context `{!Setting}.

(** The part of [CompilationUnit] the analysis works on.  [spawned] are the jobs
    handed to [rayon::spawn_fifo] that have not started.  The sharded map
    [type_to_type_info_id] is a finite map. *)
Record Cu := mk_cu {
  values : Store;
  target : ValueLayout.ResolvedTargetInfo;
  decls : list Decl;
  namespaces : list Namespace;
  sema_errors : gmap Z (list Diagnostic.Diagnostic);
  known : KnownModules;
  modules : list Module_;
  module_path_to_id : gmap (list Z) Z;
  sema_jobs : gmap SemaUnit.SemaUnit SemaJobState;
  spawned : list Job.Job;
  codegen_tasks : list (Z * Body);
  type_to_type_info_id : gmap Z Z;
  type_info_entries : list Z;
}.

Record Sema := mk {
  cu : Cu;
  vuir : list Vuir.Opcode;
  module : Z;
  owner_decl : nat;
  fun_ : option Z;
  instructions : list Vtir.Opcode;
  vuir_map : gmap Z InstructionRef;
  pending_inferred_alloc_to_ty : gmap InstructionRef (option Z);
  blocks : list Block;
  potential_comptime_allocs : gmap InstructionRef (list (InstructionRef * Span.Span));
  comptime_allocs : list ComptimeAlloc;
  linear_slots : gmap InstructionRef LinearSlot;
}.

(** [Sema::new]. *)
Definition new (cu : Cu) (vuir : list Vuir.Opcode) (module : Z) (owner_decl : nat) (fun_ : option Z) : Sema :=
  mk cu vuir module owner_decl fun_ [] ∅ ∅ [] ∅ [] ∅.

Definition set_values (v : _) (self : Cu) : Cu :=
  mk_cu v (target self) (decls self) (namespaces self) (sema_errors self) (known self) (modules self) (module_path_to_id self) (sema_jobs self) (spawned self) (codegen_tasks self) (type_to_type_info_id self) (type_info_entries self).
Definition set_decls (v : _) (self : Cu) : Cu :=
  mk_cu (values self) (target self) v (namespaces self) (sema_errors self) (known self) (modules self) (module_path_to_id self) (sema_jobs self) (spawned self) (codegen_tasks self) (type_to_type_info_id self) (type_info_entries self).
Definition set_namespaces (v : _) (self : Cu) : Cu :=
  mk_cu (values self) (target self) (decls self) v (sema_errors self) (known self) (modules self) (module_path_to_id self) (sema_jobs self) (spawned self) (codegen_tasks self) (type_to_type_info_id self) (type_info_entries self).
Definition set_sema_errors (v : _) (self : Cu) : Cu :=
  mk_cu (values self) (target self) (decls self) (namespaces self) v (known self) (modules self) (module_path_to_id self) (sema_jobs self) (spawned self) (codegen_tasks self) (type_to_type_info_id self) (type_info_entries self).
Definition set_modules (v : _) (self : Cu) : Cu :=
  mk_cu (values self) (target self) (decls self) (namespaces self) (sema_errors self) (known self) v (module_path_to_id self) (sema_jobs self) (spawned self) (codegen_tasks self) (type_to_type_info_id self) (type_info_entries self).
Definition set_sema_jobs (v : _) (self : Cu) : Cu :=
  mk_cu (values self) (target self) (decls self) (namespaces self) (sema_errors self) (known self) (modules self) (module_path_to_id self) v (spawned self) (codegen_tasks self) (type_to_type_info_id self) (type_info_entries self).
Definition set_spawned (v : _) (self : Cu) : Cu :=
  mk_cu (values self) (target self) (decls self) (namespaces self) (sema_errors self) (known self) (modules self) (module_path_to_id self) (sema_jobs self) v (codegen_tasks self) (type_to_type_info_id self) (type_info_entries self).
Definition set_codegen_tasks (v : _) (self : Cu) : Cu :=
  mk_cu (values self) (target self) (decls self) (namespaces self) (sema_errors self) (known self) (modules self) (module_path_to_id self) (sema_jobs self) (spawned self) v (type_to_type_info_id self) (type_info_entries self).
Definition set_type_to_type_info_id (v : _) (self : Cu) : Cu :=
  mk_cu (values self) (target self) (decls self) (namespaces self) (sema_errors self) (known self) (modules self) (module_path_to_id self) (sema_jobs self) (spawned self) (codegen_tasks self) v (type_info_entries self).
Definition set_type_info_entries (v : _) (self : Cu) : Cu :=
  mk_cu (values self) (target self) (decls self) (namespaces self) (sema_errors self) (known self) (modules self) (module_path_to_id self) (sema_jobs self) (spawned self) (codegen_tasks self) (type_to_type_info_id self) v.

Definition set_cu (v : _) (self : Sema) : Sema :=
  mk v (vuir self) (module self) (owner_decl self) (fun_ self) (instructions self) (vuir_map self) (pending_inferred_alloc_to_ty self) (blocks self) (potential_comptime_allocs self) (comptime_allocs self) (linear_slots self).
Definition set_vuir (v : _) (self : Sema) : Sema :=
  mk (cu self) v (module self) (owner_decl self) (fun_ self) (instructions self) (vuir_map self) (pending_inferred_alloc_to_ty self) (blocks self) (potential_comptime_allocs self) (comptime_allocs self) (linear_slots self).
Definition set_module (v : _) (self : Sema) : Sema :=
  mk (cu self) (vuir self) v (owner_decl self) (fun_ self) (instructions self) (vuir_map self) (pending_inferred_alloc_to_ty self) (blocks self) (potential_comptime_allocs self) (comptime_allocs self) (linear_slots self).
Definition set_fun (v : _) (self : Sema) : Sema :=
  mk (cu self) (vuir self) (module self) (owner_decl self) v (instructions self) (vuir_map self) (pending_inferred_alloc_to_ty self) (blocks self) (potential_comptime_allocs self) (comptime_allocs self) (linear_slots self).
Definition set_instructions (v : _) (self : Sema) : Sema :=
  mk (cu self) (vuir self) (module self) (owner_decl self) (fun_ self) v (vuir_map self) (pending_inferred_alloc_to_ty self) (blocks self) (potential_comptime_allocs self) (comptime_allocs self) (linear_slots self).
Definition set_vuir_map (v : _) (self : Sema) : Sema :=
  mk (cu self) (vuir self) (module self) (owner_decl self) (fun_ self) (instructions self) v (pending_inferred_alloc_to_ty self) (blocks self) (potential_comptime_allocs self) (comptime_allocs self) (linear_slots self).
Definition set_pending_inferred_alloc_to_ty (v : _) (self : Sema) : Sema :=
  mk (cu self) (vuir self) (module self) (owner_decl self) (fun_ self) (instructions self) (vuir_map self) v (blocks self) (potential_comptime_allocs self) (comptime_allocs self) (linear_slots self).
Definition set_blocks (v : _) (self : Sema) : Sema :=
  mk (cu self) (vuir self) (module self) (owner_decl self) (fun_ self) (instructions self) (vuir_map self) (pending_inferred_alloc_to_ty self) v (potential_comptime_allocs self) (comptime_allocs self) (linear_slots self).
Definition set_potential_comptime_allocs (v : _) (self : Sema) : Sema :=
  mk (cu self) (vuir self) (module self) (owner_decl self) (fun_ self) (instructions self) (vuir_map self) (pending_inferred_alloc_to_ty self) (blocks self) v (comptime_allocs self) (linear_slots self).
Definition set_comptime_allocs (v : _) (self : Sema) : Sema :=
  mk (cu self) (vuir self) (module self) (owner_decl self) (fun_ self) (instructions self) (vuir_map self) (pending_inferred_alloc_to_ty self) (blocks self) (potential_comptime_allocs self) v (linear_slots self).
Definition set_linear_slots (v : _) (self : Sema) : Sema :=
  mk (cu self) (vuir self) (module self) (owner_decl self) (fun_ self) (instructions self) (vuir_map self) (pending_inferred_alloc_to_ty self) (blocks self) (potential_comptime_allocs self) (comptime_allocs self) v.

(** ** The monad *)

Inductive Result (A : Type) : Type :=
  | Ok (a : A)
  | Err (e : AnalyzeError).
#[global] Arguments Ok {A} a.
#[global] Arguments Err {A} e.

Definition M (A : Type) : Type := Sema -> res (A * Sema).

#[export] Instance M_ret : MRet M := fun A a self => Ret (a, self).
#[export] Instance M_bind : MBind M := fun A B k m self =>
  '(a, self) ← m self; k a self.

Definition gets {A} (f : Sema -> A) : M A := fun self => Ret (f self, self).
Definition modify (f : Sema -> Sema) : M unit := fun self => Ret (tt, f self).
Definition modify_cu (f : Cu -> Cu) : M unit := modify (fun self => set_cu (f (cu self)) self).
(** Code that can fault and does not touch the state. *)
Definition lift {A} (r : res A) : M A := fun self => a ← r; Ret (a, self).
Definition unreachable {A} : M A := lift panic.

Definition ok {A} (a : A) : M (Result A) := mret (Ok a).
Definition fail {A} (e : AnalyzeError) : M (Result A) := mret (Err e).

(** [m?]. *)
Definition try_bind {A B} (k : A -> M (Result B)) (m : M (Result A)) : M (Result B) :=
  r ← m; match r with Ok a => k a | Err e => fail e end.

(** ** The value store *)

Definition query {A} (f : Store -> res A) : M A :=
  fun self => a ← f (values (cu self)); Ret (a, self).
Definition index_to_key (i : Z) : M Key := query (fun v => ValueStore.index_to_key v i).
Definition index_to_key_value (i : Z) : M (Key * Value) := query (fun v => ValueStore.index_to_key_value v i).
Definition index_to_value (i : Z) : M Value := query (fun v => ValueStore.index_to_value v i).
Definition common (f : CommonValues -> Z) : M Z := gets (fun self => f (ValueStore.common (values (cu self)))).

Definition update_values {A} (f : Store -> res (A * Store)) : M A := fun self =>
  '(a, v) ← f (values (cu self)); Ret (a, set_cu (set_values v (cu self)) self).
Definition intern_trivial (k : Key) : M Z := update_values (fun v => ValueStore.intern_trivial v k).
Definition intern_non_trivial (k : Key) (value : Value) : M Z :=
  update_values (fun v => ValueStore.intern_non_trivial v k value).
Definition intern_value_ptr (i : Z) : M Z := update_values (fun v => ValueStore.intern_value_ptr v i).
Definition intern_enum_tag_from_field_idx (ty i : Z) : M Z :=
  update_values (fun v => ValueStore.intern_enum_tag_from_field_idx v ty i).
Definition type_is_linear (ty : Z) : M bool := query (fun v => ValueStore.type_is_linear v ty).
Definition type_is_comptime_only (ty : Z) : M bool :=
  query (fun v => ValueStore.type_is_comptime_only query_fuel v ty).
Definition type_of_interned (i : Z) : M Z := query (fun v => ValueStore.type_of_interned v i).

(** [Display for DisplayIndex] of [value.rs]. *)
Definition decimal (n : Z) : list Z := bytes_of (pretty n).

Fixpoint display_index (fuel : nat) (v : Store) (index : Z) : res (list Z) :=
  match fuel with
  | O => diverge
  | S fuel =>
      '(key, value) ← ValueStore.index_to_key_value v index;
      match key with
      | KType ty =>
          match ty with
          | Type_ => Ret (bytes_of "type") | Anyptr => Ret (bytes_of "anyptr")
          | TAnyint => Ret (bytes_of "anyint") | TAnyfloat => Ret (bytes_of "anyfloat")
          | Usize => Ret (bytes_of "usize") | Isize => Ret (bytes_of "isize")
          | Void => Ret (bytes_of "void")
          | Int signed bits => Ret (bytes_of (if signed then "i" else "u") ++ decimal bits)
          | F16 => Ret (bytes_of "f16") | F32 => Ret (bytes_of "f32")
          | F64 => Ret (bytes_of "f64") | F128 => Ret (bytes_of "f128")
          | Bool => Ret (bytes_of "bool")
          | Struct _ => s ← as_struct_value value; Ret (struct_name s)
          | Enum _ => e ← as_enum_value value; Ret (enum_name e)
          | Union _ => u ← as_union value; Ret (union_name u)
          | TPtr ptr => s ← display_index fuel v (ptr_pointee_ty ptr); Ret (bytes_of "*" ++ s)
          | Slice slice => s ← display_index fuel v (slice_pointee_ty slice); Ret (bytes_of "[]" ++ s)
          | Array arr =>
              s ← display_index fuel v (elem_ty arr);
              Ret (bytes_of "[" ++ decimal (array_len arr) ++ bytes_of "]" ++ s)
          | Fn _ => Ret (bytes_of "fn") | NullPtr => Ret (bytes_of "nullptr")
          | Never => Ret (bytes_of "never") | EnumLiteral => Ret (bytes_of "enum_literal")
          | GenericPoison => Ret (bytes_of "generic_poison")
          end
      | _ => Ret (bytes_of "<value " ++ debug_key key ++ bytes_of ">")
      end
  end.
Definition display (index : Z) : M (list Z) := query (fun v => display_index query_fuel v index).

(** ** Errors *)

Definition diag_span (span : Span.Span) : M DiagSpan.DiagSpan :=
  gets (fun self => DiagSpan.mk (module self) span).

(** [errors.entry(self.module).or_default().push(diagnostic)]. *)
Definition push_error (diagnostic : Diagnostic.Diagnostic) : M unit :=
  modify (fun self =>
    let errors := sema_errors (cu self) in
    set_cu (set_sema_errors
      (<[module self := default [] (errors !! module self) ++ [diagnostic]]> errors) (cu self)) self).

(** A message at a primary label without text, the shape of most errors; and the
    same pushed on the way out of a function. *)
Definition error_with (message : list Z) (span : DiagSpan.DiagSpan) : Diagnostic.Diagnostic :=
  Diagnostic.with_label (Diagnostic.with_message Diagnostic.error message)
    (Label.with_span Label.primary span).
Definition push_error_at (message : list Z) (span : Span.Span) : M unit :=
  span ← diag_span span; push_error (error_with message span).
Definition fail_at {A} (message : list Z) (span : Span.Span) : M (Result A) :=
  push_error_at message span ;; fail AnalysisFailed.

Definition diag_field_not_found (field : list Z) (ty : Z) (span : Span.Span) : M unit :=
  ty ← display ty;
  push_error_at (bytes_of "field `" ++ field ++ bytes_of "` does not exist in type `" ++ ty ++ bytes_of "`") span.
Definition diag_decl_not_found (decl : list Z) (ty : Z) (span : Span.Span) : M unit :=
  ty ← display ty;
  push_error_at (bytes_of "declaration `" ++ decl ++ bytes_of "` does not exist in type `" ++ ty ++ bytes_of "`") span.
Definition diag_expected_type (expected found : Z) (span : DiagSpan.DiagSpan) : M unit :=
  expected ← display expected;
  found ← display found;
  push_error (error_with
    (bytes_of "expected type `" ++ expected ++ bytes_of "`, found `" ++ found ++ bytes_of "`") span).

(** ** Blocks and instructions *)

Definition block_at (block : nat) : M Block := b ← gets blocks; lift (get_idx b block).
Definition set_block (block : nat) (b : Block) : M unit :=
  l ← gets blocks; l ← lift (set_idx l block b); modify (set_blocks l).

Definition add_instructions (l : list InstructionRef) (b : Block) : Block :=
  mk_block (namespace b) (parent b) (block_instructions b ++ l) (vuir_block b) (comptime b) (inlined b)
    (base_type_name b) (decl_fn_params b) (runtime_env b).
Definition set_namespace (n : nat) (b : Block) : Block :=
  mk_block n (parent b) (block_instructions b) (vuir_block b) (comptime b) (inlined b)
    (base_type_name b) (decl_fn_params b) (runtime_env b).

(** The assertion on comptime blocks is [true || ...]: it never looks. *)
Definition inst_id (block : nat) (opcode : Vtir.Opcode) : M InstructionId :=
  l ← gets instructions;
  modify (set_instructions (l ++ [opcode])) ;;
  inst ← lift (from_usize (length l));
  b ← block_at block;
  set_block block (add_instructions [Instruction inst] b) ;;
  mret inst.
Definition inst (block : nat) (opcode : Vtir.Opcode) : M InstructionRef :=
  inst ← inst_id block opcode; mret (Instruction inst).

Definition push_block (b : Block) : M nat :=
  l ← gets blocks; modify (set_blocks (l ++ [b])) ;; mret (length l).

Definition child_block (parent : nat) : M nat :=
  p ← block_at parent;
  push_block (mk_block (namespace p) (Some parent) [] None false (inlined p) (base_type_name p) []
    (runtime_env p)).
Definition child_block_from_vuir_block (parent : nat) (vuir_block : VuirBlockAnalysisData) : M nat :=
  p ← block_at parent;
  push_block (mk_block (namespace p) (Some parent) [] (Some vuir_block) (comptime p) (inlined p)
    (base_type_name p) [] (runtime_env p)).

(** The block must be the last one: the assertion compares addresses. *)
Definition unstack_block (block : nat) : M Block :=
  b ← block_at block;
  l ← gets blocks;
  lift (assert_ (S block =? length l)%nat) ;;
  modify (set_blocks (take block l)) ;;
  mret b.

(** ** Operands *)

(** [type_of] of [vtir/opcodes.rs]; an operand precedes its user, so the number
    of instructions bounds the recursion. *)
Definition type_of (r : InstructionRef) : M Z := fun self =>
  ty ← Vtir.type_of (S (length (instructions self))) (values (cu self)) (instructions self) r;
  Ret (ty, self).

Definition resolve_inst (r : InstructionRef) : M InstructionRef :=
  match r with
  | Instruction id =>
      m ← gets vuir_map;
      match m !! id with Some r => mret r | None => unreachable end
  | Interned i => mret (Interned i)
  end.
Definition map_inst (id : InstructionId) (r : InstructionRef) : M unit :=
  m ← gets vuir_map; modify (set_vuir_map (<[id := r]> m)).

(** [try_resolve_comptime_value], which is [as_interned_opt]. *)
Definition try_resolve_comptime_value (r : InstructionRef) : option Z :=
  match r with Interned i => Some i | Instruction _ => None end.
(** [try_resolve_comptime_value(r).map(|v| index_to_key(v))]. *)
Definition comptime_key (r : InstructionRef) : M (option Key) :=
  match try_resolve_comptime_value r with
  | Some i => k ← index_to_key i; mret (Some k)
  | None => mret None
  end.

(** [for x in l { f(x)?; }], with and without the loop's results. *)
Fixpoint try_map {A B} (f : A -> M (Result B)) (l : list A) : M (Result (list B)) :=
  match l with
  | [] => ok []
  | a :: l => try_bind (fun b => try_bind (fun bs => ok (b :: bs)) (try_map f l)) (f a)
  end.

(** [with_different_block_namespace]. *)
Definition with_different_block_namespace {R} (block namespace_ : nat) (f : M R) : M R :=
  b ← block_at block;
  let old_namespace := namespace b in
  set_block block (set_namespace namespace_ b) ;;
  result ← f;
  b ← block_at block;
  set_block block (set_namespace old_namespace b) ;;
  mret result.

(** [with_different_vuir]. *)
Definition with_different_vuir {R} (other : list Vuir.Opcode) (other_mod : Z) (f : M R) : M R :=
  old_vuir ← gets vuir;
  old_module_id ← gets module;
  modify (set_vuir other) ;;
  modify (set_module other_mod) ;;
  result ← f;
  modify (set_vuir old_vuir) ;;
  modify (set_module old_module_id) ;;
  mret result.

End State.
#[global] Arguments M {_} A.
End Sema.

Notation "x ←? m ; k" := (Sema.try_bind (fun x => k) m)
  (at level 20, m at level 100, k at level 200, only parsing) : sema_scope.
Notation "' pat ←? m ; k" := (Sema.try_bind (fun x => match x with pat => k end) m)
  (at level 20, pat pattern, m at level 100, k at level 200, only parsing) : sema_scope.
