(* ===== verification/SemaAccess.v ===== *)
(** * Loads, declarations and fields ([src/compile_unit/sema.rs])

    Loads with the tracking of linear values, the value of a declaration (with
    [get_or_analyze_decl_value] of [compile_unit.rs]), and the accesses to fields by
    value and by pointer. *)

From S2P Require Import Prelude Words Bytes Span Token Diagnostic Ast HashIndex ShardedMap.
From S2P Require Import Anyint Value ValueStore ValueLayout Vuir Vtir SemaState.
From stdpp Require Import gmap.

#[local] Open Scope Z_scope.
#[local] Open Scope sema_scope.

(** What the other workers do while one waits: they change the shared state. *)
Class Workers `{!Setting} := { yield_now : Sema.M unit }.

Module SemaAccess.
Import Value ValueStore IrId Sema.

Section Access.
Context `{!Setting, !Workers}.

(** ** Linear values *)

Definition moved_error (slot : LinearSlot) (span : Span.Span) : M Diagnostic.Diagnostic :=
  at_ ← diag_span span;
  decl_at ← diag_span (slot_span slot);
  let diag := error_with (bytes_of "use of moved linear value `" ++ slot_name slot ++ bytes_of "`") at_ in
  let diag := Diagnostic.with_label diag
    (Label.with_message (Label.with_span Label.secondary decl_at) (bytes_of "linear value declared here")) in
  match consumed_at slot with
  | Some c =>
      c ← diag_span c;
      mret (Diagnostic.with_label diag
        (Label.with_message (Label.with_span Label.secondary c) (bytes_of "value consumed here")))
  | None => mret diag
  end.

(** The block that [analyze_load] and [try_consume_linear_value] share: fail when
    the slot is consumed, else mark it. *)
Definition consume_slot (r : InstructionRef) (span : Span.Span) : M (Result unit) :=
  slots ← gets linear_slots;
  match slots !! r with
  | Some slot =>
      if consumed slot then
        diag ← moved_error slot span;
        push_error diag ;;
        fail AnalysisFailed
      else
        modify (set_linear_slots
          (<[r := mk_slot (slot_ty slot) (slot_span slot) true (Some span) (slot_name slot)]> slots)) ;;
        ok tt
  | None => ok tt
  end.

Definition register_linear_param (vtir_inst : InstructionRef) (name : list Z) (ty : Z) (span : Span.Span) : M unit :=
  slots ← gets linear_slots;
  modify (set_linear_slots (<[vtir_inst := mk_slot ty span false None name]> slots)).

Definition try_consume_linear_value (value : InstructionRef) (span : Span.Span) : M (Result unit) :=
  ty ← type_of value;
  linear ← type_is_linear ty;
  if linear : bool then consume_slot value span else ok tt.

(** ** Loads *)

Definition decl_at (decl : nat) : M Decl := l ← gets (fun self => decls (cu self)); lift (get_idx l decl).

Definition is_ptr_type (k : Key) : bool := match k with KType (TPtr _) => true | _ => false end.

(** The comptime pointer a load can be evaluated through: not one to a
    declaration that is mutable. *)
Definition loadable (src : InstructionRef) : M (option Z) :=
  match try_resolve_comptime_value src with
  | None => mret None
  | Some value =>
      key ← index_to_key value;
      match key with
      | KPtr {| ptr_kind := PtrDecl decl |} =>
          d ← decl_at (Z.to_nat decl);
          mret (if decl_is_const d then Some value else None)
      | _ => mret (Some value)
      end
  end.

(** What a comptime pointer points to. *)
Definition pointed_value (kind : PtrKind) : M Z :=
  match kind with
  | PtrValue value => mret value
  | PtrDecl decl =>
      d ← decl_at (Z.to_nat decl);
      match analysis_state d with Analysed value => mret value | _ => unreachable end
  | PtrComptimeAlloc alloc =>
      l ← gets comptime_allocs;
      a ← lift (get_idx l (Z.to_nat alloc));
      mret (alloc_value a)
  end.

Definition analyze_load (block : nat) (src : InstructionRef) (span : Span.Span) : M (Result InstructionRef) :=
  src_ty ← type_of src;
  key ← index_to_key src_ty;
  linear ← match key with
           | KType (TPtr ptr) => type_is_linear (ptr_pointee_ty ptr)
           | _ => mret false
           end;
  _ ←? (if linear : bool then consume_slot src span else ok tt);
  if negb (is_ptr_type key) then
    ty ← display src_ty;
    fail_at (bytes_of "load expected a ptr but found `" ++ ty ++ bytes_of "`") span
  else
    value ← loadable src;
    match value with
    | Some value =>
        key ← index_to_key value;
        ptr ← lift (as_ptr key);
        value ← pointed_value (ptr_kind ptr);
        ok (Interned value)
    | None => r ← inst block (Vtir.Load src); ok r
    end.

(** ** Declarations *)

(** The analysis state of a declaration, when it is settled. *)
Definition decl_result (decl_id : nat) : M (option (Result (option Z))) :=
  l ← gets (fun self => decls (cu self));
  mret (match l !! decl_id with
        | Some d =>
            match analysis_state d with
            | Analysed value => Some (Ok (Some value))
            | Failed err => Some (Err err)
            | Unanalysed _ _ | TypeKnown _ => None
            end
        | None => None
        end).

(** The loop that waits for the workers. *)
Fixpoint await_decl (fuel : nat) (decl_id : nat) : M (Result (option Z)) :=
  match fuel with
  | O => lift diverge
  | S fuel =>
      r ← decl_result decl_id;
      match r with
      | Some r => mret r
      | None => yield_now ;; await_decl fuel decl_id
      end
  end.

(** The job of a unit is spawned once. *)
Definition analyze_sema_unit_if_needed (u : SemaUnit.SemaUnit) : M unit :=
  jobs ← gets (fun self => sema_jobs (cu self));
  match jobs !! u with
  | Some _ => mret tt
  | None => modify_cu (fun cu => set_spawned (spawned cu ++ [Job.AnalyzeUnit u]) (set_sema_jobs (<[u := Queued]> jobs) cu))
  end.
Definition queue_runtime_function_analysis_if_needed (fun_ : Z) : M unit :=
  analyze_sema_unit_if_needed (SemaUnit.RuntimeFunc fun_).

Definition get_or_analyze_decl_value (decl_id : nat) : M (Result (option Z)) :=
  r ← decl_result decl_id;
  match r with
  | Some r => mret r
  | None => analyze_sema_unit_if_needed (SemaUnit.DeclValue decl_id) ;; await_decl query_fuel decl_id
  end.

(** [get_or_analyze_decl_value(decl)?.unwrap()]. *)
Definition decl_value (decl : nat) : M (Result Z) :=
  v ←? get_or_analyze_decl_value decl;
  match v with Some v => ok v | None => unreachable end.

(** [namespaces[namespace].decls.get(name)]. *)
Definition lookup_decl_in_namespace (namespace : nat) (name : list Z) : M (option nat) :=
  l ← gets (fun self => namespaces (cu self));
  ns ← lift (get_idx l namespace);
  mret (ns_decls ns !! name).

(** The parents of a namespace come before it, so the number of namespaces is
    enough fuel. *)
Fixpoint lookup_up (fuel : nat) (l : list Namespace) (namespace : nat) (name : list Z) : res (option nat) :=
  match fuel with
  | O => diverge
  | S fuel =>
      ns ← get_idx l namespace;
      match ns_decls ns !! name with
      | Some decl => Ret (Some decl)
      | None =>
          match ns_parent ns with
          | None => Ret None
          | Some parent => lookup_up fuel l parent name
          end
      end
  end.
Definition lookup_decl_in_namespace_recursively (namespace : nat) (name : list Z) : M (option nat) :=
  l ← gets (fun self => namespaces (cu self));
  lift (lookup_up (S (length l)) l namespace name).

(** A pointer type, and a pointer to a declaration. *)
Definition intern_ptr_type (pointee_ty : Z) (is_const : bool) : M Z :=
  intern_trivial (KType (TPtr {| ptr_pointee_ty := pointee_ty; ptr_packed := None; is_const := is_const |})).
Definition decl_ptr (decl : nat) (value : Z) : M Z :=
  d ← decl_at decl;
  pointee_ty ← type_of_interned value;
  ptr_ty ← intern_ptr_type pointee_ty (decl_is_const d);
  intern_trivial (KPtr {| ptr_ty := ptr_ty; ptr_kind := PtrDecl (Z.of_nat decl) |}).

Definition analyze_decl_ptr (block : nat) (decl : nat) (span : Span.Span) : M (Result InstructionRef) :=
  v ←? get_or_analyze_decl_value decl;
  match v with
  | None => fail AnalysisFailed
  | Some value => ptr ← decl_ptr decl value; ok (Interned ptr)
  end.

Definition analyze_decl_val (block : nat) (decl : nat) (span : Span.Span) : M (Result InstructionRef) :=
  ptr ←? analyze_decl_ptr block decl span;
  analyze_load block ptr span.

(** ** Fields *)

(** A declaration of a type's namespace as a value. *)
Definition decl_field (decl : nat) : M (Result InstructionRef) :=
  value ←? decl_value decl; ok (Interned value).

(** [T.field] for the type [lhs]. *)
Definition type_field_val (lhs : Z) (field : list Z) (field_span span : Span.Span) : M (Result InstructionRef) :=
  kv ← index_to_key_value lhs;
  match kv with
  | (KType (Struct _), VStruct s) =>
      decl ← lookup_decl_in_namespace (Z.to_nat (struct_namespace s)) field;
      match decl with
      | None => diag_decl_not_found field lhs field_span ;; fail AnalysisFailed
      | Some decl => decl_field decl
      end
  | (KType (Enum _), VEnum e) =>
      decl ← lookup_decl_in_namespace (Z.to_nat (enum_namespace e)) field;
      match decl with
      | Some decl => decl_field decl
      | None =>
          match enum_field_idx_by_name e field with
          | None => diag_field_not_found field lhs field_span ;; fail AnalysisFailed
          | Some field_idx =>
              f ← lift (get_idx (enum_fields e) field_idx);
              tag ← intern_trivial (KEnumTag lhs (ef_value f));
              ok (Interned tag)
          end
      end
  | (KType (Union _), VUnion u) =>
      match union_field_idx_by_name u field with
      | Some field_idx =>
          match union_tag_ty u with
          | Some tag_ty => tag ← intern_enum_tag_from_field_idx tag_ty field_idx; ok (Interned tag)
          | None => fail_at (bytes_of "cannot access field on a bare union as a value") span
          end
      | None =>
          decl ← lookup_decl_in_namespace (Z.to_nat (union_namespace u)) field;
          match decl with
          | Some decl => decl_field decl
          | None => diag_decl_not_found field lhs span ;; fail AnalysisFailed
          end
      end
  | _ => unreachable
  end.

Definition analyze_field_val (block : nat) (lhs : InstructionRef) (field : list Z) (field_span span : Span.Span)
    : M (Result InstructionRef) :=
  lhs_ty ← type_of lhs;
  key ← index_to_key lhs_ty;
  let '(lhs_pointee_ty, lhs_is_pointer_to) :=
    match key with KType (TPtr ptr) => (ptr_pointee_ty ptr, true) | _ => (lhs_ty, false) end in
  kv ← index_to_key_value lhs_pointee_ty;
  match kv with
  | (KType Type_, _) =>
      lhs ←? (if lhs_is_pointer_to then analyze_load block lhs span else ok lhs);
      lhs ← lift (as_interned lhs);
      type_field_val lhs field field_span span
  | (KType (Struct _), VStruct s) =>
      match struct_field_idx_by_name s field with
      | Some field_idx =>
          f ← lift (get_idx (struct_fields s) field_idx);
          lhs ←? (if lhs_is_pointer_to then analyze_load block lhs span else ok lhs);
          k ← comptime_key lhs;
          match k with
          | Some (KAggregate _ values) => v ← lift (get_idx values field_idx); ok (Interned v)
          | _ => r ← inst block (Vtir.StructFieldValue lhs field_idx (sf_ty f)); ok r
          end
      | None =>
          decl ← lookup_decl_in_namespace (Z.to_nat (struct_namespace s)) field;
          match decl with
          | Some decl => decl_field decl
          | None => diag_field_not_found field lhs_ty field_span ;; fail AnalysisFailed
          end
      end
  | (KType (TPtr ptr), _) =>
      let pointee_ty := ptr_pointee_ty ptr in
      value ← index_to_value pointee_ty;
      match value with
      | VStruct s =>
          match struct_field_idx_by_name s field with
          | Some field_idx =>
              loaded_struct ← inst block (Vtir.Load lhs);
              f ← lift (get_idx (struct_fields s) field_idx);
              r ← inst block (Vtir.StructFieldValue loaded_struct field_idx (sf_ty f));
              ok r
          | None =>
              decl ← lookup_decl_in_namespace (Z.to_nat (struct_namespace s)) field;
              match decl with
              | Some decl => decl_field decl
              | None => diag_field_not_found field pointee_ty field_span ;; fail AnalysisFailed
              end
          end
      | _ =>
          ty ← display pointee_ty;
          fail_at (bytes_of "type `" ++ ty ++ bytes_of "` doesn't have fields") span
      end
  | _ =>
      ty ← display lhs_ty;
      fail_at (bytes_of "type `" ++ ty ++ bytes_of "` doesn't have any field or declaration") span
  end.

(** A pointer to a value that was just computed. *)
Definition value_ptr (value : Z) : M (Result InstructionRef) :=
  p ← intern_value_ptr value; ok (Interned p).
Definition decl_field_ptr (decl : nat) : M (Result InstructionRef) :=
  value ←? decl_value decl; value_ptr value.

(** [&T.field] for the type [lhs]. *)
Definition type_field_ptr (lhs : Z) (field : list Z) (span : Span.Span) : M (Result InstructionRef) :=
  kv ← index_to_key_value lhs;
  match kv with
  | (KType (Struct _), VStruct s) =>
      decl ← lookup_decl_in_namespace (Z.to_nat (struct_namespace s)) field;
      match decl with
      | None => diag_decl_not_found field lhs span ;; fail AnalysisFailed
      | Some decl => value ←? decl_value decl; ptr ← decl_ptr decl value; ok (Interned ptr)
      end
  | (KType (Enum _), VEnum e) =>
      match enum_field_idx_by_name e field with
      | Some field_idx =>
          f ← lift (get_idx (enum_fields e) field_idx);
          tag ← intern_trivial (KEnumTag lhs (ef_value f));
          value_ptr tag
      | None =>
          decl ← lookup_decl_in_namespace (Z.to_nat (enum_namespace e)) field;
          match decl with
          | Some decl => decl_field_ptr decl
          | None => diag_decl_not_found field lhs span ;; fail AnalysisFailed
          end
      end
  | (KType (Union _), VUnion u) =>
      match union_field_idx_by_name u field with
      | Some field_idx =>
          match union_tag_ty u with
          | Some tag_ty => tag ← intern_enum_tag_from_field_idx tag_ty field_idx; value_ptr tag
          | None => fail_at (bytes_of "cannot access field on a bare union as a value") span
          end
      | None =>
          decl ← lookup_decl_in_namespace (Z.to_nat (union_namespace u)) field;
          match decl with
          | Some decl => decl_field_ptr decl
          | None => diag_decl_not_found field lhs span ;; fail AnalysisFailed
          end
      end
  | _ => unreachable
  end.

(** The aggregate that a comptime pointer points to. *)
Definition pointed_aggregate (r : InstructionRef) : M (option (list Z)) :=
  k ← comptime_key r;
  match k with
  | Some (KPtr {| ptr_kind := PtrValue struct_value |}) =>
      k ← index_to_key struct_value;
      mret (match k with KAggregate _ values => Some values | _ => None end)
  | _ => mret None
  end.

Definition analyze_field_ptr (block : nat) (lhs : InstructionRef) (field : list Z) (field_span span : Span.Span)
    : M (Result InstructionRef) :=
  lhs_ty ← type_of lhs;
  key ← index_to_key lhs_ty;
  match key with
  | KType (TPtr lhs_ptr_ty) =>
      pointee ← index_to_key (ptr_pointee_ty lhs_ptr_ty);
      let '(lhs_pointee_ty, lhs_is_ptr) :=
        match pointee with
        | KType (TPtr ptr) => (ptr_pointee_ty ptr, true)
        | _ => (ptr_pointee_ty lhs_ptr_ty, false)
        end in
      kv ← index_to_key_value lhs_pointee_ty;
      match kv with
      | (KType Type_, _) =>
          lhs ←? analyze_load block lhs span;
          lhs ←? (if lhs_is_ptr then analyze_load block lhs span else ok lhs);
          lhs ← lift (as_interned lhs);
          type_field_ptr lhs field span
      | (KType (Struct _), VStruct s) =>
          match struct_field_idx_by_name s field with
          | Some field_idx =>
              f ← lift (get_idx (struct_fields s) field_idx);
              ptr_to_field_ty ← intern_ptr_type (sf_ty f) (is_const lhs_ptr_ty);
              struct_ptr ←? (if lhs_is_ptr then analyze_load block lhs span else ok lhs);
              values ← pointed_aggregate struct_ptr;
              match values with
              | Some values => v ← lift (get_idx values field_idx); value_ptr v
              | None => r ← inst block (Vtir.StructFieldPtr struct_ptr field_idx ptr_to_field_ty); ok r
              end
          | None => diag_field_not_found field lhs_pointee_ty span ;; fail AnalysisFailed
          end
      | _ =>
          ty ← display lhs_pointee_ty;
          fail_at (bytes_of "type `" ++ ty ++ bytes_of "` doesn't have fields") span
      end
  | test =>
      lhs ← lift (as_interned lhs);
      lhs ← index_to_key_value lhs;
      ty ← display lhs_ty;
      fail_at (bytes_of "expected pointer, found `" ++ ty ++ bytes_of "` (" ++ debug_key_value lhs ++
               bytes_of ", " ++ debug_key test ++ bytes_of ")") span
  end.

End Access.
End SemaAccess.
