(* ===== verification/SemaFold.v ===== *)
(** * Coercions and the folding of operators ([src/compile_unit/sema.rs])

    An operator on compile-time values is computed on the values; on anything
    else it becomes a typed instruction.  Before that the operands are brought
    to one type by [coerce]. *)

From S2P Require Import Prelude Words Bytes Span Token Diagnostic Ast HashIndex ShardedMap.
From S2P Require Import Anyint Value ValueStore ValueLayout Vuir Vtir SemaState SemaAccess Float128.

#[local] Open Scope Z_scope.
#[local] Open Scope sema_scope.

(** Building the run-time type information of a type, which a coercion to
    [anyptr] asks for. *)
Class TypeInfo `{!Setting} := analyze_type_info : Z -> Sema.M (Sema.Result Z).

Module SemaFold.
Import Value ValueStore IrId Sema SemaAccess.

Section Fold.
Context `{!Setting, !Workers, !TypeInfo}.

(** ** Coercions *)

(** [x.0 as f16 as f128] and [f16::MAX as f128], for a destination type. *)
Definition float_dest (t : Ty) (x : Z) : option (Z * Z) :=
  match t with
  | F16 => Some (Float128.f16_max, Float128.as_f16 x)
  | F32 => Some (Float128.f32_max, Float128.as_f32 x)
  | F64 => Some (Float128.f64_max, Float128.as_f64 x)
  | F128 => Some (Float128.f128_max, x)
  | _ => None
  end.

(** The result of the block ['msg]: an instruction, or the message to report. *)
Definition Msg : Type := InstructionRef + list Z.

(** [anyint] to [usize] or [isize]. *)
Definition coerce_int_to_size (dst_ty : Z) (r : InstructionRef) : M Msg :=
  i ← lift (as_interned r);
  key ← index_to_key i;
  match key with
  | KInt _ value => i ← intern_trivial (KInt dst_ty value); mret (inl (Interned i))
  | _ => unreachable
  end.

(** [anyint] to an integer type. *)
Definition coerce_int_to_int (block : nat) (dst_ty : Z) (signed : bool) (bits : Z) (r : InstructionRef) : M Msg :=
  match try_resolve_comptime_value r with
  | Some _ =>
      i ← lift (as_interned r);
      key ← index_to_key i;
      match key with
      | KInt _ value =>
          fits ← lift (if signed then Anyint.fits_signed_bits value bits
                       else Ret (Anyint.fits_unsigned_bits value bits));
          if negb fits then
            value ← lift (Anyint.fmt value);
            ty ← display dst_ty;
            mret (inr (bytes_of "coercion failed: constant " ++ value ++ bytes_of " is too large to fit in a " ++ ty))
          else
            i ← intern_trivial (KInt dst_ty value); mret (inl (Interned i))
      | _ => unreachable
      end
  | None =>
      anyint ← common anyint_t;
      if dst_ty =? anyint then
        mret (inr (bytes_of "cannot coerce a comptime_int that does not have a comptime known value"))
      else
        r ← inst block (Vtir.UnsafeIntCast r dst_ty); mret (inl r)
  end.

(** [anyfloat] to a float type. *)
Definition coerce_float (dst_ty : Z) (dst : Ty) (r : InstructionRef) : M Msg :=
  i ← lift (as_interned r);
  key ← index_to_key i;
  match key with
  | KFloat _ value =>
      match float_dest dst (f128_bits value) with
      | None => unreachable
      | Some (dst_ty_max, converted_val) =>
          if Float128.lt dst_ty_max (f128_bits value) then
            ty ← display dst_ty;
            mret (inr (bytes_of "coercion failed: constant " ++ display_f128 (f128_bits value) ++
                       bytes_of " is too large to fit in a " ++ ty))
          else if negb (Float128.eq (f128_bits value) converted_val) then
            ty ← display dst_ty;
            mret (inr (bytes_of "coercion failed: constant " ++ display_f128 (f128_bits value) ++
                       bytes_of " loses precision when coerced to " ++ ty ++
                       bytes_of ", use a explicit cast or suffix"))
          else i ← intern_trivial (KFloat dst_ty value); mret (inl (Interned i))
      end
  | _ => unreachable
  end.

(** Pointers: same pointee, and mutable to const only. *)
Definition coerce_ptr (block : nat) (dst_ty : Z) (ptr_src ptr_dst : TypePtr) (r : InstructionRef) : M Msg :=
  if negb (ptr_pointee_ty ptr_src =? ptr_pointee_ty ptr_dst) then
    src ← display (ptr_pointee_ty ptr_src);
    dst ← display (ptr_pointee_ty ptr_dst);
    mret (inr (bytes_of "coercion failed: cannot coerce pointee type from `" ++ src ++ bytes_of "` to `" ++
               dst ++ bytes_of "`"))
  else if is_const ptr_src && negb (is_const ptr_dst) then
    mret (inr (bytes_of "coercion failed: cannot coerce from const pointer to mutable pointer"))
  else r ← inst block (Vtir.BitCast r dst_ty); mret (inl r).

(** The end of [coerce]: report the message. *)
Definition report (span : Span.Span) (m : Msg) : M (Result InstructionRef) :=
  match m with inl r => ok r | inr error_msg => fail_at error_msg span end.

(** [AnyptrInit], after the type information of the value's type is there. *)
Definition anyptr_init (block : nat) (value : InstructionRef) (value_ty : Z) : M (Result InstructionRef) :=
  _ ←? analyze_type_info value_ty;
  r ← inst block (Vtir.AnyptrInit value value_ty); ok r.

(** The type that [coerce] takes an operand to have: a type is its own. *)
Definition coerce_source (r : InstructionRef) : M Z :=
  match r with
  | Interned i => key ← index_to_key i; if is_type key then mret i else type_of r
  | Instruction _ => type_of r
  end.

Definition expected_type {A} (dst_ty inst_ty : Z) (span : Span.Span) : M (Result A) :=
  d ← display dst_ty;
  s ← display inst_ty;
  fail_at (bytes_of "expected type `" ++ d ++ bytes_of "`, found `" ++ s ++ bytes_of "`") span.

(** Any value that can exist at run time becomes an [anyptr]. *)
Definition coerce_anyptr (block : nat) (inst_ty : Z) (r : InstructionRef) (span : Span.Span)
    : M (Result InstructionRef) :=
  only ← type_is_comptime_only inst_ty;
  if only : bool then
    s ← display inst_ty;
    fail_at (bytes_of "cannot coerce comptime-only value of type `" ++ s ++ bytes_of "` to runtime `anyptr`") span
  else anyptr_init block r inst_ty.

(** A literal [.name] to an enum: the field of that name. *)
Definition coerce_enum_literal (block : nat) (dst_ty : Z) (r : InstructionRef) (span : Span.Span)
    : M (Result InstructionRef) :=
  i ← lift (as_interned r);
  key ← index_to_key i;
  match key with
  | KEnumLiteral enum_lit =>
      value ← index_to_value dst_ty;
      _ ← lift (as_enum_value value);
      analyze_field_val block (Interned dst_ty) enum_lit span span
  | _ => unreachable
  end.

Definition is_anyint (k : Key) : bool := match k with KType TAnyint => true | _ => false end.
Definition is_anyfloat (k : Key) : bool := match k with KType TAnyfloat => true | _ => false end.
Definition is_enum_literal (k : Key) : bool := match k with KType EnumLiteral => true | _ => false end.

(** The arms of the [match], by destination type; [coerce] calls itself once, to
    make an [i32] of an [anyint]. *)
Definition coerce_with (coerce : nat -> Z -> InstructionRef -> Span.Span -> M (Result InstructionRef))
    (block : nat) (dst_ty : Z) (r : InstructionRef) (span : Span.Span) : M (Result InstructionRef) :=
  inst_ty ← coerce_source r;
  poison ← common generic_poison_t;
  if (dst_ty =? poison) || (dst_ty =? inst_ty) then ok r
  else
    src ← index_to_key inst_ty;
    dst ← index_to_key dst_ty;
    let mismatch := expected_type dst_ty inst_ty span in
    match dst with
    | KType t =>
        match t with
        | Type_ => if is_type src then ok r else mismatch
        | Anyptr =>
            if is_anyint src then
              b ← block_at block;
              if comptime b then coerce_anyptr block inst_ty r span
              else
                i32 ← common i32_t;
                concrete ←? coerce block i32 r span;
                anyptr_init block concrete i32
            else coerce_anyptr block inst_ty r span
        | Usize | Isize =>
            if is_anyint src then m ← coerce_int_to_size dst_ty r; report span m else mismatch
        | Int signed bits =>
            if is_anyint src then m ← coerce_int_to_int block dst_ty signed bits r; report span m else mismatch
        | F16 | F32 | F64 | F128 =>
            if is_anyfloat src then m ← coerce_float dst_ty t r; report span m else mismatch
        | TPtr ptr_dst =>
            match src with
            | KType (TPtr ptr_src) => m ← coerce_ptr block dst_ty ptr_src ptr_dst r; report span m
            | _ => mismatch
            end
        | Enum _ => if is_enum_literal src then coerce_enum_literal block dst_ty r span else mismatch
        | _ => mismatch
        end
    | _ => mismatch
    end.

(** Two levels are enough: the inner call has an integer type as destination. *)
Fixpoint coerce_fuel (fuel : nat) : nat -> Z -> InstructionRef -> Span.Span -> M (Result InstructionRef) :=
  match fuel with
  | O => fun _ _ _ _ => lift diverge
  | S fuel => coerce_with (coerce_fuel fuel)
  end.
Definition coerce : nat -> Z -> InstructionRef -> Span.Span -> M (Result InstructionRef) := coerce_fuel 2.

(** [resolve_type]: an operand as the type it denotes. *)
Definition resolve_type (block : nat) (r : InstructionRef) (span : Span.Span) : M (Result Z) :=
  match r with
  | Interned i => ok i
  | Instruction _ =>
      opcode ← resolve_inst r;
      ty ← common type_t;
      coerced_inst ←? coerce block ty opcode span;
      match try_resolve_comptime_value coerced_inst with
      | Some i => ok i
      | None => fail_at (bytes_of "type must be a comptime known value") span
      end
  end.

(** ** Integers *)

(** The remainder modulo [2^bits], brought to the range of the type. *)
Definition wrap_to (signed : bool) (bits : Z) (value : Anyint.t) : res Anyint.t :=
  let one := Anyint.from_unsigned 1 in
  modulus ← Anyint.shl one bits;
  wrapped ← Anyint.rem value modulus;
  let wrapped := if Anyint.is_negative wrapped then Anyint.add wrapped modulus else wrapped in
  if signed then
    (* [bits - 1] is a checked [u64] subtraction *)
    if bits <? 1 then panic else
    sign_bit ← Anyint.shl one (bits - 1);
    Ret (match Anyint.cmp wrapped sign_bit with
         | Lt => wrapped
         | _ => Anyint.sub wrapped modulus
         end)
  else Ret wrapped.

Definition wrap_int_value (ty : Z) (value : Anyint.t) : M Anyint.t :=
  key ← index_to_key ty;
  ptr_width ← gets (fun self => ValueLayout.ptr_width_in_bits (target (cu self)));
  match key with
  | KType (Int signed bits) => lift (wrap_to signed bits value)
  | KType Isize => lift (wrap_to true ptr_width value)
  | KType Usize => lift (wrap_to false ptr_width value)
  | _ => mret value
  end.

(** Bringing the operands to one type: the types are the same, or one is
    [anyint] and the other admits it. *)
Definition unify (admits : Ty -> bool) (block : nat) (lhs rhs : InstructionRef) (lhs_ty rhs_ty : Z)
    (incompatible : M (Result (Z * InstructionRef * InstructionRef))) (span : Span.Span)
    : M (Result (Z * InstructionRef * InstructionRef)) :=
  l ← index_to_key lhs_ty;
  r ← index_to_key rhs_ty;
  if eqb l r then ok (lhs_ty, lhs, rhs)
  else
    match l, r with
    | KType TAnyint, KType t =>
        if admits t then lhs ←? coerce block rhs_ty lhs span; ok (rhs_ty, lhs, rhs) else incompatible
    | KType t, KType TAnyint =>
        if admits t then coerced ←? coerce block lhs_ty rhs span; ok (lhs_ty, lhs, coerced) else incompatible
    | _, _ => incompatible
    end.

Definition is_int (t : Ty) : bool := match t with Int _ _ => true | _ => false end.
Definition is_int_or_size (t : Ty) : bool := match t with Int _ _ | Usize | Isize => true | _ => false end.

(** An error that names the types of both operands. *)
Definition incompatible_types {A} (before between after : list Z) (lhs_ty rhs_ty : Z) (span : Span.Span)
    : M (Result A) :=
  l ← display lhs_ty;
  r ← display rhs_ty;
  fail_at (before ++ l ++ between ++ r ++ after) span.

Definition ok_interned (k : Key) : M (Result InstructionRef) := i ← intern_trivial k; ok (Interned i).
Definition emit (block : nat) (opcode : Vtir.Opcode) : M (Result InstructionRef) := r ← inst block opcode; ok r.

(** ** Arithmetic *)

Definition arith_int (ty : Z) (op : Vuir.Opcode) (lhs rhs : Anyint.t) : M Anyint.t :=
  match op with
  | Vuir.Add _ _ _ => wrap_int_value ty (Anyint.add lhs rhs)
  | Vuir.AddSat _ _ _ => mret (Anyint.add lhs rhs)
  | Vuir.Sub _ _ _ => wrap_int_value ty (Anyint.sub lhs rhs)
  | Vuir.SubSat _ _ _ => mret (Anyint.sub lhs rhs)
  | Vuir.Mul _ _ _ => p ← lift (Anyint.mul lhs rhs); wrap_int_value ty p
  | Vuir.MulSat _ _ _ => lift (Anyint.mul lhs rhs)
  | Vuir.Div _ _ _ => lift (Anyint.div lhs rhs)
  | Vuir.Rem _ _ _ => lift (Anyint.rem lhs rhs)
  | _ => unreachable
  end.

(** The key of the result; [None] is the error of saturating floats. *)
Definition arith_float (ty : Z) (op : Vuir.Opcode) (lhs rhs : Z) : M (option Key) :=
  let float x := mret (Some (KFloat ty (MkAnyfloat x))) in
  match op with
  | Vuir.Add _ _ _ => float (Float128.add lhs rhs)
  | Vuir.Sub _ _ _ => float (Float128.sub lhs rhs)
  | Vuir.Mul _ _ _ => float (Float128.mul lhs rhs)
  | Vuir.Div _ _ _ => float (Float128.div lhs rhs)
  | Vuir.AddSat _ _ _ | Vuir.SubSat _ _ _ | Vuir.MulSat _ _ _ => mret None
  | Vuir.Lt _ _ _ => mret (Some (KBool (Float128.lt lhs rhs)))
  | Vuir.Lte _ _ _ => mret (Some (KBool (Float128.le lhs rhs)))
  | Vuir.Gt _ _ _ => mret (Some (KBool (Float128.lt rhs lhs)))
  | Vuir.Gte _ _ _ => mret (Some (KBool (Float128.le rhs lhs)))
  | _ => unreachable
  end.

Definition arith_bool (op : Vuir.Opcode) (lhs rhs : bool) : M bool :=
  match op with
  | Vuir.BoolAnd _ _ _ => mret (lhs && rhs)
  | Vuir.BoolOr _ _ _ => mret (lhs || rhs)
  | _ => unreachable
  end.

(** The run-time instruction. *)
Definition arith_opcode (op : Vuir.Opcode) (lhs rhs : InstructionRef) : M Vtir.Opcode :=
  match op with
  | Vuir.Add _ _ _ => mret (Vtir.Add lhs rhs)
  | Vuir.AddSat _ _ _ => mret (Vtir.AddSat lhs rhs)
  | Vuir.Sub _ _ _ => mret (Vtir.Sub lhs rhs)
  | Vuir.SubSat _ _ _ => mret (Vtir.SubSat lhs rhs)
  | Vuir.Mul _ _ _ => mret (Vtir.Mul lhs rhs)
  | Vuir.MulSat _ _ _ => mret (Vtir.MulSat lhs rhs)
  | Vuir.Div _ _ _ => mret (Vtir.Div lhs rhs)
  | Vuir.Rem _ _ _ => mret (Vtir.Rem lhs rhs)
  | Vuir.BoolAnd _ _ _ => mret (Vtir.BoolAnd lhs rhs)
  | Vuir.BoolOr _ _ _ => mret (Vtir.BoolOr lhs rhs)
  | _ => unreachable
  end.

Definition analyze_arithmetic_op (block : nat) (op : Vuir.Opcode) (lhs rhs : InstructionRef) (span : Span.Span)
    : M (Result InstructionRef) :=
  lhs_ty ← type_of lhs;
  rhs_ty ← type_of rhs;
  l ← index_to_key lhs_ty;
  if negb (type_is_numeric l) then
    ty ← display lhs_ty;
    fail_at (bytes_of "cannot perform an arithmetic operation with a `" ++ ty ++ bytes_of "`") span
  else
    r ← index_to_key rhs_ty;
    if negb (type_is_numeric r) then
      fail_at (bytes_of "cannot perform an arithmetic operation with a `" ++ debug_index rhs_ty ++
               bytes_of "` (rhs type)`") span
    else
      '(ty, lhs, rhs) ←? unify is_int block lhs rhs lhs_ty rhs_ty
        (incompatible_types (bytes_of "cannot perform an arithmetic operation between a '") (bytes_of "' and '")
          (bytes_of "'") lhs_ty rhs_ty span) span;
      kl ← comptime_key lhs;
      kr ← comptime_key rhs;
      match kl, kr with
      | Some (KInt _ lhs), Some (KInt _ rhs) => v ← arith_int ty op lhs rhs; ok_interned (KInt ty v)
      | Some (KFloat _ lhs), Some (KFloat _ rhs) =>
          k ← arith_float ty op (f128_bits lhs) (f128_bits rhs);
          match k with Some k => ok_interned k | None => fail AnalysisFailed end
      | Some (KBool lhs), Some (KBool rhs) => v ← arith_bool op lhs rhs; ok_interned (KBool v)
      | _, _ => opcode ← arith_opcode op lhs rhs; emit block opcode
      end.

(** ** Bits *)

Definition is_bits_type (k : Key) : bool :=
  match k with KType (Int _ _ | TAnyint | Isize | Usize | Bool) => true | _ => false end.

(** The amount of a shift, checked against the width of a concrete type;
    [wrap]: the opcode is a wrapping one. *)
Definition shift_amount (ty : Z) (wrap : bool) (rhs : Anyint.t) (span : Span.Span) : M (Result Z) :=
  if Anyint.is_negative rhs then fail_at (bytes_of "negative shift amount in comptime shift") span
  else
    let shift := default (2^64 - 1) (Anyint.to_u64 rhs) in
    key ← index_to_key ty;
    match key with
    | KType TAnyint => ok shift
    | _ =>
        bit_width ← query (fun v => type_bit_size v ty);
        if (bit_width <=? shift) && negb wrap then
          fail_at (bytes_of "shift amount (" ++ decimal shift ++ bytes_of ") is >= the bit width (" ++
                   decimal bit_width ++ bytes_of ") of the type") span
        else ok shift
    end.

Definition bitwise_int (ty : Z) (op : Vuir.Opcode) (lhs rhs : Anyint.t) (span : Span.Span) : M (Result Anyint.t) :=
  let shl wrap := shift ←? shift_amount ty wrap rhs span; v ← lift (Anyint.shl lhs shift); ok v in
  let shr wrap := shift ←? shift_amount ty wrap rhs span; v ← lift (Anyint.shr lhs shift); ok v in
  match op with
  | Vuir.BitAnd _ _ _ => ok (Anyint.bitand lhs rhs)
  | Vuir.BitOr _ _ _ => ok (Anyint.bitor lhs rhs)
  | Vuir.BitXor _ _ _ => ok (Anyint.bitxor lhs rhs)
  | Vuir.Shl _ _ _ | Vuir.ShlSat _ _ _ => shl false
  | Vuir.ShlWrap _ _ _ => shl true
  | Vuir.Shr _ _ _ | Vuir.ShrSat _ _ _ => shr false
  | Vuir.ShrWrap _ _ _ => shr true
  | _ => unreachable
  end.

Definition bitwise_bool (op : Vuir.Opcode) (lhs rhs : bool) (span : Span.Span) : M (Result bool) :=
  match op with
  | Vuir.BitAnd _ _ _ => ok (lhs && rhs)
  | Vuir.BitOr _ _ _ => ok (lhs || rhs)
  | Vuir.BitXor _ _ _ => ok (xorb lhs rhs)
  | _ => fail_at (bytes_of "shift operations are not supported on bool") span
  end.

Definition bitwise_opcode (op : Vuir.Opcode) (lhs rhs : InstructionRef) : M Vtir.Opcode :=
  match op with
  | Vuir.Shl _ _ _ => mret (Vtir.Shl lhs rhs)
  | Vuir.ShlSat _ _ _ => mret (Vtir.ShlSat lhs rhs)
  | Vuir.ShlWrap _ _ _ => mret (Vtir.ShlWrap lhs rhs)
  | Vuir.Shr _ _ _ => mret (Vtir.Shr lhs rhs)
  | Vuir.ShrSat _ _ _ => mret (Vtir.ShrSat lhs rhs)
  | Vuir.ShrWrap _ _ _ => mret (Vtir.ShrWrap lhs rhs)
  | Vuir.BitAnd _ _ _ => mret (Vtir.BitAnd lhs rhs)
  | Vuir.BitOr _ _ _ => mret (Vtir.BitOr lhs rhs)
  | Vuir.BitXor _ _ _ => mret (Vtir.BitXor lhs rhs)
  | _ => unreachable
  end.

Definition analyze_bitwise_op (block : nat) (op : Vuir.Opcode) (lhs rhs : InstructionRef) (span : Span.Span)
    : M (Result InstructionRef) :=
  lhs_ty ← type_of lhs;
  rhs_ty ← type_of rhs;
  lhs_key ← index_to_key lhs_ty;
  rhs_key ← index_to_key rhs_ty;
  if negb (is_bits_type lhs_key) then
    fail_at (bytes_of "cannot perform a bitwise operation with a `" ++ debug_index lhs_ty ++
             bytes_of "` (lhs type)`") span
  else if negb (is_bits_type rhs_key) then
    fail_at (bytes_of "cannot perform a bitwise operation with a `" ++ debug_index rhs_ty ++
             bytes_of "` (rhs type)`") span
  else
    '(ty, lhs, rhs) ←? unify is_int_or_size block lhs rhs lhs_ty rhs_ty
      (incompatible_types (bytes_of "cannot perform a bitwise operation between a '") (bytes_of "' and '")
        (bytes_of "'") lhs_ty rhs_ty span) span;
    kl ← comptime_key lhs;
    kr ← comptime_key rhs;
    match kl, kr with
    | Some (KInt _ lhs), Some (KInt _ rhs) => v ←? bitwise_int ty op lhs rhs span; ok_interned (KInt ty v)
    | Some (KBool lhs), Some (KBool rhs) => v ←? bitwise_bool op lhs rhs span; ok_interned (KBool v)
    | _, _ => opcode ← bitwise_opcode op lhs rhs; emit block opcode
    end.

Definition analyze_bitwise_not_op (block : nat) (op : InstructionRef) (span : Span.Span)
    : M (Result InstructionRef) :=
  op_ty ← type_of op;
  op_key ← index_to_key op_ty;
  if negb (is_bits_type op_key) then
    fail_at (bytes_of "cannot perform bitwise NOT on a `" ++ debug_index op_ty ++ bytes_of "`") span
  else
    k ← comptime_key op;
    match k with
    | Some (KInt _ value) => ok_interned (KInt op_ty (Anyint.not value))
    | Some (KBool b) => ok_interned (KBool (negb b))
    | _ => emit block (Vtir.BitNot op)
    end.

(** ** Comparisons *)

(** [cmp_comptime], for a type whose [<] and [<=] are given. *)
Definition cmp_comptime {T} (lt le : T -> T -> bool) (op : Vuir.Opcode) (lhs rhs : T) : M bool :=
  match op with
  | Vuir.Eq _ _ _ => mret (le rhs lhs)
  | Vuir.Neq _ _ _ => mret (le rhs lhs)
  | Vuir.Lt _ _ _ => mret (lt lhs rhs)
  | Vuir.Lte _ _ _ => mret (le lhs rhs)
  | Vuir.Gt _ _ _ => mret (lt rhs lhs)
  | Vuir.Gte _ _ _ => mret (le rhs lhs)
  | _ => unreachable
  end.

Definition anyint_lt (a b : Anyint.t) : bool := match Anyint.cmp a b with Lt => true | _ => false end.
Definition anyint_le (a b : Anyint.t) : bool := match Anyint.cmp a b with Gt => false | _ => true end.
(** [false < true]. *)
Definition bool_lt (a b : bool) : bool := negb a && b.
Definition bool_le (a b : bool) : bool := negb a || b.

Definition cmp_tags (op : Vuir.Opcode) (lhs rhs : Z) : M bool :=
  match op with
  | Vuir.Eq _ _ _ => mret (lhs =? rhs)
  | Vuir.Neq _ _ _ => mret (negb (lhs =? rhs))
  | _ => unreachable
  end.

Definition cmp_opcode (op : Vuir.Opcode) (lhs rhs : InstructionRef) : M Vtir.Opcode :=
  match op with
  | Vuir.Eq _ _ _ => mret (Vtir.Eq lhs rhs)
  | Vuir.Neq _ _ _ => mret (Vtir.Neq lhs rhs)
  | Vuir.Lt _ _ _ => mret (Vtir.Lt lhs rhs)
  | Vuir.Lte _ _ _ => mret (Vtir.Lte lhs rhs)
  | Vuir.Gt _ _ _ => mret (Vtir.Gt lhs rhs)
  | Vuir.Gte _ _ _ => mret (Vtir.Gte lhs rhs)
  | Vuir.BoolAnd _ _ _ => mret (Vtir.BoolAnd lhs rhs)
  | Vuir.BoolOr _ _ _ => mret (Vtir.BoolOr lhs rhs)
  | _ => unreachable
  end.

Definition analyze_comparaison_op (block : nat) (op : Vuir.Opcode) (lhs rhs : InstructionRef) (span : Span.Span)
    : M (Result InstructionRef) :=
  lhs_ty ← type_of lhs;
  rhs_ty ← type_of rhs;
  '(_, lhs, rhs) ←? unify is_int block lhs rhs lhs_ty rhs_ty
    (incompatible_types (bytes_of "cannot compare a `") (bytes_of "` with an `") (bytes_of "`")
      lhs_ty rhs_ty span) span;
  kl ← comptime_key lhs;
  kr ← comptime_key rhs;
  let runtime := opcode ← cmp_opcode op lhs rhs; emit block opcode in
  match kl, kr with
  | Some (KInt _ lhs), Some (KInt _ rhs) =>
      v ← cmp_comptime anyint_lt anyint_le op lhs rhs; ok_interned (KBool v)
  | Some (KFloat _ lhs), Some (KFloat _ rhs) =>
      v ← cmp_comptime Float128.lt Float128.le op (f128_bits lhs) (f128_bits rhs); ok_interned (KBool v)
  | Some (KBool lhs), Some (KBool rhs) => v ← cmp_comptime bool_lt bool_le op lhs rhs; ok_interned (KBool v)
  | Some (KEnumTag lhs_ty lhs), Some (KEnumTag rhs_ty rhs) =>
      if lhs_ty =? rhs_ty then v ← cmp_tags op lhs rhs; ok_interned (KBool v) else runtime
  | _, _ => runtime
  end.

End Fold.
End SemaFold.
