(* ===== verification/SemaInit.v ===== *)
(** * Indexing, initialisers, switches and bodies ([src/compile_unit/sema.rs])

    Element pointers, the initialisers of structs, unions and arrays, zero values,
    the exhaustiveness of a switch, promotions of variadic arguments, captures,
    names of types, and the blocks of instructions that make a body, for a way
    to analyze one instruction. *)

From S2P Require Import Prelude Words Bytes Span Token Diagnostic Ast HashIndex ShardedMap.
From S2P Require Import Anyint Value ValueStore ValueLayout Vuir Vtir SemaState SemaAccess SemaFold.
From stdpp Require Import gmap.

#[local] Open Scope Z_scope.
#[local] Open Scope sema_scope.

Module SemaInit.
Import Value ValueStore IrId Sema SemaAccess SemaFold.

Section Init.
Context `{!Setting, !Workers, !TypeInfo}.

(** ** Elements of arrays and slices *)

(** [value.to_u64().and_then(|value| value.try_into().ok())] on a 64-bit host. *)
Definition const_index (r : InstructionRef) : M (option Z) :=
  k ← comptime_key r;
  mret (match k with Some (KInt _ value) => Anyint.to_u64 value | _ => None end).

Definition const_ptr_target (ptr : Ptr) : M (option Z) :=
  match ptr_kind ptr with
  | PtrValue value => mret (Some value)
  | PtrDecl decl =>
      d ← decl_at (Z.to_nat decl);
      match analysis_state d with Analysed value => mret (Some value) | _ => unreachable end
  | PtrComptimeAlloc _ => mret None
  end.

(** [values.get(index)] of the aggregate at [backing]. *)
Definition aggregate_elem (backing : option Z) (index : Z) : M (option Z) :=
  match backing with
  | None => mret None
  | Some backing =>
      key ← index_to_key backing;
      mret (match key with KAggregate _ values => values !! Z.to_nat index | _ => None end)
  end.

(** The element of a constant slice or string. *)
Definition slice_elem (slice : InstructionRef) (index : Z) : M (option Z) :=
  k ← comptime_key slice;
  match k with
  | Some (KStr _ value) =>
      match value !! Z.to_nat index with
      | None => mret None
      | Some b =>
          u8_ty ← intern_trivial (KType (Int false 8));
          i ← intern_trivial (KInt u8_ty (Anyint.from_unsigned b));
          mret (Some i)
      end
  | Some (KSlice _ ptr len) =>
      key ← index_to_key len;
      match key with
      | KInt _ value =>
          match Anyint.to_u64 value with
          | None => unreachable
          | Some len =>
              if len <=? index then mret None
              else
                key ← index_to_key ptr;
                ptr ← lift (as_ptr key);
                backing ← const_ptr_target ptr;
                aggregate_elem backing index
          end
      | _ => unreachable
      end
  | _ => mret None
  end.

(** The element that a constant index selects, when it is known; the load of a
    slice is emitted either way. *)
Definition const_elem (block : nat) (array_ptr : InstructionRef) (pointee : Key) (index : Z) (span : Span.Span)
    : M (Result (option Z)) :=
  match pointee with
  | KType (Slice _) =>
      slice ←? analyze_load block array_ptr span;
      e ← slice_elem slice index;
      ok e
  | KType (Array _) =>
      match try_resolve_comptime_value array_ptr with
      | None => ok None
      | Some p =>
          key ← index_to_key p;
          ptr ← lift (as_ptr key);
          backing ← const_ptr_target ptr;
          e ← aggregate_elem backing index;
          ok e
      end
  | _ => ok None
  end.

Definition analyze_array_index_ptr (block : nat) (array_ptr index : InstructionRef) (span : DiagSpan.DiagSpan)
    : M (Result InstructionRef) :=
  array_ptr ← resolve_inst array_ptr;
  index ← resolve_inst index;
  array_ptr_ty ← type_of array_ptr;
  key ← index_to_key array_ptr_ty;
  match key with
  | KType (TPtr ptr) =>
      let array_pointee_ty := ptr_pointee_ty ptr in
      const_index ← const_index index;
      pointee ← index_to_key array_pointee_ty;
      elem ←? match const_index with
              | Some i => const_elem block array_ptr pointee i (DiagSpan.span span)
              | None => ok None
              end;
      match elem with
      | Some value =>
          match pointee with
          | KType (Slice slice) =>
              elem_ptr_ty ← intern_ptr_type (slice_pointee_ty slice) true;
              ok_interned (KPtr {| ptr_ty := elem_ptr_ty; ptr_kind := PtrValue value |})
          | KType (Array array) =>
              elem_ptr_ty ← intern_ptr_type (elem_ty array) true;
              ok_interned (KPtr {| ptr_ty := elem_ptr_ty; ptr_kind := PtrValue value |})
          | _ => unreachable
          end
      | None =>
          match pointee with
          | KType (Slice slice) =>
              elem_ptr_ty ← intern_ptr_type (slice_pointee_ty slice) false;
              slice ←? analyze_load block array_ptr (DiagSpan.span span);
              emit block (Vtir.SliceElemPtr slice index elem_ptr_ty)
          | KType (Array array) =>
              elem_ptr_ty ← intern_ptr_type (elem_ty array) false;
              emit block (Vtir.PtrElemPtr array_ptr index elem_ptr_ty)
          | _ =>
              ty ← display array_pointee_ty;
              push_error (Diagnostic.with_note
                (error_with (bytes_of "type `" ++ ty ++ bytes_of "` is not indexable") span)
                (bytes_of "only slices and arrays are indexable")) ;;
              fail AnalysisFailed
          end
      end
  | _ =>
      ty ← display array_ptr_ty;
      push_error (error_with (bytes_of "indexing requires a pointer as source, is `" ++ ty ++ bytes_of "`") span) ;;
      fail AnalysisFailed
  end.

(** ** Initialisers *)

(** [self.vuir_map.insert(id, inst); Ok((inst, ControlFlow::May))]. *)
Definition done (id : InstructionId) (r : InstructionRef) : M (Result (InstructionRef * ControlFlow)) :=
  map_inst id r ;; ok (r, ControlFlow.May).

Definition union_tag (u : TypeUnion) (field_idx : Z) : M (option Z) :=
  match union_tag_ty u with
  | Some tag_ty => tag ← intern_enum_tag_from_field_idx tag_ty field_idx; mret (Some tag)
  | None => mret None
  end.

Definition analyze_union_init (id : InstructionId) (block : nat) (ty : Z) (fields : list Vuir.AdtInitField)
    (span : Span.Span) : M (Result (InstructionRef * ControlFlow)) :=
  value ← index_to_value ty;
  u ← lift (as_union value);
  match fields with
  | [field] =>
      let name := Vuir.adt_name field in
      match union_field_idx_by_name u (Ident.symbol name) with
      | None => diag_field_not_found (Ident.symbol name) ty (Ident.span name) ;; fail AnalysisFailed
      | Some field_idx =>
          union_field ← lift (get_idx (union_fields u) (Z.to_nat field_idx));
          value ←? match uf_ty union_field with
                   | Some field_ty =>
                       value ← resolve_inst (Vuir.adt_value field);
                       value ←? coerce block field_ty value (Vuir.adt_span field);
                       ok (Some value)
                   | None => ok None
                   end;
          r ←? match value with
               | Some (Instruction _) => emit block (Vtir.UnionInit ty (Z.to_nat field_idx) value)
               | Some (Interned payload) =>
                   tag ← union_tag u field_idx; ok_interned (KUnion ty tag (Some payload))
               | None => tag ← union_tag u field_idx; ok_interned (KUnion ty tag None)
               end;
          done id r
      end
  | _ => fail_at (bytes_of "union initialization requires exactly one field") span
  end.

(** The loop over the initialised fields: the values by position, whether all are
    known, whether one failed. *)
Fixpoint init_fields (block : nat) (ty : Z) (s : TypeStruct) (fields : list Vuir.AdtInitField)
    (acc : list (option InstructionRef) * bool * bool) : M (list (option InstructionRef) * bool * bool) :=
  match fields with
  | [] => mret acc
  | field :: fields =>
      let '(out_fields, comptime_known, failed) := acc in
      let name := Vuir.adt_name field in
      match struct_field_idx_by_name s (Ident.symbol name) with
      | None =>
          diag_field_not_found (Ident.symbol name) ty (Ident.span name) ;;
          init_fields block ty s fields (out_fields, comptime_known, true)
      | Some field_idx =>
          f ← lift (get_idx (struct_fields s) field_idx);
          value ← resolve_inst (Vuir.adt_value field);
          value ← coerce block (sf_ty f) value (Vuir.adt_span field);
          match value with
          | Ok value =>
              out_fields ← lift (set_idx out_fields field_idx (Some value));
              init_fields block ty s fields (out_fields, comptime_known && is_interned value, failed)
          | Err _ =>
              out_fields ← lift (set_idx out_fields field_idx None);
              init_fields block ty s fields (out_fields, comptime_known, true)
          end
      end
  end.

(** The check for fields without a value, which reports each. *)
Fixpoint check_uninit (fields : list StructField) (values : list (option InstructionRef)) (span : Span.Span)
    : M bool :=
  match fields with
  | [] => mret false
  | field :: fields =>
      missing ← match values with
                | Some _ :: _ => mret false
                | _ =>
                    at_ ← diag_span span;
                    push_error (Diagnostic.with_note
                      (error_with (bytes_of "field `" ++ sf_name field ++ bytes_of "` was not initialized") at_)
                      (bytes_of "add `." ++ sf_name field ++ bytes_of " = ...,`")) ;;
                    mret true
                end;
      rest ← check_uninit fields (tail values) span;
      mret (missing || rest)
  end.

(** [field.unwrap()] on every element. *)
Fixpoint unwrap_all {A} (l : list (option A)) : res (list A) :=
  match l with
  | [] => Ret []
  | Some a :: l => l ← unwrap_all l; Ret (a :: l)
  | None :: _ => panic
  end.
Definition interned_all (l : list InstructionRef) : res (list Z) := unwrap_all (map try_resolve_comptime_value l).

Definition analyze_struct_init (id : InstructionId) (block : nat) (ty : Z) (fields : list Vuir.AdtInitField)
    (span : Span.Span) : M (Result (InstructionRef * ControlFlow)) :=
  key ← index_to_key ty;
  match key with
  | KType (Struct _) =>
      value ← index_to_value ty;
      s ← lift (as_struct_value value);
      '(values, comptime_known, failed) ←
        init_fields block ty s fields (replicate (length (struct_fields s)) None, true, false);
      missing ← check_uninit (struct_fields s) values span;
      if (failed : bool) || missing then fail AnalysisFailed
      else
        values ← lift (unwrap_all values);
        r ←? (if comptime_known : bool then
                values ← lift (interned_all values); ok_interned (KAggregate ty values)
              else emit block (Vtir.StructInit ty values));
        done id r
  | _ =>
      t ← display ty;
      fail_at (bytes_of "`" ++ t ++ bytes_of "` must be a struct or union to be initialized with init syntax") span
  end.

(** One element of an array initialiser. *)
Definition init_elem (block : nat) (elem_ty : Z) (span : Span.Span) (element : InstructionRef)
    : M (Result InstructionRef) :=
  value ← resolve_inst element;
  coerce block elem_ty value span.

Definition analyze_array_init (id : InstructionId) (block : nat) (ty : Z) (elements : list InstructionRef)
    (span : Span.Span) : M (Result (InstructionRef * ControlFlow)) :=
  key ← index_to_key ty;
  anyptr ← common anyptr_t;
  let wrong :=
    t ← display ty;
    fail_at (bytes_of "`" ++ t ++
             bytes_of "` must be an array, or `[]anyptr`, to be initialized with array init syntax") span in
  match key with
  | KType (Slice slice) =>
      if slice_pointee_ty slice =? anyptr then
        coerced ←? try_map (init_elem block anyptr span) elements;
        r ← inst block (Vtir.SliceInit ty coerced);
        done id r
      else wrong
  | KType (Array array) =>
      if negb (Z.of_nat (length elements) =? array_len array) then
        fail_at (bytes_of "expected " ++ decimal (array_len array) ++ bytes_of " array elements, found " ++
                 decimal (Z.of_nat (length elements))) span
      else
        coerced ←? try_map (init_elem block (elem_ty array) span) elements;
        r ←? (if forallb is_interned coerced then
                values ← lift (interned_all coerced); ok_interned (KAggregate ty values)
              else emit block (Vtir.ArrayInit ty coerced));
        done id r
  | _ => wrong
  end.

(** ** Zero values *)

Definition zero_int (ty : Z) : M Z := intern_trivial (KInt ty Anyint.ZERO).
Definition null_ptr (ty : Z) : M Z :=
  null ← common nullptr;
  intern_trivial (KPtr {| ptr_ty := ty; ptr_kind := PtrValue null |}).

(** [map(f).collect::<Option<Vec<_>>>()]: it stops at the first [None]. *)
Fixpoint collect_opt {A B} (f : A -> M (option B)) (l : list A) : M (option (list B)) :=
  match l with
  | [] => mret (Some [])
  | a :: l =>
      b ← f a;
      match b with
      | None => mret None
      | Some b => bs ← collect_opt f l; mret (match bs with Some bs => Some (b :: bs) | None => None end)
      end
  end.

(** The fuel bounds the nesting of arrays and structs. *)
Fixpoint intern_zeroed_value_fuel (fuel : nat) (ty : Z) : M (option Z) :=
  match fuel with
  | O => lift diverge
  | S fuel =>
      key ← index_to_key ty;
      match key with
      | KType (Int _ _ | TAnyint | Usize | Isize) => i ← zero_int ty; mret (Some i)
      | KType (F16 | F32 | F64 | F128 | TAnyfloat) => i ← intern_trivial (KFloat ty (MkAnyfloat 0)); mret (Some i)
      | KType Bool => i ← intern_trivial (KBool false); mret (Some i)
      | KType Void => i ← common void_value; mret (Some i)
      | KType (TPtr _) => i ← null_ptr ty; mret (Some i)
      | KType (Slice slice) =>
          ptr_ty ← intern_ptr_type (slice_pointee_ty slice) true;
          ptr ← null_ptr ptr_ty;
          usize ← common usize_t;
          len ← zero_int usize;
          i ← intern_trivial (KSlice ty ptr len);
          mret (Some i)
      | KType (Array array) =>
          element ← intern_zeroed_value_fuel fuel (elem_ty array);
          match element with
          | None => mret None
          | Some element =>
              i ← intern_trivial (KAggregate ty (replicate (Z.to_nat (array_len array)) element));
              mret (Some i)
          end
      | KType (Struct _) =>
          value ← index_to_value ty;
          s ← lift (as_struct_value value);
          values ← collect_opt (fun field => intern_zeroed_value_fuel fuel (sf_ty field)) (struct_fields s);
          match values with
          | None => mret None
          | Some values => i ← intern_trivial (KAggregate ty values); mret (Some i)
          end
      | KType (Enum _) =>
          value ← index_to_value ty;
          e ← lift (as_enum_value value);
          val ← zero_int (enum_tag_ty e);
          i ← intern_trivial (KEnumTag ty val);
          mret (Some i)
      | KType NullPtr => i ← common nullptr; mret (Some i)
      | _ => mret None
      end
  end.
Definition intern_zeroed_value (ty : Z) : M (option Z) := intern_zeroed_value_fuel query_fuel ty.

(** ** Bit sizes and variadic arguments *)

Fixpoint known_bit_size_fuel (fuel : nat) (v : Store) (ty : Z) : res (option Z) :=
  match fuel with
  | O => diverge
  | S fuel =>
      kv ← ValueStore.index_to_key_value v ty;
      match kv with
      | (KType (Int _ bits), _) => Ret (Some bits)
      | (KType Bool, _) => Ret (Some 1)
      | (KType F16, _) => Ret (Some 16)
      | (KType F32, _) => Ret (Some 32)
      | (KType F64, _) => Ret (Some 64)
      | (KType F128, _) => Ret (Some 128)
      | (KType Void, _) => Ret (Some 0)
      | (KType (Struct _), value) =>
          s ← as_struct_value value;
          Ret (match layout s with Packed _ fields_bits _ => Some fields_bits | Standard => None end)
      | (KType (Enum _), value) => e ← as_enum_value value; known_bit_size_fuel fuel v (enum_tag_ty e)
      | _ => Ret None
      end
  end.
Definition known_bit_size (ty : Z) : M (option Z) := query (fun v => known_bit_size_fuel query_fuel v ty).

(** A promoted argument with its type. *)
Definition promoted (r : InstructionRef) : M (Result (InstructionRef * Z)) := ty ← type_of r; ok (r, ty).

Definition promote_variadic_arg (block : nat) (resolved_value : InstructionRef) (arg_ty : Z) (span : Span.Span)
    : M (Result (InstructionRef * Z)) :=
  key ← index_to_key arg_ty;
  i32 ← common i32_t;
  f64 ← common f64_t;
  let unsupported :=
    ty ← display arg_ty;
    fail_at (bytes_of "invalid variadic parameter type, expected usize, isize, i1-64, u1-64, f16, f32, f64, str or bool, got `"
             ++ ty ++ bytes_of "`") span in
  match key with
  | KType (F64 | TPtr _ | Isize | Usize) => ok (resolved_value, arg_ty)
  | KType Bool =>
      k ← comptime_key resolved_value;
      match k with
      | Some (KBool value) =>
          i ← intern_trivial (KInt i32 (Anyint.from_unsigned (Z.b2z value))); promoted (Interned i)
      | Some _ => unreachable
      | None => r ← inst block (Vtir.UnsafeIntCast resolved_value i32); promoted r
      end
  | KType (Int _ bits) =>
      if (32 <=? bits) && (bits <=? 64) then ok (resolved_value, arg_ty)
      else if 64 <? bits then fail_at (bytes_of "invalid variadic parameter type, expected i1-64 or u1-64") span
      else
        k ← comptime_key resolved_value;
        match k with
        | Some (KInt _ value) => i ← intern_trivial (KInt i32 value); promoted (Interned i)
        | Some _ => unreachable
        | None => r ← inst block (Vtir.UnsafeIntCast resolved_value i32); promoted r
        end
  | KType (F16 | F32) =>
      k ← comptime_key resolved_value;
      match k with
      | Some (KFloat _ value) => i ← intern_trivial (KFloat f64 value); promoted (Interned i)
      | Some _ => unreachable
      | None => r ← inst block (Vtir.UnsafeFloatCast resolved_value f64); promoted r
      end
  | KType _ => unsupported
  | _ => unreachable
  end.

(** ** Switches *)

(** The fields of the tag, and the names to report when the operand is a union;
    [None]: the error is reported. *)
Definition switch_fields (operand_ty : Z) (span : Span.Span) : M (option (list EnumField * option (list UnionField))) :=
  kv ← index_to_key_value operand_ty;
  match kv with
  | (KType (Enum _), value) => e ← lift (as_enum_value value); mret (Some (enum_fields e, None))
  | (KType (Union _), value) =>
      u ← lift (as_union value);
      match union_tag_ty u with
      | None => push_error_at (bytes_of "cannot exhaustively switch on a bare union") span ;; mret None
      | Some tag_ty =>
          kv ← index_to_key_value tag_ty;
          match kv with
          | (KType (Enum _), VEnum tag_enum) =>
              lift (assert_ (length (union_fields u) =? length (enum_fields tag_enum))%nat) ;;
              mret (Some (enum_fields tag_enum, Some (union_fields u)))
          | _ => unreachable
          end
      end
  | (KType _, _) => push_error_at (bytes_of "switch must have an else branch") span ;; mret None
  | _ => unreachable
  end.

(** The tag that a pattern covers. *)
Definition pattern_tag (item : InstructionRef) : M Z :=
  match try_resolve_comptime_value item with
  | None => unreachable
  | Some value =>
      key ← index_to_key value;
      mret (match key with KEnumTag _ val => val | _ => value end)
  end.
Fixpoint pattern_tags (items : list InstructionRef) : M (list Z) :=
  match items with
  | [] => mret []
  | item :: items => tag ← pattern_tag item; tags ← pattern_tags items; mret (tag :: tags)
  end.

(** The names of the tags that no pattern covers. *)
Fixpoint missing_variants (idx : nat) (tag_fields : list EnumField) (union_fields : option (list UnionField))
    (covered : list Z) : res (list (list Z)) :=
  match tag_fields with
  | [] => Ret []
  | tag_field :: tag_fields =>
      if bool_decide (ef_value tag_field ∈ covered) then missing_variants (S idx) tag_fields union_fields covered
      else
        name ← match union_fields with
               | None => Ret (ef_name tag_field)
               | Some fields => f ← get_idx fields idx; Ret (uf_name f)
               end;
        rest ← missing_variants (S idx) tag_fields union_fields covered;
        Ret (name :: rest)
  end.

Fixpoint join_names (names : list (list Z)) : list Z :=
  match names with
  | [] => []
  | [name] => name
  | name :: names => name ++ bytes_of "`, `" ++ join_names names
  end.

Definition check_switch_exhaustive (operand_ty : Z) (cases : list Vtir.SwitchCase) (span : Span.Span) : M bool :=
  fields ← switch_fields operand_ty span;
  match fields with
  | None => mret false
  | Some (tag_fields, union_fields) =>
      covered ← pattern_tags (concat (map Vtir.items cases));
      missing ← lift (missing_variants 0 tag_fields union_fields covered);
      match missing with
      | [] => mret true
      | _ :: rest =>
          push_error_at (bytes_of "switch is not exhaustive, missing variant" ++
                         (match rest with [] => [] | _ => bytes_of "s" end) ++
                         bytes_of " `" ++ join_names missing ++ bytes_of "`") span ;;
          mret false
      end
  end.

(** ** Types in bodies *)

Definition ensure_type_exist_in_runtime (ty : Z) (span : Span.Span) : M (Result unit) :=
  only ← type_is_comptime_only ty;
  if only : bool then
    t ← display ty;
    at_ ← diag_span span;
    push_error (Diagnostic.with_note
      (error_with (bytes_of "type `" ++ t ++
                   bytes_of "` cannot be used in runtime code, it is or contains a comptime-only type") at_)
      (bytes_of "try using `const`, giving an explicit type for `anyxxx` types or removing comptime fields")) ;;
    fail AnalysisFailed
  else ok tt.

Definition link_store_to_potential_comptime_alloc (alloc_inst store_inst : InstructionRef) (span : Span.Span)
    : M unit :=
  allocs ← gets potential_comptime_allocs;
  match allocs !! alloc_inst with
  | Some stores => modify (set_potential_comptime_allocs (<[alloc_inst := stores ++ [(store_inst, span)]]> allocs))
  | None => mret tt
  end.

(** [ComptimeMemory::allocate]. *)
Definition allocate (ty : Z) (span : Span.Span) : M Z :=
  value ← intern_trivial (KUndefined ty);
  allocs ← gets comptime_allocs;
  modify (set_comptime_allocs (allocs ++ [{| alloc_ty := ty; alloc_value := value; alloc_span := span |}])) ;;
  mret (Z.of_nat (length allocs)).

(** The name bound by a stack allocation. *)
Definition stack_alloc_name (opcode : Vuir.Opcode) : res (list Z) :=
  match opcode with
  | Vuir.StackAlloc name _ _ | Vuir.StackAllocMut name _ _ | Vuir.StackAllocComptime name _ _
  | Vuir.StackAllocComptimeMut name _ _ | Vuir.StackAllocInferred name _ | Vuir.StackAllocInferredMut name _
  | Vuir.StackAllocInferredComptime name _ | Vuir.StackAllocInferredComptimeMut name _ => Ret (Ident.symbol name)
  | _ => panic
  end.

(** An instruction identifier is displayed as its number behind a percent sign. *)
Definition make_type_name (block : nat) (id : InstructionId) (naming : Vuir.NamingKind) : M (list Z) :=
  match naming with
  | Vuir.FromDecl => owner ← gets owner_decl; d ← decl_at owner; mret (decl_name d)
  | Vuir.Anonymous =>
      b ← block_at block;
      mret (base_type_name b ++ bytes_of "_" ++ bytes_of "%" ++ decimal id)
  | Vuir.FromPreviousStackAlloc =>
      prev ← lift (IrId.sub id 1);
      l ← gets vuir;
      opcode ← lift (get_idx l (to_usize prev));
      lift (stack_alloc_name opcode)
  | Vuir.Named name => mret name
  end.

(** ** Captures *)

Definition namespace_captures (owner_type : Z) : M (option (list Capture)) :=
  key ← index_to_key owner_type;
  mret (match key with KType (Struct ns | Enum ns | Union ns) => Some (captures ns) | _ => None end).

Definition namespace_owner (block : nat) : M Z :=
  b ← block_at block;
  l ← gets (fun self => namespaces (cu self));
  ns ← lift (get_idx l (namespace b));
  mret (owner_type ns).

Definition resolve_vuir_capture (block : nat) (capture : Vuir.Capture) : M (Result Capture) :=
  match capture with
  | Vuir.Id id =>
      r ← resolve_inst (Instruction id);
      match as_interned_opt r with
      | Some index => ok (Comptime index)
      | None => m ← gets Sema.module; ok (Runtime {| Value.module := m; Value.inst := id |})
      end
  | Vuir.FromParent parent =>
      owner_type ← namespace_owner block;
      captures ← namespace_captures owner_type;
      match captures with
      | None =>
          push_error (Diagnostic.with_message Diagnostic.error
            (bytes_of "capture forwarding requires a namespace owner with captures")) ;;
          fail AnalysisFailed
      | Some captures => c ← lift (get_idx captures parent); ok c
      end
  end.

Definition resolve_vuir_captures (block : nat) (captures : list Vuir.Capture) : M (Result (list Capture)) :=
  try_map (resolve_vuir_capture block) captures.

(** ** Bodies, for a way to analyze one instruction *)

Section Bodies.
Variable analyze_inst : nat -> InstructionId -> M (Result (InstructionRef * ControlFlow)).

Fixpoint analyze_instructions (block : nat) (instructions : list InstructionId) (body_flow : ControlFlow)
    : M (Result ControlFlow) :=
  match instructions with
  | [] => ok body_flow
  | i :: instructions =>
      '(value, inst_flow) ←? analyze_inst block i;
      unreachable_value ← common unreachable_value;
      if bool_decide (value = Interned unreachable_value) then ok ControlFlow.Always
      else
        match inst_flow with
        | ControlFlow.Always => ok ControlFlow.Always
        | _ => analyze_instructions block instructions (ControlFlow.join body_flow inst_flow)
        end
  end.
Definition analyze_instruction_block (block : nat) (instructions : list InstructionId) : M (Result ControlFlow) :=
  analyze_instructions block instructions ControlFlow.May.

Definition analyze_comptime_block (block : nat) (instructions : list InstructionId)
    : M (Result (option InstructionRef)) :=
  r ← analyze_instruction_block block instructions;
  match r with
  | Err (ComptimeBreak _ value) => ok (Some value)
  | Err (InlineReturn value) => ok value
  | Err e => fail e
  | Ok _ => ok None
  end.

(** The errors for linear values that are left over. *)
Definition unconsumed_error (slot : LinearSlot) : M unit :=
  ty ← display (slot_ty slot);
  at_ ← diag_span (slot_span slot);
  push_error (Diagnostic.with_note
    (Diagnostic.with_label
      (Diagnostic.with_message Diagnostic.error
        (bytes_of "linear value `" ++ slot_name slot ++ bytes_of "` must be consumed before going out of scope"))
      (Label.with_message (Label.with_span Label.primary at_)
        (bytes_of "`" ++ slot_name slot ++ bytes_of "` has type `" ++ ty ++ bytes_of "` which is linear")))
    (bytes_of "linear values cannot be implicitly dropped; pass to a consuming function or use @forget")).
Fixpoint for_each {A} (f : A -> M unit) (l : list A) : M unit :=
  match l with [] => mret tt | a :: l => f a ;; for_each f l end.
Definition check_unconsumed : M unit :=
  slots ← gets linear_slots;
  for_each unconsumed_error (filter (fun slot => consumed slot = false) (map_to_list slots).*2).

Definition analyze_fn_body (block : nat) (body : list InstructionId) (ret_ty : Z) : M (Result unit) :=
  body_flow ←? analyze_instruction_block block body;
  void ← common void_t;
  (if bool_decide (body_flow = ControlFlow.Always) then mret tt
   else if ret_ty =? void then _ ← inst block (Vtir.Return None); mret tt
   else push_error (Diagnostic.with_message Diagnostic.error
          (bytes_of "function with non-void return type does not return on all paths"))) ;;
  check_unconsumed ;;
  ok tt.

Definition analyze_fn_body_at_comptime (block : nat) (body : list InstructionId) (ret_ty : Z)
    (caller_span : DiagSpan.DiagSpan) : M (Result (option InstructionRef)) :=
  r ← analyze_instruction_block block body;
  value ← match r with
          | Ok _ =>
              void ← common void_t;
              if ret_ty =? void then mret (Ok (Some (Interned void)))
              else
                push_error (error_with
                  (bytes_of "function with non-void return type does not return on all paths") caller_span) ;;
                mret (Err AnalysisFailed)
          | Err (InlineReturn value) => mret (Ok value)
          | Err e => mret (Err e)
          end;
  check_unconsumed ;;
  mret value.

End Bodies.

End Init.
End SemaInit.
