(* ===== verification/SemaDecl.v ===== *)
(** * Declarations of types and functions ([src/compile_unit/sema.rs])

    The arms of [analyze_inst] for structs, enums, unions and functions: a type is
    interned first with no value, so that its namespace has an owner, then its
    fields are resolved and the value is stored.  Also the layout of packed
    structs, the values of enum variants and the automatic tags of unions. *)

From S2P Require Import Prelude Words Bytes Span Token Diagnostic Ast HashIndex ShardedMap.
From S2P Require Import Anyint Value ValueStore ValueLayout Vuir Vtir SemaState SemaAccess SemaFold SemaInit.
From stdpp Require Import gmap.

#[local] Open Scope Z_scope.
#[local] Open Scope sema_scope.

Module SemaDecl.
Import Value ValueStore IrId Sema SemaAccess SemaFold SemaInit.

(** [COMMON_INTERNS] of [common/interns.rs]: the symbols that the analysis knows. *)
Definition self_ty_symbol : list Z := bytes_of "Self".
Definition main_symbol : list Z := bytes_of "main".
Definition calling_convention_symbol : list Z := bytes_of "CallingConvention".
Definition type_symbol : list Z := bytes_of "Type".

(** [Namespace::with_owner_type] and [Namespace::with_parent]. *)
Definition with_owner_type (owner_type : Z) : Namespace :=
  {| ns_parent := None; ns_decls := ∅; owner_type := owner_type |}.
Definition with_parent (parent : nat) (owner_type : Z) : Namespace :=
  {| ns_parent := Some parent; ns_decls := ∅; owner_type := owner_type |}.

(** The variants of [CallingConvention] in the order of their discriminants. *)
Definition callconv_variants : list CallingConvention :=
  [Vif; C; Fast; Cold; X86_64Windows; X86_64SysV; Aarch64Darwin; Aarch64Win].
Definition callconv_count : nat := length callconv_variants.

(** ** Packed structs *)

(** Can a field of this type be packed? *)
Definition packable (t : Ty) (value : Value) : res bool :=
  match t with
  | Isize | Usize | F16 | F32 | F64 | F128 | Bool | Void | Int _ _ => Ret true
  | Struct _ => s ← as_struct_value value; Ret (is_packed s)
  | _ => Ret false
  end.

(** The bits that a field takes. *)
Definition packed_width (target : ValueLayout.ResolvedTargetInfo) (t : Ty) (value : Value) : res Z :=
  match t with
  | Int _ bits => Ret bits
  | Bool => Ret 1
  | F16 => Ret 16
  | F32 => Ret 32
  | F64 => Ret 64
  | F128 => Ret 128
  | Isize | Usize => Ret (ValueLayout.ptr_width_in_bits target)
  | Void => Ret 0
  | Struct _ =>
      match value with
      | VStruct {| layout := Packed _ fields_bits _ |} => Ret fields_bits
      | _ => panic
      end
  | _ => panic
  end.

Definition u32_checked (n : Z) : res Z := if n <? 2^32 then Ret n else panic.

(** The fields one after the other; the offset is a checked [u32]. *)
Fixpoint pack_fields (widths : list Z) (bit_offset : Z) : res (list PackedStructFieldInfo * Z) :=
  match widths with
  | [] => Ret ([], bit_offset)
  | width :: widths =>
      next ← u32_checked (bit_offset + width);
      '(infos, fields_bits) ← pack_fields widths next;
      Ret ({| offset := bit_offset; width := width |} :: infos, fields_bits)
  end.

Definition packed_layout (widths : list Z) : res StructLayout :=
  '(infos, fields_bits) ← pack_fields widths 0;
  storage_bits ← u32_checked (ValueLayout.div_ceil fields_bits 8 * 8);
  Ret (Packed storage_bits fields_bits infos).

(** ** Tags *)

(** [len.next_power_of_two().trailing_zeros().max(1).min(u16::MAX as u32) as u16]. *)
Definition tag_bits (variants : nat) : Z := Z.min (Z.max (Z.log2_up (Z.of_nat variants)) 1) (2^16 - 1).

Section Decl.
Context `{!Setting, !Workers, !TypeInfo}.
Variable analyze_inst : nat -> InstructionId -> M (Result (InstructionRef * ControlFlow)).

Definition vuir_at (id : InstructionId) : M Vuir.Opcode := l ← gets vuir; lift (get_idx l (to_usize id)).

(** ** Namespaces and members *)

Definition push_namespace (ns : Namespace) : M nat :=
  l ← gets (fun self => namespaces (cu self));
  modify_cu (set_namespaces (l ++ [ns])) ;;
  mret (length l).
Definition push_decl (d : Decl) : M nat :=
  l ← gets (fun self => decls (cu self));
  modify_cu (set_decls (l ++ [d])) ;;
  mret (length l).
Definition update_namespace (namespace : nat) (f : Namespace -> Namespace) : M unit :=
  l ← gets (fun self => namespaces (cu self));
  ns ← lift (get_idx l namespace);
  l ← lift (set_idx l namespace (f ns));
  modify_cu (set_namespaces l).
Definition set_ns_decls (decls : gmap (list Z) nat) (ns : Namespace) : Namespace :=
  {| ns_parent := ns_parent ns; ns_decls := decls; owner_type := owner_type ns |}.

(** The members of a type become declarations that are not analysed yet; a later
    one of the same name takes the place of an earlier one. *)
Definition declare_member (owner_fqn : list Z) (namespace : nat) (decl_id : InstructionId) : M (list Z * nat) :=
  opcode ← vuir_at decl_id;
  match opcode with
  | Vuir.Declaration decl =>
      let name := Vuir.decl_name decl in
      m ← gets Sema.module;
      id ← push_decl {|
        decl_name := name;
        full_qualified_name := owner_fqn ++ bytes_of "." ++ name;
        decl_is_const := Vuir.decl_is_const decl;
        decl_module := m;
        decl_namespace := namespace;
        analysis_state := Unanalysed m decl_id |};
      mret (name, id)
  | _ => unreachable
  end.
Fixpoint declare_members (owner_fqn : list Z) (namespace : nat) (members : list InstructionId)
    (namespace_decls : gmap (list Z) nat) : M (gmap (list Z) nat) :=
  match members with
  | [] => mret namespace_decls
  | m :: members =>
      '(name, id) ← declare_member owner_fqn namespace m;
      declare_members owner_fqn namespace members (<[name := id]> namespace_decls)
  end.
Definition owner_name : M (list Z) := owner ← gets owner_decl; d ← decl_at owner; mret (full_qualified_name d).
Definition declare_all (namespace : nat) (members : list InstructionId) : M unit :=
  match members with
  | [] => mret tt
  | _ =>
      owner_fqn ← owner_name;
      namespace_decls ← declare_members owner_fqn namespace members ∅;
      update_namespace namespace (set_ns_decls namespace_decls)
  end.

(** [Self], for a type that has members. *)
Definition inject_self (namespace : nat) (index : Z) (members : list InstructionId) : M unit :=
  match members with
  | [] => mret tt
  | _ =>
      owner_fqn ← owner_name;
      m ← gets Sema.module;
      self_decl_id ← push_decl {|
        decl_name := self_ty_symbol;
        full_qualified_name := owner_fqn ++ bytes_of ".Self";
        decl_is_const := true;
        decl_module := m;
        decl_namespace := namespace;
        analysis_state := Analysed index |};
      update_namespace namespace (fun ns => set_ns_decls (<[self_ty_symbol := self_decl_id]> (ns_decls ns)) ns)
  end.

(** The key of a type declared by [id], and its index with no value yet. *)
Definition declare_type (make : NamespaceType -> Ty) (block : nat) (id : InstructionId)
    (captures_ : list Vuir.Capture) : M (Result (Key * Z * list Capture)) :=
  captures ←? resolve_vuir_captures block captures_;
  m ← gets Sema.module;
  let key := KType (make {| ns_inst := {| Value.module := m; Value.inst := id |}; Value.captures := captures |}) in
  index ← intern_non_trivial key ValueStore.none;
  ok (key, index, captures).

(** The child block in which a type is analyzed. *)
Definition type_block (parent namespace : nat) : M nat :=
  block ← child_block parent;
  b ← block_at block;
  set_block block (set_namespace namespace b) ;;
  mret block.

Definition parent_namespace (block : nat) : M nat := b ← block_at block; mret (namespace b).

(** [vuir_map.insert], [unstack_block], and the type as the value. *)
Definition finish_type (id : InstructionId) (block : nat) (index : Z)
    : M (Result (InstructionRef * ControlFlow)) :=
  map_inst id (Interned index) ;;
  unstack_block block ;;
  ok (Interned index, ControlFlow.May).

(** ** Structs *)

Definition resolve_field_ty (block : nat) (ty : Vuir.FieldTy) (span : Span.Span) : M (Result Z) :=
  match ty with
  | Vuir.Ref r => resolve_type block r span
  | Vuir.Body instructions =>
      ty ←? analyze_comptime_block analyze_inst block instructions;
      match ty with
      | Some ty => ty ← lift (as_interned ty); ok ty
      | None => unreachable
      end
  end.

Definition resolve_struct_field (block : nat) (field : Vuir.Field) : M (Result StructField) :=
  ty ←? resolve_field_ty block (Vuir.field_ty field) (Ident.span (Vuir.field_name field));
  ok {| sf_name := Ident.symbol (Vuir.field_name field); sf_ty := ty |}.

(** A field that cannot be packed fails the analysis; nothing is reported. *)
Definition check_packable (f : StructField) : M (Result unit) :=
  kv ← index_to_key_value (sf_ty f);
  match kv with
  | (KType t, value) => b ← lift (packable t value); if b : bool then ok tt else fail AnalysisFailed
  | _ => fail AnalysisFailed
  end.

Definition field_width (f : StructField) : M Z :=
  kv ← index_to_key_value (sf_ty f);
  target ← gets (fun self => target (cu self));
  match kv with
  | (KType t, value) => lift (packed_width target t value)
  | _ => unreachable
  end.
Fixpoint field_widths (fields : list StructField) : M (list Z) :=
  match fields with
  | [] => mret []
  | f :: fields => w ← field_width f; ws ← field_widths fields; mret (w :: ws)
  end.

Definition struct_layout (packed : bool) (fields : list StructField) : M (Result StructLayout) :=
  if packed then
    _ ←? try_map check_packable fields;
    widths ← field_widths fields;
    l ← lift (packed_layout widths);
    ok l
  else ok Standard.

Definition analyze_decl_struct (block : nat) (id : InstructionId) (naming : Vuir.NamingKind)
    (fields : list Vuir.Field) (packed linear : bool) (members : list InstructionId)
    (captures : list Vuir.Capture) : M (Result (InstructionRef * ControlFlow)) :=
  '(struct_key, struct_idx, _) ←? declare_type Struct block id captures;
  parent ← parent_namespace block;
  namespace ← (if id =? FILE_MODULE then mret parent else push_namespace (with_parent parent struct_idx));
  block ← type_block block namespace;
  declare_all namespace members ;;
  fields ←? try_map (resolve_struct_field block) fields;
  layout ←? struct_layout packed fields;
  name ← make_type_name block id naming;
  intern_non_trivial struct_key (VStruct {|
    struct_name := name;
    struct_fields := fields;
    layout := layout;
    struct_namespace := Z.of_nat namespace;
    struct_linear := linear |}) ;;
  inject_self namespace struct_idx members ;;
  finish_type id block struct_idx.

(** ** Enums *)

Definition is_tag_type (k : Key) : bool := match k with KType (Int _ _) | KType TAnyint => true | _ => false end.

Definition enum_tag_type (block : nat) (tag_ty : option (InstructionRef * Span.Span)) (variants : nat)
    : M (Result (Z * bool)) :=
  match tag_ty with
  | Some (tag_ty, tag_ty_span) =>
      tag_ty ←? resolve_type block tag_ty tag_ty_span;
      key ← index_to_key tag_ty;
      if is_tag_type key then ok (tag_ty, true)
      else
        ty ← display tag_ty;
        fail_at (bytes_of "a enum tag can only be an integer, found `" ++ ty ++ bytes_of "`") tag_ty_span
  | None => ty ← intern_trivial (KType (Int false (tag_bits variants))); ok (ty, false)
  end.

(** The value of a variant: the one it is given, coerced to the tag type, or its
    position, whatever the tag type is. *)
Definition variant_val (block : nat) (tag_ty : Z) (i : nat) (value : option (InstructionRef * Span.Span))
    : M (Result Z) :=
  match value with
  | Some (value, value_span) =>
      value ← resolve_inst value;
      value ←? coerce block tag_ty value value_span;
      match try_resolve_comptime_value value with Some v => ok v | None => unreachable end
  | None => v ← intern_trivial (KInt tag_ty (Anyint.from_unsigned (Z.of_nat i))); ok v
  end.

Definition value_taken {A} (span existing_span : Span.Span) : M (Result A) :=
  at_ ← diag_span span;
  existing ← diag_span existing_span;
  push_error (Diagnostic.with_label (Diagnostic.with_label
    (Diagnostic.with_message Diagnostic.error (bytes_of "enum value already taken"))
    (Label.with_message (Label.with_span Label.primary at_) (bytes_of "redefinition here")))
    (Label.with_message (Label.with_span Label.secondary existing) (bytes_of "first definition here"))) ;;
  fail AnalysisFailed.

Fixpoint enum_variants (block : nat) (tag_ty : Z) (had_type : bool) (i : nat)
    (variants : list Vuir.EnumVariant) (taken : gmap Z Span.Span) : M (Result (list EnumField)) :=
  match variants with
  | [] => ok []
  | field :: variants =>
      if bool_decide (is_Some (Vuir.variant_value field)) && negb had_type then
        at_ ← diag_span (Ident.span (Vuir.ident field));
        push_error (Diagnostic.with_label
          (Diagnostic.with_message Diagnostic.error
            (bytes_of "cannot assign a value to an enum field without a tag type"))
          (Label.with_message (Label.with_span Label.primary at_) (bytes_of "assigned value here"))) ;;
        fail AnalysisFailed
      else
        value ←? variant_val block tag_ty i (Vuir.variant_value field);
        match taken !! value with
        | Some existing_span => value_taken (Vuir.variant_span field) existing_span
        | None =>
            fields ←? enum_variants block tag_ty had_type (S i) variants
                       (<[value := Vuir.variant_span field]> taken);
            ok ({| ef_name := Ident.symbol (Vuir.ident field); ef_value := value |} :: fields)
        end
  end.

Definition analyze_decl_enum (block : nat) (id : InstructionId) (tag_ty : option (InstructionRef * Span.Span))
    (naming : Vuir.NamingKind) (linear : bool) (variants : list Vuir.EnumVariant)
    (members : list InstructionId) (captures : list Vuir.Capture) : M (Result (InstructionRef * ControlFlow)) :=
  '(enum_key, enum_idx, _) ←? declare_type Enum block id captures;
  parent ← parent_namespace block;
  namespace ← push_namespace (with_parent parent enum_idx);
  block ← type_block block namespace;
  declare_all namespace members ;;
  '(tag_ty, had_type) ←? enum_tag_type block tag_ty (length variants);
  fields ←? enum_variants block tag_ty had_type 0 variants ∅;
  name ← make_type_name block id naming;
  intern_non_trivial enum_key (VEnum {|
    enum_name := name;
    enum_tag_ty := tag_ty;
    enum_fields := fields;
    enum_namespace := Z.of_nat namespace;
    enum_linear := linear |}) ;;
  inject_self namespace enum_idx members ;;
  finish_type id block enum_idx.

(** ** Unions *)

Definition resolve_union_field (block : nat) (field : Vuir.UnionField) : M (Result UnionField) :=
  let name := Vuir.uf_name field in
  ty ←? match Vuir.uf_ty field with
        | Some field_ty => ty ←? resolve_field_ty block field_ty (Ident.span name); ok (Some ty)
        | None => ok None
        end;
  ok {| uf_name := Ident.symbol name; uf_ty := ty |}.

(** The variants of the automatic tag: the positions of the fields. *)
Fixpoint auto_tag_fields (tag_ty : Z) (i : nat) (fields : list UnionField) : M (list EnumField) :=
  match fields with
  | [] => mret []
  | field :: fields =>
      v ← intern_trivial (KInt tag_ty (Anyint.from_unsigned (Z.of_nat i)));
      rest ← auto_tag_fields tag_ty (S i) fields;
      mret ({| ef_name := uf_name field; ef_value := v |} :: rest)
  end.

Definition auto_tag (id : InstructionId) (namespace : nat) (union_name : list Z) (captures : list Capture)
    (linear : bool) (fields : list UnionField) : M Z :=
  tag_ty ← intern_trivial (KType (Int false (tag_bits (length fields))));
  enum_fields ← auto_tag_fields tag_ty 0 fields;
  m ← gets Sema.module;
  let enum_key := KType (Enum {| ns_inst := {| Value.module := m; Value.inst := id |};
                                 Value.captures := captures |}) in
  enum_idx ← intern_non_trivial enum_key ValueStore.none;
  enum_namespace ← push_namespace (with_parent namespace enum_idx);
  intern_non_trivial enum_key (VEnum {|
    enum_name := union_name ++ bytes_of "_AutoEnumTag";
    enum_tag_ty := tag_ty;
    enum_fields := enum_fields;
    enum_namespace := Z.of_nat enum_namespace;
    enum_linear := linear |}).

(** [None]: a bare union; [Some None]: an automatic tag. *)
Definition union_tag_type (id : InstructionId) (block namespace : nat) (union_name : list Z)
    (captures : list Capture) (linear : bool) (fields : list UnionField)
    (tag : option (option (InstructionRef * Span.Span))) : M (Result (option Z)) :=
  match tag with
  | None => ok None
  | Some None => t ← auto_tag id namespace union_name captures linear fields; ok (Some t)
  | Some (Some (tag_ref, tag_span)) =>
      tag_ty ←? resolve_type block tag_ref tag_span;
      key ← index_to_key tag_ty;
      match key with
      | KType (Enum _) => ok (Some tag_ty)
      | _ => fail_at (bytes_of "union tag type must be an enum") tag_span
      end
  end.

Definition analyze_decl_union (block : nat) (id : InstructionId)
    (tag : option (option (InstructionRef * Span.Span))) (naming : Vuir.NamingKind) (linear : bool)
    (fields : list Vuir.UnionField) (members : list InstructionId) (captures : list Vuir.Capture)
    : M (Result (InstructionRef * ControlFlow)) :=
  '(union_key, union_idx, captures) ←? declare_type Union block id captures;
  parent ← parent_namespace block;
  namespace ← push_namespace (with_parent parent union_idx);
  block ← type_block block namespace;
  declare_all namespace members ;;
  name ← make_type_name block id naming;
  fields ←? try_map (resolve_union_field block) fields;
  tag_ty ←? union_tag_type id block namespace name captures linear fields tag;
  intern_non_trivial union_key (VUnion {|
    union_name := name;
    union_tag_ty := tag_ty;
    union_fields := fields;
    union_namespace := Z.of_nat namespace;
    union_linear := linear |}) ;;
  inject_self namespace union_idx members ;;
  finish_type id block union_idx.

(** ** Functions *)

(** A run-time parameter of a comptime-only type is reported. *)
Definition check_param (param : DeclFnParam) : M bool :=
  poison ← common generic_poison_t;
  if comptime_param param || (param_ty param =? poison) then mret false
  else
    only ← type_is_comptime_only (param_ty param);
    if only : bool then
      ty ← display (param_ty param);
      at_ ← diag_span (param_span param);
      push_error (Diagnostic.with_note
        (error_with (bytes_of "runtime parameter `" ++ param_name param ++
                     bytes_of "` cannot have comptime-only type `" ++ ty ++ bytes_of "`") at_)
        (bytes_of "use `comptime`")) ;;
      mret true
    else mret false.
Fixpoint check_params (params : list DeclFnParam) : M bool :=
  match params with
  | [] => mret false
  | p :: params => bad ← check_param p; rest ← check_params params; mret (bad || rest)
  end.

(** The parameters that the instructions of a declaration add to a block of their
    own, which stays on the stack; an error of theirs is dropped. *)
Definition declared_params (block : nat) (params : list InstructionId) : M (list DeclFnParam) :=
  params_block ← child_block block;
  _ ← analyze_comptime_block analyze_inst params_block params;
  b ← block_at params_block;
  mret (decl_fn_params b).

(** The body that an instruction refers to as a comptime block. *)
Definition comptime_body (id : InstructionId) : M (list InstructionId) :=
  opcode ← vuir_at id;
  match opcode with Vuir.BlockComptime instructions => mret instructions | _ => unreachable end.

(** [modules[builtin_module].namespace.get().copied()], unwrapped. *)
Definition builtin_namespace : M nat :=
  l ← gets (fun self => modules (cu self));
  k ← gets (fun self => known (cu self));
  m ← lift (get_idx l (Z.to_nat (builtin_module k)));
  match module_namespace m with Some ns => mret ns | None => unreachable end.

Definition resolve_builtin_calling_convention_type : M (Result Z) :=
  ns ← builtin_namespace;
  decl ← lookup_decl_in_namespace ns calling_convention_symbol;
  match decl with
  | None => unreachable
  | Some decl =>
      ty ←? get_or_analyze_decl_value decl;
      match ty with
      | None => fail AnalysisFailed
      | Some ty =>
          key ← index_to_key ty;
          match key with KType (Enum _) => ok ty | _ => unreachable end
      end
  end.

(** [CompilationUnit::builtin_type_info]: the struct [Type] of the module [builtin]. *)
Definition builtin_type_info : M (Result Z) :=
  ns ← builtin_namespace;
  decl ← lookup_decl_in_namespace ns type_symbol;
  match decl with
  | None => unreachable
  | Some decl =>
      ty ←? get_or_analyze_decl_value decl;
      match ty with
      | None => fail AnalysisFailed
      | Some ty =>
          key ← index_to_key ty;
          match key with KType (Struct _) => ok ty | _ => unreachable end
      end
  end.

(** The variant with discriminant [val as u8]. *)
Definition callconv_of (val : Anyint.t) (variants : nat) : res CallingConvention :=
  match Anyint.to_u64 val with
  | None => panic
  | Some n =>
      assert_ (variants =? callconv_count)%nat ;;
      get_idx callconv_variants (Z.to_nat (n mod 2^8))
  end.

Definition explicit_callconv (block : nat) (callconv : InstructionId) (span : Span.Span)
    : M (Result CallingConvention) :=
  instructions ← comptime_body callconv;
  callconv_value ←? analyze_comptime_block analyze_inst block instructions;
  match callconv_value with
  | None => fail_at (bytes_of "`#callconv` requires a comptime value") span
  | Some callconv_value =>
      callconv_ty ←? resolve_builtin_calling_convention_type;
      callconv_value ← lift (as_interned callconv_value);
      ty ← type_of_interned callconv_value;
      if negb (ty =? callconv_ty) then
        fail_at (bytes_of "`#callconv` expression must have type `CallingConvention`") span
      else
        value ← index_to_value callconv_ty;
        match value with
        | VEnum callconv_enum_ty =>
            key ← index_to_key callconv_value;
            match key with
            | KEnumTag enum_ty val =>
                if negb (enum_ty =? callconv_ty) then
                  fail_at (bytes_of "`#callconv` expression must evaluate to `builtin.CallingConvention`") span
                else
                  key ← index_to_key val;
                  v ← lift (as_int key);
                  c ← lift (callconv_of v.2 (length (enum_fields callconv_enum_ty)));
                  ok c
            | _ => fail_at (bytes_of "`#callconv` expression must evaluate to a `CallingConvention` variant") span
            end
        | _ => unreachable
        end
  end.

Definition fn_callconv (block : nat) (callconv : option InstructionId) (external : bool) (span : Span.Span)
    : M (Result CallingConvention) :=
  match callconv with
  | Some callconv => explicit_callconv block callconv span
  | None => ok (if external then C else Vif)
  end.

(** A generic return type is known at the call sites only. *)
Definition fn_ret_ty (block : nat) (ret_ty : InstructionId) (ret_ty_is_generic : bool) : M (Result Z) :=
  if ret_ty_is_generic then t ← common generic_poison_t; ok t
  else
    instructions ← comptime_body ret_ty;
    ret_ty ←? analyze_comptime_block analyze_inst block instructions;
    match ret_ty with
    | None => unreachable
    | Some ret_ty => t ← lift (as_interned ret_ty); ok t
    end.

Definition to_value_inline (i : Inline.Inline) : Value.Inline :=
  match i with
  | Inline.None => InlineNone
  | Inline.Always => InlineAlways
  | Inline.Never => InlineNever
  end.

Definition analyze_decl_fn (block : nat) (id : InstructionId) (ret_ty : InstructionId) (ret_ty_is_generic : bool)
    (params : list InstructionId) (var_args external : bool) (callconv : option InstructionId)
    (inline : Inline.Inline) (span : Span.Span) : M (Result (InstructionRef * ControlFlow)) :=
  params ← declared_params block params;
  runtime_param_error ← check_params params;
  if runtime_param_error : bool then fail AnalysisFailed
  else
    ret_ty ←? fn_ret_ty block ret_ty ret_ty_is_generic;
    callconv ←? fn_callconv block callconv external span;
    fn_ty ← intern_trivial (KType (Fn {|
      Value.params := map param_ty params;
      comptime_params := map comptime_param params;
      Value.var_args := var_args;
      Value.ret_ty := ret_ty;
      Value.external := external;
      Value.callconv := callconv;
      Value.inline := to_value_inline inline |}));
    owner ← gets owner_decl;
    m ← gets Sema.module;
    fn_decl ← intern_trivial (KFnDecl {|
      fd_owner_decl := Z.of_nat owner;
      func_decl_inst := {| Value.module := m; Value.inst := id |};
      fd_ty := fn_ty |});
    map_inst id (Interned fn_decl) ;;
    ok (Interned fn_decl, ControlFlow.May).

End Decl.
End SemaDecl.
