(* ===== verification/SemaCall.v ===== *)
(** * Calls ([src/compile_unit/sema/call.rs], [analyze_fn_builtin_body] of [sema.rs])

    A call matches its arguments with parameters, resolves generic parameter and
    return types with the arguments analyzed so far, and either evaluates the
    callee in place (at compile time, when it is marked inline, and for builtins)
    or queues its analysis and emits a call instruction. *)

From S2P Require Import Prelude Words Bytes Span Token Diagnostic Ast HashIndex ShardedMap.
From S2P Require Import Anyint Value ValueStore ValueLayout Vuir Vtir SemaState SemaAccess SemaFold SemaInit SemaDecl.
From stdpp Require Import gmap.

#[local] Open Scope Z_scope.
#[local] Open Scope sema_scope.

(** Paths of modules: the functions of the crate [relative_path], and its equality
    of paths, which compares components. *)
Class Paths := {
  path_eq : list Z -> list Z -> bool;
  path_parent : list Z -> option (list Z);
  path_join : list Z -> list Z -> list Z;
  path_normalize : list Z -> list Z;
  path_file_name : list Z -> option (list Z);
}.

(** The analysis of the module that an [@import] names
    ([CompilationUnit::get_or_analyze_module_sync]). *)
Class Modules `{!Setting} := get_or_analyze_module_sync : Z -> Sema.M (Sema.Result Z).

Module SemaCall.
Import Value ValueStore IrId Sema SemaAccess SemaFold SemaInit SemaDecl.

(** ** The callee *)

Record VuirFnInfo : Set := {
  fn_decl_origin_module_vuir : list Vuir.Opcode;
  info_ret_ty : InstructionId;
  info_body : list InstructionId;
  info_params : list InstructionId;
  info_span : Span.Span;
  info_builtin : option Vuir.BuiltinKind;
}.

(** The parts of the parameter declared by an instruction of a module. *)
Definition fn_param (vuir : list Vuir.Opcode) (id : InstructionId) : res (list Z * list InstructionId * bool) :=
  opcode ← get_idx vuir (to_usize id);
  match opcode with
  | Vuir.DeclFnParam name type_body comptime _ _ => Ret (Ident.symbol name, type_body, comptime)
  | _ => panic
  end.
Definition param_at (info : VuirFnInfo) (idx : nat) : res (list Z * list InstructionId * bool) :=
  p ← get_idx (info_params info) idx;
  fn_param (fn_decl_origin_module_vuir info) p.

Definition param_display_name (info : VuirFnInfo) (param_idx : nat) : res (list Z) :=
  p ← param_at info param_idx; Ret p.1.1.

Fixpoint position_param (vuir : list Vuir.Opcode) (params : list InstructionId) (wanted_name : list Z)
    : res (option nat) :=
  match params with
  | [] => Ret None
  | p :: params =>
      decl ← fn_param vuir p;
      if bool_decide (decl.1.1 = wanted_name) then Ret (Some O)
      else i ← position_param vuir params wanted_name; Ret (option_map S i)
  end.
Definition param_idx_by_name (info : VuirFnInfo) (wanted_name : list Z) : res (option nat) :=
  position_param (fn_decl_origin_module_vuir info) (info_params info) wanted_name.

(** What is known of a callee that is a compile-time value. *)
Record Static : Set := { decl_index : Z; func_decl : FnDecl; func_vuir_info : VuirFnInfo }.

(** The name of a parameter in messages. *)
Definition display_param (callee : option Static) (idx : nat) : res (list Z) :=
  match callee with
  | Some callee => param_display_name (func_vuir_info callee) idx
  | None => Ret (bytes_of "#" ++ decimal (Z.of_nat idx + 1))
  end.

(** An argument: its index among the parameters ([None]: variadic). *)
Definition InputArg : Set := option nat * Vuir.FnCallArg.

Section Call.
Context `{!Setting, !Workers, !TypeInfo, !Paths, !Modules}.
Variable analyze_inst : nat -> InstructionId -> M (Result (InstructionRef * ControlFlow)).

Definition module_at (m : Z) : M Module_ := l ← gets (fun self => modules (cu self)); lift (get_idx l (Z.to_nat m)).
Definition unwrap {A} (o : option A) : M A := match o with Some a => mret a | None => unreachable end.

Definition get_vuir_fn_info (func_decl : FnDecl) : M VuirFnInfo :=
  decl_at (Z.to_nat (fd_owner_decl func_decl)) ;;
  m ← module_at (Value.module (func_decl_inst func_decl));
  vuir ← unwrap (module_vuir m);
  opcode ← lift (get_idx vuir (to_usize (Value.inst (func_decl_inst func_decl))));
  match opcode with
  | Vuir.DeclFn ret_ty _ params _ body _ _ builtin _ span =>
      mret {| fn_decl_origin_module_vuir := vuir; info_ret_ty := ret_ty; info_body := body;
              info_params := params; info_span := span; info_builtin := builtin |}
  | _ => unreachable
  end.

Definition static_callee (fun_ : InstructionRef) : M (option Static) :=
  match try_resolve_comptime_value fun_ with
  | None => mret None
  | Some i =>
      key ← index_to_key i;
      d ← lift (as_fn_decl key);
      info ← get_vuir_fn_info d;
      mret (Some {| decl_index := i; func_decl := d; func_vuir_info := info |})
  end.

Definition callee_type (callee : option Static) (fun_ : InstructionRef) (span : Span.Span) : M (Result TypeFn) :=
  match callee with
  | Some callee => key ← index_to_key (fd_ty (func_decl callee)); t ← lift (as_type_fn key); ok t
  | None =>
      ty ← type_of fun_;
      key ← index_to_key ty;
      match key with
      | KType (Fn t) => ok t
      | _ => fail_at (bytes_of "callee is not a function") span
      end
  end.

(** A block of its own for the types of generic parameters, known at compile time. *)
Definition set_comptime (c : bool) (b : Block) : Block :=
  mk_block (namespace b) (parent b) (block_instructions b) (vuir_block b) c (inlined b) (base_type_name b)
    (decl_fn_params b) (runtime_env b).
Definition comptime_child_block (parent : nat) : M nat :=
  block ← child_block parent;
  b ← block_at block;
  set_block block (set_comptime true b) ;;
  mret block.

(** ** Matching arguments with parameters *)

Definition param_of_arg (callee : option Static) (params : nat) (i : nat) (arg : Vuir.FnCallArg) : res (option nat) :=
  match Vuir.arg_name arg with
  | Some name =>
      match callee with
      | Some callee => param_idx_by_name (func_vuir_info callee) name
      | None => Ret None
      end
  | None => Ret (if (i <? params)%nat then Some i else None)
  end.

Fixpoint match_args (callee : option Static) (var_args : bool) (i : nat) (args : list Vuir.FnCallArg)
    (valid_params : list bool) : M (Result (list InputArg * list bool)) :=
  match args with
  | [] => ok ([], valid_params)
  | arg :: args =>
      let params := length valid_params in
      param_idx ← lift (param_of_arg callee params i arg);
      '(param_idx, valid_params) ←?
        match param_idx, Vuir.arg_name arg with
        | Some idx, _ =>
            taken ← lift (get_idx valid_params idx);
            if taken : bool then
              name ← lift (display_param callee idx);
              fail_at (bytes_of "argument `" ++ name ++ bytes_of "` was provided more than once") (Vuir.arg_span arg)
            else
              valid_params ← lift (set_idx valid_params idx true);
              ok (Some idx, valid_params)
        | None, Some name =>
            fail_at
              (match callee with
               | Some _ => bytes_of "no parameter named `" ++ name ++ bytes_of "` in function"
               | None => bytes_of "named argument `" ++ name ++ bytes_of "` requires a statically known callee"
               end) (Vuir.arg_span arg)
        | None, None =>
            if var_args then ok (None, valid_params)
            else
              fail_at (bytes_of "function takes " ++ decimal (Z.of_nat params) ++
                       bytes_of " parameters but more were supplied") (Vuir.arg_span arg)
        end;
      '(rest, valid_params) ←? match_args callee var_args (S i) args valid_params;
      ok ((param_idx, arg) :: rest, valid_params)
  end.

(** The parameters without an argument are reported, in order. *)
Fixpoint report_missing (callee : option Static) (idx : nat) (valid_params : list bool) (span : Span.Span) : M bool :=
  match valid_params with
  | [] => mret false
  | true :: valid_params => report_missing callee (S idx) valid_params span
  | false :: valid_params =>
      name ← lift (display_param callee idx);
      at_ ← diag_span span;
      push_error (Diagnostic.with_note
        (error_with (bytes_of "missing argument `" ++ name ++ bytes_of "`") at_)
        (bytes_of "use `_` to explicitly infer this argument")) ;;
      report_missing callee (S idx) valid_params span ;;
      mret true
  end.

Definition input_args (callee : option Static) (t : TypeFn) (args : list Vuir.FnCallArg) (span : Span.Span)
    : M (Result (list InputArg)) :=
  '(input_args, valid_params) ←?
    match_args callee (Value.var_args t) 0 args (replicate (length (Value.params t)) false);
  missing_params ← report_missing callee 0 valid_params span;
  if missing_params : bool then fail AnalysisFailed else ok input_args.

(** ** Generic types *)

(** Run with [param_map] in the place of [vuir_map], and give both back. *)
Definition with_param_map {R} (param_map : gmap Z InstructionRef) (m : M R) : M (R * gmap Z InstructionRef) :=
  saved ← gets vuir_map;
  modify (set_vuir_map param_map) ;;
  r ← m;
  param_map ← gets vuir_map;
  modify (set_vuir_map saved) ;;
  mret (r, param_map).

(** The type that a body of the callee's module computes. *)
Definition generic_type (callee : Static) (generic_block : nat) (body : M (list InstructionId)) : M (Result Z) :=
  with_different_vuir (fn_decl_origin_module_vuir (func_vuir_info callee))
    (Value.module (func_decl_inst (func_decl callee)))
    (instructions ← body;
     ty ←? analyze_comptime_block analyze_inst generic_block instructions;
     unreachable_value ← common unreachable_value;
     ty ← lift (as_interned (default (Interned unreachable_value) ty));
     ok ty).

Definition param_type (callee : option Static) (t : TypeFn) (generic_block : option nat) (arg_idx : nat)
    (param_map : gmap Z InstructionRef) (span : Span.Span) : M (Result (Z * gmap Z InstructionRef)) :=
  ty ← lift (get_idx (Value.params t) arg_idx);
  poison ← common generic_poison_t;
  if negb (ty =? poison) then ok (ty, param_map)
  else
    match callee, generic_block with
    | None, _ => fail_at (bytes_of "runtime function pointers cannot infer generic parameter types") span
    | Some _, None => unreachable
    | Some callee, Some generic_block =>
        '(ty, param_map) ← with_param_map param_map
          (generic_type callee generic_block
             (p ← lift (param_at (func_vuir_info callee) arg_idx); mret p.1.2));
        match ty with Ok ty => ok (ty, param_map) | Err e => fail e end
    end.

(** ** Arguments *)

(** The values of the arguments by parameter, the variadic ones, and the map of
    parameters to what stands for them. *)
Record CallArgs : Set := mk_args {
  resolved_args : list (option (InstructionRef * Span.Span));
  variadic_args : list InstructionRef;
  param_map : gmap Z InstructionRef;
}.

(** The body of an argument: its value, or [unreachable]. *)
Definition analyze_arg (block : nat) (arg : Vuir.FnCallArg) : M (Result InstructionRef) :=
  r ←? analyze_comptime_block analyze_inst block (Vuir.arg_body arg);
  unreachable_value ← common unreachable_value;
  ok (default (Interned unreachable_value) r).

Definition analyze_variadic (call_vuir_id : InstructionId) (block : nat) (arg : Vuir.FnCallArg) (a : CallArgs)
    : M (Result CallArgs) :=
  void ← common void_t;
  map_inst call_vuir_id (Interned void) ;;
  arg_inst ←? analyze_arg block arg;
  arg_ty ← type_of arg_inst;
  r ← promote_variadic_arg block arg_inst arg_ty (Vuir.arg_span arg);
  match r with
  | Ok (coerced_arg, _) =>
      ok (mk_args (resolved_args a) (variadic_args a ++ [coerced_arg]) (param_map a))
  | Err _ => fail AnalysisFailed
  end.

Definition param_is_comptime (callee : option Static) (t : TypeFn) (arg_idx : nat) : res bool :=
  match callee with
  | Some callee => p ← param_at (func_vuir_info callee) arg_idx; Ret p.2
  | None => get_idx (comptime_params t) arg_idx
  end.

(** An instruction outside of any block, which only holds the type of an argument. *)
Definition push_type_holder (ty : Z) : M InstructionId :=
  l ← gets instructions;
  modify (set_instructions (l ++ [Vtir.StackAlloc ty])) ;;
  lift (from_usize (length l)).

(** What stands for the parameter while the other types are resolved. *)
Definition bind_param (callee : option Static) (t : TypeFn) (arg_idx : nat) (arg_inst : InstructionRef)
    (param_map : gmap Z InstructionRef) : M (gmap Z InstructionRef) :=
  let bind r :=
    match callee with
    | Some callee =>
        p ← lift (get_idx (info_params (func_vuir_info callee)) arg_idx);
        mret (<[p := r]> param_map)
    | None => mret param_map
    end in
  arg_ty ← type_of arg_inst;
  is_comptime ← lift (param_is_comptime callee t arg_idx);
  by_value ← (if is_comptime : bool then mret true else type_is_comptime_only arg_ty);
  if by_value : bool then bind arg_inst
  else i ← push_type_holder arg_ty; bind (Instruction i).

(** One argument; [None]: its parameter has type [never], the call ends here. *)
Definition analyze_one_arg (call_vuir_id : InstructionId) (block : nat) (callee : option Static) (t : TypeFn)
    (generic_block : option nat) (arg_idx : nat) (arg : Vuir.FnCallArg) (a : CallArgs)
    : M (Result (option CallArgs)) :=
  let span := Vuir.arg_span arg in
  '(param_ty, map_) ←? param_type callee t generic_block arg_idx (param_map a) span;
  never ← common never_t;
  if param_ty =? never then ok None
  else
    map_inst call_vuir_id (Interned param_ty) ;;
    arg_inst ←? analyze_arg block arg;
    type_of arg_inst ;;
    arg_inst ←? coerce (default block generic_block) param_ty arg_inst span;
    resolved ← lift (set_idx (resolved_args a) arg_idx (Some (arg_inst, span)));
    _ ←? try_consume_linear_value arg_inst span;
    map_ ← bind_param callee t arg_idx arg_inst map_;
    ok (Some (mk_args resolved (variadic_args a) map_)).

Fixpoint analyze_args (call_vuir_id : InstructionId) (block : nat) (callee : option Static) (t : TypeFn)
    (generic_block : option nat) (args : list InputArg) (a : CallArgs) : M (Result (option CallArgs)) :=
  match args with
  | [] => ok (Some a)
  | (None, arg) :: args =>
      a ←? analyze_variadic call_vuir_id block arg a;
      analyze_args call_vuir_id block callee t generic_block args a
  | (Some arg_idx, arg) :: args =>
      a ←? analyze_one_arg call_vuir_id block callee t generic_block arg_idx arg a;
      match a with
      | None => ok None
      | Some a => analyze_args call_vuir_id block callee t generic_block args a
      end
  end.

(** ** The return type *)

Definition expected_return (block : nat) (ty : Z) (expected : option InstructionRef) (span : Span.Span)
    : M (Result Z) :=
  match expected with
  | None => ok ty
  | Some expected =>
      expected_ret_ty ←? resolve_type block expected span;
      poison ← common generic_poison_t;
      if negb (ty =? poison) && (ty =? expected_ret_ty) then ok ty
      else
        r ←? coerce block expected_ret_ty (Interned ty) span;
        t ← lift (as_interned r);
        ok t
  end.

Definition return_type (block : nat) (callee : option Static) (t : TypeFn) (generic_block : option nat)
    (param_map : gmap Z InstructionRef) (expected : option InstructionRef) (span : Span.Span)
    : M (Result (Z * gmap Z InstructionRef)) :=
  poison ← common generic_poison_t;
  match callee, generic_block with
  | None, _ =>
      if negb (Value.ret_ty t =? poison) then ok (Value.ret_ty t, param_map)
      else fail_at (bytes_of "runtime function pointers cannot infer return type") span
  | Some _, None => unreachable
  | Some callee, Some generic_block =>
      if negb (Value.ret_ty t =? poison) then ok (Value.ret_ty t, param_map)
      else
        '(ty, param_map) ← with_param_map param_map
          (generic_type callee generic_block
             (opcode ← vuir_at (info_ret_ty (func_vuir_info callee));
              match opcode with Vuir.BlockComptime instructions => mret instructions | _ => unreachable end));
        ty ←? mret ty;
        ty ←? expected_return block ty expected span;
        if ty =? poison then
          ty ← display ty;
          at_ ← diag_span span;
          push_error (Diagnostic.with_note
            (Diagnostic.with_label
              (error_with (bytes_of "cannot infer return type `" ++ ty ++ bytes_of "`") at_)
              (Label.with_span
                (Label.with_message Label.secondary (bytes_of "generic return type declared here"))
                (DiagSpan.mk (Value.module (func_decl_inst (func_decl callee)))
                   (info_span (func_vuir_info callee)))))
            (bytes_of "some generic parameters could not be inferred from arguments or return type context; try adding explicit type annotations")) ;;
          fail AnalysisFailed
        else ok (ty, param_map)
  end.

(** The instructions of a child block go to the end of the caller's block. *)
Definition append_to (block child : nat) : M unit :=
  c ← block_at child;
  b ← block_at block;
  set_block block (add_instructions (block_instructions c) b).
Definition close_generic_block (block : nat) (generic_block : option nat) : M unit :=
  match generic_block with
  | Some g => append_to block g ;; unstack_block g ;; mret tt
  | None => mret tt
  end.

(** ** Building the call *)

(** The parameters that have no value are reported. *)
Fixpoint report_uninferred (callee : option Static) (idx : nat)
    (args : list (option (InstructionRef * Span.Span))) (span : Span.Span) : M bool :=
  match args with
  | [] => mret false
  | Some _ :: args => report_uninferred callee (S idx) args span
  | None :: args =>
      name ← lift (display_param callee idx);
      at_ ← diag_span span;
      push_error (Diagnostic.with_note
        (error_with (bytes_of "parameter `" ++ name ++ bytes_of "` cannot be inferred") at_)
        (bytes_of "provide the argument explicitly")) ;;
      report_uninferred callee (S idx) args span ;;
      mret true
  end.

(** The checks on one argument, and what it adds to the run-time and the
    compile-time arguments; the flag: it fails. *)
Definition split_arg (block : nat) (callee : option Static) (t : TypeFn) (i : nat) (arg : InstructionRef)
    (arg_span span : Span.Span) : M (list InstructionRef * list (option Z) * bool) :=
  name ← lift (display_param callee i);
  is_comptime ← lift (get_idx (comptime_params t) i);
  if is_comptime : bool then
    match callee with
    | None =>
        push_error_at (bytes_of "argument `" ++ name ++
          bytes_of "` cannot bind a comptime parameter through a function pointer") arg_span ;;
        mret ([], [], true)
    | Some _ =>
        match try_resolve_comptime_value arg with
        | Some value => mret ([], [Some value], false)
        | None =>
            push_error_at (bytes_of "argument `" ++ name ++
              bytes_of "` is marked as comptime and requires a compile-time known value to be provided") arg_span ;;
            mret ([], [], true)
        end
    end
  else
    arg_ty ← type_of arg;
    only ← type_is_comptime_only arg_ty;
    (if only : bool then
       ty ← display arg_ty;
       at_ ← diag_span arg_span;
       push_error (Diagnostic.with_note
         (error_with (bytes_of "argument `" ++ name ++
                      bytes_of "` is a runtime arg but has been passed comptime-only type `" ++ ty ++ bytes_of "`") at_)
         (bytes_of "add explicit type annotations"))
     else mret tt) ;;
    b ← block_at block;
    let not_known := comptime b && negb (is_interned arg) in
    (if not_known then
       at_ ← diag_span arg_span;
       call_at ← diag_span span;
       push_error (Diagnostic.with_label
         (error_with (bytes_of "argument `" ++ name ++ bytes_of "` must be a compile-time known value") at_)
         (Label.with_span (Label.with_message Label.secondary (bytes_of "due to compile-time function call")) call_at))
     else mret tt) ;;
    mret ([arg], [None], only || not_known).

Fixpoint split_args (block : nat) (callee : option Static) (t : TypeFn) (i : nat)
    (args : list (InstructionRef * Span.Span)) (span : Span.Span)
    : M (list InstructionRef * list (option Z) * bool) :=
  match args with
  | [] => mret ([], [], false)
  | (arg, arg_span) :: args =>
      '(runtime, comptime, failed) ← split_arg block callee t i arg arg_span span;
      '(runtimes, comptimes, faileds) ← split_args block callee t (S i) args span;
      mret (runtime ++ runtimes, comptime ++ comptimes, failed || faileds)
  end.

Fixpoint types_of (args : list InstructionRef) : M (list Z) :=
  match args with
  | [] => mret []
  | a :: args => ty ← type_of a; tys ← types_of args; mret (ty :: tys)
  end.

Definition instantiate_type (t : TypeFn) (params : list Z) (ret_ty : Z) : Key :=
  KType (Fn {| Value.params := params; comptime_params := comptime_params t; Value.var_args := Value.var_args t;
               Value.ret_ty := ret_ty; Value.external := Value.external t; Value.callconv := Value.callconv t;
               Value.inline := Value.inline t |}).

(** The instance of the callee, with a declaration of its own. *)
Definition instantiate (callee : Static) (fn_ty : Z) (comptime_args : list (option Z)) : M Z :=
  base ← decl_at (Z.to_nat (fd_owner_decl (func_decl callee)));
  owner ← push_decl {|
    decl_name := decl_name base;
    full_qualified_name := full_qualified_name base ++ bytes_of "." ++ decimal fn_ty;
    decl_is_const := true;
    decl_module := decl_module base;
    decl_namespace := decl_namespace base;
    analysis_state := TypeKnown fn_ty |};
  intern_non_trivial
    (KFn {| Value.fn_ty := fn_ty; fn_decl := decl_index callee; Value.comptime_args := comptime_args;
            fn_owner_decl := Z.of_nat owner |}) ValueStore.none.

(** ** Builtins *)

(** The value bound to a parameter of the builtin. *)
Definition builtin_arg (info : VuirFnInfo) (i : nat) : M InstructionRef :=
  p ← lift (get_idx (info_params info) i); resolve_inst (Instruction p).
Definition builtin_type_arg (block : nat) (info : VuirFnInfo) (i : nat) (span : Span.Span) : M (Result Z) :=
  p ← lift (get_idx (info_params info) i); resolve_type block (Instruction p) span.

Definition type_layout (ty : Z) : M ValueLayout.Layout :=
  target ← gets (fun self => target (cu self));
  query (fun v => ValueLayout.type_layout query_fuel v target ty).
Definition usize_value (n : Z) : M (Result InstructionRef) :=
  usize ← common usize_t; ok_interned (KInt usize (Anyint.from_unsigned n)).

Definition fail_with {A} (diagnostic : Diagnostic.Diagnostic) : M (Result A) :=
  push_error diagnostic ;; fail AnalysisFailed.

Definition unsafe_int_cast (block : nat) (info : VuirFnInfo) (t : TypeFn) (caller_span : DiagSpan.DiagSpan)
    : M (Result InstructionRef) :=
  src ← builtin_arg info 2;
  ty ← type_of src;
  key ← index_to_key ty;
  src ←? (if is_anyint key then coerce block (Value.ret_ty t) src (DiagSpan.span caller_span) else ok src);
  emit block (Vtir.UnsafeIntCast src (Value.ret_ty t)).

Definition bit_size_of (block : nat) (info : VuirFnInfo) (caller_span : DiagSpan.DiagSpan) : M (Result InstructionRef) :=
  value_ty ←? builtin_type_arg block info 0 (DiagSpan.span caller_span);
  known_bits ← known_bit_size value_ty;
  match known_bits with
  | Some bits => usize_value bits
  | None => l ← type_layout value_ty; n ← lift (ValueLayout.u64_mul 8 (ValueLayout.size l)); usize_value n
  end.

Definition builtin_zeroed (block : nat) (t : TypeFn) : M (Result InstructionRef) :=
  b ← block_at block;
  v ← (if comptime b then intern_zeroed_value (Value.ret_ty t) else mret None);
  match v with
  | Some v => ok (Interned v)
  | None => emit block (Vtir.Zeroed (Value.ret_ty t))
  end.

Definition int_from_enum (block : nat) (info : VuirFnInfo) (t : TypeFn) (caller_span : DiagSpan.DiagSpan)
    : M (Result InstructionRef) :=
  value ← builtin_arg info 2;
  value_ty ← type_of value;
  key ← index_to_key value_ty;
  v ← index_to_value value_ty;
  match v with
  | VEnum type_enum =>
      _ ←? coerce block (enum_tag_ty type_enum) (Interned (Value.ret_ty t)) (DiagSpan.span caller_span);
      emit block (Vtir.BitCast value (Value.ret_ty t))
  | _ =>
      fail_with (error_with (bytes_of "expected an enum, found `" ++ debug_key key ++ bytes_of "`") caller_span)
  end.

(** The module that a path names, for an import of the caller's module. *)
Definition imported_module (importer : Z) (path_ : list Z) : M (option Z) :=
  k ← gets (fun self => known (cu self));
  if bool_decide (path_ = bytes_of "root") then mret (Some (root_module k))
  else if bool_decide (path_ = bytes_of "std") then mret (Some (std_module k))
  else if bool_decide (path_ = bytes_of "builtin") then mret (Some (builtin_module k))
  else
    m ← module_at importer;
    dir ← unwrap (path_parent (path m));
    ids ← gets (fun self => module_path_to_id (cu self));
    mret (ids !! path_normalize (path_join dir path_)).

Definition builtin_import (info : VuirFnInfo) (caller_span : DiagSpan.DiagSpan) : M (Result InstructionRef) :=
  path_ ← builtin_arg info 0;
  i ← lift (as_interned path_);
  key ← index_to_key i;
  match key with
  | KStr _ value =>
      lift (assert_ (utf8_valid value)) ;;
      m ← imported_module (DiagSpan.module caller_span) value;
      match m with
      | None => fail_with (error_with (bytes_of "module `" ++ value ++ bytes_of "` not found") caller_span)
      | Some m => value ←? get_or_analyze_module_sync m; ok (Interned value)
      end
  | _ => unreachable
  end.

Definition builtin_nullptr (t : TypeFn) (caller_span : DiagSpan.DiagSpan) : M (Result InstructionRef) :=
  let ptr_ty := Value.ret_ty t in
  key ← index_to_key ptr_ty;
  match key with
  | KType (TPtr _) => null ← null_ptr ptr_ty; ok (Interned null)
  | _ =>
      ty ← display ptr_ty;
      fail_with (error_with (bytes_of "return type must be a pointer, is " ++ ty) caller_span)
  end.

(** [@abort] and [@unreachable] end the run-time path they are on. *)
Definition builtin_end (block : nat) (message : list Z) (opcodes : list Vtir.Opcode) (caller_span : DiagSpan.DiagSpan)
    : M (Result InstructionRef) :=
  b ← block_at block;
  if comptime b then fail_with (error_with message caller_span)
  else
    for_each (fun opcode => _ ← inst block opcode; mret tt) opcodes ;;
    u ← common unreachable_value;
    ok (Interned u).

Definition builtin_bitcast (block : nat) (info : VuirFnInfo) (t : TypeFn) (caller_span : DiagSpan.DiagSpan)
    : M (Result InstructionRef) :=
  value ← builtin_arg info 2;
  src_ty ← type_of value;
  src ← type_layout src_ty;
  dst ← type_layout (Value.ret_ty t);
  let '(src_size, dst_size) := (ValueLayout.size src, ValueLayout.size dst) in
  if negb (src_size =? dst_size) then
    s ← display src_ty;
    d ← display (Value.ret_ty t);
    fail_with (Diagnostic.with_note
      (Diagnostic.with_note
        (error_with (bytes_of "cannot bitcast to a differently sized type") caller_span)
        (bytes_of "source type `" ++ s ++ bytes_of "` takes " ++ decimal src_size ++ bytes_of " bytes"))
      (bytes_of "destination type `" ++ d ++ bytes_of "` takes " ++ decimal dst_size ++ bytes_of " bytes"))
  else emit block (Vtir.BitCast value (Value.ret_ty t)).

(** An argument that must be an [anyptr]. *)
Definition anyptr_arg (info : VuirFnInfo) (i : nat) (caller_span : DiagSpan.DiagSpan) : M (Result InstructionRef) :=
  value ← builtin_arg info i;
  value_ty ← type_of value;
  anyptr ← common anyptr_t;
  if value_ty =? anyptr then ok value
  else
    ty ← display value_ty;
    fail_with (error_with (bytes_of "expected `anyptr`, found `" ++ ty ++ bytes_of "`") caller_span).

Definition analyze_fn_builtin_body (block : nat) (fun_ : FnKey) (builtin_kind : Vuir.BuiltinKind)
    (caller_span : DiagSpan.DiagSpan) : M (Result InstructionRef) :=
  key ← index_to_key (Value.fn_ty fun_);
  t ← lift (as_type_fn key);
  key ← index_to_key (fn_decl fun_);
  d ← lift (as_fn_decl key);
  info ← get_vuir_fn_info d;
  let span := DiagSpan.span caller_span in
  match builtin_kind with
  | Vuir.UnsafeIntCast => unsafe_int_cast block info t caller_span
  | Vuir.SizeOf =>
      value_ty ←? builtin_type_arg block info 0 span;
      l ← type_layout value_ty;
      usize_value (ValueLayout.size l)
  | Vuir.BitSizeOf => bit_size_of block info caller_span
  | Vuir.Zeroed => builtin_zeroed block t
  | Vuir.IntFromEnum => int_from_enum block info t caller_span
  | Vuir.IntToFloat => src ← builtin_arg info 2; emit block (Vtir.IntToFloat src (Value.ret_ty t))
  | Vuir.Import => builtin_import info caller_span
  | Vuir.Nullptr => builtin_nullptr t caller_span
  | Vuir.SliceFromRawParts =>
      pointee_ty ← builtin_arg info 0;
      ptr ← builtin_arg info 1;
      len ← builtin_arg info 2;
      pointee_ty ← lift (as_interned pointee_ty);
      slice_ty ← intern_trivial (KType (Slice {| slice_pointee_ty := pointee_ty |}));
      emit block (Vtir.SliceFromRawParts slice_ty ptr len)
  | Vuir.SlicePtr =>
      pointee_ty ← builtin_arg info 0;
      pointee_ty ← lift (as_interned pointee_ty);
      slice ← builtin_arg info 1;
      ptr_ty ← intern_ptr_type pointee_ty true;
      emit block (Vtir.SlicePtr slice ptr_ty)
  | Vuir.SliceLen => slice ← builtin_arg info 1; emit block (Vtir.SliceLen slice)
  | Vuir.Abort =>
      builtin_end block (bytes_of "cannot @abort in comptime") [Vtir.Abort_; Vtir.Unreachable] caller_span
  | Vuir.Unreachable =>
      builtin_end block (bytes_of "reached a @unreachable in comptime") [Vtir.Unreachable] caller_span
  | Vuir.PtrToInt => src ← builtin_arg info 1; emit block (Vtir.PtrToInt src (Value.ret_ty t))
  | Vuir.IntToPtr => src ← builtin_arg info 1; emit block (Vtir.IntToPtr src (Value.ret_ty t))
  | Vuir.Forget => v ← common void_value; ok (Interned v)
  | Vuir.Bitcast => builtin_bitcast block info t caller_span
  | Vuir.SliceCopyNonoverlapping =>
      src ← builtin_arg info 1;
      dst ← builtin_arg info 2;
      slice_ty ← type_of src;
      emit block (Vtir.SliceCopyNonoverlapping slice_ty src dst)
  | Vuir.AnyptrIs =>
      target_ty ←? builtin_type_arg block info 0 span;
      _ ←? analyze_type_info target_ty;
      value ←? anyptr_arg info 1 caller_span;
      emit block (Vtir.AnyptrIs value target_ty)
  | Vuir.AnyptrAs =>
      target_ty ←? builtin_type_arg block info 0 span;
      value ←? anyptr_arg info 1 caller_span;
      emit block (Vtir.AnyptrAs value target_ty)
  | Vuir.AnyptrPtr =>
      value ←? anyptr_arg info 0 caller_span;
      emit block (Vtir.AnyptrPtr value (Value.ret_ty t))
  | Vuir.AnyptrFromRaw =>
      ptr ← builtin_arg info 0;
      type_id ← builtin_arg info 1;
      emit block (Vtir.AnyptrFromRaw ptr type_id)
  | Vuir.AnyptrTypeInfo =>
      value ←? anyptr_arg info 0 caller_span;
      ty ←? builtin_type_info;
      emit block (Vtir.AnyptrTypeInfo value ty)
  | Vuir.TypeInfo =>
      ty ←? builtin_type_arg block info 0 span;
      type_info_id ←? analyze_type_info ty;
      entries ← gets (fun self => type_info_entries (cu self));
      v ← lift (get_idx entries (Z.to_nat type_info_id));
      ok (Interned v)
  end.

(** ** Inline calls *)

(** The run-time parameters stand for the values of their arguments. *)
Fixpoint bind_runtime (t : TypeFn) (i : nat) (params : list InstructionId)
    (args : list (InstructionRef * Span.Span)) (m : gmap Z InstructionRef) : res (gmap Z InstructionRef) :=
  match params with
  | [] => Ret m
  | p :: params =>
      is_comptime ← get_idx (comptime_params t) i;
      m ← (if is_comptime : bool then Ret m else '(arg, _) ← get_idx args i; Ret (<[p := arg]> m));
      bind_runtime t (S i) params args m
  end.

Definition push_inline_block (block : nat) (owner : nat) (call_is_comptime : bool) : M nat :=
  d ← decl_at owner;
  b ← block_at block;
  push_block (mk_block (decl_namespace d) (Some block) [] None call_is_comptime true (decl_name d) []
    (runtime_env b)).

(** The body of the callee, in its own module; a body without a value gives [void]. *)
Definition inline_body (callee : Static) (inline_block : nat) (func_val : Z) (fn : FnKey) (t : TypeFn)
    (caller_span : DiagSpan.DiagSpan) : M (Result InstructionRef) :=
  let info := func_vuir_info callee in
  with_different_vuir (fn_decl_origin_module_vuir info) (Value.module (func_decl_inst (func_decl callee)))
    (value ←? match info_builtin info with
              | Some builtin => r ←? analyze_fn_builtin_body inline_block fn builtin caller_span; ok (Some r)
              | None =>
                  modify (set_fun (Some func_val)) ;;
                  analyze_fn_body_at_comptime analyze_inst inline_block (info_body info) (Value.ret_ty t) caller_span
              end;
     void_value ← common void_value;
     ok (default (Interned void_value) value)).

Definition pop_block : M unit := l ← gets blocks; modify (set_blocks (take (length l - 1) l)).

(** When the body fails, the state of the caller is not put back. *)
Definition analyze_inline_call (call_vuir_id : InstructionId) (block : nat) (callee : Static) (t : TypeFn)
    (func_val fn_ty : Z) (args : list (InstructionRef * Span.Span)) (param_map : gmap Z InstructionRef)
    (call_is_comptime : bool) (span : Span.Span) : M (Result InstructionRef) :=
  key ← index_to_key func_val;
  fn ← lift (as_fn key);
  key ← index_to_key fn_ty;
  instantiated ← lift (as_type_fn key);
  caller_span ← diag_span span;
  saved_fun ← gets fun_;
  modify (set_fun None) ;;
  old_vuir_map ← gets vuir_map;
  old_linear_slots ← gets linear_slots;
  m ← lift (bind_runtime t 0 (info_params (func_vuir_info callee)) args param_map);
  modify (set_vuir_map m) ;;
  modify (set_linear_slots ∅) ;;
  inline_block ← push_inline_block block (Z.to_nat (fn_owner_decl fn)) call_is_comptime;
  result ←? inline_body callee inline_block func_val fn instantiated caller_span;
  append_to block inline_block ;;
  pop_block ;;
  modify (set_vuir_map old_vuir_map) ;;
  modify (set_linear_slots old_linear_slots) ;;
  modify (set_fun saved_fun) ;;
  map_inst call_vuir_id result ;;
  ok result.

(** ** Run-time calls *)

Definition analyze_runtime_call (call_vuir_id : InstructionId) (block : nat) (fun_ : InstructionRef)
    (func_val : option Z) (ret_ty : Z) (runtime_args : list InstructionRef) (call_is_comptime : bool)
    (span : Span.Span) : M (Result InstructionRef) :=
  _ ←? (if bool_decide (func_val = None) && call_is_comptime then
          fail_at (bytes_of "compile-time calls require a statically known callee") span
        else ok tt);
  _ ←? ensure_type_exist_in_runtime ret_ty span;
  match func_val with Some f => queue_runtime_function_analysis_if_needed f | None => mret tt end ;;
  r ← inst block (Vtir.FnCall (match func_val with Some f => Interned f | None => fun_ end) runtime_args);
  map_inst call_vuir_id r ;;
  never ← common never_t;
  if ret_ty =? never then
    inst block Vtir.Unreachable ;;
    u ← common unreachable_value;
    ok (Interned u)
  else ok r.

(** ** The call *)

(** Every parameter of a known callee is the declaration of a parameter. *)
Definition check_fn_params (callee : option Static) : res unit :=
  match callee with
  | Some callee =>
      let info := func_vuir_info callee in
      for_enumM (info_params info) (fun _ p _ => fn_param (fn_decl_origin_module_vuir info) p ;; Ret tt) tt
  | None => Ret tt
  end.

(** The call once its arguments are there: it is evaluated in place at compile
    time and when the callee is marked inline. *)
Definition complete_call (call_vuir_id : InstructionId) (block : nat) (fun_ : InstructionRef)
    (callee : option Static) (t : TypeFn) (generic_block : option nat) (expected_ret_ty : option InstructionRef)
    (span : Span.Span) (a : CallArgs) : M (Result InstructionRef) :=
  '(ret_ty, map_) ←? return_type block callee t generic_block (param_map a) expected_ret_ty span;
  close_generic_block block generic_block ;;
  inference_failed ← report_uninferred callee 0 (resolved_args a) span;
  if inference_failed : bool then fail AnalysisFailed
  else
    args ← lift (unwrap_all (resolved_args a));
    '(runtime_args, comptime_args, analysis_failed) ← split_args block callee t 0 args span;
    if analysis_failed : bool then fail AnalysisFailed
    else
      let runtime_args := runtime_args ++ variadic_args a in
      types ← types_of (map fst args);
      fn_ty ← intern_trivial (instantiate_type t types ret_ty);
      b ← block_at block;
      call_is_comptime ← (if comptime b then mret true else type_is_comptime_only ret_ty);
      match callee with
      | None => analyze_runtime_call call_vuir_id block fun_ None ret_ty runtime_args call_is_comptime span
      | Some callee =>
          func_val ← instantiate callee fn_ty comptime_args;
          if call_is_comptime || bool_decide (Value.inline t = InlineAlways) then
            analyze_inline_call call_vuir_id block callee t func_val fn_ty args map_ call_is_comptime span
          else
            analyze_runtime_call call_vuir_id block fun_ (Some func_val) ret_ty runtime_args call_is_comptime span
      end.

Definition analyze_fn_call (call_vuir_id : InstructionId) (block : nat) (fun_ : InstructionRef)
    (args : list Vuir.FnCallArg) (expected_ret_ty : option InstructionRef) (span : Span.Span)
    : M (Result InstructionRef) :=
  callee ← static_callee fun_;
  t ←? callee_type callee fun_ span;
  lift (check_fn_params callee) ;;
  generic_block ← match callee with
                  | Some _ => g ← comptime_child_block block; mret (Some g)
                  | None => mret None
                  end;
  input ←? input_args callee t args span;
  a ←? analyze_args call_vuir_id block callee t generic_block input
         (mk_args (replicate (length (Value.params t)) None) [] ∅);
  match a with
  | None => u ← common unreachable_value; ok (Interned u)
  | Some a => complete_call call_vuir_id block fun_ callee t generic_block expected_ret_ty span a
  end.

End Call.
End SemaCall.
