(* ===== verification/SemaInst.v ===== *)
(** * Instructions ([analyze_inst] of [src/compile_unit/sema.rs])

    One definition per instruction, for a way to analyze the instructions of the
    bodies it has; [analyze_opcode] is the dispatch.  An instruction gives its
    value, which it records in [vuir_map], and how control leaves it. *)

From S2P Require Import Prelude Words Bytes Span Token Diagnostic Ast HashIndex ShardedMap.
From S2P Require Import Anyint Value ValueStore ValueLayout Vuir Vtir SemaState SemaAccess SemaFold SemaInit SemaDecl SemaCall.
From stdpp Require Import gmap.

#[local] Open Scope Z_scope.
#[local] Open Scope sema_scope.

Module SemaInst.
Import Value ValueStore IrId Sema SemaAccess SemaFold SemaInit SemaDecl SemaCall.

Section Inst.
Context `{!Setting, !Workers, !TypeInfo, !Paths, !Modules}.
Variable analyze_inst : nat -> InstructionId -> M (Result (InstructionRef * ControlFlow)).

Abbreviation Analyzed := (M (Result (InstructionRef * ControlFlow))).

(** [instructions[id]] and [instructions[id] = opcode]. *)
Definition opcode_at (id : InstructionId) : M Vtir.Opcode := l ← gets instructions; lift (get_idx l (to_usize id)).
Definition set_opcode (id : InstructionId) (opcode : Vtir.Opcode) : M unit :=
  l ← gets instructions;
  l ← lift (set_idx l (to_usize id) opcode);
  modify (set_instructions l).

(** [let inst = f()?; vuir_map.insert(id, inst); Ok((inst, May))]. *)
Definition finishing (id : InstructionId) (m : M (Result InstructionRef)) : Analyzed := r ←? m; done id r.

(** ** Jumps *)

Definition add_break (value : InstructionRef) (b : Block) (data : VuirBlockAnalysisData) : Block :=
  mk_block (namespace b) (parent b) (block_instructions b)
    (Some {| block_inst := block_inst data; breaks := breaks data ++ [value] |})
    (comptime b) (inlined b) (base_type_name b) (decl_fn_params b) (runtime_env b).

(** The nearest enclosing block that stands for [br_block] records the value.  A
    parent comes before its child, so the number of blocks is enough fuel. *)
Fixpoint register_break_fuel (fuel : nat) (block_id : nat) (br_block : InstructionRef) (value : InstructionRef)
    : M unit :=
  match fuel with
  | O => lift diverge
  | S fuel =>
      b ← block_at block_id;
      let up := match parent b with
                | Some p => register_break_fuel fuel p br_block value
                | None => unreachable
                end in
      match vuir_block b with
      | Some data =>
          if bool_decide (block_inst data = br_block) then set_block block_id (add_break value b data) else up
      | None => up
      end
  end.
Definition register_break (block_id : nat) (br_block value : InstructionRef) : M unit :=
  register_break_fuel (S block_id) block_id br_block value.

(** A jump out of a compile-time block leaves its analysis. *)
Definition analyze_break (block : nat) (id br_block : InstructionId) (value : InstructionRef) (value_span : Span.Span)
    : Analyzed :=
  value ← resolve_inst value;
  b ← block_at block;
  if comptime b then fail (ComptimeBreak br_block value)
  else
    target ← resolve_inst (Instruction br_block);
    target ← unwrap (as_id target);
    ty ← type_of value;
    _ ←? ensure_type_exist_in_runtime ty value_span;
    r ← inst block (Vtir.Break target value);
    map_inst id r ;;
    register_break block (Instruction target) value ;;
    ok (r, ControlFlow.Always).

Definition analyze_repeat (block : nat) (id loop : InstructionId) : Analyzed :=
  target ← resolve_inst (Instruction loop);
  target ← unwrap (as_id target);
  r ← inst block (Vtir.Repeat target);
  map_inst id r ;;
  ok (r, ControlFlow.Always).

(** The type of the function under analysis. *)
Definition current_fn_type : M TypeFn :=
  f ← gets fun_;
  f ← unwrap f;
  key ← index_to_key f;
  f ← lift (as_fn key);
  key ← index_to_key (fn_ty f);
  lift (as_type_fn key).

Definition analyze_return (block : nat) (id : InstructionId) (value : option InstructionRef) (span : Span.Span)
    : Analyzed :=
  value ←? match value with
           | Some value =>
               value ← resolve_inst value;
               t ← current_fn_type;
               value ←? coerce block (Value.ret_ty t) value span;
               ok (Some value)
           | None => ok None
           end;
  b ← block_at block;
  if inlined b then fail (InlineReturn value)
  else
    r ← inst block (Vtir.Return value);
    map_inst id r ;;
    ok (r, ControlFlow.Always).

(** ** Captures *)

Fixpoint env_field (fields : list (GlobalVuirInstructionId * nat)) (c : GlobalVuirInstructionId) : option nat :=
  match fields with
  | [] => None
  | (c', i) :: fields => if bool_decide (c' = c) then Some i else env_field fields c
  end.

(** A captured variable: a pointer in the environment that the block is given. *)
Definition runtime_capture (block : nat) (c : GlobalVuirInstructionId) (span : Span.Span) : M (Result InstructionRef) :=
  b ← block_at block;
  match runtime_env b with
  | None => fail_at (bytes_of "runtime capture used without a runtime capture environment") span
  | Some env =>
      match env_field (env_fields env) c with
      | None => fail_at (bytes_of "runtime capture is not available in the current namespace environment") span
      | Some field_idx =>
          kv ← index_to_key_value (Sema.env_ty env);
          match kv with
          | (KType (Struct _), VStruct env_struct) =>
              f ← lift (get_idx (struct_fields env_struct) field_idx);
              env_ptr_ty ← intern_ptr_type (Sema.env_ty env) false;
              typed_env_ptr ← inst block (Vtir.BitCast (env_ptr env) env_ptr_ty);
              capture_field_ptr_ty ← intern_ptr_type (sf_ty f) false;
              capture_field_ptr ← inst block (Vtir.StructFieldPtr typed_env_ptr field_idx capture_field_ptr_ty);
              captured_ptr ←? analyze_load block capture_field_ptr span;
              analyze_load block captured_ptr span
          | _ =>
              push_error (Diagnostic.with_message Diagnostic.error
                (bytes_of "runtime capture environment must be a struct")) ;;
              fail AnalysisFailed
          end
      end
  end.

Definition analyze_capture_get (block : nat) (idx : nat) (span : Span.Span) : M (Result InstructionRef) :=
  owner_type ← namespace_owner block;
  captures ← namespace_captures owner_type;
  captures ← unwrap captures;
  c ← lift (get_idx captures idx);
  match c with
  | Comptime i => ok (Interned i)
  | Runtime c => runtime_capture block c span
  end.

(** ** Initialisers *)

Definition analyze_aggregate_init (block : nat) (id : InstructionId) (ty : InstructionRef)
    (kind : Vuir.AggregateInitKind) (span : Span.Span) : Analyzed :=
  ty ←? resolve_type block ty span;
  key ← index_to_key ty;
  match key with
  | KType t =>
      match kind with
      | Vuir.Empty =>
          match t with
          | Union _ => analyze_union_init id block ty [] span
          | Struct _ => analyze_struct_init id block ty [] span
          | Array _ | Slice _ => analyze_array_init id block ty [] span
          | _ => unreachable
          end
      | Vuir.Adt fields =>
          match t with
          | Union _ => analyze_union_init id block ty fields span
          | Struct _ => analyze_struct_init id block ty fields span
          | _ => unreachable
          end
      | Vuir.Array elements => analyze_array_init id block ty elements span
      end
  | _ => unreachable
  end.

Definition analyze_undefined (block : nat) (ty : option InstructionRef) (span : Span.Span) : M (Result InstructionRef) :=
  match ty with
  | None => fail_at (bytes_of "`undefined` requires an explicit type") span
  | Some ty => ty ←? resolve_type block ty span; emit block (Vtir.Undefined ty)
  end.

(** ** Parameters *)

Definition add_param (p : DeclFnParam) (b : Block) : Block :=
  mk_block (namespace b) (parent b) (block_instructions b) (vuir_block b) (comptime b) (inlined b)
    (base_type_name b) (decl_fn_params b ++ [p]) (runtime_env b).

(** The type of a parameter: unknown when generic, that of the instance when one
    is analyzed, what its body computes else. *)
Definition fn_param_type (block : nat) (type_body : list InstructionId) (generic : bool) : M (Result Z) :=
  if generic then t ← common generic_poison_t; ok t
  else
    f ← gets fun_;
    match f with
    | Some _ =>
        t ← current_fn_type;
        b ← block_at block;
        ty ← lift (get_idx (Value.params t) (length (decl_fn_params b)));
        ok ty
    | None =>
        ty ←? analyze_comptime_block analyze_inst block type_body;
        ty ← unwrap ty;
        ty ← lift (as_interned ty);
        ok ty
    end.

Definition analyze_decl_fn_param (block : nat) (id : InstructionId) (name : Ident) (type_body : list InstructionId)
    (comptime generic : bool) (span : Span.Span) : Analyzed :=
  param_ty ←? fn_param_type block type_body generic;
  map_inst id (Interned param_ty) ;;
  b ← block_at block;
  set_block block (add_param {| param_name := Ident.symbol name; param_ty := param_ty; vuir_id := id;
                                comptime_param := comptime; param_span := span |} b) ;;
  ok (Interned param_ty, ControlFlow.May).

(** ** Allocations *)

Definition linear_slot (alloc : InstructionRef) (ty : Z) (name : Ident) : M unit :=
  slots ← gets linear_slots;
  modify (set_linear_slots (<[alloc := mk_slot ty (Ident.span name) false None (Ident.symbol name)]> slots)).
Definition pending (alloc : InstructionRef) (ty : option Z) : M unit :=
  m ← gets pending_inferred_alloc_to_ty; modify (set_pending_inferred_alloc_to_ty (<[alloc := ty]> m)).
Definition potential_comptime_alloc (alloc : InstructionRef) : M unit :=
  m ← gets potential_comptime_allocs; modify (set_potential_comptime_allocs (<[alloc := []]> m)).

(** A typed binding; its pointer is mutable whether the binding is [const] or not. *)
Definition analyze_stack_alloc (block : nat) (id : InstructionId) (name : Ident) (ty : InstructionRef)
    (span : Span.Span) : Analyzed :=
  ty ←? resolve_type block ty span;
  is_linear ← type_is_linear ty;
  ptr_ty ← intern_ptr_type ty false;
  only ← type_is_comptime_only ty;
  if only : bool then
    t ← display ty;
    at_ ← diag_span span;
    push_error (Diagnostic.with_note
      (error_with (bytes_of "a const or mut binding cannot have a comptime-only type (`" ++ t ++ bytes_of "`)") at_)
      (bytes_of "use a comptime binding: `comptime const ...` or `comptime var ...`")) ;;
    fail AnalysisFailed
  else
    r ← inst block (Vtir.StackAlloc ptr_ty);
    (if is_linear : bool then linear_slot r ty name else mret tt) ;;
    done id r.

Definition analyze_stack_alloc_comptime (block : nat) (id : InstructionId) (ty : InstructionRef) (span : Span.Span)
    : Analyzed :=
  ty ←? resolve_type block ty span;
  ptr_ty ← intern_ptr_type ty false;
  const_alloc ← allocate ty span;
  r ← intern_trivial (KPtr {| ptr_ty := ptr_ty; ptr_kind := PtrComptimeAlloc const_alloc |});
  done id (Interned r).

Definition analyze_stack_alloc_inferred (block : nat) (id : InstructionId) (is_const : bool) : Analyzed :=
  r ← inst block (Vtir.StackAllocInferred false);
  pending r None ;;
  map_inst id r ;;
  (if is_const then potential_comptime_alloc r else mret tt) ;;
  ok (r, ControlFlow.May).

Definition analyze_stack_alloc_inferred_comptime (block : nat) (id : InstructionId) : Analyzed :=
  r ← inst block (Vtir.StackAllocInferred true);
  potential_comptime_alloc r ;;
  pending r None ;;
  done id r.

(** The name of an inferred allocation, and whether it is a [const] binding. *)
Definition inferred_binding (opcode : Vuir.Opcode) : res (Ident * bool) :=
  match opcode with
  | Vuir.StackAllocInferred name _ | Vuir.StackAllocInferredComptime name _ => Ret (name, true)
  | Vuir.StackAllocInferredMut name _ | Vuir.StackAllocInferredComptimeMut name _ => Ret (name, false)
  | _ => panic
  end.

Definition is_inferred (opcode : Vtir.Opcode) : option bool :=
  match opcode with Vtir.StackAllocInferred is_comptime => Some is_comptime | _ => None end.

(** The instruction and the value of the one store to an allocation. *)
Definition single_store (stores : list (InstructionRef * Span.Span)) : M (InstructionId * InstructionRef) :=
  lift (assert_ (length stores =? 1)%nat) ;;
  store ← lift (get_idx stores 0);
  store_id ← unwrap (as_id store.1);
  opcode ← opcode_at store_id;
  match opcode with Vtir.Store src _ => mret (store_id, src) | _ => unreachable end.

(** The store, when the allocation may be and is known at compile time. *)
Definition known_store (alloc : InstructionRef) : M (option (InstructionId * Z)) :=
  m ← gets potential_comptime_allocs;
  match m !! alloc with
  | None => mret None
  | Some stores =>
      modify (set_potential_comptime_allocs (delete alloc m)) ;;
      '(store, value) ← single_store stores;
      mret (match try_resolve_comptime_value value with Some v => Some (store, v) | None => None end)
  end.

Definition take_pending (alloc : InstructionRef) : M (option Z) :=
  m ← gets pending_inferred_alloc_to_ty;
  modify (set_pending_inferred_alloc_to_ty (delete alloc m)) ;;
  unwrap (m !! alloc).

(** The allocation gets the type stored into it; a constant one becomes a pointer
    to its value, and its instructions are erased. *)
Definition reify (alloc : InstructionRef) (ty : Z) (is_comptime is_const_binding : bool) (span : Span.Span)
    : M (Result InstructionRef) :=
  alloc_id ← unwrap (as_id alloc);
  known ← known_store alloc;
  match known with
  | Some (store, value) =>
      set_opcode store Vtir.Noop ;;
      set_opcode alloc_id Vtir.Noop ;;
      ptr_ty ← intern_ptr_type ty true;
      ok_interned (KPtr {| ptr_ty := ptr_ty; ptr_kind := PtrValue value |})
  | None =>
      if is_comptime then
        fail_at (bytes_of "comptime initializer could not be resolved at compile time") span
      else
        _ ←? ensure_type_exist_in_runtime ty span;
        ptr_ty ← intern_ptr_type ty is_const_binding;
        set_opcode alloc_id (Vtir.StackAlloc ptr_ty) ;;
        ok alloc
  end.

Definition analyze_reify_inferred_alloc (id : InstructionId) (alloc : InstructionRef) (span : Span.Span) : Analyzed :=
  vuir_alloc ← unwrap (as_id alloc);
  opcode ← vuir_at vuir_alloc;
  '(name, is_const_binding) ← lift (inferred_binding opcode);
  alloc ← resolve_inst alloc;
  alloc_id ← unwrap (as_id alloc);
  opcode ← opcode_at alloc_id;
  is_comptime ← unwrap (is_inferred opcode);
  ty ← take_pending alloc;
  match ty with
  | None => fail_at (bytes_of "cannot infer type of untyped allocation") span
  | Some ty =>
      alloc ←? reify alloc ty is_comptime is_const_binding span;
      is_linear ← type_is_linear ty;
      (if is_linear : bool then linear_slot alloc ty name else mret tt) ;;
      done id alloc
  end.

(** The pointer after the initialisation, with the same mutability; the linear
    slot follows it. *)
Definition analyze_freeze_stack_alloc (block : nat) (id alloc : InstructionId) (span : Span.Span) : Analyzed :=
  original_alloc ← resolve_inst (Instruction alloc);
  ty ← type_of original_alloc;
  key ← index_to_key ty;
  p ← lift (as_type_ptr key);
  const_ty ← intern_trivial (KType (TPtr {| ptr_pointee_ty := ptr_pointee_ty p; ptr_packed := ptr_packed p;
                                            is_const := is_const p |}));
  alloc ←? match try_resolve_comptime_value original_alloc with
           | Some i => index_to_key i ;; coerce block const_ty original_alloc span
           | None => emit block (Vtir.BitCast original_alloc const_ty)
           end;
  slots ← gets linear_slots;
  match slots !! original_alloc with
  | Some slot => modify (set_linear_slots (<[alloc := slot]> (delete original_alloc slots)))
  | None => mret tt
  end ;;
  done id alloc.

(** ** Names *)

(** The value that stands for the module in the message. *)
Definition module_value : M Z :=
  m ← gets Sema.module;
  m ← module_at m;
  match sema_state m with
  | ModuleAnalyzeState.Done v => mret v
  | _ => common unreachable_value
  end.
Definition lookup_ident (block : nat) (ident : Ident) : M (Result nat) :=
  b ← block_at block;
  decl ← lookup_decl_in_namespace_recursively (namespace b) (Ident.symbol ident);
  match decl with
  | Some decl => ok decl
  | None =>
      v ← module_value;
      diag_decl_not_found (Ident.symbol ident) v (Ident.span ident) ;;
      fail AnalysisFailed
  end.

(** ** Stores *)

(** The compile-time memory that a pointer is to. *)
Definition comptime_alloc_of (dst : InstructionRef) : M (option nat) :=
  k ← comptime_key dst;
  mret (match k with Some (KPtr {| ptr_kind := PtrComptimeAlloc alloc |}) => Some (Z.to_nat alloc) | _ => None end).

Definition comptime_store (block alloc : nat) (pointee_ty : Z) (src : InstructionRef) (span : Span.Span)
    : M (Result InstructionRef) :=
  match try_resolve_comptime_value src with
  | None =>
      at_ ← diag_span span;
      allocs ← gets comptime_allocs;
      a ← lift (get_idx allocs alloc);
      alloc_at ← diag_span (alloc_span a);
      push_error (Diagnostic.with_label
        (Diagnostic.with_label
          (Diagnostic.with_message Diagnostic.error
            (bytes_of "cannot store a runtime value inside a comptime allocation"))
          (Label.with_span (Label.with_message Label.primary (bytes_of "runtime value")) at_))
        (Label.with_span (Label.with_message Label.secondary (bytes_of "comptime alloc here")) alloc_at)) ;;
      fail AnalysisFailed
  | Some _ =>
      coerced_src ←? coerce block pointee_ty src span;
      value ← lift (as_interned coerced_src);
      allocs ← gets comptime_allocs;
      a ← lift (get_idx allocs alloc);
      allocs ← lift (set_idx allocs alloc {| alloc_ty := alloc_ty a; alloc_value := value;
                                             alloc_span := alloc_span a |});
      modify (set_comptime_allocs allocs) ;;
      void ← common void_t;
      ok (Interned void)
  end.

Definition analyze_store (block : nat) (dst src : InstructionRef) (span : Span.Span) : M (Result InstructionRef) :=
  src_ref ← resolve_inst src;
  dst_ref ← resolve_inst dst;
  dst_ptr_ty ← type_of dst_ref;
  key ← index_to_key dst_ptr_ty;
  p ← lift (as_type_ptr key);
  if is_const p then
    at_ ← diag_span span;
    push_error (Diagnostic.with_label
      (Diagnostic.with_message Diagnostic.error (bytes_of "cannot assign to a constant"))
      (Label.with_span (Label.with_message Label.primary (bytes_of "assignement here")) at_)) ;;
    fail AnalysisFailed
  else
    alloc ← comptime_alloc_of dst_ref;
    match alloc with
    | Some alloc => comptime_store block alloc (ptr_pointee_ty p) src_ref span
    | None =>
        coerced_src ←? coerce block (ptr_pointee_ty p) src_ref span;
        emit block (Vtir.Store coerced_src dst_ref)
    end.

Definition analyze_store_to_inferred_alloc (block : nat) (dst src : InstructionRef) (span : Span.Span) : Analyzed :=
  src ← resolve_inst src;
  src_ty ← type_of src;
  dst ← resolve_inst dst;
  dst_id ← unwrap (as_id dst);
  opcode ← opcode_at dst_id;
  unwrap (is_inferred opcode) ;;
  void ← common void_t;
  (if src_ty =? void then
     push_error_at (bytes_of "`void` inferred allocations are not yet supported (no comptime)") span
   else mret tt) ;;
  r ← inst block (Vtir.Store src dst);
  pending dst (Some src_ty) ;;
  link_store_to_potential_comptime_alloc dst r span ;;
  ok (r, ControlFlow.May).

(** ** Calls through a field *)

(** A type that is called as a method is followed through one more pointer. *)
Definition receiver_object (block : nat) (field_ptr : InstructionRef) (inner_ty : Z) (span : Span.Span)
    : M (Result (InstructionRef * Z)) :=
  key ← index_to_key inner_ty;
  match key with
  | KType (TPtr inner_ptr) =>
      loaded ←? analyze_load block field_ptr span;
      ok (loaded, ptr_pointee_ty inner_ptr)
  | _ => ok (field_ptr, inner_ty)
  end.

Definition not_a_member {A} (field_name : Ident) : M (Result A) :=
  fail_at (bytes_of "`" ++ Ident.symbol field_name ++ bytes_of "` is not a member function") (Ident.span field_name).

(** The member function, once its first parameter admits the object.  The object
    itself is not an argument of the call. *)
Definition check_receiver (block : nat) (object_ptr : InstructionRef) (concrete_ty : Z) (params : list Z)
    (field_name : Ident) (span : Span.Span) : M (Result unit) :=
  match params with
  | [] => not_a_member field_name
  | expected_ty :: _ =>
      if concrete_ty =? expected_ty then _ ←? analyze_load block object_ptr span; ok tt
      else
        key ← index_to_key expected_ty;
        let by_ptr := match key with KType (TPtr ptr_ty) => ptr_pointee_ty ptr_ty =? concrete_ty | _ => false end in
        if by_ptr then ok tt
        else
          e ← display expected_ty;
          c ← display concrete_ty;
          fail_at (bytes_of "receiver types doesn't match: expected `" ++ e ++ bytes_of "` found `" ++ c ++
                   bytes_of "`") (Ident.span field_name)
  end.

Definition member_function (block : nat) (object_ptr : InstructionRef) (concrete_ty : Z) (s : TypeStruct)
    (field_name : Ident) (span : Span.Span) : M (Result InstructionRef) :=
  decl ← lookup_decl_in_namespace (Z.to_nat (struct_namespace s)) (Ident.symbol field_name);
  match decl with
  | None =>
      c ← display concrete_ty;
      fail_at (bytes_of "no field or member function named `" ++ Ident.symbol field_name ++ bytes_of "` in `" ++ c ++
               bytes_of "`") (Ident.span field_name)
  | Some decl =>
      decl ←? analyze_decl_val block decl span;
      ty ← type_of decl;
      key ← index_to_key ty;
      match key with
      | KType (Fn t) =>
          _ ←? check_receiver block object_ptr concrete_ty (Value.params t) field_name span;
          ok decl
      | _ => not_a_member field_name
      end
  end.

Definition field_callee (block : nat) (field_ptr : InstructionRef) (field_name : Ident) (span : Span.Span)
    : M (Result InstructionRef) :=
  field_ptr ← resolve_inst field_ptr;
  field_ptr_ty ← type_of field_ptr;
  key ← index_to_key field_ptr_ty;
  match key with
  | KType (TPtr ptr) =>
      '(object_ptr, concrete_ty) ←? receiver_object block field_ptr (ptr_pointee_ty ptr) span;
      kv ← index_to_key_value concrete_ty;
      match kv with
      | (KType (Struct _), VStruct s) => member_function block object_ptr concrete_ty s field_name span
      | (KType Type_, _) =>
          namespace_type ←? analyze_load block object_ptr span;
          analyze_field_val block namespace_type (Ident.symbol field_name) (Ident.span field_name) span
      | _ => unreachable
      end
  | _ => unreachable
  end.

(** ** Types *)

Definition struct_init_type_of_field (ty : Z) (field : list Z) : M Z :=
  poison ← common generic_poison_t;
  key ← index_to_key ty;
  value ← index_to_value ty;
  match key with
  | KType (Union _) =>
      u ← lift (as_union value);
      match union_field_idx_by_name u field with
      | Some idx =>
          f ← lift (get_idx (union_fields u) (Z.to_nat idx));
          match uf_ty f with Some field_ty => mret field_ty | None => common void_t end
      | None => mret poison
      end
  | _ =>
      s ← lift (as_struct_value value);
      match struct_field_idx_by_name s field with
      | Some idx => f ← lift (get_idx (struct_fields s) idx); mret (sf_ty f)
      | None => mret poison
      end
  end.

Definition type_of_ptr_pointee (ptr : InstructionRef) : M Z :=
  let pointee :=
    ty ← type_of ptr;
    key ← index_to_key ty;
    p ← lift (as_type_ptr key);
    mret (ptr_pointee_ty p) in
  match ptr with
  | Instruction ptr_id =>
      opcode ← opcode_at ptr_id;
      match is_inferred opcode with
      | Some _ =>
          m ← gets pending_inferred_alloc_to_ty;
          poison ← common generic_poison_t;
          mret (default poison (m !! ptr ≫= id))
      | None => pointee
      end
  | Interned _ => pointee
  end.

Definition analyze_type_ptr (pointee : InstructionRef) (is_const : bool) (span : Span.Span) : M (Result InstructionRef) :=
  pointee_ty ← resolve_inst pointee;
  match try_resolve_comptime_value pointee_ty with
  | None => fail_at (bytes_of "pointee type isn't valid (not a `type`)") span
  | Some pointee_ty => ty ← intern_ptr_type pointee_ty is_const; ok (Interned ty)
  end.

Definition array_length (len : InstructionRef) (len_span : Span.Span) : M (Result Z) :=
  len ← resolve_inst len;
  match try_resolve_comptime_value len with
  | None => fail_at (bytes_of "array length must be known at comptime") len_span
  | Some len =>
      key ← index_to_key len;
      n ← lift (as_int key);
      match Anyint.to_u64 n.2 with
      | Some n => ok n
      | None =>
          n ← lift (Anyint.fmt n.2);
          at_ ← diag_span len_span;
          push_error (Diagnostic.with_note
            (error_with (bytes_of "array length `" ++ n ++ bytes_of "` too big to len_span in an array") at_)
            (bytes_of "maximum length of an array is " ++ decimal (2^64 - 1) ++ bytes_of " (u64 maximum value)")) ;;
          fail AnalysisFailed
      end
  end.

Definition analyze_type_array (block : nat) (elem len : InstructionRef) (elem_span len_span : Span.Span)
    : M (Result InstructionRef) :=
  elem_ty ←? resolve_type block elem elem_span;
  len ←? array_length len len_span;
  ok_interned (KType (Array {| Value.elem_ty := elem_ty; array_len := len |})).

(** ** Blocks *)

(** The type of a block is that of its first break; the others are coerced to it,
    and what they are coerced to is dropped. *)
Definition block_type (block : nat) (breaks : list InstructionRef) (span : Span.Span) : M (Result Z) :=
  void ← common void_t;
  match breaks with
  | [] => ok void
  | first :: others =>
      ret_ty ← (if bool_decide (first = Interned void) then mret void else type_of first);
      _ ←? try_map (fun break_val => coerce block ret_ty break_val span) others;
      ok ret_ty
  end.

Definition analyze_block (is_loop : bool) (block : nat) (id : InstructionId) (instructions : list InstructionId)
    (span : Span.Span) : Analyzed :=
  i ← inst_id block Vtir.Invalid;
  map_inst id (Instruction i) ;;
  child ← child_block_from_vuir_block block {| block_inst := Instruction i; breaks := [] |};
  _ ←? analyze_instruction_block analyze_inst child instructions;
  unstacked_block ← unstack_block child;
  data ← unwrap (vuir_block unstacked_block);
  ret_ty ←? block_type block (breaks data) span;
  set_opcode i ((if is_loop then Vtir.Loop else Vtir.Block) (block_instructions unstacked_block) ret_ty) ;;
  ok (Instruction i, ControlFlow.May).

(** [Declaration] and [BlockComptime]: a body that must give a value. *)
Definition analyze_comptime (block : nat) (id : InstructionId) (instructions : list InstructionId) : Analyzed :=
  child ← comptime_child_block block;
  value ←? analyze_comptime_block analyze_inst child instructions;
  value ← unwrap value;
  map_inst id value ;;
  unstack_block child ;;
  ok (value, ControlFlow.May).

(** A body at compile time, in the block itself: its value, or [void]. *)
Definition comptime_value (block : nat) (body : list InstructionId) : M (Result InstructionRef) :=
  r ←? analyze_comptime_block analyze_inst block body;
  void_value ← common void_value;
  ok (default (Interned void_value) r).

(** A body at run time: its instructions. *)
Definition runtime_body (block : nat) (body : list InstructionId) : M (Result (list InstructionRef)) :=
  child ← child_block block;
  _ ←? analyze_comptime_block analyze_inst child body;
  b ← unstack_block child;
  ok (block_instructions b).

Definition analyze_branch (block : nat) (id : InstructionId) (cond : InstructionRef) (cond_span : Span.Span)
    (then_body else_body : list InstructionId) : Analyzed :=
  cond ← resolve_inst cond;
  bool_ty ← common bool_t;
  cond ←? coerce block bool_ty cond cond_span;
  match try_resolve_comptime_value cond with
  | Some cond =>
      key ← index_to_key cond;
      b ← lift (as_bool key);
      r ←? comptime_value block (if b : bool then then_body else else_body);
      ok (r, ControlFlow.May)
  | None =>
      then_body ←? runtime_body block then_body;
      else_body ←? runtime_body block else_body;
      r ← inst block (Vtir.Branch cond then_body else_body);
      done id r
  end.

(** ** Switches *)

(** A body of a case: the blocks that it leaves are dropped. *)
Definition case_body (block : nat) (body : list InstructionId) : M (Result (list InstructionRef)) :=
  child ← child_block block;
  l ← gets blocks;
  _ ←? analyze_comptime_block analyze_inst child body;
  l' ← gets blocks;
  modify (set_blocks (take (length l) l')) ;;
  b ← unstack_block child;
  ok (block_instructions b).

Definition case_item (block : nat) (operand_ty : Z) (span : Span.Span) (item : InstructionRef)
    : M (Result InstructionRef) :=
  item ← resolve_inst item;
  coerce block operand_ty item span.

(** The body of the first pattern that is the value. *)
Fixpoint matching_single (block : nat) (operand_ty operand_val : Z) (cases : list Vuir.SwitchSingleCase)
    : M (Result (option (list InstructionId))) :=
  match cases with
  | [] => ok None
  | case :: cases =>
      item ←? case_item block operand_ty (Vuir.pattern_span case) (Vuir.pattern case);
      if bool_decide (try_resolve_comptime_value item = Some operand_val) then ok (Some (Vuir.single_body case))
      else matching_single block operand_ty operand_val cases
  end.
Fixpoint matches_any (block : nat) (operand_ty operand_val : Z) (span : Span.Span) (items : list InstructionRef)
    : M (Result bool) :=
  match items with
  | [] => ok false
  | item :: items =>
      item ←? case_item block operand_ty span item;
      if bool_decide (try_resolve_comptime_value item = Some operand_val) then ok true
      else matches_any block operand_ty operand_val span items
  end.
Fixpoint matching_multi (block : nat) (operand_ty operand_val : Z) (cases : list Vuir.SwitchMultiCase)
    : M (Result (option (list InstructionId))) :=
  match cases with
  | [] => ok None
  | case :: cases =>
      m ←? matches_any block operand_ty operand_val (Vuir.patterns_span case) (Vuir.items case);
      if m : bool then ok (Some (Vuir.multi_body case)) else matching_multi block operand_ty operand_val cases
  end.

Definition matched_body (block : nat) (operand_ty operand_val : Z) (single_cases : list Vuir.SwitchSingleCase)
    (multi_cases : list Vuir.SwitchMultiCase) (else_body : option (list InstructionId))
    : M (Result (list InstructionId)) :=
  single ←? matching_single block operand_ty operand_val single_cases;
  matched ←? match single with
             | Some body => ok (Some body)
             | None => matching_multi block operand_ty operand_val multi_cases
             end;
  match matched, else_body with
  | Some body, _ | None, Some body => ok body
  | None, None => unreachable
  end.

(** The value that is switched on: a tagged union gives its tag. *)
Definition switch_operand (block : nat) (operand : InstructionRef) (ty : Z) (span : Span.Span)
    : M (Result InstructionRef) :=
  kv ← index_to_key_value ty;
  match kv with
  | (KType (Union _), VUnion u) =>
      match union_tag_ty u with
      | Some tag_ty => emit block (Vtir.UnionTag operand tag_ty)
      | None => fail_at (bytes_of "cannot switch on a bare union") span
      end
  | _ => ok operand
  end.

Definition single_case (block : nat) (operand_ty : Z) (case : Vuir.SwitchSingleCase) : M (Result Vtir.SwitchCase) :=
  pattern ←? case_item block operand_ty (Vuir.pattern_span case) (Vuir.pattern case);
  body ←? case_body block (Vuir.single_body case);
  ok {| Vtir.items := [pattern]; Vtir.body := body |}.
Definition multi_case (block : nat) (operand_ty : Z) (case : Vuir.SwitchMultiCase) : M (Result Vtir.SwitchCase) :=
  items ←? try_map (case_item block operand_ty (Vuir.patterns_span case)) (Vuir.items case);
  body ←? case_body block (Vuir.multi_body case);
  ok {| Vtir.items := items; Vtir.body := body |}.

Definition runtime_switch (block : nat) (id : InstructionId) (operand : InstructionRef)
    (original_operand_ty operand_ty : Z) (single_cases : list Vuir.SwitchSingleCase)
    (multi_cases : list Vuir.SwitchMultiCase) (else_body : option (list InstructionId)) (span : Span.Span)
    : Analyzed :=
  singles ←? try_map (single_case block operand_ty) single_cases;
  multis ←? try_map (multi_case block operand_ty) multi_cases;
  let cases := singles ++ multis in
  else_body ←? match else_body with
               | None =>
                   key ← index_to_key original_operand_ty;
                   let ty := match key with KType (Union _) => original_operand_ty | _ => operand_ty end in
                   is_exhaustive ← check_switch_exhaustive ty cases span;
                   if is_exhaustive : bool then ok [] else fail AnalysisFailed
               | Some body => case_body block body
               end;
  r ← inst block (Vtir.Switch operand cases else_body);
  done id r.

Definition analyze_switch (block : nat) (id : InstructionId) (operand : InstructionRef)
    (single_cases : list Vuir.SwitchSingleCase) (multi_cases : list Vuir.SwitchMultiCase)
    (else_body : option (list InstructionId)) (span : Span.Span) : Analyzed :=
  operand ← resolve_inst operand;
  original_operand_ty ← type_of operand;
  operand ←? switch_operand block operand original_operand_ty span;
  operand_ty ← type_of operand;
  match try_resolve_comptime_value operand with
  | Some operand_val =>
      body ←? matched_body block operand_ty operand_val single_cases multi_cases else_body;
      r ←? comptime_value block body;
      done id r
  | None =>
      runtime_switch block id operand original_operand_ty operand_ty single_cases multi_cases else_body span
  end.

(** The position of the field whose tag has the value. *)
Definition enum_tag_val (tag : Z) : M Z :=
  key ← index_to_key tag; match key with KEnumTag _ val => mret val | _ => unreachable end.
Fixpoint tagged_field (tag_ty pattern_value : Z) (field_idx : nat) (fields : list UnionField) : M (option nat) :=
  match fields with
  | [] => mret None
  | _ :: fields =>
      field_tag ← intern_enum_tag_from_field_idx tag_ty (u32 (Z.of_nat field_idx));
      field_value ← enum_tag_val field_tag;
      if field_value =? pattern_value then mret (Some field_idx)
      else tagged_field tag_ty pattern_value (S field_idx) fields
  end.

Definition analyze_switch_capture (block : nat) (switch_operand case_pattern : InstructionRef) (span : Span.Span)
    : M (Result InstructionRef) :=
  union_val ← resolve_inst switch_operand;
  union_ty ← type_of union_val;
  kv ← index_to_key_value union_ty;
  match kv with
  | (KType (Union _), VUnion {| union_tag_ty := Some tag_ty; union_fields := fields |}) =>
      pattern ← resolve_inst case_pattern;
      tag ←? coerce block tag_ty pattern span;
      tag ← lift (as_interned tag);
      pattern_value ← enum_tag_val tag;
      field_idx ← tagged_field tag_ty pattern_value 0 fields;
      match field_idx with
      | None => fail_at (bytes_of "switch pattern does not name a variant of this union") span
      | Some field_idx =>
          f ← lift (get_idx fields field_idx);
          void ← common void_t;
          emit block (Vtir.UnionFieldValue union_val field_idx (default void (uf_ty f)))
      end
  | _ => fail_at (bytes_of "switch captures are only supported for tagged unions") span
  end.

(** ** Values *)

Definition analyze_bool_not (block : nat) (op : InstructionRef) (span : Span.Span) : M (Result InstructionRef) :=
  op ← resolve_inst op;
  bool_ty ← common bool_t;
  op ←? coerce block bool_ty op span;
  match try_resolve_comptime_value op with
  | Some v =>
      true_v ← common true_value;
      r ← (if v =? true_v then common false_value else mret true_v);
      ok (Interned r)
  | None => emit block (Vtir.BoolNot op)
  end.

Definition analyze_rvalue_to_lvalue (block : nat) (rvalue : InstructionRef) : M (Result InstructionRef) :=
  rvalue ← resolve_inst rvalue;
  match try_resolve_comptime_value rvalue with
  | Some v => p ← intern_value_ptr v; ok (Interned p)
  | None =>
      ty ← type_of rvalue;
      ptr_ty ← intern_ptr_type ty false;
      r ← inst block (Vtir.StackAlloc ptr_ty);
      inst block (Vtir.Store rvalue r) ;;
      ok r
  end.

(** A binary operator, on its operands. *)
Definition binary (op : nat -> Vuir.Opcode -> InstructionRef -> InstructionRef -> Span.Span -> M (Result InstructionRef))
    (block : nat) (opcode : Vuir.Opcode) (lhs rhs : InstructionRef) (span : Span.Span) : M (Result InstructionRef) :=
  lhs ← resolve_inst lhs;
  rhs ← resolve_inst rhs;
  op block opcode lhs rhs span.

(** ** The dispatch *)

Definition analyze_opcode (block : nat) (id : InstructionId) (opcode : Vuir.Opcode) : Analyzed :=
  match opcode with
  | Vuir.DeclStruct naming fields packed linear decls captures =>
      analyze_decl_struct analyze_inst block id naming fields packed linear decls captures
  | Vuir.DeclEnum tag_ty naming linear variants decls captures =>
      analyze_decl_enum block id tag_ty naming linear variants decls captures
  | Vuir.DeclUnion tag naming linear fields decls captures =>
      analyze_decl_union analyze_inst block id tag naming linear fields decls captures
  | Vuir.DeclFn ret_ty ret_ty_is_generic params var_args _ external callconv _ inline span =>
      analyze_decl_fn analyze_inst block id ret_ty ret_ty_is_generic params var_args external callconv inline span
  | Vuir.Break br_block value value_span => analyze_break block id br_block value value_span
  | Vuir.Repeat loop => analyze_repeat block id loop
  | Vuir.BreakComptime br_block value => value ← resolve_inst value; fail (ComptimeBreak br_block value)
  | Vuir.FieldValFromPtr lhs field span =>
      finishing id (lhs ← resolve_inst lhs;
                    p ←? analyze_field_ptr block lhs field span span;
                    analyze_load block p span)
  | Vuir.FieldPtrFromPtr lhs field span =>
      finishing id (lhs ← resolve_inst lhs; analyze_field_ptr block lhs field span span)
  | Vuir.FieldValFromVal lhs field span =>
      finishing id (lhs ← resolve_inst lhs; analyze_field_val block lhs field span span)
  | Vuir.ArrayIndexElemVal array_ptr index span =>
      finishing id (at_ ← diag_span span;
                    p ←? analyze_array_index_ptr block array_ptr index at_;
                    analyze_load block p span)
  | Vuir.ArrayIndexElemPtr array_ptr index span =>
      finishing id (at_ ← diag_span span; analyze_array_index_ptr block array_ptr index at_)
  | Vuir.CaptureGet idx span => finishing id (analyze_capture_get block idx span)
  | Vuir.Undefined ty span => finishing id (analyze_undefined block ty span)
  | Vuir.AggregateInit ty kind span => analyze_aggregate_init block id ty kind span
  | Vuir.DeclFnParam name type_body comptime generic span =>
      analyze_decl_fn_param block id name type_body comptime generic span
  | Vuir.StackAlloc name ty span | Vuir.StackAllocMut name ty span => analyze_stack_alloc block id name ty span
  | Vuir.StackAllocComptime _ ty span | Vuir.StackAllocComptimeMut _ ty span =>
      analyze_stack_alloc_comptime block id ty span
  | Vuir.StackAllocInferred _ _ => analyze_stack_alloc_inferred block id true
  | Vuir.StackAllocInferredMut _ _ => analyze_stack_alloc_inferred block id false
  | Vuir.StackAllocInferredComptime _ _ | Vuir.StackAllocInferredComptimeMut _ _ =>
      analyze_stack_alloc_inferred_comptime block id
  | Vuir.ReifyInferredAlloc alloc span => analyze_reify_inferred_alloc id alloc span
  | Vuir.FreezeStackAlloc alloc span => analyze_freeze_stack_alloc block id alloc span
  | Vuir.DeclVal ident =>
      finishing id (decl ←? lookup_ident block ident; analyze_decl_val block decl (Ident.span ident))
  | Vuir.DeclRef ident =>
      finishing id (decl ←? lookup_ident block ident; analyze_decl_ptr block decl (Ident.span ident))
  | Vuir.Load src span => finishing id (src ← resolve_inst src; analyze_load block src span)
  | Vuir.Store dst src span => finishing id (analyze_store block dst src span)
  | Vuir.StoreToInferredAlloc dst src span => analyze_store_to_inferred_alloc block dst src span
  | Vuir.FnCall fun_ args expected_ret_ty span =>
      fun_ ← resolve_inst fun_;
      r ←? analyze_fn_call analyze_inst id block fun_ args expected_ret_ty span;
      ok (r, ControlFlow.May)
  | Vuir.FnCallWithFieldPtrReceiver field_ptr field_name args expected_ret_ty span =>
      fun_ ←? field_callee block field_ptr field_name span;
      r ←? analyze_fn_call analyze_inst id block fun_ args expected_ret_ty span;
      ok (r, ControlFlow.May)
  | Vuir.Coerce value into span =>
      finishing id (dst_ty ←? resolve_type block into span;
                    value ← resolve_inst value;
                    coerce block dst_ty value span)
  | Vuir.TypeOfCurFnRet => finishing id (t ← current_fn_type; ok (Interned (Value.ret_ty t)))
  | Vuir.TypeBuiltinCallingConvention =>
      finishing id (ty ←? resolve_builtin_calling_convention_type; ok (Interned ty))
  | Vuir.StructInitTypeOfField struct_ field span =>
      finishing id (r ← resolve_inst struct_;
                    i ← lift (as_interned r);
                    ty ← struct_init_type_of_field i field;
                    ok (Interned ty))
  | Vuir.TypeOfPtrPointee ptr span =>
      finishing id (ptr ← resolve_inst ptr; ty ← type_of_ptr_pointee ptr; ok (Interned ty))
  | Vuir.TypeOf value => finishing id (value ← resolve_inst value; ty ← type_of value; ok (Interned ty))
  | Vuir.Return value span => analyze_return block id value span
  | Vuir.DbgSrcLoc line col => r ← inst block (Vtir.DbgSrcLoc line col); ok (r, ControlFlow.May)
  | Vuir.Block instructions span => analyze_block false block id instructions span
  | Vuir.Loop instructions span => analyze_block true block id instructions span
  | Vuir.BoolNot op span => finishing id (analyze_bool_not block op span)
  | Vuir.Negate _ _ => unreachable
  | Vuir.Add lhs rhs span | Vuir.AddSat lhs rhs span | Vuir.Sub lhs rhs span | Vuir.SubSat lhs rhs span
  | Vuir.Mul lhs rhs span | Vuir.MulSat lhs rhs span | Vuir.Div lhs rhs span | Vuir.Rem lhs rhs span =>
      finishing id (binary analyze_arithmetic_op block opcode lhs rhs span)
  | Vuir.Shl lhs rhs span | Vuir.ShlSat lhs rhs span | Vuir.ShlWrap lhs rhs span | Vuir.Shr lhs rhs span
  | Vuir.ShrSat lhs rhs span | Vuir.ShrWrap lhs rhs span | Vuir.BitAnd lhs rhs span | Vuir.BitOr lhs rhs span
  | Vuir.BitXor lhs rhs span =>
      finishing id (binary analyze_bitwise_op block opcode lhs rhs span)
  | Vuir.BitNot op span => finishing id (op ← resolve_inst op; analyze_bitwise_not_op block op span)
  | Vuir.Lt lhs rhs span | Vuir.Lte lhs rhs span | Vuir.Gt lhs rhs span | Vuir.Gte lhs rhs span
  | Vuir.BoolAnd lhs rhs span | Vuir.BoolOr lhs rhs span | Vuir.Eq lhs rhs span | Vuir.Neq lhs rhs span =>
      finishing id (binary analyze_comparaison_op block opcode lhs rhs span)
  | Vuir.Invalid => unreachable
  | Vuir.Declaration decl => analyze_comptime block id (Vuir.decl_value decl)
  | Vuir.BlockComptime instructions => analyze_comptime block id instructions
  | Vuir.TypePtr pointee is_const _ span => finishing id (analyze_type_ptr pointee is_const span)
  | Vuir.TypeSlice elem _ _ =>
      finishing id (r ← resolve_inst elem;
                    ty ← unwrap (try_resolve_comptime_value r);
                    ok_interned (KType (Slice {| slice_pointee_ty := ty |})))
  | Vuir.TypeArray elem _ len _ elem_span len_span span =>
      finishing id (analyze_type_array block elem len elem_span len_span)
  | Vuir.Branch (cond, cond_span) then_body else_body _ =>
      analyze_branch block id cond cond_span then_body else_body
  | Vuir.Switch operand single_cases multi_cases else_body span =>
      analyze_switch block id operand single_cases multi_cases else_body span
  | Vuir.Defer body _ =>
      _ ←? analyze_instruction_block analyze_inst block body;
      v ← common void_value;
      done id (Interned v)
  | Vuir.SwitchCapture switch_operand case_pattern span =>
      finishing id (analyze_switch_capture block switch_operand case_pattern span)
  | Vuir.RvalueToLvalue rvalue => finishing id (analyze_rvalue_to_lvalue block rvalue)
  end.

Definition analyze_inst_with (block : nat) (id : InstructionId) : Analyzed :=
  opcode ← vuir_at id; analyze_opcode block id opcode.

End Inst.
End SemaInst.
