(* ===== verification/SemaTypeInfo.v ===== *)
(** * Run-time type information ([analyze_type_info] of [src/compile_unit/sema.rs])

    The value of [builtin.Type] that describes a type: its number, name, size and
    kind, with the types it is made of by their numbers.  The entry of a type is
    built once and kept in [type_info_entries].  The recursion over the types that
    a type refers to carries fuel; the code has none. *)

From S2P Require Import Prelude Words Bytes Span Token Diagnostic Ast HashIndex ShardedMap.
From S2P Require Import Anyint Value ValueStore ValueLayout Vuir Vtir SemaState SemaAccess SemaFold SemaInit SemaDecl SemaCall.
From stdpp Require Import gmap.

#[local] Open Scope Z_scope.
#[local] Open Scope sema_scope.

Module SemaTypeInfo.
Import Value ValueStore IrId Sema SemaAccess SemaInit SemaDecl SemaCall.

(** The types of [builtin.Type] that an entry is made of. *)
Record Rtti : Set := {
  type_info_ty : Z;
  str_slice_ty : Z;
  field_ty : Z;
  variant_ty : Z;
  kind_ty : Z;
  kind_tag_ty : Z;
  kind_fields : list UnionField;
}.

(** Where the tag and the payload of a union are. *)
Definition union_offsets (l : ValueLayout.UnionLayout) : res (Z * Z) :=
  let '(tag, payload) := (ValueLayout.tag l, ValueLayout.payload l) in
  if (ValueLayout.size tag =? 0) || (ValueLayout.size payload =? 0) then Ret (0, 0)
  else if ValueLayout.align payload <=? ValueLayout.align tag then
    o ← ValueLayout.next_multiple_of (ValueLayout.size tag) (ValueLayout.align payload); Ret (0, o)
  else
    o ← ValueLayout.next_multiple_of (ValueLayout.size payload) (ValueLayout.align tag); Ret (o, 0).

(** The offset of a field, and the end of the fields so far. *)
Definition standard_offset (l : ValueLayout.Layout) (cur_offset : Z) : res (Z * Z) :=
  offset ← ValueLayout.next_multiple_of cur_offset (ValueLayout.align l);
  end_ ← ValueLayout.u64_add offset (ValueLayout.size l);
  Ret (offset, end_).

Section TypeInfo.
Context `{!Setting, !Workers}.

Definition int_value (ty n : Z) : M Z := intern_trivial (KInt ty (Anyint.from_unsigned n)).
Definition u16_value (n : Z) : M Z := ty ← common u16_t; int_value ty n.
Definition u32_value (n : Z) : M Z := ty ← common u32_t; int_value ty n.
Definition usize_int (n : Z) : M Z := ty ← common usize_t; int_value ty n.
Definition bool_value (b : bool) : M Z := intern_trivial (KBool b).
Definition str_value (k : Rtti) (s : list Z) : M Z := intern_trivial (KStr (str_slice_ty k) s).

(** ** The types of [builtin.Type] *)

Definition type_member (namespace : Z) (name : list Z) : M (Result Z) :=
  decl ← lookup_decl_in_namespace (Z.to_nat namespace) name;
  decl ← unwrap decl;
  decl_value decl.

Definition kind_types (type_info_struct : TypeStruct) : M (Z * Z * list UnionField) :=
  i ← unwrap (struct_field_idx_by_name type_info_struct (bytes_of "kind"));
  f ← lift (get_idx (struct_fields type_info_struct) i);
  value ← index_to_value (sf_ty f);
  u ← lift (as_union value);
  tag_ty ← unwrap (union_tag_ty u);
  mret (sf_ty f, tag_ty, union_fields u).

(** The size of a type; a function is a pointer. *)
Definition info_layout (ty : Z) : M ValueLayout.Layout :=
  key ← index_to_key ty;
  match key with
  | KType (Fn _) => t ← gets (fun self => target (cu self)); lift (ValueLayout.type_ptr_layout t ty)
  | _ => type_layout ty
  end.

Definition rtti (type_info_ty : Z) (type_info_struct : TypeStruct) : M (Result Rtti) :=
  u8_ty ← intern_trivial (KType (Int false 8));
  str_slice_ty ← intern_trivial (KType (Slice {| slice_pointee_ty := u8_ty |}));
  field_ty ←? type_member (struct_namespace type_info_struct) (bytes_of "Field");
  variant_ty ←? type_member (struct_namespace type_info_struct) (bytes_of "Variant");
  '(kind_ty, kind_tag_ty, kind_fields) ← kind_types type_info_struct;
  ok {| type_info_ty := type_info_ty; str_slice_ty := str_slice_ty; field_ty := field_ty;
        variant_ty := variant_ty; kind_ty := kind_ty; kind_tag_ty := kind_tag_ty; kind_fields := kind_fields |}.

(** ** Kinds *)

(** The variants with and without a payload, by their position in [Kind]. *)
Definition kind_plain (k : Rtti) (i : Z) : M Z :=
  tag ← intern_enum_tag_from_field_idx (kind_tag_ty k) i;
  intern_trivial (KUnion (kind_ty k) (Some tag) None).
Definition kind_with (k : Rtti) (i : Z) (payload : M (list Z)) : M Z :=
  f ← lift (get_idx (kind_fields k) (Z.to_nat i));
  payload_ty ← unwrap (uf_ty f);
  tag ← intern_enum_tag_from_field_idx (kind_tag_ty k) i;
  values ← payload;
  val ← intern_trivial (KAggregate payload_ty values);
  intern_trivial (KUnion (kind_ty k) (Some tag) (Some val)).

Definition int_kind (k : Rtti) (signed : bool) (bits : Z) : M Z :=
  kind_with k 0 (s ← bool_value signed; b ← u16_value bits; mret [s; b]).
Definition float_kind (k : Rtti) (bits : Z) : M Z := kind_with k 1 (b ← u16_value bits; mret [b]).
Definition pointer_bits : M Z := gets (fun self => ValueLayout.ptr_width_in_bits (target (cu self))).

(** A constant slice, with its elements in a declaration of their own. *)
Definition const_slice (elem : Z) (elems : list Z) : M Z :=
  slice_ty ← intern_trivial (KType (Slice {| slice_pointee_ty := elem |}));
  array_ty ← intern_trivial (KType (Array {| Value.elem_ty := elem; array_len := Z.of_nat (length elems) |}));
  array ← intern_trivial (KAggregate array_ty elems);
  owner ← gets owner_decl;
  d ← decl_at owner;
  m ← gets Sema.module;
  let name := bytes_of "__vif_const_" ++ decimal array in
  decl ← push_decl {|
    decl_name := name;
    full_qualified_name := full_qualified_name d ++ bytes_of "." ++ name;
    decl_is_const := true;
    decl_module := m;
    decl_namespace := decl_namespace d;
    analysis_state := Analysed array |};
  ptr_ty ← intern_ptr_type elem true;
  ptr ← intern_trivial (KPtr {| ptr_ty := ptr_ty; ptr_kind := PtrDecl (Z.of_nat decl) |});
  len ← usize_int (Z.of_nat (length elems));
  intern_trivial (KSlice slice_ty ptr len).

Section Kinds.
(** The number of a type that this one refers to. *)
Variable reference_type : Z -> M Z.

Definition field_info (k : Rtti) (name : list Z) (ty offset : Z) : M Z :=
  name ← str_value k name;
  r ← reference_type ty;
  t ← u32_value r;
  o ← usize_int offset;
  intern_trivial (KAggregate (field_ty k) [name; t; o]).

Definition field_offset (s : TypeStruct) (field_idx : nat) (field : StructField) (cur_offset : Z) : M (Z * Z) :=
  match layout s with
  | Standard => l ← type_layout (sf_ty field); lift (standard_offset l cur_offset)
  | Packed _ _ _ => info ← unwrap (get_packed_field_info s field_idx); mret (offset info / 8, cur_offset)
  end.

Fixpoint struct_field_infos (k : Rtti) (s : TypeStruct) (field_idx : nat) (fields : list StructField) (cur_offset : Z)
    : M (list Z) :=
  match fields with
  | [] => mret []
  | field :: fields =>
      '(offset, cur_offset) ← field_offset s field_idx field cur_offset;
      v ← field_info k (sf_name field) (sf_ty field) offset;
      vs ← struct_field_infos k s (S field_idx) fields cur_offset;
      mret (v :: vs)
  end.

Definition struct_kind (k : Rtti) (s : TypeStruct) : M Z :=
  kind_with k 13
    (field_values ← struct_field_infos k s 0 (struct_fields s) 0;
     fields_slice ← const_slice (field_ty k) field_values;
     n ← u32_value (u32 (Z.of_nat (length (struct_fields s))));
     linear ← bool_value (struct_linear s);
     mret [n; linear; fields_slice]).

Fixpoint variant_infos (k : Rtti) (fields : list EnumField) : M (list Z) :=
  match fields with
  | [] => mret []
  | field :: fields =>
      name ← str_value k (ef_name field);
      key ← index_to_key (ef_value field);
      value ← lift (as_int key);
      usize ← common usize_t;
      v ← intern_trivial (KInt usize value.2);
      v ← intern_trivial (KAggregate (variant_ty k) [name; v]);
      vs ← variant_infos k fields;
      mret (v :: vs)
  end.

Definition enum_kind (k : Rtti) (e : TypeEnum) : M Z :=
  kind_with k 14
    (variant_values ← variant_infos k (enum_fields e);
     variants_slice ← const_slice (variant_ty k) variant_values;
     r ← reference_type (enum_tag_ty e);
     t ← u32_value r;
     n ← u32_value (u32 (Z.of_nat (length (enum_fields e))));
     linear ← bool_value (enum_linear e);
     mret [t; n; linear; variants_slice]).

Fixpoint union_field_infos (k : Rtti) (payload_offset : Z) (fields : list UnionField) : M (list Z) :=
  match fields with
  | [] => mret []
  | field :: fields =>
      void ← common void_t;
      v ← field_info k (uf_name field) (default void (uf_ty field))
            (match uf_ty field with Some _ => payload_offset | None => 0 end);
      vs ← union_field_infos k payload_offset fields;
      mret (v :: vs)
  end.

Definition union_kind (k : Rtti) (ty : Z) (u : TypeUnion) : M Z :=
  kind_with k 15
    (t ← gets (fun self => target (cu self));
     l ← query (fun v => ValueLayout.type_union_layout query_fuel v t ty);
     '(tag_offset, payload_offset) ← lift (union_offsets l);
     field_values ← union_field_infos k payload_offset (union_fields u);
     fields_slice ← const_slice (field_ty k) field_values;
     tagged ← bool_value (bool_decide (is_Some (union_tag_ty u)));
     void ← common void_t;
     r ← reference_type (default void (union_tag_ty u));
     tag_ty ← u32_value r;
     tag_offset ← usize_int tag_offset;
     payload_offset ← usize_int payload_offset;
     n ← u32_value (u32 (Z.of_nat (length (union_fields u))));
     linear ← bool_value (union_linear u);
     mret [tagged; tag_ty; tag_offset; payload_offset; n; linear; fields_slice]).

(** The kind of a type. *)
Definition type_kind (k : Rtti) (ty : Z) (t : Ty) : M Z :=
  match t with
  | Int signed bits => int_kind k signed bits
  | Usize => bits ← pointer_bits; int_kind k false bits
  | Isize => bits ← pointer_bits; int_kind k true bits
  | F16 => float_kind k 16
  | F32 => float_kind k 32
  | F64 => float_kind k 64
  | F128 => float_kind k 128
  | Bool => kind_plain k 2
  | Void => kind_plain k 3
  | Never => kind_plain k 4
  | Type_ => kind_plain k 5
  | Anyptr => kind_plain k 6
  | TAnyint => kind_plain k 7
  | TAnyfloat => kind_plain k 8
  | TPtr ptr =>
      kind_with k 9
        (r ← reference_type (ptr_pointee_ty ptr); t ← u32_value r; c ← bool_value (is_const ptr); mret [t; c])
  | Slice slice => kind_with k 10 (r ← reference_type (slice_pointee_ty slice); t ← u32_value r; mret [t])
  | Array array =>
      kind_with k 11
        (r ← reference_type (elem_ty array); t ← u32_value r; n ← usize_int (array_len array); mret [t; n])
  | Fn f =>
      kind_with k 12
        (r ← reference_type (Value.ret_ty f);
         t ← u32_value r;
         n ← u16_value (u16 (Z.of_nat (length (Value.params f))));
         v ← bool_value (Value.var_args f);
         mret [t; n; v])
  | Struct _ => value ← index_to_value ty; s ← lift (as_struct_value value); struct_kind k s
  | Enum _ => value ← index_to_value ty; e ← lift (as_enum_value value); enum_kind k e
  | Union _ => value ← index_to_value ty; u ← lift (as_union value); union_kind k ty u
  | NullPtr | EnumLiteral | GenericPoison => unreachable
  end.

End Kinds.

(** ** Entries *)

Definition find_type_info (ty : Z) : M (option Z) :=
  m ← gets (fun self => type_to_type_info_id (cu self)); mret (m !! ty).

(** [entry(&ty).or_insert_with(..)]: the next number, and the entry under it. *)
Definition publish (k : Rtti) (ty : Z) (name : list Z) (size kind : Z) : M Z :=
  found ← find_type_info ty;
  match found with
  | Some id => mret id
  | None =>
      entries ← gets (fun self => type_info_entries (cu self));
      let type_info_id := Z.of_nat (length entries) in
      id ← u32_value (u32 type_info_id);
      name ← str_value k name;
      size ← usize_int size;
      type_info ← intern_trivial (KAggregate (type_info_ty k) [id; name; size; kind]);
      m ← gets (fun self => type_to_type_info_id (cu self));
      modify_cu (fun cu => set_type_info_entries (entries ++ [type_info])
                             (set_type_to_type_info_id (<[ty := type_info_id]> m) cu)) ;;
      mret type_info_id
  end.

(** An entry that is not there, for a way to make those of other types; one that
    fails panics. *)
Definition build_type_info (analyze : Z -> M (Result Z)) (ty : Z) : M (Result Z) :=
  let reference_type referenced_ty :=
    r ← analyze referenced_ty;
    match r with Ok id => mret (u32 id) | Err _ => unreachable end in
  type_info_ty ←? builtin_type_info;
  value ← index_to_value type_info_ty;
  s ← lift (as_struct_value value);
  ty_layout ← info_layout ty;
  k ←? rtti type_info_ty s;
  key ← index_to_key ty;
  match key with
  | KType t =>
      kind ← type_kind reference_type k ty t;
      name ← display ty;
      id ← publish k ty name (ValueLayout.size ty_layout) kind;
      ok id
  | _ => unreachable
  end.

Fixpoint analyze_type_info_fuel (fuel : nat) (ty : Z) : M (Result Z) :=
  match fuel with
  | O => lift diverge
  | S fuel =>
      found ← find_type_info ty;
      match found with
      | Some id => ok id
      | None => build_type_info (analyze_type_info_fuel fuel) ty
      end
  end.

#[export] Instance analyze_type_info : TypeInfo := analyze_type_info_fuel query_fuel.

End TypeInfo.
End SemaTypeInfo.
