(* ===== verification/SemaJobs.v ===== *)
(** * Modules and jobs ([src/compile_unit.rs])

    The analysis of a module, of a declaration and of a function, each with an
    analysis state of its own on the shared compilation unit, the queue of jobs,
    and [system], which closes the recursion between them and [analyze_inst]: an
    instruction can wait for a declaration, and a worker that waits runs the next
    job of the queue.  One worker runs everything. *)

From S2P Require Import Prelude Words Bytes Span Token Diagnostic Ast HashIndex ShardedMap.
From S2P Require Import Anyint Value ValueStore ValueLayout Vuir Vtir SemaState SemaAccess SemaFold SemaInit SemaDecl SemaCall SemaInst SemaTypeInfo.
From stdpp Require Import gmap.

#[local] Open Scope Z_scope.
#[local] Open Scope sema_scope.

Module SemaJobs.
Import Value ValueStore IrId Sema SemaAccess SemaFold SemaInit SemaDecl SemaCall SemaTypeInfo SemaInst.

(** ** Names of modules *)

(** [str::strip_prefix] and [str::strip_suffix]. *)
Fixpoint strip_prefix (prefix s : list Z) : option (list Z) :=
  match prefix, s with
  | [], _ => Some s
  | p :: prefix, c :: s => if p =? c then strip_prefix prefix s else None
  | _ :: _, [] => None
  end.
Definition strip_suffix (suffix s : list Z) : option (list Z) :=
  option_map (@rev Z) (strip_prefix (rev suffix) (rev s)).
(** [replace(['/', '\\'], ".")]: the two separators become dots. *)
Definition dotted (s : list Z) : list Z := map (fun c => if (c =? 47) || (c =? 92) then 46 else c) s.

(** The path below a directory. *)
Definition below (dir path_ : list Z) : option (list Z) :=
  match strip_prefix dir path_ with Some rest => strip_prefix (bytes_of "/") rest | None => None end.

Definition module_full_qualified_name `{!Paths} (path_ root_path std_path : list Z) : res (list Z) :=
  if path_eq path_ root_path then Ret (bytes_of "root")
  else if path_eq path_ std_path then Ret (bytes_of "std")
  else
    match path_parent std_path, path_parent root_path with
    | Some std_dir, Some root_dir =>
        let '(prefix, rest) :=
          match below std_dir path_ with
          | Some rest => (bytes_of "std", rest)
          | None =>
              match below root_dir path_ with
              | Some rest => (bytes_of "root", rest)
              | None => ([], path_)
              end
          end in
        let name := dotted (default rest (strip_suffix (bytes_of ".vif") rest)) in
        Ret (match prefix with [] => name | _ => prefix ++ bytes_of "." ++ name end)
    | _, _ => panic
    end.

Section Jobs.
Context `{!Setting, !Workers, !TypeInfo, !Paths, !Modules}.
Variable analyze_inst : nat -> InstructionId -> M (Result (InstructionRef * ControlFlow)).

(** ** Analyses on the shared unit *)

(** A computation of an analysis of its own. *)
Definition with_sema {A} (vuir : list Vuir.Opcode) (module_ : Z) (owner : nat) (f : option Z) (m : M A) : M A :=
  fun self => '(a, s) ← m (new (cu self) vuir module_ owner f); Ret (a, set_cu (cu s) self).

(** The block of a module, declaration or function. *)
Definition root_block (namespace : nat) (comptime inlined : bool) (base_type_name : list Z) : M nat :=
  push_block (mk_block namespace None [] None comptime inlined base_type_name [] None).

Definition set_analysis_state (decl : nat) (state : DeclAnalysisState) : M unit :=
  l ← gets (fun self => decls (cu self));
  d ← lift (get_idx l decl);
  l ← lift (set_idx l decl {|
    decl_name := decl_name d; full_qualified_name := full_qualified_name d; decl_is_const := decl_is_const d;
    decl_module := decl_module d; decl_namespace := decl_namespace d; analysis_state := state |});
  modify_cu (set_decls l).

Definition update_module (m : Z) (f : Module_ -> Module_) : M unit :=
  l ← gets (fun self => modules (cu self));
  md ← lift (get_idx l (Z.to_nat m));
  l ← lift (set_idx l (Z.to_nat m) (f md));
  modify_cu (set_modules l).
Definition set_sema_state (s : ModuleAnalyzeState.ModuleAnalyzeState) (m : Module_) : Module_ :=
  mk_module (path m) (module_vuir m) (module_namespace m) s.
Definition publish_namespace (m : Z) (ns : nat) : M unit :=
  md ← module_at m;
  match module_namespace md with
  | Some _ => unreachable
  | None => update_module m (fun md => mk_module (path md) (module_vuir md) (Some ns) (sema_state md))
  end.

(** ** Modules *)

(** The declaration of a module. *)
Definition declare_module (module_id : Z) (m : Module_) : M (nat * nat) :=
  poison ← common generic_poison_t;
  module_namespace ← push_namespace (with_owner_type poison);
  k ← gets (fun self => known (cu self));
  root ← module_at (root_module k);
  std ← module_at (std_module k);
  full_name ← lift (module_full_qualified_name (path m) (path root) (path std));
  name ← unwrap (path_file_name (path m));
  decl ← push_decl {|
    decl_name := name;
    full_qualified_name := full_name;
    decl_is_const := true;
    decl_module := module_id;
    decl_namespace := module_namespace;
    analysis_state := Unanalysed module_id FILE_MODULE |};
  mret (module_namespace, decl).

(** The struct of a file, by the analysis of its first instruction. *)
Definition analyze_file (module_id : Z) (vuir : list Vuir.Opcode) (namespace decl : nat) : M Z :=
  d ← decl_at decl;
  with_sema vuir module_id decl None
    (block ← root_block namespace true true (decl_name d);
     r ← analyze_comptime_block analyze_inst block [FILE_MODULE];
     match r with Ok _ => mret tt | Err _ => unreachable end ;;
     m ← gets vuir_map;
     v ← unwrap (m !! FILE_MODULE);
     lift (as_interned v)).

(** What the names of the prelude add to a module: those that it does not
    declare, and [Self]. *)
Definition with_prelude (value : Z) (self_decl : nat) (prelude ns : Namespace) : Namespace :=
  {| ns_parent := ns_parent ns;
     ns_decls := <[self_ty_symbol := self_decl]> (ns_decls ns ∪ ns_decls prelude);
     owner_type := value |}.

(** The namespace of a module that is not the prelude, and the [main] of the
    run-time module. *)
Definition import_prelude (module_id value : Z) (namespace decl : nat) : M (option nat) :=
  k ← gets (fun self => known (cu self));
  if module_id =? builtin_prelude_module k then mret None
  else
    pm ← module_at (builtin_prelude_module k);
    prelude_ns ← unwrap (module_namespace pm);
    l ← gets (fun self => namespaces (cu self));
    prelude ← lift (get_idx l prelude_ns);
    update_namespace namespace (with_prelude value decl prelude) ;;
    if module_id =? std_rt_module k then
      l ← gets (fun self => namespaces (cu self));
      ns ← lift (get_idx l namespace);
      main ← unwrap (ns_decls ns !! main_symbol);
      mret (Some main)
    else mret None.

Definition spawn (j : Job.Job) : M unit := modify_cu (fun cu => set_spawned (spawned cu ++ [j]) cu).

Definition job_analyze_module (module_id : Z) : M (Result Z) :=
  m ← module_at module_id;
  match module_vuir m with
  | None => fail AnalysisFailed
  | Some vuir =>
      '(namespace, decl) ← declare_module module_id m;
      opcode ← lift (get_idx vuir (to_usize FILE_MODULE));
      match opcode with
      | Vuir.DeclStruct _ _ _ _ _ _ =>
          value ← analyze_file module_id vuir namespace decl;
          main ← import_prelude module_id value namespace decl;
          publish_namespace module_id namespace ;;
          set_analysis_state decl (Analysed value) ;;
          match main with Some main => spawn (Job.AnalyzeMain main) | None => mret tt end ;;
          ok value
      | _ => unreachable
      end
  end.

(** A module is claimed by one worker; the others wait for it. *)
Fixpoint await_module (fuel : nat) (module_id : Z) : M (Result Z) :=
  match fuel with
  | O => lift diverge
  | S fuel =>
      m ← module_at module_id;
      match sema_state m with
      | ModuleAnalyzeState.Pending =>
          update_module module_id (set_sema_state ModuleAnalyzeState.InProgress) ;;
          r ← job_analyze_module module_id;
          match r with
          | Ok value => update_module module_id (set_sema_state (ModuleAnalyzeState.Done value)) ;; ok value
          | Err e => update_module module_id (set_sema_state ModuleAnalyzeState.Failed) ;; fail e
          end
      | ModuleAnalyzeState.InProgress => yield_now ;; await_module fuel module_id
      | ModuleAnalyzeState.Done v => ok v
      | ModuleAnalyzeState.Failed => fail AnalysisFailed
      end
  end.
Definition analyze_module_sync (module_id : Z) : M (Result Z) :=
  m ← module_at module_id;
  match module_vuir m with
  | None => fail AnalysisFailed
  | Some _ => await_module query_fuel module_id
  end.

(** ** Declarations *)

(** The value of a global; one that is not known at compile time is reported, and
    its declaration keeps its state. *)
Definition store_decl (decl : nat) (module_id : Z) (decl_inst : Vuir.Decl) (name : list Z)
    (val : option InstructionRef) : M (Result (option Z)) :=
  poison ← common generic_poison_t;
  match default (Interned poison) val with
  | Interned v => set_analysis_state decl (Analysed v) ;; ok (Some v)
  | Instruction _ =>
      push_error (Diagnostic.with_label
        (Diagnostic.with_message Diagnostic.error (bytes_of "global initializer must be comptime-known"))
        (Label.with_message
          (Label.with_span Label.primary (DiagSpan.mk module_id (Vuir.decl_span decl_inst)))
          (bytes_of "`" ++ name ++ bytes_of "` is initialized here"))) ;;
      fail AnalysisFailed
  end.

Definition analyze_decl_value (decl : nat) : M (Result (option Z)) :=
  d ← decl_at decl;
  match analysis_state d with
  | Unanalysed module_id vuir_id =>
      m ← module_at module_id;
      vuir ← unwrap (module_vuir m);
      opcode ← lift (get_idx vuir (to_usize vuir_id));
      match opcode with
      | Vuir.Declaration decl_inst =>
          with_sema vuir module_id decl None
            (block ← root_block (decl_namespace d) true false (decl_name d);
             r ← analyze_comptime_block analyze_inst block (Vuir.decl_value decl_inst);
             match r with
             | Ok val => store_decl decl module_id decl_inst (decl_name d) val
             | Err err => set_analysis_state decl (Failed err) ;; fail err
             end)
      | _ => unreachable
      end
  | _ => unreachable
  end.

(** ** Functions *)

(** The parameters of an instance: the values of the compile-time ones, the
    arguments of the others. *)
Definition bind_fn_param (block : nat) (t : TypeFn) (fn : FnKey) (i : nat) (param : DeclFnParam) : M unit :=
  is_comptime ← lift (get_idx (comptime_params t) i);
  if is_comptime : bool then
    a ← lift (get_idx (Value.comptime_args fn) i);
    v ← unwrap a;
    map_inst (vuir_id param) (Interned v)
  else
    ty ← lift (get_idx (Value.params t) i);
    r ← inst block (Vtir.FnArg (param_name param) ty);
    map_inst (vuir_id param) r ;;
    linear ← type_is_linear ty;
    if linear : bool then register_linear_param r (param_name param) ty (param_span param) else mret tt.
Fixpoint bind_fn_params (block : nat) (t : TypeFn) (fn : FnKey) (i : nat) (params : list DeclFnParam) : M unit :=
  match params with
  | [] => mret tt
  | p :: params => bind_fn_param block t fn i p ;; bind_fn_params block t fn (S i) params
  end.

(** [Sema::finish]: the block is the first one. *)
Definition finish (main_block : nat) : M Body :=
  b ← block_at main_block;
  l ← gets instructions;
  mret {| body_instructions := l; main_body := block_instructions b |}.

Definition analyze_runtime_func (interned_fun : Z) : M (Result (option Z)) :=
  key ← index_to_key interned_fun;
  fn ← lift (as_fn key);
  key ← index_to_key (Value.fn_decl fn);
  fun_decl ← lift (as_fn_decl key);
  key ← index_to_key (Value.fn_ty fn);
  t ← lift (as_type_fn key);
  let module_id := Value.module (func_decl_inst fun_decl) in
  m ← module_at module_id;
  vuir ← unwrap (module_vuir m);
  opcode ← lift (get_idx vuir (to_usize (Value.inst (func_decl_inst fun_decl))));
  match opcode with
  | Vuir.DeclFn _ _ params _ body _ _ builtin _ _ =>
      let owner := Z.to_nat (fd_owner_decl fun_decl) in
      d ← decl_at owner;
      body ←? with_sema vuir module_id owner (Some interned_fun)
        (block ← root_block (decl_namespace d) false false (decl_name d);
         r ← analyze_comptime_block analyze_inst block params;
         match r with Ok _ => mret tt | Err _ => unreachable end ;;
         l ← gets (fun self => namespaces (cu self));
         lift (get_idx l (decl_namespace d)) ;;
         b ← block_at block;
         bind_fn_params block t fn 0 (decl_fn_params b) ;;
         match builtin with Some _ => unreachable | None => mret tt end ;;
         _ ←? (if Value.external t then ok tt else analyze_fn_body analyze_inst block body (Value.ret_ty t));
         body ← finish block;
         ok body);
      modify_cu (fun cu => set_codegen_tasks (codegen_tasks cu ++ [(interned_fun, body)]) cu) ;;
      ok None
  | _ => unreachable
  end.

Definition job_sema_analyze_unit (u : SemaUnit.SemaUnit) : M (Result (option Z)) :=
  match u with
  | SemaUnit.DeclValue decl => analyze_decl_value decl
  | SemaUnit.RuntimeFunc f => analyze_runtime_func f
  end.

(** The instance of [main], which has no parameters, is queued. *)
Definition job_analyze_main (main_decl : nat) : M unit :=
  r ← get_or_analyze_decl_value main_decl;
  match r with
  | Err _ => mret tt
  | Ok v =>
      fun_decl ← unwrap v;
      key ← index_to_key fun_decl;
      d ← lift (as_fn_decl key);
      f ← intern_non_trivial
        (KFn {| Value.fn_ty := fd_ty d; Value.fn_decl := fun_decl; Value.comptime_args := [];
                fn_owner_decl := Z.of_nat main_decl |}) ValueStore.none;
      queue_runtime_function_analysis_if_needed f
  end.

(** ** The queue *)

Definition run_job (j : Job.Job) : M unit :=
  match j with
  | Job.AnalyzeUnit u =>
      job_sema_analyze_unit u ;;
      jobs ← gets (fun self => sema_jobs (cu self));
      modify_cu (set_sema_jobs (<[u := JobDone]> jobs))
  | Job.AnalyzeMain main_decl => job_analyze_main main_decl
  | Job.AnalyzeModule m => analyze_module_sync m ;; mret tt
  end.

(** [rayon::yield_now]: the oldest job, when there is one. *)
Definition run_next : M bool :=
  jobs ← gets (fun self => spawned (cu self));
  match jobs with
  | [] => mret false
  | j :: jobs => modify_cu (set_spawned jobs) ;; run_job j ;; mret true
  end.

(** Jobs until none is left. *)
Fixpoint run_jobs (fuel : nat) : M unit :=
  match fuel with
  | O => lift diverge
  | S fuel => more ← run_next; if more : bool then run_jobs fuel else mret tt
  end.

(** The analysis of a program whose modules are parsed: the prelude and the
    [builtin] module first, then what the run-time module needs. *)
Definition analyze_program (fuel : nat) : M unit :=
  k ← gets (fun self => known (cu self));
  r ← analyze_module_sync (builtin_prelude_module k);
  r ← match r with Ok _ => analyze_module_sync (builtin_module k) | Err e => fail e end;
  match r with Ok _ => spawn (Job.AnalyzeModule (std_rt_module k)) | Err _ => mret tt end ;;
  run_jobs fuel.

End Jobs.

(** ** The whole *)

Section System.
Context `{!Setting, !Paths}.

(** The analysis of an instruction, the turn of another job, and the analysis of
    a module, to a depth. *)
Record System := {
  sys_inst : nat -> InstructionId -> M (Result (InstructionRef * ControlFlow));
  sys_yield : M unit;
  sys_module : Z -> M (Result Z);
}.

Fixpoint system (fuel : nat) : System :=
  match fuel with
  | O => {| sys_inst := fun _ _ => lift diverge; sys_yield := lift diverge; sys_module := fun _ => lift diverge |}
  | S fuel =>
      let s := system fuel in
      let workers : Workers := {| yield_now := sys_yield s |} in
      let modules : Modules := sys_module s in
      {| sys_inst := analyze_inst_with (sys_inst s);
         sys_yield := run_next (sys_inst s) ;; mret tt;
         sys_module := analyze_module_sync (sys_inst s) |}
  end.

Definition analyze_inst (fuel : nat) : nat -> InstructionId -> M (Result (InstructionRef * ControlFlow)) :=
  sys_inst (system fuel).

(** [CompilationUnit::compile] between parsing and code generation. *)
Definition compile_modules (fuel : nat) : M unit :=
  let workers : Workers := {| yield_now := sys_yield (system fuel) |} in
  analyze_program (sys_inst (system fuel)) fuel.

End System.
End SemaJobs.
