(* ===== verification/SemaKeep.v ===== *)
(** * What the analysis never undoes

    Every function of the semantic analysis works on the compilation unit that
    all modules, declarations and functions share.  [grows] says how the unit can
    change while one runs: errors, code generation tasks and type information are
    only added; a declaration or a module that is settled keeps its value; a unit
    of analysis that is known stays known and is not queued again; what was left
    in progress is what was in progress before.  [Within R m]: a run of [m]
    changes the unit within [R]; a rule per construct of the monad, and [within],
    which applies them. *)

From S2P Require Import Prelude Words Bytes Span Token Diagnostic Ast HashIndex ShardedMap.
From S2P Require Import Anyint Value ValueStore ValueLayout Vuir Vtir SemaState.
From stdpp Require Import gmap.

#[local] Open Scope Z_scope.
#[local] Open Scope sema_scope.

Module SemaKeep.
Import Value ValueStore IrId Sema.

Create HintDb within.

Section Keep.
Context `{ST : Setting}.
Implicit Types (c : Cu) (s : Sema).

(** ** The shared unit *)

(** The units of analysis that wait in the queue. *)
Definition job_unit (j : Job.Job) : option SemaUnit.SemaUnit :=
  match j with Job.AnalyzeUnit u => Some u | _ => None end.
Definition queue c : list SemaUnit.SemaUnit := omap job_unit (spawned c).

Definition unit_known c (u : SemaUnit.SemaUnit) : Prop := is_Some (sema_jobs c !! u).
(** Known, taken from the queue, and not done. *)
Definition unit_running c (u : SemaUnit.SemaUnit) : Prop :=
  sema_jobs c !! u = Some Queued /\ u ∉ queue c.
(** Nothing is queued twice, and what is queued is known and not done. *)
Definition queue_ok c : Prop :=
  NoDup (queue c) /\ forall u, u ∈ queue c -> sema_jobs c !! u = Some Queued.

Definition settled (d : Decl) : Prop :=
  match analysis_state d with Analysed _ | Failed _ => True | _ => False end.
(** A declaration that nobody but the job that runs it can change: it is settled,
    or its job has left the queue. *)
Definition decl_fixed c (i : nat) : Prop :=
  (exists d, decls c !! i = Some d /\ settled d) \/
  (unit_known c (SemaUnit.DeclValue i) /\ SemaUnit.DeclValue i ∉ queue c).

(** What a step is excused from: the declaration it settles, the module it has
    claimed and the unit that it runs. *)
Record Excused := {
  ex_decl : nat -> Prop;
  ex_module : nat -> Prop;
  ex_unit : SemaUnit.SemaUnit -> Prop;
}.
Definition nothing : Excused :=
  {| ex_decl := fun _ => False; ex_module := fun _ => False; ex_unit := fun _ => False |}.

Definition module_claimed (m : Module_) : Prop := sema_state m <> ModuleAnalyzeState.Pending.
(** A module after a step: its file is the same, its namespace stays published,
    and once claimed it is settled by the worker that claimed it. *)
Record module_grows (excused : Prop) (m m' : Module_) : Prop := {
  mg_path : path m' = path m;
  mg_vuir : module_vuir m' = module_vuir m;
  mg_namespace : forall ns, module_namespace m = Some ns -> module_namespace m' = Some ns;
  mg_state : ~ excused -> module_claimed m -> sema_state m' = sema_state m;
  mg_progress : ~ excused -> sema_state m' = ModuleAnalyzeState.InProgress ->
    sema_state m = ModuleAnalyzeState.InProgress;
}.

Record grown (ex : Excused) c c' : Prop := {
  g_target : target c' = target c;
  g_known : known c' = known c;
  g_paths : module_path_to_id c' = module_path_to_id c;
  g_errors : forall m, default [] (sema_errors c !! m) `prefix_of` default [] (sema_errors c' !! m);
  g_tasks : codegen_tasks c `prefix_of` codegen_tasks c';
  g_infos : type_info_entries c `prefix_of` type_info_entries c';
  g_info_ids : type_to_type_info_id c ⊆ type_to_type_info_id c';
  g_decls : (length (decls c) <= length (decls c'))%nat;
  g_namespaces : (length (namespaces c) <= length (namespaces c'))%nat;
  g_modules : length (modules c') = length (modules c);
  g_decl : forall i d, decls c !! i = Some d -> decl_fixed c i -> ~ ex_decl ex i -> decls c' !! i = Some d;
  g_module : forall i m m', modules c !! i = Some m -> modules c' !! i = Some m' ->
    module_grows (ex_module ex i) m m';
  g_unit_known : forall u, unit_known c u -> unit_known c' u;
  g_unit_done : forall u, sema_jobs c !! u = Some JobDone -> sema_jobs c' !! u = Some JobDone;
  g_unit_once : forall u, unit_known c u -> u ∉ queue c -> u ∉ queue c';
  g_unit_running : forall u, unit_running c' u -> ex_unit ex u \/ unit_running c u;
  g_queue : queue_ok c -> queue_ok c';
}.

Lemma module_grows_refl P m : module_grows P m m.
Proof. by split. Qed.
Lemma module_grows_trans P m1 m2 m3 : module_grows P m1 m2 -> module_grows P m2 m3 -> module_grows P m1 m3.
Proof.
  intros [p1 v1 n1 s1 r1] [p2 v2 n2 s2 r2]. split; [congruence|congruence|auto| |auto].
  intros Hx Hm. assert (sema_state m2 = sema_state m1) as E by auto.
  rewrite <- E. apply s2; [done|]. unfold module_claimed in *. by rewrite E.
Qed.

#[export] Instance grown_preorder ex : PreOrder (grown ex).
Proof.
  split.
  - intros c. split; auto. intros i m m' E E'. rewrite E in E'. injection E' as <-. apply module_grows_refl.
  - intros c1 c2 c3 G H. split; try (destruct G, H; congruence).
    + intros m. etrans; [apply (g_errors _ _ _ G)|apply (g_errors _ _ _ H)].
    + etrans; [apply (g_tasks _ _ _ G)|apply (g_tasks _ _ _ H)].
    + etrans; [apply (g_infos _ _ _ G)|apply (g_infos _ _ _ H)].
    + etrans; [apply (g_info_ids _ _ _ G)|apply (g_info_ids _ _ _ H)].
    + pose proof (g_decls _ _ _ G). pose proof (g_decls _ _ _ H). lia.
    + pose proof (g_namespaces _ _ _ G). pose proof (g_namespaces _ _ _ H). lia.
    + intros i d Hd Hf Hx. pose proof (g_decl _ _ _ G i d Hd Hf Hx) as Hd2.
      apply (g_decl _ _ _ H); [done| |done]. destruct Hf as [(d' & Hd' & Hs)|[Hk Hq]].
      * left. exists d. split; [done|]. congruence.
      * right. split; [by apply (g_unit_known _ _ _ G)|by apply (g_unit_once _ _ _ G)].
    + intros i m1 m3 E1 E3.
      assert (is_Some (modules c2 !! i)) as [m2 E2].
      { apply lookup_lt_is_Some. rewrite (g_modules _ _ _ G). by eapply lookup_lt_Some. }
      eapply module_grows_trans; [by apply (g_module _ _ _ G i)|by apply (g_module _ _ _ H i)].
    + intros u Hu. apply (g_unit_known _ _ _ H), (g_unit_known _ _ _ G), Hu.
    + intros u Hu. apply (g_unit_done _ _ _ H), (g_unit_done _ _ _ G), Hu.
    + intros u Hk Hu. apply (g_unit_once _ _ _ H); [by apply (g_unit_known _ _ _ G)|by apply (g_unit_once _ _ _ G)].
    + intros u Hr. destruct (g_unit_running _ _ _ H u Hr) as [?|Hr']; [by left|by apply (g_unit_running _ _ _ G)].
    + intros Hq. apply (g_queue _ _ _ H), (g_queue _ _ _ G), Hq.
Qed.

(** Excused from more. *)
Lemma grown_excused ex c c' : grown nothing c c' -> grown ex c c'.
Proof.
  intros []. split; auto.
  - intros i m m' E E'. destruct (g_module0 i m m' E E'). split; auto.
  - intros u Hr. destruct (g_unit_running0 u Hr) as [[]|]; auto.
Qed.

(** In a unit whose queue is in order. *)
Definition grows (ex : Excused) c c' : Prop := queue_ok c -> grown ex c c'.
#[export] Instance grows_preorder ex : PreOrder (grows ex).
Proof.
  split; [intros c _; reflexivity|]. intros c1 c2 c3 G H Hq.
  etrans; [by apply G|]. apply H, (g_queue _ _ _ (G Hq)), Hq.
Qed.
Lemma grown_grows ex c c' : grown ex c c' -> grows ex c c'.
Proof. by intros G _. Qed.
Lemma grows_excused ex c c' : grows nothing c c' -> grows ex c c'.
Proof. intros G Hq. by apply grown_excused, G. Qed.

(** A run of a sequence is a run of its parts. *)
Lemma bind_inv {A B} (m : M A) (k : A -> M B) s b s' :
  (m ≫= k) s = Ret (b, s') -> exists a s1, m s = Ret (a, s1) /\ k a s1 = Ret (b, s').
Proof. unfold mbind, M_bind. destruct (m s) as [[a s1]|]; simpl; [by eauto|done]. Qed.
Lemma gets_inv {A} (f : Sema -> A) s a s' : gets f s = Ret (a, s') -> a = f s /\ s' = s.
Proof. by intros [= <- <-]. Qed.
Lemma lift_inv {A} (r : res A) s a s' : lift r s = Ret (a, s') -> r = Ret a /\ s' = s.
Proof. unfold lift. destruct r; simpl; [by intros [= <- <-]|done]. Qed.

(** Only the value store changes. *)
Definition quiet c c' : Prop := exists v, c' = set_values v c.
#[export] Instance quiet_preorder : PreOrder quiet.
Proof.
  split; [intros c; exists (values c); by destruct c|].
  intros c1 c2 c3 [v ->] [w ->]. by exists w.
Qed.
Lemma quiet_grows ex c c' : quiet c c' -> grows ex c c'.
Proof. intros [v ->]. apply grown_grows. destruct (reflexivity c : grown ex c c). by split. Qed.

(** ** Runs within a relation *)

Class Within (R : Cu -> Cu -> Prop) {A} (m : M A) : Prop :=
  within : forall s a s', m s = Ret (a, s') -> R (cu s) (cu s').

Lemma within_run {A} (m : M A) R s a s' : Within R m -> m s = Ret (a, s') -> R (cu s) (cu s').
Proof. intros H. apply H. Qed.

Section Rules.
Context (R : Cu -> Cu -> Prop) `{!PreOrder R}.

Lemma within_ret {A} (a : A) : Within R (mret a).
Proof. intros s a' s' [= <- <-]. reflexivity. Qed.
Lemma within_ok {A} (a : A) : Within R (ok a).
Proof. apply within_ret. Qed.
Lemma within_fail {A} e : Within R (A := Result A) (fail e).
Proof. apply within_ret. Qed.
Lemma within_gets {A} (f : Sema -> A) : Within R (gets f).
Proof. intros s a' s' [= <- <-]. reflexivity. Qed.
Lemma within_lift {A} (r : res A) : Within R (lift r).
Proof. intros s a' s'. unfold lift. destruct r; simpl; intros E; simplify_eq; reflexivity. Qed.
Lemma within_unreachable {A} : Within R (A := A) unreachable.
Proof. apply within_lift. Qed.
Lemma within_query {A} (f : Store -> res A) : Within R (query f).
Proof. intros s a' s'. unfold query. destruct (f _); simpl; intros E; simplify_eq; reflexivity. Qed.
Lemma within_type_of r : Within R (type_of r).
Proof. intros s a' s'. unfold type_of. destruct (Vtir.type_of _ _ _ _); simpl; intros E; simplify_eq; reflexivity. Qed.

Lemma within_bind {A B} (m : M A) (k : A -> M B) : Within R m -> (forall a, Within R (k a)) -> Within R (m ≫= k).
Proof.
  intros Hm Hk s b s'. unfold mbind, M_bind. destruct (m s) as [[a s1]|] eqn:E; simpl; intros H; try done.
  etrans; [by eapply Hm|by eapply Hk].
Qed.
Lemma within_try_bind {A B} (m : M (Result A)) (k : A -> M (Result B)) :
  Within R m -> (forall a, Within R (k a)) -> Within R (try_bind k m).
Proof.
  intros Hm Hk. unfold try_bind. apply within_bind; [done|]. intros [a|e]; [apply Hk|apply within_fail].
Qed.
Lemma within_try_map {A B} (f : A -> M (Result B)) l : (forall a, Within R (f a)) -> Within R (try_map f l).
Proof.
  intros Hf. induction l as [|a l IH]; simpl; [apply within_ok|].
  repeat (apply within_try_bind; [done|intros]). apply within_ok.
Qed.

(** A change that is not to the shared unit. *)
Lemma within_modify f : (forall s, cu (f s) = cu s) -> Within R (modify f).
Proof. intros Hf s a s' [= <- <-]. by rewrite Hf. Qed.
Lemma within_modify_cu f : (forall c, R c (f c)) -> Within R (modify_cu f).
Proof. intros Hf s a s' [= <- <-]. apply Hf. Qed.

Lemma within_mono (R' : Cu -> Cu -> Prop) {A} (m : M A) :
  (forall c c', R' c c' -> R c c') -> Within R' m -> Within R m.
Proof. intros HR Hm s a s' E. apply HR. by eapply Hm. Qed.
End Rules.

(** A relation that allows interning. *)
Class Interning (R : Cu -> Cu -> Prop) : Prop := {
  interning_preorder :: PreOrder R;
  interning_values : forall c c', quiet c c' -> R c c';
}.
#[export] Instance quiet_interning : Interning quiet.
Proof. split; [apply _|auto]. Qed.
#[export] Instance grows_interning ex : Interning (grows ex).
Proof. split; [apply _|apply quiet_grows]. Qed.

Lemma within_update_values R `{!Interning R} {A} (f : Store -> res (A * Store)) : Within R (update_values f).
Proof.
  intros s a s'. unfold update_values. destruct (f _) as [[b v]|]; simpl; intros E; simplify_eq.
  apply interning_values. by eexists.
Qed.

End Keep.

(** The construct at the head of a computation; a function without a hint is
    unfolded. *)
Ltac head_of t := match t with ?f _ => head_of f | _ => t end.
Ltac within_step :=
  match goal with
  | |- forall _, _ => intro
  | |- Within _ (mbind _ _) => apply within_bind; [apply _| |]
  | |- Within _ (try_bind _ _) => apply within_try_bind; [apply _| |]
  | |- Within _ (mret _) => apply within_ret, _
  | |- Within _ (ok _) => apply within_ok, _
  | |- Within _ (fail _) => apply within_fail, _
  | |- Within _ (gets _) => apply within_gets, _
  | |- Within _ (lift _) => apply within_lift, _
  | |- Within _ unreachable => apply within_unreachable, _
  | |- Within _ (query _) => apply within_query, _
  | |- Within _ (type_of _) => apply within_type_of, _
  | |- Within _ (modify _) => apply within_modify; [apply _|reflexivity]
  | |- Within _ (update_values _) => apply within_update_values, _
  | |- Within _ (match ?x with _ => _ end) => destruct x
  | |- Within _ (try_map _ _) => apply within_try_map; [apply _|]
  | |- Within _ (let _ := _ in _) => cbv zeta
  | |- Within _ _ => solve [auto 2 with within nocore]
  | |- Within _ ?m => let h := head_of m in unfold h; cbv beta
  end.
Ltac within := repeat within_step.

(** The first step of a run in the context. *)
Ltac run_inv H :=
  let a := fresh "a" in let s := fresh "s" in let Ha := fresh "Ha" in let Hr := fresh "Hr" in
  apply bind_inv in H as (a & s & Ha & Hr);
  first [ apply gets_inv in Ha as [-> ->] | apply lift_inv in Ha as [Ha ->] | idtac ];
  rename Hr into H.
End SemaKeep.
