(* ===== verification/SemaKeepOps.v ===== *)
(** * The operations of the analysis stay within [grows]

    From the primitives to [analyze_inst_with], for what the other workers, the
    analysis of a module and the recursive analysis of an instruction do. *)

From S2P Require Import Prelude Words Bytes Span Token Diagnostic Ast HashIndex ShardedMap.
From S2P Require Import Anyint Value ValueStore ValueLayout Vuir Vtir SemaState SemaAccess SemaFold SemaInit SemaDecl SemaCall SemaInst SemaKeep.
From stdpp Require Import gmap.

#[local] Open Scope Z_scope.
#[local] Open Scope sema_scope.

Module SemaKeepOps.
Import Value ValueStore IrId Sema SemaAccess SemaFold SemaInit SemaDecl SemaCall SemaInst SemaKeep.

(** ** Changes of the shared unit *)

Section Steps.
Context `{ST : Setting} (ex : Excused).
Implicit Types (c : Cu).

Lemma grown_error c m d :
  grown ex c (set_sema_errors (<[m := default [] (sema_errors c !! m) ++ [d]]> (sema_errors c)) c).
Proof.
  destruct (reflexivity c : grown ex c c). split; try done. intros k. simpl.
  destruct (decide (k = m)) as [->|Hne]; [rewrite lookup_insert_eq; by apply prefix_app_r|by rewrite lookup_insert_ne].
Qed.

(** A job that is not a unit. *)
Lemma grown_spawn c j : job_unit j = None -> grown ex c (set_spawned (spawned c ++ [j]) c).
Proof.
  intros Hj. assert (queue (set_spawned (spawned c ++ [j]) c) = queue c) as E.
  { unfold queue. simpl. rewrite omap_app. simpl. rewrite Hj. apply app_nil_r. }
  destruct (reflexivity c : grown ex c c). split; unfold queue_ok, unit_running in *; rewrite ?E; auto.
Qed.

(** A unit that is new is known and queued. *)
Lemma grown_queue_unit c u : sema_jobs c !! u = None ->
  grown ex c (set_spawned (spawned c ++ [Job.AnalyzeUnit u]) (set_sema_jobs (<[u := Queued]> (sema_jobs c)) c)).
Proof.
  intros Hu. set (c' := set_spawned _ _).
  assert (queue c' = queue c ++ [u]) as E by (unfold queue; simpl; by rewrite omap_app).
  assert (forall v, v <> u -> sema_jobs c' !! v = sema_jobs c !! v) as Hv
    by (intros; simpl; by rewrite lookup_insert_ne).
  assert (sema_jobs c' !! u = Some Queued) as Hq by (simpl; by rewrite lookup_insert_eq).
  destruct (reflexivity c : grown ex c c). split; try done; unfold unit_known, unit_running, queue_ok.
  - intros v Hk. rewrite Hv; [done|]. intros ->. rewrite Hu in Hk. by destruct Hk.
  - intros v Hk. rewrite Hv; [done|]. intros ->. congruence.
  - intros v Hk Hn. rewrite E, elem_of_app, list_elem_of_singleton. intros [?| ->]; [done|].
    rewrite Hu in Hk. by destruct Hk.
  - intros v [Hs Hn]. right. rewrite E, elem_of_app, list_elem_of_singleton in Hn.
    rewrite Hv in Hs by tauto. split; [done|tauto].
  - intros [Hn Hd]. rewrite E. split.
    + apply NoDup_app. split; [done|]. split; [|apply NoDup_singleton].
      intros v Hin ->%list_elem_of_singleton. rewrite (Hd _ Hin) in Hu. done.
    + intros v [Hin| ->%list_elem_of_singleton]%elem_of_app; [|done].
      rewrite Hv; [by apply Hd|]. intros ->. rewrite (Hd _ Hin) in Hu. done.
Qed.

Lemma grown_namespaces c l : (length (namespaces c) <= length l)%nat -> grown ex c (set_namespaces l c).
Proof. intros. destruct (reflexivity c : grown ex c c). by split. Qed.

Lemma grown_new_decl c d : grown ex c (set_decls (decls c ++ [d]) c).
Proof.
  destruct (reflexivity c : grown ex c c). split; try done; simpl.
  - rewrite length_app. lia.
  - intros i d' Hd' _ _. by apply lookup_app_l_Some.
Qed.

Lemma grown_type_info c ty v : type_to_type_info_id c !! ty = None ->
  grown ex c (set_type_info_entries (type_info_entries c ++ [v])
    (set_type_to_type_info_id (<[ty := Z.of_nat (length (type_info_entries c))]> (type_to_type_info_id c)) c)).
Proof.
  intros Hn. destruct (reflexivity c : grown ex c c). split; try done; simpl.
  - by apply prefix_app_r.
  - by apply insert_subseteq.
Qed.

Lemma grown_task c t : grown ex c (set_codegen_tasks (codegen_tasks c ++ [t]) c).
Proof. destruct (reflexivity c : grown ex c c). split; try done; simpl. by apply prefix_app_r. Qed.

(** ** Primitives *)

Lemma within_push_error d : Within (grows ex) (push_error d).
Proof. intros s a s' [= <- <-]. apply grown_grows, grown_error. Qed.

Lemma within_analyze_unit u : Within (grows ex) (analyze_sema_unit_if_needed u).
Proof.
  intros s a s'. unfold analyze_sema_unit_if_needed, gets, mbind, M_bind. cbn [mbind res_bind].
  destruct (sema_jobs (cu s) !! u) eqn:Hu; intros [= <- <-]; [reflexivity|]. by apply grown_grows, grown_queue_unit.
Qed.

Lemma within_push_namespace ns : Within (grows ex) (push_namespace ns).
Proof. intros s a s' [= <- <-]. apply grown_grows, grown_namespaces. rewrite length_app. lia. Qed.

Lemma within_push_decl d : Within (grows ex) (push_decl d).
Proof. intros s a s' [= <- <-]. apply grown_grows, grown_new_decl. Qed.

Lemma set_idx_length {A} (l l' : list A) i x : set_idx l i x = Ret l' -> length l' = length l.
Proof. unfold set_idx. case_decide; intros [= <-]. apply length_insert. Qed.

Lemma within_update_namespace n f : Within (grows ex) (update_namespace n f).
Proof.
  intros s a s'. unfold update_namespace, gets, lift, modify_cu, modify, mbind, M_bind. cbn [mbind res_bind].
  destruct (get_idx _ n); cbn [mbind res_bind]; [|done].
  destruct (set_idx _ n _) eqn:E; cbn [mbind res_bind]; intros [= <- <-].
  apply grown_grows, grown_namespaces. erewrite (set_idx_length _ a1); [done|exact E].
Qed.

End Steps.
#[export] Hint Resolve within_push_error within_analyze_unit within_push_namespace within_push_decl
  within_update_namespace : within.

(** ** Loads, declarations and fields *)

Section Access.
Context `{ST : Setting} `{WK : !Workers} (ex : Excused).
Context (Hyield : Within (grows ex) yield_now).

Lemma within_await_decl fuel decl : Within (grows ex) (await_decl fuel decl).
Proof using Hyield. induction fuel; simpl; within. Qed.
#[local] Hint Resolve within_await_decl : within.

Lemma within_get_or_analyze decl : Within (grows ex) (get_or_analyze_decl_value decl).
Proof using Hyield. within. Qed.
#[local] Hint Resolve within_get_or_analyze : within.

Lemma within_load block src span : Within (grows ex) (analyze_load block src span).
Proof. within. Qed.
#[local] Hint Resolve within_load : within.

Lemma within_decl_ptr block decl span : Within (grows ex) (analyze_decl_ptr block decl span).
Proof using Hyield. within. Qed.
Lemma within_type_field_val ty field field_span span : Within (grows ex) (type_field_val ty field field_span span).
Proof using Hyield. within. Qed.
#[local] Hint Resolve within_type_field_val : within.
Lemma within_field_val block lhs field field_span span :
  Within (grows ex) (analyze_field_val block lhs field field_span span).
Proof using Hyield. within. Qed.
Lemma within_type_field_ptr ty field span : Within (grows ex) (type_field_ptr ty field span).
Proof using Hyield. within. Qed.
#[local] Hint Resolve within_type_field_ptr : within.
Lemma within_field_ptr block lhs field field_span span :
  Within (grows ex) (analyze_field_ptr block lhs field field_span span).
Proof using Hyield. within. Qed.
End Access.
#[export] Hint Resolve within_get_or_analyze within_load within_decl_ptr within_type_field_val within_field_val
  within_type_field_ptr within_field_ptr : within.
(** ** Coercions, operators, initialisers *)

Section Fold.
Context `{ST : Setting} `{WK : !Workers} `{TI : !TypeInfo} (ex : Excused).
Context (Hyield : Within (grows ex) yield_now).
Context (Hinfo : forall ty, Within (grows ex) (analyze_type_info ty)).

Lemma within_coerce_with coerce block dst_ty r span :
  (forall b t r s, Within (grows ex) (coerce b t r s)) ->
  Within (grows ex) (coerce_with coerce block dst_ty r span).
Proof using Hyield Hinfo. intros Hc. within. Qed.

Lemma within_coerce_fuel fuel block dst_ty r span : Within (grows ex) (coerce_fuel fuel block dst_ty r span).
Proof using Hyield Hinfo.
  revert block dst_ty r span. induction fuel; intros; simpl; [within|by apply within_coerce_with].
Qed.
Lemma within_coerce block dst_ty r span : Within (grows ex) (coerce block dst_ty r span).
Proof using Hyield Hinfo. apply within_coerce_fuel. Qed.
#[local] Hint Resolve within_coerce : within.

Lemma within_resolve_type block r span : Within (grows ex) (resolve_type block r span).
Proof using Hyield Hinfo. within. Qed.
Lemma within_unify admits block lhs rhs lhs_ty rhs_ty incompatible span :
  Within (grows ex) incompatible -> Within (grows ex) (unify admits block lhs rhs lhs_ty rhs_ty incompatible span).
Proof using Hyield Hinfo. intros Hi. within. Qed.
Lemma within_incompatible {A} before between after lhs_ty rhs_ty span :
  Within (grows ex) (A := Result A) (incompatible_types before between after lhs_ty rhs_ty span).
Proof. within. Qed.
Lemma within_arith_int ty op lhs rhs : Within (grows ex) (arith_int ty op lhs rhs).
Proof. within. Qed.
Lemma within_arith_float ty op lhs rhs : Within (grows ex) (arith_float ty op lhs rhs).
Proof. within. Qed.
Lemma within_arith_bool op lhs rhs : Within (grows ex) (arith_bool op lhs rhs).
Proof. within. Qed.
Lemma within_arith_opcode op lhs rhs : Within (grows ex) (arith_opcode op lhs rhs).
Proof. within. Qed.
Lemma within_bitwise_int ty op lhs rhs span : Within (grows ex) (bitwise_int ty op lhs rhs span).
Proof. within. Qed.
Lemma within_bitwise_bool op lhs rhs span : Within (grows ex) (bitwise_bool op lhs rhs span).
Proof. within. Qed.
Lemma within_bitwise_opcode op lhs rhs : Within (grows ex) (bitwise_opcode op lhs rhs).
Proof. within. Qed.
Lemma within_cmp {T} lt le op (lhs rhs : T) : Within (grows ex) (cmp_comptime lt le op lhs rhs).
Proof. within. Qed.
Lemma within_cmp_tags op lhs rhs : Within (grows ex) (cmp_tags op lhs rhs).
Proof. within. Qed.
Lemma within_cmp_opcode op lhs rhs : Within (grows ex) (cmp_opcode op lhs rhs).
Proof. within. Qed.
Lemma within_comptime_key r : Within (grows ex) (comptime_key r).
Proof. within. Qed.
#[local] Hint Resolve within_unify within_incompatible within_arith_int within_arith_float within_arith_bool
  within_arith_opcode within_bitwise_int within_bitwise_bool within_bitwise_opcode within_cmp within_cmp_tags
  within_cmp_opcode within_comptime_key : within.
Lemma within_arithmetic block op lhs rhs span : Within (grows ex) (analyze_arithmetic_op block op lhs rhs span).
Proof using Hyield Hinfo. within. Qed.
Lemma within_bitwise block op lhs rhs span : Within (grows ex) (analyze_bitwise_op block op lhs rhs span).
Proof using Hyield Hinfo. within. Qed.
Lemma within_bitwise_not block r span : Within (grows ex) (analyze_bitwise_not_op block r span).
Proof using Hyield Hinfo. within. Qed.
Lemma within_comparison block op lhs rhs span : Within (grows ex) (analyze_comparaison_op block op lhs rhs span).
Proof using Hyield Hinfo. within. Qed.

Lemma within_array_index block a i span : Within (grows ex) (analyze_array_index_ptr block a i span).
Proof. within. Qed.
Lemma within_union_init id block ty fields span : Within (grows ex) (analyze_union_init id block ty fields span).
Proof using Hyield Hinfo. within. Qed.
Lemma within_init_fields block ty s fields acc : Within (grows ex) (init_fields block ty s fields acc).
Proof using Hyield Hinfo. revert acc. induction fields; simpl; within. Qed.
Lemma within_check_uninit fields values span : Within (grows ex) (check_uninit fields values span).
Proof. revert values. induction fields; simpl; within. Qed.
#[local] Hint Resolve within_init_fields within_check_uninit : within.
Lemma within_struct_init id block ty fields span : Within (grows ex) (analyze_struct_init id block ty fields span).
Proof using Hyield Hinfo. within. Qed.
Lemma within_array_init id block ty l span : Within (grows ex) (analyze_array_init id block ty l span).
Proof using Hyield Hinfo. within. Qed.

Lemma within_collect_opt {A B} (f : A -> M (option B)) l :
  (forall a, Within (grows ex) (f a)) -> Within (grows ex) (collect_opt f l).
Proof. intros Hf. induction l; simpl; within. Qed.
Lemma within_zeroed_fuel fuel ty : Within (grows ex) (intern_zeroed_value_fuel fuel ty).
Proof.
  revert ty. induction fuel; intros; simpl; within. apply within_collect_opt. intros. apply IHfuel.
Qed.
Lemma within_zeroed ty : Within (grows ex) (intern_zeroed_value ty).
Proof. apply within_zeroed_fuel. Qed.
Lemma within_promote block r ty span : Within (grows ex) (promote_variadic_arg block r ty span).
Proof. within. Qed.

Lemma within_pattern_tags items : Within (grows ex) (pattern_tags items).
Proof. induction items; simpl; within. Qed.
#[local] Hint Resolve within_pattern_tags : within.
Lemma within_exhaustive ty cases span : Within (grows ex) (check_switch_exhaustive ty cases span).
Proof. within. Qed.
Lemma within_captures block l : Within (grows ex) (resolve_vuir_captures block l).
Proof. within. Qed.
Lemma within_for_each {A} (f : A -> M unit) l : (forall a, Within (grows ex) (f a)) -> Within (grows ex) (for_each f l).
Proof. intros Hf. induction l; simpl; within. Qed.
Lemma within_unconsumed : Within (grows ex) check_unconsumed.
Proof. unfold check_unconsumed. within. apply within_for_each. within. Qed.
End Fold.
#[export] Hint Resolve within_coerce within_resolve_type within_arithmetic within_bitwise within_bitwise_not
  within_comparison within_array_index within_union_init within_struct_init within_array_init within_zeroed
  within_comptime_key within_promote within_exhaustive within_captures within_unconsumed : within.
(** ** Bodies and declarations *)

Section Decls.
Context `{ST : Setting} `{WK : !Workers} `{TI : !TypeInfo} (ex : Excused).
Context (Hyield : Within (grows ex) yield_now).
Context (Hinfo : forall ty, Within (grows ex) (analyze_type_info ty)).
Context (analyze_inst : nat -> InstructionId -> M (Result (InstructionRef * ControlFlow))).
Context (Hinst : forall block id, Within (grows ex) (analyze_inst block id)).

Lemma within_instructions block l flow : Within (grows ex) (analyze_instructions analyze_inst block l flow).
Proof using Hinst. revert flow. induction l; simpl; within. Qed.
Lemma within_instruction_block block l : Within (grows ex) (analyze_instruction_block analyze_inst block l).
Proof using Hinst. apply within_instructions. Qed.
#[local] Hint Resolve within_instruction_block : within.
Lemma within_comptime_block block l : Within (grows ex) (analyze_comptime_block analyze_inst block l).
Proof using Hinst. within. Qed.
Lemma within_fn_body block l ty : Within (grows ex) (analyze_fn_body analyze_inst block l ty).
Proof using Hinst. within. Qed.
Lemma within_fn_body_at_comptime block l ty span :
  Within (grows ex) (analyze_fn_body_at_comptime analyze_inst block l ty span).
Proof using Hinst. within. Qed.
#[local] Hint Resolve within_comptime_block : within.

Lemma within_declare_members fqn ns l m : Within (grows ex) (declare_members fqn ns l m).
Proof. revert m. induction l; simpl; within. Qed.
#[local] Hint Resolve within_declare_members : within.
Lemma within_declare_all ns l : Within (grows ex) (declare_all ns l).
Proof. within. Qed.
#[local] Hint Resolve within_declare_all : within.

Lemma within_field_widths fields : Within (grows ex) (field_widths fields).
Proof. induction fields; simpl; within. Qed.
#[local] Hint Resolve within_field_widths : within.
Lemma within_enum_variants block tag_ty had i vs fields :
  Within (grows ex) (enum_variants block tag_ty had i vs fields).
Proof using Hyield Hinfo. revert i fields. induction vs; simpl; within. Qed.
#[local] Hint Resolve within_enum_variants : within.
Lemma within_auto_tag_fields ty i fields : Within (grows ex) (auto_tag_fields ty i fields).
Proof. revert i. induction fields; simpl; within. Qed.
#[local] Hint Resolve within_auto_tag_fields : within.
Lemma within_check_params params : Within (grows ex) (check_params params).
Proof. induction params; simpl; within. Qed.
#[local] Hint Resolve within_check_params : within.

Lemma within_builtin_type : Within (grows ex) builtin_type_info.
Proof using Hyield. within. Qed.
Lemma within_decl_struct block id naming fields packed linear members captures :
  Within (grows ex) (analyze_decl_struct analyze_inst block id naming fields packed linear members captures).
Proof using Hyield Hinfo Hinst. within. Qed.
Lemma within_decl_enum block id tag_ty naming linear variants members captures :
  Within (grows ex) (analyze_decl_enum block id tag_ty naming linear variants members captures).
Proof using Hyield Hinfo. within. Qed.
Lemma within_decl_union block id tag naming linear fields members captures :
  Within (grows ex) (analyze_decl_union analyze_inst block id tag naming linear fields members captures).
Proof using Hyield Hinfo Hinst. within. Qed.
Lemma within_explicit_callconv block callconv span :
  Within (grows ex) (explicit_callconv analyze_inst block callconv span).
Proof using Hyield Hinst. within. Qed.
#[local] Hint Resolve within_explicit_callconv : within.
Lemma within_decl_fn block id ret_ty generic params var_args external callconv inline span :
  Within (grows ex)
    (analyze_decl_fn analyze_inst block id ret_ty generic params var_args external callconv inline span).
Proof using Hyield Hinst. within. Qed.
End Decls.
#[export] Hint Resolve within_instruction_block within_comptime_block within_fn_body within_fn_body_at_comptime
  within_builtin_type within_decl_struct within_decl_enum within_decl_union within_decl_fn : within.

(** ** Calls and instructions *)

Section Insts.
Context `{ST : Setting} `{WK : !Workers} `{TI : !TypeInfo} `{PA : !Paths} `{MO : !Modules} (ex : Excused).
Context (Hyield : Within (grows ex) yield_now).
Context (Hinfo : forall ty, Within (grows ex) (analyze_type_info ty)).
Context (Hmodule : forall m, Within (grows ex) (get_or_analyze_module_sync m)).
Context (analyze_inst : nat -> InstructionId -> M (Result (InstructionRef * ControlFlow))).
Context (Hinst : forall block id, Within (grows ex) (analyze_inst block id)).

Lemma within_match_args callee var_args i args valid :
  Within (grows ex) (match_args callee var_args i args valid).
Proof. revert i valid. induction args; simpl; within. Qed.
Lemma within_report_missing callee i valid span : Within (grows ex) (report_missing callee i valid span).
Proof. revert i. induction valid; simpl; within. Qed.
#[local] Hint Resolve within_match_args within_report_missing : within.
Lemma within_analyze_one_arg id block callee t g i arg a :
  Within (grows ex) (analyze_one_arg analyze_inst id block callee t g i arg a).
Proof using Hyield Hinfo Hinst. within. Qed.
Lemma within_variadic id block arg a : Within (grows ex) (analyze_variadic analyze_inst id block arg a).
Proof using Hinst. within. Qed.
#[local] Hint Resolve within_analyze_one_arg within_variadic : within.
Lemma within_analyze_args id block callee t g args a :
  Within (grows ex) (analyze_args analyze_inst id block callee t g args a).
Proof using Hyield Hinfo Hinst. revert a. induction args; simpl; within. Qed.
Lemma within_return_type block callee t g m expected span :
  Within (grows ex) (return_type analyze_inst block callee t g m expected span).
Proof using Hyield Hinfo Hinst. within. Qed.
Lemma within_report_uninferred callee i args span : Within (grows ex) (report_uninferred callee i args span).
Proof. revert i. induction args; simpl; within. Qed.
Lemma within_split_arg block callee t i arg arg_span span :
  Within (grows ex) (split_arg block callee t i arg arg_span span).
Proof. within. Qed.
#[local] Hint Resolve within_analyze_args within_return_type within_report_uninferred within_split_arg : within.
Lemma within_split_args block callee t i args span : Within (grows ex) (split_args block callee t i args span).
Proof. revert i. induction args; simpl; within. Qed.
Lemma within_types_of args : Within (grows ex) (types_of args).
Proof. induction args; simpl; within. Qed.
#[local] Hint Resolve within_split_args within_types_of within_for_each : within.

Lemma within_builtin_body block f kind span : Within (grows ex) (analyze_fn_builtin_body block f kind span).
Proof using Hyield Hinfo Hmodule. within. Qed.
#[local] Hint Resolve within_builtin_body : within.
Lemma within_inline_call id block callee t f ty args m c span :
  Within (grows ex) (analyze_inline_call analyze_inst id block callee t f ty args m c span).
Proof using Hyield Hinfo Hmodule Hinst. within. Qed.
Lemma within_runtime_call id block f v ty args c span :
  Within (grows ex) (analyze_runtime_call id block f v ty args c span).
Proof. within. Qed.
#[local] Hint Resolve within_inline_call within_runtime_call : within.
Lemma within_fn_call id block f args expected span :
  Within (grows ex) (analyze_fn_call analyze_inst id block f args expected span).
Proof using Hyield Hinfo Hmodule Hinst. within. Qed.
#[local] Hint Resolve within_fn_call : within.

Lemma within_register_break fuel block br value : Within (grows ex) (register_break_fuel fuel block br value).
Proof. revert block. induction fuel; intros; simpl; within. Qed.
#[local] Hint Resolve within_register_break : within.
Lemma within_matching_single block ty v cases : Within (grows ex) (matching_single block ty v cases).
Proof using Hyield Hinfo. induction cases; simpl; within. Qed.
Lemma within_matches_any block ty v span items : Within (grows ex) (matches_any block ty v span items).
Proof using Hyield Hinfo. induction items; simpl; within. Qed.
#[local] Hint Resolve within_matching_single within_matches_any : within.
Lemma within_matching_multi block ty v cases : Within (grows ex) (matching_multi block ty v cases).
Proof using Hyield Hinfo. induction cases; simpl; within. Qed.
Lemma within_tagged_field ty v i fields : Within (grows ex) (tagged_field ty v i fields).
Proof. revert i. induction fields; simpl; within. Qed.
#[local] Hint Resolve within_matching_multi within_tagged_field : within.
Lemma within_switch block id operand single multi e span :
  Within (grows ex) (analyze_switch analyze_inst block id operand single multi e span).
Proof using Hyield Hinfo Hinst. within. Qed.
#[local] Hint Resolve within_switch : within.

(** Every arm of the dispatch. *)
Lemma within_opcode block id opcode : Within (grows ex) (analyze_opcode analyze_inst block id opcode).
Proof using Hyield Hinfo Hmodule Hinst. destruct opcode; simpl; within. Qed.
Lemma within_inst_with block id : Within (grows ex) (analyze_inst_with analyze_inst block id).
Proof using Hyield Hinfo Hmodule Hinst. apply within_bind; [apply _|within|intros; apply within_opcode]. Qed.
End Insts.
End SemaKeepOps.
