(* ===== verification/SemaSystem.v ===== *)
(** * Modules, declarations and jobs as one system

    What the shared unit of a compilation goes through when [system] closes the
    recursion between instructions, declarations, functions, modules and the
    queue: nothing published is taken back, a unit of analysis runs once, and when
    the compilation is over every unit that was asked for is done. *)

From S2P Require Import Prelude Words Bytes Span Token Diagnostic Ast HashIndex ShardedMap.
From S2P Require Import Anyint Value ValueStore ValueLayout Vuir Vtir SemaState SemaAccess SemaFold SemaInit SemaDecl SemaCall SemaInst SemaTypeInfo SemaJobs.
From S2P Require Import SemaKeep SemaKeepOps.
From stdpp Require Import gmap.

#[local] Open Scope Z_scope.
#[local] Open Scope sema_scope.

Module SemaSystem.
Import Value ValueStore IrId Sema SemaAccess SemaFold SemaInit SemaDecl SemaCall SemaInst SemaTypeInfo SemaJobs.
Import SemaKeep SemaKeepOps.

(** ** Type information *)

Section TypeInfos.
Context `{ST : Setting} `{WK : !Workers} (ex : Excused).
Context (Hyield : Within (grows ex) yield_now).

(** An entry is made without a change to what is published. *)
Lemma within_publish k ty name size kind : Within (grows ex) (publish k ty name size kind).
Proof.
  intros s a s' H. unfold publish in H. apply bind_inv in H as (found & s0 & [= <- <-] & H).
  destruct (type_to_type_info_id (cu s) !! ty) eqn:Hty; [by injection H as <- <-|].
  run_inv H. apply bind_inv in H as (id & s1 & H1 & H). apply bind_inv in H as (n & s2 & H2 & H).
  apply bind_inv in H as (z & s3 & H3 & H). apply bind_inv in H as (v & s4 & H4 & H).
  assert (quiet (cu s) (cu s4)) as [w Hw].
  { etrans; [|etrans; [|etrans]]; [eapply within_run, H1|eapply within_run, H2|
      eapply within_run, H3|eapply within_run, H4]; within. }
  run_inv H. injection H as <- <-. simpl. rewrite Hw. simpl.
  transitivity (set_values w (cu s)); [apply quiet_grows; by exists w|].
  apply grown_grows, (grown_type_info ex (set_values w (cu s)) ty v Hty).
Qed.
#[local] Hint Resolve within_publish : within.

Section Kinds.
Context (reference_type : Z -> M Z) (Href : forall ty, Within (grows ex) (reference_type ty)).

Lemma within_struct_field_infos k s i fields o :
  Within (grows ex) (struct_field_infos reference_type k s i fields o).
Proof using Href. revert i o. induction fields; simpl; within. Qed.
Lemma within_variant_infos k fields : Within (grows ex) (variant_infos k fields).
Proof. induction fields; simpl; within. Qed.
Lemma within_union_field_infos k o fields : Within (grows ex) (union_field_infos reference_type k o fields).
Proof using Href. induction fields; simpl; within. Qed.
#[local] Hint Resolve within_struct_field_infos within_variant_infos within_union_field_infos : within.
Lemma within_type_kind k ty t : Within (grows ex) (type_kind reference_type k ty t).
Proof using Href. within. Qed.
End Kinds.

Lemma within_type_info fuel ty : Within (grows ex) (analyze_type_info_fuel fuel ty).
Proof using Hyield.
  revert ty. induction fuel as [|fuel IH]; intros; simpl; [within|].
  apply within_bind; [apply _|within|intros [id|]]; [within|]. unfold build_type_info.
  assert (forall ty, Within (grows ex)
    (r ← analyze_type_info_fuel fuel ty; match r with Ok id => mret (u32 id) | Err _ => unreachable end)) as Href
    by within.
  pose proof (fun k ty t => within_type_kind _ Href k ty t). within.
Qed.

End TypeInfos.

(** ** Excuses *)

Definition settles (decl : nat) : Excused :=
  {| ex_decl := eq decl; ex_module := fun _ => False; ex_unit := fun _ => False |}.
Definition claims (module_id : Z) : Excused :=
  {| ex_decl := fun _ => False; ex_module := eq (Z.to_nat module_id); ex_unit := fun _ => False |}.
Definition runs_unit (u : SemaUnit.SemaUnit) : Excused :=
  {| ex_decl := fun i => u = SemaUnit.DeclValue i; ex_module := fun _ => False; ex_unit := eq u |}.

Section Excuses.
Context `{ST : Setting}.
Implicit Types (c : Cu).

(** An excuse that was not needed: what was settled was free at the start, the
    claimed module is let go, the unit is done. *)
Lemma grown_unexcused ex c c' :
  grown ex c c' ->
  (forall i, ex_decl ex i -> (i < length (decls c))%nat -> ~ decl_fixed c i) ->
  (forall i m m', ex_module ex i -> modules c !! i = Some m -> modules c' !! i = Some m' ->
     sema_state m = ModuleAnalyzeState.Pending /\ sema_state m' <> ModuleAnalyzeState.InProgress) ->
  (forall u, ex_unit ex u -> ~ unit_running c' u) ->
  grown nothing c c'.
Proof.
  intros G Hd Hm Hu. destruct (G) as [???????????????? Hq]. split; auto.
  - intros i d Hi Hf _. apply (g_decl _ _ _ G); auto. intros Hx. by apply (Hd i Hx (lookup_lt_Some _ _ _ Hi)).
  - intros i m m' E E'. destruct (g_module _ _ _ G i m m' E E') as [p v n st r]. split; auto.
    + intros _ Hc. apply st; [|done]. intros Hx. destruct (Hm i m m' Hx E E') as [Hp _]. by apply Hc.
    + intros _ Hp. apply r; [|done]. intros Hx. by destruct (Hm i m m' Hx E E').
  - intros u Hr. right. destruct (g_unit_running _ _ _ G u Hr) as [Hx|]; [|done]. by destruct (Hu u Hx).
Qed.

(** Within the rules when excused from nothing. *)
Lemma within_excused {A} (m : M A) ex : Within (grows nothing) m -> Within (grows ex) m.
Proof. apply within_mono, grows_excused. Qed.

Lemma within_with_sema R {A} vuir m owner f (k : M A) : Within R k -> Within R (with_sema vuir m owner f k).
Proof.
  intros Hk s a s'. unfold with_sema. destruct (k _) as [[b s1]|] eqn:E; simpl; intros [= <- <-].
  exact (Hk _ _ _ E).
Qed.


(** What a change of state does. *)
Lemma set_analysis_state_run decl st s a s' : set_analysis_state decl st s = Ret (a, s') ->
  exists d d', decls (cu s) !! decl = Some d /\ cu s' = set_decls (<[decl := d']> (decls (cu s))) (cu s).
Proof.
  intros H. unfold set_analysis_state in H. do 3 run_inv H. injection H as <- <-.
  apply get_idx_inv in Ha. apply set_idx_inv in Ha0 as [-> _]. by eexists _, _.
Qed.
Lemma within_set_analysis_state ex decl st : ex_decl ex decl -> Within (grows ex) (set_analysis_state decl st).
Proof.
  intros Hx s a s' (d & d' & Hd & ->)%set_analysis_state_run.
  apply grown_grows. destruct (reflexivity (cu s) : grown ex (cu s) (cu s)). split; try done; simpl.
  - by rewrite length_insert.
  - intros i e He _ Hi. rewrite list_lookup_insert_ne; [done|]. by intros ->.
Qed.

Lemma update_module_run m f s a s' : update_module m f s = Ret (a, s') ->
  exists md, modules (cu s) !! Z.to_nat m = Some md /\
    cu s' = set_modules (<[Z.to_nat m := f md]> (modules (cu s))) (cu s).
Proof.
  intros H. unfold update_module in H. do 3 run_inv H. injection H as <- <-.
  apply get_idx_inv in Ha. apply set_idx_inv in Ha0 as [-> _]. by eexists _.
Qed.
Lemma grows_modules ex c i md md' : modules c !! i = Some md -> module_grows (ex_module ex i) md md' ->
  grows ex c (set_modules (<[i := md']> (modules c)) c).
Proof.
  intros Hi Hg. apply grown_grows. destruct (reflexivity c : grown ex c c). split; try done; simpl.
  - apply length_insert.
  - intros j m m' Hm. destruct (decide (j = i)) as [->|Hne].
    + rewrite list_lookup_insert_eq by (by eapply lookup_lt_Some). rewrite Hm in Hi. by intros [= <-]; simplify_eq.
    + rewrite list_lookup_insert_ne by done. rewrite Hm. intros [= <-]. apply module_grows_refl.
Qed.
Lemma within_set_sema_state ex m st : ex_module ex (Z.to_nat m) ->
  Within (grows ex) (update_module m (set_sema_state st)).
Proof. intros Hx s a s' (md & Hm & ->)%update_module_run. eapply grows_modules; [done|]. by split. Qed.

Lemma within_publish_namespace ex m ns : Within (grows ex) (publish_namespace m ns).
Proof.
  intros s a s' H. unfold publish_namespace, module_at in H. apply bind_inv in H as (md & s1 & H1 & H).
  run_inv H1. apply lift_inv in H1 as [H1 ->]. apply get_idx_inv in H1.
  destruct (module_namespace md) eqn:Hns; [done|].
  apply update_module_run in H as (md' & Hm & ->). rewrite H1 in Hm. injection Hm as <-.
  eapply grows_modules; [done|]. split; try done. simpl. congruence.
Qed.
End Excuses.
#[export] Hint Resolve within_publish_namespace : within.

(** ** Jobs *)

Section Jobs.
Context `{ST : Setting} `{WK : !Workers} `{PA : !Paths} `{MO : !Modules}.
Context (Hyield : Within (grows nothing) yield_now).
Context (Hmodule : forall m, Within (grows nothing) (get_or_analyze_module_sync m)).
Context (analyze_inst : nat -> InstructionId -> M (Result (InstructionRef * ControlFlow))).
Context (Hinst : forall block id, Within (grows nothing) (analyze_inst block id)).

#[local] Instance within_yield ex : Within (grows ex) yield_now.
Proof using Hyield. by apply within_excused. Qed.
#[local] Instance within_inst ex block id : Within (grows ex) (analyze_inst block id).
Proof using Hinst. by apply within_excused. Qed.
#[local] Hint Resolve within_yield within_inst within_with_sema within_set_sema_state : within.

(** *** Modules *)

Lemma within_declare_module ex m md : Within (grows ex) (declare_module m md).
Proof. within. Qed.
(** The declaration of a module is new. *)
Lemma declare_module_new m md s ns decl s' : queue_ok (cu s) -> declare_module m md s = Ret ((ns, decl), s') ->
  (length (decls (cu s)) <= decl)%nat.
Proof.
  intros Hq H. unfold declare_module in H. do 8 run_inv H. injection H as <- <- <-. injection Ha4 as <- <-.
  assert (grown nothing (cu s) (cu s0)) as G0 by (by apply (within_push_namespace _ _ _ _ _ Ha)).
  assert (grows nothing (cu s0) (cu s1)) as G1 by (eapply within_run; [|exact Ha3]; within).
  specialize (G1 (g_queue _ _ _ G0 Hq)).
  pose proof (g_decls _ _ _ G0). pose proof (g_decls _ _ _ G1). lia.
Qed.

Lemma within_import_prelude ex m v ns decl : Within (grows ex) (import_prelude m v ns decl).
Proof. within. Qed.
Lemma within_analyze_file ex m vuir ns decl : Within (grows ex) (analyze_file analyze_inst m vuir ns decl).
Proof using Hinst.
  unfold analyze_file. apply within_bind; [apply _|within|intros d]. apply within_with_sema.
  pose proof (fun b l => within_comptime_block ex analyze_inst (within_inst ex) b l). within.
Qed.
Lemma within_spawn ex j : job_unit j = None -> Within (grows ex) (spawn j).
Proof. intros Hj. apply within_modify_cu. intros c. by apply grown_grows, grown_spawn. Qed.
#[local] Hint Resolve within_import_prelude within_analyze_file within_set_analysis_state within_spawn : within.
#[local] Hint Extern 1 (job_unit _ = None) => reflexivity : within.

Lemma within_job_module m : Within (grows nothing) (job_analyze_module analyze_inst m).
Proof using Hinst.
  intros s r s' H Hq. unfold job_analyze_module in H. apply bind_inv in H as (md & s0 & H0 & H).
  assert (grows nothing (cu s) (cu s0)) as G0 by (eapply within_run; [|exact H0]; within).
  specialize (G0 Hq). pose proof (g_queue _ _ _ G0 Hq) as Hq0.
  destruct (module_vuir md) as [vuir|]; [|by injection H as <- <-].
  apply bind_inv in H as ([ns decl] & s1 & H1 & H).
  pose proof (declare_module_new _ _ _ _ _ _ Hq0 H1) as Hnew.
  assert (grows (settles decl) (cu s1) (cu s')) as G2.
  { eapply within_run; [|exact H]. assert (ex_decl (settles decl) decl) by done. within. }
  etrans; [exact G0|]. eapply (grown_unexcused (settles decl)); [|intros i -> Hi; lia|done|done].
  revert Hq0. change (grows (settles decl) (cu s0) (cu s')). etrans; [|exact G2].
  eapply within_run, H1. apply within_declare_module.
Qed.

(** The worker that claims a module settles it. *)
Lemma within_await_module fuel m : Within (grows nothing) (await_module analyze_inst fuel m).
Proof using Hyield Hinst.
  induction fuel as [|fuel IH]; simpl; [within|].
  intros s r s' H. apply bind_inv in H as (md & s0 & H0 & H). unfold module_at in H0. run_inv H0.
  apply lift_inv in H0 as [H0 ->]. apply get_idx_inv in H0.
  destruct (sema_state md) eqn:Hst; [|eapply within_run; [|exact H]; within..].
  apply bind_inv in H as (u & s1 & H1 & H). apply bind_inv in H as (v & s2 & H2 & H).
  assert (exists st u s3, update_module m (set_sema_state st) s2 = Ret (u, s3) /\ s3 = s' /\
    st <> ModuleAnalyzeState.InProgress) as (st & u3 & s3 & H3 & -> & Hn).
  { destruct v; apply bind_inv in H as (u3 & s3 & H3 & H); injection H as <- <-; by eexists _, _, _. }
  clear H. intros Hq. apply (grown_unexcused (claims m)); [|done| |done].
  - revert Hq. change (grows (claims m) (cu s) (cu s')). etrans; [|etrans]; [eapply within_run, H1; by apply within_set_sema_state| |
      eapply within_run, H3; by apply within_set_sema_state].
    eapply within_run, H2. apply within_excused, within_job_module.
  - intros i m0 m' <- Hm Hm'. rewrite H0 in Hm. injection Hm as <-. split; [done|].
    apply update_module_run in H3 as (md3 & Hmd3 & E). rewrite E in Hm'. simpl in Hm'.
    rewrite list_lookup_insert_eq in Hm' by (by eapply lookup_lt_Some). by injection Hm' as <-.
Qed.
Lemma within_module_sync m : Within (grows nothing) (analyze_module_sync analyze_inst m).
Proof using Hyield Hinst.
  pose proof within_await_module. within.
Qed.

(** *** Declarations and functions *)

Lemma within_decl_value_job ex decl : ex_decl ex decl -> Within (grows ex) (analyze_decl_value analyze_inst decl).
Proof using Hinst.
  intros Hx. pose proof (fun b l => within_comptime_block ex analyze_inst (within_inst ex) b l).
  unfold analyze_decl_value, store_decl. within; (try apply within_with_sema); within.
Qed.
(** The job of a declaration finds it unsettled. *)
Lemma decl_value_job_unsettled decl s r s' d : analyze_decl_value analyze_inst decl s = Ret (r, s') ->
  decls (cu s) !! decl = Some d -> ~ settled d.
Proof.
  intros H Hd Hs. unfold analyze_decl_value, decl_at in H. apply bind_inv in H as (d' & s0 & H0 & H).
  run_inv H0. apply lift_inv in H0 as [H0 ->]. apply get_idx_inv in H0. rewrite Hd in H0. injection H0 as <-.
  unfold settled in Hs. by destruct (analysis_state d).
Qed.

Lemma within_bind_fn_params ex block t f i params : Within (grows ex) (bind_fn_params block t f i params).
Proof. revert i. induction params; simpl; within. Qed.
#[local] Hint Resolve within_bind_fn_params : within.
Lemma within_runtime_func_job ex f : Within (grows ex) (analyze_runtime_func analyze_inst f).
Proof using Hinst.
  pose proof (fun b l => within_comptime_block ex analyze_inst (within_inst ex) b l).
  pose proof (fun b l t => within_fn_body ex analyze_inst (within_inst ex) b l t).
  assert (forall f b, Within (grows ex) (modify_cu (fun cu => set_codegen_tasks (codegen_tasks cu ++ [(f, b)]) cu)))
    by (intros; apply within_modify_cu; intros; apply grown_grows, grown_task).
  unfold analyze_runtime_func. within; (try apply within_with_sema); within.
Qed.
Lemma within_main_job d : Within (grows nothing) (job_analyze_main d).
Proof using Hyield. within. Qed.

(** *** The queue *)

(** Taking a unit from the queue lets it run. *)
Lemma grows_take c u jobs : spawned c = Job.AnalyzeUnit u :: jobs ->
  queue_ok c -> grown (runs_unit u) c (set_spawned jobs c) /\ queue_ok (set_spawned jobs c).
Proof.
  intros Hs [Hn Hq]. set (c1 := set_spawned jobs c).
  assert (queue c = u :: queue c1) as E by (unfold queue; by rewrite Hs). rewrite E in Hn, Hq.
  apply NoDup_cons in Hn as [Hu Hn].
  assert (queue_ok c1) as Hok by (split; [done|]; intros v Hv; apply Hq; by right).
  split; [|done]. destruct (reflexivity c : grown (runs_unit u) c c). split; try done.
  - intros v _. rewrite E, not_elem_of_cons. tauto.
  - intros v [Hv Hni]. destruct (decide (u = v)) as [->|Hne]; [by left|right]. split; [done|].
    rewrite E, not_elem_of_cons. split; [by intros ->|done].
Qed.

Lemma grows_take_other c j jobs : spawned c = j :: jobs -> job_unit j = None ->
  grows nothing c (set_spawned jobs c).
Proof.
  intros Hs Hj. assert (queue (set_spawned jobs c) = queue c) as E.
  { unfold queue. rewrite Hs. simpl. by rewrite Hj. }
  apply grown_grows. destruct (reflexivity c : grown nothing c c). split; unfold queue_ok, unit_running in *; rewrite ?E; auto.
Qed.

(** The job of a unit, which settles its declaration. *)
Lemma within_unit_job u : Within (grows (runs_unit u)) (job_sema_analyze_unit analyze_inst u).
Proof using Hinst. destruct u; simpl; [by apply within_decl_value_job|apply within_runtime_func_job]. Qed.

Lemma within_run_unit u jobs s r s' : spawned (cu s) = Job.AnalyzeUnit u :: jobs -> queue_ok (cu s) ->
  run_job analyze_inst (Job.AnalyzeUnit u) (set_cu (set_spawned jobs (cu s)) s) = Ret (r, s') ->
  grown nothing (cu s) (cu s') /\ sema_jobs (cu s') !! u = Some JobDone.
Proof using Hinst.
  intros Hs Hok H. destruct (grows_take (cu s) u jobs Hs Hok) as [G0 Hok1]. simpl in H.
  apply bind_inv in H as (r1 & s2 & H2 & H). run_inv H. injection H as <- <-. simpl.
  pose proof (within_run _ _ _ _ _ (within_unit_job u) H2 Hok1) as G1. simpl in G1.
  set (c1 := set_spawned jobs (cu s)) in *. set (c2 := cu s2) in *.
  assert (unit_known (cu s) u /\ u ∉ queue c1) as [Hk Hu].
  { destruct Hok as [Hn Hq]. assert (queue (cu s) = u :: queue c1) as E by (unfold queue; by rewrite Hs).
    rewrite E in Hn, Hq. apply NoDup_cons in Hn as [Hn _]. split; [|done].
    eexists. apply Hq. by left. }
  pose proof (g_unit_once _ _ _ G1 u Hk Hu) as Hu2.
  set (c3 := set_sema_jobs _ c2).
  assert (sema_jobs c3 !! u = Some JobDone) as Hdone by (simpl; by rewrite lookup_insert_eq).
  assert (forall v, v <> u -> sema_jobs c3 !! v = sema_jobs c2 !! v) as Hv
    by (intros; simpl; by rewrite lookup_insert_ne).
  assert (queue_ok c3) as Hok3.
  { destruct (g_queue _ _ _ G1 Hok1) as [Hn Hq]. split; [done|]. intros v Hin.
    rewrite Hv; [by apply Hq|]. by intros ->. }
  split; [|done]. apply (grown_unexcused (runs_unit u)).
  - etrans; [exact G0|]. etrans; [exact G1|].
    destruct (reflexivity c2 : grown (runs_unit u) c2 c2). split; try done.
    + intros v Hkv. destruct (decide (v = u)) as [->|Hne]; [by eexists|]. unfold unit_known. by rewrite Hv.
    + intros v Hkv. destruct (decide (v = u)) as [->|Hne]; [done|]. by rewrite Hv.
    + intros v [Hq Hn]. destruct (decide (v = u)) as [->|Hne]; [by left|right]. rewrite Hv in Hq by done. done.
  - intros i Hi _ [(d & Hd & Hset)|[_ Hn]].
    + simpl in Hi. subst u. by apply (decl_value_job_unsettled _ _ _ _ d H2).
    + simpl in Hi. subst u. apply Hn. unfold queue. rewrite Hs. by left.
  - done.
  - intros v <- [Hq _]. rewrite Hdone in Hq. done.
Qed.

Lemma within_run_job j : job_unit j = None -> Within (grows nothing) (run_job analyze_inst j).
Proof using Hyield Hinst.
  destruct j; [done|intros _..]; simpl; [apply within_main_job|].
  apply within_bind; [apply _|apply within_module_sync|within].
Qed.

Lemma within_run_next : Within (grows nothing) (run_next analyze_inst).
Proof using Hyield Hinst.
  intros s r s' H Hq. unfold run_next in H. run_inv H.
  destruct (spawned (cu s)) as [|j jobs] eqn:Hs; [by injection H as <- <-|].
  apply bind_inv in H as (u1 & s1 & [= <- <-] & H). apply bind_inv in H as (u2 & s2 & H2 & H). injection H as <- <-.
  destruct (job_unit j) as [u|] eqn:Hj.
  - destruct j; try done. injection Hj as ->. by apply (within_run_unit u jobs s u2).
  - revert Hq. change (grows nothing (cu s) (cu s2)).
    etrans; [by eapply (grows_take_other (cu s) j jobs)|].
    exact (within_run _ _ _ _ _ (within_run_job j Hj) H2).
Qed.

(** The queue is empty in the end. *)
Lemma run_jobs_empty fuel s a s' : run_jobs analyze_inst fuel s = Ret (a, s') -> spawned (cu s') = [].
Proof.
  revert s. induction fuel as [|fuel IH]; intros s H; [done|]. simpl in H.
  apply bind_inv in H as (more & s1 & H1 & H). destruct more; [by eapply IH|]. injection H as _ <-.
  unfold run_next in H1. run_inv H1. destruct (spawned (cu s)) eqn:Hs; [by injection H1 as <-|].
  apply bind_inv in H1 as (? & ? & _ & H1). apply bind_inv in H1 as (? & ? & _ & H1). done.
Qed.
Lemma within_run_jobs fuel : Within (grows nothing) (run_jobs analyze_inst fuel).
Proof using Hyield Hinst. pose proof within_run_next. induction fuel; simpl; within. Qed.
Lemma within_program fuel : Within (grows nothing) (analyze_program analyze_inst fuel).
Proof using Hyield Hinst. pose proof within_run_jobs. pose proof within_module_sync. within. Qed.

End Jobs.

(** ** The whole *)

Section System.
Context `{ST : Setting} `{PA : !Paths}.

Lemma within_system fuel :
  (forall block id, Within (grows nothing) (sys_inst (system fuel) block id)) /\
  Within (grows nothing) (sys_yield (system fuel)) /\
  (forall m, Within (grows nothing) (sys_module (system fuel) m)).
Proof.
  induction fuel as [|fuel (Hi & Hy & Hm)]; simpl; [split_and!; intros; apply within_lift, _|].
  set (WK := {| yield_now := sys_yield (system fuel) |} : Workers).
  set (MO := sys_module (system fuel) : Modules).
  assert (forall ty, Within (grows nothing) (@analyze_type_info _ WK ty)) as Hinfo
    by (intros; by apply within_type_info).
  split_and!; intros.
  - by apply within_inst_with.
  - apply within_bind; [apply _|by apply within_run_next|within].
  - by apply within_module_sync.
Qed.

(** C5: Whatever an instruction makes the analysis do (its own module, other
    modules, declarations, functions and the jobs it waits for), nothing that was
    published is taken back: the errors reported for every module are only
    added to, a declaration that is settled keeps its value, a module that is
    settled keeps its value, and the functions handed to code generation and the
    type information are only added to. *)
Theorem nothing_taken_back fuel block id s r s' :
  analyze_inst fuel block id s = Ret (r, s') -> queue_ok (cu s) ->
  (forall m, default [] (sema_errors (cu s) !! m) `prefix_of` default [] (sema_errors (cu s') !! m)) /\
  (forall i d, decls (cu s) !! i = Some d -> settled d -> decls (cu s') !! i = Some d) /\
  (forall i m v, modules (cu s) !! i = Some m -> sema_state m = ModuleAnalyzeState.Done v ->
     exists m', modules (cu s') !! i = Some m' /\ sema_state m' = ModuleAnalyzeState.Done v) /\
  codegen_tasks (cu s) `prefix_of` codegen_tasks (cu s') /\
  type_to_type_info_id (cu s) ⊆ type_to_type_info_id (cu s') /\
  type_info_entries (cu s) `prefix_of` type_info_entries (cu s').
Proof.
  intros H Hq. pose proof (within_run _ _ _ _ _ (proj1 (within_system fuel) block id) H Hq) as G.
  split_and!; try apply G.
  - intros i d Hd Hs. apply (g_decl _ _ _ G i d Hd); [left; by eexists|tauto].
  - intros i m v Hm Hv.
    destruct (lookup_lt_is_Some_2 (modules (cu s')) i) as [m' Hm'].
    { rewrite (g_modules _ _ _ G). by eapply lookup_lt_Some. }
    exists m'. split; [done|]. destruct (g_module _ _ _ G i m m' Hm Hm') as [_ _ _ Hst _].
    rewrite <- Hv. apply Hst; [tauto|]. unfold module_claimed. by rewrite Hv.
Qed.

(** C7: A unit of analysis runs once: when a worker takes it from the queue it is
    done afterwards, and whatever the analysis does from then on, it stays done
    and is never in the queue again. *)
Theorem unit_runs_once fuel s s' u jobs :
  spawned (cu s) = Job.AnalyzeUnit u :: jobs -> queue_ok (cu s) ->
  sys_yield (system fuel) s = Ret (tt, s') ->
  sema_jobs (cu s') !! u = Some JobDone /\ queue_ok (cu s') /\
  (forall fuel' block id r s2, analyze_inst fuel' block id s' = Ret (r, s2) ->
    sema_jobs (cu s2) !! u = Some JobDone /\ u ∉ queue (cu s2) /\ queue_ok (cu s2)).
Proof.
  intros Hs Hq H. destruct fuel as [|fuel]; [done|]. destruct (within_system fuel) as (Hi & Hy & Hm). simpl in H.
  apply bind_inv in H as (more & s1 & H & H'). injection H' as <-.
  unfold run_next in H. run_inv H. rewrite Hs in H.
  apply bind_inv in H as (u1 & s2 & [= <- <-] & H). apply bind_inv in H as (u2 & s3 & H2 & H). injection H as _ <-.
  set (WK := {| yield_now := sys_yield (system fuel) |} : Workers) in *.
  destruct (within_run_unit _ Hi u jobs s u2 s3 Hs Hq H2) as [G Hd].
  pose proof (g_queue _ _ _ G Hq) as Hq3. split_and!; [done|done|].
  intros fuel' block id r s4 H4.
  pose proof (within_run _ _ _ _ _ (proj1 (within_system fuel') block id) H4 Hq3) as G4.
  pose proof (g_queue _ _ _ G4 Hq3) as Hq4. pose proof (g_unit_done _ _ _ G4 u Hd) as Hd4.
  split_and!; [done| |done]. intros Hin. apply Hq4 in Hin. congruence.
Qed.

(** C8: When the analysis of a program ends, nothing is left over: no job waits,
    every declaration and every function whose analysis was asked for is done, and
    no module is half analysed. *)
Theorem compile_leaves_nothing fuel s s' :
  compile_modules fuel s = Ret (tt, s') ->
  spawned (cu s) = [] -> sema_jobs (cu s) = ∅ ->
  (forall i m, modules (cu s) !! i = Some m -> sema_state m = ModuleAnalyzeState.Pending) ->
  spawned (cu s') = [] /\
  (forall u st, sema_jobs (cu s') !! u = Some st -> st = JobDone) /\
  (forall i m, modules (cu s') !! i = Some m -> sema_state m <> ModuleAnalyzeState.InProgress).
Proof.
  intros H Hs Hj Hp. destruct (within_system fuel) as (Hi & Hy & Hm).
  set (WK := {| yield_now := sys_yield (system fuel) |} : Workers).
  assert (queue_ok (cu s)) as Hq by (unfold queue_ok, queue; rewrite Hs; split; [constructor|by intros u ?%elem_of_nil]).
  assert (grown nothing (cu s) (cu s')) as G
    by exact (within_run _ _ _ _ _ (within_program Hy _ Hi fuel) H Hq).
  assert (spawned (cu s') = []) as Hs'.
  { unfold compile_modules, analyze_program in H. run_inv H.
    apply bind_inv in H as (? & ? & _ & H). apply bind_inv in H as (? & ? & _ & H).
    apply bind_inv in H as (? & ? & _ & H). by apply run_jobs_empty in H. }
  split_and!; [done| |].
  - intros u st Hu. destruct st; [|done].
    destruct (g_unit_running _ _ _ G u) as [[]|[Hc _]]; [|rewrite Hj in Hc; done].
    split; [done|]. unfold queue. rewrite Hs'. by intros ?%elem_of_nil.
  - intros i m Hm' Hc.
    destruct (lookup_lt_is_Some_2 (modules (cu s)) i) as [m0 Hm0].
    { rewrite <- (g_modules _ _ _ G). by eapply lookup_lt_Some. }
    destruct (g_module _ _ _ G i m0 m Hm0 Hm') as [_ _ _ _ Hpr].
    pose proof (Hpr ltac:(tauto) Hc) as E. rewrite (Hp i m0 Hm0) in E. done.
Qed.

(** A declaration whose job has left the queue and that is not settled. *)
Definition abandoned (c : Cu) (decl : nat) : Prop :=
  exists d, decls c !! decl = Some d /\ ~ settled d /\
    unit_known c (SemaUnit.DeclValue decl) /\ SemaUnit.DeclValue decl ∉ queue c.

Lemma abandoned_result s decl : abandoned (cu s) decl -> decl_result decl s = Ret (None, s).
Proof.
  intros (d & Hd & Hs & _). unfold decl_result, gets, mbind, M_bind. cbn [mbind res_bind]. rewrite Hd.
  unfold settled in Hs. by destruct (analysis_state d); try tauto.
Qed.

(** The job keeps the state of its declaration when the initializer is not known. *)
Lemma store_decl_unknown decl m inst name i s r s' :
  store_decl decl m inst name (Some (Instruction i)) s = Ret (r, s') ->
  r = Err AnalysisFailed /\ decls (cu s') = decls (cu s) /\ sema_jobs (cu s') = sema_jobs (cu s) /\
  spawned (cu s') = spawned (cu s).
Proof. by intros [= <- <-]. Qed.


End System.
End SemaSystem.
