(* ===== verification/SemaLogic.v ===== *)
(** * Reasoning about the semantic analysis

    [runs m s Q]: from the state [s], [m] returns a value and a state that
    satisfy [Q].  A rule per primitive; the states after a primitive have names
    ([with_values], [with_error], [emitted]), in which the specifications of the
    operations are written. *)

From S2P Require Import Prelude Words Bytes Span Token Diagnostic Ast HashIndex ShardedMap.
From S2P Require Import Anyint Value ValueStore ValueSpec StoreLogic ValueLayout Vuir Vtir VtirSpec SemaState.
From stdpp Require Import gmap.

#[local] Open Scope Z_scope.
#[local] Open Scope sema_scope.

(** What the parameters promise. *)
Class SettingLaws `{ST : Setting} := {
  laws_table :: HashTableLaws;
  laws_arena :: ArenaLaws st_arena (Value.Key * ValueStore.Value);
  laws_insert :: SortedInsertLaws;
  laws_fuel : (0 < query_fuel)%nat;
}.

Module SemaLogic.
Import Value ValueStore ValueSpec StoreLogic IrId Vtir VtirSpec Sema.

Section Logic.
Context `{SL : SettingLaws}.
Implicit Types (s : Sema) (b : nat) (r : InstructionRef).

Abbreviation store_of s := (values (cu s)).

(** ** States *)

Definition with_values (v : Store) s : Sema := set_cu (set_values v (cu s)) s.

Definition with_error (d : Diagnostic.Diagnostic) s : Sema :=
  set_cu (set_sema_errors
    (<[Sema.module s := default [] (sema_errors (cu s) !! Sema.module s) ++ [d]]> (sema_errors (cu s))) (cu s)) s.

Definition next_inst s : InstructionRef := Instruction (Z.of_nat (length (instructions s))).
Definition emitted b (opcode : Vtir.Opcode) s : Sema :=
  set_blocks (alter (add_instructions [next_inst s]) b (blocks s))
    (set_instructions (instructions s ++ [opcode]) s).

(** A state whose store has room for [n] values and whose instructions are in
    order, with room for one more, and where [b] is a block. *)
Record ready (n : nat) b s : Prop := {
  ready_store : store n (store_of s);
  ready_ordered : ordered (ValueStore.common (store_of s)) (instructions s);
  ready_room : Z.of_nat (length (instructions s)) <= 0xfffffffe;
  ready_block : (b < length (blocks s))%nat;
}.

Definition typed s r (ty : Z) : Prop := has_type (store_of s) (instructions s) r ty.

Lemma ready_le n n' b s : (n' <= n)%nat -> ready n b s -> ready n' b s.
Proof. intros Hn []. split; try done. by eapply store_le. Qed.

Lemma ready_values n n' b s v :
  ready n b s -> store n' v -> extends (store_of s) v -> ready n' b (with_values v s).
Proof. intros [] Hs [Hc _]. split; simpl; try done. by rewrite Hc. Qed.

Lemma typed_values s r ty v : extends (store_of s) v -> typed s r ty -> typed (with_values v s) r ty.
Proof. intros Hx. by apply has_type_grows. Qed.

Lemma typed_interned s i k x ty :
  at_ (store_of s) i (k, x) -> key_type (ValueStore.common (store_of s)) k = Some ty -> typed s (Interned i) ty.
Proof. intros. by eapply type_interned. Qed.

(** ** Runs *)

Definition runs {A} (m : M A) s (Q : A -> Sema -> Prop) : Prop := exists a s', m s = Ret (a, s') /\ Q a s'.

Lemma runs_mret {A} (a : A) s Q : Q a s -> runs (mret a) s Q.
Proof. intros. by exists a, s. Qed.

Lemma runs_ok {A} (a : A) s Q : Q (Ok a) s -> runs (ok a) s Q.
Proof. intros. by exists (Ok a), s. Qed.

Lemma runs_fail {A} e s (Q : Result A -> Sema -> Prop) : Q (Err e) s -> runs (fail e) s Q.
Proof. intros. by exists (Err e), s. Qed.

Lemma runs_seq {A B} (m : M A) (k : A -> M B) s Q :
  runs m s (fun a s' => runs (k a) s' Q) -> runs (m ≫= k) s Q.
Proof.
  intros (a & s1 & Hm & a' & s2 & Hk & HQ). exists a', s2. split; [|done].
  unfold mbind, M_bind. rewrite Hm. exact Hk.
Qed.

Lemma runs_try_bind {A B} (m : M (Result A)) (k : A -> M (Result B)) s Q :
  runs m s (fun a s' => match a with Ok a => runs (k a) s' Q | Err e => Q (Err e) s' end) ->
  runs (try_bind k m) s Q.
Proof.
  intros H. unfold try_bind. apply runs_seq. destruct H as ([a|e] & s' & Hm & HQ);
    eexists _, s'; (split; [exact Hm|]); simpl; [done|]. by apply runs_fail.
Qed.

Lemma runs_mono {A} (m : M A) s (Q Q' : A -> Sema -> Prop) :
  (forall a s', Q a s' -> Q' a s') -> runs m s Q -> runs m s Q'.
Proof. intros HQ (a & s' & ? & ?). exists a, s'. auto. Qed.

Lemma runs_gets {A} (f : Sema -> A) s Q : Q (f s) s -> runs (gets f) s Q.
Proof. intros. by exists (f s), s. Qed.

Lemma runs_modify f s (Q : unit -> Sema -> Prop) : Q tt (f s) -> runs (modify f) s Q.
Proof. intros. by exists tt, (f s). Qed.

Lemma runs_lift {A} (m : res A) a s Q : m = Ret a -> Q a s -> runs (lift m) s Q.
Proof. intros -> ?. by exists a, s. Qed.

Lemma runs_query {A} (f : Store -> res A) a s Q : f (store_of s) = Ret a -> Q a s -> runs (query f) s Q.
Proof. intros Hf ?. exists a, s. split; [|done]. unfold query. by rewrite Hf. Qed.

Lemma runs_common f s Q : Q (f (ValueStore.common (store_of s))) s -> runs (Sema.common f) s Q.
Proof. apply (runs_gets (fun s => f (ValueStore.common (store_of s)))). Qed.

Lemma runs_key s i kv Q : at_ (store_of s) i kv -> Q kv.1 s -> runs (index_to_key i) s Q.
Proof. intros (_ & Hk & _)%at_kv. by apply runs_query. Qed.

Lemma runs_kv s i kv Q : at_ (store_of s) i kv -> Q kv s -> runs (index_to_key_value i) s Q.
Proof. intros (Hk & _ & _)%at_kv. by apply runs_query. Qed.

Lemma runs_value s i kv Q : at_ (store_of s) i kv -> Q kv.2 s -> runs (index_to_value i) s Q.
Proof. intros (_ & _ & Hk)%at_kv. by apply runs_query. Qed.

Lemma runs_comptime_key s i kv Q :
  at_ (store_of s) i kv -> Q (Some kv.1) s -> runs (comptime_key (Interned i)) s Q.
Proof. intros Hat HQ. simpl. apply runs_seq. eapply runs_key; [done|]. by apply runs_mret. Qed.

Lemma runs_type_of n b s r ty Q : ready n b s -> typed s r ty -> Q ty s -> runs (type_of r) s Q.
Proof.
  intros Hr Ht HQ. exists ty, s. split; [|done]. unfold type_of.
  rewrite (type_of_has_type _ _ _ _ (ready_ordered _ _ _ Hr) Ht). done.
Qed.

(** Interning a key whose equality is exact. *)
Lemma runs_intern n b s k Q :
  ready (S n) b s -> is_trivial k = true -> exact_key k = true ->
  (forall i v x, ready n b (with_values v s) -> extends (store_of s) v -> at_ v i (k, x) -> Q i (with_values v s)) ->
  runs (intern_trivial k) s Q.
Proof.
  intros Hr Ht He HQ. destruct (intern_exact n _ k (ready_store _ _ _ Hr) Ht He) as (i & v & x & Hi & Hs & Hx & Hat).
  exists i, (with_values v s). split; [unfold intern_trivial, update_values; by rewrite Hi|].
  eapply HQ; [|done|done]. by eapply ready_values.
Qed.

(** A key that is lawful, up to equality of keys. *)
Lemma runs_intern_lawful n b s k Q :
  ready (S n) b s -> is_trivial k = true -> lawful k ->
  (forall i v kv, ready n b (with_values v s) -> extends (store_of s) v -> at_ v i kv -> key_equiv kv.1 k ->
     Q i (with_values v s)) ->
  runs (intern_trivial k) s Q.
Proof.
  intros Hr Ht He HQ. destruct (intern_store n _ k (ready_store _ _ _ Hr) Ht He) as (i & v & Hi & Hs & Hx & kv & Hat & Hkv).
  exists i, (with_values v s). split; [unfold intern_trivial, update_values; by rewrite Hi|].
  eapply HQ; [|done|done|done]. by eapply ready_values.
Qed.

Lemma runs_push_error d s (Q : unit -> Sema -> Prop) : Q tt (with_error d s) -> runs (push_error d) s Q.
Proof. intros HQ. by apply runs_modify. Qed.

(** A message reported on the way out. *)
Lemma runs_fail_at {A} msg span s (Q : Result A -> Sema -> Prop) :
  (forall d, Diagnostic.message d = msg -> Q (Err AnalysisFailed) (with_error d s)) -> runs (fail_at msg span) s Q.
Proof.
  intros HQ. unfold fail_at, push_error_at. apply runs_seq, runs_seq, runs_gets, runs_push_error, runs_fail.
  by apply HQ.
Qed.

Lemma runs_display s i d Q :
  display_index query_fuel (store_of s) i = Ret d -> Q d s -> runs (display i) s Q.
Proof. apply (runs_query (fun v => display_index query_fuel v i)). Qed.

Lemma alter_set_idx {A} (f : A -> A) (l : list A) i x :
  l !! i = Some x -> set_idx l i (f x) = Ret (alter f i l).
Proof.
  intros Hi. unfold set_idx. rewrite decide_True by (by eapply lookup_lt_Some). f_equal.
  apply list_eq. intros j.
  destruct (decide (i = j)) as [<-|Hne].
  - rewrite list_lookup_insert_eq by (by eapply lookup_lt_Some). by rewrite list_lookup_alter_eq, Hi.
  - by rewrite list_lookup_insert_ne, list_lookup_alter_ne by done.
Qed.

Lemma runs_inst n b s opcode Q :
  ready n b s -> Q (next_inst s) (emitted b opcode s) -> runs (inst b opcode) s Q.
Proof.
  intros Hr HQ. destruct (lookup_lt_is_Some_2 _ _ (ready_block _ _ _ Hr)) as [blk Hblk].
  exists (next_inst s), (emitted b opcode s). split; [|done].
  unfold inst, inst_id, block_at, set_block, gets, modify, lift, mbind, M_bind, mret, M_ret. cbn [mbind res_bind].
  unfold from_usize. rewrite NonMaxU32.from_usize_ok by apply (ready_room _ _ _ Hr). cbn [mbind res_bind].
  cbn [blocks set_instructions]. unfold get_idx. rewrite Hblk. cbn [mbind res_bind].
  by rewrite (alter_set_idx _ _ _ _ Hblk).
Qed.

(** After an emission. *)
Lemma typed_emitted b opcode s r ty : typed s r ty -> typed (emitted b opcode s) r ty.
Proof. apply has_type_grows; [done|]. by apply prefix_app_r. Qed.

Lemma lookup_next s opcode b : instructions (emitted b opcode s) !! length (instructions s) = Some opcode.
Proof. simpl. by rewrite list_lookup_middle. Qed.

Lemma typed_next_is b opcode s ty :
  type_source (ValueStore.common (store_of s)) opcode = Is ty -> typed (emitted b opcode s) (next_inst s) ty.
Proof.
  intros Hs. eapply type_is; [|done]. unfold to_usize, NonMaxU32.as_usize. rewrite Nat2Z.id. apply lookup_next.
Qed.

Lemma typed_next_same b opcode s r ty :
  type_source (ValueStore.common (store_of s)) opcode = Same r -> typed s r ty ->
  typed (emitted b opcode s) (next_inst s) ty.
Proof.
  intros Hs Hr. eapply type_same; [|done|].
  - unfold to_usize, NonMaxU32.as_usize. rewrite Nat2Z.id. apply lookup_next.
  - by apply typed_emitted.
Qed.

Lemma typed_next_pointee b opcode s r pty p x :
  type_source (ValueStore.common (store_of s)) opcode = Pointee r -> typed s r pty ->
  at_ (store_of s) pty (KType (TPtr p), x) -> typed (emitted b opcode s) (next_inst s) (ptr_pointee_ty p).
Proof.
  intros Hs Hr Hp. eapply type_pointee; [|done| |done].
  - unfold to_usize, NonMaxU32.as_usize. rewrite Nat2Z.id. apply lookup_next.
  - by apply typed_emitted.
Qed.

Lemma ready_emitted n b b' opcode s :
  ready n b s -> Z.of_nat (S (length (instructions s))) <= 0xfffffffe ->
  (forall r, source_operand (type_source (ValueStore.common (store_of s)) opcode) = Some r ->
     before (length (instructions s)) r) ->
  ready n b (emitted b' opcode s).
Proof.
  intros [Hs Ho Hl Hb] Hlen Hop. split; simpl; try done.
  - by apply ordered_snoc.
  - rewrite length_app. simpl. lia.
  - by rewrite length_alter.
Qed.

(** A run is the whole behaviour. *)
Lemma runs_det {A} (m : M A) s Q a s' : runs m s Q -> m s = Ret (a, s') -> Q a s'.
Proof. intros (a0 & s0 & Hm & HQ) Hr. rewrite Hm in Hr. by injection Hr as <- <-. Qed.

End Logic.

Abbreviation store_of s := (values (cu s)).

(** One step of a run. *)
Ltac run_step :=
  match goal with
  | |- runs (_ ≫= _) _ _ => apply runs_seq
  | |- runs (try_bind _ _) _ _ => apply runs_try_bind
  | |- runs (mret _) _ _ => apply runs_mret
  | |- runs (ok _) _ _ => apply runs_ok
  | |- runs (fail _) _ _ => apply runs_fail
  | |- runs (gets _) _ _ => apply runs_gets
  | |- runs (modify _) _ _ => apply runs_modify
  | |- runs (Sema.common _) _ _ => apply runs_common
  | |- runs (push_error _) _ _ => apply runs_push_error
  | H : at_ (values (cu ?s)) ?i _ |- runs (index_to_key ?i) ?s _ => eapply runs_key; [exact H|]
  | H : at_ (values (cu ?s)) ?i _ |- runs (index_to_key_value ?i) ?s _ => eapply runs_kv; [exact H|]
  | H : at_ (values (cu ?s)) ?i _ |- runs (index_to_value ?i) ?s _ => eapply runs_value; [exact H|]
  | H : at_ (values (cu ?s)) ?i _ |- runs (comptime_key (Interned ?i)) ?s _ => eapply runs_comptime_key; [exact H|]
  | H : ready _ _ ?s, H' : typed ?s ?r _ |- runs (type_of ?r) ?s _ => eapply runs_type_of; [exact H|exact H'|]
  | |- runs (lift (Ret _)) _ _ => eapply runs_lift; [reflexivity|]
  | |- runs (fail_at _ _) _ _ => apply runs_fail_at; intros ? _
  | |- runs (if negb _ then _ else _) _ _ => progress cbn [negb]
  end; cbn beta match; cbn [fst snd].
Ltac run := repeat run_step.

End SemaLogic.
