(* ===== verification/SemaIntSpec.v ===== *)
(** * Integers at compile time

    What the integer operators compute on interned integers: the value of [Z]
    wrapped to the width of the type, where the code wraps it. *)

From S2P Require Import Prelude Words Bytes Span Token Diagnostic Ast HashIndex ShardedMap.
From S2P Require Import Anyint AnyintArith AnyintDiv AnyintBits AnyintSpec.
From S2P Require Import Value ValueStore ValueSpec StoreLogic ValueLayout Vuir Vtir VtirSpec.
From S2P Require Import SemaState SemaAccess SemaFold SemaLogic.

#[local] Open Scope Z_scope.
#[local] Open Scope sema_scope.

Module SemaIntSpec.
Import Value ValueStore ValueSpec StoreLogic IrId VtirSpec Sema SemaAccess SemaFold SemaLogic.
Import AnyintBits (sint).

(** ** Wrapping *)

(** Sign and width of the types that wrap, for the width of a pointer. *)
Definition int_width (ptr_width : Z) (t : Ty) : option (bool * Z) :=
  match t with
  | Int signed bits => Some (signed, bits)
  | Isize => Some (true, ptr_width)
  | Usize => Some (false, ptr_width)
  | _ => None
  end.

Definition wrap (w : option (bool * Z)) (z : Z) : Z :=
  match w with
  | Some (true, n) => sint n (z mod 2^n)
  | Some (false, n) => z mod 2^n
  | None => z
  end.

Definition in_range (w : option (bool * Z)) (z : Z) : bool :=
  match w with
  | Some (true, n) => (- 2^(n - 1) <=? z) && (z <? 2^(n - 1))
  | Some (false, n) => (0 <=? z) && (z <? 2^n)
  | None => true
  end.

Definition width_ok (w : option (bool * Z)) : Prop := match w with Some (_, n) => 0 < n | None => True end.

Lemma in_range_spec w z : in_range w z = true <->
  match w with
  | Some (true, n) => - 2^(n - 1) <= z < 2^(n - 1)
  | Some (false, n) => 0 <= z < 2^n
  | None => True
  end.
Proof. destruct w as [[[] n]|]; simpl; rewrite ?andb_true_iff, ?Z.leb_le, ?Z.ltb_lt; done. Qed.

Lemma wrap_in_range w z : width_ok w -> in_range w (wrap w z) = true.
Proof.
  rewrite in_range_spec. destruct w as [[[] n]|]; simpl; [|intros; apply Z.mod_pos_bound; lia|done].
  intros Hn. pose proof (Z.mod_pos_bound z (2^n)) as Hm. pose proof (AnyintBits.pow2_half n Hn).
  unfold sint. destruct (Z.ltb_spec (z mod 2^n) (2^(n - 1))); lia.
Qed.

Lemma wrap_congruent s n z : 0 < n -> (wrap (Some (s, n)) z) mod 2^n = z mod 2^n.
Proof.
  intros Hn. destruct s; simpl; [|by rewrite Z.mod_mod by lia]. unfold sint.
  destruct (Z.ltb_spec (z mod 2^n) (2^(n - 1))); [by rewrite Z.mod_mod by lia|].
  replace (z mod 2^n - 2^n) with (z mod 2^n + (-1) * 2^n) by lia. by rewrite Z.mod_add, Z.mod_mod by lia.
Qed.

Lemma wrap_id w z : width_ok w -> in_range w z = true -> wrap w z = z.
Proof.
  rewrite in_range_spec. destruct w as [[[] n]|]; simpl; [|by intros; apply Z.mod_small|done].
  intros Hn Hz. by apply AnyintBits.sint_mod.
Qed.

Section Ints.
Context `{SL : SettingLaws} {WK : Workers} {TI : TypeInfo}.
Implicit Types (s : Sema) (b : nat) (r : InstructionRef).

Abbreviation ptr_width s := (ValueLayout.ptr_width_in_bits (target (cu s))).
Abbreviation repr_Z := AnyintArith.repr.

Lemma wrap_to_ok signed bits a :
  0 < bits -> Anyint.wf a ->
  exists w, wrap_to signed bits a = Ret w /\ repr_Z w (wrap (Some (signed, bits)) (Anyint.to_Z a)).
Proof.
  intros Hb Ha. destruct (AnyintArith.from_unsigned_repr 1) as [Hw1 Hv1]; [lia|].
  destruct (AnyintDiv.abs_shl_repr _ bits Hw1) as (m & Hm & Hwm & Hvm); [lia|].
  destruct (AnyintDiv.abs_shl_repr _ (bits - 1) Hw1) as (h & Hh & Hwh & Hvh); [lia|].
  rewrite Hv1, Z.mul_1_l in Hvm, Hvh. pose proof (Z.pow_pos_nonneg 2 bits) as Hpos.
  destruct (AnyintDiv.rem_repr a m Ha Hwm) as (w & Hrem & Hww & Hvw); [lia|].
  unfold wrap_to, Anyint.shl. rewrite Hm. cbn [mbind res_bind]. rewrite Hrem. cbn [mbind res_bind].
  set (w' := if Anyint.is_negative w then Anyint.add w m else w).
  assert (Hw' : repr_Z w' (Anyint.to_Z a mod 2^bits)).
  { subst w'. unfold Anyint.is_negative. pose proof (AnyintDiv.negative_ltb w Hww) as Hneg.
    rewrite Hvm in Hvw. rewrite Hvw in Hneg.
    pose proof (Z.quot_rem (Anyint.to_Z a) (2^bits)) as Hqr. pose proof (Z.rem_bound_abs (Anyint.to_Z a) (2^bits)) as Hb'.
    rewrite Hneg. destruct (Z.ltb_spec (Z.rem (Anyint.to_Z a) (2^bits)) 0) as [Hlt|Hge].
    - destruct (AnyintArith.add_repr w m Hww Hwm) as [? Hv]. split; [done|]. rewrite Hv, Hvw, Hvm.
      apply (Z.mod_unique_pos _ _ (Z.quot (Anyint.to_Z a) (2^bits) - 1)); lia.
    - split; [done|]. rewrite Hvw. apply (Z.mod_unique_pos _ _ (Z.quot (Anyint.to_Z a) (2^bits))); lia. }
  destruct signed; [|eauto]. destruct (Z.ltb_spec bits 1); [lia|]. rewrite Hh. cbn [mbind res_bind].
  eexists. split; [done|]. destruct Hw' as [Hwf Hval]. cbn [wrap].
  rewrite (AnyintArith.cmp_repr _ _ Hwf Hwh), Hval, Hvh. unfold sint.
  destruct (AnyintArith.sub_repr w' m Hwf Hwm) as [Hws Hvs]. rewrite Hval, Hvm in Hvs.
  destruct (Z.compare_spec (Anyint.to_Z a mod 2^bits) (2^(bits - 1))) as [He|Hlt|Hgt];
    destruct (Z.ltb_spec (Anyint.to_Z a mod 2^bits) (2^(bits - 1))); try lia; by split.
Qed.

Lemma runs_wrap s ty t x a Q :
  at_ (store_of s) ty (KType t, x) -> width_ok (int_width (ptr_width s) t) -> Anyint.wf a ->
  (forall w, repr_Z w (wrap (int_width (ptr_width s) t) (Anyint.to_Z a)) -> Q w s) ->
  runs (wrap_int_value ty a) s Q.
Proof.
  intros Hty Hw Ha HQ. unfold wrap_int_value. run.
  destruct t as [signed bits| | | | | | | | | | | | | | | | | | | | | | | ]; cbn [int_width width_ok] in *;
    try (run; by apply HQ).
  - destruct (wrap_to_ok signed bits a Hw Ha) as (w & Hr & Hv). eapply runs_lift; [exact Hr|]. by apply HQ.
  - destruct (wrap_to_ok false _ a Hw Ha) as (w & Hr & Hv). eapply runs_lift; [exact Hr|]. by apply HQ.
  - destruct (wrap_to_ok true _ a Hw Ha) as (w & Hr & Hv). eapply runs_lift; [exact Hr|]. by apply HQ.
Qed.

(** ** Operands *)

(** Index [i] stands for the integer [z] of type [t], whose index is [ty]. *)
Definition int_at s (i ty : Z) (t : Ty) (z : Z) : Prop :=
  exists a x y, at_ (store_of s) i (KInt ty a, x) /\ repr_Z a z /\ at_ (store_of s) ty (KType t, y).

Definition is_integer (t : Ty) : bool := match t with Int _ _ | TAnyint | Usize | Isize => true | _ => false end.

Lemma with_values_id s : with_values (store_of s) s = s.
Proof. by destruct s as [[]]. Qed.

Lemma int_at_values s v i ty t z : extends (store_of s) v -> int_at s i ty t z -> int_at (with_values v s) i ty t z.
Proof. intros [_ Hx] (a & x & y & ? & ? & ?). exists a, x, y. split_and!; try apply Hx; done. Qed.

Lemma int_at_type s i ty t z : int_at s i ty t z -> exists x, at_ (store_of s) ty (KType t, x).
Proof. intros (a & x & y & _ & _ & ?). by exists y. Qed.

Lemma int_at_typed s i ty t z : int_at s i ty t z -> typed s (Interned i) ty.
Proof. intros (a & x & y & Ha & _ & _). by eapply typed_interned. Qed.

(** Types of equal index are equal, and the other way round. *)
Lemma type_index_inj s i j t t' x x' :
  at_ (store_of s) i (KType t, x) -> at_ (store_of s) j (KType t', x') -> (i = j <-> t = t').
Proof.
  intros Hi Hj. split.
  - intros ->. pose proof (at_fun _ _ _ _ Hi Hj) as He. by injection He.
  - intros ->. eapply at_inj; [exact Hi|exact Hj|]. by apply key_equiv_cases.
Qed.

Lemma type_key_eqb t t' : eqb (KType t) (KType t') = bool_decide (t = t').
Proof. unfold eqb, Key_eq. apply bool_decide_ext. split; [by intros [= ->]|by intros ->]. Qed.

(** ** A constant brought to an integer type *)

Lemma display_int s ty t x :
  at_ (store_of s) ty (KType t, x) -> is_integer t = true -> exists d, display_index query_fuel (store_of s) ty = Ret d.
Proof.
  intros (Hk & _ & _)%at_kv Hi. pose proof laws_fuel. destruct query_fuel as [|f]; [lia|].
  cbn [display_index]. rewrite Hk. cbn [mbind res_bind]. destruct t; try done; eauto.
Qed.

Definition failed_with_error {B} s (out : Result B) s' : Prop := out = Err AnalysisFailed /\ exists d, s' = with_error d s.

(** [anyint] constants to the types that admit them; [usize] and [isize] admit all. *)
Definition coercible (z : Z) (t : Ty) : bool :=
  match t with
  | Int signed bits => in_range (Some (signed, bits)) z
  | Usize | Isize => true
  | _ => false
  end.

Lemma fits_ok (signed : bool) bits a :
  Anyint.wf a -> 0 < bits ->
  (if signed then Anyint.fits_signed_bits a bits else Ret (Anyint.fits_unsigned_bits a bits)) =
  Ret (in_range (Some (signed, bits)) (Anyint.to_Z a)).
Proof.
  intros Ha Hb. destruct signed.
  - destruct (AnyintBits.fits_signed_spec a bits Ha Hb) as (f & -> & Hf). f_equal.
    apply Bool.eq_iff_eq_true. by rewrite Hf, in_range_spec.
  - f_equal. apply Bool.eq_iff_eq_true. rewrite in_range_spec. apply AnyintBits.fits_unsigned_spec; [done|lia].
Qed.

(** How [coerce] starts on an integer constant: it is neither a type nor of the
    destination type. *)
Lemma runs_coerce_int n b s i ty z dst t x span f Q :
  ready n b s -> int_at s i ty TAnyint z -> at_ (store_of s) dst (KType t, x) -> is_int_or_size t = true ->
  runs (match t with
        | Int signed bits => m ← coerce_int_to_int b dst signed bits (Interned i); report span m
        | _ => m ← coerce_int_to_size dst (Interned i); report span m
        end) s Q ->
  runs (coerce_fuel (S f) b dst (Interned i) span) s Q.
Proof.
  intros Hr Hi Hdst Ht HQ. pose proof (int_at_typed _ _ _ _ _ Hi) as Hty.
  destruct Hi as (a & xa & xt & Ha & _ & Hta). cbn [coerce_fuel]. unfold coerce_with, coerce_source. run.
  cbn [is_type]. run.
  assert (Hne : (dst =? generic_poison_t (ValueStore.common (store_of s))) || (dst =? ty) = false).
  { apply orb_false_iff. split; apply Z.eqb_neq.
    - destruct (common_at n (store_of s) 21 _ _ (ready_store _ _ _ Hr) eq_refl eq_refl) as [xp Hp].
      intros He. apply (type_index_inj _ _ _ _ _ _ _ Hdst Hp) in He. by subst.
    - intros He. apply (type_index_inj _ _ _ _ _ _ _ Hdst Hta) in He. by subst. }
  rewrite Hne. run. by destruct t.
Qed.

Lemma runs_coerce_const n b s i ty z dst t x span f :
  ready (S n) b s -> int_at s i ty TAnyint z -> at_ (store_of s) dst (KType t, x) ->
  is_int_or_size t = true -> width_ok (int_width (ptr_width s) t) ->
  runs (coerce_fuel (S f) b dst (Interned i) span) s (fun out s' =>
    if coercible z t then
      exists j v, out = Ok (Interned j) /\ s' = with_values v s /\ ready n b s' /\ extends (store_of s) v /\
        int_at s' j dst t z
    else failed_with_error s out s').
Proof.
  intros Hr Hi Hdst Ht Hw. eapply runs_coerce_int; [done..|]. destruct Hi as (a & xa & xt & Ha & [Hwf Hz] & Hta).
  assert (Hdone : forall j v y, extends (store_of s) v -> at_ v j (KInt dst a, y) ->
            int_at (with_values v s) j dst t z).
  { intros j v y [_ Hx] Hat. exists a, y, x. split_and!; [exact Hat|done|by apply Hx]. }
  destruct t as [signed bits| | | | | | | | | | | | | | | | | | | | | | | ]; try done;
    cbn [coercible int_width width_ok] in *.
  - unfold coerce_int_to_int. cbn [try_resolve_comptime_value]. run.
    cbn [as_interned]. run. eapply runs_lift; [by apply fits_ok|]. rewrite Hz.
    destruct (in_range (Some (signed, bits)) z) eqn:Hfit; cbn [negb].
    + run. eapply runs_intern; [exact Hr|done|done|]. intros j v y Hr' Hx Hat. run. unfold report. run.
      exists j, v. split_and!; eauto.
    + pose proof (AnyintText.fmt_spec a Hwf) as (txt & Htxt & _). run. eapply runs_lift; [exact Htxt|]. run.
      destruct (display_int s dst _ x Hdst eq_refl) as [d Hd]. eapply runs_display; [exact Hd|]. run. unfold report. run.
      split; [done|eauto].
  - unfold coerce_int_to_size. cbn [as_interned]. run. eapply runs_intern; [exact Hr|done|done|].
    intros j v y Hr' Hx Hat. run. unfold report. run. exists j, v. split_and!; eauto.
  - unfold coerce_int_to_size. cbn [as_interned]. run. eapply runs_intern; [exact Hr|done|done|].
    intros j v y Hr' Hx Hat. run. unfold report. run. exists j, v. split_and!; eauto.
Qed.

(** ** Two operands brought to one type *)

(** The common type of two integer operands: they have the same, or one is an
    [anyint] that the type of the other admits and can hold. *)
Definition common_type (admits : Ty -> bool) (tl : Ty) (x : Z) (tr : Ty) (y : Z) : option Ty :=
  if bool_decide (tl = tr) then Some tl
  else if bool_decide (tl = TAnyint) then (if admits tr && coercible x tr then Some tr else None)
  else if bool_decide (tr = TAnyint) then (if admits tl && coercible y tl then Some tl else None)
  else None.

Section Unify.
Context (admits : Ty -> bool) (admits_ok : forall t, admits t = true -> is_int_or_size t = true).

Lemma unify_step b l r lt rt tl tr x x' inc span s Q :
  at_ (store_of s) lt (KType tl, x) -> at_ (store_of s) rt (KType tr, x') ->
  runs (if bool_decide (tl = tr) then ok (lt, l, r)
        else if bool_decide (tl = TAnyint) then
          (if admits tr then l' ←? coerce b rt l span; ok (rt, l', r) else inc)
        else if bool_decide (tr = TAnyint) then
          (if admits tl then r' ←? coerce b lt r span; ok (lt, l, r') else inc)
        else inc) s Q ->
  runs (unify admits b l r lt rt inc span) s Q.
Proof.
  intros Hl Hr HQ. unfold unify. run. rewrite type_key_eqb.
  destruct (bool_decide (tl = tr)) eqn:E1; [done|]. apply bool_decide_eq_false in E1.
  destruct (bool_decide (tl = TAnyint)) eqn:E2; [apply bool_decide_eq_true in E2 as ->; by destruct tr|].
  apply bool_decide_eq_false in E2. destruct (bool_decide (tr = TAnyint)) eqn:E3.
  - apply bool_decide_eq_true in E3 as ->. by destruct tl.
  - apply bool_decide_eq_false in E3. by destruct tl, tr.
Qed.

(** What unifying integer constants gives. *)
Definition unified (n : nat) b s (lt : Z) (tl : Ty) (x rt : Z) (tr : Ty) (y : Z) (out : Result (Z * InstructionRef * InstructionRef)) s' : Prop :=
  match common_type admits tl x tr y with
  | Some t =>
      exists ty i j v, out = Ok (ty, Interned i, Interned j) /\ s' = with_values v s /\ ready n b s' /\
        extends (store_of s) v /\ int_at s' i ty t x /\ int_at s' j ty t y /\ ty = (if bool_decide (tl = t) then lt else rt)
  | None => failed_with_error s out s'
  end.

Lemma runs_unify n b s (l lt : Z) tl x (r rt : Z) tr y inc span :
  ready (S n) b s -> int_at s l lt tl x -> int_at s r rt tr y ->
  width_ok (int_width (ptr_width s) tl) -> width_ok (int_width (ptr_width s) tr) ->
  runs inc s (failed_with_error s) ->
  runs (unify admits b (Interned l) (Interned r) lt rt inc span) s (unified n b s lt tl x rt tr y).
Proof.
  intros Hr Hl Hrr Hwl Hwr Hinc. destruct (int_at_type _ _ _ _ _ Hl) as [xl Htl], (int_at_type _ _ _ _ _ Hrr) as [xr Htr].
  eapply unify_step; [exact Htl|exact Htr|]. unfold unified, common_type.
  destruct (bool_decide (tl = tr)) eqn:E1.
  { apply bool_decide_eq_true in E1 as ->. assert (lt = rt) as -> by (by eapply type_index_inj).
    run. exists rt, l, r, (store_of s). rewrite with_values_id, bool_decide_true by done.
    split_and!; try done. by eapply ready_le; [|exact Hr]; lia. }
  destruct (bool_decide (tl = TAnyint)) eqn:E2.
  { apply bool_decide_eq_true in E2 as ->. destruct (admits tr) eqn:Ha; cbn [andb]; [|done].
    apply runs_try_bind. eapply runs_mono; [|eapply runs_coerce_const; [exact Hr|exact Hl|exact Htr|by apply admits_ok|done]].
    intros out s'. cbn beta. destruct (coercible x tr); [|intros [-> ?]; by split].
    intros (j & v & -> & -> & Hr' & Hx & Hj). run. exists rt, j, r, v.
    split_and!; try done; [by apply int_at_values|]. by rewrite bool_decide_false by (by apply bool_decide_eq_false in E1). }
  destruct (bool_decide (tr = TAnyint)) eqn:E3; [|done].
  apply bool_decide_eq_true in E3 as ->. destruct (admits tl) eqn:Ha; cbn [andb]; [|done].
  apply runs_try_bind. eapply runs_mono; [|eapply runs_coerce_const; [exact Hr|exact Hrr|exact Htl|by apply admits_ok|done]].
  intros out s'. cbn beta. destruct (coercible y tl); [|intros [-> ?]; by split].
  intros (j & v & -> & -> & Hr' & Hx & Hj). run. exists lt, l, j, v.
  split_and!; try done; [by apply int_at_values|]. by rewrite bool_decide_true.
Qed.

End Unify.

Lemma runs_incompatible {B} n b s (l lt : Z) tl x (r rt : Z) tr y before between after_ span :
  ready n b s -> int_at s l lt tl x -> int_at s r rt tr y -> is_integer tl = true -> is_integer tr = true ->
  runs (incompatible_types before between after_ lt rt span : M (Result B)) s (failed_with_error s).
Proof.
  intros Hr Hl Hrr Hil Hir. destruct (int_at_type _ _ _ _ _ Hl) as [xl Htl], (int_at_type _ _ _ _ _ Hrr) as [xr Htr].
  destruct (display_int _ _ _ _ Htl Hil) as [dl Hdl], (display_int _ _ _ _ Htr Hir) as [dr Hdr].
  unfold incompatible_types. run. eapply runs_display; [exact Hdl|]. run. eapply runs_display; [exact Hdr|]. run.
  split; [done|eauto].
Qed.

(** ** Panics *)

Definition panics {B} (m : M B) s : Prop := m s = Fault Panic.

Lemma panics_bind {B C} (m : M B) (k : B -> M C) s :
  runs m s (fun a s' => panics (k a) s') -> panics (m ≫= k) s.
Proof. intros (a & s' & Hm & Hk). unfold panics, mbind, M_bind. rewrite Hm. exact Hk. Qed.

Lemma panics_first {B C} (m : M B) (k : B -> M C) s : panics m s -> panics (m ≫= k) s.
Proof. intros Hm. unfold panics, mbind, M_bind. by rewrite Hm. Qed.

Lemma panics_try {B C} (m : M (Result B)) (k : B -> M (Result C)) s :
  runs m s (fun a s' => match a with Ok a => panics (k a) s' | Err _ => False end) -> panics (try_bind k m) s.
Proof.
  intros (a & s' & Hm & Hk). unfold try_bind. apply panics_bind. exists a, s'. split; [done|]. by destruct a.
Qed.

(** ** Arithmetic *)

Definition is_arith (op : Vuir.Opcode) : bool :=
  match op with
  | Vuir.Add _ _ _ | Vuir.AddSat _ _ _ | Vuir.Sub _ _ _ | Vuir.SubSat _ _ _ | Vuir.Mul _ _ _ | Vuir.MulSat _ _ _
  | Vuir.Div _ _ _ | Vuir.Rem _ _ _ => true
  | _ => false
  end.

(** The value of an operation; [None]: there is none. *)
Definition arith_value (w : option (bool * Z)) (op : Vuir.Opcode) (x y : Z) : option Z :=
  match op with
  | Vuir.Add _ _ _ => Some (wrap w (x + y))
  | Vuir.AddSat _ _ _ => Some (x + y)
  | Vuir.Sub _ _ _ => Some (wrap w (x - y))
  | Vuir.SubSat _ _ _ => Some (x - y)
  | Vuir.Mul _ _ _ => Some (wrap w (x * y))
  | Vuir.MulSat _ _ _ => Some (x * y)
  | Vuir.Div _ _ _ => if y =? 0 then None else Some (Z.quot x y)
  | Vuir.Rem _ _ _ => if y =? 0 then None else Some (Z.rem x y)
  | _ => None
  end.

Lemma runs_arith_int s ty t x op a c :
  at_ (store_of s) ty (KType t, x) -> width_ok (int_width (ptr_width s) t) -> Anyint.wf a -> Anyint.wf c ->
  is_arith op = true ->
  match arith_value (int_width (ptr_width s) t) op (Anyint.to_Z a) (Anyint.to_Z c) with
  | Some z => runs (arith_int ty op a c) s (fun v s' => s' = s /\ repr_Z v z)
  | None => panics (arith_int ty op a c) s
  end.
Proof.
  intros Hty Hw Ha Hc Hop.
  destruct (AnyintArith.add_repr a c Ha Hc) as [Hadd Hadd'], (AnyintArith.sub_repr a c Ha Hc) as [Hsub Hsub'].
  destruct (AnyintArith.mul_repr a c Ha Hc) as (m & Hm & Hmw & Hmv).
  assert (Hdiv : forall f g, (forall a d, Anyint.wf a -> Anyint.wf d -> Anyint.to_Z d <> 0 ->
              AnyintArith.computes (f a d) (g (Anyint.to_Z a) (Anyint.to_Z d))) ->
            (Anyint.to_Z c = 0 -> f a c = panic) ->
            match (if Anyint.to_Z c =? 0 then None else Some (g (Anyint.to_Z a) (Anyint.to_Z c))) with
            | Some z => runs (lift (f a c)) s (fun v s' => s' = s /\ repr_Z v z)
            | None => panics (lift (f a c)) s
            end).
  { intros f g Hf Hp. destruct (Z.eqb_spec (Anyint.to_Z c) 0) as [Hz|Hz].
    - unfold panics, lift. by rewrite (Hp Hz).
    - destruct (Hf a c Ha Hc Hz) as (q & Hq & Hr). by eapply runs_lift. }
  destruct op; try done; cbn [arith_value arith_int].
  - eapply runs_wrap; [exact Hty|done|done|]. rewrite Hadd'. auto.
  - run. by split.
  - eapply runs_wrap; [exact Hty|done|done|]. rewrite Hsub'. auto.
  - run. by split.
  - run. eapply runs_lift; [exact Hm|]. eapply runs_wrap; [exact Hty|done|done|]. rewrite Hmv. auto.
  - eapply runs_lift; [exact Hm|]. by split.
  - apply Hdiv; [apply AnyintDiv.div_repr|]. intros. by apply AnyintDiv.div_zero_panics.
  - apply Hdiv; [apply AnyintDiv.rem_repr|]. intros. by apply AnyintDiv.div_zero_panics.
Qed.

(** ** Bits *)

(** What an operation gives: a value, an error that is reported, a panic. *)
Inductive outcome : Set := Gives (z : Z) | Reports | Panics.

Definition shift_of (y : Z) : Z := if y <? 2^64 then y else 2^64 - 1.

(** A shift by [y] of a value of type [t]. *)
Definition shift_value (t : Ty) (is_wrap : bool) (f : Z -> Z) (y : Z) : outcome :=
  if y <? 0 then Reports
  else
    match t with
    | TAnyint => Gives (f (shift_of y))
    | Int _ bits => if (bits <=? shift_of y) && negb is_wrap then Reports else Gives (f (shift_of y))
    | _ => Panics
    end.

Definition bits_value (t : Ty) (op : Vuir.Opcode) (x y : Z) : outcome :=
  match op with
  | Vuir.BitAnd _ _ _ => Gives (Z.land x y)
  | Vuir.BitOr _ _ _ => Gives (Z.lor x y)
  | Vuir.BitXor _ _ _ => Gives (Z.lxor x y)
  | Vuir.Shl _ _ _ | Vuir.ShlSat _ _ _ => shift_value t false (fun k => x * 2^k) y
  | Vuir.ShlWrap _ _ _ => shift_value t true (fun k => x * 2^k) y
  | Vuir.Shr _ _ _ | Vuir.ShrSat _ _ _ => shift_value t false (fun k => Z.shiftr x k) y
  | Vuir.ShrWrap _ _ _ => shift_value t true (fun k => Z.shiftr x k) y
  | _ => Panics
  end.

Definition is_bits_op (op : Vuir.Opcode) : bool :=
  match op with
  | Vuir.BitAnd _ _ _ | Vuir.BitOr _ _ _ | Vuir.BitXor _ _ _ | Vuir.Shl _ _ _ | Vuir.ShlSat _ _ _
  | Vuir.ShlWrap _ _ _ | Vuir.Shr _ _ _ | Vuir.ShrSat _ _ _ | Vuir.ShrWrap _ _ _ => true
  | _ => false
  end.

(** [m] does what [o] says, with [P] of the value. *)
Definition behaves {B} (m : M (Result B)) s (o : outcome) (P : B -> Sema -> Z -> Prop) : Prop :=
  match o with
  | Gives z => runs m s (fun out s' => exists v, out = Ok v /\ P v s' z)
  | Reports => runs m s (failed_with_error s)
  | Panics => panics m s
  end.

Lemma shift_of_u64 a : Anyint.wf a -> 0 <= Anyint.to_Z a ->
  default (2^64 - 1) (Anyint.to_u64 a) = shift_of (Anyint.to_Z a).
Proof.
  intros Ha Hn. rewrite (AnyintBits.to_u64_spec a Ha), (proj2 (Z.leb_le _ _)) by done. unfold shift_of. cbn [andb].
  by destruct (_ <? _).
Qed.

Lemma shift_ok s ty t x is_wrap a span (f : Z -> Z) (g : Z -> res Anyint.t) :
  at_ (store_of s) ty (KType t, x) -> is_integer t = true -> Anyint.wf a ->
  (forall n, 0 <= n -> AnyintArith.computes (g n) (f n)) ->
  behaves (shift ←? shift_amount ty is_wrap a span; v ← lift (g shift); ok v) s
    (shift_value t is_wrap f (Anyint.to_Z a)) (fun v s' z => s' = s /\ repr_Z v z).
Proof.
  intros Hty Hi Ha Hg. unfold behaves, shift_value.
  assert (Hneg : Anyint.is_negative a = (Anyint.to_Z a <? 0)) by (by apply AnyintDiv.negative_ltb).
  destruct (Z.ltb_spec (Anyint.to_Z a) 0) as [Hlt|Hge].
  { unfold shift_amount. rewrite Hneg. run. split; [done|eauto]. }
  pose proof (shift_of_u64 a Ha Hge) as Hsh.
  assert (Hpos : 0 <= shift_of (Anyint.to_Z a)) by (unfold shift_of; destruct (_ <? _); lia).
  assert (Hval : forall bits, match t with Int _ bits' => bits = bits' | _ => False end ->
            type_bit_size (store_of s) ty = Ret bits).
  { intros bits Hb. unfold type_bit_size, type_at. destruct (at_kv _ _ _ Hty) as (-> & _ & _). cbn [mbind res_bind].
    destruct t; try done. by subst. }
  destruct (Hg _ Hpos) as (v & Hv & Hr).
  destruct t as [signed bits| | | | | | | | | | | | | | | | | | | | | | | ]; try done; unfold shift_amount.
  - destruct ((bits <=? shift_of (Anyint.to_Z a)) && negb is_wrap) eqn:Hbig;
      (rewrite Hneg, Hsh; run; eapply runs_query; [by apply Hval|]; run; rewrite Hbig; run).
    + split; [done|eauto].
    + eapply runs_lift; [exact Hv|]. run. by exists v.
  - rewrite Hneg, Hsh. run. eapply runs_lift; [exact Hv|]. run. by exists v.
  - apply panics_first. rewrite Hneg, Hsh. apply panics_bind. run. apply panics_first.
    unfold panics, query, type_bit_size, type_at. destruct (at_kv _ _ _ Hty) as (-> & _ & _). done.
  - apply panics_first. rewrite Hneg, Hsh. apply panics_bind. run. apply panics_first.
    unfold panics, query, type_bit_size, type_at. destruct (at_kv _ _ _ Hty) as (-> & _ & _). done.
Qed.

Lemma bitwise_int_ok s ty t x op a c span :
  at_ (store_of s) ty (KType t, x) -> is_integer t = true -> Anyint.wf a -> Anyint.wf c -> is_bits_op op = true ->
  behaves (bitwise_int ty op a c span) s (bits_value t op (Anyint.to_Z a) (Anyint.to_Z c))
    (fun v s' z => s' = s /\ repr_Z v z).
Proof.
  intros Hty Hi Ha Hc Hop.
  assert (Hop2 : forall v z, repr_Z v z -> behaves (ok v) s (Gives z) (fun v s' z => s' = s /\ repr_Z v z)).
  { intros v z Hv. unfold behaves. run. by exists v. }
  destruct op; try done; cbn [bitwise_int bits_value];
    try (eapply shift_ok; [exact Hty|done|done|]; intros n Hn;
         first [by apply AnyintDiv.abs_shl_repr|by apply AnyintBits.shr_repr]).
  - apply Hop2. exact (AnyintBits.bitwise_repr Z.land a c Ha Hc).
  - apply Hop2. exact (AnyintBits.bitwise_repr Z.lor a c Ha Hc).
  - apply Hop2. exact (AnyintBits.bitwise_repr Z.lxor a c Ha Hc).
Qed.

(** The operators whose result has the range of the operands. *)
Definition keeps_range (op : Vuir.Opcode) : bool :=
  match op with
  | Vuir.Add _ _ _ | Vuir.Sub _ _ _ | Vuir.Mul _ _ _ | Vuir.Rem _ _ _
  | Vuir.BitAnd _ _ _ | Vuir.BitOr _ _ _ | Vuir.BitXor _ _ _
  | Vuir.Shr _ _ _ | Vuir.ShrSat _ _ _ | Vuir.ShrWrap _ _ _ => true
  | _ => false
  end.

Lemma bitop_in_range w op `{!AnyintBits.BitOp op} x y :
  width_ok w -> in_range w x = true -> in_range w y = true -> in_range w (op x y) = true.
Proof.
  rewrite !in_range_spec. destruct w as [[[] n]|]; simpl; intros Hn Hx Hy; [| |done].
  - apply (AnyintBits.bitop_signed_range op); [lia|done|done].
  - apply (AnyintBits.bitop_bound op); [lia|done|done].
Qed.

Lemma shiftr_in_range w x k : 0 <= k -> width_ok w -> in_range w x = true -> in_range w (Z.shiftr x k) = true.
Proof.
  intros Hk. rewrite !in_range_spec, Z.shiftr_div_pow2 by done. pose proof (Z.pow_pos_nonneg 2 k).
  destruct w as [[[] n]|]; simpl; intros Hn Hx; [| |done].
  - pose proof (Z.pow_pos_nonneg 2 (n - 1)). split; [apply Z.div_le_lower_bound; nia|apply Z.div_lt_upper_bound; nia].
  - split; [apply Z.div_pos; lia|apply Z.div_lt_upper_bound; nia].
Qed.

Lemma rem_in_range w x y : y <> 0 -> width_ok w -> in_range w x = true -> in_range w (Z.rem x y) = true.
Proof.
  intros Hy. rewrite !in_range_spec. pose proof (Z.rem_bound_abs x y Hy). pose proof (Z.rem_sign_mul x y Hy).
  assert (Z.abs (Z.rem x y) <= Z.abs x).
  { rewrite <- Z.rem_abs by done. apply Z.rem_le; lia. }
  destruct w as [[[] n]|]; simpl; intros Hn Hx; [| |done]; nia.
Qed.

Lemma keeps_range_arith w op x y z :
  keeps_range op = true -> width_ok w -> in_range w x = true -> arith_value w op x y = Some z -> in_range w z = true.
Proof.
  intros Hk Hw Hx. destruct op; try done; cbn [arith_value]; try (intros [= <-]; by apply wrap_in_range).
  destruct (Z.eqb_spec y 0); [done|]. intros [= <-]. by apply rem_in_range.
Qed.

Lemma keeps_range_bits ptr t op x y z :
  keeps_range op = true -> is_integer t = true -> width_ok (int_width ptr t) -> in_range (int_width ptr t) x = true ->
  in_range (int_width ptr t) y = true -> bits_value t op x y = Gives z -> in_range (int_width ptr t) z = true.
Proof.
  intros Hk Ht Hw Hx Hy.
  assert (Hshift : forall is_wrap, shift_value t is_wrap (fun k => Z.shiftr x k) y = Gives z ->
            in_range (int_width ptr t) z = true).
  { intros is_wrap. unfold shift_value. destruct (Z.ltb_spec y 0) as [|Hpos]; [done|].
    assert (0 <= shift_of y) as Hk0 by (unfold shift_of; destruct (y <? 2^64); lia).
    assert (Hres : in_range (int_width ptr t) (Z.shiftr x (shift_of y)) = true) by (by apply shiftr_in_range).
    destruct t; try done. destruct (_ && _); [done|]. intros Hz. injection Hz as <-. exact Hres. }
  destruct op; try done; cbn [bits_value]; eauto; intros [= <-].
  - by apply (bitop_in_range _ Z.land).
  - by apply (bitop_in_range _ Z.lor).
  - by apply (bitop_in_range _ Z.lxor).
Qed.

(** ** Comparisons *)

(** What [cmp_comptime] computes; [Eq] and [Neq] are written [>=]. *)
Definition cmp_value (op : Vuir.Opcode) (x y : Z) : option bool :=
  match op with
  | Vuir.Lt _ _ _ => Some (x <? y)
  | Vuir.Lte _ _ _ => Some (x <=? y)
  | Vuir.Gt _ _ _ => Some (y <? x)
  | Vuir.Gte _ _ _ | Vuir.Eq _ _ _ | Vuir.Neq _ _ _ => Some (y <=? x)
  | _ => None
  end.

Lemma anyint_order a c : Anyint.wf a -> Anyint.wf c ->
  anyint_lt a c = (Anyint.to_Z a <? Anyint.to_Z c) /\ anyint_le a c = (Anyint.to_Z a <=? Anyint.to_Z c).
Proof.
  intros Ha Hc. unfold anyint_lt, anyint_le. rewrite (AnyintArith.cmp_repr a c Ha Hc). unfold Z.ltb, Z.leb.
  by destruct (_ ?= _).
Qed.

Lemma cmp_int_ok s op a c v :
  Anyint.wf a -> Anyint.wf c -> cmp_value op (Anyint.to_Z a) (Anyint.to_Z c) = Some v ->
  runs (cmp_comptime anyint_lt anyint_le op a c) s (fun v' s' => v' = v /\ s' = s).
Proof.
  intros Ha Hc. destruct (anyint_order a c Ha Hc) as [H1 H2], (anyint_order c a Hc Ha) as [H3 H4].
  destruct op; cbn [cmp_value cmp_comptime]; try done; intros [= <-]; run; rewrite ?H1, ?H2, ?H3, ?H4; done.
Qed.

End Ints.
End SemaIntSpec.
