(* ===== verification/SemaExample.v ===== *)
(** * A concrete setting of the semantic analysis

    Implementations of the interfaces, the laws they obey, and states with a few
    constants on which the properties of the analysis are applied: one hash
    bucket, hash tables as lists, the arena of the program with 80-byte slots, the
    other workers idle. *)

From S2P Require Import Prelude Words Bytes Span Token Diagnostic Ast HashIndex VirtDynArray ShardedMap ShardedSpec.
From S2P Require Import Anyint AnyintArith AnyintSpec.
From S2P Require Import Value ValueStore ValueSpec StoreLogic ValueLayout Vuir Vtir VtirSpec.
From S2P Require Import SemaState SemaAccess SemaFold SemaLogic SemaIntSpec.
From stdpp Require Import gmap.

#[local] Open Scope Z_scope.
#[local] Open Scope sema_scope.

Module SemaExample.
Import Value ValueStore ValueSpec StoreLogic IrId Vtir VtirSpec Sema SemaLogic SemaIntSpec.

#[export] Instance one_bucket : FxHasher.
Proof. refine {| fx_hash := fun _ => 0 |}. lia. Defined.
#[export] Instance kv_size : VirtDynArray.SizeOf (Key * Value) := 80.

#[export] Instance setting : Setting := {|
  st_hasher := one_bucket;
  st_table := list_table;
  st_arena := VirtDynArray.Arena (Key * Value);
  st_ops := virt_arena_ops;
  st_insert := insert_scan;
  query_fuel := 8;
  debug_index := fun _ => [];
  debug_key := fun _ => [];
  debug_key_value := fun _ => [];
  display_f128 := fun _ => [];
|}.

#[export] Instance setting_laws : @SettingLaws setting.
Proof.
  refine {| laws_table := list_table_laws; laws_arena := virt_arena_laws; laws_insert := insert_scan_laws |}.
  cbn. lia.
Defined.

#[export] Instance idle : Workers := {| yield_now := mret tt |}.
#[export] Instance no_type_info : TypeInfo := fun _ => fail AnalysisFailed.

(** ** States *)

Definition block : Block := mk_block 0 None [] None false false [] [] None.
Definition namespace : Namespace := {| ns_parent := None; ns_decls := ∅; owner_type := 0 |}.
Definition known : KnownModules :=
  {| root_module := 0; builtin_prelude_module := 1; std_module := 2; builtin_module := 3; std_rt_module := 4 |}.
Definition unit_of (v : Store) : Cu :=
  mk_cu v {| ValueLayout.ptr_width_in_bits := 64 |} [] [namespace] ∅ known [] ∅ ∅ [] [] ∅ [].

Definition some_ns : NamespaceType := {| ns_inst := {| Value.module := 0; Value.inst := 0 |}; captures := [] |}.

(** An analysis with one block, which has emitted [l]. *)
Definition state_of (v : Store) (l : list Vtir.Opcode) : Sema :=
  set_blocks [block] (set_instructions l (new (unit_of v) [] 0 0 None)).

Lemma state_ready n v l :
  store n v -> ordered (ValueStore.common v) l -> Z.of_nat (length l) <= 0xfffffffe -> ready n 0 (state_of v l).
Proof. intros. by constructor; [| | |simpl; lia]. Qed.

(** What a computation gives. *)
Definition after {A} (m : M A) (s : Sema) : Sema := match m s with Ret (_, s1) => s1 | Fault _ => s end.
Definition result {A} (m : M A) (s : Sema) : option A := match m s with Ret (a, _) => Some a | Fault _ => None end.

Lemma result_run {A} (m : M A) (s : Sema) a : result m s = Some a -> m s = Ret (a, after m s).
Proof. unfold result, after. by destruct (m s) as [[? ?]|]; intros [= ->]. Qed.

(** A store and what it can be extended with. *)
Lemma fresh_store n : Z.of_nat n <= 8166 -> exists v : Store, store n v.
Proof.
  intros Hn. destruct (new_store (A := VirtDynArray.Arena (Key * Value)) 1 (VirtDynArray.mk 8192 0 0 0 [] ∅) n)
    as (v & _ & Hs); [by exists 0|vm_compute; reflexivity|vm_compute; discriminate|lia|by exists v].
Qed.

Lemma add_type n (v : Store) t :
  store (S n) v -> is_trivial (KType t) = true ->
  exists i v' x, store n v' /\ extends v v' /\ at_ v' i (KType t, x).
Proof.
  intros Hs Ht. destruct (intern_exact n v (KType t) Hs Ht eq_refl) as (i & v' & x & _ & Hs' & Hx & Hat). eauto 10.
Qed.

Lemma add_int n (v : Store) ty t x z :
  store (S n) v -> at_ v ty (KType t, x) -> - 2^63 <= z < 2^63 ->
  exists i v', store n v' /\ extends v v' /\ forall l, int_at (state_of v' l) i ty t z.
Proof.
  intros Hs Hty Hz.
  destruct (intern_exact n v (KInt ty (Anyint.from_signed z)) Hs eq_refl eq_refl) as (i & v' & y & _ & Hs' & Hx & Hat).
  exists i, v'. split_and!; [done|done|]. intros l. exists (Anyint.from_signed z), y, x. split_and!; [exact Hat| |by apply Hx].
  apply AnyintArith.from_signed_repr. lia.
Qed.

Lemma int_extends v v' l l' i ty t z :
  extends v v' -> int_at (state_of v l) i ty t z -> int_at (state_of v' l') i ty t z.
Proof.
  intros [_ Hx] (a & x & y & Ha & Hr & Hy). exists a, x, y. split_and!; [by apply Hx|done|by apply Hx].
Qed.

(** Two constants [x] and [y] of type [t]; and [x] of type [t] with an [anyint] [y]. *)
Lemma two_constants t x y :
  is_trivial (KType t) = true -> - 2^63 <= x < 2^63 -> - 2^63 <= y < 2^63 ->
  exists s l r ty, ready 100 0 s /\ int_at s l ty t x /\ int_at s r ty t y /\ instructions s = [] /\
    ValueLayout.ptr_width_in_bits (target (cu s)) = 64.
Proof.
  intros Ht Hx Hy. destruct (fresh_store 103) as [v0 H0]; [lia|].
  destruct (add_type 102 v0 t H0 Ht) as (ty & v1 & e & H1 & _ & Hty).
  destruct (add_int 101 v1 ty t e x H1 Hty Hx) as (l & v2 & H2 & X2 & Hl).
  destruct (add_int 100 v2 ty t e y H2 ltac:(by apply X2) Hy) as (r & v3 & H3 & X3 & Hr).
  exists (state_of v3 []), l, r, ty. split_and!; [|exact (int_extends _ _ [] [] _ _ _ _ X3 (Hl []))|apply Hr|done|done].
  by apply state_ready; [|intros ?; rewrite lookup_nil|simpl].
Qed.

(** A type with a value of its own, and [z] more constants after it. *)
Lemma fresh_type n t x : Z.of_nat (S n) <= 8166 -> exact_key (KType t) = true ->
  exists (v : Store) ty, store n v /\ at_ v ty (KType t, x).
Proof.
  intros Hn He. destruct (fresh_store (S n) Hn) as [v0 H0].
  destruct (intern_value n v0 (KType t) x H0 He) as (ty & v & _ & Hs & Hat). by exists v, ty.
Qed.

(** The sum of two parameters. *)
Lemma type_of_computes_witness : exists v : Store,
  Vtir.type_of 3 v [Vtir.FnArg [] 7; Vtir.Add (Instruction 0) (Instruction 0)] (Instruction 1) = Ret 7.
Proof.
  destruct (fresh_store 0) as [v _]; [lia|]. exists v.
  destruct (type_of_computes v [Vtir.FnArg [] 7; Vtir.Add (Instruction 0) (Instruction 0)] (Instruction 1) 7)
    as [Hcompute _]; [|apply Hcompute].
  - intros [|[|k]] op r Hop Hs; [| |discriminate Hop]; injection Hop as <-; [discriminate Hs|].
    injection Hs as <-. simpl. unfold to_usize, NonMaxU32.as_usize. lia.
  - eapply type_same; [reflexivity|reflexivity|]. eapply type_is; reflexivity.
Defined.

End SemaExample.
