(* ===== verification/SemaDeclSpec.v ===== *)
(** * Layouts and tags of declared types

    What the declarations of types compute: the positions of the fields of packed
    structs, the width and the values of enum tags, and the offsets that the
    run-time type information gives for unions.

    [SemaCallSpec] has the arguments of calls. *)

From S2P Require Import Prelude Words Bytes Span Token Diagnostic Ast HashIndex ShardedMap Anyint.
From S2P Require Import Value ValueStore ValueLayout Vuir Vtir SemaState SemaAccess SemaFold SemaInit.
From S2P Require Import SemaDecl SemaCall SemaKeep VirtDynArray SemaExample SemaTypeInfo.
From S2P Require Import ValueSpec.
From stdpp Require Import gmap.

#[local] Open Scope Z_scope.
#[local] Open Scope sema_scope.

Module SemaCallSpec.
Import Value ValueStore IrId Sema SemaAccess SemaFold SemaInit SemaDecl SemaCall SemaKeep.

Section Spec.
Context `{ST : Setting} `{WK : !Workers} `{TI : !TypeInfo} `{PA : !Paths} `{MO : !Modules}.

(** ** Inversion of runs *)

Lemma try_bind_run {A B} (m : M (Result A)) (k : A -> M (Result B)) s b s' :
  try_bind k m s = Ret (Ok b, s') -> exists a s1, m s = Ret (Ok a, s1) /\ k a s1 = Ret (Ok b, s').
Proof. intros ([a|e] & s1 & Hm & H)%bind_inv; [by exists a, s1|done]. Qed.
Lemma fail_at_run {A} msg span s (a : A) s' : fail_at msg span s <> Ret (Ok a, s').
Proof. done. Qed.


(** ** Parameters *)

(** The parameters that arguments are for. *)
Definition targets (args : list InputArg) : list nat := omap fst args.
(** What is true of an argument at position [i] and the parameter it is for. *)
Definition matched (callee : option Static) (var_args : bool) (params : nat) (i : nat) (a : InputArg) : Prop :=
  match a with
  | (Some idx, arg) => (idx < params)%nat /\ param_of_arg callee params i arg = Ret (Some idx)
  | (None, arg) => var_args = true /\ Vuir.arg_name arg = None /\ (params <= i)%nat
  end.

Lemma match_args_spec callee var_args i args valid s inputs valid' s' :
  match_args callee var_args i args valid s = Ret (Ok (inputs, valid'), s') ->
  s' = s /\ map snd inputs = args /\ length valid' = length valid /\
  (forall k a, inputs !! k = Some a -> matched callee var_args (length valid) (i + k) a) /\
  NoDup (targets inputs) /\
  (forall idx, valid' !! idx = Some true <-> valid !! idx = Some true \/ idx ∈ targets inputs) /\
  (forall idx, idx ∈ targets inputs -> valid !! idx = Some false).
Proof.
  revert i valid s inputs. induction args as [|arg args IH]; intros i valid s inputs H; simpl in H.
  { injection H as <- <- <-. split_and!; try done; [constructor| |by intros idx ?%elem_of_nil].
    intros idx. split; [by left|by intros [?|?%elem_of_nil]]. }
  assert (exists idx valid1 rest, inputs = (idx, arg) :: rest /\
    match_args callee var_args (S i) args valid1 s = Ret (Ok (rest, valid'), s') /\
    matched callee var_args (length valid) i (idx, arg) /\
    match idx with
    | Some idx => valid !! idx = Some false /\ valid1 = <[idx := true]> valid
    | None => valid1 = valid
    end) as (idx & valid1 & rest & -> & H1 & Hm & Hv).
  { run_inv H. apply try_bind_run in H as ([idx valid1] & s1 & H1 & H).
    apply try_bind_run in H as ([rest valid2] & s2 & H2 & H). injection H as <- <- <-.
    exists idx, valid1, rest. destruct a as [idx'|].
    - run_inv H1. apply get_idx_inv in Ha0. destruct a; [by run_inv H1|].
      run_inv H1. apply set_idx_inv in Ha1 as [-> Hlt]. injection H1 as <- <- <-. by split_and!.
    - destruct (Vuir.arg_name arg) eqn:Hn; [done|]. destruct var_args; [|done]. injection H1 as <- <- <-.
      split_and!; try done. simpl. split_and!; try done.
      unfold param_of_arg in Ha. rewrite Hn in Ha. destruct (i <? length valid)%nat eqn:E; [done|].
      by apply Nat.ltb_ge in E. }
  clear H. destruct (IH _ _ _ _ H1) as (-> & Ht & Hl & Hk & Hd & Hu & Hf). clear IH H1.
  assert (length valid1 = length valid) as Hl1 by (destruct idx; [destruct Hv as [_ ->]; apply length_insert|by subst]).
  split_and!.
  - done.
  - simpl. by f_equal.
  - congruence.
  - intros [|k] a Ha; [injection Ha as <-; by rewrite Nat.add_0_r|].
    rewrite <- Hl1. replace (i + S k)%nat with (S i + k)%nat by lia. by apply Hk.
  - destruct idx as [idx|]; [|done]. destruct Hv as [Hf0 ->]. simpl. constructor; [|done].
    intros Hin. specialize (Hf idx Hin). rewrite list_lookup_insert_eq in Hf by (by eapply lookup_lt_Some). done.
  - intros j. rewrite Hu. destruct idx as [idx|]; simpl; [|by subst].
    destruct Hv as [Hf0 ->]. rewrite elem_of_cons. destruct (decide (j = idx)) as [->|Hne].
    + rewrite list_lookup_insert_eq by (by eapply lookup_lt_Some). split; intros _; [right; by left|by left].
    + rewrite list_lookup_insert_ne by done. tauto.
  - intros j Hj. destruct idx as [idx|]; simpl in Hj; [|subst; by apply Hf].
    destruct Hv as [Hf0 ->]. apply elem_of_cons in Hj as [->|Hj]; [done|].
    specialize (Hf j Hj). destruct (decide (j = idx)) as [->|Hne]; [done|]. by rewrite list_lookup_insert_ne in Hf.
Qed.

(** Nothing is missing when nothing is reported. *)
Lemma report_missing_none callee idx valid span s s' :
  report_missing callee idx valid span s = Ret (false, s') -> s' = s /\ Forall (fun b => b = true) valid.
Proof.
  revert idx s. induction valid as [|[|] valid IH]; intros idx s H; simpl in H; [by injection H as <-| |].
  - apply IH in H as [-> ?]. split; [done|by constructor].
  - run_inv H. repeat (apply bind_inv in H as (? & ? & _ & H)). done.
Qed.

(** C10: A call whose arguments are accepted gives every parameter of the callee
    exactly one argument: the arguments are taken in the order they are written, a
    named one for the parameter of that name and the others for the parameter at
    their position, and what is left over is passed on only to a callee with
    variable arguments.  Nothing else changes and nothing is reported. *)
Theorem input_args_complete callee t args span s inputs s' :
  input_args callee t args span s = Ret (Ok inputs, s') ->
  s' = s /\ map snd inputs = args /\
  targets inputs ≡ₚ seq 0 (length (Value.params t)) /\
  (forall k a, inputs !! k = Some a -> matched callee (Value.var_args t) (length (Value.params t)) k a).
Proof.
  intros H. unfold input_args in H. apply try_bind_run in H as ([inputs0 valid] & s1 & H1 & H).
  apply bind_inv in H as (missing & s2 & H2 & H). destruct missing; [done|]. injection H as <- <-.
  apply match_args_spec in H1 as (-> & Ht & Hl & Hk & Hd & Hu & _).
  apply report_missing_none in H2 as [-> Hall]. rewrite length_replicate in Hl, Hk.
  split_and!; [done|done| |exact Hk].
  apply NoDup_Permutation; [done|apply NoDup_seq|]. intros idx. rewrite elem_of_seq. split.
  - intros Hin. assert (valid !! idx = Some true) as E by (apply Hu; by right).
    apply lookup_lt_Some in E. lia.
  - intros [_ Hlt]. destruct (lookup_lt_is_Some_2 valid idx) as [b Hb]; [lia|].
    pose proof (proj1 (Forall_lookup _ _) Hall idx b Hb) as ->. apply Hu in Hb as [Hr|]; [|done].
    apply lookup_replicate in Hr as [? _]. done.
Qed.

(** ** Splitting *)

(** The arguments of parameters that are, or are not, compile-time. *)
Fixpoint split_by (flags : list bool) (args : list InstructionRef) : list InstructionRef * list (option Z) :=
  match flags, args with
  | f :: flags, a :: args =>
      let '(runtime, known) := split_by flags args in
      if f then (runtime, try_resolve_comptime_value a :: known) else (a :: runtime, None :: known)
  | _, _ => ([], [])
  end.

Lemma quiet_query_run {A} (f : Store -> res A) s a s' : query f s = Ret (a, s') -> s' = s.
Proof. unfold query. destruct (f _); [by intros [= _ <-]|done]. Qed.
Lemma type_of_run r s a s' : type_of r s = Ret (a, s') -> s' = s.
Proof. unfold type_of. destruct (Vtir.type_of _ _ _ _); [by intros [= _ <-]|done]. Qed.

(** An argument that is passed on, for a call in a block. *)
Definition known_argument (s : Sema) (block : nat) (callee : option Static) (f : bool) (a : InstructionRef) : Prop :=
  if f then is_Some callee /\ is_interned a = true
  else forall b, blocks s !! block = Some b -> comptime b = true -> is_interned a = true.

Lemma split_arg_run block callee t i arg arg_span span s r c s' :
  split_arg block callee t i arg arg_span span s = Ret ((r, c, false), s') ->
  s' = s /\ exists f, comptime_params t !! i = Some f /\ known_argument s block callee f arg /\
    (r, c) = split_by [f] [arg].
Proof.
  intros H. unfold split_arg in H. do 2 run_inv H. apply get_idx_inv in Ha0. destruct a0.
  - destruct callee as [callee|]; [|by repeat (apply bind_inv in H as (? & ? & _ & H))].
    destruct arg as [j|v]; [by repeat (apply bind_inv in H as (? & ? & _ & H))|].
    injection H as <- <- <-. split; [done|]. exists true. split_and!; [done| |done]. by split; [eexists|].
  - apply bind_inv in H as (ty & s1 & ->%type_of_run & H). apply bind_inv in H as (only & s1 & Hq & H).
    pose proof (quiet_query_run _ _ _ _ Hq) as ->. clear Hq.
    apply bind_inv in H as (u1 & s1 & H1 & H). apply bind_inv in H as (b & s2 & H2 & H).
    apply bind_inv in H as (u3 & s3 & H3 & H).
    assert (only = false) as -> by (injection H as _ _ Ho _; by apply orb_false_iff in Ho as [-> _]).
    injection H1 as <- <-. unfold block_at in H2. run_inv H2. apply lift_inv in H2 as [H2 ->].
    apply get_idx_inv in H2. injection H as <- <- Ho ->. simpl in Ho. rewrite Ho in H3. injection H3 as <- <-.
    split; [done|]. exists false. split_and!; [done| |done]. intros b' Hb' Hc. rewrite H2 in Hb'. injection Hb' as <-.
    rewrite Hc in Ho. simpl in Ho. by apply negb_false_iff in Ho.
Qed.


End Spec.

(** ** Instances *)

Module Instances.
Import SemaExample.

Definition span : Span.Span := Span.mk 0 1.
Definition ident (s : string) : Ident :=
  {| Ident.symbol := bytes_of s; Ident.kind := Token.User; Ident.span := span |}.
(** [fn f(comptime x: ..., y: ...) ...], by the declarations of its parameters. *)
Definition callee : Static := {|
  decl_index := 0;
  func_decl := {| fd_owner_decl := 0; func_decl_inst := {| Value.module := 0; Value.inst := 2 |}; fd_ty := 0 |};
  func_vuir_info := {|
    fn_decl_origin_module_vuir :=
      [Vuir.DeclFnParam (ident "x") [] true false span; Vuir.DeclFnParam (ident "y") [] false false span];
    info_ret_ty := 0; info_body := []; info_params := [0; 1]; info_span := span; info_builtin := None |};
|}.
Definition fn_type (ty : Z) : TypeFn := {|
  Value.params := [ty; ty]; comptime_params := [true; false]; Value.var_args := true; Value.ret_ty := ty;
  Value.external := false; Value.callconv := Vif; Value.inline := InlineNone |}.
Definition arg (name : option (list Z)) : Vuir.FnCallArg :=
  {| Vuir.arg_name := name; Vuir.arg_body := []; Vuir.arg_span := span |}.

(** [f(1, y: 2, 3)]. *)
Lemma input_args_complete_witness : exists s,
  input_args (Some callee) (fn_type 0) [arg None; arg (Some (bytes_of "y")); arg None] span s =
    Ret (Ok [(Some 0%nat, arg None); (Some 1%nat, arg (Some (bytes_of "y"))); (None, arg None)], s) /\
  targets [(Some 0%nat, arg None); (Some 1%nat, arg (Some (bytes_of "y"))); (None, arg None)] ≡ₚ seq 0 2.
Proof.
  destruct (fresh_store 0) as [v _]; [lia|]. exists (state_of v []).
  assert (input_args (Some callee) (fn_type 0) [arg None; arg (Some (bytes_of "y")); arg None] span (state_of v []) =
    Ret (Ok [(Some 0%nat, arg None); (Some 1%nat, arg (Some (bytes_of "y"))); (None, arg None)], state_of v [])) as H
    by reflexivity.
  split; [exact H|]. exact (proj1 (proj2 (proj2 (input_args_complete _ _ _ _ _ _ _ H)))).
Defined.

(** The known value 5 for [x] and the parameter of the caller for [y]. *)
Definition passed : list (InstructionRef * Span.Span) := [(Interned 5, span); (Instruction 0, span)].
Definition caller (v : Store) : Sema := state_of v [Vtir.FnArg [] (i32_t (ValueStore.common v))].
Definition splits (r : res ((list InstructionRef * list (option Z) * bool) * Sema)) : bool :=
  match r with Ret ((_, _, failed), _) => negb failed | Fault _ => false end.
Lemma splits_run r : splits r = true -> exists runtime known s, r = Ret ((runtime, known, false), s).
Proof. destruct r as [[[[runtime known] [|]] s]|]; try done. by eexists _, _, _. Qed.

End Instances.
End SemaCallSpec.

Module SemaDeclSpec.
Import Value ValueStore IrId Sema SemaAccess SemaFold SemaInit SemaDecl SemaTypeInfo SemaKeep.

(** ** Packed structs *)

Definition sum (l : list Z) : Z := foldr Z.add 0 l.
Lemma sum_widths_app l l' : sum (l ++ l') = sum l + sum l'.
Proof. induction l; simpl; lia. Qed.
Lemma sum_nonneg l : Forall (fun w => 0 <= w) l -> 0 <= sum l.
Proof. induction 1; simpl; lia. Qed.
Lemma sum_take_le l i : Forall (fun w => 0 <= w) l -> sum (take i l) <= sum l.
Proof.
  intros H. rewrite <- (take_drop i l) at 2. rewrite sum_widths_app.
  assert (0 <= sum (drop i l)) by (apply sum_nonneg; by apply Forall_drop). lia.
Qed.

(** The bits below each field are those of the fields before it. *)
Definition field_infos (widths : list Z) (start : Z) : list PackedStructFieldInfo :=
  imap (fun i w => {| offset := start + sum (take i widths); width := w |}) widths.

Lemma field_infos_cons w widths start :
  field_infos (w :: widths) start = {| offset := start; width := w |} :: field_infos widths (start + w).
Proof.
  unfold field_infos. simpl. rewrite Z.add_0_r. f_equal. apply imap_ext. intros i x _. simpl. f_equal. lia.
Qed.

Lemma pack_fields_spec widths start : Forall (fun w => 0 <= w) widths -> start + sum widths < 2^32 ->
  pack_fields widths start = Ret (field_infos widths start, start + sum widths).
Proof.
  intros Hw. revert start. induction Hw as [|w widths Hw0 Hw IH]; intros start Hs; simpl in *.
  { by rewrite Z.add_0_r. }
  pose proof (sum_nonneg _ Hw). unfold u32_checked. rewrite (proj2 (Z.ltb_lt _ _)) by lia. simpl.
  rewrite IH by lia. simpl. rewrite field_infos_cons. do 2 f_equal. lia.
Qed.

Lemma pack_fields_total widths start infos total : Forall (fun w => 0 <= w) widths -> start < 2^32 ->
  pack_fields widths start = Ret (infos, total) -> start + sum widths < 2^32.
Proof.
  intros Hw. revert start infos. induction Hw as [|w widths Hw0 Hw IH]; intros start infos Hs H; simpl in *; [lia|].
  unfold u32_checked in H. destruct (start + w <? 2^32) eqn:E; simpl in H; [|done]. apply Z.ltb_lt in E.
  destruct (pack_fields widths (start + w)) as [[infos' t]|] eqn:Hp; simpl in H; [|done].
  injection H as <- <-. pose proof (IH _ _ E Hp). lia.
Qed.

(** [fields_bits.div_ceil(8) * 8]. *)
Definition storage_of (bits : Z) : Z := ValueLayout.div_ceil bits 8 * 8.
Lemma storage_of_bounds bits : 0 <= bits -> bits <= storage_of bits < bits + 8 /\ (8 | storage_of bits).
Proof.
  intros H. unfold storage_of, ValueLayout.div_ceil. split; [|by eexists].
  pose proof (Z.div_mod (bits + 8 - 1) 8). pose proof (Z.mod_pos_bound (bits + 8 - 1) 8). lia.
Qed.

(** C11: The layout of a packed struct, for the widths of its fields in bits: each
    field starts where the one before it ends, the struct has the bits of its
    fields and no more, they are stored in the least number of whole bytes that
    holds them, and there is a layout exactly when the storage has fewer than 2^32
    bits. *)
Theorem packed_layout_correct widths : Forall (fun w => 0 <= w) widths ->
  let bits := sum widths in
  let storage := storage_of bits in
  bits <= storage < bits + 8 /\ (8 | storage) /\
  (storage < 2^32 ->
     exists infos, packed_layout widths = Ret (Packed storage bits infos) /\ length infos = length widths /\
       (forall i w, widths !! i = Some w -> infos !! i = Some {| offset := sum (take i widths); width := w |}) /\
       (forall i j a b, (i < j)%nat -> infos !! i = Some a -> infos !! j = Some b ->
          0 <= offset a /\ offset a + width a <= offset b /\ offset b + width b <= bits)) /\
  (2^32 <= storage -> forall l, packed_layout widths <> Ret l).
Proof.
  intros Hw bits storage. pose proof (sum_nonneg _ Hw) as H0.
  destruct (storage_of_bounds bits H0) as [Hs Hd]. fold storage in Hs, Hd.
  split; [exact Hs|]. split; [exact Hd|]. split.
  - intros Hlt. assert (forall i w, widths !! i = Some w ->
      field_infos widths 0 !! i = Some {| offset := sum (take i widths); width := w |}) as Hl.
    { intros i w Hi. unfold field_infos. by rewrite list_lookup_imap, Hi. }
    exists (field_infos widths 0). split_and!; [|by unfold field_infos; rewrite length_imap|done|].
    + unfold packed_layout. rewrite pack_fields_spec by (done || (fold bits; lia)). cbn [mbind res_bind].
      rewrite Z.add_0_l. fold bits. fold (storage_of bits). fold storage. unfold u32_checked.
      by rewrite (proj2 (Z.ltb_lt _ _) Hlt).
    + intros i j a b Hij Ha Hb. unfold field_infos in Ha, Hb. rewrite list_lookup_imap in Ha, Hb.
      destruct (widths !! i) as [wa|] eqn:Hi; [|done]. destruct (widths !! j) as [wb|] eqn:Hj; [|done].
      simpl in Ha, Hb. injection Ha as <-. injection Hb as <-. simpl.
      pose proof (sum_nonneg _ (Forall_take _ i _ Hw)).
      assert (sum (take i widths) + wa = sum (take (S i) widths)) as Ei.
      { rewrite (take_S_r _ _ _ Hi), sum_widths_app. simpl. lia. }
      assert (sum (take j widths) + wb = sum (take (S j) widths)) as Ej.
      { rewrite (take_S_r _ _ _ Hj), sum_widths_app. simpl. lia. }
      pose proof (sum_take_le widths (S j) Hw).
      pose proof (sum_take_le (take j widths) (S i) (Forall_take _ _ _ Hw)) as Hle.
      rewrite take_take, Nat.min_l in Hle by lia. unfold bits. lia.
  - intros Hge l H. unfold packed_layout in H.
    destruct (pack_fields widths 0) as [[infos t]|] eqn:Hp; simpl in H; [|done].
    pose proof (pack_fields_total _ 0 _ _ Hw ltac:(lia) Hp) as Hb.
    rewrite pack_fields_spec in Hp by (done || lia). injection Hp as <- <-.
    rewrite Z.add_0_l in H. fold bits in H. fold (storage_of bits) in H. fold storage in H. unfold u32_checked in H.
    by rewrite (proj2 (Z.ltb_ge _ _) Hge) in H.
Qed.

Lemma packed_layout_correct_witness :
  packed_layout [1; 3; 7; 16] =
    Ret (Packed 32 27 [{| offset := 0; width := 1 |}; {| offset := 1; width := 3 |};
                       {| offset := 4; width := 7 |}; {| offset := 11; width := 16 |}]) /\
  (8 | storage_of (sum [1; 3; 7; 16])).
Proof.
  split; [vm_compute; reflexivity|].
  apply (packed_layout_correct [1; 3; 7; 16]). repeat constructor; lia.
Defined.

(** ** Tags *)

(** The width of the tag of an enum without a tag type: it holds the position of
    every variant, it is at least one bit, and no smaller width holds them. *)
Theorem tag_bits_least n : (0 < n)%nat -> Z.of_nat n <= 2^32 ->
  1 <= tag_bits n <= 32 /\
  (forall i, (i < n)%nat -> Z.of_nat i < 2^(tag_bits n)) /\
  (forall b, 1 <= b -> (forall i, (i < n)%nat -> Z.of_nat i < 2^b) -> tag_bits n <= b).
Proof.
  intros Hn Hmax. unfold tag_bits.
  assert (0 <= Z.log2_up (Z.of_nat n) <= 32) as Hl.
  { split; [apply Z.log2_up_nonneg|]. rewrite <- (Z.log2_up_pow2 32) by lia. by apply Z.log2_up_le_mono. }
  assert (Z.of_nat n <= 2^(Z.log2_up (Z.of_nat n))) as Hub.
  { destruct (decide (n = 1%nat)) as [->|]; [vm_compute; discriminate|]. apply Z.log2_up_spec. lia. }
  set (w := Z.min _ _). assert (Z.log2_up (Z.of_nat n) <= w /\ 1 <= w <= 32) as [Hw Hr] by lia. split_and!; [lia|lia| |].
  - intros i Hi. pose proof (Z.pow_le_mono_r 2 _ _ ltac:(lia) Hw). lia.
  - intros b Hb Hi. assert (Z.log2_up (Z.of_nat n) <= b); [|lia].
    apply Z.log2_up_le_pow2; [lia|]. specialize (Hi (n - 1)%nat). lia.
Qed.
Lemma tag_bits_least_witness : tag_bits 5 = 3 /\ Z.of_nat 4 < 2^(tag_bits 5).
Proof.
  split; [vm_compute; reflexivity|].
  apply (tag_bits_least 5); lia.
Defined.

(** ** Enums *)

Section Enums.
Context `{ST : Setting} `{WK : !Workers} `{TI : !TypeInfo}.

Lemma try_bind_ok {A B} (m : M (Result A)) (k : A -> M (Result B)) s b s' :
  try_bind k m s = Ret (Ok b, s') -> exists a s1, m s = Ret (Ok a, s1) /\ k a s1 = Ret (Ok b, s').
Proof. intros ([a|e] & s1 & Hm & H)%bind_inv; [by exists a, s1|done]. Qed.

(** The value of a variant is new among those before it. *)
Lemma enum_variants_spec block tag_ty had i variants (taken : gmap Z Span.Span) s fields s' :
  enum_variants block tag_ty had i variants taken s = Ret (Ok fields, s') ->
  map ef_name fields = map (fun v => Ident.symbol (Vuir.ident v)) variants /\
  NoDup (map ef_value fields) /\
  Forall (fun f => taken !! ef_value f = None) fields /\
  (had = false -> Forall (fun v => Vuir.variant_value v = None) variants).
Proof.
  revert i taken s fields. induction variants as [|v variants IH]; intros i taken s fields H; simpl in H.
  { injection H as <- <-. split_and!; constructor. }
  destruct (bool_decide _ && negb had) eqn:Hc.
  { repeat (apply bind_inv in H as (? & ? & _ & H)). done. }
  apply try_bind_ok in H as (value & s1 & _ & H). destruct (taken !! value) eqn:Ht.
  { unfold value_taken in H. repeat (apply bind_inv in H as (? & ? & _ & H)). done. }
  apply try_bind_ok in H as (rest & s2 & H2 & H). injection H as <- <-.
  destruct (IH _ _ _ _ H2) as (Hn & Hd & Hf & Hv). split_and!; simpl.
  - by f_equal.
  - constructor; [|done]. intros (f & Hv1 & Hin)%list_elem_of_fmap. 
    pose proof (proj1 (Forall_forall _ _) Hf f Hin) as E. cbv beta in E.
    rewrite <- Hv1, lookup_insert_eq in E. done.
  - constructor; [done|]. eapply Forall_impl; [exact Hf|]. intros f E. cbv beta in E.
    destruct (decide (ef_value f = value)) as [Ev|Hne]; [by rewrite Ev, lookup_insert_eq in E|].
    by rewrite lookup_insert_ne in E.
  - intros ->. constructor; [|by apply Hv]. rewrite andb_true_r in Hc. apply bool_decide_eq_false in Hc.
    destruct (Vuir.variant_value v); [|done]. destruct Hc. by eexists.
Qed.

(** C12: The variants of an enum that is accepted keep their names and their order,
    no two have the same value, and none has a value of its own unless the enum has
    a tag type. *)
Theorem enum_values_distinct block tag_ty had variants s fields s' :
  enum_variants block tag_ty had 0 variants ∅ s = Ret (Ok fields, s') ->
  map ef_name fields = map (fun v => Ident.symbol (Vuir.ident v)) variants /\
  NoDup (map ef_value fields) /\
  (had = false -> Forall (fun v => Vuir.variant_value v = None) variants).
Proof. intros (H1 & H2 & _ & H3)%enum_variants_spec. done. Qed.
End Enums.

(** ** Unions *)

Lemma next_multiple_inv a b n : 0 <= a -> 0 < b -> ValueLayout.next_multiple_of a b = Ret n ->
  a <= n /\ (b | n).
Proof.
  intros Ha Hb H. unfold ValueLayout.next_multiple_of in H. rewrite (proj2 (Z.eqb_neq b 0)) in H by lia.
  pose proof (Z.div_mod a b ltac:(lia)). pose proof (Z.mod_pos_bound a b Hb).
  destruct (Z.eqb_spec (a mod b) 0) as [E|E].
  - injection H as <-. split; [lia|]. exists (a / b). lia.
  - unfold ValueLayout.u64_add, ValueLayout.u64_checked in H. destruct (_ <? _); [|done]. injection H as <-.
    split; [lia|]. exists (a / b + 1). lia.
Qed.
Lemma u64_add_inv a b n : ValueLayout.u64_add a b = Ret n -> n = a + b.
Proof. unfold ValueLayout.u64_add, ValueLayout.u64_checked. destruct (_ <? _); [by intros [= <-]|done]. Qed.

(** The content of a union, and where its parts are in it. *)
Lemma union_content ts ta ps pa c o : 0 <= ts -> 0 <= ps -> (0 < ts -> 0 < ta) -> 0 < pa ->
  (if ts =? 0 then Ret ps
   else if ps =? 0 then Ret ts
   else if pa <=? ta then n ← ValueLayout.next_multiple_of ts pa; ValueLayout.u64_add n ps
   else n ← ValueLayout.next_multiple_of ps ta; ValueLayout.u64_add n ts) = Ret c ->
  (if (ts =? 0) || (ps =? 0) then Ret (0, 0)
   else if pa <=? ta then n ← ValueLayout.next_multiple_of ts pa; Ret (0, n)
   else n ← ValueLayout.next_multiple_of ps ta; Ret (n, 0)) = Ret o ->
  0 <= o.1 /\ o.1 + ts <= c /\ 0 <= o.2 /\ o.2 + ps <= c /\ (ta | o.1) /\ (pa | o.2) /\
  (ts = 0 \/ ps = 0 \/ o.1 + ts <= o.2 \/ o.2 + ps <= o.1).
Proof.
  intros Hts Hps Hta Hpa Hc Ho. pose proof (Z.divide_0_r ta). pose proof (Z.divide_0_r pa).
  destruct (Z.eqb_spec ts 0) as [Et|Et]; simpl in Ho.
  { injection Hc as <-. injection Ho as <-. simpl. split_and!; (done || lia). }
  destruct (Z.eqb_spec ps 0) as [Ep|Ep]; simpl in Ho.
  { injection Hc as <-. injection Ho as <-. simpl. split_and!; (done || lia). }
  destruct (pa <=? ta).
  - destruct (ValueLayout.next_multiple_of ts pa) as [n|] eqn:E; simpl in Hc, Ho; [|done].
    injection Ho as <-. apply u64_add_inv in Hc as ->. apply next_multiple_inv in E as [? ?]; [|lia..].
    simpl. split_and!; (done || lia).
  - destruct (ValueLayout.next_multiple_of ps ta) as [n|] eqn:E; simpl in Hc, Ho; [|done].
    injection Ho as <-. apply u64_add_inv in Hc as ->. apply next_multiple_inv in E as [? ?]; [|lia..].
    simpl. split_and!; (done || lia).
Qed.

Section Unions.
Context `{FxHasher} `{HashTable} {A : Type} `{ArenaOps A (Key * Value)}.

(** C22: The offsets that the type information of a union gives agree with the layout
    of the union: the tag and the payload are aligned, inside the union, and do not
    overlap. *)
Theorem union_offsets_disjoint layout_of (v : ValueStore A) ty l tag_offset payload_offset :
  ValueLayout.union_layout_by layout_of v ty = Ret l ->
  let '(tag, payload) := (ValueLayout.tag l, ValueLayout.payload l) in
  0 <= ValueLayout.size tag -> 0 <= ValueLayout.size payload ->
  (0 < ValueLayout.size tag -> 0 < ValueLayout.align tag) -> 0 < ValueLayout.align payload ->
  union_offsets l = Ret (tag_offset, payload_offset) ->
  0 <= tag_offset /\ tag_offset + ValueLayout.size tag <= ValueLayout.size (ValueLayout.union_layout l) /\
  0 <= payload_offset /\ payload_offset + ValueLayout.size payload <= ValueLayout.size (ValueLayout.union_layout l) /\
  (ValueLayout.align tag | tag_offset) /\ (ValueLayout.align payload | payload_offset) /\
  (ValueLayout.size tag = 0 \/ ValueLayout.size payload = 0 \/
   tag_offset + ValueLayout.size tag <= payload_offset \/ payload_offset + ValueLayout.size payload <= tag_offset).
Proof.
  intros Hl Hts Hps Hta Hpa Ho. unfold ValueLayout.union_layout_by in Hl.
  repeat match goal with
  | H : (?m ≫= _) = Ret _ |- _ => destruct m eqn:?; cbn [mbind res_bind] in H; [|discriminate H]
  | H : (let '(_, _) := ?p in _) = Ret _ |- _ => destruct p
  end.
  injection Hl as <-. cbn [ValueLayout.tag ValueLayout.payload ValueLayout.union_layout ValueLayout.size ValueLayout.align] in *.
  unfold union_offsets in Ho. cbn [ValueLayout.tag ValueLayout.payload ValueLayout.size ValueLayout.align] in Ho.
  match goal with
  | Hc : (if _ then Ret _ else _) = Ret ?c, E : ValueLayout.next_multiple_of ?c (_ `max` _) = Ret _ |- _ =>
      pose proof (union_content _ _ _ _ c _ Hts Hps Hta Hpa Hc Ho) as Hu; apply next_multiple_inv in E as [? _]
  end; simpl in Hu; destruct Hu as (? & ? & ? & ? & ? & ? & ?); [split_and!; (done || lia)|lia..].
Qed.
End Unions.

(** ** Instances *)

Module Instances.
Import SemaExample ValueLayoutSpec.

Definition variant (name : string) : Vuir.EnumVariant :=
  {| Vuir.ident := {| Ident.symbol := bytes_of name; Ident.kind := Token.User; Ident.span := Span.mk 0 1 |};
     Vuir.variant_value := None; Vuir.variant_span := Span.mk 0 1 |}.
Definition accepted {A} (r : res (Result A * Sema)) : bool := match r with Ret (Ok _, _) => true | _ => false end.
Lemma accepted_run {A} (r : res (Result A * Sema)) : accepted r = true -> exists a s, r = Ret (Ok a, s).
Proof. destruct r as [[[a|] s]|]; [by exists a, s|done..]. Qed.

Lemma enum_values_distinct_witness : exists s fields s',
  enum_variants 0 4 false 0 [variant "a"; variant "b"; variant "c"] ∅ s = Ret (Ok fields, s') /\
  NoDup (map ef_value fields) /\ length fields = 3%nat.
Proof.
  assert (match @ValueStore.new _ _ (VirtDynArray.Arena (Key * Value)) _ 1 with
          | Ret v => accepted (enum_variants 0 4 false 0 [variant "a"; variant "b"; variant "c"] ∅ (state_of v []))
          | Fault _ => false
          end = true) as H by (vm_compute; reflexivity).
  destruct (ValueStore.new 1) as [v|]; [|discriminate H]. apply accepted_run in H as (fields & s' & H).
  exists (state_of v []), fields, s'. split; [exact H|].
  destruct (enum_values_distinct 0 4 false _ _ _ _ H) as (Hn & Hd & _). split; [exact Hd|].
  apply (f_equal (@length (list Z))) in Hn. rewrite !length_map in Hn. exact Hn.
Defined.

Lemma union_offsets_disjoint_witness : exists l,
  ValueLayout.type_union_layout 9 example amd64 5 = Ret l /\
  union_offsets l = Ret (8, 0) /\ 8 + ValueLayout.size (ValueLayout.tag l) <= ValueLayout.size (ValueLayout.union_layout l).
Proof.
  set (l := ValueLayout.Build_UnionLayout (ValueLayout.mk 16 8) (ValueLayout.mk 3 4) (ValueLayout.mk 8 8)
              (0%nat, ValueLayout.mk 8 8) 5).
  assert (ValueLayout.type_union_layout 9 example amd64 5 = Ret l) as H by (vm_compute; reflexivity).
  exists l. split; [exact H|]. split; [reflexivity|].
  apply (union_offsets_disjoint _ _ 5 l 8 0 H); (lia || reflexivity || (cbn; lia)).
Defined.
End Instances.
End SemaDeclSpec.
