(* ===== verification/SemaFoldSpec.v ===== *)
(** * Properties of constant folding

    Arithmetic, bit operations and comparisons on integer constants: for operands
    of any integer types the analysis computes the value the operator has on [Z],
    wrapped where the code wraps it, reports the types it cannot unify and the
    shifts it rejects, and panics exactly where stated.  On anything else it emits
    one instruction of the operands' type. *)

From S2P Require Import Prelude Words Bytes Span Token Diagnostic Ast HashIndex VirtDynArray ShardedMap ShardedSpec.
From S2P Require Import Anyint AnyintArith AnyintDiv AnyintBits AnyintSpec.
From S2P Require Import Value ValueStore ValueSpec StoreLogic ValueLayout Vuir Vtir VtirSpec.
From S2P Require Import SemaState SemaAccess SemaFold SemaLogic SemaIntSpec SemaExample.
From stdpp Require Import gmap.

#[local] Open Scope Z_scope.
#[local] Open Scope sema_scope.

Module SemaFoldSpec.
Import Value ValueStore ValueSpec StoreLogic IrId VtirSpec Sema SemaAccess SemaFold SemaLogic SemaIntSpec.

Section Folding.
Context `{SL : SettingLaws} {WK : Workers} {TI : TypeInfo}.
Implicit Types (s : Sema) (b : nat).

Abbreviation ptr_width s := (ValueLayout.ptr_width_in_bits (target (cu s))).

(** Both operands are integer constants, of types whose widths are positive. *)
Record int_operands s (l lt : Z) (tl : Ty) (x r rt : Z) (tr : Ty) (y : Z) : Prop := {
  left_at : int_at s l lt tl x;
  right_at : int_at s r rt tr y;
  left_integer : is_integer tl = true;
  right_integer : is_integer tr = true;
  left_width : width_ok (int_width (ptr_width s) tl);
  right_width : width_ok (int_width (ptr_width s) tr);
}.

(** The result: constant [z] of type [t], new or not, and nothing else changed. *)
Definition folds_to s (ty : Z) (t : Ty) (out : Result InstructionRef) s' (z : Z) : Prop :=
  exists i v, out = Ok (Interned i) /\ s' = with_values v s /\ extends (store_of s) v /\ int_at s' i ty t z.

Definition common_index (tl t : Ty) (lt rt : Z) : Z := if bool_decide (tl = t) then lt else rt.

Lemma is_int_admits t : is_int t = true -> is_int_or_size t = true.
Proof. by destruct t. Qed.

Lemma is_integer_numeric t : is_integer t = true -> type_is_numeric (KType t) = true /\ is_bits_type (KType t) = true.
Proof. by destruct t. Qed.

Lemma common_type_cases admits tl x tr y t : common_type admits tl x tr y = Some t -> t = tl \/ t = tr.
Proof. unfold common_type. repeat case_match; intros [= <-]; auto. Qed.

(** The last step of every fold. *)
Lemma runs_fold_int n b s ty t x a z Q :
  ready (S n) b s -> at_ (store_of s) ty (KType t, x) -> AnyintArith.repr a z ->
  (forall out s', folds_to s ty t out s' z -> Q out s') -> runs (ok_interned (KInt ty a)) s Q.
Proof.
  intros Hr Hty Ha HQ. unfold ok_interned. run. eapply runs_intern; [exact Hr|done|done|].
  intros i v y Hr' Hx Hat. run. apply HQ. exists i, v. split_and!; [done..|]. destruct Hx as [_ Hx].
  exists a, y, x. split_and!; [exact Hat|done|by apply Hx].
Qed.

Lemma folds_after s v ty t out s' z :
  extends (store_of s) v -> folds_to (with_values v s) ty t out s' z -> folds_to s ty t out s' z.
Proof.
  intros Hx (i & v' & -> & -> & Hx' & Hi). exists i, v'. split_and!; try done. by transitivity v.
Qed.

Lemma runs_failed {B C} (m : M (Result B)) (k : B -> M (Result C)) s :
  runs m s (failed_with_error s) -> runs (try_bind k m) s (failed_with_error s).
Proof. intros Hm. apply runs_try_bind. eapply runs_mono; [|exact Hm]. intros out s' [-> Hd]. by split. Qed.

(** What an operator on two integer constants does: when the types are the same, or
    an [anyint] fits the other's type, it acts as [f] says of the common type;
    otherwise one error is reported. *)
Definition operator_spec (admits : Ty -> bool) s lt tl x rt tr y (m : M (Result InstructionRef))
    (f : Ty -> outcome) : Prop :=
  match common_type admits tl x tr y with
  | None => runs m s (failed_with_error s)
  | Some t =>
      match f t with
      | Gives z => runs m s (fun out s' => folds_to s (common_index tl t lt rt) t out s' z)
      | Reports => runs m s (fun out s' => exists v, extends (store_of s) v /\ failed_with_error (with_values v s) out s')
      | Panics => panics m s
      end
  end.

Definition arith_outcome (w : option (bool * Z)) (op : Vuir.Opcode) (x y : Z) : outcome :=
  match arith_value w op x y with Some z => Gives z | None => Panics end.

Lemma arithmetic_folds n b s op l lt tl x r rt tr y span :
  ready (S (S n)) b s -> int_operands s l lt tl x r rt tr y -> is_arith op = true ->
  operator_spec is_int s lt tl x rt tr y (analyze_arithmetic_op b op (Interned l) (Interned r) span)
    (fun t => arith_outcome (int_width (ptr_width s) t) op x y).
Proof.
  intros Hr [Hl Hrr Hil Hir Hwl Hwr] Hop. unfold operator_spec.
  destruct (int_at_type _ _ _ _ _ Hl) as [xl Htl], (int_at_type _ _ _ _ _ Hrr) as [xr Htr].
  destruct (is_integer_numeric _ Hil) as [Hnl _], (is_integer_numeric _ Hir) as [Hnr _].
  pose proof (int_at_typed _ _ _ _ _ Hl) as Htyl. pose proof (int_at_typed _ _ _ _ _ Hrr) as Htyr.
  pose proof (runs_unify is_int is_int_admits (S n) b s l lt tl x r rt tr y
    (incompatible_types (bytes_of "cannot perform an arithmetic operation between a '") (bytes_of "' and '")
          (bytes_of "'") lt rt span) span Hr Hl Hrr Hwl Hwr ltac:(by eapply runs_incompatible)) as Hu.
  unfold unified in Hu. unfold analyze_arithmetic_op.
  destruct (common_type is_int tl x tr y) as [t|] eqn:Hc.
  2:{ run. rewrite Hnl. run. rewrite Hnr. cbn [negb]. by apply runs_failed. }
  assert (Hwt : width_ok (int_width (ptr_width s) t)) by (by apply common_type_cases in Hc as [->| ->]).
  destruct Hu as (out & s1 & Hu & ty & i & j & v & -> & -> & Hr1 & Hx & Hi & Hj & Hty).
  destruct Hi as (a & xa & xt & Ha & [Hwa Hva] & Hat), Hj as (c & xc & _ & Hcc & [Hwc Hvc] & _).
  pose proof (runs_arith_int (with_values v s) ty t xt op a c Hat Hwt Hwa Hwc Hop) as Hint.
  rewrite Hva, Hvc in Hint. cbn [target cu with_values set_cu set_values] in Hint.
  unfold arith_outcome. destruct (arith_value (int_width (ptr_width s) t) op x y) as [z|].
  - run. rewrite Hnl. run. rewrite Hnr. cbn [negb]. apply runs_try_bind. eexists _, _. split; [exact Hu|]. cbn beta match. run.
    eapply runs_mono; [|exact Hint]. intros w s' [-> Hw]. eapply runs_fold_int; [exact Hr1|exact Hat|exact Hw|].
    intros out s' Hf. unfold common_index. rewrite <- Hty. by eapply folds_after.
  - apply panics_bind; run. apply panics_bind; run. apply panics_bind; run. rewrite Hnl. cbn [negb].
    apply panics_bind; run. rewrite Hnr. cbn [negb]. apply panics_try. eexists _, _. split; [exact Hu|]. cbn beta match.
    apply panics_bind; run. apply panics_bind; run. by apply panics_first.
Qed.

Lemma bits_fold n b s op l lt tl x r rt tr y span :
  ready (S (S n)) b s -> int_operands s l lt tl x r rt tr y -> is_bits_op op = true ->
  operator_spec is_int_or_size s lt tl x rt tr y (analyze_bitwise_op b op (Interned l) (Interned r) span)
    (fun t => bits_value t op x y).
Proof.
  intros Hr [Hl Hrr Hil Hir Hwl Hwr] Hop. unfold operator_spec.
  destruct (int_at_type _ _ _ _ _ Hl) as [xl Htl], (int_at_type _ _ _ _ _ Hrr) as [xr Htr].
  destruct (is_integer_numeric _ Hil) as [_ Hnl], (is_integer_numeric _ Hir) as [_ Hnr].
  pose proof (int_at_typed _ _ _ _ _ Hl) as Htyl. pose proof (int_at_typed _ _ _ _ _ Hrr) as Htyr.
  pose proof (runs_unify is_int_or_size (fun t H => H) (S n) b s l lt tl x r rt tr y
    (incompatible_types (bytes_of "cannot perform a bitwise operation between a '") (bytes_of "' and '")
        (bytes_of "'") lt rt span) span Hr Hl Hrr Hwl Hwr ltac:(by eapply runs_incompatible)) as Hu.
  unfold unified in Hu. unfold analyze_bitwise_op.
  destruct (common_type is_int_or_size tl x tr y) as [t|] eqn:Hc.
  2:{ run. rewrite Hnl. run. rewrite Hnr. cbn [negb]. by apply runs_failed. }
  assert (Hit : is_integer t = true) by (by apply common_type_cases in Hc as [->| ->]).
  destruct Hu as (out & s1 & Hu & ty & i & j & v & -> & -> & Hr1 & Hx & Hi & Hj & Hty).
  destruct Hi as (a & xa & xt & Ha & [Hwa Hva] & Hat), Hj as (c & xc & _ & Hcc & [Hwc Hvc] & _).
  pose proof (bitwise_int_ok (with_values v s) ty t xt op a c span Hat Hit Hwa Hwc Hop) as Hint.
  rewrite Hva, Hvc in Hint. unfold behaves in Hint.
  destruct (bits_value t op x y) as [z| |].
  - run. rewrite Hnl. cbn [negb]. rewrite Hnr. cbn [negb]. apply runs_try_bind. eexists _, _. split; [exact Hu|].
    cbn beta match. run. eapply runs_mono; [|exact Hint]. intros w s' (w' & -> & -> & Hw). cbn beta match.
    eapply runs_fold_int; [exact Hr1|exact Hat|exact Hw|].
    intros out s' Hf. unfold common_index. rewrite <- Hty. by eapply folds_after.
  - run. rewrite Hnl. cbn [negb]. rewrite Hnr. cbn [negb]. apply runs_try_bind. eexists _, _. split; [exact Hu|].
    cbn beta match. run. eapply runs_mono; [|exact Hint]. intros out s' [-> Hd]. exists v. by split.
  - do 4 (apply panics_bind; run). rewrite Hnl. cbn [negb]. rewrite Hnr. cbn [negb].
    apply panics_try. eexists _, _. split; [exact Hu|]. cbn beta match.
    apply panics_bind; run. apply panics_bind; run. by apply panics_first.
Qed.

(** C6: arithmetic on two integer constants, in every case.  The result is the
    constant of the common type whose value is the operator's on the integers:
    wrapped to the width for [+], [-] and [*], not wrapped for the saturating
    operators, truncated for division and remainder.  A zero divisor panics. *)
Theorem comptime_arithmetic n b s op l lt tl x r rt tr y span :
  ready (S (S n)) b s -> int_operands s l lt tl x r rt tr y -> is_arith op = true ->
  operator_spec is_int s lt tl x rt tr y (analyze_arithmetic_op b op (Interned l) (Interned r) span)
    (fun t => arith_outcome (int_width (ptr_width s) t) op x y).
Proof. apply arithmetic_folds. Qed.

(** C38: bit operations and shifts on two integer constants, in every case.  [&],
    [|] and [^] are those of the two's complement, a shift multiplies by a power
    of two or floors the quotient; the result is not wrapped.  A negative amount, and
    without the wrapping opcodes an amount not below the width, is reported; a
    shift of a [usize] or [isize] panics. *)
Theorem comptime_bits n b s op l lt tl x r rt tr y span :
  ready (S (S n)) b s -> int_operands s l lt tl x r rt tr y -> is_bits_op op = true ->
  operator_spec is_int_or_size s lt tl x rt tr y (analyze_bitwise_op b op (Interned l) (Interned r) span)
    (fun t => bits_value t op x y).
Proof. apply bits_fold. Qed.

(** The analysis of a binary operator on integers. *)
Definition analyze_binary b (op : Vuir.Opcode) (lhs rhs : InstructionRef) (span : Span.Span) : M (Result InstructionRef) :=
  if is_arith op then analyze_arithmetic_op b op lhs rhs span else analyze_bitwise_op b op lhs rhs span.
Definition admits_of (op : Vuir.Opcode) : Ty -> bool := if is_arith op then is_int else is_int_or_size.

(** Constants fit their types.  For the wrapping arithmetic operators, the
    remainder, the bitwise operators and the right shifts, a result computed from
    operands in the range of their common type is again a constant of that type and
    in its range. *)
Theorem comptime_fold_in_range n b s op l lt tl x r rt tr y span t out s' :
  ready (S (S n)) b s -> int_operands s l lt tl x r rt tr y -> keeps_range op = true ->
  common_type (admits_of op) tl x tr y = Some t ->
  in_range (int_width (ptr_width s) t) x = true -> in_range (int_width (ptr_width s) t) y = true ->
  analyze_binary b op (Interned l) (Interned r) span s = Ret (Ok out, s') ->
  exists i z, out = Interned i /\ int_at s' i (common_index tl t lt rt) t z /\ in_range (int_width (ptr_width s) t) z = true.
Proof.
  intros Hr Hops Hk Hc Hx Hy Hrun. unfold analyze_binary, admits_of in *.
  assert (Ht : is_integer t = true /\ width_ok (int_width (ptr_width s) t)).
  { destruct Hops as [_ _ Hil Hir Hwl Hwr]. by apply common_type_cases in Hc as [->| ->]. }
  destruct (is_arith op) eqn:Ha.
  - pose proof (arithmetic_folds n b s op l lt tl x r rt tr y span Hr Hops Ha) as Hf. unfold operator_spec in Hf.
    rewrite Hc in Hf. unfold arith_outcome in Hf.
    destruct (arith_value _ op x y) as [z|] eqn:Hz; [|unfold panics in Hf; congruence].
    apply (runs_det _ _ _ _ _ Hf) in Hrun as (i & v & [= ->] & _ & _ & Hi). exists i, z. split_and!; [done|done|].
    eapply keeps_range_arith; [done|apply Ht|exact Hx|exact Hz].
  - assert (Hb : is_bits_op op = true) by (by destruct op).
    pose proof (bits_fold n b s op l lt tl x r rt tr y span Hr Hops Hb) as Hf. unfold operator_spec in Hf.
    rewrite Hc in Hf. destruct (bits_value t op x y) as [z| |] eqn:Hz; [| |unfold panics in Hf; congruence].
    2:{ apply (runs_det _ _ _ _ _ Hf) in Hrun as (? & _ & He & _). done. }
    apply (runs_det _ _ _ _ _ Hf) in Hrun as (i & v & [= ->] & _ & _ & Hi). exists i, z. split_and!; [done|done|].
    eapply keeps_range_bits; [done|apply Ht|apply Ht|exact Hx|exact Hy|exact Hz].
Qed.

(** The complement of a constant is [- x - 1], whatever the type. *)
Theorem comptime_not n b s i ty t x span :
  ready (S n) b s -> int_at s i ty t x -> is_integer t = true ->
  runs (analyze_bitwise_not_op b (Interned i) span) s (fun out s' => folds_to s ty t out s' (- x - 1)).
Proof.
  intros Hr Hi Hit. destruct (is_integer_numeric _ Hit) as [_ Hn]. pose proof (int_at_typed _ _ _ _ _ Hi) as Hty.
  destruct Hi as (a & xa & xt & Ha & [Hwf Hv] & Hat). unfold analyze_bitwise_not_op. run. rewrite Hn. run.
  eapply (runs_fold_int _ _ _ _ _ _ _ (- x - 1)); [exact Hr|exact Hat| |auto]. destruct (AnyintBits.not_repr a Hwf) as [Hw' Hv'].
  split; [done|]. rewrite Hv', Hv. unfold Z.lnot. lia.
Qed.

(** Comparisons of integer constants: [<], [<=], [>] and [>=] are those of
    the integers, for operands of one type or an [anyint] that fits the other's.
    [==] and [!=] are both computed as [>=]. *)
Theorem comptime_comparison n b s op l lt tl x r rt tr y span v :
  ready (S (S n)) b s -> int_operands s l lt tl x r rt tr y -> cmp_value op x y = Some v ->
  let m := analyze_comparaison_op b op (Interned l) (Interned r) span in
  match common_type is_int tl x tr y with
  | None => runs m s (failed_with_error s)
  | Some _ => runs m s (fun out s' => exists i st, out = Ok (Interned i) /\ s' = with_values st s /\
                extends (store_of s) st /\ exists e, at_ st i (KBool v, e))
  end.
Proof.
  intros Hr [Hl Hrr Hil Hir Hwl Hwr] Hop m.
  pose proof (int_at_typed _ _ _ _ _ Hl) as Htyl. pose proof (int_at_typed _ _ _ _ _ Hrr) as Htyr.
  pose proof (runs_unify is_int is_int_admits (S n) b s l lt tl x r rt tr y
    (incompatible_types (bytes_of "cannot compare a `") (bytes_of "` with an `") (bytes_of "`") lt rt span)
    span Hr Hl Hrr Hwl Hwr ltac:(by eapply runs_incompatible)) as Hu.
  unfold unified in Hu. subst m. unfold analyze_comparaison_op.
  destruct (common_type is_int tl x tr y) as [t|] eqn:Hc; [|do 4 run_step; by apply runs_failed].
  destruct Hu as (out & s1 & Hu & ty & i & j & st & -> & -> & Hr1 & Hx & Hi & Hj & Hty).
  destruct Hi as (a & xa & xt & Ha & [Hwa Hva] & _), Hj as (c & xc & _ & Hcc & [Hwc Hvc] & _).
  run. eexists _, _. split; [exact Hu|]. cbn beta match. run. subst.
  eapply runs_mono; [|by eapply cmp_int_ok]. intros v' s' [-> ->]. unfold ok_interned. run.
  eapply runs_intern; [exact Hr1|done|done|]. intros k st' e Hr2 Hx2 Hat. run.
  exists k, st'. split_and!; [done|done|by transitivity st|by exists e].
Qed.

(** ** Operators at run time *)

(** The instruction of an operator. *)
Definition vtir_op (op : Vuir.Opcode) (lhs rhs : InstructionRef) : option Vtir.Opcode :=
  match op with
  | Vuir.Add _ _ _ => Some (Vtir.Add lhs rhs) | Vuir.AddSat _ _ _ => Some (Vtir.AddSat lhs rhs)
  | Vuir.Sub _ _ _ => Some (Vtir.Sub lhs rhs) | Vuir.SubSat _ _ _ => Some (Vtir.SubSat lhs rhs)
  | Vuir.Mul _ _ _ => Some (Vtir.Mul lhs rhs) | Vuir.MulSat _ _ _ => Some (Vtir.MulSat lhs rhs)
  | Vuir.Div _ _ _ => Some (Vtir.Div lhs rhs) | Vuir.Rem _ _ _ => Some (Vtir.Rem lhs rhs)
  | Vuir.Shl _ _ _ => Some (Vtir.Shl lhs rhs) | Vuir.ShlSat _ _ _ => Some (Vtir.ShlSat lhs rhs)
  | Vuir.ShlWrap _ _ _ => Some (Vtir.ShlWrap lhs rhs) | Vuir.Shr _ _ _ => Some (Vtir.Shr lhs rhs)
  | Vuir.ShrSat _ _ _ => Some (Vtir.ShrSat lhs rhs) | Vuir.ShrWrap _ _ _ => Some (Vtir.ShrWrap lhs rhs)
  | Vuir.BitAnd _ _ _ => Some (Vtir.BitAnd lhs rhs) | Vuir.BitOr _ _ _ => Some (Vtir.BitOr lhs rhs)
  | Vuir.BitXor _ _ _ => Some (Vtir.BitXor lhs rhs) | Vuir.Eq _ _ _ => Some (Vtir.Eq lhs rhs)
  | Vuir.Neq _ _ _ => Some (Vtir.Neq lhs rhs) | Vuir.Lt _ _ _ => Some (Vtir.Lt lhs rhs)
  | Vuir.Lte _ _ _ => Some (Vtir.Lte lhs rhs) | Vuir.Gt _ _ _ => Some (Vtir.Gt lhs rhs)
  | Vuir.Gte _ _ _ => Some (Vtir.Gte lhs rhs)
  | _ => None
  end.

Definition is_cmp (op : Vuir.Opcode) : bool :=
  match op with
  | Vuir.Eq _ _ _ | Vuir.Neq _ _ _ | Vuir.Lt _ _ _ | Vuir.Lte _ _ _ | Vuir.Gt _ _ _ | Vuir.Gte _ _ _ => true
  | _ => false
  end.

Definition analyze_operator b (op : Vuir.Opcode) (lhs rhs : InstructionRef) (span : Span.Span)
    : M (Result InstructionRef) :=
  if is_cmp op then analyze_comparaison_op b op lhs rhs span else analyze_binary b op lhs rhs span.

(** The types an operator works on. *)
Definition operand_type_ok (op : Vuir.Opcode) (t : Ty) : bool :=
  if is_cmp op then true else if is_arith op then type_is_numeric (KType t) else is_bits_type (KType t).

(** The emission, with the type its opcode takes. *)
Definition emits b (op : Vuir.Opcode) (l r : InstructionRef) (ty : Z) s (out : Result InstructionRef) s' : Prop :=
  exists o, vtir_op op l r = Some o /\ out = Ok (next_inst s) /\ s' = emitted b o s /\
    typed s' (next_inst s) (if is_cmp op then bool_t (ValueStore.common (store_of s)) else ty).

Lemma runs_comptime_any s (r : InstructionRef) ty (Q : option Key -> Sema -> Prop) :
  typed s r ty -> (forall k, (is_instruction r = true -> k = None) -> Q k s) -> runs (comptime_key r) s Q.
Proof.
  intros Ht HQ. destruct r as [id|i]; [exists None, s; split; [done|by apply HQ]|]. inversion Ht as [? k x ? Hat| | | |]; subst.
  eapply runs_comptime_key; [exact Hat|]. by apply HQ.
Qed.

Lemma runs_unify_same admits b (l r : InstructionRef) ty t x inc span s Q :
  at_ (store_of s) ty (KType t, x) -> Q (Ok (ty, l, r)) s -> runs (unify admits b l r ty ty inc span) s Q.
Proof. intros Hat HQ. eapply unify_step; [exact Hat..|]. rewrite bool_decide_true by done. by run. Qed.

Lemma emit_operator n b s op l r ty o Q :
  ready n b s -> typed s l ty -> vtir_op op l r = Some o ->
  (forall out s', emits b op l r ty s out s' -> Q out s') -> runs (emit b o) s Q.
Proof.
  intros Hr Hl Ho HQ. unfold emit. run. eapply runs_inst; [exact Hr|]. run. apply HQ. exists o. split_and!; [done..|].
  destruct op; try done; injection Ho as <-; cbn [is_cmp]; first [by apply typed_next_is|by eapply typed_next_same].
Qed.

(** Operands that are not both constants: whatever the code does with two constants,
    it falls through. *)
Lemma runs_operands {B} s l r ty (F : option Key -> option Key -> M B) E Q :
  typed s l ty -> typed s r ty -> is_instruction l || is_instruction r = true ->
  (forall kl kr, kl = None \/ kr = None -> F kl kr = E) -> runs E s Q ->
  runs (kl ← comptime_key l; kr ← comptime_key r; F kl kr) s Q.
Proof.
  intros Hl Hr Hinst HF HE. apply runs_seq. eapply runs_comptime_any; [exact Hl|]. intros kl Hkl.
  apply runs_seq. eapply runs_comptime_any; [exact Hr|]. intros kr Hkr.
  rewrite HF; [done|]. apply orb_true_iff in Hinst as [H|H]; auto.
Qed.

(** An operator on operands of one type that admits it, not both constants,
    emits its instruction, once, at the end of the block and after its operands.
    The instruction has the type of the operands, [bool] for a comparison. *)
Theorem runtime_operator n b s op l r ty t x span :
  ready n b s -> typed s l ty -> typed s r ty -> at_ (store_of s) ty (KType t, x) ->
  operand_type_ok op t = true -> vtir_op op l r <> None -> is_instruction l || is_instruction r = true ->
  runs (analyze_operator b op l r span) s (emits b op l r ty s).
Proof.
  intros Hr Hl Hrr Hat Hop Ho Hinst. destruct (vtir_op op l r) as [o|] eqn:Hv; [|done].
  assert (Hemit : runs (emit b o) s (emits b op l r ty s)) by (eapply emit_operator; [exact Hr|exact Hl|exact Hv|auto]).
  unfold analyze_operator, analyze_binary, operand_type_ok in *.
  destruct (is_cmp op) eqn:Hcmp; [|destruct (is_arith op) eqn:Har].
  - unfold analyze_comparaison_op. do 4 run_step. apply runs_try_bind. eapply runs_unify_same; [exact Hat|]. cbn beta match.
    eapply runs_operands; [exact Hl|exact Hrr|exact Hinst| |].
    { intros kl kr [->| ->]; [reflexivity|]. by destruct kl as [[]|]. }
    by destruct op; try done; injection Hv as <-.
  - unfold analyze_arithmetic_op. do 6 run_step. rewrite Hop. do 3 run_step. rewrite Hop. cbn [negb].
    apply runs_try_bind. eapply runs_unify_same; [exact Hat|]. cbn beta match.
    eapply runs_operands; [exact Hl|exact Hrr|exact Hinst| |].
    { intros kl kr [->| ->]; [reflexivity|]. by destruct kl as [[]|]. }
    by destruct op; try done; injection Hv as <-.
  - unfold analyze_bitwise_op. do 8 run_step. rewrite Hop. cbn [negb].
    apply runs_try_bind. eapply runs_unify_same; [exact Hat|]. cbn beta match.
    eapply runs_operands; [exact Hl|exact Hrr|exact Hinst| |].
    { intros kl kr [->| ->]; [reflexivity|]. by destruct kl as [[]|]. }
    by destruct op; try done; injection Hv as <-.
Qed.

End Folding.

(** ** Applications *)

Section Witnesses.
Import SemaExample.
#[local] Definition here : Span.Span := Span.mk 0 0.
#[local] Definition add_op : Vuir.Opcode := Vuir.Add (Interned 0) (Interned 0) here.
#[local] Definition shl_op : Vuir.Opcode := Vuir.Shl (Interned 0) (Interned 0) here.
#[local] Definition eq_op : Vuir.Opcode := Vuir.Eq (Interned 0) (Interned 0) here.

Lemma operands_of s l r ty t x y :
  int_at s l ty t x -> int_at s r ty t y -> is_integer t = true ->
  width_ok (int_width (ValueLayout.ptr_width_in_bits (target (cu s))) t) -> int_operands s l ty t x r ty t y.
Proof. by constructor. Qed.

(** [200 + 100] in [u8] is [44]. *)
Lemma comptime_arithmetic_witness : exists s l r ty,
  runs (analyze_arithmetic_op 0 add_op (Interned l) (Interned r) here) s
    (fun out s' => folds_to s ty (Int false 8) out s' 44).
Proof.
  destruct (two_constants (Int false 8) 200 100 eq_refl) as (s & l & r & ty & Hr & Hl & Hrr & _ & Hp); [lia..|].
  exists s, l, r, ty.
  pose proof (comptime_arithmetic 98 0 s add_op l ty (Int false 8) 200 r ty (Int false 8) 100 here
    (ready_le 100 100 0 s (le_n _) Hr)) as H.
  unfold operator_spec in H. rewrite Hp in H. apply H; [|reflexivity].
  apply operands_of; [exact Hl|exact Hrr|reflexivity|rewrite Hp; reflexivity].
Defined.

(** [1 << 9] in [u8] is reported. *)
Lemma comptime_bits_witness : exists s l r,
  runs (analyze_bitwise_op 0 shl_op (Interned l) (Interned r) here) s
    (fun out s' => exists v, extends (store_of s) v /\ failed_with_error (with_values v s) out s').
Proof.
  destruct (two_constants (Int false 8) 1 9 eq_refl) as (s & l & r & ty & Hr & Hl & Hrr & _ & Hp); [lia..|].
  exists s, l, r.
  pose proof (comptime_bits 98 0 s shl_op l ty (Int false 8) 1 r ty (Int false 8) 9 here
    (ready_le 100 100 0 s (le_n _) Hr)) as H.
  apply H; [|reflexivity]. apply operands_of; [exact Hl|exact Hrr|reflexivity|rewrite Hp; reflexivity].
Defined.

(** [~ 5] in [u8] is the constant [-6]. *)
Lemma comptime_not_witness : exists s l ty,
  runs (analyze_bitwise_not_op 0 (Interned l) here) s (fun out s' => folds_to s ty (Int false 8) out s' (-6)).
Proof.
  destruct (two_constants (Int false 8) 5 5 eq_refl) as (s & l & r & ty & Hr & Hl & _); [lia..|].
  exists s, l, ty. apply (comptime_not 99 0 s l ty (Int false 8) 5 here Hr Hl eq_refl).
Defined.

(** [3 == 4] is computed as [3 >= 4], and so is [4 == 3]: true. *)
Lemma comptime_comparison_witness : exists s l r,
  runs (analyze_comparaison_op 0 eq_op (Interned l) (Interned r) here) s (fun out s' => exists i st,
    out = Ok (Interned i) /\ s' = with_values st s /\ extends (store_of s) st /\ exists e, at_ st i (KBool true, e)).
Proof.
  destruct (two_constants (Int true 32) 4 3 eq_refl) as (s & l & r & ty & Hr & Hl & Hrr & _ & Hp); [lia..|].
  exists s, l, r.
  apply (comptime_comparison 98 0 s eq_op l ty (Int true 32) 4 r ty (Int true 32) 3 here true
    (ready_le 100 100 0 s (le_n _) Hr)); [|reflexivity].
  apply operands_of; [exact Hl|exact Hrr|reflexivity|rewrite Hp; reflexivity].
Defined.

Lemma comptime_fold_in_range_witness : exists s l r ty out s',
  analyze_binary 0 add_op (Interned l) (Interned r) here s = Ret (Ok out, s') /\
  exists i z, out = Interned i /\ int_at s' i ty (Int false 8) z /\ in_range (Some (false, 8)) z = true.
Proof.
  destruct (two_constants (Int false 8) 200 100 eq_refl) as (s & l & r & ty & Hr & Hl & Hrr & _ & Hp); [lia..|].
  assert (Hops : int_operands s l ty (Int false 8) 200 r ty (Int false 8) 100).
  { apply operands_of; [exact Hl|exact Hrr|reflexivity|rewrite Hp; reflexivity]. }
  pose proof (arithmetic_folds 98 0 s add_op l ty (Int false 8) 200 r ty (Int false 8) 100 here
    (ready_le 100 100 0 s (le_n _) Hr) Hops eq_refl) as H.
  unfold operator_spec in H. rewrite Hp in H. destruct H as (out & s' & Hrun & i & v & -> & _).
  exists s, l, r, ty, (Interned i), s'. split; [exact Hrun|].
  pose proof (comptime_fold_in_range 98 0 s add_op l ty (Int false 8) 200 r ty (Int false 8) 100 here
    (Int false 8) (Interned i) s' (ready_le 100 100 0 s (le_n _) Hr) Hops eq_refl eq_refl) as H.
  rewrite Hp in H. exact (H eq_refl eq_refl Hrun).
Defined.

(** The sum of a constant and of a sum that the block computes. *)
Lemma runtime_operator_witness : exists s l ty,
  runs (analyze_operator 0 add_op (Interned l) (Instruction 0) here) s
    (emits 0 add_op (Interned l) (Instruction 0) ty s).
Proof.
  destruct (two_constants (Int false 8) 200 100 eq_refl) as (s & l & r & ty & Hr & Hl & Hrr & Hi & Hp); [lia..|].
  destruct (int_at_type _ _ _ _ _ Hl) as [e Hat]. pose proof (int_at_typed _ _ _ _ _ Hl) as Hty.
  exists (emitted 0 (Vtir.Add (Interned l) (Interned r)) s), l, ty.
  assert (Hnext : next_inst s = Instruction 0) by (unfold next_inst; rewrite Hi; reflexivity).
  apply (runtime_operator 100 0 _ add_op (Interned l) (Instruction 0) ty (Int false 8) e here).
  - apply ready_emitted; [exact Hr|rewrite Hi; vm_compute; discriminate|]. intros x [= <-]. exact I.
  - apply typed_emitted, Hty.
  - rewrite <- Hnext. eapply typed_next_same; [reflexivity|exact Hty].
  - exact Hat.
  - reflexivity.
  - discriminate.
  - reflexivity.
Defined.
End Witnesses.
End SemaFoldSpec.
