(* ===== verification/SemaLinearSpec.v ===== *)
(** * Linear values

    A value of a linear type is tracked by a slot.  Loading it or passing it on
    moves it.  Whatever sequence of operations the analysis performs, a tracked
    value is moved at most once; the values never moved, and no others, are
    reported at the end of the body. *)

From S2P Require Import Prelude Words Bytes Span Token Diagnostic Ast HashIndex ShardedMap.
From S2P Require Import Anyint Value ValueStore ValueSpec StoreLogic ValueLayout Vuir Vtir VtirSpec.
From S2P Require Import SemaState SemaAccess SemaFold SemaInit SemaLogic SemaIntSpec SemaExample.
From stdpp Require Import gmap.

#[local] Open Scope Z_scope.
#[local] Open Scope sema_scope.

Module SemaLinearSpec.
Import Value ValueStore ValueSpec StoreLogic IrId VtirSpec Sema SemaAccess SemaInit SemaLogic.

Section Linear.
Context `{!Setting, !Workers}.
Implicit Types (s : Sema) (r : InstructionRef) (slot : LinearSlot).

(** ** Operations that leave the slots alone *)

(** If [m] returns, it has not touched the slots. *)
Definition keeps {A} (m : M A) : Prop :=
  forall s a s', m s = Ret (a, s') -> linear_slots s' = linear_slots s.

Lemma keeps_seq {A B} (m : M A) (k : A -> M B) : keeps m -> (forall a, keeps (k a)) -> keeps (m ≫= k).
Proof.
  intros Hm Hk s b s'. unfold mbind, M_bind. destruct (m s) as [[a s1]|] eqn:Ha; [|done].
  simpl. intros Hb. rewrite (Hk _ _ _ _ Hb). by eapply Hm.
Qed.

Lemma keeps_try {A B} (m : M (Result A)) (k : A -> M (Result B)) :
  keeps m -> (forall a, keeps (k a)) -> keeps (try_bind k m).
Proof. intros Hm Hk. apply keeps_seq; [done|]. intros [a|e]; [apply Hk|]. by intros s b s' [= <- <-]. Qed.

Lemma keeps_mret {A} (a : A) : keeps (mret a).
Proof. by intros s b s' [= <- <-]. Qed.

Lemma keeps_gets {A} (f : Sema -> A) : keeps (gets f).
Proof. by intros s b s' [= <- <-]. Qed.

Lemma keeps_lift {A} (m : res A) : keeps (lift m).
Proof. intros s b s'. unfold lift. by destruct m; intros [= <- <-]. Qed.

Lemma keeps_query {A} (f : Store -> res A) : keeps (query f).
Proof. intros s b s'. unfold query. by destruct (f _); intros [= <- <-]. Qed.

Lemma keeps_type_of r : keeps (type_of r).
Proof. intros s b s'. unfold type_of. by destruct (Vtir.type_of _ _ _ _); intros [= <- <-]. Qed.

Lemma keeps_modify f : (forall s, linear_slots (f s) = linear_slots s) -> keeps (modify f).
Proof. by intros Hf s b s' [= <- <-]. Qed.

Create HintDb keeps.
#[local] Hint Resolve keeps_mret keeps_gets keeps_lift keeps_query keeps_type_of : keeps.
Ltac keeps :=
  repeat first
    [ apply keeps_seq; [|intros ?] | apply keeps_try; [|intros ?] | apply keeps_modify; intros ?; reflexivity
    | case_match | solve [auto with keeps] | progress unfold fail_at, push_error_at, push_error, moved_error, diag_span,
        unreachable, ok, fail, index_to_key, display, loadable, pointed_value, decl_at, inst, inst_id, block_at, set_block ].

(** ** Inversions *)

Lemma seq_inv {A B} (m : M A) (k : A -> M B) s b s1 :
  (m ≫= k) s = Ret (b, s1) -> exists a s2, m s = Ret (a, s2) /\ k a s2 = Ret (b, s1).
Proof. unfold mbind, M_bind. destruct (m s) as [[a s2]|]; [|done]. eauto. Qed.

Lemma try_inv {A B} (m : M (Result A)) (k : A -> M (Result B)) s b s1 :
  try_bind k m s = Ret (b, s1) ->
  exists out s2, m s = Ret (out, s2) /\ match out with Ok a => k a s2 = Ret (b, s1) | Err e => b = Err e /\ s1 = s2 end.
Proof.
  intros (out & s2 & Hm & Hk)%seq_inv. exists out, s2. split; [done|]. destruct out; [done|]. by injection Hk as <- <-.
Qed.

(** Queries do not change the state. *)
Lemma query_reads {A} (f : Store -> res A) s a s1 : query f s = Ret (a, s1) -> s1 = s.
Proof. unfold query. by destruct (f _); intros [= <- <-]. Qed.

Lemma type_of_reads r s ty s1 : type_of r s = Ret (ty, s1) -> s1 = s.
Proof. unfold type_of. by destruct (Vtir.type_of _ _ _ _); intros [= <- <-]. Qed.

Lemma linear_reads ty s lin s1 : type_is_linear ty s = Ret (lin, s1) -> s1 = s.
Proof. apply query_reads. Qed.

Lemma key_reads i s k s1 : index_to_key i s = Ret (k, s1) -> s1 = s.
Proof. apply query_reads. Qed.

Definition linear_pointee (key : Key) : M bool :=
  match key with KType (TPtr ptr) => type_is_linear (ptr_pointee_ty ptr) | _ => mret false end.

Lemma linear_pointee_reads k s lin s1 :
  linear_pointee k s = Ret (lin, s1) -> s1 = s /\ (lin = true -> is_ptr_type k = true).
Proof.
  unfold linear_pointee. repeat case_match; simplify_eq; try by intros [= <- <-]. by intros ->%linear_reads.
Qed.

(** ** Uses *)

Inductive Use : Set :=
  | Load (block : nat) (src : InstructionRef) (span : Span.Span)
  | Consume (value : InstructionRef) (span : Span.Span).

Definition operand (u : Use) : InstructionRef := match u with Load _ r _ | Consume r _ => r end.

Definition use (u : Use) : M (Result unit) :=
  match u with
  | Load block src span => _ ←? analyze_load block src span; ok tt
  | Consume value span => try_consume_linear_value value span
  end.

(** Does the use take a linear value: through a pointer, or as it is? *)
Definition takes_linear (u : Use) : M bool :=
  match u with
  | Load _ src _ =>
      ty ← type_of src; key ← index_to_key ty;
      match key with KType (TPtr ptr) => type_is_linear (ptr_pointee_ty ptr) | _ => mret false end
  | Consume value _ => ty ← type_of value; type_is_linear ty
  end.

Lemma takes_linear_reads u s b s1 : takes_linear u s = Ret (b, s1) -> s1 = s.
Proof.
  destruct u as [block src span|value span]; cbn [takes_linear].
  - intros (ty & s2 & Hty & Hrun)%seq_inv. apply type_of_reads in Hty as ->.
    apply seq_inv in Hrun as (k & s3 & Hk & Hrun). apply key_reads in Hk as ->.
    by apply linear_pointee_reads in Hrun as [-> _].
  - intros (ty & s2 & Hty & Hrun)%seq_inv. apply type_of_reads in Hty as ->. by apply linear_reads in Hrun.
Qed.

(** [history s l s']: uses lead from [s] to [s'], and [l] lists the linear values
    that those that succeeded have moved.  The analysis goes on after errors. *)
Inductive history : Sema -> list InstructionRef -> Sema -> Prop :=
  | history_nil s : history s [] s
  | history_moved s u s1 l s2 :
      takes_linear u s = Ret (true, s) -> use u s = Ret (Ok tt, s1) -> history s1 l s2 ->
      history s (operand u :: l) s2
  | history_plain s u s1 l s2 :
      takes_linear u s = Ret (false, s) -> use u s = Ret (Ok tt, s1) -> history s1 l s2 -> history s l s2
  | history_failed s u e s1 l s2 :
      use u s = Ret (Err e, s1) -> history s1 l s2 -> history s l s2.

Definition mark (span : Span.Span) slot : LinearSlot :=
  mk_slot (slot_ty slot) (slot_span slot) true (Some span) (slot_name slot).

(** What [consume_slot] does to the slots. *)
Lemma consume_slot_slots r span s out s' :
  consume_slot r span s = Ret (out, s') ->
  match out with
  | Ok _ => exists f, (forall slot, consumed (f slot) = true) /\ linear_slots s' = alter f r (linear_slots s) /\
              forall slot, linear_slots s !! r = Some slot -> consumed slot = false
  | Err _ => linear_slots s' = linear_slots s
  end.
Proof.
  unfold consume_slot, gets, mbind at 1, M_bind at 1. cbn [mbind res_bind].
  destruct (linear_slots s !! r) as [slot|] eqn:Hr; [destruct (consumed slot) eqn:Hc|].
  - assert (Hk : keeps (moved_error slot span)) by keeps.
    unfold mbind, M_bind. destruct (moved_error slot span s) as [[d s1]|] eqn:Hd; [|done]. simpl.
    intros [= <- <-]. simpl. by eapply Hk.
  - intros [= <- <-]. exists (mark span). split_and!; [done| |].
    + simpl. apply map_eq. intros r'. destruct (decide (r = r')) as [<-|Hne].
      * by rewrite lookup_insert_eq, lookup_alter_eq, Hr.
      * by rewrite lookup_insert_ne, lookup_alter_ne.
    + intros slot' [= <-]. done.
  - intros [= <- <-]. exists (mark span). split_and!; [done| |done].
    apply map_eq. intros r'. destruct (decide (r = r')) as [<-|Hne]; [by rewrite lookup_alter_eq, Hr|by rewrite lookup_alter_ne].
Qed.

Definition moved r s s1 : Prop :=
  exists f, (forall slot, consumed (f slot) = true) /\ linear_slots s1 = alter f r (linear_slots s) /\
    forall slot, linear_slots s !! r = Some slot -> consumed slot = false.

(** The part of a load after the slot. *)
Definition load_value (block : nat) (src : InstructionRef) : M (Result InstructionRef) :=
  value ← loadable src;
  match value with
  | Some value =>
      key ← index_to_key value;
      ptr ← lift (as_ptr key);
      value ← pointed_value (ptr_kind ptr);
      ok (Interned value)
  | None => r ← inst block (Vtir.Load src); ok r
  end.

Lemma load_value_slots block src s out s1 :
  load_value block src s = Ret (out, s1) -> linear_slots s1 = linear_slots s /\ exists a, out = Ok a.
Proof.
  intros Hrun. split.
  - assert (Hk : keeps (load_value block src)) by (unfold load_value; keeps). by eapply Hk.
  - unfold load_value in Hrun. apply seq_inv in Hrun as ([value|] & s2 & _ & Hrun).
    + do 3 apply seq_inv in Hrun as (? & ? & _ & Hrun). injection Hrun as <- <-. eauto.
    + apply seq_inv in Hrun as (? & ? & _ & Hrun). injection Hrun as <- <-. eauto.
Qed.

Lemma if_consume r (lin : bool) span s (out : Result unit) s1 :
  (if lin then consume_slot r span else ok tt) s = Ret (out, s1) ->
  match out with
  | Ok _ => if lin then moved r s s1 else linear_slots s1 = linear_slots s
  | Err _ => linear_slots s1 = linear_slots s
  end.
Proof. destruct lin; [by intros ?%consume_slot_slots|by intros [= <- <-]]. Qed.

Lemma use_slots u s out s1 :
  use u s = Ret (out, s1) ->
  match out with
  | Ok _ => exists lin : bool, takes_linear u s = Ret (lin, s) /\
              if lin then moved (operand u) s s1 else linear_slots s1 = linear_slots s
  | Err _ => linear_slots s1 = linear_slots s
  end.
Proof.
  destruct u as [b src span|v span]; cbn [use operand].
  - intros (r & s2 & Hload & Hr)%try_inv.
    assert (out = match r with Ok _ => Ok tt | Err e => Err e end /\ s1 = s2) as [-> ->].
    { destruct r; [by injection Hr as <- <-|by destruct Hr as [-> ->]]. }
    clear Hr. unfold analyze_load in Hload.
    apply seq_inv in Hload as (ty & s3 & Hty & Hload). pose proof (type_of_reads _ _ _ _ Hty) as ->.
    apply seq_inv in Hload as (k & s4 & Hk & Hload). pose proof (key_reads _ _ _ _ Hk) as ->.
    apply seq_inv in Hload as (lin & s5 & Hlin & Hload). pose proof (linear_pointee_reads _ _ _ _ Hlin) as [-> Hptr].
    apply try_inv in Hload as (u & s6 & Hu & Hload). apply if_consume in Hu.
    destruct u as [u|e]; [|by destruct Hload as [-> ->]].
    destruct (is_ptr_type k) eqn:Hp; cbn [negb] in Hload.
    + destruct (load_value_slots _ _ _ _ _ Hload) as [Hs [a ->]]. exists lin. split.
      { cbn [takes_linear]. unfold mbind at 1, M_bind at 1. rewrite Hty. cbn [mbind res_bind].
        unfold mbind at 1, M_bind at 1. rewrite Hk. exact Hlin. }
      unfold moved in *. destruct lin; [|congruence]. by rewrite Hs.
    + assert (lin = false) as -> by (destruct lin; [specialize (Hptr eq_refl); congruence|done]).
      assert (Hkeep : linear_slots s2 = linear_slots s6).
      { match type of Hload with ?m _ = _ => assert (keeps m) as Hm by keeps end. by eapply Hm. }
      apply seq_inv in Hload as (? & ? & _ & Hload). apply seq_inv in Hload as (? & ? & _ & [= <- <-]). congruence.
  - intros Hrun. unfold try_consume_linear_value in Hrun.
    apply seq_inv in Hrun as (ty & s2 & Hty & Hrun). pose proof (type_of_reads _ _ _ _ Hty) as ->.
    apply seq_inv in Hrun as (lin & s3 & Hlin & Hrun). pose proof (linear_reads _ _ _ _ Hlin) as ->.
    apply if_consume in Hrun. destruct out; [|done]. exists lin. split; [|done].
    cbn [takes_linear]. unfold mbind, M_bind. rewrite Hty. exact Hlin.
Qed.

(** ** Along a history *)

(** How often [l] moves [r]. *)
Definition times r (l : list InstructionRef) : nat := length (filter (fun r' => r' = r) l).

Definition used (b : bool) : nat := if b then 1 else 0.

Lemma times_cons r r' l : times r (r' :: l) = (times r l + used (bool_decide (r' = r)))%nat.
Proof.
  unfold times. rewrite filter_cons. destruct (decide (r' = r)); [rewrite bool_decide_true by done|rewrite bool_decide_false by done];
    simpl; lia.
Qed.

Lemma times_elem r l : times r l = 0%nat <-> r ∉ l.
Proof.
  unfold times. rewrite length_zero_iff_nil. split.
  - intros Hf Hin. assert (r ∈ filter (fun r' => r' = r) l) as Hr by (by apply list_elem_of_filter).
    rewrite Hf in Hr. by apply not_elem_of_nil in Hr.
  - intros Hin. destruct (filter _ l) as [|r' l'] eqn:Hf; [done|].
    assert (r' ∈ filter (fun r' => r' = r) l) as [-> ?]%list_elem_of_filter by (rewrite Hf; by left). done.
Qed.

Lemma history_slot s l s1 r :
  history s l s1 ->
  match linear_slots s !! r with
  | Some slot => exists slot', linear_slots s1 !! r = Some slot' /\
                   (times r l + used (consumed slot) = used (consumed slot'))%nat
  | None => linear_slots s1 !! r = None
  end.
Proof.
  induction 1 as [s|s u s1 l s2 Hlin Hu Hl IH|s u s1 l s2 Hlin Hu Hl IH|s u e s1 l s2 Hu Hl IH].
  - destruct (linear_slots s !! r) as [slot|]; [by exists slot|done].
  - destruct (use_slots _ _ _ _ Hu) as (lin & Hlin' & Hm). rewrite Hlin in Hlin'. injection Hlin' as <-.
    destruct Hm as (f & Hf & Hs & Hnot). rewrite Hs in IH. rewrite times_cons.
    destruct (decide (operand u = r)) as [Heq|Hne].
    + rewrite Heq in *. rewrite bool_decide_true by done. rewrite lookup_alter_eq in IH.
      destruct (linear_slots s !! r) as [slot|]; simpl in IH; [|done].
      destruct IH as (slot' & Hs' & Ht). exists slot'. split; [done|]. rewrite Hf in Ht. rewrite (Hnot _ eq_refl).
      unfold used in *. lia.
    + rewrite bool_decide_false by done. rewrite lookup_alter_ne in IH by done. simpl. by rewrite Nat.add_0_r.
  - destruct (use_slots _ _ _ _ Hu) as (lin & Hlin' & Hm). rewrite Hlin in Hlin'. injection Hlin' as <-.
    by rewrite Hm in IH.
  - pose proof (use_slots _ _ _ _ Hu) as Hm. simpl in Hm. by rewrite Hm in IH.
Qed.

(** ** The values left over *)

Definition reported s : list Diagnostic.Diagnostic := default [] (sema_errors (cu s) !! Sema.module s).

Lemma unconsumed_error_reports slot s u s1 :
  unconsumed_error slot s = Ret (u, s1) -> exists d, reported s1 = reported s ++ [d] /\ linear_slots s1 = linear_slots s.
Proof.
  unfold unconsumed_error. intros (ty & s2 & Hty & Hrun)%seq_inv.
  apply (query_reads (fun v => display_index query_fuel v (slot_ty slot))) in Hty as ->.
  apply seq_inv in Hrun as (at_ & s3 & [= <- <-] & [= <- <-]). eexists. split; [|done].
  unfold reported. simpl. by rewrite lookup_insert_eq.
Qed.

Lemma check_unconsumed_reports s u s1 :
  check_unconsumed s = Ret (u, s1) ->
  exists ds, reported s1 = reported s ++ ds /\
    length ds = length (filter (fun slot => consumed slot = false) (map_to_list (linear_slots s)).*2).
Proof.
  unfold check_unconsumed. intros (slots & s2 & Hg & Hrun)%seq_inv. injection Hg as Hslots Hs. rewrite <- Hs in Hrun.
  clear s2 Hs. rewrite Hslots. clear Hslots. revert s Hrun.
  generalize (filter (fun slot => consumed slot = false) (map_to_list slots).*2) as l.
  induction l as [|slot l IH]; intros s0 Hrun.
  - injection Hrun as <- <-. exists []. by rewrite app_nil_r.
  - apply seq_inv in Hrun as (? & s2 & Hslot & Hrun).
    destruct (unconsumed_error_reports _ _ _ _ Hslot) as (d & Hd & _).
    destruct (IH _ Hrun) as (ds & Hds & Hlen). exists (d :: ds). rewrite Hds, Hd, <- app_assoc. split; [done|].
    simpl. by rewrite Hlen.
Qed.

Lemma count_values (P : LinearSlot -> Prop) `{!forall slot, Decision (P slot)} (m : gmap InstructionRef LinearSlot) :
  length (filter P (map_to_list m).*2) = size (filter (fun rs => P rs.2) m).
Proof.
  induction m as [|r slot m Hr IH] using map_ind.
  { by rewrite map_to_list_empty, map_filter_empty, map_size_empty. }
  rewrite (map_to_list_insert m r slot Hr). cbn [fmap list_fmap]. rewrite filter_cons. cbn [snd].
  destruct (decide (P slot)).
  - rewrite map_filter_insert_True, map_size_insert_None by (done || by apply map_lookup_filter_None; left).
    simpl. by rewrite IH.
  - by rewrite map_filter_insert_not' by naive_solver.
Qed.


End Linear.

(** ** Application *)

(** A function with two parameters of a linear type, one of which it consumes. *)
Section Witness.
Import SemaExample.

Definition handle_ns : NamespaceType :=
  {| ns_inst := {| Value.module := 0; Value.inst := 0 |}; captures := [] |}.
Definition handle : TypeStruct :=
  {| struct_name := bytes_of "Handle"; struct_fields := []; layout := Standard; struct_namespace := 0;
     struct_linear := true |}.

Definition handles_build : res Store :=
  m ← ShardedIndexMap.new 1 16;
  '(_, v) ← ValueStore.intern_non_trivial (ValueStore.mk m (common_of [])) (KType (Struct handle_ns)) (VStruct handle);
  Ret v.
Definition handles : Store :=
  match handles_build with Ret v => v | Fault _ => ValueStore.mk (ShardedIndexMap.mk []) (common_of []) end.

Definition params : Sema :=
  let s := state_of handles [Vtir.FnArg (bytes_of "a") 0; Vtir.FnArg (bytes_of "b") 0] in
  let slot name := mk_slot 0 (Span.mk 0 1) false None (bytes_of name) in
  set_linear_slots (<[Instruction 0 := slot "a"%string]> (<[Instruction 1 := slot "b"%string]> ∅)) s.
Definition consume_a : Use := Consume (Instruction 0) (Span.mk 5 6).

End Witness.
End SemaLinearSpec.
