(* ===== verification/SemaInitSpec.v ===== *)
(** * Switches and initialisers

    [check_switch_exhaustive] accepts exactly the switches whose patterns cover
    every variant, and names the missing ones.  [analyze_struct_init] builds a
    struct exactly when every field has a value and every name is a field's. *)

From S2P Require Import Prelude Words Bytes Span Token Diagnostic Ast HashIndex ShardedMap.
From S2P Require Import Anyint Value ValueStore ValueSpec StoreLogic ValueLayout Vuir Vtir VtirSpec.
From S2P Require Import SemaState SemaAccess SemaFold SemaInit SemaLogic SemaIntSpec SemaExample.
From stdpp Require Import gmap.

#[local] Open Scope Z_scope.
#[local] Open Scope sema_scope.

Module SemaInitSpec.
Import Value ValueStore ValueSpec StoreLogic IrId VtirSpec Sema SemaAccess SemaFold SemaInit SemaLogic SemaIntSpec.

(** ** Switches *)

Section Switch.
Context `{SL : SettingLaws} {WK : Workers}.
Implicit Types (s : Sema) (b : nat).

(** The variants of a type: the tag and the name of each. *)
Inductive variants s (ty : Z) : list (Z * list Z) -> Prop :=
  | variants_enum ns e :
      at_ (store_of s) ty (KType (Enum ns), VEnum e) ->
      variants s ty (map (fun f => (ef_value f, ef_name f)) (enum_fields e))
  | variants_union ns u tag_ty tag_ns e :
      at_ (store_of s) ty (KType (Union ns), VUnion u) -> union_tag_ty u = Some tag_ty ->
      at_ (store_of s) tag_ty (KType (Enum tag_ns), VEnum e) -> length (union_fields u) = length (enum_fields e) ->
      variants s ty (zip_with (fun f uf => (ef_value f, uf_name uf)) (enum_fields e) (union_fields u)).

(** The tag that a pattern stands for: a constant of an enum has one, another
    constant is its own. *)
Inductive covers s : InstructionRef -> Z -> Prop :=
  | covers_at i k x : at_ (store_of s) i (k, x) ->
      covers s (Interned i) (match k with KEnumTag _ val => val | _ => i end).

Lemma runs_pattern_tags s items tags Q :
  Forall2 (covers s) items tags -> Q tags s -> runs (pattern_tags items) s Q.
Proof.
  intros Hc. revert Q. induction Hc as [|item tag items tags Hi Hc IH]; intros Q HQ; cbn [pattern_tags]; [by run|].
  destruct Hi as [i k x Hat]. run. unfold pattern_tag. cbn [try_resolve_comptime_value]. run.
  apply IH. by run.
Qed.

(** The names of the variants whose tag is not covered. *)
Definition missing (vs : list (Z * list Z)) (tags : list Z) : list (list Z) :=
  (filter (fun v => v.1 ∉ tags) vs).*2.

Lemma missing_enum fields tags idx :
  missing_variants idx fields None tags = Ret (missing (map (fun f => (ef_value f, ef_name f)) fields) tags).
Proof.
  revert idx. unfold missing. induction fields as [|f fields IH]; intros idx; [done|]. cbn [missing_variants map].
  rewrite filter_cons, IH. cbn [fst]. case_bool_decide.
  - by rewrite decide_False by naive_solver.
  - by rewrite decide_True by done.
Qed.

Lemma missing_union fields ufields pre tags :
  length ufields = length fields ->
  missing_variants (length pre) fields (Some (pre ++ ufields)) tags =
    Ret (missing (zip_with (fun f uf => (ef_value f, uf_name uf)) fields ufields) tags).
Proof.
  revert ufields pre. unfold missing. induction fields as [|f fields IH]; intros [|uf ufields] pre Hlen; try done.
  cbn [missing_variants zip_with]. rewrite filter_cons. cbn [fst].
  assert (Hrest : missing_variants (S (length pre)) fields (Some (pre ++ uf :: ufields)) tags =
    Ret (missing (zip_with (fun f uf => (ef_value f, uf_name uf)) fields ufields) tags)).
  { specialize (IH ufields (pre ++ [uf])). rewrite length_app, Nat.add_1_r, <- app_assoc in IH. simpl in Hlen. apply IH. lia. }
  rewrite Hrest. unfold missing. case_bool_decide.
  - by rewrite decide_False by naive_solver.
  - rewrite decide_True by done. unfold get_idx. rewrite list_lookup_middle by done. done.
Qed.

(** The message. *)
Definition missing_message (names : list (list Z)) : list Z :=
  bytes_of "switch is not exhaustive, missing variant" ++
  (if (1 <? length names)%nat then bytes_of "s" else []) ++ bytes_of " `" ++ join_names names ++ bytes_of "`".

Lemma missing_nil vs tags : missing vs tags = [] <-> Forall (fun v => v.1 ∈ tags) vs.
Proof.
  unfold missing. split.
  - intros Hf%fmap_nil_inv. apply Forall_forall. intros v Hv. destruct (decide (v.1 ∈ tags)) as [|Hn]; [done|].
    assert (v ∈ filter (fun v => v.1 ∉ tags) vs) as Hin by (by apply list_elem_of_filter).
    rewrite Hf in Hin. by apply not_elem_of_nil in Hin.
  - intros Hall. induction Hall as [|v vs Hv Hall IH]; [done|]. rewrite filter_cons, decide_False by naive_solver. exact IH.
Qed.

(** C39: exhaustiveness, exactly.  On an enum or a tagged union, a switch without
    [else] is accepted, and nothing is reported, when the patterns cover every
    variant; otherwise it is rejected with one error that names the variants that
    are missing, in the order of the declaration. *)
Theorem switch_exhaustive s ty vs cases tags span :
  variants s ty vs -> Forall2 (covers s) (concat (map Vtir.items cases)) tags ->
  runs (check_switch_exhaustive ty cases span) s (fun accepted s' =>
    (accepted = true <-> Forall (fun v => v.1 ∈ tags) vs) /\
    if accepted then s' = s
    else exists d, s' = with_error d s /\ Diagnostic.message d = missing_message (missing vs tags)).
Proof.
  intros Hvs Hc. unfold check_switch_exhaustive.
  assert (Hfields : exists tag_fields union_fields, missing_variants 0 tag_fields union_fields tags = Ret (missing vs tags) /\
            forall Q, Q (Some (tag_fields, union_fields)) s -> runs (switch_fields ty span) s Q).
  { unfold switch_fields. destruct Hvs as [ns e Hat|ns u tag_ty tag_ns e Hat Htag He Hlen].
    - eexists _, None. split; [apply missing_enum|]. intros Q HQ. run. eapply runs_lift; [reflexivity|]. by run.
    - eexists _, (Some _). split; [by apply (missing_union _ _ [])|]. intros Q HQ. run. eapply runs_lift; [reflexivity|].
      rewrite Htag. run. rewrite Hlen, Nat.eqb_refl. eapply runs_lift; [reflexivity|]. by run. }
  destruct Hfields as (tag_fields & union_fields & Hm & Hfields). run. apply Hfields. run.
  eapply runs_pattern_tags; [exact Hc|]. run. eapply runs_lift; [exact Hm|].
  pose proof (missing_nil vs tags) as Hnil. destruct (missing vs tags) as [|name names] eqn:Hmiss; cbn beta match.
  - run. split; [|done]. split; [|done]. intros _. by apply Hnil.
  - run. unfold push_error_at. run. unfold diag_span. run. split.
    + split; [done|]. intros Hall. by apply Hnil in Hall.
    + eexists. split; [reflexivity|]. cbn. unfold missing_message. by destruct names.
Qed.

End Switch.

(** ** Struct initialisers *)

Section StructInit.
Context `{SL : SettingLaws} {WK : Workers} {TI : TypeInfo}.
Implicit Types (s : Sema) (b : nat) (r : InstructionRef).

(** A sequence of errors. *)
Definition with_errors (ds : list Diagnostic.Diagnostic) s : Sema := foldl (fun s d => with_error d s) s ds.

Lemma with_errors_cons d ds s : with_errors (d :: ds) s = with_errors ds (with_error d s).
Proof. done. Qed.

Lemma with_errors_app ds ds' s : with_errors (ds ++ ds') s = with_errors ds' (with_errors ds s).
Proof. unfold with_errors. by rewrite foldl_app. Qed.

Lemma with_errors_same ds s :
  store_of (with_errors ds s) = store_of s /\ instructions (with_errors ds s) = instructions s /\
  vuir_map (with_errors ds s) = vuir_map s /\ blocks (with_errors ds s) = blocks s.
Proof.
  revert s. induction ds as [|d ds IH]; intros s; [done|]. rewrite with_errors_cons. by destruct (IH (with_error d s)) as (-> & -> & -> & ->).
Qed.

Lemma ready_errors n b ds s : ready n b s -> ready n b (with_errors ds s).
Proof.
  destruct (with_errors_same ds s) as (Hv & Hi & _ & Hb). intros []. split; rewrite ?Hv, ?Hi, ?Hb; done.
Qed.

Lemma typed_errors ds s r ty : typed s r ty -> typed (with_errors ds s) r ty.
Proof. unfold typed. by destruct (with_errors_same ds s) as (-> & -> & _). Qed.

(** An operand that is a value, not a type. *)
Definition plain s r : Prop :=
  match r with Interned i => exists k x, at_ (store_of s) i (k, x) /\ is_type k = false | Instruction _ => True end.

Lemma plain_no_errors ds s r : plain s r -> plain (with_errors ds s) r.
Proof. unfold plain. by destruct (with_errors_same ds s) as (-> & _). Qed.

(** A value of the right type is left as it is. *)
Lemma runs_coerce_same n b b' s r ty span Q :
  ready n b s -> typed s r ty -> plain s r -> Q (Ok r) s -> runs (coerce b' ty r span) s Q.
Proof.
  intros Hr Ht Hp HQ. unfold coerce, coerce_fuel, coerce_with. apply runs_seq. unfold coerce_source.
  assert (Hsrc : runs (coerce_source r) s (fun t s' => t = ty /\ s' = s)).
  { unfold coerce_source. destruct r as [id|i]; [by run|]. destruct Hp as (k & x & Hat & Hk). run. rewrite Hk. by run. }
  eapply runs_mono; [|exact Hsrc]. intros t s' [-> ->]. run. rewrite Z.eqb_refl, orb_true_r. by run.
Qed.

Definition resolved s (r0 : InstructionRef) : option InstructionRef :=
  match r0 with Instruction id => vuir_map s !! id | Interned i => Some (Interned i) end.

Lemma runs_resolve_inst s r0 r Q : resolved s r0 = Some r -> Q r s -> runs (resolve_inst r0) s Q.
Proof.
  destruct r0 as [id|i]; simpl; [|by intros [= <-] HQ; run]. intros Hr HQ. run. rewrite Hr. by run.
Qed.

(** What is given: names with the operands of their values. *)
Abbreviation Given := (list (Vuir.AdtInitField * InstructionRef)).

(** The operand exists, and has the type of the field of that name. *)
Record given (st : TypeStruct) s (fr : Vuir.AdtInitField * InstructionRef) : Prop := {
  given_resolves : resolved s (Vuir.adt_value fr.1) = Some fr.2;
  given_typed : forall i sf, struct_field_idx_by_name st (Ident.symbol (Vuir.adt_name fr.1)) = Some i ->
    struct_fields st !! i = Some sf -> typed s fr.2 (sf_ty sf);
  given_plain : plain s fr.2;
}.

Definition index_of_given (st : TypeStruct) (fr : Vuir.AdtInitField * InstructionRef) : option nat :=
  struct_field_idx_by_name st (Ident.symbol (Vuir.adt_name fr.1)).

(** The value of field [i]: the last one given for it. *)
Definition value_of (st : TypeStruct) (frs : Given) (i : nat) : option InstructionRef :=
  snd <$> last (filter (fun fr => index_of_given st fr = Some i) frs).
Definition values_of (st : TypeStruct) (frs : Given) : list (option InstructionRef) :=
  map (value_of st frs) (seq 0 (length (struct_fields st))).

Definition unknown (st : TypeStruct) (frs : Given) : Given := filter (fun fr => index_of_given st fr = None) frs.
Definition all_constant (st : TypeStruct) (frs : Given) : bool :=
  forallb (fun fr => is_interned fr.2) (filter (fun fr => index_of_given st fr <> None) frs).

Lemma value_of_snoc st frs fr i :
  value_of st (frs ++ [fr]) i = if decide (index_of_given st fr = Some i) then Some fr.2 else value_of st frs i.
Proof.
  unfold value_of. rewrite filter_app, filter_cons, filter_nil. destruct (decide _); [by rewrite last_snoc|].
  by rewrite app_nil_r.
Qed.

Lemma values_of_snoc st frs fr i :
  index_of_given st fr = Some i -> <[i := Some fr.2]> (values_of st frs) = values_of st (frs ++ [fr]).
Proof.
  intros Hi. apply list_eq. intros j. unfold values_of.
  assert (Hlen : length (map (value_of st frs) (seq 0 (length (struct_fields st)))) = length (struct_fields st))
    by (by rewrite length_map, length_seq).
  destruct (decide (i = j)) as [<-|Hne].
  - destruct (decide (i < length (struct_fields st))%nat) as [Hlt|Hge].
    + rewrite list_lookup_insert_eq by lia. rewrite list_lookup_fmap, lookup_seq_lt by done. simpl.
      by rewrite value_of_snoc, decide_True.
    + rewrite !lookup_ge_None_2; rewrite ?length_insert, ?length_map, ?length_seq; lia || done.
  - rewrite list_lookup_insert_ne, !list_lookup_fmap by done. destruct (seq _ _ !! j) as [k|] eqn:Hk; [|done].
    apply lookup_seq in Hk as [-> _]. simpl. rewrite value_of_snoc, decide_False by congruence. done.
Qed.

Lemma values_of_unknown st frs fr : index_of_given st fr = None -> values_of st (frs ++ [fr]) = values_of st frs.
Proof.
  intros Hi. unfold values_of. apply map_ext. intros i. by rewrite value_of_snoc, decide_False by congruence.
Qed.

Lemma unknown_snoc st frs fr :
  unknown st (frs ++ [fr]) = unknown st frs ++ (if decide (index_of_given st fr = None) then [fr] else []).
Proof. unfold unknown. rewrite filter_app, filter_cons, filter_nil. done. Qed.

Lemma all_constant_snoc st frs fr :
  all_constant st (frs ++ [fr]) =
    all_constant st frs && (if decide (index_of_given st fr = None) then true else is_interned fr.2).
Proof.
  unfold all_constant. rewrite filter_app, forallb_app, filter_cons, filter_nil. f_equal.
  repeat destruct (decide _); try done; simpl; by rewrite ?andb_true_r.
Qed.

Definition failed_given (st : TypeStruct) (frs : Given) : bool := negb (bool_decide (unknown st frs = [])).

Lemma failed_snoc_unknown st frs fr : index_of_given st fr = None -> failed_given st (frs ++ [fr]) = true.
Proof.
  intros Hi. unfold failed_given. rewrite unknown_snoc, decide_True by done. rewrite bool_decide_false; [done|].
  by intros [_ ?]%app_nil.
Qed.

Lemma failed_snoc_known st frs fr i : index_of_given st fr = Some i -> failed_given st (frs ++ [fr]) = failed_given st frs.
Proof. intros Hi. unfold failed_given. rewrite unknown_snoc, decide_False by congruence. by rewrite app_nil_r. Qed.

Lemma display_struct s ty ns st :
  at_ (store_of s) ty (KType (Struct ns), VStruct st) -> display_index query_fuel (store_of s) ty = Ret (struct_name st).
Proof.
  intros (Hkv & _ & _)%at_kv. pose proof laws_fuel as Hf. destruct query_fuel as [|fuel]; [lia|].
  cbn [display_index]. rewrite Hkv. done.
Qed.

Lemma position_by_lt {A} (name : A -> list Z) fields k i : position_by name fields k = Some i -> (i < length fields)%nat.
Proof.
  revert i. induction fields as [|f fields IH]; intros i; simpl; [done|]. case_bool_decide; [intros [= <-]; lia|].
  destruct (position_by name fields k) as [j|]; simpl; [|done]. intros [= <-]. specialize (IH j eq_refl). lia.
Qed.

Lemma runs_init_fields n b s ty ns st ds frs pre :
  ready n b s -> at_ (store_of s) ty (KType (Struct ns), VStruct st) -> Forall (given st s) frs ->
  runs (init_fields b ty st frs.*1 (values_of st pre, all_constant st pre, failed_given st pre)) (with_errors ds s)
    (fun acc s' => exists ds', length ds' = length (unknown st frs) /\ s' = with_errors (ds ++ ds') s /\
       acc = (values_of st (pre ++ frs), all_constant st (pre ++ frs), failed_given st (pre ++ frs))).
Proof.
  intros Hr Hty Hall. revert ds pre. induction Hall as [|fr frs Hg Hall IH]; intros ds pre; cbn [fmap list_fmap init_fields].
  { run. exists []. by rewrite !app_nil_r. }
  destruct Hg as [Hres Htyped Hplain]. destruct (with_errors_same ds s) as (Hv & Hi & Hm & Hb).
  destruct (struct_field_idx_by_name st (Ident.symbol (Vuir.adt_name fr.1))) as [i|] eqn:Hidx.
  - assert (Hlt : (i < length (struct_fields st))%nat) by (by eapply position_by_lt).
    destruct (lookup_lt_is_Some_2 _ _ Hlt) as [sf Hsf]. specialize (Htyped i sf eq_refl Hsf).
    run. eapply runs_lift; [unfold get_idx; by rewrite Hsf|]. run.
    eapply runs_resolve_inst; [unfold resolved in *; rewrite Hm; exact Hres|]. run.
    eapply runs_coerce_same; [by apply ready_errors|by apply typed_errors|by apply plain_no_errors|]. cbn beta match. run.
    eapply runs_lift; [unfold set_idx; rewrite decide_True; [reflexivity|]; unfold values_of; by rewrite length_map, length_seq|].
    rewrite values_of_snoc by done. replace (all_constant st pre && is_interned fr.2) with (all_constant st (pre ++ [fr])).
    2:{ rewrite all_constant_snoc, decide_False; [done|]. unfold index_of_given. congruence. }
    rewrite <- (failed_snoc_known st pre fr i) by done. eapply runs_mono; [|apply IH].
    intros acc s' (ds' & Hlen & -> & ->). exists ds'. split_and!; [|done|by rewrite <- app_assoc].
    rewrite Hlen. unfold unknown. rewrite filter_cons, decide_False; [done|]. unfold index_of_given. congruence.
  - run. unfold diag_field_not_found. run. eapply runs_display; [apply (display_struct _ _ ns); by rewrite Hv|].
    unfold push_error_at. run. unfold diag_span. run.
    rewrite <- (values_of_unknown st pre fr) by done. rewrite <- (failed_snoc_unknown st pre fr) by done.
    replace (all_constant st pre) with (all_constant st (pre ++ [fr])).
    2:{ rewrite all_constant_snoc, decide_True by done. by rewrite andb_true_r. }
    match goal with |- context [with_error ?d (with_errors ds s)] => set (e := d) end.
    change (with_error e (with_errors ds s)) with (with_errors [e] (with_errors ds s)). rewrite <- with_errors_app.
    eapply runs_mono; [|apply IH].
    intros acc s' (ds' & Hlen & -> & ->). exists (e :: ds'). split_and!; [|by rewrite <- app_assoc|by rewrite <- app_assoc].
    simpl. rewrite Hlen. unfold unknown. by rewrite filter_cons, decide_True by done.
Qed.

(** The positions without a value. *)
Definition empty (vals : list (option InstructionRef)) : list (option InstructionRef) := filter (fun v => v = None) vals.

Lemma runs_check_uninit fields vals span s :
  length fields = length vals ->
  runs (check_uninit fields vals span) s (fun missing s' => exists ds, s' = with_errors ds s /\
    length ds = length (empty vals) /\ missing = negb (bool_decide (empty vals = []))).
Proof.
  revert vals s. unfold empty. induction fields as [|f fields IH]; intros [|v vals] s Hlen; try done; cbn [check_uninit].
  { run. by exists []. }
  simpl in Hlen. destruct v as [r|]; run.
  - eapply runs_mono; [|apply IH; simpl; lia]. intros m s' (ds & -> & Hds & ->). run. exists ds. cbn [tail] in *.
    by rewrite filter_cons, decide_False.
  - unfold diag_span. run. eapply runs_mono; [|apply IH; simpl; lia]. intros m s' (ds & -> & Hds & ->). run.
    eexists (_ :: ds). split; [reflexivity|]. rewrite filter_cons, decide_True by done. cbn [length]. split; [by f_equal|done].
Qed.

Lemma empty_nil vals : empty vals = [] -> exists vs, vals = map Some vs.
Proof.
  unfold empty. induction vals as [|[v|] vals IH]; [by exists []| |].
  - rewrite filter_cons, decide_False by done. intros (vs & ->)%IH. by exists (v :: vs).
  - by rewrite filter_cons, decide_True.
Qed.

Lemma unwrap_all_some {B} (vs : list B) : unwrap_all (map Some vs) = Ret vs.
Proof. induction vs as [|v vs IH]; [done|]. simpl. by rewrite IH. Qed.

Lemma interned_all_ok vs :
  Forall (fun r => is_interned r = true) vs -> exists zs, interned_all vs = Ret zs /\ vs = map Interned zs.
Proof.
  induction 1 as [|r vs Hr Hall (zs & Hz & ->)]; [by exists []|]. destruct r as [|i]; [done|].
  exists (i :: zs). split; [|done]. unfold interned_all in *. simpl. by rewrite Hz.
Qed.

Lemma values_constant st frs vs :
  values_of st frs = map Some vs -> all_constant st frs = true -> Forall (fun r => is_interned r = true) vs.
Proof.
  intros Hvals Hall. apply Forall_lookup. intros i r Hi.
  assert (Hv : values_of st frs !! i = Some (Some r)) by (by rewrite Hvals, list_lookup_fmap, Hi).
  unfold values_of in Hv. rewrite list_lookup_fmap in Hv. destruct (seq _ _ !! i) as [j|] eqn:Hj; [|done].
  apply lookup_seq in Hj as [-> _]. injection Hv as Hv. unfold value_of in Hv.
  destruct (last _) as [fr|] eqn:Hl; [|done]. injection Hv as <-.
  apply last_Some_elem_of, list_elem_of_filter in Hl as [Hidx Hin].
  unfold all_constant in Hall. rewrite forallb_forall in Hall. apply Hall.
  apply list_elem_of_In, list_elem_of_filter. split; [congruence|done].
Qed.

(** What a struct initialiser does when every name is a field's and every field
    has a value: a constant when all that is given is constant, one instruction
    otherwise. *)
Definition initialised s b (id : InstructionId) ty (st : TypeStruct) (frs : Given) vs
    (out : Result (InstructionRef * ControlFlow)) s' : Prop :=
  exists r, out = Ok (r, ControlFlow.May) /\ vuir_map s' = <[id := r]> (vuir_map s) /\
    sema_errors (cu s') = sema_errors (cu s) /\ typed s' r ty /\
    if all_constant st frs then
      exists i zs x, r = Interned i /\ at_ (store_of s') i (KAggregate ty zs, x) /\ vs = map Interned zs /\
        instructions s' = instructions s /\ extends (store_of s) (store_of s')
    else r = next_inst s /\ instructions s' = instructions s ++ [Vtir.StructInit ty vs] /\ store_of s' = store_of s.


End StructInit.

(** ** Applications *)

Section Witnesses.
Import SemaExample.

Definition two_variants : TypeEnum :=
  {| enum_name := bytes_of "E"; enum_fields := [ {| ef_name := bytes_of "a"; ef_value := 100 |};
                                                 {| ef_name := bytes_of "b"; ef_value := 101 |} ];
     enum_tag_ty := 0; enum_namespace := 0; enum_linear := false |}.

(** [switch] over an enum with two variants, of which it handles the first. *)
Lemma switch_exhaustive_witness : exists s ty item,
  runs (check_switch_exhaustive ty [ {| Vtir.items := [item]; Vtir.body := [] |} ] (Span.mk 0 1)) s (fun accepted s' =>
    accepted = false /\ exists d, s' = with_error d s /\
      Diagnostic.message d = bytes_of "switch is not exhaustive, missing variant `b`").
Proof.
  destruct (fresh_type 10 (Enum SemaExample.some_ns) (VEnum two_variants)) as (v & ty & Hs & Hty); [lia|reflexivity|].
  destruct (intern_exact 9 v (KEnumTag ty 100) Hs eq_refl eq_refl) as (i & v' & x & _ & Hs' & Hx & Hi).
  exists (state_of v' []), ty, (Interned i).
  eapply runs_mono; [|apply (switch_exhaustive (state_of v' []) ty
    (map (fun f => (ef_value f, ef_name f)) (enum_fields two_variants))
    [ {| Vtir.items := [Interned i]; Vtir.body := [] |} ] [100] (Span.mk 0 1))].
  - intros accepted s' [Hacc Hres]. destruct accepted; [|by split].
    destruct Hacc as [Hacc _]. specialize (Hacc eq_refl). inversion Hacc as [|? ? _ Hrest]; subst.
    inversion Hrest as [|? ? Hin _]; subst. apply list_elem_of_singleton in Hin. discriminate Hin.
  - apply (variants_enum _ _ SemaExample.some_ns). apply Hx, Hty.
  - constructor; [|constructor]. exact (covers_at (state_of v' []) i (KEnumTag ty 100) x Hi).
Defined.

Definition one_field : TypeStruct :=
  {| struct_name := bytes_of "S"; struct_fields := [ {| sf_name := bytes_of "x"; sf_ty := 7 |} ]; layout := Standard;
     struct_namespace := 0; struct_linear := false |}.


End Witnesses.
End SemaInitSpec.
