(* ===== verification/SemaCoerceSpec.v ===== *)
(** * Coercions give values of the type asked for *)

From S2P Require Import Prelude Words Bytes Span Token Diagnostic Ast HashIndex ShardedMap.
From S2P Require Import Anyint AnyintArith AnyintSpec Value ValueStore ValueSpec StoreLogic ValueLayout Vuir Vtir VtirSpec Float128.
From S2P Require Import SemaState SemaAccess SemaFold SemaInit SemaLogic SemaIntSpec SemaExample SemaInitSpec.
From stdpp Require Import gmap.

#[local] Open Scope Z_scope.
#[local] Open Scope sema_scope.

Module SemaCoerceSpec.
Import Value ValueStore ValueSpec StoreLogic IrId VtirSpec Sema SemaAccess SemaFold SemaLogic SemaIntSpec SemaInitSpec.

Section Coerce.
Context `{SL : SettingLaws} {WK : Workers} {TI : TypeInfo}.
Implicit Types (s : Sema) (b : nat) (r : InstructionRef).

Abbreviation ptr_width s := (ValueLayout.ptr_width_in_bits (target (cu s))).

(** A value of a type, as the analysis meets them: not itself a type, and a
    constant when it is an untyped literal. *)
Record operand_of s r (ty : Z) (t : Ty) : Prop := {
  op_typed : typed s r ty;
  op_type : exists x, at_ (store_of s) ty (KType t, x);
  op_plain : plain s r;
  op_int : t = TAnyint -> exists i z, r = Interned i /\ int_at s i ty TAnyint z;
  op_float : t = TAnyfloat -> exists i v x, r = Interned i /\ at_ (store_of s) i (KFloat ty v, x);
}.

(** Types that can be named in an error. *)
Definition shown s (ty : Z) : Prop := exists d, display_index query_fuel (store_of s) ty = Ret d.

(** The types whose values have the representation of their type: not [type] nor
    [anyptr], which take any value, nor enums, whose literals name declarations. *)
Definition concrete_dest (t : Ty) : bool :=
  match t with Type_ | Anyptr | Enum _ | GenericPoison => false | _ => true end.

(** [dst] is the type of the result, or an error is reported. *)
Definition coerces s dst (out : Result InstructionRef) s' : Prop :=
  match out with
  | Ok r => typed s' r dst
  | Err e => e = AnalysisFailed /\ exists d, s' = with_error d s
  end.

Lemma shown_run s ty Q : shown s ty -> (forall d, Q d s) -> runs (display ty) s Q.
Proof. intros [d Hd] HQ. by eapply runs_display. Qed.

Lemma runs_mismatch s dst ty span :
  shown s dst -> shown s ty -> runs (expected_type dst ty span) s (coerces s dst).
Proof.
  intros Hd Ht. unfold expected_type. run. apply shown_run; [done|]. intros d. run. apply shown_run; [done|].
  intros d'. run. split; [done|]. eauto.
Qed.

Lemma runs_report_error msg s dst span : runs (report span (inr msg)) s (coerces s dst).
Proof. unfold report. run. split; [done|]. eauto. Qed.

Lemma runs_coerce_float n b s i ty v x dst t y span :
  ready (S n) b s -> at_ (store_of s) i (KFloat ty v, x) -> at_ (store_of s) dst (KType t, y) -> shown s dst ->
  float_dest t (f128_bits v) <> None ->
  runs (m ← coerce_float dst t (Interned i); report span m) s (coerces s dst).
Proof.
  intros Hr Hi Hdst Hs Ht. unfold coerce_float. run. cbn [as_interned]. run.
  destruct (float_dest t (f128_bits v)) as [[hi converted]|]; [|done].
  destruct (Float128.lt hi (f128_bits v)); [run; apply shown_run; [done|]; intros d; run; apply runs_report_error|].
  destruct (Float128.eq (f128_bits v) converted); cbn [negb].
  2:{ run; apply shown_run; [done|]; intros d; run; apply runs_report_error. }
  run. eapply runs_intern_lawful; [exact Hr|done|exact (at_lawful _ _ _ Hi)|].
  intros j st [k x'] Hr' Hx Hat Hkk. run. unfold report. run. cbn.
  apply key_equiv_cases in Hkk. destruct k; try done. destruct Hkk as [-> _]. by eapply type_interned.
Qed.

Lemma runs_coerce_ptr n b s r ty p dst q span :
  ready n b s -> typed s r ty -> shown s (ptr_pointee_ty p) -> shown s (ptr_pointee_ty q) ->
  runs (m ← coerce_ptr b dst p q r; report span m) s (coerces s dst).
Proof.
  intros Hr Ht Hp Hq. unfold coerce_ptr. destruct (ptr_pointee_ty p =? ptr_pointee_ty q); cbn [negb].
  2:{ run. apply shown_run; [done|]. intros d. run. apply shown_run; [done|]. intros d'. run. apply runs_report_error. }
  destruct (is_const p && negb (is_const q)); [run; apply runs_report_error|].
  run. eapply runs_inst; [exact Hr|]. run. unfold report. run. by apply typed_next_is.
Qed.

Lemma runs_source n b s r ty Q :
  ready n b s -> typed s r ty -> plain s r -> Q ty s -> runs (coerce_source r) s Q.
Proof.
  intros Hr Ht Hp HQ. unfold coerce_source. destruct r as [id|i]; [by run|].
  destruct Hp as (k & x & Hat & Hk). run. rewrite Hk. by run.
Qed.

Lemma runs_and {B} (m : M B) s (P Q : B -> Sema -> Prop) :
  runs m s P -> runs m s Q -> runs m s (fun a s' => P a s' /\ Q a s').
Proof. intros (a & s' & Hm & HP) HQ. exists a, s'. split; [done|]. split; [done|]. by eapply runs_det. Qed.

Lemma not_poison n s dst td y :
  store n (store_of s) -> at_ (store_of s) dst (KType td, y) -> td <> GenericPoison ->
  (dst =? generic_poison_t (ValueStore.common (store_of s))) = false.
Proof.
  intros Hs Hdst Hne. apply Z.eqb_neq. destruct (common_at n (store_of s) 21 _ _ Hs eq_refl eq_refl) as [xp Hp].
  intros He. by apply (type_index_inj _ _ _ _ _ _ _ Hdst Hp) in He.
Qed.

Lemma coerce_type_ok n b s r ty t dst td y span :
  ready (S n) b s -> operand_of s r ty t -> at_ (store_of s) dst (KType td, y) -> concrete_dest td = true ->
  width_ok (int_width (ptr_width s) td) -> shown s dst -> shown s ty ->
  (forall p, t = TPtr p -> shown s (ptr_pointee_ty p)) -> (forall p, td = TPtr p -> shown s (ptr_pointee_ty p)) ->
  runs (coerce b dst r span) s (coerces s dst).
Proof.
  intros Hr [Hty [x Hat] Hp Hint Hfloat] Hdst Hd Hw Hsd Hst Hpp Hqq.
  destruct (decide (dst = ty)) as [->|Hne]; [by eapply runs_coerce_same|].
  pose proof (runs_mismatch s dst ty span Hsd Hst) as Hmis.
  assert (Hconst : t = TAnyint -> is_int_or_size td = true -> runs (coerce b dst r span) s (coerces s dst)).
  { intros Ht Htd. destruct (Hint Ht) as (i & z & -> & Hi).
    eapply runs_mono; [|exact (runs_coerce_const n b s i ty z dst td y span 1 Hr Hi Hdst Htd Hw)].
    intros out s'. destruct (coercible z td); [|by intros [-> Hf]].
    intros (j & v & -> & _ & _ & _ & Hj). by eapply int_at_typed. }
  destruct (decide (t = TAnyint /\ is_int_or_size td = true)) as [[Ht Htd]|Hnot]; [by apply Hconst|].
  unfold coerce, coerce_fuel, coerce_with. apply runs_seq. eapply runs_source; [exact Hr|exact Hty|exact Hp|]. run.
  assert (Htd : td <> GenericPoison) by (by intros ->).
  rewrite (not_poison _ _ _ _ _ (ready_store _ _ _ Hr) Hdst Htd), (proj2 (Z.eqb_neq _ _) Hne). cbn [orb]. run.
  destruct td as [signed bits| | | | | | | | | | | | |q| | | | | | | | | | ]; try done;
    try (unfold is_anyint; destruct t; try exact Hmis; exfalso; apply Hnot; done);
    try (unfold is_anyfloat; destruct t; try exact Hmis; destruct (Hfloat eq_refl) as (i & v & xv & -> & Hi);
         eapply runs_coerce_float; [exact Hr|exact Hi|exact Hdst|exact Hsd|done]).
  destruct t; try exact Hmis; eapply runs_coerce_ptr; eauto.
Qed.


End Coerce.

(** ** Application *)

Section Witness.
Import SemaExample.

End Witness.
End SemaCoerceSpec.
