(* ===== verification/LowerState.v ===== *)
(** * The state of the lowering ([src/ir/vuir/from_ast.rs])

    [Lowerer] turns the syntax tree of a module into untyped instructions.  Here
    are its state, the monad its methods run in, the stack of scopes with the
    blocks on it, and the resolution of names.

    A method [fn f(&mut self) -> T] is an [M T].  A bump-allocated slice is a
    list.  The fields [resolve_cache] (never read), [src] and [ast] (the argument
    of [lower]) are left out.  The pointer to a flag of [Scope::LocalValue] is the
    position of the flag in [flags], the flags of the functions being lowered,
    the innermost last.  The index map of captures is the list of its keys in the
    order of insertion ([IndexMap.repr]).  The values of the compilation unit are
    part of the state: the model is one worker that runs alone. *)

From S2P Require Import Prelude Words Bytes Span Token Diagnostic Ast HashIndex ShardedMap.
From S2P Require Import Anyint Value ValueStore Vuir SemaState.
From stdpp Require Import gmap.

#[local] Open Scope Z_scope.

Module LowerState.
Import Ast Value ValueStore IrId.

(** ** Data *)

Abbreviation ScopeId := nat (only parsing).

Record ScopeNamespace : Set := mk_namespace {
  ns_parent : option ScopeId;
  decl_to_ast_node : gmap (list Z) (NodeId * Span.Span);
  captures : list Vuir.Capture;
}.

Inductive ResolveResult : Set :=
  | FoundAndIsLocalStackAllocated (inst : InstructionRef)
  | FoundAndIsLocalValue (inst : InstructionRef)
  | FoundAndIsDecl
  | Capture (inst : InstructionRef) (traversed_namespace_count : nat).

Module BlockKind.
Inductive BlockKind : Set :=
  | Body
  | Block (inst : InstructionRef) (label : option Ident)
  | Branch (inst : InstructionRef)
  | Loop (block_inst : InstructionRef) (label : option Ident).
End BlockKind.

#[export] Instance Capture_eq_dec : EqDecision Vuir.Capture.
Proof. solve_decision. Defined.

Record Block : Set := mk_block {
  block_parent : option ScopeId;
  inst_start : nat;
  kind : BlockKind.BlockKind;
}.

Inductive Scope : Set :=
  | Scope_Namespace (ns : ScopeNamespace)
  | Scope_LocalStackAllocated (parent : ScopeId) (name : list Z) (node : NodeId) (vuir_inst : InstructionRef)
  | Scope_LocalValue (parent : ScopeId) (name : list Z) (node : NodeId) (vuir_inst : InstructionRef)
      (was_resolved_atleast_once : option nat)
  | Scope_Block (block : Block)
  | Scope_Defer (parent : ScopeId) (body : list InstructionId) (span : Span.Span).

Definition scope_parent (self : Scope) : option ScopeId :=
  match self with
  | Scope_LocalStackAllocated parent _ _ _ | Scope_LocalValue parent _ _ _ _ | Scope_Defer parent _ _ => Some parent
  | Scope_Namespace ns => ns_parent ns
  | Scope_Block block => block_parent block
  end.
(** [as_block_mut] and [as_namespace_mut] are the same with a mutable borrow. *)
Definition as_block (self : Scope) : res Block :=
  match self with Scope_Block block => Ret block | _ => panic end.
Definition as_namespace (self : Scope) : res ScopeNamespace :=
  match self with Scope_Namespace ns => Ret ns | _ => panic end.

Inductive ExprResultLocation : Set :=
  | NoLocation
  | CoerceToTy (ty : InstructionRef)
  | StoreToPtr (ptr : InstructionRef) (span : Span.Span)
  | StoreToInferredPtr (ptr : InstructionRef) (span : Span.Span)
  | GetAddressOf.

Inductive ExprContextKind : Set := NoContext | FnArg.

Record ExprContext : Set := mk_ctx { result_location : ExprResultLocation; context : ExprContextKind }.

(** [ExprContext::None], which is also its [Default], and [ExprContext::GetAddressOf]. *)
Definition ctx_none : ExprContext := mk_ctx NoLocation NoContext.
Definition ctx_get_address_of : ExprContext := mk_ctx GetAddressOf NoContext.
Definition coerce_to_ty (ty : InstructionRef) : ExprContext := mk_ctx (CoerceToTy ty) NoContext.

(** [vuir::Import] and [vuir::Vuir]. *)
Record Import : Set := { import_path : list Z; import_span : Span.Span }.
Record Vuir : Set := { vuir_instructions : list Vuir.Opcode; vuir_imports : list Import }.

Section State.
Context `{!Setting}.

Record Lowerer := mk {
  values : Sema.Store;
  module_id : Z;
  uir_scopes_instructions : list InstructionId;
  instructions : list Vuir.Opcode;
  scopes : list Scope;
  errors : list Diagnostic.Diagnostic;
  line_starts : list nat;
  imports : list Import;
  fn_body_root_scope : option ScopeId;
  flags : list bool;
}.

Definition set_values v self := mk v (module_id self) (uir_scopes_instructions self) (instructions self)
  (scopes self) (errors self) (line_starts self) (imports self) (fn_body_root_scope self) (flags self).
Definition set_uir_scopes_instructions v self := mk (values self) (module_id self) v (instructions self)
  (scopes self) (errors self) (line_starts self) (imports self) (fn_body_root_scope self) (flags self).
Definition set_instructions v self := mk (values self) (module_id self) (uir_scopes_instructions self) v
  (scopes self) (errors self) (line_starts self) (imports self) (fn_body_root_scope self) (flags self).
Definition set_scopes v self := mk (values self) (module_id self) (uir_scopes_instructions self)
  (instructions self) v (errors self) (line_starts self) (imports self) (fn_body_root_scope self) (flags self).
Definition set_errors v self := mk (values self) (module_id self) (uir_scopes_instructions self)
  (instructions self) (scopes self) v (line_starts self) (imports self) (fn_body_root_scope self) (flags self).
Definition set_imports v self := mk (values self) (module_id self) (uir_scopes_instructions self)
  (instructions self) (scopes self) (errors self) (line_starts self) v (fn_body_root_scope self) (flags self).
Definition set_fn_body_root_scope v self := mk (values self) (module_id self) (uir_scopes_instructions self)
  (instructions self) (scopes self) (errors self) (line_starts self) (imports self) v (flags self).
Definition set_flags v self := mk (values self) (module_id self) (uir_scopes_instructions self)
  (instructions self) (scopes self) (errors self) (line_starts self) (imports self) (fn_body_root_scope self) v.

(** ** The monad *)

Definition M (A : Type) : Type := Lowerer -> res (A * Lowerer).

#[export] Instance M_ret : MRet M := fun A a self => Ret (a, self).
#[export] Instance M_bind : MBind M := fun A B k m self =>
  '(a, self) ← m self; k a self.

Definition gets {A} (f : Lowerer -> A) : M A := fun self => Ret (f self, self).
Definition modify (f : Lowerer -> Lowerer) : M unit := fun self => Ret (tt, f self).
(** Code that can fault and does not touch the state. *)
Definition lift {A} (r : res A) : M A := fun self => a ← r; Ret (a, self).
Definition todo {A} : M A := lift panic.
Definition unreachable {A} : M A := lift panic.

(** [for x in l { ... }] that pushes what the body gives, and with a state. *)
Fixpoint collect {A B} (f : A -> M B) (l : list A) : M (list B) :=
  match l with
  | [] => mret []
  | x :: l => y ← f x; ys ← collect f l; mret (y :: ys)
  end.
Fixpoint for_each {A S} (f : S -> A -> M S) (l : list A) (s : S) : M S :=
  match l with
  | [] => mret s
  | x :: l => s ← f s x; for_each f l s
  end.

(** [Option::map] with an effect. *)
Definition opt {A B} (f : A -> M B) (o : option A) : M (option B) :=
  match o with Some x => y ← f x; mret (Some y) | None => mret None end.

Definition common (f : CommonValues -> Z) : M Z := gets (fun self => f (ValueStore.common (values self))).
Definition common_ref (f : CommonValues -> Z) : M InstructionRef := v ← common f; mret (Interned v).
Definition intern_trivial (k : Key) : M Z := fun self =>
  '(i, v) ← ValueStore.intern_trivial (values self) k; Ret (i, set_values v self).
Definition intern_ref (k : Key) : M InstructionRef := v ← intern_trivial k; mret (Interned v).

Definition push_error (d : Diagnostic.Diagnostic) : M unit :=
  modify (fun self => set_errors (errors self ++ [d]) self).
Definition diag_span (span : Span.Span) : M DiagSpan.DiagSpan :=
  gets (fun self => DiagSpan.mk (module_id self) span).
Definition error_at (message : list Z) (span : Span.Span) : M Diagnostic.Diagnostic :=
  span ← diag_span span;
  mret (Diagnostic.with_label (Diagnostic.with_message Diagnostic.error message)
          (Label.with_span Label.primary span)).
Definition push_error_at (message : list Z) (span : Span.Span) : M unit :=
  d ← error_at message span; push_error d.
(** A label [new] at a redefinition and a label [old] of type [ty] at what it redefines. *)
Definition redefinition (message : list Z) (new_span : Span.Span) (new : list Z) (ty : Label.Label)
    (old_span : Span.Span) (old : list Z) : M Diagnostic.Diagnostic :=
  new_span ← diag_span new_span;
  old_span ← diag_span old_span;
  mret (Diagnostic.with_label
          (Diagnostic.with_label (Diagnostic.with_message Diagnostic.error message)
             (Label.with_message (Label.with_span Label.primary new_span) new))
          (Label.with_message (Label.with_span ty old_span) old)).

(** ** Lines *)

(** [[T]::binary_search] on a sorted list without duplicates. *)
Definition binary_search (l : list nat) (x : nat) : nat + nat :=
  match list_find (fun y => y = x) l with
  | Some (i, _) => inl i
  | None => inr (length (filter (fun y => (y < x)%nat) l))
  end.

Definition start_line_col (span : Span.Span) : M (nat * nat) :=
  line_starts ← gets line_starts;
  let offset := Span.start span in
  let idx := match binary_search line_starts offset with inl i => i | inr i => (i - 1)%nat end in
  start ← lift (get_idx line_starts idx);
  col ← lift (usize_sub offset start);
  mret ((idx + 1)%nat, col).

(** ** Instructions *)

(** [IndexVec::push] and [usize as u32]; the scope is not used. *)
Definition inst_id (block_scope : ScopeId) (inst : Vuir.Opcode) : M InstructionId :=
  l ← gets instructions;
  modify (set_instructions (l ++ [inst])) ;;
  id ← lift (from_usize (length l));
  u ← gets uir_scopes_instructions;
  modify (set_uir_scopes_instructions (u ++ [id])) ;;
  mret id.
Definition inst (block_scope : ScopeId) (inst : Vuir.Opcode) : M InstructionRef :=
  id ← inst_id block_scope inst; mret (Instruction id).
Definition inst_invalid (block_scope : ScopeId) : M InstructionRef := inst block_scope Vuir.Invalid.

(** [self.instructions[id] = opcode]. *)
Definition set_inst (id : InstructionId) (opcode : Vuir.Opcode) : M unit :=
  l ← gets instructions;
  l ← lift (set_idx l (to_usize id) opcode);
  modify (set_instructions l).

(** ** Scopes *)

Definition push_scope (scope : Scope) : M ScopeId :=
  l ← gets scopes; modify (set_scopes (l ++ [scope])) ;; mret (length l).
Definition scope_at (scope : ScopeId) : M Scope := l ← gets scopes; lift (get_idx l scope).
(** [self.scopes.pop()]: nothing on an empty stack. *)
Definition pop_scope : M unit := l ← gets scopes; modify (set_scopes (take (length l - 1) l)).

Definition block_instructions (self : Block) (instructions : list InstructionId) : res (list InstructionId) :=
  slice_from instructions (inst_start self).
Definition block_at (scope : ScopeId) : M Block := s ← scope_at scope; lift (as_block s).

Definition last_instruction (scope : ScopeId) : M (option Vuir.Opcode) :=
  block ← block_at scope;
  u ← gets uir_scopes_instructions;
  l ← lift (block_instructions block u);
  match last l with
  | Some i => l ← gets instructions; op ← lift (get_idx l (to_usize i)); mret (Some op)
  | None => mret None
  end.
Definition ends_with_never (scope : ScopeId) : M bool :=
  op ← last_instruction scope;
  mret (match op with Some op => Vuir.returns_never op | None => false end).

Definition stack_block (parent : ScopeId) (kind : BlockKind.BlockKind) : M ScopeId :=
  u ← gets uir_scopes_instructions;
  push_scope (Scope_Block (mk_block (Some parent) (length u) kind)).

(** The loop of [unstack_block]: what is above the innermost block, which must be [block]. *)
Fixpoint unstack_scopes (fuel : nat) (l : list Scope) (block : ScopeId) : res (Block * list Scope) :=
  match fuel, last l with
  | S fuel, Some scope =>
      let l := take (length l - 1) l in
      match scope with
      | Scope_Block b => if (length l =? block)%nat then Ret (b, l) else panic
      | _ => unstack_scopes fuel l block
      end
  | _, _ => panic
  end.

Definition unstack_block (block : ScopeId) : M unit :=
  l ← gets scopes;
  '(b, l) ← lift (unstack_scopes (length l) l block);
  modify (set_scopes l) ;;
  u ← gets uir_scopes_instructions;
  lift (assert_ (inst_start b <=? length u)%nat) ;;
  modify (set_uir_scopes_instructions (take (inst_start b) u)).

Definition collect_instructions_and_unstack_block (block : ScopeId) : M (list InstructionId) :=
  b ← block_at block;
  u ← gets uir_scopes_instructions;
  instructions ← lift (block_instructions b u);
  unstack_block block ;;
  mret instructions.

(** [if !scope.block(self).ends_with_never(self) { self.inst(scope, opcode) }]. *)
Definition inst_unless_never (scope : ScopeId) (opcode : Vuir.Opcode) : M unit :=
  never ← ends_with_never scope;
  if never : bool then mret tt else inst scope opcode ;; mret tt.

(** [traverse_scopes_from]: from a scope to the root, until [f] finds something;
    [traverse_scopes_from_mut] is the same.  Parents come before their children,
    so the number of scopes is enough fuel. *)
Fixpoint traverse {B} (fuel : nat) (f : ScopeId -> M (option B)) (scope_id : ScopeId) : M (option B) :=
  match fuel with
  | O => fun _ => diverge
  | S fuel =>
      flow ← f scope_id;
      match flow with
      | Some b => mret (Some b)
      | None =>
          scope ← scope_at scope_id;
          match scope_parent scope with
          | Some parent => traverse fuel f parent
          | None => mret None
          end
      end
  end.
Definition traverse_scopes_from {B} (scope : ScopeId) (f : ScopeId -> M (option B)) : M (option B) :=
  l ← gets scopes; traverse (S (length l)) f scope.

Definition append_defers (start_scope stop_scope : ScopeId) : M unit :=
  traverse_scopes_from start_scope (fun scope =>
    s ← scope_at scope;
    match s with
    | Scope_Defer _ body span => inst scope (Vuir.Defer body span) ;; mret None
    | _ => mret (if (scope =? stop_scope)%nat then Some tt else None)
    end) ;;
  mret tt.

(** ** Results of expressions *)

Definition rvalue (block_scope : ScopeId) (i : InstructionRef) (ctx : ExprContext) (span : Span.Span)
    : M InstructionRef :=
  match result_location ctx with
  | StoreToPtr ptr ptr_span => inst block_scope (Vuir.Store ptr i (Span.merge span ptr_span))
  | StoreToInferredPtr ptr ptr_span =>
      inst block_scope (Vuir.StoreToInferredAlloc ptr i (Span.merge span ptr_span)) ;;
      common_ref void_value
  | GetAddressOf => inst block_scope (Vuir.RvalueToLvalue i)
  | CoerceToTy ty => inst block_scope (Vuir.Coerce i ty span)
  | NoLocation => mret i
  end.

Definition try_lower_coerce_into_result_loc_expected_ty (block_scope : ScopeId) (ctx : ExprContext)
    : M (option InstructionRef) :=
  match result_location ctx with
  | CoerceToTy ty => mret (Some ty)
  | StoreToPtr ptr span => ty ← inst block_scope (Vuir.TypeOfPtrPointee ptr span); mret (Some ty)
  | _ => mret None
  end.

(** ** Names *)

Definition starts_with_at (symbol : list Z) : bool :=
  match symbol with c :: _ => c =? byte "@" | [] => false end.
(** [COMMON_INTERNS.self_ty_symbol]. *)
Definition self_ty_symbol : list Z := bytes_of "Self".

(** A write through a pointer that may be null; one to a flag that is gone is undefined. *)
Definition write_flag (flag : option nat) : M unit :=
  match flag with
  | None => mret tt
  | Some i =>
      l ← gets flags;
      if decide (i < length l)%nat then modify (set_flags (<[i := true]> l)) else lift ub
  end.

(** The closure of [resolve_symbol] counts the namespaces it went through. *)
Fixpoint resolve (fuel : nat) (symbol : list Z) (traversed_namespace_count : nat) (scope_id : ScopeId)
    : M (option ResolveResult) :=
  match fuel with
  | O => fun _ => diverge
  | S fuel =>
      scope ← scope_at scope_id;
      let found vuir_inst r :=
        if (0 <? traversed_namespace_count)%nat then Capture vuir_inst traversed_namespace_count else r in
      let go_on count :=
        match scope_parent scope with
        | Some parent => resolve fuel symbol count parent
        | None => mret None
        end in
      match scope with
      | Scope_LocalValue _ name _ vuir_inst was_resolved_atleast_once =>
          if bool_decide (name = symbol) then
            write_flag was_resolved_atleast_once ;;
            mret (Some (found vuir_inst (FoundAndIsLocalValue vuir_inst)))
          else go_on traversed_namespace_count
      | Scope_LocalStackAllocated _ name _ vuir_inst =>
          if bool_decide (name = symbol)
          then mret (Some (found vuir_inst (FoundAndIsLocalStackAllocated vuir_inst)))
          else go_on traversed_namespace_count
      | Scope_Namespace ns =>
          if bool_decide (symbol = self_ty_symbol) || bool_decide (is_Some (decl_to_ast_node ns !! symbol))
          then mret (Some FoundAndIsDecl)
          else go_on (S traversed_namespace_count)
      | _ => go_on traversed_namespace_count
      end
  end.

Definition resolve_symbol (block_scope : ScopeId) (symbol : list Z) : M (option ResolveResult) :=
  if starts_with_at symbol then mret (Some FoundAndIsDecl)
  else l ← gets scopes; resolve (S (length l)) symbol 0 block_scope.

(** [iter::successors(scopes[s].parent(), ...)] and its namespaces. *)
Fixpoint ancestors (fuel : nat) (l : list Scope) (s : ScopeId) : res (list ScopeId) :=
  match fuel with
  | O => diverge
  | S fuel =>
      scope ← get_idx l s;
      match scope_parent scope with
      | None => Ret []
      | Some p => ps ← ancestors fuel l p; Ret (p :: ps)
      end
  end.
Definition is_namespace (l : list Scope) (s : ScopeId) : bool :=
  match l !! s with Some (Scope_Namespace _) => true | _ => false end.

(** [captures.entry(c).or_insert_with(|| ())]: the index of [c]. *)
Definition capture_index (ns : ScopeNamespace) (c : Vuir.Capture) : nat * ScopeNamespace :=
  match list_find (fun d => d = c) (captures ns) with
  | Some (i, _) => (i, ns)
  | None =>
      (length (captures ns), mk_namespace (ns_parent ns) (decl_to_ast_node ns) (captures ns ++ [c]))
  end.
Definition insert_capture (scope : ScopeId) (c : Vuir.Capture) : M nat :=
  s ← scope_at scope;
  ns ← lift (as_namespace s);
  let '(i, ns) := capture_index ns c in
  l ← gets scopes;
  modify (set_scopes (<[scope := Scope_Namespace ns]> l)) ;;
  mret i.

Definition capture_outer_scope_inst (block_scope : ScopeId) (outer_ref : InstructionRef)
    (traversed_namespace_count : nat) (span : Span.Span) : M InstructionRef :=
  match outer_ref with
  | Interned _ => mret outer_ref
  | Instruction id =>
      l ← gets scopes;
      chain ← lift (ancestors (S (length l)) l block_scope);
      let namespaces := filter (fun s => is_namespace l s = true) chain in
      n ← lift (usize_sub traversed_namespace_count 1);
      let intermediate_namespaces := rev (take n namespaces) in
      match drop n namespaces with
      | [] => lift panic
      | root_namespace :: _ =>
          capture_idx ← insert_capture root_namespace (Vuir.Id id);
          capture_idx ← for_each (fun capture_idx intermediate =>
            insert_capture intermediate (Vuir.FromParent capture_idx)) intermediate_namespaces capture_idx;
          inst block_scope (Vuir.CaptureGet capture_idx span)
      end
  end.

(** ** Labels *)

Definition block_label (self : Block) : option Ident :=
  match kind self with
  | BlockKind.Loop _ label | BlockKind.Block _ label => label
  | BlockKind.Branch _ | BlockKind.Body => None
  end.

Definition check_label_already_defined (scope : ScopeId) (label : Ident) : M bool :=
  existing ← traverse_scopes_from scope (fun scope =>
    s ← scope_at scope;
    mret (match s with
          | Scope_Block block =>
              match block_label block with
              | Some l => if bool_decide (Ident.symbol l = Ident.symbol label) then Some l else None
              | None => None
              end
          | _ => None
          end));
  match existing with
  | Some existing =>
      d ← redefinition (bytes_of "label `:" ++ Ident.symbol label ++ bytes_of "` already defined")
            (Ident.span label) (bytes_of "redefinition here") Label.primary
            (Ident.span existing) (bytes_of "first defined here");
      push_error d ;;
      mret true
  | None => mret false
  end.

End State.
End LowerState.
