(* ===== verification/Lower.v ===== *)
(** * Lowering to untyped instructions ([src/ir/vuir/from_ast.rs])

    One definition per method of [Lowerer]; the arms of [lower_expr] and
    [lower_stmt] that are long are definitions of their own.  The recursion of
    the methods goes through the three fields of [Rec], which [knot] ties with a
    bound on its depth; a chain of [else if] is structural.  An arm that ends in
    the [rvalue] at the end of [lower_expr] is under [finish], one that returns
    early is not.  [become] is a call. *)

From S2P Require Import Prelude Words Bytes Span Token Diagnostic Ast HashIndex ShardedMap.
From S2P Require Import Anyint Value ValueStore LexerLit Vuir SemaState Float128 LowerState.
From stdpp Require Import gmap.

#[local] Open Scope Z_scope.

Module Lower.
Import Ast IrId LowerState.

Class Rec `{!Setting} := {
  lower_expr : ScopeId -> Expr -> ExprContext -> M InstructionRef;
  lower_expr_named : ScopeId -> Expr -> ExprContext -> Vuir.NamingKind -> M InstructionRef;
  lower_decl_init_expr : ScopeId -> Expr -> ExprContext -> M InstructionRef;
}.

Section Lower.
Context `{!Setting, !Rec}.

(** ** Names and fields *)

Definition lower_field_access_no_ctx_handling (block_scope : ScopeId) (field_access : FieldAccess)
    (ctx : ExprContext) (loads_field : bool) : M InstructionRef :=
  let '(mkFieldAccess lhs field _) := field_access in
  lhs ← lower_expr block_scope lhs ctx;
  inst block_scope
    (if loads_field then Vuir.FieldValFromPtr lhs (Ident.symbol field) (Ident.span field)
     else Vuir.FieldPtrFromPtr lhs (Ident.symbol field) (Ident.span field)).

Definition lower_field_access (block_scope : ScopeId) (field_access : FieldAccess) (ctx : ExprContext)
    : M InstructionRef :=
  match result_location ctx with
  | GetAddressOf => lower_field_access_no_ctx_handling block_scope field_access ctx_get_address_of false
  | _ =>
      field_val ← lower_field_access_no_ctx_handling block_scope field_access ctx_get_address_of true;
      let '(mkFieldAccess _ _ span) := field_access in
      rvalue block_scope field_val ctx span
  end.

Definition lower_ident (block_scope : ScopeId) (ident : Ident) (ctx : ExprContext) (span : Span.Span)
    : M (option InstructionRef) :=
  let symbol := Ident.symbol ident in
  resolved ← resolve_symbol block_scope symbol;
  match resolved with
  | Some (FoundAndIsLocalStackAllocated vuir) =>
      match result_location ctx with
      | GetAddressOf => mret (Some vuir)
      | _ =>
          loaded ← inst block_scope (Vuir.Load vuir span);
          i ← rvalue block_scope loaded ctx span; mret (Some i)
      end
  | Some (FoundAndIsLocalValue vuir) => i ← rvalue block_scope vuir ctx span; mret (Some i)
  | Some FoundAndIsDecl =>
      match result_location ctx with
      | GetAddressOf => i ← inst block_scope (Vuir.DeclRef ident); mret (Some i)
      | _ =>
          val ← inst block_scope (Vuir.DeclVal ident);
          i ← rvalue block_scope val ctx span; mret (Some i)
      end
  | Some (Capture i traversed_namespace_count) =>
      i ← capture_outer_scope_inst block_scope i traversed_namespace_count span; mret (Some i)
  | None =>
      d ← error_at (bytes_of "unknown name '" ++ symbol ++ bytes_of "'") span;
      push_error (Diagnostic.with_note d (bytes_of "ensure name is visible in the current scope")) ;;
      mret None
  end.

(** ** Variables *)

(** [wrap_in_comptime_block]. *)
Definition wrap_in_comptime_block (block_scope : ScopeId) (f : ScopeId -> M InstructionRef)
    : M InstructionRef :=
  i ← inst_id block_scope Vuir.Invalid;
  block ← stack_block block_scope BlockKind.Body;
  expr ← f block;
  inst_unless_never block (Vuir.BreakComptime i expr) ;;
  instructions ← collect_instructions_and_unstack_block block;
  set_inst i (Vuir.BlockComptime instructions) ;;
  mret (Instruction i).

Definition lower_var_binding (block_scope : ScopeId) (binding : VarBinding) (is_comptime is_mutable : bool)
    : M (InstructionRef * ScopeId) :=
  let '(mkVarBinding id name ty val) := binding in
  let span := Ident.span name in
  '(var, ctx) ← match ty with
    | Some ty =>
        ty ← wrap_in_comptime_block block_scope (fun _ => lower_expr block_scope ty ctx_none);
        var ← inst_id block_scope
          match is_comptime, is_mutable with
          | false, false => Vuir.StackAlloc name ty span
          | false, true => Vuir.StackAllocMut name ty span
          | true, false => Vuir.StackAllocComptime name ty span
          | true, true => Vuir.StackAllocComptimeMut name ty span
          end;
        mret (var, mk_ctx (StoreToPtr (Instruction var) (expr_span val)) NoContext)
    | None =>
        var ← inst_id block_scope
          match is_comptime, is_mutable with
          | false, false => Vuir.StackAllocInferred name span
          | false, true => Vuir.StackAllocInferredMut name span
          | true, false => Vuir.StackAllocInferredComptime name span
          | true, true => Vuir.StackAllocInferredComptimeMut name span
          end;
        mret (var, mk_ctx (StoreToInferredPtr (Instruction var) (expr_span val)) NoContext)
    end;
  (if is_comptime then
     wrap_in_comptime_block block_scope (fun block =>
       lower_expr_named block val ctx (Vuir.Named (Ident.symbol name)))
   else lower_expr_named block_scope val ctx Vuir.FromPreviousStackAlloc) ;;
  var ← match result_location ctx with
    | StoreToInferredPtr ptr _ => inst_id block_scope (Vuir.ReifyInferredAlloc ptr span)
    | _ => if is_mutable then inst_id block_scope (Vuir.FreezeStackAlloc var span) else mret var
    end;
  scope ← push_scope (Scope_LocalStackAllocated block_scope (Ident.symbol name) id (Instruction var));
  mret (Instruction var, scope).

Definition lower_item_var_binding (block_scope : ScopeId) (binding : VarBinding) (is_const : bool)
    : M InstructionId :=
  let '(mkVarBinding _ name ty val) := binding in
  decl ← inst_id block_scope Vuir.Invalid;
  scope ← stack_block block_scope BlockKind.Body;
  init_ctx ← match ty with
    | Some ty => ty ← lower_expr block_scope ty ctx_none; mret (coerce_to_ty ty)
    | None => mret ctx_none
    end;
  init ← lower_decl_init_expr scope val init_ctx;
  inst block_scope (Vuir.BreakComptime decl init) ;;
  value ← collect_instructions_and_unstack_block scope;
  set_inst decl (Vuir.Declaration {| Vuir.decl_name := Ident.symbol name; Vuir.decl_value := value;
                                     Vuir.decl_is_const := is_const; Vuir.decl_span := Ident.span name |}) ;;
  mret decl.

(** ** Statements *)

Definition lower_return (block_scope : ScopeId) (value : option Expr) (span : Span.Span)
    : M (InstructionRef * ScopeId) :=
  value ← opt (fun expr =>
    ret_type ← inst block_scope Vuir.TypeOfCurFnRet;
    value ← lower_expr block_scope expr (coerce_to_ty ret_type);
    inst block_scope (Vuir.Coerce value ret_type (expr_span expr))) value;
  root ← gets fn_body_root_scope;
  root ← lift (match root with Some root => Ret root | None => panic end);
  append_defers block_scope root ;;
  i ← inst block_scope (Vuir.Return value span);
  mret (i, block_scope).

(** [matches!((label, block_label), (Some(a), Some(b)) if a.symbol == b.symbol)]. *)
Definition same_label (label block_label : option Ident) : bool :=
  match label, block_label with
  | Some a, Some b => bool_decide (Ident.symbol a = Ident.symbol b)
  | _, _ => false
  end.
Definition is_none {A} (o : option A) : bool := match o with None => true | Some _ => false end.

(** What a [break] with this label leaves. *)
Definition break_target (label : option Ident) (s : Scope) : option InstructionRef :=
  match s with
  | Scope_Block block =>
      match kind block with
      | BlockKind.Block i block_label => if same_label label block_label then Some i else None
      | BlockKind.Loop block_inst block_label =>
          if is_none label || same_label label block_label then Some block_inst else None
      | _ => None
      end
  | _ => None
  end.

(** [as_id().unwrap()]. *)
Definition unwrap_id (r : InstructionRef) : M InstructionId :=
  lift (match as_id r with Some id => Ret id | None => panic end).

Definition lower_break (block_scope : ScopeId) (label : option Ident) (value : option Expr) (span : Span.Span)
    : M (InstructionRef * ScopeId) :=
  target ← traverse_scopes_from block_scope (fun scope => s ← scope_at scope; mret (break_target label s));
  match target with
  | Some break_block_inst =>
      '(value, value_span) ← match value with
        | Some expr => v ← lower_expr block_scope expr ctx_none; mret (v, expr_span expr)
        | None => v ← common_ref ValueStore.void_value; mret (v, span)
        end;
      block ← unwrap_id break_block_inst;
      i ← inst block_scope (Vuir.Break block value value_span);
      mret (i, block_scope)
  | None =>
      push_error_at
        match label with
        | Some label => bytes_of "cannot find labeled block or loop `:" ++ Ident.symbol label ++ bytes_of "`"
        | None => bytes_of "cannot break outside of loop or labeled block"
        end span ;;
      i ← inst block_scope Vuir.Invalid;
      mret (i, block_scope)
  end.

Inductive FindLoopResult : Set :=
  | FoundLoop (continue_block_scope : ScopeId) (block_inst : InstructionRef)
  | LabeledBlock (label : Ident).

Definition continue_target (label : option Ident) (scope : ScopeId) (s : Scope) : option FindLoopResult :=
  match s with
  | Scope_Block block =>
      match kind block with
      | BlockKind.Loop block_inst block_label =>
          if is_none label || same_label label block_label then Some (FoundLoop scope block_inst) else None
      | BlockKind.Block _ (Some block_label) =>
          if same_label label (Some block_label) then Some (LabeledBlock block_label) else None
      | _ => None
      end
  | _ => None
  end.

Definition lower_continue (block_scope : ScopeId) (label : option Ident) (span : Span.Span)
    : M (InstructionRef * ScopeId) :=
  target ← traverse_scopes_from block_scope (fun scope => s ← scope_at scope; mret (continue_target label scope s));
  i ← match target with
    | Some (FoundLoop continue_block_scope block_inst) =>
        block ← unwrap_id block_inst;
        inst continue_block_scope (Vuir.Repeat block)
    | Some (LabeledBlock block_label) =>
        span ← diag_span span;
        label_span ← diag_span (Ident.span block_label);
        push_error
          (Diagnostic.with_label
             (Diagnostic.with_label
                (Diagnostic.with_message Diagnostic.error
                   (bytes_of "cannot continue label `:" ++ Ident.symbol block_label ++ bytes_of "` which is not a loop"))
                (Label.with_span Label.primary span))
             (Label.with_message (Label.with_span Label.primary label_span) (bytes_of "label defined here"))) ;;
        inst block_scope Vuir.Invalid
    | None =>
        push_error_at
          match label with
          | Some label => bytes_of "cannot find labeled loop `:" ++ Ident.symbol label ++ bytes_of "`"
          | None => bytes_of "cannot continue outside of a loop"
          end span ;;
        inst block_scope Vuir.Invalid
    end;
  mret (i, block_scope).

(** The operator of a compound assignment. *)
Definition compound_opcode (op : AssignOp.AssignOp)
    : option (InstructionRef -> InstructionRef -> Span.Span -> Vuir.Opcode) :=
  match op with
  | AssignOp.Add => Some Vuir.Add | AssignOp.AddSat => Some Vuir.AddSat
  | AssignOp.Sub => Some Vuir.Sub | AssignOp.SubSat => Some Vuir.SubSat
  | AssignOp.Mul => Some Vuir.Mul | AssignOp.MulSat => Some Vuir.MulSat
  | AssignOp.Div => Some Vuir.Div | AssignOp.Rem => Some Vuir.Rem
  | AssignOp.BoolAnd => Some Vuir.BoolAnd | AssignOp.BoolOr => Some Vuir.BoolOr
  | AssignOp.Shl => Some Vuir.Shl | AssignOp.ShlSat => Some Vuir.ShlSat | AssignOp.ShlWrap => Some Vuir.ShlWrap
  | AssignOp.Shr => Some Vuir.Shr | AssignOp.ShrSat => Some Vuir.ShrSat | AssignOp.ShrWrap => Some Vuir.ShrWrap
  | AssignOp.BitAnd => Some Vuir.BitAnd | AssignOp.BitOr => Some Vuir.BitOr | AssignOp.BitXor => Some Vuir.BitXor
  | AssignOp.Assign => None
  end.

Definition lower_assign (block_scope : ScopeId) (lhs : Expr) (op : AssignOp.AssignOp) (rhs : Expr)
    (span : Span.Span) : M (InstructionRef * ScopeId) :=
  lhs_addr ← lower_expr block_scope lhs ctx_get_address_of;
  i ← match op with
    | AssignOp.Assign => lower_expr block_scope rhs (mk_ctx (StoreToPtr lhs_addr (expr_span lhs)) NoContext)
    | compound_op =>
        lhs_val ← inst block_scope (Vuir.Load lhs_addr (expr_span lhs));
        rhs_val ← lower_expr block_scope rhs ctx_none;
        result ← match compound_opcode compound_op with
          | Some opcode => inst block_scope (opcode lhs_val rhs_val span)
          | None =>
              push_error_at (bytes_of "compound assignment operator '" ++ AssignOp.display compound_op
                             ++ bytes_of "' not yet supported") span ;;
              inst block_scope Vuir.Invalid
          end;
        inst block_scope (Vuir.Store lhs_addr result span)
    end;
  mret (i, block_scope).

Definition lower_defer (block_scope : ScopeId) (expr : Expr) (span : Span.Span) : M (InstructionRef * ScopeId) :=
  defer_body_scope ← stack_block block_scope BlockKind.Body;
  lower_expr defer_body_scope expr ctx_none ;;
  defer_body ← collect_instructions_and_unstack_block defer_body_scope;
  defer_scope ← push_scope (Scope_Defer block_scope defer_body span);
  i ← common_ref ValueStore.void_value;
  mret (i, defer_scope).

Definition lower_stmt (block_scope : ScopeId) (stmt : Statement) : M (InstructionRef * ScopeId) :=
  let '(mkStatement _ kind span) := stmt in
  '(line, col) ← start_line_col span;
  inst block_scope (Vuir.DbgSrcLoc line col) ;;
  match kind with
  | StatementKind_Const binding => lower_var_binding block_scope binding false false
  | StatementKind_Var binding => lower_var_binding block_scope binding false true
  | StatementKind_ComptimeVarBinding binding => lower_var_binding block_scope binding true true
  | StatementKind_Expr expr => i ← lower_expr block_scope expr ctx_none; mret (i, block_scope)
  | StatementKind_Return value => lower_return block_scope value span
  | StatementKind_Break label value => lower_break block_scope label value span
  | StatementKind_Continue label _ => lower_continue block_scope label span
  | StatementKind_Assign lhs op rhs => lower_assign block_scope lhs op rhs span
  | StatementKind_Defer expr => lower_defer block_scope expr span
  | StatementKind_Errdefer _ => unreachable
  end.

Definition lower_block (block_scope : ScopeId) (block : Ast.Block) : M unit :=
  let '(mkBlock _ _ _ stmts _) := block in
  scope ← for_each (fun scope stmt => '(_, stmt_scope) ← lower_stmt scope stmt; mret stmt_scope)
            stmts block_scope;
  append_defers scope block_scope.

(** ** Functions *)

(** The flag [any_param_resolved_atleast_once] of the function. *)
Definition set_flag (flag : nat) (b : bool) : M unit := l ← gets flags; modify (set_flags (<[flag := b]> l)).
Definition get_flag (flag : nat) : M bool := l ← gets flags; lift (get_idx l flag).

Definition lower_fn_param (flag : nat) (params_scope : ScopeId) (param : FnParam) : M ScopeId :=
  let '(mkFnParam id comptime ident ty) := param in
  set_flag flag false ;;
  i ← inst_id params_scope Vuir.Invalid;
  type_scope ← stack_block params_scope BlockKind.Body;
  ty_ref ← lower_expr type_scope ty ctx_none;
  inst type_scope (Vuir.BreakComptime i ty_ref) ;;
  type_body ← collect_instructions_and_unstack_block type_scope;
  generic ← get_flag flag;
  set_inst i (Vuir.DeclFnParam ident type_body comptime generic (expr_span ty)) ;;
  push_scope (Scope_LocalValue params_scope (Ident.symbol ident) id (Instruction i) (Some flag)).

(** The block that computes the return type, and whether it used a parameter. *)
Definition lower_ret_ty (flag : nat) (params_scope : ScopeId) (ret_ty : Expr) : M (InstructionId * bool) :=
  set_flag flag false ;;
  block_inst ← inst_id params_scope Vuir.Invalid;
  block_scope ← stack_block params_scope (BlockKind.Block (Instruction block_inst) None);
  type_t ← common_ref ValueStore.type_t;
  ret_ty ← lower_expr block_scope ret_ty (coerce_to_ty type_t);
  inst block_scope (Vuir.BreakComptime block_inst ret_ty) ;;
  ret_ty_block_body ← collect_instructions_and_unstack_block block_scope;
  set_inst block_inst (Vuir.BlockComptime ret_ty_block_body) ;;
  generic ← get_flag flag;
  mret (block_inst, generic).

Definition lower_callconv (params_scope : ScopeId) (callconv_expr : Expr) : M InstructionId :=
  block_inst ← inst_id params_scope Vuir.Invalid;
  block_scope ← stack_block params_scope (BlockKind.Block (Instruction block_inst) None);
  builtin_callconv_ty ← inst block_scope Vuir.TypeBuiltinCallingConvention;
  callconv_inst ← lower_expr block_scope callconv_expr (coerce_to_ty builtin_callconv_ty);
  inst block_scope (Vuir.BreakComptime block_inst callconv_inst) ;;
  callconv_block_body ← collect_instructions_and_unstack_block block_scope;
  set_inst block_inst (Vuir.BlockComptime callconv_block_body) ;;
  mret block_inst.

Definition builtin_kinds : list (list Z * Vuir.BuiltinKind) :=
  [(bytes_of "@unsafe_int_cast", Vuir.UnsafeIntCast); (bytes_of "@size_of", Vuir.SizeOf);
   (bytes_of "@bit_size_of", Vuir.BitSizeOf); (bytes_of "@zeroed", Vuir.Zeroed);
   (bytes_of "@int_from_enum", Vuir.IntFromEnum); (bytes_of "@int_to_float", Vuir.IntToFloat);
   (bytes_of "@import", Vuir.Import); (bytes_of "@nullptr", Vuir.Nullptr);
   (bytes_of "@slice_from_raw_parts", Vuir.SliceFromRawParts); (bytes_of "@slice_ptr", Vuir.SlicePtr);
   (bytes_of "@slice_len", Vuir.SliceLen); (bytes_of "@abort", Vuir.Abort);
   (bytes_of "@unreachable", Vuir.Unreachable); (bytes_of "@ptr_to_int", Vuir.PtrToInt);
   (bytes_of "@int_to_ptr", Vuir.IntToPtr); (bytes_of "@forget", Vuir.Forget);
   (bytes_of "@bitcast", Vuir.Bitcast); (bytes_of "@slice_copy_nonoverlapping", Vuir.SliceCopyNonoverlapping);
   (bytes_of "@anyptr_is", Vuir.AnyptrIs); (bytes_of "@anyptr_as", Vuir.AnyptrAs);
   (bytes_of "@anyptr_ptr", Vuir.AnyptrPtr); (bytes_of "@anyptr_from_raw", Vuir.AnyptrFromRaw);
   (bytes_of "@anyptr_type_info", Vuir.AnyptrTypeInfo); (bytes_of "@type_info", Vuir.TypeInfo)].

Definition builtin_of (ident : Ident) : M (option Vuir.BuiltinKind) :=
  match list_find (fun p => p.1 = Ident.symbol ident) builtin_kinds with
  | Some (_, (_, kind)) => mret (Some kind)
  | None =>
      if starts_with_at (Ident.symbol ident) then
        d ← error_at (bytes_of "unknown builtin `" ++ Ident.symbol ident ++ bytes_of "`") (Ident.span ident);
        push_error (Diagnostic.with_note d (bytes_of "@ prefix is reserved for compiler builtins")) ;;
        mret None
      else mret None
  end.

(** [self.uir_scopes_instructions[start..end]]. *)
Definition instructions_between (start stop : nat) : M (list InstructionId) :=
  u ← gets uir_scopes_instructions; lift (slice u start stop).
Definition instructions_len : M nat := u ← gets uir_scopes_instructions; mret (length u).

(** What [lower_associated_fn] computes in the scope of the function. *)
Record FnParts : Set := {
  fp_params : list InstructionId;
  fp_body : list InstructionId;
  fp_ret_ty : InstructionId;
  fp_ret_ty_is_generic : bool;
  fp_callconv : option InstructionId;
}.

Definition lower_fn_parts (block_scope : ScopeId) (fun_ : Fn) : M FnParts :=
  let '(mkFn _ _ _ _ callconv _ params ret_ty block) := fun_ in
  fn_scope ← stack_block block_scope BlockKind.Body;
  params_start ← instructions_len;
  flag ← gets (fun self => length (flags self));
  modify (fun self => set_flags (flags self ++ [false]) self) ;;
  params_scope ← for_each (lower_fn_param flag) params fn_scope;
  params_end ← instructions_len;
  '(ret_ty, ret_ty_is_generic) ← lower_ret_ty flag params_scope ret_ty;
  callconv ← opt (lower_callconv params_scope) callconv;
  body_start ← instructions_len;
  opt (fun block =>
    prev_fn_body_root_scope ← gets fn_body_root_scope;
    modify (set_fn_body_root_scope (Some params_scope)) ;;
    lower_block params_scope block ;;
    modify (set_fn_body_root_scope prev_fn_body_root_scope)) block ;;
  body_end ← instructions_len;
  params ← instructions_between params_start params_end;
  body ← instructions_between body_start body_end;
  unstack_block fn_scope ;;
  modify (fun self => set_flags (take flag (flags self)) self) ;;
  mret {| fp_params := params; fp_body := body; fp_ret_ty := ret_ty;
          fp_ret_ty_is_generic := ret_ty_is_generic; fp_callconv := callconv |}.

Definition lower_associated_fn (block_scope : ScopeId) (fun_ : Fn) : M InstructionId :=
  let '(mkFn ident _ inline _ _ variadic _ _ block) := fun_ in
  decl ← inst_id block_scope Vuir.Invalid;
  parts ← lower_fn_parts block_scope fun_;
  builtin ← builtin_of ident;
  scope ← stack_block block_scope BlockKind.Body;
  fun_inst ← inst scope
    (Vuir.DeclFn (fp_ret_ty parts) (fp_ret_ty_is_generic parts) (fp_params parts) variadic (fp_body parts)
       (is_none block && is_none builtin) (fp_callconv parts) builtin
       (match builtin with Some _ => Inline.Always | None => inline end) (Ident.span ident));
  inst scope (Vuir.BreakComptime decl fun_inst) ;;
  value ← collect_instructions_and_unstack_block scope;
  set_inst decl (Vuir.Declaration {| Vuir.decl_name := Ident.symbol ident; Vuir.decl_value := value;
                                     Vuir.decl_is_const := true; Vuir.decl_span := Ident.span ident |}) ;;
  mret decl.

(** ** Namespaces *)

Definition item_ident (item : AssociatedItem) : Ident :=
  let '(mkAssociatedItem _ kind _ _) := item in
  match kind with
  | AssociatedItemKind_Fn (mkFn ident _ _ _ _ _ _ _ _) => ident
  | AssociatedItemKind_Const (mkVarBinding _ name _ _) | AssociatedItemKind_Var (mkVarBinding _ name _ _) => name
  end.

Definition collect_namespace_items (scope : ScopeNamespace) (items : list AssociatedItem) : M ScopeNamespace :=
  for_each (fun scope item =>
    let '(mkAssociatedItem id _ _ _) := item in
    let ident := item_ident item in
    let previous := decl_to_ast_node scope !! Ident.symbol ident in
    match previous with
    | Some (_, existing_span) =>
        d ← redefinition (bytes_of "name `" ++ Ident.symbol ident ++ bytes_of "` already defined")
              (Ident.span ident) (bytes_of "redefinition here") Label.secondary
              existing_span (bytes_of "first defined here");
        push_error (Diagnostic.with_note d (bytes_of "a name can only appear once in a namespace"))
    | None => mret tt
    end ;;
    mret (mk_namespace (ns_parent scope)
            (<[Ident.symbol ident := (id, Ident.span ident)]> (decl_to_ast_node scope)) (captures scope)))
    items scope.

Definition push_namespace (parent : option ScopeId) (items : list AssociatedItem) : M ScopeId :=
  top_scope ← collect_namespace_items (mk_namespace parent ∅ []) items;
  push_scope (Scope_Namespace top_scope).

Definition lower_associated_item (block_scope : ScopeId) (item : AssociatedItem) : M InstructionId :=
  let '(mkAssociatedItem _ kind _ _) := item in
  match kind with
  | AssociatedItemKind_Fn fun_ => lower_associated_fn block_scope fun_
  | AssociatedItemKind_Const binding => lower_item_var_binding block_scope binding true
  | AssociatedItemKind_Var binding => lower_item_var_binding block_scope binding false
  end.

(** The declarations of a namespace, in a block that is thrown away. *)
Definition lower_decls (namespace : ScopeId) (items : list AssociatedItem) : M (list InstructionId) :=
  decls_scope ← stack_block namespace BlockKind.Body;
  decls ← collect (lower_associated_item decls_scope) items;
  unstack_block decls_scope ;;
  mret decls.

Definition namespace_captures (namespace : ScopeId) : M (list Vuir.Capture) :=
  s ← scope_at namespace; ns ← lift (as_namespace s); mret (captures ns).

(** The type of a field of the type declared at [decl]. *)
Definition lower_field_ty (namespace : ScopeId) (decl : InstructionId) (ty : Expr) : M Vuir.FieldTy :=
  ty_block ← stack_block namespace BlockKind.Body;
  ty_ref ← lower_expr ty_block ty ctx_none;
  inst_unless_never ty_block (Vuir.BreakComptime decl ty_ref) ;;
  ty_instructions ← collect_instructions_and_unstack_block ty_block;
  mret (match ty_instructions with [] => Vuir.Ref ty_ref | _ => Vuir.Body ty_instructions end).

Definition lower_struct (block_scope : ScopeId) (struct_decl : StructTy) (naming : Vuir.NamingKind)
    : M InstructionId :=
  let '(mkStructTy fields associated_items packed linear _) := struct_decl in
  struct_inst ← inst_id block_scope Vuir.Invalid;
  struct_scope ← push_namespace (Some block_scope) associated_items;
  fields ← collect (fun field =>
    let '(mkFieldDef _ ident _ ty _ _) := field in
    field_ty ← lower_field_ty struct_scope struct_inst ty;
    mret {| Vuir.field_name := ident; Vuir.field_ty := field_ty |}) fields;
  decls ← lower_decls struct_scope associated_items;
  captures ← namespace_captures struct_scope;
  set_inst struct_inst (Vuir.DeclStruct naming fields packed linear decls captures) ;;
  pop_scope ;;
  mret struct_inst.

(** The lookup and the insertion in a map from the names seen to their spans. *)
Definition check_unique (what : list Z) (seen : gmap (list Z) Span.Span) (ident : Ident) (span : Span.Span)
    : M (gmap (list Z) Span.Span) :=
  match seen !! Ident.symbol ident with
  | Some existing_span =>
      d ← redefinition (what ++ bytes_of " `" ++ Ident.symbol ident ++ bytes_of "` already defined")
            (Ident.span ident) (bytes_of "redefinition here") Label.secondary
            existing_span (bytes_of "first defined here");
      push_error d ;;
      mret seen
  | None => mret (<[Ident.symbol ident := span]> seen)
  end.

Definition lower_enum_variant (block_scope enum_scope : ScopeId)
    (acc : list Vuir.EnumVariant * gmap (list Z) Span.Span) (variant : EnumVariantDef)
    : M (list Vuir.EnumVariant * gmap (list Z) Span.Span) :=
  let '(mkEnumVariantDef _ ident value span) := variant in
  let '(variants, variant_name_to_span) := acc in
  value ← opt (fun expr => v ← lower_expr block_scope expr ctx_none; mret (v, expr_span expr)) value;
  s ← scope_at enum_scope;
  namespace ← lift (as_namespace s);
  match decl_to_ast_node namespace !! Ident.symbol ident with
  | Some (_, decl_span) =>
      d ← redefinition (bytes_of "enum variant `" ++ Ident.symbol ident
                        ++ bytes_of "` conflicts with an associated declaration")
            (Ident.span ident) (bytes_of "variant defined here") Label.secondary
            decl_span (bytes_of "associated declaration defined here");
      push_error (Diagnostic.with_note d (bytes_of "a name can only appear once in an enum namespace"))
  | None => mret tt
  end ;;
  variant_name_to_span ← check_unique (bytes_of "enum variant") variant_name_to_span ident span;
  mret (variants ++ [{| Vuir.ident := ident; Vuir.variant_value := value; Vuir.variant_span := span |}],
        variant_name_to_span).

Definition lower_enum (block_scope : ScopeId) (enum_decl : EnumTy) (naming : Vuir.NamingKind)
    : M InstructionId :=
  let '(mkEnumTy tag_ty variants associated_items linear _) := enum_decl in
  tag_ty ← opt (fun expr => v ← lower_expr block_scope expr ctx_none; mret (v, expr_span expr)) tag_ty;
  enum_inst ← inst_id block_scope Vuir.Invalid;
  l ← gets scopes;
  enum_scope ← push_namespace (match l with [] => None | _ => Some block_scope end) associated_items;
  '(variants, _) ← for_each (lower_enum_variant block_scope enum_scope) variants ([], ∅);
  decls ← lower_decls enum_scope associated_items;
  captures ← namespace_captures enum_scope;
  set_inst enum_inst (Vuir.DeclEnum tag_ty naming linear variants decls captures) ;;
  pop_scope ;;
  mret enum_inst.

Definition lower_union_field (union_scope : ScopeId) (union_inst : InstructionId)
    (acc : list Vuir.UnionField * gmap (list Z) Span.Span) (field : UnionFieldDef)
    : M (list Vuir.UnionField * gmap (list Z) Span.Span) :=
  let '(mkUnionFieldDef _ ident ty span) := field in
  let '(fields, field_name_to_span) := acc in
  field_name_to_span ← check_unique (bytes_of "union field") field_name_to_span ident span;
  ty ← opt (lower_field_ty union_scope union_inst) ty;
  mret (fields ++ [{| Vuir.uf_name := ident; Vuir.uf_ty := ty; Vuir.uf_span := span |}], field_name_to_span).

Definition lower_union (block_scope : ScopeId) (union_decl : UnionTy) (naming : Vuir.NamingKind)
    : M InstructionId :=
  let '(mkUnionTy tag fields associated_items linear _) := union_decl in
  tag ← match tag with
    | UnionTagKind_Bare => mret None
    | UnionTagKind_AutoEnum => mret (Some None)
    | UnionTagKind_Enum expr =>
        ref_val ← lower_expr block_scope expr ctx_none; mret (Some (Some (ref_val, expr_span expr)))
    end;
  union_inst ← inst_id block_scope Vuir.Invalid;
  union_scope ← push_namespace (Some block_scope) associated_items;
  '(fields, _) ← for_each (lower_union_field union_scope union_inst) fields ([], ∅);
  decls ← lower_decls union_scope associated_items;
  captures ← namespace_captures union_scope;
  set_inst union_inst (Vuir.DeclUnion tag naming linear fields decls captures) ;;
  pop_scope ;;
  mret union_inst.

(** ** Types and literals *)

Definition int_type (signed : bool) (bits : Z) : M Z :=
  intern_trivial (Value.KType (Value.Int signed bits)).
Definition int_suffix_type (i : IntSuffix.IntSuffix) : M Z :=
  match i with
  | IntSuffix.U bits => int_type false bits
  | IntSuffix.I bits => int_type true bits
  | IntSuffix.Usize => common ValueStore.usize_t
  | IntSuffix.Isize => common ValueStore.isize_t
  end.
Definition float_suffix_type (f : FloatSuffix.FloatSuffix) : M Z :=
  match f with
  | FloatSuffix.F16 => common ValueStore.f16_t
  | FloatSuffix.F32 => common ValueStore.f32_t
  | FloatSuffix.F64 => common ValueStore.f64_t
  | FloatSuffix.F128 => common ValueStore.f128_t
  end.

Definition lower_type (block_scope : ScopeId) (ty : Type_) (naming : Vuir.NamingKind) (span : Span.Span)
    : M InstructionRef :=
  match ty with
  | Type_Void => common_ref ValueStore.void_t
  | Type_Int i => t ← int_suffix_type i; mret (Interned t)
  | Type_Float f => t ← float_suffix_type f; mret (Interned t)
  | Type_Bool => common_ref ValueStore.bool_t
  | Type_Anyptr => common_ref ValueStore.anyptr_t
  | Type_Type => common_ref ValueStore.type_t
  | Type_Anyint => common_ref ValueStore.anyint_t
  | Type_Anyfloat => common_ref ValueStore.anyfloat_t
  | Type_Never => common_ref ValueStore.never_t
  | Type_Ptr ty (mkPtrModifiers is_const is_volatile _) =>
      pointee ← lower_expr block_scope ty ctx_none;
      inst block_scope (Vuir.TypePtr pointee is_const is_volatile span)
  | Type_ManyPtr _ _ _ => todo
  | Type_Slice ty sentinel (mkPtrModifiers is_const _ _) =>
      elem ← lower_expr block_scope ty ctx_none;
      sentinel ← opt (fun s => lower_expr block_scope s ctx_none) sentinel;
      inst block_scope (Vuir.TypeSlice elem is_const sentinel)
  | Type_Array ty is_const size sentinel =>
      elem ← lower_expr block_scope ty ctx_none;
      size ← lift (match size with Some size => Ret size | None => panic end);
      len ← lower_expr block_scope size ctx_none;
      sentinel ← opt (fun s => lower_expr block_scope s ctx_none) sentinel;
      inst block_scope (Vuir.TypeArray elem is_const len sentinel (expr_span ty) (expr_span size) span)
  | Type_Nullable _ => todo
  | Type_Fn _ => todo
  | Type_Struct struct => i ← lower_struct block_scope struct naming; mret (Instruction i)
  | Type_Enum enum => i ← lower_enum block_scope enum naming; mret (Instruction i)
  | Type_Union u => i ← lower_union block_scope u naming; mret (Instruction i)
  end.

(** The argument is a [Lit::Integer]; the other arms are [unreachable!]. *)
Definition lower_lit_int (symbol : list Z) (radix : Radix) (suffix : option IntSuffix.IntSuffix)
    (is_positive : bool) : M InstructionRef :=
  ty ← match suffix with
    | Some suffix => int_suffix_type suffix
    | None => common ValueStore.anyint_t
    end;
  value ← lift (LexerLit.lower_lit_int_value symbol radix is_positive);
  intern_ref (Value.KInt ty value).

Definition lower_lit (lit : Lit.Lit) : M InstructionRef :=
  match lit with
  | Lit.Integer symbol radix suffix => lower_lit_int symbol radix suffix true
  | Lit.Str s =>
      u8_ty ← int_type false 8;
      slice_ty ← intern_trivial (Value.KType (Value.Slice {| Value.slice_pointee_ty := u8_ty |}));
      intern_ref (Value.KStr slice_ty s)
  | Lit.Float symbol suffix =>
      ty ← match suffix with Some f => float_suffix_type f | None => common ValueStore.anyfloat_t end;
      value ← lift (FloatText.parse_f64_as_f128 symbol);
      intern_ref (Value.KFloat ty (Value.MkAnyfloat value))
  | Lit.Bool b => intern_ref (Value.KBool b)
  | Lit.EnumVariant variant => intern_ref (Value.KEnumLiteral variant)
  | Lit.Null | Lit.Char _ => todo
  end.

(** ** Operators *)

(** The arms [Add] to [Neq]. *)
Definition arithmetic_opcode (kind : ExprKind)
    : option (BinOp * (InstructionRef -> InstructionRef -> Span.Span -> Vuir.Opcode)) :=
  match kind with
  | ExprKind_Add op => Some (op, Vuir.Add) | ExprKind_AddSat op => Some (op, Vuir.AddSat)
  | ExprKind_Sub op => Some (op, Vuir.Sub) | ExprKind_SubSat op => Some (op, Vuir.SubSat)
  | ExprKind_Mul op => Some (op, Vuir.Mul) | ExprKind_MulSat op => Some (op, Vuir.MulSat)
  | ExprKind_Div op => Some (op, Vuir.Div) | ExprKind_Rem op => Some (op, Vuir.Rem)
  | ExprKind_Lt op => Some (op, Vuir.Lt) | ExprKind_Lte op => Some (op, Vuir.Lte)
  | ExprKind_Gt op => Some (op, Vuir.Gt) | ExprKind_Gte op => Some (op, Vuir.Gte)
  | ExprKind_BoolAnd op => Some (op, Vuir.BoolAnd) | ExprKind_BoolOr op => Some (op, Vuir.BoolOr)
  | ExprKind_Eq op => Some (op, Vuir.Eq) | ExprKind_Neq op => Some (op, Vuir.Neq)
  | _ => None
  end.

(** The arms [Shl] to [BitXor]. *)
Definition bitwise_opcode (kind : ExprKind)
    : option (BinOp * (InstructionRef -> InstructionRef -> Span.Span -> Vuir.Opcode)) :=
  match kind with
  | ExprKind_Shl op => Some (op, Vuir.Shl) | ExprKind_ShlSat op => Some (op, Vuir.ShlSat)
  | ExprKind_ShlWrap op => Some (op, Vuir.ShlWrap)
  | ExprKind_Shr op => Some (op, Vuir.Shr) | ExprKind_ShrSat op => Some (op, Vuir.ShrSat)
  | ExprKind_ShrWrap op => Some (op, Vuir.ShrWrap)
  | ExprKind_BitAnd op => Some (op, Vuir.BitAnd) | ExprKind_BitOr op => Some (op, Vuir.BitOr)
  | ExprKind_BitXor op => Some (op, Vuir.BitXor)
  | _ => None
  end.

Definition lower_binary (block_scope : ScopeId) (op : BinOp)
    (opcode : InstructionRef -> InstructionRef -> Span.Span -> Vuir.Opcode) (span : Span.Span)
    : M InstructionRef :=
  let '(mkBinOp lhs rhs) := op in
  lhs ← lower_expr block_scope lhs ctx_none;
  rhs ← lower_expr block_scope rhs ctx_none;
  inst block_scope (opcode lhs rhs span).

Inductive UnaryLayer : Set :=
  | Pos (span : Span.Span) | Neg (span : Span.Span) | Not (span : Span.Span) | BitNot (span : Span.Span).

(** The operators around an expression, the innermost first. *)
Fixpoint unary_layers (current : Expr) (layers : list UnaryLayer) : list UnaryLayer * Expr :=
  match current with
  | mkExpr _ kind span =>
      match kind with
      | ExprKind_Group group => unary_layers group layers
      | ExprKind_Pos op => unary_layers op (Pos span :: layers)
      | ExprKind_Neg op => unary_layers op (Neg span :: layers)
      | ExprKind_Not op => unary_layers op (Not span :: layers)
      | ExprKind_BitNot op => unary_layers op (BitNot span :: layers)
      | _ => (layers, current)
      end
  end.

Definition lower_layer (block_scope : ScopeId) (i : InstructionRef) (layer : UnaryLayer) : M InstructionRef :=
  match layer with
  | Pos _ => mret i
  | Neg span => inst block_scope (Vuir.Negate i span)
  | Not span => inst block_scope (Vuir.BoolNot i span)
  | BitNot span => inst block_scope (Vuir.BitNot i span)
  end.

Definition try_lower_linear_unary_expr (block_scope : ScopeId) (expr : Expr) (ctx : ExprContext)
    : M (option InstructionRef) :=
  let '(layers, current) := unary_layers expr [] in
  match layers with
  | [] => mret None
  | _ =>
      i ← lower_expr block_scope current ctx_none;
      i ← for_each (lower_layer block_scope) layers i;
      i ← rvalue block_scope i ctx (expr_span expr);
      mret (Some i)
  end.

(** [while let Group(group) = expr.kind { expr = group }]. *)
Fixpoint strip_groups (expr : Expr) : Expr :=
  match expr with
  | mkExpr _ (ExprKind_Group group) _ => strip_groups group
  | _ => expr
  end.

(** ** Calls *)

Definition is_ident (name : list Z) (callee : Expr) : bool :=
  match expr_kind callee with
  | ExprKind_Ident ident => bool_decide (Ident.symbol ident = name)
  | _ => false
  end.

Definition lower_type_of (block_scope : ScopeId) (args : list Arg) (ctx : ExprContext) (span : Span.Span)
    : M InstructionRef :=
  match args with
  | [Arg_Positional value] =>
      value ← lower_expr block_scope value ctx_none;
      ty ← inst block_scope (Vuir.TypeOf value);
      rvalue block_scope ty ctx span
  | _ => push_error_at (bytes_of "@type_of expects exactly one positional argument") span ;; inst_invalid block_scope
  end.

Inductive CallKind : Set := Direct (fun_ : InstructionRef) | Field (receiver : InstructionRef) (field : Ident).

Definition arg_ctx (call_inst : InstructionId) (arg_expr : Expr) : ExprContext :=
  match expr_kind arg_expr with
  | ExprKind_StructInit (mkStructInit None _) | ExprKind_ArrayInit (mkArrayInit None _) =>
      coerce_to_ty (Instruction call_inst)
  | _ => ctx_none
  end.

Definition lower_arg (block_scope : ScopeId) (call_inst : InstructionId) (arg : Arg) : M Vuir.FnCallArg :=
  let '(arg_name, arg_expr, span) :=
    match arg with
    | Arg_Named name value => (Some (Ident.symbol name), value, Ident.span name)
    | Arg_Positional value => (None, value, expr_span value)
    end in
  arg_block_scope ← stack_block block_scope BlockKind.Body;
  lowered_arg ← lower_expr arg_block_scope arg_expr (arg_ctx call_inst arg_expr);
  inst arg_block_scope (Vuir.BreakComptime call_inst lowered_arg) ;;
  arg_body ← collect_instructions_and_unstack_block arg_block_scope;
  mret {| Vuir.arg_name := arg_name; Vuir.arg_body := arg_body; Vuir.arg_span := span |}.

(** The discovery of an [@import]. *)
Definition import_of (args : list Arg) : option Import :=
  match args with
  | Arg_Positional (mkExpr _ (ExprKind_Lit (Lit.Str import_path)) span) :: _ =>
      Some {| import_path := import_path; import_span := span |}
  | _ => None
  end.
Definition is_import (callee : Expr) : bool :=
  match expr_kind callee with
  | ExprKind_Ident ident => Ident.is_builtin ident && bool_decide (Ident.symbol ident = bytes_of "@import")
  | _ => false
  end.
Definition discover_import (callee : Expr) (args : list Arg) (span : Span.Span) : M unit :=
  if is_import callee then
    match import_of args with
    | Some import => modify (fun self => set_imports (imports self ++ [import]) self)
    | None =>
        push_error_at (bytes_of "@import takes a positional string path as its sole argument: `@import("
                       ++ [34] ++ bytes_of "module.vif" ++ [34] ++ bytes_of ")`") span
    end
  else mret tt.

Definition lower_fn_call (block_scope : ScopeId) (callee : Expr) (args : list Arg) (ctx : ExprContext)
    (span : Span.Span) : M InstructionRef :=
  call_kind ← match expr_kind callee with
    | ExprKind_FieldAccess (mkFieldAccess lhs field _) =>
        receiver ← lower_expr block_scope lhs ctx_get_address_of; mret (Field receiver field)
    | _ => fun_ ← lower_expr block_scope callee ctx_none; mret (Direct fun_)
    end;
  ret_ty ← try_lower_coerce_into_result_loc_expected_ty block_scope ctx;
  call_inst ← inst_id block_scope Vuir.Invalid;
  fn_args ← collect (lower_arg block_scope call_inst) args;
  discover_import callee args span ;;
  set_inst call_inst
    match call_kind with
    | Direct fun_ => Vuir.FnCall fun_ fn_args ret_ty span
    | Field receiver field => Vuir.FnCallWithFieldPtrReceiver receiver field fn_args ret_ty span
    end ;;
  mret (Instruction call_inst).

(** ** Initializers *)

Definition init_ty (block_scope : ScopeId) (ty : option Expr) (ctx : ExprContext) (what : list Z)
    (span : Span.Span) : M InstructionRef :=
  match ty with
  | Some explicit_ty => lower_expr block_scope explicit_ty ctx_none
  | None =>
      ty ← try_lower_coerce_into_result_loc_expected_ty block_scope ctx;
      match ty with
      | Some ty => mret ty
      | None =>
          push_error_at (bytes_of "cannot infer type of " ++ what ++ bytes_of " initializer") span ;;
          inst block_scope Vuir.Invalid
      end
  end.

Definition lower_struct_init (block_scope : ScopeId) (init : StructInit) (ctx : ExprContext) (span : Span.Span)
    : M InstructionRef :=
  let '(mkStructInit ty fields) := init in
  struct_ty ← init_ty block_scope ty ctx (bytes_of "struct") span;
  fields ← collect (fun field =>
    let '(mkFieldInit ident value) := field in
    ty ← inst block_scope (Vuir.StructInitTypeOfField struct_ty (Ident.symbol ident) (Ident.span ident));
    v ← lower_expr block_scope value (coerce_to_ty ty);
    mret {| Vuir.adt_name := ident; Vuir.adt_value := v; Vuir.adt_span := expr_span value |}) fields;
  inst block_scope
    (Vuir.AggregateInit struct_ty (match fields with [] => Vuir.Empty | _ => Vuir.Adt fields end) span).

Definition lower_array_init (block_scope : ScopeId) (init : ArrayInit) (ctx : ExprContext) (span : Span.Span)
    : M InstructionRef :=
  let '(mkArrayInit ty elements) := init in
  array_ty ← init_ty block_scope ty ctx (bytes_of "array") span;
  elements ← collect (fun elem => lower_expr block_scope elem ctx_none) elements;
  inst block_scope
    (Vuir.AggregateInit array_ty (match elements with [] => Vuir.Empty | _ => Vuir.Array elements end) span).

(** ** Control flow *)

Definition check_label (block_scope : ScopeId) (label : option Ident) : M unit :=
  match label with
  | Some label => check_label_already_defined block_scope label ;; mret tt
  | None => mret tt
  end.

Definition lower_if_body (block_scope : ScopeId) (body : IfBody) (branch_block : InstructionId)
    (ctx : ExprContext) : M unit :=
  match body with
  | IfBody_Block block =>
      lower_block block_scope block ;;
      void_value ← common_ref ValueStore.void_value;
      inst_unless_never block_scope (Vuir.Break branch_block void_value (block_span block))
  | IfBody_Expr expr =>
      value ← lower_expr block_scope expr ctx;
      inst_unless_never block_scope (Vuir.Break branch_block value (expr_span expr))
  end.

(** The block [branch_block] gets the one instruction [branch]. *)
Definition finalize_branch (block_scope : ScopeId) (branch_block : InstructionId) (branch : Vuir.Opcode)
    (span : Span.Span) : M unit :=
  branch_block_scope ← stack_block block_scope BlockKind.Body;
  inst branch_block_scope branch ;;
  instructions ← collect_instructions_and_unstack_block branch_block_scope;
  set_inst branch_block (Vuir.Block instructions span).

(** The result location of the branches of an expression. *)
Definition branch_ctx_of (block_scope : ScopeId) (ctx : ExprContext) : M ExprContext :=
  ty ← try_lower_coerce_into_result_loc_expected_ty block_scope ctx;
  mret (match ty with Some ty => coerce_to_ty ty | None => ctx_none end).

Fixpoint lower_expr_if (block_scope : ScopeId) (if_ : If) (ctx : ExprContext) {struct if_} : M InstructionRef :=
  match if_ with
  | mkIf _ cond then_body else_block span =>
      cond_ref ← lower_expr block_scope cond ctx_none;
      branch_ctx ← branch_ctx_of block_scope ctx;
      branch_block ← inst_id block_scope Vuir.Invalid;
      scope ← stack_block block_scope (BlockKind.Branch (Instruction branch_block));
      lower_if_body scope then_body branch_block branch_ctx ;;
      then_instructions ← collect_instructions_and_unstack_block scope;
      scope ← stack_block block_scope (BlockKind.Branch (Instruction branch_block));
      match else_block with
      | Some (ElseBlock_If (mkIf _ _ _ _ else_span as else_if)) =>
          value ← lower_expr_if scope else_if branch_ctx;
          inst scope (Vuir.Break branch_block value else_span) ;; mret tt
      | Some (ElseBlock_Body body) => lower_if_body scope body branch_block branch_ctx
      | None => mret tt
      end ;;
      void_value ← common_ref ValueStore.void_value;
      inst_unless_never scope (Vuir.Break branch_block void_value span) ;;
      else_instructions ← collect_instructions_and_unstack_block scope;
      finalize_branch block_scope branch_block
        (Vuir.Branch (cond_ref, expr_span cond) then_instructions else_instructions span) span ;;
      mret (Instruction branch_block)
  end.

(** The arm [Block | Loop]. *)
Definition lower_block_expr (block_scope : ScopeId) (is_loop : bool) (b : Ast.Block) : M InstructionRef :=
  let '(mkBlock _ _ label _ span) := b in
  check_label block_scope label ;;
  block ← inst_id block_scope Vuir.Invalid;
  scope ← stack_block block_scope
    (if is_loop then BlockKind.Loop (Instruction block) label else BlockKind.Block (Instruction block) label);
  lower_block scope b ;;
  (if is_loop then inst_unless_never scope (Vuir.Repeat block) else mret tt) ;;
  instructions ← collect_instructions_and_unstack_block scope;
  set_inst block (if is_loop then Vuir.Loop instructions span else Vuir.Block instructions span) ;;
  mret (Instruction block).

(** A block of kind [Branch] whose only instruction leaves [target]. *)
Definition break_body (block_scope : ScopeId) (branch_block target : InstructionId) (span : Span.Span)
    : M (list InstructionId) :=
  scope ← stack_block block_scope (BlockKind.Branch (Instruction branch_block));
  void_value ← common_ref ValueStore.void_value;
  inst scope (Vuir.Break target void_value span) ;;
  collect_instructions_and_unstack_block scope.

Definition lower_while (block_scope : ScopeId) (w : While) : M InstructionRef :=
  let '(mkWhile _ _ cond (mkBlock _ _ label _ _ as body) span) := w in
  check_label block_scope label ;;
  loop_block ← inst_id block_scope Vuir.Invalid;
  loop_scope ← stack_block block_scope (BlockKind.Loop (Instruction loop_block) label);
  cond_ref ← lower_expr loop_scope cond ctx_none;
  cond_ref ← inst loop_scope (Vuir.BitNot cond_ref (expr_span cond));
  branch_block ← inst_id loop_scope Vuir.Invalid;
  then_body ← break_body block_scope branch_block loop_block span;
  else_body ← break_body block_scope branch_block branch_block span;
  finalize_branch block_scope branch_block
    (Vuir.Branch (cond_ref, expr_span cond) then_body else_body span) (expr_span cond) ;;
  lower_block loop_scope body ;;
  inst_unless_never loop_scope (Vuir.Repeat loop_block) ;;
  instructions ← collect_instructions_and_unstack_block loop_scope;
  set_inst loop_block (Vuir.Loop instructions span) ;;
  mret (Instruction loop_block).

Definition lower_switch_body (block_scope : ScopeId) (body : SwitchBody) (ctx : ExprContext)
    : M (InstructionRef * Span.Span) :=
  match body with
  | SwitchBody_Block block =>
      lower_block block_scope block ;;
      void_value ← common_ref ValueStore.void_value;
      mret (void_value, block_span block)
  | SwitchBody_Expr expr => i ← lower_expr block_scope expr ctx; mret (i, expr_span expr)
  end.

(** The body of a case: [bind] makes the scope of the capture, if any. *)
Definition lower_case_body (block_scope : ScopeId) (switch_block : InstructionId)
    (bind : ScopeId -> M ScopeId) (body : SwitchBody) (ctx : ExprContext) : M (list InstructionId) :=
  scope ← stack_block block_scope (BlockKind.Branch (Instruction switch_block));
  body_scope ← bind scope;
  '(val, value_span) ← lower_switch_body body_scope body ctx;
  inst_unless_never scope (Vuir.Break switch_block val value_span) ;;
  collect_instructions_and_unstack_block scope.

Definition bind_capture (operand_ref pattern : InstructionRef) (id : NodeId) (capture : option Ident)
    (scope : ScopeId) : M ScopeId :=
  match capture with
  | Some capture =>
      capture_ref ← inst scope (Vuir.SwitchCapture operand_ref pattern (Ident.span capture));
      push_scope (Scope_LocalValue scope (Ident.symbol capture) id capture_ref None)
  | None => mret scope
  end.

Definition lower_switch_case (block_scope switch_scope : ScopeId) (switch_block : InstructionId)
    (operand_ref : InstructionRef) (ctx : ExprContext)
    (acc : list Vuir.SwitchSingleCase * list Vuir.SwitchMultiCase) (case : SwitchCase)
    : M (list Vuir.SwitchSingleCase * list Vuir.SwitchMultiCase) :=
  let '(single_cases, multi_cases) := acc in
  let '(mkSwitchCase id patterns capture body span) := case in
  match patterns with
  | [] => lift panic
  | [p] =>
      pattern ← lower_expr switch_scope p ctx_none;
      body ← lower_case_body block_scope switch_block (bind_capture operand_ref pattern id capture) body ctx;
      mret (single_cases ++ [{| Vuir.pattern := pattern; Vuir.capture := capture; Vuir.single_body := body;
                                Vuir.single_span := span; Vuir.pattern_span := expr_span p |}], multi_cases)
  | p :: _ =>
      match capture with
      | Some capture =>
          push_error_at (bytes_of "captures are not supported on multi-pattern switch cases") (Ident.span capture)
      | None => mret tt
      end ;;
      body ← lower_case_body block_scope switch_block mret body ctx;
      '(items, patterns_span) ← for_each (fun '(items, patterns_span) pattern =>
        item ← lower_expr switch_scope pattern ctx_none;
        mret (items ++ [item], Span.merge patterns_span (expr_span pattern))) patterns ([], expr_span p);
      mret (single_cases, multi_cases ++ [{| Vuir.items := items; Vuir.multi_body := body;
                                             Vuir.multi_span := span; Vuir.patterns_span := patterns_span |}])
  end.

Definition lower_switch (block_scope : ScopeId) (sw : Switch) (ctx : ExprContext) : M InstructionRef :=
  let '(mkSwitch _ label expr cases _ else_body span) := sw in
  check_label block_scope label ;;
  switch_block ← inst_id block_scope Vuir.Invalid;
  switch_scope ← stack_block block_scope (BlockKind.Block (Instruction switch_block) label);
  operand_ref ← lower_expr switch_scope expr ctx_none;
  operand_ty ← inst switch_scope (Vuir.TypeOf operand_ref);
  switch_case_ctx ← branch_ctx_of block_scope ctx;
  '(single_cases, multi_cases) ←
    for_each (lower_switch_case block_scope switch_scope switch_block operand_ref switch_case_ctx) cases ([], []);
  else_instructions ← opt (fun body => lower_case_body block_scope switch_block mret body switch_case_ctx) else_body;
  inst switch_scope (Vuir.Switch operand_ref single_cases multi_cases else_instructions span) ;;
  match else_body with
  | None =>
      void_value ← common_ref ValueStore.void_value;
      inst_unless_never switch_scope (Vuir.Break switch_block void_value span)
  | Some _ => mret tt
  end ;;
  instructions ← collect_instructions_and_unstack_block switch_scope;
  set_inst switch_block (Vuir.Block instructions span) ;;
  mret (Instruction switch_block).

Definition lower_index (block_scope : ScopeId) (index : Index) (ctx : ExprContext) (span : Span.Span)
    : M InstructionRef :=
  let '(mkIndex collection kind) := index in
  array ← lower_expr block_scope collection ctx_get_address_of;
  index ← match kind with
    | IndexKind_Index index =>
        usize_t ← common_ref ValueStore.usize_t; lower_expr block_scope index (coerce_to_ty usize_t)
    | IndexKind_Range _ _ | IndexKind_RangeInclusive _ _ => todo
    end;
  match result_location ctx with
  | GetAddressOf => inst block_scope (Vuir.ArrayIndexElemPtr array index span)
  | _ =>
      i ← inst block_scope (Vuir.ArrayIndexElemVal array index span);
      rvalue block_scope i ctx span
  end.

(** ** Expressions *)

(** The [match] of [lower_expr], on an expression without groups. *)
Definition lower_expr_kind (block_scope : ScopeId) (expr : Expr) (ctx : ExprContext) : M InstructionRef :=
  let '(mkExpr _ kind span) := expr in
  let finish (m : M InstructionRef) := i ← m; rvalue block_scope i ctx span in
  match kind with
  | ExprKind_FnCall (mkFnCall callee args) =>
      if is_ident (bytes_of "@type_of") callee then lower_type_of block_scope args ctx span
      else finish (lower_fn_call block_scope callee args ctx span)
  | ExprKind_FieldAccess path => lower_field_access block_scope path ctx
  | ExprKind_Ident ident =>
      i ← lower_ident block_scope ident ctx span;
      match i with Some i => mret i | None => inst_invalid block_scope end
  | ExprKind_Lit lit => finish (lower_lit lit)
  | ExprKind_Undefined =>
      finish (ty ← try_lower_coerce_into_result_loc_expected_ty block_scope ctx;
              inst block_scope (Vuir.Undefined ty span))
  | ExprKind_Type ty => finish (lower_type block_scope ty Vuir.Anonymous span)
  | ExprKind_StructInit init => finish (lower_struct_init block_scope init ctx span)
  | ExprKind_ArrayInit init => finish (lower_array_init block_scope init ctx span)
  | ExprKind_If if_ => finish (lower_expr_if block_scope if_ ctx)
  | ExprKind_Block b => finish (lower_block_expr block_scope false b)
  | ExprKind_Loop b => finish (lower_block_expr block_scope true b)
  | ExprKind_While w => finish (lower_while block_scope w)
  | ExprKind_AddressOf addr_of => lower_expr block_scope addr_of ctx_get_address_of
  | ExprKind_Deref deref =>
      match result_location ctx with
      | GetAddressOf => lower_expr block_scope deref ctx_none
      | _ => finish (e ← lower_expr block_scope deref ctx_none; inst block_scope (Vuir.Load e (expr_span deref)))
      end
  | ExprKind_BitNot op =>
      finish (op ← lower_expr block_scope op ctx_none; inst block_scope (Vuir.BitNot op span))
  | ExprKind_Neg op =>
      finish match expr_kind op with
             | ExprKind_Lit (Lit.Integer symbol radix suffix) => lower_lit_int symbol radix suffix false
             | _ => op ← lower_expr block_scope op ctx_none; inst block_scope (Vuir.Negate op span)
             end
  | ExprKind_Not op =>
      finish (op ← lower_expr block_scope op ctx_none; inst block_scope (Vuir.BoolNot op span))
  | ExprKind_Switch sw => finish (lower_switch block_scope sw ctx)
  | ExprKind_Index index => lower_index block_scope index ctx span
  | ExprKind_Discard =>
      push_error_at (bytes_of "unexpected discard") span ;; common_ref ValueStore.unreachable_value
  | _ =>
      match arithmetic_opcode kind with
      | Some (op, opcode) => finish (lower_binary block_scope op opcode span)
      | None =>
          match bitwise_opcode kind with
          | Some (op, opcode) => finish (lower_binary block_scope op opcode span)
          | None => todo
          end
      end
  end.

Definition lower_expr_body (block_scope : ScopeId) (expr : Expr) (ctx : ExprContext) : M InstructionRef :=
  i ← try_lower_linear_unary_expr block_scope expr ctx;
  match i with
  | Some i => mret i
  | None => lower_expr_kind block_scope (strip_groups expr) ctx
  end.

Definition lower_expr_named_body (block_scope : ScopeId) (expr : Expr) (ctx : ExprContext)
    (naming : Vuir.NamingKind) : M InstructionRef :=
  match expr_kind expr with
  | ExprKind_Type type =>
      i ← lower_type block_scope type naming (expr_span expr);
      rvalue block_scope i ctx (expr_span expr)
  | _ => lower_expr block_scope expr ctx
  end.

Definition lower_decl_init_expr_body (block_scope : ScopeId) (expr : Expr) (ctx : ExprContext)
    : M InstructionRef :=
  match expr_kind expr with
  | ExprKind_Type (Type_Struct struct) => i ← lower_struct block_scope struct Vuir.FromDecl; mret (Instruction i)
  | ExprKind_Type (Type_Enum enum) => i ← lower_enum block_scope enum Vuir.FromDecl; mret (Instruction i)
  | _ => lower_expr block_scope expr ctx
  end.

(** ** Modules *)

(** [Err] is on the right. *)
Definition lower (ast : ModuleKind) : M (Vuir + list Diagnostic.Diagnostic) :=
  u ← instructions_len;
  scope ← push_scope (Scope_Block (mk_block None u BlockKind.Body));
  match ast with
  | StructDecl s => lower_struct scope s Vuir.FromDecl ;; mret tt
  | NoModule => todo
  end ;;
  unstack_block scope ;;
  errors ← gets errors;
  match errors with
  | [] =>
      self ← gets (fun self => self);
      mret (inl {| vuir_instructions := instructions self; vuir_imports := imports self |})
  | _ => mret (inr errors)
  end.

End Lower.

(** ** The knot *)

(** [depth] bounds the depth of the recursion. *)
Fixpoint knot `{!Setting} (depth : nat) : Rec :=
  match depth with
  | O => {| lower_expr := fun _ _ _ _ => diverge; lower_expr_named := fun _ _ _ _ _ => diverge;
            lower_decl_init_expr := fun _ _ _ _ => diverge |}
  | S depth =>
      let rec := knot depth in
      {| lower_expr := @lower_expr_body _ rec; lower_expr_named := @lower_expr_named_body _ rec;
         lower_decl_init_expr := @lower_decl_init_expr_body _ rec |}
  end.

(** ** Entry point *)

(** The loop of [compute_line_starts], which goes over the length of the text at most. *)
Fixpoint line_starts_loop `{!Memx} (fuel : nat) (src : list Z) (starts : list nat) (offset : nat) : res (list nat) :=
  match fuel with
  | O => diverge
  | S fuel =>
      if (offset <? length src)%nat then
        rest ← slice_from src offset;
        match memchr rest (byte "010") with
        | Some pos => line_starts_loop fuel src (starts ++ [(offset + (pos + 1))%nat]) (offset + (pos + 1))
        | None => Ret starts
        end
      else Ret starts
  end.
Definition compute_line_starts `{!Memx} (src : list Z) : res (list nat) :=
  line_starts_loop (S (length src)) src [0%nat] 0.

Definition new_lowerer `{!Setting} (cu_values : Sema.Store) (module_id : Z) (line_starts : list nat) : Lowerer :=
  mk cu_values module_id [] [] [] [] line_starts [] None [].

(** [to_vuir] with a bound on the depth; the store is handed back. *)
Definition to_vuir `{!Setting, !Memx} (depth : nat) (cu_values : Sema.Store) (src : list Z) (module_id : Z)
    (ast : ModuleKind) : res ((Vuir + list Diagnostic.Diagnostic) * Sema.Store) :=
  line_starts ← compute_line_starts src;
  '(r, self) ← @lower _ (knot depth) ast (new_lowerer cu_values module_id line_starts);
  Ret (r, values self).

End Lower.
