(* ===== verification/LowerSyntax.v ===== *)
(** * The syntax the lowering accepts

    [size_*] counts the nodes of a tree.  [supported_*] says that a tree has none
    of the constructs on which the lowering gives up ([todo!], [unreachable!], an
    [unwrap]): many-item pointers, nullable and function types, arrays without
    a length, null and character literals, ranges, [for], [try], the unwrapping of
    nullables, [errdefer], switch cases without patterns, numerals that do not
    parse, and [return] outside of a function ([in_fn]). *)

From S2P Require Import Prelude Words Bytes Span Token Ast Anyint Value LexerLit Float128.

#[local] Open Scope Z_scope.

Module LowerSyntax.
Import Ast.

Fixpoint sum {A} (f : A -> nat) (l : list A) : nat :=
  match l with [] => O | x :: l => f x + sum f l end.
Definition opt_size {A} (f : A -> nat) (o : option A) : nat :=
  match o with Some x => f x | None => O end.

Fixpoint size_expr (e : Expr) : nat := let '(mkExpr _ kind _) := e in S (size_kind kind)

with size_kind (k : ExprKind) : nat :=
  match k with
  | ExprKind_Add op | ExprKind_AddSat op | ExprKind_Sub op | ExprKind_SubSat op
  | ExprKind_Mul op | ExprKind_MulSat op | ExprKind_Div op | ExprKind_Rem op
  | ExprKind_Shl op | ExprKind_ShlSat op | ExprKind_ShlWrap op
  | ExprKind_Shr op | ExprKind_ShrSat op | ExprKind_ShrWrap op
  | ExprKind_BitAnd op | ExprKind_BitOr op | ExprKind_BitXor op
  | ExprKind_Lt op | ExprKind_Lte op | ExprKind_Gt op | ExprKind_Gte op
  | ExprKind_BoolAnd op | ExprKind_BoolOr op | ExprKind_Eq op | ExprKind_Neq op =>
      let '(mkBinOp lhs rhs) := op in S (size_expr lhs + size_expr rhs)
  | ExprKind_Neg e | ExprKind_Pos e | ExprKind_Not e | ExprKind_BitNot e | ExprKind_Group e
  | ExprKind_Deref e | ExprKind_UnwrapNullable e | ExprKind_AddressOf e | ExprKind_Try e => S (size_expr e)
  | ExprKind_Block b | ExprKind_Loop b => S (size_block b)
  | ExprKind_If i => S (size_if i)
  | ExprKind_While (mkWhile _ _ cond body _) => S (size_expr cond + size_block body)
  | ExprKind_For _ | ExprKind_Lit _ | ExprKind_Ident _ | ExprKind_Undefined | ExprKind_Discard => 1
  | ExprKind_Switch (mkSwitch _ _ e cases _ else_body _) =>
      S (size_expr e + sum size_case cases + opt_size size_switch_body else_body)
  | ExprKind_Type t => S (size_type t)
  | ExprKind_FieldAccess (mkFieldAccess lhs _ _) => S (size_expr lhs)
  | ExprKind_Index (mkIndex collection kind) => S (size_expr collection + size_index kind)
  | ExprKind_FnCall (mkFnCall callee args) => S (size_expr callee + sum size_arg args)
  | ExprKind_StructInit (mkStructInit ty fields) => S (opt_size size_expr ty + sum size_field_init fields)
  | ExprKind_ArrayInit (mkArrayInit ty elements) => S (opt_size size_expr ty + sum size_expr elements)
  end

with size_block (b : Block) : nat := let '(mkBlock _ _ _ stmts _) := b in S (sum size_stmt stmts)

with size_else (e : ElseBlock) : nat :=
  match e with ElseBlock_If i => S (size_if i) | ElseBlock_Body b => S (size_if_body b) end

with size_if_body (b : IfBody) : nat :=
  match b with IfBody_Block b => S (size_block b) | IfBody_Expr e => S (size_expr e) end

with size_if (i : If) : nat :=
  let '(mkIf _ cond then_body else_block _) := i in
  S (size_expr cond + size_if_body then_body + opt_size size_else else_block)

with size_case (c : SwitchCase) : nat :=
  let '(mkSwitchCase _ patterns _ body _) := c in S (sum size_expr patterns + size_switch_body body)

with size_switch_body (b : SwitchBody) : nat :=
  match b with SwitchBody_Block b => S (size_block b) | SwitchBody_Expr e => S (size_expr e) end

with size_type (t : Type_) : nat :=
  match t with
  | Type_Array ty _ size sentinel => S (size_expr ty + opt_size size_expr size + opt_size size_expr sentinel)
  | Type_Ptr ty _ | Type_Nullable ty => S (size_expr ty)
  | Type_ManyPtr ty sentinel _ | Type_Slice ty sentinel _ => S (size_expr ty + opt_size size_expr sentinel)
  | Type_Struct (mkStructTy fields items _ _ _) => S (sum size_field fields + sum size_item items)
  | Type_Union (mkUnionTy tag fields items _ _) =>
      S (size_tag tag + sum size_union_field fields + sum size_item items)
  | Type_Enum (mkEnumTy tag_ty variants items _ _) =>
      S (opt_size size_expr tag_ty + sum size_variant variants + sum size_item items)
  | _ => 1
  end

with size_index (k : IndexKind) : nat := match k with IndexKind_Index e => size_expr e | _ => O end

with size_arg (a : Arg) : nat :=
  match a with Arg_Named _ value => S (size_expr value) | Arg_Positional value => S (size_expr value) end

with size_field (f : FieldDef) : nat := let '(mkFieldDef _ _ _ ty _ _) := f in S (size_expr ty)

with size_tag (t : UnionTagKind) : nat := match t with UnionTagKind_Enum e => size_expr e | _ => O end

with size_union_field (f : UnionFieldDef) : nat :=
  let '(mkUnionFieldDef _ _ ty _) := f in S (opt_size size_expr ty)

with size_variant (v : EnumVariantDef) : nat :=
  let '(mkEnumVariantDef _ _ value _) := v in S (opt_size size_expr value)

with size_field_init (f : FieldInit) : nat := let '(mkFieldInit _ value) := f in S (size_expr value)

with size_item (i : AssociatedItem) : nat :=
  let '(mkAssociatedItem _ kind _ _) := i in
  match kind with
  | AssociatedItemKind_Fn f => S (size_fn f)
  | AssociatedItemKind_Const b | AssociatedItemKind_Var b => S (size_binding b)
  end

with size_stmt (s : Statement) : nat :=
  let '(mkStatement _ kind _) := s in
  match kind with
  | StatementKind_Expr e | StatementKind_Defer e | StatementKind_Errdefer e => S (size_expr e)
  | StatementKind_Var b | StatementKind_Const b | StatementKind_ComptimeVarBinding b => S (size_binding b)
  | StatementKind_Return e | StatementKind_Break _ e => S (opt_size size_expr e)
  | StatementKind_Continue _ _ => 1
  | StatementKind_Assign lhs _ rhs => S (size_expr lhs + size_expr rhs)
  end

with size_binding (b : VarBinding) : nat :=
  let '(mkVarBinding _ _ ty val) := b in S (opt_size size_expr ty + size_expr val)

with size_fn (f : Fn) : nat :=
  let '(mkFn _ _ _ _ callconv _ params ret_ty block) := f in
  S (opt_size size_expr callconv + sum size_param params + size_expr ret_ty + opt_size size_block block)

with size_param (p : FnParam) : nat := let '(mkFnParam _ _ _ ty) := p in S (size_expr ty).

(** Numerals that parse, to a float that is neither a [NaN] nor a negative zero. *)
Definition int_ok (symbol : list Z) (radix : Radix) : bool :=
  match LexerLit.lower_lit_int_value symbol radix true with Ret _ => true | Fault _ => false end.
Definition float_ok (symbol : list Z) : bool :=
  match FloatText.parse_f64_as_f128 symbol with
  | Ret bits => Value.float_lawful bits
  | Fault _ => false
  end.
Definition supported_lit (l : Lit.Lit) : bool :=
  match l with
  | Lit.Null | Lit.Char _ => false
  | Lit.Integer symbol radix _ => int_ok symbol radix
  | Lit.Float symbol _ => float_ok symbol
  | Lit.Str _ | Lit.Bool _ | Lit.EnumVariant _ => true
  end.

Definition opt_all {A} (f : A -> bool) (o : option A) : bool :=
  match o with Some x => f x | None => true end.

Fixpoint supported_expr (in_fn : bool) (e : Expr) {struct e} : bool :=
  let '(mkExpr _ kind _) := e in supported_kind in_fn kind

with supported_kind (in_fn : bool) (k : ExprKind) {struct k} : bool :=
  match k with
  | ExprKind_Add op | ExprKind_AddSat op | ExprKind_Sub op | ExprKind_SubSat op
  | ExprKind_Mul op | ExprKind_MulSat op | ExprKind_Div op | ExprKind_Rem op
  | ExprKind_Shl op | ExprKind_ShlSat op | ExprKind_ShlWrap op
  | ExprKind_Shr op | ExprKind_ShrSat op | ExprKind_ShrWrap op
  | ExprKind_BitAnd op | ExprKind_BitOr op | ExprKind_BitXor op
  | ExprKind_Lt op | ExprKind_Lte op | ExprKind_Gt op | ExprKind_Gte op
  | ExprKind_BoolAnd op | ExprKind_BoolOr op | ExprKind_Eq op | ExprKind_Neq op =>
      let '(mkBinOp lhs rhs) := op in supported_expr in_fn lhs && supported_expr in_fn rhs
  | ExprKind_Neg e | ExprKind_Pos e | ExprKind_Not e | ExprKind_BitNot e | ExprKind_Group e
  | ExprKind_Deref e | ExprKind_AddressOf e => supported_expr in_fn e
  | ExprKind_UnwrapNullable _ | ExprKind_Try _ | ExprKind_For _ => false
  | ExprKind_Block b | ExprKind_Loop b => supported_block in_fn b
  | ExprKind_If i => supported_if in_fn i
  | ExprKind_While (mkWhile _ _ cond body _) => supported_expr in_fn cond && supported_block in_fn body
  | ExprKind_Lit l => supported_lit l
  | ExprKind_Ident _ | ExprKind_Undefined | ExprKind_Discard => true
  | ExprKind_Switch (mkSwitch _ _ e cases _ else_body _) =>
      supported_expr in_fn e && forallb (supported_case in_fn) cases
      && opt_all (supported_switch_body in_fn) else_body
  | ExprKind_Type t => supported_type in_fn t
  | ExprKind_FieldAccess (mkFieldAccess lhs _ _) => supported_expr in_fn lhs
  | ExprKind_Index (mkIndex collection kind) => supported_expr in_fn collection && supported_index in_fn kind
  | ExprKind_FnCall (mkFnCall callee args) => supported_expr in_fn callee && forallb (supported_arg in_fn) args
  | ExprKind_StructInit (mkStructInit ty fields) =>
      opt_all (supported_expr in_fn) ty && forallb (supported_field_init in_fn) fields
  | ExprKind_ArrayInit (mkArrayInit ty elements) =>
      opt_all (supported_expr in_fn) ty && forallb (supported_expr in_fn) elements
  end

with supported_block (in_fn : bool) (b : Block) {struct b} : bool :=
  let '(mkBlock _ _ _ stmts _) := b in forallb (supported_stmt in_fn) stmts

with supported_else (in_fn : bool) (e : ElseBlock) {struct e} : bool :=
  match e with ElseBlock_If i => supported_if in_fn i | ElseBlock_Body b => supported_if_body in_fn b end

with supported_if_body (in_fn : bool) (b : IfBody) {struct b} : bool :=
  match b with IfBody_Block b => supported_block in_fn b | IfBody_Expr e => supported_expr in_fn e end

with supported_if (in_fn : bool) (i : If) {struct i} : bool :=
  let '(mkIf _ cond then_body else_block _) := i in
  supported_expr in_fn cond && supported_if_body in_fn then_body && opt_all (supported_else in_fn) else_block

with supported_case (in_fn : bool) (c : SwitchCase) {struct c} : bool :=
  let '(mkSwitchCase _ patterns _ body _) := c in
  negb (bool_decide (length patterns = O)) && forallb (supported_expr in_fn) patterns
  && supported_switch_body in_fn body

with supported_switch_body (in_fn : bool) (b : SwitchBody) {struct b} : bool :=
  match b with SwitchBody_Block b => supported_block in_fn b | SwitchBody_Expr e => supported_expr in_fn e end

with supported_type (in_fn : bool) (t : Type_) {struct t} : bool :=
  match t with
  | Type_Array ty _ size sentinel =>
      supported_expr in_fn ty && match size with Some size => supported_expr in_fn size | None => false end
      && opt_all (supported_expr in_fn) sentinel
  | Type_Ptr ty _ => supported_expr in_fn ty
  | Type_Slice ty sentinel _ => supported_expr in_fn ty && opt_all (supported_expr in_fn) sentinel
  | Type_ManyPtr _ _ _ | Type_Nullable _ | Type_Fn _ => false
  | Type_Struct (mkStructTy fields items _ _ _) =>
      forallb (supported_field in_fn) fields && forallb (supported_item in_fn) items
  | Type_Union (mkUnionTy tag fields items _ _) =>
      supported_tag in_fn tag && forallb (supported_union_field in_fn) fields && forallb (supported_item in_fn) items
  | Type_Enum (mkEnumTy tag_ty variants items _ _) =>
      opt_all (supported_expr in_fn) tag_ty && forallb (supported_variant in_fn) variants
      && forallb (supported_item in_fn) items
  | _ => true
  end

with supported_index (in_fn : bool) (k : IndexKind) {struct k} : bool :=
  match k with IndexKind_Index e => supported_expr in_fn e | _ => false end

with supported_arg (in_fn : bool) (a : Arg) {struct a} : bool :=
  match a with Arg_Named _ value => supported_expr in_fn value | Arg_Positional value => supported_expr in_fn value end

with supported_field (in_fn : bool) (f : FieldDef) {struct f} : bool :=
  let '(mkFieldDef _ _ _ ty _ _) := f in supported_expr in_fn ty

with supported_tag (in_fn : bool) (t : UnionTagKind) {struct t} : bool :=
  match t with UnionTagKind_Enum e => supported_expr in_fn e | _ => true end

with supported_union_field (in_fn : bool) (f : UnionFieldDef) {struct f} : bool :=
  let '(mkUnionFieldDef _ _ ty _) := f in opt_all (supported_expr in_fn) ty

with supported_variant (in_fn : bool) (v : EnumVariantDef) {struct v} : bool :=
  let '(mkEnumVariantDef _ _ value _) := v in opt_all (supported_expr in_fn) value

with supported_field_init (in_fn : bool) (f : FieldInit) {struct f} : bool :=
  let '(mkFieldInit _ value) := f in supported_expr in_fn value

with supported_item (in_fn : bool) (i : AssociatedItem) {struct i} : bool :=
  let '(mkAssociatedItem _ kind _ _) := i in
  match kind with
  | AssociatedItemKind_Fn f => supported_fn in_fn f
  | AssociatedItemKind_Const b | AssociatedItemKind_Var b => supported_binding in_fn b
  end

with supported_stmt (in_fn : bool) (s : Statement) {struct s} : bool :=
  let '(mkStatement _ kind _) := s in
  match kind with
  | StatementKind_Expr e | StatementKind_Defer e => supported_expr in_fn e
  | StatementKind_Errdefer _ => false
  | StatementKind_Var b | StatementKind_Const b | StatementKind_ComptimeVarBinding b => supported_binding in_fn b
  | StatementKind_Return e => in_fn && opt_all (supported_expr in_fn) e
  | StatementKind_Break _ e => opt_all (supported_expr in_fn) e
  | StatementKind_Continue _ _ => true
  | StatementKind_Assign lhs _ rhs => supported_expr in_fn lhs && supported_expr in_fn rhs
  end

with supported_binding (in_fn : bool) (b : VarBinding) {struct b} : bool :=
  let '(mkVarBinding _ _ ty val) := b in opt_all (supported_expr in_fn) ty && supported_expr in_fn val

with supported_fn (in_fn : bool) (f : Fn) {struct f} : bool :=
  let '(mkFn _ _ _ _ callconv _ params ret_ty block) := f in
  opt_all (supported_expr in_fn) callconv && forallb (supported_param in_fn) params
  && supported_expr in_fn ret_ty && opt_all (supported_block true) block

with supported_param (in_fn : bool) (p : FnParam) {struct p} : bool :=
  let '(mkFnParam _ _ _ ty) := p in supported_expr in_fn ty.

Definition size_struct (t : StructTy) : nat := size_type (Type_Struct t).
Definition supported_struct (in_fn : bool) (t : StructTy) : bool := supported_type in_fn (Type_Struct t).

Definition size_module (m : ModuleKind) : nat := match m with StructDecl t => size_struct t | NoModule => O end.
Definition supported_module (m : ModuleKind) : bool :=
  match m with StructDecl t => supported_struct false t | NoModule => false end.

Lemma sum_app {A} (f : A -> nat) l1 l2 : sum f (l1 ++ l2) = (sum f l1 + sum f l2)%nat.
Proof. induction l1 as [|x l1 IH]; simpl; lia. Qed.

Lemma sum_elem {A} (f : A -> nat) l x : x ∈ l -> (f x <= sum f l)%nat.
Proof. induction 1; simpl; lia. Qed.

Lemma forallb_elem {A} (p : A -> bool) l x : forallb p l = true -> x ∈ l -> p x = true.
Proof. intros Hp Hx. rewrite forallb_forall in Hp. apply Hp. by apply list_elem_of_In. Qed.

Lemma size_expr_pos e : (0 < size_expr e)%nat.
Proof. destruct e. simpl. lia. Qed.

End LowerSyntax.
