(* ===== verification/LowerLogic.v ===== *)
(** * Reasoning about the lowering

    [lowers m s Q]: from the state [s], [m] returns a value and a state that
    satisfy [Q].  [wf D P k d s]: the state is well formed, with the placeholders
    [P] still to be filled in, and there is room for [k] instructions and values
    and for [d] scopes of [defer] statements more, of [D] in all.  [grows s s']: what the lowering of a
    piece of syntax does to the state: instructions, errors and values are
    added, no block is left open, and what was there stays.  A rule per
    primitive. *)

From S2P Require Import Prelude Words Bytes Span Token Diagnostic Ast HashIndex ShardedMap.
From S2P Require Import Anyint Value ValueStore ValueSpec StoreLogic Vuir SemaState SemaLogic.
From S2P Require Import LowerState Lower.
From stdpp Require Import gmap sorting.

#[local] Open Scope Z_scope.

Module LowerLogic.
Import StoreLogic Ast IrId LowerState.

(** ** Well-formed instructions *)

(** What an instruction is to the jumps that name it. *)
Inductive Target : Set := TBlock | TLoop | TComptime | TOther.

Definition target_of (op : Vuir.Opcode) : Target :=
  match op with
  | Vuir.Block _ _ => TBlock
  | Vuir.Loop _ _ => TLoop
  | Vuir.BlockComptime _ | Vuir.Declaration _ | Vuir.DeclFnParam _ _ _ _ _ | Vuir.FnCall _ _ _ _
  | Vuir.FnCallWithFieldPtrReceiver _ _ _ _ _ | Vuir.DeclStruct _ _ _ _ _ _ | Vuir.DeclUnion _ _ _ _ _ _ => TComptime
  | _ => TOther
  end.

Definition field_ref (f : Vuir.FieldTy) : list InstructionRef :=
  match f with Vuir.Ref r => [r] | Vuir.Body _ => [] end.
Definition field_body (f : Vuir.FieldTy) : list InstructionId :=
  match f with Vuir.Body body => body | Vuir.Ref _ => [] end.
Definition of_opt {A B} (f : A -> list B) (o : option A) : list B :=
  match o with Some x => f x | None => [] end.

(** The operands of an instruction: what it reads, which comes before it. *)
Definition uses (op : Vuir.Opcode) : list InstructionRef :=
  match op with
  | Vuir.Invalid | Vuir.TypeOfCurFnRet | Vuir.TypeBuiltinCallingConvention | Vuir.Declaration _
  | Vuir.CaptureGet _ _ | Vuir.DeclFnParam _ _ _ _ _ | Vuir.DeclStruct _ _ _ _ _ _
  | Vuir.StackAllocInferred _ _ | Vuir.StackAllocInferredMut _ _ | Vuir.StackAllocInferredComptime _ _
  | Vuir.StackAllocInferredComptimeMut _ _ | Vuir.Block _ _ | Vuir.BlockComptime _ | Vuir.Loop _ _
  | Vuir.Repeat _ | Vuir.DeclVal _ | Vuir.DeclRef _ | Vuir.DbgSrcLoc _ _ | Vuir.Defer _ _ => []
  | Vuir.StructInitTypeOfField r _ _ | Vuir.TypeOfPtrPointee r _ | Vuir.TypeOf r | Vuir.TypePtr r _ _ _
  | Vuir.StackAlloc _ r _ | Vuir.StackAllocMut _ r _ | Vuir.StackAllocComptime _ r _
  | Vuir.StackAllocComptimeMut _ r _ | Vuir.ReifyInferredAlloc r _ | Vuir.Break _ r _ | Vuir.BreakComptime _ r
  | Vuir.FieldValFromPtr r _ _ | Vuir.FieldPtrFromPtr r _ _ | Vuir.FieldValFromVal r _ _ | Vuir.Load r _
  | Vuir.Negate r _ | Vuir.BoolNot r _ | Vuir.BitNot r _ | Vuir.RvalueToLvalue r => [r]
  | Vuir.TypeSlice r _ sentinel => r :: of_opt (fun x => [x]) sentinel
  | Vuir.TypeArray r _ len sentinel _ _ _ => r :: len :: of_opt (fun x => [x]) sentinel
  | Vuir.DeclFn ret_ty _ _ _ _ _ callconv _ _ _ => Instruction ret_ty :: of_opt (fun i => [Instruction i]) callconv
  | Vuir.DeclEnum tag_ty _ _ _ _ _ => of_opt (fun t => [t.1]) tag_ty
  | Vuir.DeclUnion tag _ _ _ _ _ => of_opt (of_opt (fun t => [t.1])) tag
  | Vuir.FreezeStackAlloc i _ => [Instruction i]
  | Vuir.Return value _ => of_opt (fun x => [x]) value
  | Vuir.Undefined ty _ => of_opt (fun x => [x]) ty
  | Vuir.AggregateInit ty kind _ =>
      ty :: match kind with
            | Vuir.Empty => [] | Vuir.Array elements => elements | Vuir.Adt fields => map Vuir.adt_value fields
            end
  | Vuir.FnCall r _ ret_ty _ | Vuir.FnCallWithFieldPtrReceiver r _ _ ret_ty _ => r :: of_opt (fun x => [x]) ret_ty
  | Vuir.ArrayIndexElemVal x y _ | Vuir.ArrayIndexElemPtr x y _ | Vuir.Coerce x y _ | Vuir.Store x y _
  | Vuir.StoreToInferredAlloc x y _ | Vuir.SwitchCapture x y _
  | Vuir.Add x y _ | Vuir.AddSat x y _ | Vuir.Sub x y _ | Vuir.SubSat x y _ | Vuir.Mul x y _ | Vuir.MulSat x y _
  | Vuir.Div x y _ | Vuir.Rem x y _ | Vuir.Lt x y _ | Vuir.Lte x y _ | Vuir.Gt x y _ | Vuir.Gte x y _
  | Vuir.BoolAnd x y _ | Vuir.BoolOr x y _ | Vuir.Shl x y _ | Vuir.ShlSat x y _ | Vuir.ShlWrap x y _
  | Vuir.Shr x y _ | Vuir.ShrSat x y _ | Vuir.ShrWrap x y _ | Vuir.BitAnd x y _ | Vuir.BitOr x y _
  | Vuir.BitXor x y _ | Vuir.Eq x y _ | Vuir.Neq x y _ => [x; y]
  | Vuir.Branch cond _ _ _ => [cond.1]
  | Vuir.Switch operand single multi _ _ => operand :: map Vuir.pattern single ++ flat_map Vuir.items multi
  end.

(** What a declaration of a type refers to and may come after it. *)
Definition late_uses (op : Vuir.Opcode) : list InstructionRef :=
  match op with
  | Vuir.DeclStruct _ fields _ _ _ _ => flat_map (fun f => field_ref (Vuir.field_ty f)) fields
  | Vuir.DeclEnum _ _ _ variants _ _ => flat_map (fun v => of_opt (fun t => [t.1]) (Vuir.variant_value v)) variants
  | Vuir.DeclUnion _ _ _ fields _ _ => flat_map (fun f => of_opt field_ref (Vuir.uf_ty f)) fields
  | _ => []
  end.

Definition captured (c : Vuir.Capture) : list InstructionId :=
  match c with Vuir.Id id => [id] | Vuir.FromParent _ => [] end.

(** The instructions of the bodies an instruction has. *)
Definition bodies (op : Vuir.Opcode) : list InstructionId :=
  match op with
  | Vuir.Declaration d => Vuir.decl_value d
  | Vuir.DeclFn _ _ params _ body _ _ _ _ _ => params ++ body
  | Vuir.DeclFnParam _ body _ _ _ | Vuir.Block body _ | Vuir.BlockComptime body | Vuir.Loop body _
  | Vuir.Defer body _ => body
  | Vuir.DeclStruct _ fields _ _ decls captures =>
      flat_map (fun f => field_body (Vuir.field_ty f)) fields ++ decls ++ flat_map captured captures
  | Vuir.DeclEnum _ _ _ _ decls captures => decls ++ flat_map captured captures
  | Vuir.DeclUnion _ _ _ fields decls captures =>
      flat_map (fun f => of_opt field_body (Vuir.uf_ty f)) fields ++ decls ++ flat_map captured captures
  | Vuir.FnCall _ args _ _ | Vuir.FnCallWithFieldPtrReceiver _ _ args _ _ => flat_map Vuir.arg_body args
  | Vuir.Branch _ then_body else_body _ => then_body ++ else_body
  | Vuir.Switch _ single multi else_body _ =>
      flat_map Vuir.single_body single ++ flat_map Vuir.multi_body multi ++ of_opt id else_body
  | _ => []
  end.

(** A jump names an instruction that can be its target. *)
Definition jump_ok (kind : InstructionId -> option Target) (op : Vuir.Opcode) : Prop :=
  match op with
  | Vuir.Break block _ _ => kind block = Some TBlock \/ kind block = Some TLoop
  | Vuir.Repeat loop => kind loop = Some TLoop
  | Vuir.BreakComptime block _ => kind block = Some TComptime
  | _ => True
  end.

Definition id_below (n : nat) (i : InstructionId) : Prop := 0 <= i < Z.of_nat n.
Definition ref_below (n : nat) (r : InstructionRef) : Prop :=
  match r with Instruction i => id_below n i | Interned _ => True end.

(** An instruction at position [i] of [len] instructions. *)
Record inst_ok (kind : InstructionId -> option Target) (len i : nat) (op : Vuir.Opcode) : Prop := {
  inst_uses : Forall (ref_below i) (uses op);
  inst_late : Forall (ref_below len) (late_uses op);
  inst_bodies : Forall (id_below len) (bodies op);
  inst_jump : jump_ok kind op;
}.

Lemma id_below_le n m i : (n <= m)%nat -> id_below n i -> id_below m i.
Proof. unfold id_below. lia. Qed.
Lemma ref_below_le n m r : (n <= m)%nat -> ref_below n r -> ref_below m r.
Proof. destruct r; [apply id_below_le|done]. Qed.
Lemma Forall_ids_le n m l : (n <= m)%nat -> Forall (id_below n) l -> Forall (id_below m) l.
Proof. intros. eapply Forall_impl; [done|]. intros. by eapply id_below_le. Qed.
Lemma Forall_refs_le n m l : (n <= m)%nat -> Forall (ref_below n) l -> Forall (ref_below m) l.
Proof. intros. eapply Forall_impl; [done|]. intros. by eapply ref_below_le. Qed.

Lemma jump_ok_mono (k k' : InstructionId -> option Target) op :
  (forall i t, k i = Some t -> k' i = Some t) -> jump_ok k op -> jump_ok k' op.
Proof. intros Hk. destruct op; simpl; intuition auto. Qed.

Lemma inst_ok_mono k k' len len' i op :
  (len <= len')%nat -> (forall j t, k j = Some t -> k' j = Some t) ->
  inst_ok k len i op -> inst_ok k' len' i op.
Proof.
  intros Hl Hk []. split; [done|by eapply Forall_refs_le|by eapply Forall_ids_le|by eapply jump_ok_mono].
Qed.

(** ** Well-formed states *)

Section Logic.
Context `{SL : SettingLaws}.
(** A bound on the number of [defer] statements. *)
Context (D : nat).
Implicit Types (s : Lowerer) (b : ScopeId) (r : InstructionRef) (P : gmap Z Target) (k d : nat).

(** What a node of syntax may emit. *)
Definition W : nat := D + 64.
Lemma W_ge : (D + 64 <= W)%nat.
Proof. done. Qed.

Abbreviation count s := (length (instructions s)).
Definition ref_ok s r : Prop := ref_below (count s) r.
Definition id_ok s (i : InstructionId) : Prop := id_below (count s) i.

Definition kind_at P s (i : InstructionId) : option Target :=
  match P !! i with
  | Some t => Some t
  | None => if 0 <=? i then target_of <$> instructions s !! Z.to_nat i else None
  end.

Definition is_block (sc : Scope) : bool := match sc with Scope_Block _ => true | _ => false end.
Definition is_defer (sc : Scope) : bool := match sc with Scope_Defer _ _ _ => true | _ => false end.
Definition defers (l : list Scope) : nat := length (filter (fun sc => is_defer sc = true) l).

(** A label can be left or repeated. *)
Definition block_kind_ok P s (k : BlockKind.BlockKind) : Prop :=
  match k with
  | BlockKind.Body | BlockKind.Branch _ => True
  | BlockKind.Block r label => exists i, r = Instruction i /\ (is_Some label -> kind_at P s i = Some TBlock)
  | BlockKind.Loop r _ => exists i, r = Instruction i /\ kind_at P s i = Some TLoop
  end.

Definition scope_ok P s (i : nat) (sc : Scope) : Prop :=
  (forall p, scope_parent sc = Some p -> (p < i)%nat) /\
  match sc with
  | Scope_Namespace ns => Forall (id_ok s) (flat_map captured (captures ns))
  | Scope_LocalStackAllocated _ _ _ r => ref_ok s r
  | Scope_LocalValue _ _ _ r flag => ref_ok s r /\ forall f, flag = Some f -> (f < length (flags s))%nat
  | Scope_Block b => (inst_start b <= length (uir_scopes_instructions s))%nat /\ block_kind_ok P s (kind b)
  | Scope_Defer _ body _ => Forall (id_ok s) body
  end.

Record wf P k d s : Prop := {
  wf_store : store k (values s);
  wf_room : Z.of_nat (count s + k) <= 0xffffffff;
  wf_insts i op : instructions s !! i = Some op ->
    inst_ok (kind_at P s) (count s) i op /\ (op = Vuir.Invalid -> is_Some (P !! Z.of_nat i) \/ errors s <> []);
  wf_pending i t : P !! i = Some t -> id_ok s i;
  wf_uir : Forall (id_ok s) (uir_scopes_instructions s);
  wf_scopes i sc : scopes s !! i = Some sc -> scope_ok P s i sc;
  wf_lines : StronglySorted lt (line_starts s) /\ head (line_starts s) = Some 0%nat;
  wf_defers : (defers (scopes s) + d <= D)%nat;
}.

(** Namespaces may get captures. *)
Definition scope_le (a b : Scope) : Prop :=
  match a, b with
  | Scope_Namespace x, Scope_Namespace y =>
      ns_parent x = ns_parent y /\ decl_to_ast_node x = decl_to_ast_node y /\ captures x `prefix_of` captures y
  | _, _ => a = b
  end.

#[export] Instance scope_le_preorder : PreOrder scope_le.
Proof.
  split.
  - intros []; simpl; auto.
  - intros [] [] []; simpl; try congruence. intros (-> & -> & ?) (-> & -> & ?). split_and!; [done..|]. by etrans.
Qed.

Record grows s s' : Prop := {
  grows_insts : instructions s `prefix_of` instructions s';
  grows_uir : uir_scopes_instructions s `prefix_of` uir_scopes_instructions s';
  grows_scopes : exists l extra, scopes s' = l ++ extra /\ Forall2 scope_le (scopes s) l /\
    Forall (fun sc => is_block sc = false) extra;
  grows_errors : errors s `prefix_of` errors s';
  grows_root : fn_body_root_scope s' = fn_body_root_scope s;
  grows_flags : length (flags s') = length (flags s);
  grows_fixed : line_starts s' = line_starts s /\ module_id s' = module_id s;
  grows_values : extends (values s) (values s');
}.

#[export] Instance grows_preorder : PreOrder grows.
Proof.
  split.
  - intros s. split; try done. exists (scopes s), []. rewrite app_nil_r.
    split_and!; [done|done|constructor].
  - intros s1 s2 s3 [I1 U1 (l1 & x1 & S1 & L1 & X1) E1 R1 F1 [A1 B1] V1] [I2 U2 (l2 & x2 & S2 & L2 & X2) E2 R2 F2 [A2 B2] V2].
    split; [by etrans|by etrans| |by etrans|congruence|congruence|split; congruence|by etrans].
    rewrite S1 in L2. apply Forall2_app_inv_l in L2 as (l3 & x3 & L3 & Lx & ->).
    exists l3, (x3 ++ x2). rewrite S2, (assoc_L (++)). split_and!; [done|by etrans|].
    apply Forall_app. split; [|done]. clear -X1 Lx. induction Lx as [|a b x1 x3 Hab Lx IH]; [done|].
    inversion X1 as [|?? Ha X1']. constructor; [|by apply IH].
    by destruct a, b.
Qed.

(** No scope stays open either. *)
Definition keeps s s' : Prop := grows s s' /\ length (scopes s') = length (scopes s).

#[export] Instance keeps_preorder : PreOrder keeps.
Proof.
  split; [by split|]. intros s1 s2 s3 [G1 L1] [G2 L2]. split; [by etrans|congruence].
Qed.

(** ** Facts that last *)

Lemma grows_count s s' : grows s s' -> (count s <= count s')%nat.
Proof. intros []. by apply prefix_length. Qed.

Lemma ref_grows s s' r : grows s s' -> ref_ok s r -> ref_ok s' r.
Proof. intros G. by apply ref_below_le, grows_count. Qed.

Lemma ids_grow s s' l : grows s s' -> Forall (id_ok s) l -> Forall (id_ok s') l.
Proof. intros G. by apply Forall_ids_le, grows_count. Qed.

Lemma refs_grow s s' l : grows s s' -> Forall (ref_ok s) l -> Forall (ref_ok s') l.
Proof. intros G. by apply Forall_refs_le, grows_count. Qed.

Lemma kind_grows P s s' i t : grows s s' -> kind_at P s i = Some t -> kind_at P s' i = Some t.
Proof.
  intros [[x Hx] _ _ _ _ _ _ _]. unfold kind_at. destruct (P !! i); [done|]. destruct (0 <=? i); [|done].
  rewrite Hx. intros (op & Hop & ->)%fmap_Some. by rewrite (lookup_app_l_Some _ _ _ _ Hop).
Qed.

(** A scope instructions are lowered in. *)
Definition scope_in s b : Prop := exists sc, scopes s !! b = Some sc /\ is_namespace (scopes s) b = false.
Definition block_in s b : Prop := exists blk, scopes s !! b = Some (Scope_Block blk).

Lemma grows_scope s s' b sc :
  grows s s' -> scopes s !! b = Some sc -> exists sc', scopes s' !! b = Some sc' /\ scope_le sc sc'.
Proof.
  intros [_ _ (l & x & -> & Hl & _) _ _ _ _ _] Hb.
  destruct (Forall2_lookup_l _ _ _ _ _ Hl Hb) as (sc' & Hb' & Hle). exists sc'.
  by rewrite (lookup_app_l_Some _ _ _ _ Hb').
Qed.

Lemma block_in_scope s b : block_in s b -> scope_in s b.
Proof. intros [blk Hb]. exists (Scope_Block blk). split; [done|]. unfold is_namespace. by rewrite Hb. Qed.

Lemma block_grows s s' b : grows s s' -> block_in s b -> block_in s' b.
Proof. intros G [blk Hb]. destruct (grows_scope _ _ _ _ G Hb) as ([] & Hb' & Hle); simplify_eq/=. by eexists. Qed.

Lemma scope_grows s s' b : grows s s' -> scope_in s b -> scope_in s' b.
Proof.
  intros G (sc & Hb & Hn). destruct (grows_scope _ _ _ _ G Hb) as (sc' & Hb' & Hle). exists sc'. split; [done|].
  unfold is_namespace in *. rewrite Hb in Hn. rewrite Hb'. by destruct sc, sc'.
Qed.

Definition location_refs (l : ExprResultLocation) : list InstructionRef :=
  match l with
  | NoLocation | GetAddressOf => []
  | CoerceToTy r | StoreToPtr r _ | StoreToInferredPtr r _ => [r]
  end.
Definition ctx_ok s (ctx : ExprContext) : Prop := Forall (ref_ok s) (location_refs (result_location ctx)).

Lemma ctx_grows s s' ctx : grows s s' -> ctx_ok s ctx -> ctx_ok s' ctx.
Proof. apply refs_grow. Qed.

Lemma ctx_ok_none s : ctx_ok s ctx_none.
Proof. constructor. Qed.
Lemma ctx_ok_address s : ctx_ok s ctx_get_address_of.
Proof. constructor. Qed.
Lemma ctx_ok_coerce s r : ref_ok s r -> ctx_ok s (coerce_to_ty r).
Proof. by repeat constructor. Qed.

(** Inside of a function there is a scope where its [defer]s end. *)
Definition root_ok (in_fn : bool) s : Prop := in_fn = true -> is_Some (fn_body_root_scope s).

Lemma root_grows s s' in_fn : grows s s' -> root_ok in_fn s -> root_ok in_fn s'.
Proof. intros G H Hin. rewrite (grows_root _ _ G). auto. Qed.

(** ** Less room *)

Lemma wf_le P k k' d d' s : (k' <= k)%nat -> (d' <= d)%nat -> wf P k d s -> wf P k' d' s.
Proof.
  intros Hk Hd' [Hst Hr Hi Hp Hu Hs Hl Hd]. split; try done; [by eapply store_le|lia|lia].
Qed.

(** ** Rules *)

Definition lowers {A} (m : M A) s (Q : A -> Lowerer -> Prop) : Prop := exists a s', m s = Ret (a, s') /\ Q a s'.

Lemma lowers_mret {A} (a : A) s Q : Q a s -> lowers (mret a) s Q.
Proof. intros. by exists a, s. Qed.

Lemma lowers_bind {A B} (m : M A) (k : A -> M B) s Q :
  lowers m s (fun a s' => lowers (k a) s' Q) -> lowers (m ≫= k) s Q.
Proof.
  intros (a & s1 & Hm & a' & s2 & Hk & HQ). exists a', s2. split; [|done].
  unfold mbind, M_bind. rewrite Hm. exact Hk.
Qed.

Lemma bind_ret {A B} (m : M A) (k : A -> M B) s a s' : m s = Ret (a, s') -> (m ≫= k) s = k a s'.
Proof. unfold mbind, M_bind. by intros ->. Qed.

Lemma scope_at_ret b sc s : scopes s !! b = Some sc -> scope_at b s = Ret (sc, s).
Proof. intros Hb. unfold scope_at, mbind, M_bind, gets, lift, get_idx. simpl. by rewrite Hb. Qed.

Lemma lowers_mono {A} (m : M A) s (Q Q' : A -> Lowerer -> Prop) :
  lowers m s Q -> (forall a s', Q a s' -> Q' a s') -> lowers m s Q'.
Proof. intros (a & s' & ? & ?) HQ. exists a, s'. auto. Qed.

Lemma lowers_gets {A} (f : Lowerer -> A) s Q : Q (f s) s -> lowers (gets f) s Q.
Proof. intros. by exists (f s), s. Qed.

Lemma lowers_modify f s (Q : unit -> Lowerer -> Prop) : Q tt (f s) -> lowers (modify f) s Q.
Proof. intros. by exists tt, (f s). Qed.

Lemma lowers_lift {A} (m : res A) a s Q : m = Ret a -> Q a s -> lowers (lift m) s Q.
Proof. intros -> ?. by exists a, s. Qed.

Lemma lowers_common f s Q : Q (f (ValueStore.common (values s))) s -> lowers (common f) s Q.
Proof. apply (lowers_gets (fun s => f (ValueStore.common (values s)))). Qed.

Lemma lowers_common_ref f s Q :
  (forall v, Q (Interned v) s) -> lowers (common_ref f) s Q.
Proof. intros HQ. apply lowers_bind, lowers_common, lowers_mret, HQ. Qed.

(** The state after the changes of a primitive, where nothing but one field changes. *)
Lemma wf_values P k k' d v s :
  wf P k d s -> (k' <= k)%nat -> store k' v -> extends (values s) v ->
  wf P k' d (set_values v s) /\ grows s (set_values v s).
Proof.
  intros [Hst Hr Hi Hp Hu Hs Hl Hd] Hc Hv Hx. split; [split; try done; simpl; lia|].
  split; try done. exists (scopes s), []. rewrite app_nil_r. split_and!; [done|done|constructor].
Qed.

Lemma lowers_intern P k d key s (Q : Z -> Lowerer -> Prop) :
  wf P k d s -> (0 < k)%nat -> ValueStore.is_trivial key = true -> Value.lawful_key key = true ->
  (forall i s', wf P (k - 1) d s' -> keeps s s' -> Q i s') ->
  lowers (intern_trivial key) s Q.
Proof.
  intros Hw Hk Ht Hl HQ. destruct (intern_store (k - 1) (values s) key) as (i & v & Hi & Hv & Hx & _).
  { eapply store_le; [|apply (wf_store _ _ _ _ Hw)]. lia. }
  { done. } { done. }
  exists i, (set_values v s). split; [unfold intern_trivial; by rewrite Hi|].
  destruct (wf_values _ _ (k - 1) _ v s Hw) as [Hw' Hg]; [lia|done|done|]. by apply HQ.
Qed.

Lemma wf_error P k d e s :
  wf P k d s -> wf P k d (set_errors (errors s ++ [e]) s) /\ grows s (set_errors (errors s ++ [e]) s) /\
  errors (set_errors (errors s ++ [e]) s) <> [].
Proof.
  intros [Hst Hr Hi Hp Hu Hs Hl Hd]. split_and!.
  - split; try done. intros i op Hop. destruct (Hi i op Hop) as [? He]. split; [done|]. intros Hv.
    destruct (He Hv); [by left|]. right. by intros [_ ?]%app_nil.
  - split; try done; [|by apply prefix_app_r]. exists (scopes s), []. rewrite app_nil_r.
    split_and!; [done|done|constructor].
  - by intros [_ ?]%app_nil.
Qed.

Lemma lowers_push_error P k d e s (Q : unit -> Lowerer -> Prop) :
  wf P k d s ->
  (forall s', wf P k d s' -> keeps s s' -> errors s' <> [] -> Q tt s') ->
  lowers (push_error e) s Q.
Proof.
  intros Hw HQ. apply lowers_modify. destruct (wf_error _ _ _ e _ Hw) as (? & ? & ?). by apply HQ.
Qed.

(** ** Instructions *)

(** An opcode that can be emitted, and one that can be put at the placeholder [i]. *)
Record emit_ok P s (op : Vuir.Opcode) : Prop := {
  emit_uses : Forall (ref_ok s) (uses op);
  emit_late : Forall (ref_ok s) (late_uses op);
  emit_bodies : Forall (id_ok s) (bodies op);
  emit_jump : jump_ok (kind_at P s) op;
}.

Definition next_id s : InstructionId := Z.of_nat (count s).
Definition emitted (op : Vuir.Opcode) s : Lowerer :=
  set_uir_scopes_instructions (uir_scopes_instructions s ++ [next_id s]) (set_instructions (instructions s ++ [op]) s).

Lemma inst_id_ret b op s :
  Z.of_nat (count s) <= 0xfffffffe -> inst_id b op s = Ret (next_id s, emitted op s).
Proof.
  intros Hn. unfold inst_id, from_usize, mbind, M_bind, gets, modify, lift. simpl.
  by rewrite NonMaxU32.from_usize_ok.
Qed.

Lemma inst_id_run P k d b op s :
  wf P k d s -> (0 < k)%nat -> inst_id b op s = Ret (next_id s, emitted op s).
Proof. intros [_ Hr _ _ _ _ _ _] Hc. apply inst_id_ret. lia. Qed.

Lemma emitted_grows op s : grows s (emitted op s).
Proof.
  split; try done; [by apply prefix_app_r..|]. exists (scopes s), []. rewrite app_nil_r.
  split_and!; [done|done|constructor].
Qed.

Lemma id_next op s : id_ok (emitted op s) (next_id s).
Proof. unfold id_ok, id_below, next_id, emitted. simpl. rewrite length_app. simpl. lia. Qed.

Lemma ids_next op s l : Forall (id_ok s) l -> Forall (id_ok (emitted op s)) (l ++ [next_id s]).
Proof.
  intros Hl. apply Forall_app. split; [by eapply ids_grow; [apply emitted_grows|]|]. constructor; [apply id_next|done].
Qed.

(** The kind of a jump target, with one more placeholder. *)
Definition pend (t : Target) (i : InstructionId) P : gmap Z Target := <[i := t]> P.

Lemma kind_at_next P k d op s t :
  wf P k d s -> target_of op = t -> P !! next_id s = None /\ kind_at P (emitted op s) (next_id s) = Some t.
Proof.
  intros Hw <-. assert (HP : P !! next_id s = None).
  { destruct (P !! next_id s) eqn:E; [|done]. apply (wf_pending _ _ _ _ Hw) in E.
    unfold id_ok, id_below, next_id in E. lia. }
  split; [done|]. unfold kind_at. rewrite HP. unfold next_id. rewrite (proj2 (Z.leb_le _ _)) by lia.
  rewrite Nat2Z.id. simpl. by rewrite lookup_app_r, Nat.sub_diag by lia.
Qed.

Lemma kind_pend P k d op s i t t' :
  wf P k d s -> kind_at P s i = Some t -> kind_at (pend t' (next_id s) P) (emitted op s) i = Some t.
Proof.
  intros Hw Hk. destruct (decide (i = next_id s)) as [->|Hne].
  - unfold kind_at in Hk. rewrite (proj1 (kind_at_next P k d op s (target_of op) Hw eq_refl)) in Hk.
    unfold next_id in Hk. rewrite (proj2 (Z.leb_le _ _)) in Hk by lia. rewrite Nat2Z.id in Hk.
    by rewrite lookup_ge_None_2 in Hk by lia.
  - apply (kind_grows _ _ _ _ _ (emitted_grows op s)) in Hk. unfold kind_at, pend in *.
    by rewrite lookup_insert_ne by done.
Qed.

Lemma scope_ok_mono P P' s s' i sc :
  (count s <= count s')%nat -> (length (uir_scopes_instructions s) <= length (uir_scopes_instructions s'))%nat ->
  (length (flags s) <= length (flags s'))%nat ->
  (forall j t, kind_at P s j = Some t -> kind_at P' s' j = Some t) ->
  scope_ok P s i sc -> scope_ok P' s' i sc.
Proof.
  intros Hc Hu Hf Hk [Hp Hsc]. split; [done|]. destruct sc; simpl in *.
  - by eapply Forall_ids_le.
  - by eapply ref_below_le.
  - destruct Hsc as [Hr Hfl]. split; [by eapply ref_below_le|]. intros f Hf'. specialize (Hfl f Hf'). lia.
  - destruct Hsc as [Hs Hb]. split; [lia|]. destruct (kind block) as [|r l|r|r l]; simpl in *; try done.
    + destruct Hb as (j & -> & Hl). exists j. eauto.
    + destruct Hb as (j & -> & Hl). exists j. eauto.
  - by eapply Forall_ids_le.
Qed.

(** Emitting [op] in a state whose placeholders become [P']. *)
Lemma wf_emitted P P' k d op s :
  wf P k d s -> (0 < k)%nat -> emit_ok P s op ->
  (forall j t, kind_at P s j = Some t -> kind_at P' (emitted op s) j = Some t) ->
  (op = Vuir.Invalid -> is_Some (P' !! next_id s) \/ errors s <> []) ->
  (forall j, is_Some (P !! j) -> is_Some (P' !! j)) ->
  (forall j t, P' !! j = Some t -> id_ok (emitted op s) j) ->
  wf P' (k - 1) d (emitted op s).
Proof.
  intros [Hst Hr Hi Hp Hu Hs Hl Hd] Hc [Eu El Eb Ej] Hk Hinv Hdom HP'.
  assert (Hlen : count (emitted op s) = S (count s)) by (simpl; rewrite length_app; simpl; lia).
  split; try done.
  - eapply store_le; [|exact Hst]. lia.
  - rewrite Hlen. lia.
  - intros i op' Hop. simpl in Hop. apply lookup_app_Some in Hop as [Hop|[Hge Hop]].
    + destruct (Hi i op' Hop) as [Hok Hv]. split; [|intros Hv'; destruct (Hv Hv'); auto].
      eapply inst_ok_mono; [|exact Hk|exact Hok]. lia.
    + apply list_lookup_singleton_Some in Hop as [Hi0 <-]. assert (i = count s) as -> by lia.
      split; [|done]. rewrite Hlen. split; [exact Eu| | |by eapply jump_ok_mono].
      * eapply Forall_refs_le; [|exact El]. lia.
      * eapply Forall_ids_le; [|exact Eb]. lia.
  - by apply ids_next.
  - intros i sc Hsc. apply (scope_ok_mono P P' s); [| |done|exact Hk|by apply Hs]; simpl; rewrite length_app; lia.
Qed.

(** After an instruction: its reference, which later code can use. *)
Lemma lowers_inst_id P k d b op s (Q : InstructionId -> Lowerer -> Prop) :
  wf P k d s -> (0 < k)%nat -> emit_ok P s op -> (op = Vuir.Invalid -> errors s <> []) ->
  (forall i s', wf P (k - 1) d s' -> keeps s s' -> id_ok s' i -> Q i s') ->
  lowers (inst_id b op) s Q.
Proof.
  intros Hw Hc He Hv HQ. eexists _, _. split; [by eapply inst_id_run|].
  apply HQ; [|split; [apply emitted_grows|done]|apply id_next].
  eapply wf_emitted; try done.
  - intros j t. apply kind_grows, emitted_grows.
  - auto.
  - intros j t HP. apply (wf_pending _ _ _ _ Hw) in HP. revert HP. apply id_below_le. simpl. rewrite length_app. lia.
Qed.

Lemma lowers_inst P k d b op s (Q : InstructionRef -> Lowerer -> Prop) :
  wf P k d s -> (0 < k)%nat -> emit_ok P s op -> (op = Vuir.Invalid -> errors s <> []) ->
  (forall i s', wf P (k - 1) d s' -> keeps s s' -> id_ok s' i -> Q (Instruction i) s') ->
  lowers (inst b op) s Q.
Proof.
  intros Hw Hc He Hv HQ. apply lowers_bind. eapply lowers_inst_id; [done..|].
  intros. apply lowers_mret. by apply HQ.
Qed.

(** A placeholder. *)
Lemma lowers_placeholder t P k d b s (Q : InstructionId -> Lowerer -> Prop) :
  wf P k d s -> (0 < k)%nat ->
  (forall i s', wf (pend t i P) (k - 1) d s' -> keeps s s' -> kind_at (pend t i P) s' i = Some t ->
    (forall j t', kind_at P s j = Some t' -> kind_at (pend t i P) s' j = Some t') ->
    P !! i = None -> i = next_id s -> id_ok s' i -> Q i s') ->
  lowers (inst_id b Vuir.Invalid) s Q.
Proof.
  intros Hw Hc HQ. eexists _, _. split; [by eapply inst_id_run|].
  apply HQ; [|split; [apply emitted_grows|done]| | |by eapply (kind_at_next P k d Vuir.Invalid)|done|apply id_next].
  - eapply (wf_emitted P); [done|done|by split; simpl| | | |].
    + intros j t'. by eapply kind_pend.
    + left. unfold pend. rewrite lookup_insert_eq. eauto.
    + intros j Hj. unfold pend. destruct (decide (j = next_id s)) as [->|]; [rewrite lookup_insert_eq; eauto|].
      by rewrite lookup_insert_ne.
    + intros j t' HP. unfold pend in HP. apply lookup_insert_Some in HP as [[<- _]|[_ HP]]; [apply id_next|].
      apply (wf_pending _ _ _ _ Hw) in HP. revert HP. apply id_below_le. simpl. rewrite length_app. lia.
  - unfold kind_at, pend. by rewrite lookup_insert_eq.
  - intros j t'. by eapply kind_pend.
Qed.

Definition filled (i : InstructionId) (op : Vuir.Opcode) s : Lowerer :=
  set_instructions (<[Z.to_nat i := op]> (instructions s)) s.

Lemma count_filled i op s : count (filled i op s) = count s.
Proof. apply length_insert. Qed.

Lemma kind_filled P s i op j t :
  id_ok s i -> P !! i = None ->
  kind_at (pend (target_of op) i P) s j = Some t -> kind_at P (filled i op s) j = Some t.
Proof.
  intros Hi HP Hk. unfold kind_at, pend in *. destruct (decide (j = i)) as [->|Hne].
  - rewrite lookup_insert_eq in Hk. simplify_eq. rewrite HP. unfold id_ok, id_below in Hi.
    rewrite (proj2 (Z.leb_le _ _)) by lia. simpl. by rewrite list_lookup_insert_eq by lia.
  - rewrite lookup_insert_ne in Hk by done. destruct (P !! j); [done|]. destruct (Z.leb_spec 0 j); [|done].
    unfold id_ok, id_below in Hi. simpl. rewrite list_lookup_insert_ne by lia. done.
Qed.

(** The placeholder [i] is filled in; what was there before it is unchanged. *)
Lemma lowers_set_inst t P k d i op s0 s (Q : unit -> Lowerer -> Prop) :
  wf (pend t i P) k d s -> P !! i = None -> id_ok s i -> target_of op = t -> op <> Vuir.Invalid ->
  Forall (ref_below (Z.to_nat i)) (uses op) -> Forall (ref_ok s) (late_uses op) -> Forall (id_ok s) (bodies op) ->
  jump_ok (fun _ => None) op -> keeps s0 s -> ~ id_ok s0 i ->
  (forall s', s' = filled i op s -> wf P k d s' -> keeps s0 s' -> id_ok s' i -> Q tt s') ->
  lowers (set_inst i op) s Q.
Proof.
  intros [Hst Hr Hi Hp Hu Hs Hl Hd] HP Hid <- Hv Eu El Eb Ej [G GL] Hnew HQ.
  pose proof Hid as Hid'. unfold id_ok, id_below in Hid'.
  eexists tt, (filled i op s). split.
  { unfold set_inst, mbind, M_bind, gets, modify, lift, set_idx. simpl. unfold to_usize, NonMaxU32.as_usize.
    by rewrite decide_True by lia. }
  pose proof (count_filled i op s) as Hlen.
  assert (Hk : forall j t, kind_at (pend (target_of op) i P) s j = Some t -> kind_at P (filled i op s) j = Some t).
  { intros. by apply kind_filled. }
  apply HQ; [done| | |unfold id_ok; by rewrite Hlen].
  - split; try done.
    + by rewrite Hlen.
    + intros j op' Hop. rewrite Hlen. destruct (decide (j = Z.to_nat i)) as [->|Hne].
      * simpl in Hop. rewrite list_lookup_insert_eq in Hop by lia. injection Hop as <-. split; [|done].
        split; [done..|]. by eapply jump_ok_mono; [|exact Ej].
      * simpl in Hop. rewrite list_lookup_insert_ne in Hop by done. destruct (Hi j op' Hop) as [Hok He]. split.
        -- by eapply inst_ok_mono; [|exact Hk|exact Hok].
        -- intros Hop'. destruct (He Hop') as [Hj|]; [|by right]. left. unfold pend in Hj.
           rewrite lookup_insert_ne in Hj by lia. done.
    + intros j t HPj. unfold id_ok. rewrite Hlen. apply (Hp j t). unfold pend.
      rewrite lookup_insert_ne; [done|]. intros ->. congruence.
    + unfold id_ok. by rewrite Hlen.
    + intros j sc Hsc. apply (scope_ok_mono (pend (target_of op) i P) P s); [by rewrite Hlen|done|done|exact Hk|by apply Hs].
  - split; [|done]. destruct G as [[x Hx] GU GS GE GR GF GI GV]. split; try done.
    unfold id_ok, id_below in Hnew. simpl. rewrite Hx, insert_app_r_alt by lia. by apply prefix_app_r.
Qed.

(** ** Scopes *)

Definition opened (p : ScopeId) (bk : BlockKind.BlockKind) s : Lowerer :=
  set_scopes (scopes s ++ [Scope_Block (mk_block (Some p) (length (uir_scopes_instructions s)) bk)]) s.

Lemma defers_app l l' : defers (l ++ l') = (defers l + defers l')%nat.
Proof. unfold defers. by rewrite filter_app, length_app. Qed.

Lemma block_opened p bk s : block_in (opened p bk s) (length (scopes s)).
Proof. eexists. unfold opened. simpl. by rewrite lookup_app_r, Nat.sub_diag by lia. Qed.

Lemma scope_opened p bk s b : scope_in s b -> scope_in (opened p bk s) b.
Proof.
  intros (sc & Hb & Hn). exists sc. unfold opened, is_namespace in *. simpl.
  rewrite (lookup_app_l_Some _ _ _ _ Hb). by rewrite Hb in Hn.
Qed.

Lemma wf_pushed P k d d' sc s :
  wf P k d s -> scope_ok P s (length (scopes s)) sc -> (defers [sc] + d' <= d)%nat ->
  wf P k d' (set_scopes (scopes s ++ [sc]) s).
Proof.
  intros [Hst Hr Hi Hp Hu Hs Hl Hd] Hsc Hdef. split; try done.
  - intros i sc'. simpl. intros [Hi'|[Hge Hi']]%lookup_app_Some.
    + by apply Hs.
    + apply list_lookup_singleton_Some in Hi' as [Hi0 <-]. by replace i with (length (scopes s)) by lia.
  - simpl. rewrite defers_app. lia.
Qed.

Lemma lowers_stack_block P k d p bk s (Q : ScopeId -> Lowerer -> Prop) :
  wf P k d s -> (p < length (scopes s))%nat -> block_kind_ok P s bk ->
  (wf P k d (opened p bk s) -> block_in (opened p bk s) (length (scopes s)) -> Q (length (scopes s)) (opened p bk s)) ->
  lowers (stack_block p bk) s Q.
Proof.
  intros Hw Hp Hk HQ. eexists _, _. split; [done|]. apply HQ; [|apply block_opened].
  eapply wf_pushed; [done| |done]. split; [by intros ? [= <-]|]. by split.
Qed.

(** A scope that is not a block. *)
Lemma lowers_push_scope P k d d' sc s (Q : ScopeId -> Lowerer -> Prop) :
  wf P k d s -> is_block sc = false -> scope_ok P s (length (scopes s)) sc -> (defers [sc] + d' <= d)%nat ->
  (forall s', wf P k d' s' -> grows s s' -> s' = set_scopes (scopes s ++ [sc]) s ->
    scopes s' !! length (scopes s) = Some sc -> Q (length (scopes s)) s') ->
  lowers (push_scope sc) s Q.
Proof.
  intros Hw Hb Hsc Hd HQ. eexists _, _. split; [done|]. apply HQ; [by eapply wf_pushed| |done|].
  - split; try done. exists (scopes s), [sc]. split_and!; [done|done|by repeat constructor].
  - simpl. by rewrite lookup_app_r, Nat.sub_diag by lia.
Qed.

(** The state with the scopes and the pending instructions of [s0] again. *)
Definition closed s0 s : Lowerer :=
  set_scopes (take (length (scopes s0)) (scopes s))
    (set_uir_scopes_instructions (take (length (uir_scopes_instructions s0)) (uir_scopes_instructions s)) s).

(** [s] comes after [s0] in which a scope was opened. *)
Record inside s0 s : Prop := {
  inside_insts : instructions s0 `prefix_of` instructions s;
  inside_uir : uir_scopes_instructions s0 `prefix_of` uir_scopes_instructions s;
  inside_scopes : exists l extra, scopes s = l ++ extra /\ Forall2 scope_le (scopes s0) l;
  inside_errors : errors s0 `prefix_of` errors s;
  inside_root : fn_body_root_scope s = fn_body_root_scope s0;
  inside_flags : length (flags s) = length (flags s0);
  inside_fixed : line_starts s = line_starts s0 /\ module_id s = module_id s0;
  inside_values : extends (values s0) (values s);
}.

Lemma opened_inside p bk s0 s : grows (opened p bk s0) s -> inside s0 s.
Proof.
  intros [GI GU (l & x & HS & Hl & _) GE GR GF GL GV]. split; try done.
  unfold opened in Hl. simpl in Hl. apply Forall2_app_inv_l in Hl as (l1 & l2 & H1 & H2 & ->).
  exists l1, (l2 ++ x). by rewrite HS, (assoc_L (++)).
Qed.

Lemma grows_inside s0 s : grows s0 s -> inside s0 s.
Proof. intros [GI GU (l & x & HS & Hl & _) GE GR GF GL GV]. split; try done. by exists l, x. Qed.

Lemma closed_keeps s0 s : inside s0 s -> keeps s0 (closed s0 s).
Proof.
  intros [GI [u HU] (l & x & HS & Hl) GE GR GF GL GV]. pose proof (Forall2_length _ _ _ Hl) as Hlen.
  unfold closed. split.
  - split; try done; simpl.
    + rewrite HU, take_app_length. done.
    + exists l, []. rewrite HS, Hlen, take_app_length, app_nil_r. split_and!; [done|done|constructor].
  - simpl. rewrite length_take, HS, length_app. lia.
Qed.

Lemma scope_le_parent (x y : Scope) : scope_le x y -> scope_parent y = scope_parent x.
Proof. destruct x, y; simpl; try congruence. by intros (-> & _). Qed.

Lemma wf_closed P k0 d0 k d s0 s :
  wf P k0 d0 s0 -> wf P k d s -> inside s0 s -> wf P k d (closed s0 s) /\
  uir_scopes_instructions (closed s0 s) = uir_scopes_instructions s0.
Proof.
  intros Hw0 [Hst Hr Hi Hp Hu Hs Hl Hd] Hin. pose proof (closed_keeps _ _ Hin) as [G GL].
  assert (HU : uir_scopes_instructions (closed s0 s) = uir_scopes_instructions s0).
  { destruct Hin as [_ [u HU] _ _ _ _ _ _]. unfold closed. simpl. by rewrite HU, take_app_length. }
  split; [|done]. split; try done.
  - unfold closed. simpl. by apply Forall_take.
  - intros i sc Hi'. unfold closed in Hi'. simpl in Hi'. apply lookup_take_Some in Hi' as [Hi' Hlt].
    destruct (Hs i sc Hi') as [Hpar Hok]. split; [done|]. destruct sc; try done.
    destruct Hok as [_ Hk]. split; [|done]. rewrite HU.
    destruct (lookup_lt_is_Some_2 (scopes s0) i) as [sc0 Hsc0]; [lia|].
    destruct (grows_scope _ _ _ _ G Hsc0) as (sc1 & Hsc1 & Hle).
    unfold closed in Hsc1. simpl in Hsc1. rewrite lookup_take_lt in Hsc1 by lia. rewrite Hi' in Hsc1. injection Hsc1 as <-.
    destruct sc0; simpl in Hle; try done. injection Hle as <-. by apply (wf_scopes _ _ _ _ Hw0) in Hsc0 as [_ [? _]].
  - unfold closed. simpl. rewrite <- (take_drop (length (scopes s0)) (scopes s)) in Hd.
    rewrite defers_app in Hd. lia.
Qed.

(** The stack above the innermost block. *)
Lemma unstack_scopes_run fuel l blk extra :
  Forall (fun sc => is_block sc = false) extra -> (length extra < fuel)%nat ->
  unstack_scopes fuel (l ++ Scope_Block blk :: extra) (length l) = Ret (blk, l).
Proof.
  intros Hx. revert fuel. induction extra as [|sc extra IH] using rev_ind; intros fuel Hf.
  - destruct fuel as [|fuel]; [simpl in Hf; lia|]. cbn [unstack_scopes]. rewrite last_snoc.
    rewrite length_app. simpl. replace (length l + 1 - 1)%nat with (length l) by lia.
    by rewrite take_app_length, Nat.eqb_refl.
  - apply Forall_app in Hx as [Hx Hsc]. apply Forall_cons_1 in Hsc as [Hsc _].
    rewrite length_app in Hf. simpl in Hf. destruct fuel as [|fuel]; [lia|]. cbn [unstack_scopes].
    rewrite app_comm_cons, (assoc_L (++)), last_snoc, length_app. simpl.
    replace (length (l ++ Scope_Block blk :: extra) + 1 - 1)%nat with (length (l ++ Scope_Block blk :: extra)) by lia.
    rewrite take_app_length. destruct sc; simpl in Hsc; try done; apply IH; [done|lia|done|lia|done|lia|done|lia].
Qed.

Lemma opened_scopes p bk s0 s :
  grows (opened p bk s0) s ->
  exists l extra, scopes s = l ++ Scope_Block (mk_block (Some p) (length (uir_scopes_instructions s0)) bk) :: extra /\
    length l = length (scopes s0) /\ Forall (fun sc => is_block sc = false) extra /\
    exists u, uir_scopes_instructions s = uir_scopes_instructions s0 ++ u.
Proof.
  intros [_ [u HU] (l & x & HS & Hl & Hx) _ _ _ _ _]. unfold opened in Hl, HU. simpl in Hl, HU.
  apply Forall2_app_inv_l in Hl as (l1 & l2 & H1 & H2 & ->).
  apply Forall2_cons_inv_l in H2 as (sc & l3 & Hsc & H3 & ->). apply Forall2_nil_inv_l in H3 as ->.
  destruct sc; simpl in Hsc; try done. injection Hsc as <-.
  exists l1, x. rewrite HS, <- (assoc_L (++)). split_and!; [done|by rewrite (Forall2_length _ _ _ H1)|done|by exists u].
Qed.

Lemma unstack_block_run p bk s0 s :
  grows (opened p bk s0) s -> unstack_block (length (scopes s0)) s = Ret (tt, closed s0 s).
Proof.
  intros G. destruct (opened_scopes _ _ _ _ G) as (l & x & HS & Hl & Hx & u & HU).
  unfold unstack_block, mbind, M_bind, gets, lift, modify. simpl. rewrite HS, <- Hl, unstack_scopes_run;
    [|done|rewrite length_app; simpl; lia].
  simpl. rewrite HU, length_app, (proj2 (Nat.leb_le _ _)) by lia. simpl. unfold closed. rewrite HS, HU, <- Hl.
  by rewrite !take_app_length.
Qed.

Lemma lowers_unstack P k d k0 d0 p bk s0 s (Q : unit -> Lowerer -> Prop) :
  wf P k0 d0 s0 -> wf P k d s -> grows (opened p bk s0) s ->
  (forall s', s' = closed s0 s -> wf P k d s' -> keeps s0 s' -> count s' = count s ->
    uir_scopes_instructions s' = uir_scopes_instructions s0 -> Q tt s') ->
  lowers (unstack_block (length (scopes s0))) s Q.
Proof.
  intros Hw0 Hw G HQ. eexists _, _. split; [by eapply unstack_block_run|].
  pose proof (opened_inside _ _ _ _ G) as Hin. destruct (wf_closed _ _ _ _ _ _ _ Hw0 Hw Hin).
  apply HQ; [done|done|by apply closed_keeps|done|done].
Qed.

Lemma lowers_collect P k d k0 d0 p bk s0 s (Q : list InstructionId -> Lowerer -> Prop) :
  wf P k0 d0 s0 -> wf P k d s -> grows (opened p bk s0) s ->
  (forall l s', s' = closed s0 s -> wf P k d s' -> keeps s0 s' -> count s' = count s ->
    uir_scopes_instructions s' = uir_scopes_instructions s0 -> Forall (id_ok s') l ->
    uir_scopes_instructions s = uir_scopes_instructions s0 ++ l -> Q l s') ->
  lowers (collect_instructions_and_unstack_block (length (scopes s0))) s Q.
Proof.
  intros Hw0 Hw G HQ. destruct (opened_scopes _ _ _ _ G) as (l & x & HS & Hl & Hx & u & HU).
  eexists u, (closed s0 s). split.
  - unfold collect_instructions_and_unstack_block, block_at, scope_at, mbind, M_bind, gets, lift, get_idx. simpl.
    rewrite HS, <- Hl, list_lookup_middle by done. simpl. unfold block_instructions, slice_from. simpl.
    rewrite decide_True by (rewrite HU, length_app; lia). simpl. rewrite Hl, (unstack_block_run _ _ _ _ G). simpl.
    by rewrite HU, drop_app_length.
  - pose proof (opened_inside _ _ _ _ G) as Hin. destruct (wf_closed _ _ _ _ _ _ _ Hw0 Hw Hin).
    apply HQ; [done|done|by apply closed_keeps|done|done| |done].
    pose proof (wf_uir _ _ _ _ Hw) as Hu. rewrite HU in Hu. by apply Forall_app in Hu as [_ ?].
Qed.

(** ** The last instruction of a block *)

Lemma lowers_scope_at b sc s (Q : Scope -> Lowerer -> Prop) :
  scopes s !! b = Some sc -> Q sc s -> lowers (scope_at b) s Q.
Proof. intros Hb HQ. apply lowers_bind, lowers_gets. eapply lowers_lift; [unfold get_idx; by rewrite Hb|done]. Qed.

Lemma lowers_never P k d b s (Q : bool -> Lowerer -> Prop) :
  wf P k d s -> block_in s b -> (forall never, Q never s) -> lowers (ends_with_never b) s Q.
Proof.
  intros Hw [blk Hb] HQ. destruct (wf_scopes _ _ _ _ Hw _ _ Hb) as [_ [Hs _]].
  apply lowers_bind, lowers_bind, lowers_bind. eapply lowers_scope_at; [done|].
  eapply lowers_lift; [done|]. apply lowers_bind, lowers_gets, lowers_bind.
  eapply lowers_lift; [unfold block_instructions, slice_from; by rewrite decide_True by done|].
  destruct (last _) as [i|] eqn:Hl; [|apply lowers_mret, lowers_mret, HQ].
  rewrite last_lookup, lookup_drop in Hl. apply (Forall_lookup_1 _ _ _ _ (wf_uir _ _ _ _ Hw)) in Hl.
  unfold id_ok, id_below in Hl.
  destruct (lookup_lt_is_Some_2 (instructions s) (to_usize i)) as [op Hop];
    [unfold to_usize, NonMaxU32.as_usize; lia|].
  apply lowers_bind, lowers_gets, lowers_bind. eapply lowers_lift; [unfold get_idx; by rewrite Hop|].
  apply lowers_mret, lowers_mret, HQ.
Qed.

Lemma lowers_inst_unless_never P k d b op s (Q : unit -> Lowerer -> Prop) :
  wf P k d s -> (0 < k)%nat -> block_in s b -> emit_ok P s op -> op <> Vuir.Invalid ->
  (forall s', wf P (k - 1) d s' -> keeps s s' -> Q tt s') ->
  lowers (inst_unless_never b op) s Q.
Proof.
  intros Hw Hk Hb He Hv HQ. apply lowers_bind. eapply lowers_never; [done..|]. intros [].
  - apply lowers_mret, HQ; [|done]. eapply wf_le; [| |done]; lia.
  - apply lowers_bind. eapply lowers_inst; [done..|]. intros. apply lowers_mret. by apply HQ.
Qed.

End Logic.
End LowerLogic.
