(* ===== verification/LowerScopes.v ===== *)
(** * The walks over the stack of scopes

    [chain l b ps]: [ps] are the scopes from [b] to its root.  Every traversal
    follows it: the search for a label, the [defer]s of a scope, the resolution of
    a name and the captures it makes. *)

From S2P Require Import Prelude Words Bytes Span Token Diagnostic Ast HashIndex ShardedMap.
From S2P Require Import Anyint Value ValueStore ValueSpec StoreLogic Vuir SemaState SemaLogic.
From S2P Require Import LowerState Lower LowerLogic.
From stdpp Require Import gmap sorting.

#[local] Open Scope Z_scope.

Module LowerScopes.
Import StoreLogic Ast IrId LowerState LowerLogic.

(** ** Chains *)

(** Parents come before their children. *)
Definition tree (l : list Scope) : Prop :=
  forall i sc p, l !! i = Some sc -> scope_parent sc = Some p -> (p < i)%nat.

Inductive chain (l : list Scope) : nat -> list nat -> Prop :=
  | chain_root b sc : l !! b = Some sc -> scope_parent sc = None -> chain l b [b]
  | chain_step b sc p ps :
      l !! b = Some sc -> scope_parent sc = Some p -> chain l p ps -> chain l b (b :: ps).

Lemma chain_exists l b : tree l -> (b < length l)%nat -> exists ps, chain l b ps.
Proof.
  intros Ht. induction (lt_wf b) as [b _ IH]. intros Hb.
  destruct (lookup_lt_is_Some_2 l b Hb) as [sc Hsc]. destruct (scope_parent sc) as [p|] eqn:Hp.
  - pose proof (Ht _ _ _ Hsc Hp). destruct (IH p) as [ps Hps]; [done|lia|]. exists (b :: ps). by eapply chain_step.
  - exists [b]. by eapply chain_root.
Qed.

Lemma chain_head l b ps : chain l b ps -> exists ps', ps = b :: ps'.
Proof. destruct 1; eauto. Qed.

Lemma chain_fun l b ps ps' : chain l b ps -> chain l b ps' -> ps = ps'.
Proof.
  intros H. revert ps'. induction H as [b sc Hb Hp|b sc p ps Hb Hp H IH]; intros ps' H'; inversion H'; simplify_eq; [done|].
  by rewrite (IH ps0).
Qed.

Lemma chain_ancestors l b ps fuel :
  tree l -> chain l b ps -> (b < fuel)%nat -> ancestors fuel l b = Ret (tail ps).
Proof.
  intros Ht Hc. revert fuel. induction Hc as [b sc Hb Hp|b sc p ps Hb Hp Hc IH]; intros [|fuel] Hf; try lia;
    cbn [ancestors]; unfold get_idx; rewrite Hb; simpl; rewrite Hp; [done|].
  rewrite IH by (pose proof (Ht _ _ _ Hb Hp); lia). simpl. by destruct (chain_head _ _ _ Hc) as [ps' ->].
Qed.

Lemma chain_lookup l b ps i : chain l b ps -> i ∈ ps -> is_Some (l !! i).
Proof. induction 1 as [|????????IH]; intros Hi; apply elem_of_cons in Hi as [->|Hi]; eauto; set_solver. Qed.

(** The defers on a chain. *)
Definition deferred (l : list Scope) (i : nat) : list Vuir.Opcode :=
  match l !! i with Some (Scope_Defer _ body span) => [Vuir.Defer body span] | _ => [] end.

(** Down to the scope [stop]; a [defer] is never the one to stop at. *)
Fixpoint pending_defers (l : list Scope) (stop : nat) (ps : list nat) : list Vuir.Opcode :=
  match ps with
  | [] => []
  | i :: ps =>
      match deferred l i with
      | [] => if decide (i = stop) then [] else pending_defers l stop ps
      | op => op ++ pending_defers l stop ps
      end
  end.

Lemma defers_take l i j : (i <= j)%nat -> (defers (take i l) <= defers (take j l))%nat.
Proof.
  intros Hij. rewrite <- (take_drop i (take j l)), take_take, Nat.min_l by done. rewrite defers_app. lia.
Qed.

Lemma defers_bound l : forall i, (defers (take i l) <= defers l)%nat.
Proof.
  intros i. rewrite <- (take_drop i l) at 2. rewrite defers_app. lia.
Qed.

Lemma deferred_count l i sc : l !! i = Some sc -> length (deferred l i) = defers [sc].
Proof. intros Hi. unfold deferred. rewrite Hi. by destruct sc. Qed.

Lemma pending_defers_cons l stop i ps :
  (length (pending_defers l stop (i :: ps)) <= length (deferred l i) + length (pending_defers l stop ps))%nat.
Proof.
  cbn [pending_defers]. destruct (deferred l i) as [|op ops]; [|by rewrite length_app].
  destruct (decide _); cbn [length]; lia.
Qed.

Lemma pending_defers_length l b ps stop :
  tree l -> chain l b ps -> (length (pending_defers l stop ps) <= defers (take (S b) l))%nat.
Proof.
  intros Ht. induction 1 as [b sc Hb Hp|b sc p ps Hb Hp Hc IH]; rewrite (take_S_r _ _ _ Hb), defers_app;
    etrans; [apply pending_defers_cons| |apply pending_defers_cons|]; rewrite (deferred_count _ _ _ Hb).
  - cbn [pending_defers length]. lia.
  - pose proof (defers_take l (S p) b (Ht _ _ _ Hb Hp)). lia.
Qed.

(** ** Searches *)

(** The first answer on a list of scopes. *)
Fixpoint first_of {B} (f : nat -> Scope -> option B) (l : list Scope) (ps : list nat) : option B :=
  match ps with
  | [] => None
  | i :: ps =>
      match l !! i ≫= f i with Some x => Some x | None => first_of f l ps end
  end.

Lemma first_of_found {B} (f : nat -> Scope -> option B) l ps x :
  first_of f l ps = Some x -> exists i sc, l !! i = Some sc /\ f i sc = Some x.
Proof.
  induction ps as [|i ps IH]; [done|]. cbn [first_of]. destruct (l !! i) as [sc|] eqn:Hi; simpl; [|done].
  destruct (f i sc) eqn:Hf; [|done]. intros [= ->]. by exists i, sc.
Qed.

Section Scopes.
Context `{SL : SettingLaws}.
Context (D : nat).
Implicit Types (s : Lowerer) (b : nat) (r : InstructionRef) (P : gmap Z Target) (k d : nat).
Abbreviation wf := (LowerLogic.wf D).
Abbreviation count s := (length (instructions s)).

Lemma wf_tree P k d s : wf P k d s -> tree (scopes s).
Proof. intros Hw i sc p Hi Hp. by apply (wf_scopes _ _ _ _ _ Hw) in Hi as [Hpar _]; apply Hpar. Qed.

Lemma traverse_found {B} (f : nat -> M (option B)) fuel b s x s' :
  f b s = Ret (Some x, s') -> traverse (S fuel) f b s = Ret (Some x, s').
Proof. intros Hf. cbn [traverse]. by rewrite (bind_ret _ _ _ _ _ Hf). Qed.

Lemma traverse_up {B} (f : nat -> M (option B)) fuel b s s' sc :
  f b s = Ret (None, s') -> scopes s' !! b = Some sc ->
  traverse (S fuel) f b s =
    match scope_parent sc with Some p => traverse fuel f p s' | None => Ret (None, s') end.
Proof.
  intros Hf Hb. cbn [traverse]. rewrite (bind_ret _ _ _ _ _ Hf), (bind_ret _ _ _ _ _ (scope_at_ret _ _ _ Hb)).
  by destruct (scope_parent sc).
Qed.

Lemma traverse_find {B} (f : nat -> Scope -> option B) fuel b ps s :
  tree (scopes s) -> chain (scopes s) b ps -> (b < fuel)%nat ->
  traverse fuel (fun i => sc ← scope_at i; mret (f i sc)) b s = Ret (first_of f (scopes s) ps, s).
Proof.
  intros Ht Hc. set (g := fun i => _).
  assert (Hg : forall i sc, scopes s !! i = Some sc -> g i s = Ret (f i sc, s)).
  { intros i sc Hi. unfold g. by rewrite (bind_ret _ _ _ _ _ (scope_at_ret _ _ _ Hi)). }
  revert fuel. induction Hc as [b sc Hb Hp|b sc p ps Hb Hp Hc IH]; intros [|fuel] Hf; try lia;
    cbn [first_of]; rewrite Hb; cbn [mbind option_bind]; pose proof (Hg b sc Hb) as Hstep.
  - destruct (f b sc); [by apply traverse_found|]. by rewrite (traverse_up _ _ _ _ _ _ Hstep Hb), Hp.
  - destruct (f b sc); [by apply traverse_found|]. rewrite (traverse_up _ _ _ _ _ _ Hstep Hb), Hp.
    apply IH. pose proof (Ht _ _ _ Hb Hp). lia.
Qed.

Lemma lowers_find {B} P k d (f : nat -> Scope -> option B) b s (Q : option B -> Lowerer -> Prop) :
  wf P k d s -> (b < length (scopes s))%nat ->
  (forall o, (forall x, o = Some x -> exists i sc, scopes s !! i = Some sc /\ f i sc = Some x) -> Q o s) ->
  lowers (traverse_scopes_from b (fun i => sc ← scope_at i; mret (f i sc))) s Q.
Proof.
  intros Hw Hb HQ. destruct (chain_exists (scopes s) b) as [ps Hc]; [by eapply wf_tree|done|].
  apply lowers_bind, lowers_gets. eexists _, _. split; [apply traverse_find; [by eapply wf_tree|done|lia]|].
  apply HQ. intros x. apply first_of_found.
Qed.

(** ** Defers *)

Fixpoint emit_all (ops : list Vuir.Opcode) s : Lowerer :=
  match ops with [] => s | op :: ops => emit_all ops (emitted op s) end.

Lemma emit_all_scopes ops s : scopes (emit_all ops s) = scopes s.
Proof. revert s. induction ops as [|op ops IH]; intros s; [done|]. simpl. by rewrite IH. Qed.

(** [append_defers] emits what is pending between the two scopes, the innermost first. *)
Definition defer_step (stop scope : nat) : M (option unit) :=
  sc ← scope_at scope;
  match sc with
  | Scope_Defer _ body span => inst scope (Vuir.Defer body span) ;; mret None
  | _ => mret (if (scope =? stop)%nat then Some tt else None)
  end.

Lemma defer_step_run stop i sc s :
  scopes s !! i = Some sc -> Z.of_nat (count s + length (deferred (scopes s) i)) <= 0xffffffff ->
  defer_step stop i s =
    Ret (match deferred (scopes s) i with [] => if decide (i = stop) then Some tt else None | _ => None end,
         emit_all (deferred (scopes s) i) s).
Proof.
  intros Hi. unfold defer_step, deferred. rewrite (bind_ret _ _ _ _ _ (scope_at_ret _ _ _ Hi)), Hi.
  destruct sc as [| | | |p body span]; intros Hn; try (by destruct (Nat.eqb_spec i stop), (decide (i = stop))).
  cbn [length] in Hn. unfold inst. erewrite bind_ret; [|erewrite bind_ret; [done|apply inst_id_ret; lia]]. done.
Qed.

Lemma traverse_defers fuel b ps stop s :
  tree (scopes s) -> chain (scopes s) b ps -> (b < fuel)%nat ->
  Z.of_nat (count s + length (pending_defers (scopes s) stop ps)) <= 0xffffffff ->
  exists o, traverse fuel (defer_step stop) b s = Ret (o, emit_all (pending_defers (scopes s) stop ps) s).
Proof.
  assert (Hshape : forall l i, deferred l i = [] \/ exists op, deferred l i = [op]).
  { intros l i. unfold deferred. destruct (l !! i) as [[]|]; eauto. }
  remember (scopes s) as l eqn:Hs. intros Ht Hc. revert fuel s Hs.
  induction Hc as [b sc Hb Hp|b sc p ps Hb Hp Hc IH]; intros [|fuel] s -> Hf Hn; try lia;
    cbn [pending_defers] in *; pose proof (defer_step_run stop b sc s Hb) as Hstep;
    (destruct (Hshape (scopes s) b) as [Hd|[op Hd]]; rewrite Hd in *; cbn [length app emit_all] in *;
      specialize (Hstep ltac:(lia))).
  - destruct (decide (b = stop)); [eexists; by apply traverse_found|].
    rewrite (traverse_up _ _ _ _ _ _ Hstep Hb), Hp. by eexists.
  - rewrite (traverse_up _ _ _ _ _ sc Hstep Hb), Hp. by eexists.
  - destruct (decide (b = stop)); [eexists; by apply traverse_found|].
    rewrite (traverse_up _ _ _ _ _ _ Hstep Hb), Hp. pose proof (Ht _ _ _ Hb Hp). apply IH; [done|lia|done].
  - rewrite (traverse_up _ _ _ _ _ sc Hstep Hb), Hp. pose proof (Ht _ _ _ Hb Hp). apply IH; [done|lia|].
    simpl. rewrite length_app. simpl. lia.
Qed.

Lemma append_defers_run b ps stop s :
  tree (scopes s) -> chain (scopes s) b ps ->
  Z.of_nat (count s + length (pending_defers (scopes s) stop ps)) <= 0xffffffff ->
  append_defers b stop s = Ret (tt, emit_all (pending_defers (scopes s) stop ps) s).
Proof.
  intros Ht Hc Hn. destruct (traverse_defers (S (length (scopes s))) b ps stop s) as [o Ho]; [done|done| |done|].
  { destruct (chain_lookup _ _ _ b Hc) as [sc Hsc%lookup_lt_Some]; [|lia].
    destruct (chain_head _ _ _ Hc) as [ps' ->]. by left. }
  change (append_defers b stop) with (traverse_scopes_from b (defer_step stop) ;; mret tt).
  rewrite (bind_ret _ _ s o (emit_all (pending_defers (scopes s) stop ps) s)); [done|exact Ho].
Qed.

Lemma wf_emit_all P k d ops s :
  wf P k d s -> (length ops <= k)%nat -> Forall (emit_ok P s) ops -> Forall (fun op => op <> Vuir.Invalid) ops ->
  wf P (k - length ops) d (emit_all ops s) /\ keeps s (emit_all ops s).
Proof.
  revert k s. induction ops as [|op ops IH]; intros k s Hw Hk He Hv; cbn [emit_all length] in *.
  { rewrite Nat.sub_0_r. by split. }
  apply Forall_cons in He as [He Hes], Hv as [Hv Hvs].
  assert (Hl : lowers (inst_id 0 op) s (fun _ s' => s' = emitted op s /\ wf P (k - 1) d s' /\ keeps s s')).
  { eexists _, _. split; [eapply inst_id_run; [done|lia]|]. split; [done|].
    assert (lowers (inst_id 0 op) s (fun _ s' => wf P (k - 1) d s' /\ keeps s s')) as (i & s' & Hrun & HQ).
    { eapply lowers_inst_id; [done|lia|done|done|]. auto. }
    erewrite inst_id_run in Hrun; [|done|lia]. by injection Hrun as <- <-. }
  destruct Hl as (_ & s' & _ & -> & Hw' & K).
  destruct (IH (k - 1)%nat (emitted op s)) as [Hw2 K2]; [done|lia| |done|].
  { eapply Forall_impl; [exact Hes|]. intros op' [Eu El Eb Ej]. destruct K as [G _].
    split; [by eapply refs_grow|by eapply refs_grow|by eapply ids_grow|].
    eapply jump_ok_mono; [|exact Ej]. intros j t. by apply kind_grows. }
  replace (k - S (length ops))%nat with (k - 1 - length ops)%nat by lia. split; [done|by etrans].
Qed.

Lemma pending_defers_in l stop ps op :
  op ∈ pending_defers l stop ps -> exists i p body span, l !! i = Some (Scope_Defer p body span) /\ op = Vuir.Defer body span.
Proof.
  induction ps as [|i ps IH]; cbn [pending_defers]; [by intros ?%not_elem_of_nil|]. unfold deferred.
  destruct (l !! i) as [[| | | |p body span]|] eqn:Hi; try (destruct (decide _); [by intros ?%not_elem_of_nil|done]).
  intros [->%list_elem_of_singleton|Hop]%elem_of_app; [|auto]. by exists i, p, body, span.
Qed.

Lemma lowers_append_defers P k d b stop s (Q : unit -> Lowerer -> Prop) :
  wf P k d s -> (b < length (scopes s))%nat -> (D <= k)%nat ->
  (forall s', wf P (k - D) d s' -> keeps s s' -> Q tt s') -> lowers (append_defers b stop) s Q.
Proof.
  intros Hw Hb Hk HQ. destruct (chain_exists (scopes s) b) as [ps Hc]; [by eapply wf_tree|done|].
  assert (Hn : (length (pending_defers (scopes s) stop ps) <= D)%nat).
  { etrans; [eapply pending_defers_length; [by eapply wf_tree|done]|]. etrans; [apply defers_bound|].
    pose proof (wf_defers _ _ _ _ _ Hw). lia. }
  eexists _, _. split; [apply append_defers_run; [by eapply wf_tree|done|]|].
  { pose proof (wf_room _ _ _ _ _ Hw). lia. }
  destruct (wf_emit_all P k d (pending_defers (scopes s) stop ps) s) as [Hw' K]; [done|lia| | |].
  - apply Forall_forall. intros op (i & p & body & span & Hi & ->)%pending_defers_in.
    apply (wf_scopes _ _ _ _ _ Hw) in Hi as [_ Hbody]. by split; simpl.
  - apply Forall_forall. by intros op (i & p & body & span & Hi & ->)%pending_defers_in.
  - apply HQ; [|done]. eapply wf_le; [| |exact Hw']; lia.
Qed.

(** ** Names *)

(** A scope that gives [symbol] a meaning, and which. *)
Definition binds (symbol : list Z) (sc : Scope) : bool :=
  match sc with
  | Scope_LocalValue _ name _ _ _ | Scope_LocalStackAllocated _ name _ _ => bool_decide (name = symbol)
  | Scope_Namespace ns => bool_decide (symbol = self_ty_symbol) || bool_decide (is_Some (decl_to_ast_node ns !! symbol))
  | _ => false
  end.
Definition meaning (crossed : nat) (sc : Scope) : option ResolveResult :=
  match sc with
  | Scope_LocalValue _ _ _ r _ => Some (if (0 <? crossed)%nat then Capture r crossed else FoundAndIsLocalValue r)
  | Scope_LocalStackAllocated _ _ _ r =>
      Some (if (0 <? crossed)%nat then Capture r crossed else FoundAndIsLocalStackAllocated r)
  | Scope_Namespace _ => Some FoundAndIsDecl
  | _ => None
  end.
Definition ns_count (sc : Scope) : nat := match sc with Scope_Namespace _ => 1 | _ => 0 end.

(** The meaning a name gets on a path, after [crossed] namespaces. *)
Fixpoint resolution (l : list Scope) (symbol : list Z) (crossed : nat) (ps : list nat) : option ResolveResult :=
  match ps with
  | [] => None
  | i :: ps =>
      match l !! i with
      | Some sc =>
          if binds symbol sc then meaning crossed sc else resolution l symbol (crossed + ns_count sc) ps
      | None => None
      end
  end.

(** The scope that gives a name its meaning, and how many namespaces are in between. *)
Fixpoint finding (l : list Scope) (symbol : list Z) (crossed : nat) (ps : list nat) : option (nat * Scope) :=
  match ps with
  | [] => None
  | i :: ps =>
      match l !! i with
      | Some sc => if binds symbol sc then Some (crossed, sc) else finding l symbol (crossed + ns_count sc) ps
      | None => None
      end
  end.
Definition meaning_of (o : option (nat * Scope)) : option ResolveResult :=
  match o with Some (crossed, sc) => meaning crossed sc | None => None end.

(** The use of a parameter is noted in the flag of its function. *)
Definition noted (o : option (nat * Scope)) s : Lowerer :=
  match o with
  | Some (_, Scope_LocalValue _ _ _ _ (Some f)) => set_flags (<[f := true]> (flags s)) s
  | _ => s
  end.

Lemma resolution_finding l symbol crossed ps : resolution l symbol crossed ps = meaning_of (finding l symbol crossed ps).
Proof.
  revert crossed. induction ps as [|i ps IH]; intros crossed; [done|]. cbn [resolution finding].
  destruct (l !! i) as [sc|]; [|done]. by destruct (binds symbol sc).
Qed.

Lemma finding_in l symbol crossed ps n sc :
  finding l symbol crossed ps = Some (n, sc) -> exists i, l !! i = Some sc.
Proof.
  revert crossed. induction ps as [|i ps IH]; intros crossed; [done|]. cbn [finding].
  destruct (l !! i) as [x|] eqn:Hi; [|done]. destruct (binds symbol x); [intros [= _ <-]; by exists i|apply IH].
Qed.

Definition flags_ok s : Prop :=
  forall i p name node r f, scopes s !! i = Some (Scope_LocalValue p name node r (Some f)) -> (f < length (flags s))%nat.

Lemma wf_flags_ok P k d s : wf P k d s -> flags_ok s.
Proof. intros Hw i p name node r f Hi. apply (wf_scopes _ _ _ _ _ Hw) in Hi as [_ [_ Hf]]. by apply Hf. Qed.

Lemma noted_wf P k d symbol crossed ps s :
  wf P k d s -> let s' := noted (finding (scopes s) symbol crossed ps) s in
  wf P k d s' /\ keeps s s' /\ scopes s' = scopes s.
Proof.
  intros Hw. destruct (finding _ _ _ _) as [[n sc]|]; [|by split_and!]. simpl.
  destruct sc as [| |p name node r [f|]| |]; try by split_and!. split_and!; [| |done].
  - destruct Hw as [Hst Hr Hi Hp Hu Hs Hl Hd]. split; try done. intros i sc Hsc.
    apply (scope_ok_mono P P s); [done|done|simpl; by rewrite length_insert|done|by apply Hs].
  - split; [|done]. split; try done; [|simpl; by rewrite length_insert]. exists (scopes s), [].
    rewrite app_nil_r. split_and!; [done|done|constructor].
Qed.

Lemma write_flag_run flag s :
  (forall f, flag = Some f -> (f < length (flags s))%nat) ->
  write_flag flag s = Ret (tt, match flag with Some f => set_flags (<[f := true]> (flags s)) s | None => s end).
Proof.
  intros Hf. destruct flag as [f|]; [|done]. specialize (Hf f eq_refl).
  unfold write_flag, mbind, M_bind, gets. cbn. by rewrite decide_True.
Qed.

Lemma resolve_run symbol fuel crossed b ps s :
  tree (scopes s) -> flags_ok s -> chain (scopes s) b ps -> (b < fuel)%nat ->
  let o := finding (scopes s) symbol crossed ps in
  resolve fuel symbol crossed b s = Ret (meaning_of o, noted o s).
Proof.
  intros Ht Hflags Hc. revert fuel crossed.
  induction Hc as [b sc Hb Hp|b sc p ps Hb Hp Hc IH]; intros [|fuel] crossed Hf; try lia;
    cbn [resolve finding]; rewrite (bind_ret _ _ _ _ _ (scope_at_ret _ _ _ Hb)), Hb.
  - destruct sc as [ns|q name node r|q name node r flag|blk|q body span]; simpl in Hp; try done; cbn [binds].
    + simpl. rewrite Hp. destruct (bool_decide (symbol = _)); simpl; [done|]. by destruct (bool_decide _).
    + simpl. by rewrite Hp.
  - pose proof (Ht _ _ _ Hb Hp) as Hlt. specialize (IH fuel). cbn zeta in IH.
    destruct sc as [ns|q name node r|q name node r flag|blk|q body span]; simpl in Hp; simplify_eq; cbn [binds ns_count].
    + simpl. rewrite Hp. destruct (bool_decide (symbol = _)); cbn [orb]; [done|].
      destruct (bool_decide _); [done|]. replace (crossed + 1)%nat with (S crossed) by lia. apply IH. lia.
    + simpl. destruct (bool_decide _); [done|]. rewrite Nat.add_0_r. apply IH. lia.
    + simpl. destruct (bool_decide _); [|rewrite Nat.add_0_r; apply IH; lia].
      rewrite (bind_ret _ _ _ _ _ (write_flag_run flag s ltac:(intros f ->; by eapply Hflags))). by destruct flag.
    + simpl. rewrite Hp, Nat.add_0_r. apply IH. lia.
    + simpl. rewrite Nat.add_0_r. apply IH. lia.
Qed.

(** What resolving a name gives can be used; a capture has crossed a namespace of the chain. *)
Definition resolved_ok s (ps : list nat) (x : ResolveResult) : Prop :=
  match x with
  | FoundAndIsLocalStackAllocated r | FoundAndIsLocalValue r => ref_ok s r
  | FoundAndIsDecl => True
  | Capture r n => ref_ok s r /\
      (0 < n <= length (filter (fun i => is_namespace (scopes s) i = true) ps))%nat
  end.

Lemma resolution_ok P k d symbol b ps s x :
  wf P k d s -> chain (scopes s) b ps -> resolution (scopes s) symbol 0 ps = Some x -> resolved_ok s ps x.
Proof.
  intros Hw _. set (l := scopes s).
  assert (H : forall qs crossed, resolution l symbol crossed qs = Some x ->
            match x with
            | FoundAndIsLocalStackAllocated r | FoundAndIsLocalValue r => ref_ok s r
            | FoundAndIsDecl => True
            | Capture r n => ref_ok s r /\
                (0 < n <= crossed + length (filter (fun i => is_namespace l i = true) qs))%nat
            end).
  { induction qs as [|i qs IH]; intros crossed; [done|]. cbn [resolution]. destruct (l !! i) as [sc|] eqn:Hi; [|done].
    pose proof (wf_scopes _ _ _ _ _ Hw _ _ Hi) as [_ Hok].
    assert (Hns : is_namespace l i = match sc with Scope_Namespace _ => true | _ => false end).
    { unfold is_namespace. by rewrite Hi. }
    destruct (binds symbol sc).
    - destruct sc; simpl; intros [= <-]; [done| |]; simpl in Hok; destruct (Nat.ltb_spec 0 crossed);
        try (destruct Hok as [Hok _]); try done; (split; [done|lia]).
    - intros Hr%IH. destruct x as [| | |r n]; try done. destruct Hr as [? Hn]. split; [done|].
      rewrite filter_cons, Hns. destruct sc; simpl in *; lia. }
  apply H.
Qed.

Lemma lowers_resolve P k d b symbol s (Q : option ResolveResult -> Lowerer -> Prop) :
  wf P k d s -> (b < length (scopes s))%nat ->
  (forall o s' ps, wf P k d s' -> keeps s s' -> scopes s' = scopes s -> chain (scopes s') b ps ->
    (forall x, o = Some x -> resolved_ok s' ps x) -> Q o s') ->
  lowers (resolve_symbol b symbol) s Q.
Proof.
  intros Hw Hb HQ. destruct (chain_exists (scopes s) b) as [ps Hc]; [by eapply wf_tree|done|].
  unfold resolve_symbol. destruct (starts_with_at symbol).
  - apply lowers_mret. eapply HQ; [done|done|done|done|]. by intros x [= <-].
  - apply lowers_bind, lowers_gets. destruct (noted_wf P k d symbol 0 ps s Hw) as (Hw' & K & Hsc). eexists _, _. split.
    { apply resolve_run; [by eapply wf_tree|by eapply wf_flags_ok|done|lia]. }
    eapply HQ; [done|done|done|by rewrite Hsc|]. intros x Hx. rewrite <- resolution_finding in Hx.
    pose proof (resolution_ok _ _ _ _ _ _ _ _ Hw Hc Hx) as Hok. destruct K as [G _].
    destruct x; simpl in *; [by eapply ref_grows|by eapply ref_grows|done|]. rewrite Hsc.
    destruct Hok. split; [by eapply ref_grows|done].
Qed.

(** ** Captures *)

(** The [idx]-th capture of the innermost of the namespaces is the instruction [id]. *)
Inductive denotes (l : list Scope) : list nat -> nat -> InstructionId -> Prop :=
  | denotes_id i ns nss idx id :
      l !! i = Some (Scope_Namespace ns) -> captures ns !! idx = Some (Vuir.Id id) -> denotes l (i :: nss) idx id
  | denotes_parent i ns nss idx j id :
      l !! i = Some (Scope_Namespace ns) -> captures ns !! idx = Some (Vuir.FromParent j) ->
      denotes l nss j id -> denotes l (i :: nss) idx id.

Lemma denotes_le l l' nss idx id :
  (forall i ns, l !! i = Some (Scope_Namespace ns) -> exists ns', l' !! i = Some (Scope_Namespace ns') /\
     captures ns `prefix_of` captures ns') ->
  denotes l nss idx id -> denotes l' nss idx id.
Proof.
  intros Hl. induction 1 as [i ns nss idx id Hi Hc|i ns nss idx j id Hi Hc Hd IH]; destruct (Hl _ _ Hi) as (ns' & Hi' & x & Hx).
  - eapply denotes_id; [done|]. rewrite Hx. by apply lookup_app_l_Some.
  - eapply denotes_parent; [done| |done]. rewrite Hx. by apply lookup_app_l_Some.
Qed.

Lemma capture_index_ok ns c i ns' :
  capture_index ns c = (i, ns') ->
  ns_parent ns' = ns_parent ns /\ decl_to_ast_node ns' = decl_to_ast_node ns /\
  captures ns `prefix_of` captures ns' /\ captures ns' !! i = Some c /\
  forall c', c' ∈ captures ns' -> c' ∈ captures ns \/ c' = c.
Proof.
  unfold capture_index. destruct (list_find _ _) as [[j c0]|] eqn:Hf; intros [= <- <-]; simpl.
  - apply list_find_Some in Hf as (Hj & -> & _). split_and!; [done|done|done|done|auto].
  - split_and!; [done|done|by apply prefix_app_r|by rewrite lookup_app_r, Nat.sub_diag by lia|].
    intros c' [?|?%list_elem_of_singleton]%elem_of_app; auto.
Qed.

Lemma lowers_insert_capture P k d i ns c s (Q : nat -> Lowerer -> Prop) :
  wf P k d s -> scopes s !! i = Some (Scope_Namespace ns) -> Forall (id_ok s) (captured c) ->
  (forall idx s' ns', wf P k d s' -> keeps s s' -> instructions s' = instructions s ->
    scopes s' = <[i := Scope_Namespace ns']> (scopes s) -> scope_le (Scope_Namespace ns) (Scope_Namespace ns') ->
    captures ns' !! idx = Some c -> Q idx s') ->
  lowers (insert_capture i c) s Q.
Proof.
  intros Hw Hi Hc HQ. unfold insert_capture. apply lowers_bind. eapply lowers_scope_at; [done|].
  apply lowers_bind. eapply lowers_lift; [done|]. destruct (capture_index ns c) as [idx ns'] eqn:Hx.
  apply capture_index_ok in Hx as (Hp & Hd & Hpre & Hidx & Hin).
  apply lowers_bind, lowers_gets, lowers_bind, lowers_modify, lowers_mret.
  pose proof (lookup_lt_Some _ _ _ Hi) as Hlt. eapply (HQ _ _ ns'); [| |done|done|done|done].
  - destruct Hw as [Hst Hr Hin' Hpe Hu Hs Hl Hde]. split; try done.
    + intros j sc. simpl. intros [(<- & <- & _)|(Hne & Hj)]%list_lookup_insert_Some; [|by apply Hs].
      destruct (Hs i _ Hi) as [Hpar Hok]. split; [simpl; by rewrite Hp|]. simpl in *.
      rewrite List.Forall_flat_map in Hok. apply List.Forall_flat_map, Forall_forall. intros c' Hc'.
      destruct (Hin c' Hc') as [Hold| ->]; [|done].
      rewrite Forall_forall in Hok. by apply Hok.
    + enough (defers (scopes (set_scopes (<[i:=Scope_Namespace ns']> (scopes s)) s)) = defers (scopes s)) as -> by done.
      simpl. rewrite insert_take_drop by done. rewrite <- (take_drop_middle (scopes s) i _ Hi) at 3.
      rewrite !defers_app. done.
  - split; [|simpl; by rewrite length_insert]. split; try done. exists (<[i:=Scope_Namespace ns']> (scopes s)), [].
    rewrite app_nil_r. split_and!; [done| |constructor]. apply Forall2_same_length_lookup_2; [by rewrite length_insert|].
    intros j x y Hx Hy. apply list_lookup_insert_Some in Hy as [(<- & <- & _)|(_ & Hy)]; simplify_eq; done.
Qed.

Lemma denotes_grows s s' nss idx id : grows s s' -> denotes (scopes s) nss idx id -> denotes (scopes s') nss idx id.
Proof.
  intros G. apply denotes_le. intros i ns Hi. destruct (grows_scope _ _ _ _ G Hi) as (sc & Hi' & Hle).
  destruct sc; simpl in Hle; try done. destruct Hle as (_ & _ & ?). by eexists.
Qed.

Definition namespace_in s i : Prop := exists ns, scopes s !! i = Some (Scope_Namespace ns).

Lemma namespace_grows s s' i : grows s s' -> namespace_in s i -> namespace_in s' i.
Proof.
  intros G [ns Hi]. destruct (grows_scope _ _ _ _ G Hi) as (sc & Hi' & Hle). destruct sc; simpl in Hle; try done. by eexists.
Qed.

Lemma lowers_capture_chain P k d todo done_ idx id s (Q : nat -> Lowerer -> Prop) :
  wf P k d s -> Forall (namespace_in s) todo -> denotes (scopes s) done_ idx id ->
  (forall idx s', wf P k d s' -> keeps s s' -> instructions s' = instructions s ->
    denotes (scopes s') (rev todo ++ done_) idx id -> Q idx s') ->
  lowers (for_each (fun capture_idx intermediate => insert_capture intermediate (Vuir.FromParent capture_idx)) todo idx) s Q.
Proof.
  revert done_ idx s. induction todo as [|i todo IH]; intros done_ idx s Hw Ht Hd HQ.
  { by apply lowers_mret, HQ. }
  apply Forall_cons in Ht as [[ns Hi] Ht]. apply lowers_bind. eapply lowers_insert_capture; [done|exact Hi|constructor|].
  intros idx' s' ns' Hw' K HI Hs' _ Hidx. pose proof K as [G _]. eapply (IH (i :: done_)); [done| | |].
  - eapply Forall_impl; [exact Ht|]. intros j. by apply namespace_grows.
  - eapply denotes_parent; [|done|by eapply denotes_grows].
    rewrite Hs'. by rewrite list_lookup_insert_eq by (by eapply lookup_lt_Some).
  - intros idx2 s2 Hw2 K2 HI2 Hd2. apply HQ; [done|by etrans|congruence|].
    simpl. by rewrite <- (assoc_L (++)).
Qed.

(** The instruction that reads a captured value names it through the captures
    of the [n] namespaces in between. *)
Lemma lowers_capture P k d b ps id n span s (Q : InstructionRef -> Lowerer -> Prop) :
  wf P k d s -> (0 < k)%nat -> scope_in s b -> chain (scopes s) b ps -> id_ok s id ->
  let nss := filter (fun i => is_namespace (scopes s) i = true) ps in
  (0 < n <= length nss)%nat ->
  (forall i idx s', wf P (k - 1) d s' -> keeps s s' -> id_ok s' i ->
    instructions s' = instructions s ++ [Vuir.CaptureGet idx span] -> i = next_id s ->
    denotes (scopes s') (take n nss) idx id -> Q (Instruction i) s') ->
  lowers (capture_outer_scope_inst b (Instruction id) n span) s Q.
Proof.
  intros Hw Hk (sc & Hb & Hnb) Hc Hid nss Hn HQ. pose proof (lookup_lt_Some _ _ _ Hb) as Hlt.
  pose proof (wf_tree _ _ _ _ Hw) as Ht.
  assert (Hnss : filter (fun i => is_namespace (scopes s) i = true) (tail ps) = nss).
  { unfold nss. destruct (chain_head _ _ _ Hc) as [ps' ->]. simpl. rewrite filter_cons, Hnb. done. }
  assert (Hall : Forall (namespace_in s) nss).
  { apply Forall_forall. intros i [Hi _]%list_elem_of_filter. unfold is_namespace in Hi.
    destruct (scopes s !! i) as [[ns| | | |]|] eqn:E; try done. by exists ns. }
  unfold capture_outer_scope_inst. apply lowers_bind, lowers_gets, lowers_bind.
  eapply lowers_lift; [apply chain_ancestors; [done|done|lia]|]. rewrite Hnss.
  apply lowers_bind. eapply lowers_lift; [unfold usize_sub; by rewrite decide_True by lia|].
  destruct (nth_lookup_or_length nss (n - 1) 0%nat) as [Hroot|]; [|lia].
  rewrite (drop_S _ _ _ Hroot). set (root := nth (n - 1) nss 0%nat) in *.
  assert (Htake : take n nss = take (n - 1) nss ++ [root]).
  { replace n with (S (n - 1)) at 1 by lia. by apply take_S_r. }
  destruct (Forall_lookup_1 _ _ _ _ Hall Hroot) as [ns Hns].
  apply lowers_bind. eapply lowers_insert_capture; [done|exact Hns|by apply Forall_singleton|].
  intros idx s1 ns1 Hw1 K1 HI1 Hs1 _ Hidx. pose proof K1 as [G1 _].
  apply lowers_bind. eapply (lowers_capture_chain P k d _ [root]); [done| | |].
  { apply Forall_rev, Forall_take. eapply Forall_impl; [exact Hall|]. intros j. by apply namespace_grows. }
  { eapply denotes_id; [|done]. rewrite Hs1. by rewrite list_lookup_insert_eq by (by eapply lookup_lt_Some). }
  rewrite rev_involutive, <- Htake. intros idx2 s2 Hw2 K2 HI2 Hd2.
  apply lowers_bind. eexists _, _. split; [by eapply inst_id_run|]. apply lowers_mret.
  assert (Hpost : lowers (inst_id b (Vuir.CaptureGet idx2 span)) s2
            (fun i s3 => wf P (k - 1) d s3 /\ keeps s2 s3 /\ id_ok s3 i)).
  { eapply lowers_inst_id; [done|done|by split; simpl|done|]. auto. }
  destruct Hpost as (i & s3 & Hrun & Hw3 & K3 & Hi3). erewrite inst_id_run in Hrun; [|done|done].
  injection Hrun as <- <-. eapply HQ; [done|by do 2 (etrans; [done|])|done| | |exact Hd2].
  - simpl. by rewrite HI2, HI1.
  - unfold next_id. by rewrite HI2, HI1.
Qed.

(** ** Positions and results *)

Lemma sorted_below l x : StronglySorted lt l ->
  forall j y, l !! j = Some y -> (y < x)%nat <-> (j < length (filter (fun y => (y < x)%nat) l))%nat.
Proof.
  induction 1 as [|a l Hl IH Ha]; intros j y Hj; [done|]. rewrite filter_cons. destruct j as [|j]; simpl in Hj.
  - injection Hj as <-. destruct (decide (a < x)%nat); simpl; [lia|]. split; [lia|]. intros Hlen.
    destruct (filter _ l) as [|z zs] eqn:Hf; [simpl in Hlen; lia|].
    assert (z ∈ filter (fun y => (y < x)%nat) l) as [Hz Hzl]%list_elem_of_filter by (rewrite Hf; by left).
    rewrite Forall_forall in Ha. specialize (Ha z Hzl). lia.
  - rewrite Forall_forall in Ha. specialize (Ha y (list_elem_of_lookup_2 _ _ _ Hj)). 
    destruct (decide (a < x)%nat); simpl; [rewrite (IH j y Hj); lia|]. split; [lia|]. intros Hlt.
    enough (y < x)%nat by lia. apply (IH j y Hj). lia.
Qed.

Lemma sorted_lookup l : StronglySorted lt l ->
  forall i j a b, l !! i = Some a -> l !! j = Some b -> (i < j)%nat -> (a < b)%nat.
Proof.
  induction 1 as [|x l Hl IH Hx]; intros i j a b' Hi Hj Hij; [done|]. destruct j as [|j]; [lia|].
  destruct i as [|i]; simpl in *; [|apply (IH i j); [done|done|lia]].
  injection Hi as ->. rewrite Forall_forall in Hx. by eapply Hx, list_elem_of_lookup_2.
Qed.

(** The search finds the last of the numbers that are not greater. *)
Lemma binary_search_last l x :
  StronglySorted lt l -> head l = Some 0%nat ->
  let idx := match binary_search l x with inl i => i | inr i => (i - 1)%nat end in
  exists start, l !! idx = Some start /\ (start <= x)%nat /\
    forall j y, l !! j = Some y -> (y <= x)%nat <-> (j <= idx)%nat.
Proof.
  intros Hs Hh. pose proof (sorted_below l x Hs) as Hlow.
  unfold binary_search. destruct (list_find _ l) as [[i y]|] eqn:Hf; simpl.
  - apply list_find_Some in Hf as (Hi & -> & _). exists x. split_and!; [done|done|].
    intros j z Hj. destruct (Nat.lt_trichotomy i j) as [Hij|[->|Hij]].
    + pose proof (sorted_lookup _ Hs _ _ _ _ Hi Hj Hij). lia.
    + simplify_eq. lia.
    + pose proof (sorted_lookup _ Hs _ _ _ _ Hj Hi Hij). lia.
  - apply list_find_None in Hf. set (m := length (filter _ l)) in *.
    destruct l as [|a l]; [done|]. injection Hh as ->.
    assert (0 <> x)%nat by (rewrite Forall_cons in Hf; by destruct Hf).
    assert (0 < m)%nat by (apply (Hlow 0%nat 0%nat); [done|lia]).
    assert (m <= length (0%nat :: l))%nat by apply length_filter.
    destruct (lookup_lt_is_Some_2 (0%nat :: l) (m - 1)) as [start Hstart]; [lia|]. exists start. split; [done|].
    split; [enough (start < x)%nat by lia; apply (Hlow _ _ Hstart); lia|].
    intros j y Hj. rewrite Forall_lookup in Hf. specialize (Hf _ _ Hj). specialize (Hlow _ _ Hj). lia.
Qed.

Lemma lowers_line_col P k d span s (Q : nat * nat -> Lowerer -> Prop) :
  wf P k d s -> (forall line col, Q (line, col) s) -> lowers (start_line_col span) s Q.
Proof.
  intros Hw HQ. destruct (wf_lines _ _ _ _ _ Hw) as [Hs Hh].
  destruct (binary_search_last (line_starts s) (Span.start span) Hs Hh) as (start & Hstart & Hle & _).
  apply lowers_bind, lowers_gets, lowers_bind. eapply lowers_lift; [unfold get_idx; by rewrite Hstart|].
  apply lowers_bind. eapply lowers_lift; [unfold usize_sub; by rewrite decide_True by lia|]. apply lowers_mret, HQ.
Qed.

Lemma emit_simple P s op :
  Forall (ref_ok s) (uses op) -> late_uses op = [] -> bodies op = [] -> (forall kind, jump_ok kind op) -> emit_ok P s op.
Proof. intros Hu Hl Hb Hj. split; [done|by rewrite Hl|by rewrite Hb|done]. Qed.

(** What an expression gives goes where its context wants it. *)
Lemma lowers_rvalue P k d b r ctx span s (Q : InstructionRef -> Lowerer -> Prop) :
  wf P k d s -> (0 < k)%nat -> ref_ok s r -> ctx_ok s ctx ->
  (forall r' s', wf P (k - 1) d s' -> keeps s s' -> ref_ok s' r' -> Q r' s') ->
  lowers (rvalue b r ctx span) s Q.
Proof.
  intros Hw Hk Hr Hctx HQ. unfold rvalue, ctx_ok in *. destruct (result_location ctx) as [|ty|ptr sp|ptr sp|]; simpl in Hctx.
  - apply lowers_mret, HQ; [|done|done]. eapply wf_le; [| |done]; lia.
  - eapply lowers_inst; [done|done|apply emit_simple; try done|done|]. { simpl. by constructor. } by intros; apply HQ.
  - eapply lowers_inst; [done|done|apply emit_simple; try done|done|].
    { simpl. inversion Hctx. by repeat constructor. } by intros; apply HQ.
  - apply lowers_bind. eapply lowers_inst; [done|done|apply emit_simple; try done|done|].
    { simpl. inversion Hctx. by repeat constructor. } intros. by apply lowers_common_ref; intros; apply HQ.
  - eapply lowers_inst; [done|done|apply emit_simple; try done|done|]. { simpl. by constructor. } by intros; apply HQ.
Qed.

Lemma lowers_expected_ty P k d b ctx s (Q : option InstructionRef -> Lowerer -> Prop) :
  wf P k d s -> (0 < k)%nat -> ctx_ok s ctx ->
  (forall o s', wf P (k - 1) d s' -> keeps s s' -> (forall ty, o = Some ty -> ref_ok s' ty) -> Q o s') ->
  lowers (try_lower_coerce_into_result_loc_expected_ty b ctx) s Q.
Proof.
  intros Hw Hk Hctx HQ. unfold try_lower_coerce_into_result_loc_expected_ty, ctx_ok in *.
  assert (Hskip : forall o, (forall ty, o = Some ty -> ref_ok s ty) -> Q o s).
  { intros o Ho. apply HQ; [|done|done]. eapply wf_le; [| |done]; lia. }
  destruct (result_location ctx) as [|ty|ptr sp|ptr sp|]; simpl in Hctx; try by apply lowers_mret, Hskip.
  - apply lowers_mret, Hskip. intros ? [= <-]. by inversion Hctx.
  - apply lowers_bind. eapply lowers_inst; [done|done|by apply emit_simple|done|].
    intros i s' Hw' K Hi. apply lowers_mret, HQ; [done|done|]. by intros ? [= <-].
Qed.

End Scopes.
End LowerScopes.
