(* ===== verification/LowerSteps.v ===== *)
(** * Stepping through the lowering

    What an expression's lowering promises ([expr_spec]), the rules for loops over
    lists of syntax, and the tactics that run a method symbolically: [adv] carries
    what is known of a state over to a later one, [opn] and [cls] enter and leave
    a block, [hole], [fill] and [fil] make a placeholder and fill it in. *)

From S2P Require Import Prelude Words Bytes Span Token Diagnostic Ast HashIndex ShardedMap.
From S2P Require Import Anyint Value ValueStore Vuir SemaState SemaLogic.
From S2P Require Import LowerState Lower LowerSyntax LowerLogic LowerScopes.
From stdpp Require Import gmap.

#[local] Open Scope Z_scope.

Module LowerSteps.
Import Ast IrId LowerState Lower LowerSyntax LowerLogic LowerScopes.

(** ** Facts over time *)

Section Opened.
Context `{SL : SettingLaws}.
Implicit Types (s o : Lowerer).

(** The flag of a function that is being lowered. *)
Definition flag_in s (flag : nat) : Prop := (flag < length (flags s))%nat.

Lemma flag_grows s s' flag : grows s s' -> flag_in s flag -> flag_in s' flag.
Proof. intros G. unfold flag_in. by rewrite (grows_flags _ _ G). Qed.

Definition pushed (sc : Scope) s : Lowerer := set_scopes (scopes s ++ [sc]) s.

Lemma pushed_opened p bk s o : o = opened p bk s -> exists sc, o = pushed sc s.
Proof. intros ->. by eexists. Qed.
Lemma open_scope sc s o b : o = pushed sc s -> scope_in s b -> scope_in o b.
Proof.
  intros -> (sc' & Hb & Hn). exists sc'. unfold is_namespace in *. simpl.
  rewrite (lookup_app_l_Some _ _ _ _ Hb). by rewrite Hb in Hn.
Qed.
Lemma open_ref sc s o r : o = pushed sc s -> ref_ok s r -> ref_ok o r.
Proof. by intros ->. Qed.
Lemma open_id sc s o i : o = pushed sc s -> id_ok s i -> id_ok o i.
Proof. by intros ->. Qed.
Lemma open_refs sc s o l : o = pushed sc s -> Forall (ref_ok s) l -> Forall (ref_ok o) l.
Proof. by intros ->. Qed.
Lemma open_ids sc s o l : o = pushed sc s -> Forall (id_ok s) l -> Forall (id_ok o) l.
Proof. by intros ->. Qed.
Lemma open_ctx sc s o ctx : o = pushed sc s -> ctx_ok s ctx -> ctx_ok o ctx.
Proof. by intros ->. Qed.
Lemma open_kind sc s o P i t : o = pushed sc s -> kind_at P s i = Some t -> kind_at P o i = Some t.
Proof. by intros ->. Qed.
Lemma open_root sc s o in_fn : o = pushed sc s -> root_ok in_fn s -> root_ok in_fn o.
Proof. by intros ->. Qed.
Lemma open_namespace sc s o i : o = pushed sc s -> namespace_in s i -> namespace_in o i.
Proof. intros -> [ns Hi]. exists ns. simpl. by apply lookup_app_l_Some. Qed.
Lemma open_flag sc s o i : o = pushed sc s -> flag_in s i -> flag_in o i.
Proof. by intros ->. Qed.
Lemma open_block sc s o i : o = pushed sc s -> block_in s i -> block_in o i.
Proof. intros -> [blk Hi]. exists blk. simpl. by apply lookup_app_l_Some. Qed.

(** Filling a placeholder changes one instruction. *)
Lemma fill_count i op s s' : s' = filled i op s -> length (instructions s') = length (instructions s).
Proof. intros ->. apply count_filled. Qed.
Lemma fill_scope i op s s' b : s' = filled i op s -> scope_in s b -> scope_in s' b.
Proof. by intros ->. Qed.
Lemma fill_block i op s s' b : s' = filled i op s -> block_in s b -> block_in s' b.
Proof. by intros ->. Qed.
Lemma fill_namespace i op s s' b : s' = filled i op s -> namespace_in s b -> namespace_in s' b.
Proof. by intros ->. Qed.
Lemma fill_flag i op s s' flag : s' = filled i op s -> flag_in s flag -> flag_in s' flag.
Proof. by intros ->. Qed.
Lemma fill_root i op s s' in_fn : s' = filled i op s -> root_ok in_fn s -> root_ok in_fn s'.
Proof. by intros ->. Qed.

Lemma fill_kind i op s s' P t j t' :
  s' = filled i op s -> P !! i = None -> id_ok s i -> target_of op = t ->
  kind_at (pend t i P) s j = Some t' -> kind_at P s' j = Some t'.
Proof. intros -> HP Hi <-. by apply kind_filled. Qed.

(** What came before the placeholder can be its operand. *)
Lemma below_ref s i r : i = next_id s -> ref_ok s r -> ref_below (Z.to_nat i) r.
Proof. intros ->. unfold next_id. by rewrite Nat2Z.id. Qed.
Lemma below_refs s i l : i = next_id s -> Forall (ref_ok s) l -> Forall (ref_below (Z.to_nat i)) l.
Proof. intros ->. unfold next_id. by rewrite Nat2Z.id. Qed.
Lemma not_below s i : i = next_id s -> ~ id_ok s i.
Proof. intros ->. unfold id_ok, id_below, next_id. lia. Qed.

Lemma count_ref s s' r : length (instructions s') = length (instructions s) -> ref_ok s r -> ref_ok s' r.
Proof. unfold ref_ok. by intros ->. Qed.
Lemma count_id s s' i : length (instructions s') = length (instructions s) -> id_ok s i -> id_ok s' i.
Proof. unfold id_ok. by intros ->. Qed.
Lemma count_refs s s' l : length (instructions s') = length (instructions s) -> Forall (ref_ok s) l -> Forall (ref_ok s') l.
Proof. intros Hl H. eapply Forall_impl; [exact H|]. intros. by eapply count_ref. Qed.
Lemma count_ids s s' l : length (instructions s') = length (instructions s) -> Forall (id_ok s) l -> Forall (id_ok s') l.
Proof. intros Hl H. eapply Forall_impl; [exact H|]. intros. by eapply count_id. Qed.

Lemma id_grows s s' i : grows s s' -> id_ok s i -> id_ok s' i.
Proof. intros G. by apply id_below_le, grows_count. Qed.
Lemma keeps_grows s s' : keeps s s' -> grows s s'.
Proof. by intros []. Qed.
Lemma keeps_keeps s1 s2 s3 : keeps s2 s3 -> keeps s1 s2 -> keeps s1 s3.
Proof. intros. by etrans. Qed.
Lemma grows_grows s1 s2 s3 : grows s2 s3 -> grows s1 s2 -> grows s1 s3.
Proof. intros. by etrans. Qed.
Lemma scope_lt s b : scope_in s b -> (b < length (scopes s))%nat.
Proof. intros (sc & Hb & _). by eapply lookup_lt_Some. Qed.
Lemma namespace_lt s b : namespace_in s b -> (b < length (scopes s))%nat.
Proof. intros (sc & Hb). by eapply lookup_lt_Some. Qed.
End Opened.

(** What is known of [s] is known of [s'], where [G : grows s s']. *)
Ltac move_facts s s' G :=
  repeat match goal with
    | H : ref_ok s _ |- _ => apply (ref_grows _ _ _ G) in H
    | H : id_ok s _ |- _ => apply (id_grows _ _ _ G) in H
    | H : Forall (ref_ok s) _ |- _ => apply (refs_grow _ _ _ G) in H
    | H : Forall (id_ok s) _ |- _ => apply (ids_grow _ _ _ G) in H
    | H : scope_in s _ |- _ => apply (scope_grows _ _ _ G) in H
    | H : block_in s _ |- _ => apply (block_grows _ _ _ G) in H
    | H : namespace_in s _ |- _ => apply (namespace_grows _ _ _ G) in H
    | H : ctx_ok s _ |- _ => apply (ctx_grows _ _ _ G) in H
    | H : kind_at _ s _ = Some _ |- _ => apply (kind_grows _ _ _ _ _ G) in H
    | H : root_ok _ s |- _ => apply (root_grows _ _ _ G) in H
    | H : flag_in s _ |- _ => apply (flag_grows _ _ _ G) in H
    | H : grows ?x s |- _ => lazymatch x with s' => fail | _ => apply (grows_grows x _ _ G) in H end
    end.

(** A step [K : keeps s s'], or [K : grows s s'] for one that leaves scopes behind. *)
Ltac adv K :=
  lazymatch type of K with
  | keeps ?s ?s' =>
      let G := fresh "G" in
      pose proof (keeps_grows _ _ K) as G;
      repeat match goal with
        | H : keeps ?x s |- _ => apply (keeps_keeps x _ _ K) in H
        end;
      move_facts s s' G; clear G K
  | grows ?s ?s' =>
      repeat match goal with
        | H : keeps ?x s |- _ => apply keeps_grows in H
        end;
      move_facts s s' K; clear K
  end.

(** Entering a block: [Ho : o = opened p bk s] doubles what is known of [s]. *)
Ltac opn Ho :=
  lazymatch type of Ho with
  | ?o = opened _ _ ?s =>
      let Hp := fresh "Hp" in let sc := fresh "sc" in destruct (pushed_opened _ _ _ _ Ho) as [sc Hp]; opn Hp; clear Hp
  | ?o = pushed _ ?s =>
      repeat match goal with
        | H : ref_ok s ?x |- _ => lazymatch goal with _ : ref_ok o x |- _ => fail | _ => pose proof (open_ref _ _ _ _ Ho H) end
        | H : id_ok s ?x |- _ => lazymatch goal with _ : id_ok o x |- _ => fail | _ => pose proof (open_id _ _ _ _ Ho H) end
        | H : Forall (ref_ok s) ?x |- _ => lazymatch goal with _ : Forall (ref_ok o) x |- _ => fail | _ => pose proof (open_refs _ _ _ _ Ho H) end
        | H : Forall (id_ok s) ?x |- _ => lazymatch goal with _ : Forall (id_ok o) x |- _ => fail | _ => pose proof (open_ids _ _ _ _ Ho H) end
        | H : scope_in s ?x |- _ => lazymatch goal with _ : scope_in o x |- _ => fail | _ => pose proof (open_scope _ _ _ _ Ho H) end
        | H : block_in s ?x |- _ => lazymatch goal with _ : block_in o x |- _ => fail | _ => pose proof (open_block _ _ _ _ Ho H) end
        | H : namespace_in s ?x |- _ => lazymatch goal with _ : namespace_in o x |- _ => fail | _ => pose proof (open_namespace _ _ _ _ Ho H) end
        | H : ctx_ok s ?x |- _ => lazymatch goal with _ : ctx_ok o x |- _ => fail | _ => pose proof (open_ctx _ _ _ _ Ho H) end
        | H : kind_at ?P s ?x = Some ?t |- _ => lazymatch goal with _ : kind_at P o x = Some t |- _ => fail | _ => pose proof (open_kind _ _ _ _ _ _ Ho H) end
        | H : flag_in s ?x |- _ => lazymatch goal with _ : flag_in o x |- _ => fail | _ => pose proof (open_flag _ _ _ _ Ho H) end
        | H : root_ok ?x s |- _ => lazymatch goal with _ : root_ok x o |- _ => fail | _ => pose proof (open_root _ _ _ _ Ho H) end
        end;
      let G := fresh "GO" in assert (G : grows o o) by reflexivity
  end.

(** Leaving a block: [s'] has the instructions of [s], and comes after the state
    before the block by [K]. *)
Ltac cls Hc K :=
  lazymatch type of Hc with
  | length (instructions ?s') = length (instructions ?s) =>
      repeat match goal with
        | H : ref_ok s _ |- _ => apply (count_ref _ _ _ Hc) in H
        | H : id_ok s _ |- _ => apply (count_id _ _ _ Hc) in H
        | H : Forall (ref_ok s) _ |- _ => apply (count_refs _ _ _ Hc) in H
        | H : Forall (id_ok s) _ |- _ => apply (count_ids _ _ _ Hc) in H
        end;
      repeat match goal with
        | H : scope_in s _ |- _ => clear H
        | H : block_in s _ |- _ => clear H
        | H : namespace_in s _ |- _ => clear H
        | H : ctx_ok s _ |- _ => clear H
        | H : kind_at _ s _ = _ |- _ => clear H
        | H : root_ok _ s |- _ => clear H
        | H : flag_in s _ |- _ => clear H
        end;
      adv K; clear Hc
  end.

(** The next statement of a method, when no rule with premises is needed. *)
Ltac step1 :=
  lazymatch goal with
  | |- lowers (mret _) _ _ => apply lowers_mret
  | |- lowers (_ ≫= _) _ _ => apply lowers_bind
  | |- lowers (gets _) _ _ => apply lowers_gets
  | |- lowers (modify _) _ _ => apply lowers_modify
  | |- lowers (common_ref _) _ _ => apply lowers_common_ref; intros ?
  | |- lowers (common _) _ _ => apply lowers_common
  | |- lowers (diag_span _) _ _ => apply lowers_gets
  end; cbv beta.
Ltac steps := repeat step1.

Section Steps.
Context `{SL : SettingLaws}.
Context (D : nat).
Implicit Types (s : Lowerer) (b : nat) (r : InstructionRef) (P : gmap Z Target) (k d : nat).
Abbreviation wf := (LowerLogic.wf D).
Abbreviation W := (LowerLogic.W D).

(** What the lowering of an expression of size [n] promises. *)
Definition expr_spec (in_fn : bool) (n : nat) (m : nat -> ExprContext -> M InstructionRef) : Prop :=
  forall P k d b ctx s (Q : InstructionRef -> Lowerer -> Prop),
    wf P k d s -> (W * n <= k)%nat -> (n <= d)%nat -> scope_in s b -> ctx_ok s ctx -> root_ok in_fn s ->
    (forall r s', wf P (k - W * n) (d - n) s' -> keeps s s' -> ref_ok s' r -> Q r s') ->
    lowers (m b ctx) s Q.

(** The recursive calls, on expressions of size at most [N]. *)
Definition exprs_ok `{!Rec} (N : nat) : Prop :=
  forall in_fn e, (size_expr e <= N)%nat -> supported_expr in_fn e = true ->
    expr_spec in_fn (size_expr e) (fun b ctx => lower_expr b e ctx).
Definition named_ok `{!Rec} (N : nat) : Prop :=
  forall in_fn e, (size_expr e <= N)%nat -> supported_expr in_fn e = true ->
    (forall naming, expr_spec in_fn (size_expr e) (fun b ctx => lower_expr_named b e ctx naming)) /\
    expr_spec in_fn (size_expr e) (fun b ctx => lower_decl_init_expr b e ctx).

Lemma call_expr `{!Rec} N in_fn e P k d b ctx s (Q : InstructionRef -> Lowerer -> Prop) :
  exprs_ok N -> (size_expr e <= N)%nat -> supported_expr in_fn e = true ->
  wf P k d s -> (W * size_expr e <= k)%nat -> (size_expr e <= d)%nat ->
  scope_in s b -> ctx_ok s ctx -> root_ok in_fn s ->
  (forall r s', wf P (k - W * size_expr e) (d - size_expr e) s' -> keeps s s' -> ref_ok s' r -> Q r s') ->
  lowers (lower_expr b e ctx) s Q.
Proof. intros HE Hn Hs. by apply (HE in_fn e). Qed.

Lemma call_named `{!Rec} N in_fn e naming P k d b ctx s (Q : InstructionRef -> Lowerer -> Prop) :
  named_ok N -> (size_expr e <= N)%nat -> supported_expr in_fn e = true ->
  wf P k d s -> (W * size_expr e <= k)%nat -> (size_expr e <= d)%nat ->
  scope_in s b -> ctx_ok s ctx -> root_ok in_fn s ->
  (forall r s', wf P (k - W * size_expr e) (d - size_expr e) s' -> keeps s s' -> ref_ok s' r -> Q r s') ->
  lowers (lower_expr_named b e ctx naming) s Q.
Proof. intros HN Hn Hs. by apply (HN in_fn e). Qed.

Lemma call_init `{!Rec} N in_fn e P k d b ctx s (Q : InstructionRef -> Lowerer -> Prop) :
  named_ok N -> (size_expr e <= N)%nat -> supported_expr in_fn e = true ->
  wf P k d s -> (W * size_expr e <= k)%nat -> (size_expr e <= d)%nat ->
  scope_in s b -> ctx_ok s ctx -> root_ok in_fn s ->
  (forall r s', wf P (k - W * size_expr e) (d - size_expr e) s' -> keeps s s' -> ref_ok s' r -> Q r s') ->
  lowers (lower_decl_init_expr b e ctx) s Q.
Proof. intros HN Hn Hs. by apply (HN in_fn e). Qed.

(** ** Loops over syntax *)

(** Facts that last. *)
Definition lasting {A} (R : Lowerer -> A -> Prop) : Prop := forall s s' a, keeps s s' -> R s a -> R s' a.

Lemma lowers_collect_items {A B} (f : A -> M B) (size : A -> nat) (I : Lowerer -> unit -> Prop)
    (R : Lowerer -> B -> Prop) (l : list A) P k d s (Q : list B -> Lowerer -> Prop) :
  wf P k d s -> (W * sum size l <= k)%nat -> (sum size l <= d)%nat -> I s tt -> lasting I -> lasting R ->
  (forall x k d s (Q : B -> Lowerer -> Prop), x ∈ l ->
    wf P k d s -> (W * size x <= k)%nat -> (size x <= d)%nat -> I s tt ->
    (forall y s', wf P (k - W * size x) (d - size x) s' -> keeps s s' -> R s' y -> Q y s') ->
    lowers (f x) s Q) ->
  (forall ys s', wf P (k - W * sum size l) (d - sum size l) s' -> keeps s s' -> Forall (R s') ys -> Q ys s') ->
  lowers (collect f l) s Q.
Proof.
  intros Hw Hk Hd HI LI LR Hf. revert k d s Q Hw Hk Hd HI.
  induction l as [|x l IH]; intros k d s Q Hw Hk Hd HI HQ; cbn [collect sum] in *.
  { apply lowers_mret, HQ; [|done|done]. eapply wf_le; [| |exact Hw]; lia. }
  apply lowers_bind. apply (Hf x k d s); [by left|done|lia|lia|done|]. intros y s1 Hw1 K1 Hy.
  apply lowers_bind. apply (IH ltac:(intros; eapply Hf; [by right|done..]) (k - W * size x)%nat (d - size x)%nat s1);
    [done|lia|lia|by eapply LI|]. intros ys s2 Hw2 K2 Hys. apply lowers_mret, HQ.
  - eapply wf_le; [| |exact Hw2]; lia.
  - by etrans.
  - constructor; [by eapply LR|done].
Qed.

Lemma lowers_for_each_items {A S} (f : S -> A -> M S) (size : A -> nat)
    (R : Lowerer -> S -> Prop) (l : list A) (a : S) P k d s (Q : S -> Lowerer -> Prop) :
  wf P k d s -> (W * sum size l <= k)%nat -> (sum size l <= d)%nat -> lasting R -> R s a ->
  (forall x a k d s (Q : S -> Lowerer -> Prop), x ∈ l ->
    wf P k d s -> (W * size x <= k)%nat -> (size x <= d)%nat -> R s a ->
    (forall a' s', wf P (k - W * size x) (d - size x) s' -> keeps s s' -> R s' a' -> Q a' s') ->
    lowers (f a x) s Q) ->
  (forall a' s', wf P (k - W * sum size l) (d - sum size l) s' -> keeps s s' -> R s' a' -> Q a' s') ->
  lowers (for_each f l a) s Q.
Proof.
  intros Hw Hk Hd LR Ha Hf. revert a k d s Q Hw Hk Hd Ha.
  induction l as [|x l IH]; intros a k d s Q Hw Hk Hd Ha HQ; cbn [for_each sum] in *.
  { apply lowers_mret, HQ; [|done|done]. eapply wf_le; [| |exact Hw]; lia. }
  apply lowers_bind. apply (Hf x a k d s); [by left|done|lia|lia|done|]. intros a1 s1 Hw1 K1 Ha1.
  apply (IH ltac:(intros; eapply Hf; [by right|done..]) a1 (k - W * size x)%nat (d - size x)%nat s1);
    [done|lia|lia|done|]. intros a2 s2 Hw2 K2 Ha2. apply HQ; [|by etrans|done].
  eapply wf_le; [| |exact Hw2]; lia.
Qed.

(** A loop that goes from one scope to the next. *)
Lemma lowers_for_each_scopes {A} (f : nat -> A -> M nat) (size : A -> nat) (I : Lowerer -> Prop) (l : list A)
    P k d b s (Q : nat -> Lowerer -> Prop) :
  wf P k d s -> (W * sum size l <= k)%nat -> (sum size l <= d)%nat -> scope_in s b -> I s ->
  (forall s s', grows s s' -> I s -> I s') ->
  (forall x k d b s (Q : nat -> Lowerer -> Prop), x ∈ l ->
    wf P k d s -> (W * size x <= k)%nat -> (size x <= d)%nat -> scope_in s b -> I s ->
    (forall b' s', wf P (k - W * size x) (d - size x) s' -> grows s s' -> scope_in s' b' -> Q b' s') ->
    lowers (f b x) s Q) ->
  (forall b' s', wf P (k - W * sum size l) (d - sum size l) s' -> grows s s' -> scope_in s' b' -> Q b' s') ->
  lowers (for_each f l b) s Q.
Proof.
  intros Hw Hk Hd Hb HI LI Hf. revert b k d s Q Hw Hk Hd Hb HI.
  induction l as [|x l IH]; intros b k d s Q Hw Hk Hd Hb HI HQ; cbn [for_each sum] in *.
  { apply lowers_mret, HQ; [|done|done]. eapply wf_le; [| |exact Hw]; lia. }
  apply lowers_bind. apply (Hf x k d b s); [by left|done|lia|lia|done|done|]. intros b1 s1 Hw1 G1 Hb1.
  apply (IH ltac:(intros; eapply Hf; [by right|done..]) b1 (k - W * size x)%nat (d - size x)%nat s1);
    [done|lia|lia|done|by eapply LI|]. intros b2 s2 Hw2 G2 Hb2. apply HQ; [|by etrans|done].
  eapply wf_le; [| |exact Hw2]; lia.
Qed.

(** ** Blocks, with the facts in the shape of the tactics *)

Lemma lowers_open P k d p bk s (Q : nat -> Lowerer -> Prop) :
  wf P k d s -> (p < length (scopes s))%nat -> block_kind_ok P s bk ->
  (forall o b, o = opened p bk s -> b = length (scopes s) -> wf P k d o -> block_in o b -> scope_in o b -> Q b o) ->
  lowers (stack_block p bk) s Q.
Proof.
  intros Hw Hp Hb HQ. eapply lowers_stack_block; [done..|]. intros Hw' Hb'. apply HQ; [done..|]. by apply block_in_scope.
Qed.

Lemma lowers_close P k d k0 d0 p bk s0 o b s (Q : list InstructionId -> Lowerer -> Prop) :
  o = opened p bk s0 -> b = length (scopes s0) ->
  wf P k0 d0 s0 -> wf P k d s -> grows o s ->
  (forall l s', wf P k d s' -> keeps s0 s' -> length (instructions s') = length (instructions s) ->
    Forall (id_ok s') l -> uir_scopes_instructions s = uir_scopes_instructions s0 ++ l -> Q l s') ->
  lowers (collect_instructions_and_unstack_block b) s Q.
Proof. intros -> -> Hw0 Hw G HQ. eapply lowers_collect; [done..|]. intros. by apply HQ. Qed.

Lemma lowers_discard P k d k0 d0 p bk s0 o b s (Q : unit -> Lowerer -> Prop) :
  o = opened p bk s0 -> b = length (scopes s0) ->
  wf P k0 d0 s0 -> wf P k d s -> grows o s ->
  (forall s', wf P k d s' -> keeps s0 s' -> length (instructions s') = length (instructions s) ->
    s' = closed s0 s -> Q tt s') ->
  lowers (unstack_block b) s Q.
Proof. intros -> -> Hw0 Hw G HQ. eapply lowers_unstack; [done..|]. intros. by apply HQ. Qed.

(** ** Errors *)

Lemma lowers_error_at message span s (Q : Diagnostic.Diagnostic -> Lowerer -> Prop) :
  (forall e, Q e s) -> lowers (error_at message span) s Q.
Proof. intros HQ. unfold error_at. steps. apply HQ. Qed.

Lemma lowers_redefinition message sp new ty osp old s (Q : Diagnostic.Diagnostic -> Lowerer -> Prop) :
  (forall e, Q e s) -> lowers (redefinition message sp new ty osp old) s Q.
Proof. intros HQ. unfold redefinition. steps. apply HQ. Qed.

Lemma lowers_push_error_at P k d message span s (Q : unit -> Lowerer -> Prop) :
  wf P k d s -> (forall s', wf P k d s' -> keeps s s' -> errors s' <> [] -> Q tt s') ->
  lowers (push_error_at message span) s Q.
Proof.
  intros Hw HQ. unfold push_error_at. apply lowers_bind, lowers_error_at. intros e.
  by eapply lowers_push_error.
Qed.

(** An error and an [Invalid] instruction. *)
Lemma lowers_error_inst P k d message span b s (Q : InstructionRef -> Lowerer -> Prop) :
  wf P k d s -> (0 < k)%nat ->
  (forall r s', wf P (k - 1) d s' -> keeps s s' -> ref_ok s' r -> Q r s') ->
  lowers (push_error_at message span ;; inst b Vuir.Invalid) s Q.
Proof.
  intros Hw Hk HQ. apply lowers_bind. eapply lowers_push_error_at; [done|]. intros s1 Hw1 K1 He.
  eapply lowers_inst; [done|done|by split; simpl|done|]. intros. apply HQ; [done|by etrans|done].
Qed.

End Steps.

(** Arithmetic on the room that is left. *)
Ltac room :=
  first
    [ lia
    | lazymatch goal with
      | H : context [LowerLogic.W ?D] |- _ => pose proof (LowerLogic.W_ge D); lia
      | |- context [LowerLogic.W ?D] => pose proof (LowerLogic.W_ge D); lia
      end ].

Ltac solve_ctx :=
  first [ eassumption | apply ctx_ok_none | apply ctx_ok_address
        | apply ctx_ok_coerce; first [ eassumption | exact I ]
        | by (apply Forall_singleton) ].

(** Every operand is known. *)
Ltac known :=
  repeat first
    [ apply Forall_nil_2
    | apply Forall_cons_2
    | apply Forall_app_2
    | eassumption
    | exact I ].
Ltac solve_emit := split; simpl; first [ done | solve [ known ] | solve [ auto ] ].

Ltac value i :=
  eapply lowers_intern;
  [ eassumption | room | done | first [ done | eassumption ]
  | let s' := fresh "s" in let Hw := fresh "Hw" in let K := fresh "K" in intros i s' Hw K; adv K ].

(** A placeholder, and filling it in.  What is known about the past of the state
    waits until then. *)
Definition later (A : Prop) : Prop := A.
Lemma later_keeps `{SL : SettingLaws} x s s' : keeps s s' -> later (keeps x s) -> keeps x s'.
Proof. apply keeps_keeps. Qed.
Lemma later_grows `{SL : SettingLaws} x s s' : keeps s s' -> later (grows x s) -> grows x s'.
Proof. intros [G _]. by apply grows_grows. Qed.

Ltac hole t i :=
  lazymatch goal with
  | |- lowers _ ?s _ =>
      repeat match goal with
        | H : keeps ?x s |- _ => change (later (keeps x s)) in H
        | H : grows ?x s |- _ => change (later (grows x s)) in H
        end;
      let K0 := fresh "KH" in assert (K0 : keeps s s) by reflexivity;
      eapply (lowers_placeholder _ t);
      [ eassumption | room
      | let s' := fresh "s" in let Hw := fresh "Hw" in let K := fresh "K" in let Hk := fresh "Hkind" in
        let Hm := fresh "Hm" in let Hn := fresh "Hnone" in let Hi := fresh "Hi" in let Hid := fresh "Hid" in
        let Hf := fresh "Hfresh" in
        intros i s' Hw K Hk Hm Hn Hi Hid;
        pose proof (not_below _ _ Hi) as Hf;
        repeat match goal with H : kind_at _ s _ = Some _ |- _ => apply Hm in H end;
        repeat match goal with
          | H : ref_ok s ?r |- _ => lazymatch goal with _ : ref_below (Z.to_nat i) r |- _ => fail | _ => pose proof (below_ref _ _ _ Hi H) end
          | H : Forall (ref_ok s) ?l |- _ => lazymatch goal with _ : Forall (ref_below (Z.to_nat i)) l |- _ => fail | _ => pose proof (below_refs _ _ _ Hi H) end
          end;
        clear Hm Hi; adv K ]
  end.

Ltac fil Hf K :=
  lazymatch type of Hf with
  | ?s' = filled _ _ ?s =>
      repeat match goal with
        | H : ref_ok s _ |- _ => apply (count_ref _ _ _ (fill_count _ _ _ _ Hf)) in H
        | H : id_ok s _ |- _ => apply (count_id _ _ _ (fill_count _ _ _ _ Hf)) in H
        | H : Forall (ref_ok s) _ |- _ => apply (count_refs _ _ _ (fill_count _ _ _ _ Hf)) in H
        | H : Forall (id_ok s) _ |- _ => apply (count_ids _ _ _ (fill_count _ _ _ _ Hf)) in H
        | H : ctx_ok s _ |- _ => apply (count_refs _ _ _ (fill_count _ _ _ _ Hf)) in H
        | H : scope_in s _ |- _ => apply (fill_scope _ _ _ _ _ Hf) in H
        | H : block_in s _ |- _ => apply (fill_block _ _ _ _ _ Hf) in H
        | H : namespace_in s _ |- _ => apply (fill_namespace _ _ _ _ _ Hf) in H
        | H : flag_in s _ |- _ => apply (fill_flag _ _ _ _ _ Hf) in H
        | H : root_ok _ s |- _ => apply (fill_root _ _ _ _ _ Hf) in H
        end;
      repeat match goal with H : keeps _ s |- _ => clear H | H : grows _ s |- _ => clear H end;
      repeat match goal with
        | H : later (keeps _ _) |- _ => apply (later_keeps _ _ _ K) in H
        | H : later (grows _ _) |- _ => apply (later_grows _ _ _ K) in H
        end;
      clear K Hf
  end.

Ltac fill t :=
  lazymatch goal with
  | Hf : ~ id_ok ?s0 ?i |- lowers (set_inst ?i _) ?s _ =>
      lazymatch goal with
      | K0 : keeps s0 s, HP : _ !! i = None, Hi : id_ok s i |- _ =>
          eapply (lowers_set_inst _ t);
          [ eassumption | exact HP | exact Hi | reflexivity | discriminate
          | try (solve [simpl; known]) | try (solve [simpl; known]) | try (solve [simpl; known]) | exact I
          | exact K0 | exact Hf
          | let s' := fresh "s" in let Hs := fresh "Hs" in let Hw := fresh "Hw" in let K := fresh "K" in
            let Hid := fresh "Hid" in intros s' Hs Hw K Hid;
            repeat match goal with
              | H : kind_at (pend _ i _) s _ = Some _ |- _ => apply (fill_kind _ _ _ _ _ _ _ _ Hs HP Hi eq_refl) in H
              end;
            fil Hs K ]
      end
  end.

Ltac forget_wf s := repeat match goal with H : LowerLogic.wf _ _ _ _ s |- _ => clear H end.

(** A recursive call, an instruction, a placeholder. *)
Ltac call_with lem Hok r :=
  eapply lem;
  [ exact Hok | room | eassumption | eassumption | room | room | eassumption | solve_ctx | eassumption
  | let s' := fresh "s" in let Hw := fresh "Hw" in let K := fresh "K" in let Hr := fresh "Hr" in
    intros r s' Hw K Hr; lazymatch type of K with keeps ?s _ => adv K end ].
Ltac expr r := lazymatch goal with H : exprs_ok _ _ |- _ => call_with call_expr H r end.
Ltac named r := lazymatch goal with H : named_ok _ _ |- _ => call_with call_named H r end.
Ltac init r := lazymatch goal with H : named_ok _ _ |- _ => call_with call_init H r end.
Ltac emit i :=
  lazymatch goal with
  | |- lowers (inst_id _ _) _ _ => eapply lowers_inst_id
  | |- lowers (inst _ _) _ _ => eapply lowers_inst
  end;
  [ eassumption | room | solve_emit | first [ discriminate | done ]
  | let s' := fresh "s" in let Hw := fresh "Hw" in let K := fresh "K" in let Hi := fresh "Hi" in
    intros i s' Hw K Hi; adv K ].

End LowerSteps.
