(* ===== verification/LowerDeclSpec.v ===== *)
(** * The lowering of declarations

    Functions, variables, and the types with a namespace, given expressions
    that lower.

    The module [LowerStmtSpec] has the statements, [LowerDeclSpec] the declarations. *)

From S2P Require Import Prelude Words Bytes Span Token Diagnostic Ast HashIndex ShardedMap Anyint.
From S2P Require Import Value ValueStore Vuir SemaState SemaLogic LowerState Lower LowerSyntax.
From S2P Require Import LowerLogic LowerScopes LowerSteps.
From stdpp Require Import gmap.

#[local] Open Scope Z_scope.

Module LowerStmtSpec.
Import Ast IrId LowerState Lower LowerSyntax LowerLogic LowerScopes LowerSteps.

Section Stmts.
Context `{SL : SettingLaws, RC : !Rec}.
Context (D N : nat) (HE : exprs_ok D N) (HN : named_ok D N).
Implicit Types (s : Lowerer) (b : nat) (r : InstructionRef) (P : gmap Z Target) (k d : nat).
Abbreviation wf := (LowerLogic.wf D).
Abbreviation W := (LowerLogic.W D).

(** ** Comptime blocks *)

(** The body runs in the scope of the block; the block is its result. *)
Lemma lowers_wrap P k d b (f : nat -> M InstructionRef) n m s (Q : InstructionRef -> Lowerer -> Prop) :
  wf P k d s -> (n + 2 <= k)%nat -> scope_in s b ->
  (forall P' b' o (Q : InstructionRef -> Lowerer -> Prop),
     wf P' (k - 1) d o -> scope_in o b' -> (forall b0, scope_in s b0 -> scope_in o b0) ->
     (forall ctx, ctx_ok s ctx -> ctx_ok o ctx) -> (forall in_fn, root_ok in_fn s -> root_ok in_fn o) ->
     (forall r s', wf P' (k - 1 - n) (d - m) s' -> keeps o s' -> ref_ok s' r -> Q r s') ->
     lowers (f b') o Q) ->
  (forall r s', wf P (k - n - 2) (d - m) s' -> keeps s s' -> ref_ok s' r -> Q r s') ->
  lowers (wrap_in_comptime_block b f) s Q.
Proof.
  intros Hw Hk Hb Hf HQ. unfold wrap_in_comptime_block. assert (K0 : keeps s s) by done. steps.
  hole TComptime i. rename s0 into s1. assert (G1 : grows s s1) by (by apply keeps_grows). steps.
  eapply lowers_open; [eassumption|by apply scope_lt|done|]. intros o b' Ho Hb' Hwo Hbo Hso. opn Ho. steps.
  destruct (pushed_opened _ _ _ _ Ho) as [sc0 Hp].
  eapply (Hf _ b' o); [exact Hwo|done| | | |].
  { intros b0 Hb0. eapply open_scope; [exact Hp|]. by eapply scope_grows. }
  { intros ctx Hctx. eapply open_ctx; [exact Hp|]. by eapply ctx_grows. }
  { intros in_fn Hr. eapply open_root; [exact Hp|]. by eapply root_grows. }
  intros r s2 Hw2 K2 Hr. adv K2. steps.
  eapply lowers_inst_unless_never; [exact Hw2|lia|done|solve_emit|done|].
  intros s3 Hw3 K3. adv K3. steps.
  eapply lowers_close; [exact Ho|exact Hb'|eassumption|exact Hw3|done|]. intros l s4 Hw4 K4 Hc4 Hl _. cls Hc4 K4. steps.
  fill TComptime. steps. apply HQ; [|done|done]. eapply wf_le; [| |eassumption]; lia.
Qed.

(** ** Variables *)

(** What the lowering of a statement of size [n] promises, after the instruction
    for its line: the scope it gives is one to lower the next statement in. *)
Definition stmt_spec (in_fn : bool) (n : nat) (m : nat -> M (InstructionRef * nat)) : Prop :=
  forall P k d b s (Q : InstructionRef * nat -> Lowerer -> Prop),
    wf P k d s -> (W * n <= k + 1)%nat -> (n <= d)%nat -> scope_in s b -> root_ok in_fn s ->
    (forall r b' s', wf P (k + 1 - W * n) (d - n) s' -> grows s s' -> scope_in s' b' -> Q (r, b') s') ->
    lowers (m b) s Q.

Lemma scope_pushed sc s s' :
  s' = set_scopes (scopes s ++ [sc]) s -> (if sc is Scope_Namespace _ then False else True) ->
  scope_in s' (length (scopes s)).
Proof.
  intros -> Hsc. exists sc. unfold is_namespace. simpl. rewrite lookup_app_r, Nat.sub_diag by lia. split; [done|].
  by destruct sc.
Qed.

(** The allocation of a variable, and the context its value is lowered in. *)
Lemma lowers_alloc P k d in_fn b (name : Ident) ty (val : Expr) (is_comptime is_mutable : bool) s
    (Q : InstructionId * ExprContext -> Lowerer -> Prop) :
  wf P k d s -> (W * opt_size size_expr ty + 8 <= k)%nat -> (opt_size size_expr ty <= d)%nat ->
  (opt_size size_expr ty <= N)%nat -> opt_all (supported_expr in_fn) ty = true ->
  scope_in s b -> root_ok in_fn s ->
  (forall var ctx s', wf P (k - W * opt_size size_expr ty - 8) (d - opt_size size_expr ty) s' -> keeps s s' ->
     id_ok s' var -> ctx_ok s' ctx -> Q (var, ctx) s') ->
  lowers (match ty with
    | Some ty =>
        ty ← wrap_in_comptime_block b (fun _ => lower_expr b ty ctx_none);
        var ← inst_id b
          match is_comptime, is_mutable with
          | false, false => Vuir.StackAlloc name ty (Ident.span name)
          | false, true => Vuir.StackAllocMut name ty (Ident.span name)
          | true, false => Vuir.StackAllocComptime name ty (Ident.span name)
          | true, true => Vuir.StackAllocComptimeMut name ty (Ident.span name)
          end;
        mret (var, mk_ctx (StoreToPtr (Instruction var) (expr_span val)) NoContext)
    | None =>
        var ← inst_id b
          match is_comptime, is_mutable with
          | false, false => Vuir.StackAllocInferred name (Ident.span name)
          | false, true => Vuir.StackAllocInferredMut name (Ident.span name)
          | true, false => Vuir.StackAllocInferredComptime name (Ident.span name)
          | true, true => Vuir.StackAllocInferredComptimeMut name (Ident.span name)
          end;
        mret (var, mk_ctx (StoreToInferredPtr (Instruction var) (expr_span val)) NoContext)
    end) s Q.
Proof.
  intros Hw Hk Hd Hn Hsup Hb Hroot HQ. assert (K0 : keeps s s) by done. destruct ty as [ty|]; cbn [opt_size opt_all] in *.
  - steps. eapply (lowers_wrap P k d b _ (W * size_expr ty) (size_expr ty) s); [exact Hw|lia|done| |].
    { intros P' b' o Q' Hwo Hso Hscopes Hctx Hroots HQ'.
      eapply call_expr; [exact HE|exact Hn|exact Hsup|exact Hwo|lia|lia|by apply Hscopes|apply ctx_ok_none|by apply Hroots|].
      intros r s' Hw' K' Hr'. apply HQ'; [|done|done]. eapply wf_le; [| |exact Hw']; lia. }
    intros r s1 Hw1 K1 Hr. adv K1. steps. destruct is_comptime, is_mutable; emit var; steps; apply HQ; try done;
      (eapply wf_le; [| |eassumption]; lia) || (by apply Forall_singleton).
  - steps. destruct is_comptime, is_mutable; emit var; steps; apply HQ; try done;
      (eapply wf_le; [| |eassumption]; lia) || (by apply Forall_singleton).
Qed.

Lemma lowers_var_binding in_fn binding is_comptime is_mutable :
  (size_binding binding <= N)%nat -> supported_binding in_fn binding = true ->
  stmt_spec in_fn (size_binding binding) (fun b => lower_var_binding b binding is_comptime is_mutable).
Proof.
  destruct binding as [id name ty val]. cbn [size_binding supported_binding]. intros Hn [Hty Hval]%andb_true_iff.
  intros P k d b s Q Hw Hk Hd Hb Hroot HQ. unfold lower_var_binding. assert (K0 : keeps s s) by done. steps.
  eapply lowers_alloc; [exact Hw|room|room|room|exact Hty|done|done|].
  intros var ctx s1 Hw1 K1 Hvar Hctx. adv K1. steps.
  set (n := (W * opt_size size_expr ty)%nat) in *.
  eapply (lowers_mono _ _ (fun _ s2 => wf P (k - n - 10 - W * size_expr val) (d - opt_size size_expr ty - size_expr val) s2 /\ keeps s1 s2)).
  { destruct is_comptime.
    - eapply (lowers_wrap P _ _ b _ (W * size_expr val) (size_expr val)); [exact Hw1|room|done| |].
      + intros P' b' o Q' Hwo Hso Hscopes Hc Hr HQ'.
        eapply call_named; [exact HN|room|exact Hval|exact Hwo|room|room|done|by apply Hc|by apply Hr|]. auto.
      + intros r s2 Hw2 K2 _. split; [|done]. eapply wf_le; [| |exact Hw2]; lia.
    - eapply call_named; [exact HN|room|exact Hval|exact Hw1|room|room|done|done|done|].
      intros r s2 Hw2 K2 _. split; [|done]. eapply wf_le; [| |exact Hw2]; lia. }
  intros _ s2 [Hw2 K2]. adv K2. steps.
  eapply (lowers_mono _ _ (fun var s3 => wf P (k - n - 11 - W * size_expr val) (d - opt_size size_expr ty - size_expr val) s3 /\ keeps s2 s3 /\ id_ok s3 var)).
  { assert (Hsame : wf P (k - n - 11 - W * size_expr val) (d - opt_size size_expr ty - size_expr val) s2).
    { eapply wf_le; [| |exact Hw2]; lia. }
    unfold ctx_ok in Hctx. destruct (result_location ctx) as [|r|r sp|ptr sp|]; try (destruct is_mutable;
      [eapply lowers_inst_id; [exact Hw2|room|solve_emit|done|];
         intros i s3 Hw3 K3 Hi; split_and!; [eapply wf_le; [| |exact Hw3]; lia|done|done]
      |steps; done]).
    eapply lowers_inst_id; [exact Hw2|room| |done|].
    - solve_emit.
    - intros i s3 Hw3 K3 Hi; split_and!; [eapply wf_le; [| |exact Hw3]; lia|done|done]. }
  intros v s3 (Hw3 & K3 & Hv). adv K3. steps.
  eapply lowers_push_scope; [exact Hw3|done| |apply Nat.le_refl|].
  { split; [intros ? [= <-]; by apply scope_lt|done]. }
  intros s4 Hw4 G4 Hs4 _. pose proof (scope_pushed _ _ _ Hs4 I) as Hb4. adv G4. steps. apply HQ; [|done|done].
  eapply wf_le; [| |exact Hw4]; subst n; room.
Qed.

(** ** Leaving and repeating *)

Lemma lowers_return in_fn value span :
  (opt_size size_expr value <= N)%nat -> in_fn = true -> opt_all (supported_expr in_fn) value = true ->
  stmt_spec in_fn (S (opt_size size_expr value)) (fun b => lower_return b value span).
Proof.
  intros Hn Hin Hsup P k d b s Q Hw Hk Hd Hb Hroot HQ. unfold lower_return. assert (K0 : keeps s s) by done. steps.
  set (n := opt_size size_expr value) in *.
  eapply (lowers_mono _ _ (fun o s1 => wf P (k - W * n - 2) (d - n) s1 /\ keeps s s1 /\ Forall (ref_ok s1) (of_opt (fun x => [x]) o))).
  { subst n. destruct value as [e|]; cbn [opt opt_size opt_all] in *; steps.
    - emit ty. steps. expr v. emit i. steps. split_and!; [|done|by apply Forall_singleton].
      eapply wf_le; [| |eassumption]; room.
    - split_and!; [|done|constructor]. eapply wf_le; [| |exact Hw]; lia. }
  intros o s1 (Hw1 & K1 & Ho). adv K1. steps. destruct (Hroot Hin) as [root Hr]. rewrite Hr.
  eapply lowers_lift; [done|]. steps. eapply lowers_append_defers; [exact Hw1|by apply scope_lt|room|].
  intros s2 Hw2 K2. adv K2. steps. emit i. steps. apply HQ; [|by apply keeps_grows|done].
  eapply wf_le; [| |eassumption]; room.
Qed.

Lemma break_target_ok P k d label s r :
  wf P k d s -> (exists i sc, scopes s !! i = Some sc /\ break_target label sc = Some r) ->
  exists j, r = Instruction j /\ (kind_at P s j = Some TBlock \/ kind_at P s j = Some TLoop).
Proof.
  intros Hw (i & sc & Hi & Hb). apply (wf_scopes _ _ _ _ _ Hw) in Hi as [_ Hok].
  destruct sc as [| | |blk|]; try done. simpl in *. destruct Hok as [_ Hk].
  destruct (kind blk) as [|x l|x|x l]; try done; simpl in Hk; destruct Hk as (j & -> & Hk).
  - destruct (same_label label l) eqn:Hl; simplify_eq. exists j. split; [done|]. left. apply Hk.
    unfold same_label in Hl. by destruct label, l.
  - destruct (is_none label || same_label label l); simplify_eq. eauto.
Qed.

Lemma lowers_break in_fn label value span :
  (opt_size size_expr value <= N)%nat -> opt_all (supported_expr in_fn) value = true ->
  stmt_spec in_fn (S (opt_size size_expr value)) (fun b => lower_break b label value span).
Proof.
  intros Hn Hsup P k d b s Q Hw Hk Hd Hb Hroot HQ. unfold lower_break. assert (K0 : keeps s s) by done. steps.
  eapply (lowers_find D P k d (fun _ => break_target label)); [exact Hw|by apply scope_lt|].
  intros [r|] Ho.
  - destruct (break_target_ok _ _ _ _ _ _ Hw (Ho r eq_refl)) as (j & -> & Hj). steps. set (n := opt_size size_expr value) in *.
    eapply (lowers_mono _ _ (fun v s1 => wf P (k - W * n) (d - n) s1 /\ keeps s s1 /\ ref_ok s1 v.1)).
    { subst n. destruct value as [e|]; cbn [opt_size opt_all] in *; steps.
      - expr v. steps. split_and!; [|done|done]. eapply wf_le; [| |eassumption]; room.
      - split_and!; [|done|done]. eapply wf_le; [| |exact Hw]; lia. }
    intros [v sp] s1 (Hw1 & K1 & Hv). simpl in Hv.
    assert (Hj1 : kind_at P s1 j = Some TBlock \/ kind_at P s1 j = Some TLoop).
    { pose proof (keeps_grows _ _ K1). destruct Hj; [left|right]; by eapply kind_grows. }
    adv K1. steps. eapply lowers_lift; [done|]. steps. emit i. steps. apply HQ; [|by apply keeps_grows|done].
    eapply wf_le; [| |eassumption]; room.
  - steps. eapply lowers_push_error_at; [exact Hw|]. intros s1 Hw1 K1 He. adv K1. steps. emit i. steps.
    apply HQ; [|by apply keeps_grows|done]. eapply wf_le; [| |eassumption]; room.
Qed.

Lemma lowers_continue in_fn label span : stmt_spec in_fn 1 (fun b => lower_continue b label span).
Proof.
  intros P k d b s Q Hw Hk Hd Hb Hroot HQ. unfold lower_continue. assert (K0 : keeps s s) by done. steps.
  eapply (lowers_find D P k d (fun i => continue_target label i)); [exact Hw|by apply scope_lt|].
  intros o Ho. steps.
  eapply (lowers_mono _ _ (fun i s1 => wf P (k - 1) d s1 /\ keeps s s1)).
  2:{ intros i s1 [Hw1 K1]. adv K1. steps. apply HQ; [|by apply keeps_grows|done]. eapply wf_le; [| |exact Hw1]; room. }
  destruct o as [[c r|l]|].
  - destruct (Ho _ eq_refl) as (j & sc & Hj & Hc). apply (wf_scopes _ _ _ _ _ Hw) in Hj as [_ Hok].
    destruct sc as [| | |blk|]; try done. simpl in *. destruct Hok as [_ Hkd].
    destruct (kind blk) as [|x [l|]|x|x l]; try done; simpl in *; try (destruct (same_label _ _); done).
    destruct (is_none label || same_label label l); simplify_eq. destruct Hkd as (i & -> & Hi).
    steps. eapply lowers_lift; [done|]. emit rep. done.
  - steps. eapply lowers_push_error; [exact Hw|]. intros s1 Hw1 K1 He. adv K1. emit i. done.
  - steps. eapply lowers_push_error_at; [exact Hw|]. intros s1 Hw1 K1 He. adv K1. emit i. done.
Qed.

Lemma compound_opcode_emit P s op f x y span :
  compound_opcode op = Some f -> ref_ok s x -> ref_ok s y -> emit_ok P s (f x y span) /\ f x y span <> Vuir.Invalid.
Proof.
  intros Hf Hx Hy. destruct op; simpl in Hf; simplify_eq; (split; [solve_emit|discriminate]).
Qed.

Lemma lowers_assign in_fn lhs op rhs span :
  (size_expr lhs + size_expr rhs <= N)%nat -> supported_expr in_fn lhs = true -> supported_expr in_fn rhs = true ->
  stmt_spec in_fn (S (size_expr lhs + size_expr rhs)) (fun b => lower_assign b lhs op rhs span).
Proof.
  intros Hn Hl Hr P k d b s Q Hw Hk Hd Hb Hroot HQ. unfold lower_assign. assert (K0 : keeps s s) by done. steps.
  expr addr. rename s0 into s1. steps.
  eapply (lowers_mono _ _ (fun i s2 =>
    wf P (k - W * size_expr lhs - W * size_expr rhs - 3) (d - size_expr lhs - size_expr rhs) s2 /\ keeps s1 s2)).
  2:{ intros i s2 [Hw2 K2]. adv K2. steps. apply HQ; [|by apply keeps_grows|done]. eapply wf_le; [| |exact Hw2]; room. }
  assert (K1 : keeps s1 s1) by done.
  assert (Hop : op = AssignOp.Assign \/ exists f, compound_opcode op = Some f) by (destruct op; simpl; eauto).
  destruct Hop as [->|[f Hf]].
  - eapply call_expr; [exact HE|room|exact Hr|exact Hw0|room|room|done|by apply Forall_singleton|done|].
    intros r s2 Hw2 K2 _. split; [|done]. eapply wf_le; [| |exact Hw2]; lia.
  - enough (Hgoal : lowers (lhs_val ← inst b (Vuir.Load addr (expr_span lhs));
      rhs_val ← lower_expr b rhs ctx_none;
      result ← inst b (f lhs_val rhs_val span);
      inst b (Vuir.Store addr result span)) s1 (fun (_ : InstructionRef) s2 =>
        wf P (k - W * size_expr lhs - W * size_expr rhs - 3) (d - size_expr lhs - size_expr rhs) s2 /\ keeps s1 s2)).
    { destruct op; simpl in Hf; simplify_eq; exact Hgoal. }
    steps. emit v. steps. expr rv. steps.
    destruct (compound_opcode_emit P s2 op f (Instruction v) rv span Hf) as [He Hv]; [done|done|].
    eapply lowers_inst; [done|room|exact He|done|]. intros res s3 Hw3 K3 Hres. adv K3. steps. emit st.
    split; [|done]. eapply wf_le; [| |eassumption]; room.
Qed.

Lemma lowers_defer in_fn e span :
  (size_expr e <= N)%nat -> supported_expr in_fn e = true ->
  stmt_spec in_fn (S (size_expr e)) (fun b => lower_defer b e span).
Proof.
  intros Hn Hs P k d b s Q Hw Hk Hd Hb Hroot HQ. unfold lower_defer. assert (K0 : keeps s s) by done. steps.
  eapply lowers_open; [exact Hw|by apply scope_lt|done|]. intros o b' Ho Hb' Hwo Hbo Hso. opn Ho. steps.
  expr r. steps.
  eapply lowers_close; [exact Ho|exact Hb'|exact Hw|eassumption|done|].
  intros l s2 Hw2 K2 Hc2 Hl _. cls Hc2 K2. steps.
  eapply (lowers_push_scope D P _ _ (d - S (size_expr e))%nat); [exact Hw2|done| |simpl; unfold defers; simpl; lia|].
  { split; [intros ? [= <-]; by apply scope_lt|done]. }
  intros s3 Hw3 G3 Hs3 _. pose proof (scope_pushed _ _ _ Hs3 I) as Hb3. adv G3. steps. apply HQ; [|done|done].
  eapply wf_le; [| |exact Hw3]; room.
Qed.

(** ** Blocks *)

Lemma lowers_stmt in_fn stmt :
  (size_stmt stmt <= N)%nat -> supported_stmt in_fn stmt = true ->
  forall P k d b s (Q : InstructionRef * nat -> Lowerer -> Prop),
    wf P k d s -> (W * size_stmt stmt <= k)%nat -> (size_stmt stmt <= d)%nat -> scope_in s b -> root_ok in_fn s ->
    (forall r b' s', wf P (k - W * size_stmt stmt) (d - size_stmt stmt) s' -> grows s s' -> scope_in s' b' ->
       Q (r, b') s') ->
    lowers (lower_stmt b stmt) s Q.
Proof.
  intros Hn Hs P k d b s Q Hw Hk Hd Hb Hroot HQ. unfold lower_stmt. assert (K0 : keeps s s) by done.
  destruct stmt as [id kind span]. cbn [size_stmt supported_stmt] in *. steps.
  eapply lowers_line_col; [exact Hw|]. intros line col. steps.
  eapply lowers_inst; [exact Hw|destruct kind; room|solve_emit|done|]. intros i s1 Hw1 K1 _. adv K1.
  assert (Hgo : forall n m, stmt_spec in_fn n m -> (W * n <= k)%nat -> (n <= d)%nat ->
      (0 < k)%nat ->
      (forall r b' s', wf P (k - W * n) (d - n) s' -> grows s s' -> scope_in s' b' -> Q (r, b') s') ->
      lowers (m b) s1 Q).
  { intros n m Hm Hkn Hdn Hk0 HQ'. eapply Hm; [exact Hw1|lia|lia|done|done|]. intros r b' s2 Hw2 G2 Hb2.
    apply HQ'; [|by etrans; [apply keeps_grows|]|done]. eapply wf_le; [| |exact Hw2]; lia. }
  destruct kind as [e|bd|bd|bd|value|e|e|lhs op rhs|label value|label value]; cbn [size_stmt supported_stmt] in *.
  - steps. expr r. steps. apply HQ; [|by apply keeps_grows|done]. eapply wf_le; [| |eassumption]; room.
  - eapply (Hgo _ (fun b => lower_var_binding b bd false true)); [apply lowers_var_binding; [lia|done]|room..|].
    intros r b' s' Hw'. apply HQ. eapply wf_le; [| |exact Hw']; room.
  - eapply (Hgo _ (fun b => lower_var_binding b bd false false)); [apply lowers_var_binding; [lia|done]|room..|].
    intros r b' s' Hw'. apply HQ. eapply wf_le; [| |exact Hw']; room.
  - eapply (Hgo _ (fun b => lower_var_binding b bd true true)); [apply lowers_var_binding; [lia|done]|room..|].
    intros r b' s' Hw'. apply HQ. eapply wf_le; [| |exact Hw']; room.
  - apply andb_true_iff in Hs as [Hin Hs].
    eapply (Hgo _ (fun b => lower_return b value span)); [apply (lowers_return in_fn); [lia|done..]|room..|exact HQ].
  - eapply (Hgo _ (fun b => lower_defer b e span)); [apply (lowers_defer in_fn); [lia|done]|room..|exact HQ].
  - done.
  - apply andb_true_iff in Hs as [Hl Hr].
    eapply (Hgo _ (fun b => lower_assign b lhs op rhs span)); [apply (lowers_assign in_fn); [lia|done..]|room..|exact HQ].
  - eapply (Hgo _ (fun b => lower_break b label value span)); [apply (lowers_break in_fn); [lia|done]|room..|exact HQ].
  - eapply (Hgo _ (fun b => lower_continue b label span)); [apply lowers_continue|room..|exact HQ].
Qed.

Lemma lowers_stmts in_fn stmts P k d b s (Q : nat -> Lowerer -> Prop) :
  (sum size_stmt stmts <= N)%nat -> forallb (supported_stmt in_fn) stmts = true ->
  wf P k d s -> (W * sum size_stmt stmts <= k)%nat -> (sum size_stmt stmts <= d)%nat -> scope_in s b ->
  root_ok in_fn s ->
  (forall b' s', wf P (k - W * sum size_stmt stmts) (d - sum size_stmt stmts) s' -> grows s s' -> scope_in s' b' ->
     Q b' s') ->
  lowers (for_each (fun scope stmt => '(_, stmt_scope) ← lower_stmt scope stmt; mret stmt_scope) stmts b) s Q.
Proof.
  intros Hn Hs Hw Hk Hd Hb Hroot HQ.
  eapply (lowers_for_each_scopes D _ size_stmt (root_ok in_fn)); [exact Hw|done|done|done|done| | |exact HQ].
  { intros. by eapply root_grows. }
  clear HQ. intros x k0 d0 b0 s0 Q' Hx Hw0 Hk0 Hd0 Hb0 Hr0 HQ. steps.
  eapply (lowers_stmt in_fn x); [|by eapply forallb_elem|exact Hw0|done|done|done|done|].
  { pose proof (sum_elem size_stmt _ _ Hx). lia. }
  intros r b1 s1 Hw1 G1 Hb1. steps. by apply HQ.
Qed.

Lemma lowers_block in_fn block P k d b s (Q : unit -> Lowerer -> Prop) :
  (size_block block <= N)%nat -> supported_block in_fn block = true ->
  wf P k d s -> (W * size_block block <= k + 64)%nat -> (size_block block <= d)%nat -> scope_in s b -> root_ok in_fn s ->
  (forall s', wf P (k + 64 - W * size_block block) (d - size_block block) s' -> grows s s' -> Q tt s') ->
  lowers (lower_block b block) s Q.
Proof.
  destruct block as [id dq label stmts span]. cbn [size_block supported_block]. intros Hn Hs Hw Hk Hd Hb Hroot HQ.
  unfold lower_block. steps. eapply (lowers_stmts in_fn stmts); [lia|done|exact Hw|room|lia|done|done|].
  intros b1 s1 Hw1 G1 Hb1. eapply lowers_append_defers; [exact Hw1|by apply scope_lt|room|].
  intros s2 Hw2 K2. apply HQ; [|by etrans; [|apply keeps_grows]]. eapply wf_le; [| |exact Hw2]; room.
Qed.

End Stmts.
End LowerStmtSpec.

Module LowerDeclSpec.
Import Ast IrId LowerState Lower LowerSyntax LowerLogic LowerScopes LowerSteps LowerStmtSpec.

Section Decls.
Context `{SL : SettingLaws, RC : !Rec}.
Context (D N : nat) (HE : exprs_ok D N) (HN : named_ok D N).
Implicit Types (s : Lowerer) (b : nat) (r : InstructionRef) (P : gmap Z Target) (k d : nat).
Abbreviation wf := (LowerLogic.wf D).
Abbreviation W := (LowerLogic.W D).

(** ** Flags *)

Lemma wf_flags P k d v s :
  wf P k d s -> length v = length (flags s) -> wf P k d (set_flags v s) /\ keeps s (set_flags v s).
Proof.
  intros [Hst Hr Hi Hp Hu Hs Hl Hd] Hv. split; [split; try done|].
  - intros i sc Hsc. apply (scope_ok_mono P P s); [done|done|simpl; lia|done|by apply Hs].
  - split; [|done]. split; try done. exists (scopes s), []. rewrite app_nil_r. split_and!; [done|done|constructor].
Qed.

Lemma lowers_set_flag P k d flag v s (Q : unit -> Lowerer -> Prop) :
  wf P k d s -> (forall s', wf P k d s' -> keeps s s' -> Q tt s') -> lowers (set_flag flag v) s Q.
Proof.
  intros Hw HQ. apply lowers_bind, lowers_gets, lowers_modify.
  destruct (wf_flags P k d (<[flag:=v]> (flags s)) s Hw); [by rewrite length_insert|]. by apply HQ.
Qed.

Lemma lowers_get_flag flag s (Q : bool -> Lowerer -> Prop) :
  flag_in s flag -> (forall v, Q v s) -> lowers (get_flag flag) s Q.
Proof.
  intros [v Hv]%lookup_lt_is_Some_2 HQ. apply lowers_bind, lowers_gets. eapply lowers_lift; [|apply HQ].
  unfold get_idx. by rewrite Hv.
Qed.

(** A flag is pushed, and popped with the scopes of the function. *)
Lemma wf_flag_pushed P k d v s : wf P k d s -> wf P k d (set_flags (flags s ++ v) s).
Proof.
  intros [Hst Hr Hi Hp Hu Hs Hl Hd]. split; try done.
  intros i sc Hsc. apply (scope_ok_mono P P s); [done|done|simpl; rewrite length_app; lia|done|by apply Hs].
Qed.

Lemma wf_flag_popped P k d k0 d0 v s0 s :
  wf P k0 d0 s0 -> wf P k d s -> keeps (set_flags (flags s0 ++ v) s0) s ->
  let s' := set_flags (take (length (flags s0)) (flags s)) s in wf P k d s' /\ keeps s0 s'.
Proof.
  intros Hw0 [Hst Hr Hi Hp Hu Hs Hl Hd] [[GI GU (l & x & HS & Hsl & Hx) GE GR GF GL GV] Hlen]. simpl in *.
  rewrite length_app in GF. split; [split; try done|].
  - intros i sc Hsc. destruct (Hs i sc Hsc) as [Hpar Hok]. split; [done|].
    destruct sc as [| |p name node r flag| |]; try done. destruct Hok as [Hok _]. split; [done|].
    intros f Hf. simpl. rewrite length_take.
    assert (Hi0 : scopes s0 !! i = Some (Scope_LocalValue p name node r flag)).
    { simpl in Hsc. rewrite HS in Hsc, Hlen. rewrite length_app, <- (Forall2_length _ _ _ Hsl) in Hlen.
      destruct x; [|simpl in Hlen; lia]. rewrite app_nil_r in Hsc.
      destruct (Forall2_lookup_r _ _ _ _ _ Hsl Hsc) as (sc0 & Hsc0 & Hle). destruct sc0; simpl in Hle; try done; congruence. }
    apply (wf_scopes _ _ _ _ _ Hw0) in Hi0 as [_ [_ Hflag]]. specialize (Hflag f Hf). lia.
  - split; [|done]. split; try done; [by exists l, x|]. simpl. rewrite length_take. lia.
Qed.

(** ** Functions *)

Lemma lowers_fn_param flag in_fn param P k d b s (Q : nat -> Lowerer -> Prop) :
  (size_param param <= N)%nat -> supported_param in_fn param = true ->
  wf P k d s -> (W * size_param param <= k)%nat -> (size_param param <= d)%nat -> scope_in s b -> root_ok in_fn s ->
  flag_in s flag ->
  (forall b' s', wf P (k - W * size_param param) (d - size_param param) s' -> grows s s' -> scope_in s' b' -> Q b' s') ->
  lowers (lower_fn_param flag b param) s Q.
Proof.
  destruct param as [id comptime ident ty]. cbn [size_param supported_param]. intros Hn Hs Hw Hk Hd Hb Hroot Hflag HQ.
  unfold lower_fn_param. assert (K0 : keeps s s) by done. steps.
  eapply lowers_set_flag; [exact Hw|]. intros s1 Hw1 K1. adv K1. steps.
  hole TComptime i. steps.
  eapply lowers_open; [eassumption|by apply scope_lt|done|]. intros o b' Ho Hb' Hwo Hbo Hso. opn Ho. steps.
  expr ty_ref. steps. emit br. steps.
  eapply lowers_close; [exact Ho|exact Hb'|eassumption|eassumption|done|]. intros l s4 Hw4 K4 Hc4 Hl _. cls Hc4 K4. steps.
  eapply lowers_get_flag; [done|]. intros generic. steps. fill TComptime. steps.
  eapply lowers_push_scope; [eassumption|done| |apply Nat.le_refl|].
  { split; [intros ? [= <-]; by apply scope_lt|]. split; [done|]. by intros ? [= <-]. }
  intros s6 Hw6 G6 Hs6 _. pose proof (scope_pushed _ _ _ Hs6 I) as Hb6. adv G6. apply HQ; [|done|done].
  eapply wf_le; [| |exact Hw6]; room.
Qed.

Lemma lowers_params flag in_fn params P k d b s (Q : nat -> Lowerer -> Prop) :
  (sum size_param params <= N)%nat -> forallb (supported_param in_fn) params = true ->
  wf P k d s -> (W * sum size_param params <= k)%nat -> (sum size_param params <= d)%nat -> scope_in s b ->
  root_ok in_fn s -> flag_in s flag ->
  (forall b' s', wf P (k - W * sum size_param params) (d - sum size_param params) s' -> grows s s' ->
     scope_in s' b' -> Q b' s') ->
  lowers (for_each (lower_fn_param flag) params b) s Q.
Proof.
  intros Hn Hs Hw Hk Hd Hb Hroot Hflag HQ.
  eapply (lowers_for_each_scopes D _ size_param (fun s => root_ok in_fn s /\ flag_in s flag)); try done.
  { intros s1 s2 G [? ?]. split; [by eapply root_grows|by eapply flag_grows]. }
  clear HQ. intros x k0 d0 b0 s0 Q' Hx Hw0 Hk0 Hd0 Hb0 [Hr0 Hf0] HQ.
  eapply (lowers_fn_param flag in_fn x); try done; [|by eapply forallb_elem].
  pose proof (sum_elem size_param _ _ Hx). lia.
Qed.

(** The two blocks that compute a type: of the result, and of the calling convention. *)
Lemma lowers_ret_ty flag in_fn ret_ty P k d b s (Q : InstructionId * bool -> Lowerer -> Prop) :
  (size_expr ret_ty <= N)%nat -> supported_expr in_fn ret_ty = true ->
  wf P k d s -> (W * size_expr ret_ty + 4 <= k)%nat -> (size_expr ret_ty <= d)%nat -> scope_in s b -> root_ok in_fn s ->
  flag_in s flag ->
  (forall i generic s', wf P (k - W * size_expr ret_ty - 4) (d - size_expr ret_ty) s' -> keeps s s' -> id_ok s' i ->
     Q (i, generic) s') ->
  lowers (lower_ret_ty flag b ret_ty) s Q.
Proof.
  intros Hn Hs Hw Hk Hd Hb Hroot Hflag HQ. unfold lower_ret_ty. assert (K0 : keeps s s) by done. steps.
  eapply lowers_set_flag; [exact Hw|]. intros s1 Hw1 K1. adv K1. steps.
  hole TComptime i. steps.
  eapply lowers_open; [eassumption|by apply scope_lt|exists i; split; [done|]; by intros [? ?]|].
  intros o b' Ho Hb' Hwo Hbo Hso. opn Ho. steps.
  expr ty_ref. steps. emit br. steps.
  eapply lowers_close; [exact Ho|exact Hb'|eassumption|eassumption|done|]. intros l s4 Hw4 K4 Hc4 Hl _. cls Hc4 K4. steps.
  fill TComptime. steps. eapply lowers_get_flag; [done|]. intros generic. steps. apply HQ; [|done|done].
  eapply wf_le; [| |eassumption]; room.
Qed.

Lemma lowers_callconv in_fn e P k d b s (Q : InstructionId -> Lowerer -> Prop) :
  (size_expr e <= N)%nat -> supported_expr in_fn e = true ->
  wf P k d s -> (W * size_expr e + 4 <= k)%nat -> (size_expr e <= d)%nat -> scope_in s b -> root_ok in_fn s ->
  (forall i s', wf P (k - W * size_expr e - 4) (d - size_expr e) s' -> keeps s s' -> id_ok s' i -> Q i s') ->
  lowers (lower_callconv b e) s Q.
Proof.
  intros Hn Hs Hw Hk Hd Hb Hroot HQ. unfold lower_callconv. assert (K0 : keeps s s) by done. steps.
  hole TComptime i. steps.
  eapply lowers_open; [eassumption|by apply scope_lt|exists i; split; [done|]; by intros [? ?]|].
  intros o b' Ho Hb' Hwo Hbo Hso. opn Ho. steps. emit ty. steps.
  expr cc. steps. emit br. steps.
  eapply lowers_close; [exact Ho|exact Hb'|eassumption|eassumption|done|]. intros l s4 Hw4 K4 Hc4 Hl _. cls Hc4 K4. steps.
  fill TComptime. steps. apply HQ; [|done|done]. eapply wf_le; [| |eassumption]; room.
Qed.

(** The body of a function: [return] goes up to the scope of its parameters. *)
Lemma lowers_fn_body block P k d b s (Q : unit -> Lowerer -> Prop) :
  (size_block block <= N)%nat -> supported_block true block = true ->
  wf P k d s -> (W * size_block block <= k + 64)%nat -> (size_block block <= d)%nat -> scope_in s b ->
  (forall s', wf P (k + 64 - W * size_block block) (d - size_block block) s' -> grows s s' -> Q tt s') ->
  lowers (prev ← gets fn_body_root_scope; modify (set_fn_body_root_scope (Some b)) ;; lower_block b block ;;
          modify (set_fn_body_root_scope prev)) s Q.
Proof.
  intros Hn Hs Hw Hk Hd Hb HQ. steps.
  eapply (lowers_block D N HE HN true block P k d); [done|done|by destruct Hw|done|done|exact Hb|by eexists|].
  intros s2 Hw2 [GI GU GS GE GR GF GL GV]. steps. apply HQ; [by destruct Hw2|by split].
Qed.

Lemma lowers_between P k d start stop s s1 s2 (Q : list InstructionId -> Lowerer -> Prop) :
  wf P k d s -> start = length (uir_scopes_instructions s1) -> stop = length (uir_scopes_instructions s2) ->
  grows s1 s2 -> grows s2 s -> (forall l, Forall (id_ok s) l -> Q l s) ->
  lowers (instructions_between start stop) s Q.
Proof.
  intros Hw -> -> G1 G2 HQ.
  pose proof (prefix_length _ _ (grows_uir _ _ G1)). pose proof (prefix_length _ _ (grows_uir _ _ G2)).
  apply lowers_bind, lowers_gets. eapply lowers_lift; [unfold slice; by rewrite decide_True by lia|].
  apply HQ. apply Forall_take, Forall_drop, (wf_uir _ _ _ _ _ Hw).
Qed.

Definition parts_ok s (parts : FnParts) : Prop :=
  Forall (id_ok s) (fp_ret_ty parts :: fp_params parts ++ fp_body parts ++ of_opt (fun i => [i]) (fp_callconv parts)).

Lemma lowers_fn_parts in_fn f P k d b s (Q : FnParts -> Lowerer -> Prop) :
  (size_fn f <= N)%nat -> supported_fn in_fn f = true ->
  wf P k d s -> (W * size_fn f <= k + 32)%nat -> (size_fn f <= d)%nat -> scope_in s b -> root_ok in_fn s ->
  (forall parts s', wf P (k + 32 - W * size_fn f) (d - size_fn f) s' -> keeps s s' -> parts_ok s' parts -> Q parts s') ->
  lowers (lower_fn_parts b f) s Q.
Proof.
  destruct f as [ident pub inline ext callconv variadic params ret_ty block]. cbn [size_fn supported_fn].
  intros Hn [[[Hsc Hsp]%andb_true_iff Hsr]%andb_true_iff Hsb]%andb_true_iff Hw Hk Hd Hb Hroot HQ. unfold lower_fn_parts.
  set (sf := set_flags (flags s ++ [false]) s). pose proof (wf_flag_pushed _ _ _ [false] _ Hw) as Hwf. fold sf in Hwf.
  assert (Hrf : root_ok in_fn sf) by done. assert (Hbf : scope_in sf b) by done.
  unfold instructions_len. steps.
  apply (lowers_mono _ _ (fun b' o => b' = length (scopes s) /\ o = opened b BlockKind.Body s)).
  { by eexists _, _. }
  intros b' o [Hb' Ho]. steps.
  replace (set_flags (flags o ++ [false]) o) with (opened b BlockKind.Body sf) by (by rewrite Ho).
  replace (length (flags o)) with (length (flags s)) by (by rewrite Ho).
  replace (uir_scopes_instructions o) with (uir_scopes_instructions (opened b BlockKind.Body sf)) by (by rewrite Ho).
  clear o Ho. remember (opened b BlockKind.Body sf) as o eqn:Ho.
  assert (Hwo : wf P k d o).
  { rewrite Ho. eapply wf_pushed; [exact Hwf| |done]. split; [intros ? [= <-]; by apply scope_lt|done]. }
  assert (Hbo : scope_in o b') by (rewrite Hb', Ho; apply block_in_scope, (block_opened _ _ sf)).
  opn Ho. pose proof (open_root _ _ _ in_fn Ho Hrf) as Hro.
  assert (Hflag : flag_in o (length (flags s))) by (rewrite Ho; unfold flag_in; simpl; rewrite length_app; simpl; lia).
  eapply (lowers_params _ in_fn); [|exact Hsp|exact Hwo|room..|done|done|done|]. { lia. }
  intros b1 s1 Hw1 G1 Hb1. adv G1. assert (GA : grows s1 s1) by done.
  assert (G01 : later (grows o s1)) by done. steps.
  eapply (lowers_ret_ty _ in_fn); [|exact Hsr|exact Hw1|room..|done|done|done|]. { lia. }
  intros ret generic s2 Hw2 K2 Hret. adv K2. steps.
  set (kp := (W * sum size_param params + W * size_expr ret_ty + 4)%nat) in *.
  set (dp := (sum size_param params + size_expr ret_ty)%nat) in *.
  eapply (lowers_mono _ _ (fun o s3 => wf P (k - kp - W * opt_size size_expr callconv - 4) (d - dp - opt_size size_expr callconv) s3 /\
    keeps s2 s3 /\ Forall (id_ok s3) (of_opt (fun i => [i]) o))).
  { destruct callconv as [cc|]; cbn [opt opt_size opt_all] in *; steps.
    - eapply (lowers_callconv in_fn); [lia|exact Hsc|exact Hw2|room|lia|done|done|]. intros i s3 Hw3 K3 Hi. steps.
      split_and!; [|done|by constructor]. eapply wf_le; [| |exact Hw3]; subst kp dp; lia.
    - split_and!; [|done|constructor]. eapply wf_le; [| |exact Hw2]; subst kp dp; lia. }
  intros cc s3 (Hw3 & K3 & Hcc). adv K3. assert (GB : grows s3 s3) by done. steps.
  set (kc := (W * opt_size size_expr callconv)%nat) in *.
  eapply (lowers_mono _ _ (fun _ s4 => wf P (k + 32 - W * size_fn (mkFn ident pub inline ext callconv variadic params ret_ty block))
     (d - dp - opt_size size_expr callconv - opt_size size_block block) s4 /\ grows s3 s4)).
  { cbn [size_fn]. destruct block as [block|]; cbn [opt opt_size opt_all] in *; apply lowers_bind || steps.
    - eapply lowers_fn_body; [lia|exact Hsb|exact Hw3|subst kp kc; room|subst dp; lia|done|].
      intros s4 Hw4 G4. steps. split; [|done]. eapply wf_le; [| |exact Hw4]; subst kp kc dp; room.
    - split; [|done]. eapply wf_le; [| |exact Hw3]; subst kp kc dp; room. }
  intros _ s4 [Hw4 G4]. assert (GC : grows s4 s4) by done. pose proof (G4 : later (grows s3 s4)) as G34. adv G4. steps.
  eapply lowers_between; [exact Hw4|done|done|exact G01|exact GA|]. intros ps Hps. steps.
  eapply lowers_between; [exact Hw4|done|done|exact G34|done|]. intros body Hbody. steps.
  eapply lowers_discard; [exact Ho|exact Hb'|exact Hwf|exact Hw4|done|]. intros s5 Hw5 K5 Hc5 _. pose proof (K5 : later (keeps sf s5)) as K0.
  cls Hc5 K5. steps.
  destruct (wf_flag_popped P _ _ _ _ [false] s s5 Hw Hw5 K0) as [Hw6 K6]. apply HQ; [|done|].
  - eapply wf_le; [| |exact Hw6]; [done|subst dp; cbn [size_fn]; lia].
  - unfold parts_ok. simpl. known.
Qed.

Lemma lowers_builtin_of P k d ident s (Q : option Vuir.BuiltinKind -> Lowerer -> Prop) :
  wf P k d s -> (forall o s', wf P k d s' -> keeps s s' -> Q o s') -> lowers (builtin_of ident) s Q.
Proof.
  intros Hw HQ. unfold builtin_of. destruct (list_find _ _) as [[? [? ?]]|]; [by apply lowers_mret, HQ|].
  destruct (starts_with_at _); [|by apply lowers_mret, HQ]. steps. apply lowers_error_at. intros e. steps.
  eapply lowers_push_error; [exact Hw|]. intros s' Hw' K' _. steps. by apply HQ.
Qed.

(** ** Items *)

(** What the lowering of an item of size [n] promises. *)
Definition item_spec (in_fn : bool) (n : nat) (m : nat -> M InstructionId) : Prop :=
  forall P k d b s (Q : InstructionId -> Lowerer -> Prop),
    wf P k d s -> (W * n <= k)%nat -> (n <= d)%nat -> scope_in s b -> root_ok in_fn s ->
    (forall i s', wf P (k - W * n) (d - n) s' -> keeps s s' -> id_ok s' i -> Q i s') ->
    lowers (m b) s Q.

Lemma lowers_associated_fn in_fn f :
  (size_fn f <= N)%nat -> supported_fn in_fn f = true ->
  item_spec in_fn (size_fn f) (fun b => lower_associated_fn b f).
Proof.
  intros Hn Hs P k d b s Q Hw Hk Hd Hb Hroot HQ. unfold lower_associated_fn. assert (K0 : keeps s s) by done.
  assert (Hpos : (W * 1 <= W * size_fn f)%nat) by (apply Nat.mul_le_mono_l; destruct f; simpl; lia).
  destruct f as [ident ext inline comptime callconv variadic params ret_ty block] eqn:Hf.
  rewrite <- Hf in *. steps.
  hole TComptime decl. steps.
  eapply (lowers_fn_parts in_fn f); [done|done|eassumption|room|done|done|done|]. intros parts s2 Hw2 K2 Hparts. adv K2.
  unfold parts_ok in Hparts. apply Forall_cons in Hparts as [Hret Hparts].
  apply Forall_app in Hparts as [Hps Hparts]. apply Forall_app in Hparts as [Hbody Hcc].
  assert (Hcc' : Forall (ref_ok s2) (of_opt (fun i => [Instruction i]) (fp_callconv parts))).
  { destruct (fp_callconv parts); simpl in *; [|done]. inversion Hcc. by constructor. }
  steps. eapply lowers_builtin_of; [exact Hw2|]. intros bi s3 Hw3 K3. adv K3. steps.
  eapply lowers_open; [exact Hw3|by apply scope_lt|done|]. intros o b' Ho Hb' Hwo Hbo Hso. opn Ho. steps.
  emit fn. steps. emit br. steps.
  eapply lowers_close; [exact Ho|exact Hb'|exact Hw3|eassumption|done|]. intros l s9 Hw9 K9 Hc9 Hl _. cls Hc9 K9. steps.
  fill TComptime. steps. apply HQ; [|done|done]. eapply wf_le; [| |eassumption]; room.
Qed.

Lemma lowers_item_var_binding in_fn binding is_const :
  (size_binding binding <= N)%nat -> supported_binding in_fn binding = true ->
  item_spec in_fn (size_binding binding) (fun b => lower_item_var_binding b binding is_const).
Proof.
  destruct binding as [id name ty val]. cbn [size_binding supported_binding]. intros Hn [Hty Hval]%andb_true_iff.
  intros P k d b s Q Hw Hk Hd Hb Hroot HQ. unfold lower_item_var_binding. assert (K0 : keeps s s) by done. steps.
  hole TComptime decl. steps.
  eapply lowers_open; [eassumption|by apply scope_lt|done|]. intros o b' Ho Hb' Hwo Hbo Hso. opn Ho. steps.
  eapply (lowers_mono _ _ (fun ctx s2 => wf (pend TComptime decl P) (k - 1 - W * opt_size size_expr ty) (d - opt_size size_expr ty) s2 /\
    keeps o s2 /\ ctx_ok s2 ctx)).
  { assert (Ko : keeps o o) by done. destruct ty as [ty|]; cbn [opt_size opt_all] in *; steps.
    - expr r. steps. split_and!; [|done|by apply ctx_ok_coerce]. done.
    - split_and!; [|done|apply ctx_ok_none]. eapply wf_le; [| |exact Hwo]; lia. }
  intros ctx s2 (Hw2 & K2 & Hctx). adv K2. steps. init v. steps. emit br. steps.
  eapply lowers_close; [exact Ho|exact Hb'|eassumption|eassumption|done|]. intros l s9 Hw9 K9 Hc9 Hl _. cls Hc9 K9. steps.
  fill TComptime. steps. apply HQ; [|done|done]. eapply wf_le; [| |eassumption]; room.
Qed.

Lemma lowers_associated_item in_fn item :
  (size_item item <= N)%nat -> supported_item in_fn item = true ->
  item_spec in_fn (size_item item) (fun b => lower_associated_item b item).
Proof.
  destruct item as [id kind pub span]. cbn [size_item supported_item]. intros Hn Hs P k d b s Q Hw Hk Hd Hb Hroot HQ.
  unfold lower_associated_item. destruct kind as [f|bd|bd].
  - eapply (lowers_associated_fn in_fn f); [lia|done|exact Hw|room|lia|done|done|]. intros i s' Hw'. apply HQ.
    eapply wf_le; [| |exact Hw']; lia.
  - eapply (lowers_item_var_binding in_fn bd); [lia|done|exact Hw|room|lia|done|done|]. intros i s' Hw'. apply HQ.
    eapply wf_le; [| |exact Hw']; lia.
  - eapply (lowers_item_var_binding in_fn bd); [lia|done|exact Hw|room|lia|done|done|]. intros i s' Hw'. apply HQ.
    eapply wf_le; [| |exact Hw']; lia.
Qed.

End Decls.
End LowerDeclSpec.
