(* ===== verification/LowerTypeSpec.v ===== *)
(** * The lowering of types

    Namespaces with their items, structs, enums, unions and the other types,
    given expressions that lower. *)

From S2P Require Import Prelude Words Bytes Span Token Diagnostic Ast HashIndex ShardedMap.
From S2P Require Import Anyint Value ValueStore LexerLit Float128 Vuir SemaState SemaLogic.
From S2P Require Import LowerState Lower LowerSyntax LowerLogic LowerScopes LowerSteps LowerDeclSpec.
From stdpp Require Import gmap.

#[local] Open Scope Z_scope.

Module LowerTypeSpec.
Import Ast IrId LowerState Lower LowerSyntax LowerLogic LowerScopes LowerSteps LowerStmtSpec LowerDeclSpec.

Section Types.
Context `{SL : SettingLaws, RC : !Rec}.
Context (D N : nat) (HE : exprs_ok D N) (HN : named_ok D N).
Implicit Types (s : Lowerer) (b : nat) (r : InstructionRef) (P : gmap Z Target) (k d : nat).
Abbreviation wf := (LowerLogic.wf D).
Abbreviation W := (LowerLogic.W D).

(** ** Namespaces *)

Lemma lowers_namespace_items P k d ns items s (Q : ScopeNamespace -> Lowerer -> Prop) :
  wf P k d s ->
  (forall ns' s', wf P k d s' -> keeps s s' -> ns_parent ns' = ns_parent ns -> captures ns' = captures ns -> Q ns' s') ->
  lowers (collect_namespace_items ns items) s Q.
Proof.
  unfold collect_namespace_items. revert ns s. induction items as [|[id kind pub span] items IH]; intros ns s Hw HQ;
    cbn [for_each].
  { by apply lowers_mret, HQ. }
  steps. eapply (lowers_mono _ _ (fun _ s' => wf P k d s' /\ keeps s s')).
  { destruct (decl_to_ast_node ns !! _) as [[? ?]|]; [|by steps]. steps. apply lowers_redefinition. intros e.
    by eapply lowers_push_error. }
  intros _ s' [Hw' K']. steps. apply IH; [done|]. intros ns' s2 Hw2 K2. apply HQ; [done|by etrans].
Qed.

Lemma lowers_push_namespace P k d parent items s (Q : nat -> Lowerer -> Prop) :
  wf P k d s -> (forall p, parent = Some p -> (p < length (scopes s))%nat) ->
  (forall s', wf P k d s' -> keeps s s' ->
    forall o b ns, o = pushed (Scope_Namespace ns) s' -> b = length (scopes s') -> wf P k d o -> namespace_in o b -> Q b o) ->
  lowers (push_namespace parent items) s Q.
Proof.
  intros Hw Hp HQ. unfold push_namespace. steps. eapply lowers_namespace_items; [exact Hw|]. simpl.
  intros ns s' Hw' K' Hpar Hcap. eexists _, _. split; [done|]. eapply (HQ s' Hw' K' _ _ ns); [done|done| |].
  - eapply wf_pushed; [exact Hw'| |done]. split; [simpl; rewrite Hpar; destruct K' as [_ ->]; done|].
    simpl. rewrite Hcap. constructor.
  - exists ns. simpl. by rewrite lookup_app_r, Nat.sub_diag by lia.
Qed.

Lemma lowers_pop_scope P k d sc s0 o s (Q : unit -> Lowerer -> Prop) :
  o = pushed sc s0 -> wf P k d s -> keeps o s ->
  (forall s', wf P k d s' -> keeps s0 s' -> length (instructions s') = length (instructions s) -> Q tt s') ->
  lowers pop_scope s Q.
Proof.
  intros -> Hw [[GI GU (l & x & HS & Hl & Hx) GE GR GF GL GV] Hlen] HQ. apply lowers_bind, lowers_gets, lowers_modify.
  simpl in Hl, Hlen. rewrite length_app in Hlen. simpl in Hlen. rewrite Hlen, Nat.add_sub.
  assert (Hpre : Forall2 scope_le (scopes s0) (take (length (scopes s0)) (scopes s))).
  { apply Forall2_app_inv_l in Hl as (l1 & l2 & H1 & H2 & ->).
    by rewrite HS, (Forall2_length _ _ _ H1), <- !(assoc_L (++)), take_app_length. }
  apply HQ; [|split; [split; try done|]|done].
  - destruct Hw as [Hst Hr Hi Hp Hu Hs Hl' Hd]. split; try done.
    + intros i sc' Hi'. simpl in Hi'. apply lookup_take_Some in Hi' as [Hi' _]. by apply Hs.
    + simpl. pose proof (defers_bound (scopes s) (length (scopes s0))). lia.
  - exists (take (length (scopes s0)) (scopes s)), []. rewrite app_nil_r. done.
  - simpl. rewrite length_take. lia.
Qed.

Lemma lowers_namespace_captures P k d b s (Q : list Vuir.Capture -> Lowerer -> Prop) :
  wf P k d s -> namespace_in s b -> (forall l, Forall (id_ok s) (flat_map captured l) -> Q l s) ->
  lowers (namespace_captures b) s Q.
Proof.
  intros Hw [ns Hb] HQ. unfold namespace_captures. steps. eapply lowers_scope_at; [exact Hb|]. steps.
  eapply lowers_lift; [done|]. steps. apply HQ. by apply (wf_scopes _ _ _ _ _ Hw) in Hb as [_ ?].
Qed.

(** The declarations of a namespace. *)
Lemma lowers_decls in_fn items P k d b s (Q : list InstructionId -> Lowerer -> Prop) :
  (sum size_item items <= N)%nat -> forallb (supported_item in_fn) items = true ->
  wf P k d s -> (W * sum size_item items <= k)%nat -> (sum size_item items <= d)%nat -> namespace_in s b -> root_ok in_fn s ->
  (forall l s', wf P (k - W * sum size_item items) (d - sum size_item items) s' -> keeps s s' ->
     Forall (id_ok s') l -> Q l s') ->
  lowers (lower_decls b items) s Q.
Proof.
  intros Hn Hs Hw Hk Hd Hb Hroot HQ. unfold lower_decls. assert (K0 : keeps s s) by done. steps.
  eapply lowers_open; [exact Hw|by apply namespace_lt|done|]. intros o b' Ho Hb' Hwo Hbo Hso. opn Ho. steps.
  eapply (lowers_collect_items D _ size_item (fun s _ => scope_in s b' /\ root_ok in_fn s) id_ok); [exact Hwo|done..| | | |].
  { intros s1 s2 [] [G _] [? ?]. split; [by eapply scope_grows|by eapply root_grows]. }
  { intros s1 s2 a [G _]. by apply id_grows. }
  { intros x k0 d0 s0 Q' Hx Hw0 Hk0 Hd0 [Hb0 Hr0] HQ'.
    eapply (lowers_associated_item D N HE HN in_fn x); [|by eapply forallb_elem|exact Hw0|done..|]; [|by intros; apply HQ'].
    pose proof (sum_elem size_item _ _ Hx). lia. }
  intros l s1 Hw1 K1 Hl. adv K1. steps.
  eapply lowers_discard; [exact Ho|exact Hb'|exact Hw|exact Hw1|done|]. intros s5 Hw5 K5 Hc5 _. cls Hc5 K5. steps.
  by apply HQ.
Qed.

(** ** Fields *)

Definition field_ok s (f : Vuir.FieldTy) : Prop := Forall (ref_ok s) (field_ref f) /\ Forall (id_ok s) (field_body f).

Lemma fields_ok {A} (g : A -> Vuir.FieldTy) s l :
  Forall (fun f => field_ok s (g f)) l ->
  Forall (ref_ok s) (flat_map (fun f => field_ref (g f)) l) /\ Forall (id_ok s) (flat_map (fun f => field_body (g f)) l).
Proof. intros H. split; apply List.Forall_flat_map; (eapply List.Forall_impl; [|exact H]); by intros ? []. Qed.

Lemma lowers_field_ty in_fn decl ty P k d b s (Q : Vuir.FieldTy -> Lowerer -> Prop) :
  (size_expr ty <= N)%nat -> supported_expr in_fn ty = true -> kind_at P s decl = Some TComptime ->
  wf P k d s -> (W * size_expr ty + 1 <= k)%nat -> (size_expr ty <= d)%nat -> namespace_in s b -> root_ok in_fn s ->
  (forall f s', wf P (k - W * size_expr ty - 1) (d - size_expr ty) s' -> keeps s s' -> field_ok s' f -> Q f s') ->
  lowers (lower_field_ty b decl ty) s Q.
Proof.
  intros Hn Hs Hdecl Hw Hk Hd Hb Hroot HQ. unfold lower_field_ty. assert (K0 : keeps s s) by done. steps.
  eapply lowers_open; [exact Hw|by apply namespace_lt|done|]. intros o b' Ho Hb' Hwo Hbo Hso. opn Ho. steps.
  expr r. steps. eapply lowers_inst_unless_never; [eassumption|room|done|solve_emit|done|].
  intros s3 Hw3 K3. adv K3. steps.
  eapply lowers_close; [exact Ho|exact Hb'|exact Hw|eassumption|done|]. intros l s9 Hw9 K9 Hc9 Hl _. cls Hc9 K9. steps.
  apply HQ; [done|done|]. destruct l; split; simpl; [by constructor|done..].
Qed.

(** The placeholder of a type is filled in before the scope of its namespace is popped. *)
Lemma lowers_pop_first {A} i op (m : M A) s (Q : A -> Lowerer -> Prop) :
  lowers (pop_scope ;; set_inst i op ;; m) s Q -> lowers (set_inst i op ;; pop_scope ;; m) s Q.
Proof.
  intros (a & s' & Hr & HQ). exists a, s'. split; [|done]. rewrite <- Hr.
  unfold set_inst, pop_scope, mbind, M_bind, gets, lift, modify. simpl. by destruct (set_idx _ _ _).
Qed.

(** ** Structs *)

Lemma lowers_struct in_fn t naming :
  (size_struct t <= N)%nat -> supported_struct in_fn t = true ->
  item_spec D in_fn (size_struct t) (fun b => lower_struct b t naming).
Proof.
  destruct t as [fields items packed linear span]. unfold size_struct, supported_struct.
  cbn [size_type supported_type]. intros Hn [Hf Hi]%andb_true_iff P k d b s Q Hw Hk Hd Hb Hroot HQ. unfold lower_struct.
  assert (K0 : keeps s s) by done. steps. hole TComptime i. steps.
  eapply lowers_push_namespace; [eassumption|intros ? [= <-]; by apply scope_lt|].
  intros s1 Hw1 K1. adv K1. intros o b' ns Ho Hb' Hwo Hns. opn Ho. assert (Ko : keeps o o) by done. steps.
  eapply (lowers_collect_items D _ size_field
    (fun s _ => namespace_in s b' /\ root_ok in_fn s /\ kind_at (pend TComptime i P) s i = Some TComptime)
    (fun s f => field_ok s (Vuir.field_ty f))); [exact Hwo|room|room|done| | | |].
  { intros s2 s3 [] [G _] (? & ? & ?). split_and!; [by eapply namespace_grows|by eapply root_grows|by eapply kind_grows]. }
  { intros s2 s3 f [G _] [? ?]. split; [by eapply refs_grow|by eapply ids_grow]. }
  { intros [id ident fpub ty default fspan] k0 d0 s2 Q' Hx Hw2 Hk0 Hd0 (Hb0 & Hr0 & Hk1) HQ'. steps.
    pose proof (sum_elem size_field _ _ Hx) as Hle. pose proof (forallb_elem _ _ _ Hf Hx) as Hsup.
    cbn [size_field supported_field] in *.
    eapply (lowers_field_ty in_fn); [lia|exact Hsup|exact Hk1|exact Hw2|room|lia|done|done|].
    intros f s3 Hw3 K3 Hfo. steps. apply HQ'; [|done|done]. eapply wf_le; [| |exact Hw3]; room. }
  intros fs s2 Hw2 K2 Hfs%fields_ok. destruct Hfs as [Hrefs Hids]. adv K2. steps.
  eapply (lowers_decls in_fn); [|exact Hi|exact Hw2|room|room|done|done|]. { lia. }
  intros decls s3 Hw3 K3 Hdecls. adv K3. steps.
  eapply lowers_namespace_captures; [exact Hw3|done|]. intros caps Hcaps.
  apply lowers_pop_first. steps. eapply lowers_pop_scope; [exact Ho|exact Hw3|done|].
  intros s9 Hw9 K9 Hc9. cls Hc9 K9. steps. fill TComptime. steps. apply HQ; [|done|done].
  eapply wf_le; [| |eassumption]; room.
Qed.

(** ** Enums *)

Lemma lowers_check_unique P k d (what : list Z) (seen : gmap (list Z) Span.Span) (ident : Ident) (span : Span.Span) s (Q : gmap (list Z) Span.Span -> Lowerer -> Prop) :
  wf P k d s -> (forall seen' s', wf P k d s' -> keeps s s' -> Q seen' s') ->
  lowers (check_unique what seen ident span) s Q.
Proof.
  intros Hw HQ. unfold check_unique. destruct (seen !! _); [|by apply lowers_mret, HQ]. steps.
  apply lowers_redefinition. intros e. steps. eapply lowers_push_error; [exact Hw|]. intros s' Hw' K' _. steps. by apply HQ.
Qed.

(** An expression that may be missing. *)
Lemma lowers_opt_expr in_fn e P k d b s (Q : option (InstructionRef * Span.Span) -> Lowerer -> Prop) :
  (opt_size size_expr e <= N)%nat -> opt_all (supported_expr in_fn) e = true ->
  wf P k d s -> (W * opt_size size_expr e <= k)%nat -> (opt_size size_expr e <= d)%nat -> scope_in s b -> root_ok in_fn s ->
  (forall o s', wf P (k - W * opt_size size_expr e) (d - opt_size size_expr e) s' -> keeps s s' ->
     Forall (ref_ok s') (of_opt (fun t => [t.1]) o) -> Q o s') ->
  lowers (opt (fun expr => v ← lower_expr b expr ctx_none; mret (v, expr_span expr)) e) s Q.
Proof.
  intros Hn Hs Hw Hk Hd Hb Hroot HQ. assert (K0 : keeps s s) by done. destruct e as [e|]; cbn [opt opt_size opt_all] in *; steps.
  - expr r. steps. apply HQ; [done|done|by constructor].
  - apply HQ; [|done|constructor]. eapply wf_le; [| |exact Hw]; lia.
Qed.

Definition variants_refs (l : list Vuir.EnumVariant) : list InstructionRef :=
  flat_map (fun v => of_opt (fun t => [t.1]) (Vuir.variant_value v)) l.

Lemma lowers_enum_variant (in_fn : bool) (variant : EnumVariantDef) (acc : list Vuir.EnumVariant * gmap (list Z) Span.Span) P k d b (e : nat) s
    (Q : list Vuir.EnumVariant * gmap (list Z) Span.Span -> Lowerer -> Prop) :
  (size_variant variant <= N)%nat -> supported_variant in_fn variant = true ->
  wf P k d s -> (W * size_variant variant <= k)%nat -> (size_variant variant <= d)%nat -> scope_in s b -> root_ok in_fn s ->
  namespace_in s e -> Forall (ref_ok s) (variants_refs acc.1) ->
  (forall acc' s', wf P (k - W * size_variant variant) (d - size_variant variant) s' -> keeps s s' ->
     Forall (ref_ok s') (variants_refs acc'.1) -> Q acc' s') ->
  lowers (lower_enum_variant b e acc variant) s Q.
Proof.
  destruct variant as [id ident value span], acc as [variants seen]. cbn [size_variant supported_variant fst].
  intros Hn Hs Hw Hk Hd Hb Hroot He Hacc HQ. unfold lower_enum_variant. assert (K0 : keeps s s) by done. steps.
  eapply (lowers_opt_expr in_fn); [lia|exact Hs|exact Hw|room|lia|done|done|]. intros v s1 Hw1 K1 Hv. adv K1. steps.
  pose proof He as [ns Hns]. eapply lowers_scope_at; [exact Hns|]. steps. eapply lowers_lift; [done|]. steps.
  eapply (lowers_mono _ _ (fun _ s' => wf P (k - W * opt_size size_expr value) (d - opt_size size_expr value) s' /\ keeps s1 s')).
  { destruct (decl_to_ast_node ns !! _) as [[? ?]|]; [|by steps]. steps. apply lowers_redefinition. intros er.
    eapply lowers_push_error; [exact Hw1|]. done. }
  intros _ s2 [Hw2 K2]. adv K2. steps. eapply lowers_check_unique; [exact Hw2|]. intros seen' s3 Hw3 K3. adv K3. steps.
  apply HQ; [|done|].
  - eapply wf_le; [| |exact Hw3]; room.
  - simpl. unfold variants_refs. rewrite flat_map_app. simpl. rewrite app_nil_r. known.
Qed.

Lemma lowers_enum in_fn t naming :
  (size_type (Type_Enum t) <= N)%nat -> supported_type in_fn (Type_Enum t) = true ->
  item_spec D in_fn (size_type (Type_Enum t)) (fun b => lower_enum b t naming).
Proof.
  destruct t as [tag_ty variants items linear span].
  cbn [size_type supported_type]. intros Hn [[Ht Hv]%andb_true_iff Hi]%andb_true_iff P k d b s Q Hw Hk Hd Hb Hroot HQ.
  unfold lower_enum. assert (K0 : keeps s s) by done. steps.
  eapply (lowers_opt_expr in_fn); [|exact Ht|exact Hw|room|lia|done|done|]. { lia. }
  intros tag s1 Hw1 K1 Htag. adv K1. steps. hole TOther i. steps.
  eapply lowers_push_namespace; [eassumption| |].
  { intros p. pose proof (scope_lt _ _ Hb). destruct (scopes s0); [done|]. by intros [= <-]. }
  intros s2 Hw2 K2. adv K2. intros o b' ns Ho Hb' Hwo Hns. opn Ho. assert (Ko : keeps o o) by done. steps.
  eapply (lowers_for_each_items D _ size_variant
    (fun s acc => namespace_in s b' /\ root_ok in_fn s /\ scope_in s b /\ Forall (ref_ok s) (variants_refs acc.1)));
    [exact Hwo|room|room| | | |].
  { intros s3 s4 acc [G _] (? & ? & ? & ?).
    split_and!; [by eapply namespace_grows|by eapply root_grows|by eapply scope_grows|by eapply refs_grow]. }
  { split_and!; [done..|constructor]. }
  { intros x acc k0 d0 s3 Q' Hx Hw3 Hk0 Hd0 (Hb0 & Hr0 & Hs0 & Hacc) HQ'.
    pose proof (sum_elem size_variant _ _ Hx) as Hle. pose proof (forallb_elem _ _ _ Hv Hx) as Hsup.
    eapply (lowers_enum_variant in_fn); [lia|exact Hsup|exact Hw3|done..|].
    intros acc' s4 Hw4 K4 Hacc'. apply HQ'; [done|done|]. destruct K4 as [G _].
    split_and!; [by eapply namespace_grows|by eapply root_grows|by eapply scope_grows|done]. }
  intros [vs seen] s3 Hw3 K3 (_ & _ & _ & Hvs). adv K3. steps.
  eapply (lowers_decls in_fn); [|exact Hi|exact Hw3|room|room|done|done|]. { lia. }
  intros decls s4 Hw4 K4 Hdecls. adv K4. steps.
  eapply lowers_namespace_captures; [exact Hw4|done|]. intros caps Hcaps.
  apply lowers_pop_first. steps. eapply lowers_pop_scope; [exact Ho|exact Hw4|done|].
  intros s9 Hw9 K9 Hc9. cls Hc9 K9. steps. fill TOther. steps. apply HQ; [|done|done].
  eapply wf_le; [| |eassumption]; room.
Qed.

(** ** Unions *)

Definition union_ok s (l : list Vuir.UnionField) : Prop :=
  Forall (ref_ok s) (flat_map (fun f => of_opt field_ref (Vuir.uf_ty f)) l) /\
  Forall (id_ok s) (flat_map (fun f => of_opt field_body (Vuir.uf_ty f)) l).

Lemma lowers_union_field (in_fn : bool) (field : UnionFieldDef) (acc : list Vuir.UnionField * gmap (list Z) Span.Span)
    P k d b (decl : InstructionId) s (Q : list Vuir.UnionField * gmap (list Z) Span.Span -> Lowerer -> Prop) :
  (size_union_field field <= N)%nat -> supported_union_field in_fn field = true ->
  kind_at P s decl = Some TComptime ->
  wf P k d s -> (W * size_union_field field <= k)%nat -> (size_union_field field <= d)%nat -> root_ok in_fn s ->
  namespace_in s b -> union_ok s acc.1 ->
  (forall acc' s', wf P (k - W * size_union_field field) (d - size_union_field field) s' -> keeps s s' ->
     union_ok s' acc'.1 -> Q acc' s') ->
  lowers (lower_union_field b decl acc field) s Q.
Proof.
  destruct field as [id ident ty span], acc as [fields seen]. cbn [size_union_field supported_union_field fst].
  intros Hn Hs Hdecl Hw Hk Hd Hroot Hb [Hr Hi] HQ. unfold lower_union_field. assert (K0 : keeps s s) by done. steps.
  eapply lowers_check_unique; [exact Hw|]. intros seen' s1 Hw1 K1. adv K1. steps.
  eapply (lowers_mono _ _ (fun o s2 => wf P (k - W * opt_size size_expr ty - 1) (d - opt_size size_expr ty) s2 /\ keeps s1 s2 /\
    Forall (ref_ok s2) (of_opt field_ref o) /\ Forall (id_ok s2) (of_opt field_body o))).
  { destruct ty as [ty|]; cbn [opt opt_size opt_all] in *; steps.
    - eapply (lowers_field_ty in_fn); [lia|exact Hs|exact Hdecl|exact Hw1|room|lia|done|done|].
      intros f s2 Hw2 K2 [? ?]. steps. by split_and!.
    - split_and!; [|done|constructor|constructor]. eapply wf_le; [| |exact Hw1]; lia. }
  intros o s2 (Hw2 & K2 & Hor & Hoi). adv K2. steps. apply HQ; [|done|].
  - eapply wf_le; [| |exact Hw2]; room.
  - unfold union_ok. simpl. rewrite !flat_map_app. simpl. rewrite !app_nil_r. split; known.
Qed.

Lemma lowers_union in_fn t naming :
  (size_type (Type_Union t) <= N)%nat -> supported_type in_fn (Type_Union t) = true ->
  item_spec D in_fn (size_type (Type_Union t)) (fun b => lower_union b t naming).
Proof.
  destruct t as [tag fields items linear span].
  cbn [size_type supported_type]. intros Hn [[Ht Hv]%andb_true_iff Hi]%andb_true_iff P k d b s Q Hw Hk Hd Hb Hroot HQ.
  unfold lower_union. assert (K0 : keeps s s) by done. steps.
  eapply (lowers_mono _ _ (fun o s1 => wf P (k - W * size_tag tag) (d - size_tag tag) s1 /\ keeps s s1 /\
    Forall (ref_ok s1) (of_opt (of_opt (fun t => [t.1])) o))).
  { destruct tag as [| |e]; cbn [size_tag supported_tag] in *; steps;
      try (split_and!; [eapply wf_le; [| |exact Hw]; lia|done|constructor]).
    expr r. steps. split_and!; [done|done|by constructor]. }
  intros tg s1 (Hw1 & K1 & Htag). adv K1. steps. hole TComptime i. steps.
  eapply lowers_push_namespace; [eassumption|intros ? [= <-]; by apply scope_lt|].
  intros s2 Hw2 K2. adv K2. intros o b' ns Ho Hb' Hwo Hns. opn Ho. assert (Ko : keeps o o) by done. steps.
  eapply (lowers_for_each_items D _ size_union_field (fun s acc => namespace_in s b' /\ root_ok in_fn s /\
    kind_at (pend TComptime i P) s i = Some TComptime /\ union_ok s acc.1)); [exact Hwo|room|room| | | |].
  { intros s3 s4 acc [G _] (? & ? & ? & [? ?]).
    split_and!; [by eapply namespace_grows|by eapply root_grows|by eapply kind_grows|].
    split; [by eapply refs_grow|by eapply ids_grow]. }
  { split_and!; [done..|]. split; constructor. }
  { intros x acc k0 d0 s3 Q' Hx Hw3 Hk0 Hd0 (Hb0 & Hr0 & Hk1 & Hacc) HQ'.
    pose proof (sum_elem size_union_field _ _ Hx) as Hle. pose proof (forallb_elem _ _ _ Hv Hx) as Hsup.
    eapply (lowers_union_field in_fn); [lia|exact Hsup|exact Hk1|exact Hw3|done..|].
    intros acc' s4 Hw4 K4 Hacc'. apply HQ'; [done|done|]. destruct K4 as [G _].
    split_and!; [by eapply namespace_grows|by eapply root_grows|by eapply kind_grows|done]. }
  intros [fs seen] s3 Hw3 K3 (_ & _ & _ & [Hrefs Hids]). adv K3. steps.
  eapply (lowers_decls in_fn); [|exact Hi|exact Hw3|room|room|done|done|]. { lia. }
  intros decls s4 Hw4 K4 Hdecls. adv K4. steps.
  eapply lowers_namespace_captures; [exact Hw4|done|]. intros caps Hcaps.
  apply lowers_pop_first. steps. eapply lowers_pop_scope; [exact Ho|exact Hw4|done|].
  intros s9 Hw9 K9 Hc9. cls Hc9 K9. steps. fill TComptime. steps. apply HQ; [|done|done].
  eapply wf_le; [| |eassumption]; room.
Qed.

(** ** Types *)

Lemma lowers_int_suffix P k d i s (Q : Z -> Lowerer -> Prop) :
  wf P k d s -> (0 < k)%nat -> (forall v s', wf P (k - 1) d s' -> keeps s s' -> Q v s') ->
  lowers (int_suffix_type i) s Q.
Proof.
  intros Hw Hk HQ. unfold int_suffix_type, int_type. destruct i; try (by eapply lowers_intern; [exact Hw|..]);
    apply lowers_common, HQ; try done; (eapply wf_le; [| |exact Hw]; lia).
Qed.

Lemma lowers_opt_sentinel in_fn e P k d b s (Q : option InstructionRef -> Lowerer -> Prop) :
  (opt_size size_expr e <= N)%nat -> opt_all (supported_expr in_fn) e = true ->
  wf P k d s -> (W * opt_size size_expr e <= k)%nat -> (opt_size size_expr e <= d)%nat -> scope_in s b -> root_ok in_fn s ->
  (forall o s', wf P (k - W * opt_size size_expr e) (d - opt_size size_expr e) s' -> keeps s s' ->
     Forall (ref_ok s') (of_opt (fun x => [x]) o) -> Q o s') ->
  lowers (opt (fun e => lower_expr b e ctx_none) e) s Q.
Proof.
  intros Hn Hs Hw Hk Hd Hb Hroot HQ. assert (K0 : keeps s s) by done. destruct e as [e|]; cbn [opt opt_size opt_all] in *; steps.
  - expr r. steps. apply HQ; [done|done|by constructor].
  - apply HQ; [|done|constructor]. eapply wf_le; [| |exact Hw]; lia.
Qed.

(** What the lowering of a type of size [n] promises. *)
Definition type_spec (in_fn : bool) (n : nat) (m : nat -> M InstructionRef) : Prop :=
  forall P k d b s (Q : InstructionRef -> Lowerer -> Prop),
    wf P k d s -> (W * n <= k)%nat -> (n <= d)%nat -> scope_in s b -> root_ok in_fn s ->
    (forall r s', wf P (k - W * n) (d - n) s' -> keeps s s' -> ref_ok s' r -> Q r s') ->
    lowers (m b) s Q.

Lemma type_of_item in_fn n m : item_spec D in_fn n m -> type_spec in_fn n (fun b => i ← m b; mret (Instruction i)).
Proof.
  intros Hm P k d b s Q Hw Hk Hd Hb Hroot HQ. steps. eapply Hm; [exact Hw|done..|]. intros i s' Hw' K' Hi. steps. by apply HQ.
Qed.

Lemma type_of_value in_fn n m :
  (forall P k d s (Q : InstructionRef -> Lowerer -> Prop), wf P k d s -> (3 <= k)%nat ->
    (forall v s', wf P (k - 3) d s' -> keeps s s' -> Q (Interned v) s') -> lowers m s Q) ->
  type_spec in_fn (S n) (fun b => m).
Proof.
  intros Hm P k d b s Q Hw Hk Hd Hb Hroot HQ. eapply Hm; [exact Hw|room|]. intros v s' Hw' K'. apply HQ; [|done|done].
  eapply wf_le; [| |exact Hw']; room.
Qed.

Lemma lowers_type in_fn t naming span :
  (size_type t <= N)%nat -> supported_type in_fn t = true ->
  type_spec in_fn (size_type t) (fun b => lower_type b t naming span).
Proof.
  assert (Hcommon : forall f, type_spec in_fn 1 (fun _ => common_ref f)).
  { intros f. apply type_of_value. intros P k d s Q Hw Hk HQ. steps. apply HQ; [|done]. eapply wf_le; [| |exact Hw]; lia. }
  intros Hn Hs. destruct t as [ty c size sen|ty m|ty sen m|ty sen m|sig|ty|t|t|t| |i|f| | | | | |];
    cbn [size_type supported_type] in *; unfold lower_type; try (apply Hcommon || done).
  - destruct size as [size|]; [|by rewrite andb_false_r in Hs]. cbn [opt_size] in *.
    apply andb_true_iff in Hs as [[Ht Hsz]%andb_true_iff Hse]. intros P k d b s Q Hw Hk Hd Hb Hroot HQ.
    assert (K0 : keeps s s) by done. steps. expr r. steps. eapply lowers_lift; [done|]. steps. expr len. steps.
    eapply (lowers_opt_sentinel in_fn); [|exact Hse|eassumption|room|lia|done|done|]. { lia. }
    intros o s3 Hw3 K3 Ho. adv K3. steps. emit i. apply HQ; [|done|done]. eapply wf_le; [| |eassumption]; room.
  - destruct m as [ic iv a]. intros P k d b s Q Hw Hk Hd Hb Hroot HQ. assert (K0 : keeps s s) by done. steps.
    expr r. steps. emit i. apply HQ; [|done|done]. eapply wf_le; [| |eassumption]; room.
  - destruct m as [ic iv a]. apply andb_true_iff in Hs as [Ht Hse].
    intros P k d b s Q Hw Hk Hd Hb Hroot HQ. assert (K0 : keeps s s) by done. steps. expr r. steps.
    eapply (lowers_opt_sentinel in_fn); [|exact Hse|eassumption|room|lia|done|done|]. { lia. }
    intros o s3 Hw3 K3 Ho. adv K3. steps. emit i. apply HQ; [|done|done]. eapply wf_le; [| |eassumption]; room.
  - apply type_of_item. by apply (lowers_struct in_fn t).
  - apply type_of_item. by apply (lowers_union in_fn t).
  - apply type_of_item. by apply (lowers_enum in_fn t).
  - apply type_of_value. intros P k d s Q Hw Hk HQ. steps. eapply lowers_int_suffix; [exact Hw|lia|].
    intros v s' Hw' K'. steps. apply HQ; [|done]. eapply wf_le; [| |exact Hw']; lia.
  - apply type_of_value. intros P k d s Q Hw Hk HQ. steps.
    destruct f; apply lowers_common; steps; (apply HQ; [|done]); (eapply wf_le; [| |exact Hw]; lia).
Qed.

(** ** Literals *)

Lemma lowers_lit_int P k d symbol radix suffix s (Q : InstructionRef -> Lowerer -> Prop) :
  wf P k d s -> (3 <= k)%nat -> int_ok symbol radix = true ->
  (forall v s', wf P (k - 3) d s' -> keeps s s' -> Q (Interned v) s') ->
  lowers (lower_lit_int symbol radix suffix true) s Q.
Proof.
  intros Hw Hk Hi HQ. unfold lower_lit_int, intern_ref. assert (K0 : keeps s s) by done. steps.
  eapply (lowers_mono _ _ (fun _ s1 => wf P (k - 1) d s1 /\ keeps s s1)).
  { destruct suffix as [i|].
    - eapply lowers_int_suffix; [exact Hw|lia|]. auto.
    - apply lowers_common. split; [|done]. eapply wf_le; [| |exact Hw]; lia. }
  intros ty s1 [Hw1 K1]. adv K1. steps. unfold int_ok in Hi. destruct (LexerLit.lower_lit_int_value _ _ _) as [v|] eqn:Hv; [|done].
  eapply lowers_lift; [done|]. steps. eapply lowers_intern; [exact Hw1|lia|done|done|]. intros i s2 Hw2 K2. adv K2. steps.
  apply HQ; [|done]. eapply wf_le; [| |exact Hw2]; lia.
Qed.

Lemma lowers_lit P k d lit s (Q : InstructionRef -> Lowerer -> Prop) :
  wf P k d s -> (3 <= k)%nat -> supported_lit lit = true ->
  (forall v s', wf P (k - 3) d s' -> keeps s s' -> Q (Interned v) s') ->
  lowers (lower_lit lit) s Q.
Proof.
  intros Hw Hk Hl HQ. assert (K0 : keeps s s) by done.
  destruct lit as [| | | | |symbol sf|]; simpl in Hl; try done; unfold lower_lit, intern_ref, int_type.
  - steps. value vu. steps. value vs. steps. value i. steps. apply HQ; [|done]. eapply wf_le; [| |eassumption]; lia.
  - steps. value i. steps. apply HQ; [|done]. eapply wf_le; [| |eassumption]; lia.
  - by eapply lowers_lit_int.
  - unfold float_ok in Hl. destruct (FloatText.parse_f64_as_f128 symbol) as [bits|]; [|done]. steps.
    apply (lowers_mono _ _ (fun _ s' => s' = s)).
    { by destruct sf as [[]|]; apply lowers_common. }
    intros ty s' ->. steps. eapply lowers_lift; [done|]. steps. value i. steps. apply HQ; [|done].
    eapply wf_le; [| |eassumption]; lia.
  - steps. value i. steps. apply HQ; [|done]. eapply wf_le; [| |eassumption]; lia.
Qed.

End Types.
End LowerTypeSpec.
