(* ===== verification/LowerFlowSpec.v ===== *)
(** * The lowering of control flow

    [if], blocks, [loop], [while] and [switch], given that the expressions inside
    lower.

    The module [LowerExprSpec] has the expressions, [LowerFlowSpec] the control flow. *)

From S2P Require Import Prelude Words Bytes Span Token Diagnostic Ast HashIndex ShardedMap Anyint.
From S2P Require Import Value ValueStore Vuir SemaState SemaLogic LowerState Lower LowerSyntax.
From S2P Require Import LowerLogic LowerScopes LowerSteps LowerDeclSpec LowerTypeSpec.
From stdpp Require Import gmap.

#[local] Open Scope Z_scope.

Module LowerExprSpec.
Import Ast IrId LowerState Lower LowerSyntax LowerLogic LowerScopes LowerSteps LowerStmtSpec LowerDeclSpec LowerTypeSpec.

Section Exprs.
Context `{SL : SettingLaws, RC : !Rec}.
Context (D N : nat) (HE : exprs_ok D N) (HN : named_ok D N).
Implicit Types (s : Lowerer) (b : nat) (r : InstructionRef) (P : gmap Z Target) (k d : nat).
Implicit Types (in_fn : bool) (span : Span.Span) (ctx : ExprContext).
Abbreviation wf := (LowerLogic.wf D).
Abbreviation W := (LowerLogic.W D).
Abbreviation expr_spec := (LowerSteps.expr_spec D).

(** The [rvalue] at the end of an arm. *)
Lemma lowers_finish in_fn n m span :
  expr_spec in_fn n m -> expr_spec in_fn (S n) (fun b ctx => i ← m b ctx; rvalue b i ctx span).
Proof.
  intros Hm P k d b ctx s Q Hw Hk Hd Hb Hctx Hroot HQ. assert (K0 : keeps s s) by done. steps.
  eapply Hm; [exact Hw|room|lia|done..|]. intros r s1 Hw1 K1 Hr. adv K1.
  eapply lowers_rvalue; [exact Hw1|room|done|done|]. intros r' s2 Hw2 K2 Hr'. adv K2. apply HQ; [|done|done].
  eapply wf_le; [| |exact Hw2]; room.
Qed.

(** An arm that needs less. *)
Lemma expr_spec_le in_fn n n' m : (n <= n')%nat -> expr_spec in_fn n m -> expr_spec in_fn n' m.
Proof.
  intros Hn Hm P k d b ctx s Q Hw Hk Hd Hb Hctx Hroot HQ. assert (W * n <= W * n')%nat by (by apply Nat.mul_le_mono_l).
  eapply Hm; [exact Hw|lia|lia|done..|]. intros r s' Hw'. apply HQ. eapply wf_le; [| |exact Hw']; lia.
Qed.

(** ** Names and fields *)

Lemma lowers_field_access in_fn access :
  (size_kind (ExprKind_FieldAccess access) <= S N)%nat -> supported_kind in_fn (ExprKind_FieldAccess access) = true ->
  expr_spec in_fn (size_kind (ExprKind_FieldAccess access)) (fun b ctx => lower_field_access b access ctx).
Proof.
  destruct access as [lhs field span]. cbn [size_kind supported_kind]. intros Hn Hs P k d b ctx s Q Hw Hk Hd Hb Hctx Hroot HQ.
  assert (K0 : keeps s s) by done. unfold lower_field_access, lower_field_access_no_ctx_handling.
  destruct (result_location ctx); steps; expr r; steps; emit i; try (steps; eapply lowers_rvalue; [eassumption|room|done|done|];
    intros r' s2 Hw2 K2 Hr'; adv K2); (apply HQ; [eapply wf_le; [| |eassumption]; room|done|done]).
Qed.

Lemma lowers_ident P k d b ident ctx span s (Q : option InstructionRef -> Lowerer -> Prop) :
  wf P k d s -> (2 <= k)%nat -> scope_in s b -> ctx_ok s ctx ->
  (forall o s', wf P (k - 2) d s' -> keeps s s' ->
     match o with Some r => ref_ok s' r | None => errors s' <> [] end -> Q o s') ->
  lowers (lower_ident b ident ctx span) s Q.
Proof.
  intros Hw Hk Hb Hctx HQ. assert (K0 : keeps s s) by done. unfold lower_ident. steps.
  eapply lowers_resolve; [exact Hw|by apply scope_lt|]. intros o s1 ps Hw1 K1 _ Hc Ho. adv K1.
  assert (Hdone : forall k' s2 r, (k - 2 <= k')%nat -> wf P k' d s2 -> keeps s s2 -> ref_ok s2 r -> Q (Some r) s2).
  { intros k' s2 r Hk' Hw2 K2 Hr. apply HQ; [|done|done]. eapply wf_le; [| |exact Hw2]; lia. }
  assert (Hval : forall s2 r, wf P (k - 1) d s2 -> keeps s s2 -> ctx_ok s2 ctx -> ref_ok s2 r ->
    lowers (i ← rvalue b r ctx span; mret (Some i)) s2 Q).
  { intros s2 r Hw2 K2 Hctx2 Hr. steps. eapply lowers_rvalue; [exact Hw2|lia|done|done|]. intros r' s3 Hw3 K3 Hr'.
    adv K3. steps. eapply Hdone; [|exact Hw3|done|done]. lia. }
  destruct o as [x|].
  - specialize (Ho x eq_refl). destruct x as [r|r| |r n0]; simpl in Ho.
    + destruct (result_location ctx) eqn:Hloc; try (steps; emit i; by apply Hval); steps; eapply Hdone; [|exact Hw1|done|done]; lia.
    + apply Hval; [|done..]. eapply wf_le; [| |exact Hw1]; lia.
    + destruct (result_location ctx) eqn:Hloc; try (steps; emit i; by apply Hval); steps; emit i; steps;
        eapply Hdone; [|eassumption|done|done]; lia.
    + destruct Ho as [Hr Hn]. destruct r as [id|v].
      * steps. eapply lowers_capture; [exact Hw1|lia|done|exact Hc|exact Hr|exact Hn|].
        intros i idx s2 Hw2 K2 Hi _ _ _. adv K2. steps. eapply Hdone; [|exact Hw2|done|done]; lia.
      * steps. eexists (Interned v), s1. split; [done|]. steps. eapply Hdone; [|exact Hw1|done|done]; lia.
  - steps. apply lowers_error_at. intros e. steps. eapply lowers_push_error; [exact Hw1|]. intros s2 Hw2 K2 He. adv K2.
    steps. apply HQ; [|done|done]. eapply wf_le; [| |exact Hw2]; lia.
Qed.

Lemma lowers_ident_expr in_fn ident span n :
  expr_spec in_fn (S n) (fun b ctx => i ← lower_ident b ident ctx span;
    match i with Some i => mret i | None => inst_invalid b end).
Proof.
  intros P k d b ctx s Q Hw Hk Hd Hb Hctx Hroot HQ. assert (K0 : keeps s s) by done. steps.
  eapply lowers_ident; [exact Hw|room|done|done|]. intros o s1 Hw1 K1 Ho. adv K1. destruct o as [r|].
  - steps. apply HQ; [|done|done]. eapply wf_le; [| |exact Hw1]; room.
  - unfold inst_invalid. emit i. apply HQ; [|done|done]. eapply wf_le; [| |eassumption]; room.
Qed.

(** ** Operators *)

Definition binary_ok (opcode : InstructionRef -> InstructionRef -> Span.Span -> Vuir.Opcode) : Prop :=
  forall P s x y span, ref_ok s x -> ref_ok s y -> emit_ok P s (opcode x y span) /\ opcode x y span <> Vuir.Invalid.

Lemma lowers_binary in_fn lhs rhs opcode span :
  binary_ok opcode -> (size_expr lhs + size_expr rhs <= N)%nat ->
  supported_expr in_fn lhs && supported_expr in_fn rhs = true ->
  expr_spec in_fn (S (size_expr lhs + size_expr rhs)) (fun b ctx => lower_binary b (mkBinOp lhs rhs) opcode span).
Proof.
  intros Hop Hn [Hl Hr]%andb_true_iff P k d b ctx s Q Hw Hk Hd Hb Hctx Hroot HQ. assert (K0 : keeps s s) by done.
  unfold lower_binary. steps. expr x. steps. expr y. steps. destruct (Hop P s1 x y span) as [He Hv]; [done|done|].
  eapply lowers_inst; [eassumption|room|exact He|done|]. intros i s2 Hw2 K2 Hi. adv K2. apply HQ; [|done|done].
  eapply wf_le; [| |exact Hw2]; room.
Qed.

(** An instruction with one operand. *)
Lemma lowers_unary in_fn e opcode inner :
  (forall P s x, ref_ok s x -> emit_ok P s (opcode x) /\ opcode x <> Vuir.Invalid) -> (size_expr e <= N)%nat ->
  supported_expr in_fn e = true -> (forall s, ctx_ok s inner) ->
  expr_spec in_fn (S (size_expr e)) (fun b ctx => e ← lower_expr b e inner; inst b (opcode e)).
Proof.
  intros Hop Hn Hs Hin P k d b ctx s Q Hw Hk Hd Hb Hctx Hroot HQ. assert (K0 : keeps s s) by done. steps.
  eapply call_expr; [exact HE|lia|exact Hs|exact Hw|room|lia|done|apply Hin|done|].
  intros x s1 Hw1 K1 Hx. adv K1. destruct (Hop P s1 x) as [He Hv]; [done|].
  eapply lowers_inst; [exact Hw1|room|exact He|done|]. intros i s2 Hw2 K2 Hi. adv K2. apply HQ; [|done|done].
  eapply wf_le; [| |exact Hw2]; room.
Qed.

(** ** Calls *)

Lemma expected_refs s (o : option InstructionRef) :
  (forall ty, o = Some ty -> ref_ok s ty) -> Forall (ref_ok s) (of_opt (fun x => [x]) o).
Proof. intros H. destruct o; [|constructor]. constructor; [by apply H|constructor]. Qed.

Lemma lowers_type_of in_fn args span :
  (sum size_arg args <= N)%nat -> forallb (supported_arg in_fn) args = true ->
  expr_spec in_fn (S (sum size_arg args)) (fun b ctx => lower_type_of b args ctx span).
Proof.
  intros Hn Hs P k d b ctx s Q Hw Hk Hd Hb Hctx Hroot HQ. assert (K0 : keeps s s) by done. unfold lower_type_of.
  assert (Herr : lowers (push_error_at (bytes_of "@type_of expects exactly one positional argument") span ;; inst_invalid b) s Q).
  { eapply lowers_error_inst; [exact Hw|room|]. intros r s' Hw' K'. apply HQ; [|done]. eapply wf_le; [| |exact Hw']; room. }
  destruct args as [|[name value|value] [|]]; try exact Herr. cbn [sum size_arg forallb supported_arg] in *.
  rewrite andb_true_r in Hs. steps. expr r. steps. emit i. steps. eapply lowers_rvalue; [eassumption|room|done|done|].
  intros r' s2 Hw2 K2 Hr'. adv K2. apply HQ; [|done|done]. eapply wf_le; [| |exact Hw2]; room.
Qed.

Lemma arg_ctx_ok s call_inst e : id_ok s call_inst -> ctx_ok s (arg_ctx call_inst e).
Proof. intros Hc. unfold arg_ctx. repeat case_match; first [apply ctx_ok_none|by apply ctx_ok_coerce]. Qed.

Lemma lowers_arg in_fn arg call_inst P k d b s (Q : Vuir.FnCallArg -> Lowerer -> Prop) :
  (size_arg arg <= N)%nat -> supported_arg in_fn arg = true -> kind_at P s call_inst = Some TComptime ->
  id_ok s call_inst ->
  wf P k d s -> (W * size_arg arg <= k)%nat -> (size_arg arg <= d)%nat -> scope_in s b -> root_ok in_fn s ->
  (forall a s', wf P (k - W * size_arg arg) (d - size_arg arg) s' -> keeps s s' -> Forall (id_ok s') (Vuir.arg_body a) ->
     Q a s') ->
  lowers (lower_arg b call_inst arg) s Q.
Proof.
  intros Hn Hs Hkc Hc Hw Hk Hd Hb Hroot HQ.
  set (value := match arg with Arg_Named _ value => value | Arg_Positional value => value end).
  assert (Hsz : size_arg arg = S (size_expr value)) by (by destruct arg).
  assert (Hsup : supported_expr in_fn value = true) by (by destruct arg). rewrite Hsz in *.
  enough (Hgo : forall name span, lowers (
      arg_block_scope ← stack_block b BlockKind.Body;
      lowered_arg ← lower_expr arg_block_scope value (arg_ctx call_inst value);
      inst arg_block_scope (Vuir.BreakComptime call_inst lowered_arg) ;;
      arg_body ← collect_instructions_and_unstack_block arg_block_scope;
      mret {| Vuir.arg_name := name; Vuir.arg_body := arg_body; Vuir.arg_span := span |}) s Q).
  { unfold lower_arg. destruct arg; apply Hgo. }
  intros name span. assert (K0 : keeps s s) by done. steps.
  eapply lowers_open; [exact Hw|by apply scope_lt|done|]. intros o b' Ho Hb' Hwo Hbo Hso. opn Ho. steps.
  eapply call_expr; [exact HE|lia|exact Hsup|exact Hwo|room|lia|done|by apply arg_ctx_ok|done|].
  intros r s1 Hw1 K1 Hr. adv K1. steps. emit br. steps.
  eapply lowers_close; [exact Ho|exact Hb'|exact Hw|eassumption|done|]. intros l s9 Hw9 K9 Hc9 Hl _. cls Hc9 K9. steps.
  apply HQ; [|done|done]. eapply wf_le; [| |exact Hw9]; room.
Qed.

Lemma lowers_discover_import P k d callee args span s (Q : unit -> Lowerer -> Prop) :
  wf P k d s -> (forall s', wf P k d s' -> keeps s s' -> Q tt s') -> lowers (discover_import callee args span) s Q.
Proof.
  intros Hw HQ. unfold discover_import. destruct (is_import callee); [|by apply lowers_mret, HQ].
  destruct (import_of args); [|by eapply lowers_push_error_at; [exact Hw|]; intros s' Hw' K' _; apply HQ].
  apply lowers_modify, HQ; [by destruct Hw|]. split; [|done]. split; try done. exists (scopes s), [].
  rewrite app_nil_r. split_and!; [done|done|constructor].
Qed.

Definition call_ref (c : CallKind) : InstructionRef := match c with Direct r => r | Field r _ => r end.

Lemma lowers_fn_call in_fn callee args span :
  (size_expr callee + sum size_arg args <= N)%nat ->
  supported_expr in_fn callee && forallb (supported_arg in_fn) args = true ->
  expr_spec in_fn (S (size_expr callee + sum size_arg args)) (fun b ctx => lower_fn_call b callee args ctx span).
Proof.
  intros Hn [Hc Ha]%andb_true_iff P k d b ctx s Q Hw Hk Hd Hb Hctx Hroot HQ. assert (K0 : keeps s s) by done.
  unfold lower_fn_call. steps.
  eapply (lowers_mono _ _ (fun c s1 => wf P (k - W * size_expr callee) (d - size_expr callee) s1 /\ keeps s s1 /\ ref_ok s1 (call_ref c))).
  { assert (Hdirect : lowers (fun_ ← lower_expr b callee ctx_none; mret (Direct fun_)) s (fun c s1 =>
      wf P (k - W * size_expr callee) (d - size_expr callee) s1 /\ keeps s s1 /\ ref_ok s1 (call_ref c))).
    { steps. expr r. by steps. }
    destruct callee as [id ck cspan]. unfold expr_kind. destruct ck as [| | | | | | | | | | | | | | | | | | | | | | | | | | | | | | | | | | | | | | |[lhs field fspan]| | | | | | | | | |];
      try exact Hdirect. clear Hdirect. cbn [size_expr size_kind supported_expr supported_kind] in *. steps. expr r. steps.
    split_and!; [|done|done]. eapply wf_le; [| |eassumption]; lia. }
  intros c s1 (Hw1 & K1 & Hcr). adv K1. steps.
  eapply lowers_expected_ty; [exact Hw1|room|done|]. intros o s2 Hw2 K2 Ho%expected_refs. adv K2. steps.
  hole TComptime i. steps.
  eapply (lowers_collect_items D _ size_arg (fun s _ => scope_in s b /\ root_ok in_fn s /\ id_ok s i /\
    kind_at (pend TComptime i P) s i = Some TComptime) (fun s a => Forall (id_ok s) (Vuir.arg_body a)));
    [eassumption|room|room|done| | | |].
  { intros s3 s4 [] [G _] (? & ? & ? & ?).
    split_and!; [by eapply scope_grows|by eapply root_grows|by eapply id_grows|by eapply kind_grows]. }
  { intros s3 s4 a [G _]. by apply ids_grow. }
  { intros x k0 d0 s3 Q' Hx Hw3 Hk0 Hd0 (Hb0 & Hr0 & Hi0 & Hk1) HQ'.
    pose proof (sum_elem size_arg _ _ Hx) as Hle. pose proof (forallb_elem _ _ _ Ha Hx) as Hsup.
    eapply (lowers_arg in_fn); [lia|exact Hsup|exact Hk1|exact Hi0|exact Hw3|done..]. }
  intros fn_args s3 Hw3 K3 Hargs%List.Forall_flat_map. adv K3. steps.
  eapply lowers_discover_import; [exact Hw3|]. intros s4 Hw4 K4. adv K4. steps.
  assert (Hpost : forall s', wf P (k - W * size_expr callee - 1 - 1 - W * sum size_arg args)
      (d - size_expr callee - sum size_arg args) s' -> keeps s s' -> id_ok s' i -> Q (Instruction i) s').
  { intros s' Hw' K' Hi'. apply HQ; [|done|done]. eapply wf_le; [| |exact Hw']; room. }
  destruct c as [f|r f]; fill TComptime; steps; by apply Hpost.
Qed.

(** ** Initializers *)

Lemma lowers_init_ty in_fn ty what span P k d b ctx s (Q : InstructionRef -> Lowerer -> Prop) :
  (opt_size size_expr ty <= N)%nat -> opt_all (supported_expr in_fn) ty = true ->
  wf P k d s -> (W * opt_size size_expr ty + 2 <= k)%nat -> (opt_size size_expr ty <= d)%nat -> scope_in s b ->
  ctx_ok s ctx -> root_ok in_fn s ->
  (forall r s', wf P (k - W * opt_size size_expr ty - 2) (d - opt_size size_expr ty) s' -> keeps s s' -> ref_ok s' r -> Q r s') ->
  lowers (init_ty b ty ctx what span) s Q.
Proof.
  intros Hn Hs Hw Hk Hd Hb Hctx Hroot HQ. assert (K0 : keeps s s) by done. unfold init_ty.
  destruct ty as [ty|]; cbn [opt_size opt_all] in *.
  - expr r. apply HQ; [|done|done]. eapply wf_le; [| |eassumption]; lia.
  - steps. eapply lowers_expected_ty; [exact Hw|lia|done|]. intros [r|] s1 Hw1 K1 Ho; adv K1.
    + steps. apply HQ; [|done|by apply Ho]. eapply wf_le; [| |eassumption]; lia.
    + eapply lowers_error_inst; [exact Hw1|lia|]. intros r s2 Hw2 K2 Hr. adv K2. apply HQ; [|done|done].
      eapply wf_le; [| |exact Hw2]; lia.
Qed.

Lemma lowers_struct_init in_fn ty fields span :
  (opt_size size_expr ty + sum size_field_init fields <= N)%nat ->
  opt_all (supported_expr in_fn) ty && forallb (supported_field_init in_fn) fields = true ->
  expr_spec in_fn (S (opt_size size_expr ty + sum size_field_init fields))
    (fun b ctx => lower_struct_init b (mkStructInit ty fields) ctx span).
Proof.
  intros Hn [Ht Hf]%andb_true_iff P k d b ctx s Q Hw Hk Hd Hb Hctx Hroot HQ. assert (K0 : keeps s s) by done.
  unfold lower_struct_init. steps. eapply (lowers_init_ty in_fn); [|exact Ht|exact Hw|room|lia|done..|]. { lia. }
  intros t s1 Hw1 K1 Hty. adv K1. steps.
  eapply (lowers_collect_items D _ size_field_init (fun s _ => scope_in s b /\ root_ok in_fn s /\ ref_ok s t)
    (fun s f => ref_ok s (Vuir.adt_value f))); [exact Hw1|room|room|done| | | |].
  { intros s3 s4 [] [G _] (? & ? & ?). split_and!; [by eapply scope_grows|by eapply root_grows|by eapply ref_grows]. }
  { intros s3 s4 a [G _]. by apply ref_grows. }
  { intros x k0 d0 s3 Q' Hx Hw3 Hk0 Hd0 (Hb0 & Hr0 & Ht0) HQ'.
    pose proof (sum_elem size_field_init _ _ Hx) as Hle. pose proof (forallb_elem _ _ _ Hf Hx) as Hsup.
    destruct x as [ident value]. cbn [size_field_init supported_field_init] in *. assert (K3 : keeps s3 s3) by done.
    steps. emit fty. steps. expr v. steps. apply HQ'; [|done|done]. eapply wf_le; [| |eassumption]; room. }
  intros fs s3 Hw3 K3 Hfs. adv K3. steps.
  assert (Hrefs : Forall (ref_ok s3) (map Vuir.adt_value fs)) by (by apply Forall_fmap).
  destruct fs as [|f fs]; emit i; (apply HQ; [|done|done]); (eapply wf_le; [| |eassumption]; room).
Qed.

Lemma lowers_array_init in_fn ty elements span :
  (opt_size size_expr ty + sum size_expr elements <= N)%nat ->
  opt_all (supported_expr in_fn) ty && forallb (supported_expr in_fn) elements = true ->
  expr_spec in_fn (S (opt_size size_expr ty + sum size_expr elements))
    (fun b ctx => lower_array_init b (mkArrayInit ty elements) ctx span).
Proof.
  intros Hn [Ht Hf]%andb_true_iff P k d b ctx s Q Hw Hk Hd Hb Hctx Hroot HQ. assert (K0 : keeps s s) by done.
  unfold lower_array_init. steps. eapply (lowers_init_ty in_fn); [|exact Ht|exact Hw|room|lia|done..|]. { lia. }
  intros t s1 Hw1 K1 Hty. adv K1. steps.
  eapply (lowers_collect_items D _ size_expr (fun s _ => scope_in s b /\ root_ok in_fn s) ref_ok); [exact Hw1|room|room|done| | | |].
  { intros s3 s4 [] [G _] (? & ?). split_and!; [by eapply scope_grows|by eapply root_grows]. }
  { intros s3 s4 a [G _]. by apply ref_grows. }
  { intros x k0 d0 s3 Q' Hx Hw3 Hk0 Hd0 (Hb0 & Hr0) HQ'.
    pose proof (sum_elem size_expr _ _ Hx) as Hle. pose proof (forallb_elem _ _ _ Hf Hx) as Hsup.
    eapply call_expr; [exact HE|lia|exact Hsup|exact Hw3|done..|apply ctx_ok_none|done|exact HQ']. }
  intros fs s3 Hw3 K3 Hfs. adv K3. steps.
  destruct fs as [|f fs]; emit i; (apply HQ; [|done|done]); (eapply wf_le; [| |eassumption]; room).
Qed.

(** ** Control flow *)

Lemma lowers_check_label P k d b label s (Q : unit -> Lowerer -> Prop) :
  wf P k d s -> scope_in s b -> (forall s', wf P k d s' -> keeps s s' -> Q tt s') -> lowers (check_label b label) s Q.
Proof.
  intros Hw Hb HQ. unfold check_label. destruct label as [l|]; [|by apply lowers_mret, HQ].
  unfold check_label_already_defined. steps.
  eapply (lowers_find D P k d (fun _ sc => match sc with
          | Scope_Block block =>
              match block_label block with
              | Some l' => if bool_decide (Ident.symbol l' = Ident.symbol l) then Some l' else None
              | None => None
              end
          | _ => None
          end)); [exact Hw|by apply scope_lt|]. intros [x|] _; steps; [|by apply HQ].
  apply lowers_redefinition. intros e. steps. eapply lowers_push_error; [exact Hw|]. intros s' Hw' K' _. steps. by apply HQ.
Qed.

Lemma lowers_branch_ctx P k d b ctx s (Q : ExprContext -> Lowerer -> Prop) :
  wf P k d s -> (0 < k)%nat -> ctx_ok s ctx ->
  (forall c s', wf P (k - 1) d s' -> keeps s s' -> ctx_ok s' c -> Q c s') -> lowers (branch_ctx_of b ctx) s Q.
Proof.
  intros Hw Hk Hctx HQ. unfold branch_ctx_of. steps. eapply lowers_expected_ty; [exact Hw|done|done|].
  intros [ty|] s' Hw' K' Ho; steps; apply HQ; try done; [by apply ctx_ok_coerce, Ho|apply ctx_ok_none].
Qed.

End Exprs.
End LowerExprSpec.

Module LowerFlowSpec.
Import Ast IrId LowerState Lower LowerSyntax LowerLogic LowerScopes LowerSteps LowerStmtSpec LowerDeclSpec LowerTypeSpec.
Import LowerExprSpec.

Section Flow.
Context `{SL : SettingLaws, RC : !Rec}.
Context (D N : nat) (HE : exprs_ok D N) (HN : named_ok D N).
Implicit Types (s : Lowerer) (b : nat) (r : InstructionRef) (P : gmap Z Target) (k d : nat).
Implicit Types (in_fn : bool) (span : Span.Span) (ctx : ExprContext).
Abbreviation wf := (LowerLogic.wf D).
Abbreviation W := (LowerLogic.W D).
Abbreviation expr_spec := (LowerSteps.expr_spec D).

(** ** If *)

Lemma lowers_if_body in_fn body i P k d b ctx s (Q : unit -> Lowerer -> Prop) :
  (size_if_body body <= N)%nat -> supported_if_body in_fn body = true -> kind_at P s i = Some TBlock ->
  wf P k d s -> (W * size_if_body body <= k)%nat -> (size_if_body body <= d)%nat -> block_in s b -> ctx_ok s ctx ->
  root_ok in_fn s ->
  (forall s', wf P (k - W * size_if_body body) (d - size_if_body body) s' -> grows s s' -> Q tt s') ->
  lowers (lower_if_body b body i ctx) s Q.
Proof.
  intros Hn Hs Hi Hw Hk Hd Hb Hctx Hroot HQ. pose proof (block_in_scope _ _ Hb) as Hsc.
  unfold lower_if_body. destruct body as [block|e]; cbn [size_if_body supported_if_body] in *.
  - assert (G0 : grows s s) by done. steps. eapply (lowers_block D N HE HN in_fn); [lia|exact Hs|exact Hw|room|lia|done|done|].
    intros s1 Hw1 G1. adv G1. steps. eapply lowers_inst_unless_never; [exact Hw1|room|done| |done|].
    { split; simpl; [by repeat constructor|done|done|by left]. }
    intros s2 Hw2 K2. adv K2. apply HQ; [|done]. eapply wf_le; [| |exact Hw2]; room.
  - assert (K0 : keeps s s) by done. steps. expr r. steps. eapply lowers_inst_unless_never; [eassumption|room|done| |done|].
    { split; simpl; [by repeat constructor|done|done|by left]. }
    intros s2 Hw2 K2. adv K2. apply HQ; [|by apply keeps_grows]. eapply wf_le; [| |exact Hw2]; room.
Qed.

Lemma lowers_if_aux n in_fn i :
  (size_if i <= n)%nat -> (size_if i <= N)%nat -> supported_if in_fn i = true ->
  expr_spec in_fn (size_if i) (fun b ctx => lower_expr_if b i ctx).
Proof.
  revert i. induction n as [|n IH]; intros [id cond then_body else_block span]; cbn [size_if supported_if]; [lia|].
  intros Hn HN' [[Hc Ht]%andb_true_iff He]%andb_true_iff P k d b ctx s Q Hw Hk Hd Hb Hctx Hroot HQ.
  assert (K0 : keeps s s) by done. unfold lower_expr_if; fold lower_expr_if. steps. expr r. steps.
  eapply lowers_branch_ctx; [eassumption|room|done|]. intros c s1 Hw1 K1 Hcc. adv K1. steps.
  hole TBlock i. steps.
  eapply lowers_open; [eassumption|by apply scope_lt|done|]. intros o b' Ho Hb' Hwo Hbo Hso. opn Ho. steps.
  eapply (lowers_if_body in_fn); [|exact Ht|done|exact Hwo|room|lia|done..|]. { lia. }
  intros s3 Hw3 G3. adv G3. steps.
  eapply lowers_close; [exact Ho|exact Hb'|eassumption|exact Hw3|done|]. intros lt s4 Hw4 K4 Hc4 Hlt _. cls Hc4 K4. steps.
  eapply lowers_open; [exact Hw4|by apply scope_lt|done|]. intros o2 b2 Ho2 Hb2 Hwo2 Hbo2 Hso2. opn Ho2. steps.
  eapply (lowers_mono _ _ (fun _ s5 => wf (pend TBlock i P)
    (k - W * size_expr cond - W * size_if_body then_body - W * opt_size size_else else_block - 4)
    (d - size_expr cond - size_if_body then_body - opt_size size_else else_block) s5 /\ grows o2 s5)).
  { destruct else_block as [[ei|body]|]; cbn [opt_size opt_all size_else supported_else] in *.
    - destruct ei as [id2 c2 t2 e2 sp2] eqn:Hei. rewrite <- Hei in *. assert (K2 : keeps o2 o2) by done. steps.
      eapply (IH ei); [lia|lia|done|exact Hwo2|room|lia|done..|]. intros v s5 Hw5 K5 Hv. adv K5. steps.
      eapply lowers_inst; [exact Hw5|room| |done|].
      { split; simpl; [by constructor|done|done|by left]. }
      intros j s6 Hw6 K6 Hj. adv K6. steps. split; [|by apply keeps_grows]. eapply wf_le; [| |exact Hw6]; room.
    - eapply (lowers_if_body in_fn); [lia|exact He|done|exact Hwo2|room|lia|done..|]. intros s5 Hw5 G5.
      split; [|done]. eapply wf_le; [| |exact Hw5]; room.
    - steps. split; [|done]. eapply wf_le; [| |exact Hwo2]; room. }
  intros _ s5 [Hw5 G5]. adv G5. steps.
  eapply lowers_inst_unless_never; [exact Hw5|room|done| |done|]. { split; simpl; [known|done|done|by left]. }
  intros s6 Hw6 K6. adv K6. steps.
  eapply lowers_close; [exact Ho2|exact Hb2|eassumption|exact Hw6|done|]. intros le s7 Hw7 K7 Hc7 Hle _. cls Hc7 K7.
  unfold finalize_branch. steps.
  eapply lowers_open; [exact Hw7|by apply scope_lt|done|]. intros o3 b3 Ho3 Hb3 Hwo3 Hbo3 Hso3. opn Ho3. steps.
  emit br. steps.
  eapply lowers_close; [exact Ho3|exact Hb3|exact Hw7|eassumption|done|]. intros lb s9 Hw9 K9 Hc9 Hlb _. cls Hc9 K9. steps.
  fill TBlock. steps. apply HQ; [|done|done]. eapply wf_le; [| |eassumption]; room.
Qed.

Lemma lowers_if in_fn i :
  (size_if i <= N)%nat -> supported_if in_fn i = true ->
  expr_spec in_fn (size_if i) (fun b ctx => lower_expr_if b i ctx).
Proof. intros. by apply (lowers_if_aux (size_if i)). Qed.

(** ** Blocks and loops *)

Lemma lowers_block_expr in_fn is_loop block :
  (size_block block <= N)%nat -> supported_block in_fn block = true ->
  expr_spec in_fn (size_block block) (fun b ctx => lower_block_expr b is_loop block).
Proof.
  intros Hn Hs P k d b ctx s Q Hw Hk Hd Hb Hctx Hroot HQ. assert (K0 : keeps s s) by done. unfold lower_block_expr.
  assert (Hpos : (W * 1 <= W * size_block block)%nat) by (apply Nat.mul_le_mono_l; destruct block; simpl; lia).
  destruct block as [id dq label stmts span] eqn:Hbl. rewrite <- Hbl in *. steps.
  eapply lowers_check_label; [exact Hw|done|]. intros s1 Hw1 K1. adv K1. steps.
  destruct is_loop.
  - hole TLoop i. steps.
    eapply lowers_open; [eassumption|by apply scope_lt|by exists i|]. intros o b' Ho Hb' Hwo Hbo Hso. opn Ho. steps.
    eapply (lowers_block D N HE HN in_fn); [done|exact Hs|exact Hwo|room|done|done|done|]. intros s3 Hw3 G3. adv G3. steps.
    eapply lowers_inst_unless_never; [exact Hw3|room|done|solve_emit|done|]. intros s4 Hw4 K4. adv K4. steps.
    eapply lowers_close; [exact Ho|exact Hb'|eassumption|exact Hw4|done|]. intros l s9 Hw9 K9 Hc9 Hl _. cls Hc9 K9. steps.
    fill TLoop. steps. apply HQ; [|done|done]. eapply wf_le; [| |eassumption]; room.
  - hole TBlock i. steps.
    eapply lowers_open; [eassumption|by apply scope_lt|by exists i|]. intros o b' Ho Hb' Hwo Hbo Hso. opn Ho. steps.
    eapply (lowers_block D N HE HN in_fn); [done|exact Hs|exact Hwo|room|done|done|done|]. intros s3 Hw3 G3. adv G3. steps.
    eapply lowers_close; [exact Ho|exact Hb'|eassumption|exact Hw3|done|]. intros l s9 Hw9 K9 Hc9 Hl _. cls Hc9 K9. steps.
    fill TBlock. steps. apply HQ; [|done|done]. eapply wf_le; [| |eassumption]; room.
Qed.

Lemma lowers_break_body P k d b branch target span s (Q : list InstructionId -> Lowerer -> Prop) :
  wf P k d s -> (0 < k)%nat -> scope_in s b ->
  kind_at P s target = Some TBlock \/ kind_at P s target = Some TLoop ->
  (forall l s', wf P (k - 1) d s' -> keeps s s' -> Forall (id_ok s') l -> Q l s') ->
  lowers (break_body b branch target span) s Q.
Proof.
  intros Hw Hk Hb Ht HQ. unfold break_body. assert (K0 : keeps s s) by done. steps.
  eapply lowers_open; [exact Hw|by apply scope_lt|done|]. intros o b' Ho Hb' Hwo Hbo Hso.
  assert (Hto : kind_at P o target = Some TBlock \/ kind_at P o target = Some TLoop) by (by rewrite Ho).
  opn Ho. steps. eapply lowers_inst; [exact Hwo|done| |done|]. { split; simpl; [by repeat constructor|done|done|done]. }
  intros i s1 Hw1 K1 Hi. adv K1. steps.
  eapply lowers_close; [exact Ho|exact Hb'|exact Hw|exact Hw1|done|]. intros l s9 Hw9 K9 Hc9 Hl _. cls Hc9 K9. by apply HQ.
Qed.

Lemma lowers_while in_fn w :
  (size_kind (ExprKind_While w) <= S N)%nat -> supported_kind in_fn (ExprKind_While w) = true ->
  expr_spec in_fn (size_kind (ExprKind_While w)) (fun b ctx => lower_while b w).
Proof.
  destruct w as [id dq cond body span]. cbn [size_kind supported_kind]. intros Hn [Hc Hs]%andb_true_iff.
  intros P k d b ctx s Q Hw Hk Hd Hb Hctx Hroot HQ. assert (K0 : keeps s s) by done. unfold lower_while.
  destruct body as [bid bdq label stmts bspan] eqn:Hbl. rewrite <- Hbl in *. steps.
  eapply lowers_check_label; [exact Hw|done|]. intros s1 Hw1 K1. adv K1. steps.
  hole TLoop i. steps.
  eapply lowers_open; [eassumption|by apply scope_lt|by exists i|]. intros o b' Ho Hb' Hwo Hbo Hso. opn Ho. steps.
  expr r. steps. emit c. steps.
  hole TBlock j. steps.
  eapply (lowers_break_body _ _ _ b); [eassumption|room|done|right; eassumption|]. intros lt s5 Hw5 K5 Hlt. adv K5. steps.
  eapply (lowers_break_body _ _ _ b); [eassumption|room|done|left; eassumption|]. intros le s6 Hw6 K6 Hle. adv K6.
  unfold finalize_branch. steps.
  eapply lowers_open; [exact Hw6|by apply scope_lt|done|]. intros o3 b3 Ho3 Hb3 Hwo3 Hbo3 Hso3. opn Ho3. steps.
  emit br. steps.
  eapply lowers_close; [exact Ho3|exact Hb3|exact Hw6|eassumption|done|]. intros lb s9 Hw9 K9 Hc9 Hlb _. cls Hc9 K9. steps.
  fill TBlock. steps.
  eapply (lowers_block D N HE HN in_fn); [lia|exact Hs|eassumption|room|lia|done|done|]. intros s10 Hw10 G10. adv G10. steps.
  eapply lowers_inst_unless_never; [exact Hw10|room|done|solve_emit|done|]. intros s11 Hw11 K11. adv K11. steps.
  eapply lowers_close; [exact Ho|exact Hb'|eassumption|exact Hw11|done|]. intros l s12 Hw12 K12 Hc12 Hl _. cls Hc12 K12. steps.
  fill TLoop. steps. apply HQ; [|done|done]. eapply wf_le; [| |eassumption]; room.
Qed.

(** ** Switches *)

Lemma lowers_switch_body in_fn body P k d b ctx s (Q : InstructionRef * Span.Span -> Lowerer -> Prop) :
  (size_switch_body body <= N)%nat -> supported_switch_body in_fn body = true ->
  wf P k d s -> (W * size_switch_body body <= k)%nat -> (size_switch_body body <= d)%nat -> scope_in s b ->
  ctx_ok s ctx -> root_ok in_fn s ->
  (forall r span s', wf P (k + 2 - W * size_switch_body body) (d - size_switch_body body) s' -> grows s s' -> ref_ok s' r ->
     Q (r, span) s') ->
  lowers (lower_switch_body b body ctx) s Q.
Proof.
  intros Hn Hs Hw Hk Hd Hb Hctx Hroot HQ. unfold lower_switch_body.
  destruct body as [block|e]; cbn [size_switch_body supported_switch_body] in *.
  - steps. eapply (lowers_block D N HE HN in_fn); [lia|exact Hs|exact Hw|room|lia|done|done|].
    intros s1 Hw1 G1. steps. apply HQ; [|done|done]. eapply wf_le; [| |exact Hw1]; room.
  - assert (K0 : keeps s s) by done. steps. expr r. steps. apply HQ; [|by apply keeps_grows|done].
    eapply wf_le; [| |eassumption]; room.
Qed.

(** What makes the scope of a case. *)
Definition bind_spec (bind : nat -> M nat) (P : gmap Z Target) (f : Lowerer -> Prop) : Prop :=
  forall k d b s (Q : nat -> Lowerer -> Prop), wf P k d s -> (0 < k)%nat -> scope_in s b -> f s ->
    (forall b' s', wf P (k - 1) d s' -> grows s s' -> scope_in s' b' -> Q b' s') -> lowers (bind b) s Q.

Lemma lowers_case_body in_fn i bind f body P k d b ctx s (Q : list InstructionId -> Lowerer -> Prop) :
  bind_spec bind P f -> f (opened b (BlockKind.Branch (Instruction i)) s) ->
  (size_switch_body body <= N)%nat -> supported_switch_body in_fn body = true -> kind_at P s i = Some TBlock ->
  wf P k d s -> (W * size_switch_body body + 2 <= k)%nat -> (size_switch_body body <= d)%nat -> scope_in s b ->
  ctx_ok s ctx -> root_ok in_fn s ->
  (forall l s', wf P (k - 2 - W * size_switch_body body) (d - size_switch_body body) s' -> keeps s s' ->
     Forall (id_ok s') l -> Q l s') ->
  lowers (lower_case_body b i bind body ctx) s Q.
Proof.
  intros Hbind Hf Hn Hs Hi Hw Hk Hd Hb Hctx Hroot HQ. unfold lower_case_body. assert (K0 : keeps s s) by done. steps.
  eapply lowers_open; [exact Hw|by apply scope_lt|done|]. intros o b' Ho Hb' Hwo Hbo Hso. opn Ho. steps.
  eapply Hbind; [exact Hwo|lia|done|by rewrite Ho|]. intros b1 s1 Hw1 G1 Hb1. adv G1. steps.
  eapply (lowers_switch_body in_fn); [lia|exact Hs|exact Hw1|room|lia|done..|]. intros r sp s2 Hw2 G2 Hr. adv G2. steps.
  eapply lowers_inst_unless_never; [exact Hw2|lia|done| |done|]. { split; simpl; [known|done|done|by left]. }
  intros s3 Hw3 K3. adv K3. steps.
  eapply lowers_close; [exact Ho|exact Hb'|exact Hw|exact Hw3|done|]. intros l s9 Hw9 K9 Hc9 Hl _. cls Hc9 K9.
  apply HQ; [|done|done]. eapply wf_le; [| |exact Hw9]; lia.
Qed.

Lemma bind_nothing P f : bind_spec mret P f.
Proof. intros k d b s Q Hw Hk Hb _ HQ. apply lowers_mret, HQ; [|done|done]. eapply wf_le; [| |exact Hw]; lia. Qed.

Lemma bind_capture_spec P operand pattern id capture :
  bind_spec (bind_capture operand pattern id capture) P (fun s => ref_ok s operand /\ ref_ok s pattern).
Proof.
  intros k d b s Q Hw Hk Hb [Ho Hp] HQ. unfold bind_capture. destruct capture as [c|]; [|by eapply bind_nothing].
  assert (K0 : keeps s s) by done. steps. emit i. steps.
  eapply lowers_push_scope; [eassumption|done| |apply Nat.le_refl|].
  { split; [intros ? [= <-]; by apply scope_lt|]. by split. }
  intros s2 Hw2 G2 Hs2 _. pose proof (scope_pushed _ _ _ Hs2 I) as Hb2. adv G2. by apply HQ.
Qed.

Definition cases_ok s (acc : list Vuir.SwitchSingleCase * list Vuir.SwitchMultiCase) : Prop :=
  Forall (ref_ok s) (map Vuir.pattern acc.1 ++ flat_map Vuir.items acc.2) /\
  Forall (id_ok s) (flat_map Vuir.single_body acc.1 ++ flat_map Vuir.multi_body acc.2).

Lemma cases_keep s s' acc : keeps s s' -> cases_ok s acc -> cases_ok s' acc.
Proof. intros [G _] [? ?]. split; [by eapply refs_grow|by eapply ids_grow]. Qed.

Lemma lowers_patterns in_fn ps span P k d b s (Q : list InstructionRef * Span.Span -> Lowerer -> Prop) :
  (sum size_expr ps <= N)%nat -> forallb (supported_expr in_fn) ps = true ->
  wf P k d s -> (W * sum size_expr ps <= k)%nat -> (sum size_expr ps <= d)%nat -> scope_in s b -> root_ok in_fn s ->
  (forall items sp s', wf P (k - W * sum size_expr ps) (d - sum size_expr ps) s' -> keeps s s' ->
     Forall (ref_ok s') items -> Q (items, sp) s') ->
  lowers (for_each (fun '(items, patterns_span) pattern =>
        item ← lower_expr b pattern ctx_none;
        mret (items ++ [item], Span.merge patterns_span (expr_span pattern))) ps ([], span)) s Q.
Proof.
  intros Hn Hs Hw Hk Hd Hb Hroot HQ.
  eapply (lowers_for_each_items D _ size_expr (fun s acc => scope_in s b /\ root_ok in_fn s /\ Forall (ref_ok s) acc.1));
    [exact Hw|done|done| |by split_and!| |].
  { intros s3 s4 acc [G _] (? & ? & ?). split_and!; [by eapply scope_grows|by eapply root_grows|by eapply refs_grow]. }
  { intros x [items sp] k0 d0 s3 Q' Hx Hw3 Hk0 Hd0 (Hb0 & Hr0 & Hi0) HQ'. simpl in Hi0.
    pose proof (sum_elem size_expr _ _ Hx) as Hle. pose proof (forallb_elem _ _ _ Hs Hx) as Hsup.
    assert (K3 : keeps s3 s3) by done. steps. expr r. steps. apply HQ'; [done|done|]. split_and!; [done|done|].
    simpl. known. }
  intros [items sp] s3 Hw3 K3 (_ & _ & Hi). by apply HQ.
Qed.

Lemma lowers_switch_case in_fn case acc sw i operand ctx P k d b s
    (Q : list Vuir.SwitchSingleCase * list Vuir.SwitchMultiCase -> Lowerer -> Prop) :
  (size_case case <= N)%nat -> supported_case in_fn case = true -> kind_at P s i = Some TBlock ->
  wf P k d s -> (W * size_case case <= k)%nat -> (size_case case <= d)%nat -> scope_in s b -> scope_in s sw ->
  ctx_ok s ctx -> root_ok in_fn s -> ref_ok s operand -> cases_ok s acc ->
  (forall acc' s', wf P (k - W * size_case case) (d - size_case case) s' -> keeps s s' -> cases_ok s' acc' -> Q acc' s') ->
  lowers (lower_switch_case b sw i operand ctx acc case) s Q.
Proof.
  destruct case as [id patterns capture body span], acc as [single multi]. cbn [size_case supported_case].
  intros Hn [[Hne Hps]%andb_true_iff Hbody]%andb_true_iff Hi Hw Hk Hd Hb Hsw Hctx Hroot Hop [Har Hai] HQ.
  simpl in Har, Hai. apply Forall_app in Har as [Hr1 Hr2], Hai as [Hi1 Hi2].
  unfold lower_switch_case. assert (K0 : keeps s s) by done. destruct patterns as [|p [|p2 ps]]; [done| |].
  - cbn [sum forallb] in *. rewrite andb_true_r in Hps. steps. expr r. steps.
    eapply (lowers_case_body in_fn i); [apply bind_capture_spec|by split|lia|exact Hbody|done|eassumption|room|lia|done..|].
    intros l s2 Hw2 K2 Hl. adv K2. steps. apply HQ; [|done|].
    + eapply wf_le; [| |exact Hw2]; room.
    + split; simpl; [rewrite map_app|rewrite flat_map_app]; simpl; rewrite ?app_nil_r; known.
  - set (all := p :: p2 :: ps) in *. steps.
    eapply (lowers_mono _ _ (fun _ s1 => wf P k d s1 /\ keeps s s1)).
    { destruct capture; [|by steps]. eapply lowers_push_error_at; [exact Hw|]. done. }
    intros _ s1 [Hw1 K1]. adv K1. steps.
    eapply (lowers_case_body in_fn i _ (fun _ => True)); [apply bind_nothing|done|lia|exact Hbody|done|exact Hw1|room|lia|done..|].
    intros l s2 Hw2 K2 Hl. adv K2. steps.
    eapply (lowers_patterns in_fn all); [lia|exact Hps|exact Hw2|room|lia|done..|].
    intros items sp s3 Hw3 K3 Hit. adv K3. steps. apply HQ; [|done|].
    + eapply wf_le; [| |exact Hw3]; room.
    + split; simpl; rewrite flat_map_app; simpl; rewrite ?app_nil_r; known.
Qed.

Lemma lowers_switch in_fn sw :
  (size_kind (ExprKind_Switch sw) <= S N)%nat -> supported_kind in_fn (ExprKind_Switch sw) = true ->
  expr_spec in_fn (size_kind (ExprKind_Switch sw)) (fun b ctx => lower_switch b sw ctx).
Proof.
  destruct sw as [id label e cases dq else_body span]. cbn [size_kind supported_kind].
  intros Hn [[He Hc]%andb_true_iff Hel]%andb_true_iff P k d b ctx s Q Hw Hk Hd Hb Hctx Hroot HQ.
  assert (K0 : keeps s s) by done. unfold lower_switch. steps.
  eapply lowers_check_label; [exact Hw|done|]. intros s1 Hw1 K1. adv K1. steps. hole TBlock i. steps.
  eapply lowers_open; [eassumption|by apply scope_lt|by exists i|]. intros o b' Ho Hb' Hwo Hbo Hso. opn Ho.
  assert (Ko : keeps o o) by done. steps.
  expr r. steps. emit ty. steps. eapply lowers_branch_ctx; [eassumption|room|done|]. intros c sc2 Hwc Kc Hcc. adv Kc. steps.
  eapply (lowers_for_each_items D _ size_case (fun s acc => scope_in s b /\ scope_in s b' /\ ctx_ok s c /\ root_ok in_fn s /\
    ref_ok s r /\ kind_at (pend TBlock i P) s i = Some TBlock /\ cases_ok s acc)); [exact Hwc|room|room| | | |].
  { intros s4 s5 acc K (? & ? & ? & ? & ? & ? & ?). pose proof K as [G _].
    split_and!; [by eapply scope_grows|by eapply scope_grows|by eapply ctx_grows|by eapply root_grows
      |by eapply ref_grows|by eapply kind_grows|by eapply cases_keep]. }
  { split_and!; [done..|]. split; constructor. }
  { intros x acc k0 d0 s4 Q' Hx Hw4 Hk0 Hd0 (Hb0 & Hs0 & Hc0 & Hr0 & Ho0 & Hk1 & Hacc) HQ'.
    pose proof (sum_elem size_case _ _ Hx) as Hle. pose proof (forallb_elem _ _ _ Hc Hx) as Hsup.
    eapply (lowers_switch_case in_fn); [lia|exact Hsup|exact Hk1|exact Hw4|done..|].
    intros acc' s5 Hw5 K5 Hacc'. apply HQ'; [done|done|]. destruct K5 as [G _].
    split_and!; [by eapply scope_grows|by eapply scope_grows|by eapply ctx_grows|by eapply root_grows
      |by eapply ref_grows|by eapply kind_grows|done]. }
  intros [single multi] sd Hwd Kd (_ & _ & _ & _ & _ & _ & [Hrefs Hids]). simpl in Hrefs, Hids. adv Kd. steps.
  apply Forall_app in Hids as [Hi1 Hi2].
  eapply (lowers_mono _ _ (fun x s5 => wf (pend TBlock i P)
    (k - 4 - W * size_expr e - W * sum size_case cases - 2 - W * opt_size size_switch_body else_body)
    (d - size_expr e - sum size_case cases - opt_size size_switch_body else_body) s5 /\ keeps sd s5 /\
    Forall (id_ok s5) (of_opt (fun l => l) x))).
  { destruct else_body as [body|]; cbn [opt opt_size opt_all] in *; steps.
    - eapply (lowers_case_body in_fn i _ (fun _ => True)); [apply bind_nothing|done|lia|exact Hel|done|exact Hwd|room|lia|done..|].
      intros l s5 Hw5 K5 Hl. steps. split_and!; [|done|done]. eapply wf_le; [| |exact Hw5]; room.
    - split_and!; [|done|constructor]. eapply wf_le; [| |exact Hwd]; room. }
  intros x s5 (Hw5 & K5 & Hx). adv K5. steps. emit swi. steps.
  eapply (lowers_mono _ _ (fun _ s7 => wf (pend TBlock i P)
    (k - 8 - W * size_expr e - W * sum size_case cases - W * opt_size size_switch_body else_body)
    (d - size_expr e - sum size_case cases - opt_size size_switch_body else_body) s7 /\ keeps s4 s7)).
  { destruct else_body; steps; [|eapply lowers_inst_unless_never; [eassumption|room|done| |done|]].
    - split; [|done]. eapply wf_le; [| |eassumption]; lia.
    - split; simpl; [by repeat constructor|done|done|by left].
    - intros s7 Hw7 K7. split; [|done]. eapply wf_le; [| |exact Hw7]; lia. }
  intros _ s7 [Hw7 K7]. adv K7. steps.
  eapply lowers_close; [exact Ho|exact Hb'|eassumption|exact Hw7|done|]. intros l s9 Hw9 K9 Hc9 Hl _. cls Hc9 K9. steps.
  fill TBlock. steps. apply HQ; [|done|done]. eapply wf_le; [| |eassumption]; room.
Qed.

Lemma lowers_index in_fn index span :
  (size_kind (ExprKind_Index index) <= S N)%nat -> supported_kind in_fn (ExprKind_Index index) = true ->
  expr_spec in_fn (size_kind (ExprKind_Index index)) (fun b ctx => lower_index b index ctx span).
Proof.
  destruct index as [collection kind]. cbn [size_kind supported_kind]. intros Hn [Hc Hi]%andb_true_iff.
  intros P k d b ctx s Q Hw Hk Hd Hb Hctx Hroot HQ. assert (K0 : keeps s s) by done. unfold lower_index. steps.
  destruct kind as [index| |]; try done. cbn [size_index supported_index] in *. expr a. steps. expr i. steps.
  destruct (result_location ctx); steps; emit e; try (steps; eapply lowers_rvalue; [eassumption|room|done|done|];
    intros r1 sr Hwr Kr Hrr; adv Kr); (apply HQ; [eapply wf_le; [| |eassumption]; room|done|done]).
Qed.

End Flow.
End LowerFlowSpec.
