(* ===== verification/LowerSpec.v ===== *)
(** * What the lowering promises

    Every supported module lowers to well-formed instructions or is rejected with
    a diagnostic; lines and columns are those of the text.

    [LowerRun]: the recursion of [lower_expr] is well founded on the size of the
    tree, so with enough depth every supported expression lowers.

    The module [LowerExample] parses and lowers a program, on which the properties are applied. *)

From S2P Require Import Prelude Words Bytes Span Token Lexer LexerSpec Diagnostic Ast HashIndex.
From S2P Require Import ShardedMap VirtDynArray Value ValueStore StoreLogic ParserExpr Vuir SemaState.
From S2P Require Import SemaExample LowerState Lower LowerSyntax Anyint SemaLogic LowerLogic.
From S2P Require Import LowerScopes LowerSteps LowerDeclSpec LowerTypeSpec.
From S2P Require Import LowerFlowSpec ValueSpec.
From stdpp Require Import gmap.
From stdpp Require Import gmap sorting.

#[local] Open Scope Z_scope.

Module LowerExample.
Import Ast StoreLogic LowerState LowerSyntax.

#[export] Existing Instance SemaExample.setting.
#[export] Existing Instance SemaExample.setting_laws.

(** The module in a file. *)
Definition parse (code : string) : ModuleKind :=
  match @ParserExpr.new insert_scan memx_scalar Lexer.hashify_assoc (LexerSpec.source code) 0 with
  | Ret p => match @ParserExpr.run_module insert_scan 60 p with Ret (inl m, _) => m | _ => NoModule end
  | Fault _ => NoModule
  end.

(** The values of a compilation unit before anything is interned. *)
Definition new_values : res Sema.Store := ValueStore.ValueStore.new 1.

Lemma new_values_store n : Z.of_nat n <= 8166 -> exists v, new_values = Ret v /\ store n v.
Proof.
  intros Hn. apply (new_store 1 (VirtDynArray.mk 8192 0 0 0 [] ∅) n);
    [by exists 0|vm_compute; reflexivity|vm_compute; discriminate|lia].
Qed.

Definition program : string :=
  "fn f(a: i32) i32 { defer g(a) loop { if (a < 3) { break } } return a + 1 } fn g(x: i32) void { }".
Lemma program_size : size_module (parse program) = 55%nat /\ supported_module (parse program) = true.
Proof. split; vm_compute; reflexivity. Qed.

(** How many instructions there are. *)
Definition count_of (r : res ((Vuir + list Diagnostic.Diagnostic) * Sema.Store)) : option nat :=
  match r with Ret (inl vuir, _) => Some (length (vuir_instructions vuir)) | _ => None end.

Lemma count_of_some r n : count_of r = Some n -> exists vuir v', r = Ret (inl vuir, v') /\ length (vuir_instructions vuir) = n.
Proof. destruct r as [[[vuir|] v']|]; try done. intros [= <-]. by exists vuir, v'. Qed.

Lemma program_lowers v :
  new_values = Ret v ->
  exists vuir v', @Lower.to_vuir _ memx_scalar 110 v (bytes_of program) 0 (parse program) = Ret (inl vuir, v') /\
    length (vuir_instructions vuir) = 39%nat.
Proof.
  intros Hv. apply count_of_some.
  assert (Hc : match new_values with
               | Ret v => count_of (@Lower.to_vuir _ memx_scalar 110 v (bytes_of program) 0 (parse program))
               | Fault _ => None
               end = Some 39%nat) by (vm_compute; reflexivity).
  rewrite Hv in Hc. exact Hc.
Qed.

(** A variable [x] and, in a type declared after it, a loop with a [defer]. *)
Definition x : Ident := {| Ident.symbol := bytes_of "x"; Ident.kind := Token.User; Ident.span := Span.mk 0 1 |}.
Definition nested : list Scope :=
  [Scope_Block (mk_block None 0 BlockKind.Body);
   Scope_Namespace (mk_namespace (Some 0%nat) ∅ []);
   Scope_Block (mk_block (Some 1%nat) 0 BlockKind.Body);
   Scope_LocalStackAllocated 2 (bytes_of "x") 7 (IrId.Instruction 0);
   Scope_Namespace (mk_namespace (Some 3%nat) ∅ []);
   Scope_Block (mk_block (Some 4%nat) 1 (BlockKind.Loop (IrId.Instruction 1) None));
   Scope_Defer 5 [0] (Span.mk 4 9)].
Definition in_loop (v : Sema.Store) : Lowerer :=
  LowerState.mk v 0 [0; 1] [Vuir.StackAllocInferred x (Span.mk 0 1); Vuir.Loop [] (Span.mk 2 9)] nested [] [0%nat] [] None [].

End LowerExample.

Module LowerRun.
Import Ast IrId LowerState Lower LowerSyntax LowerLogic LowerScopes LowerSteps LowerStmtSpec LowerDeclSpec LowerTypeSpec.
Import LowerExprSpec LowerFlowSpec.

(** ** Unary operators *)

Lemma unary_layers_spec in_fn e l layers e' :
  unary_layers e l = (layers, e') ->
  (size_expr e' + 2 * length layers <= size_expr e + 2 * length l)%nat /\
  supported_expr in_fn e' = supported_expr in_fn e /\
  (layers = l -> strip_groups e = e') /\ (length l <= length layers)%nat /\
  match expr_kind e' with
  | ExprKind_Group _ | ExprKind_Pos _ | ExprKind_Neg _ | ExprKind_Not _ | ExprKind_BitNot _ => False
  | _ => True
  end.
Proof.
  remember (size_expr e) as n eqn:Hn. revert e l Hn. induction (lt_wf n) as [n _ IH]. intros [id kind span] l -> Hu.
  assert (Hgo : forall e l', (size_expr e < size_expr (mkExpr id kind span))%nat -> unary_layers e l' = (layers, e') ->
    (size_expr e' + 2 * length layers <= size_expr e + 2 * length l')%nat /\
    supported_expr in_fn e' = supported_expr in_fn e /\
    (layers = l' -> strip_groups e = e') /\ (length l' <= length layers)%nat /\
    match expr_kind e' with
    | ExprKind_Group _ | ExprKind_Pos _ | ExprKind_Neg _ | ExprKind_Not _ | ExprKind_BitNot _ => False
    | _ => True
    end).
  { intros e l' Hlt Hu'. by eapply (IH (size_expr e)). }
  destruct kind; cbn [unary_layers] in Hu;
    try (injection Hu as <- <-; split_and!; [simpl; lia|done|done|done|done]);
    (apply Hgo in Hu as (Hs & Hsup & Hstrip & Hlen & Hk); [|simpl; lia]); cbn [length] in *;
    split_and!; try done; try (simpl; lia); intros ->; simpl in Hlen; lia.
Qed.

Section Run.
Context `{SL : SettingLaws}.
Context (D : nat).
Implicit Types (s : Lowerer) (b : nat) (r : InstructionRef) (P : gmap Z Target) (k d N : nat).
Implicit Types (in_fn : bool) (span : Span.Span) (ctx : ExprContext).
Abbreviation wf := (LowerLogic.wf D).
Abbreviation W := (LowerLogic.W D).
Abbreviation expr_spec := (LowerSteps.expr_spec D).

Section Body.
Context `{RC : !Rec}.
Context (N : nat) (HE : exprs_ok D N) (HN : named_ok D N).

Lemma lowers_layers layers P k d b i s (Q : InstructionRef -> Lowerer -> Prop) :
  wf P k d s -> (length layers <= k)%nat -> ref_ok s i ->
  (forall i' s', wf P (k - length layers) d s' -> keeps s s' -> ref_ok s' i' -> Q i' s') ->
  lowers (for_each (lower_layer b) layers i) s Q.
Proof.
  revert k i s. induction layers as [|l layers IH]; intros k i s Hw Hk Hi HQ; cbn [for_each length] in *.
  { apply lowers_mret, HQ; [|done|done]. by rewrite Nat.sub_0_r. }
  assert (K0 : keeps s s) by done.
  steps. eapply (lowers_mono _ _ (fun i' s' => wf P (k - 1) d s' /\ keeps s s' /\ ref_ok s' i')).
  { destruct l; unfold lower_layer; try (eapply lowers_inst; [exact Hw|lia|solve_emit|done|]; by intros).
    steps. split_and!; [|done|done]. eapply wf_le; [| |exact Hw]; lia. }
  intros i' s' (Hw' & K' & Hi'). apply (IH (k - 1)%nat); [done|lia|done|]. intros i2 s2 Hw2 K2. apply HQ; [|by etrans].
  by replace (k - S (length layers))%nat with (k - 1 - length layers)%nat by lia.
Qed.

(** The chain of unary operators around an expression that is not one. *)
Lemma lowers_unary_chain in_fn e P k d b ctx s (Q : option InstructionRef -> Lowerer -> Prop) :
  (size_expr e <= S N)%nat -> supported_expr in_fn e = true ->
  wf P k d s -> (W * size_expr e <= k)%nat -> (size_expr e <= d)%nat -> scope_in s b -> ctx_ok s ctx -> root_ok in_fn s ->
  (forall r s', wf P (k - W * size_expr e) (d - size_expr e) s' -> keeps s s' -> ref_ok s' r -> Q (Some r) s') ->
  (forall e', strip_groups e = e' -> (size_expr e' <= size_expr e)%nat -> supported_expr in_fn e' = true ->
     match expr_kind e' with
     | ExprKind_Group _ | ExprKind_Pos _ | ExprKind_Neg _ | ExprKind_Not _ | ExprKind_BitNot _ => False
     | _ => True
     end -> Q None s) ->
  lowers (try_lower_linear_unary_expr b e ctx) s Q.
Proof.
  intros Hn Hs Hw Hk Hd Hb Hctx Hroot HQ1 HQ2. assert (K0 : keeps s s) by done. unfold try_lower_linear_unary_expr.
  destruct (unary_layers e []) as [layers e'] eqn:Hu.
  destruct (unary_layers_spec in_fn _ _ _ _ Hu) as (Hsz & Hsup & Hstrip & _ & Hkind). simpl in Hsz.
  destruct layers as [|l layers].
  - steps. eapply HQ2; [by apply Hstrip|simpl in Hsz; lia|congruence|done].
  - set (ls := l :: layers) in *. assert (Hpos : (1 <= length ls)%nat) by (subst ls; simpl; lia).
    assert (Hbound : (W * size_expr e' + W * length ls + W * length ls <= W * size_expr e)%nat).
    { rewrite <- !Nat.mul_add_distr_l. apply Nat.mul_le_mono_l. lia. }
    assert (Hlen : (length ls <= W * length ls)%nat).
    { rewrite <- (Nat.mul_1_l (length ls)) at 1. apply Nat.mul_le_mono_r. unfold LowerLogic.W. lia. }
    steps. eapply (call_expr D N in_fn); [exact HE|lia|congruence|exact Hw|lia|lia|done|apply ctx_ok_none|done|].
    intros r s1 Hw1 K1 Hr. adv K1. steps.
    eapply (lowers_layers ls); [exact Hw1|lia|done|]. intros r2 s2 Hw2 K2 Hr2. adv K2. steps.
    eapply lowers_rvalue; [exact Hw2|lia|done|done|]. intros r3 s3 Hw3 K3 Hr3. adv K3. steps. apply HQ1; [|done|done].
    eapply wf_le; [| |exact Hw3]; lia.
Qed.

(** ** The arms *)

Lemma expr_of_type in_fn n m : type_spec D in_fn n m -> expr_spec in_fn n (fun b _ => m b).
Proof. intros Hm P k d b ctx s Q Hw Hk Hd Hb Hctx Hroot HQ. by eapply Hm. Qed.

(** A use of another expression, in a context of its own. *)
Lemma expr_in in_fn e n inner :
  (size_expr e <= N)%nat -> (size_expr e <= n)%nat -> supported_expr in_fn e = true -> (forall s, ctx_ok s inner) ->
  expr_spec in_fn n (fun b _ => lower_expr b e inner).
Proof.
  intros Hn Hle Hs Hin. apply (expr_spec_le D in_fn (size_expr e)); [done|].
  intros P k d b ctx s Q Hw Hk Hd Hb Hctx Hroot HQ. eapply (call_expr D N in_fn); [exact HE|done..|apply Hin|done|exact HQ].
Qed.

Lemma lowers_undefined in_fn span :
  expr_spec in_fn 1 (fun b ctx => ty ← try_lower_coerce_into_result_loc_expected_ty b ctx; inst b (Vuir.Undefined ty span)).
Proof.
  intros P k d b ctx s Q Hw Hk Hd Hb Hctx Hroot HQ. assert (K0 : keeps s s) by done. steps.
  eapply lowers_expected_ty; [exact Hw|room|done|]. intros o s1 Hw1 K1 Ho%expected_refs. adv K1. emit i.
  apply HQ; [|done|done]. eapply wf_le; [| |eassumption]; room.
Qed.

Lemma lowers_discard_expr in_fn span :
  expr_spec in_fn 2 (fun b ctx => push_error_at (bytes_of "unexpected discard") span ;; common_ref ValueStore.unreachable_value).
Proof.
  intros P k d b ctx s Q Hw Hk Hd Hb Hctx Hroot HQ. assert (K0 : keeps s s) by done. steps.
  eapply lowers_push_error_at; [exact Hw|]. intros s1 Hw1 K1 _. adv K1. steps. apply HQ; [|done|done].
  eapply wf_le; [| |exact Hw1]; room.
Qed.

Lemma lowers_deref in_fn e n span :
  (size_expr e <= N)%nat -> supported_expr in_fn e = true -> (S (size_expr e) = n)%nat ->
  expr_spec in_fn (S n) (fun b ctx =>
    match result_location ctx with
    | GetAddressOf => lower_expr b e ctx_none
    | _ => i ← (e' ← lower_expr b e ctx_none; inst b (Vuir.Load e' (expr_span e))); rvalue b i ctx span
    end).
Proof.
  intros Hn Hs <- P k d b ctx s Q Hw Hk Hd Hb Hctx Hroot HQ.
  pose proof (lowers_finish D in_fn _ _ span (lowers_unary D N HE in_fn e (fun r => Vuir.Load r (expr_span e)) ctx_none
    ltac:(intros P0 s0 x Hx; split; [solve_emit|discriminate]) Hn Hs ctx_ok_none) P k d b ctx s Q) as Hload.
  pose proof (expr_in in_fn e (S (S (size_expr e))) ctx_none Hn ltac:(lia) Hs ctx_ok_none P k d b ctx s Q) as Hplain.
  destruct (result_location ctx); auto.
Qed.

Lemma lowers_expr_kind in_fn id kind span :
  (size_kind kind <= N + 1)%nat -> supported_kind in_fn kind = true ->
  match kind with
  | ExprKind_Group _ | ExprKind_Pos _ | ExprKind_Neg _ | ExprKind_Not _ | ExprKind_BitNot _ => False
  | _ => True
  end ->
  expr_spec in_fn (S (size_kind kind)) (fun b ctx => lower_expr_kind b (mkExpr id kind span) ctx).
Proof.
  intros Hn Hs Hkind. unfold lower_expr_kind. destruct kind; try done;
    cbn [arithmetic_opcode bitwise_opcode];
    cbn [size_kind supported_kind] in *;
    try lazymatch goal with
      | |- LowerSteps.expr_spec _ _ _ (fun b ctx => lower_binary _ ?op _ _ ≫= _) =>
          destruct op as [lhs rhs]; apply (lowers_finish D in_fn), (lowers_binary D N HE in_fn);
          [intros P s x y sp Hx Hy; split; [solve_emit|discriminate]|lia|done]
      end.
  - apply (lowers_finish D in_fn), (expr_spec_le D in_fn (size_block b)); [lia|].
    apply (lowers_block_expr D N HE HN in_fn); [lia|done].
  - apply (lowers_finish D in_fn), (expr_spec_le D in_fn (size_if i)); [lia|]. apply (lowers_if D N HE HN in_fn); [lia|done].
  - apply (lowers_finish D in_fn), (expr_spec_le D in_fn (size_block b)); [lia|].
    apply (lowers_block_expr D N HE HN in_fn); [lia|done].
  - apply (lowers_finish D in_fn), (lowers_while D N HE HN in_fn w); [simpl; lia|done].
  - apply (lowers_finish D in_fn), (lowers_switch D N HE HN in_fn s); [simpl; lia|done].
  - apply (lowers_finish D in_fn). intros P k d b ctx s Q Hw Hk Hd Hb Hctx Hroot HQ.
    eapply lowers_lit; [exact Hw|room|done|]. intros v s' Hw' K'. apply HQ; [|done|done]. eapply wf_le; [| |exact Hw']; room.
  - apply (lowers_finish D in_fn), expr_of_type. intros P k d b s Q Hw Hk Hd Hb Hroot HQ.
    eapply (lowers_type D N HE HN in_fn t); [lia|done|exact Hw|room|lia|done|done|]. intros r s' Hw'. apply HQ.
    eapply wf_le; [| |exact Hw']; lia.
  - apply (lowers_ident_expr D in_fn).
  - apply (expr_spec_le D in_fn (size_kind (ExprKind_FieldAccess f))); [simpl; lia|].
    apply (lowers_field_access D N HE in_fn f); [simpl; lia|done].
  - apply (lowers_deref in_fn); [lia|done|done].
  - apply (expr_spec_le D in_fn (size_kind (ExprKind_Index i))); [simpl; lia|].
    apply (lowers_index D N HE in_fn i); [simpl; lia|done].
  - apply (expr_in in_fn); [lia|lia|done|apply ctx_ok_address].
  - apply (lowers_finish D in_fn), (lowers_undefined in_fn).
  - destruct c as [callee args]. apply andb_true_iff in Hs as Hs'. destruct Hs' as [Hc Ha].
    destruct (is_ident (bytes_of "@type_of") callee).
    + apply (expr_spec_le D in_fn (S (sum size_arg args))); [lia|]. apply (lowers_type_of D N HE in_fn); [lia|done].
    + apply (lowers_finish D in_fn), (lowers_fn_call D N HE in_fn); [lia|done].
  - destruct i as [ty fields]. apply (lowers_finish D in_fn), (lowers_struct_init D N HE in_fn); [lia|done].
  - destruct i as [ty elements]. apply (lowers_finish D in_fn), (lowers_array_init D N HE in_fn); [lia|done].
  - apply (lowers_discard_expr in_fn).
Qed.

Lemma lowers_expr_body in_fn e :
  (size_expr e <= S N)%nat -> supported_expr in_fn e = true ->
  expr_spec in_fn (size_expr e) (fun b ctx => lower_expr_body b e ctx).
Proof.
  intros Hn Hs P k d b ctx s Q Hw Hk Hd Hb Hctx Hroot HQ. unfold lower_expr_body. steps.
  eapply (lowers_unary_chain in_fn); [exact Hn|exact Hs|exact Hw|done..| |].
  - intros r s' Hw' K' Hr. steps. by apply HQ.
  - intros e' -> Hle Hs' Hkind. destruct e' as [id kind span]. cbn [size_expr supported_expr expr_kind] in *.
    apply (expr_spec_le D in_fn _ (size_expr e) _ Hle (lowers_expr_kind in_fn id kind span ltac:(lia) Hs' Hkind) P k d); done.
Qed.

Section Named.
Context (HE' : exprs_ok D (S N)).

Lemma whole_expr in_fn e :
  (size_expr e <= S N)%nat -> supported_expr in_fn e = true -> expr_spec in_fn (size_expr e) (fun b ctx => lower_expr b e ctx).
Proof. intros Hn Hs. by apply HE'. Qed.

Lemma type_expr in_fn t naming id span :
  (size_expr (mkExpr id (ExprKind_Type t) span) <= S N)%nat -> supported_type in_fn t = true ->
  expr_spec in_fn (S (size_type t)) (fun b ctx => i ← lower_type b t naming span; rvalue b i ctx span).
Proof.
  intros Hn Hs. apply (lowers_finish D in_fn), expr_of_type. apply (lowers_type D N HE HN in_fn t); [simpl in Hn; lia|done].
Qed.

Lemma lowers_expr_named_body in_fn e naming :
  (size_expr e <= S N)%nat -> supported_expr in_fn e = true ->
  expr_spec in_fn (size_expr e) (fun b ctx => lower_expr_named_body b e ctx naming).
Proof.
  intros Hn Hs. destruct e as [id kind span]. pose proof (whole_expr in_fn _ Hn Hs) as Hwhole.
  unfold lower_expr_named_body. cbn [expr_kind expr_span]. destruct kind; try exact Hwhole.
  apply (expr_spec_le D in_fn (S (size_type t))); [simpl; lia|]. by apply (type_expr in_fn t naming id).
Qed.

Lemma lowers_decl_init_body in_fn e :
  (size_expr e <= S N)%nat -> supported_expr in_fn e = true ->
  expr_spec in_fn (size_expr e) (fun b ctx => lower_decl_init_expr_body b e ctx).
Proof.
  intros Hn Hs. destruct e as [id kind span]. pose proof (whole_expr in_fn _ Hn Hs) as Hwhole.
  unfold lower_decl_init_expr_body. cbn [expr_kind]. destruct kind; try exact Hwhole. cbn [size_expr size_kind] in Hn.
  destruct t; try exact Hwhole; clear Hwhole.
  - apply (expr_spec_le D in_fn (size_struct t)); [unfold size_struct; simpl; lia|]. apply expr_of_type, type_of_item.
    apply (lowers_struct D N HE HN in_fn t); [unfold size_struct; lia|done].
  - apply (expr_spec_le D in_fn (size_type (Type_Enum t))); [simpl; lia|]. apply expr_of_type, type_of_item.
    apply (lowers_enum D N HE HN in_fn t); [lia|done].
Qed.

End Named.
End Body.

(** ** The knot *)

Lemma exprs_ok_le `{RC : !Rec} N N' : (N' <= N)%nat -> exprs_ok D N -> exprs_ok D N'.
Proof. intros HN HE in_fn e He. apply HE. lia. Qed.
Lemma named_ok_le `{RC : !Rec} N N' : (N' <= N)%nat -> named_ok D N -> named_ok D N'.
Proof. intros HN HE in_fn e He. apply HE. lia. Qed.

(** Half of the depth goes to the methods that hand the same expression on. *)
Lemma lower_knot_ok depth :
  @exprs_ok _ _ D (knot depth) ((depth + 1) / 2) /\ @named_ok _ _ D (knot depth) (depth / 2).
Proof.
  induction depth as [|depth [IHE IHN]].
  { split; intros in_fn e He; pose proof (size_expr_pos e); simpl in He; lia. }
  assert (Hhalf : (depth / 2 <= (depth + 1) / 2)%nat) by (apply Nat.Div0.div_le_mono; lia).
  assert (Hup : ((depth + 1) / 2 <= S (depth / 2))%nat).
  { replace (S (depth / 2)) with ((depth + 1 * 2) / 2)%nat by (rewrite Nat.div_add by done; lia). apply Nat.Div0.div_le_mono. lia. }
  split; intros in_fn e He Hs.
  - replace (S depth + 1)%nat with (depth + 1 * 2)%nat in He by lia. rewrite Nat.div_add in He by done.
    apply (lowers_expr_body (RC := knot depth) (depth / 2)); [by eapply exprs_ok_le|done|lia|done].
  - replace (S depth) with (depth + 1)%nat in He by lia.
    destruct ((depth + 1) / 2)%nat as [|N] eqn:HN; [pose proof (size_expr_pos e); lia|].
    assert (HE : @exprs_ok _ _ D (knot depth) N) by (eapply exprs_ok_le; [|exact IHE]; lia).
    assert (HNd : @named_ok _ _ D (knot depth) N) by (eapply named_ok_le; [|exact IHN]; lia).
    split; [intros naming; by apply (lowers_expr_named_body (RC := knot depth) N)
           |by apply (lowers_decl_init_body (RC := knot depth) N)].
Qed.
End Run.
End LowerRun.

Module LowerSpec.
Import StoreLogic Ast IrId LowerState Lower LowerSyntax LowerLogic LowerScopes LowerSteps LowerRun.

(** ** Lines *)

(** Where lines start in a text that begins at [i]. *)
Fixpoint starts_from (i : nat) (src : list Z) : list nat :=
  match src with
  | [] => []
  | b :: src => if b =? Span.newline then S i :: starts_from (S i) src else starts_from (S i) src
  end.

Lemma starts_skip i l rest :
  Forall (fun b => (b =? Span.newline) = false) l -> starts_from i (l ++ rest) = starts_from (i + length l) rest.
Proof.
  intros H. revert i. induction H as [|b l Hb Hl IH]; intros i; cbn [app starts_from length]; [by rewrite Nat.add_0_r|].
  rewrite Hb, IH. by replace (S i + length l)%nat with (i + S (length l))%nat by lia.
Qed.

Lemma starts_bounds i src : Forall (fun x => (i < x <= i + length src)%nat) (starts_from i src).
Proof.
  revert i. induction src as [|b src IH]; intros i; cbn [starts_from length]; [constructor|].
  assert (Forall (fun x => (i < x <= i + S (length src))%nat) (starts_from (S i) src)).
  { eapply Forall_impl; [apply IH|]. simpl. lia. }
  destruct (b =? Span.newline); [constructor; [lia|done]|done].
Qed.

Lemma starts_sorted i src : StronglySorted lt (starts_from i src).
Proof.
  revert i. induction src as [|b src IH]; intros i; cbn [starts_from]; [constructor|]. destruct (b =? Span.newline); [|done].
  constructor; [done|]. eapply Forall_impl; [apply starts_bounds|]. simpl. lia.
Qed.

Section Lines.
Context `{!Memx, !MemxLaws}.

Lemma line_starts_loop_spec fuel src starts offset :
  (offset <= length src)%nat -> (length src - offset < fuel)%nat ->
  line_starts_loop fuel src starts offset = Ret (starts ++ starts_from offset (drop offset src)).
Proof.
  revert starts offset. induction fuel as [|fuel IH]; intros starts offset Ho Hf; [lia|]. cbn [line_starts_loop].
  destruct (Nat.ltb_spec offset (length src)) as [Hlt|Hge].
  2:{ by rewrite drop_ge, app_nil_r by lia. }
  unfold slice_from. rewrite decide_True by lia. cbn [mbind res_bind]. rewrite memchr_first.
  destruct (position _ _) as [pos|] eqn:E.
  - pose proof (position_lt _ _ _ E) as Hp. rewrite length_drop in Hp.
    apply position_split in E as (b & rest & Hs & Hn & Hnone).
    rewrite IH by lia. apply Z.eqb_eq in Hn as ->. change (byte "010") with Span.newline in *.
    rewrite <- drop_drop, Hs, starts_skip by done. rewrite <- (assoc_L (++)). f_equal. f_equal.
    assert (Hl : length (take pos (drop offset src)) = pos) by (rewrite length_take, length_drop; lia).
    rewrite Hl. cbn [starts_from app]. rewrite Z.eqb_refl.
    replace (drop (pos + 1) (take pos (drop offset src) ++ Span.newline :: rest)) with rest.
    + by replace (offset + (pos + 1))%nat with (S (offset + pos)) by lia.
    + rewrite drop_app_ge by lia. rewrite Hl. by replace (pos + 1 - pos)%nat with 1%nat by lia.
  - apply position_None in E. rewrite <- (app_nil_r (drop offset src)), starts_skip by done. cbn [starts_from]. by rewrite app_nil_r.
Qed.

Lemma line_starts_spec src : compute_line_starts src = Ret (0%nat :: starts_from 0 src).
Proof. unfold compute_line_starts. rewrite line_starts_loop_spec by lia. done. Qed.
End Lines.

Lemma starts_app i l1 l2 : starts_from i (l1 ++ l2) = starts_from i l1 ++ starts_from (i + length l1) l2.
Proof.
  revert i. induction l1 as [|b l1 IH]; intros i; cbn [app starts_from length]; [by rewrite Nat.add_0_r|].
  rewrite IH. replace (S i + length l1)%nat with (i + S (length l1))%nat by lia. by destruct (b =? _).
Qed.

Lemma starts_count i l : length (starts_from i l) = Span.count_newlines l.
Proof.
  revert i. induction l as [|b l IH]; intros i; cbn [starts_from Span.count_newlines]; [done|].
  destruct (b =? _); cbn [length]; by rewrite IH.
Qed.

Lemma last_line_le l : (length (Span.last_line l) <= length l)%nat.
Proof. induction l as [|b l IH]; cbn [Span.last_line length]; [done|]. destruct (_ =? 0)%nat; cbn [length]; lia. Qed.

Lemma last_start i l :
  (i :: starts_from i l) !! Span.count_newlines l = Some (i + length l - length (Span.last_line l))%nat.
Proof.
  revert i. induction l as [|b l IH]; intros i; cbn [starts_from Span.count_newlines Span.last_line length].
  { simpl. f_equal. lia. }
  specialize (IH (S i)). pose proof (last_line_le l). destruct (b =? Span.newline); cbn [Nat.add Nat.eqb length].
  - simpl. rewrite IH. f_equal. lia.
  - destruct (Span.count_newlines l) as [|n] eqn:E; cbn [Nat.eqb length]; simpl in *; [f_equal; lia|].
    rewrite IH. f_equal. lia.
Qed.

(** The search over [compute_line_starts] is the loop of [Span::line_col]. *)
Lemma search_line_col src offset :
  (offset <= length src)%nat ->
  let ls := 0%nat :: starts_from 0 src in
  let idx := match binary_search ls offset with inl i => i | inr i => (i - 1)%nat end in
  idx = Span.count_newlines (take offset src) /\
  ls !! idx = Some (offset - length (Span.last_line (take offset src)))%nat.
Proof.
  intros Ho ls. set (c := Span.count_newlines (take offset src)).
  assert (Hls : ls = (0%nat :: starts_from 0 (take offset src)) ++ starts_from offset (drop offset src)).
  { unfold ls. rewrite <- (take_drop offset src) at 1. rewrite starts_app, length_take, Nat.min_l by done. done. }
  assert (Hc : ls !! c = Some (offset - length (Span.last_line (take offset src)))%nat).
  { rewrite Hls. apply lookup_app_l_Some. unfold c. rewrite last_start, length_take, Nat.min_l by done. f_equal. }
  assert (Hs : StronglySorted lt ls).
  { constructor; [apply starts_sorted|]. eapply Forall_impl; [apply starts_bounds|]. simpl. lia. }
  destruct (binary_search_last ls offset Hs eq_refl) as (start & Hstart & Hle & Hiff). simpl.
  set (idx := match binary_search ls offset with inl i => i | inr i => (i - 1)%nat end) in *.
  assert (c <= idx)%nat by (apply (Hiff _ _ Hc); lia).
  assert (idx = c) as ->; [|done]. destruct (decide (idx = c)) as [|Hne]; [done|exfalso].
  destruct (lookup_lt_is_Some_2 ls (S c)) as [y Hy]; [apply lookup_lt_Some in Hstart; lia|].
  assert (y <= offset)%nat by (apply (Hiff _ _ Hy); lia).
  rewrite Hls, lookup_app_r in Hy by (cbn [length]; rewrite starts_count; done).
  apply (Forall_lookup_1 _ _ _ _ (starts_bounds _ _)) in Hy. lia.
Qed.

(** The position of a statement, found by a binary search in the line starts
    computed once, is the line and column [Span::line_col] counts in the text. *)
Theorem start_line_col_correct `{ST : Setting, MX : Memx, !MemxLaws} (src : list Z) (self : Lowerer) (span : Span.Span) :
  compute_line_starts src = Ret (line_starts self) -> (Span.start span <= length src)%nat ->
  exists line col, Span.start_line_col span src = Ret (line, col) /\ start_line_col span self = Ret ((line, col), self).
Proof.
  rewrite line_starts_spec. intros [= Hls] Ho. unfold Span.start_line_col. rewrite Span.line_col_spec by done.
  eexists _, _. split; [done|]. unfold start_line_col, mbind, M_bind, gets, lift. rewrite <- Hls.
  destruct (search_line_col src (Span.start span) Ho) as [Hidx Hl].
  cbn [mbind res_bind]. set (idx := match binary_search _ _ with inl i => i | inr i => _ end) in *. unfold get_idx.
  rewrite Hl. cbn [mbind res_bind].
  pose proof (last_line_le (take (Span.start span) src)). rewrite length_take in *.
  unfold usize_sub. rewrite decide_True by lia. cbn [mbind res_bind]. rewrite Hidx, Nat.add_comm. cbn [mbind res_bind mret M_ret].
  by replace (Span.start span - (Span.start span - length (Span.last_line (take (Span.start span) src))))%nat
    with (length (Span.last_line (take (Span.start span) src))) by lia.
Qed.

Lemma start_line_col_correct_witness :
  exists self line col, @compute_line_starts memx_scalar (bytes_of "fn f() void {}" ++ [10] ++ bytes_of "fn g() void {}")
      = Ret (line_starts (H := SemaExample.setting) self) /\
    start_line_col (H := SemaExample.setting) (Span.mk 18 19) self = Ret ((line, col), self) /\ (line, col) = (2%nat, 3%nat).
Proof.
  set (src := bytes_of "fn f() void {}" ++ [10] ++ bytes_of "fn g() void {}").
  destruct (LowerExample.new_values_store 0) as (v & _ & _); [lia|].
  set (self := Lower.new_lowerer (H := SemaExample.setting) v 0 [0%nat; 15%nat]).
  assert (Hls : @compute_line_starts memx_scalar src = Ret (line_starts (H := SemaExample.setting) self)) by reflexivity.
  destruct (start_line_col_correct (ST := SemaExample.setting) (MX := memx_scalar) (H := memx_scalar_laws) src self
    (Span.mk 18 19) Hls ltac:(vm_compute; lia)) as (line & col & Hspan & Hrun).
  exists self, line, col. split_and!; [exact Hls|exact Hrun|].
  assert (E : @Span.start_line_col memx_scalar (Span.mk 18 19) src = Ret (2%nat, 3%nat)) by reflexivity.
  congruence.
Defined.

(** ** Modules *)

(** What is at an index. *)
Definition kind_of (l : list Vuir.Opcode) (i : InstructionId) : option Target :=
  if 0 <=? i then target_of <$> l !! Z.to_nat i else None.

(** Well-formed instructions: operands come before their uses, the bodies are of
    instructions of the module, jumps name what can be their target, and no
    [Invalid] is left. *)
Definition well_formed (l : list Vuir.Opcode) : Prop :=
  forall i op, l !! i = Some op -> inst_ok (kind_of l) (length l) i op /\ op <> Vuir.Invalid.

(** The room a module of [n] nodes needs: a node emits at most 64 instructions and
    the [defer]s that are pending, of which there are at most [n]. *)
Definition budget (n : nat) : nat := (n + 64) * n.

Section Modules.
Context `{SL : SettingLaws}.

Lemma wf_new n k v m ls :
  store k v -> Z.of_nat k <= 0xffffffff -> StronglySorted lt ls -> head ls = Some 0%nat ->
  wf n ∅ k n (new_lowerer v m ls).
Proof.
  intros Hv Hk Hs Hh. by split.
Qed.

(** The root block. *)
Lemma root_closed (o s : Lowerer) blk :
  scopes o = [Scope_Block blk] -> uir_scopes_instructions o = [] -> inst_start blk = 0%nat -> keeps o s ->
  exists s', unstack_block 0 s = Ret (tt, s') /\ instructions s' = instructions s /\ errors s' = errors s /\
    imports s' = imports s /\ values s' = values s.
Proof.
  intros Ho Hu Hb [[_ _ (l & x & HS & Hl & _) _ _ _ _ _] Hlen]. rewrite Ho in Hl, Hlen.
  apply Forall2_cons_inv_l in Hl as (sc & l' & Hsc & Hl' & ->). apply Forall2_nil_inv_l in Hl' as ->.
  destruct x; [|rewrite HS in Hlen; done]. destruct sc; simpl in Hsc; try done. injection Hsc as <-.
  unfold unstack_block, mbind, M_bind, gets, lift, modify. simpl. rewrite HS. simpl. rewrite Hb. simpl.
  eexists. split; [done|]. done.
Qed.

(** What [lower] gives. *)
Definition lowered (v : Sema.Store) (r : Vuir + list Diagnostic.Diagnostic) (v' : Sema.Store) : Prop :=
  extends v v' /\
  match r with
  | inl vuir => well_formed (vuir_instructions vuir)
  | inr errors => errors <> []
  end.

Lemma lower_module ast depth v m ls :
  supported_module ast = true -> (2 * size_module ast <= depth)%nat ->
  store (budget (size_module ast)) v -> Z.of_nat (budget (size_module ast)) <= 0xffffffff ->
  StronglySorted lt ls -> head ls = Some 0%nat ->
  exists r s', @lower _ (knot depth) ast (new_lowerer v m ls) = Ret (r, s') /\ lowered v r (values s').
Proof.
  destruct ast as [t|]; [|done]. cbn [size_module supported_module]. intros Hs Hd Hst Hk Hls Hh. set (n := size_struct t) in *.
  pose proof (wf_new n (budget n) v m ls Hst Hk Hls Hh) as Hw. set (s0 := new_lowerer v m ls) in *.
  destruct (lower_knot_ok n depth) as [HE HN].
  assert (HE' : @exprs_ok _ _ n (knot depth) n).
  { eapply exprs_ok_le; [|exact HE]. apply Nat.div_le_lower_bound; lia. }
  assert (HN' : @named_ok _ _ n (knot depth) n).
  { eapply named_ok_le; [|exact HN]. apply Nat.div_le_lower_bound; lia. }
  set (blk := mk_block None 0 BlockKind.Body). set (o := set_scopes [Scope_Block blk] s0).
  assert (Hwo : wf n ∅ (budget n) n o) by (eapply (wf_pushed _ _ _ _ _ _ s0); [exact Hw|by split|done]).
  assert (Hbo : scope_in o 0) by (by exists (Scope_Block blk)).
  destruct (LowerTypeSpec.lowers_struct n n HE' HN' false t Vuir.FromDecl ltac:(done) Hs ∅ (budget n) n 0%nat o
    (fun i s' => wf n ∅ 0 0 s' /\ keeps o s')) as (i & s1 & Hrun & Hw1 & K1).
  { exact Hwo. } { unfold budget, W. done. } { done. } { done. } { by intros ?. }
  { intros i s' Hw' K' _. split; [|done]. eapply wf_le; [| |exact Hw']; lia. }
  destruct (root_closed o s1 blk eq_refl eq_refl eq_refl K1) as (s2 & Hun & HI & HEr & HIm & HV).
  unfold lower. rewrite (bind_ret _ _ s0 0%nat s0 eq_refl), (bind_ret _ _ s0 0%nat o eq_refl).
  rewrite (bind_ret _ _ o tt s1) by (by rewrite (bind_ret _ _ _ _ _ Hrun)).
  rewrite (bind_ret _ _ _ _ _ Hun), (bind_ret (gets errors) _ s2 (errors s2) s2 eq_refl).
  assert (Hext : extends v (values s2)) by (rewrite HV; apply (grows_values _ _ (keeps_grows _ _ K1))).
  destruct (errors s2) as [|e es] eqn:He.
  - eexists _, s2. split; [done|]. split; [done|]. intros j op Hj. simpl in Hj. rewrite HI in *.
    destruct (wf_insts _ _ _ _ _ Hw1 j op Hj) as [Hok Hinv]. split; [exact Hok|]. intros Hop.
    destruct (Hinv Hop) as [[? HP]|Hne]; [by rewrite lookup_empty in HP|congruence].
  - eexists _, s2. split; [done|]. split; [done|]. done.
Qed.

End Modules.



(** C3: The instructions a supported module lowers to are well formed: every operand
    is the result of an earlier instruction, every body is a list of instructions of the
    module, [Break], [Repeat] and [BreakComptime] name a block, a loop or a comptime
    container, and no placeholder is left. *)
Theorem to_vuir_well_formed `{SL : SettingLaws, MX : Memx, !MemxLaws} (depth : nat) (v v' : Sema.Store) (src : list Z) (m : Z)
    (ast : ModuleKind) (vuir : Vuir) :
  supported_module ast = true -> (2 * size_module ast <= depth)%nat ->
  store (budget (size_module ast)) v -> Z.of_nat (budget (size_module ast)) <= 0xffffffff ->
  to_vuir depth v src m ast = Ret (inl vuir, v') -> well_formed (vuir_instructions vuir).
Proof.
  intros Hs Hd Hst Hk. destruct (lower_module ast depth v m (0%nat :: starts_from 0 src) Hs Hd Hst Hk) as (r & s' & Hrun & _ & Hr).
  { constructor; [apply starts_sorted|]. eapply Forall_impl; [apply starts_bounds|]. simpl. lia. }
  { done. }
  unfold to_vuir. rewrite line_starts_spec. cbn [mbind res_bind]. rewrite Hrun. cbn [mbind res_bind]. by intros [= -> <-].
Qed.

Lemma to_vuir_well_formed_witness : exists vuir, length (vuir_instructions vuir) = 39%nat /\ well_formed (vuir_instructions vuir).
Proof.
  destruct LowerExample.program_size as [Hn Hs]. destruct (LowerExample.new_values_store (budget 55)) as (v & Hnew & Hv); [vm_compute; discriminate|].
  destruct (LowerExample.program_lowers v Hnew) as (vuir & v' & Hrun & Hlen). exists vuir. split; [exact Hlen|].
  refine (to_vuir_well_formed (SL := SemaExample.setting_laws) (H := memx_scalar_laws) _ _ _ _ _ _ _ Hs _ _ _ Hrun);
    rewrite Hn; [lia|exact Hv|vm_compute; discriminate].
Defined.

End LowerSpec.
