(* ===== verification/LowerWalkSpec.v ===== *)
(** * What the walks over the scopes promise

    Names have their innermost meaning, captured values are reached through the
    captures of the namespaces in between, [append_defers] emits what is pending,
    [break] leaves the innermost target; and where the lowering loses something. *)

From S2P Require Import Prelude Words Bytes Span Token Diagnostic Ast HashIndex ShardedMap.
From S2P Require Import Anyint Value ValueStore StoreLogic Float128 Vuir SemaState SemaLogic.
From S2P Require Import LowerState Lower LowerLogic LowerScopes LowerSteps SemaExample LowerSpec.
From stdpp Require Import gmap.

#[local] Open Scope Z_scope.

Module LowerWalkSpec.
Import Ast IrId LowerState Lower LowerLogic LowerScopes LowerSteps LowerExample.

(** ** Names *)

(** None of the scopes gives the name a meaning. *)
Definition unbound (l : list Scope) (symbol : list Z) (ps : list nat) : Prop :=
  Forall (fun j => forall sc, l !! j = Some sc -> binds symbol sc = false) ps.
Definition namespaces (l : list Scope) (ps : list nat) : list nat := filter (fun i => is_namespace l i = true) ps.

Lemma namespaces_cons l i ps sc : l !! i = Some sc -> length (namespaces l (i :: ps)) = (ns_count sc + length (namespaces l ps))%nat.
Proof.
  intros Hi. unfold namespaces. rewrite filter_cons.
  assert (E : is_namespace l i = match sc with Scope_Namespace _ => true | _ => false end) by (unfold is_namespace; by rewrite Hi).
  rewrite E. by destruct sc.
Qed.

Lemma finding_spec l symbol crossed ps :
  Forall (fun i => is_Some (l !! i)) ps ->
  match finding l symbol crossed ps with
  | Some (n, sc) => exists before i after, ps = before ++ i :: after /\ l !! i = Some sc /\ binds symbol sc = true /\
      unbound l symbol before /\ n = (crossed + length (namespaces l before))%nat
  | None => unbound l symbol ps
  end.
Proof.
  intros Hps. revert crossed. induction Hps as [|i ps [sc Hi] Hps IH]; intros crossed; cbn [finding]; [constructor|].
  rewrite Hi. destruct (binds symbol sc) eqn:Hb.
  - exists [], i, ps. split_and!; [done|done|done|constructor|simpl; lia].
  - assert (Hun : forall sc', l !! i = Some sc' -> binds symbol sc' = false) by (intros; congruence).
    specialize (IH (crossed + ns_count sc)%nat). destruct (finding _ _ _ ps) as [[n sc']|]; [|by constructor].
    destruct IH as (before & j & after & -> & Hj & Hbj & Hbefore & ->).
    exists (i :: before), j, after. split_and!; [done|done|done|by constructor|].
    rewrite (namespaces_cons _ _ _ _ Hi). lia.
Qed.

(** C16: A name means what the innermost scope on the way to the root that binds it
    says: a variable or a parameter of this namespace is used directly, one from
    behind [n] namespaces is a capture through them, a declaration and [Self] are
    looked up; a name that no scope binds is not found.  Only the flag of the
    function whose parameter is used changes. *)
Theorem resolve_symbol_innermost `{Setting} (s : Lowerer) (b : nat) (ps : list nat) (symbol : list Z) :
  tree (scopes s) -> flags_ok s -> chain (scopes s) b ps -> starts_with_at symbol = false ->
  exists o, resolve_symbol b symbol s = Ret (meaning_of o, noted o s) /\
  match o with
  | Some (n, sc) => exists before i after, ps = before ++ i :: after /\ scopes s !! i = Some sc /\ binds symbol sc = true /\
      unbound (scopes s) symbol before /\ n = length (namespaces (scopes s) before)
  | None => unbound (scopes s) symbol ps
  end.
Proof.
  intros Ht Hf Hc Hat. exists (finding (scopes s) symbol 0 ps). split.
  - unfold resolve_symbol. rewrite Hat, (bind_ret _ _ _ _ _ eq_refl). apply resolve_run; [done|done|done|].
    destruct (chain_head _ _ _ Hc) as [ps' ->]. destruct (chain_lookup _ _ _ b Hc) as [sc Hsc%lookup_lt_Some]; [by left|lia].
  - apply (finding_spec _ _ 0). apply Forall_forall. intros i Hi. by eapply chain_lookup.
Qed.

(** ** Defers *)

Lemma emit_all_code `{Setting} ops s :
  instructions (emit_all ops s) = instructions s ++ ops /\
  uir_scopes_instructions (emit_all ops s) = uir_scopes_instructions s ++ seqZ (Z.of_nat (length (instructions s))) (Z.of_nat (length ops)) /\
  scopes (emit_all ops s) = scopes s /\ errors (emit_all ops s) = errors s.
Proof.
  revert s. induction ops as [|op ops IH]; intros s; cbn [emit_all length]; [by rewrite !app_nil_r|].
  destruct (IH (emitted op s)) as (-> & -> & -> & ->). simpl. rewrite <- !(assoc_L (++)), length_app. split_and!; try done.
  f_equal. unfold next_id. rewrite (seqZ_cons _ (Z.of_nat (S (length ops)))) by lia. simpl. f_equal. f_equal; lia.
Qed.

Lemma pending_before l stop before after :
  stop ∉ before -> deferred l stop = [] -> pending_defers l stop (before ++ stop :: after) = flat_map (deferred l) before.
Proof.
  intros Hs Hd. induction before as [|i before IH]; cbn [app pending_defers flat_map].
  - rewrite Hd. by rewrite decide_True.
  - apply not_elem_of_cons in Hs as [Hi Hs]. rewrite (IH Hs). destruct (deferred l i); [|done]. rewrite decide_False by done. done.
Qed.

(** C17: [append_defers] emits the bodies of the [defer]s between the two scopes,
    the innermost first, and nothing else; the [defer]s stay on the stack, for the
    other exits. *)
Theorem append_defers_pending `{Setting} (s : Lowerer) (b stop : nat) (before after : list nat) :
  tree (scopes s) -> chain (scopes s) b (before ++ stop :: after) -> stop ∉ before -> deferred (scopes s) stop = [] ->
  let ops := flat_map (deferred (scopes s)) before in
  Z.of_nat (length (instructions s) + length ops) <= 0xffffffff ->
  exists s', append_defers b stop s = Ret (tt, s') /\ instructions s' = instructions s ++ ops /\
    uir_scopes_instructions s' = uir_scopes_instructions s ++ seqZ (Z.of_nat (length (instructions s))) (Z.of_nat (length ops)) /\
    scopes s' = scopes s /\ errors s' = errors s.
Proof.
  intros Ht Hc Hs Hd ops Hn. pose proof (pending_before _ _ before after Hs Hd) as Hp.
  eexists. split; [eapply append_defers_run; [done|exact Hc|rewrite Hp; exact Hn]|]. rewrite Hp. apply emit_all_code.
Qed.

(** ** Jumps *)


(** ** Captures *)

(** A name that means an instruction behind [n] namespaces is one [CaptureGet],
    and its index, followed through the captures of the [n] namespaces in between, is that
    instruction.  This is so in every context: also where the value should be
    stored to a pointer, coerced to a type or its address taken, and there nothing
    is stored or coerced. *)
Theorem captured_name `{SL : SettingLaws, !Rec} D (P : gmap Z Target) (k d : nat) (s : Lowerer) (b : nat) (ps : list nat)
    (ident : Ident) (ctx : ExprContext) (span : Span.Span) (n : nat) (sc : Scope) (id : InstructionId) :
  wf D P k d s -> (0 < k)%nat -> scope_in s b -> chain (scopes s) b ps -> starts_with_at (Ident.symbol ident) = false ->
  finding (scopes s) (Ident.symbol ident) 0 ps = Some (n, sc) -> meaning n sc = Some (Capture (Instruction id) n) ->
  exists idx s', lower_ident b ident ctx span s = Ret (Some (Instruction (Z.of_nat (length (instructions s)))), s') /\
    instructions s' = instructions s ++ [Vuir.CaptureGet idx span] /\
    denotes (scopes s') (take n (namespaces (scopes s) ps)) idx id.
Proof.
  intros Hw Hk Hb Hc Hat Hfind Hm.
  destruct (noted_wf D P k d (Ident.symbol ident) 0 ps s Hw) as (Hw1 & K1 & Hs1).
  set (s1 := noted (finding (scopes s) (Ident.symbol ident) 0 ps) s) in *.
  assert (Hi1 : instructions s1 = instructions s).
  { unfold s1. rewrite Hfind. simpl. by destruct sc as [| |? ? ? ? [|]| |]. }
  assert (Hres : resolve_symbol b (Ident.symbol ident) s = Ret (Some (Capture (Instruction id) n), s1)).
  { unfold resolve_symbol. rewrite Hat, (bind_ret _ _ _ _ _ eq_refl).
    rewrite (resolve_run _ _ _ _ ps); [by rewrite Hfind; simpl; rewrite Hm; unfold s1; rewrite Hfind
      |by eapply wf_tree|by eapply wf_flags_ok|done|]. pose proof (scope_lt _ _ Hb). lia. }
  assert (Hok : resolved_ok s ps (Capture (Instruction id) n)).
  { eapply (resolution_ok D P k d (Ident.symbol ident) b); [done|done|]. by rewrite resolution_finding, Hfind. }
  destruct Hok as [Hid Hn]. pose proof (keeps_grows _ _ K1) as G1.
  destruct (lowers_capture D P k d b ps id n span s1 (fun r s' => exists idx,
    r = Instruction (Z.of_nat (length (instructions s))) /\ instructions s' = instructions s ++ [Vuir.CaptureGet idx span] /\
    denotes (scopes s') (take n (namespaces (scopes s) ps)) idx id)) as (r & s' & Hrun & idx & -> & Hins & Hden).
  { done. } { done. } { by eapply scope_grows. } { by rewrite Hs1. } { by eapply id_grows. } { by rewrite Hs1. }
  { intros i idx s' _ _ _ Hins -> Hden. exists idx. unfold next_id. rewrite Hi1 in *. by rewrite Hs1 in Hden. }
  exists idx, s'. split; [|done]. unfold lower_ident. rewrite (bind_ret _ _ _ _ _ Hres), (bind_ret _ _ _ _ _ Hrun). done.
Qed.

(** ** What is lost *)

(** The address of a variable of this namespace is the variable's instruction
    and nothing is emitted, whatever the context wants of the value: [&x] is not
    stored to the pointer it is meant for, so a variable, a field or an assignment
    that is given [&x] keeps what it had. *)
Theorem address_of_never_stored `{!Setting} (depth : nat) (s : Lowerer) (b : nat) (ps : list nat) (ident : Ident) (ctx : ExprContext)
    (id id' : NodeId) (span span' : Span.Span) (p : nat) (node : NodeId) (r : InstructionRef) :
  tree (scopes s) -> flags_ok s -> chain (scopes s) b ps -> starts_with_at (Ident.symbol ident) = false ->
  finding (scopes s) (Ident.symbol ident) 0 ps = Some (0%nat, Scope_LocalStackAllocated p (Ident.symbol ident) node r) ->
  @lower_expr _ (knot (S (S depth))) b (mkExpr id (ExprKind_AddressOf (mkExpr id' (ExprKind_Ident ident) span')) span) ctx s
    = Ret (r, s).
Proof.
  intros Ht Hf Hc Hat Hfind.
  assert (Hres : resolve_symbol b (Ident.symbol ident) s = Ret (Some (FoundAndIsLocalStackAllocated r), s)).
  { unfold resolve_symbol. rewrite Hat, (bind_ret _ _ _ _ _ eq_refl), (resolve_run _ _ _ _ ps); [by rewrite Hfind|done..|].
    destruct (chain_head _ _ _ Hc) as [ps' ->]. destruct (chain_lookup _ _ _ b Hc) as [sc Hsc%lookup_lt_Some]; [by left|lia]. }
  change (lower_ident b ident ctx_get_address_of span' s ≫= (fun '(i, s') =>
    (match i with Some i => mret i | None => inst_invalid b end) s') = Ret (r, s)).
  unfold lower_ident. by rewrite (bind_ret _ _ _ _ _ Hres).
Qed.

Lemma digits_underscore s acc v n rest :
  FloatText.digits s acc = (v, n, rest) -> byte "_" ∈ s -> byte "_" ∈ rest.
Proof.
  revert acc n. induction s as [|c s IH]; intros acc n; cbn [FloatText.digits]; [by intros [= <- <- <-]|].
  destruct (is_ascii_digit c) eqn:Hc; [|by intros [= <- <- <-]].
  destruct (FloatText.digits s _) as [[v' n'] rest'] eqn:Hd. intros [= <- <- <-] [Heq|Hs]%elem_of_cons; [by rewrite <- Heq in Hc|].
  by eapply IH.
Qed.

Lemma exponent_underscore s : byte "_" ∈ s -> FloatText.exponent s = None.
Proof.
  intros Hs. unfold FloatText.exponent.
  set (p := match s with [] => _ | _ :: _ => _ end). assert (Hp : byte "_" ∈ p.2).
  { unfold p. destruct s as [|c s]; [done|]. apply elem_of_cons in Hs as [<-|Hs]; [by left|].
    destruct (c =? byte "-"); [done|]. destruct (c =? byte "+"); [done|by right]. }
  destruct p as [neg s']. simpl in Hp. destruct (FloatText.digits s' 0) as [[v n] rest] eqn:Hd.
  apply digits_underscore in Hd; [|done]. destruct n; [done|]. by destruct rest; [apply not_elem_of_nil in Hd|].
Qed.

Lemma number_underscore s : byte "_" ∈ s -> FloatText.number s = None.
Proof.
  intros Hs. unfold FloatText.number. destruct (FloatText.digits s 0) as [[v n] rest] eqn:Hd.
  apply digits_underscore in Hd; [|done].
  set (p := match rest with [] => _ | _ :: _ => _ end). assert (Hp : byte "_" ∈ p.2).
  { unfold p. destruct rest as [|c rest]; [done|]. destruct (c =? byte ".") eqn:Hc; [|done].
    destruct (FloatText.digits rest v) as [[v' n'] rest'] eqn:Hd'. eapply digits_underscore; [exact Hd'|].
    apply elem_of_cons in Hd as [<-|Hd]; [done|done]. }
  destruct p as [[v' m] s']. simpl in Hp. destruct (n + m =? 0)%nat; [done|].
  destruct s' as [|c s']; [by apply not_elem_of_nil in Hp|].
  destruct ((c =? byte "e") || (c =? byte "E")) eqn:He; [|done].
  apply elem_of_cons in Hp as [<-|Hp]; [done|]. by rewrite exponent_underscore.
Qed.

Lemma special_underscore neg s : byte "_" ∈ s -> FloatText.special neg s = None.
Proof.
  intros Hs. assert (Hl : byte "_" ∈ map FloatText.lowercase s).
  { apply list_elem_of_fmap. by exists (byte "_"). }
  unfold FloatText.special. rewrite !bool_decide_eq_false_2; [done| |].
  - intros [E|E]; rewrite E in Hl; apply list_elem_of_In in Hl; vm_compute in Hl; intuition discriminate.
  - intros E; rewrite E in Hl; apply list_elem_of_In in Hl; vm_compute in Hl; intuition discriminate.
Qed.

(** A float literal with an underscore, which the lexer accepts, makes the
    lowering panic. *)
Theorem float_underscore_panics `{!Setting} (symbol : list Z) (suffix : option FloatSuffix.FloatSuffix) (s : Lowerer) :
  byte "_" ∈ symbol -> lower_lit (Lit.Float symbol suffix) s = panic.
Proof.
  intros Hs. unfold lower_lit, mbind, M_bind.
  assert (Hp : FloatText.parse_f64_as_f128 symbol = panic).
  { unfold FloatText.parse_f64_as_f128, FloatText.parse_f64.
    set (p := match symbol with [] => _ | _ :: _ => _ end). assert (Hp : byte "_" ∈ p.2).
    { unfold p. destruct symbol as [|c l]; [done|]. apply elem_of_cons in Hs as [<-|Hs]; [by left|].
      destruct (c =? byte "-"); [done|]. destruct (c =? byte "+"); [done|by right]. }
    destruct p as [neg s']. by rewrite number_underscore, special_underscore. }
  destruct suffix as [[]|]; simpl; rewrite Hp; done.
Qed.

(** ** Examples *)

Lemma nested_tree : tree nested.
Proof. intros i sc p Hi Hp. do 7 (destruct i as [|i]; [simpl in Hi; simplify_eq/=; lia|]). done. Qed.

Lemma nested_chain : chain nested 6 [6; 5; 4; 3; 2; 1; 0]%nat.
Proof. do 6 (eapply chain_step; [done|done|]). by eapply chain_root. Qed.

Lemma nested_flags v : flags_ok (in_loop v).
Proof. intros i p name node r f Hi. do 7 (destruct i as [|i]; [done|]). done. Qed.

Lemma resolve_symbol_innermost_witness :
  exists v, LowerExample.new_values = Ret v /\ exists o, resolve_symbol 6 (bytes_of "x") (in_loop v) = Ret (meaning_of o, noted o (in_loop v)).
Proof.
  destruct (LowerExample.new_values_store 0) as (v & Hv & _); [lia|]. exists v. split; [exact Hv|].
  destruct (resolve_symbol_innermost (in_loop v) 6 _ (bytes_of "x") nested_tree (nested_flags v) nested_chain eq_refl) as (o & Ho & _).
  by exists o.
Defined.

Lemma append_defers_pending_witness :
  exists v s', LowerExample.new_values = Ret v /\ append_defers 6 5 (in_loop v) = Ret (tt, s') /\
    instructions s' = instructions (in_loop v) ++ [Vuir.Defer [0] (Span.mk 4 9)].
Proof.
  destruct (LowerExample.new_values_store 0) as (v & Hv & _); [lia|]. exists v.
  destruct (append_defers_pending (in_loop v) 6 5 [6%nat] [4; 3; 2; 1; 0]%nat nested_tree nested_chain) as (s' & Hr & Hi & _);
    [by apply not_elem_of_cons; split; [|apply not_elem_of_nil]|done|vm_compute; discriminate|].
  exists s'. split_and!; [exact Hv|exact Hr|exact Hi].
Defined.


Lemma in_loop_wf v k : StoreLogic.store k v -> Z.of_nat (2 + k) <= 0xffffffff -> wf 1 ∅ k 0 (in_loop v).
Proof.
  intros Hv Hk. split; try done.
  - intros i op Hi. do 2 (destruct i as [|i]; [simpl in Hi; simplify_eq/=; by split; [split; simpl|]|]). done.
  - repeat constructor; vm_compute; done.
  - intros i sc Hi. destruct i as [|[|[|[|[|[|[|i]]]]]]]; simpl in Hi; simplify_eq/=; try done;
      (split; [by intros p [= <-]; lia|]); simpl; try done.
    + split; [lia|done].
    + split; [lia|done].
    + split; [lia|]. by exists 1.
    + repeat constructor; vm_compute; done.
  - by split; [repeat constructor|].
Qed.

Lemma captured_name_witness :
  exists v r s', LowerExample.new_values = Ret v /\
    @lower_ident _ 6 x (coerce_to_ty (Interned 3)) (Span.mk 0 1) (in_loop v) = Ret (r, s') /\ length (instructions s') = 3%nat.
Proof.
  destruct (LowerExample.new_values_store 8) as (v & Hv & Hs); [lia|]. exists v.
  destruct (@captured_name _ SemaExample.setting_laws (knot 0) 1 ∅ 8 0 (in_loop v) 6 [6; 5; 4; 3; 2; 1; 0]%nat x (coerce_to_ty (Interned 3)) (Span.mk 0 1) 1
    (Scope_LocalStackAllocated 2 (bytes_of "x") 7 (Instruction 0)) 0) as (idx & s' & Hr & Hi & _);
    [apply in_loop_wf; [exact Hs|lia]|lia|eexists; split; reflexivity|exact nested_chain|reflexivity|reflexivity|reflexivity|].
  eexists _, s'. split_and!; [exact Hv|exact Hr|]. by rewrite Hi.
Defined.

Lemma address_of_never_stored_witness :
  exists v, LowerExample.new_values = Ret v /\
    @lower_expr _ (knot 2) 3 (mkExpr 1 (ExprKind_AddressOf (mkExpr 2 (ExprKind_Ident x) (Span.mk 1 2))) (Span.mk 0 2))
      (coerce_to_ty (Interned 3)) (in_loop v) = Ret (Instruction 0, in_loop v).
Proof.
  destruct (LowerExample.new_values_store 0) as (v & Hv & _); [lia|]. exists v. split; [exact Hv|].
  refine (address_of_never_stored 0 (in_loop v) 3 [3; 2; 1; 0]%nat x _ 1 2 (Span.mk 0 2) (Span.mk 1 2) 2 7 (Instruction 0)
    nested_tree (nested_flags v) _ _ _); [|done|done].
  do 3 (eapply chain_step; [done|done|]). by eapply chain_root.
Defined.

Lemma float_underscore_panics_witness :
  exists v, LowerExample.new_values = Ret v /\ lower_lit (Lit.Float (bytes_of "1_0.5") None) (in_loop v) = panic.
Proof.
  destruct (LowerExample.new_values_store 0) as (v & Hv & _); [lia|]. exists v. split; [exact Hv|].
  apply float_underscore_panics. right. by left.
Defined.

End LowerWalkSpec.
