(* ===== verification/Llvm.v ===== *)
(** * Types, constants and functions in LLVM ([src/codegen/llvm.rs], [src/codegen/abi.rs])

    How the back end represents types, compile-time values, functions and the
    table of type information.  The objects of LLVM are terms: a type or a constant
    is the call of the bindings that builds it, a global, a function or a named
    struct its place in the module under construction.  The data layout of LLVM is
    an interface: the rules of its reference manual for sizes, alignments and
    offsets.  The bodies of functions, debug information and the passes are not
    modelled. *)

From S2P Require Import Prelude Words Bytes Anyint HashIndex ShardedMap Value ValueStore ValueLayout Float128.
From S2P Require Import SemaState.
From stdpp Require Import gmap pretty.

#[local] Open Scope Z_scope.

(** The triple of the target, as far as calling conventions look at it. *)
Inductive TripleArch : Set := X86_64 | Aarch64 | OtherArch.
Inductive TripleOs : Set := WindowsOs | LinuxOs | DarwinOs | OtherOs.
Class Triple := { triple_arch : TripleArch; triple_os : TripleOs }.

Module Llvm.
Import Value ValueStore Sema.

(** ** LLVM *)

Inductive LlvmType : Set :=
  | VoidTy
  | IntTy (bits : Z)
  | HalfTy
  | FloatTy
  | DoubleTy
  | Fp128Ty
  | PtrTy
  | StructTy (fields : list LlvmType) (packed : bool)
  | NamedTy (id : nat)
  | ArrayTy (elem : LlvmType) (len : Z)
  | FnTy (ret : LlvmType) (params : list LlvmType) (var_args : bool).

(** An integer constant is made from its decimal text; a float from the [f64], seen
    as an [f128]; [FirstElement] is the address of the first element of an array. *)
Inductive LlvmValue : Set :=
  | IntConst (ty : LlvmType) (text : list Z)
  | FloatConst (ty : LlvmType) (value : Z)
  | NullConst
  | ZeroConst (ty : LlvmType)
  | StringConst (text : list Z)
  | StructConst (ty : LlvmType) (fields : list LlvmValue)
  | ArrayConst (elem : LlvmType) (values : list LlvmValue)
  | GlobalPtr (id : nat)
  | FirstElement (array_ty : LlvmType) (ptr : LlvmValue)
  | FnRef (id : nat).

Section ListEq.
Context {A : Type} (eqb : A -> A -> bool).
Fixpoint list_eqb (a b : list A) : bool :=
  match a, b with
  | [], [] => true
  | x :: a, y :: b => eqb x y && list_eqb a b
  | _, _ => false
  end.
End ListEq.
Fixpoint LlvmType_eqb (a b : LlvmType) : bool :=
  match a, b with
  | VoidTy, VoidTy | HalfTy, HalfTy | FloatTy, FloatTy | DoubleTy, DoubleTy | Fp128Ty, Fp128Ty | PtrTy, PtrTy => true
  | IntTy a, IntTy b => a =? b
  | StructTy fs p, StructTy gs q => Bool.eqb p q && list_eqb LlvmType_eqb fs gs
  | NamedTy a, NamedTy b => (a =? b)%nat
  | ArrayTy a n, ArrayTy b m => LlvmType_eqb a b && (n =? m)
  | FnTy r ps v, FnTy s qs w => LlvmType_eqb r s && Bool.eqb v w && list_eqb LlvmType_eqb ps qs
  | _, _ => false
  end.

Inductive Linkage : Set := External | Private.
Record Global : Set :=
  { global_ty : LlvmType; global_name : list Z; global_constant : bool; global_init : LlvmValue }.

Inductive LlvmCallConv : Set := FastCallConv | CCallConv | ColdCallConv | Win64CallConv | X8664SysVCallConv.
Inductive Attribute : Set :=
  | sret | noalias | nonnull | byval (ty : LlvmType) | nounwind | noreturn | alwaysinline | noinline | uwtable_sync.
Inductive AttributeLoc : Set := Param (i : nat) | OnFunction.
Record Function_ : Set := {
  function_name : list Z;
  function_ty : LlvmType;
  linkage : Linkage;
  call_conv : option LlvmCallConv;
  attributes : list (AttributeLoc * Attribute);
}.

(** [try_into().unwrap()] and the [into_...] of the bindings. *)
Definition to_basic (t : LlvmType) : res LlvmType := match t with VoidTy | FnTy _ _ _ => panic | t => Ret t end.
Definition into_int_type (t : LlvmType) : res LlvmType := match t with IntTy _ => Ret t | _ => panic end.
Definition into_float_type (t : LlvmType) : res LlvmType :=
  match t with HalfTy | FloatTy | DoubleTy | Fp128Ty => Ret t | _ => panic end.
Definition into_struct_type (t : LlvmType) : res LlvmType :=
  match t with StructTy _ _ | NamedTy _ => Ret t | _ => panic end.
Definition into_function_type (t : LlvmType) : res LlvmType := match t with FnTy _ _ _ => Ret t | _ => panic end.

Definition value_type (v : LlvmValue) : LlvmType :=
  match v with
  | IntConst t _ | FloatConst t _ | ZeroConst t | StructConst t _ => t
  | NullConst | GlobalPtr _ | FirstElement _ _ | FnRef _ => PtrTy
  | StringConst s => ArrayTy (IntTy 8) (Z.of_nat (length s) + 1)
  | ArrayConst e vs => ArrayTy e (Z.of_nat (length vs))
  end.
(** A function is not a basic value. *)
Definition basic_value (v : LlvmValue) : res LlvmValue := match v with FnRef _ => panic | v => Ret v end.
Definition into_pointer_value (v : LlvmValue) : res LlvmValue :=
  match v with NullConst | GlobalPtr _ | FirstElement _ _ => Ret v | _ => panic end.
Definition into_int_value (v : LlvmValue) : res LlvmValue := match value_type v with IntTy _ => Ret v | _ => panic end.

(** ** Representation in calls *)

Inductive Repr : Set := ByValue | ByRef | AsInteger.
Inductive Context : Set := InParam | InReturn.

Section Abi.
Context `{ST : !Setting, TR : !Triple}.

Definition ty_layout (cu : Cu) (ty : Z) : res ValueLayout.Layout :=
  ValueLayout.type_layout query_fuel (values cu) (target cu) ty.

Definition compute_type_abi_win64 (cu : Cu) (ty : Z) (context : Context) : res Repr :=
  '(t, _) ← ValueStore.type_at (values cu) ty;
  match t with
  | TPtr _ | Int _ _ | Bool | Enum _ | Usize | Isize | F16 | F32 | F64 | Void => Ret ByValue
  | Array _ | Slice _ | Struct _ | Union _ =>
      l ← ty_layout cu ty;
      Ret (if existsb (Z.eqb (ValueLayout.size l)) [1; 2; 4; 8] then AsInteger else ByRef)
  | F128 => Ret (match context with InParam => ByRef | InReturn => ByValue end)
  | TAnyint | TAnyfloat | Fn _ | NullPtr | Anyptr | Type_ | Never | GenericPoison | EnumLiteral => panic
  end.
Definition compute_type_abi_sysv (cu : Cu) (ty : Z) : res Repr := _ ← ValueStore.type_at (values cu) ty; Ret ByValue.
Definition compute_type_abi_darwin (cu : Cu) (ty : Z) (context : Context) : res Repr :=
  _ ← ValueStore.type_at (values cu) ty; Ret ByValue.
Definition compute_type_abi_c (cu : Cu) (ty : Z) (context : Context) : res Repr :=
  match triple_arch, triple_os with
  | X86_64, WindowsOs => compute_type_abi_win64 cu ty context
  | X86_64, LinuxOs => compute_type_abi_sysv cu ty
  | Aarch64, DarwinOs => compute_type_abi_darwin cu ty context
  | _, _ => panic
  end.

(** Whether a value is kept in memory. *)
Definition vif_abi_type_is_by_ref (cu : Cu) (ty : Z) : res bool :=
  '(t, value) ← ValueStore.type_at (values cu) ty;
  match t with
  | Union _ =>
      _ ← ValueStore.as_union value;
      l ← ValueLayout.type_union_layout query_fuel (values cu) (target cu) ty;
      Ret (negb (ValueLayout.size (ValueLayout.payload l) =? 0))
  | Struct _ => s ← ValueStore.as_struct_value value; Ret (negb (is_packed s))
  | Array _ => Ret true
  | _ => Ret false
  end.

Definition compute_fn_param_abi_repr (cu : Cu) (fn : TypeFn) (param_ty : Z) : res Repr :=
  match callconv fn with
  | Vif | Cold | Fast => r ← vif_abi_type_is_by_ref cu param_ty; Ret (if r : bool then ByRef else ByValue)
  | C => compute_type_abi_c cu param_ty InParam
  | X86_64Windows => compute_type_abi_win64 cu param_ty InParam
  | X86_64SysV => compute_type_abi_sysv cu param_ty
  | Aarch64Darwin | Aarch64Win => compute_type_abi_darwin cu param_ty InParam
  | Count => panic
  end.
Definition compute_fn_ret_ty_abi_repr (cu : Cu) (fn : TypeFn) : res Repr :=
  match callconv fn with
  | Vif | Cold | Fast => r ← vif_abi_type_is_by_ref cu (ret_ty fn); Ret (if r : bool then ByRef else ByValue)
  | C => compute_type_abi_c cu (ret_ty fn) InReturn
  | X86_64Windows => compute_type_abi_win64 cu (ret_ty fn) InReturn
  | X86_64SysV => compute_type_abi_sysv cu (ret_ty fn)
  | Aarch64Darwin | Aarch64Win => compute_type_abi_darwin cu (ret_ty fn) InReturn
  | Count => panic
  end.
Definition fn_use_sret (cu : Cu) (fn : TypeFn) : res bool :=
  if ret_ty fn =? void_t (ValueStore.common (values cu)) then Ret false
  else r ← compute_fn_ret_ty_abi_repr cu fn; Ret (match r with ByRef => true | _ => false end).

Definition llvm_callconv_id (c : CallingConvention) : res (option LlvmCallConv) :=
  match c with
  | Vif => Ret (Some FastCallConv)
  | C => Ret (Some CCallConv)
  | Fast => Ret (Some FastCallConv)
  | Cold => Ret (Some ColdCallConv)
  | X86_64Windows => Ret (Some Win64CallConv)
  | X86_64SysV => Ret (Some X8664SysVCallConv)
  | Aarch64Darwin | Aarch64Win => Ret None
  | Count => panic
  end.
End Abi.

(** ** The module under construction *)

Section Lowering.
Context `{ST : !Setting, TR : !Triple}.
(** The bits of an integer as wide as a pointer, in the data layout of LLVM. *)
Variable pointer_bits : Z.

Record Lowerer := mk_lowerer {
  compilation_unit : Cu;
  interned_value_to_llvm_type : gmap Z LlvmType;
  interned_value_to_llvm_value : gmap Z LlvmValue;
  interned_value_to_llvm_storage : gmap Z LlvmValue;
  decl_to_llvm_storage : gmap Z LlvmValue;
  structs : list (list Z * option (list LlvmType));
  globals : list Global;
  functions : list Function_;
}.
Definition set_compilation_unit c (l : Lowerer) :=
  mk_lowerer c (interned_value_to_llvm_type l) (interned_value_to_llvm_value l) (interned_value_to_llvm_storage l)
    (decl_to_llvm_storage l) (structs l) (globals l) (functions l).
Definition set_types t (l : Lowerer) :=
  mk_lowerer (compilation_unit l) t (interned_value_to_llvm_value l) (interned_value_to_llvm_storage l)
    (decl_to_llvm_storage l) (structs l) (globals l) (functions l).
Definition set_llvm_values t (l : Lowerer) :=
  mk_lowerer (compilation_unit l) (interned_value_to_llvm_type l) t (interned_value_to_llvm_storage l)
    (decl_to_llvm_storage l) (structs l) (globals l) (functions l).
Definition set_storage t (l : Lowerer) :=
  mk_lowerer (compilation_unit l) (interned_value_to_llvm_type l) (interned_value_to_llvm_value l) t
    (decl_to_llvm_storage l) (structs l) (globals l) (functions l).
Definition set_decl_storage t (l : Lowerer) :=
  mk_lowerer (compilation_unit l) (interned_value_to_llvm_type l) (interned_value_to_llvm_value l)
    (interned_value_to_llvm_storage l) t (structs l) (globals l) (functions l).
Definition set_structs t (l : Lowerer) :=
  mk_lowerer (compilation_unit l) (interned_value_to_llvm_type l) (interned_value_to_llvm_value l)
    (interned_value_to_llvm_storage l) (decl_to_llvm_storage l) t (globals l) (functions l).
Definition set_globals t (l : Lowerer) :=
  mk_lowerer (compilation_unit l) (interned_value_to_llvm_type l) (interned_value_to_llvm_value l)
    (interned_value_to_llvm_storage l) (decl_to_llvm_storage l) (structs l) t (functions l).
Definition set_functions t (l : Lowerer) :=
  mk_lowerer (compilation_unit l) (interned_value_to_llvm_type l) (interned_value_to_llvm_value l)
    (interned_value_to_llvm_storage l) (decl_to_llvm_storage l) (structs l) (globals l) t.

Definition L (A : Type) : Type := Lowerer -> res (A * Lowerer).
#[export] Instance L_ret : MRet L := fun A a l => Ret (a, l).
#[export] Instance L_bind : MBind L := fun A B k m l =>
  match m l with Ret (a, l) => k a l | Fault f => Fault f end.
Definition gets {A} (f : Lowerer -> A) : L A := fun l => Ret (f l, l).
Definition modify (f : Lowerer -> Lowerer) : L unit := fun l => Ret (tt, f l).
Definition lift {A} (r : res A) : L A := fun l => match r with Ret a => Ret (a, l) | Fault f => Fault f end.
Definition out_of_fuel {A} : L A := fun _ => diverge.
(** A question to the compilation unit. *)
Definition ask {A} (f : Cu -> res A) : L A := c ← gets compilation_unit; lift (f c).
Definition intern {A} (f : Store -> res (A * Store)) : L A :=
  c ← gets compilation_unit;
  '(a, v) ← lift (f (values c));
  modify (set_compilation_unit (set_values v c)) ;;
  mret a.
Fixpoint for_each {A B} (f : A -> L B) (l : list A) : L (list B) :=
  match l with
  | [] => mret []
  | x :: l => y ← f x; ys ← for_each f l; mret (y :: ys)
  end.

Definition key_at (i : Z) : L Key := ask (fun c => ValueStore.index_to_key (values c) i).
Definition int_ptr_ty : LlvmType := IntTy pointer_bits.
Definition decimal (n : Z) : list Z := bytes_of (pretty n).

Definition cache_type (index : Z) (t : LlvmType) : L unit :=
  modify (fun l => set_types (<[index := t]> (interned_value_to_llvm_type l)) l).
(** [opaque_struct_type] and [set_body]. *)
Definition opaque_struct_type (name : list Z) : L nat :=
  l ← gets structs;
  modify (set_structs (l ++ [(name, None)])) ;;
  mret (length l).
Definition set_body (id : nat) (fields : list LlvmType) : L unit :=
  l ← gets structs;
  s ← lift (get_idx l id);
  l ← lift (set_idx l id (s.1, Some fields));
  modify (set_structs l).
Definition get_field_types (t : LlvmType) : L (list LlvmType) :=
  match t with
  | StructTy fields _ => mret fields
  | NamedTy id => l ← gets structs; s ← lift (get_idx l id); match s.2 with Some fields => mret fields | None => mret [] end
  | _ => lift panic
  end.
Definition add_global (g : Global) : L LlvmValue :=
  l ← gets globals;
  modify (set_globals (l ++ [g])) ;;
  mret (GlobalPtr (length l)).

(** What a function calls back. *)
Class Knot := {
  rec_type_basic : Z -> L LlvmType;
  rec_type : Z -> L LlvmType;
  rec_interned_value : Z -> L LlvmValue;
  rec_as_llvm_value : Z -> L LlvmValue;
}.
Context `{KN : !Knot}.

(** ** Unions *)

(** The views of a union: a tag, or a struct with the places of tag and payload. *)
Inductive UnionRepr : Set :=
  | TagOnly (tag : LlvmValue)
  | Aggregate (ty : LlvmType) (tag : option (LlvmValue * nat)) (payload : option (nat * option LlvmType)).

Definition bytes_ty (n : Z) : res LlvmType :=
  if n <? 0 then panic else if n <? 2^32 then Ret (ArrayTy (IntTy 8) n) else panic.

(** The tag of a field, as a constant. *)
Definition field_tag (u : TypeUnion) (field_idx : Z) : L (option LlvmValue) :=
  match union_tag_ty u with
  | None => mret None
  | Some tag_ty =>
      tag ← intern (fun v => ValueStore.intern_enum_tag_from_field_idx v tag_ty field_idx);
      tag ← rec_interned_value tag;
      tag ← lift (basic_value tag);
      mret (Some tag)
  end.
(** The payload of the field in the bytes of the largest one. *)
Definition payload_wrapper (payload_llvm_ty : LlvmType) (payload_size union_payload_size : Z) : res (option LlvmType) :=
  if payload_size =? union_payload_size then Ret None
  else padding ← bytes_ty (union_payload_size - payload_size); Ret (Some (StructTy [payload_llvm_ty; padding] true)).

Definition lower_union_repr_for_field (union_ty field_idx : Z) : L UnionRepr :=
  value ← ask (fun c => ValueStore.index_to_value (values c) union_ty);
  u ← lift (ValueStore.as_union value);
  layout ← ask (fun c => ValueLayout.type_union_layout query_fuel (values c) (target c) union_ty);
  tag ← field_tag u field_idx;
  let union_size := ValueLayout.size (ValueLayout.payload layout) in
  if union_size =? 0 then match tag with Some tag => mret (TagOnly tag) | None => lift panic end
  else
    field ← lift (get_idx (union_fields u) (Z.to_nat field_idx));
    most ← lift (get_idx (union_fields u) (ValueLayout.most_aligned_field layout).1);
    payload_ty ← lift (match uf_ty field, uf_ty most with
                       | Some ty, _ => Ret ty
                       | None, Some ty => Ret ty
                       | None, None => panic
                       end);
    payload_llvm_ty ← rec_type_basic payload_ty;
    payload_layout ← ask (fun c => ty_layout c payload_ty);
    wrapper ← lift (payload_wrapper payload_llvm_ty (ValueLayout.size payload_layout) union_size);
    let view := default payload_llvm_ty wrapper in
    let tag_size := ValueLayout.size (ValueLayout.tag layout) in
    let has_tag := negb (tag_size =? 0) in
    let tag_first := has_tag &&
      (ValueLayout.align (ValueLayout.payload layout) <=? ValueLayout.align (ValueLayout.tag layout)) in
    tag_fields ← (if has_tag then
                    match union_tag_ty u with Some t => t ← rec_type_basic t; mret [t] | None => lift panic end
                  else mret []);
    trailing ← (if ValueLayout.trailing_padding layout =? 0 then mret []
                else t ← lift (bytes_ty (ValueLayout.trailing_padding layout)); mret [t]);
    aligned ← match wrapper with
              | None => mret []
              | Some _ =>
                  match uf_ty most with
                  | Some ty => t ← rec_type_basic ty; mret [ArrayTy t 0]
                  | None => lift panic
                  end
              end;
    let fields := (if tag_first then tag_fields ++ [view] else view :: tag_fields) ++ trailing ++ aligned in
    id ← opaque_struct_type (union_name u ++ bytes_of "." ++ uf_name field);
    set_body id fields ;;
    mret (Aggregate (NamedTy id)
            (match tag with Some t => if has_tag then Some (t, if tag_first then 0%nat else 1%nat) else None | None => None end)
            (match uf_ty field with Some _ => Some (if tag_first then 1%nat else 0%nat, wrapper) | None => None end)).

(** ** Types *)

Definition lower_type_basic (index : Z) : L LlvmType :=
  types ← gets interned_value_to_llvm_type;
  match types !! index with
  | Some t => lift (to_basic t)
  | None =>
      '(key, value) ← ask (fun c => ValueStore.index_to_key_value (values c) index);
      match key with
      | KInt ty _ => rec_type_basic ty
      | KType t =>
          ty ← match t with
               | Int _ bits => mret (IntTy bits)
               | Usize | Isize => mret int_ptr_ty
               | F16 => mret HalfTy
               | F32 => mret FloatTy
               | F64 => mret DoubleTy
               | F128 => mret Fp128Ty
               | Bool => mret (IntTy 1)
               | TPtr _ => mret PtrTy
               | Slice _ | Anyptr => mret (StructTy [PtrTy; int_ptr_ty] false)
               | Array array =>
                   elem ← rec_type_basic (elem_ty array);
                   lift (assert_ (array_len array <? 2^32)) ;;
                   mret (ArrayTy elem (array_len array))
               | Struct _ =>
                   st ← lift (ValueStore.as_struct_value value);
                   match layout st with
                   | Packed storage_bits _ _ => mret (IntTy storage_bits)
                   | Standard =>
                       id ← opaque_struct_type (struct_name st);
                       cache_type index (NamedTy id) ;;
                       fields ← for_each (fun f => rec_type_basic (sf_ty f)) (struct_fields st);
                       set_body id fields ;;
                       mret (NamedTy id)
                   end
               | Enum _ => e ← lift (as_enum_value value); rec_type_basic (enum_tag_ty e)
               | Union _ =>
                   u ← lift (ValueStore.as_union value);
                   l ← ask (fun c => ValueLayout.type_union_layout query_fuel (values c) (target c) index);
                   repr ← lower_union_repr_for_field index (Z.of_nat (ValueLayout.most_aligned_field l).1);
                   match repr with
                   | TagOnly tag => mret (value_type tag)
                   | Aggregate view _ _ =>
                       id ← opaque_struct_type (union_name u);
                       cache_type index (NamedTy id) ;;
                       fields ← get_field_types view;
                       set_body id fields ;;
                       mret (NamedTy id)
                   end
               | TAnyint | TAnyfloat | Void | Fn _ | NullPtr | GenericPoison | Type_ | Never | EnumLiteral => lift panic
               end;
          cache_type index ty ;;
          mret ty
      | _ => lift panic
      end
  end.

(** The parameters that are passed when a function runs. *)
Fixpoint runtime_params_of (params : list Z) (comptime : list bool) : res (list Z) :=
  match params, comptime with
  | [], _ => Ret []
  | p :: params, c :: comptime =>
      rest ← runtime_params_of params comptime; Ret (if c : bool then rest else p :: rest)
  | _ :: _, [] => panic
  end.
Definition runtime_params (fn : TypeFn) : res (list Z) := runtime_params_of (params fn) (comptime_params fn).

(** The integer that holds the bytes of a type. *)
Definition as_integer (ty : Z) : L LlvmType :=
  l ← ask (fun c => ty_layout c ty); mret (IntTy (u32 (ValueLayout.size l * 8))).

Definition lower_param_type (fn : TypeFn) (param_ty : Z) : L LlvmType :=
  r ← ask (fun c => compute_fn_param_abi_repr c fn param_ty);
  match r with
  | ByValue => lower_type_basic param_ty
  | ByRef => mret PtrTy
  | AsInteger => as_integer param_ty
  end.

Definition lower_fn_type (fn : TypeFn) : L LlvmType :=
  ret_repr ← ask (fun c => compute_fn_ret_ty_abi_repr c fn);
  let sret_params := match ret_repr with ByRef => [PtrTy] | _ => [] end in
  params ← lift (runtime_params fn);
  params ← for_each (lower_param_type fn) params;
  let params := sret_params ++ params in
  match ret_repr with
  | ByRef => mret (FnTy VoidTy params (var_args fn))
  | AsInteger => t ← as_integer (ret_ty fn); mret (FnTy t params (var_args fn))
  | ByValue =>
      key ← key_at (ret_ty fn);
      match key with
      | KType (Void | Never) => mret (FnTy VoidTy params (var_args fn))
      | KType _ => t ← lower_type_basic (ret_ty fn); mret (FnTy t params (var_args fn))
      | _ => lift panic
      end
  end.

Definition lower_type (index : Z) : L LlvmType :=
  types ← gets interned_value_to_llvm_type;
  match types !! index with
  | Some t => mret t
  | None =>
      key ← key_at index;
      ty ← match key with
           | KInt ty _ => rec_type ty
           | KType (Void | Never) => mret VoidTy
           | KType (Fn fn) => lower_fn_type fn
           | KType _ => lower_type_basic index
           | _ => lift panic
           end;
      cache_type index ty ;;
      mret ty
  end.

(** ** Constants *)

(** The value of a declaration that code generation reads. *)
Definition decl_of (decl : Z) : L Decl := ask (fun c => get_idx (decls c) (Z.to_nat decl)).
Definition decl_value_of (d : Decl) : res Z := match analysis_state d with Analysed v => Ret v | _ => panic end.

Definition lower_interned_value_in_const_storage (val : Z) : L LlvmValue :=
  storage ← gets interned_value_to_llvm_storage;
  match storage !! val with
  | Some p => mret p
  | None =>
      init ← rec_as_llvm_value val;
      init ← lift (basic_value init);
      p ← add_global {| global_ty := value_type init; global_name := bytes_of "interned";
                        global_constant := true; global_init := init |};
      modify (fun l => set_storage (<[val := p]> (interned_value_to_llvm_storage l)) l) ;;
      mret p
  end.

Definition lower_interned_value (val : Z) : L LlvmValue :=
  vals ← gets interned_value_to_llvm_value;
  match vals !! val with
  | Some v => mret v
  | None =>
      ty ← ask (fun c => ValueStore.type_of_interned (values c) val);
      by_ref ← ask (fun c => vif_abi_type_is_by_ref c ty);
      v ← (if by_ref : bool then lower_interned_value_in_const_storage val else rec_as_llvm_value val);
      modify (fun l => set_llvm_values (<[val := v]> (interned_value_to_llvm_value l)) l) ;;
      mret v
  end.

Definition lower_decl_storage (decl : Z) : L LlvmValue :=
  storage ← gets decl_to_llvm_storage;
  match storage !! decl with
  | Some p => mret p
  | None =>
      d ← decl_of decl;
      value ← lift (decl_value_of d);
      init ← rec_as_llvm_value value;
      init ← lift (basic_value init);
      p ← add_global {| global_ty := value_type init; global_name := full_qualified_name d;
                        global_constant := decl_is_const d; global_init := init |};
      modify (fun l => set_decl_storage (<[decl := p]> (decl_to_llvm_storage l)) l) ;;
      mret p
  end.

(** A pointer to a declaration, or to the first element of the array that it is. *)
Definition decl_pointer (p : Ptr) (decl : Z) : L LlvmValue :=
  d ← decl_of decl;
  value ← lift (decl_value_of d);
  storage ← lower_decl_storage decl;
  key ← key_at (ptr_ty p);
  ptr ← lift (as_type_ptr key);
  value_ty ← ask (fun c => ValueStore.type_of_interned (values c) value);
  if value_ty =? ptr_pointee_ty ptr then mret storage
  else
    key ← key_at value_ty;
    match key with
    | KType (Array array) =>
        if elem_ty array =? ptr_pointee_ty ptr then t ← lower_type_basic value_ty; mret (FirstElement t storage)
        else lift panic
    | _ => lift panic
    end.

Definition lower_aggregate (ty : Z) (elems : list Z) : L LlvmValue :=
  vals ← for_each (fun e => v ← rec_as_llvm_value e; lift (basic_value v)) elems;
  '(t, value) ← ask (fun c => ValueStore.type_at (values c) ty);
  let actual := map value_type vals in
  match t with
  | Struct _ =>
      st ← lift (ValueStore.as_struct_value value);
      if is_packed st then lift panic
      else
        struct_ty ← lower_type ty;
        struct_ty ← lift (into_struct_type struct_ty);
        nominal ← get_field_types struct_ty;
        mret (StructConst (if list_eqb LlvmType_eqb nominal actual then struct_ty else StructTy actual false) vals)
  | Array array =>
      by_ref ← ask (fun c => vif_abi_type_is_by_ref c (elem_ty array));
      if by_ref : bool then mret (StructConst (StructTy actual false) vals)
      else t ← lower_type_basic (elem_ty array); mret (ArrayConst t vals)
  | _ => lift panic
  end.

(** The first field whose tag is [tag]. *)
Fixpoint field_of_tag (tag_ty tag : Z) (i : nat) (fields : list UnionField) : L Z :=
  match fields with
  | [] => lift panic
  | _ :: fields =>
      t ← intern (fun v => ValueStore.intern_enum_tag_from_field_idx v tag_ty (u32 (Z.of_nat i)));
      if t =? tag then mret (u32 (Z.of_nat i)) else field_of_tag tag_ty tag (S i) fields
  end.
Fixpoint field_of_payload (payload_ty : Z) (i : nat) (fields : list UnionField) : res Z :=
  match fields with
  | [] => panic
  | f :: fields => if bool_decide (uf_ty f = Some payload_ty) then Ret (u32 (Z.of_nat i)) else field_of_payload payload_ty (S i) fields
  end.

(** [UnionRepr::const_value]: the fields of the constant. *)
Definition const_value (repr : UnionRepr) (payload : option LlvmValue) : L (list LlvmValue) :=
  match repr with
  | TagOnly _ => lift panic
  | Aggregate ty tag payload_field =>
      fields ← get_field_types ty;
      let zeros := map ZeroConst fields in
      zeros ← match payload_field, payload with
              | Some (idx, wrapper), Some v =>
                  v ← match wrapper with
                      | Some w =>
                          fields ← get_field_types w;
                          padding ← lift (get_idx fields 1);
                          mret (StructConst w [v; ZeroConst padding])
                      | None => mret v
                      end;
                  lift (set_idx zeros idx v)
              | Some _, None | None, Some _ => lift panic
              | None, None => mret zeros
              end;
      match tag with
      | Some (tag, idx) => lift (set_idx zeros idx tag)
      | None => mret zeros
      end
  end.

Definition lower_union (ty : Z) (tag payload : option Z) : L LlvmValue :=
  value ← ask (fun c => ValueStore.index_to_value (values c) ty);
  u ← lift (ValueStore.as_union value);
  field_idx ← match tag, payload with
              | Some tag, _ =>
                  match union_tag_ty u with
                  | Some tag_ty => field_of_tag tag_ty tag 0 (union_fields u)
                  | None => lift panic
                  end
              | None, Some payload =>
                  payload_ty ← ask (fun c => ValueStore.type_of_interned (values c) payload);
                  lift (field_of_payload payload_ty 0 (union_fields u))
              | None, None => lift panic
              end;
  repr ← lower_union_repr_for_field ty field_idx;
  match repr with
  | TagOnly tag => mret tag
  | Aggregate view _ _ =>
      payload ← match payload with
                | Some p => v ← rec_as_llvm_value p; v ← lift (basic_value v); mret (Some v)
                | None => mret None
                end;
      fields ← const_value repr payload;
      nominal_ty ← lower_type ty;
      nominal_ty ← lift (into_struct_type nominal_ty);
      nominal ← get_field_types nominal_ty;
      view_fields ← get_field_types view;
      mret (StructConst (if list_eqb LlvmType_eqb nominal view_fields then nominal_ty else view) fields)
  end.

(** ** Functions *)

Definition is_main (name : list Z) : bool := bool_decide (name = bytes_of "main").
Definition find_function (name : list Z) : L (option nat) :=
  fs ← gets functions;
  mret ((fun x => x.1) <$> list_find (fun f => function_name f = name) fs).
Definition add_function (name : list Z) (ty : LlvmType) (link : Linkage) : L nat :=
  fs ← gets functions;
  modify (set_functions (fs ++ [{| function_name := name; function_ty := ty; linkage := link;
                                   call_conv := None; attributes := [] |}])) ;;
  mret (length fs).
Definition update_function (id : nat) (f : Function_ -> Function_) : L unit :=
  fs ← gets functions;
  x ← lift (get_idx fs id);
  fs ← lift (set_idx fs id (f x));
  modify (set_functions fs).
Definition add_attribute (id : nat) (loc : AttributeLoc) (a : Attribute) : L unit :=
  update_function id (fun f => {| function_name := function_name f; function_ty := function_ty f; linkage := linkage f;
                                  call_conv := call_conv f; attributes := attributes f ++ [(loc, a)] |}).
Definition set_call_conventions (id : nat) (c : LlvmCallConv) : L unit :=
  update_function id (fun f => {| function_name := function_name f; function_ty := function_ty f; linkage := linkage f;
                                  call_conv := Some c; attributes := attributes f |}).

(** The attributes of the parameters, from LLVM parameter [i] on. *)
Fixpoint param_attributes (id : nat) (fn : TypeFn) (i : nat) (params : list Z) : L unit :=
  match params with
  | [] => mret tt
  | param_ty :: params =>
      r ← ask (fun c => compute_fn_param_abi_repr c fn param_ty);
      match r with
      | ByRef =>
          t ← lower_type param_ty;
          add_attribute id (Param i) (byval t) ;;
          add_attribute id (Param i) noalias ;;
          add_attribute id (Param i) nonnull
      | ByValue | AsInteger => mret tt
      end ;;
      param_attributes id fn (S i) params
  end.

Definition lower_decl_fn (decl : Z) : L LlvmValue :=
  d ← decl_of decl;
  fn_ty_idx ← match analysis_state d with
              | TypeKnown ty => mret ty
              | Analysed value => ask (fun c => ValueStore.type_of_interned (values c) value)
              | _ => lift panic
              end;
  key ← key_at fn_ty_idx;
  fn ← lift (as_type_fn key);
  known ← ask (fun c => Ret (known c));
  let is_runtime_main := is_main (decl_name d) && (decl_module d =? std_rt_module known) in
  let name := if external fn || is_runtime_main then decl_name d else full_qualified_name d in
  ty ← lower_type fn_ty_idx;
  ty ← lift (into_function_type ty);
  id ← (if external fn then
          existing ← find_function name;
          match existing with Some id => mret id | None => add_function name ty External end
        else add_function name ty (if is_runtime_main then External else Private));
  cc ← lift (llvm_callconv_id (callconv fn));
  match cc with Some c => set_call_conventions id c | None => mret tt end ;;
  lower_type (ret_ty fn) ;;
  use_sret ← ask (fun c => fn_use_sret c fn);
  (if use_sret : bool then
     add_attribute id (Param 0) sret ;; add_attribute id (Param 0) noalias ;; add_attribute id (Param 0) nonnull
   else mret tt) ;;
  params ← lift (runtime_params fn);
  param_attributes id fn (if use_sret : bool then 1 else 0)%nat params ;;
  add_attribute id OnFunction nounwind ;;
  never ← ask (fun c => Ret (never_t (ValueStore.common (values c))));
  (if ret_ty fn =? never then add_attribute id OnFunction noreturn else mret tt) ;;
  match inline fn with
  | InlineAlways => add_attribute id OnFunction alwaysinline
  | InlineNever => add_attribute id OnFunction noinline
  | InlineNone => mret tt
  end ;;
  add_attribute id OnFunction uwtable_sync ;;
  mret (FnRef id).

Definition lower_interned_value_as_llvm_value (val : Z) : L LlvmValue :=
  key ← key_at val;
  match key with
  | KStr slice_ty value =>
      t ← lower_type slice_ty;
      t ← lift (into_struct_type t);
      lift (assert_ (utf8_valid value)) ;;
      ptr ← add_global {| global_ty := value_type (StringConst value); global_name := []; global_constant := true;
                          global_init := StringConst value |};
      mret (StructConst t [ptr; IntConst int_ptr_ty (decimal (Z.of_nat (length value)))])
  | KSlice ty ptr len =>
      t ← lower_type ty;
      t ← lift (into_struct_type t);
      ptr ← rec_as_llvm_value ptr;
      ptr ← lift (into_pointer_value ptr);
      len ← rec_as_llvm_value len;
      len ← lift (into_int_value len);
      mret (StructConst t [ptr; len])
  | KInt ty value =>
      t ← lower_type ty;
      text ← lift (Anyint.fmt value);
      t ← lift (into_int_type t);
      mret (IntConst t text)
  | KFloat ty value =>
      t ← lower_type ty;
      t ← lift (into_float_type t);
      mret (FloatConst t (Float128.as_f64 (f128_bits value)))
  | KBool b => mret (IntConst (IntTy 1) (decimal (if b then 1 else 0)))
  | KPtr p =>
      match ptr_kind p with
      | PtrValue v => rec_interned_value v
      | PtrDecl decl => decl_pointer p decl
      | PtrComptimeAlloc _ => lift panic
      end
  | KEnumTag _ v => rec_as_llvm_value v
  | KFn fn => lower_decl_fn (fn_owner_decl fn)
  | KNullPtr => mret NullConst
  | KAggregate ty elems => lower_aggregate ty elems
  | KUnion ty tag payload => lower_union ty tag payload
  | KUndefined _ | KVoid | KUnreachable | KType _ | KDeclRef _ | KFnDecl _ | KEnumLiteral _ => lift panic
  end.
End Lowering.

(** The recursion, to a depth. *)
Fixpoint knot `{!Setting, !Triple} (pointer_bits : Z) (fuel : nat) : Knot :=
  match fuel with
  | O => {| rec_type_basic := fun _ => out_of_fuel; rec_type := fun _ => out_of_fuel;
            rec_interned_value := fun _ => out_of_fuel; rec_as_llvm_value := fun _ => out_of_fuel |}
  | S fuel =>
      let k := knot pointer_bits fuel in
      {| rec_type_basic := lower_type_basic pointer_bits;
         rec_type := lower_type pointer_bits;
         rec_interned_value := lower_interned_value;
         rec_as_llvm_value := lower_interned_value_as_llvm_value pointer_bits |}
  end.

(** ** The whole module *)

Section Module_.
Context `{ST : !Setting, TR : !Triple}.
Variables (pointer_bits : Z) (fuel : nat).

(** The table of type information comes first and is filled in at the end. *)
Definition new_lowerer (cu : Cu) : Lowerer :=
  mk_lowerer cu ∅ ∅ ∅ ∅ []
    [{| global_ty := PtrTy; global_name := bytes_of "__vif_type_info_table"; global_constant := true; global_init := NullConst |}] [].

Definition finish : L unit :=
  entries ← gets (fun l => type_info_entries (compilation_unit l));
  ptrs ← for_each (@lower_interned_value_in_const_storage _ (knot pointer_bits fuel)) entries;
  table ← add_global {| global_ty := ArrayTy PtrTy (Z.of_nat (length ptrs)); global_name := bytes_of "__vif_type_info_entries";
                        global_constant := true; global_init := ArrayConst PtrTy ptrs |};
  gs ← gets globals;
  g ← lift (get_idx gs 0);
  gs ← lift (set_idx gs 0 {| global_ty := global_ty g; global_name := global_name g;
                             global_constant := global_constant g; global_init := table |});
  modify (set_globals gs).
End Module_.

End Llvm.
