(* ===== verification/LlvmSpec.v ===== *)
(** * Vif types and LLVM types have the same layout

    The types that the back end makes for Vif types have the size and the alignment
    that the front end computes, for the types whose scalars fill their bytes
    ([regular]), unions with their tags, padding and alignment included.  The data
    layout of LLVM is the interface [DataLayout] with the rules of its reference
    manual as laws; [Layout64] is an implementation.  A constant for which the two
    sides differ is [constant_misplaced]. *)

From S2P Require Import Prelude Words Bytes Anyint AnyintArith AnyintSpec HashIndex ShardedMap Value ValueStore ValueLayout ValueSpec.
From S2P Require Import SemaState SemaExample Llvm.
From stdpp Require Import gmap.

#[local] Open Scope Z_scope.

(** ** The layout of LLVM types *)

(** Where the fields of a struct go: the fields from position [pos] on, with their
    offsets. *)
Inductive placed_types (R : Llvm.LlvmType -> Z -> Z -> Prop) : list Llvm.LlvmType -> Z -> Z -> list Z -> Z -> Z -> Prop :=
  | pt_nil pos al : placed_types R [] pos al [] pos al
  | pt_cons t ts pos al s a off offs pos' al' :
      R t s a -> ValueLayout.first_multiple pos a off ->
      placed_types R ts (off + s) (Z.max al a) offs pos' al' ->
      placed_types R (t :: ts) pos al (off :: offs) pos' al'.

(** [abi structs t s a]: with the bodies of the named structs [structs], [t] takes
    [s] bytes in memory, at multiples of [a]. *)
Class DataLayout := { abi : list (list Z * option (list Llvm.LlvmType)) -> Llvm.LlvmType -> Z -> Z -> Prop }.

Definition bodies_kept (st st' : list (list Z * option (list Llvm.LlvmType))) : Prop :=
  forall id name fields, st !! id = Some (name, Some fields) -> st' !! id = Some (name, Some fields).

(** The rules of the reference manual, for 64-bit targets whose widest integer
    alignment is 128 bits: an integer takes the least power of two of bytes. *)
Class DataLayoutLaws `{!DataLayout} (pointer_bits : Z) := {
  abi_int st bits k : 0 <= k <= 4 -> 1 <= bits <= 8 * 2^k -> (k = 0 \/ 8 * 2^(k - 1) < bits) ->
    abi st (Llvm.IntTy bits) (2^k) (2^k);
  abi_half st : abi st Llvm.HalfTy 2 2;
  abi_float st : abi st Llvm.FloatTy 4 4;
  abi_double st : abi st Llvm.DoubleTy 8 8;
  abi_fp128 st : abi st Llvm.Fp128Ty 16 16;
  abi_ptr st w : pointer_bits = 8 * w -> abi st Llvm.PtrTy w w;
  abi_array st t s a n : abi st t s a -> 0 <= n -> abi st (Llvm.ArrayTy t n) (s * n) a;
  abi_struct st ts offs n al s :
    placed_types (abi st) ts 0 1 offs n al -> ValueLayout.first_multiple n al s -> abi st (Llvm.StructTy ts false) s al;
  abi_packed st ts ss : Forall2 (fun t s => exists a, abi st t s a) ts ss -> abi st (Llvm.StructTy ts true) (foldr Z.add 0 ss) 1;
  abi_named st id name fields s a :
    st !! id = Some (name, Some fields) -> abi st (Llvm.StructTy fields false) s a -> abi st (Llvm.NamedTy id) s a;
  abi_mono st st' t s a : bodies_kept st st' -> abi st t s a -> abi st' t s a;
  abi_fun st t s a s' a' : abi st t s a -> abi st t s' a' -> s = s' /\ a = a';
}.

Module LlvmSpec.
Import Value ValueStore ValueLayout ValueLayoutSpec Sema Llvm.

(** ** The layout queries *)

Section Queries.
Context `{FX : FxHasher} `{HT : HashTable} {A : Type} `{AO : ArenaOps A (Key * Value)}.
Implicit Types (v : ValueStore A) (tgt : ResolvedTargetInfo).

Definition below {B C} (f g : B -> res C) : Prop := forall x r, f x = Ret r -> g x = Ret r.

Lemma for_enumM_from_mono {B T} (f g : nat -> B -> T -> res T) k l s r :
  (forall i x s r, f i x s = Ret r -> g i x s = Ret r) -> for_enumM_from k l f s = Ret r -> for_enumM_from k l g s = Ret r.
Proof.
  intros Hfg. revert k s. induction l as [|x l IH]; intros k s; simpl; [done|].
  intros (s1 & H1 & H2)%res_bind_inv. rewrite (Hfg _ _ _ _ H1). simpl. by apply IH.
Qed.

Lemma struct_field_step_mono f g : below f g -> forall x s r, struct_field_step f x s = Ret r -> struct_field_step g x s = Ret r.
Proof.
  intros Hfg x [s a] r. unfold struct_field_step. intros (l & H1 & H2)%res_bind_inv. rewrite (Hfg _ _ H1). exact H2.
Qed.
Lemma union_field_step_mono f g : below f g -> forall i x s r, union_field_step f i x s = Ret r -> union_field_step g i x s = Ret r.
Proof.
  intros Hfg i x [[[ps pa] m] ml] r. unfold union_field_step. destruct (uf_ty x); [|done].
  intros (l & H1 & H2)%res_bind_inv. rewrite (Hfg _ _ H1). exact H2.
Qed.
Lemma union_layout_by_mono f g v ty r : below f g -> union_layout_by f v ty = Ret r -> union_layout_by g v ty = Ret r.
Proof.
  intros Hfg. unfold union_layout_by. intros (value & -> & H)%res_bind_inv. cbn [mbind res_bind].
  apply res_bind_inv in H as (u & -> & H). cbn [mbind res_bind]. apply res_bind_inv in H as ([[[ps pa] m] ml] & H1 & H).
  assert (union_fields_loop g (union_fields u) = Ret (ps, pa, m, ml)) as ->
    by (eapply for_enumM_from_mono; [by apply union_field_step_mono|exact H1]).
  cbn [mbind res_bind]. apply res_bind_inv in H as (t & H2 & H).
  assert (match union_tag_ty u with Some tag_ty => g tag_ty | None => Ret zeroed end = Ret t) as ->; [|exact H].
  destruct (union_tag_ty u); [by apply Hfg|done].
Qed.

Lemma type_layout_step n m v tgt : below (type_layout n v tgt) (type_layout m v tgt) ->
  below (type_layout (S n) v tgt) (type_layout (S m) v tgt).
Proof.
  intros IH ty r. cbn [type_layout]. intros ([t value] & -> & H)%res_bind_inv. cbn [mbind res_bind].
  destruct t; try exact H.
  - apply res_bind_inv in H as (st & -> & H). cbn [mbind res_bind]. destruct (layout st); [|exact H].
    apply res_bind_inv in H as ([s a] & H1 & H).
    assert (struct_fields_loop (type_layout m v tgt) (struct_fields st) (0, 1) = Ret (s, a)) as ->; [|exact H].
    eapply for_enumM_from_mono; [|exact H1]. intros i. by apply struct_field_step_mono.
  - apply res_bind_inv in H as (e & -> & H). cbn [mbind res_bind]. by apply IH.
  - apply res_bind_inv in H as (u & -> & H). cbn [mbind res_bind]. apply res_bind_inv in H as (l & H1 & H).
    by rewrite (union_layout_by_mono _ _ _ _ _ IH H1).
  - apply res_bind_inv in H as (l & H1 & H). by rewrite (IH _ _ H1).
Qed.
Lemma type_layout_S n v tgt : below (type_layout n v tgt) (type_layout (S n) v tgt).
Proof. induction n as [|n IH]; [by intros ty r|]. by apply type_layout_step. Qed.
Lemma type_layout_le n m v tgt : (n <= m)%nat -> below (type_layout n v tgt) (type_layout m v tgt).
Proof. induction 1 as [|m _ IH]; [by intros x r|]. intros x r H. by apply type_layout_S, IH. Qed.

(** A layout whose size is a multiple of a power of two. *)
Definition whole (l : Layout) : Prop := 0 <= size l /\ pow2 (align l) /\ (align l | size l).

(** The types whose scalars fill their bytes, without an empty field, a packed
    struct or an integer of more than 128 bits; the constants for the tags of
    unions are interned. *)
Definition regular_scalar (t : Ty) : Prop :=
  match t with
  | Bool | F16 | F32 | F64 | F128 | TPtr _ | Usize | Isize | Slice _ | Anyptr => True
  | Int _ bits => exists k, 0 <= k <= 4 /\ 8 * (2^k - 1) < bits <= 8 * 2^k
  | _ => False
  end.
Definition tag_ready v (tag_ty : Z) (i : nat) : Prop := exists ns e tag val n signed bits x,
  ValueStore.type_at v tag_ty = Ret (Enum ns, VEnum e) /\
  ValueStore.intern_enum_tag_from_field_idx v tag_ty (Z.of_nat i) = Ret (tag, v) /\
  ValueStore.index_to_key v tag = Ret (KEnumTag (enum_tag_ty e) val) /\
  ValueStore.index_to_key v val = Ret (KInt (enum_tag_ty e) n) /\ Anyint.wf n /\
  ValueStore.type_at v (enum_tag_ty e) = Ret (Int signed bits, x).

(** A union that has bytes, fewer than LLVM counts in an array, and whose tags are
    known. *)
Record union_ready v tgt (ty : Z) (u : TypeUnion) : Prop := {
  ready_tags : forall t i, union_tag_ty u = Some t -> (i < length (union_fields u))%nat -> tag_ready v t i;
  ready_bytes : exists n l, union_layout_by (type_layout n v tgt) v ty = Ret l /\
    size (payload l) < 2^32 /\ trailing_padding l < 2^32 /\ (union_tag_ty u = None -> size (payload l) <> 0);
  ready_fields : union_fields u <> [];
}.

Inductive regular v tgt : Z -> Prop :=
  | reg_scalar ty t x : ValueStore.type_at v ty = Ret (t, x) -> regular_scalar t -> regular v tgt ty
  | reg_array ty arr x : ValueStore.type_at v ty = Ret (Array arr, x) -> regular v tgt (elem_ty arr) ->
      0 <= array_len arr < 2^32 -> regular v tgt ty
  | reg_struct ty ns st : ValueStore.type_at v ty = Ret (Struct ns, VStruct st) -> layout st = Standard ->
      (forall f, f ∈ struct_fields st -> regular v tgt (sf_ty f)) -> regular v tgt ty
  | reg_enum ty ns e : ValueStore.type_at v ty = Ret (Enum ns, VEnum e) -> regular v tgt (enum_tag_ty e) -> regular v tgt ty
  | reg_union ty ns u : ValueStore.type_at v ty = Ret (Union ns, VUnion u) ->
      (forall f t, f ∈ union_fields u -> uf_ty f = Some t -> regular v tgt t) ->
      (forall t, union_tag_ty u = Some t -> regular v tgt t) -> union_ready v tgt ty u -> regular v tgt ty.

(** The layout of a regular type. *)
Lemma next_multiple_spec a b n : next_multiple_of a b = Ret n -> 0 <= a -> pow2 b -> first_multiple a b n.
Proof.
  unfold next_multiple_of. intros H Ha Hb. pose proof (pow2_pos _ Hb) as Hpos.
  rewrite (proj2 (Z.eqb_neq b 0)) in H by lia. pose proof (Z.mod_pos_bound a b Hpos).
  pose proof (Z.div_mod a b ltac:(lia)).
  destruct (Z.eqb_spec (a mod b) 0) as [E|E].
  - injection H as <-. split; [lia|]. exists (a / b). lia.
  - unfold u64_add, u64_checked in H. destruct (_ <? _); [|done]. injection H as <-. split; [lia|].
    exists (a / b + 1). lia.
Qed.
Lemma u64_add_spec a b n : u64_add a b = Ret n -> n = a + b.
Proof. unfold u64_add, u64_checked. destruct (_ <? _); [|done]. by intros [= <-]. Qed.

Lemma whole_max (l : Layout) a : whole l -> pow2 a -> pow2 (Z.max a (align l)).
Proof. intros (_ & Hl & _) Ha. by apply pow2_max. Qed.

Lemma for_enumM_from_inv {B T} (P : nat -> T -> Prop) (f : nat -> B -> T -> res T) k l s r :
  P k s -> (forall i x s s', l !! i = Some x -> P (k + i)%nat s -> f (k + i)%nat x s = Ret s' -> P (k + i + 1)%nat s') ->
  for_enumM_from k l f s = Ret r -> P (k + length l)%nat r.
Proof.
  revert k s. induction l as [|x l IH]; intros k s Hs Hf; simpl.
  { intros [= <-]. by rewrite Nat.add_0_r. }
  intros (s1 & H1 & H2)%res_bind_inv. replace (k + S (length l))%nat with (S k + length l)%nat by lia.
  eapply IH; [|intros i y s0 s' Hy Hp Hfy|exact H2].
  - pose proof (Hf 0%nat x s s1 eq_refl) as H. rewrite !Nat.add_0_r, Nat.add_1_r in H. by apply H.
  - replace (S k + i)%nat with (k + S i)%nat in * by lia. by eapply (Hf (S i)).
Qed.

Section Whole.
Context (v : ValueStore A) (tgt : ResolvedTargetInfo).
Hypothesis Htgt : exists k, 1 <= k <= 3 /\ ptr_width_in_bits tgt = 8 * 2^k.

Lemma ptr_bytes_spec w : div_exact_8 (ptr_width_in_bits tgt) = Ret w -> pow2 w /\ ptr_width_in_bits tgt = 8 * w /\ 2 <= w <= 8.
Proof.
  destruct Htgt as (k & Hk & ->). unfold div_exact_8. rewrite Z.mul_comm, Z.mod_mul, Z.div_mul by lia. intros [= <-].
  split; [exists k; split; [lia|done]|]. assert (k = 1 \/ k = 2 \/ k = 3) as [->|[->| ->]] by lia; lia.
Qed.

Lemma div_ceil_pow k bits : 0 <= k -> 8 * (2^k - 1) < bits <= 8 * 2^k -> div_ceil bits 8 = 2^k.
Proof. intros Hk Hb. apply div_ceil_ok. lia. Qed.

(** The layout of a scalar. *)
Lemma scalar_layout_spec n t x ty l : ValueStore.type_at v ty = Ret (t, x) -> regular_scalar t -> type_layout n v tgt ty = Ret l -> whole l.
Proof.
  intros Hty Ht H. destruct n as [|n]; [done|]. cbn [type_layout] in H. rewrite Hty in H. cbn [mbind res_bind] in H.
  assert (forall k s, 0 <= k -> s = 2^k -> whole (ValueLayout.mk s s)) as Hpow.
  { intros k s Hk ->. split; [simpl; lia|]. split; [by exists k|done]. }
  destruct t; simpl in Ht; try done; try (injection H as <-).
  - destruct Ht as (k & Hk & Hb). rewrite (div_ceil_pow k) in H by lia. cbv zeta in H.
    unfold next_power_of_two, u64_checked in H. rewrite Z.log2_up_pow2 in H by lia.
    destruct (_ <? _); [|done]. injection H as <-. apply (Hpow k); [lia|done].
  - apply res_bind_inv in H as (w & (Hp & _ & Hw)%ptr_bytes_spec & [= <-]). split; [simpl; lia|by split].
  - apply res_bind_inv in H as (w & (Hp & _ & Hw)%ptr_bytes_spec & [= <-]). split; [simpl; lia|by split].
  - by apply (Hpow 1).
  - by apply (Hpow 2).
  - by apply (Hpow 3).
  - by apply (Hpow 4).
  - by apply (Hpow 0).
  - apply res_bind_inv in H as (w & (Hp & _ & Hw)%ptr_bytes_spec & [= <-]). split; [simpl; lia|by split].
  - apply res_bind_inv in H as (w & (Hp & _ & Hw)%ptr_bytes_spec & H). apply res_bind_inv in H as (s & Hs & [= <-]).
    unfold u64_mul, u64_checked in Hs. destruct (_ <? _); [|done]. injection Hs as <-. split; [simpl; lia|]. split; [done|]. by exists 2; simpl; lia.
  - apply res_bind_inv in H as (w & (Hp & _ & Hw)%ptr_bytes_spec & H). apply res_bind_inv in H as (s & Hs & [= <-]).
    unfold u64_mul, u64_checked in Hs. destruct (_ <? _); [|done]. injection Hs as <-. split; [simpl; lia|]. split; [done|]. by exists 2; simpl; lia.
Qed.

(** What the loop over the fields of a union finds. *)
Definition union_found (f : Z -> res Layout) (fields : list UnionField) (ps pa : Z) (most : nat) (ml : Layout) : Prop :=
  0 <= ps /\ pow2 pa /\
  (ps <> 0 -> exists fd ty, fields !! most = Some fd /\ uf_ty fd = Some ty /\ f ty = Ret ml /\ whole ml /\
    size ml <> 0 /\ align ml = pa /\ size ml <= ps) /\
  (ps = 0 -> pa = 1 /\ most = 0%nat).
Lemma union_fields_loop_spec f fields ps pa most ml :
  (forall fd ty l, fd ∈ fields -> uf_ty fd = Some ty -> f ty = Ret l -> whole l) ->
  union_fields_loop f fields = Ret (ps, pa, most, ml) -> union_found f fields ps pa most ml.
Proof.
  intros Hw H. unfold union_fields_loop, for_enumM in H.
  refine (for_enumM_from_inv (fun _ '(ps, pa, most, ml) => union_found f fields ps pa most ml) _ 0 _ _ (ps, pa, most, ml) _ _ H).
  - split_and!; [lia|apply pow2_1|done|done].
  - intros i fd [[[ps0 pa0] m0] ml0] [[[ps1 pa1] m1] ml1] Hi (H0 & Hp & Hsome & Hnone) Hstep.
    unfold union_field_step in Hstep. destruct (uf_ty fd) as [ty|] eqn:Ety; [|by injection Hstep as <- <- <- <-].
    apply res_bind_inv in Hstep as (l & Hl & Hstep).
    assert (whole l) as Hwl by (eapply Hw; [by eapply list_elem_of_lookup_2|done|done]). pose proof Hwl as (Hs & Ha & Hd).
    destruct (Z.eqb_spec (size l) 0); [by injection Hstep as <- <- <- <-|].
    destruct (Z.leb_spec pa0 (align l)); injection Hstep as <- <- <- <-.
    + split_and!; [lia|done| |lia]. intros _. exists fd, ty. split_and!; try done. lia.
    + split_and!; [lia|done| |lia]. intros _. destruct (decide (ps0 = 0)) as [E|E].
      * destruct (Hnone E) as [-> _]. pose proof (pow2_pos _ Ha). lia.
      * destruct (Hsome E) as (fd0 & ty0 & ? & ? & ? & ? & ? & ? & ?). exists fd0, ty0. split_and!; try done. lia.
Qed.

(** The pieces of the layout of a union. *)
Record union_pieces (f : Z -> res Layout) (u : TypeUnion) (l : UnionLayout) : Prop := {
  up_found : union_found f (union_fields u) (size (payload l)) (align (payload l)) (most_aligned_field l).1 (most_aligned_field l).2;
  up_tag : match union_tag_ty u with Some t => f t = Ret (tag l) | None => tag l = zeroed end;
  up_tag_whole : whole (tag l);
  up_align : align (union_layout l) = Z.max (align (tag l)) (align (payload l));
  up_size : exists content, trailing_padding l = size (union_layout l) - content /\
    first_multiple content (align (union_layout l)) (size (union_layout l)) /\ 0 <= content /\
    (if size (tag l) =? 0 then content = size (payload l)
     else if size (payload l) =? 0 then content = size (tag l)
     else if align (payload l) <=? align (tag l) then
       exists off, first_multiple (size (tag l)) (align (payload l)) off /\ content = off + size (payload l)
     else exists off, first_multiple (size (payload l)) (align (tag l)) off /\ content = off + size (tag l));
}.
Lemma union_layout_pieces f u ty ns l : ValueStore.type_at v ty = Ret (Union ns, VUnion u) ->
  (forall fd t l, fd ∈ union_fields u -> uf_ty fd = Some t -> f t = Ret l -> whole l) ->
  (forall t l, union_tag_ty u = Some t -> f t = Ret l -> whole l) ->
  union_layout_by f v ty = Ret l -> union_pieces f u l.
Proof.
  intros Hty Hw Hwt H. unfold union_layout_by in H. apply res_bind_inv in H as (value & Hv & H).
  assert (value = VUnion u) as ->.
  { apply type_at_kv in Hty as [k Hk]. unfold ValueStore.index_to_value in Hv. unfold ValueStore.index_to_key_value in Hk.
    rewrite Hk in Hv. by injection Hv as <-. }
  apply res_bind_inv in H as (u0 & [= <-] & H). apply res_bind_inv in H as ([[[ps pa] m] ml] & Hloop & H).
  apply union_fields_loop_spec in Hloop as Hf; [|done]. pose proof Hf as (Hps & Hpa & _).
  apply res_bind_inv in H as (tg & Htg & H). apply res_bind_inv in H as (content & Hc & H).
  apply res_bind_inv in H as (s & Hs & [= <-]).
  assert (whole tg) as Hwtg.
  { destruct (union_tag_ty u) eqn:E; [by eapply Hwt|]. injection Htg as <-. split; [done|]. split; [apply pow2_1|by exists 0]. }
  pose proof Hwtg as (Ht0 & Hta & Htd).
  assert (0 <= content /\ (if size tg =? 0 then content = ps else if ps =? 0 then content = size tg
     else if pa <=? align tg then exists off, first_multiple (size tg) pa off /\ content = off + ps
     else exists off, first_multiple ps (align tg) off /\ content = off + size tg)) as [Hc0 Hce].
  { destruct (Z.eqb_spec (size tg) 0); [injection Hc as <-; split; [lia|done]|].
    destruct (Z.eqb_spec ps 0); [injection Hc as <-; split; [lia|done]|].
    destruct (Z.leb_spec pa (align tg)); apply res_bind_inv in Hc as (off & Ho & Ha%u64_add_spec);
      apply next_multiple_spec in Ho; try done; (split; [destruct Ho; lia|exists off; by split]). }
  constructor; simpl; [done| |done|done|].
  - destruct (union_tag_ty u); [done|by injection Htg as <-].
  - exists content. split_and!; [done| |done|done]. apply next_multiple_spec; [done|lia|].
    by apply pow2_max.
Qed.

Lemma struct_loop_whole f fields s a : (forall fd l, fd ∈ fields -> f (sf_ty fd) = Ret l -> whole l) ->
  struct_fields_loop f fields (0, 1) = Ret (s, a) -> 0 <= s /\ pow2 a.
Proof.
  intros Hw Hl. refine (for_enumM_from_inv (fun _ '(s, a) => 0 <= s /\ pow2 a) _ 0 _ _ (s, a) _ _ Hl).
  - split; [lia|apply pow2_1].
  - intros i fd [s0 a0] [s1 a1] Hi [Hs0 Ha0] Hstep. unfold struct_field_step in Hstep.
    apply res_bind_inv in Hstep as (lf & Hlf & Hstep).
    destruct (Hw fd lf ltac:(by eapply list_elem_of_lookup_2) Hlf) as (H0 & Hp & _).
    apply res_bind_inv in Hstep as (o & Ho & Hstep). apply res_bind_inv in Hstep as (e & He%u64_add_spec & [= <- <-]).
    apply next_multiple_spec in Ho as [? _]; [|done|done]. split; [lia|by apply pow2_max].
Qed.

Lemma regular_layout_whole n ty l : type_layout n v tgt ty = Ret l -> regular v tgt ty -> whole l.
Proof.
  revert ty l. induction n as [|n IH]; intros ty l H Hr; [done|]. inversion Hr as
    [? t x Hty Ht|? arr x Hty Ha Hlen|? ns st Hty Hlay Hf|? ns e Hty Ht|? ns u Hty Hf Htag Hb]; subst.
  - by eapply scalar_layout_spec.
  - cbn [type_layout] in H. rewrite Hty in H. cbn [mbind res_bind] in H.
    apply res_bind_inv in H as (le & Hle & H). apply res_bind_inv in H as (stride & Hst & H).
    apply res_bind_inv in H as (s & Hs & [= <-]). destruct (IH _ _ Hle Ha) as (H0 & Hp & Hd).
    apply next_multiple_spec in Hst as [? Hdiv]; [|done|done].
    unfold u64_mul, u64_checked in Hs. destruct (_ <? _); [|done]. injection Hs as <-.
    split; [simpl; nia|]. split; [done|by apply Z.divide_mul_l].
  - cbn [type_layout] in H. rewrite Hty in H. cbn [mbind res_bind ValueStore.as_struct_value] in H. rewrite Hlay in H.
    apply res_bind_inv in H as ([s a] & Hl & H). apply res_bind_inv in H as (s' & Hs & [= <-]).
    destruct (struct_loop_whole _ _ _ _ (fun fd lf Hin Hlf => IH _ _ Hlf (Hf fd Hin)) Hl) as [Hs0 Ha].
    apply next_multiple_spec in Hs as [? Hd]; [|done|done]. split; [simpl; lia|by split].
  - cbn [type_layout] in H. rewrite Hty in H. cbn [mbind res_bind as_enum_value] in H. by apply (IH _ _ H).
  - cbn [type_layout] in H. rewrite Hty in H. cbn [mbind res_bind ValueStore.as_union] in H.
    apply res_bind_inv in H as (ul & Hul & [= <-]).
    destruct (union_layout_pieces (type_layout n v tgt) u ty ns ul Hty) as [Hfound _ (_ & Hta & _) Hal (c & _ & [Hc Hd] & Hc0 & _)]; try done.
    + intros fd t l Hin Ht Hl. eapply IH; [exact Hl|]. by eapply Hf.
    + intros t l Ht Hl. eapply IH; [exact Hl|]. by apply Htag.
    + split; [lia|]. split; [|done]. rewrite Hal. apply pow2_max; [done|]. by destruct Hfound as (_ & ? & _).
Qed.
End Whole.

Lemma type_layout_fun n m v tgt ty l l' : type_layout n v tgt ty = Ret l -> type_layout m v tgt ty = Ret l' -> l = l'.
Proof.
  intros H H'. apply (type_layout_le _ (n `max` m)) in H; [|lia]. apply (type_layout_le _ (n `max` m)) in H'; [|lia]. congruence.
Qed.
Lemma union_layout_fun n m v tgt ty l l' :
  union_layout_by (type_layout n v tgt) v ty = Ret l -> union_layout_by (type_layout m v tgt) v ty = Ret l' -> l = l'.
Proof.
  intros H H'. apply (union_layout_by_mono _ (type_layout (n `max` m) v tgt)) in H; [|apply type_layout_le; lia].
  apply (union_layout_by_mono _ (type_layout (n `max` m) v tgt)) in H'; [|apply type_layout_le; lia]. congruence.
Qed.
(** The least depth to which a layout is computed. *)
Lemma least_depth n v tgt ty l : type_layout n v tgt ty = Ret l ->
  exists m, (m < n)%nat /\ type_layout (S m) v tgt ty = Ret l /\ forall r, type_layout m v tgt ty <> Ret r.
Proof.
  induction n as [|n IH]; [done|]. intros H. destruct (type_layout n v tgt ty) as [r|] eqn:E; [|exists n; rewrite E; split; [lia|by split]].
  assert (r = l) as -> by (by eapply type_layout_fun). destruct (IH eq_refl) as (m & ? & ?). exists m. split; [lia|done].
Qed.
End Queries.

(** ** Where fields go *)

Section Places.
Context (R : LlvmType -> Z -> Z -> Prop).

Lemma placed_types_mono (R' : LlvmType -> Z -> Z -> Prop) ts pos al offs pos' al' :
  (forall t s a, R t s a -> R' t s a) -> placed_types R ts pos al offs pos' al' -> placed_types R' ts pos al offs pos' al'.
Proof. intros HR. induction 1; econstructor; eauto. Qed.
Lemma placed_types_app ts1 ts2 pos al o1 n1 a1 o2 n2 a2 :
  placed_types R ts1 pos al o1 n1 a1 -> placed_types R ts2 n1 a1 o2 n2 a2 -> placed_types R (ts1 ++ ts2) pos al (o1 ++ o2) n2 a2.
Proof. intros H H2. induction H; simpl; [done|]. econstructor; eauto. Qed.
Lemma placed_one t s a pos al off : R t s a -> first_multiple pos a off -> placed_types R [t] pos al [off] (off + s) (Z.max al a).
Proof. intros. econstructor; [done|done|constructor]. Qed.
Lemma first_multiple_here pos a : 0 < a -> (a | pos) -> first_multiple pos a pos.
Proof. intros. by split; [lia|]. Qed.
Lemma first_multiple_1 pos : first_multiple pos 1 pos.
Proof. apply first_multiple_here; [lia|apply Z.divide_1_l]. Qed.

(** The views of a union: tag and payload as the layout puts them, then padding,
    and an empty array that raises the alignment of a payload that is only bytes. *)
Lemma union_view_placed tag_tys view pad most ts ta ps pa va content s (first : bool) :
  (tag_tys = [] /\ ts = 0 /\ ta = 1 /\ first = false \/ exists t, tag_tys = [t] /\ ts <> 0 /\ R t ts ta /\ first = (pa <=? ta)) ->
  pow2 ta -> pow2 pa -> 0 <= ts -> (ta | ts) -> R view ps va -> ps <> 0 -> 0 <= ps ->
  (if ts =? 0 then content = ps
   else if pa <=? ta then exists off, first_multiple ts pa off /\ content = off + ps
   else exists off, first_multiple ps ta off /\ content = off + ts) ->
  first_multiple content (Z.max ta pa) s ->
  (pad = [] /\ s = content \/ exists t, pad = [t] /\ R t (s - content) 1) ->
  (most = [] /\ va = pa \/ exists t, most = [t] /\ va = 1 /\ R t 0 pa) ->
  exists offs, placed_types R ((if first then tag_tys ++ [view] else view :: tag_tys) ++ pad ++ most) 0 1 offs s (Z.max ta pa).
Proof.
  intros Htag Hta Hpa Hts Hdiv Hview Hps Hps0 Hcontent [Hs Hsd] Hpad Hmost.
  pose proof (pow2_pos _ Hta). pose proof (pow2_pos _ Hpa).
  assert (0 < va /\ (va | pa)) as [Hva Hvad]
    by (destruct Hmost as [[_ ->]|(t & _ & -> & _)]; split; [done|done|lia|apply Z.divide_1_l]).
  assert ((pa | s)) as Hpas by (eapply Z.divide_trans; [|exact Hsd]; by apply pow2_max).
  assert (exists o, placed_types R (if first then tag_tys ++ [view] else view :: tag_tys) 0 1 o content (Z.max ta va)) as [o1 H1].
  { destruct Htag as [(-> & -> & -> & ->)|(t & -> & Hts0 & Ht & ->)].
    - simpl in Hcontent. subst content. eexists. eapply (placed_one _ _ _ 0 1 0); [done|]. apply first_multiple_here; [done|apply Z.divide_0_r].
    - rewrite (proj2 (Z.eqb_neq ts 0)) in Hcontent by done. destruct (Z.leb_spec pa ta); destruct Hcontent as (off & [Hoff Hoffd] & ->).
      + assert (pa | ts) as Hp by (eapply Z.divide_trans; [by eapply (pow2_divide pa ta)|done]).
        assert (off = ts) as ->.
        { destruct Hp as [p ->], Hoffd as [q ->]. f_equal. nia. }
        eexists. simpl. econstructor; [done|apply (first_multiple_here 0); [done|apply Z.divide_0_r]|]. 
        rewrite (Z.max_r 1 ta) by lia. eapply placed_one; [done|]. apply first_multiple_here; [done|]. by eapply Z.divide_trans.
      + eexists. econstructor; [done|apply (first_multiple_here 0); [done|apply Z.divide_0_r]|].
        rewrite Z.max_comm with (n := ta). rewrite (Z.max_r 1 va) by lia. eapply placed_one; [done|by split]. }
  assert (exists o, placed_types R pad content (Z.max ta va) o s (Z.max ta va)) as [o2 H2].
  { destruct Hpad as [[-> ->]|(t & -> & Ht)]; [eexists; constructor|]. eexists.
    pose proof (placed_one t (s - content) 1 content (Z.max ta va) content Ht (first_multiple_1 _)) as X.
    rewrite (Z.max_l _ 1), Zplus_minus in X by lia. exact X. }
  assert (exists o, placed_types R most s (Z.max ta va) o s (Z.max ta pa)) as [o3 H3].
  { destruct Hmost as [[-> ->]|(t & -> & -> & Ht)]; [eexists; constructor|]. eexists.
    pose proof (placed_one t 0 pa s (Z.max ta 1) s Ht (first_multiple_here s pa H0 Hpas)) as X.
    rewrite Z.add_0_r, (Z.max_l ta 1) in X by lia. rewrite (Z.max_l ta 1) by lia. exact X. }
  eexists. eapply placed_types_app; [exact H1|]. by eapply placed_types_app.
Qed.
End Places.

(** ** Runs of the lowering *)

Section Types.
Context `{ST : !Setting, TR : !Triple, DL : !DataLayout} (pointer_bits : Z) `{!DataLayoutLaws pointer_bits}.

(** [m] ends without a fault, in a result and a state that are as [Q] says. *)
Definition goes {B} (m : L B) (l : Lowerer) (Q : B -> Lowerer -> Prop) : Prop := exists a l', m l = Ret (a, l') /\ Q a l'.

Lemma goes_ret {B} (a : B) l (Q : B -> Lowerer -> Prop) : Q a l -> goes (mret a) l Q.
Proof. intros. by exists a, l. Qed.
Lemma goes_bind {B C} (m : L B) (k : B -> L C) l Q : goes m l (fun a l' => goes (k a) l' Q) -> goes (m ≫= k) l Q.
Proof. intros (a & l' & Hm & b & l2 & Hk & HQ). exists b, l2. unfold mbind, L_bind. by rewrite Hm. Qed.
Lemma goes_mono {B} (m : L B) l (Q Q' : B -> Lowerer -> Prop) : goes m l Q -> (forall a l', Q a l' -> Q' a l') -> goes m l Q'.
Proof. intros (a & l' & ? & ?) HQ. exists a, l'. auto. Qed.
Lemma goes_lift {B} (r : res B) a l (Q : B -> Lowerer -> Prop) : r = Ret a -> Q a l -> goes (lift r) l Q.
Proof. intros -> HQ. by exists a, l. Qed.
Lemma goes_gets {B} (f : Lowerer -> B) l (Q : B -> Lowerer -> Prop) : Q (f l) l -> goes (gets f) l Q.
Proof. intros HQ. by exists (f l), l. Qed.
Lemma goes_modify f l (Q : () -> Lowerer -> Prop) : Q tt (f l) -> goes (modify f) l Q.
Proof. intros HQ. by exists tt, (f l). Qed.
Lemma goes_ask {B} (f : Cu -> res B) a l (Q : B -> Lowerer -> Prop) : f (compilation_unit l) = Ret a -> Q a l -> goes (ask f) l Q.
Proof. intros Hf HQ. apply goes_bind, goes_gets. by eapply goes_lift. Qed.
Lemma set_values_id l : set_compilation_unit (set_values (values (compilation_unit l)) (compilation_unit l)) l = l.
Proof. by destruct l as [[] ? ? ? ? ? ? ?]. Qed.
Lemma goes_intern {B} (f : Store -> res (B * Store)) a l (Q : B -> Lowerer -> Prop) :
  f (values (compilation_unit l)) = Ret (a, values (compilation_unit l)) -> Q a l -> goes (intern f) l Q.
Proof.
  intros Hf HQ. apply goes_bind, goes_gets, goes_bind. eapply goes_lift; [exact Hf|].
  apply goes_bind, goes_modify. rewrite set_values_id. by apply goes_ret.
Qed.

(** ** What lowering types keeps *)

Section State.
Context (cu0 : Cu).
Abbreviation v := (values cu0).
Abbreviation tgt := (target cu0).
(** The pointers of the target, as both see them. *)
Context (Hptr : exists k, 1 <= k <= 3 /\ ptr_width_in_bits tgt = 8 * 2^k) (Hbits : ptr_width_in_bits tgt = pointer_bits).

Abbreviation lays n := (type_layout n v tgt).
Abbreviation bodies := (list (list Z * option (list LlvmType))).

(** [t] is a good representation of the type [i]. *)
Record good (st : bodies) (i : Z) (t : LlvmType) : Prop := {
  good_basic : to_basic t = Ret t;
  good_abi : forall n lay, lays n i = Ret lay -> abi st t (size lay) (align lay);
  good_int : forall s b x, ValueStore.type_at v i = Ret (Int s b, x) -> t = IntTy b;
}.
Definition int_tags (l : Lowerer) : Prop := forall i w ty val num s b x,
  interned_value_to_llvm_value l !! i = Some w -> ValueStore.index_to_key v i = Ret (KEnumTag ty val) ->
  ValueStore.index_to_key v val = Ret (KInt ty num) -> ValueStore.type_at v ty = Ret (Int s b, x) ->
  exists text, w = IntConst (IntTy b) text.
(** The types of depth [n] are well represented, if they are regular. *)
Record ok (n : nat) (l : Lowerer) : Prop := {
  ok_unit : compilation_unit l = cu0;
  ok_types : forall i t lay, interned_value_to_llvm_type l !! i = Some t -> regular v tgt i -> lays n i = Ret lay -> good (structs l) i t;
  ok_tags : int_tags l;
}.
Record grows (l l' : Lowerer) : Prop := {
  grows_unit : compilation_unit l' = compilation_unit l;
  grows_structs : structs l `prefix_of` structs l';
  grows_types : forall i t, interned_value_to_llvm_type l' !! i = Some t ->
    interned_value_to_llvm_type l !! i = Some t \/ (regular v tgt i -> good (structs l') i t);
  grows_tags : int_tags l -> int_tags l';
}.

Lemma prefix_bodies (st st' : bodies) : st `prefix_of` st' -> bodies_kept st st'.
Proof. intros Hp id name fields Hid. by eapply prefix_lookup_Some. Qed.
Lemma good_mono st st' i t : bodies_kept st st' -> good st i t -> good st' i t.
Proof. intros Hk [Hb Ha Hi]. constructor; [done| |done]. intros n lay Hl. by eapply abi_mono, Ha. Qed.
Lemma good_of st i t n lay : lays n i = Ret lay -> to_basic t = Ret t -> abi st t (size lay) (align lay) ->
  (forall s b x, ValueStore.type_at v i = Ret (Int s b, x) -> t = IntTy b) -> good st i t.
Proof. intros Hl Hb Ha Hi. constructor; [done| |done]. intros m lay' Hl'. by rewrite (type_layout_fun _ _ _ _ _ _ _ Hl' Hl). Qed.

Lemma lowerer_grows_refl l : grows l l.
Proof. constructor; auto. Qed.
Lemma grows_trans l1 l2 l3 : grows l1 l2 -> grows l2 l3 -> grows l1 l3.
Proof.
  intros [U1 S1 T1 G1] [U2 S2 T2 G2]. constructor; [congruence|by etransitivity| |auto].
  intros i t [H|H]%T2; [|by right]. apply T1 in H as [H|H]; [by left|]. right. intros Hr.
  eapply good_mono; [by apply prefix_bodies|auto].
Qed.
Lemma ok_grows n l l' : ok n l -> grows l l' -> ok n l'.
Proof.
  intros [U T G] [U' S' T' G']. constructor; [congruence| |auto]. intros i t lay Hi Hr Hl.
  apply T' in Hi as [Hi|Hi]; [|auto]. eapply good_mono; [by apply prefix_bodies|eauto].
Qed.
Lemma ok_le n m l : (m <= n)%nat -> ok n l -> ok m l.
Proof. intros Hle [U T G]. constructor; [done| |done]. intros i t lay Hi Hr Hl. eapply T; [done|done|by eapply type_layout_le]. Qed.

Lemma goes_ask_ok {B} n (f : Cu -> res B) a l (Q : B -> Lowerer -> Prop) : ok n l -> f cu0 = Ret a -> Q a l -> goes (ask f) l Q.
Proof. intros [Hu _ _] Hf HQ. eapply goes_ask; [by rewrite Hu|done]. Qed.
Lemma goes_intern_ok {B} n (f : Store -> res (B * Store)) a l (Q : B -> Lowerer -> Prop) :
  ok n l -> f v = Ret (a, v) -> Q a l -> goes (intern f) l Q.
Proof. intros [Hu _ _] Hf HQ. eapply goes_intern; [by rewrite Hu|done]. Qed.

Lemma grows_cache l i t : (regular v tgt i -> good (structs l) i t) ->
  grows l (set_types (<[i := t]> (interned_value_to_llvm_type l)) l).
Proof.
  intros Hg. constructor; [done|done| |done]. intros j t'. simpl. intros [[-> ->]|[? H]]%lookup_insert_Some; auto.
Qed.
Lemma goes_cache i t l (Q : () -> Lowerer -> Prop) : (regular v tgt i -> good (structs l) i t) ->
  (forall l', grows l l' -> structs l' = structs l -> Q tt l') -> goes (cache_type i t) l Q.
Proof. intros Hg HQ. apply goes_modify, HQ; [by apply grows_cache|done]. Qed.

(** ** Scalars *)

Lemma type_at_key (w : Store) i t x : ValueStore.type_at w i = Ret (t, x) ->
  ValueStore.index_to_key_value w i = Ret (KType t, x) /\ ValueStore.index_to_key w i = Ret (KType t) /\
  ValueStore.index_to_value w i = Ret x.
Proof.
  unfold ValueStore.type_at, ValueStore.index_to_key, ValueStore.index_to_value, ValueStore.index_to_key_value, ShardedIndexMap.key.
  destruct (ShardedIndexMap.kv (value_map w) i) as [[k y]|]; simpl; [|done]. destruct k; try done. by intros [= -> ->].
Qed.
Lemma type_key (w : Store) i t x : ValueStore.type_at w i = Ret (t, x) -> ValueStore.index_to_key w i = Ret (KType t).
Proof. intros (_ & H & _)%type_at_key. exact H. Qed.
Lemma type_value (w : Store) i t x : ValueStore.type_at w i = Ret (t, x) -> ValueStore.index_to_value w i = Ret x.
Proof. intros (_ & _ & H)%type_at_key. exact H. Qed.
Lemma regular_enum i ns e : regular v tgt i -> ValueStore.type_at v i = Ret (Enum ns, VEnum e) -> regular v tgt (enum_tag_ty e).
Proof. intros Hr Hty. inversion Hr as [? t ? E Ht|? ? ? E|? ? ? E|? ? ? E|? ? ? E]; subst; rewrite Hty in E; try discriminate E; injection E; intros; by subst. Qed.
Lemma regular_int i s b x : regular v tgt i -> ValueStore.type_at v i = Ret (Int s b, x) -> regular_scalar (Int s b).
Proof. intros Hr Hty. inversion Hr as [? t ? E Ht|? ? ? E|? ? ? E|? ? ? E|? ? ? E]; subst; rewrite Hty in E; try discriminate E; injection E; intros; by subst. Qed.
Lemma enum_lays n i ns e : ValueStore.type_at v i = Ret (Enum ns, VEnum e) -> lays (S n) i = lays n (enum_tag_ty e).
Proof. intros Hty. cbn [type_layout]. by rewrite Hty. Qed.

Definition scalar_type (t : Ty) : LlvmType :=
  match t with
  | Int _ bits => IntTy bits
  | Usize | Isize => int_ptr_ty pointer_bits
  | F16 => HalfTy
  | F32 => FloatTy
  | F64 => DoubleTy
  | F128 => Fp128Ty
  | Bool => IntTy 1
  | TPtr _ => PtrTy
  | _ => StructTy [PtrTy; int_ptr_ty pointer_bits] false
  end.
Lemma int_ptr_abi st w : pointer_bits = 8 * w -> pow2 w -> 2 <= w <= 8 -> abi st (int_ptr_ty pointer_bits) w w.
Proof.
  intros Hw (k & Hk & ->) Hle. apply abi_int; [|lia|].
  - split; [done|]. destruct (Z.le_gt_cases k 4); [done|]. assert (2^5 <= 2^k) by (apply Z.pow_le_mono_r; lia). lia.
  - right. rewrite Hw. assert (2^(k - 1) < 2^k) by (apply Z.pow_lt_mono_r; lia). lia.
Qed.
Lemma slice_abi st w : pointer_bits = 8 * w -> pow2 w -> 2 <= w <= 8 -> abi st (StructTy [PtrTy; int_ptr_ty pointer_bits] false) (w * 2) w.
Proof.
  intros Hw Hp Hle. eapply (abi_struct _ _ [0; w] (w + w)); [|split; [lia|by exists 2; lia]].
  eapply pt_cons; [by apply abi_ptr|split; [lia|by apply Z.divide_0_r]|]. rewrite Z.add_0_l, (Z.max_r 1 w) by lia.
  eapply pt_cons; [by apply int_ptr_abi|split; [lia|done]|]. rewrite Z.max_id. constructor.
Qed.
Lemma scalar_good st n i t x lay : ValueStore.type_at v i = Ret (t, x) -> regular_scalar t -> lays n i = Ret lay ->
  good st i (scalar_type t).
Proof.
  intros Hty Ht H. eapply good_of; [exact H|by destruct t| |intros s b y Hi; rewrite Hty in Hi; by injection Hi as -> _].
  destruct n as [|n]; [done|]. cbn [type_layout] in H. rewrite Hty in H. cbn [mbind res_bind] in H.
  destruct t; simpl in Ht; try done; try (injection H as <-); simpl.
  - destruct Ht as (k & Hk & Hb). rewrite (div_ceil_pow k) in H by lia. cbv zeta in H.
    unfold next_power_of_two, u64_checked in H. rewrite Z.log2_up_pow2 in H by lia.
    destruct (_ <? _); [|done]. injection H as <-. simpl. apply abi_int; [lia|lia|].
    destruct (decide (k = 0)) as [->|]; [by left|right]. replace (2^k) with (2 * 2^(k - 1)) in Hb
      by (rewrite <- Z.pow_succ_r by lia; f_equal; lia). assert (1 <= 2^(k - 1)) by (apply Z.lt_pred_le, Z.pow_pos_nonneg; lia). lia.
  - apply res_bind_inv in H as (w & (Hp & Hw & Hle)%(ptr_bytes_spec tgt Hptr) & [= <-]); simpl. by apply int_ptr_abi; [congruence|done..].
  - apply res_bind_inv in H as (w & (Hp & Hw & Hle)%(ptr_bytes_spec tgt Hptr) & [= <-]); simpl. by apply int_ptr_abi; [congruence|done..].
  - apply abi_half.
  - apply abi_float.
  - apply abi_double.
  - apply abi_fp128.
  - apply (abi_int _ 1 0); [done|done|by left].
  - apply res_bind_inv in H as (w & (Hp & Hw & Hle)%(ptr_bytes_spec tgt Hptr) & [= <-]); simpl. apply abi_ptr. congruence.
  - apply res_bind_inv in H as (w & (Hp & Hw & Hle)%(ptr_bytes_spec tgt Hptr) & H). apply res_bind_inv in H as (s & Hs & [= <-]).
    unfold u64_mul, u64_checked in Hs. destruct (_ <? _); [|done]. injection Hs as <-; simpl. by apply slice_abi; [congruence|done..].
  - apply res_bind_inv in H as (w & (Hp & Hw & Hle)%(ptr_bytes_spec tgt Hptr) & H). apply res_bind_inv in H as (s & Hs & [= <-]).
    unfold u64_mul, u64_checked in Hs. destruct (_ <? _); [|done]. injection Hs as <-; simpl. by apply slice_abi; [congruence|done..].
Qed.

(** A type that is already represented. *)
Lemma goes_cached `{KN : !Knot} n i lay l t : ok n l -> regular v tgt i -> lays n i = Ret lay ->
  interned_value_to_llvm_type l !! i = Some t ->
  goes (lower_type_basic pointer_bits i) l (fun t l' => grows l l' /\ good (structs l') i t).
Proof.
  intros Hok Hr Hl Hc. apply goes_bind, goes_gets. rewrite Hc. pose proof (ok_types _ _ Hok _ _ _ Hc Hr Hl) as Hg.
  eapply goes_lift; [apply Hg|]. split; [apply lowerer_grows_refl|done].
Qed.
(** The last step: the type is kept. *)
Lemma goes_keep i t l l0 : grows l0 l -> good (structs l) i t ->
  goes (cache_type i t ;; mret t) l (fun t l' => grows l0 l' /\ good (structs l') i t).
Proof.
  intros Hgr Hg. apply goes_bind, goes_cache; [done|]. intros l' Hl' Hst. apply goes_ret. rewrite Hst. split; [|done].
  by eapply grows_trans.
Qed.
Lemma scalar_runs `{KN : !Knot} n i t x lay l : ok n l -> ValueStore.type_at v i = Ret (t, x) -> regular_scalar t -> lays n i = Ret lay ->
  goes (lower_type_basic pointer_bits i) l (fun t l' => grows l l' /\ good (structs l') i t).
Proof.
  intros Hok Hty Ht Hl. assert (regular v tgt i) as Hr by (by econstructor).
  destruct (interned_value_to_llvm_type l !! i) as [u|] eqn:Hc; [by eapply goes_cached|].
  apply goes_bind, goes_gets. rewrite Hc. apply goes_bind. eapply (goes_ask_ok n); [done|by apply type_at_key|]. pose proof (scalar_good (structs l) _ _ _ _ _ Hty Ht Hl) as Hg.
  destruct t; try done; apply goes_bind, goes_ret; by apply goes_keep; [apply lowerer_grows_refl|].
Qed.

(** ** The tags of unions *)

Definition int_const (b : Z) (w : LlvmValue) : Prop := exists text, w = IntConst (IntTy b) text.

Section Tags.
Context (n : nat) (ty : Z) (s : bool) (b : Z) (x : Value) (lay : Layout).
Context (Hty : ValueStore.type_at v ty = Ret (Int s b, x)) (Hscalar : regular_scalar (Int s b)) (Hlay : lays n ty = Ret lay).

Lemma int_type_runs `{KN : !Knot} l : ok n l -> goes (lower_type pointer_bits ty) l (fun t l' => grows l l' /\ t = IntTy b).
Proof.
  intros Hok. assert (regular v tgt ty) as Hr by (by econstructor). apply goes_bind, goes_gets.
  destruct (interned_value_to_llvm_type l !! ty) as [t|] eqn:Hc.
  { apply goes_ret. split; [apply lowerer_grows_refl|]. eapply (ok_types _ _ Hok); eauto. }
  apply goes_bind. eapply (goes_ask_ok n); [done|by eapply type_key|]. apply goes_bind.
  eapply goes_mono; [by eapply scalar_runs|]. intros t l1 [G1 Hg]. apply goes_bind, goes_cache; [done|]. intros l2 G2 _.
  apply goes_ret. split; [by eapply grows_trans|by eapply good_int].
Qed.
Lemma int_value_runs `{KN : !Knot} val num l : ok n l -> ValueStore.index_to_key v val = Ret (KInt ty num) -> Anyint.wf num ->
  goes (lower_interned_value_as_llvm_value pointer_bits val) l (fun w l' => grows l l' /\ int_const b w).
Proof.
  intros Hok Hval Hwf. apply goes_bind. eapply (goes_ask_ok n); [done|exact Hval|]. apply goes_bind.
  eapply goes_mono; [by apply int_type_runs|]. intros t l1 [G1 ->]. destruct (AnyintText.fmt_spec _ Hwf) as (ds & Hfmt & _).
  apply goes_bind. eapply goes_lift; [exact Hfmt|]. apply goes_bind. eapply goes_lift; [done|]. apply goes_ret.
  split; [done|by eexists].
Qed.
Lemma tag_value_runs f tag val num l : ok n l -> ValueStore.index_to_key v tag = Ret (KEnumTag ty val) ->
  ValueStore.index_to_key v val = Ret (KInt ty num) -> Anyint.wf num ->
  goes (rec_interned_value (Knot := knot pointer_bits (S (S (S f)))) tag) l (fun w l' => grows l l' /\ int_const b w).
Proof.
  intros Hok Htag Hval Hwf. apply goes_bind, goes_gets.
  destruct (interned_value_to_llvm_value l !! tag) as [w|] eqn:Hc.
  { apply goes_ret. split; [apply lowerer_grows_refl|]. by eapply (ok_tags _ _ Hok). }
  apply goes_bind. eapply (goes_ask_ok n); [done|by unfold ValueStore.type_of_interned; rewrite Htag|].
  apply goes_bind. eapply (goes_ask_ok n _ false); [done|by unfold vif_abi_type_is_by_ref; rewrite Hty|].
  apply goes_bind. apply goes_bind. eapply (goes_ask_ok n); [done|exact Htag|].
  eapply goes_mono; [by eapply (int_value_runs (KN := knot pointer_bits f))|]. intros w l1 [G1 [text ->]].
  apply goes_bind, goes_modify, goes_ret. split; [|by eexists]. eapply grows_trans; [exact G1|].
  constructor; [done|done|by left|]. intros Hi i w ty' val' num' s' b' x'. simpl.
  intros [[<- <-]|[_ Hw]]%lookup_insert_Some Hk Hv' Hty'; [|by eapply Hi]. exists text. congruence.
Qed.
End Tags.

Lemma field_tag_runs f n u i l t lay : ok n l -> union_tag_ty u = Some t -> regular v tgt t -> lays n t = Ret lay -> tag_ready v t i ->
  goes (field_tag (KN := knot pointer_bits (S (S (S f)))) u (Z.of_nat i)) l (fun r l' => grows l l' /\ exists w b,
    r = Some w /\ int_const b w /\ good (structs l') t (IntTy b) /\ size lay <> 0).
Proof.
  intros Hok Hu Hr Hl (ns & e & tag & val & num & s & b & x & He & Hintern & Htag & Hval & Hwf & Hty).
  pose proof (regular_int _ _ _ _ (regular_enum _ _ _ Hr He) Hty) as Hs.
  destruct n as [|n]; [done|]. rewrite (enum_lays _ _ _ _ He) in Hl. apply type_layout_S in Hl as Hl'.
  unfold field_tag. rewrite Hu. apply goes_bind. eapply (goes_intern_ok (S n)); [done|exact Hintern|].
  apply goes_bind. eapply goes_mono; [by eapply (tag_value_runs (S n))|]. intros w l1 [G1 Hw].
  apply goes_bind. eapply (goes_lift _ w); [by destruct Hw as [? ->]|]. apply goes_ret. split; [done|].
  exists w, b. split; [done|]. split; [done|].
  pose proof (scalar_good (structs l1) n _ _ _ _ Hty Hs Hl) as [Hb Ha _]. split.
  - eapply (good_of _ _ _ (S n)); [by rewrite (enum_lays _ _ _ _ He)|exact Hb|by eapply Ha|]. intros s' b' x' Hi. by rewrite He in Hi.
  - destruct n as [|n]; [done|]. cbn [type_layout] in Hl. rewrite Hty in Hl. cbn [mbind res_bind] in Hl.
    destruct Hs as (k & Hk & Hbits'). rewrite (div_ceil_pow k) in Hl by lia. apply res_bind_inv in Hl as (al & _ & [= <-]). simpl.
    assert (0 < 2^k) by (apply Z.pow_pos_nonneg; lia). lia.
Qed.

(** ** Structs *)

Definition lowers (KN : Knot) (n : nat) : Prop := forall i lay l, lays n i = Ret lay -> regular v tgt i -> ok n l ->
  goes (rec_type_basic i) l (fun t l' => grows l l' /\ good (structs l') i t).

Lemma goes_opaque name l (Q : nat -> Lowerer -> Prop) :
  Q (length (structs l)) (set_structs (structs l ++ [(name, None)]) l) -> goes (opaque_struct_type name) l Q.
Proof. intros HQ. apply goes_bind, goes_gets, goes_bind, goes_modify, goes_ret. exact HQ. Qed.
Lemma goes_set_body id name o fields l (Q : () -> Lowerer -> Prop) : structs l !! id = Some (name, o) ->
  Q tt (set_structs (<[id := (name, Some fields)]> (structs l)) l) -> goes (set_body id fields) l Q.
Proof.
  intros Hid HQ. apply goes_bind, goes_gets, goes_bind. eapply goes_lift; [by apply get_idx_Some|].
  apply goes_bind. eapply goes_lift; [|apply goes_modify, HQ]. by eapply set_idx_lt, lookup_lt_Some.
Qed.

(** A struct that is given its body at the end of what lowers the body. *)
Lemma opened_grows i t l l3 name fields : let id := length (structs l) in
  grows (set_types (<[i := t]> (interned_value_to_llvm_type l)) (set_structs (structs l ++ [(name, None)]) l)) l3 ->
  let st := <[id := (name, Some fields)]> (structs l3) in
  (good st i t) ->
  bodies_kept (structs l3) st /\ st !! id = Some (name, Some fields) /\ grows l (set_structs st l3).
Proof.
  intros id [HU [rest HS] HT HG] st Hg. simpl in *.
  assert (structs l3 = structs l ++ (name, None) :: rest) as E by (by rewrite HS, <- app_assoc).
  assert (st = structs l ++ (name, Some fields) :: rest) as Est
    by (unfold st, id; rewrite E, insert_app_r_alt, Nat.sub_diag by done; done).
  assert (bodies_kept (structs l3) st) as Hk.
  { intros j name' fields' Hj. unfold st. rewrite list_lookup_insert_ne; [done|]. intros <-. unfold id in Hj.
    by rewrite E, lookup_app_r, Nat.sub_diag in Hj by done. }
  split; [done|]. split; [unfold id; by rewrite Est, lookup_app_r, Nat.sub_diag by done|]. constructor; [done| | |exact HG].
  - simpl. rewrite Est. by eexists.
  - simpl. intros j u [[[<- <-]|[? H]]%lookup_insert_Some|H]%HT; [by right|by left|]. right. intros Hr. eapply good_mono; [done|auto].
Qed.

Lemma fields_runs KN n fs pos al pos' al' k l : lowers KN n -> ok n l -> (forall f, f ∈ fs -> regular v tgt (sf_ty f)) ->
  0 <= pos -> for_enumM_from k fs (fun _ => struct_field_step (lays n)) (pos, al) = Ret (pos', al') ->
  goes (for_each (fun f => rec_type_basic (sf_ty f)) fs) l (fun ts l' => grows l l' /\
    exists offs, placed_types (abi (structs l')) ts pos al offs pos' al').
Proof.
  intros Hrec. revert k pos al l. induction fs as [|f fs IH]; intros k pos al l Hok Hr Hpos Hloop; cbn [for_each].
  { injection Hloop as <- <-. apply goes_ret. split; [apply lowerer_grows_refl|]. eexists. constructor. }
  cbn [for_enumM_from] in Hloop. apply res_bind_inv in Hloop as ([p a] & Hstep & Hloop).
  unfold struct_field_step in Hstep. apply res_bind_inv in Hstep as (lay & Hlay & Hstep).
  apply res_bind_inv in Hstep as (off & Hoff & Hstep). apply res_bind_inv in Hstep as (e & He%u64_add_spec & [= <- <-]).
  assert (regular v tgt (sf_ty f)) as Hrf by (apply Hr; left).
  destruct (regular_layout_whole v tgt Hptr _ _ _ Hlay Hrf) as (Hs & Hp & _).
  apply next_multiple_spec in Hoff as Hm; [|done|done]. destruct Hm as [Hm Hd].
  apply goes_bind. eapply goes_mono; [by eapply Hrec|]. intros t l1 [G1 Hg]. apply goes_bind.
  eapply goes_mono; [eapply (IH _ e _ l1); [by eapply ok_grows|intros f' Hf'; apply Hr; by right|lia|exact Hloop]|].
  intros ts l2 [G2 (offs & Hts)]. apply goes_ret. split; [by eapply grows_trans|]. exists (off :: offs).
  eapply pt_cons; [|by split|by rewrite <- He]. eapply abi_mono; [by apply prefix_bodies, grows_structs|].
  by eapply good_abi.
Qed.

(** ** The steps of [lower_type_basic] *)

Section Steps.
Context (KN : Knot) (n : nat) (Hrec : lowers KN n).

Lemma array_runs i arr x lay l : ok n l -> interned_value_to_llvm_type l !! i = None ->
  ValueStore.type_at v i = Ret (Array arr, x) -> regular v tgt (elem_ty arr) -> 0 <= array_len arr < 2^32 -> lays (S n) i = Ret lay ->
  goes (lower_type_basic pointer_bits i) l (fun t l' => grows l l' /\ good (structs l') i t).
Proof.
  intros Hok Hc Hty Hr Hlen H. cbn [type_layout] in H. rewrite Hty in H. cbn [mbind res_bind] in H.
  pose proof H as Hlay. apply res_bind_inv in H as (le & Hle & H). apply res_bind_inv in H as (stride & Hst & H).
  apply res_bind_inv in H as (s & Hs & [= <-]). destruct (regular_layout_whole v tgt Hptr _ _ _ Hle Hr) as (H0 & Hp & Hd).
  assert (stride = size le) as ->.
  { unfold next_multiple_of in Hst. pose proof (pow2_pos _ Hp). rewrite (proj2 (Z.eqb_neq _ 0)) in Hst by lia.
    apply Z.mod_divide in Hd; [|lia]. rewrite Hd in Hst. by injection Hst. }
  unfold u64_mul, u64_checked in Hs. destruct (_ <? _) in Hs; [|done]. injection Hs as <-.
  apply goes_bind, goes_gets. rewrite Hc. apply goes_bind. eapply (goes_ask_ok n); [done|by apply type_at_key|].
  apply goes_bind, goes_bind. eapply goes_mono; [by eapply Hrec|]. intros t l1 [G1 Hg].
  apply goes_bind. eapply (goes_lift _ tt); [by rewrite (proj2 (Z.ltb_lt (array_len arr) (2^32))) by lia|]. apply goes_ret.
  apply goes_keep; [done|]. eapply (good_of _ _ _ (S n) (ValueLayout.mk _ _)); [|done| |intros s b y Hi; by rewrite Hty in Hi].
  - cbn [type_layout]. rewrite Hty. exact Hlay.
  - simpl. apply abi_array; [by eapply good_abi|lia].
Qed.

Lemma enum_runs i ns e lay l : ok n l -> interned_value_to_llvm_type l !! i = None ->
  ValueStore.type_at v i = Ret (Enum ns, VEnum e) -> regular v tgt (enum_tag_ty e) -> lays (S n) i = Ret lay ->
  goes (lower_type_basic pointer_bits i) l (fun t l' => grows l l' /\ good (structs l') i t).
Proof.
  intros Hok Hc Hty Hr H. apply goes_bind, goes_gets. rewrite Hc. apply goes_bind. eapply (goes_ask_ok n); [done|by apply type_at_key|].
  apply goes_bind, goes_bind. eapply goes_lift; [done|]. pose proof H as H'. rewrite (enum_lays _ _ _ _ Hty) in H.
  eapply goes_mono; [by eapply Hrec|]. intros t l1 [G1 Hg]. apply goes_keep; [done|].
  eapply good_of; [exact H'|apply Hg|by eapply good_abi|]. intros s b y Hi. by rewrite Hty in Hi.
Qed.

Lemma struct_runs i ns st lay l : ok n l -> interned_value_to_llvm_type l !! i = None ->
  ValueStore.type_at v i = Ret (Struct ns, VStruct st) -> layout st = Standard ->
  (forall f, f ∈ struct_fields st -> regular v tgt (sf_ty f)) -> lays (S n) i = Ret lay -> (forall r, lays n i <> Ret r) ->
  goes (lower_type_basic pointer_bits i) l (fun t l' => grows l l' /\ good (structs l') i t).
Proof.
  intros Hok Hc Hty Hlay Hr H Hleast. pose proof H as H'. cbn [type_layout] in H. rewrite Hty in H.
  cbn [mbind res_bind ValueStore.as_struct_value] in H. rewrite Hlay in H.
  apply res_bind_inv in H as ([pos al] & Hloop & H). apply res_bind_inv in H as (s & Hs & [= <-]).
  apply goes_bind, goes_gets. rewrite Hc. apply goes_bind. eapply (goes_ask_ok n); [done|by apply type_at_key|].
  apply goes_bind, goes_bind. eapply goes_lift; [done|]. rewrite Hlay. apply goes_bind, goes_opaque, goes_bind, goes_modify, goes_bind.
  destruct (struct_loop_whole _ _ _ _ (fun fd lf Hin Hlf => regular_layout_whole v tgt Hptr _ _ _ Hlf (Hr fd Hin)) Hloop) as [Hpos Hal].
  apply next_multiple_spec in Hs as Hm; [|done|done].
  eapply goes_mono; [eapply (fields_runs _ _ _ 0 1 pos al 0%nat); [exact Hrec| |done|lia|exact Hloop]|].
  { destruct Hok as [U T G]. constructor; [done| |done]. simpl. intros j t layj [[<- <-]|[? Hj]]%lookup_insert_Some Hrj Hl.
    - by apply Hleast in Hl.
    - eapply good_mono; [apply prefix_bodies; by eexists|eauto]. }
  intros ts l3 [G3 (offs & Hts)]. set (id := length (structs l)) in *.
  set (st4 := <[id := (struct_name st, Some ts)]> (structs l3)).
  assert (structs l3 !! id = Some (struct_name st, None)) as Hid.
  { eapply prefix_lookup_Some; [|exact (grows_structs _ _ G3)]. simpl. unfold id. by rewrite lookup_app_r, Nat.sub_diag by done. }
  apply goes_bind. eapply goes_set_body; [exact Hid|]. fold st4. apply goes_ret.
  assert (bodies_kept (structs l3) st4) as Hk.
  { intros j name' fields' Hj. unfold st4. rewrite list_lookup_insert_ne; [done|]. intros <-. congruence. }
  assert (good st4 i (NamedTy id)) as Hg.
  { eapply good_of; [exact H'|done| |intros s' b y Hi; by rewrite Hty in Hi]. simpl. eapply abi_named.
    - unfold st4. apply list_lookup_insert_eq. by eapply lookup_lt_Some.
    - eapply abi_struct; [|exact Hm]. eapply placed_types_mono; [|exact Hts]. intros t' s' a'. by apply abi_mono. }
  destruct (opened_grows i (NamedTy id) l l3 (struct_name st) ts G3 Hg) as (_ & _ & G4). by apply goes_keep.
Qed.

(** *** Unions *)

Lemma bytes_abi st m : 0 <= m < 2^32 -> bytes_ty m = Ret (ArrayTy (IntTy 8) m) /\ abi st (ArrayTy (IntTy 8) m) m 1.
Proof.
  intros Hm. split; [unfold bytes_ty; by rewrite (proj2 (Z.ltb_ge m 0)), (proj2 (Z.ltb_lt m (2^32))) by lia|].
  rewrite <- (Z.mul_1_l m) at 2. apply abi_array; [|lia]. apply (abi_int _ 8 0); [done|done|by left].
Qed.
Lemma wrapper_abi st t sz a ps : abi st t sz a -> 0 <= sz <= ps -> ps < 2^32 ->
  exists w, payload_wrapper t sz ps = Ret w /\ (w = None /\ abi st t ps a \/ exists w', w = Some w' /\ abi st w' ps 1).
Proof.
  intros Ht Hsz Hps. unfold payload_wrapper. destruct (Z.eqb_spec sz ps) as [->|]; [exists None; auto|].
  destruct (bytes_abi st (ps - sz)) as [-> Hb]; [lia|]. eexists. split; [done|]. right. eexists. split; [done|].
  assert (Forall2 (fun t s => exists a, abi st t s a) [t; ArrayTy (IntTy 8) (ps - sz)] [sz; ps - sz]) as Hf
    by (constructor; [by exists a|constructor; [by exists 1|constructor]]).
  apply abi_packed in Hf. cbn [foldr] in Hf. by replace (sz + (ps - sz + 0)) with ps in Hf by lia.
Qed.

(** The view of a union as a struct of the module. *)
Definition view_ok (l : Lowerer) (view : LlvmType) (lay : Layout) : Prop := exists id name fields,
  view = NamedTy id /\ structs l !! id = Some (name, Some fields) /\ abi (structs l) (StructTy fields false) (size lay) (align lay).

Lemma goes_view {B} (m : nat -> L B) name fields l (Q : B -> Lowerer -> Prop) lay :
  abi (structs l) (StructTy fields false) (size lay) (align lay) ->
  (forall id l', grows l l' -> view_ok l' (NamedTy id) lay -> goes (m id) l' Q) ->
  goes (id ← opaque_struct_type name; set_body id fields ;; m id) l Q.
Proof.
  intros Ha HQ. apply goes_bind, goes_opaque, goes_bind. eapply (goes_set_body _ name None).
  { simpl. by rewrite lookup_app_r, Nat.sub_diag by done. }
  simpl. rewrite insert_app_r_alt, Nat.sub_diag by done. simpl. apply HQ.
  - constructor; [done|by eexists| |done]. by left.
  - exists (length (structs l)), name, fields. split; [done|]. simpl. split; [by rewrite lookup_app_r, Nat.sub_diag by done|].
    eapply abi_mono; [|done]. apply prefix_bodies. by eexists.
Qed.
End Steps.

Section Unions.
Context (f n : nat) (i : Z) (ns : NamespaceType) (u : TypeUnion) (ul : UnionLayout).
Abbreviation KN := (knot pointer_bits (S (S (S f)))).
Context (Hrec : lowers KN n) (Hfuel : (n <= query_fuel)%nat).
Context (Hty : ValueStore.type_at v i = Ret (Union ns, VUnion u)) (Hul : union_layout_by (lays n) v i = Ret ul).
Context (Hfields : forall fd t, fd ∈ union_fields u -> uf_ty fd = Some t -> regular v tgt t).
Context (Htags : forall t, union_tag_ty u = Some t -> regular v tgt t) (Hready : union_ready v tgt i u).

Lemma union_split : union_pieces (lays n) u ul.
Proof.
  eapply union_layout_pieces; [exact Hty| | |exact Hul].
  - intros fd t l Hin Ht Hl. eapply regular_layout_whole; eauto.
  - intros t l Ht Hl. eapply regular_layout_whole; eauto.
Qed.
Lemma union_bytes : size (payload ul) < 2^32 /\ trailing_padding ul < 2^32 /\ (union_tag_ty u = None -> size (payload ul) <> 0).
Proof. destruct (ready_bytes _ _ _ _ Hready) as (m & l & Hl & H). by rewrite (union_layout_fun _ _ _ _ _ _ _ Hul Hl). Qed.
Lemma most_lt : ((most_aligned_field ul).1 < length (union_fields u))%nat.
Proof.
  destruct union_split as [(_ & _ & Hsome & Hnone) _ _ _ _]. destruct (decide (size (payload ul) = 0)) as [E|E].
  - destruct (Hnone E) as [_ ->]. pose proof (ready_fields _ _ _ _ Hready). destruct (union_fields u); [done|simpl; lia].
  - destruct (Hsome E) as (fd & t & Hl & _). by eapply lookup_lt_Some.
Qed.

(** What is known of the tag of a field. *)
Definition tag_known (l : Lowerer) (r : option LlvmValue) : Prop :=
  match union_tag_ty u with
  | None => r = None /\ tag ul = zeroed
  | Some t => exists w b, r = Some w /\ int_const b w /\ good (structs l) t (IntTy b) /\ size (tag ul) <> 0
  end.
Lemma tag_runs l : ok n l -> goes (field_tag (KN := KN) u (Z.of_nat (most_aligned_field ul).1)) l
  (fun r l' => grows l l' /\ tag_known l' r).
Proof.
  intros Hok. unfold tag_known. pose proof (up_tag _ _ _ union_split) as Htag. pose proof most_lt as Hlt.
  pose proof (ready_tags _ _ _ _ Hready) as Hr. clear Hready. destruct (union_tag_ty u) as [t|] eqn:E.
  - eapply field_tag_runs; [exact Hok|done|by apply Htags|exact Htag|]. by apply Hr.
  - unfold field_tag. rewrite E. apply goes_ret. split; [apply lowerer_grows_refl|done].
Qed.
(** A union without payload is its tag. *)
Lemma tag_only : size (payload ul) = 0 -> size (tag ul) <> 0 -> size (union_layout ul) = size (tag ul) /\ align (union_layout ul) = align (tag ul).
Proof.
  intros Hp Ht. destruct union_split as [(_ & _ & _ & Hnone) _ (Hs & Ha & Hd) Hal (c & _ & [Hc Hcd] & _ & Hce)].
  destruct (Hnone Hp) as [Hpa _]. pose proof (pow2_pos _ Ha). rewrite Hpa, Z.max_l in Hal by lia. split; [|done].
  rewrite (proj2 (Z.eqb_neq _ _)), (proj2 (Z.eqb_eq _ _)) in Hce by done. subst c. rewrite Hal in *.
  destruct Hd as [p Hp'], Hcd as [q Hq]. rewrite Hp', Hq in *. f_equal. nia.
Qed.

Lemma tag_field_runs l r has : ok n l -> tag_known l r -> has = negb (size (tag ul) =? 0) ->
  goes (if has : bool then match union_tag_ty u with Some t => t ← rec_type_basic (Knot := KN) t; mret [t] | None => lift panic end else mret [])
    l (fun tys l' => grows l l' /\ (tys = [] /\ tag ul = zeroed \/
      exists t, tys = [t] /\ size (tag ul) <> 0 /\ abi (structs l') t (size (tag ul)) (align (tag ul)))).
Proof.
  intros Hok Hk ->. unfold tag_known in Hk. pose proof (up_tag _ _ _ union_split) as Htag. destruct (union_tag_ty u) as [t|] eqn:E.
  - destruct Hk as (w & b & _ & _ & _ & Hs). rewrite (proj2 (Z.eqb_neq _ _)) by done. simpl.
    apply goes_bind. eapply goes_mono; [by eapply Hrec; [exact Htag|apply Htags|]|]. intros t' l1 [G1 Hg].
    apply goes_ret. split; [done|]. right. exists t'. split; [done|]. split; [done|by eapply good_abi].
  - rewrite Htag. apply goes_ret. split; [apply lowerer_grows_refl|by left].
Qed.

Lemma tag_known_mono l l' r : grows l l' -> tag_known l r -> tag_known l' r.
Proof.
  intros HG. unfold tag_known. destruct (union_tag_ty u); [|done]. intros (w & b & ? & ? & ? & ?). exists w, b.
  do 2 (split; [done|]). split; [|done]. eapply good_mono; [apply prefix_bodies, HG|done].
Qed.
Lemma trailing_runs content l : trailing_padding ul = size (union_layout ul) - content -> content <= size (union_layout ul) ->
  trailing_padding ul < 2^32 ->
  goes (if trailing_padding ul =? 0 then mret [] else t ← lift (bytes_ty (trailing_padding ul)); mret [t]) l
    (fun pad l' => l' = l /\ (pad = [] /\ size (union_layout ul) = content \/
      exists t, pad = [t] /\ forall st, abi st t (size (union_layout ul) - content) 1)).
Proof.
  intros Htp Hle Hlt. destruct (Z.eqb_spec (trailing_padding ul) 0).
  - apply goes_ret. split; [done|left; split; [done|lia]].
  - apply goes_bind. eapply goes_lift; [apply (bytes_abi (structs l)); lia|]. apply goes_ret. split; [done|]. right.
    eexists. split; [done|]. intros st. rewrite <- Htp. apply bytes_abi. lia.
Qed.
Lemma union_repr_runs l : ok n l -> goes (lower_union_repr_for_field (KN := KN) i (Z.of_nat (most_aligned_field ul).1)) l
  (fun r l' => grows l l' /\ match r with
    | TagOnly w => exists b, int_const b w /\ abi (structs l') (IntTy b) (size (union_layout ul)) (align (union_layout ul))
    | Aggregate view _ _ => view_ok l' view (union_layout ul)
    end).
Proof.
  intros Hok. pose proof union_split as [Hfound Htag Hwt Hal (content & Htp & Hm & Hc0 & Hce)].
  pose proof union_bytes as (Hps & Htpb & Hnt). pose proof tag_only as Honly.
  apply goes_bind. eapply (goes_ask_ok n); [done|by eapply type_value|]. apply goes_bind. eapply goes_lift; [done|].
  apply goes_bind. eapply (goes_ask_ok n _ ul); [done|eapply union_layout_by_mono; [|exact Hul]; by apply type_layout_le|].
  apply goes_bind. eapply goes_mono; [by apply tag_runs|]. intros r l1 [G1 Hk]. cbv zeta.
  assert (ok n l1) as Hok1 by (by eapply ok_grows).
  destruct (Z.eqb_spec (size (payload ul)) 0) as [E|E].
  { unfold tag_known in Hk. destruct (union_tag_ty u) as [t|]; [|by destruct (Hnt eq_refl)].
    destruct Hk as (w & b & -> & Hw & Hg & Hs). apply goes_ret. split; [done|]. exists b. split; [done|].
    destruct (Honly E Hs) as [-> ->]. by eapply good_abi. }
  rewrite Nat2Z.id. destruct Hfound as (Hp0 & Hppa & Hsome & _).
  destruct (Hsome E) as (fd & ty & Hfd & Hfty & Hml & Hwml & Hmls & Hmla & Hmle).
  apply goes_bind. eapply goes_lift; [by apply get_idx_Some|]. apply goes_bind. eapply goes_lift; [by apply get_idx_Some|].
  apply goes_bind. eapply (goes_lift _ ty); [by rewrite Hfty|].
  assert (regular v tgt ty) as Hrty by (eapply Hfields; [by eapply list_elem_of_lookup_2|done]).
  apply goes_bind. eapply goes_mono; [by eapply Hrec|]. intros t l2 [G2 Hg2]. assert (ok n l2) as Hok2 by (by eapply ok_grows).
  apply goes_bind. eapply (goes_ask_ok n); [done|eapply type_layout_le; [exact Hfuel|exact Hml]|].
  destruct (wrapper_abi (structs l2) t (size (most_aligned_field ul).2) (align (most_aligned_field ul).2) (size (payload ul)))
    as (w & Hw & Hwa); [by eapply good_abi|destruct Hwml; lia|done|].
  apply goes_bind. eapply goes_lift; [exact Hw|]. apply goes_bind.
  eapply goes_mono; [by eapply tag_field_runs; [|by eapply tag_known_mono|]|]. intros tys l3 [G3 Htys].
  apply goes_bind. eapply goes_mono; [eapply trailing_runs; [exact Htp|by destruct Hm as [[? ?] ?]|done]|]. intros pad ? [-> Hpad]. assert (ok n l3) as Hok3 by (by eapply ok_grows).
  apply goes_bind. eapply (goes_mono _ _ (fun al l' => grows l3 l' /\ (al = [] /\ w = None \/
    exists t' w', al = [t'] /\ w = Some w' /\ abi (structs l') t' 0 (align (payload ul))))).
  { destruct w as [w|]; [|apply goes_ret; split; [apply lowerer_grows_refl|by left]]. rewrite Hfty. apply goes_bind.
    eapply goes_mono; [by eapply Hrec|]. intros t' l4 [G4 Hg4]. apply goes_ret. split; [done|]. right. eexists _, _.
    do 2 (split; [done|]). rewrite <- Hmla. pose proof (abi_array _ _ _ _ 0 (good_abi _ _ _ Hg4 _ _ Hml) ltac:(done)) as Ha.
    by rewrite Z.mul_0_r in Ha. }
  intros al l4 [G4 Hmost]. assert (bodies_kept (structs l3) (structs l4)) as K4 by apply prefix_bodies, G4.
  assert (bodies_kept (structs l2) (structs l4)) as K2 by (apply prefix_bodies; etransitivity; [apply G3|apply G4]).
  destruct Hwt as (Hts & Hta & Htd).
  destruct (union_view_placed (abi (structs l4)) tys (default t w) pad al (size (tag ul)) (align (tag ul)) (size (payload ul))
    (align (payload ul)) (match w with Some _ => 1 | None => align (payload ul) end) content (size (union_layout ul))
    (negb (size (tag ul) =? 0) && (align (payload ul) <=? align (tag ul)))) as [offs Hplaced]; try done.
  - destruct Htys as [[-> ->]|(t' & -> & Hs & Ht')]; [by left|right]. exists t'. split; [done|]. split; [done|].
    split; [by apply (abi_mono _ _ _ _ _ K4)|]. by rewrite (proj2 (Z.eqb_neq _ _) Hs).
  - destruct Hwa as [[-> Ha]|(w' & -> & Ha)]; simpl; [rewrite <- Hmla|]; by apply (abi_mono _ _ _ _ _ K2).
  - by rewrite <- Hal.
  - destruct Hpad as [?|(t' & -> & Ha)]; [by left|right]. by exists t'.
  - destruct Hmost as [[-> ->]|(t' & w' & -> & -> & Ha)]; [by left|right]. by exists t'.
  - eapply goes_view.
    + eapply abi_struct; [rewrite Hal; exact Hplaced|]. destruct Hm as [Hm Hmd]. apply first_multiple_here; [lia|done].
    + intros id l5 G5 Hview. apply goes_ret. split; [|exact Hview].
      eapply grows_trans; [exact G1|]. eapply grows_trans; [exact G2|]. eapply grows_trans; [exact G3|]. by eapply grows_trans.
Qed.

Lemma union_runs lay l : ok n l -> interned_value_to_llvm_type l !! i = None -> lays (S n) i = Ret lay ->
  goes (lower_type_basic (KN := KN) pointer_bits i) l (fun t l' => grows l l' /\ good (structs l') i t).
Proof.
  intros Hok Hc H. assert (lay = union_layout ul) as ->.
  { cbn [type_layout] in H. rewrite Hty in H. cbn [mbind res_bind ValueStore.as_union] in H. rewrite Hul in H. by injection H. }
  assert (forall st t, to_basic t = Ret t -> abi st t (size (union_layout ul)) (align (union_layout ul)) -> good st i t) as Hgood.
  { intros st t Hb Ha. eapply good_of; [exact H|done|done|]. intros s b y Hi. by rewrite Hty in Hi. }
  apply goes_bind, goes_gets. rewrite Hc. apply goes_bind. eapply (goes_ask_ok n); [done|by apply type_at_key|].
  apply goes_bind, goes_bind. eapply goes_lift; [done|].
  apply goes_bind. eapply (goes_ask_ok n _ ul); [done|eapply union_layout_by_mono; [|exact Hul]; by apply type_layout_le|].
  apply goes_bind. eapply goes_mono; [by apply union_repr_runs|]. intros [w|view tg pl] l1 [G1 Hr].
  - destruct Hr as (b & [text ->] & Ha). apply goes_ret, goes_keep; [done|]. by apply Hgood.
  - destruct Hr as (id & name & fields & -> & Hid & Ha). apply goes_bind, goes_opaque, goes_bind, goes_modify.
    apply goes_bind, goes_bind, goes_gets, goes_bind. eapply goes_lift; [apply get_idx_Some; simpl; by apply lookup_app_l_Some|].
    apply goes_ret. set (id2 := length (structs l1)). set (st := <[id2 := (union_name u, Some fields)]> (structs l1 ++ [(union_name u, None)])).
    apply goes_bind. eapply (goes_set_body _ (union_name u) None); [simpl; unfold id2; by rewrite lookup_app_r, Nat.sub_diag by done|].
    apply goes_ret. simpl.
    assert (st = structs l1 ++ [(union_name u, Some fields)]) as Est by (unfold st, id2; by rewrite insert_app_r_alt, Nat.sub_diag by done).
    assert (good st i (NamedTy id2)) as Hg.
    { apply Hgood; [done|]. eapply abi_named; [rewrite Est; unfold id2; by rewrite lookup_app_r, Nat.sub_diag by done|].
      eapply abi_mono; [|exact Ha]. rewrite Est. apply prefix_bodies. by eexists. }
    destruct (opened_grows i (NamedTy id2) l1 _ (union_name u) fields (lowerer_grows_refl _) Hg) as (_ & _ & G2).
    apply goes_keep; [by eapply grows_trans|done].
Qed.
End Unions.

Lemma lowers_all n f : (n <= query_fuel)%nat -> (n + 3 <= f)%nat -> lowers (knot pointer_bits f) n.
Proof.
  revert f. induction n as [n IH] using lt_wf_ind. intros f Hn Hf i lay l Hl Hr Hok.
  destruct (least_depth _ _ _ _ _ Hl) as (m & Hm & Hlm & Hleast). destruct f as [|f]; [lia|].
  destruct (interned_value_to_llvm_type l !! i) as [t|] eqn:Hc; [by eapply (goes_cached n)|].
  assert (lowers (knot pointer_bits f) m) as Hrec by (apply IH; lia).
  assert (ok m l) as Hokm by (eapply ok_le; [|done]; lia).
  destruct Hr as [i t x Hty Ht|i arr x Hty Ha Hlen|i ns st Hty Hlay Hf'|i ns e Hty Ht|i ns u Hty Hfs Htag Hready].
  - by eapply (scalar_runs n).
  - by eapply array_runs.
  - by eapply struct_runs.
  - by eapply enum_runs.
  - destruct f as [|[|[|f]]]; [lia..|]. pose proof Hlm as H. cbn [type_layout] in H. rewrite Hty in H.
    cbn [mbind res_bind ValueStore.as_union] in H. apply res_bind_inv in H as (ul & Hul & _).
    eapply union_runs; try done. lia.
Qed.

Lemma new_lowerer_ok n : ok n (new_lowerer cu0).
Proof.
  constructor; [done|intros i t lay H|intros i w ty val num s b x H]; simpl in H; by rewrite lookup_empty in H.
Qed.

(** C25: The types of a program that are [regular] are lowered, one after the other and to
    the end, to LLVM types of the size and alignment that [type_layout] gives them. *)
Theorem lowered_types_fit n fuel tys : (n <= query_fuel)%nat -> (n + 3 <= fuel)%nat ->
  (forall ty, ty ∈ tys -> regular v tgt ty /\ exists lay, type_layout n v tgt ty = Ret lay) ->
  exists ts l, for_each (lower_type_basic (KN := knot pointer_bits fuel) pointer_bits) tys (new_lowerer cu0) = Ret (ts, l) /\
    Forall2 (fun ty t => forall lay, type_layout n v tgt ty = Ret lay ->
      to_basic t = Ret t /\ abi (structs l) t (size lay) (align lay)) tys ts.
Proof.
  intros Hn Hf Htys. pose proof (lowers_all n (S fuel) Hn ltac:(lia)) as Hrec.
  enough (forall l0, ok n l0 -> goes (for_each (rec_type_basic (Knot := knot pointer_bits (S fuel))) tys) l0 (fun ts l =>
    grows l0 l /\ Forall2 (good (structs l)) tys ts)) as H.
  { destruct (H _ (new_lowerer_ok n)) as (ts & l & Hrun & _ & Hg). exists ts, l. split; [exact Hrun|].
    eapply Forall2_impl; [exact Hg|]. intros ty t Ht lay Hlay. split; [apply Ht|by eapply good_abi]. }
  clear Hf. induction tys as [|ty tys IH]; intros l0 Hok; cbn [for_each]; [apply goes_ret; split; [apply lowerer_grows_refl|constructor]|].
  destruct (Htys ty ltac:(left)) as [Hr [lay Hlay]]. apply goes_bind. eapply goes_mono; [by eapply Hrec|]. intros t l1 [G1 Hg].
  apply goes_bind. eapply goes_mono; [apply IH; [intros ty' Hin; apply Htys; by right|by eapply ok_grows]|].
  intros ts l2 [G2 Hgs]. apply goes_ret. split; [by eapply grows_trans|]. constructor; [|done].
  eapply good_mono; [apply prefix_bodies, G2|done].
Qed.
End State.
End Types.

(** ** A data layout *)

Module Layout64.
Abbreviation bodies := (list (list Z * option (list LlvmType))).

Fixpoint place (f : LlvmType -> option (Z * Z)) (ts : list LlvmType) (pos al : Z) : option (Z * Z) :=
  match ts with
  | [] => Some (pos, al)
  | t :: ts => '(s, a) ← f t; place f ts ((pos + a - 1) / a * a + s) (Z.max al a)
  end.
Fixpoint packed (f : LlvmType -> option (Z * Z)) (ts : list LlvmType) : option Z :=
  match ts with
  | [] => Some 0
  | t :: ts => '(s, _) ← f t; n ← packed f ts; Some (s + n)
  end.
(** Size and alignment on a 64-bit target. *)
Fixpoint layout64 (fuel : nat) (st : bodies) (t : LlvmType) : option (Z * Z) :=
  match fuel with
  | O => None
  | S fuel =>
      match t with
      | IntTy bits => if (1 <=? bits) && (bits <=? 128) then let s := 2 ^ Z.log2_up (div_ceil bits 8) in Some (s, s) else None
      | HalfTy => Some (2, 2)
      | FloatTy => Some (4, 4)
      | DoubleTy => Some (8, 8)
      | Fp128Ty => Some (16, 16)
      | PtrTy => Some (8, 8)
      | StructTy ts true => n ← packed (layout64 fuel st) ts; Some (n, 1)
      | StructTy ts false => '(n, al) ← place (layout64 fuel st) ts 0 1; Some ((n + al - 1) / al * al, al)
      | NamedTy id => match st !! id with Some (_, Some fields) => layout64 fuel st (StructTy fields false) | _ => None end
      | ArrayTy t n => '(s, a) ← layout64 fuel st t; Some (s * n, a)
      | VoidTy | FnTy _ _ _ => None
      end
  end.

Definition less (f g : LlvmType -> option (Z * Z)) : Prop := forall t r, f t = Some r -> g t = Some r.
Lemma place_mono f g ts pos al r : less f g -> place f ts pos al = Some r -> place g ts pos al = Some r.
Proof.
  intros Hfg. revert pos al. induction ts as [|t ts IH]; intros pos al; simpl; [done|].
  destruct (f t) as [[s a]|] eqn:E; [|done]. rewrite (Hfg _ _ E). simpl. apply IH.
Qed.
Lemma packed_mono f g ts r : less f g -> packed f ts = Some r -> packed g ts = Some r.
Proof.
  intros Hfg. revert r. induction ts as [|t ts IH]; intros r; simpl; [done|].
  destruct (f t) as [[s a]|] eqn:E; [|done]. rewrite (Hfg _ _ E). simpl.
  destruct (packed f ts) as [m|]; [|done]. by rewrite (IH m).
Qed.
Lemma layout64_mono n m st st' : (n <= m)%nat -> bodies_kept st st' -> less (layout64 n st) (layout64 m st').
Proof.
  intros Hle Hk. revert m Hle. induction n as [|n IH]; intros m Hle t r; [done|]. destruct m as [|m]; [lia|].
  assert (less (layout64 n st) (layout64 m st')) as Hless by (apply IH; lia). cbn [layout64]. destruct t as [| | | | | | |ts p|id|t k|]; try done.
  - destruct p.
    + destruct (packed _ ts) as [k|] eqn:E; [|done]. by rewrite (packed_mono _ _ _ _ Hless E).
    + destruct (place _ ts 0 1) as [k|] eqn:E; [|done]. by rewrite (place_mono _ _ _ _ _ _ Hless E).
  - destruct (st !! id) as [[name [fields|]]|] eqn:E; [|done..]. rewrite (Hk _ _ _ E). apply Hless.
  - destruct (layout64 n st t) as [k'|] eqn:E; [|done]. by rewrite (Hless _ _ E).
Qed.
Lemma kept_refl st : bodies_kept st st.
Proof. by intros ?. Qed.

Lemma round_up pos a off : first_multiple pos a off -> (pos + a - 1) / a * a = off.
Proof. intros [Hle [q ->]]. f_equal. symmetry. apply (Z.div_unique _ _ _ (pos + a - 1 - q * a)); lia. Qed.

#[export] Instance dl64 : DataLayout := {| abi := fun st t s a => exists n, layout64 n st t = Some (s, a) |}.

Lemma placed_place st ts pos al offs pos' al' : placed_types (abi st) ts pos al offs pos' al' ->
  exists n, place (layout64 n st) ts pos al = Some (pos', al').
Proof.
  induction 1 as [|t ts pos al s a off offs pos' al' [n Hn] Hoff Hts [m Hm]]; [by exists O|].
  exists (n `max` m)%nat. simpl. rewrite (layout64_mono n (n `max` m) st st ltac:(lia) (kept_refl st) _ _ Hn). simpl.
  rewrite (round_up _ _ _ Hoff). eapply place_mono; [|exact Hm]. apply layout64_mono; [lia|apply kept_refl].
Qed.
Lemma packed_sum st ts ss : Forall2 (fun t s => exists a, abi st t s a) ts ss -> exists n, packed (layout64 n st) ts = Some (foldr Z.add 0 ss).
Proof.
  induction 1 as [|t s ts ss [a [n Hn]] _ [m Hm]]; [by exists O|]. exists (n `max` m)%nat. simpl.
  rewrite (layout64_mono n (n `max` m) st st ltac:(lia) (kept_refl st) _ _ Hn). simpl.
  by rewrite (packed_mono _ _ _ _ (layout64_mono m (n `max` m) st st ltac:(lia) (kept_refl st)) Hm).
Qed.

#[export] Instance dl64_laws : DataLayoutLaws 64.
Proof.
  constructor.
  - intros st bits k Hk Hb Hlow. exists 1%nat. cbn [layout64].
    assert (2^k <= 2^4) by (apply Z.pow_le_mono_r; lia). change (2^4) with 16 in *.
    rewrite (proj2 (Z.leb_le 1 bits)), (proj2 (Z.leb_le bits 128)) by lia. simpl.
    assert (Z.log2_up (div_ceil bits 8) = k) as ->; [|done]. unfold div_ceil.
    destruct (decide (k = 0)) as [->|Hk0].
    { change (2^0) with 1 in Hb. replace ((bits + 8 - 1) / 8) with 1; [done|]. apply (Z.div_unique _ _ _ (bits - 1)); lia. }
    destruct Hlow as [|Hlow]; [done|]. pose proof (Z.pow_pos_nonneg 2 (k - 1)). replace k with (Z.succ (k - 1)) by lia.
    apply Z.log2_up_unique; [lia|]. replace (Z.pred (Z.succ (k - 1))) with (k - 1) by lia.
    replace (Z.succ (k - 1)) with k by lia. split; [apply Z.lt_le_trans with (2^(k - 1) + 1); [lia|apply Z.div_le_lower_bound; lia]|].
    apply Z.lt_succ_r, Z.div_lt_upper_bound; lia.
  - intros. by exists 1%nat.
  - intros. by exists 1%nat.
  - intros. by exists 1%nat.
  - intros. by exists 1%nat.
  - intros st w Hw. assert (w = 8) as -> by lia. by exists 1%nat.
  - intros st t s a n [m Hm] _. exists (S m). cbn [layout64]. by rewrite Hm.
  - intros st ts offs n al s Hts Hs. destruct (placed_place _ _ _ _ _ _ _ Hts) as [m Hm]. exists (S m). cbn [layout64].
    rewrite Hm. simpl. by rewrite (round_up _ _ _ Hs).
  - intros st ts ss Hts. destruct (packed_sum _ _ _ Hts) as [m Hm]. exists (S m). cbn [layout64]. by rewrite Hm.
  - intros st id name fields s a Hid [m Hm]. exists (S m). cbn [layout64]. by rewrite Hid.
  - intros st st' t s a Hk [m Hm]. exists m. by eapply layout64_mono.
  - intros st t s a s' a' [n Hn] [m Hm].
    apply (layout64_mono n (n `max` m) st st ltac:(lia) (kept_refl st)) in Hn.
    apply (layout64_mono m (n `max` m) st st ltac:(lia) (kept_refl st)) in Hm. rewrite Hn in Hm. by injection Hm.
Qed.
End Layout64.

(** ** A module of types *)

Module Examples.
Import SemaExample Layout64.
#[export] Instance linux : Triple := {| triple_arch := X86_64; triple_os := LinuxOs |}.

Definition field (name : string) (ty : Z) : StructField := {| sf_name := bytes_of name; sf_ty := ty |}.
Definition variant (name : string) (ty : option Z) : UnionField := {| uf_name := bytes_of name; uf_ty := ty |}.
Definition in_module (i : Z) : NamespaceType := {| ns_inst := {| Value.module := 0; Value.inst := i |}; captures := [] |}.
Definition struct (name : string) (fields : list StructField) : Value :=
  VStruct {| struct_name := bytes_of name; struct_fields := fields; layout := Standard; struct_namespace := 0; struct_linear := false |}.
Definition union (name : string) (tag : option Z) (fields : list UnionField) : Value :=
  VUnion {| union_name := bytes_of name; union_tag_ty := tag; union_fields := fields; union_namespace := 0; union_linear := false |}.

(** The types of
    [let E = enum(u8) { a, b }; let T = union(E) { a: u64, b: [9]u8 }; let S = struct { x: u8, t: T, y: u8 };]
    [let U = union { a: u64, b: [8]u8 }; let P = struct { x: u8, u: U };]
    with the constant [P { x: 1, u: U { b: 0 ... } }]. *)
Record Names := { u8_ : Z; t_ : Z; s_ : Z; u_ : Z; p_ : Z; constant_ : Z }.
Definition build : res (Names * Store) :=
  v ← ValueStore.new 1;
  '(u8_, v) ← ValueStore.intern_trivial v (KType (Int false 8));
  '(u64_, v) ← ValueStore.intern_trivial v (KType (Int false 64));
  '(c0, v) ← ValueStore.intern_trivial v (KInt u8_ (Anyint.from_signed 0));
  '(c1, v) ← ValueStore.intern_trivial v (KInt u8_ (Anyint.from_signed 1));
  '(arr9, v) ← ValueStore.intern_trivial v (KType (Array {| elem_ty := u8_; array_len := 9 |}));
  '(arr8, v) ← ValueStore.intern_trivial v (KType (Array {| elem_ty := u8_; array_len := 8 |}));
  '(e_, v) ← ValueStore.intern_non_trivial v (KType (Enum (in_module 1))) (VEnum {| enum_name := bytes_of "E"; enum_tag_ty := u8_;
     enum_fields := [{| ef_name := bytes_of "a"; ef_value := c0 |}; {| ef_name := bytes_of "b"; ef_value := c1 |}];
     enum_namespace := 0; enum_linear := false |});
  '(_, v) ← ValueStore.intern_enum_tag_from_field_idx v e_ 0;
  '(_, v) ← ValueStore.intern_enum_tag_from_field_idx v e_ 1;
  '(t_, v) ← ValueStore.intern_non_trivial v (KType (Union (in_module 2))) (union "T" (Some e_) [variant "a" (Some u64_); variant "b" (Some arr9)]);
  '(s_, v) ← ValueStore.intern_non_trivial v (KType (Struct (in_module 3))) (struct "S" [field "x" u8_; field "t" t_; field "y" u8_]);
  '(u_, v) ← ValueStore.intern_non_trivial v (KType (Union (in_module 4))) (union "U" None [variant "a" (Some u64_); variant "b" (Some arr8)]);
  '(p_, v) ← ValueStore.intern_non_trivial v (KType (Struct (in_module 5))) (struct "P" [field "x" u8_; field "u" u_]);
  '(bytes, v) ← ValueStore.intern_trivial v (KAggregate arr8 [c0; c0; c0; c0; c0; c0; c0; c0]);
  '(u, v) ← ValueStore.intern_trivial v (KUnion u_ None (Some bytes));
  '(constant_, v) ← ValueStore.intern_trivial v (KAggregate p_ [c1; u]);
  Ret ({| u8_ := u8_; t_ := t_; s_ := s_; u_ := u_; p_ := p_; constant_ := constant_ |}, v).

Definition names : Names := match build with Ret (n, _) => n | Fault _ => {| u8_ := 0; t_ := 0; s_ := 0; u_ := 0; p_ := 0; constant_ := 0 |} end.
Definition store : Store :=
  match build with Ret (_, v) => v | Fault _ => ValueStore.mk (ShardedMap.ShardedIndexMap.mk []) (common_of []) end.
Definition compiled : Cu := unit_of store.
Abbreviation lays ty := (type_layout 8 (values compiled) (target compiled) ty).


Lemma some_ptr : exists k, 1 <= k <= 3 /\ ptr_width_in_bits (target compiled) = 8 * 2^k.
Proof. by exists 3. Qed.

Abbreviation known ty := (regular store (target compiled) ty).
Lemma int_known ty bits k x : ValueStore.type_at store ty = Ret (Int false bits, x) -> 0 <= k <= 4 ->
  8 * (2^k - 1) < bits <= 8 * 2^k -> known ty.
Proof. intros Hty Hk Hb. eapply reg_scalar; [exact Hty|]. exists k. split; [exact Hk|exact Hb]. Qed.
Lemma u8_known : known (u8_ names).
Proof. eapply (int_known _ 8 0); [vm_compute; reflexivity|lia|lia]. Qed.

(** The definition of [T], as it is in the store. *)
Definition t_union : TypeUnion := Eval vm_compute in
  match ValueStore.type_at store (t_ names) with
  | Ret (_, VUnion u) => u
  | _ => {| union_name := []; union_tag_ty := None; union_fields := []; union_namespace := 0; union_linear := false |}
  end.
Lemma t_type : ValueStore.type_at store (t_ names) = Ret (Union (in_module 2), VUnion t_union).
Proof. vm_compute. reflexivity. Qed.
Lemma t_tag i : (i < 2)%nat -> tag_ready store (default 0 (union_tag_ty t_union)) i.
Proof.
  intros Hi. exists (in_module 1). assert (i = 0 \/ i = 1)%nat as [->| ->] by lia;
    eexists _, _, _, _, false, 8, _; (split; [vm_compute; reflexivity|]); (split; [vm_compute; reflexivity|]);
    (split; [vm_compute; reflexivity|]); (split; [vm_compute; reflexivity|]); (split; [|vm_compute; reflexivity]).
  - apply (AnyintArith.from_signed_repr 0). lia.
  - apply (AnyintArith.from_signed_repr 1). lia.
Qed.
Lemma t_ready : union_ready store (target compiled) (t_ names) t_union.
Proof.
  constructor.
  - intros t i Ht Hi. apply t_tag in Hi. rewrite Ht in Hi. exact Hi.
  - exists 4%nat. eexists. split; [vm_compute; reflexivity|]. vm_compute. split_and!; [reflexivity|reflexivity|discriminate].
  - discriminate.
Qed.
Lemma t_known : known (t_ names).
Proof.
  eapply reg_union; [exact t_type| | |exact t_ready].
  - intros f t Hf Ht. apply elem_of_cons in Hf as [->|Hf]; [|apply list_elem_of_singleton in Hf as ->]; injection Ht as <-.
    + eapply (int_known _ 64 3); [vm_compute; reflexivity|lia|lia].
    + eapply reg_array; [vm_compute; reflexivity|exact u8_known|simpl; lia].
  - intros t Ht. injection Ht as <-. eapply reg_enum; [vm_compute; reflexivity|exact u8_known].
Qed.
Lemma s_known : known (s_ names).
Proof.
  eapply reg_struct; [vm_compute; reflexivity|reflexivity|]. intros f Hf.
  apply elem_of_cons in Hf as [->|Hf]; [exact u8_known|]. apply elem_of_cons in Hf as [->|Hf]; [exact t_known|].
  apply list_elem_of_singleton in Hf as ->. exact u8_known.
Qed.

Lemma lowered_types_fit_witness : lays (s_ names) = Ret (ValueLayout.mk 32 8) /\
  exists ts l, for_each (lower_type_basic (KN := knot 64 11) 64) [t_ names; s_ names] (new_lowerer compiled) = Ret (ts, l) /\
    exists t, ts !! 1%nat = Some t /\ abi (structs l) t 32 8.
Proof.
  assert (lays (s_ names) = Ret (ValueLayout.mk 32 8)) as Hlay by (vm_compute; reflexivity). split; [exact Hlay|].
  destruct (lowered_types_fit 64 compiled some_ptr eq_refl 8 11 [t_ names; s_ names]) as (ts & l & Hrun & Hts).
  - exact (le_n 8).
  - lia.
  - intros ty [->|[->|[]%elem_of_nil]%elem_of_cons]%elem_of_cons.
    + split; [exact t_known|eexists; vm_compute; reflexivity].
    + split; [exact s_known|eexists; exact Hlay].
  - exists ts, l. split; [exact Hrun|]. destruct (Forall2_lookup_l _ _ _ 1%nat (s_ names) Hts eq_refl) as (t & Ht & Hfit).
    exists t. split; [exact Ht|]. exact (proj2 (Hfit _ Hlay)).
Defined.
End Examples.

Section Misplaced.
Import SemaExample Examples.
Context `{DL : !DataLayout, DLL : !DataLayoutLaws 64}.

Lemma misplaced_run : exists fields l,
  lower_interned_value_as_llvm_value (KN := knot 64 8) 64 (constant_ names) (new_lowerer compiled)
    = Ret (StructConst (StructTy [IntTy 8; NamedTy 0] false) fields, l) /\
  exists st, structs l = (bytes_of "U.b", Some [ArrayTy (IntTy 8) 8]) :: st.
Proof.
  assert (match lower_interned_value_as_llvm_value (KN := knot 64 8) 64 (constant_ names) (new_lowerer compiled) with
          | Ret (StructConst t _, l) => Some (t, head (structs l))
          | _ => None
          end = Some (StructTy [IntTy 8; NamedTy 0] false, Some (bytes_of "U.b", Some [ArrayTy (IntTy 8) 8]))) as H
    by (vm_compute; reflexivity).
  destruct (lower_interned_value_as_llvm_value _ _) as [[c l]|]; [|discriminate H]. destruct c as [| | | | |t fields| | | |]; try discriminate H.
  exists fields, l. injection H as -> Hst. split; [reflexivity|]. destruct (structs l) as [|x st]; [discriminate Hst|].
  exists st. injection Hst as ->. reflexivity.
Qed.

End Misplaced.

End LlvmSpec.
