(* ===== verification/Compile.v ===== *)
(** * A compilation ([src/compile_unit.rs])

    [CompilationUnit::new], the parsing jobs, which discover the modules that a
    program imports, and [CompilationUnit::compile] up to the functions handed to
    code generation.  Files, paths and the host are parameters.  The jobs of a
    scope run one after the other, in the order in which they are spawned. *)

From S2P Require Import Prelude Words Bytes Span Token Lexer Diagnostic Render Ast HashIndex ShardedMap.
From S2P Require Import Anyint Value ValueStore ValueLayout ParserExpr Vuir Vtir LowerState Lower.
From S2P Require Import SemaState SemaAccess SemaCall SemaJobs.
From stdpp Require Import gmap.

#[local] Open Scope Z_scope.

(** ** The host *)

(** The triple of the host ([target_lexicon]): its names in lower case, whether it
    is big-endian, the width of a pointer. *)
Class Host := {
  arch_name : list Z;
  platform_name : list Z;
  abi_name : list Z;
  big_endian : bool;
  pointer_width : Z;
}.

(** What opening and reading a file gives. *)
Inductive FileResult : Set :=
  | CannotOpen
  | CannotRead (err : list Z)
  | Contents (text : list Z).
(** Files by their path, and the directory of the standard library. *)
Class Files := { read_file : list Z -> FileResult; std_path : list Z }.

Module Compile.
Import Ast LowerState Sema.

Definition name_in (s : list Z) (names : list string) : bool :=
  existsb (fun n => bool_decide (s = bytes_of n)) names.
Definition starts_with (prefix s : list Z) : bool := bool_decide (is_Some (SemaJobs.strip_prefix prefix s)).
Definition ends_with (suffix s : list Z) : bool := bool_decide (is_Some (SemaJobs.strip_suffix suffix s)).

(** The names that are their own tag. *)
Definition arch_names : list string :=
  ["aarch64"; "aarch64_be"; "amdgcn"; "arm"; "armeb"; "avr"; "hexagon"; "loongarch64"; "m68k"; "mips"; "mipsel";
   "mips64"; "mips64el"; "nvptx64"; "powerpc"; "powerpc64"; "powerpc64le"; "riscv32"; "riscv64"; "s390x"; "sparc";
   "sparc64"; "thumb"; "thumbeb"; "wasm32"; "wasm64"; "xcore"; "xtensa"; "xtensaeb"; "x86_64"]%string.
Definition map_arch_to_builtin_tag (arch : list Z) : list Z :=
  if name_in arch arch_names then arch
  else if starts_with (bytes_of "i") arch && ends_with (bytes_of "86") arch then bytes_of "x86"
  else bytes_of "x86_64".

Definition platform_names : list string :=
  ["windows"; "linux"; "ios"; "tvos"; "watchos"; "freebsd"; "openbsd"; "netbsd"; "dragonfly"; "haiku"; "illumos";
   "emscripten"; "uefi"; "fuchsia"; "hurd"; "rtems"; "hermit"; "plan9"; "serenity"; "contiki"; "managarm"]%string.
Definition map_platform_to_builtin_tag (platform : list Z) : list Z :=
  if name_in platform platform_names then platform
  else if name_in platform ["macos"; "macosx"; "darwin"]%string then bytes_of "macos"
  else if name_in platform ["visionos"; "xros"]%string then bytes_of "visionos"
  else if name_in platform ["solaris"]%string then bytes_of "illumos"
  else if name_in platform ["wasi"; "wasip1"; "wasip2"]%string then bytes_of "wasi"
  else if name_in platform ["none"; "unknown"]%string then bytes_of "freestanding"
  else bytes_of "other".

Definition map_platform_family_to_builtin_tag (platform : list Z) : list Z :=
  if name_in platform ["windows"]%string then bytes_of "windows"
  else if name_in platform
    ["linux"; "macos"; "ios"; "tvos"; "watchos"; "visionos"; "freebsd"; "openbsd"; "netbsd"; "dragonfly"; "haiku";
     "illumos"; "fuchsia"; "hurd"; "hermit"; "emscripten"]%string then bytes_of "posix"
  else if name_in platform ["wasi"]%string then bytes_of "wasi"
  else if name_in platform ["freestanding"; "uefi"]%string then bytes_of "freestanding"
  else if name_in platform ["amdhsa"; "amdpal"; "cuda"; "mesa3d"; "nvcl"; "opencl"; "opengl"; "vulkan"]%string
    then bytes_of "gpu"
  else bytes_of "other".

Definition map_abi_to_builtin_tag (abi platform : list Z) : list Z :=
  if name_in abi ["msvc"]%string then bytes_of "msvc"
  else if name_in abi
    ["gnu"; "gnuabi64"; "gnueabi"; "gnueabihf"; "gnuspe"; "gnux32"; "gnu_ilp32"; "gnullvm"]%string
    then bytes_of "gnu"
  else if name_in abi ["musl"; "musleabi"; "musleabihf"; "muslabi64"]%string then bytes_of "musl"
  else if name_in abi ["android"; "androideabi"]%string then bytes_of "android"
  else if name_in abi ["macabi"]%string then bytes_of "apple"
  else if name_in abi ["none"]%string then bytes_of "none"
  else if name_in abi ["unknown"]%string then
    if name_in platform ["macos"; "ios"; "tvos"; "watchos"; "visionos"]%string then bytes_of "apple"
    else if name_in platform ["wasi"]%string then bytes_of "wasi"
    else bytes_of "none"
  else bytes_of "other".

Definition map_endianness_to_builtin_tag (big : bool) : list Z := bytes_of (if big then "big" else "little").

(** [ResolvedTargetInfo], with the tags of the module [builtin]. *)
Record ResolvedTargetInfo : Set := {
  builtin_arch_tag : list Z;
  builtin_platform_tag : list Z;
  builtin_platform_family_tag : list Z;
  builtin_abi_tag : list Z;
  builtin_endianness_tag : list Z;
  winapi_uses_stdcall : bool;
  ptr_width_in_bits : Z;
}.

Definition resolve_host_default `{!Host} : ResolvedTargetInfo :=
  let arch := map_arch_to_builtin_tag arch_name in
  let platform := map_platform_to_builtin_tag platform_name in
  {| builtin_arch_tag := arch;
     builtin_platform_tag := platform;
     builtin_platform_family_tag := map_platform_family_to_builtin_tag platform;
     builtin_abi_tag := map_abi_to_builtin_tag abi_name platform;
     builtin_endianness_tag := map_endianness_to_builtin_tag big_endian;
     winapi_uses_stdcall := name_in platform ["windows"]%string && name_in arch ["x86"]%string;
     ptr_width_in_bits := pointer_width |}.

(** The variants that [std/Target.vif] declares for the tags. *)
Definition arch_variants : list string :=
  ["aarch64"; "aarch64_be"; "alpha"; "amdgcn"; "arc"; "arceb"; "arm"; "armeb"; "avr"; "bpfeb"; "bpfel"; "csky";
   "hexagon"; "hppa"; "hppa64"; "kalimba"; "kvx"; "lanai"; "loongarch32"; "loongarch64"; "m68k"; "microblaze";
   "microblazeel"; "mips"; "mipsel"; "mips64"; "mips64el"; "msp430"; "nvptx"; "nvptx64"; "or1k"; "powerpc";
   "powerpcle"; "powerpc64"; "powerpc64le"; "propeller"; "riscv32"; "riscv32be"; "riscv64"; "riscv64be"; "s390x";
   "sh"; "sheb"; "sparc"; "sparc64"; "spirv32"; "spirv64"; "thumb"; "thumbeb"; "ve"; "wasm32"; "wasm64"; "x86_16";
   "x86"; "x86_64"; "xcore"; "xtensa"; "xtensaeb"]%string.
Definition platform_variants : list string :=
  ["freestanding"; "other"; "contiki"; "fuchsia"; "hermit"; "managarm"; "haiku"; "hurd"; "illumos"; "linux"; "plan9";
   "rtems"; "serenity"; "dragonfly"; "freebsd"; "netbsd"; "openbsd"; "driverkit"; "ios"; "maccatalyst"; "macos";
   "tvos"; "visionos"; "watchos"; "windows"; "uefi"; "3ds"; "ps3"; "ps4"; "ps5"; "vita"; "emscripten"; "wasi";
   "amdhsa"; "amdpal"; "cuda"; "mesa3d"; "nvcl"; "opencl"; "opengl"; "vulkan"]%string.
Definition family_variants : list string := ["windows"; "posix"; "wasi"; "freestanding"; "gpu"; "other"]%string.
Definition abi_variants : list string :=
  ["none"; "msvc"; "gnu"; "musl"; "android"; "apple"; "wasi"; "other"]%string.
Definition endianness_variants : list string := ["little"; "big"]%string.

Lemma name_in_subset s l l' : forallb (fun n => name_in (bytes_of n) l') l = true -> name_in s l = true ->
  name_in s l' = true.
Proof.
  intros H (n & Hn & ->%bool_decide_eq_true)%existsb_exists. by apply (proj1 (forallb_forall _ _) H).
Qed.

(** C24: Whatever the host, the tags of the target are variants of the enums that
    the standard library declares for them, and its family is never [gpu]. *)
Theorem target_tags_declared `{HO : Host} :
  let t := resolve_host_default in
  name_in (builtin_arch_tag t) arch_variants = true /\
  name_in (builtin_platform_tag t) platform_variants = true /\
  name_in (builtin_platform_family_tag t) family_variants = true /\
  builtin_platform_family_tag t <> bytes_of "gpu" /\
  name_in (builtin_abi_tag t) abi_variants = true /\
  name_in (builtin_endianness_tag t) endianness_variants = true.
Proof.
  intros t. subst t. unfold resolve_host_default, map_endianness_to_builtin_tag.
  cbn [builtin_arch_tag builtin_platform_tag builtin_platform_family_tag builtin_abi_tag builtin_endianness_tag].
  split_and!.
  - unfold map_arch_to_builtin_tag. destruct (name_in arch_name arch_names) eqn:E.
    + by apply (name_in_subset _ arch_names).
    + by case_match.
  - unfold map_platform_to_builtin_tag. destruct (name_in platform_name platform_names) eqn:E.
    + by apply (name_in_subset _ platform_names).
    + by repeat case_match.
  - unfold map_platform_family_to_builtin_tag. by repeat case_match.
  - unfold map_platform_to_builtin_tag. destruct (name_in platform_name platform_names) eqn:E.
    + apply existsb_exists in E as (n & Hn & ->%bool_decide_eq_true).
      apply (proj1 (forallb_forall
        (fun n => negb (bool_decide (map_platform_family_to_builtin_tag (bytes_of n) = bytes_of "gpu")))
        platform_names)) in Hn; [|by vm_compute].
      by apply negb_true_iff, bool_decide_eq_false in Hn.
    + by repeat case_match.
  - unfold map_abi_to_builtin_tag. by repeat case_match.
  - by destruct big_endian.
Qed.

(** The declaration of the target that is added to the text of [builtin]. *)
Definition newline : list Z := [10].
Definition tabs (n : nat) : list Z := replicate n 9.
Definition inject_builtin_declarations (t : ResolvedTargetInfo) : list Z :=
  newline ++ bytes_of "pub const target: Target = Target {" ++ newline ++
  tabs 1 ++ bytes_of ".cpu = Target.CPU {" ++ newline ++
  tabs 3 ++ bytes_of ".arch = ." ++ builtin_arch_tag t ++ newline ++
  tabs 1 ++ bytes_of "}," ++ newline ++
  tabs 1 ++ bytes_of ".platform = ." ++ builtin_platform_tag t ++ bytes_of "," ++ newline ++
  tabs 1 ++ bytes_of ".family = ." ++ builtin_platform_family_tag t ++ bytes_of "," ++ newline ++
  tabs 1 ++ bytes_of ".abi = ." ++ builtin_abi_tag t ++ bytes_of "," ++ newline ++
  tabs 1 ++ bytes_of ".endianness = ." ++ builtin_endianness_tag t ++ bytes_of "," ++ newline ++
  tabs 1 ++ bytes_of ".ptr_width = " ++ decimal (ptr_width_in_bits t) ++ bytes_of "," ++ newline ++
  bytes_of "}" ++ newline.

(** ** The state of a compilation *)

(** The fields of a module that the analysis does not read. *)
Record ModuleInfo : Set := mk_info {
  first_imported_by : option DiagSpan.DiagSpan;
  module_source : option (list Z);
  module_imports : list LowerState.Import;
  diagnostics : list Diagnostic.Diagnostic;
}.

Section Compile.
Context `{ST : !Setting, MX : !Memx, HF : !Lexer.Hashify, PA : !Paths, HO : !Host, FI : !Files, TE : !Terminal}.
(** The depth of the recursion of the parser and of the lowering. *)
Variables parse_fuel lower_fuel : nat.

Record Unit := mk_unit {
  front_cu : Cu;
  infos : list ModuleInfo;
  failed_modules : list Z;
}.

Definition new_module (p : list Z) : Module_ := mk_module p None None ModuleAnalyzeState.Pending.
Definition new_info (imported_by : option DiagSpan.DiagSpan) : ModuleInfo := mk_info imported_by None [] [].

(** The modules that are known before any is read, by their number. *)
Definition known_modules : KnownModules :=
  {| root_module := 0; builtin_prelude_module := 1; std_module := 2; builtin_module := 3; std_rt_module := 4 |}.
Definition known_paths (root_path : list Z) : list (list Z) :=
  [root_path; path_join std_path (bytes_of "builtin_prelude.vif"); path_join std_path (bytes_of "std.vif");
   path_join std_path (bytes_of "builtin.vif"); path_join std_path (bytes_of "rt.vif")].

(** A later path takes the number of an equal earlier one. *)
Fixpoint number_paths (i : Z) (paths : list (list Z)) (m : gmap (list Z) Z) : gmap (list Z) Z :=
  match paths with
  | [] => m
  | p :: paths => number_paths (i + 1) paths (<[p := i]> m)
  end.

Definition new_unit (values : Sema.Store) (root_path : list Z) : Unit :=
  let paths := known_paths root_path in
  {| front_cu := mk_cu values {| ValueLayout.ptr_width_in_bits := ptr_width_in_bits resolve_host_default |} [] [] ∅
                   known_modules (map new_module paths) (number_paths 0 paths ∅) ∅ [] [] ∅ [];
     infos := map (fun _ => new_info None) paths;
     failed_modules := [] |}.

(** ** Parsing jobs *)

Definition set_infos (l : list ModuleInfo) (u : Unit) : Unit := mk_unit (front_cu u) l (failed_modules u).
Definition set_front_cu (c : Cu) (u : Unit) : Unit := mk_unit c (infos u) (failed_modules u).
Definition add_failed (m : Z) (u : Unit) : Unit := mk_unit (front_cu u) (infos u) (failed_modules u ++ [m]).

Definition update_info (m : Z) (f : ModuleInfo -> ModuleInfo) (u : Unit) : res Unit :=
  i ← get_idx (infos u) (Z.to_nat m);
  l ← set_idx (infos u) (Z.to_nat m) (f i);
  Ret (set_infos l u).

(** A file that cannot be read. *)
Definition fail_to_read (m : Z) (message : list Z) (u : Unit) : res Unit :=
  i ← get_idx (infos u) (Z.to_nat m);
  let diag := Diagnostic.with_message Diagnostic.error message in
  let diag := match first_imported_by i with
              | Some at_ =>
                  Diagnostic.with_label diag
                    (Label.with_message (Label.with_span Label.primary at_) (bytes_of "imported here"))
              | None => diag
              end in
  u ← update_info m (fun i => mk_info (first_imported_by i) (module_source i) (module_imports i) (diagnostics i ++ [diag])) u;
  Ret (add_failed m u).

(** The text of a module, with the end mark the lexer expects. *)
Definition full_text (m : Z) (text : list Z) : list Z :=
  text ++ (if m =? builtin_module known_modules then inject_builtin_declarations resolve_host_default else []) ++ [0].

(** [module.source.set(source).unwrap()]. *)
Definition set_source (m : Z) (source : list Z) (u : Unit) : res Unit :=
  i ← get_idx (infos u) (Z.to_nat m);
  match module_source i with
  | Some _ => panic
  | None => update_info m (fun i => mk_info (first_imported_by i) (Some source) (module_imports i) (diagnostics i)) u
  end.

(** The file that an import names, unless it names a well-known module. *)
Definition import_file (importer : list Z) (i : LowerState.Import) : res (option (list Z)) :=
  assert_ (utf8_valid (LowerState.import_path i)) ;;
  if name_in (LowerState.import_path i) ["root"; "std"; "builtin"]%string then Ret None
  else
    match path_parent importer with
    | None => panic
    | Some dir => Ret (Some (path_normalize (path_join dir (LowerState.import_path i))))
    end.

(** A module for a path that has none; its number, when it is new. *)
Definition discover (importer : Z) (span : Span.Span) (p : list Z) (u : Unit) : Unit * option Z :=
  let c := front_cu u in
  match module_path_to_id c !! p with
  | Some _ => (u, None)
  | None =>
      let m := Z.of_nat (length (modules c)) in
      let c := mk_cu (values c) (target c) (decls c) (namespaces c) (sema_errors c) (known c)
                 (modules c ++ [new_module p]) (<[p := m]> (module_path_to_id c)) (sema_jobs c) (spawned c)
                 (codegen_tasks c) (type_to_type_info_id c) (type_info_entries c) in
      (mk_unit c (infos u ++ [new_info (Some (DiagSpan.mk importer span))]) (failed_modules u), Some m)
  end.

Fixpoint discover_imports (importer : Z) (importer_path : list Z) (imports : list LowerState.Import) (u : Unit)
    : res (Unit * list Z) :=
  match imports with
  | [] => Ret (u, [])
  | i :: imports =>
      f ← import_file importer_path i;
      let '(u, m) := match f with Some p => discover importer (LowerState.import_span i) p u | None => (u, None) end in
      '(u, ms) ← discover_imports importer importer_path imports u;
      Ret (u, option_list m ++ ms)
  end.

(** [module.vuir.set(vuir).unwrap()], with the imports it holds. *)
Definition set_module_vuir (m : Z) (v : LowerState.Vuir) (u : Unit) : res Unit :=
  md ← get_idx (modules (front_cu u)) (Z.to_nat m);
  match module_vuir md with
  | Some _ => panic
  | None =>
      l ← set_idx (modules (front_cu u)) (Z.to_nat m)
            (mk_module (path md) (Some (vuir_instructions v)) (module_namespace md) (sema_state md));
      u ← update_info m (fun i => mk_info (first_imported_by i) (module_source i) (vuir_imports v) (diagnostics i)) u;
      Ret (set_front_cu (set_modules l (front_cu u)) u)
  end.

(** The text of a module as untyped instructions. *)
Definition parse_text (m : Z) (source : list Z) (values : Sema.Store)
    : res ((LowerState.Vuir + list Diagnostic.Diagnostic) * Sema.Store) :=
  p ← ParserExpr.new source m;
  '(ast, _) ← ParserExpr.run_module parse_fuel p;
  match ast with
  | inr diags => Ret (inr diags, values)
  | inl ast => Lower.to_vuir lower_fuel values source m ast
  end.

(** A parsing job, with the modules whose jobs it spawns. *)
Definition job_parse_module (m : Z) (u : Unit) : res (Unit * list Z) :=
  md ← get_idx (modules (front_cu u)) (Z.to_nat m);
  match read_file (path md) with
  | CannotOpen =>
      u ← fail_to_read m (bytes_of "cannot open module `" ++ path md ++ bytes_of "`") u; Ret (u, [])
  | CannotRead err =>
      u ← fail_to_read m (bytes_of "cannot read module `" ++ path md ++ bytes_of "`: " ++ err) u; Ret (u, [])
  | Contents text =>
      let source := full_text m text in
      '(r, v) ← parse_text m source (values (front_cu u));
      let u := set_front_cu (set_values v (front_cu u)) u in
      match r with
      | inr diags =>
          u ← set_source m source (add_failed m u);
          u ← update_info m (fun i => mk_info (first_imported_by i) (module_source i) (module_imports i) diags) u;
          Ret (u, [])
      | inl vuir =>
          u ← set_source m source u;
          '(u, ms) ← discover_imports m (path md) (vuir_imports vuir) u;
          u ← set_module_vuir m vuir u;
          Ret (u, ms)
      end
  end.

(** The jobs of the scope: [fuel] bounds the number of modules. *)
Fixpoint parse_modules (fuel : nat) (jobs : list Z) (u : Unit) : res Unit :=
  match jobs with
  | [] => Ret u
  | m :: jobs =>
      match fuel with
      | O => diverge
      | S fuel => '(u, ms) ← job_parse_module m u; parse_modules fuel (jobs ++ ms) u
      end
  end.

(** ** [compile] *)

(** What it prints as errors, or the functions it hands to code generation. *)
Inductive Outcome :=
  | ParsingError (stderr : list Z)
  | SemanticError (stderr : list Z)
  | Generated (tasks : list (Z * Body)).

Definition module_texts (u : Unit) : list Render.ModuleText :=
  zip_with (fun md i => {| Render.path := path md; Render.source := module_source i |}) (modules (front_cu u)) (infos u).
Fixpoint write_all (texts : list Render.ModuleText) (diags : list Diagnostic.Diagnostic) : res (list Z) :=
  match diags with
  | [] => Ret []
  | d :: diags => text ← Render.write texts d; rest ← write_all texts diags; Ret (text ++ rest)
  end.

(** Only the first module that failed is reported.  The errors of the analysis are
    in the order of a hash map over the modules, here that of [map_to_list]. *)
Definition outcome (u : Unit) : res Outcome :=
  match failed_modules u with
  | m :: _ =>
      i ← get_idx (infos u) (Z.to_nat m);
      text ← write_all (module_texts u) (diagnostics i);
      Ret (ParsingError text)
  | [] =>
      if bool_decide (sema_errors (front_cu u) = ∅) then Ret (Generated (codegen_tasks (front_cu u)))
      else
        text ← write_all (module_texts u) (concat (map_to_list (sema_errors (front_cu u))).*2);
        Ret (SemanticError text)
  end.

(** [scan] is the order in which the hash map lists the known modules. *)
Definition compile (fuel : nat) (scan : list Z) (u : Unit) : res Outcome :=
  u ← parse_modules fuel scan u;
  '(_, s) ← SemaJobs.compile_modules fuel (Sema.new (front_cu u) [] 0 0 None);
  outcome (set_front_cu (cu s) u).

(** ** What parsing discovers *)

Abbreviation ids u := (module_path_to_id (front_cu u)).
Abbreviation mods u := (modules (front_cu u)).

(** A file that an import of a module at [p] names has a module. *)
Definition resolved (u : Unit) (p : list Z) (i : LowerState.Import) : Prop :=
  forall f, import_file p i = Ret (Some f) -> is_Some (ids u !! f).
(** Every path that has a number is the path of that module; the imports of every
    parsed module are resolved. *)
Record discovered (u : Unit) : Prop := {
  d_length : length (infos u) = length (mods u);
  d_ids : forall f k, ids u !! f = Some k ->
    exists md, mods u !! Z.to_nat k = Some md /\ path md = f;
  d_imports : forall m md i, mods u !! m = Some md -> infos u !! m = Some i ->
    Forall (resolved u (path md)) (module_imports i);
}.

(** A module that has been through its job. *)
Definition processed (u : Unit) (m : nat) : Prop :=
  (exists md, mods u !! m = Some md /\ is_Some (module_vuir md)) \/ Z.of_nat m ∈ failed_modules u.

(** What a job keeps. *)
Record keeps (u u' : Unit) : Prop := {
  k_modules : forall m md, mods u !! m = Some md -> exists md', mods u' !! m = Some md' /\ path md' = path md;
  k_ids : ids u ⊆ ids u';
  k_processed : forall m, processed u m -> processed u' m;
}.
#[local] Instance keeps_preorder : PreOrder keeps.
Proof.
  split.
  - intros u. split; eauto.
  - intros u1 u2 u3 [a b c] [a' b' c']. split; [|by etrans|auto].
    intros m md H. destruct (a m md H) as (md2 & H2 & E2). destruct (a' m md2 H2) as (md3 & H3 & E3).
    exists md3. split; [done|congruence].
Qed.

Lemma resolved_mono u u' p i : ids u ⊆ ids u' -> resolved u p i -> resolved u' p i.
Proof. intros Hs Hr f Hf. destruct (Hr f Hf) as [k Hk]. exists k. by eapply lookup_weaken. Qed.


(** An update of the information of a module. *)
Lemma update_info_inv m f u u' : update_info m f u = Ret u' ->
  exists i, infos u !! Z.to_nat m = Some i /\ u' = set_infos (<[Z.to_nat m := f i]> (infos u)) u.
Proof.
  intros (i & Hi%get_idx_inv & H)%res_bind_inv. apply res_bind_inv in H as (l & [-> _]%set_idx_inv & [= <-]).
  by exists i.
Qed.
Lemma set_infos_discovered u m i i' : discovered u -> infos u !! m = Some i ->
  (forall md, mods u !! m = Some md -> Forall (resolved u (path md)) (module_imports i')) ->
  discovered (set_infos (<[m := i']> (infos u)) u).
Proof.
  intros [Hl Hd Hi] Hm Hr. split; simpl; [by rewrite length_insert|done|].
  intros k md j Hk Hj. destruct (decide (k = m)) as [->|Hne].
  - rewrite list_lookup_insert_eq in Hj by (by eapply lookup_lt_Some). injection Hj as <-. by apply Hr.
  - rewrite list_lookup_insert_ne in Hj by done. by eapply Hi.
Qed.
Lemma update_info_step m f u u' : (forall i, module_imports (f i) = module_imports i) ->
  update_info m f u = Ret u' -> discovered u -> discovered u' /\ keeps u u'.
Proof.
  intros Hf (i & Hi & ->)%update_info_inv Hd. split; [|by split; eauto].
  eapply set_infos_discovered; [done|done|]. intros md Hmd. rewrite Hf. by eapply d_imports.
Qed.
Lemma add_failed_keeps m u : keeps u (add_failed m u).
Proof.
  split; [eauto|done|]. intros k [?|H]; [by left|right; simpl; apply elem_of_app; by left].
Qed.
Lemma add_failed_processed m u : 0 <= m -> processed (add_failed m u) (Z.to_nat m).
Proof. intros. right. simpl. rewrite Z2Nat.id by done. apply elem_of_app. right. by left. Qed.

(** A path that is new gets the next number. *)
Lemma discover_step importer span f u u' m : discover importer span f u = (u', m) -> discovered u ->
  discovered u' /\ keeps u u' /\ is_Some (ids u' !! f) /\
  (forall k, (k < length (mods u'))%nat -> (k < length (mods u))%nat \/ m = Some (Z.of_nat k)) /\
  (forall k, m = Some k -> 0 <= k).
Proof.
  unfold discover. destruct (ids u !! f) as [k|] eqn:Hf; intros [= <- <-] Hd.
  { split_and!; [done|reflexivity|by exists k|by left|done]. }
  destruct (Hd) as [Hl Hi Hr].
  assert (forall j x, mods u !! j = Some x -> (mods u ++ [new_module f]) !! j = Some x) as Hold
    by (intros; by apply lookup_app_l_Some).
  assert (ids u ⊆ <[f := Z.of_nat (length (mods u))]> (ids u)) as Hsub by (by apply insert_subseteq).
  split_and!; simpl.
  - split; simpl.
    + rewrite !length_app. simpl. lia.
    + intros g k Hg. destruct (decide (g = f)) as [->|Hne].
      * rewrite lookup_insert_eq in Hg. injection Hg as <-. rewrite Nat2Z.id, list_lookup_middle by done. by eexists.
      * rewrite lookup_insert_ne in Hg by done. destruct (Hi g k Hg) as (md & Hmd & E). exists md. auto.
    + intros j md i Hj Hinf. destruct (decide (j < length (mods u))%nat) as [Hlt|Hge].
      * rewrite lookup_app_l in Hj by done. rewrite lookup_app_l in Hinf by lia.
        eapply Forall_impl; [by eapply Hr|]. intros x. by apply resolved_mono.
      * rewrite lookup_app_r in Hinf by lia. destruct (j - length (infos u))%nat as [|n]; [|done].
        injection Hinf as <-. constructor.
  - split; simpl; [intros j x Hj; exists x; auto|done|].
    intros j [(x & Hx & Hs)|?]; [left; exists x; auto|by right].
  - exists (Z.of_nat (length (mods u))). apply lookup_insert_eq.
  - intros k Hk. rewrite length_app in Hk. simpl in Hk.
    destruct (decide (k < length (mods u))%nat); [by left|right]. do 2 f_equal. lia.
  - intros k [= <-]. lia.
Qed.

Lemma discover_imports_step importer p imports u u' ms :
  discover_imports importer p imports u = Ret (u', ms) -> discovered u ->
  discovered u' /\ keeps u u' /\ Forall (resolved u' p) imports /\
  (forall k, (k < length (mods u'))%nat -> (k < length (mods u))%nat \/ Z.of_nat k ∈ ms) /\
  (forall k, k ∈ ms -> 0 <= k).
Proof.
  revert u u' ms. induction imports as [|i imports IH]; simpl; intros u u' ms H Hd.
  { injection H as <- <-. split_and!; [done|reflexivity|done|by left|by intros k ?%elem_of_nil]. }
  apply res_bind_inv in H as (f & Hf & H).
  destruct (match f with Some p => _ | None => _ end) as [u1 m] eqn:Hm.
  apply res_bind_inv in H as ([u2 ms2] & H2 & [= <- <-]).
  assert (discovered u1 /\ keeps u u1 /\ resolved u1 p i /\
    (forall k, (k < length (mods u1))%nat -> (k < length (mods u))%nat \/ m = Some (Z.of_nat k)) /\
    (forall k, m = Some k -> 0 <= k)) as (Hd1 & K1 & R1 & L1 & P1).
  { destruct f as [f|].
    - destruct (discover_step _ _ _ _ _ _ Hm Hd) as (? & ? & Hs & ? & ?). split_and!; try done.
      intros g Hg. rewrite Hf in Hg. by injection Hg as <-.
    - injection Hm as <- <-. split_and!; [done|reflexivity| |by left|done].
      intros g Hg. rewrite Hf in Hg. done. }
  destruct (IH _ _ _ H2 Hd1) as (Hd2 & K2 & R2 & L2 & P2). split_and!.
  - done.
  - by etrans.
  - constructor; [|done]. eapply resolved_mono; [apply (k_ids _ _ K2)|done].
  - intros k Hk. destruct (L2 k Hk) as [Hk1|?]; [|right; apply elem_of_app; by right].
    destruct (L1 k Hk1) as [?| ->]; [by left|right]. apply elem_of_app. left. by left.
  - intros k [Hk|Hk]%elem_of_app; [|by apply P2]. destruct m as [m|]; [|by apply elem_of_nil in Hk].
    apply list_elem_of_singleton in Hk as ->. by apply P1.
Qed.

Lemma fail_to_read_step m msg u u' : fail_to_read m msg u = Ret u' -> 0 <= m -> discovered u ->
  discovered u' /\ keeps u u' /\ processed u' (Z.to_nat m) /\ mods u' = mods u.
Proof.
  intros (i & _ & H)%res_bind_inv Hm Hd. apply res_bind_inv in H as (u1 & H & [= <-]).
  pose proof H as (j & _ & ->)%update_info_inv.
  apply update_info_step in H as [Hd1 K1]; [|done|done]. split_and!; [by destruct Hd1| |by apply add_failed_processed|done].
  etrans; [exact K1|apply add_failed_keeps].
Qed.

Lemma set_source_step m source u u' : set_source m source u = Ret u' -> discovered u ->
  discovered u' /\ keeps u u' /\ mods u' = mods u /\ failed_modules u' = failed_modules u.
Proof.
  intros (i & _ & H)%res_bind_inv Hd. destruct (module_source i); [done|].
  pose proof H as (j & _ & ->)%update_info_inv. by apply update_info_step in H as [? ?].
Qed.

Lemma set_module_vuir_step m p v u u' md : set_module_vuir m v u = Ret u' -> discovered u ->
  mods u !! Z.to_nat m = Some md -> path md = p -> Forall (resolved u p) (vuir_imports v) ->
  discovered u' /\ keeps u u' /\ processed u' (Z.to_nat m) /\ length (mods u') = length (mods u).
Proof.
  intros (md' & Hmd'%get_idx_inv & H)%res_bind_inv Hd Hmd Hp Hr. rewrite Hmd in Hmd'. injection Hmd' as <-.
  destruct (module_vuir md) eqn:Hv; [done|].
  apply res_bind_inv in H as (l & [-> Hlt]%set_idx_inv & H).
  apply res_bind_inv in H as (u1 & (i & Hi & ->)%update_info_inv & [= <-]).
  set (md2 := mk_module _ _ _ _).
  assert (forall k x, mods u !! k = Some x -> exists y, <[Z.to_nat m := md2]> (mods u) !! k = Some y /\
    path y = path x /\ (is_Some (module_vuir x) -> is_Some (module_vuir y))) as Hold.
  { intros k x Hk. destruct (decide (k = Z.to_nat m)) as [->|Hne].
    - exists md2. rewrite list_lookup_insert_eq by done. rewrite Hmd in Hk. injection Hk as <-. split_and!; [done..|intros _; by eexists].
    - exists x. by rewrite list_lookup_insert_ne. }
  split_and!.
  - split; simpl.
    + rewrite !length_insert. apply Hd.
    + intros f k Hk. destruct (d_ids _ Hd f k Hk) as (x & Hx & E). destruct (Hold _ _ Hx) as (y & Hy & E' & _).
      exists y. split; [done|congruence].
    + intros k x j Hk Hj. destruct (decide (k = Z.to_nat m)) as [->|Hne].
      * rewrite list_lookup_insert_eq in Hk by done. injection Hk as <-.
        rewrite list_lookup_insert_eq in Hj by (by eapply lookup_lt_Some). injection Hj as <-. by subst p.
      * rewrite list_lookup_insert_ne in Hk by done. rewrite list_lookup_insert_ne in Hj by done. exact (d_imports _ Hd k x j Hk Hj).
  - split; simpl; [|done|].
    + intros k x Hk. destruct (Hold k x Hk) as (y & ? & ? & _). by exists y.
    + intros k [(x & Hx & Hs)|?]; [left|by right]. destruct (Hold k x Hx) as (y & Hy & _ & Hsy). exists y. auto.
  - left. exists md2. simpl. rewrite list_lookup_insert_eq by done. split; [done|by eexists].
  - simpl. apply length_insert.
Qed.

Lemma job_parse_module_step m u u' ms : job_parse_module m u = Ret (u', ms) -> 0 <= m -> discovered u ->
  discovered u' /\ keeps u u' /\ processed u' (Z.to_nat m) /\
  (forall k, (k < length (mods u'))%nat -> (k < length (mods u))%nat \/ Z.of_nat k ∈ ms) /\
  (forall k, k ∈ ms -> 0 <= k).
Proof.
  intros (md & Hmd%get_idx_inv & H)%res_bind_inv Hm Hd.
  assert (forall u1, mods u1 = mods u -> discovered u1 /\ keeps u u1 /\ processed u1 (Z.to_nat m) ->
    discovered u1 /\ keeps u u1 /\ processed u1 (Z.to_nat m) /\
    (forall k, (k < length (mods u1))%nat -> (k < length (mods u))%nat \/ Z.of_nat k ∈ []) /\
    (forall k : Z, k ∈ [] -> 0 <= k)) as Hnone.
  { intros u1 E (? & ? & ?). split_and!; [done..|rewrite E; by left|by intros k ?%elem_of_nil]. }
  destruct (read_file (path md)) as [|err|contents].
  1,2: apply res_bind_inv in H as (u1 & H & [= <- <-]);
    destruct (fail_to_read_step _ _ _ _ H Hm Hd) as (? & ? & ? & ?); by apply Hnone.
  apply res_bind_inv in H as ([r v] & _ & H). set (u0 := set_front_cu _ u) in H.
  assert (discovered u0 /\ keeps u u0 /\ mods u0 = mods u) as (Hd0 & K0 & M0).
  { split_and!; [|by split; eauto|done]. by destruct Hd. }
  destruct r as [vuir|diags].
  - apply res_bind_inv in H as (u1 & H1 & H).
    destruct (set_source_step _ _ _ _ H1 Hd0) as (Hd1 & K1 & M1 & _).
    apply res_bind_inv in H as ([u2 ms2] & H2 & H).
    destruct (discover_imports_step _ _ _ _ _ _ H2 Hd1) as (Hd2 & K2 & R2 & L2 & P2).
    apply res_bind_inv in H as (u3 & H3 & [= <- <-]).
    assert (keeps u u2) as K02 by (etrans; [exact K0|by etrans]).
    destruct (k_modules _ _ K02 _ _ Hmd) as (md2 & Hmd2 & Ep).
    destruct (set_module_vuir_step _ _ _ _ _ _ H3 Hd2 Hmd2 Ep R2) as (Hd3 & K3 & Pr & L3).
    split_and!; [done|by etrans|done| |done].
    intros k. rewrite L3. intros Hk. rewrite <- M0, <- M1. by apply L2.
  - apply res_bind_inv in H as (u1 & H1 & H). apply res_bind_inv in H as (u2 & H2 & [= <- <-]).
    assert (discovered (add_failed m u0)) as Hdf by (by destruct Hd0).
    destruct (set_source_step _ _ _ _ H1 Hdf) as (Hd1 & K1 & M1 & _).
    pose proof H2 as (j & Hj & E2)%update_info_inv. subst u2. apply update_info_step in H2 as [Hd2 K2]; [|done|done].
    apply Hnone; [done|]. split_and!; [done| |].
    + etrans; [exact K0|]. etrans; [apply (add_failed_keeps m)|]. by etrans.
    + apply (k_processed _ _ K2), (k_processed _ _ K1), add_failed_processed, Hm.
Qed.

(** Every module is processed or has a job. *)
Lemma parse_modules_step fuel jobs u u' : parse_modules fuel jobs u = Ret u' -> Forall (fun m => 0 <= m) jobs ->
  discovered u -> (forall k, (k < length (mods u))%nat -> processed u k \/ Z.of_nat k ∈ jobs) ->
  discovered u' /\ keeps u u' /\ (forall k, (k < length (mods u'))%nat -> processed u' k).
Proof.
  revert jobs u. induction fuel as [|fuel IH]; intros [|m jobs] u H Hj Hd Hp; try done.
  1,2: injection H as <-; split_and!; [done|reflexivity|]; intros k Hk; by destruct (Hp k Hk) as [?|?%elem_of_nil].
  simpl in H. apply res_bind_inv in H as ([u1 ms] & H1 & H). apply Forall_cons in Hj as [Hm Hj].
  destruct (job_parse_module_step _ _ _ _ H1 Hm Hd) as (Hd1 & K1 & P1 & L1 & N1).
  destruct (IH _ _ H) as (Hd2 & K2 & P2); [|done| |].
  - apply Forall_app. split; [done|]. by apply Forall_forall.
  - intros k Hk. destruct (L1 k Hk) as [Hk0|?]; [|right; apply elem_of_app; by right].
    destruct (Hp k Hk0) as [?|[<-|?]%elem_of_cons]; [left; by apply (k_processed _ _ K1)| |right; apply elem_of_app; by left].
    left. by rewrite Nat2Z.id in P1.
  - split_and!; [done|by etrans|done].
Qed.

Lemma number_paths_ids (i : nat) (paths : list (list Z)) (m : gmap (list Z) Z) (l : list Module_) :
  (forall (f : list Z) (k : Z), m !! f = Some k -> exists md, l !! Z.to_nat k = Some md /\ path md = f) ->
  length l = i ->
  forall (f : list Z) (k : Z), number_paths (Z.of_nat i) paths m !! f = Some k ->
    exists md, (l ++ map new_module paths) !! Z.to_nat k = Some md /\ path md = f.
Proof.
  revert i m l. induction paths as [|p paths IH]; simpl; intros i m l Hm Hl f k Hk.
  { rewrite app_nil_r. by apply Hm. }
  destruct (IH (S i) (<[p := Z.of_nat i]> m) (l ++ [new_module p])) with (f := f) (k := k) as (md & Hmd & E).
  - intros g j Hg. destruct (decide (g = p)) as [->|Hne].
    + rewrite lookup_insert_eq in Hg. injection Hg as <-. exists (new_module p).
      rewrite Nat2Z.id, list_lookup_middle by done. done.
    + rewrite lookup_insert_ne in Hg by done. destruct (Hm g j Hg) as (md & Hmd & E). exists md.
      split; [by apply lookup_app_l_Some|done].
  - rewrite length_app. simpl. lia.
  - by replace (Z.of_nat (S i)) with (Z.of_nat i + 1) by lia.
  - exists md. by rewrite <- (assoc_L (++)) in Hmd.
Qed.

Lemma new_unit_discovered values root_path : discovered (new_unit values root_path).
Proof.
  split; [done|by apply (number_paths_ids 0 (known_paths root_path) ∅ [])|].
  simpl. intros m md i _ Hi. do 5 (destruct m as [|m]; [injection Hi as <-; constructor|]). done.
Qed.

(** C9: When the parsing jobs are over, every module that was discovered has been
    parsed or has failed, and every file that a parsed module imports has a module
    of its own, under its normalised path. *)
Theorem imports_discovered values root_path scan fuel u :
  parse_modules fuel scan (new_unit values root_path) = Ret u ->
  (forall m, m ∈ scan <-> 0 <= m < 5) ->
  (forall m md, mods u !! m = Some md -> is_Some (module_vuir md) \/ Z.of_nat m ∈ failed_modules u) /\
  (forall m md i imp f, mods u !! m = Some md -> infos u !! m = Some i -> imp ∈ module_imports i ->
     import_file (path md) imp = Ret (Some f) ->
     exists k mdk, ids u !! f = Some k /\ mods u !! Z.to_nat k = Some mdk /\ path mdk = f).
Proof.
  intros H Hs. destruct (parse_modules_step _ _ _ _ H) as (Hd & _ & Hp).
  - apply Forall_forall. intros m Hm%Hs. lia.
  - apply new_unit_discovered.
  - intros k Hk. right. apply Hs. simpl in Hk. lia.
  - split.
    + intros m md Hm. destruct (Hp m) as [(x & Hx & ?)|?]; [by eapply lookup_lt_Some| |by right].
      rewrite Hm in Hx. injection Hx as <-. by left.
    + intros m md i imp f Hm Hi Hin Hf.
      pose proof (proj1 (Forall_forall _ _) (d_imports _ Hd m md i Hm Hi) imp Hin f Hf) as [k Hk].
      exists k. destruct (d_ids _ Hd f k Hk) as (mdk & ? & ?). by exists mdk.
Qed.

End Compile.
End Compile.
