(* ===== verification/CompileExample.v ===== *)
(** * Programs compiled end to end

    Paths with slashes, a host and a small standard library, and programs taken
    through the lexer, the parser, the lowering and the analysis.  The properties
    of the whole system are applied to their runs. *)

From S2P Require Import Prelude Words Bytes Span Token Lexer LexerSpec Diagnostic Render Ast HashIndex ShardedMap VirtDynArray.
From S2P Require Import Anyint Value ValueStore StoreLogic ParserExpr Vuir Vtir SemaState SemaExample LowerState Lower.
From S2P Require Import LowerSyntax LowerSpec SemaAccess SemaCall SemaInst SemaJobs SemaKeep SemaSystem Compile.
From stdpp Require Import gmap.

#[local] Open Scope Z_scope.

Module CompileExample.
Import Ast LowerState LowerExample Sema SemaKeep SemaSystem Compile.

(** ** Files *)

(** The parts of a path before and after its last slash. *)
Fixpoint split_last (s : list Z) : option (list Z * list Z) :=
  match s with
  | [] => None
  | c :: s =>
      match split_last s with
      | Some (a, b) => Some (c :: a, b)
      | None => if c =? 47 then Some ([], s) else None
      end
  end.
#[export] Instance unix_paths : Paths := {|
  path_eq := fun a b => bool_decide (a = b);
  path_parent := fun p => Some (match split_last p with Some (d, _) => d | None => [] end);
  path_join := fun a b => match a with [] => b | _ => a ++ bytes_of "/" ++ b end;
  path_normalize := fun a => a;
  path_file_name := fun p => Some (match split_last p with Some (_, f) => f | None => p end);
|}.

#[export] Instance host : Host := {|
  arch_name := bytes_of "x86_64"; platform_name := bytes_of "linux"; abi_name := bytes_of "gnu";
  big_endian := false; pointer_width := 64;
|}.

(** A text in which a backquote stands for a double quote and a tilde for a new line. *)
Definition text (s : string) : list Z := map (fun c => if c =? 96 then 34 else if c =? 126 then 10 else c) (bytes_of s).

Definition files_of (l : list (string * string)) : Files := {|
  std_path := bytes_of "std";
  read_file := fun p =>
    match find (fun e => bool_decide (bytes_of e.1 = p)) l with
    | Some (_, t) => Contents (text t)
    | None => CannotOpen
    end;
|}.
Definition std_files : list (string * string) :=
  [("std/builtin_prelude.vif", "extern `builtin` #inline fn @import(comptime path: []const u8) type");
   ("std/std.vif", ""); ("std/builtin.vif", "const Target = i32")]%string.

#[export] Existing Instance memx_scalar.
#[export] Instance no_colours : Terminal := {| use_color := false; paint := fun _ text => text |}.
#[export] Instance hashify : Lexer.Hashify := Lexer.hashify_assoc.

Definition fresh_unit : option Unit :=
  match new_values with
  | Ret v => Some (@new_unit _ _ _ (files_of []) v (bytes_of "root.vif"))
  | Fault _ => None
  end.
Definition scan : list Z := [0; 1; 2; 3; 4].
Definition compiled (l : list (string * string)) : res Outcome :=
  match fresh_unit with
  | Some u => @compile _ _ _ _ _ (files_of (l ++ std_files)) _ 60 110 40 scan u
  | None => panic
  end.

(** What a reader of the outcome sees: the errors, or how many instructions each
    function has. *)
Definition seen (r : res Outcome) : option (list Z + list nat) :=
  match r with
  | Ret (ParsingError text) | Ret (SemanticError text) => Some (inl text)
  | Ret (Generated l) => Some (inr (map (fun t => length (body_instructions t.2)) l))
  | Fault _ => None
  end.
(** The rows of a text. *)
Definition rows (l : list string) : list Z := concat (map (fun s => text s ++ [10]) l).

(** ** Programs *)

Definition two_modules : list (string * string) :=
  [("root.vif", "const lib = @import(`lib.vif`) fn f(a: i32) i32 { return lib.g(a) }");
   ("lib.vif", "const one: i32 = 1 fn g(a: i32) i32 { return a + one }");
   ("std/rt.vif", "const root = @import(`root`) fn main() void { const x = root.f(3) }")]%string.

(** A function of a module that imports another is analysed with what it calls. *)
Lemma two_modules_compile : seen (compiled two_modules) = Some (inr [6; 5; 4]%nat).
Proof. vm_compute. reflexivity. Qed.

(** A generic function has an instance per type it is called with. *)
Lemma generic_instances :
  seen (compiled
    [("root.vif", "");
     ("std/rt.vif", "fn id(comptime T: type, a: T) T { return a } fn main() void { const x = id(i32, 3) const y = id(u8, 4) }")]%string)
  = Some (inr [11; 3; 3]%nat).
Proof. vm_compute. reflexivity. Qed.

(** A constant that does not fit is reported, as in [tests/ui/core/bigint-coercion-overflow.vif]. *)
Lemma overflow_reported :
  seen (compiled [("root.vif", ""); ("std/rt.vif", "fn main() void { const x: u8 = 256 }~")]%string)
  = Some (inl (rows
      ["error: coercion failed: constant 256 is too large to fit in a u8";
       "  --> std/rt.vif:1:32";
       "  |";
       "1 | fn main() void { const x: u8 = 256 }";
       "  |                                ^^^"]%string)).
Proof. vm_compute. reflexivity. Qed.

(** A module that is not there, as in [tests/ui/import-missing.vif]. *)
Lemma missing_reported :
  seen (compiled [("root.vif", "const missing = @import(`missing.vif`)~"); ("std/rt.vif", "fn main() void {}")]%string)
  = Some (inl (bytes_of "error: cannot open module `missing.vif`" ++ [10] ++ rows
      ["  --> root.vif:1:25";
       "  |";
       "1 | const missing = @import(`missing.vif`)";
       "  |                         ^^^^^^^^^^^^^ imported here"]%string)).
Proof. vm_compute. reflexivity. Qed.

(** ** The shared unit on the way *)

Definition parsed (l : list (string * string)) : res Sema :=
  match fresh_unit with
  | Some u =>
      u ← @parse_modules _ _ _ _ _ (files_of (l ++ std_files)) 60 110 10 scan u;
      Ret (new (front_cu u) [] 0 0 None)
  | None => panic
  end.

Definition fuel : nat := 40.
Definition module_ (m : Z) : M unit := SemaJobs.sys_module (SemaJobs.system fuel) m ;; mret tt.
Abbreviation turn := (SemaJobs.sys_yield (SemaJobs.system fuel)).
(** The modules are there, and the instance of [main] waits for its analysis. *)
Definition main_queued : res Sema :=
  s ← parsed two_modules; '(_, s) ← (module_ 1 ;; module_ 3 ;; module_ 4 ;; turn) s; Ret s.

(** A condition that a run meets. *)
Definition meets (r : res Sema) (p : Sema -> bool) : bool := match r with Ret s => p s | Fault _ => false end.
Lemma meets_run r p : meets r p = true -> exists s, r = Ret s /\ p s = true.
Proof. destruct r as [s|]; [by exists s|done]. Qed.

Definition succeeds {A} (r : res A) : bool := match r with Ret _ => true | Fault _ => false end.
Lemma succeeds_run {A} (r : res A) : succeeds r = true -> exists a, r = Ret a.
Proof. destruct r as [a|]; [by exists a|done]. Qed.

Definition pendingb (m : Module_) : bool :=
  match sema_state m with ModuleAnalyzeState.Pending => true | _ => false end.
Definition untouched (s : Sema) : bool :=
  match spawned (cu s) with [] => true | _ => false end && bool_decide (sema_jobs (cu s) = ∅) &&
  forallb pendingb (modules (cu s)).

Lemma compile_leaves_nothing_witness : exists s s',
  SemaJobs.compile_modules fuel s = Ret (tt, s') /\ spawned (cu s') = [] /\
  (forall u st, sema_jobs (cu s') !! u = Some st -> st = JobDone).
Proof.
  destruct (meets_run (parsed two_modules) (fun s => untouched s && succeeds (SemaJobs.compile_modules fuel s))) as (s & _ & [Hu Hf]%andb_true_iff);
    [vm_compute; reflexivity|].
  apply succeeds_run in Hf as [[[] s'] E].
  apply andb_true_iff in Hu as [[Hs Hj%bool_decide_eq_true]%andb_true_iff Hp].
  exists s, s'. split; [done|].
  destruct (compile_leaves_nothing fuel s s' E) as (H1 & H2 & _); [by destruct (spawned (cu s))|done| |done].
  intros i m Hm. pose proof (proj1 (forallb_forall _ _) Hp m) as Hpm. unfold pendingb in Hpm.
  destruct (sema_state m); [done|..]; discriminate (Hpm (proj1 (list_elem_of_In _ _) (list_elem_of_lookup_2 _ _ _ Hm))).
Defined.

#[local] Instance SemaJobState_eq_dec : EqDecision SemaJobState.
Proof. solve_decision. Defined.
Definition queue_okb (c : Cu) : bool :=
  bool_decide (NoDup (queue c)) && forallb (fun u => bool_decide (sema_jobs c !! u = Some Queued)) (queue c).
Lemma queue_okb_ok c : queue_okb c = true -> queue_ok c.
Proof.
  intros [H1%bool_decide_eq_true H2]%andb_true_iff. split; [done|]. intros u Hu.
  eapply bool_decide_eq_true_1, (proj1 (forallb_forall _ _) H2), list_elem_of_In, Hu.
Qed.

(** The unit at the head of the queue, and a name of the run-time module. *)
Definition head_unit (s : Sema) : option SemaUnit.SemaUnit := head (spawned (cu s)) ≫= job_unit.
Definition ident (s : string) : Ident :=
  {| Ident.symbol := bytes_of s; Ident.kind := Token.User; Ident.span := Span.mk 0 1 |}.
Definition looking_up (name : string) (s : Sema) : Sema :=
  match modules (cu s) !! 4%nat ≫= module_namespace with
  | Some ns => set_blocks [mk_block ns None [] None true false [] [] None] (new (cu s) [Vuir.DeclVal (ident name)] 4 0 None)
  | None => s
  end.

Lemma unit_runs_once_witness : exists s u s',
  spawned (cu s) = [Job.AnalyzeUnit u] /\ turn s = Ret (tt, s') /\ sema_jobs (cu s') !! u = Some JobDone.
Proof.
  destruct (meets_run main_queued (fun s => (length (spawned (cu s)) =? 1)%nat && queue_okb (cu s) &&
    bool_decide (is_Some (head_unit s)) && succeeds (turn s))) as (s & _ & H); [vm_compute; reflexivity|].
  apply andb_true_iff in H as [[[Hl Hq]%andb_true_iff Hh%bool_decide_eq_true]%andb_true_iff Ht].
  apply succeeds_run in Ht as [[[] s'] E].
  destruct Hh as [u Hu]. unfold head_unit in Hu.
  destruct (spawned (cu s)) as [|j [|]] eqn:Hs; [discriminate Hl| |discriminate Hl]. simpl in Hu.
  destruct j; [injection Hu as ->|discriminate Hu..].
  exists s, u, s'. split; [exact Hs|]. split; [exact E|].
  destruct (unit_runs_once fuel s s' u [] Hs (queue_okb_ok _ Hq) E) as [Hd _]. exact Hd.
Defined.

(** Looking [root] up in the run-time module. *)
Lemma nothing_taken_back_witness : exists s r s',
  SemaJobs.analyze_inst fuel 0 0 s = Ret (r, s') /\ codegen_tasks (cu s) `prefix_of` codegen_tasks (cu s').
Proof.
  destruct (meets_run main_queued (fun s => queue_okb (cu (looking_up "root" s)) &&
    succeeds (SemaJobs.analyze_inst fuel 0 0 (looking_up "root" s))))
    as (s & _ & [Hq Hl]%andb_true_iff); [vm_compute; reflexivity|].
  apply succeeds_run in Hl as [[r s'] E].
  exists (looking_up "root" s), r, s'. split; [exact E|].
  destruct (nothing_taken_back fuel 0 0 _ r s' E (queue_okb_ok _ Hq)) as (_ & _ & _ & Ht & _). exact Ht.
Defined.

(** A global whose initializer is the instruction 3. *)
Definition waiting : Decl := {|
  decl_name := bytes_of "a"; full_qualified_name := bytes_of "root.a"; decl_is_const := true;
  decl_module := 0; decl_namespace := 0; analysis_state := Unanalysed 0 1 |}.
Definition running_decl (v : Sema.Store) : Sema :=
  set_cu (set_decls [waiting] (set_sema_jobs {[SemaUnit.DeclValue 0 := Queued]} (SemaExample.unit_of v)))
    (SemaExample.state_of v []).
Definition global : Vuir.Decl :=
  {| Vuir.decl_name := bytes_of "a"; Vuir.decl_value := [3]; Vuir.decl_is_const := true; Vuir.decl_span := Span.mk 0 9 |}.


(** The modules of a program that imports a file next to it. *)
Abbreviation parsed_unit v :=
  (@parse_modules _ _ _ _ _ (files_of (two_modules ++ std_files)) 60 110 10 scan
    (@new_unit _ _ _ (files_of (two_modules ++ std_files)) v (bytes_of "root.vif"))).
Lemma imports_discovered_witness : exists v u, parsed_unit v = Ret u /\
  (forall m md, modules (front_cu u) !! m = Some md ->
     is_Some (module_vuir md) \/ Z.of_nat m ∈ failed_modules u).
Proof.
  assert (match new_values with Ret v => succeeds (parsed_unit v) | Fault _ => false end = true) as H
    by (vm_compute; reflexivity).
  destruct new_values as [v|]; [|discriminate H]. apply succeeds_run in H as [u H]. exists v, u. split; [exact H|].
  pose proof (fun s => proj1 (@imports_discovered _ _ _ _ _ (files_of (two_modules ++ std_files)) 60 110 v _ scan 10 u H s))
    as Hd.
  apply Hd. intros m. unfold scan. rewrite !elem_of_cons, elem_of_nil. lia.
Defined.
End CompileExample.
